(* ===== verification/_CoqProject ===== *)
-Q . S2P
Prelude.v
Net.v
Protocol.v
SecureID.v
MD5.v
SHA256.v
Wire.v
Btree.v
BtreeIface.v
KTable.v
TableIface.v
Responder.v
Server.v
Lexer.v
Fts.v
PeerRep.v
Metainfo.v
Requester.v
RequestChain.v
Concurrency.v
Regex.v
Dates.v
Anime.v
Keywords.v
Episodes.v
Workflow.v
Csam.v
ExternalIP.v
CsamExport.v
NamePolicy.v
Classifier.v
Blocking.v
ContentFilter.v
Titles.v
Languages.v
Tmdb.v
Matching.v
ReleaseInfo.v
VideoParser.v
Evidence.v
TitleEvidence.v
Liveness.v
Seeds.v
CrawlerStages.v
Crawler.v
