(* ===== verification/Prelude.v ===== *)
(** * BitAgent: a verification library

    BitAgent is a crawler of the BitTorrent DHT with a searchable catalogue.
    It answers and sends queries of the DHT (BEP 5, 42 and 51), keeps a
    Kademlia routing table, samples info hashes, asks peers for the metadata of
    torrents (BEP 9 and 10), screens what they send, classifies it, and indexes
    it for full text search in PostgreSQL.  This library models the parts of
    the program that decide something, translates them from the Go sources
    under [internal/], and proves what makes them correct.

    ** How the parts interact

    A datagram reaches the server ([protocol/dht/server]); a response goes to
    the query that waits for it, a query to the responder
    ([protocol/dht/responder]), behind a rate limit and followed by node
    discovery.  Responder and crawler read and write the routing table
    ([protocol/dht/ktable]), which stores nodes and hashes in two keyspaces
    over an XOR prefix tree ([ktable/btree]) and an index by address.

    The crawler ([dhtcrawler]) is a pipeline of goroutines over channels
    ([concurrency]).  Sampled hashes are triaged against the exclusions of the
    name policy ([namepolicy]), the child-safety list ([csamblocklist]), the
    blocking manager ([blocking]) and the catalogue; peers of the rest are
    asked for metadata by the requester
    ([protocol/metainfo/metainforequester]), behind a peer reputation cache
    ([metainfo/peerrep]) and a rate limit; the metadata is validated
    ([metainfo/validate.go]), screened ([metainfo/banning], [namepolicy],
    [classifier/contentfilter]) and stored.

    A stored torrent is classified ([classifier]): a workflow, written in YAML,
    is compiled against a table of actions and conditions, and run on the
    torrent.  Its actions read dates, episodes and keywords from the name
    ([model], [classifier/parsers], [keywords], [regex], [lexer]), consult the
    name policy and find content to attach: in the catalogue by fuzzy search
    ([classifier/search.go], [fuzzy.go]) or at TMDB ([tmdb]), under titles in a
    normal form ([titlenorm]); the attributes of the release are inferred from
    its name ([model]).  The text of the result ends up in a tsvector and is
    searched by a tsquery ([database/fts]).

    What other services know of a torrent is evidence ([evidence]): the pollers
    of qBittorrent and of the *arr services and a webhook insert it, and the
    strongest piece becomes the canonical label that the classifier obeys.  Each
    insertion also drives the liveness ladder of the torrent
    ([evidence/liveness]), as do the scrapes of public trackers that refresh the
    seeder counts ([seeds]).

    ** Files

    Shared:
    - [Prelude]: outcomes of Go functions (a value, an error or a panic), as a
      monad; machine integers with their wrap-around; bytes and bits; tactics,
      hints and list lemmas.
    - [Net]: what the code uses of net/netip and net.IP.
    - [MD5], [SHA256]: the checksums of announce tokens and of double hashes.
    - [Regex]: Go's regular expressions, from pattern text to submatches, with
      the relation that says what a pattern matches.

    The DHT:
    - [Protocol]: identifiers, [protocol/id.go] and [int160.go].
    - [SecureID]: BEP 42 node identifiers, [protocol/secure_id.go], CRC-32C; a
      bit-serial reference of the document's own formula.
    - [ExternalIP]: the public address of the process, the identity derived from
      it and the watcher of changes ([protocol/externalip], [dhtfx/module.go]),
      against the interface of a resolver.
    - [Wire]: the message types and compact encodings of [protocol/dht].
    - [Btree]: the prefix tree, [ktable/btree].  Its specification is a set of
      identifiers with an admission rule.
    - [BtreeIface]: the tree as an interface (a class of operations and one of
      laws), its instances: the tree, and the Prometheus wrapper around any
      other instance.
    - [KTable]: reverse map, keyspaces, nodes, hashes, commands and queries of
      the routing table, against the interface of the tree.  Its specification
      is a directory.
    - [TableIface]: the table as an interface, discharged by [KTable].
    - [Responder]: queries, tokens, rate limit and discovery, against the
      interface of the table.
    - [Server]: transactions as a step relation over all interleavings of
      queries, responses, deliveries and timeouts; error paths of [Query]; the
      client adapter.

    Metadata and the crawler:
    - [PeerRep]: the reputation cache over an interface of the LRU, which all
      peers share and which evicts in order of use.
    - [Metainfo]: validation, parsing and banning of metadata, with UTF-8.
    - [Requester], [RequestChain]: the metadata exchange over a byte stream;
      the layers around it and how failures are classified.
    - [Concurrency]: the channels between the crawler's stages as step systems.
    - [Csam], [CsamExport]: feeds and filter of the child-safety list; the log
      of hashes this instance has seen and its upload, with the redirects that
      http.Client follows and with calls that run at the same time.
    - [NamePolicy]: the policy on release names, as Go code and as SQL.
    - [Blocking]: the blocking manager over a stable bloom filter.
    - [ContentFilter]: the operator's rules on what is kept.
    - [CrawlerStages], [Crawler]: the handlers of the crawler; the pipeline as
      a step relation over the state of all the components above.

    Classification and search:
    - [Dates], [Episodes], [Anime], [Keywords]: dates, episode sets, anime
      release names and the keyword language.
    - [Workflow]: the compiler of classifier workflows ([classifier/action*.go],
      [condition*.go], [payload.go], [source.go]).  Its specification is
      the grammar that the compiler implements; the JSON schema that the sources
      publish is modelled too.
    - [Classifier]: what the compiled actions do, over a store of shared maps;
      the runner, canonical hints, enrichment of a predicted type; the core
      workflow that ships with the program.
    - [Titles], [Languages]: the normal forms and comparisons of titles; the
      table of languages and their inference from names.
    - [Tmdb], [Matching]: the TMDB client with its layers and its mapping to
      content; the choice of content among the results of a search.
    - [ReleaseInfo], [VideoParser]: the attributes of a release inferred from its
      name; titles, years and episodes of video releases.
    - [Lexer], [Fts]: the rune lexer; quoting, tokenizer, tsvector and tsquery.

    Evidence:
    - [Evidence]: the store of evidence and canonical labels, the pollers, the
      webhook, the privacy predicates in Go and in SQL, the freshness of sources.
    - [TitleEvidence]: the identity that other torrents of a title carry.
    - [Liveness]: the ladder of a torrent between alive, suspect and dead; its
      specification is an automaton over the signals of one torrent.  A handler
      that issues two statements is two steps.
    - [Seeds]: the choice, scrape and storage of a batch of seeder counts.

    A file is one [Module] of its name.  Definitions keep the names of the
    sources; a [_loop] is the loop of the function it is named after, and a
    clock reading, a random choice or a map's iteration order is an argument.

    ** What the theorems show

    - Refinement: the tree implements a set with an admission rule
      ([btree_refines_set], [btree_admission]), the table a directory whose
      indexes agree ([ktable_refines_directory], [ktable_index_sound]).
    - Queries of the table: [Closest] and [GetClosestNodes] return as many
      entries as they should, in bucket order; sampling stays in its bounds.
    - Protocol: compact encodings round-trip and decoding is total; a token of
      get_peers admits announce_peer, after which get_peers finds the peer;
      responses reach the query they answer in every interleaving.
    - Identifiers: the XOR metric, hexadecimal round trips; the verifier
      accepts exactly the identifiers that BEP 42 describes, and those that are
      generated among them.
    - Metadata: a request never panics and yields only metadata that the peer
      sent, that hashes to the infohash and passed every check; an honest peer
      is served whatever order and noise it sends; accepted paths cannot leave
      their directory (the UTF-8 variants of names and paths are not checked).
    - Reputation: the backoff of the n-th failure whatever other peers do, as
      long as the entry is not evicted; no permanent ban, shadow
      mode changes nothing, a suppressed peer is not contacted.
    - Channels: batches spell what was sent, in order and in bounded size; at
      most the configured number of values is processed at a time; in every
      interleaving.
    - Crawler: in every interleaving of the stages with refreshes of the list,
      a hash that is blocked or excluded is never asked for, fetched or stored,
      what is stored was judged and let through, what is in the catalogue is not
      fetched again, and what triage does with a hash is exactly what the
      policies and the catalogue say.
    - Policies: the filter of the child-safety list has no false negatives over
      refreshes and failing feeds; what is exported are double hashes of
      torrents with a banned keyword, posted to the configured URL and where its
      answers redirect, the token to that host and its subdomains alone; the
      name policy's SQL and its Go code agree; the content filter drops exactly
      what its ladder of rules says; keyword patterns match the words they
      denote.
    - Classification: the workflow compiler accepts exactly a grammar, which
      includes what the JSON schema admits; a compiled workflow without cycles
      always finishes; a result that violates the policy is never kept, an action
      only adds what it says,
      enrichment attaches content exactly when one candidate of the release's own
      title and year remains, canonical evidence fixes the identity.
      Dates and episode sets round-trip through their text, the date lexer finds
      a date wherever it stands, and parsed episodes are bounded.
    - Matching: titles have a normal form, the chosen candidate is the
      preferred one of those that match, the year counting before the title, a
      client that was refused by TMDB sends nothing more; inferred attributes are
      values of their types and unambiguous, and a parsed release is coherent: its
      type, year, episodes and title fit each other.
    - Evidence: the canonical label is the strongest evidence whatever the order
      and the failures; the privacy predicates in Go and SQL agree; a private
      category is recorded and its pieces are not kept; pieces that are kept hash
      to their torrent; a title's identity is the only one that two thirds of the
      other votes agree on.
    - Liveness: the table implements one automaton per torrent under every
      interleaving of statements, with promotions that are decided and not yet
      made; a dead torrent was stalled often and long enough and a
      stalled one is blacklisted; remote scrapes never promote.
    - Seeds: in every interleaving of the trackers the outcome is the greatest of
      the answers, a denial is final, no private hash is sent to a tracker, a
      batch ends, and choosing batches never starves rechecks.
    - External address: which addresses are accepted, and when exactly the
      watcher has the process restarted.
    - Search: tsvectors survive their text form, added text keeps positions
      apart, every query text gives a well-formed tsquery.
    - A few theorems state what the code does where that is not what a comment
      says or what it seems to intend: admission counts the last leaf of a path
      the wrong way round, a fresh node is not indexed by address, error
      replies are typed as responses, a sender can block for good, peers of
      another swarm are not classified as such, closing a batching channel does
      not end its goroutine, slices are cut silently, the tags an abandoned
      branch of [find_match] wrote stay, a recursive workflow does not finish, a
      range of seasons after a title is cut, a torrent that becomes private later
      stays public to the gates, a promotion to dead can overwrite a sign of life,
      the setting that excludes private grabs has no effect, reserved addresses
      pass for public ones, the export token can be sent in clear text after a
      redirect, an unspecified address has secure identifiers.

    ** Fuel and bounds

    Loops that are not structural carry fuel, and running out of it is a panic
    or an error that the theorems exclude.  The readers of [Requester] use at
    least four bytes of input per round, so one more than the length of the
    input is enough; the lexer loops of [Fts] and [Dates] consume a rune or
    end, so the length of the text is enough; the tree is walked along an
    identifier, structurally.  The parser of [Regex] consumes a rune per level,
    and an iteration of its matcher that consumes nothing ends the repetition,
    so the length of the pattern and of the text are enough.  The compiler of
    [Workflow] recurs on parts of the payload, so its size is enough; the fuel
    of a run in [Classifier] is the depth to which workflows call each other,
    which is finite exactly when they do not recur.  Times are integers
    (nanoseconds) without overflow; counters that can overflow ([int] failures,
    transaction identifiers) wrap.  The share test of [TitleEvidence] is computed
    in binary64 and shown exact up to 250 votes, by evaluation.

    ** Third-party code

    What is not part of the repository is a class of operations with the laws
    its documentation promises, and each theorem that uses one has a witness
    with a concrete instance: the Unicode tables ([Unicode], [UnicodeTables]),
    the bencode codec ([Bencode]), SHA-1 and the derived fields of torrent
    metadata ([Torrent]), the LRU cache ([LRU]), bloom filters ([Bloom],
    [StableBloom]), the pattern builder hedhyw/rex ([Rex], [RexGroups]),
    mapstructure ([Decoder]), cel-go ([Cel]), the services behind the
    classifier ([Services]), the transformations of golang.org/x/text
    ([Transforms]), edit distances ([Levenshtein]), the search of the catalogue
    ([SearchBackend]), the HTTP client and JSON of TMDB, rate limiters.  The
    answers of services (qBittorrent, the *arr services, trackers, address
    services) are inputs.  A statement of PostgreSQL is the function on the rows
    of its tables that the text of the statement describes, a failure an input.

    ** Not modelled

    Sockets, goroutine scheduling outside the server's transactions and the
    crawler's pipeline, dependency wiring and metrics registration have no
    logic to check.  The database layer builds SQL whose meaning is
    PostgreSQL's; the conditions of a workflow are CEL programs of a
    third-party engine; the GraphQL layer is generated; [_legacy] is not built
    into the program.  Candidates for an extension, in this order: the priors of
    the evidence store (floating-point ranking); the worker registry; serving
    and retention policies; the Torznab category tree. *)
From stdpp Require Import base gmap list strings sets.
From Stdlib Require Import ZArith Lia Ascii.
From Stdlib Require String.
From stdpp Require Import options.

#[global] Arguments Nat.div : simpl never.
#[global] Arguments Nat.modulo : simpl never.

(** ** Outcomes of Go functions

    A Go function that may return an error or panic is a value of
    [outcome E A]: [Ok a] is a normal return, [Err e] a non-nil error and
    [Panic] a run-time panic (index out of range, nil dereference, an
    explicit [panic]).  A function that returns no error uses [go A]. *)
Inductive outcome (E A : Type) : Type :=
| Ok (a : A)
| Err (e : E)
| Panic.
Arguments Ok {E A} a.
Arguments Err {E A} e.
Arguments Panic {E A}.

Abbreviation go A := (outcome Empty_set A).

#[export] Instance outcome_ret E : MRet (outcome E) := λ A a, Ok a.
#[export] Instance outcome_bind E : MBind (outcome E) := λ A B k m,
  match m with Ok a => k a | Err e => Err e | Panic => Panic end.
#[export] Instance outcome_fmap E : FMap (outcome E) := λ A B f m,
  match m with Ok a => Ok (f a) | Err e => Err e | Panic => Panic end.

(** [lift_go m] runs a panicking computation inside one that returns errors. *)
Definition lift_go {E A} (m : go A) : outcome E A :=
  match m with Ok a => Ok a | Err e => match e with end | Panic => Panic end.

(** [of_option o] turns an absent value into a panic: an index read. *)
Definition of_option {E A} (o : option A) : outcome E A :=
  match o with Some a => Ok a | None => Panic end.

(** ** Machine integers and bytes

    A w-bit unsigned integer is a [Z] in [0, 2^w). *)
Definition wrap (w : Z) (z : Z) : Z := z `mod` 2 ^ w.
Definition uint8 (z : Z) : Z := wrap 8 z.
Definition uint16 (z : Z) : Z := wrap 16 z.
Definition uint32 (z : Z) : Z := wrap 32 z.

(** A Go [int]: 64 bits, two's complement. *)
Definition int64 (z : Z) : Z := (wrap 64 (z + 2 ^ 63) - 2 ^ 63)%Z.

(** A byte string, [[]byte] or a fixed-size array, is a [list Z]. *)
Abbreviation bytes := (list Z).

Definition byte_ok (b : Z) : Prop := (0 ≤ b < 256)%Z.
Definition bytes_ok (l : bytes) : Prop := Forall byte_ok l.

(** [b[n:]]: panics when the low bound exceeds the length. *)
Definition slice_from {E A} (l : list A) (n : nat) : outcome E (list A) :=
  if decide (n ≤ length l) then Ok (drop n l) else Panic.

(** [hex.EncodeToString]: two lower-case digits per byte. *)
Definition hex_digit (d : Z) : ascii :=
  ascii_of_N (Z.to_N (if (d <? 10)%Z then 48 + d else 87 + d)).
Definition hex_encode (l : bytes) : string :=
  String.string_of_list_ascii (l ≫= λ b, [hex_digit (b / 16); hex_digit (b `mod` 16)]%Z).

(** Most significant bit first, as the Kademlia code reads identifiers. *)
Definition byte_bits (b : Z) : list bool :=
  (λ j : nat, Z.testbit b (7 - Z.of_nat j)) <$> seq 0 8.
Definition bits (l : bytes) : list bool := l ≫= byte_bits.

(** The expression [b >> k & 1 == 1] of the sources. *)
Definition bit_at (b k : Z) : bool := (Z.land (Z.shiftr b k) 1 =? 1)%Z.

Create HintDb bytes.

(** ** Tactics *)

(** Destructs the scrutinee of the first [match] or [if] of the goal. *)
Ltac case_goal :=
  match goal with
  | |- context [match ?x with _ => _ end] => destruct x eqn:?
  end.

(** Turns boolean comparisons of the context into propositions. *)
Ltac bool_hyps :=
  repeat match goal with
  | H : (_ && _) = true |- _ => apply andb_true_iff in H; destruct H
  | H : (_ || _) = false |- _ => apply orb_false_iff in H; destruct H
  | H : negb _ = true |- _ => apply negb_true_iff in H
  | H : negb _ = false |- _ => apply negb_false_iff in H
  | H : (_ =? _)%Z = true |- _ => apply Z.eqb_eq in H
  | H : (_ =? _)%Z = false |- _ => apply Z.eqb_neq in H
  | H : (_ <? _)%Z = true |- _ => apply Z.ltb_lt in H
  | H : (_ <? _)%Z = false |- _ => apply Z.ltb_ge in H
  | H : (_ <=? _)%Z = true |- _ => apply Z.leb_le in H
  | H : (_ <=? _)%Z = false |- _ => apply Z.leb_gt in H
  | H : bool_decide _ = true |- _ => apply bool_decide_eq_true_1 in H
  | H : bool_decide _ = false |- _ => apply bool_decide_eq_false_1 in H
  end.

(** Splits on every integer comparison of the goal. *)
Ltac zcases :=
  repeat match goal with
  | |- context [(?a <=? ?b)%Z] => destruct (Z.leb_spec a b)
  | |- context [(?a <? ?b)%Z] => destruct (Z.ltb_spec a b)
  | |- context [(?a =? ?b)%Z] => destruct (Z.eqb_spec a b)
  end.

(** Solves a goal about bytes by checking its bits. *)
Ltac bitwise :=
  apply Z.bits_inj'; intros ?i ?Hi;
  repeat first [ rewrite Z.lxor_spec | rewrite Z.land_spec | rewrite Z.lor_spec
               | rewrite Z.lnot_spec by lia | rewrite Z.shiftl_spec by lia
               | rewrite Z.shiftr_spec by lia | rewrite Z.bits_0 ].

(** ** Generic lemmas *)

Lemma list_filter_all {A} (P : A → Prop) `{∀ x, Decision (P x)} (l : list A) :
  (∀ x, x ∈ l → P x) → filter P l = l.
Proof.
  induction l as [|x l IH]; intros Hl; [done|].
  rewrite filter_cons_True by (apply Hl; constructor). f_equal.
  apply IH. intros y Hy. apply Hl. by constructor.
Qed.

Lemma list_filter_none {A} (P : A → Prop) `{∀ x, Decision (P x)} (l : list A) :
  (∀ x, x ∈ l → ¬ P x) → filter P l = [].
Proof.
  induction l as [|x l IH]; intros Hl; [done|].
  rewrite filter_cons_False by (apply Hl; constructor).
  apply IH. intros y Hy. apply Hl. by constructor.
Qed.

Lemma outcome_bind_Ok {E A B} (m : outcome E A) (k : A → outcome E B) b :
  m ≫= k = Ok b ↔ ∃ a, m = Ok a ∧ k a = Ok b.
Proof. split; [destruct m; cbn; eauto; done|]. by intros (? & -> & ?). Qed.

Lemma bit_at_testbit b k : (0 ≤ k)%Z → bit_at b k = Z.testbit b k.
Proof.
  intros Hk. unfold bit_at.
  change 1%Z with (Z.ones 1) at 1. rewrite Z.land_ones, Z.shiftr_div_pow2 by lia.
  rewrite Z.testbit_odd, Z.shiftr_div_pow2, Z.pow_1_r, Zmod_odd by lia.
  by destruct (Z.odd _).
Qed.

Lemma length_byte_bits b : length (byte_bits b) = 8.
Proof. reflexivity. Qed.

Lemma bits_cons b l : bits (b :: l) = byte_bits b ++ bits l.
Proof. reflexivity. Qed.

Lemma length_bits l : length (bits l) = 8 * length l.
Proof.
  induction l as [|b l IH]; [done|].
  rewrite bits_cons, length_app, length_byte_bits, IH. simpl. lia.
Qed.

Lemma bits_app l1 l2 : bits (l1 ++ l2) = bits l1 ++ bits l2.
Proof. apply bind_app. Qed.

Lemma byte_bits_lookup b j :
  byte_bits b !! j = if decide (j < 8) then Some (Z.testbit b (7 - Z.of_nat j)) else None.
Proof.
  unfold byte_bits. case_decide as Hj.
  - rewrite list_lookup_fmap, lookup_seq_lt by lia. done.
  - apply lookup_ge_None_2. rewrite length_fmap, length_seq. lia.
Qed.

Lemma bits_lookup l n :
  bits l !! n = (λ b, Z.testbit b (7 - Z.of_nat (n mod 8))) <$> l !! (n / 8).
Proof.
  revert n. induction l as [|b l IH]; intros n; [done|].
  rewrite bits_cons. destruct (decide (n < 8)) as [Hn|Hn].
  - rewrite lookup_app_l by (rewrite length_byte_bits; lia).
    rewrite byte_bits_lookup, decide_True by done.
    by rewrite Nat.div_small, Nat.mod_small.
  - rewrite lookup_app_r by (rewrite length_byte_bits; lia).
    rewrite length_byte_bits, IH.
    assert (∃ m, n = m + 1 * 8) as [m ->] by (exists (n - 8); lia).
    rewrite Nat.Div0.mod_add, Nat.div_add by lia.
    replace (m + 1 * 8 - 8) with m by lia.
    by replace (m / 8 + 1) with (S (m / 8)) by lia.
Qed.

Lemma testbit_high z k i : (0 ≤ z < 2 ^ k)%Z → (k ≤ i)%Z → Z.testbit z i = false.
Proof.
  intros Hz Hi. destruct (decide (k < 0)%Z); [rewrite Z.pow_neg_r in Hz; lia|].
  rewrite <-(Z.mod_small z (2 ^ k)) by lia. apply Z.mod_pow2_bits_high. lia.
Qed.

Lemma testbit_byte_high b i : byte_ok b → (8 ≤ i)%Z → Z.testbit b i = false.
Proof. intros Hb. by apply (testbit_high b 8). Qed.

(** Joining a high part and a low part of [k] bits. *)
Lemma lor_shiftl_add hi lo k :
  (0 ≤ k)%Z → (0 ≤ lo < 2 ^ k)%Z → Z.lor (Z.shiftl hi k) lo = (hi * 2 ^ k + lo)%Z.
Proof.
  intros Hk Hlo. rewrite <-Z.shiftl_mul_pow2 by lia.
  assert (Z.land (Z.shiftl hi k) lo = 0%Z).
  { apply Z.bits_inj'. intros i Hi. rewrite Z.land_spec, Z.shiftl_spec, Z.bits_0 by lia.
    destruct (decide (i < k)%Z); [by rewrite Z.testbit_neg_r by lia|].
    rewrite (testbit_high lo k) by lia. apply andb_false_r. }
  by rewrite Z.add_nocarry_lxor, Z.lxor_lor.
Qed.

Lemma byte_bits_inj b1 b2 : byte_ok b1 → byte_ok b2 → byte_bits b1 = byte_bits b2 → b1 = b2.
Proof.
  intros H1 H2 E. apply Z.bits_inj'. intros i Hi.
  destruct (decide (i < 8)%Z).
  - assert (Hl : byte_bits b1 !! Z.to_nat (7 - i) = byte_bits b2 !! Z.to_nat (7 - i))
      by by rewrite E.
    rewrite !byte_bits_lookup, !decide_True in Hl by lia.
    injection Hl as Hl. by replace (7 - Z.of_nat (Z.to_nat (7 - i)))%Z with i in Hl by lia.
  - by rewrite !testbit_byte_high by (done || lia).
Qed.

Lemma bits_inj l1 l2 : bytes_ok l1 → bytes_ok l2 → bits l1 = bits l2 → l1 = l2.
Proof.
  revert l2. induction l1 as [|b1 l1 IH]; intros [|b2 l2] H1 H2 E; try done.
  apply Forall_cons in H1 as [Hb1 H1]. apply Forall_cons in H2 as [Hb2 H2].
  rewrite !bits_cons in E. apply app_inj_1 in E as [E1 E2]; [|done].
  f_equal; [by apply byte_bits_inj|by apply IH].
Qed.

Lemma byte_bits_lxor a b : byte_bits (Z.lxor a b) = zip_with xorb (byte_bits a) (byte_bits b).
Proof. cbn. by rewrite !Z.lxor_spec. Qed.

Lemma bits_lxor l1 l2 :
  length l1 = length l2 → bits (zip_with Z.lxor l1 l2) = zip_with xorb (bits l1) (bits l2).
Proof.
  revert l2. induction l1 as [|a l1 IH]; intros [|b l2] Hl; try done.
  injection Hl as Hl. cbn [zip_with]. rewrite !bits_cons, IH, byte_bits_lxor by done.
  by rewrite zip_with_app.
Qed.

(** A byte is a number whose bits from the eighth on are clear. *)
Lemma byte_ok_bits z : (∀ i, (8 ≤ i)%Z → Z.testbit z i = false) → byte_ok z.
Proof.
  intros H. unfold byte_ok. replace z with (z `mod` 2 ^ 8)%Z.
  - apply Z.mod_pos_bound. lia.
  - apply Z.bits_inj'. intros i Hi. destruct (decide (i < 8)%Z).
    + by rewrite Z.mod_pow2_bits_low by lia.
    + rewrite Z.mod_pow2_bits_high, H by lia. done.
Qed.

Lemma byte_ok_lxor a b : byte_ok a → byte_ok b → byte_ok (Z.lxor a b).
Proof.
  intros. apply byte_ok_bits. intros i ?.
  by rewrite Z.lxor_spec, !testbit_byte_high by done.
Qed.

Lemma byte_ok_land a b : byte_ok a → byte_ok (Z.land a b).
Proof. intros. apply byte_ok_bits. intros i ?. by rewrite Z.land_spec, testbit_byte_high. Qed.

Lemma byte_ok_lor a b : byte_ok a → byte_ok b → byte_ok (Z.lor a b).
Proof.
  intros. apply byte_ok_bits. intros i ?.
  by rewrite Z.lor_spec, !testbit_byte_high by done.
Qed.

Lemma byte_ok_uint8 z : byte_ok (uint8 z).
Proof. apply Z.mod_pos_bound. lia. Qed.

Lemma bytes_ok_zip_lxor l1 l2 : bytes_ok l1 → bytes_ok l2 → bytes_ok (zip_with Z.lxor l1 l2).
Proof.
  intros H1 H2. apply Forall_lookup_2. intros i x Hx.
  apply lookup_zip_with_Some in Hx as (a & b & -> & Ha & Hb).
  apply byte_ok_lxor; [by eapply Forall_lookup_1 in Ha|by eapply Forall_lookup_1 in Hb].
Qed.

(** Writing one bit of a byte string. *)
Lemma bits_update (l : bytes) i b b' v :
  l !! (i / 8) = Some b →
  (∀ j, (0 ≤ j < 8)%Z → Z.testbit b' (7 - j) =
     if decide (j = Z.of_nat (i mod 8)) then v else Z.testbit b (7 - j)) →
  bits (<[i / 8 := b']> l) = <[i := v]> (bits l).
Proof.
  intros Hb Hj. apply list_eq. intros n.
  pose proof (lookup_lt_Some _ _ _ Hb) as Hlen.
  assert (i < length (bits l)) as Hi
    by (rewrite length_bits; pose proof (Nat.div_mod_eq i 8); pose proof (Nat.mod_upper_bound i 8); lia).
  rewrite bits_lookup. destruct (decide (n = i)) as [->|Hn].
  - rewrite !list_lookup_insert_eq by done. cbn. rewrite Hj, decide_True; [done..|].
    pose proof (Nat.mod_upper_bound i 8). lia.
  - rewrite (list_lookup_insert_ne _ i n), bits_lookup by done.
    destruct (decide (n / 8 = i / 8)) as [He|He].
    + rewrite He, list_lookup_insert_eq, Hb by done. cbn. rewrite Hj, decide_False; [done| |].
      * intros E. apply Hn. pose proof (Nat.div_mod_eq n 8). pose proof (Nat.div_mod_eq i 8). lia.
      * pose proof (Nat.mod_upper_bound n 8). lia.
    + by rewrite list_lookup_insert_ne by done.
Qed.

(** [Z.shiftl 1 k] has the bit [k] only. *)
Lemma testbit_shiftl_1 k i : (0 ≤ k)%Z → (0 ≤ i)%Z → Z.testbit (Z.shiftl 1 k) i = bool_decide (i = k).
Proof.
  intros. rewrite Z.shiftl_1_l, Z.pow2_bits_eqb by lia.
  destruct (Z.eqb_spec k i); [rewrite bool_decide_eq_true_2|rewrite bool_decide_eq_false_2]; lia || done.
Qed.

Lemma bits_set_bit (l : bytes) i b :
  l !! (i / 8) = Some b →
  bits (<[i / 8 := Z.lor b (Z.shiftl 1 (7 - Z.of_nat (i mod 8)))]> l) = <[i := true]> (bits l).
Proof.
  intros Hb. apply (bits_update _ _ b); [done|]. intros j Hj.
  pose proof (Nat.mod_upper_bound i 8).
  rewrite Z.lor_spec, testbit_shiftl_1 by lia.
  case_decide; [rewrite bool_decide_eq_true_2 by lia; apply orb_true_r|].
  rewrite bool_decide_eq_false_2 by lia. apply orb_false_r.
Qed.

Lemma byte_ok_shiftl_1 k : (0 ≤ k < 8)%Z → byte_ok (Z.shiftl 1 k).
Proof.
  intros. apply byte_ok_bits. intros i ?. rewrite testbit_shiftl_1 by lia.
  apply bool_decide_eq_false_2. lia.
Qed.

Lemma bits_replicate_0 m : bits (replicate m 0%Z) = replicate (8 * m) false.
Proof.
  induction m as [|m IH]; [done|]. cbn [replicate]. rewrite bits_cons, IH.
  replace (8 * S m) with (8 + 8 * m) by lia. by rewrite replicate_add.
Qed.

#[export] Hint Resolve byte_ok_lxor byte_ok_land byte_ok_lor byte_ok_uint8 bytes_ok_zip_lxor : bytes.
