(* ===== verification/Net.v ===== *)
(** * Network addresses

    The part of Go's [net/netip] that the DHT code relies on: an address is
    invalid (the zero value), an IPv4 address of 4 bytes or an IPv6 address of
    16 bytes with a zone; an address with a port.  [Addr.String] is injective,
    so the maps that the sources key by it are keyed by the address here. *)
From S2P Require Import Prelude.
From stdpp Require Import gmap list strings countable pretty.
From Stdlib Require Import ZArith Lia.

Module Net.

Inductive Addr :=
| AddrInvalid
| AddrV4 (b : bytes)
| AddrV6 (b : bytes) (zone : string).

#[export] Instance Addr_eq_dec : EqDecision Addr.
Proof. solve_decision. Defined.

#[export] Instance Addr_countable : Countable Addr.
Proof.
  refine (inj_countable'
    (λ a, match a with
          | AddrInvalid => inl ()
          | AddrV4 b => inr (inl b)
          | AddrV6 b z => inr (inr (b, z))
          end)
    (λ s, match s with
          | inl _ => AddrInvalid
          | inr (inl b) => AddrV4 b
          | inr (inr (b, z)) => AddrV6 b z
          end) _).
  by intros [].
Defined.

Record AddrPort := AddrPortFrom { ap_addr : Addr; ap_port : Z }.

#[export] Instance AddrPort_eq_dec : EqDecision AddrPort.
Proof. solve_decision. Defined.

#[export] Instance AddrPort_countable : Countable AddrPort.
Proof.
  refine (inj_countable' (λ a, (ap_addr a, ap_port a)) (λ '(a, p), AddrPortFrom a p) _).
  by intros [].
Defined.

Definition IsValid (a : Addr) : bool :=
  match a with AddrInvalid => false | _ => true end.

Definition AddrPort_IsValid (a : AddrPort) : bool := IsValid (ap_addr a).

Definition Is4 (a : Addr) : bool := match a with AddrV4 _ => true | _ => false end.

(** IPv4-mapped IPv6: [::ffff:0:0/96]. *)
Definition Is4In6 (a : Addr) : bool :=
  match a with
  | AddrV6 b _ => bool_decide (take 12 b = replicate 10 0%Z ++ [255; 255]%Z)
  | _ => false
  end.

Definition Is6 (a : Addr) : bool := match a with AddrV6 _ _ => true | _ => false end.

(** [As4] panics on an IPv6 address that is not IPv4-mapped and on the
    invalid address. *)
Definition As4 (a : Addr) : go bytes :=
  match a with
  | AddrV4 b => Ok b
  | AddrV6 b _ => if Is4In6 a then Ok (drop 12 b) else Panic
  | AddrInvalid => Panic
  end.

(** [As16] maps an IPv4 address into IPv6 and the invalid address to [::]. *)
Definition As16 (a : Addr) : bytes :=
  match a with
  | AddrV4 b => replicate 10 0%Z ++ [255; 255]%Z ++ b
  | AddrV6 b _ => b
  | AddrInvalid => replicate 16 0%Z
  end.

Definition AsSlice (a : Addr) : bytes :=
  match a with AddrInvalid => [] | AddrV4 b => b | AddrV6 b _ => b end.

(** [AddrFromSlice]: 4 or 16 bytes, anything else is the invalid address. *)
Definition AddrFromSlice (b : bytes) : Addr :=
  if decide (length b = 4) then AddrV4 b
  else if decide (length b = 16) then AddrV6 b ""
  else AddrInvalid.

(** *** Text *)

(** Lower-case hexadecimal without leading zeros. *)
Definition append_hex (v : Z) : string :=
  let d i := String.String (hex_digit (Z.land (Z.shiftr v i) 15)) "" in
  (if v <? 16 then d 0 else if v <? 256 then d 4 +:+ d 0 else if v <? 4096 then d 8 +:+ d 4 +:+ d 0
   else d 12 +:+ d 8 +:+ d 4 +:+ d 0)%Z.

Fixpoint dotted (b : bytes) : string :=
  match b with
  | [] => ""
  | [x] => pretty (Z.to_N x)
  | x :: b => pretty (Z.to_N x) +:+ "." +:+ dotted b
  end.

Fixpoint groups (b : bytes) : list Z :=
  match b with
  | x :: y :: b => (x * 256 + y)%Z :: groups b
  | _ => []
  end.

Fixpoint zero_run (l : list Z) : nat :=
  match l with x :: l => if (x =? 0)%Z then S (zero_run l) else 0 | [] => 0 end.

(** The first longest run of at least two zero groups, as start and length. *)
Fixpoint longest_run (i : nat) (l : list Z) (best : nat * nat) : nat * nat :=
  match l with
  | [] => best
  | _ :: l' =>
    let n := zero_run l in
    longest_run (S i) l' (if (2 <=? n) && (snd best <? n) then (i, n) else best)
  end.

Fixpoint colons (l : list Z) : string :=
  match l with
  | [] => ""
  | [x] => append_hex x
  | x :: l => append_hex x +:+ ":" +:+ colons l
  end.

Definition string6 (b : bytes) : string :=
  let l := groups b in
  let '(start, len) := longest_run 0 l (0, 0) in
  if decide (len = 0) then colons l
  else colons (take start l) +:+ "::" +:+ colons (drop (start + len) l).

Definition zone_suffix (zone : string) : string :=
  if decide (zone = "") then "" else "%" +:+ zone.

(** [Addr.String] *)
Definition Addr_String (a : Addr) : string :=
  match a with
  | AddrInvalid => "invalid IP"
  | AddrV4 b => dotted b
  | AddrV6 b zone =>
    if Is4In6 a then "::ffff:" +:+ dotted (drop 12 b) +:+ zone_suffix zone
    else string6 b +:+ zone_suffix zone
  end.

Lemma Addr_String_examples :
  Addr_String (AddrV4 [192; 0; 2; 1]%Z) = "192.0.2.1" ∧
  Addr_String (AddrV6 ([32; 1; 13; 184] ++ replicate 11 0 ++ [1])%Z "") = "2001:db8::1" ∧
  Addr_String (AddrV6 (replicate 16 0%Z) "eth0") = "::%eth0" ∧
  Addr_String (AddrV6 ([254; 128; 0; 0; 0; 1] ++ replicate 9 0 ++ [9])%Z "") = "fe80:0:1::9" ∧
  Addr_String (AddrV6 (replicate 10 0 ++ [255; 255; 1; 2; 3; 4])%Z "") = "::ffff:1.2.3.4".
Proof. vm_compute. done. Qed.

(** *** [net.IP], a byte slice *)

(** [IP.To4]: nil (the empty slice) when the address is not an IPv4 one. *)
Definition To4 (ip : bytes) : bytes :=
  if decide (length ip = 4) then ip
  else if decide (length ip = 16 ∧ take 12 ip = replicate 10 0%Z ++ [255; 255]%Z) then drop 12 ip
  else [].

(** [IP.Equal]: an IPv4 address equals its IPv6-mapped form. *)
Definition IP_Equal (ip x : bytes) : bool :=
  if decide (length ip = length x) then bool_decide (ip = x)
  else if decide (length ip = 4 ∧ length x = 16)
    then bool_decide (take 12 x = replicate 10 0%Z ++ [255; 255]%Z ∧ ip = drop 12 x)
  else if decide (length ip = 16 ∧ length x = 4)
    then bool_decide (take 12 ip = replicate 10 0%Z ++ [255; 255]%Z ∧ drop 12 ip = x)
  else false.

(** Addresses that [netip] can build. *)
Definition addr_ok (a : Addr) : Prop :=
  match a with
  | AddrInvalid => True
  | AddrV4 b => length b = 4 ∧ bytes_ok b
  | AddrV6 b _ => length b = 16 ∧ bytes_ok b
  end.

End Net.
