(* ===== verification/Protocol.v ===== *)
(** * Identifiers of the DHT

    Models [src/internal/protocol/id.go] and [int160.go]: 20-byte
    identifiers, their hexadecimal and binary encodings, bit access, and the
    160-bit integers with the XOR distance. *)
From S2P Require Import Prelude.
From stdpp Require Import gmap list strings.
From Stdlib Require Import ZArith Lia Ascii.
From Stdlib Require String.

Module Protocol.

Abbreviation ID := (list Z).

(** [copy(dst[:], src)] into an array: the first bytes of [src], the rest of
    [dst] unchanged; the number of bytes copied. *)
Definition copy_into (dst src : bytes) : bytes * nat :=
  let n := Nat.min (length dst) (length src) in (take n src ++ drop n dst, n).

Definition ID_zero : ID := replicate 20 0%Z.

(** ["-BA0001-"] *)
Definition idClientPart : bytes := [45; 66; 65; 48; 48; 48; 49; 45]%Z.

(** The random constructors take the bytes [crypto/rand] produces. *)
Definition RandomNodeID (rand : bytes) : ID := fst (copy_into ID_zero rand).

Definition RandomNodeIDWithClientSuffix (rand : bytes) : ID :=
  let id := RandomNodeID rand in
  foldl (λ id i, <[20 - length idClientPart + i := default 0%Z (idClientPart !! i)]> id)
    id (seq 0 (length idClientPart)).

Definition RandomPeerID (rand : bytes) : ID :=
  foldl (λ id i, <[i := default 0%Z (idClientPart !! i)]> id)
    (RandomNodeID rand) (seq 0 (length idClientPart)).

Inductive id_error :=
| ErrHexInvalidByte (b : Z)
| ErrHexLength
| ErrMust20Bytes
| ErrInvalidLength
| ErrInvalidType.

(** [hex.DecodeString]. *)
Definition fromHexChar (c : Z) : option Z :=
  (if (48 <=? c) && (c <=? 57) then Some (c - 48)
   else if (97 <=? c) && (c <=? 102) then Some (c - 97 + 10)
   else if (65 <=? c) && (c <=? 70) then Some (c - 65 + 10)
   else None)%Z.

Fixpoint hex_decode (src : bytes) : outcome id_error bytes :=
  match src with
  | [] => Ok []
  | [c] => match fromHexChar c with None => Err (ErrHexInvalidByte c) | Some _ => Err ErrHexLength end
  | p :: q :: src =>
    match fromHexChar p with
    | None => Err (ErrHexInvalidByte p)
    | Some a =>
      match fromHexChar q with
      | None => Err (ErrHexInvalidByte q)
      | Some b => rest ← hex_decode src; Ok (Z.lor (Z.shiftl a 4) b :: rest)
      end
    end
  end.

(** Strings are byte sequences. *)
Definition string_bytes (s : string) : bytes :=
  (λ c, Z.of_N (N_of_ascii c)) <$> String.list_ascii_of_string s.

(** [strings.TrimPrefix(str, "0x")] *)
Definition trim_0x (s : bytes) : bytes :=
  match s with 48%Z :: 120%Z :: rest => rest | _ => s end.

Definition ParseID (str : string) : outcome id_error ID :=
  b ← hex_decode (trim_0x (string_bytes str));
  if decide (length b ≠ 20) then Err ErrMust20Bytes
  else Ok (fst (copy_into ID_zero b)).

Definition MustParseID (str : string) : go ID :=
  match ParseID str with Ok id => Ok id | _ => Panic end.

Definition NewIDFromRawString (s : bytes) : go ID :=
  let '(id, n) := copy_into ID_zero s in
  if decide (n ≠ 20) then Panic else Ok id.

Definition NewIDFromByteSlice (b : bytes) : outcome id_error ID :=
  let '(id, n) := copy_into ID_zero b in
  if decide (n ≠ 20) then Err ErrMust20Bytes else Ok id.

Definition MustNewIDFromByteSlice (b : bytes) : go ID :=
  match NewIDFromByteSlice b with Ok id => Ok id | _ => Panic end.

Definition ID_String (id : ID) : string := hex_encode id.

Definition ID_IsZero (id : ID) : bool := bool_decide (id = ID_zero).

Definition ID_GetBit (id : ID) (i : nat) : go bool :=
  b ← of_option (id !! (i / 8)); Ok (bit_at b (7 - Z.of_nat (i mod 8))).

(** [Scan] of a byte slice overwrites the bytes it has. *)
Definition Scan (id : ID) (value : option bytes) : outcome id_error ID :=
  match value with
  | None => Err ErrInvalidType
  | Some v => Ok (fst (copy_into id v))
  end.

Definition MarshalBinary (id : ID) : bytes := id.

Definition UnmarshalBinary (id : ID) (data : bytes) : outcome id_error ID :=
  if decide (length data ≠ 20) then Err ErrInvalidLength
  else Ok (fst (copy_into id data)).

(** ["20:" + id] *)
Definition MarshalBencode (id : ID) : bytes := [50; 48; 58]%Z ++ id.

(** The bencode decoder is the library [anacrolix/torrent/bencode]: the string
    it reads, or [None] for an error. *)
Definition UnmarshalBencode (bencode_string : bytes → option bytes) (id : ID) (b : bytes)
    : outcome id_error ID :=
  match bencode_string b with
  | None => Err ErrInvalidType
  | Some s =>
    let '(id', n) := copy_into id s in
    if decide (n ≠ 20) then Err ErrInvalidLength else Ok id'
  end.

(** The GraphQL scalar: the quoted hexadecimal string. *)
Definition UnmarshalGQL (input : option string) : outcome id_error ID :=
  match input with Some s => ParseID s | None => Err ErrInvalidType end.
Definition MarshalGQL (id : ID) : list ascii :=
  ["034"%char] ++ String.list_ascii_of_string (ID_String id) ++ ["034"%char].

(** [MutableID.SetBit]: [^(1 << k)] is the complement in eight bits. *)
Definition SetBit (id : ID) (i : nat) (v : bool) : go ID :=
  b ← of_option (id !! (i / 8));
  let m := Z.shiftl 1 (7 - Z.of_nat (i mod 8)) in
  Ok (<[i / 8 := if v then Z.lor b m else Z.land b (255 - m)]> id).

(** ** 160-bit integers (int160.go) *)

Record Int160 := mkInt160 { int_bits : bytes }.

Definition NewInt160FromByteArray (b : bytes) : Int160 := mkInt160 b.
Definition ID_Int160 (id : ID) : Int160 := NewInt160FromByteArray id.

Definition Int160_String (i : Int160) : string := hex_encode (int_bits i).

(** [big.Int.SetBytes]: big-endian value. *)
Definition be_value (l : bytes) : Z := foldl (λ acc b, acc * 256 + b)%Z 0%Z l.

(** [big.Int.BitLen]: the length of the absolute value in bits, 0 for 0. *)
Definition BitLen (i : Int160) : Z :=
  let a := be_value (int_bits i) in if (a =? 0)%Z then 0%Z else (Z.log2 a + 1)%Z.

Definition WithBit (i : Int160) (index : nat) (val : bool) : go Int160 :=
  let orVal := if val then Z.shiftl 1 (7 - Z.of_nat (index mod 8)) else 0%Z in
  let mask := (255 - Z.shiftl 1 (7 - Z.of_nat (index mod 8)))%Z in
  b ← of_option (int_bits i !! (index / 8));
  Ok (mkInt160 (<[index / 8 := Z.lor (Z.land b mask) orVal]> (int_bits i))).

Definition Int160_GetBit (i : Int160) (index : nat) : go bool :=
  b ← of_option (int_bits i !! (index / 8)); Ok (bit_at b (7 - Z.of_nat (index mod 8))).

Fixpoint Cmp_bytes (a b : bytes) : Z :=
  match a, b with
  | x :: a, y :: b => if (x <? y)%Z then -1 else if (y <? x)%Z then 1 else Cmp_bytes a b
  | _, _ => 0
  end.
Definition Int160_Cmp (i r : Int160) : Z := Cmp_bytes (int_bits i) (int_bits r).

Definition WithMax (i : Int160) : Int160 := mkInt160 ((λ _, 255%Z) <$> int_bits i).

Definition Int160_Xor (b1 b2 : Int160) : Int160 :=
  mkInt160 (zip_with Z.lxor (int_bits b1) (int_bits b2)).

Definition Int160_IsZero (i : Int160) : bool := forallb (λ b, (b =? 0)%Z) (int_bits i).

Definition Distance (i b : Int160) : Int160 := Int160_Xor i b.

(** ** Well-formed identifiers *)

Definition id20 (id : ID) : Prop := length id = 20 ∧ bytes_ok id.

(** ** Hexadecimal *)

Definition lower_hex (c : Z) : Z := if (65 <=? c)%Z && (c <=? 70)%Z then (c + 32)%Z else c.

(** The codes of the digits of a byte string. *)
Definition digit_code (d : Z) : Z := (if d <? 10 then 48 + d else 87 + d)%Z.
Fixpoint hex_codes (l : bytes) : bytes :=
  match l with
  | [] => []
  | b :: l => digit_code (b / 16) :: digit_code (b `mod` 16) :: hex_codes l
  end.

Lemma hex_digit_code d :
  (0 ≤ d < 16)%Z → Z.of_N (N_of_ascii (hex_digit d)) = digit_code d.
Proof.
  intros Hd. unfold hex_digit, digit_code. rewrite N_ascii_embedding; [rewrite Z2N.id; [done|]|]; zcases; lia.
Qed.

Lemma fromHexChar_digit d :
  (0 ≤ d < 16)%Z → fromHexChar (digit_code d) = Some d.
Proof. intros Hd. unfold fromHexChar, digit_code. zcases; cbn; (lia || f_equal; lia). Qed.

Lemma fromHexChar_Some c d :
  fromHexChar c = Some d →
  (0 ≤ d < 16)%Z ∧ digit_code d = lower_hex c.
Proof.
  unfold fromHexChar, lower_hex, digit_code. zcases; cbn; intros; simplify_eq; zcases; lia.
Qed.

Lemma string_bytes_of_list l :
  string_bytes (String.string_of_list_ascii l) = (λ c, Z.of_N (N_of_ascii c)) <$> l.
Proof. unfold string_bytes. by rewrite String.list_ascii_of_string_of_list_ascii. Qed.

Lemma hex_encode_bytes l :
  bytes_ok l →
  string_bytes (hex_encode l) = hex_codes l.
Proof.
  intros Hl. unfold hex_encode. rewrite string_bytes_of_list.
  induction Hl as [|b l Hb Hl IH]; [done|]. rewrite bind_cons, fmap_app, IH.
  unfold byte_ok in Hb. cbn [fmap list_fmap app hex_codes].
  pose proof (Z.mod_pos_bound b 16). pose proof (Z.div_pos b 16).
  pose proof (Z.div_lt_upper_bound b 16 16).
  by rewrite !hex_digit_code by lia.
Qed.

Lemma hex_decode_encode l : bytes_ok l → hex_decode (string_bytes (hex_encode l)) = Ok l.
Proof.
  intros Hl. rewrite hex_encode_bytes by done.
  induction Hl as [|b l Hb Hl IH]; [done|]. unfold byte_ok in Hb.
  pose proof (Z.mod_pos_bound b 16). pose proof (Z.div_pos b 16).
  pose proof (Z.div_lt_upper_bound b 16 16).
  cbn [hex_codes hex_decode]. rewrite !fromHexChar_digit, IH by lia. cbn.
  rewrite (lor_shiftl_add _ _ 4) by lia. do 2 f_equal. pose proof (Z.div_mod b 16). lia.
Qed.

Lemma length_string_bytes s : length (string_bytes s) = String.length s.
Proof. unfold string_bytes. rewrite length_fmap. induction s; cbn; auto. Qed.

Lemma hex_decode_sound src l :
  hex_decode src = Ok l → bytes_ok l ∧ string_bytes (hex_encode l) = lower_hex <$> src.
Proof.
  intros H. cut (bytes_ok l ∧ hex_codes l = lower_hex <$> src).
  { intros [Hl E]. split; [done|]. by rewrite hex_encode_bytes. }
  revert l H. induction src as [src IH] using (induction_ltof1 _ length); unfold ltof in IH; intros l H.
  destruct src as [|p [|q src]]; cbn in H.
  { injection H as <-. split; [constructor|done]. }
  { destruct (fromHexChar p); discriminate. }
  destruct (fromHexChar p) as [a|] eqn:Ha; [|done]. destruct (fromHexChar q) as [b|] eqn:Hb; [|done].
  apply outcome_bind_Ok in H as (rest & Hrest & [= <-]).
  apply IH in Hrest as [Hok Hr]; [|cbn; lia].
  apply fromHexChar_Some in Ha as [Ha Ea]. apply fromHexChar_Some in Hb as [Hb Eb].
  rewrite (lor_shiftl_add _ _ 4) by lia. change (2 ^ 4)%Z with 16%Z.
  split; [constructor; [unfold byte_ok; lia|done]|].
  cbn [hex_codes fmap list_fmap]. rewrite Hr.
  rewrite Z.div_add_l, Z.div_small, Z.add_0_r, Z.add_comm, Z.mod_add, Z.mod_small by lia.
  by rewrite Ea, Eb.
Qed.

(** ** Copies *)

Lemma length_ID_zero : length ID_zero = 20.
Proof. reflexivity. Qed.

Lemma copy_into_full dst src :
  length src = length dst → copy_into dst src = (src, length dst).
Proof.
  intros Hl. unfold copy_into. rewrite Hl, Nat.min_id, drop_all, app_nil_r.
  by rewrite <-Hl, firstn_all.
Qed.

Lemma copy_into_long dst src :
  length dst ≤ length src → copy_into dst src = (take (length dst) src, length dst).
Proof. intros Hl. unfold copy_into. by rewrite Nat.min_l, drop_all, app_nil_r by lia. Qed.

(** The digits of an identifier do not start with "0x". *)
Lemma trim_0x_hex l : trim_0x (hex_codes l) = hex_codes l.
Proof.
  destruct l as [|b l]; [done|]. cbn [hex_codes trim_0x].
  assert (digit_code (b `mod` 16) ≠ 120%Z).
  { unfold digit_code. pose proof (Z.mod_pos_bound b 16). zcases; lia. }
  repeat (case_match; try done).
Qed.

(** ** Values and distances *)

Lemma be_value_foldl l acc :
  foldl (λ acc b, acc * 256 + b)%Z acc l = (acc * 256 ^ Z.of_nat (length l) + be_value l)%Z.
Proof.
  unfold be_value. revert acc. induction l as [|b l IH]; intros acc; cbn [foldl length]; [lia|].
  rewrite IH, (IH (0 * 256 + b)%Z). rewrite Nat2Z.inj_succ, Z.pow_succ_r by lia. ring.
Qed.

Lemma be_value_cons b l : be_value (b :: l) = (b * 256 ^ Z.of_nat (length l) + be_value l)%Z.
Proof. unfold be_value at 1. cbn [foldl]. rewrite be_value_foldl. ring. Qed.

Lemma be_value_bound l : bytes_ok l → (0 ≤ be_value l < 256 ^ Z.of_nat (length l))%Z.
Proof.
  induction 1 as [|b l Hb Hl IH]; [cbn; lia|]. rewrite be_value_cons. unfold byte_ok in Hb.
  cbn [length]. rewrite Nat2Z.inj_succ, Z.pow_succ_r by lia. nia.
Qed.

Lemma be_value_inj a b :
  bytes_ok a → bytes_ok b → length a = length b → be_value a = be_value b → a = b.
Proof.
  intros Ha. revert b. induction Ha as [|x a Hx Ha IH]; intros [|y b] Hb Hl E; try done.
  apply Forall_cons in Hb as [Hy Hb]. rewrite !be_value_cons in E. cbn in Hl.
  pose proof (be_value_bound a Ha). pose proof (be_value_bound b Hb) as Bb.
  assert (length b = length a) as Hab by lia. rewrite Hab in E, Bb.
  assert (x = y) as -> by nia. f_equal. apply IH; [done|lia|lia].
Qed.

Lemma pow256 n : (256 ^ Z.of_nat n = 2 ^ (8 * Z.of_nat n))%Z.
Proof. by rewrite Z.pow_mul_r by lia. Qed.

Lemma be_value_lxor a b :
  bytes_ok a → bytes_ok b → length a = length b →
  be_value (zip_with Z.lxor a b) = Z.lxor (be_value a) (be_value b).
Proof.
  intros Ha. revert b. induction Ha as [|x a Hx Ha IH]; intros [|y b] Hb Hl; try done.
  apply Forall_cons in Hb as [Hy Hb]. cbn in Hl. cbn [zip_with].
  rewrite !be_value_cons, IH by (done || lia).
  assert (Hlz : length (zip_with Z.lxor a b) = length a) by (rewrite length_zip_with; lia).
  rewrite Hlz. replace (length b) with (length a) by lia. rewrite !pow256.
  pose proof (be_value_bound a Ha) as Ba. pose proof (be_value_bound b Hb) as Bb.
  pose proof (be_value_bound _ (bytes_ok_zip_lxor a b Ha Hb)) as Bz.
  replace (length b) with (length a) in Bb by lia.
  rewrite IH, Hlz in Bz by (done || lia). rewrite !pow256 in *.
  set (w := (8 * Z.of_nat (length a))%Z) in *. assert (0 ≤ w)%Z by lia. clearbody w.
  rewrite <-(lor_shiftl_add (Z.lxor x y) _ w), <-(lor_shiftl_add x _ w), <-(lor_shiftl_add y _ w) by lia.
  apply Z.bits_inj'. intros i Hi.
  rewrite Z.lxor_spec, !Z.lor_spec, !Z.shiftl_spec, !Z.lxor_spec by lia.
  destruct (decide (i < w)%Z).
  - by rewrite !(Z.testbit_neg_r _ (i - w)) by lia.
  - rewrite (testbit_high (be_value a) w), (testbit_high (be_value b) w) by lia. by rewrite !orb_false_r.
Qed.

Lemma Cmp_bytes_value a b :
  bytes_ok a → bytes_ok b → length a = length b →
  Cmp_bytes a b = match (be_value a ?= be_value b)%Z with Lt => -1 | Eq => 0 | Gt => 1 end%Z.
Proof.
  intros Ha. revert b. induction Ha as [|x a Hx Ha IH]; intros [|y b] Hb Hl; try done.
  apply Forall_cons in Hb as [Hy Hb]. cbn in Hl. cbn [Cmp_bytes]. rewrite !be_value_cons.
  pose proof (be_value_bound a Ha). pose proof (be_value_bound b Hb) as Bb.
  rewrite IH by (done || lia).
  assert (length b = length a) as Hab by lia. rewrite Hab in Bb |- *.
  destruct (Z.ltb_spec x y); [|destruct (Z.ltb_spec y x)].
  - rewrite (proj2 (Z.compare_lt_iff _ _)); [done|nia].
  - rewrite (proj2 (Z.compare_gt_iff _ _)); [done|nia].
  - assert (x = y) as -> by lia. by rewrite Z.add_compare_mono_l.
Qed.

(** ** Bits *)

Lemma ID_GetBit_bits id i : ID_GetBit id i = of_option (bits id !! i).
Proof.
  unfold ID_GetBit. rewrite bits_lookup. destruct (id !! (i / 8)); [|done]. cbn.
  rewrite bit_at_testbit; [done|]. pose proof (Nat.mod_upper_bound i 8). lia.
Qed.

(** The complement of one bit of a byte. *)
Lemma testbit_complement k j :
  (0 ≤ k < 8)%Z → (0 ≤ j < 8)%Z → Z.testbit (255 - Z.shiftl 1 k) j = negb (bool_decide (j = k)).
Proof.
  intros Hk Hj. replace (255 - Z.shiftl 1 k)%Z with (Z.lxor 255 (Z.shiftl 1 k)).
  - rewrite Z.lxor_spec, testbit_shiftl_1 by lia. change 255%Z with (Z.ones 8).
    rewrite Z.ones_spec_low by lia. done.
  - assert (k = 0 ∨ k = 1 ∨ k = 2 ∨ k = 3 ∨ k = 4 ∨ k = 5 ∨ k = 6 ∨ k = 7)%Z as Hk' by lia.
    repeat destruct Hk' as [->|Hk']; [reflexivity..|]. by subst k.
Qed.

Lemma SetBit_bits id i v :
  bytes_ok id → i < 8 * length id →
  ∃ id', SetBit id i v = Ok id' ∧ bytes_ok id' ∧ length id' = length id ∧ bits id' = <[i := v]> (bits id).
Proof.
  intros Hok Hi. unfold SetBit.
  destruct (lookup_lt_is_Some_2 id (i / 8)) as [b Hb]; [apply Nat.Div0.div_lt_upper_bound; lia|].
  rewrite Hb. cbn. pose proof (Nat.mod_upper_bound i 8).
  assert (byte_ok b) as Hbok by by eapply Forall_lookup_1 in Hb.
  eexists; split; [done|]. split_and!.
  - apply Forall_insert; [done|]. destruct v.
    + apply byte_ok_lor; [done|]. apply byte_ok_shiftl_1. lia.
    + by apply byte_ok_land.
  - apply length_insert.
  - destruct v; [by apply bits_set_bit|]. apply (bits_update _ _ b); [done|]. intros j Hj.
    rewrite Z.land_spec, testbit_complement by lia.
    case_decide; [rewrite bool_decide_eq_true_2 by lia; apply andb_false_r|].
    rewrite bool_decide_eq_false_2 by lia. apply andb_true_r.
Qed.

(** ** Properties *)

(** an identifier printed in hexadecimal parses back to itself, with and
    without the "0x" prefix. *)
Theorem id_hex_roundtrip id :
  id20 id →
  ParseID (ID_String id) = Ok id ∧ ParseID (String.append "0x" (ID_String id)) = Ok id.
Proof.
  intros [Hl Hok]. unfold ParseID, ID_String.
  assert (string_bytes (String.append "0x" (hex_encode id)) = 48%Z :: 120%Z :: string_bytes (hex_encode id))
    as -> by done.
  cbn [trim_0x]. rewrite !hex_encode_bytes, trim_0x_hex by done.
  rewrite <-hex_encode_bytes, hex_decode_encode by done. cbn [mbind outcome_bind].
  rewrite decide_False by lia. rewrite copy_into_full; [done|]. by rewrite length_ID_zero.
Qed.

(** whatever [ParseID] accepts is an identifier of 20 bytes whose digits
    are those of the text, in lower case and without the prefix: nothing
    else is accepted and no two texts with different digits meet. *)
Theorem parse_id_sound str id :
  ParseID str = Ok id →
  id20 id ∧ string_bytes (ID_String id) = lower_hex <$> trim_0x (string_bytes str).
Proof.
  unfold ParseID. intros H. apply outcome_bind_Ok in H as (b & Hb & H).
  apply hex_decode_sound in Hb as [Hok Hs]. case_decide as Hl; [done|].
  rewrite copy_into_full in H by by rewrite length_ID_zero. injection H as <-. by split.
Qed.

(** Setting a bit of an identifier changes that bit and no other, and
    leaves an identifier of the same length. *)
Theorem setbit_getbit id i v j :
  id20 id → i < 160 → j < 160 →
  ∃ id', SetBit id i v = Ok id' ∧ id20 id' ∧
    ID_GetBit id' j = if decide (i = j) then Ok v else ID_GetBit id j.
Proof.
  intros [Hl Hok] Hi Hj.
  destruct (SetBit_bits id i v) as (id' & -> & Hok' & Hl' & Hbits); [done|lia|].
  exists id'. split; [done|]. split; [split; [lia|done]|].
  rewrite !ID_GetBit_bits, Hbits. case_decide as Hij.
  - subst j. rewrite list_lookup_insert_eq; [done|]. rewrite length_bits. lia.
  - by rewrite list_lookup_insert_ne.
Qed.

(** the XOR distance of identifiers is a metric on their values, [Cmp]
    orders distances by value, and the distance from a point determines the
    other end. *)
Theorem distance_metric a b c :
  id20 a → id20 b → id20 c →
  let d x y := be_value (int_bits (Distance (ID_Int160 x) (ID_Int160 y))) in
  d a b = d b a ∧ (d a b = 0%Z ↔ a = b) ∧ (d a c ≤ d a b + d b c)%Z ∧ (d a b = d a c → b = c) ∧
  (Int160_Cmp (Distance (ID_Int160 a) (ID_Int160 b)) (Distance (ID_Int160 a) (ID_Int160 c)) = (-1)%Z
     ↔ (d a b < d a c)%Z).
Proof.
  intros [La Ha] [Lb Hb] [Lc Hc] d.
  assert (Hd : ∀ x y, length x = 20 → bytes_ok x → length y = 20 → bytes_ok y →
    d x y = Z.lxor (be_value x) (be_value y)).
  { intros x y ????. unfold d. cbn. apply be_value_lxor; [done..|lia]. }
  assert (Hinj : ∀ x y, length x = 20 → bytes_ok x → length y = 20 → bytes_ok y →
    be_value x = be_value y → x = y) by (intros; apply be_value_inj; auto; lia).
  rewrite !Hd by done. split_and!.
  - apply Z.lxor_comm.
  - rewrite Z.lxor_eq_0_iff. split; [by auto|congruence].
  - pose proof (Z.add_lxor_2land (Z.lxor (be_value a) (be_value b)) (Z.lxor (be_value b) (be_value c))) as E.
    assert (0 ≤ Z.land (Z.lxor (be_value a) (be_value b)) (Z.lxor (be_value b) (be_value c)))%Z.
    { apply Z.land_nonneg. left. apply Z.lxor_nonneg.
      pose proof (be_value_bound a Ha). pose proof (be_value_bound b Hb). lia. }
    rewrite Z.lxor_assoc, <-(Z.lxor_assoc (be_value b)), Z.lxor_nilpotent, Z.lxor_0_l in E. lia.
  - intros E. apply (f_equal (Z.lxor (be_value a))) in E.
    rewrite <-!Z.lxor_assoc, Z.lxor_nilpotent, !Z.lxor_0_l in E. by auto.
  - unfold Int160_Cmp. cbn. rewrite Cmp_bytes_value
      by (try (by apply bytes_ok_zip_lxor); rewrite !length_zip_with; lia).
    rewrite !be_value_lxor by (done || lia).
    destruct (Z.compare_spec (Z.lxor (be_value a) (be_value b)) (Z.lxor (be_value a) (be_value c))); lia.
Qed.

(** the slice constructors only reject short input: more than 20 bytes
    are cut off silently, although the error says "must be 20 bytes";
    [UnmarshalBinary] is the one that insists on exactly 20. *)
Theorem slice_length_checks b id :
  id20 id →
  (NewIDFromByteSlice b = if decide (20 ≤ length b) then Ok (take 20 b) else Err ErrMust20Bytes) ∧
  (UnmarshalBinary id b = if decide (length b = 20) then Ok b else Err ErrInvalidLength).
Proof.
  intros [Hl _]. split.
  - unfold NewIDFromByteSlice. destruct (decide (20 ≤ length b)).
    + by rewrite copy_into_long by (by rewrite length_ID_zero).
    + unfold copy_into. rewrite length_ID_zero. rewrite decide_True; [done|lia].
  - unfold UnmarshalBinary. destruct (decide (length b = 20)).
    + rewrite decide_False by lia. rewrite copy_into_full by lia. done.
    + by rewrite decide_True.
Qed.

(** ** Examples *)

Definition ex_id : ID := Z.of_nat <$> seq 1 20.

Ltac concrete20 := split; [reflexivity|unfold bytes_ok; cbn; repeat constructor; unfold byte_ok; lia].

Lemma ex_id_ok : id20 ex_id.
Proof. concrete20. Qed.

Lemma id_hex_roundtrip_witness :
  ParseID (ID_String ex_id) = Ok ex_id ∧ ParseID (String.append "0x" (ID_String ex_id)) = Ok ex_id.
Proof. apply id_hex_roundtrip, ex_id_ok. Defined.

Lemma parse_id_sound_witness :
  id20 ex_id ∧ string_bytes (ID_String ex_id) =
    lower_hex <$> trim_0x (string_bytes "0x0102030405060708090A0B0C0D0E0F1011121314").
Proof. apply (parse_id_sound "0x0102030405060708090A0B0C0D0E0F1011121314"). vm_compute. reflexivity. Defined.

Lemma setbit_getbit_witness :
  ∃ id', SetBit ex_id 9 true = Ok id' ∧ id20 id' ∧
    ID_GetBit id' 8 = if decide (9 = 8) then Ok true else ID_GetBit ex_id 8.
Proof. apply setbit_getbit; [apply ex_id_ok|lia..]. Defined.

Lemma distance_metric_witness :
  let d x y := be_value (int_bits (Distance (ID_Int160 x) (ID_Int160 y))) in
  d ex_id ID_zero = d ID_zero ex_id ∧ (d ex_id ID_zero = 0%Z ↔ ex_id = ID_zero) ∧
  (d ex_id ex_id ≤ d ex_id ID_zero + d ID_zero ex_id)%Z ∧ (d ex_id ID_zero = d ex_id ex_id → ID_zero = ex_id) ∧
  (Int160_Cmp (Distance (ID_Int160 ex_id) (ID_Int160 ID_zero)) (Distance (ID_Int160 ex_id) (ID_Int160 ex_id)) = (-1)%Z
     ↔ (d ex_id ID_zero < d ex_id ex_id)%Z).
Proof. apply distance_metric; [apply ex_id_ok|concrete20|apply ex_id_ok]. Defined.

Lemma slice_length_checks_witness :
  (NewIDFromByteSlice (ex_id ++ [7])%Z = if decide (20 ≤ length (ex_id ++ [7])%Z) then Ok (take 20 (ex_id ++ [7])%Z) else Err ErrMust20Bytes) ∧
  (UnmarshalBinary ex_id (ex_id ++ [7])%Z = if decide (length (ex_id ++ [7])%Z = 20) then Ok (ex_id ++ [7])%Z else Err ErrInvalidLength).
Proof. apply slice_length_checks, ex_id_ok. Defined.

End Protocol.
