(* ===== verification/SecureID.v ===== *)
(** * BEP-42 node identifiers

    Models [src/internal/protocol/secure_id.go]: the derivation of a node
    identifier from the external address and its verification.  CRC32C is
    [hash/crc32] of the standard library with the Castagnoli polynomial.  The
    reference is BEP-42 as it is published, on integers and single bits. *)
From S2P Require Import Prelude Net Protocol.
From stdpp Require Import gmap list strings.
From Stdlib Require Import ZArith Lia.
Import Net Protocol.

Module SecureID.

(** ** CRC32C *)

Definition castagnoli : Z := 2197175160. (* 0x82f63b78 *)

Definition crc_shift (crc : Z) : Z :=
  if Z.odd crc then Z.lxor (Z.shiftr crc 1) castagnoli else Z.shiftr crc 1.
Definition crc_table (i : Z) : Z := Nat.iter 8 crc_shift i.
Definition crc_update (crc b : Z) : Z :=
  Z.lxor (crc_table (Z.land (Z.lxor crc b) 255)) (Z.shiftr crc 8).
Definition crc32c (data : bytes) : Z :=
  Z.lxor (foldl crc_update 4294967295%Z data) 4294967295%Z.

(** ** Derivation and verification *)

Definition v4NodeIDMask : bytes := [3; 15; 63; 255]%Z.
Definition v6NodeIDMask : bytes := [1; 3; 7; 15; 31; 63; 127; 255]%Z.

(** [out[0] |= r << 5], the shift in eight bits. *)
Definition or_first (l : bytes) (r : Z) : bytes :=
  match l with [] => [] | b :: l => Z.lor b (uint8 (Z.shiftl r 5)) :: l end.

Definition maskIPForBEP42 (ip : Addr) (r : Z) : go bytes :=
  if Is4 ip || Is4In6 ip then
    b ← As4 ip; Ok (or_first (zip_with Z.land b v4NodeIDMask) r)
  else Ok (or_first (zip_with Z.land (take 8 (As16 ip)) v6NodeIDMask) r).

(** [copy(id[3:19], interior)] on an identifier that is still zero there. *)
Definition interior_bytes (interior : bytes) : bytes :=
  take 16 interior ++ replicate (16 - length interior) 0%Z.

Definition secureNodeIDWithEntropy (ip : Addr) (r randLastByte byte2LowBits : Z) (interior : bytes) : go ID :=
  masked ← maskIPForBEP42 ip r;
  let crc := crc32c masked in
  Ok ([ uint8 (Z.shiftr crc 24); uint8 (Z.shiftr crc 16);
        Z.lor (uint8 (Z.land (Z.shiftr crc 8) 248)) (Z.land byte2LowBits 7) ]
      ++ interior_bytes interior ++ [randLastByte]).

Inductive secure_error := ErrInvalidExternalIP | ErrRandom.

(** [rng] is what [crypto/rand] delivers: 17 bytes, or nothing on failure. *)
Definition SecureNodeID (ip : Addr) (rng : option bytes) : outcome secure_error ID :=
  if negb (IsValid ip) then Err ErrInvalidExternalIP
  else
    match rng with
    | None => Err ErrRandom
    | Some rng =>
      randLastByte ← of_option (rng !! 0);
      byte2 ← of_option (rng !! 1);
      let r := Z.land randLastByte 7 in
      lift_go (secureNodeIDWithEntropy ip r randLastByte byte2 (drop 2 rng))
    end.

Definition VerifySecureNodeID (id : ID) (ip : Addr) : go bool :=
  if negb (IsValid ip) then Ok false
  else
    last ← of_option (id !! 19);
    let r := Z.land last 7 in
    masked ← maskIPForBEP42 ip r;
    let crc := crc32c masked in
    b0 ← of_option (id !! 0);
    b1 ← of_option (id !! 1);
    b2 ← of_option (id !! 2);
    if negb (b0 =? uint8 (Z.shiftr crc 24))%Z then Ok false
    else if negb (b1 =? uint8 (Z.shiftr crc 16))%Z then Ok false
    else if negb (Z.land b2 248 =? uint8 (Z.land (Z.shiftr crc 8) 248))%Z then Ok false
    else Ok true.

(** ** Lemmas *)

Lemma maskIP_ok ip r : IsValid ip = true → ∃ m, maskIPForBEP42 ip r = Ok m.
Proof.
  intros Hv. unfold maskIPForBEP42. destruct (Is4 ip || Is4In6 ip) eqn:E; [|by eexists].
  destruct ip as [|b|b z]; cbn in *; [done|by eexists|]. rewrite E. by eexists.
Qed.

(** The low three bits do not disturb the checked ones. *)
Lemma byte2_checked c l : Z.land (Z.lor (uint8 (Z.land c 248)) (Z.land l 7)) 248 = uint8 (Z.land c 248).
Proof.
  unfold uint8, wrap. apply Z.bits_inj'. intros i Hi.
  rewrite Z.land_spec, Z.lor_spec, Z.land_spec.
  destruct (decide (i < 8)%Z).
  - rewrite Z.mod_pow2_bits_low, Z.land_spec by lia.
    assert (i = 0 ∨ i = 1 ∨ i = 2 ∨ i = 3 ∨ i = 4 ∨ i = 5 ∨ i = 6 ∨ i = 7)%Z as Hi8 by lia.
    repeat destruct Hi8 as [->|Hi8]; try (subst i); cbn;
      rewrite ?andb_false_r, ?andb_true_r, ?orb_false_r; done.
  - rewrite Z.mod_pow2_bits_high by lia. rewrite (testbit_high 248 8) by lia. apply andb_false_r.
Qed.

Lemma interior_length l : length (interior_bytes l) = 16.
Proof. unfold interior_bytes. rewrite length_app, length_take, length_replicate. lia. Qed.

Lemma interior_ok l : bytes_ok l → bytes_ok (interior_bytes l).
Proof.
  intros Hl. apply Forall_app. split; [by apply Forall_take|].
  apply Forall_replicate. unfold byte_ok. lia.
Qed.

(** The identifier [SecureNodeID] builds, with its random bytes spelled out. *)
Lemma SecureNodeID_shape ip rng :
  IsValid ip = true → length rng = 17 →
  ∃ last b2 masked, rng !! 0 = Some last ∧ rng !! 1 = Some b2 ∧
    maskIPForBEP42 ip (Z.land last 7) = Ok masked ∧
    SecureNodeID ip (Some rng) =
      Ok ([ uint8 (Z.shiftr (crc32c masked) 24); uint8 (Z.shiftr (crc32c masked) 16);
            Z.lor (uint8 (Z.land (Z.shiftr (crc32c masked) 8) 248)) (Z.land b2 7) ]
          ++ interior_bytes (drop 2 rng) ++ [last]).
Proof.
  intros Hv Hl. destruct rng as [|last [|b2 rng]]; try done.
  destruct (maskIP_ok ip (Z.land last 7) Hv) as [m Hm].
  exists last, b2, m. split_and!; [done..|].
  unfold SecureNodeID. rewrite Hv. cbn -[app interior_bytes]. unfold secureNodeIDWithEntropy.
  by rewrite Hm.
Qed.

Lemma SecureNodeID_verifies ip rng :
  IsValid ip = true → length rng = 17 → bytes_ok rng →
  ∃ id, SecureNodeID ip (Some rng) = Ok id ∧ id20 id ∧ id !! 19 = rng !! 0 ∧ VerifySecureNodeID id ip = Ok true.
Proof.
  intros Hv Hl Hok.
  destruct (SecureNodeID_shape ip rng Hv Hl) as (last & b2 & m & H0 & H1 & Hm & ->).
  eexists; split; [done|]. set (crc := crc32c m) in *.
  pose proof (interior_length (drop 2 rng)) as Hil.
  assert (H19 : ∀ a b c : Z, ([a; b; c] ++ interior_bytes (drop 2 rng) ++ [last]) !! 19 = Some last).
  { intros a b c. rewrite app_assoc. apply list_lookup_middle. by rewrite length_app, Hil. }
  split_and!.
  - split; [by rewrite !length_app, Hil|].
    assert (byte_ok last) by by eapply Forall_lookup_1 in H0.
    unfold bytes_ok. rewrite !Forall_app, !Forall_cons. split_and!; try apply byte_ok_uint8; try done.
    + apply byte_ok_lor; [apply byte_ok_uint8|]. rewrite Z.land_comm. apply byte_ok_land.
      unfold byte_ok. lia.
    + apply interior_ok. by apply Forall_drop.
  - by rewrite H19, H0.
  - unfold VerifySecureNodeID. rewrite Hv, H19. cbn [negb mbind outcome_bind of_option].
    rewrite Hm. cbn -[uint8 Z.land Z.lor Z.shiftr]. fold crc.
    by rewrite !Z.eqb_refl, byte2_checked, Z.eqb_refl.
Qed.

(** ** BEP-42 as it is published

    The reference works on integers and on single bits: the address as a
    big-endian number, masked with [0x030f3fff] (or [0x0103070f1f3f7fff] for the
    upper half of an IPv6 address), the random number above its top bits; and
    CRC-32C as a shift register that the bits of the octets enter one by one,
    the least significant first. *)

(** The exponents of the Castagnoli polynomial below 32. *)
Definition castagnoli_exponents : list Z := [28; 27; 26; 25; 23; 22; 20; 19; 18; 14; 13; 11; 10; 9; 8; 6; 0]%Z.
Definition feedback : Z := foldr (λ k, Z.lor (Z.shiftl 1 (31 - k))) 0%Z castagnoli_exponents.
Definition crc_bit (reg : Z) (b : bool) : Z :=
  Z.lxor (Z.shiftr reg 1) (if xorb (Z.odd reg) b then feedback else 0%Z).
Definition crc_reference (message : list bool) : Z := (4294967295 - foldl crc_bit 4294967295 message)%Z.

(** The bits of the low [w] octets of a number, most significant octet and
    least significant bit first. *)
Fixpoint octet_bits (w : nat) (n : Z) : list bool :=
  match w with
  | O => []
  | S w => ((λ i, Z.testbit n (8 * Z.of_nat w + i)) <$> [0; 1; 2; 3; 4; 5; 6; 7]%Z) ++ octet_bits w n
  end.

Definition bep42_crc (ip : Addr) (r : Z) : Z :=
  crc_reference
    (if Is4 ip || Is4In6 ip
     then octet_bits 4 (Z.lor (Z.land (be_value (drop 12 (As16 ip))) 51331071) (Z.shiftl r 29))
     else octet_bits 8 (Z.lor (Z.land (be_value (take 8 (As16 ip))) 72909780498219007) (Z.shiftl r 61))).

(** The first 21 bits of the identifier are those of the checksum. *)
Definition bep42_compliant (id : ID) (ip : Addr) : Prop :=
  ∃ last, id !! 19 = Some last ∧ Z.shiftr (be_value (take 3 id)) 3 = Z.shiftr (bep42_crc ip (last mod 8)) 11.

(** *** The checksum *)

Lemma lxor_bound (a b : Z) : (0 ≤ a < 2 ^ 32)%Z → (0 ≤ b < 2 ^ 32)%Z → (0 ≤ Z.lxor a b < 2 ^ 32)%Z.
Proof.
  intros Ha Hb. rewrite <- (Z.mod_small a (2 ^ 32)), <- (Z.mod_small b (2 ^ 32)) by lia.
  replace (Z.lxor (a mod 2 ^ 32) (b mod 2 ^ 32)) with ((Z.lxor a b) mod 2 ^ 32)%Z; [apply Z.mod_pos_bound; lia|].
  apply Z.bits_inj'. intros i Hi. rewrite Z.lxor_spec. destruct (decide (i < 32)%Z).
  - by rewrite !Z.mod_pow2_bits_low, Z.lxor_spec by lia.
  - by rewrite !Z.mod_pow2_bits_high by lia.
Qed.
Lemma crc_shift_lxor (a b : Z) : crc_shift (Z.lxor a b) = Z.lxor (crc_shift a) (crc_shift b).
Proof.
  unfold crc_shift. rewrite Z.shiftr_lxor. rewrite <- !Z.bit0_odd, Z.lxor_spec.
  destruct (Z.testbit a 0), (Z.testbit b 0); cbn [xorb]; apply Z.bits_inj'; intros i Hi; rewrite !Z.lxor_spec;
    destruct (Z.testbit (Z.shiftr a 1) i), (Z.testbit (Z.shiftr b 1) i), (Z.testbit castagnoli i); done.
Qed.
Lemma crc_iter_lxor (n : nat) (a b : Z) : Nat.iter n crc_shift (Z.lxor a b) = Z.lxor (Nat.iter n crc_shift a) (Nat.iter n crc_shift b).
Proof. induction n as [|n IH]; [done|]. cbn [Nat.iter nat_rect]. unfold Nat.iter in IH. by rewrite IH, crc_shift_lxor. Qed.

Lemma crc_shift_double (a : Z) : crc_shift (2 * a)%Z = a.
Proof. unfold crc_shift. rewrite Z.odd_mul. cbn [Z.odd andb]. rewrite Z.shiftr_div_pow2 by lia. change (2 ^ 1)%Z with 2%Z. rewrite Z.mul_comm. apply Z.div_mul. lia. Qed.
Lemma crc_iter_pow (n : nat) (a : Z) : Nat.iter n crc_shift (2 ^ Z.of_nat n * a)%Z = a.
Proof.
  induction n as [|n IH]; [cbn [Nat.iter nat_rect]; lia|].
  replace (2 ^ Z.of_nat (S n) * a)%Z with (2 * (2 ^ Z.of_nat n * a))%Z by (rewrite Nat2Z.inj_succ, Z.pow_succ_r by lia; ring).
  rewrite Nat.iter_succ_r, crc_shift_double. exact IH.
Qed.

(** A step of the table is eight shifts. *)
Lemma crc_update_iter (crc b : Z) : byte_ok b → crc_update crc b = Nat.iter 8 crc_shift (Z.lxor crc b).
Proof.
  intros Hb. unfold crc_update, crc_table. set (x := Z.lxor crc b).
  assert (Hx : x = Z.lxor (Z.land x 255) (2 ^ Z.of_nat 8 * Z.shiftr x 8)%Z).
  { rewrite Z.mul_comm, <- Z.shiftl_mul_pow2 by lia. apply Z.bits_inj'. intros i Hi. change (Z.of_nat 8) with 8%Z. change 255%Z with (Z.ones 8).
    rewrite Z.lxor_spec, Z.land_spec, Z.shiftl_spec by lia. destruct (decide (i < 8)%Z).
    - rewrite Z.ones_spec_low, (Z.testbit_neg_r _ (i - 8)) by lia. by rewrite andb_true_r, xorb_false_r.
    - rewrite Z.ones_spec_high, Z.shiftr_spec by lia. rewrite andb_false_r, xorb_false_l. f_equal. lia. }
  rewrite Hx at 2. rewrite crc_iter_lxor, crc_iter_pow. f_equal. unfold x. rewrite Z.shiftr_lxor.
  replace (Z.shiftr b 8) with 0%Z by (rewrite Z.shiftr_div_pow2 by lia; unfold byte_ok in Hb; symmetry; apply Z.div_small; lia). by rewrite Z.lxor_0_r.
Qed.

Lemma feedback_castagnoli : feedback = castagnoli.
Proof. by vm_compute. Qed.
Lemma crc_bit_shift (reg : Z) (b : bool) : crc_bit reg b = crc_shift (Z.lxor reg (Z.b2z b)).
Proof.
  unfold crc_bit, crc_shift. rewrite feedback_castagnoli, Z.shiftr_lxor, <- !Z.bit0_odd, Z.lxor_spec.
  replace (Z.shiftr (Z.b2z b) 1) with 0%Z by by destruct b. replace (Z.testbit (Z.b2z b) 0) with b by by destruct b. rewrite Z.lxor_0_r.
  destruct (xorb _ _); [done|]. apply Z.lxor_0_r.
Qed.

(** The bits of an octet that enter one by one enter together. *)
Lemma crc_bits_iter (bs : list bool) (reg : Z) :
  foldl crc_bit reg bs = Nat.iter (length bs) crc_shift (Z.lxor reg (foldr (λ b n, Z.b2z b + 2 * n)%Z 0%Z bs)).
Proof.
  revert reg. induction bs as [|b bs IH]; intros reg; cbn [foldl foldr length]; [by rewrite Z.lxor_0_r|].
  rewrite Nat.iter_succ_r, IH, crc_bit_shift, !crc_shift_lxor. f_equal. rewrite <- Z.lxor_assoc || rewrite Z.lxor_assoc. f_equal. f_equal.
  set (v := foldr _ _ bs). rewrite (Z.add_nocarry_lxor (Z.b2z b) (2 * v)).
  - by rewrite crc_shift_lxor, crc_shift_double.
  - apply Z.bits_inj'. intros i Hi. rewrite Z.land_spec, Z.bits_0. destruct (decide (i = 0)%Z) as [->|].
    + by rewrite Z.testbit_even_0, andb_false_r.
    + destruct b; [|by rewrite Z.bits_0]. rewrite (testbit_high 1 1) by lia. done.
Qed.

Definition lsb_bits (b : Z) : list bool := (λ i, Z.testbit b i) <$> [0; 1; 2; 3; 4; 5; 6; 7]%Z.
Lemma lsb_bits_value (b : Z) : byte_ok b → foldr (λ b n, Z.b2z b + 2 * n)%Z 0%Z (lsb_bits b) = b.
Proof.
  intros Hb. assert (Hall : forallb (λ b, foldr (λ b n, Z.b2z b + 2 * n)%Z 0%Z (lsb_bits b) =? b)%Z (seqZ 0 256) = true) by by vm_compute.
  rewrite forallb_forall in Hall. apply Z.eqb_eq, Hall. apply list_elem_of_In, elem_of_seqZ. unfold byte_ok in Hb. lia.
Qed.

Lemma crc_shift_bound (x : Z) : (0 ≤ x < 2 ^ 32)%Z → (0 ≤ crc_shift x < 2 ^ 32)%Z.
Proof.
  intros Hx. unfold crc_shift. rewrite Z.shiftr_div_pow2 by lia. change (2 ^ 1)%Z with 2%Z.
  assert (Hd : (0 ≤ x / 2 < 2 ^ 32)%Z) by (split; [apply Z.div_pos; lia|]; apply Z.div_lt_upper_bound; lia).
  destruct (Z.odd x); [|done]. apply lxor_bound; [done|]. unfold castagnoli. lia.
Qed.
Lemma crc_iter_bound (n : nat) (x : Z) : (0 ≤ x < 2 ^ 32)%Z → (0 ≤ Nat.iter n crc_shift x < 2 ^ 32)%Z.
Proof. intros Hx. induction n as [|n IH]; [done|]. exact (crc_shift_bound _ IH). Qed.

Lemma crc_fold_reference (data : bytes) (reg : Z) :
  bytes_ok data → (0 ≤ reg < 2 ^ 32)%Z →
  foldl crc_update reg data = foldl crc_bit reg (data ≫= lsb_bits) ∧ (0 ≤ foldl crc_update reg data < 2 ^ 32)%Z.
Proof.
  intros Hok. revert reg. induction Hok as [|b data Hb Hok IH]; intros reg Hr; [done|].
  rewrite bind_cons, foldl_app, (crc_bits_iter (lsb_bits b)), (lsb_bits_value b Hb). cbn [foldl].
  change (length (lsb_bits b)) with 8. rewrite <- (crc_update_iter reg b Hb). apply IH. rewrite crc_update_iter by done.
  apply crc_iter_bound, lxor_bound; [done|]. unfold byte_ok in Hb. lia.
Qed.

Lemma crc32c_reference (data : bytes) : bytes_ok data → crc32c data = crc_reference (data ≫= lsb_bits) ∧ (0 ≤ crc32c data < 2 ^ 32)%Z.
Proof.
  intros Hok. destruct (crc_fold_reference data 4294967295 Hok ltac:(lia)) as [Hf Hb]. unfold crc32c, crc_reference. rewrite <- Hf.
  split; [|apply lxor_bound; [done|lia]]. set (x := foldl _ _ _) in *. apply Z.add_cancel_l with (p := x).
  rewrite Z.add_nocarry_lxor.
  - rewrite <- Z.lxor_assoc, Z.lxor_nilpotent, Z.lxor_0_l. lia.
  - apply Z.bits_inj'. intros i Hi. rewrite Z.land_spec, Z.lxor_spec, Z.bits_0. destruct (decide (i < 32)%Z).
    + change 4294967295%Z with (Z.ones 32). rewrite Z.ones_spec_low by lia. by destruct (Z.testbit x i).
    + rewrite (testbit_high x 32) by lia. done.
Qed.

(** *** The masked address *)

Lemma testbit_be_cons (b : Z) (l : bytes) (i : Z) :
  bytes_ok l → (0 ≤ i)%Z →
  Z.testbit (be_value (b :: l)) i =
    if decide (i < 8 * Z.of_nat (length l))%Z then Z.testbit (be_value l) i else Z.testbit b (i - 8 * Z.of_nat (length l)).
Proof.
  intros Hl Hi. set (k := (8 * Z.of_nat (length l))%Z). rewrite be_value_cons. pose proof (be_value_bound l Hl) as Hb.
  replace (256 ^ Z.of_nat (length l))%Z with (2 ^ k)%Z in * by (unfold k; rewrite Z.pow_mul_r by lia; done).
  assert (Hk : (0 ≤ k)%Z) by (unfold k; lia). rewrite <- lor_shiftl_add by done. rewrite Z.lor_spec, Z.shiftl_spec by lia. destruct (decide (i < k)%Z).
  - by rewrite Z.testbit_neg_r by lia.
  - rewrite (testbit_high (be_value l) k) by lia. apply orb_false_r.
Qed.

Lemma zip_land_ok (l m : bytes) : bytes_ok l → bytes_ok (zip_with Z.land l m).
Proof. intros Hl. revert m. induction Hl as [|x l Hx Hl IH]; intros [|y m]; constructor; [by apply byte_ok_land|apply IH]. Qed.
Lemma be_value_land (l m : bytes) : bytes_ok l → bytes_ok m → length l = length m → be_value (zip_with Z.land l m) = Z.land (be_value l) (be_value m).
Proof.
  intros Hl. revert m. induction Hl as [|a l Ha Hl IH]; intros [|b m] Hm Hlen; try done. apply Forall_cons in Hm as [Hb Hm]. injection Hlen as Hlen.
  pose proof (zip_land_ok l m Hl) as Hz.
  cbn [zip_with]. apply Z.bits_inj'. intros i Hi. rewrite Z.land_spec, !testbit_be_cons, IH by done.
  rewrite length_zip_with, <- Hlen, Nat.min_id. destruct (decide _); by rewrite Z.land_spec.
Qed.

Lemma be_value_lor_first (b c : Z) (l : bytes) : bytes_ok l → (0 ≤ c)%Z → be_value (Z.lor b c :: l) = Z.lor (be_value (b :: l)) (Z.shiftl c (8 * Z.of_nat (length l))).
Proof.
  intros Hl Hc. apply Z.bits_inj'. intros i Hi. rewrite Z.lor_spec, !testbit_be_cons, Z.shiftl_spec by done.
  destruct (decide _); [|by rewrite Z.lor_spec]. rewrite (Z.testbit_neg_r c) by lia. by rewrite orb_false_r.
Qed.

Lemma octet_bits_be (l : bytes) (n : Z) :
  bytes_ok l → (∀ i, (0 ≤ i < 8 * Z.of_nat (length l))%Z → Z.testbit n i = Z.testbit (be_value l) i) → octet_bits (length l) n = l ≫= lsb_bits.
Proof.
  intros Hl. revert n. induction Hl as [|b l Hb Hl IH]; intros n Hn; [done|]. cbn [length octet_bits]. rewrite bind_cons. f_equal.
  - unfold lsb_bits. apply list_fmap_ext. intros j i Hji. assert (Hi : (0 ≤ i < 8)%Z) by (apply list_elem_of_lookup_2 in Hji; repeat (apply elem_of_cons in Hji as [->|Hji]; [lia|]); by apply not_elem_of_nil in Hji).
    cbn [length] in Hn. rewrite Hn, testbit_be_cons by (done || lia). rewrite decide_False by lia. f_equal. lia.
  - apply IH. intros i Hi. cbn [length] in Hn. rewrite Hn, testbit_be_cons by (done || lia). by rewrite decide_True by lia.
Qed.

(** The code masks octet by octet what the reference masks at once. *)
Lemma masked_bits (b mask : bytes) (r : Z) :
  bytes_ok b → bytes_ok mask → length b = length mask → (0 < length b)%nat → (0 ≤ r < 8)%Z →
  let m := or_first (zip_with Z.land b mask) r in
  bytes_ok m ∧ octet_bits (length b) (Z.lor (Z.land (be_value b) (be_value mask)) (Z.shiftl r (8 * Z.of_nat (length b) - 3))) = m ≫= lsb_bits.
Proof.
  intros Hb Hm Hlen Hpos Hr m. rewrite <- be_value_land by done.
  destruct b as [|x b], mask as [|y mask]; try done. injection Hlen as Hlen.
  apply Forall_cons in Hb as [Hx Hb], Hm as [Hy Hm]. pose proof (zip_land_ok b mask Hb) as Hz.
  assert (Hc : uint8 (Z.shiftl r 5) = Z.shiftl r 5)
    by (unfold uint8, wrap; rewrite Z.shiftl_mul_pow2 by lia; apply Z.mod_small; lia).
  assert (Hok : bytes_ok m).
  { unfold m. cbn [zip_with or_first]. constructor; [|done]. apply byte_ok_lor; [by apply byte_ok_land|apply byte_ok_uint8]. }
  split; [done|]. assert (Hlm : length m = length (x :: b)) by (unfold m; cbn [zip_with or_first length]; rewrite length_zip_with; lia).
  rewrite <- Hlm. apply octet_bits_be; [done|]. intros i Hi. f_equal. unfold m. cbn [zip_with or_first]. rewrite Hc.
  rewrite be_value_lor_first by (done || (rewrite Z.shiftl_mul_pow2 by lia; lia)). f_equal.
  rewrite Z.shiftl_shiftl by lia. f_equal. cbn [length] in *. rewrite length_zip_with. unfold m in *. cbn [zip_with or_first length] in *. rewrite length_zip_with in Hlm. lia.
Qed.

Lemma mask_reference (ip : Addr) (r : Z) :
  addr_ok ip → IsValid ip = true → (0 ≤ r < 8)%Z →
  ∃ m, maskIPForBEP42 ip r = Ok m ∧ crc32c m = bep42_crc ip r ∧ (0 ≤ crc32c m < 2 ^ 32)%Z.
Proof.
  intros Hip Hv Hr. unfold maskIPForBEP42, bep42_crc.
  assert (H4 : bytes_ok v4NodeIDMask) by (unfold v4NodeIDMask; repeat constructor; unfold byte_ok; lia).
  assert (H6 : bytes_ok v6NodeIDMask) by (unfold v6NodeIDMask; repeat constructor; unfold byte_ok; lia).
  destruct (Is4 ip || Is4In6 ip) eqn:E.
  - assert (Hb : ∃ b, As4 ip = Ok b ∧ drop 12 (As16 ip) = b ∧ length b = 4 ∧ bytes_ok b).
    { destruct ip as [|b|b z]; [done|by exists b; destruct Hip|]. cbn [Is4 orb] in E. exists (drop 12 b). destruct Hip as [Hl Hok]. cbn [As4]. rewrite E.
      split; [done|]. split; [done|]. split; [by rewrite length_drop, Hl|by apply Forall_drop]. }
    destruct Hb as (b & -> & -> & Hl & Hok). destruct (masked_bits b v4NodeIDMask r Hok H4 Hl ltac:(lia) Hr) as [Hmo Hbits].
    eexists. split; [done|]. destruct (crc32c_reference _ Hmo) as [Hc Hbd]. split; [|done]. rewrite Hc, <- Hbits, Hl. reflexivity.
  - destruct ip as [|b|b z]; [done|done|]. destruct Hip as [Hl Hok]. cbn [As16].
    assert (Hl8 : length (take 8 b) = 8) by (rewrite length_take; lia).
    destruct (masked_bits (take 8 b) v6NodeIDMask r ltac:(by apply Forall_take) H6 Hl8 ltac:(lia) Hr) as [Hmo Hbits].
    eexists. split; [done|]. destruct (crc32c_reference _ Hmo) as [Hc Hbd]. split; [|done]. rewrite Hc, <- Hbits, Hl8. reflexivity.
Qed.

Lemma land_248 (x : Z) : byte_ok x → Z.land x 248 = (8 * (x / 8))%Z.
Proof.
  intros Hb. assert (Hall : forallb (λ x, Z.land x 248 =? 8 * (x / 8))%Z (seqZ 0 256) = true) by by vm_compute.
  rewrite forallb_forall in Hall. apply Z.eqb_eq, Hall. apply list_elem_of_In, elem_of_seqZ. unfold byte_ok in Hb. lia.
Qed.

(** The three comparisons of the verification compare the first 21 bits. *)
Lemma prefix_compare (b0 b1 b2 crc : Z) :
  byte_ok b0 → byte_ok b1 → byte_ok b2 → (0 ≤ crc < 2 ^ 32)%Z →
  Z.shiftr (be_value [b0; b1; b2]) 3 = Z.shiftr crc 11 ↔
  b0 = uint8 (Z.shiftr crc 24) ∧ b1 = uint8 (Z.shiftr crc 16) ∧ Z.land b2 248 = uint8 (Z.land (Z.shiftr crc 8) 248).
Proof.
  intros H0 H1 H2 Hc. unfold be_value. cbn [foldl].
  assert (H8 : uint8 (Z.land (Z.shiftr crc 8) 248) = (8 * ((crc / 2048) mod 32))%Z).
  { replace (Z.land (Z.shiftr crc 8) 248) with (Z.land (uint8 (Z.shiftr crc 8)) 248).
    - rewrite land_248 by apply byte_ok_uint8. unfold uint8, wrap. rewrite Z.shiftr_div_pow2 by lia. change (2 ^ 8)%Z with 256%Z.
      rewrite Z.mod_small; Z.to_euclidean_division_equations; lia.
    - unfold uint8, wrap. change 248%Z with (Z.land 255 248). rewrite Z.land_assoc. change 255%Z with (Z.ones 8). by rewrite Z.land_ones, Z.land_assoc, Z.land_ones, Z.mod_mod by lia. }
  rewrite H8, (land_248 b2 H2). unfold uint8, wrap, byte_ok in *. rewrite !Z.shiftr_div_pow2 by lia.
  change (2 ^ 3)%Z with 8%Z. change (2 ^ 11)%Z with 2048%Z. change (2 ^ 24)%Z with 16777216%Z. change (2 ^ 16)%Z with 65536%Z. change (2 ^ 8)%Z with 256%Z.
  change (2 ^ 32)%Z with 4294967296%Z in Hc. Z.to_euclidean_division_equations. lia.
Qed.

(** The verification decides the compliance. *)
Lemma VerifySecureNodeID_exact (id : ID) (ip : Addr) :
  id20 id → addr_ok ip → IsValid ip = true →
  ∃ b, VerifySecureNodeID id ip = Ok b ∧ (b = true ↔ bep42_compliant id ip).
Proof.
  intros [Hl Hok] Hip Hv. destruct (lookup_lt_is_Some_2 id 19) as [last H19]; [lia|].
  unfold VerifySecureNodeID, bep42_compliant. rewrite Hv, H19. cbn [negb mbind outcome_bind of_option].
  destruct id as [|b0 [|b1 [|b2 id]]]; try done. apply Forall_cons in Hok as [H0 Hok]. apply Forall_cons in Hok as [H1 Hok]. apply Forall_cons in Hok as [H2 Hok].
  assert (Hr7 : Z.land last 7 = (last mod 8)%Z) by (change 7%Z with (Z.ones 3); by rewrite Z.land_ones by lia). rewrite Hr7.
  destruct (mask_reference ip (last mod 8) Hip Hv ltac:(apply Z.mod_pos_bound; lia)) as (m & -> & Hc & Hb).
  cbn -[uint8 Z.land Z.lor Z.shiftr be_value]. change (take 0 id) with (@nil Z). pose proof (prefix_compare b0 b1 b2 (crc32c m) H0 H1 H2 Hb) as Hp. rewrite Hc in *.
  assert (Hi : (∃ l, Some last = Some l ∧ Z.shiftr (be_value [b0; b1; b2]) 3 = Z.shiftr (bep42_crc ip (l mod 8)) 11)
    ↔ Z.shiftr (be_value [b0; b1; b2]) 3 = Z.shiftr (bep42_crc ip (last mod 8)) 11) by (split; [intros (l & [= <-] & Hx); done|by exists last]).
  destruct (Z.eqb_spec b0 (uint8 (Z.shiftr (bep42_crc ip (last mod 8)) 24))); cbn [negb]; [|eexists; split; [done|]; rewrite Hi, Hp; naive_solver].
  destruct (Z.eqb_spec b1 (uint8 (Z.shiftr (bep42_crc ip (last mod 8)) 16))); cbn [negb]; [|eexists; split; [done|]; rewrite Hi, Hp; naive_solver].
  destruct (Z.eqb_spec (Z.land b2 248) (uint8 (Z.land (Z.shiftr (bep42_crc ip (last mod 8)) 8) 248))); eexists; (split; [done|]; rewrite Hi, Hp; naive_solver).
Qed.

(** ** Properties *)

(** C7: for every address, the unspecified ones included, and every 17 random
    bytes [SecureNodeID] returns a 20-byte identifier that ends in the first
    random byte and whose first 21 bits are those of the checksum that BEP-42
    prescribes, computed from the masked address as an integer by CRC-32C bit
    by bit; [VerifySecureNodeID] answers for every identifier, and accepts
    exactly those that comply with BEP-42.  The error is for the zero value of
    [netip.Addr] alone, which no identifier verifies for. *)
Theorem secure_id_verifies (ip : Addr) (rng : bytes) (id' : ID) :
  addr_ok ip → length rng = 17 → bytes_ok rng → id20 id' →
  if IsValid ip then
    (∃ id, SecureNodeID ip (Some rng) = Ok id ∧ id20 id ∧ id !! 19 = rng !! 0 ∧ bep42_compliant id ip)
    ∧ ∃ b, VerifySecureNodeID id' ip = Ok b ∧ (b = true ↔ bep42_compliant id' ip)
  else SecureNodeID ip (Some rng) = Err ErrInvalidExternalIP ∧ VerifySecureNodeID id' ip = Ok false.
Proof.
  intros Hip Hl Hok Hid'. destruct (IsValid ip) eqn:Hv; [|by unfold SecureNodeID, VerifySecureNodeID; rewrite Hv].
  split; [|by apply VerifySecureNodeID_exact].
  destruct (SecureNodeID_verifies ip rng Hv Hl Hok) as (id & Hs & Hi & H19 & Hver). exists id. split_and!; [done..|].
  destruct (VerifySecureNodeID_exact id ip Hi Hip Hv) as (b & Hb & Hc). apply Hc. congruence.
Qed.
(** The comment promises random bytes 3 to 18, but only 15 random bytes
    are left for them: byte 18 of every identifier that [SecureNodeID]
    returns is zero. *)
Theorem secure_id_byte18_zero ip rng id :
  length rng = 17 → SecureNodeID ip (Some rng) = Ok id → id !! 18 = Some 0%Z.
Proof.
  intros Hl H. destruct (IsValid ip) eqn:Hv; [|by unfold SecureNodeID in H; rewrite Hv in H].
  destruct (SecureNodeID_shape ip rng Hv Hl) as (last & b2 & m & _ & _ & _ & E).
  rewrite E in H. injection H as <-.
  assert (interior_bytes (drop 2 rng) = drop 2 rng ++ [0%Z]) as ->.
  { unfold interior_bytes. by rewrite take_ge, length_drop, Hl by (rewrite length_drop; lia). }
  rewrite <-app_assoc. change 18 with (3 + 15). cbn [lookup list_lookup Nat.add].
  apply list_lookup_middle. by rewrite length_drop, Hl.
Qed.

(** The prefix that verification pins down. *)
Definition prefix21 (id : ID) : bytes :=
  [default 0%Z (id !! 0); default 0%Z (id !! 1); Z.land (default 0%Z (id !! 2)) 248%Z].

(** an address controls at most eight 21-bit prefixes: two identifiers
    that verify for it and agree in the low three bits of the last byte have
    the same prefix. *)
Theorem secure_id_eight_prefixes ip id1 id2 l1 l2 :
  VerifySecureNodeID id1 ip = Ok true → VerifySecureNodeID id2 ip = Ok true →
  id1 !! 19 = Some l1 → id2 !! 19 = Some l2 → Z.land l1 7 = Z.land l2 7 →
  prefix21 id1 = prefix21 id2.
Proof.
  intros H1 H2 Hl1 Hl2 Hr.
  assert (Hshape : ∀ id l, VerifySecureNodeID id ip = Ok true → id !! 19 = Some l →
    ∃ m, maskIPForBEP42 ip (Z.land l 7) = Ok m ∧
      prefix21 id = [uint8 (Z.shiftr (crc32c m) 24); uint8 (Z.shiftr (crc32c m) 16);
                     uint8 (Z.land (Z.shiftr (crc32c m) 8) 248)]).
  { intros id l H Hl. unfold VerifySecureNodeID in H. destruct (IsValid ip) eqn:Hv; [|done].
    rewrite Hl in H. cbn in H. destruct (maskIP_ok ip (Z.land l 7) Hv) as [m Hm].
    rewrite Hm in H. cbn in H. exists m. split; [done|]. unfold prefix21.
    destruct (id !! 0) as [b0|]; [|done]. destruct (id !! 1) as [b1|]; [|done].
    destruct (id !! 2) as [b2|]; [|done]. cbn in H |- *.
    destruct (b0 =? _)%Z eqn:E0, (b1 =? _)%Z eqn:E1, (Z.land b2 248 =? _)%Z eqn:E2; try done.
    bool_hyps. congruence. }
  destruct (Hshape id1 l1 H1 Hl1) as (m1 & Hm1 & ->).
  destruct (Hshape id2 l2 H2 Hl2) as (m2 & Hm2 & ->).
  rewrite Hr in Hm1. congruence.
Qed.

(** ** Examples: the reference vectors of BEP-42 *)

Definition ex_ip : Addr := AddrV4 [124; 31; 75; 21]%Z.
Definition ex_rng : bytes := Z.of_nat <$> seq 1 17.

Lemma bep42_vector_124_31_75_21 :
  ∀ id, ParseID "5fbfbff10c5d6a4ec8a88e4c6ab4c28b95eee401" = Ok id →
  secureNodeIDWithEntropy ex_ip 1 1 7 (take 16 (drop 3 id)) = Ok id ∧ VerifySecureNodeID id ex_ip = Ok true.
Proof. intros id H. vm_compute in H. injection H as <-. split; vm_compute; reflexivity. Qed.

Lemma bep42_vector_65_23_51_170 :
  ∀ id, ParseID "a5d43220bc8f112a3d426c84764f8c2a1150e616" = Ok id →
  secureNodeIDWithEntropy (AddrV4 [65; 23; 51; 170]%Z) 6 22 2 (take 16 (drop 3 id)) = Ok id.
Proof. intros id H. vm_compute in H. injection H as <-. vm_compute. reflexivity. Qed.

(** The published vectors, against the reference. *)
Lemma bep42_published :
  Forall (λ '(b, h), match ParseID h with
                     | Ok id => Z.shiftr (be_value (take 3 id)) 3 = Z.shiftr (bep42_crc (AddrV4 b) (default 0 (id !! 19%nat) mod 8)) 11
                     | _ => False
                     end)%Z
    [([124; 31; 75; 21]%Z, "5fbfbff10c5d6a4ec8a88e4c6ab4c28b95eee401"%string);
     ([21; 75; 31; 124]%Z, "5a3ce9c14e7a08645677bbd1cfe7d8f956d53256"%string);
     ([65; 23; 51; 170]%Z, "a5d43220bc8f112a3d426c84764f8c2a1150e616"%string);
     ([84; 124; 73; 14]%Z, "1b0321dd1bb1fe518101ceef99462b947a01ff41"%string);
     ([43; 213; 53; 83]%Z, "e56f6cbf5b7c4be0237986d5243b87aa6d51305a"%string)].
Proof. repeat constructor; vm_compute; reflexivity. Qed.

(** Also the unspecified address has identifiers. *)
Definition ex_unspecified : Addr := AddrV4 [0; 0; 0; 0]%Z.
Lemma secure_id_verifies_witness :
  (∃ id, SecureNodeID ex_ip (Some ex_rng) = Ok id ∧ id20 id ∧ id !! 19 = ex_rng !! 0 ∧ bep42_compliant id ex_ip)
  ∧ ∃ id, SecureNodeID ex_unspecified (Some ex_rng) = Ok id ∧ bep42_compliant id ex_unspecified.
Proof.
  assert (Hr : bytes_ok ex_rng) by (unfold bytes_ok; cbn; repeat constructor; unfold byte_ok; lia).
  assert (Hid : id20 (replicate 20 0%Z)) by (split; [done|]; cbn; repeat constructor; unfold byte_ok; lia).
  assert (Hip : addr_ok ex_ip ∧ addr_ok ex_unspecified) by (cbn; unfold bytes_ok, byte_ok; repeat constructor; lia).
  split.
  - apply (secure_id_verifies ex_ip ex_rng (replicate 20 0%Z)); [apply Hip|done..].
  - destruct (secure_id_verifies ex_unspecified ex_rng (replicate 20 0%Z) (proj2 Hip) eq_refl Hr Hid) as [(id & Hs & _ & _ & Hc) _]. by exists id.
Defined.

Lemma secure_id_byte18_zero_witness :
  ∃ id, SecureNodeID ex_ip (Some ex_rng) = Ok id ∧ id !! 18 = Some 0%Z.
Proof.
  eexists. split; [vm_compute; reflexivity|].
  apply (secure_id_byte18_zero ex_ip ex_rng); [reflexivity|vm_compute; reflexivity].
Defined.

Definition ex_secure (b2 : Z) : ID :=
  match secureNodeIDWithEntropy ex_ip 1 1 b2 [] with Ok id => id | _ => [] end.

Lemma secure_id_eight_prefixes_witness : prefix21 (ex_secure 0) = prefix21 (ex_secure 7).
Proof.
  apply (secure_id_eight_prefixes ex_ip _ _ 1 1); vm_compute; reflexivity.
Defined.

End SecureID.
