(* ===== verification/MD5.v ===== *)
(** * MD5

    [crypto/md5.Sum], which the responder uses for its announce tokens: the
    padding of the message to 64-byte blocks and the 64 steps of the
    compression function on four 32-bit words. *)
From S2P Require Import Prelude.
From stdpp Require Import list strings.
From Stdlib Require Import ZArith Lia.

Module MD5.
Local Open Scope Z_scope.

(** The constants floor(2^32 |sin(i + 1)|) and the rotations of the steps. *)
Definition md5_K : list Z :=
 [3614090360; 3905402710; 606105819; 3250441966; 4118548399; 1200080426; 2821735955; 4249261313;
   1770035416; 2336552879; 4294925233; 2304563134; 1804603682; 4254626195; 2792965006; 1236535329;
   4129170786; 3225465664; 643717713; 3921069994; 3593408605; 38016083; 3634488961; 3889429448;
   568446438; 3275163606; 4107603335; 1163531501; 2850285829; 4243563512; 1735328473; 2368359562;
   4294588738; 2272392833; 1839030562; 4259657740; 2763975236; 1272893353; 4139469664; 3200236656;
   681279174; 3936430074; 3572445317; 76029189; 3654602809; 3873151461; 530742520; 3299628645;
   4096336452; 1126891415; 2878612391; 4237533241; 1700485571; 2399980690; 4293915773; 2240044497;
   1873313359; 4264355552; 2734768916; 1309151649; 4149444226; 3174756917; 718787259; 3951481745].
Definition md5_R : list Z :=
 [7; 12; 17; 22; 7; 12; 17; 22; 7; 12; 17; 22; 7; 12; 17; 22; 5; 9; 14; 20; 5; 9; 14; 20; 5; 9; 14;
   20; 5; 9; 14; 20; 4; 11; 16; 23; 4; 11; 16; 23; 4; 11; 16; 23; 4; 11; 16; 23; 6; 10; 15; 21; 6;
   10; 15; 21; 6; 10; 15; 21; 6; 10; 15; 21].

Definition rotl (x c : Z) : Z := Z.lor (uint32 (Z.shiftl x c)) (Z.shiftr x (32 - c)).

(** The word of four bytes, least significant first, and back. *)
Definition le32 (b : bytes) : Z :=
  match b with
  | b0 :: b1 :: b2 :: b3 :: _ => b0 + 256 * b1 + 65536 * b2 + 16777216 * b3
  | _ => 0
  end.
Definition put_le32 (w : Z) : bytes :=
  [uint8 w; uint8 (Z.shiftr w 8); uint8 (Z.shiftr w 16); uint8 (Z.shiftr w 24)].

Fixpoint words (n : nat) (b : bytes) : list Z :=
  match n with O => [] | S n => le32 b :: words n (drop 4 b) end.

Definition step_f (i b c d : Z) : Z :=
  if i <? 16 then Z.lor (Z.land b c) (Z.land (Z.lxor b 4294967295) d)
  else if i <? 32 then Z.lor (Z.land d b) (Z.land (Z.lxor d 4294967295) c)
  else if i <? 48 then Z.lxor (Z.lxor b c) d
  else Z.lxor c (Z.lor b (Z.lxor d 4294967295)).

Definition step_g (i : Z) : Z :=
  if i <? 16 then i else if i <? 32 then (5 * i + 1) mod 16
  else if i <? 48 then (3 * i + 5) mod 16 else (7 * i) mod 16.

Definition md5_step (ws : list Z) (st : Z * Z * Z * Z) (i : nat) : Z * Z * Z * Z :=
  let '(a, b, c, d) := st in
  let zi := Z.of_nat i in
  let x := uint32 (a + step_f zi b c d + nth i md5_K 0 + nth (Z.to_nat (step_g zi)) ws 0) in
  (d, uint32 (b + rotl x (nth i md5_R 0)), b, c).

Definition md5_block (st : Z * Z * Z * Z) (block : bytes) : Z * Z * Z * Z :=
  let '(a, b, c, d) := st in
  let '(a', b', c', d') := foldl (md5_step (words 16 block)) st (seq 0 64) in
  (uint32 (a + a'), uint32 (b + b'), uint32 (c + c'), uint32 (d + d')).

Definition md5_pad (m : bytes) : bytes :=
  let bits := 8 * Z.of_nat (length m) in
  m ++ [128] ++ replicate (Z.to_nat ((55 - Z.of_nat (length m)) mod 64)) 0
    ++ put_le32 (uint32 bits) ++ put_le32 (uint32 (Z.shiftr bits 32)).

Fixpoint md5_blocks (n : nat) (st : Z * Z * Z * Z) (m : bytes) : Z * Z * Z * Z :=
  match n with O => st | S n => md5_blocks n (md5_block st (take 64 m)) (drop 64 m) end.

(** [md5.Sum] *)
Definition Sum (m : bytes) : bytes :=
  let p := md5_pad m in
  let '(a, b, c, d) :=
    md5_blocks (length p / 64)%nat (1732584193, 4023233417, 2562383102, 271733878) p in
  put_le32 a ++ put_le32 b ++ put_le32 c ++ put_le32 d.

Lemma length_Sum m : length (Sum m) = 16%nat.
Proof. unfold Sum. by destruct (md5_blocks _ _ _) as [[[a b] c] d]. Qed.

(** The test suite of RFC 1321. *)
Lemma md5_vectors :
  hex_encode (Sum []) = "d41d8cd98f00b204e9800998ecf8427e"%string ∧
  hex_encode (Sum [97]) = "0cc175b9c0f1b6a831c399e269772661"%string ∧
  hex_encode (Sum [97; 98; 99]) = "900150983cd24fb0d6963f7d28e17f72"%string ∧
  hex_encode (Sum (concat (replicate 8 [49; 50; 51; 52; 53; 54; 55; 56; 57; 48])))
    = "57edf4a22be3c955ac49da2e2107b67a"%string.
Proof. vm_compute. done. Qed.

End MD5.
