(* ===== verification/SHA256.v ===== *)
(** * SHA-256

    [crypto/sha256.Sum256], which the blocklist of forbidden hashes uses: the
    padding of the message to 64-byte blocks, the message schedule and the 64
    rounds on eight 32-bit words. *)
From S2P Require Import Prelude.
From stdpp Require Import list strings.
From Stdlib Require Import ZArith Lia.

Module SHA256.
Local Open Scope Z_scope.

(** The fractional parts of the cube roots of the first 64 primes and of the
    square roots of the first eight. *)
Definition sha_K : list Z :=
 [1116352408; 1899447441; 3049323471; 3921009573; 961987163; 1508970993; 2453635748; 2870763221;
   3624381080; 310598401; 607225278; 1426881987; 1925078388; 2162078206; 2614888103; 3248222580;
   3835390401; 4022224774; 264347078; 604807628; 770255983; 1249150122; 1555081692; 1996064986;
   2554220882; 2821834349; 2952996808; 3210313671; 3336571891; 3584528711; 113926993; 338241895;
   666307205; 773529912; 1294757372; 1396182291; 1695183700; 1986661051; 2177026350; 2456956037;
   2730485921; 2820302411; 3259730800; 3345764771; 3516065817; 3600352804; 4094571909; 275423344;
   430227734; 506948616; 659060556; 883997877; 958139571; 1322822218; 1537002063; 1747873779;
   1955562222; 2024104815; 2227730452; 2361852424; 2428436474; 2756734187; 3204031479; 3329325298].
Definition sha_H : list Z :=
 [1779033703; 3144134277; 1013904242; 2773480762; 1359893119; 2600822924; 528734635; 1541459225].

Definition rotr (x c : Z) : Z := Z.lor (Z.shiftr x c) (uint32 (Z.shiftl x (32 - c))).

(** The word of four bytes, most significant first, and back. *)
Definition be32 (b : bytes) : Z :=
  match b with
  | b0 :: b1 :: b2 :: b3 :: _ => 16777216 * b0 + 65536 * b1 + 256 * b2 + b3
  | _ => 0
  end.
Definition put_be32 (w : Z) : bytes :=
  [uint8 (Z.shiftr w 24); uint8 (Z.shiftr w 16); uint8 (Z.shiftr w 8); uint8 w].

Fixpoint be_words (n : nat) (b : bytes) : list Z :=
  match n with O => [] | S n => be32 b :: be_words n (drop 4 b) end.

Definition small_sigma0 (x : Z) : Z := Z.lxor (Z.lxor (rotr x 7) (rotr x 18)) (Z.shiftr x 3).
Definition small_sigma1 (x : Z) : Z := Z.lxor (Z.lxor (rotr x 17) (rotr x 19)) (Z.shiftr x 10).
Definition big_sigma0 (x : Z) : Z := Z.lxor (Z.lxor (rotr x 2) (rotr x 13)) (rotr x 22).
Definition big_sigma1 (x : Z) : Z := Z.lxor (Z.lxor (rotr x 6) (rotr x 11)) (rotr x 25).
Definition ch (x y z : Z) : Z := Z.lxor (Z.land x y) (Z.land (Z.lxor x 4294967295) z).
Definition maj (x y z : Z) : Z := Z.lxor (Z.lxor (Z.land x y) (Z.land x z)) (Z.land y z).

(** The schedule: 48 words after the 16 of the block, each from four earlier
    ones.  The words are kept last first. *)
Definition schedule_step (ws : list Z) : list Z :=
  uint32 (small_sigma1 (nth 1 ws 0) + nth 6 ws 0 + small_sigma0 (nth 14 ws 0) + nth 15 ws 0) :: ws.
Definition schedule (block : bytes) : list Z :=
  rev (Nat.iter 48 schedule_step (rev (be_words 16 block))).

Definition sha_round (st : list Z) (kw : Z * Z) : list Z :=
  match st with
  | [a; b; c; d; e; f; g; h] =>
      let t1 := uint32 (h + big_sigma1 e + ch e f g + kw.1 + kw.2) in
      let t2 := uint32 (big_sigma0 a + maj a b c) in
      [uint32 (t1 + t2); a; b; c; uint32 (d + t1); e; f; g]
  | _ => st
  end.

Definition sha_block (st : list Z) (block : bytes) : list Z :=
  zip_with (λ x y, uint32 (x + y)) st (foldl sha_round st (zip sha_K (schedule block))).

Definition sha_pad (m : bytes) : bytes :=
  let bits := 8 * Z.of_nat (length m) in
  m ++ [128] ++ replicate (Z.to_nat ((55 - Z.of_nat (length m)) mod 64)) 0
    ++ put_be32 (uint32 (Z.shiftr bits 32)) ++ put_be32 (uint32 bits).

Fixpoint sha_blocks (n : nat) (st : list Z) (m : bytes) : list Z :=
  match n with O => st | S n => sha_blocks n (sha_block st (take 64 m)) (drop 64 m) end.

(** [sha256.Sum256] *)
Definition Sum256 (m : bytes) : bytes :=
  let p := sha_pad m in sha_blocks (length p / 64)%nat sha_H p ≫= put_be32.

Lemma length_sha_round st kw : length (sha_round st kw) = length st.
Proof. do 9 (destruct st as [|? st]; [done|]). done. Qed.

Lemma length_sha_blocks n st m : length st = 8%nat → length (sha_blocks n st m) = 8%nat.
Proof.
  revert st m. induction n as [|n IH]; intros st m Hst; [done|]. simpl. apply IH.
  unfold sha_block. rewrite length_zip_with.
  assert (∀ l s, length (foldl sha_round s l) = length s) as ->; [|lia].
  induction l as [|x l IHl]; intros s; [done|]. simpl. by rewrite IHl, length_sha_round.
Qed.

Lemma put_be32_bytes ws : bytes_ok (ws ≫= put_be32) ∧ length (ws ≫= put_be32) = (4 * length ws)%nat.
Proof.
  induction ws as [|w ws [IH1 IH2]]; [split; [constructor|done]|]. split.
  - apply Forall_app. split; [|done]. repeat constructor; apply byte_ok_uint8.
  - change (length (put_be32 w ++ (ws ≫= put_be32)) = (4 * S (length ws))%nat).
    rewrite length_app, IH2. simpl. lia.
Qed.

Lemma length_Sum256 m : length (Sum256 m) = 32%nat.
Proof. unfold Sum256. rewrite (proj2 (put_be32_bytes _)), length_sha_blocks; done. Qed.

Lemma bytes_ok_Sum256 m : bytes_ok (Sum256 m).
Proof. apply put_be32_bytes. Qed.

(** The digest of "abc", from the standard. *)
Example sha256_abc :
  hex_encode (Sum256 [97; 98; 99])
  = "ba7816bf8f01cfea414140de5dae2223b00361a396177a9cb410ff61f20015ad"%string.
Proof. by vm_compute. Qed.

(** The example of the feed format in [csamblocklist/feed.go]: the digest of
    the zero info hash. *)
Example sha256_zero :
  hex_encode (Sum256 (replicate 20 0))
  = "de47c9b27eb8d300dbb5f2c353e632c393262cf06340c4fa7f1b40c4cbd36f90"%string.
Proof. by vm_compute. Qed.

End SHA256.
