(* ===== verification/Wire.v ===== *)
(** * The DHT wire types

    [nodeaddr.go], [nodeinfo.go], [msg.go], [dht.go] of
    [internal/protocol/dht]: node addresses, compact node and infohash lists,
    and the messages.  The reflective slice codecs [marshalBinarySlice] and
    [unmarshalBinarySlice] are functions over the codec of one element. *)
From S2P Require Import Prelude Net Protocol.
From stdpp Require Import list strings.
From Stdlib Require Import ZArith Lia.

Module Wire.
Import Net Protocol.

(** ** Node addresses (nodeaddr.go) *)

Record NodeAddr := mkNodeAddr { na_IP : bytes; na_Port : Z }.

Definition ToAddrPort (a : NodeAddr) : AddrPort :=
  AddrPortFrom (AddrFromSlice (na_IP a)) (uint16 (na_Port a)).

Definition NewNodeAddrFromAddrPort (f : AddrPort) : NodeAddr :=
  mkNodeAddr (AsSlice (ap_addr f)) (ap_port f).

(** [binary.BigEndian] on 16 bits. *)
Definition put_uint16 (v : Z) : bytes := [uint8 (Z.shiftr v 8); uint8 v].
Definition get_uint16 (b : bytes) : Z :=
  match b with x :: y :: _ => (Z.lor (Z.shiftl x 8) y)%Z | _ => 0%Z end.

(** [make] panics on the negative length of a slice of fewer than 2 bytes. *)
Definition NodeAddr_UnmarshalBinary {E} (b : bytes) : outcome E NodeAddr :=
  if decide (length b < 2) then Panic
  else Ok (mkNodeAddr (take (length b - 2) b) (get_uint16 (drop (length b - 2) b))).

Definition NodeAddr_MarshalBinary (a : NodeAddr) : bytes := na_IP a ++ put_uint16 (uint16 (na_Port a)).

Definition NodeAddr_Equal (a x : NodeAddr) : bool :=
  IP_Equal (na_IP a) (na_IP x) && (na_Port a =? na_Port x)%Z.

(** ** Node infos and compact lists (nodeinfo.go, msg.go) *)

Record NodeInfo := mkNodeInfo { ni_ID : ID; ni_Addr : NodeAddr }.

Definition NodeInfo_MarshalBinary (ni : NodeInfo) : bytes :=
  ni_ID ni ++ na_IP (ni_Addr ni) ++ put_uint16 (uint16 (na_Port (ni_Addr ni))).

Inductive wire_error :=
| ErrTrailingBytes (have need : nat)
| ErrElem (e : id_error)
| ErrBencode.

Definition NodeInfo_UnmarshalBinary (ni : NodeInfo) (b : bytes) : outcome wire_error NodeInfo :=
  let id := fst (copy_into (ni_ID ni) b) in
  rest ← slice_from b 20;
  addr ← NodeAddr_UnmarshalBinary rest;
  Ok (mkNodeInfo id addr).

Section slices.
Context {A : Type} (elemSize : nat).

(** Panics when an element does not have the size of the list. *)
Fixpoint marshalBinarySlice (marshal : A → bytes) (elems : list A) (ret : bytes) : go bytes :=
  match elems with
  | [] => Ok ret
  | e :: elems =>
    let b := marshal e in
    if decide (length b ≠ elemSize) then Panic
    else marshalBinarySlice marshal elems (ret ++ b)
  end.

(** One element object is reused for all of [b]; the elements read so far stay
    in the slice when an error is returned.  [fuel] exceeds the number of
    rounds, each of which consumes [elemSize] bytes. *)
Fixpoint unmarshalBinarySlice_loop (fuel : nat) (unmarshal : A → bytes → outcome wire_error A)
    (elem : A) (slice : list A) (b : bytes) : go (list A * option wire_error) :=
  match fuel with
  | 0 => Panic
  | S fuel =>
    if decide (length b = 0) then Ok (slice, None)
    else if decide (length b < elemSize) then Ok (slice, Some (ErrTrailingBytes (length b) elemSize))
    else
      match unmarshal elem (take elemSize b) with
      | Panic => Panic
      | Err e => Ok (slice, Some e)
      | Ok elem => unmarshalBinarySlice_loop fuel unmarshal elem (slice ++ [elem]) (drop elemSize b)
      end
  end.

Definition unmarshalBinarySlice (unmarshal : A → bytes → outcome wire_error A) (zero : A)
    (slice : list A) (b : bytes) : go (list A * option wire_error) :=
  unmarshalBinarySlice_loop (S (length b)) unmarshal zero slice b.

End slices.

Definition CompactIPv4_ElemSize : nat := 26.
Definition CompactIPv6_ElemSize : nat := 38.
Definition CompactInfohashes_ElemSize : nat := 20.

Definition NodeInfo_zero : NodeInfo := mkNodeInfo ID_zero (mkNodeAddr [] 0).

Definition to4_info (ni : NodeInfo) : NodeInfo :=
  mkNodeInfo (ni_ID ni) (mkNodeAddr (To4 (na_IP (ni_Addr ni))) (na_Port (ni_Addr ni))).

Definition CompactIPv4_MarshalBinary (l : list NodeInfo) : go bytes :=
  marshalBinarySlice CompactIPv4_ElemSize NodeInfo_MarshalBinary (to4_info <$> l) [].
Definition CompactIPv4_UnmarshalBinary (l : list NodeInfo) (b : bytes) : go (list NodeInfo * option wire_error) :=
  unmarshalBinarySlice CompactIPv4_ElemSize NodeInfo_UnmarshalBinary NodeInfo_zero l b.

Definition CompactIPv6_MarshalBinary (l : list NodeInfo) : go bytes :=
  marshalBinarySlice CompactIPv6_ElemSize NodeInfo_MarshalBinary l [].
Definition CompactIPv6_UnmarshalBinary (l : list NodeInfo) (b : bytes) : go (list NodeInfo * option wire_error) :=
  unmarshalBinarySlice CompactIPv6_ElemSize NodeInfo_UnmarshalBinary NodeInfo_zero l b.

Definition ID_UnmarshalBinary_elem (id : ID) (b : bytes) : outcome wire_error ID :=
  match UnmarshalBinary id b with Ok i => Ok i | Err e => Err (ErrElem e) | Panic => Panic end.

Definition CompactInfohashes_MarshalBinary (l : list ID) : go bytes :=
  marshalBinarySlice CompactInfohashes_ElemSize MarshalBinary l [].
Definition CompactInfohashes_UnmarshalBinary (l : list ID) (b : bytes) : go (list ID * option wire_error) :=
  unmarshalBinarySlice CompactInfohashes_ElemSize ID_UnmarshalBinary_elem ID_zero l b.

(** ** Bencoded forms

    [bencode.Marshal] of a byte slice and [bencode.Unmarshal] into a string
    are the library's; the code relies on the second reading what the first
    writes. *)
Section bencode.
Context (bencode_marshal : bytes → bytes) (bencode_unmarshal : bytes → option bytes).

Definition bencodeBytesResult (b : go bytes) : go bytes := bencode_marshal <$> b.

Definition unmarshalBencodedBinary {A} (u : A → bytes → go (A * option wire_error)) (a : A) (b : bytes)
    : go (A * option wire_error) :=
  match bencode_unmarshal b with
  | None => Ok (a, Some ErrBencode)
  | Some s => u a s
  end.

Definition CompactIPv4_MarshalBencode (l : list NodeInfo) : go bytes :=
  bencodeBytesResult (CompactIPv4_MarshalBinary l).
Definition CompactIPv4_UnmarshalBencode (l : list NodeInfo) (b : bytes) : go (list NodeInfo * option wire_error) :=
  unmarshalBencodedBinary CompactIPv4_UnmarshalBinary l b.
Definition CompactIPv6_MarshalBencode (l : list NodeInfo) : go bytes :=
  bencodeBytesResult (CompactIPv6_MarshalBinary l).
Definition CompactIPv6_UnmarshalBencode (l : list NodeInfo) (b : bytes) : go (list NodeInfo * option wire_error) :=
  unmarshalBencodedBinary CompactIPv6_UnmarshalBinary l b.
Definition CompactInfohashes_MarshalBencode (l : list ID) : go bytes :=
  bencodeBytesResult (CompactInfohashes_MarshalBinary l).
Definition CompactInfohashes_UnmarshalBencode (l : list ID) (b : bytes) : go (list ID * option wire_error) :=
  unmarshalBencodedBinary CompactInfohashes_UnmarshalBinary l b.

Definition NodeAddr_MarshalBencode (a : NodeAddr) : bytes := bencode_marshal (NodeAddr_MarshalBinary a).
Definition NodeAddr_UnmarshalBencode (b : bytes) : outcome wire_error NodeAddr :=
  match bencode_unmarshal b with
  | None => Err ErrBencode
  | Some s => NodeAddr_UnmarshalBinary s
  end.
End bencode.

(** ** Messages (msg.go, dht.go, error.go) *)

Record Error := mkError { err_Code : Z; err_Msg : string }.
#[global] Instance Error_eq_dec : EqDecision Error.
Proof. solve_decision. Defined.

Definition ErrorCodeGenericError : Z := 201.
Definition ErrorCodeServerError : Z := 202.
Definition ErrorCodeProtocolError : Z := 203.
Definition ErrorCodeMethodUnknown : Z := 204.

Definition QPing : string := "ping".
Definition QFindNode : string := "find_node".
Definition QGetPeers : string := "get_peers".
Definition QAnnouncePeer : string := "announce_peer".
Definition QSampleInfohashes : string := "sample_infohashes".

Definition YQuery : string := "q".
Definition YResponse : string := "r".
Definition YError : string := "e".

(** The arguments of a query; the fields of BEP 32, 33 and 44 that no handler
    reads are left out. *)
Record MsgArgs := mkMsgArgs {
  arg_ID : ID; arg_InfoHash : ID; arg_Target : ID; arg_Token : string;
  arg_Port : option Z; arg_ImpliedPort : bool; arg_Scrape : Z
}.

(** The returned values; the bloom filters of BEP 33 are opaque byte strings
    and the BEP 44 fields, which nothing reads, are left out. *)
Record Return := mkReturn {
  ret_ID : ID; ret_Nodes : list NodeInfo; ret_Nodes6 : list NodeInfo;
  ret_Token : option string; ret_Values : list NodeAddr;
  ret_BFsd : option bytes; ret_BFpe : option bytes;
  ret_Interval : option Z; ret_Num : option Z; ret_Samples : option (list ID)
}.

Record Msg := mkMsg {
  msg_Q : string; msg_A : option MsgArgs; msg_T : string; msg_Y : string;
  msg_R : option Return; msg_E : option Error; msg_ReadOnly : bool
}.

Record RecvMsg := mkRecvMsg { rm_Msg : Msg; rm_From : AddrPort }.

(** The conversion of the port argument to [uint16] wraps. *)
Definition AnnouncePort (m : RecvMsg) : Z :=
  let port := ap_port (rm_From m) in
  match msg_A (rm_Msg m) with
  | Some args =>
    if negb (arg_ImpliedPort args) then
      match arg_Port args with Some p => uint16 p | None => port end
    else port
  | None => port
  end.

(** ** Lemmas *)

Lemma put_get_uint16 v rest : (0 ≤ v < 65536)%Z → get_uint16 (put_uint16 v ++ rest) = v.
Proof.
  intros Hv. cbn. unfold uint8, wrap. change (2 ^ 8)%Z with 256%Z.
  rewrite Z.shiftr_div_pow2, lor_shiftl_add by (try lia; apply Z.mod_pos_bound; lia).
  change (2 ^ 8)%Z with 256%Z.
  rewrite (Z.mod_small (v `div` 256)) by (split; [apply Z.div_pos; lia|apply Z.div_lt_upper_bound; lia]).
  rewrite (Z.div_mod v 256) at 3 by lia. lia.
Qed.

Lemma length_put_uint16 v : length (put_uint16 v) = 2.
Proof. done. Qed.

(** An address that fits a compact list with [n]-byte addresses. *)
Definition addr_fits (n : nat) (a : NodeAddr) : Prop :=
  length (na_IP a) = n ∧ (0 ≤ na_Port a < 65536)%Z.

Definition info_fits (n : nat) (ni : NodeInfo) : Prop := length (ni_ID ni) = 20 ∧ addr_fits n (ni_Addr ni).

Lemma NodeAddr_roundtrip {E} n a :
  addr_fits n a → NodeAddr_UnmarshalBinary (E := E) (NodeAddr_MarshalBinary a) = Ok a.
Proof.
  intros [Hl Hp]. unfold NodeAddr_UnmarshalBinary, NodeAddr_MarshalBinary.
  rewrite length_app, length_put_uint16, decide_False by lia.
  replace (length (na_IP a) + 2 - 2) with (length (na_IP a)) by lia.
  rewrite take_app_length, drop_app_length. unfold uint16, wrap. rewrite (Z.mod_small (na_Port a)) by lia.
  rewrite <-(app_nil_r (put_uint16 _)), put_get_uint16 by lia. by destruct a.
Qed.

Lemma NodeInfo_roundtrip n old ni :
  length (ni_ID old) = 20 → info_fits n ni →
  NodeInfo_UnmarshalBinary old (NodeInfo_MarshalBinary ni) = Ok ni.
Proof.
  intros Ho [Hi Ha]. unfold NodeInfo_UnmarshalBinary, NodeInfo_MarshalBinary, slice_from.
  fold (NodeAddr_MarshalBinary (ni_Addr ni)). rewrite copy_into_long by (rewrite ?length_app; lia).
  cbn [fst]. rewrite length_app, decide_True by lia. cbn [mbind outcome_bind].
  rewrite drop_app_le, drop_ge, take_app_le, take_ge by lia. cbn [app].
  rewrite (NodeAddr_roundtrip n) by done. by destruct ni.
Qed.

Lemma length_NodeInfo_Marshal n ni : info_fits n ni → length (NodeInfo_MarshalBinary ni) = 22 + n.
Proof. intros [Hi [Ha _]]. unfold NodeInfo_MarshalBinary. rewrite !length_app. cbn. lia. Qed.

(** Encoding a list of elements of the right size, then decoding it after the
    elements that are there already. *)
Section slice_lemmas.
Context {A : Type} (k : nat) (marshal : A → bytes) (unmarshal : A → bytes → outcome wire_error A).

Lemma marshalBinarySlice_ok elems : ∀ ret,
  Forall (λ e, length (marshal e) = k) elems →
  marshalBinarySlice k marshal elems ret = Ok (ret ++ concat (marshal <$> elems)).
Proof.
  induction elems as [|e elems IH]; intros ret Hall; cbn; [by rewrite app_nil_r|].
  apply Forall_cons in Hall as [He Hall]. rewrite decide_False, IH by (done || lia). by rewrite app_assoc.
Qed.

Lemma marshalBinarySlice_panic elems : ∀ ret,
  Exists (λ e, length (marshal e) ≠ k) elems → marshalBinarySlice k marshal elems ret = Panic.
Proof.
  induction elems as [|e elems IH]; intros ret Hex; [by inversion Hex|]. cbn. case_decide; [done|].
  apply IH. inversion Hex; subst; [done|done].
Qed.

Lemma unmarshal_marshal (usable good : A → Prop) elems : ∀ fuel elem slice,
  0 < k → length elems < fuel → usable elem → Forall good elems →
  Forall (λ e, length (marshal e) = k) elems → (∀ e, good e → usable e) →
  (∀ old e, usable old → good e → unmarshal old (marshal e) = Ok e) →
  unmarshalBinarySlice_loop k fuel unmarshal elem slice (concat (marshal <$> elems)) = Ok (slice ++ elems, None).
Proof.
  induction elems as [|e elems IH]; intros [|fuel] elem slice Hk Hf Hg Hgs Hl Hus Hrt; cbn in Hf; try lia; cbn.
  - by rewrite app_nil_r.
  - apply Forall_cons in Hl as [He Hl]. apply Forall_cons in Hgs as [Hge Hgs].
    rewrite length_app, !decide_False by lia. rewrite take_app_le, take_ge by lia.
    rewrite Hrt by done. rewrite drop_app_le, drop_ge by lia. cbn [app].
    rewrite IH by (done || lia || by apply Hus). by rewrite <-app_assoc.
Qed.

(** Decoding any byte string: no panic, one element per [k] bytes, and an
    error exactly when some bytes are left over. *)
Lemma unmarshalBinarySlice_total (usable good : A → Prop) fuel : ∀ elem slice b,
  0 < k → length b < fuel → usable elem → (∀ e, good e → usable e) →
  (∀ old c, usable old → length c = k → ∃ e, unmarshal old c = Ok e ∧ good e) →
  ∃ es, unmarshalBinarySlice_loop k fuel unmarshal elem slice b =
          Ok (slice ++ es,
              if decide (length b mod k = 0) then None else Some (ErrTrailingBytes (length b mod k) k)) ∧
    length es = length b / k ∧ Forall good es.
Proof.
  induction fuel as [|fuel IH]; intros elem slice b Hk Hf Hg Hus Hun; [lia|]. cbn.
  destruct (decide (length b = 0)) as [Hz|Hz].
  { exists []. rewrite app_nil_r, Hz, Nat.Div0.mod_0_l, Nat.Div0.div_0_l. by split. }
  destruct (decide (length b < k)) as [Hlt|Hge].
  { exists []. rewrite Nat.mod_small, Nat.div_small, app_nil_r, decide_False by lia. by split. }
  destruct (Hun elem (take k b) Hg) as (e & -> & He); [rewrite length_take; lia|].
  destruct (IH e (slice ++ [e]) (drop k b)) as (es & -> & Hles & Hgs); try done;
    [rewrite length_drop; lia|by apply Hus|]. exists (e :: es). rewrite length_drop in *.
  assert (length b = (length b - k) + 1 * k) as Eb by lia.
  assert ((length b - k) mod k = length b mod k) as -> by (rewrite Eb at 2; by rewrite Nat.Div0.mod_add).
  split; [by rewrite <-app_assoc|]. split; [|by constructor]. cbn. rewrite Hles.
  rewrite Eb at 2. rewrite Nat.div_add by lia. lia.
Qed.

End slice_lemmas.

Lemma length_concat_const {A} (f : A → bytes) k l :
  Forall (λ e, length (f e) = k) l → length (concat (f <$> l)) = length l * k.
Proof.
  induction l as [|e l IH]; intros Hall; [done|]. apply Forall_cons in Hall as [He Hall].
  cbn. rewrite length_app, IH by done. lia.
Qed.

Lemma to4_info_v4 ni : info_fits 4 ni → to4_info ni = ni.
Proof.
  intros [_ [Hl _]]. unfold to4_info, To4. rewrite decide_True by done. by destruct ni as [i [ip p]].
Qed.

Lemma compact_list_roundtrip {A} k (marshal : A → bytes) unmarshal zero (usable good : A → Prop) l :
  0 < k → usable zero → Forall good l → (∀ e, good e → usable e) → (∀ e, good e → length (marshal e) = k) →
  (∀ old e, usable old → good e → unmarshal old (marshal e) = Ok e) →
  ∃ b, marshalBinarySlice k marshal l [] = Ok b ∧ length b = k * length l ∧
    unmarshalBinarySlice k unmarshal zero [] b = Ok (l, None).
Proof.
  intros Hk Hz Hl Hus Hm Hrt. exists (concat (marshal <$> l)).
  assert (Forall (λ e, length (marshal e) = k) l) as Hlen by (eapply Forall_impl; [done|apply Hm]).
  pose proof (length_concat_const marshal k l Hlen) as Hlc. split_and!.
  - by rewrite marshalBinarySlice_ok.
  - lia.
  - unfold unmarshalBinarySlice. rewrite (unmarshal_marshal k marshal unmarshal usable good); [done|done| |done..].
    rewrite Hlc. nia.
Qed.

Lemma ID_elem_roundtrip old id :
  length old = 20 → length id = 20 → ID_UnmarshalBinary_elem old (MarshalBinary id) = Ok id.
Proof.
  intros Ho Hi. unfold ID_UnmarshalBinary_elem, UnmarshalBinary, MarshalBinary.
  rewrite decide_False by lia. by rewrite copy_into_full by lia.
Qed.

Lemma To4_length ip : length (To4 ip) = 4 ∨ To4 ip = [].
Proof.
  unfold To4. case_decide as H4; [by left|]. case_decide as H16; [|by right].
  left. rewrite length_drop. lia.
Qed.

(** What a compact list of nodes with [n]-byte addresses decodes to. *)
Definition decoded_info (n : nat) (ni : NodeInfo) : Prop :=
  length (ni_ID ni) = 20 ∧ length (na_IP (ni_Addr ni)) = n.

Lemma NodeInfo_Unmarshal_total n old b :
  length (ni_ID old) = 20 → length b = 22 + n →
  ∃ ni, NodeInfo_UnmarshalBinary old b = Ok ni ∧ decoded_info n ni.
Proof.
  intros Ho Hl. unfold NodeInfo_UnmarshalBinary, slice_from. rewrite decide_True by lia. cbn [mbind outcome_bind].
  unfold NodeAddr_UnmarshalBinary. rewrite length_drop, decide_False by lia. cbn [mbind outcome_bind].
  eexists. split; [done|]. split; cbn [ni_ID ni_Addr na_IP].
  - rewrite copy_into_long by lia. cbn [fst]. rewrite length_take. lia.
  - rewrite length_take, length_drop. lia.
Qed.

(** ** The theorems *)

(** C6: the compact lists round-trip.  IPv4 nodes, IPv6 nodes and infohashes
    encode to 26, 38 and 20 bytes each and decode to the same list; a node
    whose address has no IPv4 form makes the IPv4 encoder panic. *)
Theorem wire_compact_roundtrip l4 l6 hs :
  Forall (info_fits 4) l4 → Forall (info_fits 16) l6 → Forall (λ h, length h = 20) hs →
  (∃ b, CompactIPv4_MarshalBinary l4 = Ok b ∧ length b = 26 * length l4 ∧
     CompactIPv4_UnmarshalBinary [] b = Ok (l4, None)) ∧
  (∃ b, CompactIPv6_MarshalBinary l6 = Ok b ∧ length b = 38 * length l6 ∧
     CompactIPv6_UnmarshalBinary [] b = Ok (l6, None)) ∧
  (∃ b, CompactInfohashes_MarshalBinary hs = Ok b ∧ length b = 20 * length hs ∧
     CompactInfohashes_UnmarshalBinary [] b = Ok (hs, None)) ∧
  (∀ ni, length (ni_ID ni) = 20 → To4 (na_IP (ni_Addr ni)) = [] →
     CompactIPv4_MarshalBinary (ni :: l4) = Panic).
Proof.
  intros H4 H6 Hh. split_and!.
  - unfold CompactIPv4_MarshalBinary, CompactIPv4_UnmarshalBinary.
    assert (to4_info <$> l4 = l4) as ->.
    { clear -H4. induction H4; cbn; [done|]. by rewrite to4_info_v4, IHForall. }
    apply (compact_list_roundtrip _ _ _ _ (λ ni, length (ni_ID ni) = 20) (info_fits 4));
      [by cbv; lia|done|done|by intros e []|apply (length_NodeInfo_Marshal 4)|apply NodeInfo_roundtrip].
  - apply (compact_list_roundtrip _ _ _ _ (λ ni, length (ni_ID ni) = 20) (info_fits 16));
      [by cbv; lia|done|done|by intros e []|apply (length_NodeInfo_Marshal 16)|apply NodeInfo_roundtrip].
  - apply (compact_list_roundtrip _ _ _ _ (λ h, length h = 20) (λ h, length h = 20));
      [by cbv; lia|done|done|done|done|apply ID_elem_roundtrip].
  - intros ni Hi Hno. apply marshalBinarySlice_panic. cbn. left.
    unfold NodeInfo_MarshalBinary, to4_info. cbn [ni_ID ni_Addr na_IP na_Port]. rewrite Hno.
    rewrite !length_app, length_put_uint16, Hi. by cbv.
Qed.

(** decoding never panics.  Whatever bytes arrive, each compact list
    decodes to one entry per 26, 38 or 20 bytes, appended to the entries that
    were there, with well-formed identifiers and addresses, and reports an
    error exactly when bytes are left over. *)
Theorem wire_decode_total l hs b :
  (∃ es, CompactIPv4_UnmarshalBinary l b =
       Ok (l ++ es, if decide (length b mod 26 = 0) then None else Some (ErrTrailingBytes (length b mod 26) 26)) ∧
     length es = length b / 26 ∧ Forall (decoded_info 4) es) ∧
  (∃ es, CompactIPv6_UnmarshalBinary l b =
       Ok (l ++ es, if decide (length b mod 38 = 0) then None else Some (ErrTrailingBytes (length b mod 38) 38)) ∧
     length es = length b / 38 ∧ Forall (decoded_info 16) es) ∧
  (∃ es, CompactInfohashes_UnmarshalBinary hs b =
       Ok (hs ++ es, if decide (length b mod 20 = 0) then None else Some (ErrTrailingBytes (length b mod 20) 20)) ∧
     length es = length b / 20 ∧ Forall (λ h, length h = 20) es).
Proof.
  assert (H20 : ∀ old c, length (A := Z) old = 20 → length c = 20 →
    ∃ e, ID_UnmarshalBinary_elem old c = Ok e ∧ length e = 20).
  { intros old c Ho Hc. exists c. split; [|done]. unfold ID_UnmarshalBinary_elem, UnmarshalBinary.
    rewrite decide_False by lia. by rewrite copy_into_full by lia. }
  split_and!; unfold CompactIPv4_UnmarshalBinary, CompactIPv6_UnmarshalBinary, CompactInfohashes_UnmarshalBinary.
  - apply (unmarshalBinarySlice_total 26 _ (λ x, length (ni_ID x) = 20) (decoded_info 4));
      [lia|lia|done|by intros e []|]. intros old c Ho Hc. by apply NodeInfo_Unmarshal_total.
  - apply (unmarshalBinarySlice_total 38 _ (λ x, length (ni_ID x) = 20) (decoded_info 16));
      [lia|lia|done|by intros e []|]. intros old c Ho Hc. by apply NodeInfo_Unmarshal_total.
  - apply (unmarshalBinarySlice_total 20 _ (λ x, length x = 20) (λ x, length x = 20)); [lia|lia|done|done|done].
Qed.

(** a node address on the wire.  The address of a peer survives the trip
    through [MarshalBinary], [UnmarshalBinary] and [ToAddrPort]; but decoding
    a string of fewer than two bytes panics, and the bencoded form, which any
    sender can put into a message, has no check in front of it. *)
Theorem wire_nodeaddr_codec (bencode_unmarshal : bytes → option bytes) f b s :
  (match ap_addr f with AddrV6 _ zone => zone = "" | _ => True end) →
  addr_ok (ap_addr f) → IsValid (ap_addr f) = true → (0 ≤ ap_port f < 65536)%Z →
  bencode_unmarshal b = Some s →
  (∃ a, NodeAddr_UnmarshalBinary (E := wire_error) (NodeAddr_MarshalBinary (NewNodeAddrFromAddrPort f)) = Ok a ∧
     ToAddrPort a = f) ∧
  (NodeAddr_UnmarshalBencode bencode_unmarshal b = Panic ↔ length s < 2).
Proof.
  intros Hzone Hok Hv Hp Hb. split.
  - exists (NewNodeAddrFromAddrPort f). split; [by apply (NodeAddr_roundtrip (length (AsSlice (ap_addr f))))|].
    unfold ToAddrPort, NewNodeAddrFromAddrPort. cbn [na_IP na_Port].
    unfold uint16, wrap. rewrite Z.mod_small by lia. destruct f as [[|v|v zone] p]; cbn in *; [done|..].
    + destruct Hok as [Hl _]. unfold AddrFromSlice. by rewrite decide_True.
    + destruct Hok as [Hl _]. unfold AddrFromSlice. rewrite decide_False, decide_True by lia. by subst zone.
  - unfold NodeAddr_UnmarshalBencode. rewrite Hb. unfold NodeAddr_UnmarshalBinary. case_decide; [done|].
    split; [done|lia].
Qed.

(** ** Examples *)

Definition ex_peer : AddrPort := AddrPortFrom (AddrV4 [192; 0; 2; 7]%Z) 51413.
Definition ex_info : NodeInfo := mkNodeInfo (replicate 20 1%Z) (NewNodeAddrFromAddrPort ex_peer).

Lemma wire_compact_roundtrip_witness :
  (∃ b, CompactIPv4_MarshalBinary [ex_info; ex_info] = Ok b ∧ length b = 26 * 2 ∧
     CompactIPv4_UnmarshalBinary [] b = Ok ([ex_info; ex_info], None)).
Proof.
  apply (wire_compact_roundtrip [ex_info; ex_info] [] [replicate 20 2%Z]).
  - repeat constructor; cbn; lia.
  - constructor.
  - repeat constructor.
Defined.

Lemma wire_nodeaddr_codec_witness :
  (∃ a, NodeAddr_UnmarshalBinary (E := wire_error) (NodeAddr_MarshalBinary (NewNodeAddrFromAddrPort ex_peer)) = Ok a ∧
     ToAddrPort a = ex_peer) ∧
  (NodeAddr_UnmarshalBencode (λ b, Some (drop 2 b)) [49; 58; 120]%Z = Panic ↔ length [120%Z] < 2).
Proof.
  apply (wire_nodeaddr_codec (λ b, Some (drop 2 b)) ex_peer [49; 58; 120]%Z [120%Z]);
    [exact I|split; [reflexivity|repeat constructor; unfold byte_ok; lia]|reflexivity|cbn; lia|reflexivity].
Defined.

End Wire.
