(* ===== verification/Btree.v ===== *)
(** * The Kademlia binary tree

    Models [src/internal/protocol/dht/ktable/btree]: node identifiers and
    their bits, the three kinds of tree node with the operations of the
    [iNode] interface, and the root that keeps bucket counts and decides
    which identifiers are admitted. *)
From S2P Require Import Prelude.
From stdpp Require Import gmap list strings sets sorting.
From Stdlib Require Import ZArith Lia Ascii.
From Stdlib Require String.

Module Btree.

(** ** Identifiers and bits (btree.go) *)

Abbreviation NodeID := (list Z).
Abbreviation Bit := bool.
Abbreviation Bits := (list bool).
Definition Bit0 : Bit := false.
Definition Bit1 : Bit := true.

Fixpoint LeadingZeros (b : Bits) : nat :=
  match b with
  | [] => 0
  | bit :: rest => if bit : bool then 0 else S (LeadingZeros rest)
  end.

(** [Bits.Cmp]; every step drops at least one bit, so [length b] steps are
    enough. *)
Fixpoint Cmp_fuel (fuel : nat) (b other : Bits) : go Z :=
  match fuel with
  | O => Panic
  | S fuel =>
    let thisPos := LeadingZeros b + 1 in
    let otherPos := LeadingZeros other + 1 in
    if decide (thisPos < otherPos) then Ok 1%Z
    else if decide (otherPos < thisPos) then Ok (-1)%Z
    else if decide (thisPos = length b) then Ok 0%Z
    else
      b' ← slice_from b thisPos;
      other' ← slice_from other thisPos;
      Cmp_fuel fuel b' other'
  end.
Definition Cmp (b other : Bits) : go Z := Cmp_fuel (S (length b)) b other.

Definition Bits_String (b : Bits) : string :=
  String.string_of_list_ascii ((λ bit : bool, if bit then "1"%char else "0"%char) <$> b).

Inductive parse_error := ErrLengthNotMultipleOf8 | ErrInvalidCharacter.

Fixpoint parse_binary_loop (i : nat) (str : list ascii) (id : NodeID) : outcome parse_error NodeID :=
  match str with
  | [] => Ok id
  | c :: str =>
    if decide (c = "1"%char) then
      b ← of_option (id !! (i / 8));
      parse_binary_loop (S i) str
        (<[i / 8 := Z.lor b (Z.shiftl 1 (7 - Z.of_nat (i mod 8)))]> id)
    else if decide (c ≠ "0"%char) then Err ErrInvalidCharacter
    else parse_binary_loop (S i) str id
  end.

Definition ParseBinaryNodeID (str : string) : outcome parse_error NodeID :=
  let cs := String.list_ascii_of_string str in
  if decide (length cs mod 8 ≠ 0) then Err ErrLengthNotMultipleOf8
  else parse_binary_loop 0 cs (replicate (length cs / 8) 0%Z).

Definition GetBit (id : NodeID) (n : nat) : go Bit :=
  b ← of_option (id !! (n / 8));
  Ok (bit_at b (7 - Z.of_nat (n mod 8))).

Inductive xor_error := ErrLengthMismatch.

Definition Xor (id other : NodeID) : outcome xor_error NodeID :=
  if decide (length id ≠ length other) then Err ErrLengthMismatch
  else Ok (zip_with Z.lxor id other).

Definition MustXor (id other : NodeID) : go NodeID :=
  match Xor id other with Ok ret => Ok ret | _ => Panic end.

Definition NodeID_String (id : NodeID) : string := hex_encode id.

Fixpoint Equals_loop (id other : NodeID) : bool :=
  match other, id with
  | b :: other, b' :: id => if decide (b ≠ b') then false else Equals_loop id other
  | _, _ => true
  end.
Definition Equals (id other : NodeID) : bool :=
  if decide (length other ≠ length id) then false else Equals_loop id other.

(** [NodeID.Bits]: reads every bit of the identifier. *)
Definition NodeID_Bits (id : NodeID) : go Bits :=
  foldr (λ i (rest : go Bits), bit ← GetBit id i; path ← rest; Ok (bit :: path))
    (Ok []) (seq 0 (length id * 8)).

Definition BinaryString (id : NodeID) : go string :=
  path ← NodeID_Bits id; Ok (Bits_String path).

Inductive PutResult := PutRejected | PutAccepted | PutAlreadyExists.
#[global] Instance PutResult_eq_dec : EqDecision PutResult.
Proof. solve_decision. Defined.

Definition PutResult_String (r : PutResult) : string :=
  match r with
  | PutRejected => "rejected"
  | PutAccepted => "accepted"
  | PutAlreadyExists => "already exists"
  end.

Definition appendToPath (path : Bits) (bit : Bit) : Bits := path ++ [bit].

(** ** Tree nodes (node.go) *)

Record baseNode := BaseNode { origin : NodeID; bit : Bit; path : Bits }.

Definition base_N (n : baseNode) : nat := length (origin n) * 8.

(** The two-entry maps [branches] and [counts] of a branch node are always
    built with both keys: they are two fields each. *)
Inductive iNode :=
| emptyNode (base : baseNode)
| leafNode (base : baseNode) (xor : NodeID)
| branchNode (base : baseNode) (branch0 branch1 : iNode) (count0 count1 : Z).

Definition base_of (n : iNode) : baseNode :=
  match n with emptyNode b | leafNode b _ | branchNode b _ _ _ _ => b end.

Fixpoint has (n : iNode) (xor : NodeID) : go bool :=
  match n with
  | emptyNode _ => Ok false
  | leafNode _ x => Ok (Equals x xor)
  | branchNode base b0 b1 _ _ =>
    bit ← GetBit xor (length (path base));
    has (if bit : bool then b1 else b0) xor
  end.

Definition count (n : iNode) : Z :=
  match n with
  | emptyNode _ => 0
  | leafNode _ _ => 1
  | branchNode _ _ _ c0 c1 => c0 + c1
  end.

Fixpoint allXors (n : iNode) : list NodeID :=
  match n with
  | emptyNode _ => []
  | leafNode _ x => [x]
  | branchNode _ b0 b1 _ _ => allXors b0 ++ allXors b1
  end.

Fixpoint any (n : iNode) : bool :=
  match n with
  | emptyNode _ => false
  | leafNode _ _ => true
  | branchNode _ b0 b1 _ _ => any b0 || any b1
  end.

Fixpoint furthestXor (n : iNode) : option NodeID :=
  match n with
  | emptyNode _ => None
  | leafNode _ x => Some x
  | branchNode _ b0 b1 _ _ =>
    match furthestXor b1 with Some x => Some x | None => furthestXor b0 end
  end.

(** [n.branches[bit] = newBranch; n.counts[bit] = newBranch.count()]. *)
Definition set_branch (base : baseNode) (b0 b1 : iNode) (c0 c1 : Z) (bit : Bit) (newBranch : iNode) : iNode :=
  if bit then branchNode base b0 newBranch c0 (count newBranch)
  else branchNode base newBranch b1 (count newBranch) c1.

(** A leaf that receives a second identifier becomes a branch, puts its own
    identifier back and then the new one, which may split again one bit
    further.  [fuel] bounds that recursion. *)
Fixpoint put (fuel : nat) (n : iNode) (xor : NodeID) : go (iNode * PutResult) :=
  match fuel with
  | O => Panic
  | S fuel =>
    match n with
    | emptyNode base => Ok (leafNode base xor, PutAccepted)
    | leafNode base x =>
      if Equals x xor then Ok (n, PutAlreadyExists)
      else
        let initNode :=
          branchNode base
            (emptyNode (BaseNode (origin base) Bit0 (appendToPath (path base) Bit0)))
            (emptyNode (BaseNode (origin base) Bit1 (appendToPath (path base) Bit1)))
            0 0 in
        '(newNode, existingPutResult) ← put fuel initNode x;
        if decide (existingPutResult ≠ PutAccepted) then Panic
        else put fuel newNode xor
    | branchNode base b0 b1 c0 c1 =>
      bit ← GetBit xor (length (path base));
      '(newBranch, result) ← put fuel (if bit : bool then b1 else b0) xor;
      if decide (result = PutAccepted) then
        Ok (set_branch base b0 b1 c0 c1 bit newBranch, result)
      else Ok (n, result)
    end
  end.

(** Two calls per bit and the final leaf. *)
Definition put_fuel (xor : NodeID) : nat := 2 * (8 * length xor) + 3.

Fixpoint drop (n : iNode) (xor : NodeID) : go (iNode * bool) :=
  match n with
  | emptyNode _ => Ok (n, false)
  | leafNode base x => if Equals x xor then Ok (emptyNode base, true) else Ok (n, false)
  | branchNode base b0 b1 c0 c1 =>
    bit ← GetBit xor (length (path base));
    '(newBranch, ok) ← drop (if bit : bool then b1 else b0) xor;
    if ok : bool then
      let newCount := count newBranch in
      let otherCount := if bit : bool then c0 else c1 in
      let other := if bit : bool then b0 else b1 in
      let updated := set_branch base b0 b1 c0 c1 bit newBranch in
      if (newCount =? 0)%Z then
        if (otherCount =? 0)%Z then Ok (emptyNode base, true)
        else if (otherCount =? 1)%Z then
          match allXors other with
          | [x] => Ok (leafNode base x, true)
          | _ => Panic
          end
        else Ok (updated, true)
      else Ok (updated, true)
    else Ok (n, false)
  end.

Fixpoint leaf_countCloser (xor : NodeID) (pos : nat) (p : Bits) : go Z :=
  match p with
  | [] => Ok 1%Z
  | bit :: p =>
    if bit : bool then
      b ← GetBit xor pos;
      if negb b then Ok 0%Z else leaf_countCloser xor (S pos) p
    else leaf_countCloser xor (S pos) p
  end.

Fixpoint countCloserThanSubpath (n : iNode) (p : Bits) : go Z :=
  match n with
  | emptyNode _ => Ok 0%Z
  | leafNode base x => leaf_countCloser x (length (path base)) p
  | branchNode _ b0 b1 c0 c1 =>
    match p with
    | [] => Ok 0%Z
    | [bit] => Ok (if bit : bool then c0 + c1 else c0)%Z
    | bit :: rest =>
      if bit : bool then
        c ← countCloserThanSubpath b1 rest; Ok (c0 + c)%Z
      else countCloserThanSubpath b0 rest
    end
  end.

Fixpoint leaf_countAt (xor : NodeID) (pos : nat) (p : Bits) : go Z :=
  match p with
  | [] => Ok 1%Z
  | bit :: p =>
    b ← GetBit xor pos;
    if decide (b ≠ bit) then Ok 0%Z else leaf_countAt xor (S pos) p
  end.

Fixpoint countAtSubpath (n : iNode) (p : Bits) : go Z :=
  match n with
  | emptyNode _ => Ok 0%Z
  | leafNode base x => leaf_countAt x (length (path base)) p
  | branchNode _ b0 b1 _ _ =>
    match p with
    | [] => Ok (count n)
    | bit :: rest => countAtSubpath (if bit : bool then b1 else b0) rest
    end
  end.

Fixpoint xorsClosestToSubpath (n : iNode) (p : Bits) (cnt : Z) : list NodeID :=
  match n with
  | emptyNode _ => []
  | leafNode _ x => if (cnt <? 1)%Z then [] else [x]
  | branchNode _ b0 b1 _ _ =>
    let p := match p with [] => appendToPath p Bit0 | _ => p end in
    let first := match p with bit :: _ => bit | [] => Bit0 end in
    let closest := xorsClosestToSubpath (if first then b1 else b0) (tail p) cnt in
    if (Z.of_nat (length closest) <? cnt)%Z then
      closest ++ xorsClosestToSubpath (if first then b0 else b1) []
                   (cnt - Z.of_nat (length closest))
    else closest
  end.

(** ** The root (node.go) *)

Record rootNode := RootNode {
  root_base : baseNode;
  root_k : Z;
  root_node : iNode;
  splittingEnabled : bool;
  bucketCounts : gmap nat Z
}.

Definition root_origin (n : rootNode) : NodeID := origin (root_base n).

Definition New (org : NodeID) (k : Z) (splitting : bool) : rootNode :=
  RootNode (BaseNode org Bit0 []) k (emptyNode (BaseNode org Bit0 [])) splitting ∅.

Definition with_node (n : rootNode) (node : iNode) : rootNode :=
  RootNode (root_base n) (root_k n) node (splittingEnabled n) (bucketCounts n).
Definition with_counts (n : rootNode) (counts : gmap nat Z) : rootNode :=
  RootNode (root_base n) (root_k n) (root_node n) (splittingEnabled n) counts.

Definition Has (n : rootNode) (id : NodeID) : go bool :=
  xor ← MustXor id (root_origin n); has (root_node n) xor.

Definition getBucketCount (n : rootNode) (xor : NodeID) : go Z :=
  p ← NodeID_Bits xor; Ok (default 0%Z (bucketCounts n !! LeadingZeros p)).

Definition putBucketCount (n : rootNode) (xor : NodeID) : go rootNode :=
  p ← NodeID_Bits xor;
  let bucket := LeadingZeros p in
  let counts :=
    match bucketCounts n !! bucket with
    | Some _ => bucketCounts n
    | None => <[bucket := 0%Z]> (bucketCounts n)
    end in
  Ok (with_counts n (<[bucket := default 0 (counts !! bucket) + 1]> counts)%Z).

Definition dropBucketCount (n : rootNode) (xor : NodeID) : go rootNode :=
  p ← NodeID_Bits xor;
  let bucket := LeadingZeros p in
  Ok (with_counts n (<[bucket := default 0 (bucketCounts n !! bucket) - 1]> (bucketCounts n))%Z).

(** The admission test of [Put]: whether the identifier is turned away
    before it reaches the tree. *)
Definition bucket_full (n : rootNode) (xor : NodeID) : go bool :=
  c ← getBucketCount n xor;
  if (root_k n <=? c)%Z then
    if negb (splittingEnabled n) then Ok true
    else
      p ← NodeID_Bits xor;
      closer ← countCloserThanSubpath (root_node n) p;
      Ok (root_k n <=? closer)%Z
  else Ok false.

Definition Put (n : rootNode) (id : NodeID) : go (rootNode * PutResult) :=
  if Equals id (root_origin n) then Ok (n, PutRejected)
  else
    xor ← MustXor id (root_origin n);
    found ← has (root_node n) xor;
    if found : bool then Ok (n, PutAlreadyExists)
    else
      full ← bucket_full n xor;
      if full : bool then Ok (n, PutRejected)
      else
        '(newNode, result) ← put (put_fuel xor) (root_node n) xor;
        if decide (result = PutAccepted) then
          n' ← putBucketCount (with_node n newNode) xor;
          Ok (n', result)
        else Ok (n, result).

Definition Drop (n : rootNode) (id : NodeID) : go (rootNode * bool) :=
  xor ← MustXor id (root_origin n);
  '(newNode, ok) ← drop (root_node n) xor;
  if ok : bool then
    n' ← dropBucketCount (with_node n newNode) xor;
    Ok (n', true)
  else Ok (n, false).

Definition furthest (n : rootNode) (thresholdXor : NodeID) : go (option NodeID) :=
  match furthestXor (root_node n) with
  | Some xor =>
    xb ← NodeID_Bits xor;
    tb ← NodeID_Bits thresholdXor;
    c ← Cmp xb tb;
    if (c <=? 0)%Z then Ok None
    else id ← MustXor xor (root_origin n); Ok (Some id)
  | None => Ok None
  end.

Definition Count (n : rootNode) : Z := count (root_node n).

Definition countCloserThan (n : rootNode) (id : NodeID) : go Z :=
  p ← NodeID_Bits id; countCloserThanSubpath (root_node n) p.

Definition Closest (n : rootNode) (id : NodeID) (cnt : Z) : go (list NodeID) :=
  xor ← MustXor id (root_origin n);
  p ← NodeID_Bits xor;
  foldr (λ x (rest : go (list NodeID)),
           i ← MustXor x (root_origin n); ids ← rest; Ok (i :: ids))
    (Ok []) (xorsClosestToSubpath (root_node n) p cnt).

(** ** Well-formed trees *)

Definition id_ok (L : nat) (x : NodeID) : Prop := length x = L ∧ bytes_ok x.

(** [wf L p n]: every identifier below [n] has [L] bytes and starts with the
    path [p] of [n], the counts are those of the branches, and no branch is
    empty. *)
Inductive wf (L : nat) : Bits → iNode → Prop :=
| wf_empty b : wf L (path b) (emptyNode b)
| wf_leaf b x :
    id_ok L x → path b `prefix_of` bits x → wf L (path b) (leafNode b x)
| wf_branch b b0 b1 c0 c1 :
    length (path b) < 8 * L →
    wf L (path b ++ [false]) b0 → wf L (path b ++ [true]) b1 →
    c0 = count b0 → c1 = count b1 → (0 < c0 + c1)%Z →
    wf L (path b) (branchNode b b0 b1 c0 c1).

(** ** The root invariant and the abstract set of identifiers *)

Definition xor_id (a b : NodeID) : NodeID := zip_with Z.lxor a b.

(** The bucket of an identifier at distance [x] from the origin. *)
Definition bucket_of (x : NodeID) : nat := LeadingZeros (bits x).

(** The identifiers of a bucket. *)
Definition bucket_members (n : iNode) (k : nat) : list NodeID :=
  filter (λ x, bucket_of x = k) (allXors n).

#[global] Arguments bucket_members : simpl never.

Record root_inv (L : nat) (r : rootNode) : Prop := {
  inv_origin : id_ok L (root_origin r);
  inv_wf : wf L [] (root_node r);
  inv_nonzero : replicate L 0%Z ∉ allXors (root_node r);
  inv_counts : ∀ k, default 0%Z (bucketCounts r !! k) = Z.of_nat (length (bucket_members (root_node r) k))
}.

(** What the tree stores, as its users see it: a set of identifiers. *)
Definition members (r : rootNode) : gset NodeID :=
  list_to_set ((λ x, xor_id x (root_origin r)) <$> allXors (root_node r)).

(** The fields that no operation changes. *)
Definition same_config (r r' : rootNode) : Prop :=
  root_base r' = root_base r ∧ root_k r' = root_k r ∧ splittingEnabled r' = splittingEnabled r.

(** [bits_leb a b]: [a] is not further from the origin than [b]. *)
Fixpoint bits_leb (a b : Bits) : bool :=
  match a, b with
  | x :: a, y :: b => if Bool.eqb x y then bits_leb a b else y
  | _, _ => true
  end.

(** The identifiers of a tree that are no further away than [x]. *)
Definition closer (n : iNode) (x : NodeID) : list NodeID :=
  filter (λ y, Is_true (bits_leb (bits y) (bits x))) (allXors n).

(** The order in which [xorsClosestToSubpath] visits a tree. *)
Fixpoint closest_order (n : iNode) (p : Bits) : list NodeID :=
  match n with
  | emptyNode _ => []
  | leafNode _ x => [x]
  | branchNode _ b0 b1 _ _ =>
    let first := default Bit0 (head p) in
    closest_order (if first : bool then b1 else b0) (tail p)
      ++ closest_order (if first : bool then b0 else b1) []
  end.

(** The length of the prefix two identifiers share, bit by bit. *)
Definition shared_prefix (a b : NodeID) : nat := bucket_of (xor_id a b).

(** ** Runs of operations and the abstract set they implement *)

Inductive op := OpPut (id : NodeID) | OpDrop (id : NodeID) | OpHas (id : NodeID) | OpCount.
Inductive obs := ObsPut (r : PutResult) | ObsDrop (ok : bool) | ObsHas (ok : bool) | ObsCount (c : Z).

Definition exec (r : rootNode) (o : op) : go (rootNode * obs) :=
  match o with
  | OpPut id => '(r', res) ← Put r id; Ok (r', ObsPut res)
  | OpDrop id => '(r', ok) ← Drop r id; Ok (r', ObsDrop ok)
  | OpHas id => ok ← Has r id; Ok (r, ObsHas ok)
  | OpCount => Ok (r, ObsCount (Count r))
  end.

Fixpoint run (r : rootNode) (ops : list op) : go (rootNode * list obs) :=
  match ops with
  | [] => Ok (r, [])
  | o :: ops =>
    '(r', ob) ← exec r o;
    '(r'', obs) ← run r' ops;
    Ok (r'', ob :: obs)
  end.

Definition op_ok (L : nat) (o : op) : Prop :=
  match o with OpPut id | OpDrop id | OpHas id => id_ok L id | OpCount => True end.

(** The contract of the [Btree] interface: a set of identifiers that never
    holds the origin. *)
Inductive set_step (org : NodeID) (s : gset NodeID) : op → obs → gset NodeID → Prop :=
| set_put_exists id : id ∈ s → set_step org s (OpPut id) (ObsPut PutAlreadyExists) s
| set_put_accept id :
    id ∉ s → id ≠ org → set_step org s (OpPut id) (ObsPut PutAccepted) ({[id]} ∪ s)
| set_put_reject id : id ∉ s → set_step org s (OpPut id) (ObsPut PutRejected) s
| set_drop id : set_step org s (OpDrop id) (ObsDrop (bool_decide (id ∈ s))) (s ∖ {[id]})
| set_has id : set_step org s (OpHas id) (ObsHas (bool_decide (id ∈ s))) s
| set_count : set_step org s OpCount (ObsCount (Z.of_nat (size s))) s.

Inductive set_run (org : NodeID) : gset NodeID → list op → list obs → gset NodeID → Prop :=
| set_run_nil s : set_run org s [] [] s
| set_run_cons s o ob s' ops obs s'' :
    set_step org s o ob s' → set_run org s' ops obs s'' →
    set_run org s (o :: ops) (ob :: obs) s''.

(** The trees the routing table can hold. *)
Definition reachable (L : nat) (org : NodeID) (k : Z) (splitting : bool) (r : rootNode) : Prop :=
  id_ok L org ∧ ∃ ops obs, Forall (op_ok L) ops ∧ run (New org k splitting) ops = Ok (r, obs).

(** ** Identifiers *)

Lemma GetBit_bits x n : GetBit x n = of_option (bits x !! n).
Proof.
  unfold GetBit. rewrite bits_lookup. destruct (x !! (n / 8)) as [b|]; [|done].
  cbn. rewrite bit_at_testbit; [done|]. pose proof (Nat.mod_upper_bound n 8). lia.
Qed.

Lemma NodeID_Bits_bits x : NodeID_Bits x = Ok (bits x).
Proof.
  unfold NodeID_Bits.
  replace (length x * 8) with (length (bits x)) by (rewrite length_bits; lia).
  assert (H : ∀ q l, bits x = q ++ l →
    foldr (λ i (rest : go Bits), bit ← GetBit x i; path ← rest; Ok (bit :: path))
      (Ok []) (seq (length q) (length l)) = Ok l).
  { intros q l. revert q. induction l as [|b l IH]; intros q Hq; [done|].
    cbn [length seq foldr]. rewrite GetBit_bits, Hq, list_lookup_middle by done.
    specialize (IH (q ++ [b])). rewrite length_app, Nat.add_1_r in IH. cbn [mbind outcome_bind of_option].
    rewrite IH; [done|]. by rewrite <-app_assoc. }
  by apply (H []).
Qed.

Lemma Equals_spec a b : Equals a b = bool_decide (a = b).
Proof.
  unfold Equals. case_decide as Hl; [symmetry; apply bool_decide_eq_false_2; congruence|].
  revert b Hl.
  induction a as [|x a IH]; intros [|y b] Hl; try done.
  cbn. case_decide as Hxy.
  - symmetry. apply bool_decide_eq_false_2. congruence.
  - subst y. rewrite IH by (cbn in Hl; lia).
    apply bool_decide_ext. naive_solver.
Qed.

Lemma prefix_snoc_lookup (p l : Bits) b :
  p `prefix_of` l → l !! length p = Some b → p ++ [b] `prefix_of` l.
Proof.
  intros [k ->] Hl. rewrite lookup_app_r, Nat.sub_diag in Hl by lia.
  destruct k as [|b' k]; [done|]. injection Hl as ->. exists k. by rewrite <-app_assoc.
Qed.

Lemma id_ok_bit L x n : id_ok L x → n < 8 * L → ∃ b, bits x !! n = Some b.
Proof. intros [Hl _] Hn. apply lookup_lt_is_Some_2. rewrite length_bits. lia. Qed.

Lemma id_ok_eq L x y : id_ok L x → id_ok L y → bits x = bits y → x = y.
Proof. intros [_ ?] [_ ?]. by apply bits_inj. Qed.

Lemma prefix_full_eq L (p : Bits) x y :
  id_ok L x → id_ok L y → p `prefix_of` bits x → p `prefix_of` bits y →
  8 * L ≤ length p → x = y.
Proof.
  intros Hx Hy [kx Ex] [ky Ey] Hp. eapply id_ok_eq; [done..|].
  assert (Lx := length_bits x). assert (Ly := length_bits y).
  destruct Hx as [Hx _], Hy as [Hy _]. rewrite Ex, length_app in Lx. rewrite Ey, length_app in Ly.
  destruct kx; [|cbn in Lx; lia]. destruct ky; [|cbn in Ly; lia]. congruence.
Qed.

(** ** The elements of a well-formed tree *)

Lemma wf_path L p n : wf L p n → path (base_of n) = p.
Proof. by destruct 1. Qed.

Lemma wf_elem L p n x : wf L p n → x ∈ allXors n → id_ok L x ∧ p `prefix_of` bits x.
Proof.
  induction 1 as [b|b y|b b0 b1 c0 c1 Hp H0 IH0 H1 IH1]; cbn; intros Hx.
  - by apply not_elem_of_nil in Hx.
  - by apply list_elem_of_singleton in Hx as ->.
  - apply elem_of_app in Hx as [Hx|Hx]; [apply IH0 in Hx|apply IH1 in Hx];
      destruct Hx as [? Hpre]; (split; [done|]); etrans; [|exact Hpre| |exact Hpre];
      by apply prefix_app_r.
Qed.

Lemma wf_count L p n : wf L p n → count n = Z.of_nat (length (allXors n)).
Proof.
  induction 1 as [| |b b0 b1 c0 c1 Hp H0 IH0 H1 IH1 -> -> _]; cbn; [done..|].
  rewrite length_app. lia.
Qed.

Lemma prefix_bit (p l : Bits) b : p ++ [b] `prefix_of` l → l !! length p = Some b.
Proof. intros [k ->]. rewrite <-app_assoc. by apply list_lookup_middle. Qed.

Lemma wf_NoDup L p n : wf L p n → NoDup (allXors n).
Proof.
  induction 1 as [| |b b0 b1 c0 c1 Hp H0 IH0 H1 IH1]; cbn.
  - constructor.
  - apply NoDup_singleton.
  - apply NoDup_app. split_and!; [done| |done].
    intros x Hx0 Hx1. apply (wf_elem _ _ _ _ H0) in Hx0 as [_ Hx0].
    apply (wf_elem _ _ _ _ H1) in Hx1 as [_ Hx1].
    apply prefix_bit in Hx0, Hx1. congruence.
Qed.

(** An identifier below a branch is in the subtree its bit selects. *)
Lemma branch_elem L b b0 b1 c0 c1 x i :
  wf L (path b) (branchNode b b0 b1 c0 c1) → bits x !! length (path b) = Some i →
  x ∈ allXors b0 ++ allXors b1 ↔ x ∈ allXors (if i : bool then b1 else b0).
Proof.
  inversion_clear 1. intros Hi. rewrite elem_of_app. split; [|destruct i; tauto].
  intros [Hx|Hx]; (eapply wf_elem in Hx as Hp; [|done]); destruct Hp as [_ Hp];
    apply prefix_bit in Hp; rewrite Hi in Hp; injection Hp as ->; done.
Qed.

(** ** Operations on well-formed trees *)

Lemma has_spec L p n x :
  wf L p n → id_ok L x → p `prefix_of` bits x →
  has n x = Ok (bool_decide (x ∈ allXors n)).
Proof.
  intros Hwf Hx. revert Hwf.
  induction 1 as [b|b y|b b0 b1 c0 c1 Hp H0 IH0 H1 IH1 E0 E1 Hc]; intros Hpre; cbn.
  - by rewrite bool_decide_eq_false_2 by apply not_elem_of_nil.
  - rewrite Equals_spec. f_equal. apply bool_decide_ext.
    rewrite list_elem_of_singleton. naive_solver.
  - destruct (id_ok_bit L x (length (path b))) as [i Hi]; [done..|].
    rewrite GetBit_bits, Hi. cbn.
    rewrite (bool_decide_ext _ (x ∈ allXors (if i : bool then b1 else b0)))
      by (eapply branch_elem; [by constructor|done]).
    pose proof (prefix_snoc_lookup _ _ _ Hpre Hi) as Hpre'.
    destruct i; [by apply IH1|by apply IH0].
Qed.

(** Replacing the subtree that a bit selects. *)
Lemma set_branch_spec L b b0 b1 c0 c1 i n' :
  wf L (path b) (branchNode b b0 b1 c0 c1) → wf L (path b ++ [i]) n' →
  (0 < count n' + if i then c0 else c1)%Z →
  wf L (path b) (set_branch b b0 b1 c0 c1 i n').
Proof. inversion_clear 1; intros; destruct i; constructor; done || lia. Qed.

Lemma set_branch_elems b b0 b1 c0 c1 i n' :
  allXors (set_branch b b0 b1 c0 c1 i n')
    ≡ₚ allXors n' ++ allXors (if i : bool then b0 else b1).
Proof. destruct i; cbn; [apply Permutation_app_comm|done]. Qed.

Lemma branch_elems (b0 b1 : iNode) (i : bool) :
  allXors b0 ++ allXors b1 ≡ₚ
    allXors (if i then b1 else b0) ++ allXors (if i then b0 else b1).
Proof. destruct i; [apply Permutation_app_comm|done]. Qed.

(** The step of [put] on a branch, from that on the selected subtree. *)
Lemma put_branch fuel L b b0 b1 c0 c1 x i n' :
  wf L (path b) (branchNode b b0 b1 c0 c1) →
  bits x !! length (path b) = Some i →
  put fuel (if i : bool then b1 else b0) x = Ok (n', PutAccepted) →
  wf L (path b ++ [i]) n' → allXors n' ≡ₚ x :: allXors (if i : bool then b1 else b0) →
  ∃ n'', put (S fuel) (branchNode b b0 b1 c0 c1) x = Ok (n'', PutAccepted) ∧
    wf L (path b) n'' ∧ allXors n'' ≡ₚ x :: allXors b0 ++ allXors b1.
Proof.
  intros Hwf Hi Hput Hn' Hperm. pose proof Hwf as Hwf'.
  inversion_clear Hwf' as [| |? ? ? ? ? Hp H0 H1 E0 E1 Hc].
  cbn. rewrite GetBit_bits, Hi. cbn. rewrite Hput. cbn.
  eexists; split; [done|].
  rewrite set_branch_elems, Hperm, (branch_elems b0 b1 i). split; [|done].
  apply set_branch_spec; [done..|].
  pose proof (wf_count _ _ _ Hn') as Hcn. pose proof (Permutation_length Hperm) as Hlen.
  rewrite Hlen in Hcn. cbn in Hcn. subst c0 c1.
  rewrite (wf_count _ _ _ H0), (wf_count _ _ _ H1). destruct i; lia.
Qed.

(** A fresh branch that receives the identifier of the leaf it replaces. *)
Lemma split_leaf L fuel b y :
  id_ok L y → path b `prefix_of` bits y → length (path b) < 8 * L →
  let e i := emptyNode (BaseNode (origin b) i (appendToPath (path b) i)) in
  ∃ b0 b1 c0 c1,
    put (S (S fuel)) (branchNode b (e Bit0) (e Bit1) 0 0) y
      = Ok (branchNode b b0 b1 c0 c1, PutAccepted) ∧
    wf L (path b) (branchNode b b0 b1 c0 c1) ∧ allXors (branchNode b b0 b1 c0 c1) = [y].
Proof.
  intros Hy Hyp Hlen e.
  destruct (id_ok_bit L y (length (path b))) as [j Hj]; [done..|].
  pose proof (prefix_snoc_lookup _ _ _ Hyp Hj).
  assert (∀ i, wf L (path b ++ [i]) (e i)) as He by (intros i; apply (wf_empty L (BaseNode _ i _))).
  assert (wf L (path b ++ [j]) (leafNode (BaseNode (origin b) j (appendToPath (path b) j)) y)) as Hl
    by by apply (wf_leaf L (BaseNode _ j _)).
  cbn. rewrite GetBit_bits, Hj. cbn.
  destruct j; do 4 eexists; (split; [done|]); (split; [|done]); by constructor.
Qed.

(** Fuel that [put] needs below a node at depth [d]. *)
Definition put_need (L d : nat) (n : iNode) : nat :=
  2 * (8 * L - d) + match n with branchNode _ _ _ _ _ => 1 | _ => 2 end.

Lemma put_accepted L fuel : ∀ p n x,
  wf L p n → id_ok L x → p `prefix_of` bits x → x ∉ allXors n →
  put_need L (length p) n ≤ fuel →
  ∃ n', put fuel n x = Ok (n', PutAccepted) ∧ wf L p n' ∧ allXors n' ≡ₚ x :: allXors n.
Proof.
  induction fuel as [|fuel IH]; intros p n x Hwf Hx Hpre Hnew Hfuel;
    [unfold put_need in Hfuel; destruct n; lia|].
  destruct Hwf as [b|b y Hy Hyp|b b0 b1 c0 c1 Hp H0 H1 E0 E1 Hc].
  - eexists; split_and!; [done|by constructor|done].
  - cbn [allXors] in *. rewrite list_elem_of_singleton in Hnew.
    assert (length (path b) < 8 * L) as Hlen.
    { destruct (decide (length (path b) < 8 * L)) as [|Hge]; [done|].
      destruct Hnew. eapply prefix_full_eq; try done; lia. }
    cbn -[Nat.mul]. rewrite Equals_spec, bool_decide_eq_false_2 by congruence.
    unfold put_need in Hfuel. destruct fuel as [|[|fuel]]; [lia..|].
    destruct (split_leaf L fuel b y) as (b0 & b1 & c0 & c1 & -> & Hwf1 & Hel1); [done..|].
    cbn [mbind outcome_bind].
    rewrite decide_False by (intros Hc; by destruct Hc).
    destruct (IH (path b) (branchNode b b0 b1 c0 c1) x) as (n' & Hput & Hwf' & Hperm); try done.
    + rewrite Hel1, list_elem_of_singleton. done.
    + unfold put_need. lia.
    + exists n'. split_and!; [done..|]. by rewrite Hperm, Hel1.
  - assert (wf L (path b) (branchNode b b0 b1 c0 c1)) as Hwf by by constructor.
    destruct (id_ok_bit L x (length (path b))) as [i Hi]; [done..|].
    pose proof (prefix_snoc_lookup _ _ _ Hpre Hi) as Hpre'.
    cbn [allXors] in Hnew. rewrite (branch_elem L b b0 b1 c0 c1 x i) in Hnew by done.
    destruct (IH (path b ++ [i]) (if i : bool then b1 else b0) x) as (n' & Hput & Hn' & Hperm).
    + by destruct i.
    + done.
    + done.
    + done.
    + unfold put_need in *. rewrite length_app. cbn. destruct (if i then b1 else b0); lia.
    + by eapply put_branch.
Qed.

Lemma drop_absent L p n x :
  wf L p n → id_ok L x → p `prefix_of` bits x → x ∉ allXors n → drop n x = Ok (n, false).
Proof.
  intros Hwf Hx. revert Hwf.
  induction 1 as [b|b y|b b0 b1 c0 c1 Hp H0 IH0 H1 IH1 E0 E1 Hc]; intros Hpre Hnew; cbn.
  - done.
  - cbn in Hnew. rewrite list_elem_of_singleton in Hnew.
    by rewrite Equals_spec, bool_decide_eq_false_2 by congruence.
  - destruct (id_ok_bit L x (length (path b))) as [i Hi]; [done..|].
    pose proof (prefix_snoc_lookup _ _ _ Hpre Hi).
    cbn in Hnew. rewrite (branch_elem L b b0 b1 c0 c1 x i) in Hnew by (done || by constructor).
    rewrite GetBit_bits, Hi. cbn. destruct i; [rewrite IH1|rewrite IH0]; done.
Qed.

Lemma drop_present L p n x :
  wf L p n → x ∈ allXors n →
  ∃ n', drop n x = Ok (n', true) ∧ wf L p n' ∧ x :: allXors n' ≡ₚ allXors n.
Proof.
  induction 1 as [b|b y Hy Hyp|b b0 b1 c0 c1 Hp H0 IH0 H1 IH1 E0 E1 Hc]; intros Hx; cbn in Hx |- *.
  - by apply not_elem_of_nil in Hx.
  - apply list_elem_of_singleton in Hx as ->. rewrite Equals_spec, bool_decide_eq_true_2 by done.
    eexists; split_and!; [done|constructor|done].
  - assert (wf L (path b) (branchNode b b0 b1 c0 c1)) as Hwf by by constructor.
    destruct (wf_elem L _ _ x Hwf Hx) as [Hxok Hpre].
    destruct (id_ok_bit L x (length (path b))) as [i Hi]; [done..|].
    rewrite GetBit_bits, Hi. cbn. rewrite (branch_elem L b b0 b1 c0 c1 x i) in Hx by done.
    assert (∃ n', drop (if i : bool then b1 else b0) x = Ok (n', true) ∧
      wf L (path b ++ [i]) n' ∧ x :: allXors n' ≡ₚ allXors (if i : bool then b1 else b0))
      as (n' & -> & Hn' & Hperm) by (destruct i; [by apply IH1|by apply IH0]).
    cbn [mbind outcome_bind].
    assert (Hother : wf L (path b ++ [negb i]) (if i : bool then b0 else b1) ∧
      (if i then c0 else c1) = count (if i : bool then b0 else b1)) by by destruct i.
    destruct Hother as [Ho ->]. pose proof (wf_count _ _ _ Ho) as Hco.
    pose proof (wf_count _ _ _ Hn') as Hcn.
    set (o := if i then b0 else b1) in *.
    assert (Hall : x :: (allXors n' ++ allXors o) ≡ₚ allXors b0 ++ allXors b1)
      by (rewrite (branch_elems b0 b1 i); by rewrite <-Hperm).
    assert (Hset : (0 < count n' + count o)%Z → ∃ n0,
      Ok (E := Empty_set) (set_branch b b0 b1 c0 c1 i n', true) = Ok (n0, true) ∧
      wf L (path b) n0 ∧ x :: allXors n0 ≡ₚ allXors b0 ++ allXors b1).
    { intros Hpos. eexists; split; [done|]. rewrite set_branch_elems. split; [|done].
      apply set_branch_spec; [done..|]. destruct i; subst o; lia. }
    destruct (Z.eqb_spec (count n') 0) as [Hz|]; [|apply Hset; lia].
    destruct (allXors n') as [|]; [|cbn in Hcn; lia].
    destruct (Z.eqb_spec (count o) 0) as [Hoz|];
      [|destruct (Z.eqb_spec (count o) 1) as [Ho1|]; [|apply Hset; lia]].
    + destruct (allXors o); [|cbn in Hco; lia]. eexists; split_and!; [done|constructor|done].
    + destruct (allXors o) as [|y [|]] eqn:Hel; [cbn in Hco; lia| |cbn in Hco; lia].
      assert (y ∈ allXors o) as Hy by (rewrite Hel; by constructor).
      apply (wf_elem _ _ _ _ Ho) in Hy as [Hyok Hyp].
      eexists; split_and!; [done| |done]. constructor; [done|].
      etrans; [|exact Hyp]. by apply prefix_app_r.
Qed.

(** ** Distances *)

Lemma xor_id_involutive a o : length a = length o → xor_id (xor_id a o) o = a.
Proof.
  unfold xor_id. revert o. induction a as [|x a IH]; intros [|y o] Hl; try done.
  cbn in *. rewrite IH by lia. f_equal.
  by rewrite Z.lxor_assoc, Z.lxor_nilpotent, Z.lxor_0_r.
Qed.

Lemma xor_id_ok L a o : id_ok L a → id_ok L o → id_ok L (xor_id a o).
Proof.
  intros [? ?] [? ?]. split; [|by apply bytes_ok_zip_lxor].
  unfold xor_id. rewrite length_zip_with. lia.
Qed.

Lemma xor_id_zero L a o :
  id_ok L a → id_ok L o → xor_id a o = replicate L 0%Z ↔ a = o.
Proof.
  intros [Ha _] [Ho _]. subst L. unfold xor_id. revert o Ho.
  induction a as [|x a IH]; intros [|y o] Hl; try done. cbn in *.
  split; intros E.
  - injection E as Exy E. apply Z.lxor_eq in Exy as ->. f_equal. apply IH; [lia|done].
  - injection E as -> E. f_equal; [apply Z.lxor_nilpotent|]. apply IH; [lia|done].
Qed.

Lemma MustXor_ok L a o : id_ok L a → id_ok L o → MustXor a o = Ok (xor_id a o).
Proof. intros [? _] [? _]. unfold MustXor, Xor. rewrite decide_False; [done|]. lia. Qed.

Lemma elem_of_members L r id :
  root_inv L r → id_ok L id → id ∈ members r ↔ xor_id id (root_origin r) ∈ allXors (root_node r).
Proof.
  intros [Ho Hwf _ _] Hid. unfold members. rewrite elem_of_list_to_set, list_elem_of_fmap. split.
  - intros (x & -> & Hx). apply (wf_elem _ _ _ _ Hwf) in Hx as Hxok.
    destruct Hxok as [[Hl _] _], Ho as [Hlo _]. rewrite xor_id_involutive by lia. done.
  - intros Hx. eexists; split; [|done].
    destruct Hid as [Hl _], Ho as [Hlo _]. rewrite xor_id_involutive by lia. done.
Qed.

(** ** Counting closer identifiers *)

Lemma leaf_countCloser_ok x p : ∀ pos,
  pos + length p ≤ 8 * length x → ∃ c, leaf_countCloser x pos p = Ok c ∧ (0 ≤ c ≤ 1)%Z.
Proof.
  induction p as [|b p IH]; intros pos Hp; cbn in *; [eexists; split; [done|lia]|].
  destruct (lookup_lt_is_Some_2 (bits x) pos) as [i Hi]; [rewrite length_bits; lia|].
  destruct b; [|apply IH; lia]. rewrite GetBit_bits, Hi. cbn.
  destruct i; cbn; [apply IH; lia|]. eexists; split; [done|lia].
Qed.

Lemma bits_leb_common p a b : bits_leb (p ++ a) (p ++ b) = bits_leb a b.
Proof. induction p as [|x p IH]; cbn; [done|]. by rewrite Bool.eqb_reflx. Qed.

Lemma bits_leb_branch (p : Bits) (y x : Bits) (i j : bool) :
  p ++ [i] `prefix_of` y → p ++ [j] `prefix_of` x → i ≠ j → bits_leb y x = j.
Proof.
  intros [ky ->] [kx ->] Hij. rewrite <-!app_assoc, bits_leb_common. cbn.
  destruct i, j; done.
Qed.

(** The subtree that agrees with [x] decides; the other one counts as a whole. *)
Lemma closer_other L p i n x j :
  wf L (p ++ [i]) n → p ++ [j] `prefix_of` bits x → i ≠ j →
  closer n x = if j then allXors n else [].
Proof.
  intros Hwf Hx Hij. unfold closer.
  assert (∀ y, y ∈ allXors n → bits_leb (bits y) (bits x) = j) as Hall.
  { intros y Hy. apply (wf_elem _ _ _ _ Hwf) in Hy as [_ Hy]. by eapply bits_leb_branch. }
  destruct j.
  - apply list_filter_all. intros y Hy. by rewrite Hall.
  - apply list_filter_none. intros y Hy. rewrite Hall by done. naive_solver.
Qed.

Lemma closer_branch b b0 b1 c0 c1 x :
  length (closer (branchNode b b0 b1 c0 c1) x) = length (closer b0 x) + length (closer b1 x).
Proof. unfold closer. cbn. by rewrite filter_app, length_app. Qed.

Lemma bits_leb_refl a : bits_leb a a = true.
Proof. induction a as [|x a IH]; cbn; [done|]. by rewrite Bool.eqb_reflx. Qed.

(** Below a complete path there is nothing but [x] itself. *)
Lemma closer_full L p n x :
  wf L p n → id_ok L x → p `prefix_of` bits x → 8 * L ≤ length p → closer n x = allXors n.
Proof.
  intros Hwf Hx Hp Hl. apply list_filter_all. intros y Hy.
  apply (wf_elem _ _ _ _ Hwf) in Hy as [Hy Hyp].
  rewrite (prefix_full_eq L p y x) by done. by rewrite bits_leb_refl.
Qed.

(** The count that admission relies on differs from the number of
    identifiers no further than [x] by at most one: only the leaf that the
    path of [x] ends in may be counted wrongly. *)
Lemma countCloser_within_one L p n x :
  wf L p n → id_ok L x → p `prefix_of` bits x →
  ∃ c, countCloserThanSubpath n (list.drop (length p) (bits x)) = Ok c ∧
    (Z.abs (c - Z.of_nat (length (closer n x))) ≤ 1)%Z.
Proof.
  intros Hwf Hx. revert Hwf.
  induction 1 as [b|b y Hy Hyp|b b0 b1 c0 c1 Hp H0 IH0 H1 IH1 E0 E1 Hc]; intros Hpre.
  - exists 0%Z. split; [done|]. cbn. lia.
  - destruct (leaf_countCloser_ok y (list.drop (length (path b)) (bits x)) (length (path b)))
      as (c & Hc & Hb).
    { rewrite length_drop, length_bits. destruct Hx as [Hxl _], Hy as [Hyl _].
      apply prefix_length in Hyp. rewrite length_bits in Hyp. lia. }
    exists c. split; [done|]. unfold closer. cbn. case_decide; cbn; lia.
  - destruct (id_ok_bit L x (length (path b))) as [i Hi]; [done..|].
    pose proof (prefix_snoc_lookup _ _ _ Hpre Hi) as Hpre'.
    assert (Hd : list.drop (length (path b)) (bits x) = i :: list.drop (length (path b ++ [i])) (bits x))
      by (rewrite length_app, Nat.add_1_r; by apply drop_S).
    rewrite closer_branch, Hd. set (rest := list.drop (length (path b ++ [i])) (bits x)) in *.
    assert (Ho : length (closer (if i : bool then b0 else b1) x) = if i then Z.to_nat c0 else 0).
    { subst c0. destruct i.
      - rewrite (closer_other L _ _ _ _ _ H0 Hpre') by done. rewrite (wf_count _ _ _ H0). lia.
      - by rewrite (closer_other L _ _ _ _ _ H1 Hpre') by done. }
    assert (0 ≤ c0)%Z by (subst; rewrite (wf_count _ _ _ H0); lia).
    assert (Hrest : rest = [] → 8 * L ≤ length (path b ++ [i])).
    { intros Hr. apply (f_equal length) in Hr. unfold rest in Hr.
      rewrite length_drop, length_bits in Hr. destruct Hx as [<- _]. cbn [length] in Hr. lia. }
    destruct i.
    + destruct (IH1 Hpre') as (c & Hcc & Hb). fold rest in Hcc. destruct rest as [|r rest].
      * exists (c0 + c1)%Z. split; [done|].
        rewrite Ho, (closer_full L _ b1 x H1) by auto. rewrite E1, (wf_count _ _ _ H1). lia.
      * exists (c0 + c)%Z. cbn [countCloserThanSubpath]. rewrite Hcc. split; [done|]. lia.
    + destruct (IH0 Hpre') as (c & Hcc & Hb). fold rest in Hcc. destruct rest as [|r rest].
      * exists c0. split; [done|].
        rewrite Ho, (closer_full L _ b0 x H0) by auto. rewrite E0, (wf_count _ _ _ H0). lia.
      * exists c. split; [done|]. lia.
Qed.

(** ** The root *)

Lemma bucket_members_add n n' x k :
  allXors n' ≡ₚ x :: allXors n →
  length (bucket_members n' k)
    = length (bucket_members n k) + if decide (bucket_of x = k) then 1 else 0.
Proof.
  intros Hperm. unfold bucket_members. rewrite Hperm, filter_cons.
  case_decide; cbn; lia.
Qed.

Lemma members_add r n' x :
  allXors n' ≡ₚ x :: allXors (root_node r) →
  members (with_node r n') = {[xor_id x (root_origin r)]} ∪ members r.
Proof. intros Hperm. unfold members. cbn. rewrite Hperm. set_solver. Qed.

Lemma New_inv L org k splitting : id_ok L org → root_inv L (New org k splitting).
Proof.
  intros Ho. split; cbn; [done|apply (wf_empty L (BaseNode _ _ []))|apply not_elem_of_nil|done].
Qed.

Lemma getBucketCount_ok L r x :
  root_inv L r → getBucketCount r x = Ok (Z.of_nat (length (bucket_members (root_node r) (bucket_of x)))).
Proof. intros [_ _ _ Hc]. unfold getBucketCount. rewrite NodeID_Bits_bits. cbn. by rewrite Hc. Qed.

(** When an identifier is turned away, its bucket holds [k] identifiers and,
    with splitting, at least [k - 1] are closer; when it is let through, its
    bucket has room or at most [k] identifiers are closer. *)
Lemma bucket_full_spec L r x :
  root_inv L r → id_ok L x → ∃ f, bucket_full r x = Ok f ∧
    let size := Z.of_nat (length (bucket_members (root_node r) (bucket_of x))) in
    let near := Z.of_nat (length (closer (root_node r) x)) in
    if f then (root_k r ≤ size)%Z ∧ (splittingEnabled r = true → (root_k r - 1 ≤ near)%Z)
    else (size < root_k r)%Z ∨ (splittingEnabled r = true ∧ (near ≤ root_k r)%Z).
Proof.
  intros Hinv Hx. unfold bucket_full. rewrite (getBucketCount_ok L) by done. cbn [mbind outcome_bind].
  destruct (Z.leb_spec (root_k r) (Z.of_nat (length (bucket_members (root_node r) (bucket_of x)))));
    [|by exists false; auto].
  destruct (splittingEnabled r); cbn [negb]; [|by exists true].
  rewrite NodeID_Bits_bits. cbn [mbind outcome_bind].
  destruct (countCloser_within_one L [] (root_node r) x) as (c & Hc & Hb);
    [apply Hinv|done|apply prefix_nil|].
  rewrite drop_0 in Hc. rewrite Hc. cbn [mbind outcome_bind].
  eexists; split; [done|]. cbn.
  destruct (Z.leb_spec (root_k r) c); [split; [done|]; intros; lia|right; split; [done|lia]].
Qed.

Lemma putBucketCount_inv L r n' x :
  root_inv L r → id_ok L x → wf L [] n' → allXors n' ≡ₚ x :: allXors (root_node r) →
  x ≠ replicate L 0%Z →
  ∃ r', putBucketCount (with_node r n') x = Ok r' ∧ root_inv L r' ∧ root_node r' = n' ∧
    same_config r r'.
Proof.
  intros [Ho Hwf Hz Hc] Hx Hn' Hperm Hx0.
  unfold putBucketCount. rewrite NodeID_Bits_bits. cbn. fold (bucket_of x).
  eexists; split_and!; [done| |done..].
  split; cbn; [done|done| |].
  - rewrite Hperm, not_elem_of_cons. auto.
  - intros k. rewrite (bucket_members_add _ _ _ _ Hperm), Nat2Z.inj_add, <-Hc.
    destruct (bucketCounts r !! bucket_of x) as [c|] eqn:Hb; rewrite lookup_insert;
      case_decide as Hk; cbn.
    + subst k. by rewrite Hb.
    + lia.
    + subst k. by rewrite lookup_insert_eq, Hb.
    + rewrite lookup_insert_ne by done. lia.
Qed.

Lemma dropBucketCount_inv L r n' x :
  root_inv L r → wf L [] n' → x :: allXors n' ≡ₚ allXors (root_node r) →
  ∃ r', dropBucketCount (with_node r n') x = Ok r' ∧ root_inv L r' ∧ root_node r' = n' ∧
    same_config r r'.
Proof.
  intros [Ho Hwf Hz Hc] Hn' Hperm.
  unfold dropBucketCount. rewrite NodeID_Bits_bits. cbn. fold (bucket_of x).
  eexists; split_and!; [done| |done..].
  split; cbn; [done|done| |].
  - intros Hin. apply Hz. rewrite <-Hperm. by constructor.
  - intros k. symmetry in Hperm. specialize (Hc k) as Hck.
    rewrite (bucket_members_add _ _ _ k Hperm), Nat2Z.inj_add in Hck.
    rewrite lookup_insert. case_decide as Hk; cbn.
    + subst k. lia.
    + lia.
Qed.

(** [Put] on a reachable tree never panics and keeps the invariant; the
    result says exactly what happened to the set of identifiers. *)
Lemma Put_spec L r id :
  root_inv L r → id_ok L id →
  ∃ r' res, Put r id = Ok (r', res) ∧ root_inv L r' ∧ same_config r r' ∧
    match res with
    | PutAlreadyExists => id ∈ members r ∧ r' = r
    | PutAccepted =>
        (id ∉ members r) ∧ id ≠ root_origin r ∧ members r' = {[id]} ∪ members r ∧
        (bucket_full r (xor_id id (root_origin r)) = Ok false) ∧
        allXors (root_node r') ≡ₚ xor_id id (root_origin r) :: allXors (root_node r)
    | PutRejected =>
        (id ∉ members r) ∧ r' = r ∧
        (id = root_origin r ∨ bucket_full r (xor_id id (root_origin r)) = Ok true)
    end.
Proof.
  intros Hinv Hid. pose proof Hinv as [Ho Hwf Hz _].
  pose proof (xor_id_ok _ _ _ Hid Ho) as Hx. pose proof (elem_of_members _ _ _ Hinv Hid) as Hmem.
  unfold Put. rewrite Equals_spec. case_bool_decide as Heq.
  { subst id. exists r, PutRejected. split_and!; try done; auto.
    rewrite Hmem. by rewrite (proj2 (xor_id_zero L _ _ Ho Ho) eq_refl). }
  rewrite (MustXor_ok L) by done. cbn [mbind outcome_bind].
  rewrite (has_spec L []) by (done || apply prefix_nil). cbn [mbind outcome_bind].
  case_bool_decide as Hin; [exists r, PutAlreadyExists; split_and!; try done; by apply Hmem|].
  destruct (bucket_full_spec L r (xor_id id (root_origin r))) as (f & Hf & _); [done..|].
  rewrite Hf. cbn [mbind outcome_bind]. destruct f.
  { exists r, PutRejected. split_and!; try done; [by rewrite Hmem|auto]. }
  destruct (put_accepted L (put_fuel (xor_id id (root_origin r))) [] (root_node r)
    (xor_id id (root_origin r))) as (n' & -> & Hn' & Hperm);
    [done|done|apply prefix_nil|done| |].
  { unfold put_need, put_fuel. rewrite (proj1 Hx). destruct (root_node r); cbn [length]; lia. }
  cbn [mbind outcome_bind]. rewrite decide_True by done.
  destruct (putBucketCount_inv L r n' (xor_id id (root_origin r))) as (r' & -> & Hr' & Hnode & Hsame);
    [done..| |].
  { by rewrite (xor_id_zero L). }
  exists r', PutAccepted. split_and!; try done; [by rewrite Hmem| |by rewrite Hnode].
  destruct Hsame as (Hb & _). unfold members, root_origin. rewrite Hnode, Hb, Hperm. cbn.
  fold (root_origin r). rewrite xor_id_involutive; [done|].
  destruct Hid as [-> _], Ho as [-> _]. done.
Qed.

Lemma Drop_spec L r id :
  root_inv L r → id_ok L id →
  ∃ r', Drop r id = Ok (r', bool_decide (id ∈ members r)) ∧ root_inv L r' ∧ same_config r r' ∧
    members r' = members r ∖ {[id]}.
Proof.
  intros Hinv Hid. pose proof Hinv as [Ho Hwf Hz _].
  pose proof (xor_id_ok _ _ _ Hid Ho) as Hx. pose proof (elem_of_members _ _ _ Hinv Hid) as Hmem.
  unfold Drop. rewrite (MustXor_ok L) by done. cbn [mbind outcome_bind].
  case_bool_decide as Hin.
  - apply Hmem in Hin as Hin'.
    destruct (drop_present L [] (root_node r) _ Hwf Hin') as (n' & -> & Hn' & Hperm).
    cbn [mbind outcome_bind].
    destruct (dropBucketCount_inv L r n' (xor_id id (root_origin r)))
      as (r' & -> & Hr' & Hnode & Hsame); [done..|].
    eexists; split_and!; [done..|].
    pose proof (wf_NoDup _ _ _ Hwf) as Hnd. rewrite <-Hperm, NoDup_cons in Hnd.
    apply set_eq. intros z. rewrite elem_of_difference, elem_of_singleton.
    destruct Hsame as (Hb & _). unfold members, root_origin. rewrite Hnode, Hb, <-Hperm.
    fold (root_origin r). rewrite fmap_cons, xor_id_involutive
      by (destruct Hid as [-> _], Ho as [-> _]; done).
    rewrite list_to_set_cons, elem_of_union, elem_of_singleton. split; [|tauto].
    intros Hz'. split; [tauto|]. intros ->. apply elem_of_list_to_set, list_elem_of_fmap in Hz' as (y & Hy & Hin'').
    destruct Hnd as [Hnd _]. apply Hnd.
    rewrite Hy, xor_id_involutive; [done|].
    apply (wf_elem _ _ _ _ Hn') in Hin'' as [[-> _] _]. by destruct Ho as [-> _].
  - rewrite (drop_absent L []); [|done|done|apply prefix_nil|by rewrite <-Hmem].
    exists r. split_and!; [done..|]. rewrite difference_disjoint_L; [done|]. set_solver.
Qed.

Lemma Has_spec L r id :
  root_inv L r → id_ok L id → Has r id = Ok (bool_decide (id ∈ members r)).
Proof.
  intros Hinv Hid. pose proof Hinv as [Ho Hwf _ _]. unfold Has.
  rewrite (MustXor_ok L) by done. cbn [mbind outcome_bind].
  rewrite (has_spec L []) by (done || by apply xor_id_ok || apply prefix_nil).
  f_equal. apply bool_decide_ext. by rewrite (elem_of_members L).
Qed.

Lemma members_NoDup L r :
  root_inv L r → NoDup ((λ x, xor_id x (root_origin r)) <$> allXors (root_node r)).
Proof.
  intros [Ho Hwf _ _]. apply NoDup_fmap_2_strong; [|by eapply wf_NoDup].
  intros x y Hx Hy E. apply (wf_elem _ _ _ _ Hwf) in Hx as [[Hx _] _].
  apply (wf_elem _ _ _ _ Hwf) in Hy as [[Hy _] _]. destruct Ho as [Ho _].
  rewrite <-(xor_id_involutive x (root_origin r)), <-(xor_id_involutive y (root_origin r)) by lia.
  by rewrite E.
Qed.

Lemma Count_spec L r : root_inv L r → Count r = Z.of_nat (size (members r)).
Proof.
  intros Hinv. unfold Count, members. rewrite (wf_count L [] _ (inv_wf _ _ Hinv)).
  rewrite size_list_to_set by by eapply members_NoDup. by rewrite length_fmap.
Qed.

(** ** Closest identifiers *)

Lemma closest_append {A} (l1 : list A) (f : Z → list A) (l2 : list A) (cnt : Z) :
  (∀ c, f c = take (Z.to_nat c) l2) →
  (let closest := take (Z.to_nat cnt) l1 in
   if (Z.of_nat (length closest) <? cnt)%Z then closest ++ f (cnt - Z.of_nat (length closest))%Z
   else closest) = take (Z.to_nat cnt) (l1 ++ l2).
Proof.
  intros Hf. cbn. rewrite length_take, Hf. destruct (Z.ltb_spec (Z.of_nat (Z.to_nat cnt `min` length l1)) cnt).
  - rewrite take_app. do 2 f_equal. lia.
  - by rewrite take_app_le by lia.
Qed.

Lemma xorsClosest_take n : ∀ p cnt,
  xorsClosestToSubpath n p cnt = take (Z.to_nat cnt) (closest_order n p).
Proof.
  induction n as [b|b x|b b0 IH0 b1 IH1 c0 c1]; intros p cnt; cbn.
  - by rewrite take_nil.
  - destruct (Z.ltb_spec cnt 1) as [Hc|Hc].
    + by replace (Z.to_nat cnt) with 0 by lia.
    + destruct (Z.to_nat cnt) as [|m] eqn:E; [lia|]. cbn. by rewrite take_nil.
  - destruct p as [|[] p]; cbn; rewrite ?(IH0 _ cnt), ?(IH1 _ cnt); by apply closest_append.
Qed.

Lemma closest_order_perm n : ∀ p, closest_order n p ≡ₚ allXors n.
Proof.
  induction n as [b|b x|b b0 IH0 b1 IH1 c0 c1]; intros p; cbn; [done..|].
  destruct (default Bit0 (head p)); rewrite IH0, IH1; [apply Permutation_app_comm|done].
Qed.

Lemma xorb_prefix (p a b : Bits) :
  zip_with xorb (p ++ a) (p ++ b) = replicate (length p) false ++ zip_with xorb a b.
Proof. induction p as [|x p IH]; cbn; [done|]. by rewrite IH, xorb_nilpotent. Qed.

Lemma LeadingZeros_replicate m l : LeadingZeros (replicate m false ++ l) = m + LeadingZeros l.
Proof. induction m as [|m IH]; cbn; [done|]. by rewrite IH. Qed.

Lemma shared_prefix_bits a b :
  length a = length b → shared_prefix a b = LeadingZeros (zip_with xorb (bits a) (bits b)).
Proof. intros. unfold shared_prefix, bucket_of, xor_id. by rewrite bits_lxor. Qed.

Lemma shared_prefix_ge L p a b :
  id_ok L a → id_ok L b → p `prefix_of` bits a → p `prefix_of` bits b → length p ≤ shared_prefix a b.
Proof.
  intros [Ha _] [Hb _] [ka Ea] [kb Eb]. rewrite shared_prefix_bits by lia.
  rewrite Ea, Eb, xorb_prefix, LeadingZeros_replicate. lia.
Qed.

Lemma shared_prefix_split L p i j a b :
  id_ok L a → id_ok L b → p ++ [i] `prefix_of` bits a → p ++ [j] `prefix_of` bits b → i ≠ j →
  shared_prefix a b = length p.
Proof.
  intros [Ha _] [Hb _] [ka Ea] [kb Eb] Hij. rewrite shared_prefix_bits by lia.
  rewrite Ea, Eb, <-!app_assoc, xorb_prefix, LeadingZeros_replicate. cbn.
  destruct i, j; done || cbn; lia.
Qed.

Lemma StronglySorted_const {A} (R : relation A) (l : list A) :
  (∀ x y, x ∈ l → y ∈ l → R x y) → StronglySorted R l.
Proof.
  induction l as [|x l IH]; intros H; constructor.
  - apply IH. intros. apply H; by constructor.
  - apply Forall_forall. intros y Hy. apply H; by constructor.
Qed.

(** Identifiers that share a longer prefix with the target come first. *)
Lemma closest_order_sorted L p n t :
  wf L p n → id_ok L t → p `prefix_of` bits t →
  StronglySorted (λ y z, shared_prefix z t ≤ shared_prefix y t)
    (closest_order n (list.drop (length p) (bits t))).
Proof.
  intros Hwf Ht. revert Hwf.
  induction 1 as [b|b y Hy Hyp|b b0 b1 c0 c1 Hp H0 IH0 H1 IH1 E0 E1 Hc]; intros Hpre.
  - constructor.
  - constructor; constructor.
  - destruct (id_ok_bit L t (length (path b))) as [i Hi]; [done..|].
    pose proof (prefix_snoc_lookup _ _ _ Hpre Hi) as Hpre'.
    rewrite (drop_S _ _ _ Hi). cbn [closest_order head tail default option_map].
    replace (S (length (path b))) with (length (path b ++ [i])) by (rewrite length_app; cbn; lia).
    change (default Bit0 (Some i)) with i.
    assert (Hoth : ∀ z, z ∈ closest_order (if i : bool then b0 else b1) [] →
      shared_prefix z t = length (path b)).
    { intros z. rewrite closest_order_perm. intros Hz.
      assert (wf L (path b ++ [negb i]) (if i : bool then b0 else b1)) as Hwo by by destruct i.
      apply (wf_elem _ _ _ _ Hwo) in Hz as [Hz Hzp].
      eapply (shared_prefix_split L _ (negb i) i); try done. by destruct i. }
    apply StronglySorted_app_2.
    + intros y z Hy Hz. rewrite (Hoth z Hz). rewrite closest_order_perm in Hy.
      assert (wf L (path b ++ [i]) (if i : bool then b1 else b0)) as Hws by by destruct i.
      apply (wf_elem _ _ _ _ Hws) in Hy as [Hy Hyp].
      eapply (shared_prefix_ge L); try done. etrans; [|done]. by apply prefix_app_r.
    + destruct i; [by apply IH1|by apply IH0].
    + apply StronglySorted_const. intros y z Hy Hz. by rewrite !Hoth.
Qed.

(** ** Runs *)

Lemma exec_spec L r o :
  root_inv L r → op_ok L o →
  ∃ r' ob, exec r o = Ok (r', ob) ∧ root_inv L r' ∧ same_config r r' ∧
    set_step (root_origin r) (members r) o ob (members r').
Proof.
  intros Hinv Ho. destruct o as [id|id|id|]; cbn in Ho |- *.
  - destruct (Put_spec L r id Hinv Ho) as (r' & res & -> & Hr' & Hsame & Hres).
    cbn. eexists _, _; split_and!; [done..|]. destruct res.
    + destruct Hres as (? & -> & _). by constructor.
    + destruct Hres as (? & ? & -> & _). by constructor.
    + destruct Hres as (? & ->). by constructor.
  - destruct (Drop_spec L r id Hinv Ho) as (r' & -> & Hr' & Hsame & Hmem).
    cbn. eexists _, _; split_and!; [done..|]. rewrite Hmem. constructor.
  - rewrite (Has_spec L) by done. cbn. eexists _, _; split_and!; [done..|]. constructor.
  - rewrite (Count_spec L) by done. eexists _, _; split_and!; [done..|]. constructor.
Qed.

Lemma same_config_trans r1 r2 r3 : same_config r1 r2 → same_config r2 r3 → same_config r1 r3.
Proof. unfold same_config. intuition congruence. Qed.

Lemma run_spec L ops : ∀ r,
  root_inv L r → Forall (op_ok L) ops →
  ∃ r' obs, run r ops = Ok (r', obs) ∧ root_inv L r' ∧ same_config r r' ∧
    set_run (root_origin r) (members r) ops obs (members r').
Proof.
  induction ops as [|o ops IH]; intros r Hinv Hops.
  { eexists _, _; split_and!; [done..|constructor]. }
  apply Forall_cons in Hops as [Ho Hops].
  destruct (exec_spec L r o Hinv Ho) as (r1 & ob & Hex & Hinv1 & Hs1 & Hstep).
  destruct (IH r1 Hinv1 Hops) as (r2 & obs & Hrun & Hinv2 & Hs2 & Hsteps).
  cbn. rewrite Hex. cbn. rewrite Hrun. cbn. eexists _, _; split_and!; [done..| |].
  - by eapply same_config_trans.
  - econstructor; [done|]. destruct Hs1 as (Hb & _). unfold root_origin in Hsteps.
    by rewrite Hb in Hsteps.
Qed.

Lemma New_members org k splitting : members (New org k splitting) = ∅.
Proof. reflexivity. Qed.

Lemma reachable_inv L org k splitting r :
  reachable L org k splitting r →
  root_inv L r ∧ root_origin r = org ∧ root_k r = k ∧ splittingEnabled r = splitting.
Proof.
  intros (Ho & ops & obs & Hops & Hrun).
  destruct (run_spec L ops (New org k splitting)) as (r' & obs' & Hrun' & Hinv & Hs & _);
    [by apply New_inv|done|].
  rewrite Hrun' in Hrun. injection Hrun as -> ->. destruct Hs as (Hb & ? & ?).
  unfold root_origin. rewrite Hb. done.
Qed.

(** Without splitting no bucket ever holds more than [k] identifiers. *)
Definition within_k (r : rootNode) : Prop :=
  ∀ b, (Z.of_nat (length (bucket_members (root_node r) b)) ≤ Z.max 0 (root_k r))%Z.

Lemma exec_within_k L r o r' ob :
  root_inv L r → op_ok L o → splittingEnabled r = false → within_k r →
  exec r o = Ok (r', ob) → within_k r'.
Proof.
  intros Hinv Ho Hspl Hk Hex. destruct o as [id|id|id|]; cbn in Ho, Hex.
  - destruct (Put_spec L r id Hinv Ho) as (r1 & res & Hput & _ & (_ & Hk' & _) & Hres).
    rewrite Hput in Hex. cbn in Hex. injection Hex as -> _.
    destruct res; [by destruct Hres as (_ & -> & _)| |by destruct Hres as (_ & ->)].
    destruct Hres as (_ & _ & _ & Hfull & Hperm). intros b. rewrite Hk'.
    rewrite (bucket_members_add _ _ _ _ Hperm). specialize (Hk b).
    destruct (bucket_full_spec L r (xor_id id (root_origin r))) as (f & Hf & Hb);
      [done|by apply xor_id_ok; [|apply Hinv]|].
    rewrite Hfull in Hf. injection Hf as <-. cbn in Hb. rewrite Hspl in Hb.
    case_decide as Hbk; [|lia]. rewrite Hbk in Hb. destruct Hb as [?|[]]; [lia|done].
  - destruct (Drop_spec L r id Hinv Ho) as (r1 & Hdrop & Hinv1 & (Hbase & Hk' & _) & Hmem).
    rewrite Hdrop in Hex. cbn in Hex. injection Hex as -> _.
    intros b. rewrite Hk'. etrans; [|apply (Hk b)]. apply inj_le.
    apply submseteq_length, NoDup_submseteq; [by apply NoDup_filter, (wf_NoDup L []), Hinv1|].
    intros x [Hb Hx]%list_elem_of_filter. apply list_elem_of_filter. split; [done|].
    pose proof (wf_elem _ _ _ _ (inv_wf _ _ Hinv1) Hx) as [Hxok _].
    pose proof (inv_origin _ _ Hinv) as Hor.
    assert (xor_id x (root_origin r) ∈ members r') as Hin.
    { rewrite (elem_of_members L) by (done || by apply xor_id_ok).
      unfold root_origin. rewrite Hbase. fold (root_origin r).
      by rewrite xor_id_involutive by (destruct Hxok, Hor; congruence). }
    rewrite Hmem in Hin. apply elem_of_difference in Hin as [Hin _].
    rewrite (elem_of_members L) in Hin by (done || by apply xor_id_ok).
    by rewrite xor_id_involutive in Hin by (destruct Hxok, Hor; congruence).
  - rewrite (Has_spec L) in Hex by done. by injection Hex as -> _.
  - by injection Hex as -> _.
Qed.

Lemma run_within_k L ops : ∀ r r' obs,
  root_inv L r → Forall (op_ok L) ops → splittingEnabled r = false → within_k r →
  run r ops = Ok (r', obs) → within_k r'.
Proof.
  induction ops as [|o ops IH]; intros r r' obs Hinv Hops Hspl Hk Hrun; cbn in Hrun.
  { by injection Hrun as -> _. }
  apply Forall_cons in Hops as [Ho Hops].
  destruct (exec_spec L r o Hinv Ho) as (r1 & ob & Hex & Hinv1 & (_ & _ & Hs) & _).
  rewrite Hex in Hrun. cbn in Hrun.
  destruct (run r1 ops) as [[r2 obs']| |] eqn:Hr; cbn in Hrun; try done.
  injection Hrun as -> _.
  apply (IH r1 r' obs'); [done|done|congruence| |done].
  by apply (exec_within_k L r o r1 ob).
Qed.

(** ** Comparing and printing bits *)

Lemma LeadingZeros_split b :
  (b = replicate (length b) false ∧ LeadingZeros b = length b) ∨
  ∃ rest, b = replicate (LeadingZeros b) false ++ true :: rest.
Proof.
  induction b as [|[] b IH]; cbn; [by left|right; by exists b|].
  destruct IH as [[Hb Hz]|[rest Hb]].
  - left. by rewrite <-Hb, Hz.
  - right. exists rest. by rewrite Hb at 1.
Qed.

Lemma bits_leb_replicate m (a b : Bits) :
  bits_leb (replicate m false ++ a) (replicate m false ++ b) = bits_leb a b.
Proof. apply bits_leb_common. Qed.

(** Fewer leading zeros means further away. *)
Lemma bits_leb_zeros a b :
  length a = length b → LeadingZeros a < LeadingZeros b → bits_leb a b = false.
Proof.
  revert b. induction a as [|x a IH]; intros [|y b] Hl Hz; cbn in *; try lia.
  destruct x, y; cbn in *; try done; try lia; apply IH; lia.
Qed.

Lemma bits_leb_zeros_gt a b :
  length a = length b → LeadingZeros b < LeadingZeros a → bits_leb a b = true.
Proof.
  revert b. induction a as [|x a IH]; intros [|y b] Hl Hz; cbn in *; try lia.
  destruct x, y; cbn in *; try done; try lia; apply IH; lia.
Qed.

Lemma Cmp_fuel_spec fuel : ∀ a b,
  length a = length b → length a < fuel →
  Cmp_fuel fuel a b =
    if decide (a = b) then if decide (last a = Some true) then Ok 0%Z else Panic
    else Ok (if bits_leb a b then -1 else 1)%Z.
Proof.
  induction fuel as [|fuel IH]; intros a b Hl Hf; [lia|]. cbn.
  destruct (decide (LeadingZeros a + 1 < LeadingZeros b + 1)) as [Hlt|Hge].
  { rewrite decide_False by (intros ->; lia). rewrite bits_leb_zeros by lia. done. }
  destruct (decide (LeadingZeros b + 1 < LeadingZeros a + 1)) as [Hgt|Hge'].
  { rewrite decide_False by (intros ->; lia). rewrite bits_leb_zeros_gt by lia. done. }
  assert (LeadingZeros a = LeadingZeros b) as Hz by lia.
  destruct (LeadingZeros_split a) as [[Ha Hza]|[ra Ha]].
  - destruct (LeadingZeros_split b) as [[Hb _]|[rb Hb]].
    2: { apply (f_equal length) in Hb. rewrite length_app, length_replicate in Hb. cbn in Hb. lia. }
    assert (a = b) as <- by (rewrite Ha, Hb; by rewrite Hl).
    rewrite decide_False by lia. rewrite decide_True by done.
    unfold slice_from. rewrite decide_False by lia. cbn.
    rewrite decide_False; [done|]. intros Hlast.
    apply last_Some_elem_of in Hlast. rewrite Ha in Hlast. by apply elem_of_replicate_inv in Hlast.
  - destruct (LeadingZeros_split b) as [[Hb Hzb]|[rb Hb]].
    { apply (f_equal length) in Ha. rewrite length_app, length_replicate in Ha. cbn in Ha. lia. }
    rewrite <-Hz in Hb. set (z := LeadingZeros a) in *. clearbody z.
    assert (Hla : length a = z + 1 + length ra)
      by (rewrite Ha, length_app, length_replicate; cbn; lia).
    assert (Hlb : length b = z + 1 + length rb)
      by (rewrite Hb, length_app, length_replicate; cbn; lia).
    assert (Hsl : ∀ r : Bits, list.drop (z + 1) (replicate z false ++ true :: r) = r).
    { intros r. rewrite drop_app_ge, length_replicate by (rewrite length_replicate; lia).
      by replace (z + 1 - z) with 1 by lia. }
    destruct (decide (z + 1 = length a)) as [He|He].
    + destruct ra as [|? ra]; [|cbn in *; lia]. destruct rb as [|? rb]; [|cbn in *; lia].
      rewrite decide_True by congruence. rewrite decide_True; [done|].
      rewrite Ha. apply last_snoc.
    + unfold slice_from. rewrite !decide_True by lia. cbn. rewrite Ha, Hb, !Hsl, IH by lia.
      rewrite bits_leb_replicate. cbn. destruct ra as [|r ra]; [cbn in *; lia|].
      destruct (decide (r :: ra = rb)) as [<-|Hne].
      * rewrite (decide_True (P := _ ++ _ = _)) by done. by rewrite last_app_cons.
      * rewrite (decide_False (P := _ ++ _ = _)); [done|].
        intros E. apply app_inv_head in E. congruence.
Qed.

(** Reading the digits of [rest] fills the bits that are still clear. *)
Lemma parse_binary_loop_spec rest : ∀ q id,
  bytes_ok id → bits id = q ++ replicate (length rest) false →
  ∃ id', parse_binary_loop (length q)
      ((λ bit : bool, if bit then "1"%char else "0"%char) <$> rest) id = Ok id' ∧
    bytes_ok id' ∧ length id' = length id ∧ bits id' = q ++ rest.
Proof.
  induction rest as [|b rest IH]; intros q id Hok Hbits; cbn.
  { exists id. by split_and!. }
  assert (Hlt : length q < 8 * length id).
  { rewrite <-length_bits, Hbits, length_app. cbn. lia. }
  destruct (lookup_lt_is_Some_2 id (length q / 8)) as [x Hx]; [apply Nat.Div0.div_lt_upper_bound; lia|].
  destruct b; cbn -[Z.lor Z.shiftl].
  - rewrite Hx. cbn -[Z.lor Z.shiftl]. pose proof (bits_set_bit _ _ _ Hx) as Hset. rewrite Hbits in Hset.
    replace (<[length q := true]> (q ++ replicate (length (true :: rest)) false))
      with ((q ++ [true]) ++ replicate (length rest) false) in Hset.
    2: { rewrite insert_app_r_alt, Nat.sub_diag by lia. cbn. by rewrite <-app_assoc. }
    edestruct (IH (q ++ [true])) as (id' & Hloop & Hok' & Hl' & Hb'); [|exact Hset|].
    + apply Forall_insert; [done|]. apply byte_ok_lor; [by eapply Forall_lookup_1 in Hx|].
      apply byte_ok_shiftl_1. pose proof (Nat.mod_upper_bound (length q) 8). lia.
    + rewrite length_app, Nat.add_1_r in Hloop. rewrite Hloop. exists id'.
      rewrite length_insert in Hl'. split_and!; [done..|]. by rewrite Hb', <-app_assoc.
  - destruct (IH (q ++ [false]) id Hok) as (id' & Hloop & Hok' & Hl' & Hb').
    { by rewrite Hbits, <-app_assoc. }
    rewrite length_app, Nat.add_1_r in Hloop. rewrite Hloop. exists id'.
    split_and!; [done..|]. by rewrite Hb', <-app_assoc.
Qed.

Lemma ascii_of_Bits_String b :
  String.list_ascii_of_string (Bits_String b) = (λ bit : bool, if bit then "1"%char else "0"%char) <$> b.
Proof. apply String.list_ascii_of_string_of_list_ascii. Qed.

Lemma xor_id_swap a o b : xor_id (xor_id a o) b = xor_id a (xor_id b o).
Proof.
  unfold xor_id. revert o b. induction a as [|x a IH]; intros [|y o] [|z b]; cbn; try done.
  rewrite IH. f_equal. by rewrite Z.lxor_assoc, (Z.lxor_comm y).
Qed.

Lemma shared_prefix_shift a o b : shared_prefix (xor_id a o) b = shared_prefix a (xor_id b o).
Proof. unfold shared_prefix. by rewrite xor_id_swap. Qed.

Lemma MustXor_all L o l :
  id_ok L o → (∀ x, x ∈ l → id_ok L x) →
  foldr (λ x (rest : go (list NodeID)), i ← MustXor x o; ids ← rest; Ok (i :: ids)) (Ok []) l
    = Ok ((λ x, xor_id x o) <$> l).
Proof.
  intros Ho. induction l as [|x l IH]; intros Hl; [done|]. cbn.
  rewrite (MustXor_ok L) by (done || apply Hl; constructor). cbn.
  rewrite IH; [done|]. intros y Hy. apply Hl. by constructor.
Qed.

(** What is left out of the first [m] elements of a sorted list comes later. *)
Lemma take_sorted {A} (R : relation A) (l : list A) m y z :
  StronglySorted R l → y ∈ take m l → z ∈ l → z ∉ take m l → R y z.
Proof.
  intros Hs Hy Hz Hnz. rewrite <-(take_drop m l) in Hs, Hz.
  apply elem_of_app in Hz as [?|Hz]; [done|]. by eapply StronglySorted_app_1_elem_of.
Qed.

(** ** Properties *)

(** The answer of [Closest]: the expected number of stored identifiers, none
    twice, and no stored identifier that was left out shares a longer prefix
    with the target than a returned one. *)
Lemma Closest_spec L r id cnt :
  root_inv L r → id_ok L id → (0 ≤ cnt)%Z →
  ∃ ids, Closest r id cnt = Ok ids ∧ NoDup ids ∧
    Z.of_nat (length ids) = Z.min cnt (Count r) ∧
    (∀ y, y ∈ ids → y ∈ members r) ∧
    (∀ y z, y ∈ ids → z ∈ members r → z ∉ ids → shared_prefix z id ≤ shared_prefix y id).
Proof.
  intros Hinv Hid Hcnt.
  pose proof Hinv as [Ho Hwf _ _]. set (o := root_origin r) in *.
  pose proof (xor_id_ok _ _ _ Hid Ho) as Ht. set (t := xor_id id o) in *.
  set (order := closest_order (root_node r) (bits t)).
  assert (Hsort : StronglySorted (λ y z, shared_prefix z t ≤ shared_prefix y t) order)
    by (apply (closest_order_sorted L [] _ t); [done..|apply prefix_nil]).
  assert (Hperm : order ≡ₚ allXors (root_node r)) by apply closest_order_perm.
  exists ((λ x, xor_id x o) <$> take (Z.to_nat cnt) order).
  assert (Hlen : ∀ x, x ∈ order → id_ok L x).
  { intros x. rewrite Hperm. intros Hx. by apply (wf_elem _ _ _ _ Hwf) in Hx as []. }
  assert (Hmem : ∀ z, z ∈ members r ↔ ∃ x, z = xor_id x o ∧ x ∈ order).
  { intros z. unfold members. rewrite elem_of_list_to_set, list_elem_of_fmap. by setoid_rewrite Hperm. }
  split_and!.
  - unfold Closest. rewrite (MustXor_ok L) by done. cbn [mbind outcome_bind].
    rewrite NodeID_Bits_bits. cbn [mbind outcome_bind]. rewrite xorsClosest_take. fold o t order.
    apply MustXor_all with L; [done|]. intros x Hx. apply Hlen. by apply subseteq_take in Hx.
  - rewrite fmap_take. eapply sublist_NoDup; [|apply sublist_take].
    rewrite Hperm. by eapply members_NoDup.
  - rewrite length_fmap, length_take, Hperm. unfold Count. rewrite (wf_count L []) by done. lia.
  - intros y (x & -> & Hx)%list_elem_of_fmap. apply Hmem. exists x. split; [done|].
    by apply subseteq_take in Hx.
  - intros y z (x & -> & Hx)%list_elem_of_fmap (x' & -> & Hx')%Hmem Hz.
    rewrite !shared_prefix_shift. fold t. apply (take_sorted (λ y z, shared_prefix z t ≤ shared_prefix y t) order (Z.to_nat cnt)); [done..|].
    intros Hin. apply Hz. apply list_elem_of_fmap. by exists x'.
Qed.

(** C1: from an empty tree, any sequence of [Put], [Drop], [Has] and [Count]
    on identifiers of the right length runs to its end without a panic, and
    every answer is the one a set of identifiers would give; the set at the
    end is the content of the tree. *)
Theorem btree_refines_set L org k splitting ops :
  id_ok L org → Forall (op_ok L) ops →
  ∃ r obs, run (New org k splitting) ops = Ok (r, obs) ∧ set_run org ∅ ops obs (members r).
Proof.
  intros Ho Hops.
  destruct (run_spec L ops (New org k splitting)) as (r & obs & Hrun & _ & _ & Hset);
    [by apply New_inv|done|].
  exists r, obs. split; [done|]. by rewrite New_members in Hset.
Qed.

(** the admission rule.  On a reachable tree [Put] of an identifier that
    is neither the origin nor stored is accepted whenever its bucket has
    room; when it is rejected the bucket holds [k] identifiers and, with
    splitting, at least [k - 1] stored identifiers are closer to the origin;
    when it is accepted into a full bucket, splitting is on and at most [k]
    are closer. *)
Theorem btree_admission L org k splitting r id :
  reachable L org k splitting r → id_ok L id → id ≠ org → id ∉ members r →
  let x := xor_id id org in
  let held := Z.of_nat (length (bucket_members (root_node r) (bucket_of x))) in
  let near := Z.of_nat (length (closer (root_node r) x)) in
  ∃ r' res, Put r id = Ok (r', res) ∧
    ((held < k)%Z → res = PutAccepted) ∧
    (res = PutRejected → (k ≤ held)%Z ∧ (splitting = true → (k - 1 ≤ near)%Z)) ∧
    (res = PutAccepted → (k ≤ held)%Z → splitting = true ∧ (near ≤ k)%Z).
Proof.
  intros Hreach Hid Hne Hnew x held near. apply reachable_inv in Hreach as (Hinv & Ho & Hk & Hs).
  destruct (Put_spec L r id Hinv Hid) as (r' & res & -> & _ & _ & Hres).
  destruct (bucket_full_spec L r x) as (f & Hf & Hb);
    [done|by apply xor_id_ok; [|rewrite <-Ho; apply Hinv]|].
  rewrite Ho in Hres. fold x in Hres. rewrite Hf in Hres. rewrite Hk, Hs in Hb.
  cbv zeta in Hb. fold held near in Hb. exists r', res. split; [done|].
  destruct res.
  - destruct Hres as (_ & _ & [?|[= ->]]); [done|].
    destruct Hb as [Hb1 Hb2]. split_and!; [lia|done|done].
  - destruct Hres as (_ & _ & _ & [= ->] & _). split_and!; [done|done|].
    intros _ Hge. destruct Hb; [lia|done].
  - by destruct Hres.
Qed.

(** with splitting disabled no sequence of operations makes a bucket
    hold more than [k] identifiers. *)
Theorem btree_bucket_capacity L org k ops r obs b :
  (0 ≤ k)%Z → id_ok L org → Forall (op_ok L) ops →
  run (New org k false) ops = Ok (r, obs) →
  (Z.of_nat (length (bucket_members (root_node r) b)) ≤ k)%Z.
Proof.
  intros Hk Ho Hops Hrun.
  assert (within_k r) as Hw.
  { eapply (run_within_k L ops); [by apply New_inv|done|done| |done].
    intros b'. unfold bucket_members. cbn. lia. }
  specialize (Hw b). replace (root_k r) with k in Hw; [lia|].
  symmetry. eapply (reachable_inv L). split; [done|]. by exists ops, obs.
Qed.

(** [Closest] on a reachable tree returns, without a panic, the expected
    number of stored identifiers, without repetition, and every returned
    identifier shares at least as long a prefix with the target as any
    stored identifier that was left out. *)
Theorem btree_closest_bucket_order L org k splitting r id cnt :
  reachable L org k splitting r → id_ok L id → (0 ≤ cnt)%Z →
  ∃ ids, Closest r id cnt = Ok ids ∧ NoDup ids ∧
    Z.of_nat (length ids) = Z.min cnt (Count r) ∧
    (∀ y, y ∈ ids → y ∈ members r) ∧
    (∀ y z, y ∈ ids → z ∈ members r → z ∉ ids → shared_prefix z id ≤ shared_prefix y id).
Proof.
  intros Hreach Hid Hcnt. apply reachable_inv in Hreach as (Hinv & _).
  by apply (Closest_spec L).
Qed.

(** comparing two bit strings of the same length gives the order of the
    numbers they spell when they differ; when they are equal the answer is 0
    only if the last bit is set, and otherwise [Cmp] runs past the end of the
    slice and panics. *)
Theorem btree_cmp a b :
  length a = length b →
  Cmp a b =
    if decide (a = b) then if decide (last a = Some true) then Ok 0%Z else Panic
    else Ok (if bits_leb a b then -1 else 1)%Z.
Proof. intros Hl. apply Cmp_fuel_spec; lia. Qed.

(** Printing an identifier in binary and parsing the text back gives the
    identifier. *)
Theorem btree_binary_roundtrip id :
  bytes_ok id → ∃ str, BinaryString id = Ok str ∧ ParseBinaryNodeID str = Ok id.
Proof.
  intros Hok. exists (Bits_String (bits id)). unfold BinaryString. rewrite NodeID_Bits_bits.
  split; [done|]. unfold ParseBinaryNodeID. rewrite ascii_of_Bits_String, length_fmap, length_bits.
  replace (8 * length id) with (length id * 8) by lia.
  rewrite Nat.Div0.mod_mul, Nat.div_mul, decide_False by lia.
  destruct (parse_binary_loop_spec (bits id) [] (replicate (length id) 0%Z))
    as (id' & Hloop & Hok' & _ & Hbits).
  - apply Forall_replicate. unfold byte_ok. lia.
  - by rewrite bits_replicate_0, length_bits.
  - cbn [length] in Hloop. rewrite Hloop. f_equal. by apply bits_inj.
Qed.

(** ** Examples: the identifiers of the tests *)

Definition ex_origin : NodeID := [15; 0]%Z.
Definition ex_ids : list NodeID := [[15; 72]; [15; 76]; [15; 48]; [143; 8]; [143; 9]]%Z.

Lemma ex_ok id : length id = 2 → bytes_ok id → id_ok 2 id.
Proof. by split. Qed.

Ltac concrete_ids :=
  repeat first
    [ split | constructor | progress unfold id_ok, op_ok, bytes_ok, byte_ok | reflexivity | lia ].

(** C1 on the five identifiers: four are stored, one is dropped again. *)
Lemma btree_refines_set_witness :
  ∃ r obs, run (New ex_origin 4 true) ((OpPut <$> ex_ids) ++ [OpDrop [143; 9]%Z; OpCount]) = Ok (r, obs) ∧
    set_run ex_origin ∅ ((OpPut <$> ex_ids) ++ [OpDrop [143; 9]%Z; OpCount]) obs (members r).
Proof. apply (btree_refines_set 2); concrete_ids. Defined.

Definition ex_tree : rootNode :=
  match run (New ex_origin 4 true) (OpPut <$> ex_ids) with Ok (r, _) => r | _ => New ex_origin 4 true end.

Lemma ex_tree_reachable : reachable 2 ex_origin 4 true ex_tree.
Proof.
  split; [concrete_ids|]. exists (OpPut <$> ex_ids), (replicate 5 (ObsPut PutAccepted)).
  split; [concrete_ids|vm_compute; reflexivity].
Qed.

Lemma btree_admission_witness :
  ∃ r' res, Put ex_tree [15; 49]%Z = Ok (r', res) ∧
    let x := xor_id [15; 49]%Z ex_origin in
    let held := Z.of_nat (length (bucket_members (root_node ex_tree) (bucket_of x))) in
    let near := Z.of_nat (length (closer (root_node ex_tree) x)) in
    ((held < 4)%Z → res = PutAccepted) ∧
    (res = PutRejected → (4 ≤ held)%Z ∧ (true = true → (4 - 1 ≤ near)%Z)) ∧
    (res = PutAccepted → (4 ≤ held)%Z → true = true ∧ (near ≤ 4)%Z).
Proof.
  apply (btree_admission 2 ex_origin 4 true ex_tree [15; 49]%Z);
    [apply ex_tree_reachable|concrete_ids|done|].
  intros H. vm_compute in H. discriminate H.
Defined.

Lemma btree_bucket_capacity_witness :
  ∃ r obs, run (New ex_origin 1 false) (OpPut <$> ex_ids) = Ok (r, obs) ∧
    (Z.of_nat (length (bucket_members (root_node r) 9)) ≤ 1)%Z.
Proof.
  destruct (run (New ex_origin 1 false) (OpPut <$> ex_ids)) as [[r obs]| |] eqn:E;
    [|vm_compute in E; discriminate E..].
  exists r, obs. split; [reflexivity|].
  apply (btree_bucket_capacity 2 ex_origin 1 (OpPut <$> ex_ids) r obs 9); [lia|concrete_ids..|exact E].
Defined.

Lemma btree_closest_bucket_order_witness :
  ∃ ids, Closest ex_tree [15; 50]%Z 2 = Ok ids ∧ NoDup ids ∧
    Z.of_nat (length ids) = Z.min 2 (Count ex_tree) ∧
    (∀ y, y ∈ ids → y ∈ members ex_tree) ∧
    (∀ y z, y ∈ ids → z ∈ members ex_tree → z ∉ ids →
       shared_prefix z [15; 50]%Z ≤ shared_prefix y [15; 50]%Z).
Proof.
  apply (btree_closest_bucket_order 2 ex_origin 4 true); [apply ex_tree_reachable|concrete_ids|lia].
Defined.

Lemma btree_cmp_witness : Cmp [true; false] [true; false] = Panic ∧ Cmp [false; true] [true; false] = Ok (-1)%Z.
Proof. split; rewrite btree_cmp by reflexivity; reflexivity. Defined.

Lemma btree_binary_roundtrip_witness :
  ∃ str, BinaryString ex_origin = Ok str ∧ ParseBinaryNodeID str = Ok ex_origin.
Proof. apply btree_binary_roundtrip. concrete_ids. Defined.

(** the count that admission relies on treats the last leaf of the path
    the wrong way round.  With [k = 1] and splitting, an identifier is stored
    in a full bucket although one stored identifier is closer to the origin,
    and one is turned away although none is. *)
Theorem btree_admission_inverted :
  ∃ r1 r1' r2,
    run (New [0]%Z 1 true) [OpPut [2]%Z] = Ok (r1, [ObsPut PutAccepted]) ∧
    closer (root_node r1) [3]%Z = [[2]%Z] ∧
    getBucketCount r1 [3]%Z = Ok 1%Z ∧
    Put r1 [3]%Z = Ok (r1', PutAccepted) ∧
    run (New [0]%Z 1 true) [OpPut [3]%Z] = Ok (r2, [ObsPut PutAccepted]) ∧
    closer (root_node r2) [2]%Z = [] ∧
    Put r2 [2]%Z = Ok (r2, PutRejected).
Proof. do 3 eexists. split_and!; vm_compute; reflexivity. Qed.

(** [Closest] is not the XOR metric: below a branch that the target does
    not lie in, the identifier nearest to the origin is returned first, even
    when another stored identifier is nearer to the target. *)
Theorem btree_closest_not_nearest :
  ∃ r obs,
    run (New [0]%Z 8 true) [OpPut [1]; OpPut [64]]%Z = Ok (r, obs) ∧
    Closest r [192]%Z 1 = Ok [[1]%Z] ∧ [64]%Z ∈ members r ∧
    bits_leb (bits (xor_id [1] [192]))%Z (bits (xor_id [64] [192]))%Z = false.
Proof.
  do 2 eexists. split; [vm_compute; reflexivity|]. split; [vm_compute; reflexivity|].
  split; [apply (bool_decide_unpack _); vm_compute; exact I|vm_compute; reflexivity].
Qed.

End Btree.
