(* ===== verification/BtreeIface.v ===== *)
(** * The btree interface

    What [btree.Btree] promises to the routing table, as a class: the
    operations, the abstract set of identifiers behind them and their laws
    for identifiers of 20 bytes.  The root node of [Btree.v] is one instance;
    the Prometheus wrapper around any instance is another, whose gauge and
    counters keep track of the set. *)
From S2P Require Import Prelude Protocol Btree.
From stdpp Require Import gmap list.
From Stdlib Require Import ZArith Lia.

Module BtreeIface.
Import Protocol.
Abbreviation PutResult := Btree.PutResult.
Abbreviation PutAccepted := Btree.PutAccepted.
Abbreviation PutAlreadyExists := Btree.PutAlreadyExists.
Abbreviation PutRejected := Btree.PutRejected.

(** The operations of [btree.Btree] that the routing table calls. *)
Class BtreeOps (T : Type) := {
  btree_Put : T → bytes → go (T * PutResult);
  btree_Has : T → bytes → go bool;
  btree_Drop : T → bytes → go (T * bool);
  btree_Closest : T → bytes → Z → go (list bytes);
  btree_Count : T → Z
}.

(** The answer of [Closest]: as many members as asked for and present, none
    twice, and no member that was left out shares a longer prefix with the
    target than one that was returned. *)
Definition closest_answer (s : gset bytes) (id : bytes) (cnt : Z) (ids : list bytes) : Prop :=
  NoDup ids ∧ Z.of_nat (length ids) = Z.min cnt (Z.of_nat (size s)) ∧ (∀ y, y ∈ ids → y ∈ s) ∧
  (∀ y z, y ∈ ids → z ∈ s → z ∉ ids → Btree.shared_prefix z id ≤ Btree.shared_prefix y id).

(** What a [Put] may answer and how the members change. *)
Definition put_answer (origin : bytes) (s s' : gset bytes) (id : bytes) (res : PutResult) : Prop :=
  match res with
  | Btree.PutAlreadyExists => id ∈ s ∧ s' = s
  | Btree.PutAccepted => (id ∉ s) ∧ id ≠ origin ∧ s' = {[id]} ∪ s
  | Btree.PutRejected => (id ∉ s) ∧ s' = s
  end.

(** The contract: [btree_inv] is kept by every operation, no operation
    panics, and the answers are those of the set [btree_members]. *)
Class BtreeLaws (T : Type) `{BtreeOps T} := {
  btree_inv : T → Prop;
  btree_origin : T → bytes;
  btree_members : T → gset bytes;
  law_members t id : btree_inv t → id ∈ btree_members t → id20 id;
  law_put t id :
    btree_inv t → id20 id →
    ∃ t' res, btree_Put t id = Ok (t', res) ∧ btree_inv t' ∧ btree_origin t' = btree_origin t ∧
      put_answer (btree_origin t) (btree_members t) (btree_members t') id res;
  law_has t id :
    btree_inv t → id20 id → btree_Has t id = Ok (bool_decide (id ∈ btree_members t));
  law_drop t id :
    btree_inv t → id20 id →
    ∃ t', btree_Drop t id = Ok (t', bool_decide (id ∈ btree_members t)) ∧
      btree_inv t' ∧ btree_origin t' = btree_origin t ∧ btree_members t' = btree_members t ∖ {[id]};
  law_closest t id cnt :
    btree_inv t → id20 id → (0 ≤ cnt)%Z →
    ∃ ids, btree_Closest t id cnt = Ok ids ∧ closest_answer (btree_members t) id cnt ids;
  law_count t : btree_inv t → btree_Count t = Z.of_nat (size (btree_members t))
}.

(** ** The tree itself *)

#[export] Instance root_ops : BtreeOps Btree.rootNode := {
  btree_Put := Btree.Put;
  btree_Has := Btree.Has;
  btree_Drop := Btree.Drop;
  btree_Closest := Btree.Closest;
  btree_Count := Btree.Count
}.

Lemma members_id20 r id : Btree.root_inv 20 r → id ∈ Btree.members r → id20 id.
Proof.
  intros [Ho Hwf _ _]. unfold Btree.members. rewrite elem_of_list_to_set, list_elem_of_fmap.
  intros (x & -> & Hx). apply (Btree.wf_elem _ _ _ _ Hwf) in Hx as [Hx _].
  by apply Btree.xor_id_ok.
Qed.

#[export] Program Instance root_laws : BtreeLaws Btree.rootNode := {
  btree_inv := Btree.root_inv 20;
  btree_origin := Btree.root_origin;
  btree_members := Btree.members
}.
Next Obligation. apply members_id20. Qed.
Next Obligation.
  intros t id Hinv Hid.
  destruct (Btree.Put_spec 20 t id Hinv Hid) as (t' & res & E & Hinv' & (Hb & _) & H).
  exists t', res. split_and!; [done..|by unfold Btree.root_origin; rewrite Hb|].
  destruct res; cbn; [destruct H as (? & -> & _)|destruct H as (? & ? & ? & _)|destruct H as (? & ->)]; done.
Qed.
Next Obligation. intros t id. apply Btree.Has_spec. Qed.
Next Obligation.
  intros t id Hinv Hid. destruct (Btree.Drop_spec 20 t id Hinv Hid) as (t' & E & Hinv' & (Hb & _) & H).
  exists t'. split_and!; try done. unfold Btree.root_origin. by rewrite Hb.
Qed.
Next Obligation.
  intros t id cnt Hinv Hid Hc. destruct (Btree.Closest_spec 20 t id cnt Hinv Hid Hc) as (ids & E & H).
  exists ids. split; [done|]. unfold closest_answer. by rewrite <-(Btree.Count_spec 20).
Qed.
Next Obligation. intros t. apply Btree.Count_spec. Qed.

(** ** The Prometheus wrapper *)

Record PrometheusCollector (T : Type) := Collector {
  pc_Btree : T;
  CountGauge : Z;
  AddedCounter : Z;
  DroppedCounter : Z
}.
#[global] Arguments Collector {T}.
#[global] Arguments pc_Btree {T}.
#[global] Arguments CountGauge {T}.
#[global] Arguments AddedCounter {T}.
#[global] Arguments DroppedCounter {T}.

Section collector.
Context {T : Type} `{BtreeLaws T}.

Definition pc_Put (p : PrometheusCollector T) (id : bytes) : go (PrometheusCollector T * PutResult) :=
  '(b, result) ← btree_Put (pc_Btree p) id;
  if decide (result = PutAccepted)
  then Ok (Collector b (CountGauge p + 1) (AddedCounter p + 1) (DroppedCounter p), result)
  else Ok (Collector b (CountGauge p) (AddedCounter p) (DroppedCounter p), result).

Definition pc_Has (p : PrometheusCollector T) (id : bytes) : go bool := btree_Has (pc_Btree p) id.

Definition pc_Drop (p : PrometheusCollector T) (id : bytes) : go (PrometheusCollector T * bool) :=
  '(b, result) ← btree_Drop (pc_Btree p) id;
  if result : bool
  then Ok (Collector b (CountGauge p - 1) (AddedCounter p) (DroppedCounter p + 1), result)
  else Ok (Collector b (CountGauge p) (AddedCounter p) (DroppedCounter p), result).

Definition pc_Closest (p : PrometheusCollector T) (id : bytes) (count : Z) : go (list bytes) :=
  btree_Closest (pc_Btree p) id count.

Definition pc_Count (p : PrometheusCollector T) : Z := btree_Count (pc_Btree p).

#[export] Instance collector_ops : BtreeOps (PrometheusCollector T) := {
  btree_Put := pc_Put;
  btree_Has := pc_Has;
  btree_Drop := pc_Drop;
  btree_Closest := pc_Closest;
  btree_Count := pc_Count
}.

(** The metrics are exact: the gauge is the number of members and the
    difference of the counters. *)
Definition collector_inv (p : PrometheusCollector T) : Prop :=
  btree_inv (pc_Btree p) ∧ CountGauge p = Z.of_nat (size (btree_members (pc_Btree p))) ∧
  (CountGauge p = AddedCounter p - DroppedCounter p)%Z.

Lemma pc_Put_spec p id :
  collector_inv p → id20 id →
  ∃ p' res, pc_Put p id = Ok (p', res) ∧ collector_inv p' ∧
    btree_origin (pc_Btree p') = btree_origin (pc_Btree p) ∧
    put_answer (btree_origin (pc_Btree p)) (btree_members (pc_Btree p)) (btree_members (pc_Btree p')) id res.
Proof.
  intros (Hinv & Hg & Hc) Hid. destruct (law_put _ id Hinv Hid) as (b & res & E & Hinv' & Ho & Hans).
  unfold pc_Put. rewrite E. cbn [mbind outcome_bind]. case_decide as Hres.
  - subst res. eexists _, _. split; [done|]. unfold collector_inv. cbn in *.
    destruct Hans as (Hnin & Hne & Hm). split_and!; try done; [|lia].
    rewrite Hm, size_union, size_singleton by set_solver. lia.
  - eexists _, _. split; [done|]. unfold collector_inv. cbn in *.
    split_and!; try done. destruct res; cbn in *; [|done|]; by destruct Hans as [_ ->].
Qed.

Lemma pc_Drop_spec p id :
  collector_inv p → id20 id →
  ∃ p', pc_Drop p id = Ok (p', bool_decide (id ∈ btree_members (pc_Btree p))) ∧ collector_inv p' ∧
    btree_origin (pc_Btree p') = btree_origin (pc_Btree p) ∧
    btree_members (pc_Btree p') = btree_members (pc_Btree p) ∖ {[id]}.
Proof.
  intros (Hinv & Hg & Hc) Hid. destruct (law_drop _ id Hinv Hid) as (b & E & Hinv' & Ho & Hm).
  unfold pc_Drop. rewrite E. cbn [mbind outcome_bind]. case_bool_decide as Hin.
  - eexists. split; [done|]. unfold collector_inv. cbn in *. split_and!; try done; [|lia].
    rewrite Hm, size_difference, size_singleton by set_solver.
    assert (size (btree_members (pc_Btree p)) ≠ 0); [|lia].
    intros Hz%size_empty_inv. set_solver.
  - eexists. split; [done|]. unfold collector_inv. cbn in *. split_and!; try done.
    rewrite Hm, Hg. do 2 f_equal. set_solver.
Qed.

#[export] Program Instance collector_laws : BtreeLaws (PrometheusCollector T) := {
  btree_inv := collector_inv;
  btree_origin p := btree_origin (pc_Btree p);
  btree_members p := btree_members (pc_Btree p)
}.
Next Obligation. intros p id (Hinv & _). by apply (law_members (pc_Btree p)). Qed.
Next Obligation. intros p id. apply pc_Put_spec. Qed.
Next Obligation. intros p id (Hinv & _). by apply (law_has (pc_Btree p)). Qed.
Next Obligation. intros p id. apply pc_Drop_spec. Qed.
Next Obligation. intros p id cnt (Hinv & _). by apply (law_closest (pc_Btree p)). Qed.
Next Obligation. intros p (Hinv & _). by apply (law_count (pc_Btree p)). Qed.

End collector.
End BtreeIface.
