(* ===== verification/KTable.v ===== *)
(** * The routing table

    [internal/protocol/dht/ktable]: the reverse map from addresses to nodes
    and hashes, the keyspace that pairs a btree with a map of items, the node
    and hash items, the commands and queries, and the table that owns two
    keyspaces and the reverse map they share.

    Items are pointers in the source; every pointer the table keeps is the
    value of one key of one map, so the maps hold the items themselves and an
    update in place is an update of the map.  The reverse map is shared by the
    table, the nodes and the hashes, and is threaded through every operation.
    Each operation reads the clock once.  The order in which Go ranges over a
    map is an argument of the queries that depend on it. *)
From S2P Require Import Prelude Net Protocol Btree BtreeIface.
From stdpp Require Import gmap list strings sorting.
From Stdlib Require Import ZArith Lia.

Module KTable.
Import Net Protocol BtreeIface.

(** A point in time: nanoseconds since the zero [time.Time]. *)
Abbreviation Time := Z.
Definition time_zero : Time := 0%Z.
Definition Second : Z := 1000000000.
Definition Minute : Z := 60000000000.
Definition Before (t u : Time) : bool := (t <? u)%Z.

(** An error value is its text. *)
Abbreviation error := string.

(** ** The reverse map (reverse_map.go) *)

Record infoForAddr := InfoForAddr { peerID : ID; info_hashes : gset ID }.
Abbreviation reverseMap := (gmap Addr infoForAddr).

Definition addHashes (i : infoForAddr) (hashes : list ID) : infoForAddr :=
  InfoForAddr (peerID i) (foldl (λ s h, {[h]} ∪ s) (info_hashes i) hashes).

Definition dropHashes (i : infoForAddr) (hashes : list ID) : infoForAddr :=
  InfoForAddr (peerID i) (foldl (λ s h, s ∖ {[h]}) (info_hashes i) hashes).

Definition newInfoForAddr (id : ID) (hashes : list ID) : infoForAddr :=
  addHashes (InfoForAddr id ∅) hashes.

Definition putAddrPeerID (m : reverseMap) (addr : Addr) (id : ID) : reverseMap :=
  match m !! addr with
  | Some info => <[addr := InfoForAddr id (info_hashes info)]> m
  | None => <[addr := newInfoForAddr id []]> m
  end.

Definition putAddrHashes (m : reverseMap) (addr : Addr) (hashes : list ID) : reverseMap :=
  match m !! addr with
  | Some info => <[addr := addHashes info hashes]> m
  | None => <[addr := newInfoForAddr ID_zero hashes]> m
  end.

Definition getPeerIDForAddr (m : reverseMap) (addr : Addr) : option ID :=
  match m !! addr with
  | Some info => if negb (ID_IsZero (peerID info)) then Some (peerID info) else None
  | None => None
  end.

Definition dropAddr (m : reverseMap) (addr : Addr) : reverseMap * bool :=
  match m !! addr with
  | Some _ => (delete addr m, true)
  | None => (m, false)
  end.

Definition dropHashForAddrs (m : reverseMap) (hash : ID) (addrs : list Addr) : reverseMap :=
  foldl (λ m addr, match m !! addr with
                   | Some info => <[addr := dropHashes info [hash]]> m
                   | None => m
                   end) m addrs.

Definition reverseMap_len (m : reverseMap) : nat := size m.

(** ** The keyspace (keyspace.go)

    What a keyspace asks of its items: [keyspaceItemPrivate], with the
    [factory] that makes new ones. *)
Class KeyspaceItem (Input Opt Item : Type) := {
  item_new : Time → reverseMap → ID → Input → reverseMap * Item;
  item_ID : Item → ID;
  item_update : reverseMap → Item → Input → reverseMap * Item;
  item_apply : Time → Item → Opt → Item;
  item_drop : reverseMap → Item → error → reverseMap * Item
}.

(** No operation changes the identifier of an item. *)
Class KeyspaceItemLaws (Input Opt Item : Type) `{KeyspaceItem Input Opt Item} := {
  law_new_ID now rm id input : item_ID (item_new now rm id input).2 = id;
  law_update_ID rm it input : item_ID (item_update rm it input).2 = item_ID it;
  law_apply_ID now it o : item_ID (item_apply now it o) = item_ID it
}.

Record keyspace (T Item : Type) := Keyspace {
  ks_origin : ID;
  ks_k : Z;
  ks_btree : T;
  ks_items : gmap ID Item
}.
#[global] Arguments Keyspace {T Item}.
#[global] Arguments ks_origin {T Item}.
#[global] Arguments ks_k {T Item}.
#[global] Arguments ks_btree {T Item}.
#[global] Arguments ks_items {T Item}.

Definition ErrDropReasonNotProvided : error := "drop reason not provided".

Section keyspace.
Context {T Input Opt Item : Type} `{BtreeOps T} `{KeyspaceItem Input Opt Item}.

(** [btree_new] is [btree.New(origin, k, true)]. *)
Definition newKeyspace (btree_new : ID → Z → T) (origin : ID) (k : Z) : keyspace T Item :=
  Keyspace origin k (btree_new origin k) ∅.

Definition ks_count (k : keyspace T Item) : nat := size (ks_items k).

Definition ks_get (k : keyspace T Item) (id : ID) : option Item := ks_items k !! id.

(** [put]: on [PutAlreadyExists] the item is updated through its pointer,
    which is nil when the map has none. *)
Definition ks_put (now : Time) (rm : reverseMap) (k : keyspace T Item) (id : ID) (input : Input)
    (options : list Opt) : go (reverseMap * keyspace T Item * PutResult) :=
  let it := ks_items k !! id in
  '(b, putResult) ← btree_Put (ks_btree k) id;
  match putResult with
  | Btree.PutAccepted =>
    let '(rm, it) := match it with Some it => (rm, it) | None => item_new now rm id input end in
    let it := foldl (item_apply now) it options in
    Ok (rm, Keyspace (ks_origin k) (ks_k k) b (<[id := it]> (ks_items k)), putResult)
  | Btree.PutAlreadyExists =>
    it ← of_option it;
    let '(rm, it) := item_update rm it input in
    let it := foldl (item_apply now) it options in
    Ok (rm, Keyspace (ks_origin k) (ks_k k) b (<[id := it]> (ks_items k)), putResult)
  | Btree.PutRejected => Ok (rm, Keyspace (ks_origin k) (ks_k k) b (ks_items k), putResult)
  end.

(** The items in the order [order] of a range over the map. *)
Definition range_items (k : keyspace T Item) (order : list ID) : list Item :=
  omap (λ id, ks_items k !! id) order.

(** [getRandom]: [make] panics on a negative capacity. *)
Definition ks_getRandom (k : keyspace T Item) (order : list ID) (n : Z) : go (list Item) :=
  let n := if (Z.of_nat (size (ks_items k)) <? n)%Z then Z.of_nat (size (ks_items k)) else n in
  if (n <? 0)%Z then Panic else Ok (take (Z.to_nat n) (range_items k order)).

Definition ks_drop (rm : reverseMap) (k : keyspace T Item) (id : ID) (reason : option error)
    : go (reverseMap * keyspace T Item * bool) :=
  match ks_items k !! id with
  | None => Ok (rm, k, false)
  | Some it =>
    let reason := default ErrDropReasonNotProvided reason in
    let '(rm, _) := item_drop rm it reason in
    '(b, ok) ← btree_Drop (ks_btree k) id;
    Ok (rm, Keyspace (ks_origin k) (ks_k k) b (delete id (ks_items k)), ok)
  end.

(** [getClosest]: an entry is [None] when the map has no item for an
    identifier of the tree (a nil pointer in the source). *)
Definition ks_getClosest (k : keyspace T Item) (id : ID) : go (list (option Item)) :=
  match ks_items k !! id with
  | Some it => Ok [Some it]
  | None =>
    closestIDs ← btree_Closest (ks_btree k) id 8;
    foldr (λ i (rest : go (list (option Item))),
             i ← MustNewIDFromByteSlice i; l ← rest; Ok (ks_items k !! i :: l))
      (Ok []) closestIDs
  end.

End keyspace.

(** ** Nodes (node.go) *)

Record nodeBase := NodeBase { nb_id : ID; nb_addr : AddrPort }.

Inductive protocolSupport := protocolSupportUnknown | protocolSupportYes | protocolSupportNo.
#[global] Instance protocolSupport_eq_dec : EqDecision protocolSupport.
Proof. solve_decision. Defined.

Record node := Node {
  node_base : nodeBase;
  discoveredAt : Time;
  lastRespondedAt : Time;
  dropReason : option error;
  bep51Support : protocolSupport;
  sampledNum : Z;
  lastDiscoveredNum : Z;
  totalNum : Z;
  nextSampleInfoHashesTime : Time
}.

Definition node_ID (n : node) : ID := nb_id (node_base n).
Definition node_Addr (n : node) : AddrPort := nb_addr (node_base n).

Definition node_with_addr (n : node) (a : AddrPort) : node :=
  Node (NodeBase (node_ID n) a) (discoveredAt n) (lastRespondedAt n) (dropReason n) (bep51Support n)
    (sampledNum n) (lastDiscoveredNum n) (totalNum n) (nextSampleInfoHashesTime n).

(** The factory of [newTable]. *)
Definition node_new (now : Time) (rm : reverseMap) (id : ID) (addr : AddrPort) : reverseMap * node :=
  (rm, Node (NodeBase id addr) now time_zero None protocolSupportUnknown 0 0 0 time_zero).

Definition node_update (rm : reverseMap) (n : node) (addr : AddrPort) : reverseMap * node :=
  let rm := if decide (node_Addr n ≠ addr) then (dropAddr rm (ap_addr (node_Addr n))).1 else rm in
  let n := node_with_addr n addr in
  (putAddrPeerID rm (ap_addr addr) (node_ID n), n).

Definition node_drop (rm : reverseMap) (n : node) (reason : error) : reverseMap * node :=
  let n := Node (node_base n) (discoveredAt n) (lastRespondedAt n) (Some reason) (bep51Support n)
    (sampledNum n) (lastDiscoveredNum n) (totalNum n) (nextSampleInfoHashesTime n) in
  ((dropAddr rm (ap_addr (node_Addr n))).1, n).

Definition node_Time (n : node) : Time := lastRespondedAt n.
Definition node_Dropped (n : node) : bool := bool_decide (dropReason n ≠ None).

Definition IsSampleInfoHashesCandidate (now : Time) (n : node) : bool :=
  let threshold := (now - 5 * Second)%Z in
  negb (bool_decide (bep51Support n = protocolSupportNo)) &&
  Before (nextSampleInfoHashesTime n) now && Before (lastRespondedAt n) threshold.

(** The options, closures over the node in the source. *)
Inductive NodeOption :=
| NodeResponded
| NodeBep51Support (supported : bool)
| NodeSampleInfoHashesRes (discoveredNum totalNum : Z) (nextSampleTime : Time).

Definition node_apply (now : Time) (n : node) (o : NodeOption) : node :=
  match o with
  | NodeResponded =>
    Node (node_base n) (discoveredAt n) now (dropReason n) (bep51Support n)
      (sampledNum n) (lastDiscoveredNum n) (totalNum n) (nextSampleInfoHashesTime n)
  | NodeBep51Support supported =>
    Node (node_base n) (discoveredAt n) (lastRespondedAt n) (dropReason n)
      (if supported then protocolSupportYes else protocolSupportNo)
      (sampledNum n) (lastDiscoveredNum n) (totalNum n) (nextSampleInfoHashesTime n)
  | NodeSampleInfoHashesRes discoveredNum total nextSampleTime =>
    let nextSampleTime :=
      if (discoveredNum =? 0)%Z
      then ((if Before nextSampleTime now then now else nextSampleTime) + 5 * Minute)%Z
      else nextSampleTime in
    Node (node_base n) (discoveredAt n) (lastRespondedAt n) (dropReason n) (bep51Support n)
      (int64 (sampledNum n + discoveredNum)) discoveredNum (int64 (totalNum n + total)) nextSampleTime
  end.

#[export] Instance node_item : KeyspaceItem AddrPort NodeOption node := {
  item_new := node_new;
  item_ID := node_ID;
  item_update := node_update;
  item_apply := node_apply;
  item_drop := node_drop
}.

#[export] Instance node_item_laws : KeyspaceItemLaws AddrPort NodeOption node.
Proof. split; [done| |by intros ? ? []]. intros rm it a. done. Qed.

(** ** Hashes (hash.go) *)

Record hash := Hash {
  hash_id : ID;
  hash_peers : gmap Addr AddrPort;
  hash_discoveredAt : Time;
  droppedReason : option error
}.

(** A [HashPeer] is its address.  [HashOption] has no implementation. *)
Abbreviation HashPeer := AddrPort.
Inductive HashOption := .

(** The loop that [update] and the factory share: each peer goes into the
    peer map and the hash into the reverse map entry of its address. *)
Definition hash_put_peers (rm : reverseMap) (ps : gmap Addr AddrPort) (id : ID) (peers : list HashPeer)
    : reverseMap * gmap Addr AddrPort :=
  foldl (λ '(rm, ps) (p : HashPeer), (putAddrHashes rm (ap_addr p) [id], <[ap_addr p := p]> ps)) (rm, ps) peers.

(** The factory of [newTable]. *)
Definition hash_new (now : Time) (rm : reverseMap) (id : ID) (peers : list HashPeer) : reverseMap * hash :=
  let '(rm, peersMap) := hash_put_peers rm ∅ id peers in
  (rm, Hash id peersMap now None).

Definition hash_update (rm : reverseMap) (h : hash) (peers : list HashPeer) : reverseMap * hash :=
  let '(rm, ps) := hash_put_peers rm (hash_peers h) (hash_id h) peers in
  (rm, Hash (hash_id h) ps (hash_discoveredAt h) (droppedReason h)).

Definition hash_apply (now : Time) (h : hash) (o : HashOption) : hash := match o with end.

(** [drop]: the order of the range over the peers does not matter, each
    iteration touches its own entry. *)
Definition hash_drop (rm : reverseMap) (h : hash) (reason : error) : reverseMap * hash :=
  (dropHashForAddrs rm (hash_id h) (ap_addr <$> (map_to_list (hash_peers h)).*2),
   Hash (hash_id h) (hash_peers h) (hash_discoveredAt h) (Some reason)).

Definition hash_hasPeers (h : hash) : bool := bool_decide (0 < size (hash_peers h)).
Definition hash_Peers (h : hash) (order : list Addr) : list HashPeer :=
  omap (λ a, hash_peers h !! a) order.

#[export] Instance hash_item : KeyspaceItem (list HashPeer) HashOption hash := {
  item_new := hash_new;
  item_ID := hash_id;
  item_update := hash_update;
  item_apply := hash_apply;
  item_drop := hash_drop
}.

#[export] Instance hash_item_laws : KeyspaceItemLaws (list HashPeer) HashOption hash.
Proof.
  split; [| |by intros ? ? []].
  - intros now rm id input. cbn. unfold hash_new. by destruct (hash_put_peers _ _ _ _).
  - intros rm it input. cbn. unfold hash_update. by destruct (hash_put_peers _ _ _ _).
Qed.

(** ** The table (table.go, factory.go) *)

Abbreviation tree := (PrometheusCollector Btree.rootNode).

Definition nodesK : Z := 80.
Definition hashesK : Z := 80.

Record table := Table {
  t_origin : ID;
  t_nodes : keyspace tree node;
  t_hashes : keyspace tree hash;
  t_addrs : reverseMap
}.

(** The tree of a new keyspace, wrapped in a fresh collector. *)
Definition new_tree (origin : ID) (k : Z) : tree := Collector (Btree.New origin k true) 0 0 0.

Definition newTable (nodeID : ID) : table :=
  Table nodeID (newKeyspace new_tree nodeID nodesK) (newKeyspace new_tree nodeID hashesK) ∅.

(** *** Commands (command.go) *)

Definition PutNode (now : Time) (t : table) (id : ID) (addr : AddrPort) (options : list NodeOption)
    : go (table * PutResult) :=
  if negb (AddrPort_IsValid addr) then Ok (t, PutRejected)
  else
    '(rm, nodes, res) ← ks_put now (t_addrs t) (t_nodes t) id addr options;
    Ok (Table (t_origin t) nodes (t_hashes t) rm, res).

Definition DropNode (t : table) (id : ID) (reason : option error) : go (table * bool) :=
  '(rm, nodes, ok) ← ks_drop (t_addrs t) (t_nodes t) id reason;
  Ok (Table (t_origin t) nodes (t_hashes t) rm, ok).

Definition DropAddr (t : table) (addr : Addr) (reason : option error) : go (table * bool) :=
  match getPeerIDForAddr (t_addrs t) addr with
  | None => Ok (t, false)
  | Some id => DropNode t id reason
  end.

Definition PutHash (now : Time) (t : table) (id : ID) (peers : list HashPeer) (options : list HashOption)
    : go (table * PutResult) :=
  '(rm, hashes, res) ← ks_put now (t_addrs t) (t_hashes t) id peers options;
  Ok (Table (t_origin t) (t_nodes t) hashes rm, res).

Inductive Command :=
| CmdPutNode (id : ID) (addr : AddrPort) (options : list NodeOption)
| CmdDropNode (id : ID) (reason : option error)
| CmdDropAddr (addr : Addr) (reason : option error)
| CmdPutHash (id : ID) (peers : list HashPeer) (options : list HashOption).

Inductive Result := ResPut (r : PutResult) | ResDrop (ok : bool).

Definition exec (now : Time) (t : table) (c : Command) : go (table * Result) :=
  match c with
  | CmdPutNode id addr options => '(t, r) ← PutNode now t id addr options; Ok (t, ResPut r)
  | CmdDropNode id reason => '(t, ok) ← DropNode t id reason; Ok (t, ResDrop ok)
  | CmdDropAddr addr reason => '(t, ok) ← DropAddr t addr reason; Ok (t, ResDrop ok)
  | CmdPutHash id peers options => '(t, r) ← PutHash now t id peers options; Ok (t, ResPut r)
  end.

(** [BatchCommand]: the commands in order under the write lock, each with the
    time at which it runs; the results are kept for the specification. *)
Fixpoint BatchCommand (t : table) (cs : list (Time * Command)) : go (table * list Result) :=
  match cs with
  | [] => Ok (t, [])
  | (now, c) :: cs =>
    '(t, r) ← exec now t c;
    '(t, rs) ← BatchCommand t cs;
    Ok (t, r :: rs)
  end.

(** *** Queries (query.go) *)

Definition GetClosestNodes (t : table) (id : ID) : go (list (option node)) := ks_getClosest (t_nodes t) id.

Definition getLastRespondedBefore (k : keyspace tree node) (order : list ID) (cutoff : Time) : list node :=
  filter (λ n, Is_true (Before (lastRespondedAt n) cutoff)) (range_items k order).

Definition not_after (a b : node) : Prop := (node_Time a ≤ node_Time b)%Z.
#[export] Instance not_after_dec : RelDecision not_after.
Proof. intros a b. unfold not_after. apply _. Defined.
#[export] Instance not_after_trans : Transitive not_after.
Proof. intros a b c. unfold not_after. lia. Qed.
#[export] Instance not_after_total : Total not_after.
Proof. intros a b. unfold not_after. lia. Qed.

(** [sort.Slice] by [Time]: a sorted permutation; which one among ties is left
    to the iteration order. *)
Definition GetOldestNodes (t : table) (order : list ID) (cutoff : Time) (n : Z) : list node :=
  let peers := getLastRespondedBefore (t_nodes t) order cutoff in
  let peers := merge_sort not_after peers in
  if (0 <? n)%Z && (n <? Z.of_nat (length peers))%Z then take (Z.to_nat n) peers else peers.

Definition FilterKnownAddrs (t : table) (addrs : list Addr) : list Addr :=
  filter (λ a, t_addrs t !! a = None) addrs.

Fixpoint getCandidates_loop (now : Time) (n : Z) (candidates its : list node) : list node :=
  match its with
  | [] => candidates
  | it :: its =>
    if negb (IsSampleInfoHashesCandidate now it) then getCandidates_loop now n candidates its
    else
      let candidates := candidates ++ [it] in
      if (Z.of_nat (length candidates) =? n)%Z then candidates
      else getCandidates_loop now n candidates its
  end.

Definition getCandidatesForSampleInfoHashes (now : Time) (k : keyspace tree node) (order : list ID) (n : Z)
    : list node :=
  getCandidates_loop now n [] (range_items k order).

Fixpoint sample_nodes_loop (n : Z) (peers ps : list node) : list node :=
  match ps with
  | [] => peers
  | p :: ps =>
    let peers := peers ++ [p] in
    if (n <=? Z.of_nat (length peers))%Z then peers else sample_nodes_loop n peers ps
  end.

Definition GetNodesForSampleInfoHashes (now : Time) (t : table) (order : list ID) (n : Z) : go (list node) :=
  if (n <? 0)%Z then Panic
  else Ok (sample_nodes_loop n [] (getCandidatesForSampleInfoHashes now (t_nodes t) order n)).

Inductive GetHashOrClosestNodesResult :=
| HashFound (h : hash)
| HashClosest (closestNodes : list (option node)).

Definition GetHashOrClosestNodes (t : table) (id : ID) : go GetHashOrClosestNodesResult :=
  match ks_get (t_hashes t) id with
  | Some h => Ok (HashFound h)
  | None => closestNodes ← ks_getClosest (t_nodes t) id; Ok (HashClosest closestNodes)
  end.

Record SampleHashesAndNodesResult := SampleResult {
  sr_Hashes : list hash; sr_Nodes : list node; TotalHashes : nat
}.

Definition SampleHashesAndNodes (t : table) (horder norder : list ID) : go SampleHashesAndNodesResult :=
  let nHashes := 20%Z in
  hashes ← ks_getRandom (t_hashes t) horder nHashes;
  let nNodes := (20 + (nHashes - Z.of_nat (length hashes)))%Z in
  nodes ← ks_getRandom (t_nodes t) norder nNodes;
  Ok (SampleResult hashes nodes (ks_count (t_hashes t))).

Definition SnapshotNodeAddrs (t : table) (order : list ID) (limit : Z) : go (list AddrPort) :=
  if (limit <=? 0)%Z then Ok []
  else
    nodes ← ks_getRandom (t_nodes t) order limit;
    Ok (filter (λ a, Is_true (AddrPort_IsValid a)) (node_Addr <$> (nodes : list node))).

(** ** Lemmas on the keyspace, against the interfaces *)

Section keyspace_laws.
Context {T Input Opt Item : Type} `{BtreeLaws T} `{KeyspaceItemLaws Input Opt Item}.
Implicit Types k : keyspace T Item.

(** The tree and the map hold the same identifiers, and every item is filed
    under its own. *)
Record ks_inv k : Prop := {
  ks_tree : btree_inv (ks_btree k);
  ks_tree_origin : btree_origin (ks_btree k) = ks_origin k;
  ks_dom : dom (ks_items k) = btree_members (ks_btree k);
  ks_ids : ∀ id it, ks_items k !! id = Some it → item_ID it = id
}.

(** What a [put] may do to the reverse map and the items. *)
Inductive put_effect (now : Time) (rm : reverseMap) k (id : ID) (input : Input) (options : list Opt)
    : reverseMap → gmap ID Item → PutResult → Prop :=
| put_accepted rm' it :
    ks_items k !! id = None → id ≠ ks_origin k → item_new now rm id input = (rm', it) →
    put_effect now rm k id input options rm'
      (<[id := foldl (item_apply now) it options]> (ks_items k)) PutAccepted
| put_exists it rm' it' :
    ks_items k !! id = Some it → item_update rm it input = (rm', it') →
    put_effect now rm k id input options rm'
      (<[id := foldl (item_apply now) it' options]> (ks_items k)) PutAlreadyExists
| put_rejected :
    ks_items k !! id = None → put_effect now rm k id input options rm (ks_items k) PutRejected.

Lemma foldl_apply_ID now options : ∀ it : Item, item_ID (foldl (item_apply now) it options) = item_ID it.
Proof. induction options as [|o os IH]; intros it; cbn; [done|]. by rewrite IH, law_apply_ID. Qed.

Lemma ks_None k id : ks_inv k → ks_items k !! id = None ↔ id ∉ btree_members (ks_btree k).
Proof. intros Hinv. rewrite <-(ks_dom k Hinv). symmetry. apply not_elem_of_dom. Qed.

Lemma ks_Some k id : ks_inv k → is_Some (ks_items k !! id) ↔ id ∈ btree_members (ks_btree k).
Proof. intros Hinv. rewrite <-(ks_dom k Hinv). symmetry. apply elem_of_dom. Qed.

Lemma ks_put_spec now rm k id input options :
  ks_inv k → id20 id →
  ∃ rm' k' res, ks_put now rm k id input options = Ok (rm', k', res) ∧ ks_inv k' ∧
    ks_origin k' = ks_origin k ∧ put_effect now rm k id input options rm' (ks_items k') res.
Proof.
  intros Hinv Hid. pose proof Hinv as [Ht Ho Hd Hi].
  destruct (law_put _ id Ht Hid) as (b & res & E & Hb & Hbo & Hans). unfold ks_put. rewrite E.
  cbn [mbind outcome_bind]. destruct res; cbn [put_answer] in Hans.
  - destruct Hans as (Hn & Hm). eexists _, _, _. split; [done|]. split; [|split; [done|]].
    + split; cbn; [done|congruence..|done].
    + cbn [ks_items]. constructor. by apply ks_None.
  - destruct Hans as (Hn & Hne & Hm). rewrite (proj2 (ks_None k id Hinv) Hn).
    destruct (item_new now rm id input) as [rm' it] eqn:Enew.
    eexists _, _, _. split; [done|]. split; [|split; [done|]].
    + split; cbn; [done|congruence|rewrite dom_insert_L; congruence|].
      intros j it' [[<- <-]|[? ?]]%lookup_insert_Some; [|by apply Hi].
      rewrite foldl_apply_ID. change it with (rm', it).2. rewrite <-Enew. apply law_new_ID.
    + constructor; [by apply ks_None|congruence|done].
  - destruct Hans as (Hin & Hm). apply (ks_Some k id Hinv) in Hin as [it Eit]. rewrite Eit.
    cbn [of_option mbind outcome_bind]. destruct (item_update rm it input) as [rm' it'] eqn:Eup.
    eexists _, _, _. split; [done|]. split; [|split; [done|by econstructor]].
    split; cbn; [done|congruence| |].
    + rewrite dom_insert_L, Hm, Hd.
      apply subseteq_union_1_L, singleton_subseteq_l, ks_Some; [done|by exists it].
    + intros j it'' [[<- <-]|[? ?]]%lookup_insert_Some; [|by apply Hi].
      rewrite foldl_apply_ID. change it' with (rm', it').2. rewrite <-Eup, law_update_ID. by apply Hi.
Qed.

Lemma ks_drop_spec rm k id reason :
  ks_inv k → id20 id →
  ∃ rm' k', ks_drop rm k id reason = Ok (rm', k', bool_decide (is_Some (ks_items k !! id))) ∧
    ks_inv k' ∧ ks_origin k' = ks_origin k ∧ ks_items k' = delete id (ks_items k) ∧
    rm' = match ks_items k !! id with
          | Some it => (item_drop rm it (default ErrDropReasonNotProvided reason)).1
          | None => rm
          end.
Proof.
  intros Hinv Hid. pose proof Hinv as [Ht Ho Hd Hi]. unfold ks_drop.
  destruct (ks_items k !! id) as [it|] eqn:Eit.
  - destruct (item_drop _ _ _) as [rm' it'] eqn:Edrop.
    destruct (law_drop _ id Ht Hid) as (b & -> & Hb & Hbo & Hm). cbn [mbind outcome_bind].
    exists rm', (Keyspace (ks_origin k) (ks_k k) b (delete id (ks_items k))).
    split; [|split_and!; [|done|done|done]].
    + do 2 f_equal. apply bool_decide_ext. rewrite <-(ks_Some k id Hinv), Eit. done.
    + split; cbn; [done|congruence|rewrite dom_delete_L; congruence|].
      intros j it'' [? ?]%lookup_delete_Some. by apply Hi.
  - eexists _, _. split; [done|]. split_and!; [done..| |done]. by rewrite delete_id.
Qed.

Lemma MustNewID_id20 (id : ID) : id20 id → MustNewIDFromByteSlice id = Ok id.
Proof.
  intros [Hl _]. unfold MustNewIDFromByteSlice, NewIDFromByteSlice.
  by rewrite copy_into_long, take_ge by (rewrite ?length_ID_zero; lia).
Qed.

(** [getClosest] never meets a nil item: it returns the item of the
    identifier itself, or the items of the identifiers the tree calls
    closest. *)
Lemma ks_getClosest_spec k id :
  ks_inv k → id20 id →
  match ks_items k !! id with
  | Some it => ks_getClosest k id = Ok [Some it]
  | None => ∃ its, ks_getClosest k id = Ok (Some <$> its) ∧
      (∀ it, it ∈ its → ks_items k !! item_ID it = Some it) ∧
      closest_answer (dom (ks_items k)) id 8 (item_ID <$> its)
  end.
Proof.
  intros Hinv Hid. pose proof Hinv as [Ht Ho Hd Hi]. unfold ks_getClosest.
  destruct (ks_items k !! id) as [it|] eqn:Eit; [done|].
  destruct (law_closest _ id 8 Ht Hid) as (ids & -> & Hans); [lia|]. cbn [mbind outcome_bind].
  assert (Hin : ∀ y, y ∈ ids → y ∈ btree_members (ks_btree k)) by (intros y; by apply Hans).
  assert (∃ its, foldr (λ i (rest : go (list (option Item))),
             i ← MustNewIDFromByteSlice i; l ← rest; Ok (ks_items k !! i :: l)) (Ok []) ids
             = Ok (Some <$> its) ∧ item_ID <$> its = ids ∧
             ∀ it, it ∈ its → ks_items k !! item_ID it = Some it) as (its & E & Eids & Hits).
  { clear Hans. induction ids as [|y ids IH]; cbn [foldr].
    - exists []. split_and!; [done..|]. intros it []%not_elem_of_nil.
    - destruct IH as (its & -> & <- & Hits); [intros z Hz; apply Hin; by right|].
      assert (Hy : y ∈ btree_members (ks_btree k)) by (apply Hin; by left).
      rewrite MustNewID_id20 by (by eapply law_members). cbn [mbind outcome_bind].
      apply (ks_Some k y Hinv) in Hy as [it Ey]. rewrite Ey. exists (it :: its).
      assert (item_ID it = y) by by apply Hi. split_and!; [done|cbn; congruence|].
      intros it' [->|?]%elem_of_cons; [congruence|by apply Hits]. }
  exists its. rewrite Eids, Hd. done.
Qed.

Lemma list_omap_ext' {A B} (f g : A → option B) (l : list A) :
  (∀ x, x ∈ l → f x = g x) → omap f l = omap g l.
Proof.
  induction l as [|x l IH]; intros Hfg; [done|]. cbn. rewrite Hfg by by left.
  rewrite IH; [done|]. intros y Hy. apply Hfg. by right.
Qed.

Lemma range_items_perm k order :
  order ≡ₚ elements (dom (ks_items k)) → range_items k order ≡ₚ (map_to_list (ks_items k)).*2.
Proof.
  unfold range_items. intros ->. clear order. induction (ks_items k) as [|id it m Hn IH] using map_ind.
  - by rewrite dom_empty_L, elements_empty, map_to_list_empty.
  - rewrite dom_insert_L, elements_union_singleton, map_to_list_insert by (rewrite ?not_elem_of_dom; done).
    cbn. rewrite lookup_insert_eq, <-IH. f_equiv. apply reflexive_eq.
    apply list_omap_ext'. intros i Hi. apply lookup_insert_ne. intros ->.
    by apply elem_of_elements, elem_of_dom in Hi as [? ?]; congruence.
Qed.

End keyspace_laws.

(** ** The reverse map invariant *)

(** The entries of the reverse map that name a node name a stored node at
    that address; the hashes of an entry are stored and list the address. *)
Definition peers_sound (nodes : gmap ID node) (rm : reverseMap) : Prop :=
  ∀ a info, rm !! a = Some info → peerID info ≠ ID_zero →
    ∃ n, nodes !! peerID info = Some n ∧ ap_addr (node_Addr n) = a.

Definition hashes_sound (hashes : gmap ID hash) (rm : reverseMap) : Prop :=
  ∀ a info h, rm !! a = Some info → h ∈ info_hashes info →
    ∃ it, hashes !! h = Some it ∧ is_Some (hash_peers it !! a).

Lemma dropAddr_delete m a : (dropAddr m a).1 = delete a m.
Proof. unfold dropAddr. destruct (m !! a) eqn:E; [done|]. cbn. by rewrite delete_id. Qed.

Lemma putAddrPeerID_lookup m a id b :
  putAddrPeerID m a id !! b =
    if decide (a = b) then Some (InfoForAddr id (from_option info_hashes ∅ (m !! a))) else m !! b.
Proof.
  unfold putAddrPeerID. destruct (m !! a) as [info|] eqn:E; case_decide; subst;
    by rewrite ?lookup_insert_eq, ?lookup_insert_ne.
Qed.

Lemma putAddrHashes_lookup m a id b :
  putAddrHashes m a [id] !! b =
    if decide (a = b)
    then Some (InfoForAddr (from_option peerID ID_zero (m !! a)) ({[id]} ∪ from_option info_hashes ∅ (m !! a)))
    else m !! b.
Proof.
  unfold putAddrHashes. destruct (m !! a) as [info|] eqn:E; case_decide; subst;
    by rewrite ?lookup_insert_eq, ?lookup_insert_ne.
Qed.

(** The peer map after the loop of [hash_put_peers]. *)
Definition add_peers (ps : gmap Addr AddrPort) (peers : list HashPeer) : gmap Addr AddrPort :=
  foldl (λ ps p, <[ap_addr p := p]> ps) ps peers.

Lemma hash_put_peers_peers id peers : ∀ rm ps, (hash_put_peers rm ps id peers).2 = add_peers ps peers.
Proof. induction peers as [|p peers IH]; intros rm ps; [done|]. apply IH. Qed.

Lemma add_peers_mono peers : ∀ ps a, is_Some (ps !! a) → is_Some (add_peers ps peers !! a).
Proof.
  induction peers as [|p peers IH]; intros ps a Ha; [done|]. cbn. apply IH.
  destruct (decide (ap_addr p = a)) as [->|]; by rewrite ?lookup_insert_eq, ?lookup_insert_ne.
Qed.

(** What the loop leaves in the reverse map was there before, or is the hash
    under the address of one of its peers. *)
Lemma hash_put_peers_rm id peers : ∀ rm ps a info,
  (hash_put_peers rm ps id peers).1 !! a = Some info →
  (peerID info ≠ ID_zero → ∃ info0, rm !! a = Some info0 ∧ peerID info0 = peerID info) ∧
  (∀ h, h ∈ info_hashes info →
    (∃ info0, rm !! a = Some info0 ∧ h ∈ info_hashes info0) ∨
    (h = id ∧ is_Some (add_peers ps peers !! a))).
Proof.
  induction peers as [|p peers IH]; intros rm ps a info.
  - intros E. split; [by eauto|]. intros h Hh. left. by eauto.
  - cbn. intros Hrm. apply IH in Hrm as [Hp Hh]. rewrite putAddrHashes_lookup in Hp.
    setoid_rewrite putAddrHashes_lookup in Hh. case_decide as Ha; [subst a|by auto].
    destruct (rm !! ap_addr p) as [i0|] eqn:E0; cbn in *.
    + split; [intros (? & [= <-] & ?)%Hp; by eauto|].
      intros h [(? & [= <-] & Hin)|?]%Hh; [|by auto]. cbn in Hin.
      apply elem_of_union in Hin as [->%elem_of_singleton|]; [right|by eauto].
      split; [done|]. apply add_peers_mono. by rewrite lookup_insert_eq.
    + split; [intros Hne; destruct (Hp Hne) as (? & [= <-] & Hz); cbn in Hz; congruence|].
      intros h [(? & [= <-] & Hin)|?]%Hh; [|by auto]. cbn in Hin.
      rewrite union_empty_r_L in Hin. apply elem_of_singleton in Hin as ->.
      right. split; [done|]. apply add_peers_mono. by rewrite lookup_insert_eq.
Qed.

(** *** How the operations of the items keep it *)

Lemma node_apply_base now options : ∀ n, node_base (foldl (node_apply now) n options) = node_base n.
Proof. induction options as [|o os IH]; intros n; [done|]. cbn. rewrite IH. by destruct o. Qed.

Lemma node_apply_Addr now options n : node_Addr (foldl (node_apply now) n options) = node_Addr n.
Proof. unfold node_Addr. by rewrite node_apply_base. Qed.

Lemma peers_sound_new nodes rm id n :
  peers_sound nodes rm → nodes !! id = None → peers_sound (<[id := n]> nodes) rm.
Proof.
  intros Hs Hn a info Ha Hz. destruct (Hs a info Ha Hz) as (m & Hm & ?). exists m.
  split; [|done]. rewrite lookup_insert_ne; [done|]. congruence.
Qed.

Lemma peers_sound_update nodes rm id n addr n' :
  peers_sound nodes rm → nodes !! id = Some n → node_ID n = id →
  node_base n' = NodeBase id addr →
  peers_sound (<[id := n']> nodes) (node_update rm n addr).1.
Proof.
  intros Hs Hn Hid Hb a info. cbn. rewrite putAddrPeerID_lookup. case_decide as Ha.
  - intros [= <-] _. subst a. cbn. exists n'. unfold node_ID, node_Addr, node_with_addr in *. cbn.
    rewrite Hid, lookup_insert_eq, Hb. done.
  - intros Hinfo Hz.
    assert (Hrm : rm !! a = Some info ∧ (ap_addr (node_Addr n) ≠ a)).
    { case_decide as Hd; rewrite ?dropAddr_delete in Hinfo.
      - by apply lookup_delete_Some in Hinfo as [? ?].
      - split; [done|]. congruence. }
    destruct Hrm as [Hrm Hne]. destruct (Hs a info Hrm Hz) as (m & Hm & ?).
    exists m. split; [|done]. rewrite lookup_insert_ne; [done|]. congruence.
Qed.

Lemma peers_sound_drop nodes rm id n reason :
  peers_sound nodes rm → nodes !! id = Some n → peers_sound (delete id nodes) (node_drop rm n reason).1.
Proof.
  intros Hs Hn a info. cbn. rewrite dropAddr_delete. intros [Hne Ha]%lookup_delete_Some Hz.
  destruct (Hs a info Ha Hz) as (m & Hm & Hma). exists m. split; [|done].
  rewrite lookup_delete_ne; [done|]. intros ->. rewrite Hn in Hm. injection Hm as ->. by apply Hne.
Qed.

Lemma hashes_sound_node_update hashes rm n addr :
  hashes_sound hashes rm → hashes_sound hashes (node_update rm n addr).1.
Proof.
  intros Hs a info h. cbn. rewrite putAddrPeerID_lookup.
  assert (Hsub : ∀ b i, (if decide (node_Addr n ≠ addr) then (dropAddr rm (ap_addr (node_Addr n))).1 else rm) !! b
    = Some i → rm !! b = Some i).
  { intros b i. case_decide; [|done]. rewrite dropAddr_delete. by intros [? ?]%lookup_delete_Some. }
  destruct (decide (ap_addr addr = a)) as [Ha|Ha]; [|intros Hi; apply Hs; by apply Hsub].
  intros [= <-]. cbn. destruct (_ !! ap_addr addr) as [i|] eqn:E; cbn; [|by intros ?%not_elem_of_empty].
  subst a. apply Hs. by apply Hsub.
Qed.

Lemma hashes_sound_node_drop hashes rm n reason :
  hashes_sound hashes rm → hashes_sound hashes (node_drop rm n reason).1.
Proof. intros Hs a info h. cbn. rewrite dropAddr_delete. intros [? ?]%lookup_delete_Some. by apply Hs. Qed.

(** Filing a hash under more peers. *)
Lemma peers_sound_hash nodes rm ps id peers :
  peers_sound nodes rm → peers_sound nodes (hash_put_peers rm ps id peers).1.
Proof.
  intros Hs a info Ha Hz. apply hash_put_peers_rm in Ha as [Hp _].
  destruct (Hp Hz) as (i0 & Hi0 & E). rewrite <-E in Hz |- *. by apply Hs.
Qed.

Lemma hashes_sound_hash hashes rm ps id peers now reason :
  hashes_sound hashes rm → from_option hash_peers ∅ (hashes !! id) = ps →
  hashes_sound (<[id := Hash id (add_peers ps peers) now reason]> hashes) (hash_put_peers rm ps id peers).1.
Proof.
  intros Hs Hps a info h Ha Hh. apply hash_put_peers_rm in Ha as [_ Hhs].
  destruct (Hhs h Hh) as [(i0 & Hi0 & Hin)|[-> Hin]].
  - destruct (Hs a i0 h Hi0 Hin) as (it & Hit & Hpeer). destruct (decide (h = id)) as [->|].
    + rewrite lookup_insert_eq. eexists. split; [done|]. cbn. apply add_peers_mono.
      rewrite Hit in Hps. cbn in Hps. by subst ps.
    + rewrite lookup_insert_ne by done. by eauto.
  - rewrite lookup_insert_eq. by eauto.
Qed.

(** ** The table invariant and its abstract directory *)

Record table_inv (t : table) : Prop := {
  inv_nodes : ks_inv (t_nodes t);
  inv_hashes : ks_inv (t_hashes t);
  inv_origins : ks_origin (t_nodes t) = t_origin t ∧ ks_origin (t_hashes t) = t_origin t;
  inv_valid : ∀ id n, ks_items (t_nodes t) !! id = Some n → AddrPort_IsValid (node_Addr n) = true;
  inv_peers : peers_sound (ks_items (t_nodes t)) (t_addrs t);
  inv_addrs_hashes : hashes_sound (ks_items (t_hashes t)) (t_addrs t)
}.

(** What the users of the table see: the address of every stored node and the
    peers of every stored hash. *)
Record directory := Directory {
  dir_nodes : gmap ID AddrPort;
  dir_hashes : gmap ID (gmap Addr AddrPort)
}.

Definition abs (t : table) : directory :=
  Directory (node_Addr <$> ks_items (t_nodes t)) (hash_peers <$> ks_items (t_hashes t)).

(** The contract of the commands. *)
Inductive dir_step (origin : ID) (d : directory) : Command → Result → directory → Prop :=
| dir_put_invalid id addr os :
    AddrPort_IsValid addr = false → dir_step origin d (CmdPutNode id addr os) (ResPut PutRejected) d
| dir_put_new id addr os :
    AddrPort_IsValid addr = true → dir_nodes d !! id = None → id ≠ origin →
    dir_step origin d (CmdPutNode id addr os) (ResPut PutAccepted)
      (Directory (<[id := addr]> (dir_nodes d)) (dir_hashes d))
| dir_put_known id addr os :
    AddrPort_IsValid addr = true → is_Some (dir_nodes d !! id) →
    dir_step origin d (CmdPutNode id addr os) (ResPut PutAlreadyExists)
      (Directory (<[id := addr]> (dir_nodes d)) (dir_hashes d))
| dir_put_full id addr os :
    AddrPort_IsValid addr = true → dir_nodes d !! id = None →
    dir_step origin d (CmdPutNode id addr os) (ResPut PutRejected) d
| dir_drop id reason :
    dir_step origin d (CmdDropNode id reason) (ResDrop (bool_decide (is_Some (dir_nodes d !! id))))
      (Directory (delete id (dir_nodes d)) (dir_hashes d))
| dir_drop_addr id ap reason :
    dir_nodes d !! id = Some ap →
    dir_step origin d (CmdDropAddr (ap_addr ap) reason) (ResDrop true)
      (Directory (delete id (dir_nodes d)) (dir_hashes d))
| dir_drop_addr_unknown a reason : dir_step origin d (CmdDropAddr a reason) (ResDrop false) d
| dir_hash_new id peers os :
    dir_hashes d !! id = None → id ≠ origin →
    dir_step origin d (CmdPutHash id peers os) (ResPut PutAccepted)
      (Directory (dir_nodes d) (<[id := add_peers ∅ peers]> (dir_hashes d)))
| dir_hash_known id ps peers os :
    dir_hashes d !! id = Some ps →
    dir_step origin d (CmdPutHash id peers os) (ResPut PutAlreadyExists)
      (Directory (dir_nodes d) (<[id := add_peers ps peers]> (dir_hashes d)))
| dir_hash_full id peers os :
    dir_hashes d !! id = None → dir_step origin d (CmdPutHash id peers os) (ResPut PutRejected) d.

Inductive dir_run (origin : ID) : directory → list (Time * Command) → list Result → directory → Prop :=
| dir_run_nil d : dir_run origin d [] [] d
| dir_run_cons d now c r d' cs rs d'' :
    dir_step origin d c r d' → dir_run origin d' cs rs d'' →
    dir_run origin d ((now, c) :: cs) (r :: rs) d''.

Lemma dir_put_new_inv origin d id addr os d' :
  dir_step origin d (CmdPutNode id addr os) (ResPut PutAccepted) d' →
  AddrPort_IsValid addr = true ∧ dir_nodes d' = <[id := addr]> (dir_nodes d).
Proof. by inversion 1. Qed.

(** The identifiers a command carries have 20 bytes. *)
Definition command_ok (c : Command) : Prop :=
  match c with
  | CmdPutNode id _ _ | CmdDropNode id _ | CmdPutHash id _ _ => id20 id
  | CmdDropAddr _ _ => True
  end.

Definition reachable (origin : ID) (t : table) : Prop :=
  id20 origin ∧ ∃ cs rs, Forall (λ c, command_ok c.2) cs ∧ BatchCommand (newTable origin) cs = Ok (t, rs).

(** *** Each command keeps the invariant and does its abstract step *)

Lemma new_tree_inv origin k : id20 origin → btree_inv (new_tree origin k).
Proof. intros Ho. split; [by apply Btree.New_inv|done]. Qed.

Lemma newTable_inv origin : id20 origin → table_inv (newTable origin).
Proof.
  intros Ho. split; try done.
  - split; [by apply new_tree_inv|done..].
  - split; [by apply new_tree_inv|done..].
Qed.

Lemma hash_apply_nil now h (os : list HashOption) : foldl (hash_apply now) h os = h.
Proof. by destruct os as [|[]]. Qed.

Lemma PutNode_spec now t id addr os :
  table_inv t → id20 id →
  ∃ t' r, PutNode now t id addr os = Ok (t', r) ∧ table_inv t' ∧ t_origin t' = t_origin t ∧
    dir_step (t_origin t) (abs t) (CmdPutNode id addr os) (ResPut r) (abs t') ∧
    (r = PutAccepted → t_addrs t' = t_addrs t).
Proof.
  intros Hinv Hid. pose proof Hinv as [Hn Hh [Eon Eoh] Hv Hp Hah]. unfold PutNode.
  destruct (AddrPort_IsValid addr) eqn:Hval; cbn [negb];
    [|exists t, PutRejected; split_and!; [done..|by constructor|done]].
  destruct (ks_put_spec now (t_addrs t) (t_nodes t) id addr os Hn Hid) as (rm' & k' & res & -> & Hk' & Eo & Heff).
  cbn [mbind outcome_bind]. eexists _, res. split; [done|].
  remember (ks_items k') as items' eqn:Eitems.
  destruct Heff as [rm' it Hnone Hne [= <- <-]|it rm' it' Hsome Hup|Hnone]; unfold abs; cbn.
  - split_and!; [split; cbn; try done; [split; congruence|..]|done| |done].
    + rewrite <-Eitems. intros j n [[<- <-]|[? ?]]%lookup_insert_Some; [|by eapply Hv].
      by rewrite node_apply_Addr.
    + rewrite <-Eitems. by apply peers_sound_new.
    + rewrite <-Eitems, fmap_insert. rewrite node_apply_Addr.
      apply (dir_put_new _ (abs t)); [done|unfold abs; cbn; by rewrite lookup_fmap, Hnone|congruence].
  - injection Hup as <- <-. apply (ks_ids _ Hn) in Hsome as Hi. cbn in Hi.
    split_and!; [split; cbn; try done; [split; congruence|..]|done| |done].
    + rewrite <-Eitems. intros j n [[<- <-]|[? ?]]%lookup_insert_Some; [|by eapply Hv].
      by rewrite node_apply_Addr.
    + rewrite <-Eitems. apply peers_sound_update; [done..|]. rewrite node_apply_base. by subst id.
    + by apply hashes_sound_node_update.
    + rewrite <-Eitems, fmap_insert. rewrite node_apply_Addr.
      apply (dir_put_known _ (abs t)); [done|]. unfold abs. cbn. by rewrite lookup_fmap, Hsome.
  - split_and!; [split; cbn; rewrite <-?Eitems; try done; split; congruence|done| |done].
    rewrite <-Eitems. apply (dir_put_full _ (abs t)); [done|]. unfold abs. cbn. by rewrite lookup_fmap, Hnone.
Qed.

Lemma DropNode_spec t id reason :
  table_inv t → id20 id →
  ∃ t', DropNode t id reason = Ok (t', bool_decide (is_Some (ks_items (t_nodes t) !! id))) ∧
    table_inv t' ∧ t_origin t' = t_origin t ∧
    abs t' = Directory (delete id (dir_nodes (abs t))) (dir_hashes (abs t)).
Proof.
  intros Hinv Hid. pose proof Hinv as [Hn Hh [Eon Eoh] Hv Hp Hah]. unfold DropNode.
  destruct (ks_drop_spec (t_addrs t) (t_nodes t) id reason Hn Hid) as (rm' & k' & -> & Hk' & Eo & Eitems & Erm).
  cbn [mbind outcome_bind]. eexists. split; [done|]. split_and!; [split; cbn; try done|done|].
  - split; congruence.
  - rewrite Eitems. intros j n [? ?]%lookup_delete_Some. by eapply Hv.
  - rewrite Eitems, Erm. destruct (ks_items (t_nodes t) !! id) as [n|] eqn:E.
    + by apply peers_sound_drop.
    + by rewrite delete_id.
  - rewrite Erm. destruct (ks_items (t_nodes t) !! id) as [n|] eqn:E; [|done]. by apply hashes_sound_node_drop.
  - unfold abs. cbn. by rewrite Eitems, fmap_delete.
Qed.

Lemma getPeerIDForAddr_sound t a id :
  table_inv t → getPeerIDForAddr (t_addrs t) a = Some id →
  id20 id ∧ ∃ n, ks_items (t_nodes t) !! id = Some n ∧ ap_addr (node_Addr n) = a.
Proof.
  intros Hinv. unfold getPeerIDForAddr. destruct (t_addrs t !! a) as [info|] eqn:Ea; [|done].
  unfold ID_IsZero. case_bool_decide as Hz; [done|]. cbn. intros [= <-].
  destruct (inv_peers t Hinv a info Ea Hz) as (n & Hn & Hna). split; [|by exists n].
  apply (law_members (ks_btree (t_nodes t))); [apply inv_nodes, Hinv|].
  apply ks_Some; [by apply inv_nodes|by exists n].
Qed.

Lemma DropAddr_spec t a reason :
  table_inv t →
  ∃ t' ok, DropAddr t a reason = Ok (t', ok) ∧ table_inv t' ∧ t_origin t' = t_origin t ∧
    dir_step (t_origin t) (abs t) (CmdDropAddr a reason) (ResDrop ok) (abs t').
Proof.
  intros Hinv. unfold DropAddr. destruct (getPeerIDForAddr (t_addrs t) a) as [id|] eqn:Ea.
  - apply getPeerIDForAddr_sound in Ea as (Hid & n & Hn & <-); [|done].
    destruct (DropNode_spec t id reason Hinv Hid) as (t' & -> & Hinv' & Eo & Eabs).
    eexists _, _. split; [done|]. split_and!; [done..|]. rewrite Eabs, Hn.
    rewrite bool_decide_true by done. apply dir_drop_addr. cbn. by rewrite lookup_fmap, Hn.
  - exists t, false. split_and!; [done..|constructor].
Qed.

Lemma PutHash_spec now t id peers os :
  table_inv t → id20 id →
  ∃ t' r, PutHash now t id peers os = Ok (t', r) ∧ table_inv t' ∧ t_origin t' = t_origin t ∧
    dir_step (t_origin t) (abs t) (CmdPutHash id peers os) (ResPut r) (abs t').
Proof.
  intros Hinv Hid. pose proof Hinv as [Hn Hh [Eon Eoh] Hv Hp Hah]. unfold PutHash.
  destruct (ks_put_spec now (t_addrs t) (t_hashes t) id peers os Hh Hid) as (rm' & k' & res & -> & Hk' & Eo & Heff).
  cbn [mbind outcome_bind]. eexists _, res. split; [done|].
  remember (ks_items k') as items' eqn:Eitems.
  destruct Heff as [rm' it Hnone Hne Hnew|it rm' it' Hsome Hup|Hnone]; unfold abs; cbn.
  - rewrite hash_apply_nil in Eitems. cbn in Hnew. unfold hash_new in Hnew.
    pose proof (hash_put_peers_peers id peers (t_addrs t) ∅) as Eps.
    pose proof (peers_sound_hash _ _ ∅ id peers Hp) as Hp'.
    pose proof (hashes_sound_hash _ _ ∅ id peers now None Hah) as Hh'. rewrite Hnone in Hh'.
    destruct (hash_put_peers _ _ _ _) as [rm'' ps] eqn:Ep. injection Hnew as <- <-. cbn in Eps, Hp', Hh'. subst ps.
    split_and!; [split; cbn; rewrite <-?Eitems; try done; [split; congruence|by apply Hh']|done|].
    rewrite <-Eitems, fmap_insert. apply (dir_hash_new _ (abs t)); [unfold abs; cbn; by rewrite lookup_fmap, Hnone|congruence].
  - rewrite hash_apply_nil in Eitems. apply (ks_ids _ Hh) in Hsome as Hi. cbn in Hi.
    cbn in Hup. unfold hash_update in Hup. rewrite Hi in Hup.
    pose proof (hash_put_peers_peers id peers (t_addrs t) (hash_peers it)) as Eps.
    pose proof (peers_sound_hash _ _ (hash_peers it) id peers Hp) as Hp'.
    pose proof (hashes_sound_hash _ _ (hash_peers it) id peers (hash_discoveredAt it) (droppedReason it) Hah) as Hh'.
    rewrite Hsome in Hh'.
    destruct (hash_put_peers _ _ _ _) as [rm'' ps] eqn:Ep. injection Hup as <- <-. cbn in Eps, Hp', Hh'. subst ps.
    split_and!; [split; cbn; rewrite <-?Eitems; try done; [split; congruence|by apply Hh']|done|].
    rewrite <-Eitems, fmap_insert. apply (dir_hash_known _ (abs t)). unfold abs. cbn. by rewrite lookup_fmap, Hsome.
  - split_and!; [split; cbn; rewrite <-?Eitems; try done; split; congruence|done|].
    rewrite <-Eitems. apply (dir_hash_full _ (abs t)). unfold abs. cbn. by rewrite lookup_fmap, Hnone.
Qed.

Lemma table_exec_spec now t c :
  table_inv t → command_ok c →
  ∃ t' r, exec now t c = Ok (t', r) ∧ table_inv t' ∧ t_origin t' = t_origin t ∧
    dir_step (t_origin t) (abs t) c r (abs t').
Proof.
  intros Hinv Hc. destruct c as [id addr os|id reason|a reason|id peers os]; cbn [exec command_ok] in *.
  - destruct (PutNode_spec now t id addr os Hinv Hc) as (t' & r & -> & ? & ? & ? & _). by eauto 6.
  - destruct (DropNode_spec t id reason Hinv Hc) as (t' & -> & ? & ? & E). cbn [mbind outcome_bind].
    eexists _, _. split_and!; [done..|]. rewrite E.
    rewrite (bool_decide_ext _ (is_Some (dir_nodes (abs t) !! id))); [apply dir_drop|].
    unfold abs. cbn. by rewrite lookup_fmap, fmap_is_Some.
  - destruct (DropAddr_spec t a reason Hinv) as (t' & ok & -> & ? & ? & ?). by eauto 6.
  - destruct (PutHash_spec now t id peers os Hinv Hc) as (t' & r & -> & ? & ? & ?). by eauto 6.
Qed.

Lemma BatchCommand_spec cs : ∀ t,
  table_inv t → Forall (λ c, command_ok c.2) cs →
  ∃ t' rs, BatchCommand t cs = Ok (t', rs) ∧ table_inv t' ∧ t_origin t' = t_origin t ∧
    dir_run (t_origin t) (abs t) cs rs (abs t').
Proof.
  induction cs as [|[now c] cs IH]; intros t Hinv Hcs.
  - exists t, []. split_and!; [done..|constructor].
  - apply Forall_cons in Hcs as [Hc Hcs]. cbn [BatchCommand].
    destruct (table_exec_spec now t c Hinv Hc) as (t1 & r & -> & Hinv1 & Eo1 & Hstep). cbn [mbind outcome_bind].
    destruct (IH t1 Hinv1 Hcs) as (t2 & rs & -> & Hinv2 & Eo2 & Hrun). cbn [mbind outcome_bind].
    eexists _, _. split_and!; [done..|congruence|]. rewrite Eo1 in Hrun. by econstructor.
Qed.

Lemma table_reachable_inv origin t : reachable origin t → table_inv t ∧ t_origin t = origin.
Proof.
  intros (Ho & cs & rs & Hcs & E).
  destruct (BatchCommand_spec cs (newTable origin) (newTable_inv origin Ho) Hcs) as (t' & rs' & E' & Hinv & Eo & _).
  rewrite E in E'. by injection E' as <- <-.
Qed.

(** *** Sampling *)

(** A range over the map in any order visits every item once. *)
Definition map_order {Item} (k : keyspace tree Item) (order : list ID) : Prop :=
  order ≡ₚ elements (dom (ks_items k)).

Lemma elem_of_range_items {Item} (k : keyspace tree Item) order it :
  map_order k order → it ∈ range_items k order ↔ ∃ id, ks_items k !! id = Some it.
Proof.
  intros ->%range_items_perm. rewrite list_elem_of_fmap. split.
  - intros ([id x] & -> & H%elem_of_map_to_list). by exists id.
  - intros [id H]. exists (id, it). split; [done|]. by apply elem_of_map_to_list.
Qed.

Lemma length_range_items {Item} (k : keyspace tree Item) order :
  map_order k order → length (range_items k order) = size (ks_items k).
Proof. intros ->%range_items_perm. by rewrite length_fmap, length_map_to_list. Qed.

Lemma ks_getRandom_spec {Item} (k : keyspace tree Item) order (n : Z) :
  map_order k order → (0 ≤ n)%Z → ks_getRandom k order n = Ok (take (Z.to_nat n) (range_items k order)).
Proof.
  intros Ho Hn. unfold ks_getRandom. pose proof (length_range_items k order Ho) as Hl.
  destruct (Z.ltb_spec (Z.of_nat (size (ks_items k))) n); rewrite (proj2 (Z.ltb_ge _ 0)) by lia; [|done].
  by rewrite !take_ge by lia.
Qed.

Lemma range_items_NoDup (k : keyspace tree node) order :
  ks_inv k → map_order k order → NoDup (node_ID <$> range_items k order).
Proof.
  intros Hinv ->%range_items_perm. rewrite <-list_fmap_compose.
  assert (Hext : ((node_ID ∘ snd) <$> map_to_list (ks_items k)) = (map_to_list (ks_items k)).*1).
  { apply list_fmap_ext. intros i [id n] H. cbn. apply list_elem_of_lookup_2, elem_of_map_to_list in H.
    by apply (ks_ids k Hinv). }
  rewrite Hext. apply NoDup_fst_map_to_list.
Qed.

Lemma getCandidates_loop_spec now n its : ∀ acc,
  (n ≤ 0 ∨ Z.of_nat (length acc) < n)%Z →
  getCandidates_loop now n acc its =
    acc ++ let cs := filter (λ it, Is_true (IsSampleInfoHashesCandidate now it)) its in
           if (0 <? n)%Z then take (Z.to_nat n - length acc) cs else cs.
Proof.
  induction its as [|it its IH]; intros acc Hacc; cbn -[filter].
  - rewrite filter_nil. destruct (0 <? n)%Z; by rewrite ?take_nil, app_nil_r.
  - rewrite filter_cons. destruct (IsSampleInfoHashesCandidate now it) eqn:Ec; cbn -[filter].
    + rewrite length_app. cbn [length]. destruct (Z.eqb_spec (Z.of_nat (length acc + 1)) n) as [Hn|Hn].
      * rewrite (proj2 (Z.ltb_lt _ _)) by lia. replace (Z.to_nat n - length acc) with 1 by lia. done.
      * rewrite IH by (rewrite length_app; cbn; lia). rewrite length_app. cbn -[filter].
        rewrite <-app_assoc. cbn [app]. destruct (Z.ltb_spec 0 n); [|done].
        replace (Z.to_nat n - length acc) with (S (Z.to_nat n - (length acc + 1))) by lia. done.
    + by apply IH.
Qed.

Lemma sample_nodes_loop_spec n ps : ∀ acc,
  (Z.of_nat (length acc) < Z.max 1 n)%Z →
  sample_nodes_loop n acc ps = acc ++ take (Z.to_nat (Z.max 1 n) - length acc) ps.
Proof.
  induction ps as [|p ps IH]; intros acc Hacc; cbn; [by rewrite take_nil, app_nil_r|].
  rewrite length_app. cbn [length]. destruct (Z.leb_spec n (Z.of_nat (length acc + 1))).
  - replace (Z.to_nat (Z.max 1 n) - length acc) with 1 by lia. done.
  - rewrite IH by (rewrite length_app; cbn; lia). rewrite length_app, <-app_assoc. cbn [length app].
    replace (Z.to_nat (Z.max 1 n) - length acc) with (S (Z.to_nat (Z.max 1 n) - (length acc + 1))) by lia. done.
Qed.

(** [GetNodesForSampleInfoHashes]: the first eligible nodes; a limit of zero
    counts as one. *)
Lemma GetNodesForSample_spec now t order n :
  (0 ≤ n)%Z →
  GetNodesForSampleInfoHashes now t order n =
    Ok (take (Z.to_nat (Z.max 1 n))
          (filter (λ it, Is_true (IsSampleInfoHashesCandidate now it)) (range_items (t_nodes t) order))).
Proof.
  intros Hn. unfold GetNodesForSampleInfoHashes. rewrite (proj2 (Z.ltb_ge _ _)) by lia.
  rewrite sample_nodes_loop_spec by (cbn; lia). unfold getCandidatesForSampleInfoHashes.
  rewrite getCandidates_loop_spec by (cbn; lia). cbn -[filter]. f_equal. rewrite Nat.sub_0_r.
  destruct (Z.ltb_spec 0 n); [|done]. rewrite take_take. f_equal. lia.
Qed.

Lemma all_valid_snapshot t (ns : list node) :
  table_inv t → (∀ n, n ∈ ns → ∃ id, ks_items (t_nodes t) !! id = Some n) →
  filter (λ a, Is_true (AddrPort_IsValid a)) (node_Addr <$> ns) = node_Addr <$> ns.
Proof.
  intros Hinv Hns. apply list_filter_all. intros a (n & -> & Hn)%list_elem_of_fmap.
  destruct (Hns n Hn) as [id Hid]. by rewrite (inv_valid t Hinv id n Hid).
Qed.

(** ** The theorems *)

(** C2: the routing table implements a directory.  From a new table any
    sequence of commands runs to its end without a panic, every result is one
    the directory of node addresses and hash peers allows, and the table at
    the end stands for the directory at the end. *)
Theorem ktable_refines_directory origin cs :
  id20 origin → Forall (λ c, command_ok c.2) cs →
  ∃ t rs, BatchCommand (newTable origin) cs = Ok (t, rs) ∧
    dir_run origin (Directory ∅ ∅) cs rs (abs t).
Proof.
  intros Ho Hcs.
  destruct (BatchCommand_spec cs (newTable origin) (newTable_inv origin Ho) Hcs) as (t & rs & E & _ & _ & Hrun).
  exists t, rs. split; [done|]. unfold abs in Hrun at 1. cbn in Hrun. by rewrite !fmap_empty in Hrun.
Qed.

(** C29: on a reachable table the indexes agree: an address that the reverse
    map attributes to a node is the address of that stored node, a hash listed
    under an address is stored and has a peer there, every stored node has a
    valid address, and both gauges equal the number of stored items. *)
Theorem ktable_index_sound origin t :
  reachable origin t →
  (∀ a id, getPeerIDForAddr (t_addrs t) a = Some id →
     ∃ n, ks_items (t_nodes t) !! id = Some n ∧ node_ID n = id ∧ ap_addr (node_Addr n) = a) ∧
  (∀ a info h, t_addrs t !! a = Some info → h ∈ info_hashes info →
     ∃ it, ks_items (t_hashes t) !! h = Some it ∧ is_Some (hash_peers it !! a)) ∧
  (∀ id n, ks_items (t_nodes t) !! id = Some n → AddrPort_IsValid (node_Addr n) = true) ∧
  CountGauge (ks_btree (t_nodes t)) = Z.of_nat (ks_count (t_nodes t)) ∧
  CountGauge (ks_btree (t_hashes t)) = Z.of_nat (ks_count (t_hashes t)).
Proof.
  intros (Hinv & _)%table_reachable_inv. split_and!.
  - intros a id Ha. apply getPeerIDForAddr_sound in Ha as (_ & n & Hn & E); [|done].
    exists n. split_and!; [done| |done]. by apply (ks_ids _ (inv_nodes t Hinv)).
  - apply Hinv.
  - apply Hinv.
  - unfold ks_count. rewrite <-size_dom, (ks_dom _ (inv_nodes t Hinv)).
    apply (ks_tree _ (inv_nodes t Hinv)).
  - unfold ks_count. rewrite <-size_dom, (ks_dom _ (inv_hashes t Hinv)).
    apply (ks_tree _ (inv_hashes t Hinv)).
Qed.

(** a node that was just accepted is not indexed by address: after the
    first [PutNode] of an identifier [FilterKnownAddrs] and [DropAddr] see the
    addresses they saw before.  Only a second [PutNode] enters it. *)
Theorem ktable_new_node_not_indexed origin t now id addr os t' :
  reachable origin t → id20 id → id ≠ ID_zero →
  PutNode now t id addr os = Ok (t', PutAccepted) →
  (∀ addrs, FilterKnownAddrs t' addrs = FilterKnownAddrs t addrs) ∧
  (∀ a, getPeerIDForAddr (t_addrs t') a = getPeerIDForAddr (t_addrs t) a) ∧
  ∃ t'', PutNode now t' id addr [] = Ok (t'', PutAlreadyExists) ∧
    getPeerIDForAddr (t_addrs t'') (ap_addr addr) = Some id ∧ FilterKnownAddrs t'' [ap_addr addr] = [].
Proof.
  intros (Hinv & _)%table_reachable_inv Hid Hz Hput.
  destruct (PutNode_spec now t id addr os Hinv Hid) as (t1 & r & E & Hinv' & _ & Hstep & Hrm).
  rewrite Hput in E. injection E as <- <-. specialize (Hrm eq_refl).
  split_and!; [intros addrs; unfold FilterKnownAddrs; by rewrite Hrm|intros a; by rewrite Hrm|].
  apply dir_put_new_inv in Hstep as [Hval Eabs].
  assert (Hs : is_Some (ks_items (t_nodes t') !! id)).
  { unfold abs in Eabs at 1. cbn in Eabs. by rewrite <-(fmap_is_Some node_Addr), <-lookup_fmap, Eabs, lookup_insert_eq. }
  unfold PutNode. rewrite Hval. cbn [negb].
  destruct (ks_put_spec now (t_addrs t') (t_nodes t') id addr [] (inv_nodes t' Hinv') Hid)
    as (rm' & k' & res & -> & _ & _ & Heff). cbn [mbind outcome_bind].
  inversion Heff as [? ? Hnone|it ? it' Hsome [= <- <-]|Hnone]; subst;
    [by rewrite Hnone in Hs; apply is_Some_None in Hs| |by rewrite Hnone in Hs; apply is_Some_None in Hs].
  apply (ks_ids _ (inv_nodes t' Hinv')) in Hsome as Hi. cbn in Hi.
  assert (Hl : ∀ rm, putAddrPeerID rm (ap_addr addr) (node_ID (node_with_addr it addr)) !! ap_addr addr
    = Some (InfoForAddr id (from_option info_hashes ∅ (rm !! ap_addr addr)))).
  { intros rm. rewrite putAddrPeerID_lookup, decide_True by done. by rewrite <-Hi. }
  eexists. split; [done|]. unfold getPeerIDForAddr, FilterKnownAddrs. rewrite filter_cons, filter_nil. cbn [t_addrs].
  rewrite !Hl, (decide_False (P := Some _ = None)) by done. unfold ID_IsZero. cbn [peerID].
  by rewrite bool_decide_false.
Qed.

(** [GetClosestNodes] answers with the node itself when it is stored, and
    otherwise with at most eight stored nodes, none twice, such that no stored
    node that was left out shares a longer prefix with the target than a
    returned one; no entry is nil. *)
Theorem ktable_closest origin t id :
  reachable origin t → id20 id →
  (∃ n, ks_items (t_nodes t) !! id = Some n ∧ GetClosestNodes t id = Ok [Some n]) ∨
  (∃ ns, GetClosestNodes t id = Ok (Some <$> ns) ∧
     (∀ n, n ∈ ns → ks_items (t_nodes t) !! node_ID n = Some n) ∧
     closest_answer (dom (ks_items (t_nodes t))) id 8 (node_ID <$> ns)).
Proof.
  intros (Hinv & _)%table_reachable_inv Hid.
  pose proof (ks_getClosest_spec (t_nodes t) id (inv_nodes t Hinv) Hid) as H. unfold GetClosestNodes.
  destruct (ks_items (t_nodes t) !! id) as [n|]; [left; by exists n|right]. exact H.
Qed.

(** [GetOldestNodes] returns stored nodes that responded before the
    cutoff, oldest first; with a positive limit it returns as many as the
    limit allows, and a qualifying node that was left out is not older than a
    returned one. *)
Theorem ktable_oldest origin t order cutoff n :
  reachable origin t → map_order (t_nodes t) order →
  let res := GetOldestNodes t order cutoff n in
  Sorted not_after res ∧
  (∀ m, m ∈ res → (∃ id, ks_items (t_nodes t) !! id = Some m) ∧ (lastRespondedAt m < cutoff)%Z) ∧
  ((0 < n)%Z → (Z.of_nat (length res) ≤ n)%Z) ∧
  (∀ id m x, ks_items (t_nodes t) !! id = Some m → (lastRespondedAt m < cutoff)%Z → m ∉ res → x ∈ res →
     not_after x m ∧ Z.of_nat (length res) = n).
Proof.
  intros (Hinv & _)%table_reachable_inv Hord res.
  set (all := merge_sort not_after (getLastRespondedBefore (t_nodes t) order cutoff)).
  assert (Hs : Sorted not_after all) by apply Sorted_merge_sort, _.
  assert (Hp : ∀ m, m ∈ all ↔ (∃ id, ks_items (t_nodes t) !! id = Some m) ∧ (lastRespondedAt m < cutoff)%Z).
  { intros m. unfold all. rewrite merge_sort_Permutation. unfold getLastRespondedBefore.
    rewrite list_elem_of_filter, elem_of_range_items by done. unfold Before. rewrite Is_true_true, Z.ltb_lt. tauto. }
  assert (Hres : (res = all ∧ (0 < n → Z.of_nat (length all) ≤ n)%Z) ∨
    (res = take (Z.to_nat n) all ∧ (0 < n < Z.of_nat (length all))%Z)).
  { unfold res, GetOldestNodes. fold all. destruct (0 <? n)%Z eqn:E1; [|left; bool_hyps; split; [done|lia]].
    destruct (n <? Z.of_nat (length all))%Z eqn:E2; bool_hyps; [by right|left; split; [done|lia]]. }
  clearbody all res. destruct Hres as [[-> Hn]|[-> Hn]].
  - split_and!; [done|by apply Hp|done|].
    intros id m x Hm Hc Hnin. destruct Hnin. apply Hp. by eauto.
  - split_and!.
    + rewrite <-(take_drop (Z.to_nat n) all) in Hs. apply StronglySorted_Sorted.
      by eapply StronglySorted_app_1_l, Sorted_StronglySorted; [apply _|].
    + intros m Hm%subseteq_take. by apply Hp.
    + rewrite length_take. lia.
    + intros id m x Hm Hc Hnin Hx. rewrite length_take. split; [|lia].
      eapply (Btree.take_sorted not_after all); [by apply Sorted_StronglySorted; [apply _|]|done| |done].
      apply Hp. by eauto.
Qed.

(** sampling.  [SampleHashesAndNodes] gives up to 20 hashes and fills up
    with nodes to 40 items, with the true number of hashes;
    [SnapshotNodeAddrs] gives the addresses of as many distinct stored nodes
    as the limit allows; [GetNodesForSampleInfoHashes] gives the first
    eligible nodes up to the limit, where a limit of zero counts as one. *)
Theorem ktable_samples origin t horder norder limit now :
  reachable origin t → map_order (t_hashes t) horder → map_order (t_nodes t) norder → (0 ≤ limit)%Z →
  (∃ r, SampleHashesAndNodes t horder norder = Ok r ∧
     length (sr_Hashes r) = 20 `min` ks_count (t_hashes t) ∧
     length (sr_Nodes r) = (40 - length (sr_Hashes r)) `min` ks_count (t_nodes t) ∧
     NoDup (node_ID <$> sr_Nodes r) ∧ TotalHashes r = ks_count (t_hashes t)) ∧
  (∃ ns : list node, SnapshotNodeAddrs t norder limit = Ok (node_Addr <$> ns) ∧ NoDup (node_ID <$> ns) ∧
     (∀ n, n ∈ ns → ∃ id, ks_items (t_nodes t) !! id = Some n) ∧
     length ns = Z.to_nat limit `min` ks_count (t_nodes t)) ∧
  (∃ ns, GetNodesForSampleInfoHashes now t norder limit = Ok ns ∧ NoDup (node_ID <$> ns) ∧
     length ns ≤ Z.to_nat (Z.max 1 limit) ∧
     ∀ n, n ∈ ns → IsSampleInfoHashesCandidate now n = true ∧ ∃ id, ks_items (t_nodes t) !! id = Some n).
Proof.
  intros (Hinv & _)%table_reachable_inv Hh Hn Hl.
  pose proof (range_items_NoDup _ _ (inv_nodes t Hinv) Hn) as Hnd.
  pose proof (length_range_items _ _ Hh) as Hlh. pose proof (length_range_items _ _ Hn) as Hln.
  assert (Hin : ∀ m n, n ∈ take m (range_items (t_nodes t) norder) → ∃ id, ks_items (t_nodes t) !! id = Some n)
    by (intros m n H%subseteq_take; by apply elem_of_range_items in H).
  split_and!.
  - unfold SampleHashesAndNodes. rewrite ks_getRandom_spec by (done || lia). cbn [mbind outcome_bind].
    rewrite ks_getRandom_spec by (done || rewrite length_take; lia). cbn [mbind outcome_bind].
    eexists. split; [done|]. cbn [sr_Hashes sr_Nodes TotalHashes]. unfold ks_count. rewrite !length_take.
    split_and!; [lia|lia| |done]. rewrite fmap_take. by eapply sublist_NoDup, sublist_take.
  - unfold SnapshotNodeAddrs. destruct (Z.leb_spec limit 0).
    + exists []. split_and!; [done|constructor|by intros n ?%not_elem_of_nil|]. cbn. lia.
    + rewrite ks_getRandom_spec by (done || lia). cbn [mbind outcome_bind].
      exists (take (Z.to_nat limit) (range_items (t_nodes t) norder)).
      rewrite (all_valid_snapshot t) by (done || apply Hin). split_and!; [done| |apply Hin|].
      * rewrite fmap_take. by eapply sublist_NoDup, sublist_take.
      * unfold ks_count. rewrite length_take. lia.
  - rewrite GetNodesForSample_spec by done. eexists. split; [done|]. split_and!.
    + eapply sublist_NoDup; [done|]. apply fmap_sublist. etrans; [apply sublist_take|apply sublist_filter].
    + rewrite length_take. lia.
    + intros n [Hc Hn']%subseteq_take%list_elem_of_filter. split; [by apply Is_true_true|].
      by apply elem_of_range_items in Hn'.
Qed.

(** ** Examples *)

Definition ex_id (n : Z) : ID := n :: replicate 19 0%Z.
Definition ex_addr (n : Z) : AddrPort := AddrPortFrom (AddrV4 [10; 0; 0; n]%Z) 6881.

(** A node put twice, a node put once, a hash with two peers, a node dropped
    by address, an invalid address. *)
Definition ex_commands : list (Time * Command) :=
  [(1, CmdPutNode (ex_id 3) (ex_addr 3) []);
   (2, CmdPutNode (ex_id 3) (ex_addr 4) [NodeResponded]);
   (3, CmdPutNode (ex_id 7) (ex_addr 7) [NodeResponded]);
   (4, CmdPutHash (ex_id 9) [ex_addr 4; ex_addr 8] []);
   (5, CmdPutNode (ex_id 5) (AddrPortFrom AddrInvalid 0) []);
   (6, CmdPutNode (ex_id 12) (ex_addr 12) []);
   (7, CmdPutNode (ex_id 12) (ex_addr 12) []);
   (8, CmdDropAddr (AddrV4 [10; 0; 0; 12]) None);
   (9, CmdDropAddr (AddrV4 [10; 0; 0; 7]) None)]%Z.

Definition ex_table : table :=
  match BatchCommand (newTable (ex_id 0)) ex_commands with Ok (t, _) => t | _ => newTable (ex_id 0) end.

Lemma ex_tid_ok n : (0 ≤ n < 256)%Z → id20 (ex_id n).
Proof. intros Hn. split; [done|]. repeat constructor; unfold byte_ok; lia. Defined.

Lemma ex_commands_ok : Forall (λ c, command_ok c.2) ex_commands.
Proof. repeat (apply Forall_cons_2; [first [exact I|apply ex_tid_ok; lia]|]). apply Forall_nil_2. Defined.

Lemma ex_results :
  ∃ t, BatchCommand (newTable (ex_id 0)) ex_commands =
    Ok (t, [ResPut PutAccepted; ResPut PutAlreadyExists; ResPut PutAccepted; ResPut PutAccepted;
            ResPut PutRejected; ResPut PutAccepted; ResPut PutAlreadyExists; ResDrop true; ResDrop false]).
Proof. eexists. vm_compute. reflexivity. Qed.

Lemma ex_reachable : reachable (ex_id 0) ex_table.
Proof.
  split; [apply ex_tid_ok; lia|]. eexists ex_commands, _. split; [apply ex_commands_ok|].
  vm_compute. reflexivity.
Defined.

Lemma ktable_refines_directory_witness :
  ∃ t rs, BatchCommand (newTable (ex_id 0)) ex_commands = Ok (t, rs) ∧
    dir_run (ex_id 0) (Directory ∅ ∅) ex_commands rs (abs t).
Proof. apply (ktable_refines_directory (ex_id 0) ex_commands); [apply ex_tid_ok; lia|apply ex_commands_ok]. Defined.

Lemma ktable_index_sound_witness :
  getPeerIDForAddr (t_addrs ex_table) (AddrV4 [10; 0; 0; 4]%Z) = Some (ex_id 3) ∧
  ∃ n, ks_items (t_nodes ex_table) !! ex_id 3 = Some n ∧ node_ID n = ex_id 3 ∧
    ap_addr (node_Addr n) = AddrV4 [10; 0; 0; 4]%Z.
Proof.
  split; [vm_compute; reflexivity|].
  apply (proj1 (ktable_index_sound (ex_id 0) ex_table ex_reachable)). vm_compute. reflexivity.
Defined.

Lemma ktable_new_node_not_indexed_witness :
  ∃ t', PutNode 10 ex_table (ex_id 20) (ex_addr 20) [] = Ok (t', PutAccepted) ∧
    FilterKnownAddrs t' [AddrV4 [10; 0; 0; 20]%Z] = FilterKnownAddrs ex_table [AddrV4 [10; 0; 0; 20]%Z].
Proof.
  eexists. split; [vm_compute; reflexivity|].
  apply (ktable_new_node_not_indexed (ex_id 0) ex_table 10 (ex_id 20) (ex_addr 20) []);
    [apply ex_reachable|apply ex_tid_ok; lia|discriminate|vm_compute; reflexivity].
Defined.

Lemma ktable_closest_witness :
  (∃ n, ks_items (t_nodes ex_table) !! ex_id 99 = Some n ∧ GetClosestNodes ex_table (ex_id 99) = Ok [Some n]) ∨
  (∃ ns, GetClosestNodes ex_table (ex_id 99) = Ok (Some <$> ns) ∧
     (∀ n, n ∈ ns → ks_items (t_nodes ex_table) !! node_ID n = Some n) ∧
     closest_answer (dom (ks_items (t_nodes ex_table))) (ex_id 99) 8 (node_ID <$> ns)).
Proof. apply (ktable_closest (ex_id 0) ex_table (ex_id 99)); [apply ex_reachable|apply ex_tid_ok; lia]. Defined.

Lemma ktable_oldest_witness :
  Sorted not_after
    (GetOldestNodes ex_table (elements (dom (ks_items (t_nodes ex_table)))) 100 1).
Proof.
  apply (ktable_oldest (ex_id 0) ex_table (elements (dom (ks_items (t_nodes ex_table)))) 100 1);
    [apply ex_reachable|unfold map_order; reflexivity].
Defined.

Lemma ktable_samples_witness :
  ∃ r, SampleHashesAndNodes ex_table (elements (dom (ks_items (t_hashes ex_table))))
         (elements (dom (ks_items (t_nodes ex_table)))) = Ok r ∧
    length (sr_Hashes r) = 20 `min` ks_count (t_hashes ex_table) ∧
    length (sr_Nodes r) = (40 - length (sr_Hashes r)) `min` ks_count (t_nodes ex_table) ∧
    NoDup (node_ID <$> sr_Nodes r) ∧ TotalHashes r = ks_count (t_hashes ex_table).
Proof.
  apply (ktable_samples (ex_id 0) ex_table (elements (dom (ks_items (t_hashes ex_table))))
           (elements (dom (ks_items (t_nodes ex_table)))) 1 0);
    [apply ex_reachable|unfold map_order; reflexivity..|lia].
Defined.

End KTable.
