(* ===== verification/TableIface.v ===== *)
(** * The table interface

    What [ktable.Table] promises to the DHT responder: queries answered from
    the directory of known nodes and hashes, commands that do the steps of
    the directory.  The routing table of [KTable.v] is an instance. *)
From S2P Require Import Prelude Net Protocol Btree BtreeIface KTable.
From stdpp Require Import gmap list.
From Stdlib Require Import ZArith Lia.

Module TableIface.
Import Net Protocol BtreeIface KTable.

(** The methods the responder calls. *)
Class Table (T : Type) := {
  T_Origin : T → ID;
  T_GetClosestNodes : T → ID → go (list (option node));
  T_GetHashOrClosestNodes : T → ID → go GetHashOrClosestNodesResult;
  T_SampleHashesAndNodes : T → list ID → list ID → go SampleHashesAndNodesResult;
  T_BatchCommand : T → list (Time * Command) → go (T * list Result)
}.

(** Nodes as the directory knows them. *)
Definition known_nodes (d : directory) (ns : list node) : Prop :=
  ∀ n, n ∈ ns → dir_nodes d !! node_ID n = Some (node_Addr n).

Class TableLaws (T : Type) `{Table T} := {
  T_inv : T → Prop;
  T_abs : T → directory;
  (** the orders in which a range over the hashes and the nodes may go *)
  T_orders : T → list ID → list ID → Prop;
  law_T_closest t id :
    T_inv t → id20 id →
    ∃ ns, T_GetClosestNodes t id = Ok (Some <$> ns) ∧ length ns ≤ 8 ∧ known_nodes (T_abs t) ns;
  law_T_hash t id :
    T_inv t → id20 id →
    match dir_hashes (T_abs t) !! id with
    | Some ps => ∃ h, T_GetHashOrClosestNodes t id = Ok (HashFound h) ∧ hash_peers h = ps
    | None => ∃ ns, T_GetHashOrClosestNodes t id = Ok (HashClosest (Some <$> ns)) ∧
        length ns ≤ 8 ∧ known_nodes (T_abs t) ns
    end;
  law_T_sample t horder norder :
    T_inv t → T_orders t horder norder →
    ∃ r, T_SampleHashesAndNodes t horder norder = Ok r ∧ length (sr_Hashes r) ≤ 20 ∧
      length (sr_Hashes r) + length (sr_Nodes r) ≤ 40 ∧ known_nodes (T_abs t) (sr_Nodes r) ∧
      (∀ h, h ∈ sr_Hashes r → is_Some (dir_hashes (T_abs t) !! hash_id h)) ∧
      TotalHashes r = size (dir_hashes (T_abs t));
  law_T_batch t cs :
    T_inv t → Forall (λ c, command_ok c.2) cs →
    ∃ t' rs, T_BatchCommand t cs = Ok (t', rs) ∧ T_inv t' ∧ T_Origin t' = T_Origin t ∧
      dir_run (T_Origin t) (T_abs t) cs rs (T_abs t')
}.

(** ** The routing table *)

#[export] Instance table_ops : Table table := {
  T_Origin := t_origin;
  T_GetClosestNodes := GetClosestNodes;
  T_GetHashOrClosestNodes := GetHashOrClosestNodes;
  T_SampleHashesAndNodes := SampleHashesAndNodes;
  T_BatchCommand := BatchCommand
}.

Lemma node_filed t id n : table_inv t → ks_items (t_nodes t) !! id = Some n → node_ID n = id.
Proof. intros Hinv. apply (ks_ids _ (inv_nodes t Hinv)). Qed.

Lemma stored_known t ns :
  (∀ n, n ∈ ns → ks_items (t_nodes t) !! node_ID n = Some n) → known_nodes (abs t) ns.
Proof. intros Hns n Hn. cbn. by rewrite lookup_fmap, (Hns n Hn). Qed.

Lemma closest_known t id :
  table_inv t → id20 id →
  ∃ ns, GetClosestNodes t id = Ok (Some <$> ns) ∧ length ns ≤ 8 ∧ known_nodes (abs t) ns.
Proof.
  intros Hinv Hid. pose proof (ks_getClosest_spec (t_nodes t) id (inv_nodes t Hinv) Hid) as H.
  unfold GetClosestNodes. destruct (ks_items (t_nodes t) !! id) as [n|] eqn:E.
  - exists [n]. split_and!; [done|cbn; lia|]. apply stored_known. intros m ->%list_elem_of_singleton.
    by rewrite (node_filed t id n Hinv E).
  - destruct H as (ns & Ens & Hns & _ & Hlen & _). exists ns. split_and!; [done| |by apply stored_known].
    rewrite length_fmap in Hlen. lia.
Qed.

#[export] Program Instance table_laws : TableLaws table := {
  T_inv := table_inv;
  T_abs := abs;
  T_orders t horder norder := map_order (t_hashes t) horder ∧ map_order (t_nodes t) norder
}.
Next Obligation. intros t id. apply closest_known. Qed.
Next Obligation.
  intros t id Hinv Hid. cbn. unfold GetHashOrClosestNodes, ks_get. rewrite lookup_fmap.
  destruct (ks_items (t_hashes t) !! id) as [h|]; cbn; [by exists h|].
  destruct (closest_known t id Hinv Hid) as (ns & E & ? & ?). unfold GetClosestNodes in E. rewrite E.
  by exists ns.
Qed.
Next Obligation.
  intros t horder norder Hinv [Hh Hn]. cbn. unfold SampleHashesAndNodes.
  rewrite ks_getRandom_spec by (done || lia). cbn [mbind outcome_bind].
  rewrite ks_getRandom_spec by (done || rewrite length_take; lia). cbn [mbind outcome_bind].
  eexists. split; [done|]. cbn [sr_Hashes sr_Nodes TotalHashes]. split_and!.
  - rewrite length_take. lia.
  - rewrite !length_take. lia.
  - apply stored_known. intros n Hin%subseteq_take. apply elem_of_range_items in Hin as [id Hin]; [|done].
    by rewrite (node_filed t id n Hinv Hin).
  - intros h Hin%subseteq_take. apply elem_of_range_items in Hin as [id Hin]; [|done].
    rewrite lookup_fmap, fmap_is_Some. pose proof (ks_ids _ (inv_hashes t Hinv) id h Hin) as E. cbn in E.
    rewrite E. by exists h.
  - unfold ks_count. by rewrite map_size_fmap.
Qed.
Next Obligation.
  intros t cs Hinv Hcs. destruct (BatchCommand_spec cs t Hinv Hcs) as (t' & rs & ? & ? & ? & ?). by exists t', rs.
Qed.

End TableIface.
