(* ===== verification/Responder.v ===== *)
(** * The DHT responder

    [internal/protocol/dht/responder]: the handler of incoming queries over
    the table interface, the rate limiter in front of it and the wrapper that
    reports new nodes.  On an error the returned values are ignored by every
    caller, so an error carries no values here and leaves the table alone. *)
From S2P Require Import Prelude Net Protocol MD5 Wire Btree BtreeIface KTable TableIface.
From stdpp Require Import gmap list strings.
From Stdlib Require Import ZArith Lia.

Module Responder.
Import Net Protocol Wire KTable TableIface.

(** ** The responder (responder.go) *)

Record responder := mkResponder {
  nodeID : ID;
  tokenSecret : bytes;
  sampleInfoHashesInterval : Z
}.

Definition ErrMissingArguments : Error := mkError ErrorCodeProtocolError "missing arguments".
Definition ErrInvalidToken : Error := mkError ErrorCodeProtocolError "invalid token".
Definition ErrMethodUnknown : Error := mkError ErrorCodeMethodUnknown "method Unknown".
Definition ErrTooManyRequests : Error := mkError ErrorCodeGenericError "too many requests".

Definition announceToken (r : responder) (infoHash id : ID) (nodeAddr : Addr) : string :=
  let b := tokenSecret r ++ nodeID r ++ infoHash ++ id ++ string_bytes (Addr_String nodeAddr) in
  hex_encode (MD5.Sum b).

(** Reading the fields of a nil node panics. *)
Definition nodeInfoFromNode {E} (n : option node) : outcome E NodeInfo :=
  n ← of_option n;
  Ok (mkNodeInfo (node_ID n) (NewNodeAddrFromAddrPort (node_Addr n))).

Fixpoint nodeInfosFromNodes {E} (ns : list (option node)) : outcome E (list NodeInfo) :=
  match ns with
  | [] => Ok []
  | n :: ns => i ← nodeInfoFromNode n; l ← nodeInfosFromNodes ns; Ok (i :: l)
  end.

(** The order in which ranges over the maps of the table go. *)
Record orders := mkOrders {
  peer_order : hash → list Addr;
  hash_order : list ID;
  node_order : list ID
}.

Definition empty_Return (id : ID) : Return := mkReturn id [] [] None [] None None None None None.

Section respond.
Context {T : Type} `{Table T}.

Definition Respond (r : responder) (ord : orders) (now : Time) (t : T) (msg : RecvMsg)
    : outcome Error (T * Return) :=
  match msg_A (rm_Msg msg) with
  | None => Err ErrMissingArguments
  | Some args =>
    let q := msg_Q (rm_Msg msg) in
    if decide (q = QPing) then Ok (t, empty_Return (nodeID r))
    else if decide (q = QFindNode) then
      if decide (arg_Target args = ID_zero) then Err ErrMissingArguments
      else
        closestNodes ← lift_go (T_GetClosestNodes t (arg_Target args));
        nodes ← nodeInfosFromNodes closestNodes;
        Ok (t, mkReturn (nodeID r) nodes [] None [] None None None None None)
    else if decide (q = QGetPeers) then
      if decide (arg_InfoHash args = ID_zero) then Err ErrMissingArguments
      else
        result ← lift_go (T_GetHashOrClosestNodes t (arg_InfoHash args));
        let token := announceToken r (arg_InfoHash args) (arg_ID args) (ap_addr (rm_From msg)) in
        match result with
        | HashFound h =>
          let values := NewNodeAddrFromAddrPort <$> hash_Peers h (peer_order ord h) in
          Ok (t, mkReturn (nodeID r) [] [] (Some token) values None None None None None)
        | HashClosest closest =>
          nodes ← nodeInfosFromNodes closest;
          Ok (t, mkReturn (nodeID r) nodes [] (Some token) [] None None None None None)
        end
    else if decide (q = QAnnouncePeer) then
      if decide (arg_InfoHash args = ID_zero) then Err ErrMissingArguments
      else if decide (arg_Token args ≠ announceToken r (arg_InfoHash args) (arg_ID args) (ap_addr (rm_From msg)))
      then Err ErrInvalidToken
      else
        '(t, _) ← lift_go (T_BatchCommand t
          [(now, CmdPutHash (arg_InfoHash args)
                   [AddrPortFrom (ap_addr (rm_From msg)) (AnnouncePort msg)] [])]);
        Ok (t, empty_Return (nodeID r))
    else if decide (q = QSampleInfohashes) then
      result ← lift_go (T_SampleHashesAndNodes t (hash_order ord) (node_order ord));
      nodes ← nodeInfosFromNodes (Some <$> sr_Nodes result);
      Ok (t, mkReturn (nodeID r) nodes [] None [] None None (Some (sampleInfoHashesInterval r))
               (Some (Z.of_nat (TotalHashes result))) (Some (hash_id <$> sr_Hashes result)))
    else Err ErrMethodUnknown
  end.

End respond.

(** ** Rate limiting and node discovery (limiter.go, node_discovery.go)

    The token buckets are those of [golang.org/x/time/rate] and of the keyed
    limiter over it; each is a state with its [Allow]. *)
Section pipeline.
Context {T : Type} `{Table T}.
Context {K R : Type} (keyed_Allow : Time → K → string → K * bool) (rate_Allow : Time → R → R * bool).

(** [limiter.Allow]: the overall bucket is asked only when the one of the
    address agrees. *)
Definition Allow (now : Time) (l : K * R) (addr : Addr) : K * R * bool :=
  let '(k, ok) := keyed_Allow now l.1 (Addr_String addr) in
  if ok : bool then let '(r, ok) := rate_Allow now l.2 in (k, r, ok) else (k, l.2, false).

Definition limiter_Respond (r : responder) (ord : orders) (now : Time) (l : K * R) (t : T) (msg : RecvMsg)
    : (K * R) * outcome Error (T * Return) :=
  let '(l, ok) := Allow now l (ap_addr (rm_From msg)) in
  if negb ok then (l, Err ErrTooManyRequests) else (l, Respond r ord now t msg).

(** [responderNodeDiscovery.Respond]: the node offered to the channel of
    discovered nodes; [msg.Msg.A.ID] is read from a pointer. *)
Definition discovery_Respond (r : responder) (ord : orders) (now : Time) (l : K * R) (t : T) (msg : RecvMsg)
    : (K * R) * outcome Error (T * Return * option nodeBase) :=
  let '(l, res) := limiter_Respond r ord now l t msg in
  (l, match res with
      | Ok (t, ret) =>
        if negb (msg_ReadOnly (rm_Msg msg)) then
          args ← of_option (msg_A (rm_Msg msg));
          Ok (t, ret, Some (NodeBase (arg_ID args) (rm_From msg)))
        else Ok (t, ret, None)
      | Err e => Err e
      | Panic => Panic
      end).

End pipeline.

(** ** Lemmas *)

Lemma nodeInfosFromNodes_Some {E} ns :
  nodeInfosFromNodes (E := E) (Some <$> ns) =
    Ok ((λ n, mkNodeInfo (node_ID n) (NewNodeAddrFromAddrPort (node_Addr n))) <$> ns).
Proof. induction ns as [|n ns IH]; [done|]. cbn in *. by rewrite IH. Qed.

Definition args_ok (msg : RecvMsg) : Prop :=
  match msg_A (rm_Msg msg) with
  | Some a => id20 (arg_ID a) ∧ id20 (arg_InfoHash a) ∧ id20 (arg_Target a)
  | None => True
  end.

Definition peer_orders (ord : orders) : Prop :=
  ∀ h, peer_order ord h ≡ₚ elements (dom (hash_peers h)).

Lemma elem_of_hash_Peers ord h p :
  peer_orders ord → p ∈ hash_Peers h (peer_order ord h) ↔ ∃ a, hash_peers h !! a = Some p.
Proof.
  unfold peer_orders, hash_Peers. intros Hord. rewrite list_elem_of_omap. split.
  - intros (a & _ & Ha). by exists a.
  - intros [a Ha]. exists a. split; [|done]. rewrite Hord. apply elem_of_elements, elem_of_dom. by exists p.
Qed.

Section respond_laws.
Context {T : Type} `{TableLaws T}.
Implicit Types t : T.

(** A query is well addressed when its method has the argument it needs. *)
Definition method_error (r : responder) (msg : RecvMsg) : option Error :=
  match msg_A (rm_Msg msg) with
  | None => Some ErrMissingArguments
  | Some a =>
    let q := msg_Q (rm_Msg msg) in
    if decide (q = QPing ∨ q = QSampleInfohashes) then None
    else if decide (q = QFindNode) then
      if decide (arg_Target a = ID_zero) then Some ErrMissingArguments else None
    else if decide (q = QGetPeers) then
      if decide (arg_InfoHash a = ID_zero) then Some ErrMissingArguments else None
    else if decide (q = QAnnouncePeer) then
      if decide (arg_InfoHash a = ID_zero) then Some ErrMissingArguments
      else if decide (arg_Token a = announceToken r (arg_InfoHash a) (arg_ID a) (ap_addr (rm_From msg)))
      then None else Some ErrInvalidToken
    else Some ErrMethodUnknown
  end.

(** What a successful answer does to the directory. *)
Definition table_effect (msg : RecvMsg) (now : Time) (t t' : T) : Prop :=
  if decide (msg_Q (rm_Msg msg) = QAnnouncePeer) then
    ∃ a res, msg_A (rm_Msg msg) = Some a ∧
      dir_step (T_Origin t) (T_abs t)
        (CmdPutHash (arg_InfoHash a) [AddrPortFrom (ap_addr (rm_From msg)) (AnnouncePort msg)] [])
        res (T_abs t')
  else t' = t.

Lemma dir_run_one origin d now c rs d' :
  dir_run origin d [(now, c)] rs d' → ∃ res, rs = [res] ∧ dir_step origin d c res d'.
Proof.
  inversion 1 as [|? ? ? ? ? ? ? ? Hs Hrun]; subst. inversion Hrun; subst. by eauto.
Qed.

Ltac method := repeat first
  [ rewrite decide_True by (first [done|left; done|right; done])
  | rewrite decide_False by (first [done|intros [?|?]; done]) ].

Lemma table_effect_same msg now t : msg_Q (rm_Msg msg) ≠ QAnnouncePeer → table_effect msg now t t.
Proof. intros Hq. unfold table_effect. by rewrite decide_False. Qed.

Ltac query_done Eq := eexists _, _; split_and!; [done..|apply table_effect_same; by rewrite Eq].

(** The handler never panics: an error of [method_error], or an answer. *)
Lemma Respond_spec r ord now t msg :
  T_inv t → args_ok msg → T_orders t (hash_order ord) (node_order ord) →
  match method_error r msg with
  | Some e => Respond r ord now t msg = Err e
  | None => ∃ t' ret, Respond r ord now t msg = Ok (t', ret) ∧ T_inv t' ∧ T_Origin t' = T_Origin t ∧
      ret_ID ret = nodeID r ∧ table_effect msg now t t'
  end.
Proof.
  intros Hinv Hok Hord. unfold method_error, Respond, args_ok in *.
  destruct (msg_A (rm_Msg msg)) as [a|] eqn:Ea; [|done]. destruct Hok as (_ & Hih & Htg).
  destruct (decide (msg_Q (rm_Msg msg) = QPing)) as [Eq|Hping]; [rewrite Eq; method; query_done Eq|].
  destruct (decide (msg_Q (rm_Msg msg) = QFindNode)) as [Eq|Hfind].
  { rewrite Eq. method. destruct (decide (arg_Target a = ID_zero)); [done|].
    destruct (law_T_closest t _ Hinv Htg) as (ns & -> & _). cbn [lift_go mbind outcome_bind].
    rewrite nodeInfosFromNodes_Some. cbn [mbind outcome_bind]. query_done Eq. }
  destruct (decide (msg_Q (rm_Msg msg) = QGetPeers)) as [Eq|Hget].
  { rewrite Eq. method. destruct (decide (arg_InfoHash a = ID_zero)); [done|].
    pose proof (law_T_hash t _ Hinv Hih) as Hh. destruct (dir_hashes (T_abs t) !! arg_InfoHash a) as [ps|].
    - destruct Hh as (h & -> & _). cbn [lift_go mbind outcome_bind]. query_done Eq.
    - destruct Hh as (ns & -> & _). cbn [lift_go mbind outcome_bind].
      rewrite nodeInfosFromNodes_Some. cbn [mbind outcome_bind]. query_done Eq. }
  destruct (decide (msg_Q (rm_Msg msg) = QAnnouncePeer)) as [Eq|Hann].
  { rewrite Eq. method. destruct (decide (arg_InfoHash a = ID_zero)); [done|].
    destruct (decide (arg_Token a = _)) as [Htok|Htok]; [|by rewrite decide_True].
    rewrite decide_False by (intros ?; done).
    match goal with |- context [T_BatchCommand t ?cs] =>
      destruct (law_T_batch t cs Hinv) as (t' & rs & -> & Hinv' & Ho & Hrun) end;
      [by repeat constructor; apply Hih|]. cbn [lift_go mbind outcome_bind].
    apply dir_run_one in Hrun as (res & _ & Hstep). eexists _, _. split_and!; [done..|].
    unfold table_effect. rewrite decide_True by done. by eauto. }
  destruct (decide (msg_Q (rm_Msg msg) = QSampleInfohashes)) as [Eq|Hsample].
  { rewrite Eq. method. destruct (law_T_sample t _ _ Hinv Hord) as (res & -> & _). cbn [lift_go mbind outcome_bind].
    rewrite nodeInfosFromNodes_Some. cbn [mbind outcome_bind]. query_done Eq. }
  rewrite decide_False by tauto. done.
Qed.

Definition query (q : string) (a : MsgArgs) (from : AddrPort) : RecvMsg :=
  mkRecvMsg (mkMsg q (Some a) "" YQuery None None false) from.

Lemma Respond_get_peers r ord now t a from :
  T_inv t → id20 (arg_InfoHash a) → arg_InfoHash a ≠ ID_zero → peer_orders ord →
  ∃ ret, Respond r ord now t (query QGetPeers a from) = Ok (t, ret) ∧
    ret_Token ret = Some (announceToken r (arg_InfoHash a) (arg_ID a) (ap_addr from)) ∧
    (∀ ps addr p, dir_hashes (T_abs t) !! arg_InfoHash a = Some ps → ps !! addr = Some p →
       NewNodeAddrFromAddrPort p ∈ ret_Values ret).
Proof.
  intros Hinv Hid Hz Hord. unfold Respond, query. cbn [rm_Msg rm_From msg_A msg_Q]. method.
  pose proof (law_T_hash t _ Hinv Hid) as Hh. destruct (dir_hashes (T_abs t) !! arg_InfoHash a) as [ps|] eqn:Ed.
  - destruct Hh as (h & -> & Eh). cbn [lift_go mbind outcome_bind]. eexists. split_and!; [done..|].
    intros ps' addr p [= <-] Hp. cbn. apply list_elem_of_fmap. exists p. split; [done|].
    apply elem_of_hash_Peers; [done|]. exists addr. by rewrite Eh.
  - destruct Hh as (ns & -> & _). cbn [lift_go mbind outcome_bind].
    rewrite nodeInfosFromNodes_Some. cbn [mbind outcome_bind]. eexists. by split_and!.
Qed.

Lemma hash_put_inv origin d id p res d' :
  dir_step origin d (CmdPutHash id [p] []) res d' →
  d' = d ∧ dir_hashes d !! id = None ∨
  ∃ ps, dir_hashes d' !! id = Some ps ∧ ps !! ap_addr p = Some p.
Proof.
  inversion 1; subst; [right|right|by left]; cbn; rewrite lookup_insert_eq; eexists; (split; [done|]);
    cbn; by rewrite lookup_insert_eq.
Qed.

End respond_laws.

(** ** The theorems *)

(** C15: the handler is total.  On a table that meets its contract every
    message either gets the error its method and arguments call for, or an
    answer carrying the identifier of the node; it never panics, and only an
    [announce_peer] with the right token changes the table, by the step that
    files the announced peer. *)
Theorem responder_total {T} `{TableLaws T} r ord now (t : T) msg :
  T_inv t → args_ok msg → T_orders t (hash_order ord) (node_order ord) →
  match method_error r msg with
  | Some e => Respond r ord now t msg = Err e
  | None => ∃ t' ret, Respond r ord now t msg = Ok (t', ret) ∧ T_inv t' ∧ T_Origin t' = T_Origin t ∧
      ret_ID ret = nodeID r ∧ table_effect msg now t t'
  end.
Proof. apply Respond_spec. Qed.

(** announcing works end to end.  The token of a [get_peers] answer lets
    the same node announce itself from the same address, and from then on
    [get_peers] of that infohash returns the announced peer to anyone, unless
    the hash table had no room for a new hash, in which case nothing changed. *)
Theorem responder_announce_get_peers {T} `{TableLaws T} r ord now now' (t : T) a from a' from' other tok :
  T_inv t → T_orders t (hash_order ord) (node_order ord) → peer_orders ord →
  id20 (arg_ID a) → id20 (arg_InfoHash a) → id20 (arg_Target a) → arg_InfoHash a ≠ ID_zero →
  ap_addr from' = ap_addr from → arg_ID a' = arg_ID a → arg_InfoHash a' = arg_InfoHash a →
  id20 (arg_Target a') → arg_Token a' = tok → arg_InfoHash other = arg_InfoHash a →
  tok = default "" (match Respond r ord now t (query QGetPeers a from) with
                    | Ok (_, ret) => ret_Token ret | _ => None end) →
  ∃ t' ret, Respond r ord now' t (query QAnnouncePeer a' from') = Ok (t', ret) ∧
    (T_abs t' = T_abs t ∧ dir_hashes (T_abs t) !! arg_InfoHash a = None ∨
     ∃ ret', Respond r ord now' t' (query QGetPeers other from) = Ok (t', ret') ∧
       NewNodeAddrFromAddrPort (AddrPortFrom (ap_addr from) (AnnouncePort (query QAnnouncePeer a' from')))
         ∈ ret_Values ret').
Proof.
  intros Hinv Hord Hpo Hid Hih Htg Hz Hfrom Eid Eih Htg' Etok Eother Htok.
  destruct (Respond_get_peers r ord now t a from Hinv Hih Hz Hpo) as (ret & E & Et & _).
  rewrite E, Et in Htok. cbn in Htok.
  pose proof (Respond_spec r ord now' t (query QAnnouncePeer a' from') Hinv) as Hsp.
  unfold method_error, args_ok, table_effect in Hsp. cbn [query rm_Msg rm_From msg_A msg_Q] in Hsp.
  rewrite Eid, Eih, Hfrom, Etok in Hsp. rewrite decide_False in Hsp by (intros [?|?]; done).
  rewrite !(decide_False (P := QAnnouncePeer = _)) in Hsp by done.
  rewrite (decide_True (P := QAnnouncePeer = QAnnouncePeer)), decide_False, decide_True in Hsp by done.
  destruct Hsp as (t' & ret2 & E2 & Hinv' & _ & _ & Heff); [done|done|].
  rewrite decide_True in Heff by done. destruct Heff as (b & res & [= <-] & Hstep).
  exists t', ret2. split; [done|]. apply hash_put_inv in Hstep as [[Hd Hnone]|(ps & Hps & Hp)].
  - left. rewrite Eih in Hnone. done.
  - right. cbn in Hp. rewrite Eih in Hps.
    destruct (Respond_get_peers r ord now' t' other from Hinv') as (ret3 & E3 & _ & Hvals); [by rewrite Eother..|done|].
    exists ret3. split; [done|]. rewrite Eother in Hvals. by eapply Hvals.
Qed.

(** the pipeline of the server.  A request over either limit is refused
    and a refusal by the limit of the address does not use up the overall one;
    otherwise the answer is the one of the handler, and the sender is reported
    as a discovered node, under its identifier and address, exactly when the
    answer is a success and the sender is not read-only. *)
Theorem responder_discovery {T} `{TableLaws T} {K R} (keyed_Allow : Time → K → string → K * bool)
    (rate_Allow : Time → R → R * bool) r ord now l (t : T) msg :
  T_inv t → args_ok msg → T_orders t (hash_order ord) (node_order ord) →
  let from := ap_addr (rm_From msg) in
  let '(l', ok) := Allow keyed_Allow rate_Allow now l from in
  ((keyed_Allow now l.1 (Addr_String from)).2 = false → ok = false ∧ l'.2 = l.2) ∧
  ∃ res, discovery_Respond keyed_Allow rate_Allow r ord now l t msg = (l', res) ∧
    match res with
    | Panic => False
    | Err e => if ok then method_error r msg = Some e else e = ErrTooManyRequests
    | Ok (t', ret, node) => ok = true ∧ T_inv t' ∧ Respond r ord now t msg = Ok (t', ret) ∧
        ∃ a, msg_A (rm_Msg msg) = Some a ∧
          node = if msg_ReadOnly (rm_Msg msg) then None else Some (NodeBase (arg_ID a) (rm_From msg))
    end.
Proof.
  intros Hinv Hok Hord from. destruct (Allow keyed_Allow rate_Allow now l from) as [l' ok] eqn:El. split.
  { unfold Allow in El. destruct (keyed_Allow now l.1 (Addr_String from)) as [k [|]]; [done|].
    intros _. by injection El as <- <-. }
  unfold discovery_Respond, limiter_Respond. fold from. rewrite El.
  destruct ok; cbn [negb]; [|by eexists]. eexists. split; [done|].
  pose proof (Respond_spec r ord now t msg Hinv Hok Hord) as Hsp.
  destruct (method_error r msg) as [e|] eqn:Ee; [by rewrite Hsp|].
  destruct Hsp as (t' & ret & -> & Hinv' & _).
  destruct (msg_A (rm_Msg msg)) as [a|] eqn:Ea; [|by unfold method_error in Ee; rewrite Ea in Ee].
  destruct (msg_ReadOnly (rm_Msg msg)); cbn; by eauto 6.
Qed.

(** ** Examples *)

Definition ex_responder : responder := mkResponder (KTable.ex_id 0) (replicate 20 7%Z) 10.
Definition ex_orders : orders :=
  mkOrders (λ h, elements (dom (hash_peers h))) (elements (dom (ks_items (t_hashes ex_table))))
    (elements (dom (ks_items (t_nodes ex_table)))).
Definition ex_args (h : ID) (tok : string) : MsgArgs := mkMsgArgs (KTable.ex_id 1) h (KTable.ex_id 2) tok (Some 6882%Z) false 0.
Definition ex_from : AddrPort := AddrPortFrom (AddrV4 [10; 1; 1; 1]%Z) 4000.
Definition ex_token : string :=
  default "" (match Respond ex_responder ex_orders 20 ex_table (query QGetPeers (ex_args (KTable.ex_id 33) "") ex_from) with
              | Ok (_, ret) => ret_Token ret | _ => None end).

Lemma ex_orders_ok : T_orders ex_table (hash_order ex_orders) (node_order ex_orders).
Proof. split; unfold map_order; reflexivity. Defined.

Lemma ex_table_inv : T_inv ex_table.
Proof. apply (table_reachable_inv (KTable.ex_id 0)), ex_reachable. Defined.

Lemma responder_total_witness :
  Respond ex_responder ex_orders 20 ex_table (query QAnnouncePeer (ex_args (KTable.ex_id 33) "bad") ex_from)
    = Err ErrInvalidToken.
Proof.
  pose proof (responder_total ex_responder ex_orders 20 ex_table
    (query QAnnouncePeer (ex_args (KTable.ex_id 33) "bad") ex_from) ex_table_inv) as H.
  replace (method_error _ _) with (Some ErrInvalidToken) in H by (vm_compute; reflexivity).
  apply H; [split_and!; apply ex_tid_ok; lia|apply ex_orders_ok].
Defined.

Lemma responder_announce_get_peers_witness :
  ∃ t' ret, Respond ex_responder ex_orders 21 ex_table
      (query QAnnouncePeer (ex_args (KTable.ex_id 33) ex_token) ex_from) = Ok (t', ret) ∧
    (T_abs t' = T_abs ex_table ∧ dir_hashes (T_abs ex_table) !! arg_InfoHash (ex_args (KTable.ex_id 33) "") = None ∨
     ∃ ret', Respond ex_responder ex_orders 21 t' (query QGetPeers (ex_args (KTable.ex_id 33) "") ex_from) = Ok (t', ret') ∧
       NewNodeAddrFromAddrPort (AddrPortFrom (ap_addr ex_from)
         (AnnouncePort (query QAnnouncePeer (ex_args (KTable.ex_id 33) ex_token) ex_from))) ∈ ret_Values ret').
Proof.
  apply (responder_announce_get_peers ex_responder ex_orders 20 21 ex_table (ex_args (KTable.ex_id 33) "") ex_from
           (ex_args (KTable.ex_id 33) ex_token) ex_from (ex_args (KTable.ex_id 33) "") ex_token);
    [apply ex_table_inv|apply ex_orders_ok|intros h; reflexivity|apply ex_tid_ok; lia..|discriminate
    |reflexivity|reflexivity|reflexivity|apply ex_tid_ok; lia|reflexivity|reflexivity|reflexivity].
Defined.

Lemma responder_discovery_witness :
  ∃ res, discovery_Respond (λ _ (k : nat) _, (S k, true)) (λ _ (b : nat), (b, true)) ex_responder ex_orders 20 (0, 0)
      ex_table (query QPing (ex_args (KTable.ex_id 33) "") ex_from) = ((1, 0), res) ∧
    match res with
    | Ok (t', ret, node) => node = Some (NodeBase (KTable.ex_id 1) ex_from)
    | _ => False
    end.
Proof.
  destruct (responder_discovery (λ _ (k : nat) _, (S k, true)) (λ _ (b : nat), (b, true)) ex_responder ex_orders 20
    (0, 0) ex_table (query QPing (ex_args (KTable.ex_id 33) "") ex_from) ex_table_inv) as (_ & res & E & Hres);
    [split_and!; apply ex_tid_ok; lia|apply ex_orders_ok|].
  exists res. split; [exact E|]. destruct res as [[[t' ret] n]|e|]; [|by vm_compute in Hres|done].
  destruct Hres as (_ & _ & _ & a & [= <-] & ->). reflexivity.
Defined.

End Responder.
