(* ===== verification/Server.v ===== *)
(** * The DHT server and client

    [internal/protocol/dht/server] and [internal/protocol/dht/client]: the
    transaction identifiers, the reply to an incoming query, the matching of
    responses to outgoing queries and the client methods over it.

    Queries run concurrently.  A state holds the issuer, the map of pending
    transactions, the one-place channel of every query, the queries that wait
    in their [select] and the goroutines of [handleResponse] between the
    look-up and the send; an event is one atomic step of one goroutine. *)
From S2P Require Import Prelude Net Protocol Wire.
From stdpp Require Import gmap list strings.
From Stdlib Require Import ZArith Lia.

Module Server.
Import Net Protocol Wire.

(** ** Transaction identifiers (id_issuer.go) *)

(** [binary.PutUvarint]: seven bits per byte, least significant first; ten
    bytes hold 64 bits. *)
Fixpoint PutUvarint (fuel : nat) (x : Z) : bytes :=
  match fuel with
  | 0 => [uint8 x]
  | S fuel =>
    if (128 <=? x)%Z then uint8 (Z.lor (uint8 x) 128) :: PutUvarint fuel (Z.shiftr x 7) else [uint8 x]
  end.

Definition uint64 (z : Z) : Z := wrap 64 z.

Definition bytes_string (b : bytes) : string :=
  String.string_of_list_ascii ((λ x, Ascii.ascii_of_N (Z.to_N x)) <$> b).

(** The identifier and the next state of the counter. *)
Definition Issue (next : Z) : string * Z := (bytes_string (PutUvarint 9 next), uint64 (next + 1)).

(** ** Replies (server.go, handleQuery) *)

(** What [Respond] may return as an error: a [dht.Error], which [errors.As]
    finds, or another error. *)
Inductive ret_error := RetDHT (e : Error) | RetOther (text : string).

Definition handleQuery_reply (msg : RecvMsg) (res : Return + ret_error) : Msg :=
  let reply R E := mkMsg "" None (msg_T (rm_Msg msg)) YResponse R E false in
  match res with
  | inr (RetDHT e) => reply None (Some e)
  | inr (RetOther _) => reply None (Some (mkError ErrorCodeServerError "server error"))
  | inl ret => reply (Some ret) None
  end.

(** ** Queries (server.go, Query and handleResponse)

    [ErrRemote e] is the error interface holding the [*dht.Error] of the
    message: with a nil pointer in it the interface is still not nil. *)
Inductive query_error :=
| ErrSend
| ErrTimeout
| ErrRemote (e : option Error)
| ErrErrorMissing
| ErrReturnMissing
| ErrBloomMissing.

(** [err == nil] on an interface that was assigned a pointer. *)
Definition is_nil (err : option query_error) : bool := bool_decide (err = None).
#[global] Instance query_error_eq_dec : EqDecision query_error.
Proof. solve_decision. Defined.
#[global] Instance option_query_error_eq_dec : EqDecision (option query_error) := _.

(** The end of [Query], after a message came out of the channel. *)
Definition query_result (res : RecvMsg) : outcome query_error RecvMsg :=
  if decide (msg_Y (rm_Msg res) = YError) then
    let err := Some (ErrRemote (msg_E (rm_Msg res))) in
    let err := if is_nil err then Some ErrErrorMissing else err in
    match err with Some e => Err e | None => Ok res end
  else match msg_R (rm_Msg res) with None => Err ErrReturnMissing | Some _ => Ok res end.

(** Queries are numbered in the order in which they register. *)
Record server := mkServer {
  next : Z;
  queries : gmap string nat;
  chans : gmap nat (option RecvMsg);
  inflight : gmap nat string;
  sends : list (nat * RecvMsg)
}.

Definition init : server := mkServer 0 ∅ ∅ ∅ [].

Inductive event :=
| EvQuery (send_ok : bool)
| EvResponse (msg : RecvMsg)
| EvDeliver (k : nat)
| EvReturn (q : nat)
| EvTimeout (q : nat).

(** The query is over: the deferred [delete]. *)
Definition finish (s : server) (q : nat) (chans : gmap nat (option RecvMsg)) : server :=
  match inflight s !! q with
  | Some tid => mkServer (next s) (delete tid (queries s)) chans (delete q (inflight s)) (sends s)
  | None => s
  end.

Definition step (s : server) (e : event) : server * option (nat * outcome query_error RecvMsg) :=
  match e with
  | EvQuery send_ok =>
    let '(tid, n) := Issue (next s) in
    let q := size (chans s) in
    let s := mkServer n (<[tid := q]> (queries s)) (<[q := None]> (chans s))
               (<[q := tid]> (inflight s)) (sends s) in
    if send_ok : bool then (s, None) else (finish s q (chans s), Some (q, Err ErrSend))
  | EvResponse msg =>
    match queries s !! msg_T (rm_Msg msg) with
    | Some q => (mkServer (next s) (queries s) (chans s) (inflight s) (sends s ++ [(q, msg)]), None)
    | None => (s, None)
    end
  | EvDeliver k =>
    match sends s !! k with
    | Some (q, msg) =>
      match chans s !! q with
      | Some None =>
        (mkServer (next s) (queries s) (<[q := Some msg]> (chans s)) (inflight s)
           (take k (sends s) ++ drop (S k) (sends s)), None)
      | _ => (s, None)
      end
    | None => (s, None)
    end
  | EvReturn q =>
    match inflight s !! q, chans s !! q with
    | Some _, Some (Some msg) => (finish s q (<[q := None]> (chans s)), Some (q, query_result msg))
    | _, _ => (s, None)
    end
  | EvTimeout q =>
    match inflight s !! q with
    | Some _ => (finish s q (chans s), Some (q, Err ErrTimeout))
    | None => (s, None)
    end
  end.

Fixpoint run (s : server) (es : list event) : server * list (nat * outcome query_error RecvMsg) :=
  match es with
  | [] => (s, [])
  | e :: es =>
    let '(s, o) := step s e in
    let '(s, os) := run s es in
    (s, match o with Some o => o :: os | None => os end)
  end.

(** ** The client (server_adapter.go)

    Each method runs [Query] and reads the values behind the returned
    message; a nil return value makes it panic. *)
Record client_NodeInfo := mkClientNodeInfo { cn_ID : ID; cn_Addr : AddrPort }.

Definition extractNodes (ret : Return) : list client_NodeInfo :=
  (λ n, mkClientNodeInfo (ni_ID n) (ToAddrPort (ni_Addr n))) <$> ret_Nodes ret.
Definition extractValues (ret : Return) : list AddrPort := ToAddrPort <$> ret_Values ret.

Definition get_R (res : RecvMsg) : outcome query_error Return := of_option (msg_R (rm_Msg res)).

Definition Ping (res : outcome query_error RecvMsg) : outcome query_error (ID * bool) :=
  m ← res; R ← get_R m; Ok (ret_ID R, msg_ReadOnly (rm_Msg m)).

Definition FindNode (res : outcome query_error RecvMsg) : outcome query_error (ID * list client_NodeInfo * bool) :=
  m ← res; R ← get_R m; Ok (ret_ID R, extractNodes R, msg_ReadOnly (rm_Msg m)).

Definition GetPeers (res : outcome query_error RecvMsg)
    : outcome query_error (ID * list AddrPort * list client_NodeInfo * bool) :=
  m ← res; R ← get_R m; Ok (ret_ID R, extractValues R, extractNodes R, msg_ReadOnly (rm_Msg m)).

(** The bloom filters stay byte strings. *)
Definition GetPeersScrape (res : outcome query_error RecvMsg)
    : outcome query_error (ID * list AddrPort * list client_NodeInfo * bytes * bytes * bool) :=
  m ← res; R ← get_R m;
  match ret_BFpe R, ret_BFsd R with
  | Some pe, Some sd => Ok (ret_ID R, extractValues R, extractNodes R, pe, sd, msg_ReadOnly (rm_Msg m))
  | _, _ => Err ErrBloomMissing
  end.

Definition SampleInfoHashes (res : outcome query_error RecvMsg)
    : outcome query_error (ID * list ID * list client_NodeInfo * Z * Z * bool) :=
  m ← res; R ← get_R m;
  let samples := default [] (ret_Samples R) in
  let totalNum := default 0%Z (ret_Num R) in
  let interval := default 0%Z (ret_Interval R) in
  Ok (ret_ID R, samples, extractNodes R, totalNum, interval, msg_ReadOnly (rm_Msg m)).

(** ** Identifiers are unique *)

Lemma byte_forall (P : Z → bool) b :
  forallb (λ n, P (Z.of_nat n)) (seq 0 256) = true → byte_ok b → P b = true.
Proof.
  intros Hall Hb. rewrite forallb_forall in Hall. unfold byte_ok in Hb.
  rewrite <-(Z2Nat.id b) by lia. apply Hall. apply in_seq. lia.
Qed.

Lemma continuation_byte x : uint8 (Z.lor (uint8 x) 128) = (128 + x `mod` 128)%Z.
Proof.
  assert (Hb : byte_ok (uint8 x)) by apply byte_ok_uint8.
  apply (byte_forall (λ b, uint8 (Z.lor b 128) =? 128 + b mod 128)%Z) in Hb; [|by vm_compute].
  apply Z.eqb_eq in Hb. rewrite Hb. unfold uint8, wrap. change (2 ^ 8)%Z with (128 * 2)%Z.
  by rewrite Z.rem_mul_r, (Z.mul_comm 128), Z.mod_add, Z.mod_mod by lia.
Qed.

Lemma PutUvarint_ok fuel : ∀ x, bytes_ok (PutUvarint fuel x).
Proof.
  induction fuel as [|fuel IH]; intros x; cbn; [|destruct (128 <=? x)%Z];
    repeat first [apply Forall_cons_2|apply Forall_nil_2|apply byte_ok_uint8|apply IH].
Qed.

Lemma PutUvarint_inj fuel : ∀ x y,
  (0 ≤ x < 2 ^ (7 * Z.of_nat fuel + 8))%Z → (0 ≤ y < 2 ^ (7 * Z.of_nat fuel + 8))%Z →
  PutUvarint fuel x = PutUvarint fuel y → x = y.
Proof.
  assert (Hsmall : ∀ z, (0 ≤ z < 256)%Z → uint8 z = z) by (intros; by apply Z.mod_small).
  induction fuel as [|fuel IH]; intros x y Hx Hy; cbn [PutUvarint].
  - intros [= E]. rewrite !Hsmall in E by lia. done.
  - destruct (Z.leb_spec 128 x), (Z.leb_spec 128 y); rewrite ?continuation_byte.
    + intros [= Eh Et]. apply IH in Et.
      * rewrite !Z.shiftr_div_pow2 in Et by lia. change (2 ^ 7)%Z with 128%Z in Et.
        rewrite (Z.div_mod x 128), (Z.div_mod y 128) by lia. lia.
      * rewrite Z.shiftr_div_pow2 by lia. split; [apply Z.div_pos; lia|].
        apply Z.div_lt_upper_bound; [lia|]. rewrite <-Z.pow_add_r by lia.
        replace (7 + (7 * Z.of_nat fuel + 8))%Z with (7 * Z.of_nat (S fuel) + 8)%Z by lia. lia.
      * rewrite Z.shiftr_div_pow2 by lia. split; [apply Z.div_pos; lia|].
        apply Z.div_lt_upper_bound; [lia|]. rewrite <-Z.pow_add_r by lia.
        replace (7 + (7 * Z.of_nat fuel + 8))%Z with (7 * Z.of_nat (S fuel) + 8)%Z by lia. lia.
    + intros [= E _]. rewrite Hsmall in E by lia. pose proof (Z.mod_pos_bound x 128). lia.
    + intros [= E _]. rewrite Hsmall in E by lia. pose proof (Z.mod_pos_bound y 128). lia.
    + intros [= E]. rewrite !Hsmall in E by lia. done.
Qed.

Lemma ascii_of_byte_inj x y :
  byte_ok x → byte_ok y → Ascii.ascii_of_N (Z.to_N x) = Ascii.ascii_of_N (Z.to_N y) → x = y.
Proof.
  unfold byte_ok. intros Hx Hy E. apply (f_equal Ascii.N_of_ascii) in E.
  rewrite !Ascii.N_ascii_embedding in E by lia. lia.
Qed.

Lemma bytes_string_inj a b : bytes_ok a → bytes_ok b → bytes_string a = bytes_string b → a = b.
Proof.
  intros Ha Hb E. unfold bytes_string in E. apply (f_equal String.list_ascii_of_string) in E.
  rewrite !String.list_ascii_of_string_of_list_ascii in E. revert b Hb E.
  induction Ha as [|x a Hx Ha IH]; intros [|y b] Hb E; try done.
  apply Forall_cons in Hb as [Hy Hb]. injection E as E1 E2.
  apply ascii_of_byte_inj in E1; [|done..]. subst y. f_equal. by apply IH.
Qed.

(** The identifier of the query with number [q]. *)
Definition tid (q : nat) : string := (Issue (Z.of_nat q)).1.

Lemma tid_inj p q : (Z.of_nat p < 2 ^ 64)%Z → (Z.of_nat q < 2 ^ 64)%Z → tid p = tid q → p = q.
Proof.
  intros Hp Hq E. apply bytes_string_inj in E; [|apply PutUvarint_ok..].
  assert (2 ^ 64 < 2 ^ (7 * Z.of_nat 9 + 8))%Z by (by apply Z.pow_lt_mono_r).
  apply Nat2Z.inj, (PutUvarint_inj 9); [lia..|done].
Qed.

#[local] Opaque tid.

(** ** The invariant of the pending transactions *)

Definition started (s : server) : nat := size (chans s).

Record inv (s : server) : Prop := {
  inv_next : next s = Z.of_nat (started s);
  inv_bound : (Z.of_nat (started s) < 2 ^ 64)%Z;
  inv_chans : ∀ q, is_Some (chans s !! q) ↔ q < started s;
  inv_inflight : ∀ q t, inflight s !! q = Some t → t = tid q ∧ q < started s;
  inv_queries : ∀ t q, queries s !! t = Some q ↔ inflight s !! q = Some t;
  inv_sends : ∀ q m, (q, m) ∈ sends s → msg_T (rm_Msg m) = tid q;
  inv_buffer : ∀ q m, chans s !! q = Some (Some m) → msg_T (rm_Msg m) = tid q
}.

Lemma init_inv : inv init.
Proof.
  split; cbn; try done; try lia.
  - intros q. rewrite lookup_empty. split; [by intros []|]. unfold started. cbn. rewrite map_size_empty. lia.
  - intros q m []%not_elem_of_nil.
Qed.

Lemma finish_inv s q cs :
  inv s → (∀ p, is_Some (cs !! p) ↔ is_Some (chans s !! p)) → size cs = size (chans s) →
  (∀ p m, cs !! p = Some (Some m) → chans s !! p = Some (Some m)) → is_Some (inflight s !! q) →
  inv (finish s q cs).
Proof.
  intros [Hn Hb Hc Hi Hq Hs Hbuf] Hdom Hsz Hsub [t Ht]. unfold finish. rewrite Ht.
  split; cbn; unfold started in *; cbn; rewrite ?Hsz; try done.
  - intros p. by rewrite Hdom.
  - intros p t' [? ?]%lookup_delete_Some. by apply Hi.
  - intros t' p. rewrite !lookup_delete_Some, Hq. split; intros [Hne Hp]; (split; [|done]).
    + intros <-. rewrite Ht in Hp. by injection Hp as ->.
    + intros <-. apply Hne. apply (proj2 (Hq t p)) in Hp. apply (proj2 (Hq t q)) in Ht.
      rewrite Hp in Ht. by injection Ht.
  - intros p m Hp. by apply Hbuf, Hsub.
Qed.

Lemma query_inv s :
  inv s → (Z.of_nat (S (started s)) < 2 ^ 64)%Z →
  inv (mkServer (uint64 (next s + 1)) (<[tid (started s) := started s]> (queries s))
         (<[started s := None]> (chans s)) (<[started s := tid (started s)]> (inflight s)) (sends s)).
Proof.
  intros [Hn Hb Hc Hi Hq Hs Hbuf] Hb'. set (n := started s) in *.
  assert (Hfresh : chans s !! n = None) by (apply eq_None_not_Some; rewrite Hc; lia).
  assert (Hnone : inflight s !! n = None).
  { apply eq_None_not_Some. intros [t Ht]. apply Hi in Ht as [_ Ht]. lia. }
  assert (Hst : size (<[n := None]> (chans s)) = S n) by by rewrite map_size_insert_None.
  split; unfold started; cbn; rewrite ?Hst; try done.
  - rewrite Hn. unfold uint64, wrap. rewrite Z.mod_small by lia. lia.
  - intros q. rewrite lookup_insert_is_Some', Hc. lia.
  - intros q t [[<- <-]|[? Hq']]%lookup_insert_Some; [split; [done|lia]|].
    apply Hi in Hq' as [? ?]. split; [done|lia].
  - intros t q. destruct (decide (q = n)) as [->|Hqn], (decide (t = tid n)) as [->|Htn].
    + by rewrite !lookup_insert_eq.
    + rewrite lookup_insert_ne, lookup_insert_eq, Hq, Hnone by done. split; [done|]. by intros [= <-].
    + rewrite lookup_insert_eq, lookup_insert_ne by done. split; [by intros [= <-]|].
      intros [E ?]%Hi. apply tid_inj in E; [done|lia..].
    + by rewrite !lookup_insert_ne.
  - intros q m [[<- ?]|[? Hm]]%lookup_insert_Some; [done|by apply Hbuf].
Qed.

Lemma step_inv s e :
  inv s → (Z.of_nat (S (started s)) < 2 ^ 64)%Z →
  inv (step s e).1 ∧ started (step s e).1 ≤ S (started s) ∧
  match (step s e).2 with
  | Some (q, Ok m) => msg_T (rm_Msg m) = tid q ∧ is_Some (msg_R (rm_Msg m))
  | Some (q, Panic) => False
  | _ => True
  end.
Proof.
  intros Hinv Hb'. pose proof Hinv as [Hn Hb Hc Hi Hq Hs Hbuf]. destruct e as [ok|m|k|q|q]; cbn [step].
  - pose proof (query_inv s Hinv Hb') as Hq'. rewrite Hn in Hq' |- *.
    assert (Hst : size (<[started s := None]> (chans s)) = S (started s)).
    { rewrite map_size_insert_None; [done|]. apply eq_None_not_Some. rewrite Hc. lia. }
    unfold Issue. destruct ok; cbn; fold (started s); (split_and!; [|unfold started in *; cbn; try lia|done]).
    + exact Hq'.
    + apply (finish_inv _ _ _ Hq'); try done. cbn. by rewrite lookup_insert_eq.
    + unfold finish. cbn. rewrite lookup_insert_eq. cbn. lia.
  - destruct (queries s !! _) as [q|] eqn:Eq; cbn; [|by split_and!; [|lia|]].
    split_and!; [|unfold started; cbn; lia|done]. split; try done. cbn.
    intros p m' [?|[= -> ->]%list_elem_of_singleton]%elem_of_app; [by apply Hs|].
    apply Hq, Hi in Eq as [? _]. done.
  - destruct (sends s !! k) as [[q m]|] eqn:Ek; cbn; [|by split_and!; [|lia|]].
    destruct (chans s !! q) as [[?|]|] eqn:Ec; cbn; [by split_and!; [|lia|]| |by split_and!; [|lia|]].
    assert (Hsz : size (<[q := Some m]> (chans s)) = size (chans s)) by (by apply map_size_insert_Some).
    apply list_elem_of_lookup_2 in Ek as Hm. apply Hs in Hm.
    split_and!; [|unfold started; cbn; lia|done]. split; unfold started in *; cbn; rewrite ?Hsz; try done.
    + intros p. rewrite lookup_insert_is_Some', <-Hc. split; [|by right].
      intros [<-|?]; [by rewrite Ec|done].
    + intros p m' Hin. apply Hs. apply elem_of_app in Hin as [Hin|Hin];
        [by apply subseteq_take in Hin|by apply subseteq_drop in Hin].
    + intros p m' [[<- [= <-]]|[? ?]]%lookup_insert_Some; [done|by apply Hbuf].
  - destruct (inflight s !! q) as [t|] eqn:Ei; [|by cbn; split_and!; [|lia|]].
    destruct (chans s !! q) as [[m|]|] eqn:Ec; cbn; [|by split_and!; [|lia|]..].
    assert (Hsz : size (<[q := None]> (chans s)) = size (chans s)) by (by apply map_size_insert_Some).
    split_and!.
    + apply finish_inv; try done.
      * intros p. rewrite lookup_insert_is_Some'. split; [|by right]. intros [<-|?]; [by rewrite Ec|done].
      * by intros p m' [[? [=]]|[? ?]]%lookup_insert_Some.
    + unfold finish, started. rewrite Ei. cbn. lia.
    + apply Hbuf in Ec. unfold query_result. case_decide; cbn; [done|].
      destruct (msg_R (rm_Msg m)) eqn:Er; [|done]. by rewrite Er.
  - destruct (inflight s !! q) as [t|] eqn:Ei; cbn; [|by split_and!; [|lia|]].
    split_and!; [by apply finish_inv| |done]. unfold finish, started. rewrite Ei. cbn. lia.
Qed.

Lemma run_inv es : ∀ s,
  inv s → (Z.of_nat (started s + length es) < 2 ^ 64)%Z →
  inv (run s es).1 ∧ started (run s es).1 ≤ started s + length es ∧
  Forall (λ o, match o with
               | (q, Ok m) => msg_T (rm_Msg m) = tid q ∧ is_Some (msg_R (rm_Msg m))
               | (q, Panic) => False
               | _ => True
               end) (run s es).2.
Proof.
  induction es as [|e es IH]; intros s Hinv Hb; cbn [run length] in *; [split_and!; [done|cbn; lia|constructor]|].
  destruct (step_inv s e Hinv) as (Hinv' & Hst & Hout); [lia|].
  destruct (step s e) as [s' o]. cbn [fst snd] in *.
  destruct (IH s' Hinv') as (Hfin & Hle & Hos); [lia|]. destruct (run s' es) as [s'' os]. cbn [fst snd] in *.
  split_and!; [done|lia|]. destruct o as [[q [m|err|]]|]; try done; constructor; done.
Qed.

(** A query that is over, whose channel is full. *)
Definition stuck (s : server) (q : nat) : Prop :=
  inflight s !! q = None ∧ ∃ m, chans s !! q = Some (Some m).

Lemma finish_inflight s q cs p : inflight s !! p = None → inflight (finish s q cs) !! p = None.
Proof.
  intros Hp. unfold finish. destruct (inflight s !! q); [|done]. cbn. apply lookup_delete_None. by right.
Qed.

Lemma finish_sends s q cs : sends (finish s q cs) = sends s.
Proof. unfold finish. by destruct (inflight s !! q). Qed.

Lemma finish_chans s q cs : is_Some (inflight s !! q) → chans (finish s q cs) = cs.
Proof. intros [t Ht]. unfold finish. by rewrite Ht. Qed.

Lemma step_stuck s e q m :
  inv s → stuck s q → (q, m) ∈ sends s → stuck (step s e).1 q ∧ (q, m) ∈ sends (step s e).1.
Proof.
  intros Hinv [Hi [m0 Hm0]] Hin.
  assert (Hlt : q < started s) by (apply (inv_chans s Hinv); by eexists).
  assert (Hne : q ≠ started s) by lia. unfold started in Hne.
  destruct e as [ok|msg|k|p|p]; cbn [step].
  - destruct (Issue (next s)) as [t n]. destruct ok; cbn [fst].
    + split; [split; [cbn; by rewrite lookup_insert_ne|exists m0; cbn; by rewrite lookup_insert_ne]|done].
    + rewrite finish_sends. split; [|done]. split.
      * apply finish_inflight. cbn. by rewrite lookup_insert_ne.
      * exists m0. rewrite finish_chans by (cbn; by rewrite lookup_insert_eq). cbn. by rewrite lookup_insert_ne.
  - destruct (queries s !! _); cbn; [|by split; [split; [|exists m0]|]]. split; [by split; [|exists m0]|]. apply elem_of_app. by left.
  - destruct (sends s !! k) as [[p mp]|] eqn:Ek; cbn; [|by split; [split; [|exists m0]|]].
    destruct (chans s !! p) as [[?|]|] eqn:Ec; cbn; try (by split; [split; [|exists m0]|]).
    assert (p ≠ q) by congruence.
    split; [split; [done|exists m0; cbn; by rewrite lookup_insert_ne]|].
    rewrite <-(take_drop_middle _ _ _ Ek) in Hin.
    apply elem_of_app in Hin as [?|[E|?]%elem_of_cons]; [apply elem_of_app; by left|congruence|apply elem_of_app; by right].
  - destruct (inflight s !! p) as [t|] eqn:Ep; cbn; [|by split; [split; [|exists m0]|]].
    assert (p ≠ q) by congruence.
    destruct (chans s !! p) as [[?|]|]; cbn; try (by split; [split; [|exists m0]|]).
    rewrite finish_sends. split; [|done]. split; [by apply finish_inflight|].
    exists m0. rewrite finish_chans by by rewrite Ep. by rewrite lookup_insert_ne.
  - destruct (inflight s !! p) as [t|] eqn:Ep; cbn; [|by split; [split; [|exists m0]|]].
    rewrite finish_sends. split; [|done]. split; [by apply finish_inflight|].
    exists m0. by rewrite finish_chans by by rewrite Ep.
Qed.

Lemma run_stuck es : ∀ s q m,
  inv s → (Z.of_nat (started s + length es) < 2 ^ 64)%Z → stuck s q → (q, m) ∈ sends s →
  (q, m) ∈ sends (run s es).1.
Proof.
  induction es as [|e es IH]; intros s q m Hinv Hb Hst Hin; cbn [run length] in *; [done|].
  destruct (step_stuck s e q m Hinv Hst Hin) as [Hst' Hin'].
  destruct (step_inv s e Hinv) as (Hinv' & Hle & _); [lia|].
  destruct (step s e) as [s' o]. cbn [fst snd] in *.
  specialize (IH s' q m Hinv'). destruct (run s' es) as [s'' os]. cbn [fst] in *. apply IH; [lia|done..].
Qed.

(** ** The theorems *)

(** C4: responses reach the query they answer.  In every interleaving of
    queries, responses, deliveries and timeouts the pending transactions are
    exactly those of the queries still waiting, each under an identifier of
    its own, and a query that succeeds returns a message with its own
    transaction identifier and a return value. *)
Theorem server_correlation es :
  (Z.of_nat (length es) < 2 ^ 64)%Z →
  let s := (run init es).1 in
  (∀ t q, queries s !! t = Some q ↔ inflight s !! q = Some t) ∧
  (∀ p q t, inflight s !! p = Some t → inflight s !! q = Some t → p = q) ∧
  (∀ q m, (q, Ok m) ∈ (run init es).2 → msg_T (rm_Msg m) = tid q ∧ is_Some (msg_R (rm_Msg m))) ∧
  (∀ q, (q, Panic) ∉ (run init es).2).
Proof.
  intros Hlen s. destruct (run_inv es init init_inv) as (Hinv & _ & Hout).
  { unfold started. cbn. rewrite map_size_empty. lia. }
  rewrite Forall_forall in Hout. split_and!.
  - apply (inv_queries s Hinv).
  - intros p q t Hp Hq. apply (inv_queries s Hinv) in Hp, Hq. congruence.
  - intros q m Hin. by apply Hout in Hin.
  - intros q Hin. by apply Hout in Hin.
Qed.

(** C40: how a query ends.  A reply built by [handleQuery] for an error is
    typed as a response, so the querying side, which runs the same code,
    never sees the error and reports missing return data.  A message typed as
    an error without an error value gives a non-nil error holding a nil
    pointer, and the message for a missing error is never produced.  A reply
    with values is returned, and no client method panics. *)
Theorem server_query_errors msg e ret from res :
  msg_Y (handleQuery_reply msg (inr (RetDHT e))) = YResponse ∧
  query_result (mkRecvMsg (handleQuery_reply msg (inr (RetDHT e))) from) = Err ErrReturnMissing ∧
  (msg_Y (rm_Msg res) = YError → query_result res = Err (ErrRemote (msg_E (rm_Msg res)))) ∧
  query_result res ≠ Err ErrErrorMissing ∧
  query_result (mkRecvMsg (handleQuery_reply msg (inl ret)) from)
    = Ok (mkRecvMsg (handleQuery_reply msg (inl ret)) from) ∧
  Ping (query_result res) ≠ Panic ∧ FindNode (query_result res) ≠ Panic ∧ GetPeers (query_result res) ≠ Panic ∧
  GetPeersScrape (query_result res) ≠ Panic ∧ SampleInfoHashes (query_result res) ≠ Panic.
Proof.
  assert (Hok : ∀ m, query_result res = Ok m → is_Some (msg_R (rm_Msg m))).
  { unfold query_result. intros m. case_decide; cbn; [done|]. destruct (msg_R (rm_Msg res)) eqn:Er; [|done].
    intros [= <-]. by rewrite Er. }
  assert (Hnp : query_result res ≠ Panic).
  { unfold query_result. case_decide; cbn; [done|]. by destruct (msg_R _). }
  split_and!; try done.
  - intros Hy. unfold query_result. by rewrite decide_True.
  - unfold query_result. case_decide; cbn; [done|]. by destruct (msg_R _).
  - unfold Ping, get_R. destruct (query_result res) as [m|?|] eqn:E; try done. cbn.
    destruct (Hok m eq_refl) as [R ->]. done.
  - unfold FindNode, get_R. destruct (query_result res) as [m|?|] eqn:E; try done. cbn.
    destruct (Hok m eq_refl) as [R ->]. done.
  - unfold GetPeers, get_R. destruct (query_result res) as [m|?|] eqn:E; try done. cbn.
    destruct (Hok m eq_refl) as [R ->]. done.
  - unfold GetPeersScrape, get_R. destruct (query_result res) as [m|?|] eqn:E; try done. cbn.
    destruct (Hok m eq_refl) as [R ->]. cbn. by destruct (ret_BFpe R), (ret_BFsd R).
  - unfold SampleInfoHashes, get_R. destruct (query_result res) as [m|?|] eqn:E; try done. cbn.
    destruct (Hok m eq_refl) as [R ->]. done.
Qed.

(** a sender can be stuck for good.  When a query is over and its
    one-place channel is full, a goroutine of [handleResponse] that still has
    a message for it waits in every continuation of the run. *)
Theorem server_blocked_sender_leaks es es' q m :
  (Z.of_nat (length es + length es') < 2 ^ 63)%Z →
  stuck (run init es).1 q → (q, m) ∈ sends (run init es).1 →
  (q, m) ∈ sends (run (run init es).1 es').1.
Proof.
  intros Hlen Hst Hin.
  assert (Hz : started init = 0) by (unfold started; cbn; by rewrite map_size_empty).
  destruct (run_inv es init init_inv) as (Hinv & Hle & _); [lia|]. apply run_stuck; try done. lia.
Qed.

(** ** Examples *)

Definition ex_response (t : string) : RecvMsg :=
  mkRecvMsg (mkMsg "" None t YResponse (Some (mkReturn ID_zero [] [] None [] None None None None None)) None false)
    (AddrPortFrom (AddrV4 [10; 0; 0; 1]%Z) 6881).

(** Two queries; the second is answered three times before it returns. *)
Definition ex_events : list event :=
  [EvQuery true; EvQuery true; EvResponse (ex_response (tid 1)); EvResponse (ex_response (tid 1));
   EvResponse (ex_response (tid 1)); EvDeliver 0; EvReturn 1; EvDeliver 0; EvTimeout 0].

#[local] Transparent tid.

Lemma ex_events_run :
  (run init ex_events).2 = [(1, Ok (ex_response (tid 1))); (0, Err ErrTimeout)] ∧
  sends (run init ex_events).1 = [(1, ex_response (tid 1))] ∧
  inflight (run init ex_events).1 = ∅ ∧ queries (run init ex_events).1 = ∅.
Proof. vm_compute. done. Qed.

Lemma server_correlation_witness :
  (1, Ok (ex_response (tid 1))) ∈ (run init ex_events).2 ∧
  msg_T (rm_Msg (ex_response (tid 1))) = tid 1 ∧ is_Some (msg_R (rm_Msg (ex_response (tid 1)))).
Proof.
  assert ((1, Ok (ex_response (tid 1))) ∈ (run init ex_events).2) as Hin by (vm_compute; left).
  split; [exact Hin|]. apply (server_correlation ex_events); [reflexivity|exact Hin].
Defined.

Lemma server_query_errors_witness :
  query_result (mkRecvMsg (mkMsg "" None "t" YError None None false) (AddrPortFrom AddrInvalid 0))
    = Err (ErrRemote None).
Proof.
  apply (server_query_errors (ex_response "t") (mkError 201 "") (mkReturn ID_zero [] [] None [] None None None None None)
    (AddrPortFrom AddrInvalid 0)
    (mkRecvMsg (mkMsg "" None "t" YError None None false) (AddrPortFrom AddrInvalid 0))).
  reflexivity.
Defined.

Lemma server_blocked_sender_leaks_witness :
  (1, ex_response (tid 1)) ∈ sends (run (run init ex_events).1 [EvDeliver 0; EvTimeout 1; EvDeliver 0]).1.
Proof.
  apply (server_blocked_sender_leaks ex_events [EvDeliver 0; EvTimeout 1; EvDeliver 0]).
  - reflexivity.
  - split; [vm_compute; reflexivity|]. exists (ex_response (tid 1)). vm_compute. reflexivity.
  - vm_compute. left.
Defined.

End Server.
