(* ===== verification/Lexer.v ===== *)
(** * The lexer

    [internal/lexer/lexer.go]: reading runes with one step of look-ahead.  A
    string is the list of its runes.  The reader remembers whether the last
    operation was a successful read, which is what [UnreadRune] needs; the
    classes of [unicode] are an interface whose laws fix the ASCII range. *)
From S2P Require Import Prelude.
From stdpp Require Import list strings.
From Stdlib Require Import ZArith Lia.

(** A text as the list of its runes. *)
Abbreviation runes := (list Z).

Definition runes_of (s : string) : runes :=
  (λ a, Z.of_N (Ascii.N_of_ascii a)) <$> String.list_ascii_of_string s.

(** The predicates and case mappings of [unicode]. *)
Class Unicode := {
  IsLetter : Z → bool;
  IsDigit : Z → bool;
  ToLower : Z → Z;
  ToUpper : Z → Z
}.

Definition ascii_lower (r : Z) : bool := ((97 <=? r) && (r <=? 122))%Z.
Definition ascii_upper (r : Z) : bool := ((65 <=? r) && (r <=? 90))%Z.
Definition ascii_digit (r : Z) : bool := ((48 <=? r) && (r <=? 57))%Z.

(** What [unicode] documents for runes below 128. *)
Class UnicodeLaws `{Unicode} := {
  ascii_IsLetter r : (0 ≤ r < 128)%Z → IsLetter r = ascii_lower r || ascii_upper r;
  ascii_IsDigit r : (0 ≤ r < 128)%Z → IsDigit r = ascii_digit r;
  ascii_ToLower r : (0 ≤ r < 128)%Z → ToLower r = if ascii_upper r then (r + 32)%Z else r;
  ascii_ToUpper r : (0 ≤ r < 128)%Z → ToUpper r = if ascii_lower r then (r - 32)%Z else r
}.

(** [unicode] restricted to ASCII. *)
Definition ascii_unicode : Unicode := {|
  IsLetter r := ascii_lower r || ascii_upper r;
  IsDigit := ascii_digit;
  ToLower r := if ascii_upper r then (r + 32)%Z else r;
  ToUpper r := if ascii_lower r then (r - 32)%Z else r
|}.

Lemma ascii_unicode_laws : @UnicodeLaws ascii_unicode.
Proof. by split. Qed.

(** [unicode.IsSpace]: the White_Space property. *)
Definition IsSpace (r : Z) : bool :=
  ((9 <=? r) && (r <=? 13) || (r =? 32) || (r =? 133) || (r =? 160) || (r =? 5760)
   || (8192 <=? r) && (r <=? 8202) || (r =? 8232) || (r =? 8233) || (r =? 8239)
   || (r =? 8287) || (r =? 12288))%Z.

Fixpoint trim_left (l : runes) : runes :=
  match l with r :: l' => if IsSpace r then trim_left l' else l | [] => [] end.

(** [strings.TrimSpace] *)
Definition TrimSpace (l : runes) : runes := rev (trim_left (rev (trim_left l))).

Module Lexer.

Record Lexer := mkLexer { pos : Z; unread : option Z; rest : runes }.

Definition NewLexer (str : runes) : Lexer := mkLexer 0 None str.

Definition Read (l : Lexer) : option Z * Lexer :=
  match rest l with
  | [] => (None, mkLexer (pos l) None [])
  | r :: rs => (Some r, mkLexer (pos l + 1) (Some r) rs)
  end.

(** Only the rune that was just read can be put back. *)
Definition Backup {E} (l : Lexer) : outcome E Lexer :=
  match unread l with
  | Some r => Ok (mkLexer (pos l - 1) None (r :: rest l))
  | None => Panic
  end.

Fixpoint BackupN {E} (n : nat) (l : Lexer) : outcome E Lexer :=
  match n with
  | 0 => Ok l
  | S n => l ← Backup l; BackupN n l
  end.

Definition IsEOF {E} (l : Lexer) : outcome E (bool * Lexer) :=
  match Read l with
  | (None, l) => Ok (true, l)
  | (Some _, l) => l ← Backup l; Ok (false, l)
  end.

Definition ReadIf {E} (fn : Z → bool) (l : Lexer) : outcome E (option Z * Lexer) :=
  match Read l with
  | (None, l) => Ok (None, l)
  | (Some r, l) => if negb (fn r) then l ← Backup l; Ok (None, l) else Ok (Some r, l)
  end.

(** [fuel] exceeds the number of runes left: every round reads one. *)
Fixpoint ReadWhile_loop {E} (fuel : nat) (fn : Z → bool) (str : runes) (l : Lexer)
    : outcome E (runes * Lexer) :=
  match fuel with
  | 0 => Panic
  | S fuel =>
    '(r, l) ← ReadIf fn l;
    match r with
    | None => Ok (str, l)
    | Some r => ReadWhile_loop fuel fn (str ++ [r]) l
    end
  end.

Definition ReadWhile {E} (fn : Z → bool) (l : Lexer) : outcome E (runes * Lexer) :=
  ReadWhile_loop (S (length (rest l))) fn [] l.

Fixpoint ReadUntil_loop (fuel : nat) (fn : Z → bool) (str : runes) (l : Lexer) : runes * Lexer :=
  match fuel with
  | 0 => (str, l)
  | S fuel =>
    match Read l with
    | (None, l) => (str, l)
    | (Some r, l) => if fn r then (str ++ [r], l) else ReadUntil_loop fuel fn (str ++ [r]) l
    end
  end.

Definition ReadUntil (fn : Z → bool) (l : Lexer) : runes * Lexer :=
  ReadUntil_loop (S (length (rest l))) fn [] l.

Definition IsInt (r : Z) : bool := ((48 <=? r) && (r <=? 57))%Z.
Definition IsChar (r1 r2 : Z) : bool := (r1 =? r2)%Z.
Definition IsWordChar `{Unicode} (r : Z) : bool := IsLetter r || IsDigit r.
Definition IsNonWordChar `{Unicode} (r : Z) : bool := negb (IsWordChar r).

(** The number a string of digits spells, and [strconv.Atoi] on it. *)
Definition digits_value (s : runes) : Z := foldl (λ acc d, acc * 10 + (d - 48))%Z 0%Z s.

Definition Atoi_digits (s : runes) : option Z :=
  let n := digits_value s in if (n <? 2 ^ 63)%Z then Some n else None.

(** Panics when the number does not fit an [int]. *)
Definition ReadInt {E} (l : Lexer) : outcome E (option Z * Lexer) :=
  '(str, l) ← ReadWhile IsInt l;
  match str with
  | [] => Ok (None, l)
  | _ => n ← of_option (Atoi_digits str); Ok (Some n, l)
  end.

Definition ReadChar {E} (r1 : Z) (l : Lexer) : outcome E (bool * Lexer) :=
  '(r, l) ← ReadIf (IsChar r1) l;
  Ok (bool_decide (is_Some r), l).

(** ** What the operations do to the text that is left *)

(** [at_rest l s]: the lexer stands in front of [s]. *)
Definition at_rest (l : Lexer) (s : runes) : Prop := rest l = s.

Lemma IsEOF_spec {E} l s :
  at_rest l s → ∃ l', IsEOF (E := E) l = Ok (bool_decide (s = []), l') ∧ at_rest l' s.
Proof.
  intros <-. unfold IsEOF, Read, at_rest. destruct (rest l) as [|r rs]; cbn; by eexists.
Qed.

Lemma ReadIf_spec {E} fn l s :
  at_rest l s →
  match s with
  | [] => ∃ l', ReadIf (E := E) fn l = Ok (None, l') ∧ at_rest l' []
  | r :: rs => if fn r then ∃ l', ReadIf (E := E) fn l = Ok (Some r, l') ∧ at_rest l' rs
               else ∃ l', ReadIf (E := E) fn l = Ok (None, l') ∧ at_rest l' (r :: rs)
  end.
Proof.
  intros <-. unfold ReadIf, Read, at_rest. destruct (rest l) as [|r rs]; cbn; [by eexists|].
  destruct (fn r); cbn; by eexists.
Qed.

Lemma ReadChar_spec {E} c l s :
  at_rest l s →
  ∃ l', match s with
        | r :: rs => if (c =? r)%Z then ReadChar (E := E) c l = Ok (true, l') ∧ at_rest l' rs
                     else ReadChar (E := E) c l = Ok (false, l') ∧ at_rest l' s
        | [] => ReadChar (E := E) c l = Ok (false, l') ∧ at_rest l' []
        end.
Proof.
  intros Hl. pose proof (ReadIf_spec (E := E) (IsChar c) l s Hl) as H. unfold ReadChar.
  destruct s as [|r rs]; [|unfold IsChar in H at 1; destruct (c =? r)%Z];
    destruct H as (l' & -> & Hl'); exists l'; done.
Qed.

(** The longest prefix whose runes satisfy [fn], and what follows. *)
Fixpoint span (fn : Z → bool) (s : runes) : runes * runes :=
  match s with
  | r :: rs => if fn r then let '(a, b) := span fn rs in (r :: a, b) else ([], s)
  | [] => ([], [])
  end.

Lemma ReadWhile_loop_spec {E} fn fuel : ∀ str l s,
  at_rest l s → length s < fuel →
  ∃ l', ReadWhile_loop (E := E) fuel fn str l = Ok (str ++ (span fn s).1, l') ∧ at_rest l' (span fn s).2.
Proof.
  induction fuel as [|fuel IH]; intros str l s Hl Hf; [lia|]. cbn [ReadWhile_loop].
  pose proof (ReadIf_spec (E := E) fn l s Hl) as H. destruct s as [|r rs].
  - destruct H as (l' & -> & Hl'). cbn. exists l'. by rewrite app_nil_r.
  - cbn [span length] in *. destruct (fn r).
    + destruct H as (l' & -> & Hl'). cbn [mbind outcome_bind].
      destruct (IH (str ++ [r]) l' rs Hl') as (l'' & -> & Hl''); [lia|]. exists l''.
      destruct (span fn rs) as [a b]. cbn in *. by rewrite <-app_assoc.
    + destruct H as (l' & -> & Hl'). cbn. exists l'. by rewrite app_nil_r.
Qed.

Lemma ReadWhile_spec {E} fn l s :
  at_rest l s → ∃ l', ReadWhile (E := E) fn l = Ok ((span fn s).1, l') ∧ at_rest l' (span fn s).2.
Proof. intros Hl. unfold ReadWhile. apply (ReadWhile_loop_spec fn _ []); [done|]. rewrite Hl. lia. Qed.

Lemma span_app fn s t :
  Forall (λ r, fn r = true) s → (match t with r :: _ => fn r = false | [] => True end) →
  span fn (s ++ t) = (s, t).
Proof.
  intros Hs Ht. induction Hs as [|r s Hr Hs IH]; cbn.
  - destruct t as [|r t]; [done|]. cbn. by rewrite Ht.
  - by rewrite Hr, IH.
Qed.

Lemma span_length fn s : length (span fn s).1 + length (span fn s).2 = length s.
Proof.
  induction s as [|r s IH]; [done|]. cbn. destruct (fn r); [|done]. destruct (span fn s). cbn in *. lia.
Qed.

End Lexer.
