(* ===== verification/Fts.v ===== *)
(** * Full-text search

    [internal/database/fts]: the lexer of quoted strings, the tokenizer, the
    text form of PostgreSQL's [tsvector] and the translation of search queries
    to [tsquery].  A text is the list of its runes. *)
From S2P Require Import Prelude Lexer.
From stdpp Require Import gmap list strings sorting.
From Stdlib Require Import ZArith Lia.

Module Fts.
Import Lexer.

(** A [Tsvector]: the weight of each position of each lexeme. *)
Abbreviation Tsvector := (gmap runes (gmap Z Z)).

Inductive fts_error :=
| ErrMissingOpeningQuote
| ErrUnexpectedEOF
| ErrEmptyQuotedString
| ErrUnexpectedCharacter
| ErrMissingPosition.

(** ** Quoted strings (lexer.go)

    Each round consumes at least one rune. *)
Fixpoint readQuoted_loop (fuel : nat) (quoteChar : Z) (str : runes) (l : Lexer)
    : outcome fts_error ((runes * option fts_error) * Lexer) :=
  match fuel with
  | 0 => Panic
  | S fuel =>
    match Read l with
    | (None, l) => Ok ((str, Some ErrUnexpectedEOF), l)
    | (Some ch, l) =>
      if (ch =? quoteChar)%Z then
        '(again, l) ← ReadChar quoteChar l;
        if again : bool then readQuoted_loop fuel quoteChar (str ++ [ch]) l
        else Ok ((str, None), l)
      else readQuoted_loop fuel quoteChar (str ++ [ch]) l
    end
  end.

(** The string read so far and the error, both of which callers look at. *)
Definition readQuotedString (quoteChar : Z) (l : Lexer)
    : outcome fts_error ((runes * option fts_error) * Lexer) :=
  '(opening, l) ← ReadChar quoteChar l;
  if negb opening then Ok (([], Some ErrMissingOpeningQuote), l)
  else readQuoted_loop (S (length (rest l))) quoteChar [] l.

(** ** The tokenizer (tokenizer.go)

    [table.Tables] of go-unidecode: the transliterations of a section of 256
    runes. *)
Fixpoint replace_rune (c : Z) (by_ : runes) (s : runes) : runes :=
  match s with
  | [] => []
  | r :: s => (if (r =? c)%Z then by_ else [r]) ++ replace_rune c by_ s
  end.

Section fts.
Context `{Unicode} (Tables : Z → option (list runes)).

Definition breakWord (phrase : list runes) (lexeme : runes) : list runes :=
  match lexeme with [] => phrase | _ => phrase ++ [lexeme] end.

(** What one word character does to the phrase and the lexeme. *)
Definition word_char (ch : Z) (phrase : list runes) (lexeme : runes) : list runes * runes :=
  let ch := ToLower ch in
  if (ch <? 127)%Z then (phrase, lexeme ++ [ch])
  else
    let isNonBreakingLang := (8191 <? ch)%Z in
    let '(phrase, lexeme) := if isNonBreakingLang then (breakWord phrase lexeme, []) else (phrase, lexeme) in
    let section := Z.shiftr ch 8 in
    let position := Z.rem ch 256 in
    match Tables section with
    | None => (phrase, lexeme)
    | Some tb =>
      if (position <? Z.of_nat (length tb))%Z then
        let subst := default [] (tb !! Z.to_nat position) in
        let subst := replace_rune 39 (runes_of "_sq_") subst in
        let subst := replace_rune 92 (runes_of "_bs_") subst in
        let subst := TrimSpace subst in
        let lexeme := lexeme ++ subst in
        if isNonBreakingLang || bool_decide (subst = []) || bool_decide (last subst = Some 32%Z)
        then (breakWord phrase lexeme, []) else (phrase, lexeme)
      else (phrase, lexeme)
    end.

Fixpoint readPhrase_loop (fuel : nat) (phrase : list runes) (lexeme : runes) (l : Lexer)
    : outcome fts_error (list runes * Lexer) :=
  match fuel with
  | 0 => Panic
  | S fuel =>
    '(eof, l) ← IsEOF l;
    if eof : bool then Ok (breakWord phrase lexeme, l)
    else
      '(ch, l) ← ReadIf IsWordChar l;
      match ch with
      | Some ch => let '(phrase, lexeme) := word_char ch phrase lexeme in readPhrase_loop fuel phrase lexeme l
      | None =>
        let phrase := breakWord phrase lexeme in
        if decide (0 < length phrase) then Ok (phrase, l)
        else readPhrase_loop fuel phrase [] (Read l).2
      end
  end.

Definition readPhrase (l : Lexer) : outcome fts_error (list runes * Lexer) :=
  readPhrase_loop (S (length (rest l))) [] [] l.

Fixpoint Tokenize_loop (fuel : nat) (tokens : list (list runes)) (l : Lexer)
    : outcome fts_error (list (list runes)) :=
  match fuel with
  | 0 => Panic
  | S fuel =>
    '(phrase, l) ← readPhrase l;
    if decide (length phrase = 0) then Ok tokens else Tokenize_loop fuel (tokens ++ [phrase]) l
  end.

Definition Tokenize (str : runes) : outcome fts_error (list (list runes)) :=
  Tokenize_loop (S (length str)) [] (NewLexer str).

Definition TokenizeFlat (str : runes) : outcome fts_error (list runes) :=
  phrases ← Tokenize str; Ok (concat phrases).

(** ** The text form of a tsvector (tsvector.go) *)

Definition TsvectorWeightA : Z := 65.
Definition TsvectorWeightB : Z := 66.
Definition TsvectorWeightC : Z := 67.
Definition TsvectorWeightD : Z := 68.

Record TsvectorLabel := mkLabel { Position : Z; Weight : Z }.

(** [quoteLexeme]; the expression W matches a rune outside 0-9, A-Z, a-z and
    the underscore. *)
Definition isWordByte (r : Z) : bool :=
  ascii_digit r || ascii_upper r || ascii_lower r || (r =? 95)%Z.

Definition quoteLexeme (str : runes) (force : bool) : runes :=
  if force || existsb (λ r, negb (isWordByte r)) str
  then [39%Z] ++ replace_rune 39 [39; 39]%Z str ++ [39%Z] else str.

(** Sorting by position and by key; keys of a map are distinct. *)
Definition pos_le (a b : Z * Z) : Prop := (a.1 ≤ b.1)%Z.

Fixpoint runes_leb (a b : runes) : bool :=
  match a, b with
  | [], _ => true
  | _ :: _, [] => false
  | x :: a, y :: b => if (x =? y)%Z then runes_leb a b else (x <? y)%Z
  end.

Definition key_le {A} (a b : runes * A) : Prop := Is_true (runes_leb a.1 b.1).

#[export] Instance pos_le_dec : RelDecision pos_le.
Proof. intros a b. unfold pos_le. apply _. Defined.
#[export] Instance key_le_dec {A} : RelDecision (key_le (A := A)).
Proof. intros a b. unfold key_le. apply _. Defined.

(** The verb d of [fmt.Sprintf]; 20 digits hold any 64-bit integer. *)
Fixpoint dec_loop (fuel : nat) (n : Z) (acc : runes) : runes :=
  match fuel with
  | 0 => acc
  | S fuel =>
    let acc := (48 + n `mod` 10)%Z :: acc in
    if (n <? 10)%Z then acc else dec_loop fuel (n `div` 10) acc
  end.

Definition int_text (n : Z) : runes :=
  if (n <? 0)%Z then 45%Z :: dec_loop 20 (- n) [] else dec_loop 20 n [].

Fixpoint join (sep : runes) (l : list runes) : runes :=
  match l with
  | [] => []
  | [x] => x
  | x :: l => x ++ sep ++ join sep l
  end.

Definition label_text (l : Z * Z) : runes :=
  int_text l.1 ++ (if decide (l.2 ≠ TsvectorWeightD) then [l.2] else []).

(** One entry: a lexeme without labels gets the label 0, which is skipped. *)
Definition entry_text (e : runes * gmap Z Z) : runes :=
  let labels := if decide (size e.2 = 0) then [(0%Z, TsvectorWeightD)] else merge_sort pos_le (map_to_list e.2) in
  let labels := label_text <$> filter (λ l, l.1 ≠ 0%Z) labels in
  let part := quoteLexeme e.1 true in
  if decide (0 < length labels) then part ++ [58%Z] ++ join [44%Z] labels else part.

Definition Tsvector_String (v : Tsvector) : runes :=
  join [32%Z] (entry_text <$> merge_sort key_le (map_to_list v)).

(** *** Parsing *)

Definition isWeight (r : Z) : bool :=
  let r := ToUpper r in ((r =? 65) || (r =? 66) || (r =? 67) || (r =? 68))%Z.

Fixpoint readLabels (fuel : nat) (l : Lexer) : outcome fts_error (list TsvectorLabel * Lexer) :=
  match fuel with
  | 0 => Panic
  | S fuel =>
    '(p, l) ← ReadInt l;
    match p with
    | None => Err ErrMissingPosition
    | Some p =>
      '(w, l) ← ReadIf isWeight l;
      let pw := mkLabel p (match w with Some w => ToUpper w | None => TsvectorWeightD end) in
      '(comma, l) ← ReadChar 44 l;
      if comma : bool then '(pws, l) ← readLabels fuel l; Ok (pw :: pws, l)
      else
        '(eof, l) ← IsEOF l;
        if eof : bool then Ok ([pw], l)
        else
          '(spaces, l) ← ReadWhile (IsChar 32) l;
          if decide (spaces = []) then Err ErrUnexpectedCharacter else Ok ([pw], l)
    end
  end.

Definition readLexeme (l : Lexer) : outcome fts_error (runes * Lexer) :=
  '(unquoted, l) ← ReadWhile IsWordChar l;
  if decide (unquoted ≠ []) then Ok (unquoted, l)
  else
    '((word, err), l) ← readQuotedString 39 l;
    match err with
    | Some e => Err e
    | None => if decide (word = []) then Err ErrEmptyQuotedString else Ok (word, l)
    end.

Definition readTsvPart (l : Lexer) : outcome fts_error ((runes * list TsvectorLabel) * Lexer) :=
  '(lexeme, l) ← readLexeme l;
  '(colon, l) ← ReadChar 58 l;
  if negb colon then
    '(spaces, l) ← ReadWhile (IsChar 32) l;
    '(eof, l) ← IsEOF l;
    if negb eof && bool_decide (length spaces = 0) then Err ErrUnexpectedCharacter
    else Ok ((lexeme, []), l)
  else
    '(labels, l) ← readLabels (S (length (rest l))) l;
    Ok ((lexeme, labels), l).

(** The labels of a word, the last weight of a position winning. *)
Definition set_labels (tsv : Tsvector) (word : runes) (labels : list TsvectorLabel) : Tsvector :=
  let old := default ∅ (tsv !! word) in
  <[word := foldl (λ m pw, <[Position pw := Weight pw]> m) old labels]> tsv.

Fixpoint ParseTsvector_loop (fuel : nat) (tsv : Tsvector) (l : Lexer) : outcome fts_error Tsvector :=
  match fuel with
  | 0 => Panic
  | S fuel =>
    '(eof, l) ← IsEOF l;
    if eof : bool then Ok tsv
    else
      '((word, labels), l) ← readTsvPart l;
      ParseTsvector_loop fuel (set_labels tsv word labels) l
  end.

Definition ParseTsvector (str : runes) : outcome fts_error Tsvector :=
  let l := NewLexer (TrimSpace str) in
  ParseTsvector_loop (S (length (rest l))) ∅ l.

(** *** Adding text *)

(** The position after the last one in use; the order of the range over the
    maps does not matter. *)
Definition last_position (v : Tsvector) : Z :=
  map_fold (λ _ labels acc, map_fold (λ p _ acc, if (acc <=? p)%Z then (p + 1)%Z else acc) acc labels) 1%Z v.

Definition add_token (weight : Z) (st : Tsvector * Z) (lexeme : runes) : Tsvector * Z :=
  let '(v, nextPos) := st in
  (<[lexeme := <[nextPos := weight]> (default ∅ (v !! lexeme))]> v, (nextPos + 1)%Z).

Definition AddText (v : Tsvector) (text : runes) (weight : Z) : outcome fts_error Tsvector :=
  let nextPos := last_position v in
  let nextPos := if (1 <? nextPos)%Z then (nextPos + 1)%Z else nextPos in
  tokens ← TokenizeFlat text;
  Ok (foldl (add_token weight) (v, nextPos) tokens).1.

(** ** Search queries (tsquery.go) *)

Inductive Token :=
| TokenQuoted | TokenOpenParens | TokenCloseParens | TokenOperator | TokenNegation | TokenPhrase | TokenWildcard.
#[global] Instance Token_eq_dec : EqDecision Token.
Proof. solve_decision. Defined.

Inductive Operator := OperatorAnd | OperatorOr | OperatorFollowedBy.

(** A token; an operator token carries its operator, the others their text.
    The positions of tokens are not used by the translation. *)
Record TokenValue := mkToken { Token_ : Token; Value : runes; Op : option Operator }.

(** One round of [readQueryToken]: a token, the end, or a rune to skip. *)
Fixpoint readQueryToken (fuel : nat) (l : Lexer) : outcome fts_error (option TokenValue * Lexer) :=
  match fuel with
  | 0 => Panic
  | S fuel =>
    '(eof, l) ← IsEOF l;
    if eof : bool then Ok (None, l) else
    '(b, l) ← ReadChar 40 l; if b : bool then Ok (Some (mkToken TokenOpenParens [40%Z] None), l) else
    '(b, l) ← ReadChar 41 l; if b : bool then Ok (Some (mkToken TokenCloseParens [41%Z] None), l) else
    '(b, l) ← ReadChar 38 l; if b : bool then Ok (Some (mkToken TokenOperator [43%Z] (Some OperatorAnd)), l) else
    '(b, l) ← ReadChar 124 l; if b : bool then Ok (Some (mkToken TokenOperator [124%Z] (Some OperatorOr)), l) else
    '(b, l) ← ReadChar 46 l; if b : bool then Ok (Some (mkToken TokenOperator [46%Z] (Some OperatorFollowedBy)), l) else
    '(b, l) ← ReadChar 33 l; if b : bool then Ok (Some (mkToken TokenNegation [45%Z] None), l) else
    '(b, l) ← ReadChar 42 l; if b : bool then Ok (Some (mkToken TokenWildcard [42%Z] None), l) else
    '((quoted, _), l) ← readQuotedString 34 l;
    if decide (quoted ≠ []) then Ok (Some (mkToken TokenQuoted quoted None), l) else
    '(phrase, l) ← ReadWhile IsWordChar l;
    if decide (phrase ≠ []) then Ok (Some (mkToken TokenPhrase phrase None), l) else
    readQueryToken fuel (Read l).2
  end.

Fixpoint readQueryTokens (fuel : nat) (tokens : list TokenValue) (l : Lexer)
    : outcome fts_error (list TokenValue) :=
  match fuel with
  | 0 => Panic
  | S fuel =>
    '(t, l) ← readQueryToken (S (length (rest l))) l;
    match t with
    | None => Ok tokens
    | Some t => readQueryTokens fuel (tokens ++ [t]) l
    end
  end.

(** The tokens up to the parenthesis that closes the one before them. *)
Fixpoint parens_tokens (depth : nat) (tokens : list TokenValue) : list TokenValue :=
  match tokens with
  | [] => []
  | t :: tokens =>
    if decide (Token_ t = TokenOpenParens) then t :: parens_tokens (S depth) tokens
    else if decide (Token_ t = TokenCloseParens) then
      match depth with
      | 0 => []
      | S depth => if decide (depth = 0) then [] else t :: parens_tokens depth tokens
      end
    else t :: parens_tokens depth tokens
  end.

(** [addExpr]: the parts, and the tokens that are left from the current one
    on, a wildcard that follows having been taken. *)
Definition addExpr (parts : list runes) (operator : option Operator) (negated : bool)
    (tokens : list TokenValue) (expr : runes) : list runes * list TokenValue :=
  let parts := match parts with
               | [] => []
               | _ => parts ++ [match operator with
                                | Some OperatorOr => runes_of "|"
                                | Some OperatorFollowedBy => runes_of "<->"
                                | _ => runes_of "&"
                                end]
               end in
  let parts := if negated then parts ++ [runes_of "!"] else parts in
  match tokens with
  | t :: t' :: tokens' =>
    if decide (Token_ t' = TokenWildcard) then (parts ++ [expr ++ runes_of ":*"], t' :: tokens')
    else (parts ++ [expr], tokens)
  | _ => (parts ++ [expr], tokens)
  end.

(** The translation of a list of tokens; [tokens] is what is left from index
    [i] on.  Every round drops a token and every recursive call is on fewer. *)
Fixpoint toTsquery (fuel : nat) (parts : list runes) (operator : option Operator) (negated : bool)
    (tokens : list TokenValue) : outcome fts_error (list runes) :=
  match fuel with
  | 0 => Panic
  | S fuel =>
    match tokens with
    | [] => Ok parts
    | token :: _ =>
      let expr_then (parts_tokens : list runes * list TokenValue) :=
        toTsquery fuel parts_tokens.1 None false (tail parts_tokens.2) in
      let skip (tokens : list TokenValue) := toTsquery fuel parts operator negated (tail tokens) in
      match Token_ token with
      | TokenOperator => toTsquery fuel parts (Op token) negated (tail tokens)
      | TokenNegation => toTsquery fuel parts operator true (tail tokens)
      | TokenQuoted =>
        tokenized ← TokenizeFlat (Value token);
        let quotedWords := (λ w, quoteLexeme w false) <$> tokenized in
        if decide (0 < length quotedWords)
        then expr_then (addExpr parts operator negated tokens (join (runes_of " <-> ") quotedWords))
        else skip tokens
      | TokenPhrase =>
        tokenized ← Tokenize (Value token);
        let phrases := (λ p, join (runes_of " <-> ") ((λ w, quoteLexeme w false) <$> p))
                         <$> filter (λ p, 0 < length p) tokenized in
        if decide (0 < length phrases)
        then expr_then (addExpr parts operator negated tokens (join (runes_of " & ") phrases))
        else skip tokens
      | TokenOpenParens =>
        let parensTokens := parens_tokens 1 (tail tokens) in
        let tokens := drop (length parensTokens) tokens in
        inner ← toTsquery fuel [] None false parensTokens;
        let parensExpr := join (runes_of " ") inner in
        if decide (0 < length parensExpr)
        then expr_then (addExpr parts operator negated tokens (runes_of "(" ++ parensExpr ++ runes_of ")"))
        else skip tokens
      | _ => skip tokens
      end
    end
  end.

Definition appQueryTokensToTsquery (tokens : list TokenValue) : outcome fts_error runes :=
  parts ← toTsquery (S (length tokens)) [] None false tokens;
  Ok (join (runes_of " ") parts).

Definition AppQueryToTsquery (str : runes) : outcome fts_error runes :=
  tokens ← readQueryTokens (S (length str)) [] (NewLexer str);
  appQueryTokensToTsquery tokens.

End fts.

#[local] Arguments isWeight : simpl never.
#[local] Arguments quoteLexeme : simpl never.
#[local] Arguments IsWordChar : simpl never.
#[local] Arguments IsInt : simpl never.

(** ** Lemmas: reading back what was printed *)

(** [follows t c]: the text [t] does not start with a rune that [c] accepts. *)
Definition stops (c : Z → bool) (t : runes) : Prop :=
  match t with r :: _ => c r = false | [] => True end.

Lemma readQuoted_loop_spec k : ∀ fuel str l t,
  at_rest l (replace_rune 39 [39; 39]%Z k ++ 39%Z :: t) →
  length (replace_rune 39 [39; 39]%Z k) < fuel → stops (λ r, r =? 39)%Z t →
  ∃ l', readQuoted_loop fuel 39 str l = Ok ((str ++ k, None), l') ∧ at_rest l' t.
Proof.
  induction k as [|r k IH]; intros [|fuel] str l t Hl Hf Ht; try lia; unfold at_rest in Hl;
    cbn [replace_rune app] in Hl, Hf; cbn [readQuoted_loop]; unfold Read; [rewrite Hl|].
  - cbn [Z.eqb Pos.eqb]. set (l1 := mkLexer _ _ t).
    destruct (ReadChar_spec (E := fts_error) 39 l1 t) as [l' Hl']; [done|].
    destruct t as [|x t]; [|cbn in Ht; rewrite Z.eqb_sym in Ht; rewrite Ht in Hl'];
      destruct Hl' as [-> Hl']; cbn; exists l'; by rewrite app_nil_r.
  - destruct (Z.eqb_spec r 39) as [->|Hr].
    + cbn [app] in Hl, Hf. rewrite Hl. cbn [Z.eqb Pos.eqb].
      set (l1 := mkLexer _ _ _).
      destruct (ReadChar_spec (E := fts_error) 39 l1 (39%Z :: replace_rune 39 [39; 39]%Z k ++ 39%Z :: t)) as [l' Hl'];
        [done|]. cbn [Z.eqb Pos.eqb] in Hl'. destruct Hl' as [-> Hl']. cbn [mbind outcome_bind].
      destruct (IH fuel (str ++ [39%Z]) l' t Hl') as (l'' & -> & Hl''); [cbn in Hf; lia|done|].
      exists l''. by rewrite <-app_assoc.
    + cbn [app] in Hl, Hf. rewrite Hl. rewrite (proj2 (Z.eqb_neq r 39)) by done.
      set (l1 := mkLexer _ _ _).
      destruct (IH fuel (str ++ [r]) l1 t) as (l'' & -> & Hl''); [done|cbn in Hf; lia|done|].
      exists l''. by rewrite <-app_assoc.
Qed.

Lemma readQuotedString_spec k l t :
  at_rest l (quoteLexeme k true ++ t) → stops (λ r, r =? 39)%Z t →
  ∃ l', readQuotedString 39 l = Ok ((k, None), l') ∧ at_rest l' t.
Proof.
  intros Hl Ht. unfold readQuotedString. unfold quoteLexeme in Hl. cbn [orb app] in Hl.
  destruct (ReadChar_spec (E := fts_error) 39 l _ Hl) as [l1 Hl1]. cbn in Hl1. destruct Hl1 as [-> Hl1].
  cbn [mbind outcome_bind negb]. rewrite <-app_assoc in Hl1. cbn [app] in Hl1.
  apply (readQuoted_loop_spec k _ []); [done| |done]. rewrite Hl1, length_app. lia.
Qed.

Lemma digits_value_app s d : digits_value (s ++ [d]) = (digits_value s * 10 + (d - 48))%Z.
Proof. unfold digits_value. by rewrite foldl_app. Qed.

Lemma dec_loop_spec fuel : ∀ n acc,
  (0 ≤ n < 10 ^ Z.of_nat fuel)%Z → 0 < fuel →
  ∃ ds, dec_loop fuel n acc = ds ++ acc ∧ digits_value ds = n ∧ ds ≠ [] ∧ Forall (λ r, IsInt r = true) ds.
Proof.
  induction fuel as [|fuel IH]; intros n acc Hn Hf; [lia|]. cbn [dec_loop].
  assert (Hd : (0 ≤ n `mod` 10 < 10)%Z) by (apply Z.mod_pos_bound; lia).
  assert (Hint : IsInt (48 + n `mod` 10) = true) by (unfold IsInt; apply andb_true_iff; split; apply Z.leb_le; lia).
  destruct (Z.ltb_spec n 10) as [Hlt|Hge].
  - exists [(48 + n `mod` 10)%Z]. split_and!; [done| |done|by constructor].
    unfold digits_value. cbn. rewrite Z.mod_small by lia. lia.
  - assert (0 < fuel) by (destruct fuel; [change (10 ^ Z.of_nat 1)%Z with 10%Z in Hn|]; lia).
    destruct (IH (n `div` 10)%Z ((48 + n `mod` 10)%Z :: acc)) as (ds & -> & Hv & Hne & Hall); [|done|].
    + split; [apply Z.div_pos; lia|]. apply Z.div_lt_upper_bound; [lia|].
      rewrite <-Z.pow_succ_r by lia. replace (Z.succ (Z.of_nat fuel)) with (Z.of_nat (S fuel)) by lia. lia.
    + exists (ds ++ [(48 + n `mod` 10)%Z]). split_and!.
      * by rewrite <-app_assoc.
      * rewrite digits_value_app, Hv. rewrite (Z.div_mod n 10) at 3 by lia. lia.
      * by destruct ds.
      * apply Forall_app. split; [done|by constructor].
Qed.

Lemma ReadInt_spec n l t :
  (0 < n < 2 ^ 63)%Z → at_rest l (int_text n ++ t) → stops IsInt t →
  ∃ l', ReadInt (E := fts_error) l = Ok (Some n, l') ∧ at_rest l' t.
Proof.
  intros Hn Hl Ht. unfold int_text in Hl. rewrite (proj2 (Z.ltb_ge n 0)) in Hl by lia.
  destruct (dec_loop_spec 20 n []) as (ds & Eds & Hv & Hne & Hall); [|lia|].
  { split; [lia|]. eapply Z.lt_trans; [apply Hn|reflexivity]. }
  rewrite Eds, app_nil_r in Hl. unfold ReadInt.
  destruct (ReadWhile_spec (E := fts_error) IsInt l _ Hl) as (l' & -> & Hl').
  rewrite span_app in * by done. cbn [fst snd mbind outcome_bind] in *. exists l'. split; [|done].
  destruct ds as [|d ds]; [done|]. unfold Atoi_digits. rewrite Hv, (proj2 (Z.ltb_lt _ _)) by lia. done.
Qed.

Lemma length_join sep l : sep ≠ [] → length l ≤ S (length (join sep l)).
Proof.
  intros Hs. assert (1 ≤ length sep) by (destruct sep; [done|cbn; lia]).
  induction l as [|x l IH]; [cbn; lia|]. destruct l as [|y l]; [cbn; lia|].
  change (join sep (x :: y :: l)) with (x ++ sep ++ join sep (y :: l)). rewrite !length_app.
  cbn [length] in *. lia.
Qed.

Lemma length_join_nonempty sep l : Forall (λ x, x ≠ []) l → length l ≤ length (join sep l).
Proof.
  induction 1 as [|x l Hx Hall IH]; [done|]. assert (1 ≤ length x) by (destruct x; [done|cbn; lia]).
  destruct l as [|y l]; [done|].
  change (join sep (x :: y :: l)) with (x ++ sep ++ join sep (y :: l)). rewrite !length_app.
  cbn [length] in *. lia.
Qed.

(** *** Labels *)

Section parse_laws.
Context `{UnicodeLaws}.

Lemma ReadIf_weight w l t :
  w ∈ [65; 66; 67; 68]%Z → stops isWeight t →
  at_rest l ((if decide (w ≠ TsvectorWeightD) then [w] else []) ++ t) →
  ∃ o l', ReadIf (E := fts_error) isWeight l = Ok (o, l') ∧ at_rest l' t ∧
    (match o with Some w => ToUpper w | None => TsvectorWeightD end) = w.
Proof.
  intros Hw Ht Hl. pose proof (ReadIf_spec (E := fts_error) isWeight l _ Hl) as Hr.
  assert (Hup : w = 68%Z ∨ (w ≠ TsvectorWeightD ∧ ToUpper w = w ∧ isWeight w = true)).
  { set_unfold in Hw. unfold isWeight, TsvectorWeightD.
    destruct Hw as [->|[->|[->|[->|[]]]]]; [right..|by left]; rewrite ascii_ToUpper by lia; done. }
  destruct Hup as [->|(Hne & Eup & Hiw)].
  - rewrite decide_False in Hr by (intros Hc; by apply Hc). cbn [app] in Hr.
    destruct t as [|r t]; [|cbn in Ht; rewrite Ht in Hr]; destruct Hr as (l' & -> & Hl'); by exists None, l'.
  - rewrite decide_True in Hr by done. cbn [app] in Hr. rewrite Hiw in Hr. destruct Hr as (l' & -> & Hl'). by exists (Some w), l'.
Qed.

Lemma comma_not_weight : isWeight 44 = false.
Proof. unfold isWeight. by rewrite ascii_ToUpper by lia. Qed.

Lemma space_not_weight : isWeight 32 = false.
Proof. unfold isWeight. by rewrite ascii_ToUpper by lia. Qed.

Definition label_ok (l : Z * Z) : Prop := (0 < l.1 < 2 ^ 63)%Z ∧ l.2 ∈ [65; 66; 67; 68]%Z.

(** What may follow a list of labels: the end, or one space and no other. *)
Definition part_end (t : runes) : Prop :=
  match t with [] => True | r :: t => r = 32%Z ∧ stops (IsChar 32) t end.

(** The text after the spaces that end a part. *)
Definition after_part (t : runes) : runes := match t with [] => [] | _ :: t => t end.

Lemma part_end_spaces t :
  part_end t → (span (IsChar 32) t).2 = after_part t ∧ (t ≠ [] → (span (IsChar 32) t).1 ≠ []).
Proof.
  destruct t as [|r t]; [done|]. intros [-> Ht]. cbn. destruct t as [|x t]; cbn in *; [done|]. by rewrite Ht.
Qed.

Lemma readLabels_spec ls : ∀ fuel l t,
  ls ≠ [] → Forall label_ok ls → part_end t → length ls ≤ fuel →
  at_rest l (join [44%Z] (label_text <$> ls) ++ t) →
  ∃ l', readLabels fuel l = Ok ((λ l, mkLabel l.1 l.2) <$> ls, l') ∧ at_rest l' (after_part t).
Proof.
  induction ls as [|[p w] ls IH]; intros fuel l t Hne Hall Ht Hf Hl; [done|].
  destruct fuel as [|fuel]; [cbn in Hf; lia|]. apply Forall_cons in Hall as [[Hp Hw] Hall]. cbn [fst snd] in Hp, Hw.
  set (tl := match ls with [] => t | _ => [44%Z] ++ join [44%Z] (label_text <$> ls) ++ t end).
  assert (Hl2 : at_rest l (int_text p ++ (if decide (w ≠ TsvectorWeightD) then [w] else []) ++ tl)).
  { unfold at_rest in *. rewrite Hl. destruct ls; cbn; unfold label_text; cbn [fst snd]; by rewrite <-?app_assoc. }
  assert (Htl : stops isWeight tl ∧ stops IsInt tl).
  { unfold tl. destruct ls; [|split; [apply comma_not_weight|done]].
    destruct t as [|r t]; [done|]. destruct Ht as [-> _]. split; [apply space_not_weight|done]. }
  cbn [readLabels].
  destruct (ReadInt_spec p l _ Hp Hl2) as (l1 & -> & Hl1).
  { set_unfold in Hw. destruct (decide (w ≠ TsvectorWeightD)); [|apply Htl].
    destruct Hw as [->|[->|[->|[->|[]]]]]; done. }
  cbn [mbind outcome_bind].
  destruct (ReadIf_weight w l1 tl Hw (proj1 Htl) Hl1) as (o & l2 & -> & Hl2' & Hwo). cbn [mbind outcome_bind]. rewrite Hwo.
  destruct (ReadChar_spec (E := fts_error) 44 l2 tl Hl2') as [l3 Hl3]. unfold tl in Hl3. destruct ls as [|l0 ls].
  - assert (Hr : ReadChar (E := fts_error) 44 l2 = Ok (false, l3) ∧ at_rest l3 t).
    { destruct t as [|r t]; [done|]. destruct Ht as [-> Ht]. done. }
    destruct Hr as [-> Hl3']. cbn [mbind outcome_bind].
    destruct (IsEOF_spec (E := fts_error) l3 t Hl3') as (l4 & -> & Hl4). cbn [mbind outcome_bind].
    destruct (part_end_spaces t Ht) as [Hsp1 Hsp2]. case_bool_decide as Ht0.
    + subst t. by exists l4.
    + destruct (ReadWhile_spec (E := fts_error) (IsChar 32) l4 t Hl4) as (l5 & -> & Hl5). cbn [mbind outcome_bind].
      rewrite decide_False by auto. rewrite Hsp1 in Hl5. by exists l5.
  - cbn [app Z.eqb Pos.eqb] in Hl3. destruct Hl3 as [-> Hl3]. cbn [mbind outcome_bind].
    destruct (IH fuel l3 t) as (l4 & -> & Hl4); [done|done|done|cbn in *; lia|done|]. by exists l4.
Qed.

(** *** One part *)

Definition entry_ok (e : runes * gmap Z Z) : Prop :=
  e.1 ≠ [] ∧ ∀ p w, e.2 !! p = Some w → label_ok (p, w).

Definition entry_labels (e : runes * gmap Z Z) : list (Z * Z) := merge_sort pos_le (map_to_list e.2).

Lemma entry_labels_ok e : entry_ok e → Forall label_ok (entry_labels e).
Proof.
  intros [_ He]. unfold entry_labels. rewrite merge_sort_Permutation. apply Forall_forall.
  intros [p w] Hin%elem_of_map_to_list. by apply He.
Qed.

Lemma entry_text_eq e :
  entry_ok e →
  entry_text e = quoteLexeme e.1 true ++
    (match entry_labels e with [] => [] | ls => [58%Z] ++ join [44%Z] (label_text <$> ls) end).
Proof.
  intros He. unfold entry_text.
  assert (Hf : filter (λ l, l.1 ≠ 0%Z) (entry_labels e) = entry_labels e).
  { apply list_filter_all. intros l Hl. pose proof (entry_labels_ok e He) as Hall.
    rewrite Forall_forall in Hall. apply Hall in Hl as [? _]. lia. }
  assert (Hlen : length (entry_labels e) = size e.2).
  { unfold entry_labels. by rewrite merge_sort_Permutation, length_map_to_list. }
  fold (entry_labels e). destruct (decide (size e.2 = 0)) as [Hz|Hz].
  - rewrite Hz in Hlen. apply nil_length_inv in Hlen. rewrite Hlen. cbn. by rewrite app_nil_r.
  - rewrite Hf. destruct (entry_labels e) as [|l ls]; [done|]. cbn [fmap list_fmap length].
    by rewrite decide_True by lia.
Qed.

Lemma quote_not_word : IsWordChar 39 = false.
Proof. unfold IsWordChar. rewrite ascii_IsLetter, ascii_IsDigit by lia. done. Qed.

Lemma readLexeme_quoted k l t :
  k ≠ [] → stops (λ r, r =? 39)%Z t → at_rest l (quoteLexeme k true ++ t) →
  ∃ l', readLexeme l = Ok (k, l') ∧ at_rest l' t.
Proof.
  intros Hk Ht Hl. unfold readLexeme.
  destruct (ReadWhile_spec (E := fts_error) IsWordChar l _ Hl) as (l1 & -> & Hl1).
  assert (Hsp : span IsWordChar (quoteLexeme k true ++ t) = ([], quoteLexeme k true ++ t)).
  { unfold quoteLexeme. cbn [orb app span]. by rewrite quote_not_word. }
  rewrite Hsp in *. cbn [fst snd mbind outcome_bind] in *. rewrite decide_False by (intros Hc; by apply Hc).
  destruct (readQuotedString_spec k l1 t Hl1 Ht) as (l2 & -> & Hl2). cbn [mbind outcome_bind].
  rewrite decide_False by done. by exists l2.
Qed.

Lemma readTsvPart_spec e l t :
  entry_ok e → part_end t → at_rest l (entry_text e ++ t) →
  ∃ l', readTsvPart l = Ok ((e.1, (λ l, mkLabel l.1 l.2) <$> entry_labels e), l') ∧ at_rest l' (after_part t).
Proof.
  intros He Ht Hl. pose proof (entry_labels_ok e He) as Hls. destruct He as [Hk He].
  rewrite entry_text_eq, <-app_assoc in Hl by done. unfold readTsvPart.
  match type of Hl with at_rest l (_ ++ ?tl) => destruct (readLexeme_quoted e.1 l tl Hk) as (l1 & -> & Hl1) end;
    [|done|].
  { destruct (entry_labels e); [|done]. destruct t as [|r t]; [done|]. by destruct Ht as [-> _]. }
  cbn [mbind outcome_bind]. destruct (ReadChar_spec (E := fts_error) 58 l1 _ Hl1) as [l2 Hl2].
  destruct (entry_labels e) as [|l0 ls].
  - cbn [app] in Hl2. assert (Hr : ReadChar (E := fts_error) 58 l1 = Ok (false, l2) ∧ at_rest l2 t).
    { destruct t as [|r t]; [done|]. by destruct Ht as [-> _]. }
    destruct Hr as [-> Hl2']. cbn [mbind outcome_bind negb].
    destruct (ReadWhile_spec (E := fts_error) (IsChar 32) l2 t Hl2') as (l3 & -> & Hl3). cbn [mbind outcome_bind].
    destruct (part_end_spaces t Ht) as [Hsp1 Hsp2]. rewrite Hsp1 in Hl3.
    destruct (IsEOF_spec (E := fts_error) l3 _ Hl3) as (l4 & -> & Hl4). cbn [mbind outcome_bind].
    exists l4. split; [|done]. destruct t as [|r t]; [done|].
    rewrite (bool_decide_false (length _ = 0)); [by rewrite andb_false_r|].
    intros Hz%nil_length_inv. by apply Hsp2.
  - cbn [app Z.eqb Pos.eqb] in Hl2. destruct Hl2 as [-> Hl2]. cbn [mbind outcome_bind negb].
    destruct (readLabels_spec (l0 :: ls) (S (length (rest l2))) l2 t) as (l3 & -> & Hl3); [done|done|done| |done|by exists l3].
    rewrite Hl2, length_app. pose proof (length_join [44%Z] (label_text <$> l0 :: ls) ltac:(done)) as Hj.
    rewrite length_fmap in Hj. cbn in *. lia.
Qed.

(** *** The whole vector *)

Lemma entry_text_head e : ∃ s, entry_text e = 39%Z :: s.
Proof. unfold entry_text, quoteLexeme. cbn [orb app]. case_decide; cbn; by eexists. Qed.

Lemma join_cons sep x l : join sep (x :: l) = x ++ match l with [] => [] | _ => sep ++ join sep l end.
Proof. destruct l; cbn; by rewrite ?app_nil_r. Qed.

Definition entry_set (tsv : Tsvector) (e : runes * gmap Z Z) : Tsvector :=
  set_labels tsv e.1 ((λ l, mkLabel l.1 l.2) <$> entry_labels e).

Lemma ParseTsvector_loop_spec es : ∀ fuel tsv l,
  Forall entry_ok es → length es < fuel → at_rest l (join [32%Z] (entry_text <$> es)) →
  ParseTsvector_loop fuel tsv l = Ok (foldl entry_set tsv es).
Proof.
  induction es as [|e es IH]; intros [|fuel] tsv l Hall Hf Hl; try (cbn in Hf; lia); cbn [ParseTsvector_loop];
    destruct (IsEOF_spec (E := fts_error) l _ Hl) as (l1 & -> & Hl1); cbn [mbind outcome_bind].
  - done.
  - apply Forall_cons in Hall as [He Hall]. cbn [fmap list_fmap] in *. rewrite join_cons in *.
    destruct (entry_text_head e) as [s Es]. rewrite bool_decide_false by (rewrite Es; done).
    match type of Hl1 with at_rest _ (_ ++ ?tl) => set (t := tl) in * end.
    assert (Ht : part_end t ∧ after_part t = join [32%Z] (entry_text <$> es)).
    { unfold t. destruct es as [|e' es]; [done|]. cbn [fmap list_fmap]. split; [|done]. split; [done|].
      destruct (entry_text_head e') as [s' Es']. rewrite join_cons, Es'. done. }
    destruct Ht as [Ht Hafter].
    destruct (readTsvPart_spec e l1 t He Ht Hl1) as (l2 & -> & Hl2). cbn [mbind outcome_bind].
    rewrite Hafter in Hl2. rewrite (IH fuel _ l2) by (done || cbn in Hf; lia). done.
Qed.

(** Setting the labels of the entries of a map one by one rebuilds it. *)
Lemma foldl_insert_perm {K A} `{Countable K} (ls : list (K * A)) (m m0 : gmap K A) :
  ls ≡ₚ map_to_list m → m0 ##ₘ m → foldl (λ m pw, <[pw.1 := pw.2]> m) m0 ls = m0 ∪ m.
Proof.
  revert m m0. induction ls as [|[k x] ls IH]; intros m m0 Hp Hd.
  - symmetry in Hp. apply Permutation_nil_r, map_to_list_empty_iff in Hp as ->. by rewrite map_union_empty.
  - assert (Hk : m !! k = Some x).
    { apply elem_of_map_to_list. rewrite <-Hp. by left. }
    cbn. rewrite (IH (delete k m)).
    + apply map_disjoint_Some_r with (i := k) (x := x) in Hd as Hm0; [|done].
      rewrite <-insert_union_l, insert_union_r by done. by rewrite insert_delete_id.
    + rewrite <-(map_to_list_delete m k x Hk) in Hp. by apply Permutation_cons_inv in Hp.
    + apply map_disjoint_insert_l. split; [apply lookup_delete_eq|]. by apply map_disjoint_delete_r.
Qed.

Lemma entry_set_fresh tsv e :
  tsv !! e.1 = None → entry_set tsv e = <[e.1 := e.2]> tsv.
Proof.
  intros Hn. unfold entry_set, set_labels. rewrite Hn. cbn [default]. f_equal.
  rewrite foldl_fmap. cbn [Position Weight].
  rewrite (foldl_insert_perm (entry_labels e) e.2 ∅); [by rewrite map_empty_union| |apply map_disjoint_empty_l].
  apply merge_sort_Permutation.
Qed.

Lemma foldl_entry_set es : ∀ tsv,
  NoDup es.*1 → (∀ k, k ∈ es.*1 → tsv !! k = None) →
  foldl entry_set tsv es = foldl (λ m pw, <[pw.1 := pw.2]> m) tsv es.
Proof.
  induction es as [|e es IH]; intros tsv Hnd Hn; [done|]. cbn in *. apply NoDup_cons in Hnd as [Hni Hnd].
  rewrite entry_set_fresh by (apply Hn; by left). apply IH; [done|].
  intros k Hk. rewrite lookup_insert_ne by (intros E; by subst k). apply Hn. by right.
Qed.

(** *** No spaces at the ends *)

Definition ends_well (s : runes) : Prop := ∃ s' y, s = s' ++ [y] ∧ IsSpace y = false.

Lemma ends_well_app a b : ends_well b → ends_well (a ++ b).
Proof. intros (s & y & -> & Hy). exists (a ++ s), y. by rewrite app_assoc. Qed.

Lemma ends_well_join sep l x : l ≠ [] → Forall ends_well l → ends_well (x ++ join sep l).
Proof.
  intros Hne Hall. revert x. induction Hall as [|y l Hy Hall IH]; intros x; [done|].
  rewrite join_cons. destruct l as [|z l].
  - rewrite app_nil_r. by apply ends_well_app.
  - rewrite 2!app_assoc. by apply IH.
Qed.

Lemma label_text_ends l : label_ok l → ends_well (label_text l).
Proof.
  intros [Hp Hw]. unfold label_text. case_decide as Hd.
  - eexists _, _. split; [done|]. set_unfold in Hw. destruct Hw as [->|[->|[->|[->|[]]]]]; done.
  - rewrite app_nil_r. unfold int_text. rewrite (proj2 (Z.ltb_ge _ 0)) by lia.
    destruct (dec_loop_spec 20 l.1 []) as (ds & -> & _ & Hne & Hall); [|lia|].
    { split; [lia|]. eapply Z.lt_trans; [apply Hp|reflexivity]. }
    rewrite app_nil_r. destruct ds as [|d ds _] using rev_ind; [done|]. apply Forall_app in Hall as [_ Hd'].
    apply (proj1 (Forall_singleton _ _)) in Hd'. exists ds, d. split; [done|].
    apply andb_true_iff in Hd' as [?%Z.leb_le ?%Z.leb_le].
    assert (d = 48 ∨ d = 49 ∨ d = 50 ∨ d = 51 ∨ d = 52 ∨ d = 53 ∨ d = 54 ∨ d = 55 ∨ d = 56 ∨ d = 57)%Z as Hc by lia.
    by repeat destruct Hc as [->|Hc]; [..|rewrite Hc].
Qed.

Lemma entry_text_ends e : entry_ok e → ends_well (entry_text e).
Proof.
  intros He. rewrite entry_text_eq by done. pose proof (entry_labels_ok e He) as Hls.
  destruct (entry_labels e) as [|l ls].
  - rewrite app_nil_r. unfold quoteLexeme. cbn [orb]. rewrite app_assoc. by eexists _, _.
  - apply ends_well_app, ends_well_join; [done|]. apply Forall_fmap. by eapply Forall_impl; [|apply label_text_ends].
Qed.

Lemma trim_left_id s : (match s with r :: _ => IsSpace r = false | [] => True end) → trim_left s = s.
Proof. destruct s as [|r s]; [done|]. cbn. by intros ->. Qed.

Lemma TrimSpace_id s : (match s with r :: _ => IsSpace r = false | [] => True end) → ends_well s → TrimSpace s = s.
Proof.
  intros Hh (s' & y & Es & Hy). unfold TrimSpace. rewrite (trim_left_id s) by done. subst s.
  rewrite rev_app_distr. cbn [rev app]. rewrite trim_left_id by done.
  cbn [rev]. by rewrite rev_involutive.
Qed.

(** The vectors that have a text form: non-empty lexemes, positions of 63 bits
    above zero, weights A to D. *)
Definition tsv_ok (v : Tsvector) : Prop := ∀ k labels, v !! k = Some labels → entry_ok (k, labels).

Lemma Tsvector_parse_String v : tsv_ok v → ParseTsvector (Tsvector_String v) = Ok v.
Proof.
  intros Hv. unfold Tsvector_String. set (es := merge_sort key_le (map_to_list v)).
  assert (Hp : es ≡ₚ map_to_list v) by apply merge_sort_Permutation.
  assert (Hes : Forall entry_ok es).
  { rewrite Hp. apply Forall_forall. intros [k ls] Hin%elem_of_map_to_list. by apply Hv. }
  unfold ParseTsvector. assert (Htrim : TrimSpace (join [32%Z] (entry_text <$> es)) = join [32%Z] (entry_text <$> es)).
  { destruct es as [|e es']; [done|]. apply TrimSpace_id.
    - cbn [fmap list_fmap]. rewrite join_cons. by destruct (entry_text_head e) as [s ->].
    - apply (ends_well_join [32%Z] _ []); [done|]. apply Forall_fmap.
      by eapply Forall_impl; [|apply entry_text_ends]. }
  rewrite Htrim, (ParseTsvector_loop_spec es); [|done| |done].
  - f_equal. rewrite foldl_entry_set.
    + rewrite (foldl_insert_perm es v ∅); [by rewrite map_empty_union|done|apply map_disjoint_empty_l].
    + rewrite Hp. apply NoDup_fst_map_to_list.
    + intros k _. apply lookup_empty.
  - cbn. rewrite <-(length_fmap entry_text es). apply Nat.lt_succ_r, length_join_nonempty.
    apply Forall_fmap, Forall_forall. intros e _. cbn. destruct (entry_text_head e) as [s ->]. done.
Qed.

(** ** The tokenizer *)

Section tokenizer.
Context (Tables : Z → option (list runes)).

Lemma breakWord_nonempty phrase lexeme :
  Forall (λ w, w ≠ []) phrase → Forall (λ w, w ≠ []) (breakWord phrase lexeme).
Proof. intros Hp. destruct lexeme; [done|]. cbn. apply Forall_app. split; [done|by repeat constructor]. Qed.

Lemma word_char_nonempty ch phrase lexeme :
  Forall (λ w, w ≠ []) phrase → Forall (λ w, w ≠ []) (word_char Tables ch phrase lexeme).1.
Proof.
  intros Hp. unfold word_char. pose proof (breakWord_nonempty phrase lexeme Hp) as Hb.
  destruct (_ <? 127)%Z; [done|]. destruct (8191 <? _)%Z; destruct (Tables _) as [tb|]; try done;
    destruct (_ <? _)%Z; try done; destruct (_ || _ || _); cbn; try done; by apply breakWord_nonempty.
Qed.

Lemma readPhrase_loop_spec fuel : ∀ phrase lexeme l s,
  at_rest l s → length s < fuel → Forall (λ w, w ≠ []) phrase →
  ∃ ph l' s', readPhrase_loop Tables fuel phrase lexeme l = Ok (ph, l') ∧ at_rest l' s' ∧
    Forall (λ w, w ≠ []) ph ∧ length s' ≤ length s ∧
    (phrase = [] → lexeme = [] → ph ≠ [] → length s' < length s).
Proof.
  induction fuel as [|fuel IH]; intros phrase lexeme l s Hl Hf Hp; [lia|]. cbn [readPhrase_loop].
  destruct (IsEOF_spec (E := fts_error) l s Hl) as (l1 & -> & Hl1). cbn [mbind outcome_bind].
  case_bool_decide as Hs.
  { eexists _, _, s. split_and!; [done|done|by apply breakWord_nonempty|done|]. by intros -> ->. }
  destruct s as [|r s]; [done|]. cbn [length] in *.
  pose proof (ReadIf_spec (E := fts_error) IsWordChar l1 _ Hl1) as Hr. cbn [mbind] in Hr.
  destruct (IsWordChar r); destruct Hr as (l2 & -> & Hl2); cbn [mbind outcome_bind].
  - pose proof (word_char_nonempty r phrase lexeme Hp) as Hw.
    destruct (word_char Tables r phrase lexeme) as [phrase' lexeme'] eqn:Ew. cbn [fst] in Hw.
    destruct (IH phrase' lexeme' l2 s Hl2) as (ph & l' & s' & -> & ? & ? & ? & _); [lia|done|].
    eexists _, _, s'. split_and!; [done..|lia|]. intros _ _ _. lia.
  - case_decide as Hlen.
    + eexists _, _, (r :: s). split_and!; [done|done|by apply breakWord_nonempty|done|].
      intros -> -> _. cbn in Hlen. lia.
    + destruct (IH (breakWord phrase lexeme) [] (Read l2).2 s) as (ph & l' & s' & -> & ? & ? & ? & _).
      * unfold Read. by rewrite Hl2.
      * lia.
      * by apply breakWord_nonempty.
      * eexists _, _, s'. split_and!; [done..|lia|]. intros _ _ _. lia.
Qed.

Lemma Tokenize_loop_spec fuel : ∀ tokens l s,
  at_rest l s → length s < fuel → Forall (λ p, p ≠ [] ∧ Forall (λ w, w ≠ []) p) tokens →
  ∃ ts, Tokenize_loop Tables fuel tokens l = Ok ts ∧ Forall (λ p, p ≠ [] ∧ Forall (λ w, w ≠ []) p) ts.
Proof.
  induction fuel as [|fuel IH]; intros tokens l s Hl Hf Ht; [lia|]. cbn [Tokenize_loop]. unfold readPhrase.
  destruct (readPhrase_loop_spec (S (length (rest l))) [] [] l s Hl) as (ph & l' & s' & -> & Hl' & Hph & _ & Hlt);
    [rewrite Hl; lia|done|]. cbn [mbind outcome_bind]. case_decide as Hz; [by exists tokens|].
  assert (ph ≠ []) by (by destruct ph). apply (IH _ l' s'); [done| |].
  - specialize (Hlt eq_refl eq_refl). lia || (assert (length s' < length s) by auto; lia).
  - apply Forall_app. split; [done|]. by repeat constructor.
Qed.

Lemma Tokenize_spec str :
  ∃ ts, Tokenize Tables str = Ok ts ∧ Forall (λ p, p ≠ [] ∧ Forall (λ w, w ≠ []) p) ts.
Proof. apply (Tokenize_loop_spec _ _ _ str); [done|lia|constructor]. Qed.

Lemma TokenizeFlat_spec str : ∃ ws, TokenizeFlat Tables str = Ok ws ∧ Forall (λ w, w ≠ []) ws.
Proof.
  destruct (Tokenize_spec str) as (ts & E & Hts). unfold TokenizeFlat. rewrite E. exists (concat ts).
  split; [done|]. clear E. induction Hts as [|p ts [_ Hp] Hts IH]; cbn; [by constructor|]. apply Forall_app. by split.
Qed.

(** ** Adding text *)

Definition label (v : Tsvector) (k : runes) (p : Z) : option Z := v !! k ≫= λ labels, labels !! p.

(** The position at which [AddText] starts. *)
Definition start_position (v : Tsvector) : Z :=
  let n := last_position v in if (1 <? n)%Z then (n + 1)%Z else n.

Lemma fold_positions_bound (labels : gmap Z Z) (acc : Z) :
  let r := map_fold (λ p (_ : Z) acc, if (acc <=? p)%Z then (p + 1)%Z else acc) acc labels in
  (acc ≤ r)%Z ∧ ∀ p w, labels !! p = Some w → (p < r)%Z.
Proof.
  cbn. revert labels. apply (map_fold_weak_ind (λ r m, (acc ≤ r)%Z ∧ ∀ p w, m !! p = Some w → (p < r)%Z)).
  - split; [lia|]. intros p w. by rewrite lookup_empty.
  - intros p w m r Hn [Hr IH]. destruct (Z.leb_spec r p).
    + split; [lia|]. intros q x [[<- <-]|[? Hq%IH]]%lookup_insert_Some; lia.
    + split; [lia|]. intros q x [[<- <-]|[? Hq%IH]]%lookup_insert_Some; lia.
Qed.

Lemma last_position_bound v k p w : label v k p = Some w → (p < last_position v)%Z.
Proof.
  intros Hl. unfold label in Hl. destruct (v !! k) as [labels|] eqn:Hk; [|done]. cbn in Hl. revert k labels Hk Hl.
  enough (H1 : (1 ≤ last_position v)%Z ∧ ∀ k labels, v !! k = Some labels → labels !! p = Some w → (p < last_position v)%Z)
    by apply H1.
  unfold last_position. revert v.
  apply (map_fold_weak_ind (λ r m, (1 ≤ r)%Z ∧ ∀ k labels, m !! k = Some labels → labels !! p = Some w → (p < r)%Z)).
  - split; [lia|]. intros k labels. by rewrite lookup_empty.
  - intros k labels m r Hn [Hr IH]. destruct (fold_positions_bound labels r) as [Hb1 Hb2].
    split; [lia|]. intros k' labels' [[<- <-]|[? Hk']]%lookup_insert_Some Hp.
    + by eapply Hb2.
    + specialize (IH _ _ Hk' Hp). lia.
Qed.

Lemma last_position_pos v : (1 ≤ last_position v)%Z.
Proof.
  unfold last_position. revert v. apply (map_fold_weak_ind (λ r _, (1 ≤ r)%Z)); [lia|].
  intros k labels m r _ Hr. destruct (fold_positions_bound labels r). lia.
Qed.

Lemma label_add_token w v n k k' p :
  label (add_token w (v, n) k).1 k' p = if decide (k' = k ∧ p = n) then Some w else label v k' p.
Proof.
  unfold label, add_token. cbn. destruct (decide (k' = k)) as [->|Hk].
  - rewrite lookup_insert_eq. cbn. destruct (decide (p = n)) as [->|Hp].
    + by rewrite lookup_insert_eq, decide_True.
    + rewrite lookup_insert_ne, decide_False by (by intros [??] || done). by destruct (v !! k); cbn; rewrite ?lookup_empty.
  - rewrite lookup_insert_ne, decide_False by (by intros [??] || done). done.
Qed.

Lemma add_tokens_spec w ws : ∀ v n,
  let v' := (foldl (add_token w) (v, n) ws).1 in
  (∀ i k, ws !! i = Some k → label v' k (n + Z.of_nat i) = Some w) ∧
  (∀ k p, (p < n)%Z → label v' k p = label v k p) ∧
  (∀ k p x, label v' k p = Some x → label v k p = Some x ∨ (x = w ∧ (n ≤ p < n + Z.of_nat (length ws))%Z)) ∧
  (∀ k, is_Some (v' !! k) → is_Some (v !! k) ∨ k ∈ ws).
Proof.
  induction ws as [|t ws IH]; intros v n; cbn [foldl].
  { split_and!; [done|done|by left|by left]. }
  change (add_token w (v, n) t) with ((add_token w (v, n) t).1, (n + 1)%Z).
  destruct (IH (add_token w (v, n) t).1 (n + 1)%Z) as (H1 & H2 & H3 & H4). cbn zeta. split_and!.
  - intros [|i] k; cbn [lookup list_lookup].
    + intros [= ->]. rewrite H2, label_add_token, decide_True; [done|split; [done|lia]|lia].
    + intros Hi. specialize (H1 i k Hi). by replace (n + Z.of_nat (S i))%Z with (n + 1 + Z.of_nat i)%Z by lia.
  - intros k p Hp. rewrite H2, label_add_token, decide_False by (lia || (intros [_ ?]; lia)). done.
  - intros k p x [Hx|[-> Hp]]%H3; [|right; cbn [length]; split; [done|lia]].
    rewrite label_add_token in Hx. case_decide as Hc; [|by left]. destruct Hc as [-> ->]. injection Hx as <-.
    right. cbn [length]. split; [done|lia].
  - intros k [Hk|Hk]%H4; [|right; by right]. cbn in Hk. apply lookup_insert_is_Some' in Hk as [<-|?]; [right; by left|by left].
Qed.

Lemma AddText_spec v text w :
  tsv_ok v → w ∈ [65; 66; 67; 68]%Z →
  ∃ ws v', TokenizeFlat Tables text = Ok ws ∧ AddText Tables v text w = Ok v' ∧
    (∀ i k, ws !! i = Some k → label v' k (start_position v + Z.of_nat i) = Some w) ∧
    (∀ k p x, label v k p = Some x → (p < start_position v)%Z ∧ label v' k p = Some x) ∧
    ((start_position v + Z.of_nat (length ws) ≤ 2 ^ 63)%Z → tsv_ok v').
Proof.
  intros Hv Hw. destruct (TokenizeFlat_spec text) as (ws & E & Hws). exists ws. unfold AddText. rewrite E.
  cbn [mbind outcome_bind]. eexists. split; [done|]. split; [done|]. fold (start_position v).
  destruct (add_tokens_spec w ws v (start_position v)) as (H1 & H2 & H3 & H4).
  assert (Hstart : (1 ≤ last_position v ≤ start_position v)%Z).
  { pose proof (last_position_pos v). unfold start_position. destruct (1 <? last_position v)%Z; lia. }
  split_and!; [done| |].
  - intros k p x Hx. assert (p < start_position v)%Z by (apply last_position_bound in Hx; lia).
    split; [done|]. by rewrite H2.
  - intros Hb k labels Hk. split; cbn [fst snd].
    + destruct (H4 k) as [[ls Hls]|Hin]; [by eexists|by apply (Hv k ls Hls)|].
      rewrite Forall_forall in Hws. by apply Hws.
    + intros p x Hx. assert (Hl : label (foldl (add_token w) (v, start_position v) ws).1 k p = Some x)
        by (unfold label; by rewrite Hk).
      destruct (H3 k p x Hl) as [Hold|[-> Hp]]; [|split; cbn; [lia|done]].
      unfold label in Hold. destruct (v !! k) as [ls|] eqn:Els; [|done]. by apply (Hv k ls Els).
Qed.

(** ** Queries *)

(** The shape of a [tsquery]: terms joined by operators, each term optionally
    negated and optionally a prefix search, its body words or a query in
    parentheses. *)
Inductive query_parts : list runes → Prop :=
| qp_one neg e : atom e → query_parts ((if neg : bool then [runes_of "!"] else []) ++ [e])
| qp_more ps op neg e :
    query_parts ps → op ∈ [runes_of "&"; runes_of "|"; runes_of "<->"] → atom e →
    query_parts (ps ++ [op] ++ (if neg : bool then [runes_of "!"] else []) ++ [e])
with atom : runes → Prop :=
| atom_plain e : body e → atom e
| atom_prefix e : body e → atom (e ++ runes_of ":*")
with body : runes → Prop :=
| body_words (phrases : list (list runes)) :
    phrases ≠ [] → Forall (λ p, p ≠ [] ∧ Forall (λ w, w ≠ []) p) phrases →
    body (join (runes_of " & ") ((λ p, join (runes_of " <-> ") ((λ w, quoteLexeme w false) <$> p)) <$> phrases))
| body_parens ps : query_parts ps → body (runes_of "(" ++ join (runes_of " ") ps ++ runes_of ")").

Definition query_shape (ps : list runes) : Prop := ps = [] ∨ query_parts ps.

Lemma addExpr_shape parts op neg tokens e :
  query_shape parts → body e →
  query_parts (addExpr parts op neg tokens e).1 ∧ length (addExpr parts op neg tokens e).2 ≤ length tokens ∧
  (tokens ≠ [] → (addExpr parts op neg tokens e).2 ≠ []).
Proof.
  intros Hp He. unfold addExpr.
  assert (Hq : ∀ e', atom e' → query_parts
    ((if neg then match parts with [] => [] | _ => parts ++ [match op with
       | Some OperatorOr => runes_of "|" | Some OperatorFollowedBy => runes_of "<->" | _ => runes_of "&" end] end
       ++ [runes_of "!"]
     else match parts with [] => [] | _ => parts ++ [match op with
       | Some OperatorOr => runes_of "|" | Some OperatorFollowedBy => runes_of "<->" | _ => runes_of "&" end] end) ++ [e'])).
  { intros e' He'. destruct Hp as [->|Hp].
    - pose proof (qp_one neg e' He') as H1. destruct neg; exact H1.
    - destruct parts as [|x parts]; [inversion Hp as [[] ? ? E|? ? ? ? ? ? ? E]; [done..|by destruct ps]|].
      assert (Hop : ∀ o, o ∈ [runes_of "&"; runes_of "|"; runes_of "<->"] →
        query_parts ((if neg then ((x :: parts) ++ [o]) ++ [runes_of "!"] else (x :: parts) ++ [o]) ++ [e'])).
      { intros o Ho. pose proof (qp_more _ o neg e' Hp Ho He') as H1. destruct neg; rewrite <-!app_assoc; exact H1. }
      destruct op as [[]|]; apply Hop; set_solver. }
  destruct tokens as [|t [|t' tokens]].
  - split_and!; [apply Hq; by constructor|done..].
  - split_and!; [apply Hq; by constructor|done..].
  - case_decide; cbn [fst snd]; (split_and!; [apply Hq; by constructor|cbn; lia|done]).
Qed.

Lemma parens_tokens_length tokens : ∀ depth, length (parens_tokens depth tokens) ≤ length tokens.
Proof.
  induction tokens as [|t tokens IH]; intros depth; cbn; [done|].
  case_decide; cbn; [specialize (IH (S depth)); lia|]. case_decide; cbn; [|specialize (IH depth); lia].
  destruct depth as [|depth]; cbn; [lia|]. case_decide; cbn; [lia|]. specialize (IH depth). lia.
Qed.

Lemma toTsquery_shape fuel : ∀ parts op neg tokens,
  query_shape parts → length tokens < fuel →
  ∃ ps, toTsquery Tables fuel parts op neg tokens = Ok ps ∧ query_shape ps.
Proof.
  induction fuel as [|fuel IH]; intros parts op neg tokens Hp Hf; [lia|]. cbn [toTsquery].
  destruct tokens as [|t tokens]; [by exists parts|]. cbn [length tail] in *.
  assert (Hexpr : ∀ toks e, body e → length toks ≤ S (length tokens) → toks ≠ [] → ∃ ps,
    toTsquery Tables fuel (addExpr parts op neg toks e).1 None false (tail (addExpr parts op neg toks e).2) = Ok ps ∧
    query_shape ps).
  { intros toks e He Hle Hne. destruct (addExpr_shape parts op neg toks e Hp He) as (Hq & Hl & Hn).
    specialize (Hn Hne). apply IH; [by right|]. destruct (addExpr parts op neg toks e).2; [done|]. cbn in *. lia. }
  assert (Hskip : ∀ op neg toks, length toks ≤ S (length tokens) → toks ≠ [] → ∃ ps,
    toTsquery Tables fuel parts op neg (tail toks) = Ok ps ∧ query_shape ps).
  { intros op' neg' toks Hle Hne. apply IH; [done|]. destruct toks; [done|]. cbn in *. lia. }
  destruct (Token_ t).
  - destruct (TokenizeFlat_spec (Value t)) as (ws & -> & Hws). cbn [mbind outcome_bind].
    case_decide as Hz; [|by apply (Hskip op neg (t :: tokens))]. apply Hexpr; [|done|done].
    rewrite length_fmap in Hz. apply (body_words [ws]); [done|]. constructor; [|constructor].
    split; [by destruct ws; cbn in Hz; [lia|]|done].
  - pose proof (parens_tokens_length tokens 1) as Hpl.
    destruct (IH [] None false (parens_tokens 1 tokens)) as (inner & -> & Hin); [by left|lia|].
    cbn [mbind outcome_bind].
    assert (Hd : drop (length (parens_tokens 1 tokens)) (t :: tokens) ≠ []).
    { intros E%(f_equal length). rewrite length_drop in E. cbn in E. lia. }
    assert (Hdl : length (drop (length (parens_tokens 1 tokens)) (t :: tokens)) ≤ S (length tokens)).
    { rewrite length_drop. cbn. lia. }
    case_decide as Hz; [|by apply Hskip]. apply Hexpr; [|done|done]. apply body_parens.
    destruct Hin as [->|?]; [cbn in Hz; lia|done].
  - by apply (Hskip op neg (t :: tokens)).
  - by apply (Hskip (Op t) neg (t :: tokens)).
  - by apply (Hskip op true (t :: tokens)).
  - destruct (Tokenize_spec (Value t)) as (ps & -> & Hps). cbn [mbind outcome_bind].
    case_decide as Hz; [|by apply (Hskip op neg (t :: tokens))]. apply Hexpr; [|done|done].
    rewrite length_fmap in Hz. apply body_words.
    + intros E. rewrite E in Hz. cbn in Hz. lia.
    + apply Forall_forall. intros p [_ Hin]%list_elem_of_filter. rewrite Forall_forall in Hps. by apply Hps.
  - by apply (Hskip op neg (t :: tokens)).
Qed.

(** Reading tokens: every token consumes a rune. *)
Lemma readQuoted_loop_total fuel : ∀ q str l s,
  at_rest l s → length s < fuel →
  ∃ r l' s', readQuoted_loop fuel q str l = Ok (r, l') ∧ at_rest l' s' ∧ length s' ≤ length s.
Proof.
  induction fuel as [|fuel IH]; intros q str l s Hl Hf; [lia|]. cbn [readQuoted_loop]. unfold Read.
  rewrite Hl. destruct s as [|r s]; [by eexists _, _, []|]. cbn [length] in *.
  assert (Hrec : ∀ str l1 s1, at_rest l1 s1 → length s1 ≤ length s →
    ∃ x l' s', readQuoted_loop fuel q str l1 = Ok (x, l') ∧ at_rest l' s' ∧ length s' ≤ S (length s)).
  { intros str1 l1 s1 Hl1 Hs1. destruct (IH q str1 l1 s1 Hl1) as (x & l' & s' & E & ? & ?); [lia|].
    eexists _, _, s'. split_and!; [done..|lia]. }
  destruct (r =? q)%Z; [|by apply (Hrec _ _ s)]. set (l1 := mkLexer _ _ s).
  destruct (ReadChar_spec (E := fts_error) q l1 s) as [l2 Hl2]; [done|].
  destruct s as [|r' s]; [destruct Hl2 as [-> Hl2]; cbn; eexists _, _, []; split_and!; [done..|cbn; lia]|].
  destruct (q =? r')%Z; destruct Hl2 as [-> Hl2]; cbn [mbind outcome_bind].
  - apply (Hrec _ _ s); [done|cbn; lia].
  - eexists _, _, (r' :: s). split_and!; [done..|cbn; lia].
Qed.

Lemma ReadChar_total c l s :
  at_rest l s → ∃ b l' s', ReadChar (E := fts_error) c l = Ok (b, l') ∧ at_rest l' s' ∧
    (if b : bool then length s' < length s else s' = s).
Proof.
  intros Hl. destruct (ReadChar_spec (E := fts_error) c l s Hl) as [l' H'].
  destruct s as [|r s]; [destruct H' as [-> H']; by exists false, l', []|].
  destruct (c =? r)%Z; destruct H' as [-> H']; [exists true, l', s|exists false, l', (r :: s)]; split_and!; try done. cbn. lia.
Qed.

Lemma readQuotedString_total q l s :
  at_rest l s → ∃ r l' s', readQuotedString q l = Ok (r, l') ∧ at_rest l' s' ∧ length s' ≤ length s ∧
    (r.1 ≠ [] → length s' < length s).
Proof.
  intros Hl. unfold readQuotedString. destruct (ReadChar_total q l s Hl) as (b & l1 & s1 & -> & Hl1 & Hb).
  cbn [mbind outcome_bind]. destruct b; cbn [negb].
  - destruct (readQuoted_loop_total (S (length (rest l1))) q [] l1 s1 Hl1) as (r & l2 & s2 & -> & ? & ?);
      [rewrite Hl1; lia|]. eexists _, _, s2. split_and!; [done..|lia|]. intros _. lia.
  - subst s1. eexists _, _, s. by split_and!.
Qed.

Lemma span_consumes fn s : (span fn s).1 ≠ [] → length (span fn s).2 < length s.
Proof. intros Hne. pose proof (span_length fn s). destruct (span fn s).1; [done|]. cbn in *. lia. Qed.

(** Takes the first alternative that fails to match off the goal. *)
Ltac read_char c :=
  match goal with Hl : at_rest ?l ?s |- context [ReadChar c ?l] =>
    let b := fresh "b" in let l' := fresh "l" in let s' := fresh "s" in let Hl' := fresh "Hl" in let Hb := fresh "Hb" in
    destruct (ReadChar_total c l s Hl) as (b & l' & s' & -> & Hl' & Hb); cbn [mbind outcome_bind];
    destruct b; [by eexists _, _, s'; split_and!; [..|lia|intros _; lia]|subst s'; clear Hl; rename Hl' into Hl]
  end.

Lemma readQueryToken_total fuel : ∀ l s,
  at_rest l s → length s < fuel →
  ∃ t l' s', readQueryToken fuel l = Ok (t, l') ∧ at_rest l' s' ∧ length s' ≤ length s ∧
    (t ≠ None → length s' < length s).
Proof.
  induction fuel as [|fuel IH]; intros l s Hl Hf; [lia|]. cbn [readQueryToken].
  destruct (IsEOF_spec (E := fts_error) l s Hl) as (l0 & -> & Hl0). cbn [mbind outcome_bind].
  case_bool_decide as Hs; [by eexists _, _, s; split_and!|].
  assert (0 < length s) by (destruct s; [done|cbn; lia]).
  read_char 40%Z. read_char 41%Z. read_char 38%Z. read_char 124%Z. read_char 46%Z. read_char 33%Z. read_char 42%Z.
  match goal with Hl : at_rest ?l s |- context [readQuotedString 34 ?l] =>
    destruct (readQuotedString_total 34 l s Hl) as ([q err] & lq & sq & -> & Hlq & Hle & Hlt) end.
  cbn [mbind outcome_bind fst] in *.
  case_decide as Hq; [eexists _, _, sq; split_and!; [done..|intros _; auto]|].
  destruct (ReadWhile_spec (E := fts_error) IsWordChar lq sq Hlq) as (lw & -> & Hlw). cbn [mbind outcome_bind].
  pose proof (span_length IsWordChar sq) as Hsp.
  case_decide as Hw.
  { eexists _, _, _. split_and!; [done..|lia|]. intros _. apply span_consumes in Hw. lia. }
  destruct (IH (Read lw).2 (tail (span IsWordChar sq).2)) as (t & l' & s' & E & Hl' & Hle' & Hlt').
  - unfold Read. rewrite Hlw. by destruct (span IsWordChar sq).2.
  - destruct (span IsWordChar sq).2; cbn in *; lia.
  - eexists _, _, s'. split_and!; [done..| |].
    + destruct (span IsWordChar sq).2; cbn in *; lia.
    + intros Ht. specialize (Hlt' Ht). destruct (span IsWordChar sq).2; cbn in *; lia.
Qed.

Lemma readQueryTokens_total fuel : ∀ tokens l s,
  at_rest l s → length s < fuel → ∃ ts, readQueryTokens fuel tokens l = Ok ts.
Proof.
  induction fuel as [|fuel IH]; intros tokens l s Hl Hf; [lia|]. cbn [readQueryTokens].
  destruct (readQueryToken_total (S (length (rest l))) l s Hl) as (t & l' & s' & -> & Hl' & Hle & Hlt);
    [rewrite Hl; lia|]. cbn [mbind outcome_bind]. destruct t as [t|]; [|by eexists].
  apply (IH _ l' s' Hl'). assert (length s' < length s) by auto. lia.
Qed.

End tokenizer.

(** ** The theorems *)

(** C14: a text search vector survives its text form: what [String] prints,
    [ParseTsvector] reads back, for every vector with non-empty lexemes
    (quotes and spaces included), positions from 1 to the largest [int] and
    the weights A to D. *)
Theorem tsvector_roundtrip v : tsv_ok v → ParseTsvector (Tsvector_String v) = Ok v.
Proof. apply Tsvector_parse_String. Qed.

(** adding text to a vector always succeeds, files the tokens in order at
    consecutive positions after every position in use, keeps all labels that
    were there, and leaves a vector that still has a text form. *)
Theorem tsvector_add_text Tables v text w :
  tsv_ok v → w ∈ [65; 66; 67; 68]%Z →
  ∃ ws v', TokenizeFlat Tables text = Ok ws ∧ AddText Tables v text w = Ok v' ∧
    (∀ i k, ws !! i = Some k → label v' k (start_position v + Z.of_nat i) = Some w) ∧
    (∀ k p x, label v k p = Some x → (p < start_position v)%Z ∧ label v' k p = Some x) ∧
    ((start_position v + Z.of_nat (length ws) ≤ 2 ^ 63)%Z →
       tsv_ok v' ∧ ParseTsvector (Tsvector_String v') = Ok v').
Proof.
  intros Hv Hw. destruct (AddText_spec Tables v text w Hv Hw) as (ws & v' & E1 & E2 & H1 & H2 & H3).
  exists ws, v'. split_and!; [done..|]. intros Hb. split; [by apply H3|]. by apply Tsvector_parse_String, H3.
Qed.

(** every search text translates to a well-formed [tsquery], or to the
    empty one: operators only between terms, negation and prefix marks only
    on a term, parentheses closed around non-empty queries, whatever the text
    and the transliteration tables are. *)
Theorem tsquery_well_formed Tables str :
  ∃ out, AppQueryToTsquery Tables str = Ok out ∧
    (out = [] ∨ ∃ ps, query_parts ps ∧ out = join (runes_of " ") ps).
Proof.
  unfold AppQueryToTsquery.
  destruct (readQueryTokens_total (S (length str)) [] (NewLexer str) str) as [ts ->]; [done|lia|].
  cbn [mbind outcome_bind]. unfold appQueryTokensToTsquery.
  destruct (toTsquery_shape Tables (S (length ts)) [] None false ts) as (ps & -> & Hps); [by left|lia|].
  cbn [mbind outcome_bind]. eexists. split; [done|]. destruct Hps as [->|Hps]; [by left|right; by exists ps].
Qed.

End parse_laws.

(** ** Examples: the unit tests of the package, over ASCII *)

#[local] Existing Instance ascii_unicode.
#[local] Existing Instance ascii_unicode_laws.

Definition no_tables : Z → option (list runes) := λ _, None.

Definition ex_vector : Tsvector :=
  list_to_map [(runes_of "a", list_to_map [(1, 65)]); (runes_of "bb", list_to_map [(2, 66); (5, 68)]);
               (runes_of "cc ccc", list_to_map [(3, 67)]); (runes_of "dD'Dd'", list_to_map [(4, 68)]);
               (runes_of "e", ∅)]%Z.

Lemma ex_parse :
  ParseTsvector (runes_of " 'a':1A bb:2b 'cc ccc':3C  'dD''Dd''':4D e a bb:5 ") = Ok ex_vector ∧
  Tsvector_String ex_vector = runes_of "'a':1A 'bb':2B,5 'cc ccc':3C 'dD''Dd''':4 'e'".
Proof. split; vm_compute; reflexivity. Qed.

Lemma ex_queries :
  AppQueryToTsquery no_tables (runes_of "foo Bar") = Ok (runes_of "foo & bar") ∧
  AppQueryToTsquery no_tables (runes_of "&eacute;") = Ok (runes_of "eacute") ∧
  AppQueryToTsquery no_tables ([34%Z] ++ runes_of "make me a " ++ [34%Z] ++ runes_of " . (sandwich | panini) !cheese mayo*")
    = Ok (runes_of "make <-> me <-> a <-> (sandwich | panini) & ! cheese & mayo:*").
Proof. split_and!; vm_compute; reflexivity. Qed.

(** Decides [tsv_ok]. *)
Definition tsv_okb (v : Tsvector) : bool :=
  bool_decide (map_Forall (λ k labels, k ≠ [] ∧
    map_Forall (λ p w, (0 < p)%Z ∧ (p < 2 ^ 63)%Z ∧ w ∈ [65; 66; 67; 68]%Z) labels) v).

Lemma tsv_okb_sound v : tsv_okb v = true → tsv_ok v.
Proof.
  intros Hv%bool_decide_eq_true_1 k labels Hk. destruct (Hv k labels Hk) as [Hne Hl]. split; [done|].
  intros p w Hp. destruct (Hl p w Hp) as (? & ? & ?). by split.
Qed.

Lemma ex_vector_ok : tsv_ok ex_vector.
Proof. apply tsv_okb_sound. vm_compute. reflexivity. Qed.

Lemma tsvector_roundtrip_witness : ParseTsvector (Tsvector_String ex_vector) = Ok ex_vector.
Proof. apply (tsvector_roundtrip ex_vector). apply ex_vector_ok. Defined.

Lemma tsvector_add_text_witness :
  ∃ ws v', TokenizeFlat no_tables (runes_of "Foo-bar foo") = Ok ws ∧
    AddText no_tables ex_vector (runes_of "Foo-bar foo") 65 = Ok v' ∧
    (∀ i k, ws !! i = Some k → label v' k (start_position ex_vector + Z.of_nat i) = Some 65%Z) ∧
    (∀ k p x, label ex_vector k p = Some x → (p < start_position ex_vector)%Z ∧ label v' k p = Some x) ∧
    ((start_position ex_vector + Z.of_nat (length ws) ≤ 2 ^ 63)%Z →
       tsv_ok v' ∧ ParseTsvector (Tsvector_String v') = Ok v').
Proof.
  apply (tsvector_add_text no_tables ex_vector (runes_of "Foo-bar foo") 65); [apply ex_vector_ok|left].
Defined.

Lemma tsquery_well_formed_witness :
  ∃ out, AppQueryToTsquery no_tables (runes_of "(foo | !bar*) baz)") = Ok out ∧
    (out = [] ∨ ∃ ps, query_parts ps ∧ out = join (runes_of " ") ps).
Proof. apply (tsquery_well_formed no_tables (runes_of "(foo | !bar*) baz)")). Defined.

Lemma ex_add_text :
  Tsvector_String <$> AddText no_tables ∅ (runes_of "Foo-bar foo") 65 = Ok (runes_of "'bar':2A 'foo':1A,3A").
Proof. vm_compute. reflexivity. Qed.

End Fts.
