(* ===== verification/PeerRep.v ===== *)
(** * Peer reputation

    [internal/protocol/metainfo/peerrep]: which peers to leave alone for a
    while after failed metadata requests.  The bounded cache is the LRU of
    hashicorp/golang-lru, an interface here; its values are pointers, so a
    write to a field is [lru_poke], a change in place.  [Decide] and
    [RecordFailure] read the clock twice, once to test expiry and once for the
    suppression, and so take two times. *)
From S2P Require Import Prelude Net.
From stdpp Require Import gmap list strings.
From Stdlib Require Import ZArith Lia.

Module PeerRep.
Import Net.

Abbreviation Time := Z.
Definition time_zero : Time := 0%Z.
Definition Minute : Z := 60000000000.
Definition Hour : Z := 3600000000000.

(** ** Configuration (config.go) *)

Inductive ErrorClass :=
| ClassUnknown | ClassDialTimeout | ClassNetworkError | ClassHandshakeFail | ClassNoUtMetadata
| ClassMetadataTimeout | ClassKRPCError | ClassConnectionRefused | ClassPeerClosed | ClassHashMismatch.
#[global] Instance ErrorClass_eq_dec : EqDecision ErrorClass.
Proof. solve_decision. Defined.

Definition ErrorClass_String (c : ErrorClass) : string :=
  match c with
  | ClassDialTimeout => "dial_timeout"
  | ClassNetworkError => "network_error"
  | ClassHandshakeFail => "handshake_fail"
  | ClassNoUtMetadata => "no_ut_metadata"
  | ClassMetadataTimeout => "metadata_timeout"
  | ClassKRPCError => "krpc_error"
  | ClassConnectionRefused => "connection_refused"
  | ClassPeerClosed => "peer_closed"
  | ClassHashMismatch => "hash_mismatch"
  | ClassUnknown => "unknown"
  end.

Record Config := mkConfig {
  Enabled : bool;
  Enforce : bool;
  MaxEntries : Z;
  TTL : Z;
  DialTimeoutBackoff : list Z;
  ConnectionRefusedBackoff : list Z;
  NetworkErrorBackoff : list Z;
  PeerClosedBackoff : list Z;
  HandshakeFailBackoff : list Z;
  HashMismatchBackoff : list Z;
  NoUtMetadataBackoff : list Z;
  MetadataTimeoutBackoff : list Z;
  KRPCErrorBackoff : list Z
}.

Definition defaultMaxEntries : Z := 100000.
Definition defaultTTL : Z := 24 * Hour.

Definition NewDefaultConfig : Config := {|
  Enabled := false;
  Enforce := false;
  MaxEntries := defaultMaxEntries;
  TTL := defaultTTL;
  DialTimeoutBackoff := [10 * Minute; 30 * Minute; 2 * Hour]%Z;
  ConnectionRefusedBackoff := [30 * Minute; 2 * Hour; 6 * Hour]%Z;
  NetworkErrorBackoff := [10 * Minute; 30 * Minute; 2 * Hour]%Z;
  PeerClosedBackoff := [15 * Minute; 1 * Hour; 4 * Hour]%Z;
  HandshakeFailBackoff := [1 * Hour; 6 * Hour; 24 * Hour]%Z;
  HashMismatchBackoff := [6 * Hour; 24 * Hour]%Z;
  NoUtMetadataBackoff := [6 * Hour; 24 * Hour]%Z;
  MetadataTimeoutBackoff := [15 * Minute; 1 * Hour; 6 * Hour]%Z;
  KRPCErrorBackoff := [1 * Hour; 6 * Hour; 24 * Hour]%Z
|}.

(** ** The cache *)

Record peerState := mkPeerState {
  consecutiveFailures : Z;
  lastClass : ErrorClass;
  suppressedUntil : Time;
  expiresAt : Time
}.

(** The operations of [simplelru.LRU] that the store calls, and the write
    through a pointer it holds. *)
Class LRU (L : Type) := {
  lru_Peek : L → AddrPort → option peerState;
  lru_Get : L → AddrPort → option peerState * L;
  lru_Add : L → AddrPort → peerState → L;
  lru_Remove : L → AddrPort → L;
  lru_poke : L → AddrPort → peerState → L;
  lru_Len : L → nat;
  lru_New : Z → L
}.

(** The keys of the cache, from the oldest to the newest, after [k] is used in
    a cache of size [n]: [k] becomes the newest, and the oldest goes when there
    is no room. *)
Definition touch (n : Z) (k : AddrPort) (ks : list AddrPort) : list AddrPort :=
  let rest := filter (λ k', k' ≠ k) ks in
  (if (n <=? Z.of_nat (length rest))%Z then tail rest else rest) ++ [k].

(** What the library documents: a map of bounded size with its keys in order
    of use, from the oldest to the newest (its [Keys]).  [Get] and [Add] use a
    key, [Peek] does not, and an [Add] that makes the cache too large evicts
    the oldest key. *)
Class LRULaws (L : Type) `{LRU L} := {
  lru_inv : Z → L → Prop;
  lru_keys : L → list AddrPort;
  law_new n : (0 < n)%Z → lru_inv n (lru_New n) ∧ ∀ k, lru_Peek (lru_New n) k = None;
  law_keys n l : lru_inv n l → NoDup (lru_keys l) ∧ (Z.of_nat (length (lru_keys l)) ≤ n)%Z ∧
    ∀ k, k ∈ lru_keys l ↔ is_Some (lru_Peek l k);
  law_get n l k : lru_inv n l → (lru_Get l k).1 = lru_Peek l k ∧ lru_inv n (lru_Get l k).2 ∧
    (∀ k', lru_Peek (lru_Get l k).2 k' = lru_Peek l k') ∧
    lru_keys (lru_Get l k).2 = (if lru_Peek l k then touch n k (lru_keys l) else lru_keys l);
  law_add n l k v : lru_inv n l → lru_inv n (lru_Add l k v) ∧ lru_Peek (lru_Add l k v) k = Some v ∧
    (∀ k', k' ≠ k → lru_Peek (lru_Add l k v) k' = lru_Peek l k' ∨ lru_Peek (lru_Add l k v) k' = None) ∧
    lru_keys (lru_Add l k v) = touch n k (lru_keys l);
  law_remove n l k : lru_inv n l → lru_inv n (lru_Remove l k) ∧ lru_Peek (lru_Remove l k) k = None ∧
    (∀ k', k' ≠ k → lru_Peek (lru_Remove l k) k' = lru_Peek l k') ∧
    lru_keys (lru_Remove l k) = filter (λ k', k' ≠ k) (lru_keys l);
  law_poke n l k v v0 : lru_inv n l → lru_Peek l k = Some v0 → lru_inv n (lru_poke l k v) ∧
    lru_Peek (lru_poke l k v) k = Some v ∧ (∀ k', k' ≠ k → lru_Peek (lru_poke l k v) k' = lru_Peek l k') ∧
    lru_keys (lru_poke l k v) = lru_keys l;
  law_len n l : lru_inv n l → (Z.of_nat (lru_Len l) ≤ n)%Z
}.

(** ** The store (store.go) *)

Record Store (L : Type) := mkStore { cfg : Config; lru : L }.
#[global] Arguments mkStore {L}.
#[global] Arguments cfg {L}.
#[global] Arguments lru {L}.

Section store.
Context {L : Type} `{LRU L}.
Implicit Types s : Store L.

Definition with_limits (c : Config) (maxEntries ttl : Z) : Config :=
  mkConfig (Enabled c) (Enforce c) maxEntries ttl (DialTimeoutBackoff c) (ConnectionRefusedBackoff c)
    (NetworkErrorBackoff c) (PeerClosedBackoff c) (HandshakeFailBackoff c) (HashMismatchBackoff c)
    (NoUtMetadataBackoff c) (MetadataTimeoutBackoff c) (KRPCErrorBackoff c).

(** [NewLRU] fails only on a non-positive size. *)
Definition NewStore (c : Config) : go (Store L) :=
  let c := if (MaxEntries c <=? 0)%Z then with_limits c defaultMaxEntries (TTL c) else c in
  let c := if (TTL c <=? 0)%Z then with_limits c (MaxEntries c) defaultTTL else c in
  if (MaxEntries c <=? 0)%Z then Panic else Ok (mkStore c (lru_New (MaxEntries c))).

Definition peek (now : Time) s (key : AddrPort) : option peerState * Store L :=
  match lru_Peek (lru s) key with
  | None => (None, s)
  | Some v =>
    if (expiresAt v <? now)%Z then (None, mkStore (cfg s) (lru_Remove (lru s) key)) else (Some v, s)
  end.

Definition upsert (now : Time) s (key : AddrPort) : peerState * Store L :=
  let '(v, l) := lru_Get (lru s) key in
  let fresh l :=
    let st := mkPeerState 0 ClassUnknown time_zero (now + TTL (cfg s)) in
    (st, mkStore (cfg s) (lru_Add l key st)) in
  match v with
  | Some v => if negb (expiresAt v <? now)%Z then (v, mkStore (cfg s) l) else fresh (lru_Remove l key)
  | None => fresh l
  end.

Definition Len s : nat := lru_Len (lru s).

(** ** Decisions (decision.go) *)

Record Decision := mkDecision { dec_Allow : bool; WouldSkip : bool; LastClass : ErrorClass }.

Definition Decide (now now' : Time) s (peer : AddrPort) : Decision * Store L :=
  if negb (Enabled (cfg s)) then (mkDecision true false ClassUnknown, s)
  else
    let '(st, s) := peek now s peer in
    match st with
    | None => (mkDecision true false ClassUnknown, s)
    | Some st =>
      if (suppressedUntil st =? time_zero)%Z then (mkDecision true false ClassUnknown, s)
      else if (now' <? suppressedUntil st)%Z then
        (mkDecision (negb (Enforce (cfg s))) true (lastClass st), s)
      else
        (mkDecision true false (lastClass st),
         mkStore (cfg s) (lru_poke (lru s) peer
           (mkPeerState (consecutiveFailures st) (lastClass st) time_zero (expiresAt st))))
    end.

Definition RecordSuccess (now : Time) s (peer : AddrPort) : Store L :=
  if negb (Enabled (cfg s)) then s
  else
    let '(st, s) := upsert now s peer in
    mkStore (cfg s) (lru_poke (lru s) peer (mkPeerState 0 (lastClass st) time_zero (expiresAt st))).

Definition scheduleFor (c : Config) (class : ErrorClass) : list Z :=
  let sched :=
    match class with
    | ClassDialTimeout => DialTimeoutBackoff c
    | ClassConnectionRefused => ConnectionRefusedBackoff c
    | ClassNetworkError => NetworkErrorBackoff c
    | ClassPeerClosed => PeerClosedBackoff c
    | ClassHandshakeFail => HandshakeFailBackoff c
    | ClassHashMismatch => HashMismatchBackoff c
    | ClassNoUtMetadata => NoUtMetadataBackoff c
    | ClassMetadataTimeout => MetadataTimeoutBackoff c
    | ClassKRPCError => KRPCErrorBackoff c
    | ClassUnknown => []
    end in
  if decide (0 < length sched) then sched else NetworkErrorBackoff c.

(** The counter is an [int]: past its largest value the index is negative and
    reading the schedule panics. *)
Definition RecordFailure (now now' : Time) s (peer : AddrPort) (class : ErrorClass) : go (Store L) :=
  if negb (Enabled (cfg s)) then Ok s
  else
    let '(st, s) := upsert now s peer in
    let failures := if decide (class ≠ lastClass st) then 0%Z else consecutiveFailures st in
    let failures := int64 (failures + 1) in
    let schedule := scheduleFor (cfg s) class in
    if decide (length schedule = 0) then
      Ok (mkStore (cfg s) (lru_poke (lru s) peer (mkPeerState failures class time_zero (expiresAt st))))
    else
      let idx := (failures - 1)%Z in
      let idx := if (Z.of_nat (length schedule) <=? idx)%Z then (Z.of_nat (length schedule) - 1)%Z else idx in
      if (idx <? 0)%Z then Panic
      else
        d ← of_option (schedule !! Z.to_nat idx);
        Ok (mkStore (cfg s) (lru_poke (lru s) peer (mkPeerState failures class (now' + d) (expiresAt st)))).

End store.

(** ** Lemmas *)

Section laws.
Context {L : Type} `{LRULaws L}.
Implicit Types s : Store L.

Definition store_inv s : Prop := lru_inv (MaxEntries (cfg s)) (lru s) ∧ (0 < TTL (cfg s))%Z.

(** The entry of a peer that counts at time [now]. *)
Definition live (now : Time) s (peer : AddrPort) : option peerState :=
  match lru_Peek (lru s) peer with
  | Some v => if (expiresAt v <? now)%Z then None else Some v
  | None => None
  end.

Definition fresh_state (now : Time) s : peerState := mkPeerState 0 ClassUnknown time_zero (now + TTL (cfg s)).

Definition store_keys s : list AddrPort := lru_keys (lru s).

Lemma filter_absent (k : AddrPort) (ks : list AddrPort) : k ∉ ks → filter (λ k', k' ≠ k) ks = ks.
Proof.
  induction ks as [|k0 ks IH]; [done|]. intros [Hne Hk]%not_elem_of_cons. rewrite filter_cons_True by auto. by rewrite IH.
Qed.

Lemma absent_key n l k : lru_inv n l → lru_Peek l k = None → k ∉ lru_keys l.
Proof. intros Hi E [v Hv]%(law_keys n l Hi). congruence. Qed.

(** Removing a key before using it makes no difference. *)
Lemma touch_filter n k ks :
  NoDup ks → (Z.of_nat (length ks) ≤ n)%Z → k ∈ ks → touch n k (filter (λ k', k' ≠ k) (touch n k ks)) = touch n k ks.
Proof.
  intros Hnd Hlen Hk. assert (length (filter (λ k', k' ≠ k) ks) < length ks) as Hlt.
  { apply length_filter_lt with k; [done|]. by intros []. }
  unfold touch at 2. cbv zeta. rewrite (proj2 (Z.leb_gt _ _)) by lia.
  unfold touch. cbv zeta. rewrite filter_app, filter_cons_False, filter_nil, app_nil_r by auto.
  by rewrite !list_filter_filter_l by auto.
Qed.

(** Entries of other peers stay or are evicted. *)
Definition others_kept (peer : AddrPort) s s' : Prop :=
  ∀ p, p ≠ peer → lru_Peek (lru s') p = lru_Peek (lru s) p ∨ lru_Peek (lru s') p = None.

Lemma peek_spec now s peer :
  store_inv s → (peek now s peer).1 = live now s peer ∧ store_inv (peek now s peer).2 ∧
    cfg (peek now s peer).2 = cfg s ∧
    lru_Peek (lru (peek now s peer).2) peer = live now s peer ∧
    (∀ p, p ≠ peer → lru_Peek (lru (peek now s peer).2) p = lru_Peek (lru s) p) ∧
    store_keys (peek now s peer).2 = (if live now s peer then store_keys s else filter (λ k, k ≠ peer) (store_keys s)).
Proof.
  intros [Hi Ht]. unfold peek, live, store_keys. destruct (lru_Peek (lru s) peer) as [v|] eqn:E.
  - destruct (expiresAt v <? now)%Z; cbn; [|done].
    destruct (law_remove _ _ peer Hi) as (? & ? & ? & ?). by split_and!.
  - split_and!; try done. symmetry. by apply filter_absent, (absent_key _ _ _ Hi).
Qed.

Lemma upsert_spec now s peer :
  store_inv s →
  (upsert now s peer).1 = default (fresh_state now s) (live now s peer) ∧
  store_inv (upsert now s peer).2 ∧ cfg (upsert now s peer).2 = cfg s ∧
  lru_Peek (lru (upsert now s peer).2) peer = Some (upsert now s peer).1 ∧
  others_kept peer s (upsert now s peer).2 ∧
  store_keys (upsert now s peer).2 = touch (MaxEntries (cfg s)) peer (store_keys s).
Proof.
  intros [Hi Ht]. unfold upsert, live, others_kept, store_keys.
  destruct (law_keys _ _ Hi) as (Hnd & Hlen & Hin).
  destruct (law_get _ _ peer Hi) as (Eg & Hi' & Hp & Hks). destruct (lru_Get (lru s) peer) as [v l]. cbn [fst snd] in *.
  subst v. destruct (lru_Peek (lru s) peer) as [v|] eqn:E.
  - destruct (expiresAt v <? now)%Z; cbn [negb fst snd default cfg lru].
    + destruct (law_remove _ _ peer Hi') as (Hr & _ & Hro & Hrk).
      destruct (law_add _ _ peer (fresh_state now s) Hr) as (Ha & Hak & Hao & Hka).
      split_and!; [done|by split|done|done| |].
      * intros p Hne. destruct (Hao p Hne) as [E'|E']; [left|by right]. etrans; [exact E'|]. by rewrite Hro, Hp.
      * etrans; [exact Hka|]. rewrite Hrk, Hks. apply touch_filter; [done..|]. apply Hin. by eexists.
    + split_and!; [done|by split|done|by rewrite Hp| |done]. intros p Hne. rewrite Hp. by left.
  - cbn [fst snd default cfg lru]. destruct (law_add _ _ peer (fresh_state now s) Hi') as (Ha & Hak & Hao & Hka).
    split_and!; [done|by split|done|done| |etrans; [exact Hka|by rewrite Hks]].
    intros p Hne. destruct (Hao p Hne) as [E'|E']; [left|by right]. etrans; [exact E'|]. by rewrite Hp.
Qed.

(** A peer is in active backoff. *)
Definition suppressed (now now' : Time) s (peer : AddrPort) : bool :=
  match live now s peer with
  | Some st => negb (suppressedUntil st =? time_zero)%Z && (now' <? suppressedUntil st)%Z
  | None => false
  end.

(** What a decision leaves of an entry. *)
Definition after_decide (now' : Time) (st : peerState) : peerState :=
  if (now' <? suppressedUntil st)%Z then st
  else mkPeerState (consecutiveFailures st) (lastClass st) time_zero (expiresAt st).

Lemma Decide_spec now now' s peer :
  store_inv s → Enabled (cfg s) = true →
  let d := (Decide now now' s peer).1 in let s' := (Decide now now' s peer).2 in
  WouldSkip d = suppressed now now' s peer ∧
  dec_Allow d = negb (WouldSkip d && Enforce (cfg s)) ∧
  store_inv s' ∧ cfg s' = cfg s ∧
  (∀ p, p ≠ peer → lru_Peek (lru s') p = lru_Peek (lru s) p) ∧
  lru_Peek (lru s') peer = after_decide now' <$> live now s peer ∧
  store_keys s' = (if live now s peer then store_keys s else filter (λ k, k ≠ peer) (store_keys s)).
Proof.
  intros Hinv Hen. destruct (peek_spec now s peer Hinv) as (E1 & [Hi' Ht'] & Ec & Hk & Hoth & Hks).
  unfold Decide, suppressed, after_decide. rewrite Hen. cbn [negb].
  destruct (peek now s peer) as [o s'] eqn:Ep. cbn [fst snd] in *. subst o.
  destruct (live now s peer) as [st|] eqn:El; cbn [fmap option_fmap option_map].
  - destruct (Z.eqb_spec (suppressedUntil st) time_zero) as [Hz|Hz]; [|destruct (Z.ltb_spec now' (suppressedUntil st))]; cbn.
    + split_and!; try done. rewrite Hk. destruct st as [n c u e]. cbn in Hz. subst u. cbn. by destruct (now' <? time_zero)%Z.
    + split_and!; try done. by rewrite Ec.
    + destruct (law_poke _ _ peer (mkPeerState (consecutiveFailures st) (lastClass st) time_zero (expiresAt st)) st Hi' Hk)
        as (Hpi & Hpk & Hpo & Hpks).
      split_and!; try done; [intros p Hne; by rewrite Hpo, Hoth|]. etrans; [exact Hpks|exact Hks].
  - by split_and!.
Qed.

Lemma RecordSuccess_spec now s peer :
  store_inv s → Enabled (cfg s) = true →
  store_inv (RecordSuccess now s peer) ∧ cfg (RecordSuccess now s peer) = cfg s ∧
  others_kept peer s (RecordSuccess now s peer) ∧
  store_keys (RecordSuccess now s peer) = touch (MaxEntries (cfg s)) peer (store_keys s) ∧
  let st := default (fresh_state now s) (live now s peer) in
  lru_Peek (lru (RecordSuccess now s peer)) peer = Some (mkPeerState 0 (lastClass st) time_zero (expiresAt st)).
Proof.
  intros Hinv Hen. destruct (upsert_spec now s peer Hinv) as (E1 & [Hi' Ht'] & Ec & Hk & Ho & Hks).
  unfold RecordSuccess. rewrite Hen. cbn [negb]. destruct (upsert now s peer) as [st s']. cbn [fst snd] in *.
  destruct (law_poke _ _ peer (mkPeerState 0 (lastClass st) time_zero (expiresAt st)) st Hi' Hk) as (Hpi & Hpk & Hpo & Hpks).
  cbn [cfg lru]. split_and!; [by split|done| |etrans; [exact Hpks|exact Hks]|by rewrite Hpk, E1].
  intros p Hne. cbn [lru]. rewrite Hpo by done. by apply Ho.
Qed.

(** The suppression that the [n]-th failure in a row leads to: the schedule's
    entry at [n - 1], its last entry from there on. *)
Definition backoff_until (c : Config) (class : ErrorClass) (n : Z) (now' : Time) : Time :=
  match scheduleFor c class !! Z.to_nat (Z.min (n - 1) (Z.of_nat (length (scheduleFor c class)) - 1)) with
  | Some d => now' + d
  | None => time_zero
  end%Z.

(** The entry a failure leaves, from the entry before. *)
Definition after_failure (c : Config) (now' : Time) (class : ErrorClass) (st : peerState) : peerState :=
  let n := ((if decide (class = lastClass st) then consecutiveFailures st else 0) + 1)%Z in
  mkPeerState n class (backoff_until c class n now') (expiresAt st).

Lemma RecordFailure_spec now now' s peer class :
  store_inv s → Enabled (cfg s) = true →
  let st := default (fresh_state now s) (live now s peer) in
  (0 ≤ consecutiveFailures st < 2 ^ 63 - 1)%Z →
  ∃ s', RecordFailure now now' s peer class = Ok s' ∧ store_inv s' ∧ cfg s' = cfg s ∧ others_kept peer s s' ∧
    store_keys s' = touch (MaxEntries (cfg s)) peer (store_keys s) ∧
    lru_Peek (lru s') peer = Some (after_failure (cfg s) now' class st).
Proof.
  intros Hinv Hen st Hn0. destruct (upsert_spec now s peer Hinv) as (E1 & Hinv' & Ec & Hk & Ho & Hks).
  fold st in E1. unfold RecordFailure. rewrite Hen. cbn [negb]. destruct (upsert now s peer) as [st' s']. cbn [fst snd] in *.
  subst st'.
  assert (Hpoke : ∀ v, let s'' := mkStore (cfg s') (lru_poke (lru s') peer v) in
    store_inv s'' ∧ cfg s'' = cfg s ∧ others_kept peer s s'' ∧
    store_keys s'' = touch (MaxEntries (cfg s)) peer (store_keys s) ∧ lru_Peek (lru s'') peer = Some v).
  { intros v. destruct Hinv' as [Hi' Ht']. destruct (law_poke _ _ peer v st Hi' Hk) as (Hpi & Hpk & Hpo & Hpks). cbn.
    split_and!; try done; [|etrans; [exact Hpks|exact Hks]]. intros p Hne. cbn [lru]. rewrite Hpo by done. by apply Ho. }
  rewrite Ec in *. unfold after_failure, backoff_until. cbv zeta. set (sched := scheduleFor (cfg s) class) in *.
  assert ((if decide (class ≠ lastClass st) then 0%Z else consecutiveFailures st)
    = (if decide (class = lastClass st) then consecutiveFailures st else 0%Z)) as ->
    by (by destruct (decide (class = lastClass st)), (decide (class ≠ lastClass st))).
  set (n0 := if decide (class = lastClass st) then consecutiveFailures st else 0%Z).
  assert (0 ≤ n0 < 2 ^ 63 - 1)%Z by (unfold n0; destruct (decide _); lia).
  assert (int64 (n0 + 1) = n0 + 1)%Z as -> by (unfold int64, wrap; rewrite Z.mod_small by lia; lia).
  destruct (decide (length sched = 0)) as [Hz|Hz].
  { eexists. split; [done|]. apply nil_length_inv in Hz. rewrite Hz. apply Hpoke. }
  assert ((if (Z.of_nat (length sched) <=? n0 + 1 - 1)%Z then (Z.of_nat (length sched) - 1)%Z else (n0 + 1 - 1)%Z)
    = Z.min (n0 + 1 - 1) (Z.of_nat (length sched) - 1)) as ->
    by (destruct (Z.leb_spec (Z.of_nat (length sched)) (n0 + 1 - 1)); lia).
  rewrite (proj2 (Z.ltb_ge _ 0)) by lia.
  destruct (lookup_lt_is_Some_2 sched (Z.to_nat (Z.min (n0 + 1 - 1) (Z.of_nat (length sched) - 1)))) as [d Hd]; [lia|].
  rewrite Hd. eexists. split; [reflexivity|]. apply Hpoke.
Qed.

(** ** Runs *)

Inductive event :=
| EDecide (now now' : Time) (peer : AddrPort)
| ESuccess (now : Time) (peer : AddrPort)
| EFailure (now now' : Time) (peer : AddrPort) (class : ErrorClass).

Definition apply_event s (e : event) : go (Store L) :=
  match e with
  | EDecide now now' p => Ok (Decide now now' s p).2
  | ESuccess now p => Ok (RecordSuccess now s p)
  | EFailure now now' p c => RecordFailure now now' s p c
  end.

Fixpoint run s (es : list event) : go (Store L) :=
  match es with
  | [] => Ok s
  | e :: es => s' ← apply_event s e; run s' es
  end.

Definition event_time (e : event) : Time :=
  match e with EDecide now _ _ | ESuccess now _ | EFailure now _ _ _ => now end.

Definition event_peer (e : event) : AddrPort :=
  match e with EDecide _ _ p | ESuccess _ p | EFailure _ _ p _ => p end.

(** Every entry counts at most [m] failures and expires by [e]. *)
Definition entries_bounded (m e : Z) s : Prop :=
  ∀ p st, lru_Peek (lru s) p = Some st → (0 ≤ consecutiveFailures st ≤ m)%Z ∧ (expiresAt st ≤ e)%Z.

Lemma live_bounded m e now s p :
  entries_bounded m e s → (0 ≤ m)%Z → (now + TTL (cfg s) ≤ e)%Z →
  let st := default (fresh_state now s) (live now s p) in
  (0 ≤ consecutiveFailures st ≤ m)%Z ∧ (expiresAt st ≤ e)%Z.
Proof.
  intros Hb Hm He. unfold live. destruct (lru_Peek (lru s) p) as [v|] eqn:E; [|cbn; lia].
  destruct (expiresAt v <? now)%Z; cbn; [lia|by eapply Hb].
Qed.

(** The entries of a store after an event on [peer]: that of [peer] is [o], the
    others are as before or gone. *)
Lemma entries_bounded_update m e s s' peer o :
  entries_bounded m e s → others_kept peer s s' → lru_Peek (lru s') peer = o →
  (∀ st, o = Some st → (0 ≤ consecutiveFailures st ≤ m + 1)%Z ∧ (expiresAt st ≤ e)%Z) →
  entries_bounded (m + 1) e s'.
Proof.
  intros Hb Ho Hp Hst p st E. destruct (decide (p = peer)) as [->|Hne]; [apply Hst; congruence|].
  destruct (Ho p Hne) as [E'|E']; rewrite E' in E; [|done]. destruct (Hb p st E). lia.
Qed.

Lemma apply_event_bounded m e s ev :
  store_inv s → Enabled (cfg s) = true → entries_bounded m e s → (0 ≤ m < 2 ^ 63 - 1)%Z →
  (event_time ev + TTL (cfg s) ≤ e)%Z →
  ∃ s', apply_event s ev = Ok s' ∧ store_inv s' ∧ cfg s' = cfg s ∧ entries_bounded (m + 1) e s'.
Proof.
  intros Hinv Hen Hb Hm He. destruct ev as [now now' p|now p|now now' p c]; cbn [event_time apply_event] in *.
  all: destruct (live_bounded m e now s p Hb ltac:(lia) He) as [Hl1 Hl2].
  - destruct (Decide_spec now now' s p Hinv Hen) as (_ & _ & ? & ? & Ho & Hk & _). eexists. split_and!; [done..|].
    eapply entries_bounded_update; [done| |exact Hk|]; [intros p' ?; left; auto|].
    intros st E. destruct (live now s p) as [st0|]; [|done]. cbn in *. injection E as <-.
    unfold after_decide. destruct (_ <? _)%Z; cbn; lia.
  - destruct (RecordSuccess_spec now s p Hinv Hen) as (? & ? & Ho & _ & Hk). eexists. split_and!; [done..|].
    eapply entries_bounded_update; [done..|]. intros st [= <-]. cbn. lia.
  - destruct (RecordFailure_spec now now' s p c Hinv Hen ltac:(lia)) as (s' & E & ? & ? & Ho & _ & Hk).
    exists s'. split_and!; [done..|]. eapply entries_bounded_update; [done..|]. intros st [= <-].
    unfold after_failure. cbn. destruct (decide _); lia.
Qed.

Lemma run_bounded es m e s :
  store_inv s → Enabled (cfg s) = true → entries_bounded m e s → (0 ≤ m)%Z → (m + Z.of_nat (length es) < 2 ^ 63)%Z →
  Forall (λ ev, event_time ev + TTL (cfg s) ≤ e)%Z es →
  ∃ s', run s es = Ok s' ∧ store_inv s' ∧ cfg s' = cfg s ∧ entries_bounded (m + Z.of_nat (length es)) e s'.
Proof.
  revert m s. induction es as [|ev es IH]; intros m s Hinv Hen Hb Hm Hlen Hes; cbn [run length] in *.
  - exists s. split_and!; try done. by rewrite Z.add_0_r.
  - apply Forall_cons in Hes as [He Hes].
    destruct (apply_event_bounded m e s ev Hinv Hen Hb ltac:(lia) He) as (s1 & -> & Hinv1 & Ec & Hb1).
    destruct (IH (m + 1)%Z s1) as (s2 & E2 & ? & Ec2 & Hb2); rewrite ?Ec; try done; try lia.
    exists s2. split_and!; [done..|congruence|]. by replace (m + Z.of_nat (S (length es)))%Z with (m + 1 + Z.of_nat (length es))%Z by lia.
Qed.

Lemma NewStore_spec c :
  ∃ s, NewStore c = Ok s ∧ store_inv s ∧ Enabled (cfg s) = Enabled c ∧ Enforce (cfg s) = Enforce c ∧
    MaxEntries (cfg s) = (if (MaxEntries c <=? 0)%Z then defaultMaxEntries else MaxEntries c) ∧
    TTL (cfg s) = (if (TTL c <=? 0)%Z then defaultTTL else TTL c) ∧
    ∀ p, lru_Peek (lru s) p = None.
Proof.
  unfold NewStore, store_inv.
  destruct (Z.leb_spec (MaxEntries c) 0); cbn; (destruct (Z.leb_spec (TTL c) 0); cbn);
    rewrite ?(proj2 (Z.leb_gt (MaxEntries c) 0)) by lia; cbn.
  all: eexists; split_and!; [reflexivity|..]; cbn; try done.
  all: try (apply law_new; try done; lia).
Qed.

(** ** Streaks of one class

    The cache is shared: while the requests to one peer fail, decisions and
    results about all the others go through it and may evict the peer. *)

(** What a history has to be as far as [peer] is concerned: all its failures
    are of one class and it has no success, between [t0] and [t1], and no
    decision about it reads a later clock than [t']. *)
Definition in_streak (peer : AddrPort) (class : ErrorClass) (t0 t1 t' : Time) (e : event) : Prop :=
  event_peer e = peer →
  (t0 ≤ event_time e ≤ t1)%Z ∧
  match e with
  | EDecide _ now' _ => (now' ≤ t')%Z
  | ESuccess _ _ => False
  | EFailure _ _ _ c => c = class
  end.

Definition fails (peer : AddrPort) (e : event) : bool :=
  match e with EFailure _ _ p _ => bool_decide (p = peer) | _ => false end.

(** The failures of [peer]: their number, and the clock of the last one. *)
Definition failures (peer : AddrPort) (es : list event) : Z := Z.of_nat (length (List.filter (fails peer) es)).

Fixpoint last_failure (peer : AddrPort) (es : list event) : option Time :=
  match es with
  | [] => None
  | e :: es =>
    match last_failure peer es, e with
    | Some t, _ => Some t
    | None, EFailure _ now' p _ => if decide (p = peer) then Some now' else None
    | None, _ => None
    end
  end.

(** The peer whose entry an event uses. *)
Definition recorded (e : event) : option AddrPort :=
  match e with EDecide _ _ _ => None | ESuccess _ p | EFailure _ _ p _ => Some p end.

(** From one failure of [peer] to the next, results of fewer than [n] other
    peers are recorded; [since] are those since its last failure, if any. *)
Fixpoint uncrowded (n : Z) (peer : AddrPort) (since : option (gset AddrPort)) (es : list event) : bool :=
  match es with
  | [] => true
  | e :: es =>
    match recorded e with
    | None => uncrowded n peer since es
    | Some p =>
      if decide (p = peer) then uncrowded n peer (Some ∅) es
      else
        match since with
        | None => uncrowded n peer None es
        | Some ps => (Z.of_nat (size ({[p]} ∪ ps)) <? n)%Z && uncrowded n peer (Some ({[p]} ∪ ps)) es
        end
    end
  end.

(** Every key newer than [peer] is one of [ps]. *)
Definition ahead (peer : AddrPort) (ks : list AddrPort) (ps : gset AddrPort) : Prop :=
  ∃ old new, ks = old ++ peer :: new ∧ ∀ k, k ∈ new → k ∈ ps.

Lemma ahead_elem peer ks ps : ahead peer ks ps → peer ∈ ks.
Proof. intros (old & new & -> & _). rewrite elem_of_app, elem_of_cons. auto. Qed.

Lemma ahead_filter peer p ks ps : p ≠ peer → ahead peer ks ps → ahead peer (filter (λ k, k ≠ p) ks) ps.
Proof.
  intros Hne (old & new & -> & Hnew). exists (filter (λ k, k ≠ p) old), (filter (λ k, k ≠ p) new).
  rewrite filter_app, filter_cons_True by auto. split; [done|]. intros k [_ Hk]%list_elem_of_filter. auto.
Qed.

Lemma ahead_touch_self n peer ks : ahead peer (touch n peer ks) ∅.
Proof. eexists _, []. split; [done|]. intros k Hk. by apply not_elem_of_nil in Hk. Qed.

(** Using another key evicts [peer] only when [n] others are newer. *)
Lemma ahead_touch n peer p ks ps :
  NoDup ks → p ≠ peer → (Z.of_nat (size ({[p]} ∪ ps)) < n)%Z → ahead peer ks ps → ahead peer (touch n p ks) ({[p]} ∪ ps).
Proof.
  intros Hnd Hne Hsz Ha. destruct (ahead_filter peer p ks ps Hne Ha) as (old & new & E & Hnew).
  apply (NoDup_filter (λ k, k ≠ p)) in Hnd. unfold touch. cbv zeta.
  assert (Hp : p ∉ new).
  { intros Hp. assert (p ∈ filter (λ k, k ≠ p) ks) as [[] _]%list_elem_of_filter; [|done]. rewrite E. set_solver. }
  rewrite E in *. destruct (Z.leb_spec n (Z.of_nat (length (old ++ peer :: new)))) as [Hfull|_]; [destruct old as [|k old]|].
  - exfalso. cbn [app length] in *. apply NoDup_cons in Hnd as [_ Hnd].
    assert (length (p :: new) ≤ size ({[p]} ∪ ps)); [|cbn [length] in *; lia].
    rewrite <- (size_list_to_set (C := gset AddrPort)) by (by constructor).
    apply subseteq_size. intros k Hk%elem_of_list_to_set. set_solver.
  - exists old, (new ++ [p]). cbn. rewrite <- app_assoc. split; [done|]. set_solver.
  - exists old, (new ++ [p]). rewrite <- app_assoc. split; [done|]. set_solver.
Qed.

(** The entry of [peer] after [n] failures of one class, the last with
    suppression until [u]; until [t'] decisions may have cleared it. *)
Definition streak (peer : AddrPort) (class : ErrorClass) (t1 t' : Time) (n : Z) (u : Time)
    (since : option (gset AddrPort)) s : Prop :=
  match since with
  | None => n = 0%Z ∧ u = time_zero ∧ lru_Peek (lru s) peer = None
  | Some ps =>
    ahead peer (store_keys s) ps ∧
    ∃ st, lru_Peek (lru s) peer = Some st ∧ lastClass st = class ∧ consecutiveFailures st = n ∧ (0 < n)%Z ∧
      (t1 ≤ expiresAt st)%Z ∧ (suppressedUntil st = u ∨ suppressedUntil st = time_zero ∧ (u ≤ t')%Z)
  end.

Lemma streak_live peer class t1 t' n u since s now :
  streak peer class t1 t' n u since s → (now ≤ t1)%Z → live now s peer = lru_Peek (lru s) peer.
Proof.
  unfold streak, live. destruct since; [intros (_ & st & E & _ & _ & _ & He & _) Ht|intros (_ & _ & E) _]; rewrite E; [|done].
  by rewrite (proj2 (Z.ltb_ge _ _)) by lia.
Qed.

Lemma streak_suppressed peer class t1 t' n u since s now :
  streak peer class t1 t' n u since s → (now ≤ t1)%Z →
  suppressed now t' s peer = negb (u =? time_zero)%Z && (t' <? u)%Z.
Proof.
  intros Hs Ht. unfold suppressed. rewrite (streak_live _ _ _ _ _ _ _ _ _ Hs Ht).
  destruct since; [destruct Hs as (_ & st & -> & _ & _ & _ & _ & Hu)|by destruct Hs as (_ & -> & ->)].
  destruct Hu as [->|[-> Hu]]; [done|]. by rewrite (proj2 (Z.ltb_ge t' u)), andb_false_r by lia.
Qed.

(** What an event does to the order of the keys. *)
Definition keys_after (e : event) s s' : Prop :=
  match recorded e with
  | Some p => store_keys s' = touch (MaxEntries (cfg s)) p (store_keys s)
  | None => store_keys s' = store_keys s ∨ store_keys s' = filter (λ k, k ≠ event_peer e) (store_keys s)
  end.

Lemma apply_event_keys s ev s' :
  store_inv s → Enabled (cfg s) = true → (∃ m e, entries_bounded m e s ∧ (0 ≤ m < 2 ^ 63 - 1)%Z) →
  apply_event s ev = Ok s' → store_inv s' ∧ cfg s' = cfg s ∧ others_kept (event_peer ev) s s' ∧ keys_after ev s s'.
Proof.
  intros Hinv Hen (m & e & Hb & Hm). destruct ev as [now now' p|now p|now now' p c]; cbn [apply_event event_peer].
  - intros [= <-]. destruct (Decide_spec now now' s p Hinv Hen) as (_ & _ & ? & ? & Ho & _ & Hk). split_and!; [done..| |].
    + intros p' ?. left. auto.
    + unfold keys_after. cbn. destruct (live now s p); auto.
  - intros [= <-]. by destruct (RecordSuccess_spec now s p Hinv Hen) as (? & ? & ? & ? & _).
  - intros E. destruct (RecordFailure_spec now now' s p c Hinv Hen) as (s1 & E1 & ? & ? & ? & ? & _);
      [|rewrite E in E1; injection E1 as ->; by split_and!].
    unfold live. destruct (lru_Peek (lru s) p) as [v|] eqn:Ep; [|cbn; lia].
    destruct (expiresAt v <? now)%Z; cbn; [lia|]. destruct (Hb p v Ep). lia.
Qed.

(** The events of other peers leave a streak alone while there is room. *)
Lemma streak_other peer class t1 t' n u since s s' ev :
  store_inv s → store_inv s' → cfg s' = cfg s → others_kept (event_peer ev) s s' → keys_after ev s s' →
  event_peer ev ≠ peer → streak peer class t1 t' n u since s →
  let since' := match recorded ev with Some p => union {[p]} <$> since | None => since end in
  (∀ p ps, recorded ev = Some p → since = Some ps → (Z.of_nat (size ({[p]} ∪ ps)) < MaxEntries (cfg s))%Z) →
  streak peer class t1 t' n u since' s'.
Proof.
  intros Hinv Hinv' Ec Ho Hk Hne Hs since' Hroom. destruct since as [ps|].
  - destruct Hs as (Ha & st & E & Hst).
    assert (∃ ps', since' = Some ps' ∧ ahead peer (store_keys s') ps') as (ps' & -> & Ha').
    { unfold keys_after in Hk. unfold since'. destruct (recorded ev) as [p|] eqn:Er.
      - assert (p = event_peer ev) as -> by (by destruct ev; simplify_eq/=).
        eexists. split; [done|]. rewrite Hk. apply ahead_touch; [|done|by eapply Hroom|done].
        by destruct (law_keys _ _ (proj1 Hinv)).
      - eexists. split; [done|]. destruct Hk as [->| ->]; [done|by apply ahead_filter]. }
    split; [done|]. exists st. split; [|done]. rewrite <- E.
    destruct (Ho peer ltac:(done)) as [E'|E']; [done|].
    destruct (absent_key _ _ _ (proj1 Hinv') E'). by eapply ahead_elem.
  - destruct Hs as (-> & -> & E). assert (since' = None) as -> by (unfold since'; by destruct (recorded ev)).
    split_and!; [done..|]. destruct (Ho peer ltac:(done)) as [E'|E']; congruence.
Qed.

Lemma streak_decide peer class t1 t' n u since s now now' :
  store_inv s → Enabled (cfg s) = true → streak peer class t1 t' n u since s → (now ≤ t1)%Z → (now' ≤ t')%Z →
  streak peer class t1 t' n u since (Decide now now' s peer).2.
Proof.
  intros Hinv Hen Hs Ht Ht'. destruct (Decide_spec now now' s peer Hinv Hen) as (_ & _ & _ & _ & _ & Hk & Hks).
  rewrite (streak_live _ _ _ _ _ _ _ _ _ Hs Ht) in Hk, Hks. destruct since as [ps|].
  - destruct Hs as (Ha & st & E & Hc & Hn & Hp & He & Hu). rewrite E in Hk, Hks. split; [by rewrite Hks|].
    exists (after_decide now' st). split; [exact Hk|]. unfold after_decide.
    destruct (Z.ltb_spec now' (suppressedUntil st)); [done|]. split_and!; try done. right. split; [done|].
    destruct Hu as [<-|[_ Hu]]; lia.
  - destruct Hs as (-> & -> & E). by rewrite E in Hk.
Qed.

Lemma streak_failure peer class t0 t' n u since s now now' s' :
  store_inv s → Enabled (cfg s) = true → streak peer class (t0 + TTL (cfg s)) t' n u since s →
  (t0 ≤ now ≤ t0 + TTL (cfg s))%Z → (0 ≤ n < 2 ^ 63 - 1)%Z → RecordFailure now now' s peer class = Ok s' →
  streak peer class (t0 + TTL (cfg s)) t' (n + 1) (backoff_until (cfg s) class (n + 1) now') (Some ∅) s'.
Proof.
  intros Hinv Hen Hs Ht Hn E. pose proof (streak_live _ _ _ _ _ _ _ _ now Hs ltac:(lia)) as Hl.
  set (st := default (fresh_state now s) (live now s peer)).
  assert (Hst : (consecutiveFailures st = n ∧ (t0 + TTL (cfg s) ≤ expiresAt st)%Z ∧ (n = 0%Z ∨ lastClass st = class))).
  { unfold st. rewrite Hl. destruct since; [destruct Hs as (_ & st0 & -> & ? & ? & ? & ? & _)|destruct Hs as (-> & _ & ->)]; cbn;
      [by auto|]. split_and!; [done|lia|by left]. }
  destruct Hst as (Hcf & He & Hcl).
  destruct (RecordFailure_spec now now' s peer class Hinv Hen ltac:(fold st; lia)) as (s1 & E1 & _ & _ & _ & Hks & Hk).
  rewrite E in E1. injection E1 as <-. fold st in Hk. split; [rewrite Hks; apply ahead_touch_self|]. eexists. split; [exact Hk|].
  unfold after_failure. cbv zeta. cbn.
  assert ((if decide (class = lastClass st) then consecutiveFailures st else 0) = n)%Z as ->.
  { destruct (decide _) as [?|Hnc]; [done|]. destruct Hcl as [?|?]; [done|]. by destruct Hnc. }
  split_and!; try done; [lia|by left].
Qed.

(** One event of a history that is a streak for [peer]. *)
Lemma streak_step peer class t0 t' n u since s ev s' es :
  store_inv s → Enabled (cfg s) = true → (∃ m e, entries_bounded m e s ∧ (0 ≤ m < 2 ^ 63 - 1)%Z) → apply_event s ev = Ok s' →
  streak peer class (t0 + TTL (cfg s)) t' n u since s → (0 ≤ n < 2 ^ 63 - 1)%Z →
  in_streak peer class t0 (t0 + TTL (cfg s)) t' ev → uncrowded (MaxEntries (cfg s)) peer since (ev :: es) = true →
  ∃ since', uncrowded (MaxEntries (cfg s)) peer since' es = true ∧
    if fails peer ev
    then ∃ now', last_failure peer [ev] = Some now' ∧
      streak peer class (t0 + TTL (cfg s)) t' (n + 1) (backoff_until (cfg s) class (n + 1) now') since' s'
    else last_failure peer [ev] = None ∧ streak peer class (t0 + TTL (cfg s)) t' n u since' s'.
Proof.
  intros Hinv Hen Hb E Hs Hn Hin Hcr.
  destruct (apply_event_keys s ev s' Hinv Hen Hb E) as (Hinv' & Ec & Ho & Hks).
  destruct (decide (event_peer ev = peer)) as [Hp|Hne].
  - specialize (Hin Hp) as [Ht Hin]. destruct ev as [now now' p|now p|now now' p c]; cbn in Hp, Ht, Hin; [|done|]; subst p.
    + injection E as <-. exists since. split; [done|]. split; [done|]. apply streak_decide; [done..|lia|done].
    + subst c. exists (Some ∅). cbn in Hcr |- *. rewrite decide_True in Hcr by done. rewrite bool_decide_true, decide_True by done.
      split; [exact Hcr|]. exists now'. split; [done|]. by apply (streak_failure _ _ _ _ _ u since s now).
  - assert (fails peer ev = false) as -> by (destruct ev; cbn in *; [done..|by apply bool_decide_eq_false]).
    assert (last_failure peer [ev] = None) as -> by (destruct ev; cbn in *; [done..|by rewrite decide_False]).
    eexists. split; [|split; [done|eapply (streak_other _ _ _ _ _ _ since s s' ev); [done..|]]].
    + destruct ev; cbn in *; [done|..]; rewrite decide_False in Hcr by done; destruct since; cbn; try exact Hcr;
        apply andb_true_iff in Hcr as [_ Hcr]; exact Hcr.
    + intros p ps Er ->. destruct ev; cbn in *; [done|..]; injection Er as <-; rewrite decide_False in Hcr by done;
        apply andb_true_iff in Hcr as [Hcr _]; by apply Z.ltb_lt.
Qed.

(** The end of the suppression after a history of failures, from [n] failures
    and suppression until [u] before it. *)
Definition until_after (c : Config) (class : ErrorClass) (peer : AddrPort) (n : Z) (u : Time) (es : list event) : Time :=
  match last_failure peer es with
  | Some now' => backoff_until c class (n + failures peer es) now'
  | None => u
  end.

Lemma until_after_cons c class peer n u e es :
  until_after c class peer n u (e :: es) =
  match last_failure peer [e] with
  | Some now' => until_after c class peer (n + 1) (backoff_until c class (n + 1) now') es
  | None => until_after c class peer n u es
  end.
Proof.
  unfold until_after, failures. cbn. destruct e as [now now' p|now p|now now' p cl]; cbn; try by destruct (last_failure peer es).
  destruct (decide (p = peer)) as [->|Hne]; [rewrite bool_decide_true by done|rewrite bool_decide_false by done; by destruct (last_failure peer es)].
  destruct (last_failure peer es) as [t|] eqn:E; cbn [length]; [f_equal; lia|]. f_equal.
  assert (List.filter (fails peer) es = []) as ->; [|cbn; lia].
  clear -E. induction es as [|e es IH]; [done|]. cbn in *. destruct (last_failure peer es); [by destruct e|].
  destruct e; cbn in *; try by apply IH. rewrite bool_decide_false by (by case_decide). by apply IH.
Qed.

Lemma run_streak peer class t0 t' es m e n u since s :
  store_inv s → Enabled (cfg s) = true → entries_bounded m e s → (0 ≤ m)%Z → (m + Z.of_nat (length es) < 2 ^ 63)%Z →
  Forall (λ ev, event_time ev + TTL (cfg s) ≤ e)%Z es →
  streak peer class (t0 + TTL (cfg s)) t' n u since s → (0 ≤ n ≤ m)%Z →
  Forall (in_streak peer class t0 (t0 + TTL (cfg s)) t') es → uncrowded (MaxEntries (cfg s)) peer since es = true →
  ∃ s' since', run s es = Ok s' ∧ store_inv s' ∧ cfg s' = cfg s ∧
    streak peer class (t0 + TTL (cfg s)) t' (n + failures peer es) (until_after (cfg s) class peer n u es) since' s'.
Proof.
  revert m n u since s. induction es as [|ev es IH]; intros m n u since s Hinv Hen Hb Hm Hlen Hes Hs Hn Hin Hcr; cbn [run length] in *.
  { exists s, since. split_and!; try done. unfold failures, until_after. cbn. by rewrite Z.add_0_r. }
  apply Forall_cons in Hes as [He Hes]. apply Forall_cons in Hin as [Hin1 Hin].
  destruct (apply_event_bounded m e s ev Hinv Hen Hb ltac:(lia) He) as (s1 & E & Hinv1 & Ec & Hb1).
  destruct (streak_step peer class t0 t' n u since s ev s1 es Hinv Hen) as (since' & Hcr' & Hs'); try done; [|lia|].
  { exists m, e. split; [done|lia]. }
  rewrite E. rewrite <- Ec in Hen, Hes, Hs', Hin, Hcr' |- *. rewrite until_after_cons.
  assert (Hf : failures peer (ev :: es) = ((if fails peer ev then 1 else 0) + failures peer es)%Z).
  { unfold failures. cbn. destruct (fails peer ev); cbn [length]; lia. }
  rewrite Hf. destruct (fails peer ev).
  - destruct Hs' as (now' & -> & Hs'). rewrite Z.add_assoc. eapply (IH (m + 1)%Z); try done; lia.
  - destruct Hs' as (-> & Hs'). rewrite Z.add_0_l. eapply (IH (m + 1)%Z); try done; lia.
Qed.

End laws.

(** ** A cache that meets the interface

    Most recently used entry first, at most [al_size] of them. *)

Record AList := mkAList { al_size : Z; al_items : list (AddrPort * peerState) }.

Fixpoint al_find (k : AddrPort) (xs : list (AddrPort * peerState)) : option peerState :=
  match xs with
  | [] => None
  | (k', v) :: xs => if decide (k' = k) then Some v else al_find k xs
  end.

Definition al_without (k : AddrPort) (xs : list (AddrPort * peerState)) : list (AddrPort * peerState) :=
  filter (λ kv, kv.1 ≠ k) xs.

#[global] Instance AList_LRU : LRU AList := {|
  lru_Peek l k := al_find k (al_items l);
  lru_Get l k :=
    match al_find k (al_items l) with
    | Some v => (Some v, mkAList (al_size l) ((k, v) :: al_without k (al_items l)))
    | None => (None, l)
    end;
  lru_Add l k v := mkAList (al_size l) (take (Z.to_nat (al_size l)) ((k, v) :: al_without k (al_items l)));
  lru_Remove l k := mkAList (al_size l) (al_without k (al_items l));
  lru_poke l k v := mkAList (al_size l) ((λ kv, if decide (kv.1 = k) then (k, v) else kv) <$> al_items l);
  lru_Len l := length (al_items l);
  lru_New n := mkAList n []
|}.

Lemma al_find_without k k' xs : al_find k' (al_without k xs) = if decide (k' = k) then None else al_find k' xs.
Proof.
  unfold al_without. induction xs as [|[k0 v0] xs IH]; [by destruct (decide _)|].
  rewrite filter_cons. cbn [fst al_find]. destruct (decide (k0 ≠ k)) as [Hne|Heq]; cbn [al_find]; rewrite IH.
  - repeat destruct (decide _); try done; congruence.
  - apply dec_stable in Heq as ->. repeat destruct (decide _); try done; congruence.
Qed.

Lemma al_find_take k xs n : al_find k (take n xs) = al_find k xs ∨ al_find k (take n xs) = None.
Proof.
  revert n. induction xs as [|[k0 v0] xs IH]; intros [|n]; cbn; [by left|by left|by right|].
  destruct (decide _); [by left|apply IH].
Qed.

Lemma al_find_poke k v k' xs :
  al_find k' ((λ kv, if decide (kv.1 = k) then (k, v) else kv) <$> xs)
  = if decide (k' = k) then (λ _, v) <$> al_find k xs else al_find k' xs.
Proof.
  induction xs as [|[k0 v0] xs IH]; cbn; [by destruct (decide _)|].
  destruct (decide (k0 = k)) as [->|Hne]; cbn; rewrite IH; repeat destruct (decide _); try done; congruence.
Qed.

Lemma al_without_length k xs : length (al_without k xs) ≤ length xs.
Proof. apply length_filter. Qed.

Lemma al_without_found k v xs : al_find k xs = Some v → length (al_without k xs) < length xs.
Proof.
  unfold al_without. induction xs as [|[k0 v0] xs IH]; [done|]. rewrite filter_cons. cbn [al_find fst].
  pose proof (al_without_length k xs) as Hl. unfold al_without in Hl.
  destruct (decide (k0 = k)) as [->|Hne]; [intros _|intros E%IH].
  - rewrite decide_False by auto. cbn. lia.
  - rewrite decide_True by done. cbn. lia.
Qed.

Definition al_keys (l : AList) : list AddrPort := reverse (al_items l).*1.

Lemma al_without_keys k xs : (al_without k xs).*1 = filter (λ k', k' ≠ k) xs.*1.
Proof.
  unfold al_without. induction xs as [|[k0 v0] xs IH]; [done|]. rewrite fmap_cons, !filter_cons. cbn [fst].
  destruct (decide (k0 ≠ k)); [by rewrite fmap_cons, IH|done].
Qed.

Lemma al_find_elem k xs : k ∈ xs.*1 ↔ is_Some (al_find k xs).
Proof.
  induction xs as [|[k0 v0] xs IH]; cbn.
  { split; [by intros ?%not_elem_of_nil|by intros []]. }
  rewrite elem_of_cons, IH. destruct (decide (k0 = k)) as [->|Hne]; [|naive_solver]. split; [by eexists|by left].
Qed.

Lemma filter_reversed (k : AddrPort) (ks : list AddrPort) : filter (λ k', k' ≠ k) (reverse ks) = reverse (filter (λ k', k' ≠ k) ks).
Proof.
  induction ks as [|k0 ks IH]; [done|]. rewrite reverse_cons, filter_app, IH, !filter_cons, filter_nil.
  destruct (decide _); [by rewrite reverse_cons|by rewrite app_nil_r].
Qed.

(** Taking [n] of the newest keys with [k] first is using [k]. *)
Lemma touch_reversed n k ks :
  (0 < n)%Z → (Z.of_nat (length ks) ≤ n)%Z →
  reverse (take (Z.to_nat n) (k :: filter (λ k', k' ≠ k) ks)) = touch n k (reverse ks).
Proof.
  intros Hn Hlen. unfold touch. cbv zeta. rewrite filter_reversed, length_reverse.
  pose proof (length_filter (λ k', k' ≠ k) ks) as Hf. set (xs := filter _ ks) in *. clearbody xs.
  destruct (Z.to_nat n) as [|m] eqn:Em; [lia|]. cbn [take]. rewrite reverse_cons. f_equal.
  destruct (Z.leb_spec n (Z.of_nat (length xs))); [|by rewrite take_ge by lia].
  destruct xs as [|x xs] using rev_ind; [cbn in *; lia|]. rewrite length_app in *. cbn [length] in *.
  rewrite reverse_snoc. cbn [tail]. by rewrite take_app_length' by lia.
Qed.

Lemma NoDup_take {A} (xs : list A) n : NoDup xs → NoDup (take n xs).
Proof. intros Hx. rewrite <- (take_drop n xs) in Hx. by apply NoDup_app in Hx as [? _]. Qed.

Definition al_inv (n : Z) (l : AList) : Prop :=
  al_size l = n ∧ (0 < n)%Z ∧ (Z.of_nat (length (al_items l)) ≤ n)%Z ∧ NoDup (al_items l).*1.

Lemma al_used_NoDup k v xs : NoDup xs.*1 → NoDup ((k, v) :: al_without k xs).*1.
Proof.
  intros Hx. rewrite fmap_cons, al_without_keys. constructor; [|by apply NoDup_filter].
  by intros [[] _]%list_elem_of_filter.
Qed.

Lemma al_add_ok n l k v :
  al_inv n l → al_inv n (lru_Add l k v) ∧ al_keys (lru_Add l k v) = touch n k (al_keys l).
Proof.
  intros (Hs & Hn & Hl & Hnd). split.
  - unfold al_inv. cbn. split_and!; [done|done|rewrite length_take; lia|].
    rewrite fmap_take. by apply NoDup_take, al_used_NoDup.
  - unfold al_keys. cbn. rewrite fmap_take, fmap_cons, al_without_keys, Hs. apply touch_reversed; [done|by rewrite length_fmap].
Qed.

Lemma al_get_ok n l k :
  al_inv n l → al_inv n (lru_Get l k).2 ∧
  al_keys (lru_Get l k).2 = (if al_find k (al_items l) then touch n k (al_keys l) else al_keys l).
Proof.
  intros Hi. assert (Hi' := Hi). destruct Hi' as (Hs & Hn & Hl & Hnd). cbn.
  destruct (al_find k (al_items l)) as [v|] eqn:E; [|done].
  pose proof (al_without_found k v (al_items l) E). cbn. destruct (al_add_ok n l k v Hi) as [(? & ? & ? & ?) Hk].
  cbn in *. rewrite take_ge in * by (cbn; lia). unfold al_inv. cbn. split; [by split_and!|].
  unfold al_keys in *. cbn in *. exact Hk.
Qed.

#[global, refine] Instance AList_laws : LRULaws AList := {| lru_inv := al_inv; lru_keys := al_keys |}.
Proof.
  - intros n Hn. unfold al_inv. cbn. split_and!; try done; [lia|constructor].
  - intros n l (Hs & Hn & Hl & Hnd). unfold al_keys. rewrite length_reverse, length_fmap. split_and!; [by rewrite reverse_Permutation|lia|].
    intros k. rewrite elem_of_reverse. apply al_find_elem.
  - intros n l k Hi. destruct (al_get_ok n l k Hi) as [Hi' Hk]. split_and!; [|done| |exact Hk]; cbn;
      destruct (al_find k (al_items l)) as [v|] eqn:E; try done. cbn.
    intros k'. rewrite al_find_without. repeat destruct (decide _); congruence.
  - intros n l k v Hi. destruct (al_add_ok n l k v Hi) as [Hi' Hk]. split_and!; [done| | |exact Hk]; cbn;
      destruct Hi as (Hs & Hn & Hl & Hnd).
    + destruct (Z.to_nat (al_size l)) as [|m] eqn:Em; [lia|]. cbn. by rewrite decide_True.
    + intros k' Hne. destruct (al_find_take k' ((k, v) :: al_without k (al_items l)) (Z.to_nat (al_size l))) as [E|E]; rewrite E;
        [left|by right]. cbn. rewrite decide_False, al_find_without, decide_False by congruence. done.
  - intros n l k (Hs & Hn & Hl & Hnd). pose proof (al_without_length k (al_items l)). unfold al_inv, al_keys. cbn.
    rewrite al_without_keys, filter_reversed.
    split_and!; [done|done|lia|by apply NoDup_filter|by rewrite al_find_without, decide_True| |done].
    intros k' Hne. by rewrite al_find_without, decide_False.
  - intros n l k v v0 (Hs & Hn & Hl & Hnd) E. unfold al_inv, al_keys. cbn in *.
    assert (Hk : ((λ kv, if decide (kv.1 = k) then (k, v) else kv) <$> al_items l).*1 = (al_items l).*1).
    { rewrite <- list_fmap_compose. apply list_fmap_ext. intros _ [k0 v1] _. cbn. by destruct (decide _) as [->|]. }
    rewrite Hk. split_and!; [done|done|by rewrite length_fmap|done| | |done].
    + by rewrite al_find_poke, decide_True, E.
    + intros k' Hne. by rewrite al_find_poke, decide_False.
  - by intros n l (Hs & Hn & Hl & _).
Defined.

(** ** Properties *)

Section properties.
Context {L : Type} `{LRULaws L}.
Implicit Types s : Store L.

Lemma WouldSkip_spec now now' s peer :
  store_inv s → WouldSkip (Decide now now' s peer).1 = Enabled (cfg s) && suppressed now now' s peer.
Proof.
  intros Hinv. destruct (Enabled (cfg s)) eqn:Hen; [by apply Decide_spec|]. unfold Decide. by rewrite Hen.
Qed.

Lemma suppressed_after_decide now now' t t' s peer p :
  store_inv s → Enabled (cfg s) = true → (now ≤ t)%Z → (now' ≤ t')%Z →
  suppressed t t' (Decide now now' s peer).2 p = suppressed t t' s p.
Proof.
  intros Hinv Hen Ht Ht'. destruct (Decide_spec now now' s peer Hinv Hen) as (_ & _ & _ & _ & Ho & Hk & _).
  unfold suppressed, live. destruct (decide (p = peer)) as [->|Hne]; [|by rewrite Ho].
  rewrite Hk. unfold live. destruct (lru_Peek (lru s) peer) as [st|]; [|done].
  destruct (Z.ltb_spec (expiresAt st) now); cbn; [by rewrite (proj2 (Z.ltb_lt _ _)) by lia|].
  unfold after_decide. destruct (Z.ltb_spec now' (suppressedUntil st)); [done|]. cbn.
  destruct (expiresAt st <? t)%Z; [done|]. by rewrite (proj2 (Z.ltb_ge t' (suppressedUntil st))), andb_false_r by lia.
Qed.

(** A decision says [WouldSkip] exactly when the cache is enabled and the
    peer has an unexpired entry whose suppression window is still open; it
    disallows the attempt exactly when, besides, enforcement is on (shadow mode
    never skips).  Although it may clear an elapsed window or drop an expired
    entry, no later decision about any peer can tell that it was made. *)
Theorem peerrep_decide now now' s peer :
  store_inv s →
  let d := (Decide now now' s peer).1 in let s' := (Decide now now' s peer).2 in
  WouldSkip d = Enabled (cfg s) && suppressed now now' s peer ∧
  dec_Allow d = negb (WouldSkip d && Enforce (cfg s)) ∧
  store_inv s' ∧
  ∀ p t t', (now ≤ t)%Z → (now' ≤ t')%Z →
    WouldSkip (Decide t t' s' p).1 = WouldSkip (Decide t t' s p).1 ∧
    dec_Allow (Decide t t' s' p).1 = dec_Allow (Decide t t' s p).1.
Proof.
  intros Hinv. cbv zeta. rewrite WouldSkip_spec by done. destruct (Enabled (cfg s)) eqn:Hen.
  - destruct (Decide_spec now now' s peer Hinv Hen) as (E1 & E2 & Hinv' & Ec & _).
    rewrite E2, E1. split_and!; [done..|]. intros p t t' Ht Ht'.
    destruct (Decide_spec t t' s p Hinv Hen) as (F1 & F2 & _).
    destruct (Decide_spec t t' (Decide now now' s peer).2 p Hinv') as (G1 & G2 & _); [by rewrite Ec|].
    rewrite G2, G1, F2, F1, Ec. by rewrite suppressed_after_decide.
  - assert (Ed : ∀ t t' p, Decide t t' s p = (mkDecision true false ClassUnknown, s))
      by (intros; unfold Decide; by rewrite Hen).
    rewrite !Ed. by split_and!.
Qed.

Lemma events_before es d : ∃ e, Forall (λ ev, event_time ev + d ≤ e)%Z es.
Proof.
  induction es as [|ev es [e IH]]; [by exists 0%Z|]. exists (Z.max e (event_time ev + d)). constructor; [lia|].
  eapply Forall_impl; [exact IH|]. cbn. intros; lia.
Qed.

Lemma NewStore_schedule c s class now' n :
  NewStore c = Ok s → backoff_until (cfg s) class n now' = backoff_until c class n now'.
Proof.
  unfold NewStore. intros E. assert (scheduleFor (cfg s) class = scheduleFor c class) as Es.
  { destruct (MaxEntries c <=? 0)%Z; cbn in E; destruct (TTL c <=? 0)%Z; cbn in E;
      try destruct (MaxEntries c <=? 0)%Z; try done; by injection E as <-. }
  unfold backoff_until. by rewrite Es.
Qed.

(** C38: After any history of a new store that leaves a peer without an entry,
    let further decisions and results about any peers follow, and let the
    failures of that peer among them be of one class, with no success of its
    own, within the lifetime of its entry ([in_streak]).  The cache is shared,
    so this peer may be evicted; it is not, provided that from each of its
    failures to its next, or to the end, results of fewer than [MaxEntries]
    other peers are recorded ([uncrowded]; decisions do not count).  Then
    nothing panics, and the peer is suppressed from its last failure for the
    duration at index [min (k - 1) (len - 1)] of the schedule of that class,
    where [k] counts all its failures: neither an elapsed suppression, cleared
    by a decision, nor what happens to other peers starts the count over.  The
    attempt is disallowed exactly when, besides, enforcement is on. *)
Theorem peerrep_backoff c s0 es0 s es peer class t0 t t' :
  Enabled c = true → NewStore c = Ok s0 → run s0 es0 = Ok s → lru_Peek (lru s) peer = None →
  (Z.of_nat (length es0) + Z.of_nat (length es) < 2 ^ 63)%Z →
  Forall (in_streak peer class t0 (t0 + TTL (cfg s)) t') es → (t ≤ t0 + TTL (cfg s))%Z →
  uncrowded (MaxEntries (cfg s)) peer None es = true →
  ∃ s', run s es = Ok s' ∧
    let until :=
      match last_failure peer es with
      | Some now' => backoff_until c class (failures peer es) now'
      | None => time_zero
      end in
    let d := (Decide t t' s' peer).1 in
    WouldSkip d = negb (until =? time_zero)%Z && (t' <? until)%Z ∧
    dec_Allow d = negb (WouldSkip d && Enforce c).
Proof.
  intros Hen E0 E Hk Hlen Hes Ht Hcr.
  destruct (NewStore_spec (L:=L) c) as (s0' & E0' & Hinv0 & Hen0 & Henf & Hmax & _ & Hemp). rewrite E0 in E0'. injection E0' as <-.
  destruct (events_before (es0 ++ es) (TTL (cfg s0))) as [e [He0 He]%Forall_app].
  destruct (run_bounded es0 0 e s0) as (s1 & E1 & Hinv & Ec & Hb); try done; [congruence|by intros p st; rewrite Hemp|lia|].
  rewrite E in E1. injection E1 as <-. rewrite <- Ec in Hen0, Henf, He.
  destruct (run_streak peer class t0 t' es _ e 0 time_zero None s Hinv ltac:(congruence) Hb) as (s' & since & Er & Hinv' & Ec' & Hs);
    try done; try lia.
  exists s'. split; [done|]. cbv zeta.
  destruct (Decide_spec t t' s' peer Hinv') as (-> & -> & _); [congruence|]. rewrite Ec', Henf. split; [|done].
  rewrite (streak_suppressed _ _ _ _ _ _ _ _ t Hs Ht). unfold until_after. rewrite Z.add_0_l.
  destruct (last_failure peer es); [|done]. by rewrite Ec, (NewStore_schedule c s0).
Qed.

(** Every sequence of decisions, successes and failures runs without a
    panic (short of 2^63 of them) and keeps the number of entries within the
    configured limit, and once the lifetime of entries has passed after the
    last of them, every peer is allowed again: nothing bans a peer for good. *)
Theorem peerrep_no_permanent_ban c es t :
  Enabled c = true → (Z.of_nat (length es) < 2 ^ 63)%Z → Forall (λ e, event_time e ≤ t)%Z es →
  ∃ s0 s, NewStore c = Ok s0 ∧ run s0 es = Ok s ∧
    (Z.of_nat (Len s) ≤ if MaxEntries c <=? 0 then defaultMaxEntries else MaxEntries c)%Z ∧
    ∀ p now now', (t + (if TTL c <=? 0 then defaultTTL else TTL c) < now)%Z →
      dec_Allow (Decide now now' s p).1 = true ∧ WouldSkip (Decide now now' s p).1 = false.
Proof.
  intros Hen Hlen Hes. destruct (NewStore_spec (L:=L) c) as (s0 & E0 & Hinv & Hen0 & _ & Hmax & Httl & Hemp).
  rewrite <- Hmax, <- Httl.
  destruct (run_bounded es 0 (t + TTL (cfg s0)) s0) as (s & E & Hinv' & Ec & Hb); try done; [congruence|..].
  { intros p st. by rewrite Hemp. }
  { eapply Forall_impl; [exact Hes|]. cbn. intros; lia. }
  exists s0, s. split_and!; [done..| |].
  { rewrite <- Ec. apply law_len, Hinv'. }
  intros p now now' Ht. destruct (Decide_spec now now' s p Hinv') as (F1 & -> & _); [congruence|].
  rewrite F1. unfold suppressed, live. destruct (lru_Peek (lru s) p) as [st|] eqn:Ep; [|done].
  destruct (Hb p st Ep). by rewrite (proj2 (Z.ltb_lt _ _)) by lia.
Qed.

(** A success resets: the peer is allowed at once and its next failure, of any
    class, gets the first entry of the schedule. *)
Theorem peerrep_success_resets now s peer class t t' u u' :
  store_inv s → Enabled (cfg s) = true →
  let s1 := RecordSuccess now s peer in
  WouldSkip (Decide t t' s1 peer).1 = false ∧
  ∃ s2 st, RecordFailure u u' s1 peer class = Ok s2 ∧ lru_Peek (lru s2) peer = Some st ∧
    suppressedUntil st = backoff_until (cfg s) class 1 u'.
Proof.
  intros Hinv Hen. cbv zeta. destruct (RecordSuccess_spec now s peer Hinv Hen) as (Hinv1 & Ec & _ & _ & Hk).
  cbv zeta in Hk. set (st1 := mkPeerState _ _ _ _) in Hk. rewrite <- Ec in Hen.
  split.
  - destruct (Decide_spec t t' _ peer Hinv1 Hen) as (-> & _). unfold suppressed, live. rewrite Hk.
    by destruct (expiresAt st1 <? t)%Z.
  - set (s1 := RecordSuccess now s peer) in *.
    assert (Hz : consecutiveFailures (default (fresh_state u s1) (live u s1 peer)) = 0%Z).
    { unfold live. rewrite Hk. by destruct (expiresAt st1 <? u)%Z. }
    destruct (RecordFailure_spec u u' s1 peer class Hinv1 Hen) as (s2 & E & _ & _ & _ & _ & Hk2); [rewrite Hz; lia|].
    exists s2. eexists. split_and!; [exact E|exact Hk2|]. unfold after_failure. rewrite Hz, Ec. by destruct (decide _).
Qed.

End properties.

(** ** Witnesses *)

Definition ex_config : Config :=
  mkConfig true true 2 (24 * Hour) [10 * Minute; 30 * Minute]%Z [] [20 * Minute]%Z [] [] [] [] [] [].
Definition ex_store : Store AList := mkStore ex_config (lru_New 2).
Definition ex_peer (n : Z) : AddrPort := AddrPortFrom (AddrV4 [1; 2; 3; n]%Z) 6881.

Lemma ex_store_inv : store_inv ex_store.
Proof. split; [|done]. split_and!; try done; constructor. Qed.

Definition ex_failed : Store AList :=
  match RecordFailure 1000 1001 ex_store (ex_peer 1) ClassDialTimeout with Ok s => s | _ => ex_store end.

Lemma ex_failed_inv : store_inv ex_failed.
Proof. split; [|done]. vm_compute. split_and!; try done. apply NoDup_singleton. Qed.

Lemma peerrep_decide_witness :
  WouldSkip (Decide 2000 2001 ex_failed (ex_peer 1)).1 = true ∧
  dec_Allow (Decide 2000 2001 ex_failed (ex_peer 1)).1 = false ∧
  WouldSkip (Decide 3000 3001 (Decide 2000 2001 ex_failed (ex_peer 1)).2 (ex_peer 1)).1 = true.
Proof.
  destruct (peerrep_decide 2000 2001 ex_failed (ex_peer 1) ex_failed_inv) as (E & E' & _ & Hl).
  split_and!; [rewrite E; vm_compute; reflexivity|rewrite E', E; vm_compute; reflexivity|].
  rewrite (proj1 (Hl (ex_peer 1) 3000%Z 3001%Z ltac:(lia) ltac:(lia))). vm_compute. reflexivity.
Defined.

(** Two failures of peer 1, with a decision that clears the first suppression
    and a failure and a decision of peer 2 in between. *)
Definition ex_events : list event :=
  [EFailure 1000 1001 (ex_peer 1) ClassDialTimeout;
   EFailure (5 * Minute) (5 * Minute) (ex_peer 2) ClassPeerClosed;
   EDecide (6 * Minute) (6 * Minute) (ex_peer 2);
   EDecide (11 * Minute) (11 * Minute) (ex_peer 1);
   EFailure (12 * Minute) (12 * Minute) (ex_peer 1) ClassDialTimeout]%Z.

Lemma ex_streak t' :
  (11 * Minute ≤ t')%Z → Forall (in_streak (ex_peer 1) ClassDialTimeout 0 (0 + TTL (cfg ex_store)) t') ex_events.
Proof. intros Ht. repeat constructor; done. Qed.

(** The second failure suppresses for 30 minutes: until minute 42. *)
Lemma peerrep_backoff_witness :
  ∃ s s1 s2 : Store AList, NewStore ex_config = Ok s ∧ run s ex_events = Ok s1 ∧ run s ex_events = Ok s2 ∧
    WouldSkip (Decide (41 * Minute) (41 * Minute) s1 (ex_peer 1)).1 = true ∧
    WouldSkip (Decide (42 * Minute) (42 * Minute) s2 (ex_peer 1)).1 = false.
Proof.
  exists ex_store.
  destruct (peerrep_backoff ex_config ex_store [] ex_store ex_events (ex_peer 1) ClassDialTimeout 0
    (41 * Minute) (41 * Minute)) as (s1 & E1 & Hd1 & _);
    [reflexivity..|by apply ex_streak|vm_compute; discriminate|vm_compute; reflexivity|].
  destruct (peerrep_backoff ex_config ex_store [] ex_store ex_events (ex_peer 1) ClassDialTimeout 0
    (42 * Minute) (42 * Minute)) as (s2 & E2 & Hd2 & _);
    [reflexivity..|by apply ex_streak|vm_compute; discriminate|vm_compute; reflexivity|].
  exists s1, s2. split_and!; [reflexivity|exact E1|exact E2|rewrite Hd1|rewrite Hd2]; vm_compute; reflexivity.
Defined.

(** With the results of as many other peers as the cache holds in between,
    the peer is evicted and its second failure counts as the first. *)
Example crowded_out :
  let es := [EFailure 1000 1001 (ex_peer 1) ClassDialTimeout; EFailure 2000 2001 (ex_peer 2) ClassPeerClosed;
    EFailure 3000 3001 (ex_peer 3) ClassPeerClosed;
    EFailure (12 * Minute) (12 * Minute) (ex_peer 1) ClassDialTimeout]%Z in
  uncrowded 2 (ex_peer 1) None es = false ∧
  match run ex_store es with
  | Ok s => (suppressedUntil <$> lru_Peek (lru s) (ex_peer 1)) = Some (22 * Minute)%Z
  | _ => False
  end.
Proof. vm_compute. by split. Qed.

Lemma peerrep_no_permanent_ban_witness :
  ∃ s0 s : Store AList, NewStore ex_config = Ok s0 ∧ run s0 ex_events = Ok s ∧
    dec_Allow (Decide (26 * Hour) (26 * Hour) s (ex_peer 1)).1 = true.
Proof.
  destruct (peerrep_no_permanent_ban (L := AList) ex_config ex_events Hour) as (s0 & s & E0 & E & _ & Hd).
  - reflexivity.
  - vm_compute. reflexivity.
  - repeat constructor; vm_compute; done.
  - exists s0, s. split_and!; [exact E0|exact E|]. apply Hd. vm_compute. reflexivity.
Defined.

End PeerRep.
