(* ===== verification/Metainfo.v ===== *)
(** * Torrent metadata: checks on what a peer sends

    [internal/protocol/metainfo/validate.go], [parse.go] and
    [read_torrent_file.go], and the checkers of [metainfo/banning].  A string
    is the list of its bytes; the UTF-8 decoder is that of Go's [range] over a
    string and of [unicode/utf8].  The bencode decoder, SHA-1 and the derived
    fields of [Info] belong to anacrolix/torrent and are an interface. *)
From S2P Require Import Prelude.
From stdpp Require Import list strings sets pretty.
From Stdlib Require Import ZArith Lia.

Module Metainfo.

(** ** UTF-8 *)

Definition in_range (b lo hi : Z) : bool := ((lo <=? b) && (b <=? hi))%Z.
Definition cont (b : Z) : bool := in_range b 128 191.
Definition RuneError : Z := 65533.

(** The first rune of a non-empty string, the bytes it takes and whether they
    are well-formed ([utf8.DecodeRuneInString]). *)
Definition decode_rune (b0 : Z) (s : bytes) : Z * nat * bool :=
  let bad := (RuneError, 1, false) in
  let two b1 := (Z.lor (Z.shiftl (Z.land b0 31) 6) (Z.land b1 63), 2, true) in
  let three b1 b2 :=
    (Z.lor (Z.lor (Z.shiftl (Z.land b0 15) 12) (Z.shiftl (Z.land b1 63) 6)) (Z.land b2 63), 3, true) in
  let four b1 b2 b3 :=
    (Z.lor (Z.lor (Z.lor (Z.shiftl (Z.land b0 7) 18) (Z.shiftl (Z.land b1 63) 12))
       (Z.shiftl (Z.land b2 63) 6)) (Z.land b3 63), 4, true) in
  if (b0 <? 128)%Z then (b0, 1, true)
  else if in_range b0 194 223 then
    match s with
    | b1 :: _ => if cont b1 then two b1 else bad
    | _ => bad
    end
  else if in_range b0 224 239 then
    let lo := if (b0 =? 224)%Z then 160%Z else 128%Z in
    let hi := if (b0 =? 237)%Z then 159%Z else 191%Z in
    match s with
    | b1 :: b2 :: _ => if in_range b1 lo hi && cont b2 then three b1 b2 else bad
    | _ => bad
    end
  else if in_range b0 240 244 then
    let lo := if (b0 =? 240)%Z then 144%Z else 128%Z in
    let hi := if (b0 =? 244)%Z then 143%Z else 191%Z in
    match s with
    | b1 :: b2 :: b3 :: _ => if in_range b1 lo hi && cont b2 && cont b3 then four b1 b2 b3 else bad
    | _ => bad
    end
  else bad.

(** [skip] bytes of [s] belong to the rune before. *)
Fixpoint decode_loop (skip : nat) (s : bytes) : list (Z * bool) :=
  match s with
  | [] => []
  | b0 :: s' =>
    match skip with
    | S skip' => decode_loop skip' s'
    | O => let '(r, w, ok) := decode_rune b0 s' in (r, ok) :: decode_loop (w - 1) s'
    end
  end.

(** What [for _, r := range s] visits. *)
Definition range_runes (s : bytes) : list Z := (decode_loop 0 s).*1.
Definition ValidString (s : bytes) : bool := forallb id (decode_loop 0 s).*2.

(** ** Checks (validate.go) *)

Definition MaxMetaInfoBytes : Z := 10 * 1024 * 1024.
Definition MaxNameLen : Z := 256.
Definition MaxPathComponentLen : Z := 255.
Definition MaxPathDepth : Z := 64.
Definition MaxFilesCount : Z := 100000.
Definition MaxPieceLen : Z := 16 * 1024 * 1024.
Definition MinPieceLen : Z := 1.

Inductive validateError :=
| ErrInvalidUTF8 | ErrNullByte | ErrControlChar | ErrEmptyName | ErrNameTooLong | ErrEmptyPathComponent
| ErrPathTraversal | ErrAbsolutePath | ErrPathTooLong | ErrPathTooDeep | ErrTooManyFiles | ErrPieceLenOutOfRange.

Definition dquote : string := String (Ascii.ascii_of_nat 34) EmptyString.

Definition sentinel_text (e : validateError) : string :=
  match e with
  | ErrInvalidUTF8 => "string field contains invalid UTF-8"
  | ErrNullByte => "string field contains a NUL byte"
  | ErrControlChar => "string field contains a control character outside \t\n\r"
  | ErrEmptyName => "Info.Name is empty"
  | ErrNameTooLong => "Info.Name exceeds MaxNameLen"
  | ErrEmptyPathComponent => "Files[i].Path contains an empty component"
  | ErrPathTraversal =>
    "Files[i].Path contains " +:+ dquote +:+ "." +:+ dquote +:+ " or " +:+ dquote +:+ ".." +:+ dquote
  | ErrAbsolutePath => "Files[i].Path component contains a path separator"
  | ErrPathTooLong => "Files[i].Path component exceeds MaxPathComponentLen"
  | ErrPathTooDeep => "Files[i].Path exceeds MaxPathDepth"
  | ErrTooManyFiles => "Files count exceeds MaxFilesCount"
  | ErrPieceLenOutOfRange => "PieceLength outside [MinPieceLen, MaxPieceLen]"
  end.

(** Where a violation was found: the text around the wrapped sentinel. *)
Inductive location := AtName | AtPieceLength (n : Z) | AtFiles (n : Z) | AtPath (i : nat).

Definition location_text (l : location) : string :=
  match l with
  | AtName => "Info.Name: "
  | AtPieceLength n => "Info.PieceLength (" +:+ pretty n +:+ "): "
  | AtFiles n => "Info.Files (" +:+ pretty n +:+ "): "
  | AtPath i => "Info.Files[" +:+ pretty i +:+ "].Path: "
  end.

(** The fields of [metainfo.Info] that the program reads, itself or through the
    methods of the library: the name and the paths each have a second form, the
    keys [name.utf-8] and [path.utf-8] of the dictionary. *)
Record FileInfo := mkFileInfo { Path : list bytes; fi_Length : Z; PathUtf8 : list bytes }.
Record Info := mkInfo {
  Name : bytes; PieceLength : Z; Files : list FileInfo; info_Private : option bool; info_Pieces : bytes; NameUtf8 : bytes
}.

Definition len {A} (l : list A) : Z := Z.of_nat (length l).

Definition isBadControl (r : Z) : bool := ((r <? 32) || (r =? 127))%Z.

(** A check gives its first error, [None] for [nil]. *)
Fixpoint first_error {A E} (f : A → option E) (l : list A) : option E :=
  match l with
  | [] => None
  | x :: l => match f x with Some e => Some e | None => first_error f l end
  end.

Definition name_rune (r : Z) : option validateError :=
  if (r =? 0)%Z then Some ErrNullByte else if isBadControl r then Some ErrControlChar else None.

Definition validateName (name : bytes) : option validateError :=
  if decide (name = []) then Some ErrEmptyName
  else if (MaxNameLen <? len name)%Z then Some ErrNameTooLong
  else if negb (ValidString name) then Some ErrInvalidUTF8
  else first_error name_rune (range_runes name).

Definition path_rune (r : Z) : option validateError :=
  if (r =? 0)%Z then Some ErrNullByte
  else if isBadControl r then Some ErrControlChar
  else if ((r =? 47) || (r =? 92))%Z then Some ErrAbsolutePath
  else None.

Definition validate_component (p : bytes) : option validateError :=
  if decide (p = []) then Some ErrEmptyPathComponent
  else if decide (p = [46] ∨ p = [46; 46])%Z then Some ErrPathTraversal
  else if (MaxPathComponentLen <? len p)%Z then Some ErrPathTooLong
  else if negb (ValidString p) then Some ErrInvalidUTF8
  else first_error path_rune (range_runes p).

Definition validatePath (parts : list bytes) : option validateError :=
  if (MaxPathDepth <? len parts)%Z then Some ErrPathTooDeep
  else first_error validate_component parts.

(** [for i, f := range info.Files], from index [i]. *)
Fixpoint validate_files (i : nat) (files : list FileInfo) : option (location * validateError) :=
  match files with
  | [] => None
  | f :: files =>
    match validatePath (Path f) with Some e => Some (AtPath i, e) | None => validate_files (S i) files end
  end.

Definition validateInfo (info : Info) : option (location * validateError) :=
  match validateName (Name info) with
  | Some e => Some (AtName, e)
  | None =>
    if ((PieceLength info <? MinPieceLen) || (MaxPieceLen <? PieceLength info))%Z
    then Some (AtPieceLength (PieceLength info), ErrPieceLenOutOfRange)
    else if (MaxFilesCount <? len (Files info))%Z then Some (AtFiles (len (Files info)), ErrTooManyFiles)
    else validate_files 0 (Files info)
  end.

(** ** Parsing (parse.go, read_torrent_file.go) *)

(** The functions of anacrolix/torrent that the package calls. *)
Class Torrent := {
  HashBytes : bytes → bytes;
  Unmarshal_info : bytes → string + Info;
  Unmarshal_rawInfo : bytes → string + bytes;
  BestName : Info → bytes;
  TotalLength : Info → Z;
  DisplayPath : FileInfo → Info → bytes
}.

Inductive parseError :=
| ErrMetaInfoTooLarge (n : Z)
| ErrWrongHash
| ErrUnmarshal (inner : string)
| ErrUnmarshalFile (inner : string)
| ErrValidate (l : location) (e : validateError).

Definition parseError_text (e : parseError) : string :=
  match e with
  | ErrMetaInfoTooLarge n => "metainfo bytes (" +:+ pretty n +:+ "): metainfo bytes exceed MaxMetaInfoBytes"
  | ErrWrongHash => "info bytes have wrong hash"
  | ErrUnmarshal inner => "error unmarshaling info bytes: " +:+ inner
  | ErrUnmarshalFile inner => "error unmarshaling torrent file: " +:+ inner
  | ErrValidate l e => location_text l +:+ sentinel_text e
  end.

Section parse.
Context `{Torrent}.

Definition ParseMetaInfoBytes (infoHash metaInfoBytes : bytes) : outcome parseError Info :=
  if (MaxMetaInfoBytes <? len metaInfoBytes)%Z then Err (ErrMetaInfoTooLarge (len metaInfoBytes))
  else if decide (HashBytes metaInfoBytes ≠ infoHash) then Err ErrWrongHash
  else
    match Unmarshal_info metaInfoBytes with
    | inl text => Err (ErrUnmarshal text)
    | inr info => match validateInfo info with Some (l, e) => Err (ErrValidate l e) | None => Ok info end
    end.

Definition ParseTorrentFileInfo (infoHash torrentFile : bytes) : outcome parseError Info :=
  match Unmarshal_rawInfo torrentFile with
  | inl text => Err (ErrUnmarshalFile text)
  | inr raw => ParseMetaInfoBytes infoHash raw
  end.

(** ** Banning (banning/*.go) *)

Inductive banError := ErrNameTooShort | ErrSizeTooSmall | ErrInvalidString | ErrOther (msg : string).

Abbreviation Checker := (Info → option banError).

Definition nameLengthChecker (min : Z) : Checker := λ info,
  if (len (BestName info) <? min)%Z then Some ErrNameTooShort else None.

Definition sizeChecker (min : Z) : Checker := λ info,
  if (TotalLength info <? min)%Z then Some ErrSizeTooSmall else None.

Definition utf8Checker : Checker := λ info,
  let checkUtf8Strings := BestName info :: ((λ file, DisplayPath file info) <$> Files info) in
  first_error (λ str, if negb (ValidString str) || bool_decide (0%Z ∈ str) then Some ErrInvalidString else None)
    checkUtf8Strings.

(** [errors.Join]: the errors that are not [nil], [nil] when there are none. *)
Definition combinedChecker (checkers : list Checker) : Info → option (list banError) := λ info,
  match omap id ((λ checker : Checker, checker info) <$> checkers) with
  | [] => None
  | errs => Some errs
  end.

Definition banning_New (checkers : list Checker) : Info → option (list banError) :=
  combinedChecker (checkers ++ [nameLengthChecker 8; sizeChecker 1024; utf8Checker]).

End parse.

(** ** UTF-8 lemmas *)

Lemma lor_ge_l a b : (0 ≤ a)%Z → (0 ≤ b)%Z → (a ≤ Z.lor a b)%Z.
Proof.
  intros Ha Hb. assert (Z.lor a b = a + Z.ldiff b a)%Z as ->.
  { rewrite Z.add_nocarry_lxor; bitwise; rewrite Z.ldiff_spec; by destruct (Z.testbit a _), (Z.testbit b _). }
  assert (0 ≤ Z.ldiff b a)%Z by (apply Z.ldiff_nonneg; lia). lia.
Qed.

Lemma lor_ge_r a b : (0 ≤ a)%Z → (0 ≤ b)%Z → (b ≤ Z.lor a b)%Z.
Proof. rewrite Z.lor_comm. intros. by apply lor_ge_l. Qed.

Lemma land_mask_mod x k : (0 ≤ k)%Z → (Z.land x (2 ^ k - 1) = x `mod` 2 ^ k)%Z.
Proof. intros. rewrite <- Z.land_ones by done. by rewrite Z.ones_equiv, Z.sub_1_r. Qed.

Lemma land_63 x : (0 ≤ Z.land x 63)%Z.
Proof. apply Z.land_nonneg. lia. Qed.

Lemma lor_ge m a b : (0 ≤ a)%Z → (0 ≤ b)%Z → (m ≤ a ∨ m ≤ b)%Z → (m ≤ Z.lor a b)%Z.
Proof. intros Ha Hb [?|?]; [pose proof (lor_ge_l a b Ha Hb)|pose proof (lor_ge_r a b Ha Hb)]; lia. Qed.

(** The payload bits of a first byte: its value less the marker. *)
Lemma lead_payload b0 k mask m :
  mask = (2 ^ k - 1)%Z → (0 ≤ k)%Z → (m `mod` 2 ^ k = 0)%Z → (m ≤ b0 < m + 2 ^ k)%Z → Z.land b0 mask = (b0 - m)%Z.
Proof.
  intros -> Hk Hm Hb. rewrite land_mask_mod by done. symmetry. apply (Z.mod_unique_pos _ _ (m / 2 ^ k)); [lia|].
  pose proof (Z.div_mod m (2 ^ k)). lia.
Qed.

(** Splits on the test for well-formed continuation bytes. *)
Ltac case_rune := match goal with |- context [if ?c then (Z.lor _ _, _, _) else _] => destruct c eqn:? end.

(** A well-formed rune is its own byte or takes bytes that are all above 127
    and has a value above 127. *)
Lemma decode_rune_ok b0 s r w :
  (0 ≤ b0)%Z → decode_rune b0 s = (r, w, true) →
  ((b0 < 128)%Z ∧ r = b0 ∧ w = 1) ∨
  ((128 ≤ b0)%Z ∧ (128 ≤ r)%Z ∧ Forall (Z.le 128) (take (w - 1) s)).
Proof.
  intros H0. unfold decode_rune, cont, in_range. cbv zeta.
  destruct (Z.ltb_spec b0 128) as [Hlt|Hge]; [intros [= <- <-]; by left|]. intros Heq. right. split; [done|]. revert Heq.
  pose proof land_63 as H63.
  destruct ((194 <=? b0) && (b0 <=? 223))%Z eqn:E2; [|destruct ((224 <=? b0) && (b0 <=? 239))%Z eqn:E3;
    [|destruct ((240 <=? b0) && (b0 <=? 244))%Z eqn:E4; [|done]]]; bool_hyps.
  - destruct s as [|b1 s]; [done|]. case_rune; [|done]. bool_hyps. intros [= <- <-]. cbn [take Nat.sub].
    split; [|repeat constructor; lia]. rewrite (lead_payload b0 5 31 192), Z.shiftl_mul_pow2 by (done || lia).
    apply lor_ge; [lia|apply H63|left; lia].
  - destruct s as [|b1 [|b2 s]]; [done..|]. case_rune; [|done]. bool_hyps. intros [= <- <-]. cbn [take Nat.sub].
    assert (b1 < 192)%Z by (destruct (b0 =? 237)%Z; lia).
    assert (160 ≤ b1 ∨ 224 < b0 ∧ 128 ≤ b1)%Z by (destruct (Z.eqb_spec b0 224); lia).
    split; [|repeat constructor; lia].
    pose proof (H63 b1) as Hb1. rewrite (lead_payload b0 4 15 224), !Z.shiftl_mul_pow2 by (done || lia).
    repeat apply lor_ge; try apply Z.lor_nonneg; rewrite ?Z.shiftl_mul_pow2 by lia; try apply H63; try lia. left. apply lor_ge; [lia..|].
    destruct (decide (b0 = 224)%Z) as [->|Hne]; [right|left; lia].
    rewrite (lead_payload b1 6 63 128) by (done || lia). lia.
  - destruct s as [|b1 [|b2 [|b3 s]]]; [done..|]. case_rune; [|done]. bool_hyps. intros [= <- <-]. cbn [take Nat.sub].
    assert (b1 < 192)%Z by (destruct (b0 =? 244)%Z; lia).
    assert (144 ≤ b1 ∨ 240 < b0 ∧ 128 ≤ b1)%Z by (destruct (Z.eqb_spec b0 240); lia).
    split; [|repeat constructor; lia].
    pose proof (H63 b1) as Hb1. pose proof (H63 b2) as Hb2. rewrite (lead_payload b0 3 7 240), !Z.shiftl_mul_pow2 by (done || lia).
    apply lor_ge; [rewrite !Z.lor_nonneg; lia|apply H63|left]. apply lor_ge; [rewrite !Z.lor_nonneg; lia|lia|left].
    apply lor_ge; [lia..|]. destruct (decide (b0 = 240)%Z) as [->|Hne]; [right|left; lia].
    rewrite (lead_payload b1 6 63 128) by (done || lia). lia.
Qed.

Lemma decode_loop_skip n s : decode_loop n s = decode_loop 0 (drop n s).
Proof. revert n. induction s as [|b s IH]; intros [|n]; try done. cbn [decode_loop drop]. apply IH. Qed.

Lemma decode_loop_cons b0 s :
  decode_loop 0 (b0 :: s) = let '(r, w, ok) := decode_rune b0 s in (r, ok) :: decode_loop 0 (drop (w - 1) s).
Proof. cbn [decode_loop]. destruct (decode_rune b0 s) as [[r w] ok]. by rewrite decode_loop_skip. Qed.

(** In a well-formed string the ASCII bytes are the ASCII runes. *)
Lemma valid_ascii s b : bytes_ok s → ValidString s = true → (b < 128)%Z → b ∈ range_runes s ↔ b ∈ s.
Proof.
  unfold ValidString, range_runes. induction s as [s IH] using (induction_ltof1 _ length). intros Hok Hv Hb.
  destruct s as [|b0 s]; [done|]. unfold bytes_ok in Hok. apply Forall_cons in Hok as [H0 Hok]. unfold byte_ok in H0.
  rewrite decode_loop_cons in Hv |- *. destruct (decode_rune b0 s) as [[r w] ok] eqn:E.
  cbn [fmap list_fmap fst snd forallb] in *. apply andb_true_iff in Hv as [Hw Hv]. cbn in Hw. subst ok.
  specialize (IH (drop (w - 1) s)). unfold ltof in IH. rewrite length_drop in IH. cbn [length] in IH.
  rewrite !elem_of_cons, IH; [|lia|by apply Forall_drop|done|done].
  rewrite <- (take_drop (w - 1) s) at 2. rewrite elem_of_app.
  destruct (decode_rune_ok b0 s r w ltac:(lia) E) as [(? & -> & ->)|(Hge & Hr & Hall)]; [set_solver|].
  assert (b ∉ take (w - 1) s) by (intros Hin; rewrite Forall_forall in Hall; specialize (Hall _ Hin); lia).
  split; [intros [?|?]; [lia|by right; right]|intros [?|[?|?]]; [lia|done|by right]].
Qed.

(** ** What the checks accept *)

Definition printable (b : Z) : Prop := (32 ≤ b)%Z ∧ b ≠ 127%Z.

Definition name_ok (name : bytes) : Prop :=
  name ≠ [] ∧ (len name ≤ MaxNameLen)%Z ∧ ValidString name = true ∧ Forall printable name.

Definition component_ok (p : bytes) : Prop :=
  p ≠ [] ∧ p ≠ [46]%Z ∧ p ≠ [46; 46]%Z ∧ (len p ≤ MaxPathComponentLen)%Z ∧ ValidString p = true ∧
  Forall printable p ∧ (47 ∉ p)%Z ∧ (92 ∉ p)%Z.

Definition path_ok (parts : list bytes) : Prop := (len parts ≤ MaxPathDepth)%Z ∧ Forall component_ok parts.

Definition info_ok (info : Info) : Prop :=
  name_ok (Name info) ∧ (MinPieceLen ≤ PieceLength info ≤ MaxPieceLen)%Z ∧
  (len (Files info) ≤ MaxFilesCount)%Z ∧ Forall (λ f, path_ok (Path f)) (Files info).

(** The strings of a decoded value are made of bytes. *)
Definition info_bytes (info : Info) : Prop :=
  bytes_ok (Name info) ∧ Forall (λ f, Forall bytes_ok (Path f)) (Files info).

Lemma first_error_None {A E} (f : A → option E) l : first_error f l = None ↔ Forall (λ x, f x = None) l.
Proof.
  induction l as [|x l IH]; cbn; [done|]. rewrite Forall_cons, <- IH. destruct (f x); [|tauto]. split; [done|]. by intros [? _].
Qed.

Lemma first_error_iff {A E} (f : A → option E) (P : A → Prop) l :
  (∀ x, x ∈ l → f x = None ↔ P x) → first_error f l = None ↔ Forall P l.
Proof. intros Hf. rewrite first_error_None, !Forall_forall. naive_solver. Qed.

(** A condition on ASCII runes is one on bytes. *)
Lemma Forall_runes (P : Z → Prop) s :
  bytes_ok s → ValidString s = true → (∀ b, (128 ≤ b)%Z → P b) → Forall P (range_runes s) ↔ Forall P s.
Proof.
  intros Hok Hv Hhi. rewrite !Forall_forall. split; intros HP b Hin.
  - destruct (Z.lt_ge_cases b 128); [|auto]. apply HP. by apply valid_ascii.
  - destruct (Z.lt_ge_cases b 128); [|auto]. apply HP. by apply valid_ascii.
Qed.

Lemma name_rune_None r : name_rune r = None ↔ printable r.
Proof. unfold name_rune, isBadControl, printable. zcases; cbn; split; intros; try done; lia. Qed.

Lemma path_rune_None r : path_rune r = None ↔ printable r ∧ r ≠ 47%Z ∧ r ≠ 92%Z.
Proof. unfold path_rune, isBadControl, printable. zcases; cbn; split; intros; try done; lia. Qed.

Lemma validateName_ok name : bytes_ok name → validateName name = None ↔ name_ok name.
Proof.
  intros Hok. unfold validateName, name_ok. destruct (decide (name = [])) as [->|Hne]; [naive_solver|].
  destruct (Z.ltb_spec MaxNameLen (len name)); [split; [done|]; intros (_ & ? & _); lia|].
  destruct (ValidString name) eqn:Hv; cbn [negb]; [|naive_solver].
  rewrite (first_error_iff _ printable) by (intros; apply name_rune_None).
  rewrite Forall_runes; [tauto|done|done|]. unfold printable. lia.
Qed.

Lemma validate_component_ok p : bytes_ok p → validate_component p = None ↔ component_ok p.
Proof.
  intros Hok. unfold validate_component, component_ok. destruct (decide (p = [])) as [->|Hne]; [naive_solver|].
  destruct (decide (p = [46] ∨ p = [46; 46])%Z) as [Hd|Hd]; [naive_solver|].
  destruct (Z.ltb_spec MaxPathComponentLen (len p)); [split; [done|]; intros (_ & _ & _ & ? & _); lia|].
  destruct (ValidString p) eqn:Hv; cbn [negb]; [|naive_solver].
  rewrite (first_error_iff _ (λ r, printable r ∧ r ≠ 47 ∧ r ≠ 92)%Z) by (intros; apply path_rune_None).
  rewrite Forall_runes; [|done|done|unfold printable; lia]. rewrite !Forall_forall.
  split; [|naive_solver]. intros Hp. split_and!; try done; try tauto; try (intros Hin; by destruct (Hp _ Hin) as (_ & ? & ?)).
  intros x Hx. by apply Hp.
Qed.

Lemma validate_files_iff (P : FileInfo → Prop) i files :
  (∀ f, f ∈ files → validatePath (Path f) = None ↔ P f) → validate_files i files = None ↔ Forall P files.
Proof.
  revert i. induction files as [|f files IH]; intros i Hf; cbn; [done|]. rewrite Forall_cons, <- (IH (S i)) by set_solver.
  pose proof (Hf f ltac:(set_solver)). destruct (validatePath (Path f)); naive_solver.
Qed.

Lemma validateInfo_ok info : info_bytes info → validateInfo info = None ↔ info_ok info.
Proof.
  intros [Hn Hf]. unfold validateInfo, info_ok. rewrite <- (validateName_ok (Name info)) by done.
  destruct (validateName (Name info)); [naive_solver|].
  destruct (Z.ltb_spec (PieceLength info) MinPieceLen), (Z.ltb_spec MaxPieceLen (PieceLength info)); cbn [orb];
    try (split; [done|]; intros (_ & ? & _); lia).
  destruct (Z.ltb_spec MaxFilesCount (len (Files info))); [split; [done|]; intros (_ & _ & ? & _); lia|].
  rewrite (validate_files_iff (λ f, path_ok (Path f))); [tauto|]. intros f Hin. rewrite Forall_forall in Hf.
  unfold validatePath, path_ok. destruct (Z.ltb_spec MaxPathDepth (len (Path f))); [split; [done|]; intros [? _]; lia|].
  rewrite (first_error_iff _ component_ok); [tauto|]. intros p Hp. apply validate_component_ok.
  specialize (Hf f Hin). rewrite Forall_forall in Hf. auto.
Qed.

(** ** Paths on disk *)

(** A path with its components joined by a separator, and the components that
    an operating system finds in it. *)
Fixpoint join_path (sep : Z) (parts : list bytes) : bytes :=
  match parts with
  | [] => []
  | [p] => p
  | p :: ps => p ++ sep :: join_path sep ps
  end.

Fixpoint split_path (sep : Z) (acc : bytes) (s : bytes) : list bytes :=
  match s with
  | [] => [acc]
  | b :: s => if (b =? sep)%Z then acc :: split_path sep [] s else split_path sep (acc ++ [b]) s
  end.

Lemma split_path_component sep acc p s :
  sep ∉ p → split_path sep acc (p ++ sep :: s) = (acc ++ p) :: split_path sep [] s.
Proof.
  revert acc. induction p as [|b p IH]; intros acc Hp; cbn; [by rewrite Z.eqb_refl, app_nil_r|].
  apply not_elem_of_cons in Hp as [Hb Hp]. rewrite (proj2 (Z.eqb_neq b sep)) by done.
  by rewrite IH, <- app_assoc.
Qed.

Lemma split_path_last sep acc p : sep ∉ p → split_path sep acc p = [acc ++ p].
Proof.
  revert acc. induction p as [|b p IH]; intros acc Hp; cbn; [by rewrite app_nil_r|].
  apply not_elem_of_cons in Hp as [Hb Hp]. rewrite (proj2 (Z.eqb_neq b sep)) by done.
  by rewrite IH, <- app_assoc.
Qed.

Lemma split_join sep parts :
  parts ≠ [] → Forall (λ p : bytes, sep ∉ p) parts → split_path sep [] (join_path sep parts) = parts.
Proof.
  induction parts as [|p parts IH]; [done|]. intros _ [Hp Hps]%Forall_cons.
  destruct parts as [|q parts]; [by rewrite <- (app_nil_l p) at 2; apply split_path_last|].
  change (join_path sep (p :: q :: parts)) with (p ++ sep :: join_path sep (q :: parts)).
  rewrite split_path_component, IH by done. done.
Qed.

(** ** Properties *)

Section properties.
Context `{Torrent}.
(** The decoder returns strings of bytes. *)
Hypothesis unmarshal_bytes : ∀ b info, Unmarshal_info b = inr info → info_bytes info.

Lemma ParseMetaInfoBytes_ok infoHash b info :
  ParseMetaInfoBytes infoHash b = Ok info ↔
  (len b ≤ MaxMetaInfoBytes)%Z ∧ HashBytes b = infoHash ∧ Unmarshal_info b = inr info ∧ info_ok info.
Proof.
  unfold ParseMetaInfoBytes.
  destruct (Z.ltb_spec MaxMetaInfoBytes (len b)); [split; [done|]; intros (? & _); lia|].
  destruct (decide (HashBytes b ≠ infoHash)) as [Hh|Hh]; [naive_solver|apply dec_stable in Hh].
  destruct (Unmarshal_info b) as [?|i] eqn:E; [naive_solver|].
  pose proof (validateInfo_ok i (unmarshal_bytes b i E)). destruct (validateInfo i) as [[? ?]|]; naive_solver.
Qed.

Lemma ParseMetaInfoBytes_no_panic infoHash b : ParseMetaInfoBytes infoHash b ≠ Panic.
Proof. unfold ParseMetaInfoBytes. repeat case_goal; done. Qed.

(** The same metadata without the second form of the name and the paths. *)
Definition without_utf8 (info : Info) : Info :=
  mkInfo (Name info) (PieceLength info) ((λ f, mkFileInfo (Path f) (fi_Length f) []) <$> Files info) (info_Private info) (info_Pieces info) [].
Lemma validateInfo_without_utf8 info : validateInfo (without_utf8 info) = validateInfo info.
Proof.
  unfold validateInfo, without_utf8, len. cbn [Name PieceLength Files]. rewrite length_fmap.
  assert (∀ i, validate_files i ((λ f, mkFileInfo (Path f) (fi_Length f) []) <$> Files info) = validate_files i (Files info)) as ->; [|done].
  induction (Files info) as [|f fs IH]; intros i; cbn; [done|]. by rewrite IH.
Qed.

(** C30: metadata is accepted exactly when it is small enough, hashes to the
    requested infohash, decodes, and meets every bound: a non-empty, bounded,
    well-formed [Name] without control bytes (tab and line breaks among them), a
    sane piece length, boundedly many files whose components of [Path] are
    non-empty, bounded, free of control bytes and separators and never "." or
    "..".  So the [Path] of an accepted file, joined with either separator, is
    read back as the same components: it cannot climb out of its directory.
    The checks say nothing of [NameUtf8] and [PathUtf8], which the library
    prefers where they are present: metadata passes or fails them with these
    fields as without. *)
Theorem metainfo_parse_safe infoHash b :
  (∀ info, ParseMetaInfoBytes infoHash b = Ok info ↔
    (len b ≤ MaxMetaInfoBytes)%Z ∧ HashBytes b = infoHash ∧ Unmarshal_info b = inr info ∧ info_ok info) ∧
  (∀ info f sep, ParseMetaInfoBytes infoHash b = Ok info → f ∈ Files info → Path f ≠ [] → sep = 47%Z ∨ sep = 92%Z →
    split_path sep [] (join_path sep (Path f)) = Path f ∧ Forall (λ p, p ≠ [] ∧ p ≠ [46] ∧ p ≠ [46; 46])%Z (Path f)) ∧
  ParseMetaInfoBytes infoHash b ≠ Panic ∧
  (∀ info, validateInfo (without_utf8 info) = validateInfo info).
Proof.
  split_and!; [apply ParseMetaInfoBytes_ok| |apply ParseMetaInfoBytes_no_panic|apply validateInfo_without_utf8].
  intros info f sep (_ & _ & _ & _ & _ & _ & Hok)%ParseMetaInfoBytes_ok Hin Hne Hsep. rewrite Forall_forall in Hok.
  destruct (Hok f Hin) as [_ Hc]. split.
  - apply split_join; [done|]. eapply Forall_impl; [exact Hc|]. intros p Hp. unfold component_ok in Hp.
    destruct Hsep as [-> | ->]; tauto.
  - eapply Forall_impl; [exact Hc|]. intros p Hp. unfold component_ok in Hp. tauto.
Qed.

(** What the built-in checkers let pass. *)
Theorem banning_accepts info :
  banning_New [] info = None ↔
  (8 ≤ len (BestName info))%Z ∧ (1024 ≤ TotalLength info)%Z ∧
  Forall (λ s, ValidString s = true ∧ 0%Z ∉ s) (BestName info :: ((λ f, DisplayPath f info) <$> Files info)).
Proof.
  unfold banning_New, combinedChecker, nameLengthChecker, sizeChecker. cbn [app fmap list_fmap].
  assert (Hu : utf8Checker info = None ↔
    Forall (λ s, ValidString s = true ∧ 0%Z ∉ s) (BestName info :: ((λ f, DisplayPath f info) <$> Files info))).
  { unfold utf8Checker. apply first_error_iff. intros s _. destruct (ValidString s); cbn; [|naive_solver].
    case_bool_decide; naive_solver. }
  rewrite <- Hu. destruct (Z.ltb_spec (len (BestName info)) 8), (Z.ltb_spec (TotalLength info) 1024), (utf8Checker info); cbn;
    (split; [intros; try done; split_and!; (done || lia)|]); intros (? & ? & ?); (done || lia).
Qed.

End properties.

(** ** Witnesses *)

Definition ex_info : Info := mkInfo [195; 169; 97]%Z 16384 [mkFileInfo [[97]; [46; 46; 98]]%Z 1 []] None [] [].

(** A decoder that knows one dictionary, and a checksum in place of SHA-1. *)
#[local] Instance ex_torrent : Torrent := {|
  HashBytes b := [foldr Z.add 0 b]%Z;
  Unmarshal_info b := if decide (b = [100; 101]%Z) then inr ex_info else inl EmptyString;
  Unmarshal_rawInfo b := inr b;
  BestName info := if bool_decide (NameUtf8 info = []) then Name info else NameUtf8 info;
  TotalLength _ := 0%Z;
  DisplayPath f _ := join_path 47 (if bool_decide (PathUtf8 f = []) then Path f else PathUtf8 f)
|}.

(** The second form of a path is not checked: metadata is accepted whose file
    is displayed, and stored, as a path that climbs out of its directory. *)
Example unchecked_path :
  let f := mkFileInfo [[97]]%Z 1 [[46; 46]; [46; 46]; [120]]%Z in
  let info := mkInfo [97; 98]%Z 16384 [f] None [] [] in
  validateInfo info = None ∧ DisplayPath f info = [46; 46; 47; 46; 46; 47; 120]%Z.
Proof. split; vm_compute; reflexivity. Qed.

Lemma metainfo_parse_safe_witness :
  ParseMetaInfoBytes [201]%Z [100; 101]%Z = Ok ex_info ∧
  split_path 47 [] (join_path 47 [[97]; [46; 46; 98]]%Z) = [[97]; [46; 46; 98]]%Z.
Proof.
  assert (Hb : ∀ b info, Unmarshal_info b = inr info → info_bytes info).
  { intros b info. cbn. destruct (decide _); [|done]. intros [= <-]. split; repeat constructor; done. }
  destruct (metainfo_parse_safe Hb [201]%Z [100; 101]%Z) as (_ & Hp & _ & _).
  assert (E : ParseMetaInfoBytes [201]%Z [100; 101]%Z = Ok ex_info) by (vm_compute; reflexivity).
  split; [exact E|].
  exact (proj1 (Hp ex_info (mkFileInfo [[97]; [46; 46; 98]]%Z 1 []) 47%Z E ltac:(left) ltac:(discriminate) (or_introl eq_refl))).
Defined.

End Metainfo.
