(* ===== verification/Requester.v ===== *)
(** * The metadata requester

    [internal/protocol/metainfo/metainforequester]: fetching the metadata of a
    torrent from a peer (BEP 3, 9 and 10).  A connection is the bytes the peer
    will send before the stream ends, how it ends, and what has been
    written to it; a write fails once the peer is gone.  Loops over the input
    carry a fuel that every message uses up by at least the four bytes of its
    length, so the number of input bytes is enough; running out is a panic,
    which the theorems exclude. *)
From S2P Require Import Prelude Net Metainfo PeerRep.
From stdpp Require Import list strings pretty gmap.
From Stdlib Require Import ZArith Lia.

Module Requester.
Import Net Metainfo.

(** ** Errors

    An error is its text and what [errors.Is] and [errors.As] find in its
    chain; wrapping with %w changes the text only. *)
Record error := mkError {
  Error : string;
  IsDeadlineExceeded : bool;
  IsCanceled : bool;
  HasTimeout : bool;
  IsOpError : bool
}.

Definition errors_New (s : string) : error := mkError s false false false false.
Definition EOF : error := errors_New "EOF".
Definition ErrUnexpectedEOF : error := errors_New "unexpected EOF".
Definition wrap_error (text : string) (e : error) : error :=
  mkError text (IsDeadlineExceeded e) (IsCanceled e) (HasTimeout e) (IsOpError e).

(** ** Connections *)

Record conn := mkConn {
  inp : bytes;
  inp_end : option error;   (* [None]: the peer closed the stream *)
  writes_left : nat;        (* writes that still succeed *)
  write_error : error;
  out : bytes
}.

Definition with_inp (c : conn) (b : bytes) : conn := mkConn b (inp_end c) (writes_left c) (write_error c) (out c).

(** [rw.Write]: the error, if any, and the connection after. *)
Definition Write (c : conn) (b : bytes) : option error * conn :=
  match writes_left c with
  | O => (Some (write_error c), c)
  | S n => (None, mkConn (inp c) (inp_end c) n (write_error c) (out c ++ b))
  end.

(** [io.ReadFull] into a buffer of [n] bytes. *)
Definition ReadFull (c : conn) (n : nat) : outcome error (bytes * conn) :=
  if decide (n ≤ length (inp c)) then Ok (take n (inp c), with_inp c (drop n (inp c)))
  else
    match inp_end c with
    | Some e => Err e
    | None => Err (if decide (inp c = []) then EOF else ErrUnexpectedEOF)
    end.

(** How many bytes a failed [ReadFull] had read. *)
Definition read_count (c : conn) : nat := length (inp c).

(** ** Extension bits *)

Definition ExtensionBitDht : Z := 0.
Definition ExtensionBitFast : Z := 2.
Definition ExtensionBitV2 : Z := 7.
Definition ExtensionBitAzureusExtensionNegotiation1 : Z := 16.
Definition ExtensionBitAzureusExtensionNegotiation2 : Z := 17.
Definition ExtensionBitLtep : Z := 20.
Definition ExtensionBitLocationAwareProtocol : Z := 43.
Definition ExtensionBitAzureusMessagingProtocol : Z := 63.

(** [[8]byte] *)
Abbreviation PeerExtensionBits := bytes.

(** [7-bit/8] is unsigned: past 63 it wraps and the index panics. *)
Definition bit_index (bit : Z) : Z := wrap 64 (7 - bit / 8).

Definition WithBit (pex : PeerExtensionBits) (bit : Z) (on : bool) : go PeerExtensionBits :=
  b ← of_option (pex !! Z.to_nat (bit_index bit));
  let m := uint8 (Z.shiftl 1 (bit `mod` 8)) in
  Ok (<[Z.to_nat (bit_index bit) := if on then Z.lor b m else Z.ldiff b m]> pex).

Definition GetBit (pex : PeerExtensionBits) (bit : Z) : go bool :=
  b ← of_option (pex !! Z.to_nat (bit_index bit));
  Ok (negb (Z.land b (uint8 (Z.shiftl 1 (bit `mod` 8))) =? 0)%Z).

Fixpoint with_bits (ret : PeerExtensionBits) (bits : list Z) : go PeerExtensionBits :=
  match bits with
  | [] => Ok ret
  | b :: bits => ret ← WithBit ret b true; with_bits ret bits
  end.

Definition NewPeerExtensionBits (bits : list Z) : go PeerExtensionBits := with_bits (replicate 8 0%Z) bits.

(** [myExBits]: the value of [NewPeerExtensionBits(Dht, Ltep)] (see
    [myExBits_eq]). *)
Definition myExBits : PeerExtensionBits := [0; 0; 0; 0; 0; 16; 0; 1]%Z.

Lemma myExBits_eq : NewPeerExtensionBits [ExtensionBitDht; ExtensionBitLtep] = Ok myExBits.
Proof. vm_compute. reflexivity. Qed.

(** ** What anacrolix/torrent provides *)

Record rootDict := mkRootDict { UTMetadata : Z; MetadataSize : Z }.
Record extDict := mkExtDict { ext_MsgType : Z; ext_Piece : Z }.
Record metadataResponseHeader := mkHeader { MsgType : Z; Piece : Z; TotalSize : Z }.

Class Bencode := {
  Protocol : bytes;
  Extended : Z;
  Marshal_ext : extDict → error + bytes;
  Unmarshal_root : bytes → error + rootDict;
  (** Decodes one value at the head of the buffer over the defaults given and
      returns what is left. *)
  Decode_header : metadataResponseHeader → bytes → error + metadataResponseHeader * bytes
}.

Record HandshakeInfo := mkHandshakeInfo { PeerID : bytes; hs_PeerExtensionBits : PeerExtensionBits }.
Record Response := mkResponse { resp_HandshakeInfo : HandshakeInfo; resp_Info : Info }.

Definition text_of (s : string) : bytes := (λ a, Z.of_N (Ascii.N_of_ascii a)) <$> String.list_ascii_of_string s.

Section requester.
Context `{Bencode} `{Torrent}.

Definition btHandshake (c : conn) (infoHash clientID : bytes) : outcome error (HandshakeInfo * conn) :=
  let handshakeBytes := Protocol ++ myExBits ++ infoHash ++ clientID in
  match Write c handshakeBytes with
  | (Some e, _) => Err e
  | (None, c) =>
    if decide (length handshakeBytes ≠ 68) then Panic
    else
      match ReadFull c 68 with
      | Panic => Panic
      | Err e =>
        Err (wrap_error ("failed to read all handshake bytes (" +:+ pretty (read_count c) +:+ "): " +:+ Error e
          +:+ " / " +:+ hex_encode infoHash) e)
      | Ok (handshakeResponse, c) =>
        if decide (take (length Protocol) handshakeResponse ≠ Protocol)
        then Err (errors_New "invalid handshake response received")
        else
          let peerExBits := take 8 (drop 20 handshakeResponse) in
          ltep ← lift_go (GetBit peerExBits ExtensionBitLtep);
          if negb ltep then Err (errors_New "peer does not support the extension protocol")
          else if decide (take 20 (drop 28 handshakeResponse) ≠ infoHash)
          then Err (errors_New "infohash mismatch")
          else Ok (mkHandshakeInfo (take 20 (drop 48 handshakeResponse)) peerExBits, c)
      end
  end.

Definition metadataPieceSize : Z := 16 * 1024.
Definition maxMetadataSize : Z := 10 * 1024 * 1024.

(** [binary.BigEndian.Uint32] *)
Definition BigEndian_Uint32 (b : bytes) : Z := foldl (λ acc x, acc * 256 + x)%Z 0%Z b.

Definition readMessage (c : conn) : outcome error (bytes * conn) :=
  '(lengthBytes, c) ← ReadFull c 4;
  let length := BigEndian_Uint32 lengthBytes in
  if (maxMetadataSize <? length)%Z then Err (errors_New "message is longer than max allowed metadata size")
  else ReadFull c (Z.to_nat length).

Fixpoint readExMessage_loop (fuel : nat) (c : conn) : outcome error (bytes * conn) :=
  match fuel with
  | O => Panic
  | S fuel =>
    '(rMessage, c) ← readMessage c;
    if decide (length rMessage < 2) then readExMessage_loop fuel c
    else
      b0 ← of_option (rMessage !! 0);
      if (b0 =? Extended)%Z then Ok (rMessage, c) else readExMessage_loop fuel c
  end.

Definition readExMessage (c : conn) : outcome error (bytes * conn) := readExMessage_loop (S (length (inp c))) c.

Fixpoint readUmMessage_loop (fuel : nat) (c : conn) : outcome error (bytes * conn) :=
  match fuel with
  | O => Panic
  | S fuel =>
    '(rExMessage, c) ← readExMessage c;
    b1 ← of_option (rExMessage !! 1);
    if (b1 =? 1)%Z then Ok (rExMessage, c) else readUmMessage_loop fuel c
  end.

Definition readUmMessage (c : conn) : outcome error (bytes * conn) := readUmMessage_loop (S (length (inp c))) c.

(** The error of the write is not looked at: the condition tests [err], which
    is [nil] there. *)
Definition exHandshake (c : conn) : outcome error (Z * Z * conn) :=
  let '(_, c) := Write c ([0; 0; 0; 26; 20; 0]%Z ++ text_of "d1:md11:ut_metadatai1eee") in
  '(rExMessage, c) ← readExMessage c;
  b1 ← of_option (rExMessage !! 1);
  if negb (b1 =? 0)%Z then Err (errors_New "first extension message is not an extension handshake")
  else
    body ← slice_from rExMessage 2;
    match Unmarshal_root body with
    | inl e => Err e
    | inr rRootDict =>
      if ((MetadataSize rRootDict <=? 0) || (maxMetadataSize <=? MetadataSize rRootDict))%Z
      then Err (errors_New "metadata too big or its size is less than or equal zero")
      else if ((UTMetadata rRootDict <=? 0) || (255 <=? UTMetadata rRootDict))%Z
      then Err (errors_New "ut_metadata is not an uint8")
      else Ok (MetadataSize rRootDict, uint8 (UTMetadata rRootDict), c)
    end.

Definition metadataPieceCount (metadataSize : Z) : Z :=
  let nPieces := (metadataSize / metadataPieceSize)%Z in
  if negb (metadataSize `mod` metadataPieceSize =? 0)%Z then (nPieces + 1)%Z else nPieces.

Definition uintToBigEndian4 (i : Z) : bytes :=
  let v := uint32 i in
  [uint8 (Z.shiftr v 24); uint8 (Z.shiftr v 16); uint8 (Z.shiftr v 8); uint8 v].

(** [for piece := range nPieces], from [piece] on, [n] of them. *)
Fixpoint requestAllPieces_loop (n : nat) (piece : Z) (c : conn) (utMetadata : Z) : outcome error conn :=
  match n with
  | O => Ok c
  | S n =>
    match Marshal_ext (mkExtDict 0 piece) with
    | inl _ => Panic
    | inr extDictDump =>
      match Write c (uintToBigEndian4 (2 + len extDictDump) ++ [20%Z] ++ [utMetadata] ++ extDictDump) with
      | (Some e, _) => Err e
      | (None, c) => requestAllPieces_loop n (piece + 1) c utMetadata
      end
    end
  end.

Definition requestAllPieces (c : conn) (metadataSize utMetadata : Z) : outcome error conn :=
  requestAllPieces_loop (Z.to_nat (metadataPieceCount metadataSize)) 0 c utMetadata.

(** [b[start:end]], which panics when the bounds are not in order. *)
Definition slice {E} (b : bytes) (start stop : Z) : outcome E bytes :=
  if decide (0 ≤ start ≤ stop ∧ stop ≤ len b)%Z then Ok (take (Z.to_nat (stop - start)) (drop (Z.to_nat start) b)) else Panic.

(** [copy(b[start:end], p)] for a [p] of that length. *)
Definition copy_at (b : bytes) (start : Z) (p : bytes) : bytes :=
  take (Z.to_nat start) b ++ p ++ drop (Z.to_nat start + length p) b.

(** The loop's variables. *)
Record pieces := mkPieces { metadataBytes : bytes; seen : list bool; receivedPieces : Z }.

(** One round of the loop, after the message was read. *)
Definition handlePiece (metadataSize nPieces : Z) (st : pieces) (rUmMessage : bytes) : outcome error pieces :=
  rMessageBuf ← slice_from rUmMessage 2;
  match Decode_header (mkHeader (-1) (-1) (-1)) rMessageBuf with
  | inl e => Err (wrap_error ("decode ut_metadata header: " +:+ Error e) e)
  | inr (rExtDict, metadataPiece) =>
    if (MsgType rExtDict <? 0)%Z then Err (errors_New "ut_metadata header is missing msg_type")
    else
      let piece := Piece rExtDict in
      if ((piece <? 0) || (nPieces <=? piece))%Z
      then Err (errors_New ("ut_metadata piece index " +:+ pretty piece +:+ " out of range [0," +:+ pretty nPieces +:+ ")"))
      else if (MsgType rExtDict =? 0)%Z then
        if negb (len metadataPiece =? 0)%Z then Err (errors_New "ut_metadata request contains trailing payload") else Ok st
      else if (MsgType rExtDict =? 1)%Z then
        if negb (TotalSize rExtDict =? metadataSize)%Z
        then Err (errors_New ("ut_metadata total_size " +:+ pretty (TotalSize rExtDict)
               +:+ " does not match handshake size " +:+ pretty metadataSize))
        else
          let start := (piece * metadataPieceSize)%Z in
          let expectedLength := if (piece =? nPieces - 1)%Z then (metadataSize - start)%Z else metadataPieceSize in
          if negb (len metadataPiece =? expectedLength)%Z
          then Err (errors_New ("ut_metadata piece " +:+ pretty piece +:+ " has length " +:+ pretty (len metadataPiece)
                 +:+ ", expected " +:+ pretty expectedLength))
          else
            let stop := (start + expectedLength)%Z in
            s ← of_option (seen st !! Z.to_nat piece);
            old ← slice (metadataBytes st) start stop;
            if (s : bool) then
              if decide (old ≠ metadataPiece)
              then Err (errors_New ("ut_metadata piece " +:+ pretty piece +:+ " conflicts with an earlier copy"))
              else Ok st
            else Ok (mkPieces (copy_at (metadataBytes st) start metadataPiece) (<[Z.to_nat piece := true]> (seen st))
                   (receivedPieces st + 1))
      else if (MsgType rExtDict =? 2)%Z then
        if negb (len metadataPiece =? 0)%Z then Err (errors_New "ut_metadata reject contains trailing payload")
        else Err (errors_New ("remote peer rejected metadata piece " +:+ pretty piece))
      else Err (errors_New ("unknown ut_metadata msg_type " +:+ pretty (MsgType rExtDict)))
  end.

Fixpoint readAllPieces_loop (fuel : nat) (c : conn) (metadataSize nPieces : Z) (st : pieces) : outcome error bytes :=
  match fuel with
  | O => Panic
  | S fuel =>
    if (receivedPieces st <? nPieces)%Z then
      '(rUmMessage, c) ← readUmMessage c;
      st ← handlePiece metadataSize nPieces st rUmMessage;
      readAllPieces_loop fuel c metadataSize nPieces st
    else Ok (metadataBytes st)
  end.

Definition readAllPieces (c : conn) (metadataSize : Z) : outcome error bytes :=
  if ((metadataSize =? 0) || (maxMetadataSize <=? metadataSize))%Z
  then Err (errors_New ("invalid metadata size: " +:+ pretty metadataSize))
  else
    let nPieces := metadataPieceCount metadataSize in
    readAllPieces_loop (S (length (inp c))) c metadataSize nPieces
      (mkPieces (replicate (Z.to_nat metadataSize) 0%Z) (replicate (Z.to_nat nPieces) false) 0).

(** [connect]: the results of the system calls are given. *)
Definition connect (dial : error + conn) (setLinger : option error) (setDeadline : option (option error)) :
    outcome error conn :=
  match dial with
  | inl e => Err e
  | inr c =>
    match setLinger with
    | Some e => Err e
    | None => match setDeadline with Some (Some e) => Err e | _ => Ok c end
    end
  end.

Definition requester_Request (clientID : bytes) (conn_ : outcome error conn) (infoHash : bytes) : outcome error Response :=
  c ← conn_;
  '(hsInfo, c) ← btHandshake c infoHash clientID;
  '(metadataSize, utMetadata, c) ← exHandshake c;
  c ← requestAllPieces c metadataSize utMetadata;
  pieces ← readAllPieces c metadataSize;
  match ParseMetaInfoBytes infoHash pieces with
  | Ok parsed => Ok (mkResponse hsInfo parsed)
  | Err e => Err (errors_New (parseError_text e))
  | Panic => Panic
  end.

End requester.

(** ** Reading *)

(** A message with its length before it. *)
Definition frame (m : bytes) : bytes := uintToBigEndian4 (len m) ++ m.

#[global] Arguments Z.to_nat : simpl never.

Lemma frame_length m : 4 ≤ length (frame m).
Proof. unfold frame, uintToBigEndian4. rewrite length_app. cbn. lia. Qed.

Lemma BigEndian_roundtrip n : (0 ≤ n < 2 ^ 32)%Z → BigEndian_Uint32 (uintToBigEndian4 n) = n.
Proof.
  intros Hn. unfold uintToBigEndian4, BigEndian_Uint32, uint32. assert (wrap 32 n = n) as -> by (unfold wrap; apply Z.mod_small; lia).
  cbv zeta. unfold uint8, wrap. cbn [foldl]. rewrite !Z.shiftr_div_pow2 by lia.
  change (2 ^ 8)%Z with 256%Z. change (2 ^ 16)%Z with 65536%Z. change (2 ^ 24)%Z with 16777216%Z.
  rewrite (Z.mod_small (n / 16777216)) by (split; [apply Z.div_pos; lia|apply Z.div_lt_upper_bound; lia]).
  assert (E1 : (n / 65536 = n / 256 / 256)%Z) by (rewrite Z.div_div by lia; done).
  assert (E2 : (n / 16777216 = n / 65536 / 256)%Z) by (rewrite Z.div_div by lia; done).
  pose proof (Z.div_mod n 256 ltac:(lia)). pose proof (Z.div_mod (n / 256) 256 ltac:(lia)).
  pose proof (Z.div_mod (n / 65536) 256 ltac:(lia)). lia.
Qed.

Lemma with_inp_eta c : with_inp c (inp c) = c.
Proof. by destruct c. Qed.

Lemma ReadFull_app c b r : inp c = b ++ r → ReadFull c (length b) = Ok (b, with_inp c r).
Proof.
  intros E. unfold ReadFull. rewrite decide_True by (rewrite E, length_app; lia). by rewrite E, take_app_length, drop_app_length.
Qed.

Lemma ReadFull_Ok c n b c' :
  ReadFull c n = Ok (b, c') → length b = n ∧ inp c = b ++ inp c' ∧ c' = with_inp c (inp c').
Proof.
  unfold ReadFull. destruct (decide _); [|destruct (inp_end c); done]. intros [= <- <-]. cbn.
  rewrite length_take. split_and!; [lia|by rewrite take_drop|done].
Qed.

Lemma ReadFull_no_panic c n : ReadFull c n ≠ Panic.
Proof. unfold ReadFull. destruct (decide _); [done|]. by destruct (inp_end c). Qed.

Lemma readMessage_frame c m r :
  (len m ≤ maxMetadataSize)%Z → inp c = frame m ++ r → readMessage c = Ok (m, with_inp c r).
Proof.
  intros Hm E. unfold readMessage. unfold frame in E. rewrite <- app_assoc in E.
  rewrite (ReadFull_app c (uintToBigEndian4 (len m)) (m ++ r) E : ReadFull c 4 = _).
  assert (Hmax : maxMetadataSize = 10485760%Z) by reflexivity.
  cbn [mbind outcome_bind]. cbv beta iota. unfold len in *. rewrite BigEndian_roundtrip by lia.
  rewrite (proj2 (Z.ltb_ge _ _)) by lia. rewrite Nat2Z.id. rewrite (ReadFull_app _ m r) by done. done.
Qed.

Lemma readMessage_Ok c m c' :
  readMessage c = Ok (m, c') →
  ∃ l, length l = 4 ∧ inp c = l ++ m ++ inp c' ∧ c' = with_inp c (inp c') ∧ (len m ≤ maxMetadataSize)%Z.
Proof.
  unfold readMessage. intros ([l c1] & E1 & E2)%outcome_bind_Ok. apply ReadFull_Ok in E1 as (Hl & Hi & Hc).
  destruct (Z.ltb_spec maxMetadataSize (BigEndian_Uint32 l)) as [|Hle]; [done|].
  apply ReadFull_Ok in E2 as (Hm & Hi' & Hc'). exists l. split_and!; [done|by rewrite Hi, Hi'| |].
  - rewrite Hc', Hc. done.
  - unfold len. rewrite Hm. assert (0 < maxMetadataSize)%Z by reflexivity. lia.
Qed.

Lemma readMessage_no_panic c : readMessage c ≠ Panic.
Proof.
  unfold readMessage. pose proof (ReadFull_no_panic c 4) as H4. destruct (ReadFull c 4) as [[l c1]| |]; [|done..]. cbn.
  destruct (_ <? _)%Z; [done|apply ReadFull_no_panic].
Qed.

Section reading.
Context `{Bencode}.

(** The next extension message, without fuel. *)
Lemma readExMessage_fuel f f' c :
  length (inp c) < f → length (inp c) < f' → readExMessage_loop f c = readExMessage_loop f' c.
Proof.
  revert f' c. induction f as [|f IH]; intros f' c Hf Hf'; [lia|]. destruct f' as [|f']; [lia|]. cbn [readExMessage_loop].
  destruct (readMessage c) as [[m c1]| |] eqn:E; [|done..]. cbn [mbind outcome_bind].
  apply readMessage_Ok in E as (l & Hl & Hi & _). apply (f_equal length) in Hi. rewrite !length_app in Hi.
  rewrite (IH f' c1) by lia. done.
Qed.

Lemma readExMessage_eq c :
  readExMessage c =
  '(m, c') ← readMessage c;
  if decide (length m < 2) then readExMessage c'
  else b0 ← of_option (m !! 0); if (b0 =? Extended)%Z then Ok (m, c') else readExMessage c'.
Proof.
  unfold readExMessage at 1. cbn [readExMessage_loop]. destruct (readMessage c) as [[m c1]| |] eqn:E; [|done..].
  cbn [mbind outcome_bind]. apply readMessage_Ok in E as (l & Hl & Hi & _). apply (f_equal length) in Hi.
  rewrite !length_app in Hi. unfold readExMessage. rewrite (readExMessage_fuel _ (S (length (inp c1)))) by lia. done.
Qed.

(** What reading a message, or messages up to one of interest, leaves. *)
Definition consumes (c : conn) (m : bytes) (c' : conn) : Prop :=
  c' = with_inp c (inp c') ∧ length (inp c') < length (inp c) ∧ ∃ pre, inp c = pre ++ m ++ inp c'.

Lemma consumes_after c1 c m c' : consumes c m c1 → ∀ m', consumes c1 m' c' → consumes c m' c'.
Proof.
  intros (E & Hl & pre & Hi) m' (E' & Hl' & pre' & Hi'). split_and!; [|lia|].
  - rewrite E', E. done.
  - exists (pre ++ m ++ pre'). by rewrite Hi, Hi', <- !app_assoc.
Qed.

Lemma readMessage_consumes c m c' : readMessage c = Ok (m, c') → consumes c m c'.
Proof.
  intros (l & Hl & Hi & Hc & _)%readMessage_Ok. split_and!; [done| |by exists l].
  rewrite Hi, !length_app. lia.
Qed.

Lemma readExMessage_spec c :
  readExMessage c ≠ Panic ∧
  ∀ m c', readExMessage c = Ok (m, c') → consumes c m c' ∧ 2 ≤ length m ∧ m !! 0 = Some Extended.
Proof.
  induction c as [c IH] using (induction_ltof1 _ (λ c, length (inp c))). unfold ltof in IH. rewrite readExMessage_eq.
  pose proof (readMessage_no_panic c). destruct (readMessage c) as [[m c1]| |] eqn:E; [|done..].
  cbn [mbind outcome_bind]. apply readMessage_consumes in E as Hc. pose proof (proj1 (proj2 Hc)) as Hlt.
  specialize (IH c1 Hlt) as [IHp IHs].
  assert (Hrec : readExMessage c1 ≠ Panic ∧ ∀ m' c', readExMessage c1 = Ok (m', c') →
    consumes c m' c' ∧ 2 ≤ length m' ∧ m' !! 0 = Some Extended).
  { split; [done|]. intros m' c' (Hc1 & ?)%IHs. split; [by eapply consumes_after|done]. }
  destruct (decide (length m < 2)) as [|Hlen]; [done|]. destruct m as [|b0 m]; [cbn in Hlen; lia|].
  cbn [lookup list_lookup of_option mbind outcome_bind]. destruct (Z.eqb_spec b0 Extended) as [->|]; [|done].
  split; [done|]. intros ? ? [= <- <-]. split_and!; [done|lia|done].
Qed.

Lemma readUmMessage_fuel f f' c :
  length (inp c) < f → length (inp c) < f' → readUmMessage_loop f c = readUmMessage_loop f' c.
Proof.
  revert f' c. induction f as [|f IH]; intros f' c Hf Hf'; [lia|]. destruct f' as [|f']; [lia|]. cbn [readUmMessage_loop].
  destruct (readExMessage c) as [[m c1]| |] eqn:E; [|done..]. cbn [mbind outcome_bind].
  apply readExMessage_spec in E as ((_ & Hlt & _) & _). rewrite (IH f' c1) by lia. done.
Qed.

Lemma readUmMessage_eq c :
  readUmMessage c =
  '(m, c') ← readExMessage c; b1 ← of_option (m !! 1); if (b1 =? 1)%Z then Ok (m, c') else readUmMessage c'.
Proof.
  unfold readUmMessage at 1. cbn [readUmMessage_loop]. destruct (readExMessage c) as [[m c1]| |] eqn:E; [|done..].
  cbn [mbind outcome_bind]. apply readExMessage_spec in E as ((_ & Hlt & _) & _).
  unfold readUmMessage. rewrite (readUmMessage_fuel _ (S (length (inp c1)))) by lia. done.
Qed.

Lemma readUmMessage_spec c :
  readUmMessage c ≠ Panic ∧ ∀ m c', readUmMessage c = Ok (m, c') → consumes c m c' ∧ 2 ≤ length m.
Proof.
  induction c as [c IH] using (induction_ltof1 _ (λ c, length (inp c))). unfold ltof in IH. rewrite readUmMessage_eq.
  pose proof (readExMessage_spec c) as [Hp Hs]. destruct (readExMessage c) as [[m c1]| |] eqn:E; [|done..].
  destruct (Hs m c1 eq_refl) as (Hc & Hlen & _). pose proof (proj1 (proj2 Hc)) as Hlt. destruct (IH c1 Hlt) as [IHp IHs].
  destruct m as [|b0 [|b1 m]]; [cbn in Hlen; lia..|]. cbn [mbind outcome_bind lookup list_lookup of_option].
  destruct (b1 =? 1)%Z.
  - split; [done|]. intros ? ? [= <- <-]. done.
  - split; [done|]. intros m' c' (Hc1 & ?)%IHs. split; [by eapply consumes_after|done].
Qed.

(** Messages that [readUmMessage] steps over. *)
Definition noise (m : bytes) : Prop := length m < 2 ∨ m !! 0 ≠ Some Extended ∨ m !! 1 ≠ Some 1%Z.

Lemma readUmMessage_noise c m r :
  noise m → (len m ≤ maxMetadataSize)%Z → inp c = frame m ++ r → readUmMessage c = readUmMessage (with_inp c r).
Proof.
  intros Hn Hm Hi. rewrite readUmMessage_eq, readExMessage_eq, (readMessage_frame c m r) by done.
  cbn [mbind outcome_bind]. rewrite (readUmMessage_eq (with_inp c r)).
  destruct (decide (length m < 2)) as [|Hlen]; [done|]. destruct m as [|b0 [|b1 m]]; [cbn in Hlen; lia..|].
  cbn [lookup list_lookup of_option mbind outcome_bind].
  destruct (Z.eqb_spec b0 Extended) as [->|]; [|done]. cbn [mbind outcome_bind lookup list_lookup of_option].
  destruct (Z.eqb_spec b1 1) as [->|]; [|by rewrite <- readUmMessage_eq].
  destruct Hn as [?|[Hn|Hn]]; cbn in *; [lia|done|done].
Qed.

Lemma readUmMessage_message c m r :
  (len (Extended :: 1%Z :: m) ≤ maxMetadataSize)%Z → inp c = frame (Extended :: 1%Z :: m) ++ r →
  readUmMessage c = Ok (Extended :: 1%Z :: m, with_inp c r).
Proof.
  intros Hm Hi. rewrite readUmMessage_eq, readExMessage_eq, (readMessage_frame c _ r) by done.
  cbn [mbind outcome_bind]. rewrite decide_False by (cbn; lia).
  cbn [lookup list_lookup of_option mbind outcome_bind]. rewrite Z.eqb_refl. done.
Qed.

End reading.

(** ** Pieces *)

Definition pieceLen : nat := Z.to_nat metadataPieceSize.

Lemma pieceLen_Z : Z.of_nat pieceLen = metadataPieceSize.
Proof. unfold pieceLen. apply Z2Nat.id. unfold metadataPieceSize. lia. Qed.
#[global] Opaque pieceLen.

(** Piece [i] of a byte string. *)
Definition chunk (b : bytes) (i : nat) : bytes := take pieceLen (drop (i * pieceLen) b).

Lemma chunk_lookup b i k : chunk b i !! k = if decide (k < pieceLen) then b !! (i * pieceLen + k) else None.
Proof.
  unfold chunk. rewrite lookup_take, lookup_drop. done.
Qed.

Lemma chunk_ext b b' : (∀ i, chunk b i = chunk b' i) → b = b'.
Proof.
  intros E. apply list_eq. intros j. pose proof pieceLen_Z as HP. unfold metadataPieceSize in HP.
  specialize (E (j / pieceLen)). apply (f_equal (lookup (j mod pieceLen))) in E. rewrite !chunk_lookup in E.
  rewrite !decide_True in E by (apply Nat.mod_upper_bound; lia).
  assert (j / pieceLen * pieceLen + j mod pieceLen = j) as Ej by (pose proof (Nat.div_mod j pieceLen); lia).
  rewrite !Ej in E. exact E.
Qed.

Lemma copy_at_lookup b s p k :
  (0 ≤ s)%Z → Z.to_nat s + length p ≤ length b →
  copy_at b s p !! k = if decide (Z.to_nat s ≤ k < Z.to_nat s + length p) then p !! (k - Z.to_nat s) else b !! k.
Proof.
  intros Hs Hl. unfold copy_at. destruct (decide (k < Z.to_nat s)) as [Hlt|Hge].
  - rewrite decide_False by lia. rewrite lookup_app_l by (rewrite length_take; lia). by rewrite lookup_take_lt.
  - rewrite lookup_app_r by (rewrite length_take; lia). rewrite length_take, Nat.min_l by lia.
    destruct (decide (k < Z.to_nat s + length p)); [rewrite decide_True, lookup_app_l by lia; done|].
    rewrite decide_False, lookup_app_r, lookup_drop by lia. f_equal. lia.
Qed.

Lemma copy_at_length b s p : Z.to_nat s + length p ≤ length b → length (copy_at b s p) = length b.
Proof. intros Hl. unfold copy_at. rewrite !length_app, length_take, length_drop. lia. Qed.

(** The number of pieces and the length of each. *)
Lemma metadataPieceCount_spec size :
  (0 < size)%Z →
  let n := metadataPieceCount size in (0 < n)%Z ∧ ((n - 1) * metadataPieceSize < size ≤ n * metadataPieceSize)%Z.
Proof.
  intros Hs. unfold metadataPieceCount. cbv zeta. assert (EP : metadataPieceSize = 16384%Z) by reflexivity. rewrite !EP.
  pose proof (Z.div_mod size 16384 ltac:(lia)). pose proof (Z.mod_pos_bound size 16384 ltac:(lia)).
  destruct (Z.eqb_spec (size `mod` 16384) 0); cbn [negb]; lia.
Qed.

Definition expected_length (size : Z) (i : nat) : Z :=
  if (Z.of_nat i =? metadataPieceCount size - 1)%Z then (size - Z.of_nat i * metadataPieceSize)%Z else metadataPieceSize.

Lemma chunk_length b i :
  (0 < len b)%Z → (Z.of_nat i < metadataPieceCount (len b))%Z → len (chunk b i) = expected_length (len b) i.
Proof.
  intros Hb Hi. destruct (metadataPieceCount_spec (len b) Hb) as (Hn & Hlo & Hhi). pose proof pieceLen_Z as HP.
  assert (EP : metadataPieceSize = 16384%Z) by reflexivity. rewrite EP in *.
  unfold chunk, expected_length, len in *. rewrite length_take, length_drop, EP. zcases; nia.
Qed.

(** ** The state of the loop *)

Definition count_true (l : list bool) : nat := length (filter (λ b, b = true) l).

Lemma count_true_insert l i : l !! i = Some false → count_true (<[i := true]> l) = S (count_true l).
Proof.
  unfold count_true. revert i. induction l as [|b l IH]; intros [|i] E; try done.
  - injection E as ->. done.
  - cbn [insert list_insert]. cbn in E. rewrite !filter_cons. destruct (decide (b = true)); cbn [length]; by rewrite IH.
Qed.

Lemma count_true_le l : count_true l ≤ length l.
Proof. apply length_filter. Qed.

Lemma count_true_all l i b : count_true l = length l → l !! i = Some b → b = true.
Proof.
  unfold count_true. revert i. induction l as [|x l IH]; intros i Hc E; [done|]. rewrite filter_cons in Hc.
  pose proof (count_true_le l) as Hle. unfold count_true in Hle.
  destruct (decide (x = true)) as [->|Hx]; cbn in Hc; [|lia]. destruct i as [|i]; [by injection E as ->|]. eapply (IH i); [lia|done].
Qed.

(** Every piece seen so far is one that [good] allows. *)
Record pieces_inv (good : nat → bytes → Prop) (size : Z) (st : pieces) : Prop := {
  pi_bytes : len (metadataBytes st) = size;
  pi_seen : len (seen st) = metadataPieceCount size;
  pi_received : receivedPieces st = Z.of_nat (count_true (seen st));
  pi_good : ∀ i, seen st !! i = Some true → good i (chunk (metadataBytes st) i)
}.

Lemma pieces_init good size :
  (0 < size)%Z →
  pieces_inv good size
    (mkPieces (replicate (Z.to_nat size) 0%Z) (replicate (Z.to_nat (metadataPieceCount size)) false) 0).
Proof.
  intros Hs. destruct (metadataPieceCount_spec size Hs) as [Hn _]. split; cbn.
  - unfold len. rewrite length_replicate. lia.
  - unfold len. rewrite length_replicate. lia.
  - unfold count_true. set (k := Z.to_nat (metadataPieceCount size)). clearbody k. induction k; [done|]. done.
  - intros i E. apply lookup_replicate in E as [? _]. done.
Qed.

(** Entering a piece that is not there yet. *)
Lemma pieces_add good size st i p :
  (0 < size)%Z → pieces_inv good size st → seen st !! i = Some false → len p = expected_length size i → good i p →
  pieces_inv good size
    (mkPieces (copy_at (metadataBytes st) (Z.of_nat i * metadataPieceSize) p) (<[i := true]> (seen st)) (receivedPieces st + 1)).
Proof.
  intros Hs [Hb Hse Hr Hg] Hi Hp Hgood. destruct (metadataPieceCount_spec size Hs) as (Hn & Hlo & Hhi).
  pose proof (lookup_lt_Some _ _ _ Hi) as Hlt. pose proof pieceLen_Z as HP.
  assert (EP : metadataPieceSize = 16384%Z) by reflexivity. unfold expected_length, len in *. rewrite EP in *.
  assert (Hsi : Z.to_nat (Z.of_nat i * 16384) = i * pieceLen) by lia.
  assert (Hfit : i * pieceLen + length p ≤ length (metadataBytes st)) by (revert Hp; zcases; nia).
  split; cbn [metadataBytes seen receivedPieces].
  - unfold len. rewrite copy_at_length by lia. done.
  - unfold len. by rewrite length_insert.
  - rewrite count_true_insert by done. lia.
  - intros j E. destruct (decide (j = i)) as [->|Hne].
    + assert (chunk (copy_at (metadataBytes st) (Z.of_nat i * 16384) p) i = p) as ->; [|done].
      apply list_eq. intros k. rewrite chunk_lookup, copy_at_lookup, Hsi by lia. destruct (decide (k < pieceLen)).
      * destruct (decide (k < length p)); [rewrite decide_True by lia; f_equal; lia|].
        rewrite decide_False by lia. rewrite !lookup_ge_None_2; [done|lia|]. revert Hp; zcases; nia.
      * rewrite lookup_ge_None_2; [done|]. revert Hp; zcases; nia.
    + rewrite list_lookup_insert_ne in E by done. specialize (Hg j E).
      assert (chunk (copy_at (metadataBytes st) (Z.of_nat i * 16384) p) j = chunk (metadataBytes st) j) as ->; [|done].
      apply list_eq. intros k. rewrite !chunk_lookup, copy_at_lookup, Hsi by lia. destruct (decide (k < pieceLen)); [|done].
      rewrite decide_False; [done|]. assert (length p ≤ pieceLen) by (revert Hp; zcases; nia). nia.
Qed.

Section pieces.
Context `{Bencode}.

Abbreviation defaults := (mkHeader (-1) (-1) (-1)).

(** The message carries piece [i] of metadata of [size] bytes. *)
Definition carries (size : Z) (m : bytes) (i : nat) (p : bytes) : Prop :=
  ∃ h, Decode_header defaults (drop 2 m) = inr (h, p) ∧ MsgType h = 1%Z ∧ Piece h = Z.of_nat i ∧ TotalSize h = size.

(** One message: no panic, and the state stays consistent with what the
    message carries. *)
Lemma handlePiece_inv good size st m :
  (0 < size)%Z → pieces_inv good size st → 2 ≤ length m →
  handlePiece size (metadataPieceCount size) st m ≠ Panic ∧
  ∀ st', handlePiece size (metadataPieceCount size) st m = Ok st' →
    (∀ i p, carries size m i p → good i p) → pieces_inv good size st'.
Proof.
  intros Hs Hinv Hm. unfold handlePiece, slice_from. rewrite decide_True by done. cbn [mbind outcome_bind].
  destruct (Decode_header defaults (drop 2 m)) as [e|[h p]] eqn:Ed; [done|].
  destruct (MsgType h <? 0)%Z; [done|]. destruct (Z.ltb_spec (Piece h) 0); [done|].
  destruct (Z.leb_spec (metadataPieceCount size) (Piece h)); [done|]. cbn [orb].
  destruct (MsgType h =? 0)%Z; [by destruct (negb _); [|split; [|intros ? [= <-]]]|].
  destruct (Z.eqb_spec (MsgType h) 1) as [Hty|]; [|by destruct (MsgType h =? 2)%Z; [destruct (negb _)|]].
  destruct (Z.eqb_spec (TotalSize h) size) as [Hts|]; [|done]. cbn [negb].
  set (i := Z.to_nat (Piece h)). assert (Hi : Piece h = Z.of_nat i) by lia. rewrite Hi. clearbody i.
  change (if _ =? _ then _ else _)%Z with (expected_length size i).
  destruct (Z.eqb_spec (len p) (expected_length size i)) as [Hp|]; [|done]. cbn [negb].
  destruct Hinv as [Hb Hse Hr Hg] eqn:Hinv'. clear Hinv'.
  destruct (lookup_lt_is_Some_2 (seen st) i) as [s Es]; [unfold len in Hse; lia|]. rewrite Es. cbn [of_option mbind outcome_bind].
  destruct (metadataPieceCount_spec size Hs) as (Hn & Hlo & Hhi).
  assert (EP : metadataPieceSize = 16384%Z) by reflexivity.
  unfold slice. rewrite decide_True; [|split; [|rewrite Hb]; revert Hp; unfold expected_length, len; zcases; nia].
  cbn [mbind outcome_bind]. destruct s.
  - destruct (decide _); [done|]. split; [done|]. by intros ? [= <-] _.
  - split; [done|]. intros ? [= <-] Hgood. apply pieces_add; try done. apply Hgood. exists h. done.
Qed.

(** A piece of [M] is taken in. *)
Lemma handlePiece_data M st m i :
  (0 < len M)%Z → pieces_inv (λ i p, p = chunk M i) (len M) st → 2 ≤ length m →
  (Z.of_nat i < metadataPieceCount (len M))%Z → carries (len M) m i (chunk M i) →
  ∃ st', handlePiece (len M) (metadataPieceCount (len M)) st m = Ok st' ∧
    pieces_inv (λ i p, p = chunk M i) (len M) st' ∧ seen st' !! i = Some true ∧
    ∀ j, seen st !! j = Some true → seen st' !! j = Some true.
Proof.
  intros Hs Hinv Hm Hi (h & Ed & Hty & Hpc & Hts). unfold handlePiece, slice_from. rewrite decide_True by done.
  cbn [mbind outcome_bind]. rewrite Ed, Hty, Hpc, Hts. cbn [Z.ltb Z.eqb Z.compare Pos.eqb].
  rewrite (proj2 (Z.ltb_ge (Z.of_nat i) 0)), (proj2 (Z.leb_gt _ (Z.of_nat i))) by lia. cbn [orb].
  rewrite Z.eqb_refl. cbn [negb]. rewrite Nat2Z.id. change (if _ =? _ then _ else _)%Z with (expected_length (len M) i).
  pose proof (chunk_length M i Hs Hi) as Hl. rewrite Hl, Z.eqb_refl. cbn [negb].
  pose proof Hinv as [Hb Hse Hr Hg].
  destruct (lookup_lt_is_Some_2 (seen st) i) as [s Es]; [unfold len in *; lia|]. rewrite Es. cbn [of_option mbind outcome_bind].
  destruct (metadataPieceCount_spec (len M) Hs) as (Hn & Hlo & Hhi).
  assert (EP : metadataPieceSize = 16384%Z) by reflexivity. pose proof pieceLen_Z as HP.
  assert (Hx : (0 ≤ expected_length (len M) i ≤ metadataPieceSize ∧
    Z.of_nat i * metadataPieceSize + expected_length (len M) i ≤ len M)%Z) by (unfold expected_length; zcases; nia).
  unfold slice. rewrite decide_True by (rewrite Hb; nia). cbn [mbind outcome_bind]. destruct s.
  - rewrite decide_False; [exists st; split_and!; [reflexivity|exact Hinv|exact Es|auto]|].
    intros Hne. apply Hne. rewrite <- (Hg i Es). unfold chunk.
    replace (Z.to_nat (Z.of_nat i * metadataPieceSize)) with (i * pieceLen) by lia.
    replace (Z.to_nat (Z.of_nat i * metadataPieceSize + expected_length (len M) i - Z.of_nat i * metadataPieceSize))
      with (Z.to_nat (expected_length (len M) i)) by lia.
    assert (Hcase : Z.to_nat (expected_length (len M) i) = pieceLen ∨
      length (drop (i * pieceLen) (metadataBytes st)) = Z.to_nat (expected_length (len M) i)).
    { rewrite length_drop. unfold expected_length, len in *. zcases; [right|left]; lia. }
    destruct Hcase as [-> |Hc]; [done|]. rewrite !take_ge by lia. done.
  - eexists. split_and!; [done|by apply pieces_add| |]; cbn [seen].
    + rewrite list_lookup_insert_eq; [done|by eapply lookup_lt_Some].
    + intros j Hj. rewrite list_lookup_insert_ne; [done|]. intros ->. congruence.
Qed.

(** A request for a piece of ours is passed over. *)
Lemma handlePiece_request size st m h :
  2 ≤ length m → Decode_header defaults (drop 2 m) = inr (h, []) → MsgType h = 0%Z →
  (0 ≤ Piece h < metadataPieceCount size)%Z → handlePiece size (metadataPieceCount size) st m = Ok st.
Proof.
  intros Hm Ed Hty Hpc. unfold handlePiece, slice_from. rewrite decide_True by done. cbn [mbind outcome_bind].
  rewrite Ed, Hty. cbn [Z.ltb Z.eqb Z.compare]. rewrite (proj2 (Z.ltb_ge _ 0)), (proj2 (Z.leb_gt _ (Piece h))) by lia. done.
Qed.

(** All pieces seen: the metadata is complete. *)
Lemma pieces_complete good size st i :
  pieces_inv good size st → (metadataPieceCount size ≤ receivedPieces st)%Z → (Z.of_nat i < metadataPieceCount size)%Z →
  seen st !! i = Some true.
Proof.
  intros [Hb Hse Hr _] Hn Hi. unfold len in *. destruct (lookup_lt_is_Some_2 (seen st) i) as [s Es]; [lia|].
  rewrite Es. f_equal. eapply count_true_all; [|exact Es]. pose proof (count_true_le (seen st)). lia.
Qed.

Lemma pieces_equal M st :
  (0 < len M)%Z → pieces_inv (λ i p, p = chunk M i) (len M) st →
  (metadataPieceCount (len M) ≤ receivedPieces st)%Z → metadataBytes st = M.
Proof.
  intros Hs Hinv Hn. apply chunk_ext. intros i. destruct (Z.lt_ge_cases (Z.of_nat i) (metadataPieceCount (len M))) as [Hi|Hi].
  - eapply pi_good; [exact Hinv|]. by eapply pieces_complete.
  - destruct (metadataPieceCount_spec (len M) Hs) as (_ & _ & Hhi). pose proof pieceLen_Z as HP.
    pose proof (pi_bytes _ _ _ Hinv) as Hb. unfold chunk, len in *. rewrite !drop_ge by nia. done.
Qed.

(** ** The loop *)

Lemma readAllPieces_loop_sound good size fuel c st :
  (0 < size)%Z → pieces_inv good size st → length (inp c) < fuel →
  (∀ m i p, (∃ pre post, inp c = pre ++ m ++ post) → carries size m i p → good i p) →
  readAllPieces_loop fuel c size (metadataPieceCount size) st ≠ Panic ∧
  ∀ b, readAllPieces_loop fuel c size (metadataPieceCount size) st = Ok b →
    len b = size ∧ ∀ i, (Z.of_nat i < metadataPieceCount size)%Z → good i (chunk b i).
Proof.
  intros Hs. revert c st. induction fuel as [|fuel IH]; intros c st Hinv Hf Hgood; [lia|]. cbn [readAllPieces_loop].
  destruct (Z.ltb_spec (receivedPieces st) (metadataPieceCount size)) as [Hlt|Hge].
  2: { split; [done|]. intros b [= <-]. split; [by eapply pi_bytes|]. intros i Hi. eapply pi_good; [done|]. by eapply pieces_complete. }
  pose proof (readUmMessage_spec c) as [Hp Hok]. destruct (readUmMessage c) as [[m c1]| |]; [|done..].
  destruct (Hok m c1 eq_refl) as ((_ & Hlen & pre & Hi) & Hm). cbn [mbind outcome_bind].
  pose proof (handlePiece_inv good size st m Hs Hinv Hm) as [Hnp Hst].
  destruct (handlePiece size (metadataPieceCount size) st m) as [st'| |]; [|done..]. cbn [mbind outcome_bind].
  apply IH; [|lia|].
  - apply Hst; [done|]. intros i p. apply Hgood. by exists pre, (inp c1).
  - intros m' i p (pre' & post' & Hi'). apply Hgood. exists (pre ++ m ++ pre'), post'. by rewrite Hi, Hi', <- !app_assoc.
Qed.

(** What an honest peer may send while we wait for the pieces of [M]. *)
Inductive benign (M m : bytes) : Prop :=
| benign_noise : noise m → benign M m
| benign_request h : m !! 0 = Some Extended → m !! 1 = Some 1%Z → Decode_header defaults (drop 2 m) = inr (h, []) →
    MsgType h = 0%Z → (0 ≤ Piece h < metadataPieceCount (len M))%Z → benign M m
| benign_data i : m !! 0 = Some Extended → m !! 1 = Some 1%Z → (Z.of_nat i < metadataPieceCount (len M))%Z →
    carries (len M) m i (chunk M i) → benign M m.

Definition stream (ms : list bytes) : bytes := ms ≫= frame.

Lemma carries_functional size m i p j q : carries size m i p → carries size m j q → i = j.
Proof. intros (h & E & _ & Hi & _) (h' & E' & _ & Hj & _). rewrite E in E'. injection E' as -> ->. lia. Qed.

Lemma um_message m : m !! 0 = Some Extended → m !! 1 = Some 1%Z → ∃ m', m = Extended :: 1%Z :: m'.
Proof. destruct m as [|b0 [|b1 m]]; try done. cbn. intros [= ->] [= ->]. by exists m. Qed.

(** A benign message is stepped over or leads to the next round. *)
Lemma benign_step M st m :
  (0 < len M)%Z → pieces_inv (λ i p, p = chunk M i) (len M) st → benign M m → ¬ noise m →
  (∃ m', m = Extended :: 1%Z :: m') ∧
  ∃ st', handlePiece (len M) (metadataPieceCount (len M)) st m = Ok st' ∧
    pieces_inv (λ i p, p = chunk M i) (len M) st' ∧
    (∀ j, seen st !! j = Some true → seen st' !! j = Some true) ∧
    (∀ j q, carries (len M) m j q → seen st' !! j = Some true).
Proof.
  intros Hs Hinv [?|h H0 H1 Ed Hty Hpc|i H0 H1 Hi Hc] Hn; [done| |].
  - destruct (um_message m H0 H1) as [m' Em]. split; [by exists m'|]. exists st. split_and!; [|done..|].
    + eapply handlePiece_request; [subst m; cbn; lia|done..].
    + intros j q (h' & E' & Hty' & _). rewrite Ed in E'. injection E' as <- _. lia.
  - destruct (um_message m H0 H1) as [m' Em]. split; [by exists m'|].
    destruct (handlePiece_data M st m i Hs Hinv) as (st' & E & Hinv' & Hsi & Hmono); [subst m; cbn; lia|done..|].
    exists st'. split_and!; [done..|]. intros j q Hc'. by rewrite (carries_functional _ _ _ _ _ _ Hc' Hc).
Qed.

Lemma noise_dec m : noise m ∨ ¬ noise m.
Proof.
  unfold noise. destruct (decide (length m < 2)); [tauto|]. destruct (decide (m !! 0 = Some Extended)); [|tauto].
  destruct (decide (m !! 1 = Some 1%Z)); tauto.
Qed.

Lemma readAllPieces_loop_complete M ms fuel c rest st :
  (0 < len M)%Z → pieces_inv (λ i p, p = chunk M i) (len M) st → length (inp c) < fuel →
  inp c = stream ms ++ rest → Forall (λ m, benign M m ∧ len m ≤ maxMetadataSize)%Z ms →
  (∀ i, (Z.of_nat i < metadataPieceCount (len M))%Z →
    seen st !! i = Some true ∨ ∃ m, m ∈ ms ∧ ¬ noise m ∧ carries (len M) m i (chunk M i)) →
  readAllPieces_loop fuel c (len M) (metadataPieceCount (len M)) st = Ok M.
Proof.
  intros Hs. revert fuel c st. induction ms as [|m ms IH]; intros fuel c st Hinv Hf Hi Hms Hcov;
    (destruct fuel as [|fuel]; [lia|]); cbn [readAllPieces_loop];
    (destruct (Z.ltb_spec (receivedPieces st) (metadataPieceCount (len M))) as [Hlt|Hge];
      [|by rewrite (pieces_equal M st)]).
  - exfalso. pose proof Hinv as [Hb Hse Hr _].
    destruct (decide (count_true (seen st) = length (seen st))) as [E|Hne]; [unfold len in *; lia|]. apply Hne.
    assert (Hall : Forall (λ b, b = true) (seen st)).
    { apply Forall_lookup. intros i b Eb. destruct (Hcov i) as [E|(? & ?%not_elem_of_nil & _)]; [|congruence|done].
      apply lookup_lt_Some in Eb. unfold len in *. lia. }
    unfold count_true. by rewrite list_filter_all by (by apply Forall_forall).
  - apply Forall_cons in Hms as [[Hben Hlen] Hms]. cbn [stream mbind list_bind] in Hi. rewrite <- app_assoc in Hi.
    destruct (noise_dec m) as [Hn|Hn].
    + rewrite (readUmMessage_noise c m _ Hn Hlen Hi).
      specialize (IH (S fuel) (with_inp c (stream ms ++ rest)) st Hinv). cbn [readAllPieces_loop] in IH.
      rewrite (proj2 (Z.ltb_lt _ _)) in IH by done. apply IH; [|done|done|].
      * rewrite Hi, length_app in Hf. cbn [inp with_inp]. unfold stream. lia.
      * intros i Hi'. destruct (Hcov i Hi') as [?|(m' & [->|?]%elem_of_cons & Hn' & Hc)]; [by left|done|right; by exists m'].
    + destruct (benign_step M st m Hs Hinv Hben Hn) as ([m' ->] & st' & E & Hinv' & Hmono & Hnew).
      rewrite (readUmMessage_message c m' _ Hlen Hi). cbn [mbind outcome_bind]. rewrite E. cbn [mbind outcome_bind].
      apply IH; [done| |done|done|].
      * rewrite Hi, length_app in Hf. cbn [inp with_inp].
        pose proof (frame_length (Extended :: 1%Z :: m')). unfold stream. lia.
      * intros i Hi'. destruct (Hcov i Hi') as [?|(m2 & [->|?]%elem_of_cons & Hn' & Hc)]; [left; by apply Hmono|left; by eapply Hnew|].
        right. by exists m2.
Qed.

End pieces.

(** ** The whole exchange *)

Class BencodeLaws `{Bencode} : Prop := {
  law_Protocol : length Protocol = 20;
  law_Marshal d : ∃ b, Marshal_ext d = inr b
}.

Section exchange.
Context `{BencodeLaws} `{Torrent}.

Lemma GetBit_ok ex : length ex = 8 → ∃ b, GetBit ex ExtensionBitLtep = Ok b.
Proof.
  intros Hl. do 8 (destruct ex as [|? ex]; [done|]). unfold GetBit. change (Z.to_nat (bit_index ExtensionBitLtep)) with 5.
  cbn. by eexists.
Qed.

Lemma btHandshake_no_panic c infoHash clientID :
  length infoHash = 20 → length clientID = 20 → btHandshake c infoHash clientID ≠ Panic.
Proof.
  intros Hh Hc. unfold btHandshake, Write. destruct (writes_left c) as [|w]; [done|].
  rewrite decide_False by (rewrite !length_app, law_Protocol, Hh, Hc; cbn; lia).
  set (c1 := mkConn _ _ _ _ _). pose proof (ReadFull_no_panic c1 68). destruct (ReadFull c1 68) as [[r c2]| |] eqn:E; [|done..].
  apply ReadFull_Ok in E as (Hl & _). destruct (decide _); [done|].
  destruct (GetBit_ok (take 8 (drop 20 r))) as [b ->]; [rewrite length_take, length_drop; lia|].
  cbn. destruct b; cbn; [destruct (decide _); done|done].
Qed.

Lemma btHandshake_inp c infoHash clientID hs c' :
  btHandshake c infoHash clientID = Ok (hs, c') → ∃ pre, inp c = pre ++ inp c'.
Proof.
  unfold btHandshake, Write. destruct (writes_left c) as [|w]; [done|]. destruct (decide _); [done|].
  destruct (ReadFull _ 68) as [[r c2]| |] eqn:E; [|done..]. apply ReadFull_Ok in E as (_ & Hi & _). cbn [inp] in Hi.
  destruct (decide _); [done|]. intros (b & _ & Eb)%outcome_bind_Ok. destruct b; [|done]. cbn in Eb.
  destruct (decide _); [done|]. injection Eb as _ <-. by exists r.
Qed.

(** The answer to a well-formed handshake of the peer. *)
Lemma btHandshake_answer c w infoHash clientID ex hash pid r bit :
  length infoHash = 20 → length clientID = 20 → length ex = 8 → length hash = 20 → length pid = 20 →
  GetBit ex ExtensionBitLtep = Ok bit → writes_left c = S w → inp c = Protocol ++ ex ++ hash ++ pid ++ r →
  btHandshake c infoHash clientID =
  if negb bit then Err (errors_New "peer does not support the extension protocol")
  else if decide (hash ≠ infoHash) then Err (errors_New "infohash mismatch")
  else Ok (mkHandshakeInfo pid ex, mkConn r (inp_end c) w (write_error c) (out c ++ Protocol ++ myExBits ++ infoHash ++ clientID)).
Proof.
  intros Hh Hc Hex Hhash Hp Hbit Hw Hi. unfold btHandshake, Write. rewrite Hw. pose proof law_Protocol as HP.
  rewrite decide_False by (rewrite !length_app, HP, Hh, Hc; cbn; lia). rewrite Hi.
  set (hs := Protocol ++ ex ++ hash ++ pid). set (c1 := mkConn _ _ _ _ _).
  assert (Hl : length hs = 68) by (unfold hs; rewrite !length_app; lia).
  assert (E : ReadFull c1 (length hs) = Ok (hs, with_inp c1 r)) by (apply ReadFull_app; unfold hs; cbn; by rewrite <- !app_assoc).
  rewrite Hl in E. rewrite E.
  rewrite decide_False by (unfold hs; rewrite take_app_length; intros Hne; done).
  assert (take 8 (drop 20 hs) = ex) as ->.
  { unfold hs. rewrite drop_app_length', take_app_length' by done. done. }
  rewrite Hbit. cbn [lift_go mbind outcome_bind negb].
  assert (take 20 (drop 28 hs) = hash) as ->.
  { unfold hs. rewrite (app_assoc Protocol). rewrite drop_app_length', take_app_length' by (rewrite ?length_app; lia). done. }
  assert (take 20 (drop 48 hs) = pid) as ->; [|done].
  unfold hs. rewrite (app_assoc Protocol), (app_assoc _ hash).
  rewrite drop_app_length' by (rewrite ?length_app; lia). apply take_ge. lia.
Qed.

(** Messages that are not extension messages. *)
Definition plain (m : bytes) : Prop := length m < 2 ∨ m !! 0 ≠ Some Extended.

Lemma readExMessage_skip c ms m r :
  Forall (λ m, plain m ∧ len m ≤ maxMetadataSize)%Z ms → (len (Extended :: m) ≤ maxMetadataSize)%Z → 0 < length m →
  inp c = stream ms ++ frame (Extended :: m) ++ r → readExMessage c = Ok (Extended :: m, with_inp c r).
Proof.
  intros Hms Hm Hlen. revert c. induction ms as [|m0 ms IH]; intros c Hi; rewrite readExMessage_eq.
  - rewrite (readMessage_frame c _ r Hm Hi). cbn [mbind outcome_bind]. rewrite decide_False by (cbn; lia).
    cbn [lookup list_lookup of_option mbind outcome_bind]. by rewrite Z.eqb_refl.
  - apply Forall_cons in Hms as [[Hp Hl] Hms]. unfold stream in Hi. cbn [mbind list_bind] in Hi. rewrite <- app_assoc in Hi.
    rewrite (readMessage_frame c m0 _ Hl Hi). cbn [mbind outcome_bind].
    specialize (IH Hms (with_inp c (stream ms ++ frame (Extended :: m) ++ r)) eq_refl).
    destruct (decide (length m0 < 2)) as [|Hge]; [exact IH|]. destruct Hp as [?|Hp]; [lia|].
    destruct m0 as [|b m0]; [cbn in Hge; lia|]. cbn [lookup list_lookup of_option mbind outcome_bind] in Hp |- *.
    destruct (Z.eqb_spec b Extended) as [->|]; [done|exact IH].
Qed.

Lemma exHandshake_no_panic c :
  exHandshake c ≠ Panic ∧ ∀ size u c', exHandshake c = Ok (size, u, c') →
    (0 < size < maxMetadataSize)%Z ∧ (0 < u < 255)%Z ∧ ∃ pre, inp c = pre ++ inp c'.
Proof.
  unfold exHandshake. assert (Hi : inp (Write c ([0; 0; 0; 26; 20; 0]%Z ++ text_of "d1:md11:ut_metadatai1eee")).2 = inp c)
    by (unfold Write; by destruct (writes_left c)).
  destruct (Write c _) as [e c1]. cbn [snd] in Hi. pose proof (readExMessage_spec c1) as [Hp Hok].
  destruct (readExMessage c1) as [[m c2]| |]; [|done..]. destruct (Hok m c2 eq_refl) as ((_ & _ & pre & Hpre) & Hl & _).
  destruct m as [|b0 [|b1 m]]; [cbn in Hl; lia..|]. cbn [mbind outcome_bind lookup list_lookup of_option].
  destruct (b1 =? 0)%Z; cbn [negb]; [|done]. unfold slice_from. rewrite decide_True by (cbn; lia). cbn [mbind outcome_bind].
  change (drop 2 (b0 :: b1 :: m)) with m. destruct (Unmarshal_root m) as [?|d]; [done|].
  destruct (Z.leb_spec (MetadataSize d) 0), (Z.leb_spec maxMetadataSize (MetadataSize d)); cbn [orb]; try done.
  destruct (Z.leb_spec (UTMetadata d) 0), (Z.leb_spec 255 (UTMetadata d)); cbn [orb]; try done.
  split; [done|]. intros ? ? ? [= <- <- <-]. assert (uint8 (UTMetadata d) = UTMetadata d) as -> by (apply Z.mod_small; lia).
  split_and!; try lia. exists (pre ++ b0 :: b1 :: m). by rewrite <- Hi, Hpre, <- app_assoc.
Qed.

Lemma exHandshake_honest c w ms body d r :
  writes_left c = S w → Forall (λ m, plain m ∧ len m ≤ maxMetadataSize)%Z ms →
  (len (Extended :: 0%Z :: body) ≤ maxMetadataSize)%Z → Unmarshal_root body = inr d →
  (0 < MetadataSize d < maxMetadataSize)%Z → (0 < UTMetadata d < 255)%Z →
  inp c = stream ms ++ frame (Extended :: 0%Z :: body) ++ r →
  ∃ o, exHandshake c = Ok (MetadataSize d, UTMetadata d, mkConn r (inp_end c) w (write_error c) o).
Proof.
  intros Hw Hms Hb Hd Hs Hu Hi. unfold exHandshake, Write. rewrite Hw.
  rewrite (readExMessage_skip _ ms (0%Z :: body) r Hms Hb) by (cbn; done || lia).
  cbn [mbind outcome_bind lookup list_lookup of_option]. cbn [Z.eqb negb]. unfold slice_from.
  rewrite decide_True by (cbn; lia). cbn [mbind outcome_bind]. change (drop 2 (Extended :: 0%Z :: body)) with body. rewrite Hd.
  rewrite (proj2 (Z.leb_gt (MetadataSize d) 0)), (proj2 (Z.leb_gt maxMetadataSize (MetadataSize d))) by lia.
  rewrite (proj2 (Z.leb_gt (UTMetadata d) 0)), (proj2 (Z.leb_gt 255 (UTMetadata d))) by lia. cbn [orb].
  assert (uint8 (UTMetadata d) = UTMetadata d) as -> by (apply Z.mod_small; lia). by eexists.
Qed.

(** The request for a piece, framed. *)
Definition piece_request (u : Z) (piece : Z) : bytes :=
  match Marshal_ext (mkExtDict 0 piece) with inr d => frame (20%Z :: u :: d) | inl _ => [] end.

Lemma requestAllPieces_loop_spec n k c u :
  requestAllPieces_loop n (Z.of_nat k) c u =
  if decide (n ≤ writes_left c)
  then Ok (mkConn (inp c) (inp_end c) (writes_left c - n) (write_error c)
    (out c ++ (seq k n ≫= λ i, piece_request u (Z.of_nat i))))
  else Err (write_error c).
Proof.
  revert c k. induction n as [|n IH]; intros c k; cbn [requestAllPieces_loop].
  - rewrite decide_True by lia. cbn. rewrite app_nil_r, Nat.sub_0_r. by destruct c.
  - destruct (law_Marshal (mkExtDict 0 (Z.of_nat k))) as [d Ed]. rewrite Ed. unfold Write.
    destruct (writes_left c) as [|w] eqn:Ew; [by rewrite decide_False by lia|].
    replace (Z.of_nat k + 1)%Z with (Z.of_nat (S k)) by lia.
    rewrite IH. cbn [writes_left inp inp_end write_error out].
    destruct (decide (n ≤ w)); [rewrite decide_True by lia|by rewrite decide_False by lia].
    do 2 f_equal. cbn [seq mbind list_bind]. rewrite <- !app_assoc. f_equal.
    unfold piece_request at 2. rewrite Ed. unfold frame, len. cbn [app length].
    replace (Z.of_nat (S (S (length d)))) with (2 + Z.of_nat (length d))%Z by lia. by rewrite <- app_assoc.
Qed.

(** Every piece is requested once, in order, as far as writes succeed. *)
Lemma requestAllPieces_spec c size u :
  requestAllPieces c size u =
  let n := Z.to_nat (metadataPieceCount size) in
  if decide (n ≤ writes_left c)
  then Ok (mkConn (inp c) (inp_end c) (writes_left c - n) (write_error c)
    (out c ++ (seq 0 n ≫= λ i, piece_request u (Z.of_nat i))))
  else Err (write_error c).
Proof. apply (requestAllPieces_loop_spec _ 0). Qed.

Lemma readAllPieces_sound c size :
  (0 < size)%Z → readAllPieces c size ≠ Panic ∧ ∀ b, readAllPieces c size = Ok b →
    len b = size ∧ ∀ i, (Z.of_nat i < metadataPieceCount size)%Z →
      ∃ m pre post, inp c = pre ++ m ++ post ∧ carries size m i (chunk b i).
Proof.
  intros Hs. unfold readAllPieces. destruct ((size =? 0) || (maxMetadataSize <=? size))%Z; [done|].
  apply (readAllPieces_loop_sound (λ i p, ∃ m pre post, inp c = pre ++ m ++ post ∧ carries size m i p));
    [done|by apply pieces_init|lia|]. intros m i p (pre & post & Hi) Hc. by exists m, pre, post.
Qed.

Lemma readAllPieces_complete M ms c rest :
  (0 < len M < maxMetadataSize)%Z → inp c = stream ms ++ rest →
  Forall (λ m, benign M m ∧ len m ≤ maxMetadataSize)%Z ms →
  (∀ i, (Z.of_nat i < metadataPieceCount (len M))%Z → ∃ m, m ∈ ms ∧ ¬ noise m ∧ carries (len M) m i (chunk M i)) →
  readAllPieces c (len M) = Ok M.
Proof.
  intros Hs Hi Hms Hcov. unfold readAllPieces. rewrite (proj2 (Z.eqb_neq (len M) 0)), (proj2 (Z.leb_gt _ _)) by lia. cbn [orb].
  eapply readAllPieces_loop_complete; [lia|apply pieces_init; lia|lia|done|done|]. intros i Hi'. right. auto.
Qed.

(** The decoder returns strings of bytes. *)
Hypothesis unmarshal_bytes : ∀ b info, Unmarshal_info b = inr info → info_bytes info.

(** C5: whatever a peer sends, and however the connection fails, a request
    ends with a response or an error and never panics; and a response is backed
    by metadata below 10 MiB, of the announced size, each piece of which is the
    payload of a data message the peer sent for that piece, whose hash is the
    requested infohash and which passed every check on names and paths. *)
Theorem requester_safe clientID dial linger deadline infoHash :
  length infoHash = 20 → length clientID = 20 →
  let r := requester_Request clientID (connect dial linger deadline) infoHash in
  r ≠ Panic ∧
  ∀ resp, r = Ok resp → ∃ c b, dial = inr c ∧ (0 < len b < maxMetadataSize)%Z ∧
    (∀ i, (Z.of_nat i < metadataPieceCount (len b))%Z →
      ∃ m pre post, inp c = pre ++ m ++ post ∧ carries (len b) m i (chunk b i)) ∧
    HashBytes b = infoHash ∧ Unmarshal_info b = inr (resp_Info resp) ∧ info_ok (resp_Info resp).
Proof.
  intros Hh Hc r. assert (Hdial : connect dial linger deadline ≠ Panic ∧ ∀ c, connect dial linger deadline = Ok c → dial = inr c).
  { unfold connect. destruct dial, linger, deadline as [[?|]|]; naive_solver. }
  unfold r, requester_Request. destruct Hdial as [Hp Hd]. destruct (connect dial linger deadline) as [c| |]; [|done..].
  specialize (Hd c eq_refl). cbn [mbind outcome_bind]. pose proof (btHandshake_no_panic c infoHash clientID Hh Hc) as Hp1.
  destruct (btHandshake c infoHash clientID) as [[hs c1]| |] eqn:E1; [|done..]. apply btHandshake_inp in E1 as (pre1 & Hi1).
  cbn [mbind outcome_bind]. pose proof (exHandshake_no_panic c1) as [Hp2 Hok2].
  destruct (exHandshake c1) as [[[size u] c2]| |]; [|done..]. destruct (Hok2 size u c2 eq_refl) as (Hs & _ & pre2 & Hi2).
  cbn [mbind outcome_bind]. rewrite requestAllPieces_spec. cbv zeta. destruct (decide _); [|done]. cbn [mbind outcome_bind].
  set (c3 := mkConn (inp c2) _ _ _ _). pose proof (readAllPieces_sound c3 size ltac:(lia)) as [Hp3 Hok3].
  destruct (readAllPieces c3 size) as [b| |]; [|done..]. destruct (Hok3 b eq_refl) as (Hb & Hpieces). cbn [mbind outcome_bind].
  pose proof (ParseMetaInfoBytes_no_panic infoHash b) as Hp4.
  destruct (ParseMetaInfoBytes infoHash b) as [info| |] eqn:E4; [|done..]. split; [done|]. intros resp [= <-].
  apply (ParseMetaInfoBytes_ok unmarshal_bytes) in E4 as (_ & Hhash & Hu & Hok). exists c, b. subst size. split_and!; try done; try lia.
  intros i Hi. destruct (Hpieces i Hi) as (m & pre & post & Hi3 & Hcar). exists m, (pre1 ++ pre2 ++ pre), post.
  split; [|done]. cbn [inp c3] in Hi3. by rewrite Hi1, Hi2, Hi3, <- !app_assoc.
Qed.

(** C28: an honest peer is served.  A peer that answers the handshake for the
    torrent with the extension bit, announces the extension and the size of the
    metadata, and then sends every piece, in any order, repeated, and mixed with
    any other messages and with requests of its own, yields a response with the
    metadata decoded and the peer's identifier, whatever follows in the stream;
    the number of writes the exchange needs is two and one per piece. *)
Theorem requester_honest_peer clientID c infoHash ex pid plains body d M ms rest info :
  length infoHash = 20 → length clientID = 20 → length ex = 8 → length pid = 20 →
  GetBit ex ExtensionBitLtep = Ok true →
  Forall (λ m, plain m ∧ len m ≤ maxMetadataSize)%Z plains →
  (len (Extended :: 0%Z :: body) ≤ maxMetadataSize)%Z → Unmarshal_root body = inr d →
  MetadataSize d = len M → (0 < len M < maxMetadataSize)%Z → (0 < UTMetadata d < 255)%Z →
  Forall (λ m, benign M m ∧ len m ≤ maxMetadataSize)%Z ms →
  (∀ i, (Z.of_nat i < metadataPieceCount (len M))%Z → ∃ m, m ∈ ms ∧ ¬ noise m ∧ carries (len M) m i (chunk M i)) →
  ParseMetaInfoBytes infoHash M = Ok info →
  inp c = (Protocol ++ ex ++ infoHash ++ pid) ++ stream plains ++ frame (Extended :: 0%Z :: body) ++ stream ms ++ rest →
  2 + Z.to_nat (metadataPieceCount (len M)) ≤ writes_left c →
  requester_Request clientID (Ok c) infoHash = Ok (mkResponse (mkHandshakeInfo pid ex) info).
Proof.
  intros Hh Hc Hex Hpid Hbit Hplain Hbody Hd Hsize HM Hu Hms Hcov Hparse Hi Hw.
  unfold requester_Request. cbn [mbind outcome_bind].
  rewrite (btHandshake_answer c (pred (writes_left c)) infoHash clientID ex infoHash pid
    (stream plains ++ frame (Extended :: 0%Z :: body) ++ stream ms ++ rest) true);
    try done; [|lia|by rewrite Hi, <- !app_assoc].
  cbn [negb]. rewrite decide_False by (intros Hne; done). cbn [mbind outcome_bind].
  set (c1 := mkConn _ _ _ _ _).
  destruct (exHandshake_honest c1 (pred (pred (writes_left c))) plains body d (stream ms ++ rest)) as [o2 ->];
    rewrite ?Hsize; try done; [cbn; lia|]. cbn [mbind outcome_bind]. rewrite requestAllPieces_spec. cbv zeta.
  rewrite decide_True by (cbn [writes_left]; lia). cbn [mbind outcome_bind].
  rewrite (readAllPieces_complete M ms _ rest) by (done || cbn; done). cbn [mbind outcome_bind]. by rewrite Hparse.
Qed.

End exchange.

(** ** Witnesses *)

(** A codec with one byte per field in place of bencode, a checksum in place of
    SHA-1, and a decoder that knows one dictionary. *)
Definition ex_bencode : Bencode := {|
  Protocol := 19%Z :: text_of "BitTorrent protocol";
  Extended := 20%Z;
  Marshal_ext d := inr [ext_MsgType d; ext_Piece d];
  Unmarshal_root b := match b with [u; s] => inr (mkRootDict u s) | _ => inl EOF end;
  Decode_header _ b := match b with ty :: pc :: sz :: r => inr (mkHeader ty pc sz, r) | _ => inl EOF end
|}.

Lemma ex_bencode_laws : @BencodeLaws ex_bencode.
Proof. split; [done|]. intros d. by eexists. Qed.

Definition ex_info : Info := mkInfo [97; 98]%Z 16384 [mkFileInfo [[97]; [98]]%Z 1 []] None [] [].

Definition ex_torrent : Torrent := {|
  HashBytes b := replicate 19 0%Z ++ [foldr Z.add 0 b]%Z;
  Unmarshal_info b := if decide (b = [100; 101]%Z) then inr ex_info else inl EmptyString;
  Unmarshal_rawInfo b := inr b;
  BestName := Name;
  TotalLength _ := 0%Z;
  DisplayPath f _ := join_path 47 (Path f)
|}.

#[local] Existing Instances ex_bencode ex_bencode_laws ex_torrent.

Lemma ex_unmarshal_bytes b info : Unmarshal_info b = inr info → info_bytes info.
Proof. cbn. destruct (decide _); [|done]. intros [= <-]. split; repeat constructor; done. Qed.

Definition ex_hash : bytes := replicate 19 0%Z ++ [201%Z].
Definition ex_id : bytes := replicate 20 7%Z.
Definition ex_bits : bytes := [0; 0; 0; 0; 0; 16; 0; 0]%Z.
Definition ex_messages : list bytes := [[20; 1; 0; 0; 0]; [5; 1]; [20; 1; 1; 0; 2; 100; 101]]%Z.
Definition ex_conn : conn :=
  mkConn ((Protocol ++ ex_bits ++ ex_hash ++ ex_id) ++ stream [[]] ++ frame [20; 0; 3; 2]%Z ++ stream ex_messages ++ [1]%Z)
    None 3 EOF [].

Lemma ex_request : requester_Request ex_id (Ok ex_conn) ex_hash = Ok (mkResponse (mkHandshakeInfo ex_id ex_bits) ex_info).
Proof. vm_compute. reflexivity. Qed.

Lemma requester_safe_witness :
  ∃ c b, inr ex_conn = (inr c : error + conn) ∧ (0 < len b < maxMetadataSize)%Z ∧ HashBytes b = ex_hash.
Proof.
  destruct (requester_safe ex_unmarshal_bytes ex_id (inr ex_conn) None None ex_hash eq_refl eq_refl) as [_ Hok].
  destruct (Hok _ ex_request) as (c & b & E & Hl & _ & Hh & _). exists c, b. split_and!; [exact E|apply Hl|apply Hl|exact Hh].
Defined.

Lemma requester_honest_peer_witness :
  requester_Request ex_id (Ok ex_conn) ex_hash = Ok (mkResponse (mkHandshakeInfo ex_id ex_bits) ex_info).
Proof.
  apply (requester_honest_peer ex_id ex_conn ex_hash ex_bits ex_id [[]] [3; 2]%Z (mkRootDict 3 2) [100; 101]%Z
    ex_messages [1]%Z ex_info).
  - reflexivity.
  - reflexivity.
  - reflexivity.
  - reflexivity.
  - reflexivity.
  - repeat constructor; vm_compute; done.
  - vm_compute. done.
  - reflexivity.
  - reflexivity.
  - split; vm_compute; done.
  - split; vm_compute; done.
  - apply Forall_cons_2; [split; [|vm_compute; done]|apply Forall_cons_2; [split; [|vm_compute; done]|
      apply Forall_cons_2; [split; [|vm_compute; done]|by apply Forall_nil]]].
    + apply (benign_request _ _ (mkHeader 0 0 0)); try reflexivity. split; vm_compute; done.
    + apply benign_noise. right. left. done.
    + apply (benign_data _ _ 0); [reflexivity|reflexivity|reflexivity|]. exists (mkHeader 1 0 2). split_and!; reflexivity.
  - intros i Hi. assert (i = 0) as -> by (change (metadataPieceCount (len [100; 101]%Z)) with 1%Z in Hi; lia).
    exists [20; 1; 1; 0; 2; 100; 101]%Z. split_and!.
    + right. right. left.
    + intros [?|[?|?]]; [cbn in *; lia|done|done].
    + exists (mkHeader 1 0 2). split_and!; reflexivity.
  - vm_compute. reflexivity.
  - reflexivity.
  - vm_compute. lia.
Defined.

End Requester.
