(* ===== verification/RequestChain.v ===== *)
(** * The layers around the metadata requester

    [metainforequester/prometheus_collector.go], [logger.go], [limiter.go],
    [peerrep_wrapper.go], [peerrep_metrics.go] and the order in which
    [factory.go] stacks them.  A requester is a state transformer that keeps
    its state also when it panics, as deferred code sees it. *)
From S2P Require Import Prelude Net Metainfo PeerRep Requester.
From stdpp Require Import list strings gmap.
From Stdlib Require Import ZArith Lia.

Module RequestChain.
Import Net PeerRep Metainfo Requester.

(** [Requester]: the request of an infohash from an address. *)
Abbreviation RequesterI S := (S → bytes → AddrPort → outcome error Response * S).

(** ** The network below (requester.go)

    The world supplies the results of the system calls for every dial. *)
Definition requester_layer `{Bencode} `{Torrent} {W}
    (dial : W → AddrPort → (error + conn) * option error * option (option error) * W) (clientID : bytes) : RequesterI W :=
  λ w infoHash addr,
    let '(d, linger, deadline, w) := dial w addr in
    (requester_Request clientID (connect d linger deadline) infoHash, w).

(** ** Metrics (prometheus_collector.go) *)

Record counters := mkCounters { requestConcurrency : Z; requestSuccessTotal : Z; requestErrorTotal : Z }.

Definition prometheusCollector {S} (inner : RequesterI S) : RequesterI (counters * S) :=
  λ '(m, s) infoHash addr,
    let m := mkCounters (requestConcurrency m + 1) (requestSuccessTotal m) (requestErrorTotal m) in
    let '(r, s) := inner s infoHash addr in
    let m :=
      match r with
      | Ok _ => mkCounters (requestConcurrency m) (requestSuccessTotal m + 1) (requestErrorTotal m)
      | Err _ => mkCounters (requestConcurrency m) (requestSuccessTotal m) (requestErrorTotal m + 1)
      | Panic => m
      end in
    (r, (mkCounters (requestConcurrency m - 1) (requestSuccessTotal m) (requestErrorTotal m), s)).

(** ** Logging (logger.go) *)

Definition requestLogger {S} (inner : RequesterI S) : RequesterI (list string * S) :=
  λ '(log, s) infoHash addr,
    let '(r, s) := inner s infoHash addr in
    match r with
    | Ok _ => (r, (log ++ ["request"], s))
    | Err _ => (r, (log ++ ["request failed"], s))
    | Panic => (r, (log, s))
    end.

(** ** Rate limit (limiter.go)

    [wait] is [KeyedLimiter.Wait]. *)
Definition requestLimiter {K S} (wait : K → string → option error * K) (inner : RequesterI S) : RequesterI (K * S) :=
  λ '(k, s) infoHash node,
    match wait k (Addr_String (ap_addr node)) with
    | (Some limitErr, k) => (Err limitErr, (k, s))
    | (None, k) => let '(r, s) := inner s infoHash node in (r, (k, s))
    end.

(** ** Classification of failures (peerrep_wrapper.go) *)

Fixpoint indexOf_loop (sub s : string) (i : Z) : Z :=
  if decide (String.length sub ≤ String.length s) then
    if String.prefix sub s then i
    else match s with String _ s => indexOf_loop sub s (i + 1) | EmptyString => (-1)%Z end
  else (-1)%Z.

Definition indexOf (s sub : string) : Z :=
  if decide (String.length sub = 0) then 0%Z
  else if decide (String.length s < String.length sub) then (-1)%Z
  else indexOf_loop sub s 0.

Fixpoint containsAny (s : string) (subs : list string) : bool :=
  match subs with
  | [] => false
  | sub :: subs => if (0 <=? indexOf s sub)%Z then true else containsAny s subs
  end.

Definition classifyForPeerRep (err : option error) : ErrorClass :=
  match err with
  | None => ClassUnknown
  | Some err =>
    if IsDeadlineExceeded err then ClassDialTimeout
    else if IsCanceled err then ClassUnknown
    else
      let msg := Error err in
      if containsAny msg ["info hash mismatch"; "wrong info hash"; "info_hash mismatch"] then ClassHashMismatch
      else if containsAny msg ["connection refused"] then ClassConnectionRefused
      else if containsAny msg ["connection reset by peer"; "broken pipe"; "unexpected EOF";
                "use of closed network connection"; "connection closed"] then ClassPeerClosed
      else if containsAny msg ["no ut_metadata"; "extension not supported"; "no extension"] then ClassNoUtMetadata
      else if containsAny msg ["no route to host"; "network unreachable"; "host unreachable"] then ClassNetworkError
      else if HasTimeout err then
        if containsAny msg ["metadata"; "ut_metadata"; "ext"; "extended"] then ClassMetadataTimeout else ClassDialTimeout
      else if IsOpError err then ClassNetworkError
      else if containsAny msg ["handshake"; "bt handshake"] then ClassHandshakeFail
      else if containsAny msg ["metadata"; "piece"; "ut_metadata"] then ClassMetadataTimeout
      else if containsAny msg ["EOF"] then ClassPeerClosed
      else ClassUnknown
  end.

(** ** Reputation (peerrep_wrapper.go, peerrep_metrics.go) *)

Definition ErrPeerRepSuppressed : error := errors_New "peerrep: peer suppressed by reputation cache".

(** Counters by the value of their [class] label. *)
Record peerRepMetrics := mkPeerRepMetrics {
  skippedTotal : gmap string Z;
  wouldSkipTotal : gmap string Z;
  observedTotal : gmap string Z
}.

Definition newPeerRepMetrics : peerRepMetrics := mkPeerRepMetrics ∅ ∅ ∅.

Definition Inc (m : gmap string Z) (label : string) : gmap string Z := <[label := (default 0 (m !! label) + 1)%Z]> m.

Record wrapper (L S : Type) := mkWrapper { w_store : Store L; w_metrics : peerRepMetrics; w_inner : S }.
#[global] Arguments mkWrapper {L S}.
#[global] Arguments w_store {L S}.
#[global] Arguments w_metrics {L S}.
#[global] Arguments w_inner {L S}.

(** The four readings of the clock: two to decide, two to record. *)
Record times := mkTimes { t_decide : Time; t_decide' : Time; t_record : Time; t_record' : Time }.

Section wrapper.
Context {L : Type} `{LRU L} {S : Type}.

Definition peerRepWrapper (inner : RequesterI S) (t : times) : RequesterI (wrapper L S) :=
  λ p infoHash addr,
    let '(dec, store) := Decide (t_decide t) (t_decide' t) (w_store p) addr in
    let met := w_metrics p in
    let met := if WouldSkip dec
      then mkPeerRepMetrics (skippedTotal met) (Inc (wouldSkipTotal met) (ErrorClass_String (LastClass dec))) (observedTotal met)
      else met in
    if negb (dec_Allow dec) then
      (Err ErrPeerRepSuppressed,
       mkWrapper store
         (mkPeerRepMetrics (Inc (skippedTotal met) (ErrorClass_String (LastClass dec))) (wouldSkipTotal met) (observedTotal met))
         (w_inner p))
    else
      let observe class := mkPeerRepMetrics (skippedTotal met) (wouldSkipTotal met) (Inc (observedTotal met) class) in
      match inner (w_inner p) infoHash addr with
      | (Panic, s) => (Panic, mkWrapper store met s)
      | (Ok resp, s) => (Ok resp, mkWrapper (RecordSuccess (t_record t) store addr) (observe "success") s)
      | (Err err, s) =>
        let class := classifyForPeerRep (Some err) in
        match RecordFailure (t_record t) (t_record' t) store addr class with
        | Ok store => (Err err, mkWrapper store (observe (ErrorClass_String class)) s)
        | Err e => match e with end
        | Panic => (Panic, mkWrapper store met s)
        end
      end.

End wrapper.

(** ** The stack (factory.go) *)

Definition New `{LRU L} `{Bencode} `{Torrent} {W K}
    (dial : W → AddrPort → (error + conn) * option error * option (option error) * W)
    (wait : K → string → option error * K) (clientID : bytes) (t : times) :
    RequesterI (wrapper L (K * (list string * (counters * W)))) :=
  peerRepWrapper (requestLimiter wait (requestLogger (prometheusCollector (requester_layer dial clientID)))) t.

(** ** Lemmas *)

Section laws.
Context {L : Type} `{LRULaws L}.
Implicit Types s : Store L.

(** No counter of failures is about to overflow. *)
Definition counters_fit s : Prop :=
  ∀ p st, lru_Peek (lru s) p = Some st → (0 ≤ consecutiveFailures st < 2 ^ 63 - 1)%Z.

Lemma live_fits now s p :
  counters_fit s → (0 ≤ consecutiveFailures (default (fresh_state now s) (live now s p)) < 2 ^ 63 - 1)%Z.
Proof.
  intros Hf. unfold live. destruct (lru_Peek (lru s) p) as [v|] eqn:E; [|cbn; lia].
  destruct (expiresAt v <? now)%Z; cbn; [lia|by eapply Hf].
Qed.

(** Deciding: the store stays sound, whatever it is. *)
Lemma Decide_store now now' s p :
  store_inv s → let s' := (Decide now now' s p).2 in store_inv s' ∧ cfg s' = cfg s ∧ (counters_fit s → counters_fit s').
Proof.
  intros Hinv. cbv zeta. destruct (Enabled (cfg s)) eqn:Hen; [|unfold Decide; by rewrite Hen].
  destruct (Decide_spec now now' s p Hinv Hen) as (_ & _ & Hinv' & Ec & Ho & Hk & _). split_and!; [done..|].
  intros Hf q st E. destruct (decide (q = p)) as [->|Hne]; [|rewrite Ho in E by done; by eapply Hf].
  rewrite Hk in E. unfold live in E. destruct (lru_Peek (lru s) p) as [v|] eqn:Ep; [|done].
  destruct (expiresAt v <? now)%Z; [done|]. cbn in E. injection E as <-. specialize (Hf p v Ep).
  unfold after_decide. destruct (_ <? _)%Z; done.
Qed.

Lemma Decide_allow now now' s p :
  store_inv s → Enabled (cfg s) = false ∨ Enforce (cfg s) = false → dec_Allow (Decide now now' s p).1 = true.
Proof.
  intros Hinv Hm. destruct (Enabled (cfg s)) eqn:Hen; [|unfold Decide; by rewrite Hen].
  destruct (Decide_spec now now' s p Hinv Hen) as (_ & -> & _). destruct Hm as [?| ->]; [done|]. by rewrite andb_false_r.
Qed.

Lemma RecordFailure_ok now now' s p class :
  store_inv s → counters_fit s → ∃ s', RecordFailure now now' s p class = Ok s' ∧ store_inv s' ∧ cfg s' = cfg s.
Proof.
  intros Hinv Hf. destruct (Enabled (cfg s)) eqn:Hen; [|unfold RecordFailure; rewrite Hen; by exists s].
  destruct (RecordFailure_spec now now' s p class Hinv Hen (live_fits now s p Hf)) as (s' & E & ? & ? & _). by exists s'.
Qed.

Lemma RecordSuccess_ok now s p :
  store_inv s → store_inv (RecordSuccess now s p) ∧ cfg (RecordSuccess now s p) = cfg s.
Proof.
  intros Hinv. destruct (Enabled (cfg s)) eqn:Hen; [|unfold RecordSuccess; by rewrite Hen].
  by destruct (RecordSuccess_spec now s p Hinv Hen) as (? & ? & _).
Qed.

Context {S : Type}.
Implicit Types p : wrapper L S.

(** When the attempt is allowed the wrapper answers as the inner requester. *)
Lemma wrapper_allowed (inner : RequesterI S) t p h a :
  store_inv (w_store p) → counters_fit (w_store p) →
  dec_Allow (Decide (t_decide t) (t_decide' t) (w_store p) a).1 = true →
  let r := peerRepWrapper inner t p h a in
  r.1 = (inner (w_inner p) h a).1 ∧ w_inner r.2 = (inner (w_inner p) h a).2 ∧
  store_inv (w_store r.2) ∧ cfg (w_store r.2) = cfg (w_store p).
Proof.
  intros Hinv Hf Ha. cbv zeta. unfold peerRepWrapper.
  destruct (Decide_store (t_decide t) (t_decide' t) (w_store p) a Hinv) as (Hinv1 & Ec1 & Hf1).
  destruct (Decide (t_decide t) (t_decide' t) (w_store p) a) as [dec store]. cbn [fst snd] in *. rewrite Ha. cbn [negb].
  destruct (inner (w_inner p) h a) as [[resp|err|] st] eqn:E; cbn [fst snd].
  - destruct (RecordSuccess_ok (t_record t) store a Hinv1) as [? Ec2]. cbn [w_inner w_store]. split_and!; [done..|congruence].
  - destruct (RecordFailure_ok (t_record t) (t_record' t) store a (classifyForPeerRep (Some err)) Hinv1 (Hf1 Hf))
      as (s' & -> & ? & Ec2). cbn. split_and!; [done..|congruence].
  - done.
Qed.

(** When it is not, the inner requester is left alone. *)
Lemma wrapper_refused (inner : RequesterI S) t p h a :
  dec_Allow (Decide (t_decide t) (t_decide' t) (w_store p) a).1 = false →
  (peerRepWrapper inner t p h a).1 = Err ErrPeerRepSuppressed ∧ w_inner (peerRepWrapper inner t p h a).2 = w_inner p.
Proof. intros Ha. unfold peerRepWrapper. destruct (Decide _ _ _ a) as [dec store]. cbn [fst] in Ha. by rewrite Ha. Qed.

(** The first failure of a peer: the entry it leaves. *)
Lemma wrapper_first_failure (inner : RequesterI S) t p h a err (s' : S) :
  store_inv (w_store p) → Enabled (cfg (w_store p)) = true → lru_Peek (lru (w_store p)) a = None →
  counters_fit (w_store p) → inner (w_inner p) h a = (Err err, s') →
  let r := peerRepWrapper inner t p h a in
  let class := classifyForPeerRep (Some err) in
  r.1 = Err err ∧ w_inner r.2 = s' ∧ store_inv (w_store r.2) ∧ cfg (w_store r.2) = cfg (w_store p) ∧
  lru_Peek (lru (w_store r.2)) a = Some (mkPeerState 1 class (backoff_until (cfg (w_store p)) class 1 (t_record' t))
    (t_record t + TTL (cfg (w_store p)))).
Proof.
  intros Hinv Hen Hnone Hf Hin. cbv zeta.
  destruct (Decide_store (t_decide t) (t_decide' t) (w_store p) a Hinv) as (_ & _ & Hf1). specialize (Hf1 Hf).
  destruct (Decide_spec (t_decide t) (t_decide' t) (w_store p) a Hinv Hen) as (Ew & Eal & Hinv1 & Ec & _ & Hk & _).
  assert (El : live (t_decide t) (w_store p) a = None) by (unfold live; by rewrite Hnone).
  unfold suppressed in Ew. rewrite El in Ew, Hk. rewrite Ew in Eal. unfold peerRepWrapper.
  destruct (Decide (t_decide t) (t_decide' t) (w_store p) a) as [d1 s1]. cbn [fst snd] in *. rewrite Eal, Hin. cbn [andb negb].
  destruct (RecordFailure_spec (t_record t) (t_record' t) s1 a (classifyForPeerRep (Some err)) Hinv1) as (s2 & -> & Hinv2 & Ec2 & _ & _ & Hk2);
    [congruence|by apply live_fits|]. cbn [fst snd w_inner w_store]. split_and!; [done..|congruence|]. rewrite Hk2.
  assert (live (t_record t) s1 a = None) as -> by (unfold live; by rewrite Hk).
  unfold after_failure, fresh_state. cbn [default consecutiveFailures lastClass expiresAt]. rewrite Ec. by destruct (decide _).
Qed.

End laws.

(** ** Properties *)

(** the stack in shadow mode.  With enforcement or the cache off, and a
    token from the rate limit, the stack that [New] builds returns exactly what
    the requester at its bottom returns, also when that panics; the gauge of
    concurrent requests is back at its value, and exactly one of the success
    and error counters has moved, unless the request panicked. *)
Theorem chain_shadow_transparent `{LRULaws L} `{Bencode} `{Torrent} {W K}
    (dial : W → AddrPort → (error + conn) * option error * option (option error) * W)
    (wait : K → string → option error * K) clientID t (store : Store L) met k log m w h a k' d linger deadline w' :
  store_inv store → counters_fit store → Enabled (cfg store) = false ∨ Enforce (cfg store) = false →
  wait k (Addr_String (ap_addr a)) = (None, k') → dial w a = (d, linger, deadline, w') →
  let base := requester_Request clientID (connect d linger deadline) h in
  let r := New dial wait clientID t (mkWrapper store met (k, (log, (m, w)))) h a in
  r.1 = base ∧ store_inv (w_store r.2) ∧
  ∃ log' m', w_inner r.2 = (k', (log', (m', w'))) ∧ requestConcurrency m' = requestConcurrency m ∧
    match base with
    | Ok _ => requestSuccessTotal m' = (requestSuccessTotal m + 1)%Z ∧ requestErrorTotal m' = requestErrorTotal m
    | Err _ => requestSuccessTotal m' = requestSuccessTotal m ∧ requestErrorTotal m' = (requestErrorTotal m + 1)%Z
    | Panic => m' = m
    end.
Proof.
  intros Hinv Hf Hm Hwait Hdial. cbv zeta. unfold New.
  match goal with |- context [peerRepWrapper ?i t ?p h a] =>
    destruct (wrapper_allowed i t p h a Hinv Hf (Decide_allow _ _ store a Hinv Hm)) as (-> & -> & Hinv' & _) end.
  cbn [w_inner]. unfold requestLimiter, requestLogger, prometheusCollector, requester_layer. rewrite Hwait, Hdial.
  destruct (requester_Request clientID (connect d linger deadline) h) as [resp|err|]; cbn [fst snd];
    (split_and!; [done|done|]); eexists _, _; (split; [reflexivity|]); cbn; split_and!; try lia; try done.
  destruct m; cbn; f_equal; lia.
Qed.

(** a failing peer is left alone.  When a request to a peer without an
    entry fails, then with the cache enforced every further request to it,
    within the lifetime of the entry and before the first backoff of the class
    of the failure has passed, is refused with [ErrPeerRepSuppressed] without
    the peer being contacted; once the backoff has passed the peer is contacted
    again. *)
Theorem chain_suppresses `{LRULaws L} {S} (inner : RequesterI S) t (p : wrapper L S) h a err s' :
  store_inv (w_store p) → Enabled (cfg (w_store p)) = true → Enforce (cfg (w_store p)) = true →
  lru_Peek (lru (w_store p)) a = None → counters_fit (w_store p) →
  inner (w_inner p) h a = (Err err, s') →
  let r := peerRepWrapper inner t p h a in
  let until := backoff_until (cfg (w_store p)) (classifyForPeerRep (Some err)) 1 (t_record' t) in
  r.1 = Err err ∧ w_inner r.2 = s' ∧
  ∀ t2 h2, (t_decide t2 ≤ t_record t + TTL (cfg (w_store p)))%Z → until ≠ time_zero →
    let r2 := peerRepWrapper inner t2 r.2 h2 a in
    if (t_decide' t2 <? until)%Z
    then r2.1 = Err ErrPeerRepSuppressed ∧ w_inner r2.2 = s'
    else dec_Allow (Decide (t_decide t2) (t_decide' t2) (w_store r.2) a).1 = true.
Proof.
  intros Hinv Hen Henf Hnone Hf Hin. cbv zeta.
  destruct (wrapper_first_failure inner t p h a err s' Hinv Hen Hnone Hf Hin) as (Er & Es & Hinv2 & Ec & Hst).
  split_and!; [done..|]. intros t2 h2 Ht Hz. set (until := backoff_until _ _ _ _) in *.
  set (s2 := w_store (peerRepWrapper inner t p h a).2) in *.
  destruct (Decide_spec (t_decide t2) (t_decide' t2) s2 a Hinv2) as (Fw & Fa & _); [congruence|].
  assert (Hsup : suppressed (t_decide t2) (t_decide' t2) s2 a = (t_decide' t2 <? until)%Z).
  { unfold suppressed, live. rewrite Hst. cbn [expiresAt]. rewrite (proj2 (Z.ltb_ge _ _)) by lia.
    cbn [suppressedUntil]. by rewrite (proj2 (Z.eqb_neq until time_zero)) by done. }
  rewrite Hsup in Fw. rewrite Fw, Ec, Henf, andb_true_r in Fa.
  destruct (t_decide' t2 <? until)%Z; [|done]. rewrite <- Es. by apply wrapper_refused.
Qed.

(** the classes meant for peers of another swarm and for peers without
    the extension are out of reach for the errors of this requester.  A peer
    that completes the handshake for a different infohash, one that lacks the
    extension bit, and one whose metadata does not hash to the infohash all
    fail with errors that are classified as unknown, so they are suppressed
    for the network-error schedule only. *)
Theorem chain_wrong_swarm_class `{BencodeLaws} `{Torrent} clientID c infoHash ex hash pid r bit cf :
  length infoHash = 20 → length clientID = 20 → length ex = 8 → length hash = 20 → length pid = 20 →
  GetBit ex ExtensionBitLtep = Ok bit → (0 < writes_left c) → inp c = Protocol ++ ex ++ hash ++ pid ++ r →
  bit = false ∨ hash ≠ infoHash →
  (∃ e, requester_Request clientID (Ok c) infoHash = Err e ∧ classifyForPeerRep (Some e) = ClassUnknown) ∧
  classifyForPeerRep (Some (errors_New (parseError_text ErrWrongHash))) = ClassUnknown ∧
  scheduleFor cf ClassUnknown = NetworkErrorBackoff cf.
Proof.
  intros Hh Hc Hex Hhash Hp Hbit Hw Hi Hbad. split_and!; [|vm_compute; reflexivity|done].
  unfold requester_Request. cbn [mbind outcome_bind].
  rewrite (btHandshake_answer c (pred (writes_left c)) infoHash clientID ex hash pid r bit) by (done || lia).
  destruct bit; cbn [negb].
  - rewrite decide_True by (by destruct Hbad). eexists. split; [reflexivity|]. vm_compute. reflexivity.
  - eexists. split; [reflexivity|]. vm_compute. reflexivity.
Qed.

(** ** Witnesses *)

#[local] Existing Instances ex_bencode ex_bencode_laws Requester.ex_torrent.

Definition ex_dial (w : unit) (a : AddrPort) : (error + conn) * option error * option (option error) * unit :=
  (inr ex_conn, None, None, tt).
Definition ex_wait (k : nat) (key : string) : option error * nat :=
  match k with O => (Some (errors_New "rate: Wait would exceed context deadline"), 0) | Datatypes.S k => (None, k) end.
Definition ex_shadow : Config :=
  mkConfig true false 2 (24 * Hour) [] [] [10 * Minute]%Z [] [] [] [] [] [].
Definition ex_shadow_store : Store AList := mkStore ex_shadow (lru_New 2).
Definition ex_times (t : Z) : times := mkTimes t t t t.

Lemma ex_empty_inv (c : Config) : MaxEntries c = 2%Z → (0 < TTL c)%Z → store_inv (mkStore c (lru_New (L := AList) 2)).
Proof. intros E Ht. split; cbn; [|done]. rewrite E. split_and!; try done; constructor. Qed.

Lemma chain_shadow_transparent_witness :
  (New ex_dial ex_wait ex_id (ex_times 5) (mkWrapper ex_shadow_store newPeerRepMetrics (1, ([], (mkCounters 0 0 0, tt))))
    ex_hash (ex_peer 1)).1 = Ok (mkResponse (mkHandshakeInfo ex_id ex_bits) Requester.ex_info).
Proof.
  rewrite (proj1 (chain_shadow_transparent ex_dial ex_wait ex_id (ex_times 5) ex_shadow_store newPeerRepMetrics 1 []
    (mkCounters 0 0 0) tt ex_hash (ex_peer 1) 0 (inr ex_conn) None None tt (ex_empty_inv ex_shadow eq_refl eq_refl)
    ltac:(intros ? ? [=]) (or_intror eq_refl) eq_refl eq_refl)).
  vm_compute. reflexivity.
Defined.

Definition ex_refusing (s : nat) (h : bytes) (a : AddrPort) : outcome error Response * nat :=
  (Err (errors_New "dial tcp4 1.2.3.1:6881: connect: connection refused"), S s).
Definition ex_wrapper : wrapper AList nat := mkWrapper ex_store newPeerRepMetrics 0.

Lemma chain_suppresses_witness :
  let r := peerRepWrapper ex_refusing (ex_times 5) ex_wrapper ex_hash (ex_peer 1) in
  w_inner r.2 = 1 ∧ (peerRepWrapper ex_refusing (ex_times 1000) r.2 ex_hash (ex_peer 1)).1 = Err ErrPeerRepSuppressed ∧
  w_inner (peerRepWrapper ex_refusing (ex_times 1000) r.2 ex_hash (ex_peer 1)).2 = 1.
Proof.
  destruct (chain_suppresses ex_refusing (ex_times 5) ex_wrapper ex_hash (ex_peer 1)
    (errors_New "dial tcp4 1.2.3.1:6881: connect: connection refused") 1 ex_store_inv eq_refl eq_refl eq_refl
    ltac:(intros ? ? [=]) eq_refl) as (_ & E & Hd).
  cbv zeta. split; [exact E|].
  exact (Hd (ex_times 1000) ex_hash ltac:(vm_compute; discriminate) ltac:(vm_compute; discriminate)).
Defined.

Definition ex_other_swarm : conn := mkConn (Protocol ++ ex_bits ++ ex_id ++ ex_id) None 1 EOF [].

Lemma chain_wrong_swarm_class_witness :
  ∃ e, requester_Request ex_id (Ok ex_other_swarm) ex_hash = Err e ∧ classifyForPeerRep (Some e) = ClassUnknown.
Proof.
  apply (chain_wrong_swarm_class ex_id ex_other_swarm ex_hash ex_bits ex_id ex_id [] true ex_shadow); try reflexivity.
  - vm_compute. lia.
  - right. vm_compute. discriminate.
Defined.

End RequestChain.
