(* ===== verification/Concurrency.v ===== *)
(** * Channels between the stages of the crawler

    [internal/concurrency/batching_channel.go] and
    [buffered_concurrent_channel.go], as step systems: a state holds the
    channels, the local variables of the goroutine and where it stands, and an
    action is one communication.  An action that is not possible in a state
    blocks ([None]); every interleaving is a list of actions.  What was sent,
    received, started and lost is recorded in the state to state the theorems. *)
From S2P Require Import Prelude.
From stdpp Require Import list.
From Stdlib Require Import ZArith Lia.

Module Concurrency.

(** Runs a list of actions from a state. *)
Fixpoint run_actions {A S} (step : A → S → option S) (as_ : list A) (s : S) : option S :=
  match as_ with
  | [] => Some s
  | a :: as_ => match step a s with Some s => run_actions step as_ s | None => None end
  end.

(** ** Batching (batching_channel.go) *)

(** Where the goroutine of [batch] stands: at its [select], or in [flush]
    sending a batch. *)
Inductive batch_pc (T : Type) := Selecting | Flushing (batch : list T).
#[global] Arguments Selecting {T}.
#[global] Arguments Flushing {T}.

Record batchingChannel (T : Type) := mkBatching {
  b_capacity : nat;
  maxBatchSize : Z;
  b_input : list T;
  b_closed : bool;
  buffer : list T;
  b_pc : batch_pc T;
  output : option (list T);
  b_received : list (list T);
  b_sent : list T
}.
#[global] Arguments mkBatching {T}.
#[global] Arguments b_capacity {T}.
#[global] Arguments maxBatchSize {T}.
#[global] Arguments b_input {T}.
#[global] Arguments b_closed {T}.
#[global] Arguments buffer {T}.
#[global] Arguments b_pc {T}.
#[global] Arguments output {T}.
#[global] Arguments b_received {T}.
#[global] Arguments b_sent {T}.

Section batching.
Context {T : Type}.
Implicit Types ch : batchingChannel T.

Definition NewBatchingChannel (capacity : nat) (max : Z) : batchingChannel T :=
  mkBatching capacity max [] false [] Selecting None [] [].

(** [flush], up to the blocking send.  The ticker is stopped and reset, which
    only says when the next tick may come. *)
Definition flush ch : batchingChannel T :=
  mkBatching (b_capacity ch) (maxBatchSize ch) (b_input ch) (b_closed ch) [] (Flushing (buffer ch)) (output ch)
    (b_received ch) (b_sent ch).

(** The case of a received value. *)
Definition receive (next : T) ch : batchingChannel T :=
  let ch := mkBatching (b_capacity ch) (maxBatchSize ch) (b_input ch) (b_closed ch) (buffer ch ++ [next]) (b_pc ch)
    (output ch) (b_received ch) (b_sent ch) in
  if (maxBatchSize ch <=? Z.of_nat (length (buffer ch)))%Z then flush ch else ch.

Inductive batch_action :=
| BSend (x : T)   (* a producer: [In() <- x] *)
| BClose          (* a producer: [close(In())] *)
| BReceive        (* the case [next, ok = <-ch.input] *)
| BTick           (* the case [<-ch.ticker.C] *)
| BEmit           (* the send of [flush] *)
| BConsume.       (* a consumer: [<-Out()] *)

Definition with_input ch (inp : list T) (sent : list T) : batchingChannel T :=
  mkBatching (b_capacity ch) (maxBatchSize ch) inp (b_closed ch) (buffer ch) (b_pc ch) (output ch) (b_received ch) sent.

(** When the input is closed and empty the [break] leaves the [select] only:
    the loop goes round. *)
Definition batch_step (a : batch_action) ch : option (batchingChannel T) :=
  match a with
  | BSend x =>
    if b_closed ch then None
    else if decide (length (b_input ch) < b_capacity ch) then Some (with_input ch (b_input ch ++ [x]) (b_sent ch ++ [x]))
    else
      match b_capacity ch, b_pc ch with
      | O, Selecting => Some (receive x (with_input ch (b_input ch) (b_sent ch ++ [x])))
      | _, _ => None
      end
  | BClose =>
    if b_closed ch then None
    else Some (mkBatching (b_capacity ch) (maxBatchSize ch) (b_input ch) true (buffer ch) (b_pc ch) (output ch)
      (b_received ch) (b_sent ch))
  | BReceive =>
    match b_pc ch, b_input ch with
    | Selecting, next :: inp => Some (receive next (with_input ch inp (b_sent ch)))
    | Selecting, [] => if b_closed ch then Some ch else None
    | Flushing _, _ => None
    end
  | BTick =>
    match b_pc ch with
    | Selecting => Some (if decide (0 < length (buffer ch)) then flush ch else ch)
    | Flushing _ => None
    end
  | BEmit =>
    match b_pc ch, output ch with
    | Flushing batch, None =>
      Some (mkBatching (b_capacity ch) (maxBatchSize ch) (b_input ch) (b_closed ch) (buffer ch) Selecting (Some batch)
        (b_received ch) (b_sent ch))
    | _, _ => None
    end
  | BConsume =>
    match output ch with
    | Some batch =>
      Some (mkBatching (b_capacity ch) (maxBatchSize ch) (b_input ch) (b_closed ch) (buffer ch) (b_pc ch) None
        (b_received ch ++ [batch]) (b_sent ch))
    | None => None
    end
  end.

End batching.

(** ** Bounded concurrency (buffered_concurrent_channel.go) *)

(** Where [Run] stands: at its [select], acquiring the semaphore for a value,
    or returned. *)
Inductive run_pc (T : Type) := RSelecting | RAcquiring (next : T) | RReturned.
#[global] Arguments RSelecting {T}.
#[global] Arguments RAcquiring {T}.
#[global] Arguments RReturned {T}.

Record bufferedConcurrentChannel (T : Type) := mkBuffered {
  c_capacity : nat;
  sem : nat;
  c_queue : list T;
  c_cancelled : bool;
  c_pc : run_pc T;
  running : list T;
  c_started : list T;
  c_finished : list T;
  c_lost : list T;
  c_sent : list T
}.
#[global] Arguments mkBuffered {T}.
#[global] Arguments c_capacity {T}.
#[global] Arguments sem {T}.
#[global] Arguments c_queue {T}.
#[global] Arguments c_cancelled {T}.
#[global] Arguments c_pc {T}.
#[global] Arguments running {T}.
#[global] Arguments c_started {T}.
#[global] Arguments c_finished {T}.
#[global] Arguments c_lost {T}.
#[global] Arguments c_sent {T}.

Section buffered.
Context {T : Type}.
Implicit Types ch : bufferedConcurrentChannel T.

Definition NewBufferedConcurrentChannel (capacity concurrency : nat) : bufferedConcurrentChannel T :=
  mkBuffered capacity concurrency [] false RSelecting [] [] [] [] [].

Inductive run_action :=
| CSend (x : T)      (* a producer: [In() <- x] *)
| CCancel            (* the context is done *)
| CDone              (* the case [<-ctx.Done()] *)
| CTake              (* the case [next := <-ch.ch] *)
| CAcquire           (* [Acquire] succeeds and the goroutine is started *)
| CAcquireFail       (* [Acquire] returns the error of the context *)
| CFinish (i : nat). (* the [i]-th running goroutine returns and releases *)

Definition run_step (a : run_action) ch : option (bufferedConcurrentChannel T) :=
  match a with
  | CSend x =>
    if decide (length (c_queue ch) < c_capacity ch)
    then Some (mkBuffered (c_capacity ch) (sem ch) (c_queue ch ++ [x]) (c_cancelled ch) (c_pc ch) (running ch)
      (c_started ch) (c_finished ch) (c_lost ch) (c_sent ch ++ [x]))
    else
      match c_capacity ch, c_pc ch with
      | O, RSelecting => Some (mkBuffered (c_capacity ch) (sem ch) (c_queue ch) (c_cancelled ch) (RAcquiring x) (running ch)
          (c_started ch) (c_finished ch) (c_lost ch) (c_sent ch ++ [x]))
      | _, _ => None
      end
  | CCancel => Some (mkBuffered (c_capacity ch) (sem ch) (c_queue ch) true (c_pc ch) (running ch)
      (c_started ch) (c_finished ch) (c_lost ch) (c_sent ch))
  | CDone =>
    match c_pc ch with
    | RSelecting => if c_cancelled ch
      then Some (mkBuffered (c_capacity ch) (sem ch) (c_queue ch) (c_cancelled ch) RReturned (running ch)
        (c_started ch) (c_finished ch) (c_lost ch) (c_sent ch))
      else None
    | _ => None
    end
  | CTake =>
    match c_pc ch, c_queue ch with
    | RSelecting, next :: q => Some (mkBuffered (c_capacity ch) (sem ch) q (c_cancelled ch) (RAcquiring next) (running ch)
        (c_started ch) (c_finished ch) (c_lost ch) (c_sent ch))
    | _, _ => None
    end
  | CAcquire =>
    match c_pc ch with
    | RAcquiring next => if decide (length (running ch) < sem ch)
      then Some (mkBuffered (c_capacity ch) (sem ch) (c_queue ch) (c_cancelled ch) RSelecting (running ch ++ [next])
        (c_started ch ++ [next]) (c_finished ch) (c_lost ch) (c_sent ch))
      else None
    | _ => None
    end
  | CAcquireFail =>
    match c_pc ch with
    | RAcquiring next => if c_cancelled ch
      then Some (mkBuffered (c_capacity ch) (sem ch) (c_queue ch) (c_cancelled ch) RReturned (running ch)
        (c_started ch) (c_finished ch) (c_lost ch ++ [next]) (c_sent ch))
      else None
    | _ => None
    end
  | CFinish i =>
    match running ch !! i with
    | Some x => Some (mkBuffered (c_capacity ch) (sem ch) (c_queue ch) (c_cancelled ch) (c_pc ch) (delete i (running ch))
        (c_started ch) (c_finished ch ++ [x]) (c_lost ch) (c_sent ch))
    | None => None
    end
  end.

End buffered.
#[global] Arguments batch_action : clear implicits.
#[global] Arguments run_action : clear implicits.

(** ** Lemmas *)

Lemma run_actions_app {A S} (step : A → S → option S) as1 as2 s :
  run_actions step (as1 ++ as2) s = run_actions step as1 s ≫= run_actions step as2.
Proof. revert s. induction as1 as [|a as1 IH]; intros s; cbn; [done|]. by destruct (step a s). Qed.

Lemma run_actions_inv {A S} (step : A → S → option S) (P : S → Prop) as_ s s' :
  (∀ a s s', P s → step a s = Some s' → P s') → P s → run_actions step as_ s = Some s' → P s'.
Proof.
  intros Hstep. revert s. induction as_ as [|a as_ IH]; cbn; intros s Hs; [by intros [= <-]|].
  destruct (step a s) as [s1|] eqn:E; [|done]. intros Hr. eapply IH; [|done]. by eapply Hstep.
Qed.

Section batching_laws.
Context {T : Type}.
Implicit Types ch : batchingChannel T.

(** What is on its way, oldest first. *)
Definition in_flight ch : list T :=
  default [] (output ch) ++ match b_pc ch with Flushing b => b | Selecting => [] end ++ buffer ch ++ b_input ch.

Definition batch_size_ok ch (b : list T) : Prop := 0 < length b ∧ (Z.of_nat (length b) ≤ Z.max 1 (maxBatchSize ch))%Z.

Record batching_inv ch : Prop := {
  bi_fifo : concat (b_received ch) ++ in_flight ch = b_sent ch;
  bi_received : Forall (batch_size_ok ch) (b_received ch);
  bi_output : ∀ b, output ch = Some b → batch_size_ok ch b;
  bi_pc : ∀ b, b_pc ch = Flushing b → batch_size_ok ch b ∧ buffer ch = [];
  bi_buffer : buffer ch = [] ∨ (Z.of_nat (length (buffer ch)) < maxBatchSize ch)%Z;
  bi_input : length (b_input ch) ≤ b_capacity ch
}.

Lemma receive_inv x ch :
  concat (b_received ch) ++ default [] (output ch) ++ buffer ch ++ x :: b_input ch = b_sent ch →
  Forall (batch_size_ok ch) (b_received ch) → (∀ b, output ch = Some b → batch_size_ok ch b) → b_pc ch = Selecting →
  buffer ch = [] ∨ (Z.of_nat (length (buffer ch)) < maxBatchSize ch)%Z → length (b_input ch) ≤ b_capacity ch →
  batching_inv (receive x ch).
Proof.
  intros Hf Hr Ho Epc Hb Hi. destruct ch as [cap mx inp cl buf pc out rec sent]. cbn in *. subst pc.
  unfold receive, flush. cbn [maxBatchSize buffer]. rewrite length_app. cbn [length].
  destruct (Z.leb_spec mx (Z.of_nat (length buf + 1))) as [Hle|Hgt]; split; unfold in_flight; cbn; try done.
  - rewrite <- Hf. cbn. by rewrite <- !app_assoc.
  - intros b [= <-]. split; [|done]. unfold batch_size_ok. rewrite length_app. cbn. destruct Hb as [-> |?]; cbn; lia.
  - by left.
  - rewrite <- Hf. cbn. by rewrite <- !app_assoc.
  - right. rewrite length_app. cbn. lia.
Qed.

Lemma batch_step_inv a ch ch' : batching_inv ch → batch_step a ch = Some ch' → batching_inv ch'.
Proof.
  intros Hinv. pose proof Hinv as [Hf Hr Ho Hp Hb Hi]. unfold in_flight in Hf. destruct a; cbn.
  - destruct (b_closed ch); [done|]. destruct (decide _) as [Hlt|Hge].
    + intros [= <-]. split; cbn; try done; [|rewrite length_app; cbn; lia]. unfold in_flight. cbn. rewrite <- Hf. by rewrite <- !app_assoc.
    + destruct (b_capacity ch) eqn:Ec; [|done]. destruct (b_pc ch) eqn:Epc; [|done]. intros [= <-].
      assert (b_input ch = []) as Ei by (apply nil_length_inv; lia). rewrite Ei in Hf.
      apply receive_inv; cbn; try done; [|lia]. rewrite Ei, <- Hf, app_nil_r. by rewrite <- !app_assoc.
  - destruct (b_closed ch); [done|]. intros [= <-]. by split.
  - destruct (b_pc ch) eqn:Epc; [|done]. destruct (b_input ch) as [|next inp] eqn:Ei.
    + destruct (b_closed ch); [|done]. by intros [= <-].
    + intros [= <-]. apply receive_inv; cbn; try done. cbn in Hi. lia.
  - destruct (b_pc ch) eqn:Epc; [|done]. destruct (decide (0 < length (buffer ch))) as [Hlt|]; intros [= <-]; [|done].
    split; cbn; [|done|done| |by left|done].
    + unfold in_flight. cbn. rewrite <- Hf. cbn. done.
    + intros b [= <-]. split; [|done]. split; [done|]. destruct Hb as [E|?]; [rewrite E in Hlt; cbn in Hlt; lia|]. cbn. lia.
  - destruct (b_pc ch) as [|b] eqn:Epc; [done|]. destruct (output ch) eqn:Eo; [done|]. intros [= <-].
    destruct (Hp b eq_refl) as [Hsz Ebuf]. split; cbn; try done. intros ? [= <-]. done.
  - destruct (output ch) as [b|] eqn:Eo; [|done]. intros [= <-]. split; cbn; try done.
    + unfold in_flight. cbn. rewrite concat_app. cbn. rewrite app_nil_r, <- Hf. cbn. by rewrite <- !app_assoc.
    + apply Forall_app. split; [done|]. by apply Forall_singleton, Ho.
Qed.

(** The batcher and its consumer alone. *)
Definition internal_action (a : batch_action T) : Prop :=
  match a with BSend _ | BClose => False | _ => True end.

(** Work left before everything is with the consumer. *)
Definition work ch : nat :=
  4 * length (b_input ch) + 3 * length (buffer ch) + match b_pc ch with Flushing _ => 2 | Selecting => 0 end +
  match output ch with Some _ => 1 | None => 0 end.

Lemma receive_work x ch : b_pc ch = Selecting → work (receive x ch) < work (with_input ch (x :: b_input ch) (b_sent ch)).
Proof.
  intros E. destruct ch as [cap mx inp cl buf pc out rec sent]. cbn in *. subst pc. unfold receive, flush. cbn [maxBatchSize buffer].
  destruct (_ <=? _)%Z; unfold work; cbn; rewrite ?length_app; cbn; lia.
Qed.

Lemma batch_progress ch :
  in_flight ch ≠ [] → (∀ b, b_pc ch = Flushing b → b ≠ []) → (∀ b, output ch = Some b → b ≠ []) →
  ∃ a ch', internal_action a ∧ batch_step a ch = Some ch' ∧ work ch' < work ch ∧ b_sent ch' = b_sent ch.
Proof.
  intros Hfl Hp Ho. destruct (output ch) as [b|] eqn:Eo.
  { exists BConsume. cbn. rewrite Eo. eexists. split_and!; [done|done| |done]. unfold work. cbn. rewrite ?Eo. lia. }
  destruct (b_pc ch) as [|b] eqn:Epc.
  - destruct (b_input ch) as [|x inp] eqn:Ei.
    + exists BTick. cbn. rewrite Epc. unfold in_flight in Hfl. rewrite Eo, Epc, Ei in Hfl. cbn in Hfl. rewrite app_nil_r in Hfl.
      rewrite decide_True by (destruct (buffer ch); [done|cbn; lia]). eexists. split_and!; [done|done| |done].
      unfold work, flush. cbn. rewrite ?Epc, ?Eo, ?Ei. destruct (buffer ch); [done|cbn; lia].
    + exists BReceive. cbn. rewrite Epc, Ei. eexists. split_and!; [done|done| |].
      * eapply Nat.lt_le_trans; [by apply receive_work|]. unfold work. cbn. rewrite ?Epc, ?Ei. done.
      * unfold receive. cbn. by destruct (_ <=? _)%Z.
  - exists BEmit. cbn. rewrite Epc, Eo. eexists. split_and!; [done|done| |done]. unfold work. cbn. rewrite ?Epc, ?Eo. lia.
Qed.

Lemma batch_drains ch :
  batching_inv ch → ∃ as_ ch', Forall internal_action as_ ∧ run_actions batch_step as_ ch = Some ch' ∧
    b_sent ch' = b_sent ch ∧ in_flight ch' = [].
Proof.
  induction ch as [ch IH] using (induction_ltof1 _ work). unfold ltof in IH. intros Hinv.
  destruct (decide (length (in_flight ch) = 0)) as [Hz|Hnz]; [apply nil_length_inv in Hz; by exists [], ch|].
  destruct (batch_progress ch) as (a & ch1 & Ha & E & Hw & Es).
  - intros E. rewrite E in Hnz. done.
  - intros b Eb. destruct (bi_pc _ Hinv b Eb) as [[Hl _] _]. by destruct b; [cbn in Hl; lia|].
  - intros b Eb. destruct (bi_output _ Hinv b Eb) as [Hl _]. by destruct b; [cbn in Hl; lia|].
  - destruct (IH ch1 Hw (batch_step_inv _ _ _ Hinv E)) as (as_ & ch' & Has & Er & Es' & Ef).
    exists (a :: as_), ch'. split_and!; [by constructor|cbn; by rewrite E|congruence|done].
Qed.

(** the batching channel delivers everything, in order, in bounded
    batches.  In every interleaving of producers, ticks, the batching goroutine
    and its consumer, the batches received so far, followed by what is still in
    the channels and the buffer, spell exactly what was sent; every batch is
    non-empty and no larger than the configured size; and from every state the
    goroutine and the consumer alone can bring everything to the consumer.
    Closing the input does not end the goroutine: once all is delivered it goes
    round its loop without a change, and the consumer is never told. *)
Theorem batching_channel capacity max as_ ch :
  run_actions batch_step as_ (NewBatchingChannel capacity max) = Some ch →
  concat (b_received ch) ++ in_flight ch = b_sent ch ∧
  Forall (λ b, 0 < length b ∧ (Z.of_nat (length b) ≤ Z.max 1 (maxBatchSize ch))%Z) (b_received ch) ∧
  (∃ as' ch', Forall internal_action as' ∧ run_actions batch_step as' ch = Some ch' ∧ concat (b_received ch') = b_sent ch) ∧
  (b_closed ch = true → in_flight ch = [] → b_pc ch = Selecting →
    batch_step BReceive ch = Some ch ∧ (output ch = None → batch_step BConsume ch = None)).
Proof.
  intros Hr. assert (Hinv : batching_inv ch).
  { eapply (run_actions_inv batch_step batching_inv); [intros; by eapply batch_step_inv| |exact Hr].
    split; cbn; try done; [by left|lia]. }
  split_and!; [apply Hinv|apply Hinv| |].
  - destruct (batch_drains ch Hinv) as (as' & ch' & Has & E & Es & Ef). exists as', ch'. split_and!; [done..|].
    assert (Hinv' : batching_inv ch') by (eapply run_actions_inv; [intros; by eapply batch_step_inv|exact Hinv|exact E]).
    rewrite <- Es, <- (bi_fifo _ Hinv'), Ef. by rewrite app_nil_r.
  - intros Hc Hf Hp. unfold in_flight in Hf. rewrite Hp in Hf. apply app_nil in Hf as [_ Hf]. cbn in Hf.
    apply app_nil in Hf as [_ Hi]. cbn. rewrite Hp, Hi, Hc.
    split; [done|]. by intros ->.
Qed.

End batching_laws.

Section buffered_laws.
Context {T : Type}.
Implicit Types ch : bufferedConcurrentChannel T.

(** The value that [Run] has taken and not started. *)
Definition held ch : list T := match c_pc ch with RAcquiring x => [x] | _ => [] end.

Record buffered_inv ch : Prop := {
  ci_fifo : c_started ch ++ held ch ++ c_lost ch ++ c_queue ch = c_sent ch;
  ci_running : c_finished ch ++ running ch ≡ₚ c_started ch;
  ci_sem : length (running ch) ≤ sem ch;
  ci_lost : length (c_lost ch) ≤ 1 ∧ (c_lost ch ≠ [] → c_pc ch = RReturned ∧ c_cancelled ch = true);
  ci_queue : length (c_queue ch) ≤ c_capacity ch
}.

(** Opens the goals of [buffered_inv] and closes those that did not change. *)
Ltac buffered_fields :=
  split; unfold held in *; cbn in *; rewrite ?length_app; cbn; try done; try lia; try (split; [cbn; lia|done]).

Lemma run_step_inv a ch ch' : buffered_inv ch → run_step a ch = Some ch' → buffered_inv ch'.
Proof.
  intros [Hf Hr Hs [Hl Hl'] Hq]. destruct ch as [cap sm q can pc run sta fin los sen]. cbn in *.
  assert (El : pc ≠ RReturned → los = []) by (intros Hne; destruct los; [done|]; by destruct (Hl' ltac:(done))).
  destruct a as [x| | | | | |i]; cbn.
  - destruct (decide (length q < cap)) as [Hlt|Hge].
    + intros [= <-]. buffered_fields. rewrite <- Hf. by rewrite <- !app_assoc.
    + destruct cap as [|cap]; [|done]. destruct pc; [|done..]. intros [= <-]. rewrite El in * by done.
      assert (q = []) as -> by (apply nil_length_inv; lia). buffered_fields. rewrite <- Hf. by rewrite !app_nil_r.
  - intros [= <-]. buffered_fields. naive_solver.
  - destruct pc; [|done..]. destruct can; [|done]. intros [= <-]. rewrite El in * by done. buffered_fields.
  - destruct pc; [|done..]. destruct q as [|x q]; [done|]. intros [= <-]. rewrite El in * by done. buffered_fields.
  - destruct pc as [|x|]; [done| |done]. destruct (decide _) as [Hlt|]; [|done]. intros [= <-]. rewrite El in * by done.
    buffered_fields; [rewrite <- Hf; by rewrite <- app_assoc|by rewrite app_assoc, Hr].
  - destruct pc as [|x|]; [done| |done]. destruct can; [|done]. intros [= <-]. rewrite El in * by done. buffered_fields.
  - destruct (run !! i) as [x|] eqn:E; [|done]. intros [= <-]. buffered_fields.
    + rewrite <- Hr. rewrite <- app_assoc. f_equiv. symmetry. by apply delete_Permutation.
    + rewrite length_delete by done. lia.
Qed.

(** bounded concurrency.  In every interleaving at most [concurrency]
    values are being processed at a time; values are started in the order in
    which they were sent, none twice, and every started value is running or
    finished; the only value that can be lost is the one that [Run] holds when
    the context is cancelled while it waits for the semaphore. *)
Theorem buffered_concurrent_channel capacity concurrency as_ ch :
  run_actions run_step as_ (NewBufferedConcurrentChannel capacity concurrency) = Some ch →
  length (running ch) ≤ concurrency ∧
  c_started ch ++ held ch ++ c_lost ch ++ c_queue ch = c_sent ch ∧
  c_finished ch ++ running ch ≡ₚ c_started ch ∧
  length (c_lost ch) ≤ 1 ∧ (c_lost ch ≠ [] → c_pc ch = RReturned ∧ c_cancelled ch = true).
Proof.
  intros Hr. assert (Hinv : buffered_inv ch ∧ sem ch = concurrency).
  { eapply (run_actions_inv run_step (λ ch, buffered_inv ch ∧ sem ch = concurrency)); [| |exact Hr].
    - intros a s s' [Hi Hs] E. split; [by eapply run_step_inv|]. destruct a; cbn in E; repeat case_match; naive_solver.
    - split; [|done]. unfold NewBufferedConcurrentChannel. buffered_fields. }
  destruct Hinv as [[Hf Hru Hs [Hl Hl'] _] <-]. done.
Qed.

End buffered_laws.

(** ** Witnesses *)

Definition ex_batching : list (batch_action Z) :=
  [BSend 1; BSend 2; BReceive; BReceive; BEmit; BSend 3; BReceive; BConsume; BTick; BEmit; BConsume; BClose]%Z.

Lemma batching_channel_witness :
  ∃ ch, run_actions batch_step ex_batching (NewBatchingChannel 2 2) = Some ch ∧
    b_received ch = [[1; 2]; [3]]%Z ∧ concat (b_received ch) ++ in_flight ch = b_sent ch ∧
    batch_step BReceive ch = Some ch.
Proof.
  eexists. split; [vm_compute; reflexivity|]. split; [vm_compute; reflexivity|].
  match goal with |- concat (b_received ?c) ++ _ = _ ∧ _ =>
    destruct (batching_channel 2 2 ex_batching c eq_refl) as (Hf & _ & _ & Hc) end.
  split; [exact Hf|]. apply Hc; vm_compute; reflexivity.
Defined.

Definition ex_buffered : list (run_action Z) :=
  [CSend 1; CTake; CAcquire; CSend 2; CTake; CCancel; CAcquireFail; CFinish 0]%Z.

Lemma buffered_concurrent_channel_witness :
  ∃ ch, run_actions run_step ex_buffered (NewBufferedConcurrentChannel 1 1) = Some ch ∧
    c_lost ch = [2]%Z ∧ c_pc ch = RReturned ∧ c_finished ch ++ running ch ≡ₚ c_started ch.
Proof.
  eexists. split; [vm_compute; reflexivity|]. split; [vm_compute; reflexivity|].
  match goal with |- c_pc ?c = _ ∧ _ =>
    destruct (buffered_concurrent_channel 1 1 ex_buffered c eq_refl) as (_ & _ & Hp & _ & Hl) end.
  split; [|exact Hp]. apply Hl. vm_compute. discriminate.
Defined.

End Concurrency.
