(* ===== verification/Regex.v ===== *)
(** * Regular expressions

    What the sources use of Go's [regexp]: a parser of the syntax of the
    patterns (literals, escapes, classes, groups, [(?i)], repetition,
    alternation, [^], [$], [\b], [\pL]) and a matcher with the leftmost-first
    choice and the submatches of Go.  Patterns are kept as the text of the
    source and compiled here.  A text is the list of its runes.  Tables of
    [unicode] are an interface, used by [\pL] and the like; case folding is
    that of Go for letters of ASCII, the Kelvin sign and the long s included.

    The theorems relate the matcher to a relation that says which parts of a
    text a pattern matches: the matcher finds a match exactly when there is
    one, and what it finds is one. *)
From S2P Require Import Prelude Protocol Lexer Metainfo.
From stdpp Require Import list strings sets.
From Stdlib Require Import ZArith Lia.

(** A table of [unicode], by its name. *)
Class UnicodeTables := { table_has : string → Z → bool }.

Module Regex.
Import Protocol Metainfo.

(** ** Syntax *)

Inductive item :=
| Range (lo hi : Z)
| Table (name : string) (inside : bool).

Inductive regex :=
| Empty
| Class_ (fold negated : bool) (items : list item)
| AnyNotNL
| Seq (a b : regex)
| Alt (a b : regex)
| Star (greedy : bool) (a : regex)
| Cap (n : nat) (a : regex)
| BeginText
| EndText
| WordBoundary (inside : bool).

(** The other runes of the case-folding orbit of a rune. *)
Definition orbit (r : Z) : list Z :=
  if (r =? 8490)%Z then [75; 107]%Z
  else if (r =? 383)%Z then [83; 115]%Z
  else (if ascii_lower r then [r - 32]%Z else if ascii_upper r then [r + 32]%Z else [])
       ++ (if ((r =? 75) || (r =? 107))%Z then [8490]%Z else [])
       ++ (if ((r =? 83) || (r =? 115))%Z then [383]%Z else []).

Section runes.
Context `{UnicodeTables}.

Definition item_has (r : Z) (i : item) : bool :=
  match i with
  | Range lo hi => in_range r lo hi
  | Table name inside => eqb inside (table_has name r)
  end.

Definition class_has (fold negated : bool) (items : list item) (r : Z) : bool :=
  let found c := existsb (item_has c) items in
  xorb negated (found r || (fold && existsb found (orbit r))).

End runes.

(** The word characters of [\w] and [\b]: ASCII only. *)
Definition word_items : list item := [Range 48 57; Range 65 90; Range 95 95; Range 97 122].
Definition digit_items : list item := [Range 48 57].
Definition space_items : list item := [Range 9 10; Range 12 13; Range 32 32].
Definition is_word (r : Z) : bool := ascii_digit r || ascii_upper r || ascii_lower r || (r =? 95)%Z.

(** ** The parser *)

(** A literal, in the case mode in force. *)
Definition literal (fold : bool) (r : Z) : regex := Class_ fold false [Range r r].

Definition opt (greedy : bool) (r : regex) : regex := if greedy then Alt r Empty else Alt Empty r.

(** [r{m,n}], with [None] for no upper bound. *)
Fixpoint repeat_exact (n : nat) (r : regex) : regex :=
  match n with O => Empty | S n => Seq r (repeat_exact n r) end.
Fixpoint repeat_upto (greedy : bool) (n : nat) (r : regex) : regex :=
  match n with O => Empty | S n => opt greedy (Seq r (repeat_upto greedy n r)) end.
Definition repeat (greedy : bool) (m : nat) (n : option nat) (r : regex) : regex :=
  match n with
  | None => Seq (repeat_exact m r) (Star greedy r)
  | Some n => Seq (repeat_exact m r) (repeat_upto greedy (n - m) r)
  end.

(** A decimal number and what follows it. *)
Definition number (s : runes) : option (nat * runes) :=
  match Lexer.span ascii_digit s with
  | ([], _) => None
  | (ds, rest) => Some (Z.to_nat (Lexer.digits_value ds), rest)
  end.

(** The bounds of [{m}], [{m,}] or [{m,n}], after the brace. *)
Definition bounds (s : runes) : option (nat * option nat * runes) :=
  match number s with
  | Some (m, 125 :: rest)%Z => Some (m, Some m, rest)
  | Some (m, 44 :: 125 :: rest)%Z => Some (m, None, rest)
  | Some (m, 44 :: rest)%Z =>
      match number rest with
      | Some (n, 125 :: rest)%Z => if n <? m then None else Some (m, Some n, rest)
      | _ => None
      end
  | _ => None
  end.

(** A repetition operator after an atom; a second operator is an error in Go
    and is not looked for here. *)
Definition lazy_mark (s : runes) : bool * runes :=
  match s with (63 :: rest)%Z => (false, rest) | _ => (true, s) end.

Definition repetition (a : regex) (s : runes) : regex * runes :=
  match s with
  | (42 :: rest)%Z => let '(g, rest) := lazy_mark rest in (Star g a, rest)
  | (43 :: rest)%Z => let '(g, rest) := lazy_mark rest in (Seq a (Star g a), rest)
  | (63 :: rest)%Z => let '(g, rest) := lazy_mark rest in (opt g a, rest)
  | (123 :: rest)%Z =>
      match bounds rest with
      | Some (m, n, rest) => let '(g, rest) := lazy_mark rest in (repeat g m n a, rest)
      | None => (a, s)
      end
  | _ => (a, s)
  end.

(** A table name after [\p]: one letter or braces. *)
Definition string_of (l : runes) : string :=
  String.string_of_list_ascii ((λ c, Ascii.ascii_of_N (Z.to_N c)) <$> l).
Definition table_name (s : runes) : option (string * runes) :=
  match s with
  | (123 :: rest)%Z =>
      let '(name, rest) := Lexer.span (λ c, negb (c =? 125)%Z) rest in
      match rest with (125 :: rest)%Z => Some (string_of name, rest) | _ => None end
  | c :: rest => Some (string_of [c], rest)
  | [] => None
  end.

(** Any other character of ASCII may be escaped; letters and digits have
    meanings of their own. *)
Definition escapable (c : Z) : bool :=
  ((0 <=? c) && (c <? 128))%Z && negb (ascii_digit c || ascii_upper c || ascii_lower c).

(** What an escape stands for inside or outside a class. *)
Inductive escape := EItems (negated : bool) (items : list item) | EBoundary (inside : bool).
Definition parse_escape (s : runes) : option (escape * runes) :=
  match s with
  | (100 :: rest)%Z => Some (EItems false digit_items, rest)
  | (68 :: rest)%Z => Some (EItems true digit_items, rest)
  | (115 :: rest)%Z => Some (EItems false space_items, rest)
  | (83 :: rest)%Z => Some (EItems true space_items, rest)
  | (119 :: rest)%Z => Some (EItems false word_items, rest)
  | (87 :: rest)%Z => Some (EItems true word_items, rest)
  | (98 :: rest)%Z => Some (EBoundary true, rest)
  | (66 :: rest)%Z => Some (EBoundary false, rest)
  | (110 :: rest)%Z => Some (EItems false [Range 10 10], rest)
  | (114 :: rest)%Z => Some (EItems false [Range 13 13], rest)
  | (116 :: rest)%Z => Some (EItems false [Range 9 9], rest)
  | (102 :: rest)%Z => Some (EItems false [Range 12 12], rest)
  | (118 :: rest)%Z => Some (EItems false [Range 11 11], rest)
  | (112 :: rest)%Z => match table_name rest with Some (t, rest) => Some (EItems false [Table t true], rest) | None => None end
  | (80 :: rest)%Z => match table_name rest with Some (t, rest) => Some (EItems false [Table t false], rest) | None => None end
  | c :: rest => if escapable c then Some (EItems false [Range c c], rest) else None
  | [] => None
  end.

(** The end point of a range in a class. *)
Definition class_char (s : runes) : option (Z * runes) :=
  match s with
  | c :: rest =>
      if (c =? 92)%Z then
        match parse_escape rest with
        | Some (EItems false [Range lo hi], rest) => if (lo =? hi)%Z then Some (lo, rest) else None
        | _ => None
        end
      else Some (c, rest)
  | [] => None
  end.

(** One character or range of a class. *)
Definition class_range (s : runes) : option (item * runes) :=
  match class_char s with
  | None => None
  | Some (lo, rest) =>
      match rest with
      | h :: c :: rest' =>
          if (h =? 45)%Z && negb (c =? 93)%Z then
            match class_char (c :: rest') with
            | Some (hi, rest') => if (hi <? lo)%Z then None else Some (Range lo hi, rest')
            | None => None
            end
          else Some (Range lo lo, rest)
      | _ => Some (Range lo lo, rest)
      end
  end.

(** The items of a class up to its bracket; a bracket that comes first is a
    member.  A complemented escape inside a class is refused. *)
Fixpoint class_items (fuel : nat) (first : bool) (acc : list item) (s : runes) : option (list item * runes) :=
  match fuel with
  | O => None
  | S fuel =>
      match s with
      | [] => None
      | c :: rest =>
          if (c =? 93)%Z && negb first then Some (acc, rest)
          else match class_range s with
               | Some (i, rest') => class_items fuel false (acc ++ [i]) rest'
               | None =>
                   match (if (c =? 92)%Z then parse_escape rest else None) with
                   | Some (EItems false items, rest') => class_items fuel false (acc ++ items) rest'
                   | _ => None
                   end
               end
      end
  end.

Definition parse_class (fold : bool) (s : runes) : option (regex * runes) :=
  let negated := match s with c :: _ => (c =? 94)%Z | [] => false end in
  let s := if negated then tail s else s in
  match class_items (S (length s)) true [] s with
  | Some (items, rest) => Some (Class_ fold negated items, rest)
  | None => None
  end.

(** The mode of the parser: the case mode and the number of the next group. *)
Record mode := mkMode { m_fold : bool; m_next : nat }.

(** [parse_alt] reads alternatives up to a closing parenthesis or the end.
    [acc] is what was read of the current alternative and [alts] holds the
    alternatives before it, the last first. *)
Fixpoint parse_alt (fuel : nat) (m : mode) (alts : list regex) (acc : regex) (s : runes)
  : option (regex * mode * runes) :=
  match fuel with
  | O => None
  | S fuel =>
      let finish rest := Some (foldl (λ b a, Alt a b) acc alts, m, rest) in
      let atom a m rest := let '(a, rest) := repetition a rest in parse_alt fuel m alts (Seq acc a) rest in
      match s with
      | [] | (41 :: _)%Z => finish s
      | (124 :: rest)%Z => parse_alt fuel m (acc :: alts) Empty rest
      | (40 :: 63 :: 105 :: 41 :: rest)%Z => parse_alt fuel (mkMode true (m_next m)) alts acc rest
      | (40 :: 63 :: 58 :: rest)%Z =>
          match parse_alt fuel m [] Empty rest with
          | Some (a, m', 41 :: rest)%Z => atom a (mkMode (m_fold m) (m_next m')) rest
          | _ => None
          end
      | (40 :: 63 :: _)%Z => None
      | (40 :: rest)%Z =>
          match parse_alt fuel (mkMode (m_fold m) (S (m_next m))) [] Empty rest with
          | Some (a, m', 41 :: rest)%Z => atom (Cap (m_next m) a) (mkMode (m_fold m) (m_next m')) rest
          | _ => None
          end
      | (91 :: rest)%Z =>
          match parse_class (m_fold m) rest with Some (a, rest) => atom a m rest | None => None end
      | (46 :: rest)%Z => atom AnyNotNL m rest
      | (94 :: rest)%Z => atom BeginText m rest
      | (36 :: rest)%Z => atom EndText m rest
      | (92 :: rest)%Z =>
          match parse_escape rest with
          | Some (EItems neg items, rest) => atom (Class_ (m_fold m) neg items) m rest
          | Some (EBoundary inside, rest) => atom (WordBoundary inside) m rest
          | None => None
          end
      | c :: rest =>
          if ((c =? 42) || (c =? 43) || (c =? 63))%Z then None else atom (literal (m_fold m) c) m rest
      end
  end.

Record regexp := mkRegexp { prog : regex; groups : nat }.

(** [regexp.Compile] *)
Definition Compile (pattern : runes) : option regexp :=
  match parse_alt (2 * length pattern + 2) (mkMode false 1) [] Empty pattern with
  | Some (r, m, []) => Some (mkRegexp r (m_next m - 1))
  | _ => None
  end.

(** [regexp.MustCompile], at a pattern written in the source: a pattern that
    does not compile panics when the program starts. *)
Definition never : regexp := mkRegexp (Class_ false false []) 0.
Definition MustCompile (pattern : string) : regexp :=
  default never (Compile (range_runes (string_bytes pattern))).

(** ** Matching *)

(** A point in a text: how many runes were read, the last of them, what is
    left, and the groups matched so far, the last first. *)
Record point := mkPoint { at_ : nat; before : option Z; left : runes; caps : list (nat * (nat * nat)) }.

Definition word_at (o : option Z) : bool := match o with Some r => is_word r | None => false end.
Definition boundary (p : point) : bool := xorb (word_at (before p)) (word_at (head (left p))).

Definition advance (p : point) (r : Z) (rest : runes) : point := mkPoint (S (at_ p)) (Some r) rest (caps p).
Definition capture (n start : nat) (p : point) : point :=
  mkPoint (at_ p) (before p) (left p) ((n, (start, at_ p)) :: caps p).

Section matching.
Context `{UnicodeTables}.

Definition one (f : Z → bool) (p : point) : option point :=
  match left p with r :: rest => if f r then Some (advance p r rest) else None | [] => None end.

Definition choice {R} (a b : option R) : option R := match a with Some x => Some x | None => b end.

Section star.
Context {R : Type} (body : point → (point → option R) → option R) (greedy : bool) (k : point → option R).
Fixpoint star_loop (fuel : nat) (p : point) : option R :=
  match fuel with
  | O => k p
  | S fuel =>
      let more := body p (λ q, if length (left q) <? length (left p) then star_loop fuel q else None) in
      if greedy then choice more (k p) else choice (k p) more
  end.
End star.

(** [run r p k] is the answer of [k] at the end of the first match of [r] at
    [p] for which [k] has one.  Repetition stops at an iteration that reads
    nothing. *)
Fixpoint run {R} (r : regex) (p : point) (k : point → option R) : option R :=
  match r with
  | Empty => k p
  | Class_ fold neg items => match one (class_has fold neg items) p with Some q => k q | None => None end
  | AnyNotNL => match one (λ c, negb (c =? 10)%Z) p with Some q => k q | None => None end
  | Seq a b => run a p (λ q, run b q k)
  | Alt a b => choice (run a p k) (run b p k)
  | Star greedy a => star_loop (run a) greedy k (S (length (left p))) p
  | Cap n a => run a p (λ q, k (capture n (at_ p) q))
  | BeginText => match before p with None => k p | Some _ => None end
  | EndText => match left p with [] => k p | _ :: _ => None end
  | WordBoundary inside => if eqb inside (boundary p) then k p else None
  end.

(** The points of a text, from the left. *)
Fixpoint points (i : nat) (prev : option Z) (s : runes) : list point :=
  mkPoint i prev s [] :: match s with r :: s' => points (S i) (Some r) s' | [] => [] end.

Fixpoint first_match (r : regex) (ps : list point) : option (nat * point) :=
  match ps with
  | [] => None
  | p :: ps => choice ((λ q, (at_ p, q)) <$> run r p Some) (first_match r ps)
  end.

(** The last span recorded for a group. *)
Definition span_of (q : point) (n : nat) : option (nat * nat) :=
  (λ c, c.2.2) <$> list_find (λ c, c.1 = n) (caps q).

(** The extent of the leftmost match and its groups. *)
Definition find (re : regexp) (s : runes) : option (nat * nat * list (option (nat * nat))) :=
  match first_match (prog re) (points 0 None s) with
  | None => None
  | Some (i, q) =>
      Some (i, at_ q, span_of q <$> seq 1 (groups re))
  end.

Definition extract (s : runes) (i j : nat) : runes := take (j - i) (drop i s).

(** [MatchString], [FindStringIndex] and [FindStringSubmatch]; a group that
    took no part is the empty string. *)
Definition MatchString (re : regexp) (s : runes) : bool := bool_decide (is_Some (find re s)).
Definition FindIndex (re : regexp) (s : runes) : option (nat * nat) := fst <$> find re s.
Definition FindStringSubmatch (re : regexp) (s : runes) : option (list runes) :=
  match find re s with
  | None => None
  | Some (i, j, gs) =>
      Some (extract s i j :: ((λ g, match g with Some (a, b) => extract s a b | None => [] end) <$> gs))
  end.

(** The search from position [pos] on; the runes before it stay visible to
    [^] and [\b]. *)
Definition find_from (re : regexp) (s : runes) (pos : nat) : option (nat * nat * list (option (nat * nat))) :=
  match first_match (prog re) (drop pos (points 0 None s)) with
  | None => None
  | Some (i, q) => Some (i, at_ q, span_of q <$> seq 1 (groups re))
  end.

(** [FindAll]: successive matches that do not overlap; an empty match right
    after another is not reported.  Each turn moves [pos] forward, so one turn
    for each position is enough. *)
Fixpoint find_all (fuel : nat) (re : regexp) (s : runes) (pos : nat) (prevEnd : option nat)
  : list (nat * nat * list (option (nat * nat))) :=
  match fuel with
  | O => []
  | S fuel =>
      if length s <? pos then []
      else
        match find_from re s pos with
        | None => []
        | Some (i, j, gs) =>
            if j =? pos then
              (if bool_decide (prevEnd = Some i) then [] else [(i, j, gs)])
              ++ find_all fuel re s (S pos) (Some j)
            else (i, j, gs) :: find_all fuel re s j (Some j)
        end
  end.
Definition FindAllIndex (re : regexp) (s : runes) : list (nat * nat * list (option (nat * nat))) :=
  find_all (2 + length s) re s 0 None.

Definition group_text (s : runes) (g : option (nat * nat)) : runes :=
  match g with Some (a, b) => extract s a b | None => [] end.
Definition FindAllStringSubmatch (re : regexp) (s : runes) : list (list runes) :=
  (λ m, extract s m.1.1 m.1.2 :: (group_text s <$> m.2)) <$> FindAllIndex re s.

(** [ReplaceAllString] for a replacement without [$]. *)
Fixpoint replace_all (fuel : nat) (re : regexp) (s repl : runes) (pos lastEnd : nat) : runes :=
  match fuel with
  | O => drop lastEnd s
  | S fuel =>
      if length s <? pos then drop lastEnd s
      else
        match find_from re s pos with
        | None => drop lastEnd s
        | Some (i, j, _) =>
            extract s lastEnd i
            ++ (if (lastEnd <? j) || (i =? 0) then repl else [])
            ++ replace_all fuel re s repl (if j <? S pos then S pos else j) j
        end
  end.
Definition ReplaceAllString (re : regexp) (s repl : runes) : runes :=
  replace_all (2 + length s) re s repl 0 0.

End matching.

(** ** The relation a pattern denotes *)

Section semantics.
Context `{UnicodeTables}.

(** [matches r p q]: read from [p], [r] may end at [q]. *)
Inductive matches : regex → point → point → Prop :=
| m_empty p : matches Empty p p
| m_class fold neg items p r rest :
    left p = r :: rest → class_has fold neg items r = true →
    matches (Class_ fold neg items) p (advance p r rest)
| m_any p r rest : left p = r :: rest → r ≠ 10%Z → matches AnyNotNL p (advance p r rest)
| m_seq a b p q q' : matches a p q → matches b q q' → matches (Seq a b) p q'
| m_alt_l a b p q : matches a p q → matches (Alt a b) p q
| m_alt_r a b p q : matches b p q → matches (Alt a b) p q
| m_star_nil g a p : matches (Star g a) p p
| m_star_more g a p q q' :
    matches a p q → length (left q) < length (left p) → matches (Star g a) q q' →
    matches (Star g a) p q'
| m_cap n a p q : matches a p q → matches (Cap n a) p (capture n (at_ p) q)
| m_begin p : before p = None → matches BeginText p p
| m_end p : left p = [] → matches EndText p p
| m_word inside p : boundary p = inside → matches (WordBoundary inside) p p.

#[local] Hint Constructors matches : core.

Lemma choice_Some {R} (a b : option R) x : choice a b = Some x → a = Some x ∨ b = Some x.
Proof. destruct a; simpl; auto. Qed.

Lemma choice_is_Some {R} (a b : option R) : is_Some a ∨ is_Some b → is_Some (choice a b).
Proof. destruct a; simpl; [eauto|]. intros [[? [=]] | ?]; done. Qed.

Lemma one_Some f p q :
  one f p = Some q → ∃ r rest, left p = r :: rest ∧ f r = true ∧ q = advance p r rest.
Proof. unfold one. destruct (left p) as [|r rest]; [done|]. destruct (f r) eqn:?; intros; simplify_eq; eauto. Qed.

(** What the matcher answers comes from a match. *)
Lemma star_sound {R} g a (k : point → option R) fuel :
  (∀ p k x, run (R:=R) a p k = Some x → ∃ q, matches a p q ∧ k q = Some x) →
  ∀ p x, star_loop (run a) g k fuel p = Some x → ∃ q, matches (Star g a) p q ∧ k q = Some x.
Proof.
  intros IH. induction fuel as [|fuel IHf]; simpl; intros p x Hx; [eauto|].
  assert (k p = Some x ∨ run a p (λ q, if length (left q) <? length (left p)
            then star_loop (run a) g k fuel q else None) = Some x) as [Hk | Hmore].
  { destruct g; apply choice_Some in Hx; tauto. }
  - eauto.
  - apply IH in Hmore as (q & Hm & Hq). destruct (Nat.ltb_spec (length (left q)) (length (left p))); [|done].
    apply IHf in Hq as (q' & Hs & Hk). eauto.
Qed.

Lemma run_sound {R} r : ∀ p (k : point → option R) x,
  run r p k = Some x → ∃ q, matches r p q ∧ k q = Some x.
Proof.
  induction r as [|fold neg items| |a IHa b IHb|a IHa b IHb|g a IHa|n a IHa| | |inside];
    cbn [run]; intros p k x Hx; eauto.
  - destruct (one _ p) eqn:Ho; [|done]. apply one_Some in Ho as (c & rest & ? & ? & ->). eauto.
  - destruct (one _ p) eqn:Ho; [|done]. apply one_Some in Ho as (c & rest & ? & Hc & ->).
    bool_hyps. eauto.
  - apply IHa in Hx as (q & Ha & Hx). apply IHb in Hx as (q' & Hb & Hx). eauto.
  - apply choice_Some in Hx as [Hx | Hx]; [apply IHa in Hx|apply IHb in Hx]; naive_solver.
  - eapply star_sound in Hx as (q & ? & ?); [|exact IHa]. eauto.
  - apply IHa in Hx as (q & Ha & Hx). eauto.
  - destruct (before p) eqn:?; [done|]. eauto.
  - destruct (left p) eqn:?; [|done]. eauto.
  - destruct (eqb inside (boundary p)) eqn:He; [|done]. apply eqb_prop in He. eauto.
Qed.

(** Where there is a match the continuation accepts, the matcher answers. *)
Lemma star_complete {R} g a (k : point → option R) q :
  (∀ p q k, matches a p q → is_Some (k q) → is_Some (run (R:=R) a p k)) → is_Some (k q) →
  ∀ fuel p, matches (Star g a) p q → length (left p) < fuel → is_Some (star_loop (run a) g k fuel p).
Proof.
  intros IH Hk. induction fuel as [|fuel IHf]; intros p Hm Hl; [lia|]. simpl.
  inversion Hm; subst.
  - destruct g; apply choice_is_Some; auto.
  - match goal with H1 : matches a p ?q1, H2 : matches (Star g a) ?q1 q |- _ =>
      assert (is_Some (run a p (λ q, if length (left q) <? length (left p)
            then star_loop (run a) g k fuel q else None))) by
        (eapply IH; [exact H1|]; destruct (Nat.ltb_spec (length (left q1)) (length (left p))); [|lia];
         apply IHf; [exact H2|lia])
    end.
    destruct g; apply choice_is_Some; auto.
Qed.

Lemma run_complete {R} r : ∀ p q (k : point → option R),
  matches r p q → is_Some (k q) → is_Some (run r p k).
Proof.
  induction r as [|fold neg items| |a IHa b IHb|a IHa b IHb|g a IHa|n a IHa| | |inside];
    cbn [run]; intros p q k Hm Hk;
    try (eapply star_complete; [exact IHa|exact Hk|exact Hm|lia]);
    inversion Hm; subst; unfold one;
    repeat match goal with
    | E : left ?p = _ |- context [left ?p] => rewrite E
    | E : class_has _ _ _ _ = true |- _ => rewrite E
    | E : before ?p = None |- context [before ?p] => rewrite E
    | |- is_Some (choice _ _) => apply choice_is_Some
    | |- context [eqb ?b ?b] => rewrite eqb_reflx
    | E : ?r ≠ 10%Z |- context [(?r =? 10)%Z] => rewrite (proj2 (Z.eqb_neq r 10) E)
    end; eauto.
Qed.

(** ** Leftmost match *)

Lemma first_match_None r ps :
  first_match r ps = None ↔ ∀ p q, p ∈ ps → ¬ matches r p q.
Proof.
  induction ps as [|p ps IH]; simpl.
  - split; [|done]. intros _ p q Hp. by apply elem_of_nil in Hp.
  - destruct (run r p Some) as [q|] eqn:Hr; simpl.
    + split; [done|]. intros Hn. apply run_sound in Hr as (q' & Hm & _).
      by destruct (Hn p q' (list_elem_of_here _ _)).
    + rewrite IH. split.
      * intros Hn p' q Hp. apply elem_of_cons in Hp as [-> | Hp]; [|by apply Hn].
        intros Hm. apply (run_complete _ _ _ Some) in Hm as [? Hs]; [|by eexists]. congruence.
      * intros Hn p' q Hp. apply Hn. by apply list_elem_of_further.
Qed.

Lemma first_match_Some r ps i q :
  first_match r ps = Some (i, q) →
  ∃ ps1 p ps2, ps = ps1 ++ p :: ps2 ∧ at_ p = i ∧ matches r p q ∧ (∀ p' q', p' ∈ ps1 → ¬ matches r p' q').
Proof.
  induction ps as [|p ps IH]; simpl; [done|].
  destruct (run r p Some) as [q0|] eqn:Hr; simpl.
  - intros [= <- <-]. apply run_sound in Hr as (q' & Hm & [= <-]).
    exists [], p, ps. split_and!; try done. intros p' ? Hp. by apply elem_of_nil in Hp.
  - intros Hs. apply IH in Hs as (ps1 & p0 & ps2 & -> & Hi & Hm & Hn).
    exists (p :: ps1), p0, ps2. split_and!; try done.
    intros p' q' Hp Hm'. apply elem_of_cons in Hp as [-> | Hp]; [|by eapply Hn].
    apply (run_complete _ _ _ Some) in Hm' as [? Hs]; [|by eexists]. congruence.
Qed.

(** A point of a text splits it. *)
Definition point_of (s : runes) (p : point) : Prop :=
  at_ p + length (left p) = length s ∧ left p = drop (at_ p) s.

Lemma points_of (s pre : runes) prev p :
  p ∈ points (length pre) prev s → point_of (pre ++ s) p.
Proof.
  revert pre prev. induction s as [|r s IH]; simpl; intros pre prev Hp;
    apply elem_of_cons in Hp as [-> | Hp].
  - unfold point_of; simpl. rewrite app_nil_r, drop_all. simpl. split; [lia|done].
  - by apply elem_of_nil in Hp.
  - unfold point_of; simpl. rewrite length_app, drop_app_length. simpl. split; [lia|done].
  - specialize (IH (pre ++ [r]) (Some r)). rewrite <-app_assoc in IH. apply IH.
    rewrite length_app. simpl. by rewrite Nat.add_1_r.
Qed.

(** A match moves forward in the same text. *)
Lemma matches_forward r p q s : matches r p q → point_of s p → point_of s q ∧ at_ p ≤ at_ q.
Proof.
  assert (∀ p c rest, left p = c :: rest → point_of s p → point_of s (advance p c rest)) as Hadv.
  { intros p' c rest Hl [H1 H2]. unfold point_of; simpl. rewrite Hl in H1. simpl in H1. split; [lia|].
    rewrite Hl in H2. apply (f_equal (drop 1)) in H2. rewrite drop_drop in H2. simpl in H2.
    by rewrite Nat.add_1_r in H2. }
  induction 1; intros Hp; simpl; eauto; try (split; [by apply Hadv|simpl; lia]).
  - destruct IHmatches1 as [? ?]; [done|]. destruct IHmatches2 as [? ?]; [done|]. split; [done|lia].
  - destruct IHmatches1 as [? ?]; [done|]. destruct IHmatches2 as [? ?]; [done|]. split; [done|lia].
Qed.

(** ** What a match reads *)

(** [reads p u q]: [u] is what lies between [p] and [q]. *)
Inductive reads : point → runes → point → Prop :=
| reads_nil p : reads p [] p
| reads_cons p r u rest q : left p = r :: rest → reads (advance p r rest) u q → reads p (r :: u) q.

#[local] Hint Constructors reads : core.

Definition start (s : runes) : point := mkPoint 0 None s [].

Lemma reads_app p u v q' : reads p (u ++ v) q' ↔ ∃ q, reads p u q ∧ reads q v q'.
Proof.
  revert p. induction u as [|r u IH]; intros p; simpl.
  - split; [eauto|]. intros (q & Hu & Hv). by inversion Hu; subst.
  - split.
    + intros Hr. inversion Hr as [|????? Hl Hr']; subst. apply IH in Hr' as (q & ? & ?). eauto.
    + intros (q & Hu & Hv). inversion Hu; subst. econstructor; [done|]. apply IH. eauto.
Qed.

Lemma reads_left p u q : reads p u q → left p = u ++ left q.
Proof. induction 1 as [|p r u rest q Hl Hr IH]; [done|]. rewrite Hl. simpl. by rewrite <-IH. Qed.

Lemma reads_exists p u rest : left p = u ++ rest → ∃ q, reads p u q ∧ left q = rest.
Proof.
  revert p. induction u as [|r u IH]; intros p Hl; [by exists p|]. simpl in Hl.
  destruct (IH (advance p r (u ++ rest))) as (q & Hr & Hq); [done|]. eauto.
Qed.

Lemma reads_before p u q :
  reads p u q → before q = match last u with Some c => Some c | None => before p end.
Proof.
  induction 1 as [|p r u rest q Hl Hr IH]; [done|]. rewrite IH, last_cons. by destruct (last u).
Qed.

(** The points of a text are where its prefixes end. *)
Lemma points_reads i prev s p :
  p ∈ points i prev s ↔ ∃ u, reads (mkPoint i prev s []) u p.
Proof.
  revert i prev. induction s as [|r s IH]; intros i prev; cbn [points]; rewrite elem_of_cons.
  - split; [intros [-> | Hp]; [eauto|by apply elem_of_nil in Hp]|].
    intros (u & Hu). inversion Hu; [by left|done].
  - rewrite IH. split; [intros [-> | (u & Hu)]; eauto|].
    intros (u & Hu). inversion Hu; subst; [by left|]. simpl in *. simplify_eq. right. eauto.
Qed.

Lemma matches_class fold neg items p q :
  matches (Class_ fold neg items) p q ↔ ∃ r, reads p [r] q ∧ class_has fold neg items r = true.
Proof.
  split.
  - inversion 1; subst. eauto.
  - intros (r & Hr & Hc). inversion Hr as [|????? Hl Hr']; subst. inversion Hr'; subst. eauto.
Qed.

Lemma matches_class_star g fold neg items p q :
  matches (Star g (Class_ fold neg items)) p q
  ↔ ∃ u, reads p u q ∧ Forall (λ r, class_has fold neg items r = true) u.
Proof.
  split.
  - remember (Star g (Class_ fold neg items)) as st eqn:Hst. intros Hm.
    induction Hm; simplify_eq; [eauto|].
    apply matches_class in Hm1 as (r & Hr & Hc). destruct IHHm2 as (u & Hu & Hall); [done|].
    exists (r :: u). split; [|by constructor]. apply (reads_app _ [r]). eauto.
  - intros (u & Hu & Hall). induction Hu as [|p r u rest q Hl Hu IH]; [constructor|].
    inversion Hall; subst. eapply m_star_more; [by constructor| |by apply IH].
    simpl. rewrite Hl. simpl. lia.
Qed.

(** A pattern without groups reads a part of a text. *)
Lemma MatchString_reads re s :
  MatchString re s = true ↔ ∃ u p q, reads (start s) u p ∧ matches (prog re) p q.
Proof.
  unfold MatchString. rewrite bool_decide_eq_true. unfold find.
  transitivity (∃ p q, p ∈ points 0 None s ∧ matches (prog re) p q).
  - destruct (first_match _ _) as [[i q]|] eqn:Hf.
    + split; [|by eexists]. intros _. apply first_match_Some in Hf as (ps1 & p & ps2 & -> & _ & Hm & _).
      exists p, q. split; [|done]. set_solver.
    + rewrite first_match_None in Hf. split; [by intros [? ?]|]. intros (p & q & Hp & Hm). by destruct (Hf p q).
  - setoid_rewrite points_reads. split; [intros (p & q & (u & Hu) & Hm)|intros (u & p & q & Hu & Hm)]; eauto 10.
Qed.

(** A pattern that is one class matches a text with a member of it. *)
Lemma MatchString_class fold neg items n s :
  MatchString (mkRegexp (Seq Empty (Class_ fold neg items)) n) s = existsb (class_has fold neg items) s.
Proof.
  apply eq_true_iff_eq. rewrite MatchString_reads. cbn [prog]. rewrite existsb_exists. split.
  - intros (u & p & q & Hu & Hm). inversion Hm as [| | |a b ? q1 ? Ha Hb| | | | | | | |]; subst.
    inversion Ha; subst. apply matches_class in Hb as (r & Hr & Hc). exists r. split; [|done].
    apply reads_left in Hu, Hr. cbn in Hu. rewrite Hu, Hr. apply in_app_iff. right. by left.
  - intros (r & (l1 & l2 & ->)%in_split & Hc).
    destruct (reads_exists (start (l1 ++ r :: l2)) l1 (r :: l2) eq_refl) as (p & Hp & Hl).
    destruct (reads_exists p [r] l2 Hl) as (q & Hq & _).
    exists l1, p, q. split; [done|]. econstructor; [constructor|]. apply matches_class. eauto.
Qed.

(** The points are numbered from the left. *)
Lemma points_at i prev s : at_ <$> points i prev s = seq i (S (length s)).
Proof.
  revert i prev. induction s as [|r s IH]; intros i prev; [done|].
  change (i :: (at_ <$> points (S i) (Some r) s) = i :: seq (S i) (S (length s))). by rewrite IH.
Qed.

Lemma points_before s ps1 p ps2 p' :
  points 0 None s = ps1 ++ p :: ps2 → p' ∈ points 0 None s → at_ p' < at_ p → p' ∈ ps1.
Proof.
  intros Hps [k Hk]%list_elem_of_lookup_1 Hlt.
  assert (∀ n x, points 0 None s !! n = Some x → at_ x = n) as Hat.
  { intros n x Hx. pose proof (points_at 0 None s) as Ha. apply (f_equal (.!! n)) in Ha.
    rewrite list_lookup_fmap, Hx in Ha. symmetry in Ha. apply lookup_seq in Ha. lia. }
  pose proof (Hat _ _ Hk) as Hk'.
  assert (points 0 None s !! length ps1 = Some p) as Hp by (rewrite Hps; by apply list_lookup_middle).
  apply Hat in Hp. rewrite Hps, lookup_app_l in Hk by lia. by eapply list_elem_of_lookup_2.
Qed.

(** A compiled pattern matches a text exactly when the relation the pattern denotes holds at some point of the text, and the extent that the search reports starts at the leftmost such point, ends no earlier than it starts and stays inside the text. *)
Theorem regex_find_leftmost re s :
  (MatchString re s = true ↔ ∃ p q, p ∈ points 0 None s ∧ matches (prog re) p q)
  ∧ (∀ i j, FindIndex re s = Some (i, j) →
       i ≤ j ≤ length s
       ∧ (∃ p q, p ∈ points 0 None s ∧ at_ p = i ∧ at_ q = j ∧ matches (prog re) p q)
       ∧ ∀ p q, p ∈ points 0 None s → at_ p < i → ¬ matches (prog re) p q).
Proof.
  split.
  - rewrite MatchString_reads. setoid_rewrite points_reads.
    split; [intros (u & p & q & Hu & Hm)|intros (p & q & (u & Hu) & Hm)]; eauto 10.
  - intros i j. unfold FindIndex, find. destruct (first_match _ _) as [[i0 q]|] eqn:Hf; [|done].
    intros [= -> <-]. apply first_match_Some in Hf as (ps1 & p & ps2 & Hps & Hi & Hm & Hn).
    assert (p ∈ points 0 None s) as Hp by (rewrite Hps; set_solver).
    assert (point_of s p) as Hpo by (apply (points_of s [] None); done).
    destruct (matches_forward _ _ _ _ Hm Hpo) as [[Hq _] ?]. subst i.
    split_and!; [done|lia|by eauto 10|].
    intros p' q' Hp' Hlt. apply Hn. by eapply points_before.
Qed.

(** ** Searches and groups *)

Lemma points_caps i prev s p : p ∈ points i prev s → caps p = [].
Proof.
  revert i prev. induction s as [|r s IH]; simpl; intros i prev Hp; apply elem_of_cons in Hp as [-> | Hp]; [done| |done|by eauto].
  by apply not_elem_of_nil in Hp.
Qed.

(** What a search answers: a match at a point of the text. *)
Definition found (re : regexp) (s : runes) (m : nat * nat * list (option (nat * nat))) : Prop :=
  ∃ p q, p ∈ points 0 None s ∧ matches (prog re) p q ∧ m = (at_ p, at_ q, span_of q <$> seq 1 (groups re)).

Lemma find_from_found re s pos i j gs :
  find_from re s pos = Some (i, j, gs) → found re s (i, j, gs) ∧ pos ≤ i ≤ j ≤ length s.
Proof.
  unfold find_from. destruct (first_match _ _) as [[i0 q]|] eqn:Hf; [|done].
  intros [= -> <- <-]. apply first_match_Some in Hf as (ps1 & p & ps2 & Hps & Hi & Hm & _).
  assert (p ∈ drop pos (points 0 None s)) as Hp by (rewrite Hps; set_solver).
  apply list_elem_of_lookup in Hp as [k Hk]. rewrite lookup_drop in Hk.
  assert (at_ p = pos + k) as Hat.
  { pose proof (f_equal (.!! (pos + k)) (points_at 0 None s)) as He.
    rewrite list_lookup_fmap, Hk, lookup_seq_lt in He
      by (apply lookup_lt_Some in Hk; rewrite <-(length_fmap at_), points_at, length_seq in Hk; done).
    simpl in He. congruence. }
  apply list_elem_of_lookup_2 in Hk.
  destruct (matches_forward _ _ _ s Hm) as [[Hq _] ?]; [by apply (points_of s [] None)|].
  split; [exists p, q; by rewrite <-Hi|]. lia.
Qed.

Lemma find_found re s i j gs : find re s = Some (i, j, gs) → found re s (i, j, gs).
Proof. intros Hf. apply (find_from_found re s 0), Hf. Qed.

Lemma find_all_found re s fuel : ∀ pos prev m, m ∈ find_all fuel re s pos prev → found re s m.
Proof.
  induction fuel as [|fuel IH]; simpl; intros pos prev m; [by intros ?%not_elem_of_nil|].
  destruct (length s <? pos)%nat; [by intros ?%not_elem_of_nil|].
  destruct (find_from re s pos) as [[[i j] gs]|] eqn:Hf; [|by intros ?%not_elem_of_nil].
  apply find_from_found in Hf as [Hf _].
  destruct (j =? pos)%nat.
  - rewrite elem_of_app. intros [Hm | Hm]; [|by eauto]. case_bool_decide; set_solver.
  - rewrite elem_of_cons. intros [-> | Hm]; eauto.
Qed.

Lemma FindAllIndex_found re s m : m ∈ FindAllIndex re s → found re s m.
Proof. apply find_all_found. Qed.

Lemma matches_empty p q : matches Empty p q ↔ q = p.
Proof. split; [by inversion 1|intros ->; constructor]. Qed.
Lemma matches_seq a b p q' : matches (Seq a b) p q' ↔ ∃ q, matches a p q ∧ matches b q q'.
Proof. split; [inversion 1; eauto|intros (q & ? & ?); by econstructor]. Qed.
Lemma matches_alt a b p q : matches (Alt a b) p q ↔ matches a p q ∨ matches b p q.
Proof. split; [inversion 1; auto|intros [? | ?]; [by apply m_alt_l|by apply m_alt_r]]. Qed.
Lemma matches_cap n a p q : matches (Cap n a) p q ↔ ∃ q0, matches a p q0 ∧ q = capture n (at_ p) q0.
Proof. split; [inversion 1; eauto|intros (q0 & ? & ->); by constructor]. Qed.

(** A class repeated between [m] and [n] times. *)
Lemma matches_repeat_class g fold neg items m n p q :
  m ≤ n → matches (repeat g m (Some n) (Class_ fold neg items)) p q →
  ∃ u, reads p u q ∧ m ≤ length u ≤ n ∧ Forall (λ r, class_has fold neg items r = true) u.
Proof.
  intros Hmn (q1 & H1 & H2)%matches_seq.
  assert (∃ u, reads p u q1 ∧ length u = m ∧ Forall (λ r, class_has fold neg items r = true) u) as (u & Hu & Hlu & Fu).
  { clear Hmn H2. revert p H1. induction m as [|m IH]; simpl; intros p H1.
    - apply matches_empty in H1 as ->. by exists [].
    - apply matches_seq in H1 as (p' & (r & Hr & Ec)%matches_class & H1).
      destruct (IH p' H1) as (u & Hu & <- & Fu). exists ([r] ++ u). rewrite reads_app. split_and!; [by eauto|done|by constructor]. }
  assert (∃ v, reads q1 v q ∧ length v ≤ n - m ∧ Forall (λ r, class_has fold neg items r = true) v) as (v & Hv & Hlv & Fv).
  { clear Hmn H1 Hu. revert q1 H2. generalize (n - m) as k. intros k.
    induction k as [|k IH]; simpl; intros q1 H2.
    - apply matches_empty in H2 as ->. by exists [].
    - assert (matches (Seq (Class_ fold neg items) (repeat_upto g k (Class_ fold neg items))) q1 q ∨ matches Empty q1 q) as Ho
        by (destruct g; simpl in H2; apply matches_alt in H2; tauto).
      destruct Ho as [(p' & (r & Hr & Ec)%matches_class & H1)%matches_seq | ->%matches_empty].
      + destruct (IH p' H1) as (v & Hv & ? & Fv). exists ([r] ++ v). rewrite reads_app. split_and!; [by eauto|simpl; lia|by constructor].
      + exists []. simpl. eauto with lia. }
  exists (u ++ v). rewrite reads_app, length_app, Forall_app. split_and!; [by eauto|lia..|done|done].
Qed.

(** A pattern without groups records none. *)
Fixpoint no_caps (r : regex) : bool :=
  match r with
  | Cap _ _ => false
  | Seq a b | Alt a b => no_caps a && no_caps b
  | Star _ a => no_caps a
  | _ => true
  end.

Lemma matches_no_caps r p q : matches r p q → no_caps r = true → caps q = caps p.
Proof.
  induction 1 as [| | |?????? IH1 ? IH2|???? ? IH|???? ? IH| |?????? IH1 ?? IH2| | | |]; simpl; try done;
    rewrite ?andb_true_iff; intros Hn.
  - destruct Hn. by rewrite IH2, IH1.
  - by apply IH, Hn.
  - by apply IH, Hn.
  - by rewrite IH2, IH1.
Qed.

(** [single n b r]: the pattern [r] is a sequence whose only group is [n],
    around [b]. *)
Inductive single (n : nat) (b : regex) : regex → Prop :=
| single_cap : no_caps b = true → single n b (Cap n b)
| single_l x y : single n b x → no_caps y = true → single n b (Seq x y)
| single_r x y : no_caps x = true → single n b y → single n b (Seq x y).

Lemma single_match n b r p q s :
  single n b r → matches r p q → point_of s p →
  ∃ p1 q1, matches b p1 q1 ∧ point_of s p1 ∧ point_of s q1 ∧ caps q = (n, (at_ p1, at_ q1)) :: caps p.
Proof.
  intros Hs. revert p q. induction Hs as [Hn|x y Hx IH Hy|x y Hx Hy IH]; intros p q Hm Hp; inversion Hm; subst.
  - match goal with H : matches b _ _ |- _ => rename H into Hb end.
    destruct (matches_forward _ _ _ s Hb Hp) as [Hq _].
    eexists _, _. split_and!; [done..|]. simpl. by rewrite (matches_no_caps _ _ _ Hb Hn).
  - match goal with H : matches x _ _, H' : matches y _ _ |- _ => rename H into H1, H' into H2 end.
    rewrite (matches_no_caps _ _ _ H2 Hy). eauto.
  - match goal with H : matches x _ _, H' : matches y _ _ |- _ => rename H into H1, H' into H2 end.
    destruct (matches_forward _ _ _ s H1 Hp) as [Hq _].
    rewrite <-(matches_no_caps _ _ _ H1 Hx). eauto.
Qed.

(** The group of such a pattern is a match of [b] in the text. *)
Lemma found_single n b re s i j gs :
  single n b (prog re) → found re s (i, j, gs) → 1 ≤ n ≤ groups re →
  ∃ p1 q1, matches b p1 q1 ∧ point_of s p1 ∧ point_of s q1 ∧ gs !! (n - 1) = Some (Some (at_ p1, at_ q1)).
Proof.
  intros Hs (p & q & Hp & Hm & [= -> -> ->]) Hn.
  pose proof (points_of s [] None p Hp) as Hpo.
  destruct (single_match _ _ _ _ _ s Hs Hm Hpo) as (p1 & q1 & Hb & ? & ? & Hc).
  exists p1, q1. split_and!; [done..|].
  rewrite list_lookup_fmap, lookup_seq_lt by lia. simpl.
  unfold span_of. rewrite Hc. simpl. by rewrite decide_True by lia.
Qed.

Lemma reads_point s p u q :
  reads p u q → point_of s p →
  point_of s q ∧ at_ q = at_ p + length u ∧ caps q = caps p ∧ extract s (at_ p) (at_ q) = u.
Proof.
  intros Hr [Hp1 Hp2].
  assert (at_ q = at_ p + length u ∧ caps q = caps p) as [Hat Hc].
  { clear Hp1 Hp2. induction Hr as [|? ? ? ? ? ? ? IH]; [simpl; auto with lia|].
    destruct IH as [IH1 IH2]. rewrite IH1, IH2. simpl. auto with lia. }
  pose proof (reads_left _ _ _ Hr) as Hl.
  assert (left q = drop (at_ q) s) as Hq.
  { rewrite Hat, <-drop_drop, <-Hp2, Hl. by rewrite drop_app_length. }
  assert (length (left p) = length u + length (left q)) as Hlen by (rewrite Hl; apply length_app).
  split_and!; [split; [lia|done]|done..|].
  unfold extract. rewrite Hat, <-Hp2, Hl.
  replace (at_ p + length u - at_ p) with (length u) by lia. apply take_app_length.
Qed.

Lemma point_of_split s p : point_of s p → s = take (at_ p) s ++ left p.
Proof. intros [_ ->]. by rewrite take_drop. Qed.

End semantics.

(** ** Matching a set of texts at once

    An abstract text gives for each position the runes that may stand there.
    The matcher runs on it as on a text as long as the runes of a position
    agree on every class they are tested for; then it finds the same in every
    text of the set. *)

Record apoint := mkAPoint { a_at : nat; a_before : option runes; a_left : list runes; a_caps : list (nat * (nat * nat)) }.

(** The answer of a test, if the candidates agree on it. *)
Definition agree (test : Z → bool) (cs : runes) : option bool :=
  match cs with
  | [] => None
  | c :: cs => if forallb (λ d, eqb (test d) (test c)) cs then Some (test c) else None
  end.

Section abstract.
Context `{UnicodeTables}.

Definition aone (test : Z → bool) (p : apoint) : option (option apoint) :=
  match a_left p with
  | [] => Some None
  | cs :: rest =>
      match agree test cs with
      | None => None
      | Some true => Some (Some (mkAPoint (S (a_at p)) (Some cs) rest (a_caps p)))
      | Some false => Some None
      end
  end.

Definition achoice {R} (a b : option (option R)) : option (option R) :=
  match a with None => None | Some (Some x) => Some (Some x) | Some None => b end.

Definition aword (o : option runes) : option bool :=
  match o with None => Some false | Some cs => agree is_word cs end.

Section astar.
Context {R : Type} (body : apoint → (apoint → option (option R)) → option (option R)) (greedy : bool)
  (k : apoint → option (option R)).
Fixpoint astar_loop (fuel : nat) (p : apoint) : option (option R) :=
  match fuel with
  | O => k p
  | S fuel =>
      let more := body p (λ q, if length (a_left q) <? length (a_left p) then astar_loop fuel q else Some None) in
      if greedy then achoice more (k p) else achoice (k p) more
  end.
End astar.

Fixpoint arun {R} (r : regex) (p : apoint) (k : apoint → option (option R)) : option (option R) :=
  match r with
  | Empty => k p
  | Class_ fold neg items =>
      match aone (class_has fold neg items) p with None => None | Some None => Some None | Some (Some q) => k q end
  | AnyNotNL => match aone (λ c, negb (c =? 10)%Z) p with None => None | Some None => Some None | Some (Some q) => k q end
  | Seq a b => arun a p (λ q, arun b q k)
  | Alt a b => achoice (arun a p k) (arun b p k)
  | Star greedy a => astar_loop (arun a) greedy k (S (length (a_left p))) p
  | Cap n a => arun a p (λ q, k (mkAPoint (a_at q) (a_before q) (a_left q) ((n, (a_at p, a_at q)) :: a_caps q)))
  | BeginText => match a_before p with None => k p | Some _ => Some None end
  | EndText => match a_left p with [] => k p | _ :: _ => Some None end
  | WordBoundary inside =>
      match aword (a_before p), aword (head (a_left p)) with
      | Some u, Some v => if eqb inside (xorb u v) then k p else Some None
      | _, _ => None
      end
  end.

Fixpoint apoints (i : nat) (prev : option runes) (s : list runes) : list apoint :=
  mkAPoint i prev s [] :: match s with cs :: s' => apoints (S i) (Some cs) s' | [] => [] end.

Fixpoint afirst_match (r : regex) (ps : list apoint) : option (option (nat * apoint)) :=
  match ps with
  | [] => Some None
  | p :: ps =>
      match arun r p (λ q, Some (Some q)) with
      | None => None
      | Some (Some q) => Some (Some (a_at p, q))
      | Some None => afirst_match r ps
      end
  end.

Definition afind (re : regexp) (s : list runes) : option (option (nat * nat * list (option (nat * nat)))) :=
  match afirst_match (prog re) (apoints 0 None s) with
  | None => None
  | Some None => Some None
  | Some (Some (i, q)) =>
      Some (Some (i, a_at q, (λ n, (λ c, c.2.2) <$> list_find (λ c, c.1 = n) (a_caps q)) <$> seq 1 (groups re)))
  end.

(** [stands p a]: [p] is one of the points of [a]. *)
Record stands (p : point) (a : apoint) : Prop := mkStands {
  st_at : at_ p = a_at a;
  st_before : option_Forall2 (λ c cs, c ∈ cs) (before p) (a_before a);
  st_left : Forall2 (λ c cs, c ∈ cs) (left p) (a_left a);
  st_caps : caps p = a_caps a }.

(** The answer [x] of the abstract matcher is right for [y]. *)
Definition answers {A R} (Q : A → R → Prop) (x : option A) (y : option R) : Prop := option_Forall2 Q x y.

Lemma agree_spec test cs b c : agree test cs = Some b → c ∈ cs → test c = b.
Proof.
  destruct cs as [|d cs]; [done|]. cbn. destruct (forallb _ cs) eqn:Hf; [|done]. intros [= <-].
  rewrite forallb_forall in Hf. intros [-> | Hc]%elem_of_cons; [done|]. apply eqb_prop, Hf. by apply list_elem_of_In.
Qed.

Lemma aone_spec test p a x : stands p a → aone test a = Some x → answers (λ aq q, stands q aq) x (one test p).
Proof.
  intros [Hat Hb Hl Hc]. unfold aone, one. destruct Hl as [|c cs l ls Hcs Hl]; [intros [= <-]; constructor|].
  destruct (agree test cs) as [b|] eqn:Ha; [|done]. rewrite (agree_spec _ _ _ _ Ha Hcs).
  destruct b; intros [= <-]; constructor. split; cbn; [by rewrite Hat|by constructor|done|done].
Qed.

Lemma achoice_spec {A R} (Q : A → R → Prop) a b x (ca cb : option R) :
  achoice a b = Some x → (∀ y, a = Some y → answers Q y ca) → (∀ y, b = Some y → answers Q y cb) →
  answers Q x (choice ca cb).
Proof.
  intros Hx Ha Hb. destruct a as [[y|]|]; cbn in Hx; [|by specialize (Ha None eq_refl); inversion Ha; subst; cbn; auto|done].
  injection Hx as <-. specialize (Ha (Some y) eq_refl). inversion Ha; subst. by constructor.
Qed.

Definition carries_over {A R} (Q : A → R → Prop) (ak : apoint → option (option A)) (k : point → option R) : Prop :=
  ∀ q aq x, stands q aq → ak aq = Some x → answers Q x (k q).

Lemma astar_spec {A R} (Q : A → R → Prop) abody body greedy ak k fuel :
  (∀ p a ak k x, stands p a → carries_over Q ak k → abody a ak = Some x → answers Q x (body p k)) →
  carries_over Q ak k → carries_over Q (astar_loop abody greedy ak fuel) (star_loop body greedy k fuel).
Proof.
  intros Hbody Hk. induction fuel as [|fuel IH]; [exact Hk|]. intros p a x Hp. cbn [astar_loop star_loop].
  set (amore := abody a _). set (more := body p _).
  assert (∀ y, amore = Some y → answers Q y more) as Hm.
  { intros y. apply Hbody; [done|]. intros q aq z Hq.
    rewrite (Forall2_length _ _ _ (st_left _ _ Hq)), (Forall2_length _ _ _ (st_left _ _ Hp)).
    destruct (_ <? _); [by apply IH|]. intros [= <-]. constructor. }
  clearbody amore more. destruct greedy; intros Hx; (eapply achoice_spec; [exact Hx| |]); eauto.
Qed.

Lemma arun_spec {A R} (Q : A → R → Prop) r : ∀ p a (ak : apoint → option (option A)) (k : point → option R) x,
  stands p a → carries_over Q ak k → arun r a ak = Some x → answers Q x (run r p k).
Proof.
  induction r as [|fold neg items| |a IHa b IHb|a IHa b IHb|gr a IHa|n a IHa| | |inside];
    cbn [arun run]; intros p ap ak k x Hp Hk Hx.
  - by eapply Hk.
  - destruct (aone _ ap) as [y|] eqn:Ho; [|done]. apply (aone_spec _ p) in Ho; [|done].
    destruct Ho; [by eapply Hk|injection Hx as <-; constructor].
  - destruct (aone _ ap) as [y|] eqn:Ho; [|done]. apply (aone_spec _ p) in Ho; [|done].
    destruct Ho; [by eapply Hk|injection Hx as <-; constructor].
  - eapply IHa; [done| |exact Hx]. intros q aq y Hq Hy. by eapply IHb.
  - eapply achoice_spec; [exact Hx| |]; eauto.
  - rewrite (Forall2_length _ _ _ (st_left _ _ Hp)). eapply (astar_spec Q (arun a) (run a)); [|exact Hk|exact Hp|exact Hx].
    intros. by eapply IHa.
  - eapply IHa; [done| |exact Hx]. intros q aq y Hq. apply Hk. destruct Hp as [E1 _ _ _], Hq as [E2 ? ? E3].
    by split; cbn; rewrite ?E1, ?E2, ?E3.
  - pose proof (st_before _ _ Hp) as Hb. destruct Hb; [injection Hx as <-; constructor|by eapply Hk].
  - pose proof (st_left _ _ Hp) as Hl. destruct Hl; [by eapply Hk|injection Hx as <-; constructor].
  - destruct (aword (a_before ap)) as [u|] eqn:Hu; [|done]. destruct (aword (head (a_left ap))) as [v|] eqn:Hv; [|done].
    assert (boundary p = xorb u v) as ->.
    { unfold boundary. f_equal.
      - destruct Hp as [_ Hb _ _]. destruct Hb as [c cs Hc|]; cbn in *; [by eapply agree_spec|congruence].
      - destruct Hp as [_ _ Hl _]. destruct Hl as [|c cs l ls Hc _]; cbn in *; [congruence|by eapply agree_spec]. }
    destruct (eqb inside _); [by eapply Hk|injection Hx as <-; constructor].
Qed.

Lemma apoints_spec s as_ : Forall2 (λ c cs, c ∈ cs) s as_ → ∀ i prev aprev,
  option_Forall2 (λ c cs, c ∈ cs) prev aprev → Forall2 stands (points i prev s) (apoints i aprev as_).
Proof.
  induction 1 as [|c cs s as_ Hc Hs IH]; intros i prev aprev Hprev; cbn; constructor.
  - by split; cbn.
  - constructor.
  - split; cbn; [done|done|by constructor|done].
  - apply IH. by constructor.
Qed.

Lemma afirst_match_spec r ps aps x :
  Forall2 stands ps aps → afirst_match r aps = Some x →
  answers (λ a c, a.1 = c.1 ∧ stands c.2 a.2) x (first_match r ps).
Proof.
  intros Hps. revert x. induction Hps as [|p a ps aps Hp Hps IH]; intros x; cbn; [intros [= <-]; constructor|].
  destruct (arun r a _) as [y|] eqn:Hr; [|done].
  pose proof (arun_spec (λ aq q, stands q aq) r p a (λ q, Some (Some q)) Some y Hp) as Hy.
  specialize (Hy ltac:(intros q aq z Hq [= <-]; by constructor) Hr).
  destruct Hy as [aq q Hq|]; cbn; [|apply IH]. intros [= <-]. constructor. cbn. by rewrite (st_at _ _ Hp).
Qed.

(** What is found in an abstract text is found in each of its texts. *)
Lemma afind_spec re s as_ x : afind re as_ = Some x → Forall2 (λ c cs, c ∈ cs) s as_ → find re s = x.
Proof.
  intros Ha Hs. unfold afind in Ha. destruct (afirst_match _ _) as [y|] eqn:Hf; [|done].
  apply (afirst_match_spec _ (points 0 None s)) in Hf; [|apply apoints_spec; [done|constructor]].
  unfold find. destruct Hf as [[i aq] [j q] [Hi Hq]|]; [|by injection Ha as <-]. cbn in *. subst j.
  injection Ha as <-. destruct Hq as [E1 _ _ E2]. unfold span_of. by rewrite E1, E2.
Qed.

End abstract.

(** ** Examples *)

Definition ascii_tables : UnicodeTables := {|
  table_has name r :=
    if bool_decide (name = "L"%string) then ascii_lower r || ascii_upper r
    else if bool_decide (name = "N"%string) then ascii_digit r else false
|}.

#[local] Existing Instance ascii_tables.

(** A choice is made from the left, and a repetition takes what it can. *)
Example submatch_priority :
  FindStringSubmatch (MustCompile "(?i)(a|ab)(c|bcd)?(d*)") (runes_of "xABCD")
  = Some [runes_of "ABCD"; runes_of "A"; runes_of "BCD"; []].
Proof. by vm_compute. Qed.

Example submatch_lazy :
  FindStringSubmatch (MustCompile "^(.*?[\pL\pN])-([^\]a-z]{2,3})(?:x|$)") (runes_of "a-b-CDE")
  = Some [runes_of "a-b-CDE"; runes_of "a-b"; runes_of "CDE"].
Proof. by vm_compute. Qed.

Example word_boundary :
  MatchString (MustCompile "\bcour\ ?\d\b") (runes_of "my cour 2.") = true
  ∧ MatchString (MustCompile "\bcour\ ?\d\b") (runes_of "my cour 22") = false.
Proof. by vm_compute. Qed.

Example find_all_matches :
  FindAllStringSubmatch (MustCompile "\[([^\]]+)\]") (runes_of "[a] b [cd][]")
  = [[runes_of "[a]"; runes_of "a"]; [runes_of "[cd]"; runes_of "cd"]].
Proof. by vm_compute. Qed.

(** Empty matches are found between the letters but not after a match. *)
Example replace_all_matches :
  ReplaceAllString (MustCompile "x*") (runes_of "abxc") (runes_of "-") = runes_of "-a-b-c-"
  ∧ ReplaceAllString (MustCompile "\s+") (runes_of "a  b ") [] = runes_of "ab".
Proof. by vm_compute. Qed.

(** The long s folds to s, as in Go. *)
Example fold_long_s : MatchString (MustCompile "(?i)s") [383%Z] = true.
Proof. by vm_compute. Qed.

End Regex.
