(* ===== verification/Dates.v ===== *)
(** * Dates and date ranges

    [internal/model/date.go], [daterange.go] and [year.go], with what they use
    of [time]: the proleptic Gregorian calendar, [time.Date] with its
    normalisation, and parsing and formatting with the layouts [2006-01-02],
    [2006-01] and [2006]; and [internal/classifier/parsers/date.go], the lexer
    that finds a date in the name of a torrent.

    A [time.Time] is an instant in UTC: seconds from 1 January of year 1, and
    nanoseconds.  A text is the list of its runes; the texts of dates are
    ASCII. *)
From S2P Require Import Prelude Lexer Fts Regex.
From stdpp Require Import list strings sets.
From Stdlib Require Import ZArith Lia.

Module Dates.
Import Lexer.
Local Open Scope Z_scope.
Local Open Scope list_scope.

(** ** The calendar of [time] *)

Definition is_leap (y : Z) : bool := (y `mod` 4 =? 0) && (negb (y `mod` 100 =? 0) || (y `mod` 400 =? 0)).

(** Days from 1 January of year 1 to 1 January of [y]. *)
Definition days_before_year (y : Z) : Z := 365 * (y - 1) + (y - 1) / 4 - (y - 1) / 100 + (y - 1) / 400.

(** Days of a year before its month [m], 1 to 13. *)
Definition days_before_month (leap : bool) (m : Z) : Z :=
  let l := if leap then 1 else 0 in
  if m <=? 1 then 0 else if m =? 2 then 31 else if m =? 3 then 59 + l else if m =? 4 then 90 + l
  else if m =? 5 then 120 + l else if m =? 6 then 151 + l else if m =? 7 then 181 + l else if m =? 8 then 212 + l
  else if m =? 9 then 243 + l else if m =? 10 then 273 + l else if m =? 11 then 304 + l else if m =? 12 then 334 + l
  else 365 + l.

(** The length of a month, with the leap years of the Gregorian calendar. *)
Definition days_in (m y : Z) : Z := days_before_month (is_leap y) (m + 1) - days_before_month (is_leap y) m.

Definition days_of (y m d : Z) : Z := days_before_year y + days_before_month (is_leap y) m + (d - 1).

Definition year_of (d : Z) : Z :=
  let n400 := d / 146097 in let d := d - 146097 * n400 in
  let n100 := d / 36524 - d / 36524 / 4 in let d := d - 36524 * n100 in
  let n4 := d / 1461 in let d := d - 1461 * n4 in
  let n1 := d / 365 - d / 365 / 4 in
  400 * n400 + 100 * n100 + 4 * n4 + n1 + 1.

Definition month_of (leap : bool) (yday : Z) : Z :=
  let fix from (fuel : nat) (m : Z) : Z :=
    match fuel with
    | O => m
    | S fuel => if days_before_month leap (m + 1) <=? yday then from fuel (m + 1) else m
    end in
  from 11%nat 1.

(** The civil date of a number of days. *)
Definition civil (d : Z) : Z * Z * Z :=
  let y := year_of d in
  let yday := d - days_before_year y in
  let m := month_of (is_leap y) yday in
  (y, m, yday - days_before_month (is_leap y) m + 1).

Record Time := mkTime { t_sec : Z; t_nsec : Z }.

(** [time.Date] in UTC: a month out of 1 to 12 moves the year, other values
    carry over. *)
Definition time_Date (year month day hour nsec : Z) : Time :=
  let m := month - 1 in
  let y := year + m / 12 in
  mkTime (days_of y (m `mod` 12 + 1) day * 86400 + hour * 3600) nsec.

Definition t_civil (t : Time) : Z * Z * Z := civil (t_sec t / 86400).
Definition t_Year (t : Time) : Z := (t_civil t).1.1.
Definition t_Month (t : Time) : Z := (t_civil t).1.2.
Definition t_Day (t : Time) : Z := (t_civil t).2.
Definition t_IsZero (t : Time) : bool := (t_sec t =? 0) && (t_nsec t =? 0).

(** Formatting: a number padded with zeros to a width, after its sign. *)
Definition pad (w : nat) (ds : runes) : runes := replicate (w - length ds) 48 ++ ds.
Definition appendInt (w : nat) (n : Z) : runes :=
  if n <? 0 then 45 :: pad w (Fts.dec_loop 20 (- n) []) else pad w (Fts.dec_loop 20 n []).

Definition format_year (t : Time) : runes := appendInt 4 (t_Year t).
Definition format_date (t : Time) : runes :=
  appendInt 4 (t_Year t) ++ 45 :: appendInt 2 (t_Month t) ++ 45 :: appendInt 2 (t_Day t).

(** Parsing: four digits for a year and two for a month and a day, in range,
    and nothing after. *)
Inductive parseError := ErrLayout | ErrRange.

Definition getnum (n : nat) (s : runes) : outcome parseError (Z * runes) :=
  let ds := take n s in
  if decide (length ds = n ∧ Forall (λ r, IsInt r = true) ds) then Ok (digits_value ds, drop n s) else Err ErrLayout.

Definition dash (s : runes) : outcome parseError runes :=
  match s with r :: s => if r =? 45 then Ok s else Err ErrLayout | [] => Err ErrLayout end.

Definition get_month (s : runes) : outcome parseError (Z * runes) :=
  s ← dash s; '(m, s) ← getnum 2 s;
  if (m <=? 0) || (12 <? m) then Err ErrRange else Ok (m, s).

Definition at_end {A} (a : A) (s : runes) : outcome parseError A :=
  match s with [] => Ok a | _ => Err ErrLayout end.

(** [time.Parse] with [2006-01-02], [2006-01] and [2006]. *)
Definition parse_date (s : runes) : outcome parseError Time :=
  '(y, s) ← getnum 4 s; '(m, s) ← get_month s; s ← dash s; '(d, s) ← getnum 2 s;
  _ ← at_end tt s;
  if (d <? 1) || (days_in m y <? d) then Err ErrRange else Ok (time_Date y m d 0 0).
Definition parse_month (s : runes) : outcome parseError Time :=
  '(y, s) ← getnum 4 s; '(m, s) ← get_month s; at_end (time_Date y m 1 0 0) s.
Definition parse_year (s : runes) : outcome parseError Time :=
  '(y, s) ← getnum 4 s; at_end (time_Date y 1 1 0 0) s.

(** ** Dates, [model/date.go] *)

(** [Year] is a [uint16], [Month] an [int] and [Day] a [uint8]. *)
Record Date := mkDate { Year : Z; Month : Z; Day : Z }.
#[export] Instance Date_eq_dec : EqDecision Date.
Proof. solve_decision. Defined.

Definition NewDateFromTime (t : Time) : Date := mkDate (uint16 (t_Year t)) (t_Month t) (uint8 (t_Day t)).
Definition NewDateFromParts (year month day : Z) : Date := mkDate year month day.
Definition NewDateFromIsoString (str : runes) : outcome parseError Date :=
  t ← parse_date str; Ok (NewDateFromTime t).

Definition Date_Time (d : Date) : Time :=
  let nsec := if (Year d =? 1) && (Month d =? 1) && (Day d =? 1) then 1 else 0 in
  time_Date (Year d) (Month d) (Day d) 0 nsec.
Definition EndOfDayTime (d : Date) : Time := time_Date (Year d) (Month d) (Day d) 24 0.

Definition zero : Date := mkDate 0 0 0.
Definition IsNil (d : Date) : bool := bool_decide (d = zero).

Definition numDaysInMonth (year month : Z) : Z :=
  if bool_decide (month ∈ [1; 3; 5; 7; 8; 10; 12]) then 31
  else if bool_decide (month ∈ [4; 6; 9; 11]) then 30
  else if month =? 2 then if year `mod` 4 =? 0 then 29 else 28
  else 0.

Definition IsValid (d : Date) : bool :=
  (1000 <=? Year d) && (Year d <=? 9999) && (1 <=? Month d) && (Month d <=? 12)
  && (1 <=? Day d) && (Day d <=? numDaysInMonth (Year d) (Month d)).

(** [Scan] of a value that may be a time, and [Value] for the driver. *)
Definition Date_Scan (value : option Time) (d : Date) : Date :=
  match value with Some t => if t_IsZero t then d else NewDateFromTime t | None => d end.
Definition Date_Value (d : Date) : option Time := if IsNil d then None else Some (Date_Time d).

Definition IsoDateString (d : Date) : runes := format_date (Date_Time d).
Definition YearString (d : Date) : runes := format_year (Date_Time d).

(** GraphQL: the input is a value that may be a string. *)
Inductive gqlError := ErrNotString | ErrParse (e : parseError).
Definition UnmarshalGQL (v : option runes) (d : Date) : outcome gqlError Date :=
  match v with
  | None => Err ErrNotString
  | Some [] => Ok d
  | Some str => match NewDateFromIsoString str with Ok d => Ok d | Err e => Err (ErrParse e) | Panic => Panic end
  end.
Definition MarshalGQL (d : Date) : runes :=
  if IsNil d then runes_of "null" else 34 :: IsoDateString d ++ [34].

(** ** Years, [model/year.go] *)

(** [fmt.Sscanf] with [%d] into a [uint16]: spaces are skipped, a newline and
    a missing or too large number are errors, what follows is ignored. *)
Inductive scanError := UnexpectedNewline | UnexpectedEOF | ExpectedInteger | OutOfRange | WrongType.

Fixpoint skip_space (s : runes) : outcome scanError runes :=
  match s with
  | [] => Ok []
  | 10 :: _ => Err UnexpectedNewline
  | 13 :: 10 :: s => skip_space s
  | r :: s' => if IsSpace r then skip_space s' else Ok s
  end.
Definition sscanf_uint16 (s : runes) : outcome scanError Z :=
  s ← skip_space s;
  match s with
  | [] => Err UnexpectedEOF
  | _ =>
      match (span IsInt s).1 with
      | [] => Err ExpectedInteger
      | ds => if digits_value ds <? 2 ^ 16 then Ok (digits_value ds) else Err OutOfRange
      end
  end.

Definition ParseYear (s : runes) : outcome scanError Z := sscanf_uint16 s.
Definition Year_String (y : Z) : runes := Fts.dec_loop 20 y [].
Definition Year_IsNil (y : Z) : bool := y =? 0.

(** The values [Scan] and [UnmarshalGQL] switch on.  A conversion of a float
    that does not fit depends on the platform: [SFloat] carries its result. *)
Inductive scanned := SNil | SInt (n : Z) | SFloat (y : Z) | SString (s : runes) | SOther.
Definition Year_Scan (src : scanned) : outcome scanError Z :=
  match src with
  | SNil => Ok 0
  | SInt n => Ok (uint16 n)
  | SFloat y => Ok y
  | SString s => sscanf_uint16 s
  | SOther => Err WrongType
  end.
Definition Year_Value (y : Z) : option Z := if Year_IsNil y then None else Some y.
Definition Year_GormValue (y : Z) : runes := if Year_IsNil y then runes_of "NULL" else Year_String y.
Definition Year_MarshalGQL (y : Z) : runes := if Year_IsNil y then runes_of "null" else Year_String y.
Definition Year_UnmarshalGQL (v : scanned) : outcome scanError Z :=
  match v with SNil => Err WrongType | _ => Year_Scan v end.

(** ** Date ranges, [model/daterange.go] *)

Inductive DateRange :=
| RDate (d : Date)
| RDates (start end_ : Date)
| RYear (year : Z)
| RMonthAndYear (month year : Z).

Definition Start (r : DateRange) : Date :=
  match r with
  | RDate d => d
  | RDates start _ => if IsNil start then NewDateFromParts 1 1 1 else start
  | RYear y => mkDate y 1 1
  | RMonthAndYear m y => mkDate y m 1
  end.
Definition End (r : DateRange) : Date :=
  match r with
  | RDate d => d
  | RDates _ end_ => if IsNil end_ then NewDateFromParts 9999 12 31 else end_
  | RYear y => mkDate y 12 31
  | RMonthAndYear m y => mkDate y m (numDaysInMonth y m)
  end.
Definition StartTime (r : DateRange) : Time := Date_Time (Start r).
Definition EndTime (r : DateRange) : Time := EndOfDayTime (End r).

Definition NewDateRangeFromYear (year : Z) : DateRange := RYear year.
Definition NewDateRangeFromYearWindow (year delta : Z) : DateRange :=
  if delta =? 0 then NewDateRangeFromYear year
  else RDates (mkDate (uint16 (year - delta)) 1 1) (mkDate (uint16 (year + delta)) 12 31).
Definition NewDateRangeFromMonthAndYear (month year : Z) : DateRange := RMonthAndYear month year.
Definition NewDateRangeFromDates (start end_ : Date) : DateRange := RDates start end_.
Definition NewNilDateRange : DateRange := RDates zero zero.

(** [strings.Split] at a separator that is not empty. *)
Fixpoint split_loop (sep acc s : runes) (skip : nat) : list runes :=
  match skip, s with
  | S k, _ :: s => split_loop sep acc s k
  | S _, [] | O, [] => [acc]
  | O, r :: s' =>
      if bool_decide (take (length sep) s = sep) then acc :: split_loop sep [] s' (length sep - 1)
      else split_loop sep (acc ++ [r]) s' 0
  end.
Definition Split (s sep : runes) : list runes := split_loop sep [] s 0.

Inductive rangeError := ErrInvalidRange.

(** The parts of a text are shorter than the text, so its length bounds the
    recursion. *)
Fixpoint NewDateRangeFromString_rec `{Unicode} (fuel : nat) (str : runes) : outcome rangeError DateRange :=
  match fuel with
  | O => Panic
  | S fuel =>
      let str := ToLower <$> TrimSpace str in
      match str with
      | [] => Ok NewNilDateRange
      | _ =>
          match Split str (runes_of " to ") with
          | [_] =>
              match NewDateFromIsoString str with
              | Ok date => Ok (RDate date)
              | _ =>
                  match parse_month str with
                  | Ok t => Ok (NewDateRangeFromMonthAndYear (t_Month t) (uint16 (t_Year t)))
                  | _ =>
                      match parse_year str with
                      | Ok t => Ok (NewDateRangeFromYear (uint16 (t_Year t)))
                      | _ => Err ErrInvalidRange
                      end
                  end
              end
          | [a; b] =>
              match NewDateRangeFromString_rec fuel a with
              | Ok start =>
                  match NewDateRangeFromString_rec fuel b with
                  | Ok end_ => Ok (NewDateRangeFromDates (Start start) (End end_))
                  | Err _ => Err ErrInvalidRange
                  | Panic => Panic
                  end
              | Err _ => Err ErrInvalidRange
              | Panic => Panic
              end
          | _ => Err ErrInvalidRange
          end
      end
  end.
Definition NewDateRangeFromString `{Unicode} (str : runes) : outcome rangeError DateRange :=
  NewDateRangeFromString_rec (S (length str)) str.

(** ** Dates in names, [parsers/date.go] *)

Section lexer.
Context `{Unicode} `{UnicodeTables}.

Inductive datePartFormat :=
| datePart1Digit | datePart2Digits | datePart4Digits | datePartStrMonth | datePartWordChars | datePartNonWordChars.
#[global] Instance datePartFormat_eq_dec : EqDecision datePartFormat.
Proof. solve_decision. Defined.

Record datePart := mkDatePart { dp_Date : Date; dp_format : datePartFormat; dp_literal : runes }.

Definition strMonths : list (runes * Z) :=
  (λ p, (runes_of p.1, p.2)) <$>
  [("jan", 1); ("feb", 2); ("mar", 3); ("apr", 4); ("may", 5); ("jun", 6); ("jul", 7); ("aug", 8); ("sep", 9);
   ("oct", 10); ("nov", 11); ("dec", 12); ("january", 1); ("february", 2); ("march", 3); ("april", 4); ("june", 6);
   ("july", 7); ("august", 8); ("september", 9); ("october", 10); ("november", 11); ("december", 12)]%string.
Definition str_month (s : runes) : option Z := (λ p, p.2.2) <$> list_find (λ p, p.1 = s) strMonths.

Definition separators : list runes := runes_of <$> ["."; "-"; "/"; " "]%string.
Definition minParts : nat := 5.

Definition regex1Digit : Regex.regexp := Eval vm_compute in Regex.MustCompile "^\d$".
Definition regex2Digits : Regex.regexp := Eval vm_compute in Regex.MustCompile "^\d{2}$".
Definition regex4Digits : Regex.regexp := Eval vm_compute in Regex.MustCompile "^\d{4}$".

(** The part that a run of word characters is. *)
Definition word_part (str : runes) : datePart :=
  match str_month (ToLower <$> str) with
  | Some m => mkDatePart (mkDate 0 m 0) datePartStrMonth str
  | None =>
      let i := digits_value str in
      if Regex.MatchString regex1Digit str then mkDatePart (mkDate 0 i (uint8 i)) datePart1Digit str
      else if Regex.MatchString regex2Digits str then
        mkDatePart (mkDate (uint16 (2000 + i)) (if (1 <=? i) && (i <=? 12) then i else 0)
                      (if (1 <=? i) && (i <=? 31) then uint8 i else 0)) datePart2Digits str
      else if Regex.MatchString regex4Digits str then mkDatePart (mkDate (uint16 i) 0 0) datePart4Digits str
      else mkDatePart zero datePartWordChars str
  end.

Definition lexDatePart (l : Lexer) : go (datePart * Lexer) :=
  '(str, l) ← ReadWhile IsWordChar l;
  match str with
  | [] => '(str, l) ← ReadWhile IsNonWordChar l; Ok (mkDatePart zero datePartNonWordChars str, l)
  | _ => Ok (word_part str, l)
  end.

(** Every round reads a rune, so [fuel] is enough when it exceeds the length
    of the text. *)
Fixpoint lexDateParts_loop (fuel : nat) (parts : list datePart) (l : Lexer) : go (list datePart * Lexer) :=
  match fuel with
  | O => Panic
  | S fuel =>
      '(eof, l) ← IsEOF l;
      if eof : bool then Ok (parts, l)
      else '(p, l) ← lexDatePart l; lexDateParts_loop fuel (parts ++ [p]) l
  end.
Definition lexDateParts (l : Lexer) : go (list datePart * Lexer) :=
  lexDateParts_loop (S (length (rest l))) [] l.

Definition findFirstValidDate (part1 part2 part3 : Date) : Date :=
  let ymd := mkDate (Year part1) (Month part2) (Day part3) in
  let dmy := mkDate (Year part3) (Month part2) (Day part1) in
  let mdy := mkDate (Year part3) (Month part1) (Day part2) in
  if negb (Year part1 =? 0) && negb (Month part2 =? 0) && negb (Day part3 =? 0) && IsValid ymd then ymd
  else if negb (Day part1 =? 0) && negb (Month part2 =? 0) && negb (Year part3 =? 0) && IsValid dmy then dmy
  else if negb (Month part1 =? 0) && negb (Day part2 =? 0) && negb (Year part3 =? 0) && IsValid mdy then mdy
  else zero.

Definition is_break (p : datePart) : bool := bool_decide (dp_format p = datePartNonWordChars).
Definition has_date (p : datePart) : bool := negb (IsNil (dp_Date p)).

(** One turn of the loop of [lexDate] at [i] with the flag
    [isStartOrWordBreak]: a date, or the next index and flag. *)
Definition lexDate_turn (parts : list datePart) (i : nat) (isStartOrWordBreak : bool) : go (Date + nat * bool) :=
  part1 ← of_option (parts !! i);
  if negb isStartOrWordBreak then Ok (inr (S i, is_break part1))
  else if has_date part1 then
    sep ← of_option (parts !! (i + 1)%nat);
    if is_break sep then
      if bool_decide (dp_literal sep ∈ separators) then
        part2 ← of_option (parts !! (i + 2)%nat);
        if has_date part2 then
          sep2 ← of_option (parts !! (i + 3)%nat);
          if negb (bool_decide (dp_literal sep2 = dp_literal sep)) then Ok (inr ((i + 4)%nat, is_break sep2))
          else
            part3 ← of_option (parts !! (i + 4)%nat);
            last ← (if bool_decide (S (i + 4) = length parts) then Ok true
                    else next ← of_option (parts !! (i + 5)%nat); Ok (is_break next));
            if has_date part3 && last then
              let date := findFirstValidDate (dp_Date part1) (dp_Date part2) (dp_Date part3) in
              if negb (IsNil date) then Ok (inl date) else Ok (inr ((i + 5)%nat, false))
            else Ok (inr ((i + 5)%nat, is_break part3))
        else Ok (inr ((i + 3)%nat, is_break part2))
      else Ok (inr ((i + 2)%nat, true))
    else Ok (inr ((i + 2)%nat, false))
  else Ok (inr (S i, is_break part1)).

(** A turn moves the index forward, so the number of parts bounds the turns. *)
Fixpoint lexDate_loop (fuel : nat) (parts : list datePart) (i : nat) (isStartOrWordBreak : bool) : go Date :=
  match fuel with
  | O => Panic
  | S fuel =>
      if (i + minParts <=? length parts)%nat then
        r ← lexDate_turn parts i isStartOrWordBreak;
        match r with
        | inl date => Ok date
        | inr (i, b) => lexDate_loop fuel parts i b
        end
      else Ok zero
  end.
Definition lexDate (l : Lexer) : go Date :=
  '(parts, _) ← lexDateParts l; lexDate_loop (S (length parts)) parts 0 true.

Definition ParseDate (str : runes) : go Date := lexDate (NewLexer str).

End lexer.

Definition parse_date_test (s : string) : go Date := @ParseDate ascii_unicode Regex.ascii_tables (runes_of s).
Example parse_date_tests :
  parse_date_test <$> ["2020-01-01"; "01-01-2020"; "01-Jan-2020"; "Jan-01-2020"; "MP3-daily-2019-July-16-Disco";
    "XXX Video (2022-09-21) 1080p.mp4"; "Exxtra.23.02.01.Bla.Bla.Bla.XXX.1080p.HEVC.x265.PRT[XvX]";
    "The Movie (13.10.2017)_1080p.mp4"; "Movie.23.05.15..The.Best.Of.XXX.1080p.MP4-WRB[rarbg]";
    "2021.09.11_Serie_C_2021.22_R.03_Xxx_FC_vs_Xxx_FC_[football.net]_720p.50_RUS.mkv";
    "Software.Pro.X2.Suite.v19.0.2.23117-R2R"]%string
  = Ok <$> [mkDate 2020 1 1; mkDate 2020 1 1; mkDate 2020 1 1; mkDate 2020 1 1; mkDate 2019 7 16; mkDate 2022 9 21;
            mkDate 2023 2 1; mkDate 2017 10 13; mkDate 2023 5 15; mkDate 2021 9 11; zero].
Proof. vm_compute. reflexivity. Qed.

Definition range_test (s : string) : option (Date * Date) :=
  match @NewDateRangeFromString ascii_unicode (runes_of s) with Ok r => Some (Start r, End r) | _ => None end.
Example date_range_tests :
  range_test <$> ["2020-01-01"; "2020-01-02 to 2022"; "2020-02 TO 2022-03-04"; "2020-13"; "a to b to c"; " "]%string
  = [Some (mkDate 2020 1 1, mkDate 2020 1 1); Some (mkDate 2020 1 2, mkDate 2022 12 31);
     Some (mkDate 2020 2 1, mkDate 2022 3 4); None; None; Some (mkDate 1 1 1, mkDate 9999 12 31)].
Proof. vm_compute. reflexivity. Qed.

(** ** The calendar *)

Lemma days_before_year_succ y :
  days_before_year (y + 1) = days_before_year y + 365 + (if is_leap y then 1 else 0).
Proof.
  unfold days_before_year, is_leap. replace (y + 1 - 1) with y by lia.
  destruct (Z.eqb_spec (y `mod` 4) 0), (Z.eqb_spec (y `mod` 100) 0), (Z.eqb_spec (y `mod` 400) 0); simpl;
    Z.to_euclidean_division_equations; lia.
Qed.

Lemma days_before_year_mono y z : y ≤ z → days_before_year y + 365 * (z - y) ≤ days_before_year z.
Proof.
  intros Hyz. replace z with (y + Z.of_nat (Z.to_nat (z - y))) by lia.
  induction (Z.to_nat (z - y)) as [|n IH]; [replace (y + Z.of_nat 0) with y by lia; lia|].
  replace (y + Z.of_nat (S n)) with (y + Z.of_nat n + 1) by lia. rewrite days_before_year_succ. destruct is_leap; lia.
Qed.

Lemma year_of_spec d : days_before_year (year_of d) ≤ d < days_before_year (year_of d + 1).
Proof.
  rewrite days_before_year_succ. unfold year_of.
  set (a := d / 146097). set (r := d - 146097 * a).
  assert (0 ≤ r < 146097) by (subst r a; Z.to_euclidean_division_equations; lia).
  set (b := r / 36524 - r / 36524 / 4). set (r2 := r - 36524 * b).
  assert (0 ≤ b ≤ 3 ∧ 0 ≤ r2 ≤ 36524 ∧ (r2 = 36524 → b = 3)) as (Hb & Hr2 & Hb3)
    by (subst r2 b; clearbody r; Z.to_euclidean_division_equations; lia).
  set (c := r2 / 1461). set (r3 := r2 - 1461 * c).
  assert (0 ≤ c ≤ 24 ∧ 0 ≤ r3 ≤ 1460 ∧ (c = 24 → r3 = 1460 → b = 3)) as (Hc & Hr3 & Hc3)
    by (subst r3 c; clearbody r2; Z.to_euclidean_division_equations; lia).
  set (e := r3 / 365 - r3 / 365 / 4).
  assert (0 ≤ e ≤ 3 ∧ 0 ≤ r3 - 365 * e ≤ 365 ∧ (r3 - 365 * e = 365 → e = 3)) as (He & Hr4 & He3)
    by (subst e; clearbody r3; Z.to_euclidean_division_equations; lia).
  clearbody e. subst r3. clearbody c. subst r2. clearbody b. subst r. clearbody a.
  assert (days_before_year (400 * a + 100 * b + 4 * c + e + 1) = 146097 * a + 36524 * b + 1461 * c + 365 * e) as ->.
  { unfold days_before_year. replace (_ + 1 - 1) with (400 * a + 100 * b + 4 * c + e) by lia.
    Z.to_euclidean_division_equations; lia. }
  split; [lia|]. unfold is_leap.
  set (y := 400 * a + 100 * b + 4 * c + e + 1).
  destruct (Z.eqb_spec (y `mod` 4) 0), (Z.eqb_spec (y `mod` 100) 0), (Z.eqb_spec (y `mod` 400) 0); simpl; subst y;
    Z.to_euclidean_division_equations; lia.
Qed.

Lemma year_of_unique d y : days_before_year y ≤ d < days_before_year (y + 1) → year_of d = y.
Proof.
  intros Hd. pose proof (year_of_spec d) as Hy.
  destruct (Z.lt_trichotomy (year_of d) y) as [Hlt|[?|Hgt]]; [|done|].
  - pose proof (days_before_year_mono (year_of d + 1) y). lia.
  - pose proof (days_before_year_mono (y + 1) (year_of d)). lia.
Qed.

(** The months as a case analysis, for the finitely many facts about them. *)
Lemma month_cases m :
  1 ≤ m ≤ 12 → m = 1 ∨ m = 2 ∨ m = 3 ∨ m = 4 ∨ m = 5 ∨ m = 6 ∨ m = 7 ∨ m = 8 ∨ m = 9 ∨ m = 10 ∨ m = 11 ∨ m = 12.
Proof. lia. Qed.
Ltac each_month H := destruct (month_cases _ H) as [-> | [-> | [-> | [-> | [-> | [-> | [-> | [-> | [-> | [-> | [-> | ->]]]]]]]]]]].

(** Every day of a year lies in its month: a finite check. *)
Definition month_ok (leap : bool) (d : Z) : bool :=
  let m := month_of leap d in
  ((1 <=? m) && (m <=? 12) && (days_before_month leap m <=? d) && (d <? days_before_month leap (m + 1)))%Z.
Lemma month_table leap : forallb (month_ok leap) (seqZ 0 (if leap then 366 else 365)) = true.
Proof. destruct leap; vm_compute; reflexivity. Qed.

Lemma month_of_bounds (leap : bool) d :
  0 ≤ d < 365 + (if leap then 1 else 0) →
  1 ≤ month_of leap d ≤ 12
  ∧ days_before_month leap (month_of leap d) ≤ d < days_before_month leap (month_of leap d + 1).
Proof.
  intros Hd. pose proof (month_table leap) as Ht. rewrite forallb_forall in Ht.
  assert (month_ok leap d = true) as Hok by (apply Ht, list_elem_of_In, elem_of_seqZ; destruct leap; lia).
  unfold month_ok in Hok. cbv zeta in Hok. set (m := month_of leap d) in *. clearbody m. bool_hyps. lia.
Qed.

Lemma days_before_month_mono leap m m' :
  1 ≤ m → m < m' → m' ≤ 13 → days_before_month leap (m + 1) ≤ days_before_month leap m'.
Proof. intros. unfold days_before_month. repeat case_goal; bool_hyps; lia. Qed.

Lemma month_of_spec (leap : bool) m d :
  1 ≤ m ≤ 12 → days_before_month leap m ≤ d < days_before_month leap (m + 1) → month_of leap d = m.
Proof.
  intros Hm Hd. pose proof (month_of_bounds leap d) as Hb.
  pose proof (days_before_month_mono leap 1 m) as H1. pose proof (days_before_month_mono leap (m + 1) 13) as H2.
  assert (days_before_month leap 1 = 0 ∧ days_before_month leap 2 = 31
          ∧ days_before_month leap 13 = 365 + if leap then 1 else 0) as (E1 & E2 & E13) by (destruct leap; done).
  change (1 + 1) with 2 in H1.
  assert (0 ≤ d) by (destruct (Z.eq_dec m 1) as [-> |]; lia).
  assert (d < 365 + (if leap then 1 else 0)).
  { destruct (Z.eq_dec m 12) as [-> |]; [change (12 + 1) with 13 in *; lia|].
    pose proof (days_before_month_mono leap m 13). lia. }
  destruct Hb as [Hm' Hb]; [lia|].
  destruct (Z.lt_trichotomy (month_of leap d) m) as [Hlt|[?|Hgt]]; [|done|].
  - pose proof (days_before_month_mono leap (month_of leap d) m). lia.
  - pose proof (days_before_month_mono leap m (month_of leap d)). lia.
Qed.

(** A date of the calendar. *)
Definition exists_date (y m d : Z) : Prop := 1 ≤ m ≤ 12 ∧ 1 ≤ d ≤ days_in m y.

Lemma days_before_month_bounds (leap : bool) m d :
  1 ≤ m ≤ 12 → 1 ≤ d ≤ days_before_month leap (m + 1) - days_before_month leap m →
  0 ≤ days_before_month leap m + (d - 1) < 365 + (if leap then 1 else 0).
Proof. intros Hm Hd. unfold days_before_month in *. repeat case_match; bool_hyps; lia. Qed.

Lemma civil_days_of y m d : exists_date y m d → civil (days_of y m d) = (y, m, d).
Proof.
  intros [Hm Hd]. unfold days_in in Hd. pose proof (days_before_month_bounds _ _ _ Hm Hd) as Hb.
  assert (year_of (days_of y m d) = y) as Hy.
  { apply year_of_unique. rewrite days_before_year_succ. unfold days_of. lia. }
  unfold civil. rewrite Hy. unfold days_of.
  replace (_ - days_before_year y) with (days_before_month (is_leap y) m + (d - 1)) by lia.
  rewrite (month_of_spec _ m) by lia. repeat f_equal; lia.
Qed.

Lemma days_of_civil n : ∃ y m d, civil n = (y, m, d) ∧ exists_date y m d ∧ days_of y m d = n.
Proof.
  pose proof (year_of_spec n) as Hy. rewrite days_before_year_succ in Hy.
  destruct (month_of_bounds (is_leap (year_of n)) (n - days_before_year (year_of n))) as [Hm Hd]; [lia|].
  unfold civil, exists_date, days_in, days_of. do 3 eexists. split; [reflexivity|]. split; [split; [done|]|]; lia.
Qed.

Lemma days_in_bounds m y : 1 ≤ m ≤ 12 → 28 ≤ days_in m y ≤ 31.
Proof. intros Hm. unfold days_in. each_month Hm; destruct (is_leap y); by split; vm_compute. Qed.

(** The table of the sources agrees with the calendar except for February of
    the centuries that are not leap years. *)
Lemma numDaysInMonth_days_in y m :
  1 ≤ m ≤ 12 →
  numDaysInMonth y m = days_in m y + if bool_decide (m = 2 ∧ y `mod` 100 = 0 ∧ y `mod` 400 ≠ 0) then 1 else 0.
Proof.
  intros Hm. destruct (decide (m = 2)) as [-> | Hne].
  - change (numDaysInMonth y 2) with (if y `mod` 4 =? 0 then 29 else 28). unfold days_in.
    assert (days_before_month (is_leap y) (2 + 1) - days_before_month (is_leap y) 2 = if is_leap y then 29 else 28) as ->
      by (destruct (is_leap y); reflexivity).
    unfold is_leap. case_bool_decide as Hc;
      destruct (Z.eqb_spec (y `mod` 4) 0), (Z.eqb_spec (y `mod` 100) 0), (Z.eqb_spec (y `mod` 400) 0); simpl;
      try lia; exfalso; Z.to_euclidean_division_equations; lia.
  - rewrite (bool_decide_eq_false_2 (_ ∧ _)) by tauto. unfold days_in.
    each_month Hm; try done; destruct (is_leap y); done.
Qed.

(** ** Numbers of fixed width *)

Lemma digits_value_snoc s d : digits_value (s ++ [d]) = digits_value s * 10 + (d - 48).
Proof. unfold digits_value. by rewrite foldl_app. Qed.

Lemma IsInt_range r : IsInt r = true ↔ 48 ≤ r ≤ 57.
Proof. unfold IsInt. rewrite andb_true_iff, !Z.leb_le. done. Qed.

Lemma digits_value_bounds s : Forall (λ r, IsInt r = true) s → 0 ≤ digits_value s < 10 ^ Z.of_nat (length s).
Proof.
  induction s as [|d s IH] using rev_ind; [done|]. intros [Hs [Hd%IsInt_range _]%Forall_cons]%Forall_app.
  rewrite digits_value_snoc, length_app. cbn [length]. replace (Z.of_nat _) with (Z.succ (Z.of_nat (length s))) by lia.
  rewrite Z.pow_succ_r by lia. specialize (IH Hs). lia.
Qed.

Lemma digits_value_inj s t :
  Forall (λ r, IsInt r = true) s → Forall (λ r, IsInt r = true) t → length s = length t →
  digits_value s = digits_value t → s = t.
Proof.
  revert t. induction s as [|d s IH] using rev_ind; intros t Hs Ht Hl Hv.
  { by destruct t. }
  destruct t as [|e t _] using rev_ind; [rewrite length_app in Hl; cbn in Hl; lia|].
  apply Forall_app in Hs as [Hs [Hd%IsInt_range _]%Forall_cons].
  apply Forall_app in Ht as [Ht [He%IsInt_range _]%Forall_cons].
  rewrite !digits_value_snoc in Hv. rewrite !length_app in Hl. cbn in Hl.
  rewrite (IH t) by (done || lia). f_equal. f_equal. lia.
Qed.

Lemma dec_loop_length fuel : ∀ w n acc,
  0 ≤ n < 10 ^ Z.of_nat w → (0 < w)%nat → (length (Fts.dec_loop fuel n acc) ≤ w + length acc)%nat.
Proof.
  induction fuel as [|fuel IH]; intros w n acc Hn Hw; cbn [Fts.dec_loop]; [lia|].
  destruct (Z.ltb_spec n 10) as [Hlt|Hge]; [cbn; lia|]. destruct w as [|w]; [lia|].
  rewrite Nat2Z.inj_succ, Z.pow_succ_r in Hn by lia.
  assert (0 < w)%nat by (destruct w; [change (10 ^ Z.of_nat 0) with 1 in Hn|]; lia).
  etrans; [apply (IH w); [split; [apply Z.div_pos|apply Z.div_lt_upper_bound]; lia|done]|]. cbn. lia.
Qed.

(** [number_text w n]: the [w] digits that are written for [n] and read back. *)
Definition number_text (w : nat) (n : Z) (s : runes) : Prop :=
  length s = w ∧ Forall (λ r, IsInt r = true) s ∧ digits_value s = n.

Lemma digits_value_zeros k s : digits_value (replicate k 48 ++ s) = digits_value s.
Proof. unfold digits_value. rewrite foldl_app. f_equal. induction k as [|k IH]; [done|]. exact IH. Qed.

Lemma appendInt_text w n :
  (0 < w ≤ 20)%nat → 0 ≤ n < 10 ^ Z.of_nat w → number_text w n (appendInt w n).
Proof.
  intros Hw Hn. unfold appendInt. rewrite (proj2 (Z.ltb_ge _ _)) by lia.
  pose proof (dec_loop_length 20 w n [] Hn) as Hl. cbn [length] in Hl.
  destruct (Fts.dec_loop_spec 20 n []) as (ds & Eds & Hv & Hne & Hall); [|lia|].
  { split; [lia|]. eapply Z.lt_le_trans; [apply Hn|]. apply Z.pow_le_mono_r; lia. }
  rewrite app_nil_r in Eds. rewrite Eds in *. unfold pad. split_and!.
  - rewrite length_app, length_replicate. lia.
  - apply Forall_app. split; [by apply Forall_replicate|done].
  - by rewrite digits_value_zeros.
Qed.

Lemma number_text_inj w n s t : number_text w n s → number_text w n t → s = t.
Proof. intros (H1 & H2 & H3) (H4 & H5 & H6). apply digits_value_inj; congruence. Qed.

Lemma number_text_bounds w n s : number_text w n s → 0 ≤ n < 10 ^ Z.of_nat w.
Proof. intros (<- & Hs & <-). by apply digits_value_bounds. Qed.

Lemma number_text_append w n s : (0 < w ≤ 20)%nat → number_text w n s → appendInt w n = s.
Proof.
  intros Hw Hs. eapply number_text_inj; [|done]. apply appendInt_text; [done|]. by eapply number_text_bounds.
Qed.

#[local] Opaque appendInt.

Lemma getnum_spec w s n t : getnum w s = Ok (n, t) ↔ ∃ ds, s = ds ++ t ∧ number_text w n ds.
Proof.
  unfold getnum. split.
  - case_decide as Hd; [|done]. intros [= <- <-]. destruct Hd as [Hl Hd].
    exists (take w s). by rewrite take_drop.
  - intros (ds & -> & <- & Hd & <-). rewrite take_app_length, drop_app_length. by rewrite decide_True.
Qed.

Lemma getnum_Panic w s : getnum w s ≠ Panic.
Proof. unfold getnum. by case_decide. Qed.

Lemma dash_spec s t : dash s = Ok t ↔ s = 45 :: t.
Proof.
  unfold dash. destruct s as [|r s]; [done|]. destruct (Z.eqb_spec r 45) as [-> |]; [naive_solver|]. split; [done|congruence].
Qed.

Lemma at_end_spec {A} (a b : A) s : at_end a s = Ok b ↔ s = [] ∧ a = b.
Proof. destruct s; simpl; split; naive_solver. Qed.

(** [bind_Ok] inverts a sequence that returned. *)
Lemma bind_Ok {E A B} (m : outcome E A) (f : A → outcome E B) b :
  m ≫= f = Ok b ↔ ∃ a, m = Ok a ∧ f a = Ok b.
Proof. destruct m; simpl; naive_solver. Qed.

Lemma get_month_spec s m t :
  get_month s = Ok (m, t) ↔ ∃ ds, s = 45 :: ds ++ t ∧ number_text 2 m ds ∧ 1 ≤ m ≤ 12.
Proof.
  unfold get_month. rewrite bind_Ok. setoid_rewrite dash_spec. setoid_rewrite bind_Ok. split.
  - intros (u & -> & [m' t'] & Hn & Hm). apply getnum_spec in Hn as (ds & -> & Hn).
    destruct (_ || _) eqn:Hr; [done|]. injection Hm as -> ->. bool_hyps. exists ds. split_and!; [done|done|lia|lia].
  - intros (ds & -> & Hn & Hm). eexists. split; [done|]. exists (m, t). split; [apply getnum_spec; eauto|].
    cbn beta iota. destruct (Z.leb_spec m 0), (Z.ltb_spec 12 m); simpl; first [lia|done].
Qed.

(** The texts that [time.Parse] accepts with the first layout. *)
Lemma parse_date_spec s t :
  parse_date s = Ok t ↔
  ∃ y m d sy sm sd, s = sy ++ 45 :: sm ++ 45 :: sd ∧ number_text 4 y sy ∧ number_text 2 m sm ∧ number_text 2 d sd
    ∧ exists_date y m d ∧ t = time_Date y m d 0 0.
Proof.
  unfold parse_date. split.
  - intros Hp. apply bind_Ok in Hp as ([y s1] & Hy & Hp). apply getnum_spec in Hy as (sy & -> & Hy).
    apply bind_Ok in Hp as ([m s2] & Hm & Hp). apply get_month_spec in Hm as (sm & -> & Hm & Hm12).
    apply bind_Ok in Hp as (s3 & Hd & Hp). apply dash_spec in Hd as ->.
    apply bind_Ok in Hp as ([d s4] & Hd & Hp). apply getnum_spec in Hd as (sd & -> & Hd).
    apply bind_Ok in Hp as ([] & He & Hp). apply at_end_spec in He as [-> _]. rewrite app_nil_r in *.
    destruct (_ || _) eqn:Hr; [done|]. injection Hp as <-. bool_hyps.
    exists y, m, d, sy, sm, sd. split_and!; try done; lia.
  - intros (y & m & d & sy & sm & sd & -> & Hy & Hm & Hd & [Hm12 Hd1] & ->).
    apply bind_Ok. eexists (y, _). split; [apply getnum_spec; eauto|].
    apply bind_Ok. eexists (m, _). split; [apply get_month_spec; exists sm; eauto|].
    apply bind_Ok. eexists. split; [by apply dash_spec|].
    apply bind_Ok. exists (d, []). split; [apply getnum_spec; exists sd; by rewrite app_nil_r|].
    simpl. destruct (Z.ltb_spec d 1), (Z.ltb_spec (days_in m y) d); simpl; first [lia|done].
Qed.

Lemma t_civil_Date y m d n : exists_date y m d → t_civil (time_Date y m d 0 n) = (y, m, d).
Proof.
  intros Hd. destruct Hd as [Hm Hd]. unfold t_civil, time_Date. cbn [t_sec].
  rewrite (Z.div_small (m - 1) 12), (Z.mod_small (m - 1) 12) by lia. rewrite !Z.add_0_r. replace (m - 1 + 1) with m by lia.
  rewrite ?Z.mul_0_l, ?Z.add_0_r, Z.div_mul by lia. by apply civil_days_of.
Qed.

Lemma NewDateFromTime_Date y m d n :
  exists_date y m d → 0 ≤ y < 65536 → NewDateFromTime (time_Date y m d 0 n) = mkDate y m d.
Proof.
  intros Hd Hy. unfold NewDateFromTime, t_Year, t_Month, t_Day. rewrite t_civil_Date by done. simpl.
  destruct Hd as [Hm Hd]. pose proof (days_in_bounds m y Hm).
  unfold uint16, uint8, wrap. rewrite !Z.mod_small by lia. done.
Qed.

(** A date that the calendar has. *)
Definition calendar_date (d : Date) : Prop := exists_date (Year d) (Month d) (Day d).

Lemma IsoDateString_text d :
  calendar_date d →
  IsoDateString d = appendInt 4 (Year d) ++ 45 :: appendInt 2 (Month d) ++ 45 :: appendInt 2 (Day d).
Proof.
  intros Hd. unfold IsoDateString, format_date, t_Year, t_Month, t_Day, Date_Time. by rewrite t_civil_Date.
Qed.

Lemma date_iso_read d : 0 ≤ Year d ≤ 9999 → calendar_date d → NewDateFromIsoString (IsoDateString d) = Ok d.
Proof.
  intros Hy Hd. rewrite IsoDateString_text by done. apply bind_Ok. exists (time_Date (Year d) (Month d) (Day d) 0 0).
  split; [|rewrite NewDateFromTime_Date; [by destruct d|exact Hd|lia]]. apply parse_date_spec.
  pose proof Hd as [Hm Hdd]. pose proof (days_in_bounds _ (Year d) Hm).
  do 6 eexists. split_and!; [reflexivity|apply appendInt_text; [lia|]|apply appendInt_text; [lia|]|
    apply appendInt_text; [lia|]|exact Hd|reflexivity]; change (10 ^ Z.of_nat 4) with 10000;
    change (10 ^ Z.of_nat 2) with 100; lia.
Qed.

Lemma date_iso_write s d :
  NewDateFromIsoString s = Ok d → 0 ≤ Year d ≤ 9999 ∧ calendar_date d ∧ IsoDateString d = s.
Proof.
  intros (t & Ht & Hdate)%bind_Ok. apply parse_date_spec in Ht as (y & m & dd & sy & sm & sd & -> & Hy & Hm & Hd & He & ->).
  pose proof (number_text_bounds _ _ _ Hy) as Hb. change (10 ^ Z.of_nat 4) with 10000 in Hb.
  rewrite NewDateFromTime_Date in Hdate by (done || lia). injection Hdate as <-.
  split; [simpl; lia|]. split; [done|]. rewrite IsoDateString_text by done. simpl.
  by rewrite (number_text_append _ _ sy), (number_text_append _ _ sm), (number_text_append _ _ sd) by (done || lia).
Qed.

(** Reading and writing dates in ISO form are inverse to each other: a text is accepted as the date d exactly when d is a date of the Gregorian calendar with a year of at most four digits and the text is what IsoDateString writes for d. *)
Theorem date_iso_roundtrip s d :
  NewDateFromIsoString s = Ok d ↔ 0 ≤ Year d ≤ 9999 ∧ calendar_date d ∧ IsoDateString d = s.
Proof. split; [apply date_iso_write|]. intros (Hy & Hd & <-). by apply date_iso_read. Qed.

(** ** What the calendar check accepts *)

(** The 29 February of a century that is not a leap year. *)
Definition century_leap_day (d : Date) : Prop :=
  Month d = 2 ∧ Day d = 29 ∧ (Year d) `mod` 100 = 0 ∧ (Year d) `mod` 400 ≠ 0.

Lemma Date_Time_parts y m d : (y =? 1) && (m =? 1) && (d =? 1) = false → Date_Time (mkDate y m d) = time_Date y m d 0 0.
Proof. intros E. unfold Date_Time. simpl. by rewrite E. Qed.

(** IsValid accepts the dates of the Gregorian calendar from the year 1000 to 9999 and, since its length of February looks at divisibility by 4 only, the 29 February of the centuries that are no leap years; such a date is stored, printed and read back as 1 March. *)
Theorem date_valid_calendar d :
  (IsValid d = true ↔ 1000 ≤ Year d ≤ 9999 ∧ (calendar_date d ∨ century_leap_day d))
  ∧ (1000 ≤ Year d ≤ 9999 ∧ century_leap_day d →
     ¬ calendar_date d ∧ NewDateFromTime (Date_Time d) = mkDate (Year d) 3 1
     ∧ NewDateFromIsoString (IsoDateString d) = Ok (mkDate (Year d) 3 1)).
Proof.
  split.
  - unfold IsValid, calendar_date, exists_date, century_leap_day. rewrite !andb_true_iff, !Z.leb_le. split.
    + intros (((((H1 & H2) & H3) & H4) & H5) & H6). split; [lia|].
      rewrite numDaysInMonth_days_in in H6 by lia. case_bool_decide as Hc; [|left; lia].
      destruct Hc as (Hm & Hc & Hc'). rewrite Hm in *.
      assert (days_in 2 (Year d) = 28) as E.
      { unfold days_in, is_leap. destruct (Z.eqb_spec (Year d `mod` 100) 0), (Z.eqb_spec (Year d `mod` 400) 0); try done.
        by rewrite andb_false_r. }
      rewrite E in *. lia.
    + intros [Hy [[Hm Hd] | (Hm & Hd & Hc & Hc')]].
      * rewrite numDaysInMonth_days_in by done. case_bool_decide; lia.
      * rewrite Hm, Hd. change (numDaysInMonth (Year d) 2) with (if (Year d) `mod` 4 =? 0 then 29 else 28).
        destruct (Z.eqb_spec (Year d `mod` 4) 0); [lia|]. exfalso. Z.to_euclidean_division_equations; lia.
  - intros [Hy (Hm & Hd & Hc & Hc')].
    assert (is_leap (Year d) = false) as Hl.
    { unfold is_leap. destruct (Z.eqb_spec (Year d `mod` 100) 0), (Z.eqb_spec (Year d `mod` 400) 0); try done.
      by rewrite andb_false_r. }
    assert (exists_date (Year d) 3 1) as He by (split; [lia|unfold days_in; rewrite Hl; vm_compute; split; discriminate]).
    assert (Date_Time d = time_Date (Year d) 3 1 0 0) as Ht.
    { unfold Date_Time, time_Date, days_of. rewrite Hm, Hd. replace (Year d =? 1) with false by (symmetry; apply Z.eqb_neq; lia).
      cbn [andb]. f_equal. change ((2 - 1) / 12) with 0. change ((3 - 1) / 12) with 0.
      change ((2 - 1) `mod` 12 + 1) with 2. change ((3 - 1) `mod` 12 + 1) with 3. rewrite !Z.add_0_r, Hl.
      change (days_before_month false 2) with 31. change (days_before_month false 3) with 59. lia. }
    split_and!.
    + unfold calendar_date, exists_date, days_in. rewrite Hm, Hd, Hl. change (days_before_month false (2 + 1) - days_before_month false 2) with 28. lia.
    + rewrite Ht. apply NewDateFromTime_Date; [done|lia].
    + replace (IsoDateString d) with (IsoDateString (mkDate (Year d) 3 1))
        by (unfold IsoDateString; by rewrite Ht, Date_Time_parts by (by rewrite andb_false_r)).
      by apply date_iso_read; [simpl; lia|].
Qed.

(** ** Ranges *)

Lemma split_loop_join sep : sep ≠ [] → ∀ s acc k,
  (k = 0%nat ∨ acc = []) → Fts.join sep (split_loop sep acc s k) = acc ++ drop k s ∧ split_loop sep acc s k ≠ [].
Proof.
  intros Hsep. induction s as [|r s IH]; intros acc k Hk; destruct k as [|k]; cbn [split_loop].
  - simpl. by rewrite app_nil_r.
  - simpl. by rewrite app_nil_r.
  - case_bool_decide as Ht.
    + destruct (IH [] (length sep - 1)%nat) as [Hj Hne]; [by right|]. split; [|done].
      destruct (split_loop sep [] s (length sep - 1)) as [|x l] eqn:E; [done|].
      change (Fts.join sep (acc :: x :: l)) with (acc ++ sep ++ Fts.join sep (x :: l)). rewrite Hj. f_equal.
      rewrite drop_0, <-Ht at 1. simpl. destruct sep as [|c sep]; [done|]. simpl in *. rewrite Nat.sub_0_r.
      f_equal. apply take_drop.
    + destruct (IH (acc ++ [r]) 0%nat) as [Hj Hne]; [by left|]. rewrite Hj, !drop_0, <-app_assoc. done.
  - destruct Hk as [|Hk]; [done|]. apply IH. by right.
Qed.

Lemma Split_join s sep : sep ≠ [] → Fts.join sep (Split s sep) = s.
Proof. intros Hs. unfold Split. by rewrite (proj1 (split_loop_join sep Hs s [] 0%nat (or_introl eq_refl))). Qed.

Lemma split_loop_skip sep c s t acc :
  head sep = Some c → c ∉ s → split_loop sep acc (s ++ t) 0 = split_loop sep (acc ++ s) t 0.
Proof.
  intros Hc. revert acc. induction s as [|r s IH]; intros acc Hs; [by rewrite app_nil_r|].
  apply not_elem_of_cons in Hs as [Hr Hs]. destruct sep as [|c' sep]; [done|]. injection Hc as ->.
  cbn [app split_loop]. rewrite bool_decide_eq_false_2 by (cbn; congruence). rewrite IH by done.
  by rewrite <-app_assoc.
Qed.

Lemma Split_single s : 32 ∉ s → Split s (runes_of " to ") = [s].
Proof.
  intros Hs. unfold Split. rewrite <-(app_nil_r s) at 1. by rewrite (split_loop_skip _ 32).
Qed.

Lemma Split_two a b : 32 ∉ a → 32 ∉ b → Split (a ++ runes_of " to " ++ b) (runes_of " to ") = [a; b].
Proof.
  intros Ha Hb. unfold Split. rewrite (split_loop_skip _ 32) by done. cbn [app runes_of].
  change (runes_of " to " ++ b) with (32 :: 116 :: 111 :: 32 :: b). cbn.
  f_equal. rewrite <-(app_nil_r b) at 1. by rewrite (split_loop_skip _ 32).
Qed.

(** The texts of a date, a month or a year. *)
Definition range_text (r : DateRange) : runes :=
  match r with
  | RDate d => IsoDateString d
  | RMonthAndYear m y => appendInt 4 y ++ 45 :: appendInt 2 m
  | RYear y => appendInt 4 y
  | RDates _ _ => []
  end.
Definition range_ok (r : DateRange) : Prop :=
  match r with
  | RDate d => 0 ≤ Year d ≤ 9999 ∧ calendar_date d
  | RMonthAndYear m y => 0 ≤ y ≤ 9999 ∧ 1 ≤ m ≤ 12
  | RYear y => 0 ≤ y ≤ 9999
  | RDates _ _ => False
  end.

Definition date_rune (c : Z) : Prop := IsInt c = true ∨ c = 45.

Lemma number_text_runes w n s : number_text w n s → Forall date_rune s.
Proof. intros (_ & Hs & _). eapply Forall_impl; [exact Hs|]. by left. Qed.

Lemma range_text_shape r :
  range_ok r → Forall date_rune (range_text r)
  ∧ length (range_text r) = match r with RDate _ => 10%nat | RMonthAndYear _ _ => 7%nat | _ => 4%nat end.
Proof.
  assert (∀ y, 0 ≤ y ≤ 9999 → number_text 4 y (appendInt 4 y)) as H4
    by (intros; apply appendInt_text; [|change (10 ^ Z.of_nat 4) with 10000]; lia).
  assert (∀ y, 0 ≤ y ≤ 99 → number_text 2 y (appendInt 2 y)) as H2
    by (intros; apply appendInt_text; [|change (10 ^ Z.of_nat 2) with 100]; lia).
  assert (date_rune 45) as Hd by by right. destruct r as [d| |y|m y]; simpl; [| |intros Hy|intros [Hy Hm]]; [|done| |].
  - intros [Hy Hc]. rewrite IsoDateString_text by done. destruct Hc as [Hm Hdd]. pose proof (days_in_bounds _ (Year d) Hm).
    pose proof (H4 _ Hy) as N1. pose proof (H2 (Month d) ltac:(lia)) as N2. pose proof (H2 (Day d) ltac:(lia)) as N3.
    split; [|rewrite !length_app; cbn [length]; rewrite !length_app; cbn [length]; destruct N1, N2, N3; lia].
    apply Forall_app; split; [exact (number_text_runes _ _ _ N1)|]. constructor; [done|].
    apply Forall_app; split; [exact (number_text_runes _ _ _ N2)|]. constructor; [done|]. exact (number_text_runes _ _ _ N3).
  - pose proof (H4 _ Hy) as N1. split; [exact (number_text_runes _ _ _ N1)|]. by destruct N1.
  - pose proof (H4 _ Hy) as N1. pose proof (H2 m ltac:(lia)) as N2.
    split; [|rewrite !length_app; cbn [length]; destruct N1, N2; lia].
    apply Forall_app; split; [exact (number_text_runes _ _ _ N1)|]. constructor; [done|]. exact (number_text_runes _ _ _ N2).
Qed.

Lemma date_rune_facts `{UnicodeLaws} c : date_rune c → IsSpace c = false ∧ ToLower c = c ∧ c ≠ 32.
Proof.
  intros Hc. assert (45 ≤ c ≤ 57 ∧ c ≠ 46 ∧ c ≠ 47) as Hr by (destruct Hc as [?%IsInt_range| ->]; lia).
  rewrite ascii_ToLower by lia. unfold ascii_upper, IsSpace. split_and!; [|destruct (Z.leb_spec 65 c); [lia|done]|lia].
  repeat (apply orb_false_iff; split); try (apply Z.eqb_neq; lia).
  all: apply andb_false_iff; rewrite !Z.leb_gt; lia.
Qed.

Lemma parse_month_spec s t :
  parse_month s = Ok t ↔
  ∃ y m sy sm, s = sy ++ 45 :: sm ∧ number_text 4 y sy ∧ number_text 2 m sm ∧ 1 ≤ m ≤ 12 ∧ t = time_Date y m 1 0 0.
Proof.
  unfold parse_month. split.
  - intros ([y s1] & Hy & Hp)%bind_Ok. apply getnum_spec in Hy as (sy & -> & Hy).
    apply bind_Ok in Hp as ([m s2] & Hm & Hp). apply get_month_spec in Hm as (sm & -> & Hm & Hm12).
    apply at_end_spec in Hp as [-> <-]. rewrite app_nil_r. by exists y, m, sy, sm.
  - intros (y & m & sy & sm & -> & Hy & Hm & Hm12 & ->).
    apply bind_Ok. eexists (y, _). split; [apply getnum_spec; eauto|].
    apply bind_Ok. exists (m, []). split; [apply get_month_spec; exists sm; by rewrite app_nil_r|done].
Qed.

Lemma parse_year_spec s t : parse_year s = Ok t ↔ ∃ y, number_text 4 y s ∧ t = time_Date y 1 1 0 0.
Proof.
  unfold parse_year. split.
  - intros ([y s1] & Hy & Hp)%bind_Ok. apply getnum_spec in Hy as (sy & -> & Hy).
    apply at_end_spec in Hp as [-> <-]. rewrite app_nil_r. by exists y.
  - intros (y & Hy & ->). apply bind_Ok. exists (y, []). split; [apply getnum_spec; exists s; by rewrite app_nil_r|done].
Qed.

Lemma first_of_month m y : 1 ≤ m ≤ 12 → exists_date y m 1.
Proof. intros Hm. pose proof (days_in_bounds m y Hm). split; lia. Qed.

Lemma uint16_small n : 0 ≤ n < 65536 → uint16 n = n.
Proof. intros. unfold uint16, wrap. apply Z.mod_small. lia. Qed.

(** What a text without separator is read as. *)
Definition read_term (str : runes) : outcome rangeError DateRange :=
  match NewDateFromIsoString str with
  | Ok date => Ok (RDate date)
  | _ =>
      match parse_month str with
      | Ok t => Ok (NewDateRangeFromMonthAndYear (t_Month t) (uint16 (t_Year t)))
      | _ => match parse_year str with Ok t => Ok (NewDateRangeFromYear (uint16 (t_Year t))) | _ => Err ErrInvalidRange end
      end
  end.

Lemma read_term_not_date s : length s ≠ 10%nat → ∀ d, NewDateFromIsoString s ≠ Ok d.
Proof.
  intros Hl d (Hy & Hc & Ht)%date_iso_write. destruct (range_text_shape (RDate d) (conj Hy Hc)) as [_ Hl'].
  cbn [range_text] in Hl'. congruence.
Qed.

Lemma year_text y : 0 ≤ y ≤ 9999 → number_text 4 y (appendInt 4 y).
Proof. intros Hy. apply appendInt_text; [lia|]. change (10 ^ Z.of_nat 4) with 10000. lia. Qed.

Lemma read_term_text r : range_ok r → read_term (range_text r) = Ok r.
Proof.
  intros Hr. destruct (range_text_shape r Hr) as [_ Hl]. unfold read_term. destruct r as [d| |y|m y]; [|done| |].
  - destruct Hr. cbn [range_text]. by rewrite date_iso_read.
  - pose proof (read_term_not_date _ (ltac:(by rewrite Hl) : length (range_text (RYear y)) ≠ 10%nat)) as Hd.
    assert (∀ t, parse_month (range_text (RYear y)) ≠ Ok t) as Hm.
    { intros t (y' & m' & sy & sm & E & (L1 & _) & (L2 & _) & _)%parse_month_spec. rewrite E, length_app in Hl. cbn in Hl. lia. }
    rewrite (proj2 (parse_year_spec (range_text (RYear y)) (time_Date y 1 1 0 0))) by (exists y; by split; [apply year_text|]).
    unfold t_Year. rewrite t_civil_Date by (apply first_of_month; lia). simpl in Hr |- *. rewrite uint16_small by lia.
    destruct (NewDateFromIsoString _) as [d| |]; [by destruct (Hd d)| |];
      (destruct (parse_month _) as [t| |]; [by destruct (Hm t)|done|done]).
  - destruct Hr as [Hy Hm].
    pose proof (read_term_not_date _ (ltac:(by rewrite Hl) : length (range_text (RMonthAndYear m y)) ≠ 10%nat)) as Hd.
    rewrite (proj2 (parse_month_spec _ (time_Date y m 1 0 0))).
    + unfold t_Year, t_Month. rewrite t_civil_Date by by apply first_of_month. cbn [fst snd]. rewrite uint16_small by lia.
      by destruct (NewDateFromIsoString _) as [d| |]; [destruct (Hd d)| |].
    + exists y, m, (appendInt 4 y), (appendInt 2 m). split_and!; [done|by apply year_text| |lia|lia|done].
      apply appendInt_text; [lia|]. change (10 ^ Z.of_nat 2) with 100. lia.
Qed.

Section range_text.
Context `{UnicodeLaws}.

Lemma date_runes_plain s : s ≠ [] → Forall date_rune s → ToLower <$> TrimSpace s = s ∧ 32 ∉ s.
Proof.
  intros Hne Hs. split.
  - rewrite Fts.TrimSpace_id.
    + rewrite <-(list_fmap_id s) at 2. apply list_fmap_ext. intros i c Hc. apply date_rune_facts.
      by eapply Forall_lookup in Hs.
    + destruct s as [|c s]; [done|]. apply Forall_cons in Hs as [Hc _]. by apply date_rune_facts.
    + destruct s as [|c s _] using rev_ind; [done|]. apply Forall_app in Hs as [_ [Hc _]%Forall_cons].
      exists s, c. split; [done|]. by apply date_rune_facts.
  - intros H32. eapply Forall_forall in Hs; [|exact H32]. by apply date_rune_facts in Hs as (_ & _ & ?).
Qed.

Lemma read_one fuel r : range_ok r → NewDateRangeFromString_rec (S fuel) (range_text r) = Ok r.
Proof.
  intros Hr. destruct (range_text_shape r Hr) as [Hs Hl].
  assert (range_text r ≠ []) as Hne by (intros E; rewrite E in Hl; by destruct r).
  destruct (date_runes_plain _ Hne Hs) as [Hp H32]. cbn [NewDateRangeFromString_rec]. rewrite Hp, Split_single by done.
  change (match range_text r with [] => Ok NewNilDateRange | _ => read_term (range_text r) end = Ok r).
  rewrite read_term_text by done. by destruct (range_text r).
Qed.

(** The separator survives the normalisation between two terms. *)
Lemma two_terms_plain a b :
  a ≠ [] → b ≠ [] → Forall date_rune a → Forall date_rune b →
  ToLower <$> TrimSpace (a ++ runes_of " to " ++ b) = a ++ runes_of " to " ++ b.
Proof.
  intros Ha Hb Hda Hdb. destruct (date_runes_plain a Ha Hda) as [La _]. destruct (date_runes_plain b Hb Hdb) as [Lb _].
  assert (∀ s, Forall date_rune s → ToLower <$> s = s) as Hlow.
  { intros s Hs. rewrite <-(list_fmap_id s) at 2. apply list_fmap_ext. intros i c Hc. apply date_rune_facts.
    by eapply Forall_lookup in Hs. }
  rewrite Fts.TrimSpace_id.
  - assert (ToLower <$> runes_of " to " = runes_of " to ") as Hto by (cbn; rewrite !ascii_ToLower by lia; reflexivity).
    by rewrite !fmap_app, Hto, !Hlow.
  - destruct a as [|c a]; [done|]. apply Forall_cons in Hda as [Hc _]. by apply date_rune_facts.
  - destruct b as [|c b _] using rev_ind; [done|]. apply Forall_app in Hdb as [_ [Hc _]%Forall_cons].
    exists (a ++ runes_of " to " ++ b), c. rewrite <-!app_assoc. split; [done|]. by apply date_rune_facts.
Qed.

(** A date range is read as it is written: the text of a date, of a month or of a year is read back as that range, and two of them joined by to as the range from the start of the first to the end of the second. *)
Theorem daterange_reads r1 r2 :
  range_ok r1 → range_ok r2 →
  NewDateRangeFromString (range_text r1) = Ok r1
  ∧ NewDateRangeFromString (range_text r1 ++ runes_of " to " ++ range_text r2) = Ok (RDates (Start r1) (End r2)).
Proof.
  intros H1 H2. split; [by apply read_one|]. unfold NewDateRangeFromString. rewrite length_app.
  destruct (range_text_shape r1 H1) as [S1 L1], (range_text_shape r2 H2) as [S2 L2].
  assert (range_text r1 ≠ []) as N1 by (intros E; rewrite E in L1; by destruct r1).
  assert (range_text r2 ≠ []) as N2 by (intros E; rewrite E in L2; by destruct r2).
  destruct (length (range_text r1)) as [|n] eqn:En; [by destruct r1|].
  remember (S n + length (runes_of " to " ++ range_text r2))%nat as fuel eqn:Hf.
  cbn [NewDateRangeFromString_rec]. rewrite two_terms_plain by done.
  rewrite Split_two by (by apply date_runes_plain). subst fuel. cbn [Nat.add]. rewrite !read_one by done.
  by destruct (range_text r1).
Qed.

(** Reading a range always ends: the parts of a text are shorter than it. *)
Lemma Split_shorter s a b : Split s (runes_of " to ") = [a; b] → (length a < length s)%nat ∧ (length b < length s)%nat.
Proof.
  intros E. pose proof (Split_join s (runes_of " to ") ltac:(done)) as J. rewrite E in J. cbn in J. subst s.
  rewrite length_app. cbn. lia.
Qed.

Lemma length_trim_left s : (length (trim_left s) ≤ length s)%nat.
Proof. induction s as [|r s IH]; simpl; [done|]. destruct (IsSpace r); simpl; lia. Qed.

Lemma length_TrimSpace s : (length (TrimSpace s) ≤ length s)%nat.
Proof.
  unfold TrimSpace. rewrite length_rev. etrans; [apply length_trim_left|]. rewrite length_rev. apply length_trim_left.
Qed.

Lemma daterange_total fuel : ∀ s, (length s < fuel)%nat → NewDateRangeFromString_rec fuel s ≠ Panic.
Proof.
  induction fuel as [|fuel IH]; intros s Hs; [lia|]. cbn [NewDateRangeFromString_rec].
  set (u := ToLower <$> TrimSpace s). assert (length u ≤ length s)%nat as Hu by (subst u; rewrite length_fmap; apply length_TrimSpace).
  clearbody u. destruct u as [|c u]; [done|].
  destruct (Split (c :: u) (runes_of " to ")) as [|x [|y [|z l]]] eqn:E; try done; [by repeat case_match|].
  apply Split_shorter in E as [Hx Hy].
  pose proof (IH x ltac:(lia)) as Px. pose proof (IH y ltac:(lia)) as Py. by repeat case_match.
Qed.

End range_text.

(** ** Where ranges end *)

Lemma day_after y m d n : 1 ≤ m ≤ 12 → time_Date y m d 24 n = time_Date y m (d + 1) 0 n.
Proof.
  intros Hm. unfold time_Date, days_of. f_equal.
  rewrite (Z.div_small (m - 1) 12), (Z.mod_small (m - 1) 12) by lia. lia.
Qed.

(** The first day of the month after [m]. *)
Definition next_month (m y : Z) : Z * Z := if m =? 12 then (1, y + 1) else (m + 1, y).

Lemma month_end y m k n :
  1 ≤ m ≤ 12 →
  time_Date y m (days_in m y + 1 + k) 0 n = time_Date (next_month m y).2 (next_month m y).1 (1 + k) 0 n.
Proof.
  intros Hm. unfold next_month. destruct (Z.eqb_spec m 12) as [-> |Hne]; cbn [fst snd]; unfold time_Date, days_of; f_equal.
  - change ((12 - 1) / 12) with 0. change ((12 - 1) `mod` 12 + 1) with 12. change ((1 - 1) / 12) with 0.
    change ((1 - 1) `mod` 12 + 1) with 1. rewrite !Z.add_0_r, days_before_year_succ. unfold days_in.
    change (12 + 1) with 13. change (days_before_month (is_leap (y + 1)) 1) with 0.
    change (days_before_month (is_leap y) 13) with (365 + if is_leap y then 1 else 0). lia.
  - replace (m + 1 - 1) with m by lia. rewrite (Z.div_small (m - 1) 12), (Z.mod_small (m - 1) 12) by lia.
    rewrite (Z.div_small m 12), (Z.mod_small m 12) by lia. rewrite !Z.add_0_r. unfold days_in.
    replace (m - 1 + 1) with m by lia. lia.
Qed.

(** Ranges of consecutive months and years meet: the range of a year ends where the next year begins and the range of a month ends where the next month begins, except for February of a century that is no leap year, whose range reaches one day into March. *)
Theorem daterange_tiles m y :
  1 ≤ y → 1 ≤ m ≤ 12 →
  EndTime (RYear y) = StartTime (RYear (y + 1))
  ∧ let '(m', y') := next_month m y in
    let day := if bool_decide (m = 2 ∧ y `mod` 100 = 0 ∧ y `mod` 400 ≠ 0) then 1 else 0 in
    EndTime (RMonthAndYear m y) = time_Date y' m' (1 + day) 0 0
    ∧ StartTime (RMonthAndYear m' y') = time_Date y' m' 1 0 0.
Proof.
  intros Hy Hm. unfold EndTime, StartTime, EndOfDayTime. cbn [End Start Year Month Day]. split.
  - rewrite day_after by lia. assert (days_in 12 y = 31) as E by (unfold days_in; by destruct (is_leap y)).
    replace (31 + 1) with (days_in 12 y + 1 + 0) by lia. rewrite month_end by lia. unfold next_month. simpl. rewrite Date_Time_parts; [done|].
    destruct (Z.eqb_spec (y + 1) 1); [lia|done].
  - destruct (next_month m y) as [m' y'] eqn:En. split.
    + rewrite day_after, numDaysInMonth_days_in by done.
      set (k := if bool_decide _ then 1 else 0). replace (days_in m y + k + 1) with (days_in m y + 1 + k) by lia.
      rewrite month_end by done. by rewrite En.
    + apply Date_Time_parts. unfold next_month in En.
      destruct (Z.eqb_spec m 12), (Z.eqb_spec y' 1), (Z.eqb_spec m' 1); simpl; try done; exfalso; simplify_eq; lia.
Qed.

Lemma daterange_tiles_witness :
  EndTime (RYear 2023) = StartTime (RYear 2024)
  ∧ EndTime (RMonthAndYear 2 1900) = time_Date 1900 3 2 0 0 ∧ StartTime (RMonthAndYear 3 1900) = time_Date 1900 3 1 0 0.
Proof. split; [apply (daterange_tiles 2 2023); lia|]. exact (proj2 (daterange_tiles 2 1900 ltac:(lia) ltac:(lia))). Defined.

Lemma date_valid_calendar_witness :
  IsValid (mkDate 1900 2 29) = true ∧ NewDateFromIsoString (IsoDateString (mkDate 1900 2 29)) = Ok (mkDate 1900 3 1).
Proof.
  assert (century_leap_day (mkDate 1900 2 29)) as Hc by by split_and!.
  destruct (date_valid_calendar (mkDate 1900 2 29)) as [Hv Hr]. split.
  - apply Hv. split; [simpl; lia|by right].
  - apply Hr. split; [simpl; lia|done].
Defined.

Lemma daterange_reads_witness :
  NewDateRangeFromString (H := ascii_unicode) (runes_of "2020-02 to 2022") = Ok (RDates (mkDate 2020 2 1) (mkDate 2022 12 31)).
Proof.
  exact (proj2 (@daterange_reads ascii_unicode ascii_unicode_laws (RMonthAndYear 2 2020) (RYear 2022) ltac:(simpl; lia) ltac:(simpl; lia))).
Defined.

(** ** Finding a date in a name *)

Section lexer_spec.
Context `{Unicode} `{UnicodeTables}.
Import Regex.

Lemma matches_repeat_exact n c p q :
  matches (repeat_exact n (Class_ false false c)) p q
  ↔ ∃ u, reads p u q ∧ length u = n ∧ Forall (λ r, class_has false false c r = true) u.
Proof.
  revert p. induction n as [|n IH]; intros p; cbn [repeat_exact].
  - rewrite matches_empty. split; [intros ->; exists []; split_and!; [constructor|done|constructor]|].
    intros (u & Hu & Hl & _). destruct u; [|done]. by inversion Hu.
  - rewrite matches_seq. split.
    + intros (p' & (r & Hr & Hc)%matches_class & (u & Hu & Hl & HF)%IH).
      exists ([r] ++ u). rewrite reads_app. split_and!; [by eauto|simpl; lia|by constructor].
    + intros (u & Hu & Hl & HF). destruct u as [|r u]; [done|]. apply (reads_app _ [r]) in Hu as (p' & Hr & Hu).
      inversion HF; subst. exists p'. split; [apply matches_class; by eauto|]. apply IH. eauto.
Qed.

(** A pattern anchored at both ends matches the whole text. *)
Lemma MatchString_anchored body n P s :
  (∀ p q, matches body p q ↔ ∃ u, reads p u q ∧ P u) →
  MatchString (mkRegexp (Seq (Seq (Seq Empty BeginText) body) EndText) n) s = true ↔ P s.
Proof.
  intros Hb. rewrite MatchString_reads. cbn [prog]. split.
  - intros (u & p & q & Hu & (q1 & (q2 & (q3 & ->%matches_empty & Hbeg)%matches_seq & Hbody)%matches_seq & Hend)%matches_seq).
    inversion Hbeg as [| | | | | | | | |? Hp| |]; subst. inversion Hend as [| | | | | | | | | |? Hq|]; subst.
    apply Hb in Hbody as (v & Hv & HP). pose proof (reads_before _ _ _ Hu) as Hbf. rewrite Hp in Hbf.
    destruct u as [|r u _] using rev_ind; [|by rewrite last_snoc in Hbf].
    apply reads_left in Hu, Hv. simpl in Hu. rewrite Hu, Hv, Hq, app_nil_r. done.
  - intros HP. destruct (reads_exists (start s) s []) as (q & Hq & Hl); [by rewrite app_nil_r|].
    exists [], (start s), q. split; [constructor|]. rewrite matches_seq. exists q. split; [|by constructor].
    rewrite matches_seq. exists (start s). split; [|apply Hb; by eauto].
    rewrite matches_seq. exists (start s). split; by constructor.
Qed.

Lemma digit_class r : class_has false false [Range 48 57] r = IsInt r.
Proof. unfold class_has, IsInt. cbn. by rewrite !orb_false_r. Qed.

Definition digits (n : nat) (w : runes) : Prop := length w = n ∧ Forall (λ r, IsInt r = true) w.

Lemma digits_class n w :
  (length w = n ∧ Forall (λ r, class_has false false [Range 48 57] r = true) w) ↔ digits n w.
Proof. unfold digits. f_equiv. apply Forall_iff. intros r. by rewrite digit_class. Qed.

Lemma regex1Digit_match w : MatchString regex1Digit w = true ↔ digits 1 w.
Proof.
  apply MatchString_anchored. intros p q. rewrite matches_class. setoid_rewrite digit_class. split.
  - intros (r & Hr & Hc). exists [r]. split; [done|]. by split; [|constructor].
  - intros (u & Hu & Hl & HF). destruct u as [|r [|]]; try done. exists r. by inversion HF.
Qed.
Lemma regex2Digits_match w : MatchString regex2Digits w = true ↔ digits 2 w.
Proof.
  apply MatchString_anchored. intros p q.
  change (matches (Seq (repeat_exact 2 (Class_ false false [Range 48 57])) Empty) p q ↔ ∃ u, reads p u q ∧ digits 2 u).
  rewrite matches_seq. setoid_rewrite matches_repeat_exact. setoid_rewrite digits_class. setoid_rewrite matches_empty.
  split; [intros (q' & (u & Hu & Hd) & ->)|intros (u & Hu & Hd)]; eauto.
Qed.
Lemma regex4Digits_match w : MatchString regex4Digits w = true ↔ digits 4 w.
Proof.
  apply MatchString_anchored. intros p q.
  change (matches (Seq (repeat_exact 4 (Class_ false false [Range 48 57])) Empty) p q ↔ ∃ u, reads p u q ∧ digits 4 u).
  rewrite matches_seq. setoid_rewrite matches_repeat_exact. setoid_rewrite digits_class. setoid_rewrite matches_empty.
  split; [intros (q' & (u & Hu & Hd) & ->)|intros (u & Hu & Hd)]; eauto.
Qed.

(** ** The parts of a name *)

Definition all_word (w : runes) : Prop := w ≠ [] ∧ Forall (λ r, IsWordChar r = true) w.
Definition all_break (w : runes) : Prop := w ≠ [] ∧ Forall (λ r, IsWordChar r = false) w.
Definition break_part (b : runes) : datePart := mkDatePart zero datePartNonWordChars b.
Definition starts (b : bool) (t : runes) : Prop := match t with r :: _ => IsWordChar r = b | [] => True end.

(** A name cut into its runs of word characters and of others. *)
Inductive cut : runes → list datePart → Prop :=
| cut_nil : cut [] []
| cut_word w t ps : all_word w → starts false t → cut t ps → cut (w ++ t) (word_part w :: ps)
| cut_break b t ps : all_break b → starts true t → cut t ps → cut (b ++ t) (break_part b :: ps).

Lemma span_cut fn t : Forall (λ r, fn r = true) (span fn t).1 ∧ t = (span fn t).1 ++ (span fn t).2
  ∧ match (span fn t).2 with r :: _ => fn r = false | [] => True end.
Proof.
  induction t as [|r t IH]; simpl; [done|]. destruct (fn r) eqn:Hr; [|done].
  destruct (span fn t) as [a b]. simpl in *. destruct IH as (H1 & H2 & H3). split_and!; [by constructor|by f_equal|done].
Qed.

Lemma lexDatePart_cut l t ps :
  at_rest l t → t ≠ [] → ∃ p l' t', lexDatePart l = Ok (p, l') ∧ at_rest l' t' ∧ (length t' < length t)%nat
    ∧ (cut t' ps → cut t (p :: ps)).
Proof.
  intros Hl Hne. unfold lexDatePart. destruct (ReadWhile_spec (E := Empty_set) IsWordChar l t Hl) as (l1 & -> & Hl1).
  destruct (span_cut IsWordChar t) as (Hw & Et & Hs). cbn [mbind outcome_bind].
  destruct (span IsWordChar t) as [[|c w] t1]; cbn [fst snd] in *.
  - destruct (ReadWhile_spec (E := Empty_set) IsNonWordChar l1 t1 Hl1) as (l2 & -> & Hl2).
    destruct (span_cut IsNonWordChar t1) as (Hb & Et1 & Hs1). cbn [mbind outcome_bind].
    destruct (span IsNonWordChar t1) as [b t2]; cbn [fst snd] in *. simpl in Et. subst t t1.
    destruct b as [|r b]; [simpl in *; destruct t2 as [|r t2]; [done|]; unfold IsNonWordChar in Hs1; rewrite Hs in Hs1; done|].
    do 3 eexists. split; [done|]. split; [done|]. split; [simpl; rewrite length_app; lia|]. intros Hc.
    apply (cut_break (r :: b)); [split; [done|]| |done].
    + eapply Forall_impl; [exact Hb|]. intros x. unfold IsNonWordChar. by intros ?%negb_true_iff.
    + destruct t2; [done|]. unfold IsNonWordChar in Hs1. by apply negb_false_iff in Hs1.
  - do 3 eexists. split; [done|]. split; [done|]. rewrite Et. split; [simpl; rewrite length_app; lia|]. intros Hc.
    apply (cut_word (c :: w)); [by split| |done]. by destruct t1.
Qed.

Lemma lexDateParts_loop_cut fuel : ∀ acc l t,
  at_rest l t → (length t < fuel)%nat → ∃ ps l', lexDateParts_loop fuel acc l = Ok (acc ++ ps, l') ∧ cut t ps.
Proof.
  induction fuel as [|fuel IH]; intros acc l t Hl Hf; [lia|]. cbn [lexDateParts_loop].
  destruct (IsEOF_spec (E := Empty_set) l t Hl) as (l1 & -> & Hl1). cbn [mbind outcome_bind].
  case_bool_decide as He; [subst t; exists [], l1; rewrite app_nil_r; split; [done|constructor]|].
  destruct (lexDatePart_cut l1 t [] Hl1 He) as (p & l2 & t2 & Ep & Hl2 & Hlt & _). rewrite Ep. cbn [mbind outcome_bind].
  destruct (IH (acc ++ [p]) l2 t2 Hl2) as (ps & l3 & -> & Hc); [lia|].
  exists (p :: ps), l3. split; [by rewrite <-app_assoc|].
  destruct (lexDatePart_cut l1 t ps Hl1 He) as (p' & l2' & t2' & Ep' & Hl2' & _ & Hcut).
  rewrite Ep in Ep'. injection Ep' as <- <-. apply Hcut. unfold at_rest in *. by subst.
Qed.

Lemma ParseDate_cut s : ∃ ps, cut s ps ∧ ParseDate s = lexDate_loop (S (length ps)) ps 0 true.
Proof.
  destruct (lexDateParts_loop_cut (S (length s)) [] (NewLexer s) s) as (ps & l & E & Hc); [done|lia|].
  exists ps. split; [done|]. unfold ParseDate, lexDate, lexDateParts. cbn [NewLexer rest]. by rewrite E.
Qed.

Lemma word_part_literal w : dp_literal (word_part w) = w.
Proof. unfold word_part. by repeat case_match. Qed.
Lemma word_part_not_break w : is_break (word_part w) = false.
Proof. unfold word_part, is_break. by repeat case_match. Qed.

(** [at_break ps i]: position [i] is the first or follows a break. *)
Definition at_break (ps : list datePart) (i : nat) : Prop :=
  i = 0%nat ∨ ∃ j p, i = S j ∧ ps !! j = Some p ∧ is_break p = true.

(** A date found at position [i]. *)
Definition found_at (ps : list datePart) (i : nat) (d : Date) : Prop :=
  ∃ p1 sep p2 sep2 p3,
    ps !! i = Some p1 ∧ ps !! (i + 1)%nat = Some sep ∧ ps !! (i + 2)%nat = Some p2 ∧ ps !! (i + 3)%nat = Some sep2
    ∧ ps !! (i + 4)%nat = Some p3
    ∧ (S (i + 4) = length ps ∨ ∃ p, ps !! (i + 5)%nat = Some p ∧ is_break p = true)
    ∧ is_break sep = true ∧ dp_literal sep ∈ separators ∧ dp_literal sep2 = dp_literal sep
    ∧ has_date p1 = true ∧ has_date p2 = true ∧ has_date p3 = true
    ∧ d = findFirstValidDate (dp_Date p1) (dp_Date p2) (dp_Date p3) ∧ d ≠ zero.

Lemma lookup_part (ps : list datePart) i : (i < length ps)%nat → ∃ p, ps !! i = Some p.
Proof. intros Hi. by apply lookup_lt_is_Some. Qed.

Lemma at_break_next ps j p b :
  ps !! j = Some p → (b = true → is_break p = true) → b = true → at_break ps (S j).
Proof. intros Hp Hb Ht. right. exists j, p. auto. Qed.

Lemma lexDate_turn_spec ps i b :
  (i + 5 ≤ length ps)%nat → (b = true → at_break ps i) →
  (∃ d, lexDate_turn ps i b = Ok (inl d) ∧ b = true ∧ found_at ps i d)
  ∨ ∃ j b', lexDate_turn ps i b = Ok (inr (j, b')) ∧ (i < j)%nat ∧ (b' = true → at_break ps j).
Proof.
  intros Hi Hb. destruct (lookup_part ps i) as [p1 E1]; [lia|]. destruct (lookup_part ps (i + 1)) as [s1 E2]; [lia|].
  destruct (lookup_part ps (i + 2)) as [p2 E3]; [lia|]. destruct (lookup_part ps (i + 3)) as [s2 E4]; [lia|].
  destruct (lookup_part ps (i + 4)) as [p3 E5]; [lia|].
  assert (∀ j p b0, ps !! j = Some p → (i ≤ j)%nat → (b0 = true → is_break p = true) →
    ∃ j' b', Ok (E := Empty_set) (A := Date + nat * bool) (inr (S j, b0)) = Ok (inr (j', b')) ∧ (i < j')%nat ∧ (b' = true → at_break ps j')) as Hnext.
  { intros j p b0 Hp Hj Hb0. do 2 eexists. split; [done|]. split; [lia|]. intros. by eapply at_break_next. }
  unfold lexDate_turn. rewrite E1, E2, E3, E4, E5. cbn [of_option mbind outcome_bind].
  destruct b; cbn [negb]; [|right; by eapply Hnext].
  destruct (has_date p1) eqn:D1; [|right; by eapply Hnext].
  destruct (is_break s1) eqn:B1; [|right; replace (i + 2)%nat with (S (i + 1)) by lia; eapply Hnext; [done|lia|done]].
  case_bool_decide as Hsep; [|right; replace (i + 2)%nat with (S (i + 1)) by lia; eapply Hnext; [done|lia|done]].
  destruct (has_date p2) eqn:D2; [|right; replace (i + 3)%nat with (S (i + 2)) by lia; eapply Hnext; [done|lia|done]].
  case_bool_decide as Hlit; cbn [negb]; [|right; replace (i + 4)%nat with (S (i + 3)) by lia; eapply Hnext; [done|lia|done]].
  assert (∃ last, (if bool_decide (S (i + 4) = length ps) then Ok true
                   else next ← of_option (ps !! (i + 5)%nat); Ok (is_break next)) = Ok (E := Empty_set) last
          ∧ (last = true → S (i + 4) = length ps ∨ ∃ p, ps !! (i + 5)%nat = Some p ∧ is_break p = true)) as (lst & -> & Hlast).
  { case_bool_decide; [by exists true; eauto|]. destruct (lookup_part ps (i + 5)) as [p E6]; [lia|]. rewrite E6.
    exists (is_break p). split; [done|]. eauto. }
  cbn [mbind outcome_bind].
  destruct (has_date p3 && lst) eqn:D3;
    [|right; replace (i + 5)%nat with (S (i + 4)) by lia; eapply Hnext; [done|lia|done]].
  apply andb_true_iff in D3 as [D3 ->].
  destruct (IsNil _) eqn:Hnil; cbn [negb];
    [right; replace (i + 5)%nat with (S (i + 4)) by lia; eapply Hnext; [done|lia|done]|].
  left. eexists. split; [done|]. split; [done|]. exists p1, s1, p2, s2, p3.
  unfold IsNil in Hnil. apply bool_decide_eq_false in Hnil. split_and!; auto.
Qed.

Lemma lexDate_loop_spec ps fuel : ∀ i b,
  (length ps < fuel + i)%nat → (0 < fuel)%nat → (b = true → at_break ps i) →
  ∃ d, lexDate_loop fuel ps i b = Ok d ∧ (d = zero ∨ ∃ j, at_break ps j ∧ found_at ps j d).
Proof.
  induction fuel as [|fuel IH]; intros i b Hf Hpos Hb; [lia|]. cbn [lexDate_loop].
  destruct (Nat.leb_spec (i + minParts) (length ps)) as [Hi|Hi]; [|by eauto]. unfold minParts in Hi.
  destruct (lexDate_turn_spec ps i b Hi Hb) as [(d & -> & Hbt & Hd) | (j & b' & -> & Hj & Hb')]; cbn [mbind outcome_bind].
  - exists d. split; [done|]. right. exists i. auto.
  - apply IH; [lia|lia|done].
Qed.

Lemma cut_cons_inv t p ps :
  cut t (p :: ps) →
  ∃ w u, t = w ++ u ∧ cut u ps ∧ dp_literal p = w
    ∧ (all_word w ∧ p = word_part w ∧ starts false u ∨ all_break w ∧ p = break_part w ∧ starts true u).
Proof.
  inversion 1; subst; do 2 eexists; (split; [done|]); (split; [done|]);
    (split; [first [apply word_part_literal|done]|]); eauto 10.
Qed.

Lemma cut_app ps1 ps2 t : cut t (ps1 ++ ps2) → ∃ v, t = concat (dp_literal <$> ps1) ++ v ∧ cut v ps2.
Proof.
  revert t. induction ps1 as [|p ps1 IH]; intros t Hc; [by exists t|].
  apply cut_cons_inv in Hc as (w & u & -> & Hu & Hw & _). destruct (IH u Hu) as (v & -> & Hv).
  exists v. split; [|done]. cbn [fmap list_fmap concat]. by rewrite Hw, app_assoc.
Qed.

Lemma cut_break_literal t ps p : cut t ps → p ∈ ps → is_break p = true → all_break (dp_literal p).
Proof.
  intros Hc. induction Hc as [|w t ps Hw Hs Hc IH|b t ps Hw Hs Hc IH]; rewrite ?elem_of_cons; [by intros ?%elem_of_nil| |].
  - intros [-> | Hp] Hb; [by rewrite word_part_not_break in Hb|auto].
  - intros [-> | Hp] Hb; [done|auto].
Qed.

Definition ends_break (pre : runes) : Prop := pre = [] ∨ ∃ u r, pre = u ++ [r] ∧ IsWordChar r = false.

Lemma cut_at_break t ps i :
  cut t ps → (i ≤ length ps)%nat → at_break ps i → ∃ pre v, t = pre ++ v ∧ cut v (drop i ps) ∧ ends_break pre.
Proof.
  intros Hc Hi Hb. pose proof Hc as Hc'. rewrite <-(take_drop i ps) in Hc. apply cut_app in Hc as (v & -> & Hv).
  do 2 eexists. split; [done|]. split; [done|]. destruct Hb as [-> | (j & p & -> & Hp & Hbr)]; [by left|]. right.
  apply (cut_break_literal _ _ p Hc') in Hbr as [Hne Hall]; [|by eapply list_elem_of_lookup_2].
  destruct (dp_literal p) as [|r w _] eqn:El using rev_ind; [done|]. apply Forall_app in Hall as [_ [Hr _]%Forall_cons].
  rewrite (take_S_r _ _ p) by done. rewrite fmap_app, concat_app. simpl. rewrite El, app_nil_r, app_assoc. eauto.
Qed.

(** ** What a word may stand for *)

Definition year_word (w : runes) (y : Z) : Prop :=
  (digits 4 w ∧ y = digits_value w) ∨ (digits 2 w ∧ y = 2000 + digits_value w).
Definition month_word (w : runes) (m : Z) : Prop :=
  str_month (ToLower <$> w) = Some m ∨ (digits 1 w ∨ digits 2 w) ∧ m = digits_value w.
Definition day_word (w : runes) (d : Z) : Prop := (digits 1 w ∨ digits 2 w) ∧ d = digits_value w.

Lemma word_part_reads w :
  let d := dp_Date (word_part w) in
  (Year d ≠ 0 → year_word w (Year d)) ∧ (Month d ≠ 0 → month_word w (Month d)) ∧ (Day d ≠ 0 → day_word w (Day d)).
Proof.
  unfold word_part. destruct (str_month _) as [m|] eqn:Em; [simpl; split_and!; try done; by left|].
  assert (∀ n, digits n w → 0 ≤ digits_value w < 10 ^ Z.of_nat n) as Hv by (intros n [<- Hd]; by apply digits_value_bounds).
  destruct (Regex.MatchString regex1Digit w) eqn:R1.
  { apply regex1Digit_match in R1. pose proof (Hv _ R1) as Hb. change (10 ^ Z.of_nat 1) with 10 in Hb. simpl.
    unfold uint8, wrap. rewrite Z.mod_small by lia. split_and!; try done; intros _; [right|]; split; auto. }
  destruct (Regex.MatchString regex2Digits w) eqn:R2.
  { apply regex2Digits_match in R2. pose proof (Hv _ R2) as Hb. change (10 ^ Z.of_nat 2) with 100 in Hb. simpl.
    rewrite uint16_small by lia. unfold uint8, wrap. rewrite Z.mod_small by lia.
    split_and!; [intros _; right; by split| |]; case_match; try done; intros _; [right|]; split; auto. }
  destruct (Regex.MatchString regex4Digits w) eqn:R4; [|by simpl].
  apply regex4Digits_match in R4. pose proof (Hv _ R4) as Hb. change (10 ^ Z.of_nat 4) with 10000 in Hb. simpl.
  rewrite uint16_small by lia. split_and!; try done. intros _. left. by split.
Qed.

(** Three words that spell a valid date, in one of the three orders. *)
Definition spells (a b c : runes) (d : Date) : Prop :=
  IsValid d = true
  ∧ (year_word a (Year d) ∧ month_word b (Month d) ∧ day_word c (Day d)
     ∨ day_word a (Day d) ∧ month_word b (Month d) ∧ year_word c (Year d)
     ∨ month_word a (Month d) ∧ day_word b (Day d) ∧ year_word c (Year d)).

Lemma findFirstValidDate_spells a b c d :
  d = findFirstValidDate (dp_Date (word_part a)) (dp_Date (word_part b)) (dp_Date (word_part c)) → d ≠ zero →
  spells a b c d.
Proof.
  intros -> Hnz. unfold findFirstValidDate in *.
  destruct (word_part_reads a) as (Ya & Ma & Da), (word_part_reads b) as (Yb & Mb & Db), (word_part_reads c) as (Yc & Mc & Dc).
  assert (∀ x, negb (x =? 0) = true → x ≠ 0) as Hn by (intros x ?%negb_true_iff%Z.eqb_neq; done).
  repeat match goal with |- context [if ?e then _ else _] => destruct e eqn:?E end; try done;
    match goal with E : _ && _ = true |- _ => apply andb_true_iff in E as [[[H1%Hn H2%Hn]%andb_true_iff H3%Hn]%andb_true_iff Hv] end;
    (split; [done|]); simpl; auto 10.
Qed.

(** A date in a text: three words around a separator, set off from the rest. *)
Definition dated (s : runes) (d : Date) : Prop :=
  ∃ pre a sep b c post,
    s = pre ++ a ++ sep ++ b ++ sep ++ c ++ post ∧ sep ∈ separators ∧ all_word a ∧ all_word b ∧ all_word c
    ∧ ends_break pre ∧ starts false post ∧ spells a b c d.

(** The five parts from [i] on, and what follows them. *)
Lemma drop_five (ps : list datePart) i p1 p2 p3 p4 p5 :
  ps !! i = Some p1 → ps !! (i + 1)%nat = Some p2 → ps !! (i + 2)%nat = Some p3 → ps !! (i + 3)%nat = Some p4 →
  ps !! (i + 4)%nat = Some p5 → drop i ps = p1 :: p2 :: p3 :: p4 :: p5 :: drop (i + 5) ps.
Proof.
  intros H1 H2 H3 H4 H5. rewrite (drop_S _ p1 i) by done. f_equal. replace (S i) with (i + 1)%nat by lia.
  rewrite (drop_S _ p2) by done. f_equal. replace (S (i + 1)) with (i + 2)%nat by lia.
  rewrite (drop_S _ p3) by done. f_equal. replace (S (i + 2)) with (i + 3)%nat by lia.
  rewrite (drop_S _ p4) by done. f_equal. replace (S (i + 3)) with (i + 4)%nat by lia.
  rewrite (drop_S _ p5) by done. f_equal. f_equal. lia.
Qed.

Lemma cut_starts t ps : cut t ps → (ps = [] ∨ ∃ p qs, ps = p :: qs ∧ is_break p = true) → starts false t.
Proof.
  intros Hc Hp. destruct Hc as [|w t ps Hw _ _|b t ps [Hne Hb] _ _]; [done| |].
  - destruct Hp as [|(p & qs & [= <- <-] & Hbr)]; [done|]. by rewrite word_part_not_break in Hbr.
  - destruct b as [|r b]; [done|]. by inversion Hb.
Qed.

Lemma found_at_dated s ps i d : cut s ps → at_break ps i → found_at ps i d → dated s d.
Proof.
  intros Hc Hb (p1 & sep & p2 & sep2 & p3 & E1 & E2 & E3 & E4 & E5 & Hend & Bs & Hsep & Hlit & D1 & D2 & D3 & Hd & Hnz).
  assert (i + 4 < length ps)%nat as Hlen by by eapply lookup_lt_Some.
  destruct (cut_at_break s ps i Hc) as (pre & v & -> & Hv & Hpre); [lia|done|].
  rewrite (drop_five _ _ _ _ _ _ _ E1 E2 E3 E4 E5) in Hv.
  apply cut_cons_inv in Hv as (a & v1 & -> & Hv & _ & [(Ha & -> & _) | (_ & -> & _)]); [|done].
  apply cut_cons_inv in Hv as (x & v2 & -> & Hv & Hx & [(_ & -> & _) | (Hbx & -> & _)]); [by rewrite word_part_not_break in Bs|].
  apply cut_cons_inv in Hv as (b & v3 & -> & Hv & _ & [(Hwb & -> & _) | (_ & -> & _)]); [|done].
  apply cut_cons_inv in Hv as (y & v4 & -> & Hv & Hy & _).
  apply cut_cons_inv in Hv as (c & post & -> & Hv & _ & [(Hwc & -> & _) | (_ & -> & _)]); [|done].
  rewrite Hlit in Hy. simpl in Hy, Hsep. subst y.
  exists pre, a, x, b, c, post. split_and!; try done.
  - eapply cut_starts; [exact Hv|]. destruct Hend as [Hl | (p & Hp & Hbr)].
    + left. apply drop_ge. lia.
    + right. exists p, (drop (S (i + 5)) ps). split; [by apply drop_S|done].
  - eapply findFirstValidDate_spells; [exact Hd|done].
Qed.

Lemma ParseDate_sound s : ∃ d, ParseDate s = Ok d ∧ (d = zero ∨ dated s d).
Proof.
  destruct (ParseDate_cut s) as (ps & Hc & ->).
  destruct (lexDate_loop_spec ps (S (length ps)) 0 true) as (d & -> & Hd); [lia|lia|by left|].
  exists d. split; [done|]. destruct Hd as [-> | (j & Hb & Hf)]; [by left|]. right. by eapply found_at_dated.
Qed.

Lemma maximal_unique (P : Z → bool) (w w' t t' : runes) :
  Forall (λ r, P r = true) w → Forall (λ r, P r = true) w' →
  (match t with r :: _ => P r = false | [] => True end) → (match t' with r :: _ => P r = false | [] => True end) →
  w ++ t = w' ++ t' → w = w' ∧ t = t'.
Proof.
  intros Hw Hw' Ht Ht' E. pose proof (span_app P w t Hw Ht) as E1. rewrite E, (span_app P w' t' Hw' Ht') in E1.
  by injection E1 as -> ->.
Qed.

Lemma cut_word_inv w t ps :
  cut (w ++ t) ps → all_word w → starts false t → ∃ qs, ps = word_part w :: qs ∧ cut t qs.
Proof.
  intros Hc [Hne Hw] Ht. remember (w ++ t) as s eqn:Es. destruct Hc as [|w' t' qs [_ Hw'] Ht' Hc|b t' qs [Hb Hbr] Ht' Hc].
  - by destruct w.
  - destruct (maximal_unique IsWordChar w' w t' t) as [-> ->]; [done|done|by destruct t'|by destruct t|done|]. eauto.
  - destruct w as [|r w]; [done|]. destruct b as [|r' b]; [done|]. injection Es as -> _.
    inversion Hw. inversion Hbr. congruence.
Qed.

Lemma cut_break_inv b t ps :
  cut (b ++ t) ps → all_break b → starts true t → ∃ qs, ps = break_part b :: qs ∧ cut t qs.
Proof.
  intros Hc [Hne Hb] Ht. remember (b ++ t) as s eqn:Es. destruct Hc as [|w t' qs [Hw' Hw] Ht' Hc|b' t' qs [_ Hb'] Ht' Hc].
  - by destruct b.
  - destruct w as [|r w]; [done|]. destruct b as [|r' b]; [done|]. injection Es as -> _.
    inversion Hw. inversion Hb. congruence.
  - destruct (maximal_unique (λ r, negb (IsWordChar r)) b' b t' t) as [-> ->]; [| | | |done|by eauto].
    1,2: by eapply Forall_impl; [eassumption|]; intros r ->.
    1,2: by destruct t', t; simpl in *; rewrite ?Ht, ?Ht'.
Qed.

Lemma digits_no_month w : w ≠ [] → Forall (λ r, IsInt r = true) w → str_month w = None.
Proof.
  intros Hne Hd. unfold str_month. apply fmap_None, list_find_None. destruct w as [|r w]; [done|].
  apply Forall_cons in Hd as [Hr%IsInt_range _].
  repeat (constructor; [cbn; intros [= <-]; lia|]). constructor.
Qed.

Lemma digits_ne n m w : digits n w → n ≠ m → ¬ digits m w.
Proof. intros [<- _] Hn [? _]. done. Qed.

Lemma not_match (b : bool) (P : Prop) : (b = true ↔ P) → ¬ P → b = false.
Proof. destruct b; tauto. Qed.

Context `{!UnicodeLaws}.

Lemma digit_facts r : IsInt r = true → IsWordChar r = true ∧ ToLower r = r.
Proof.
  intros Hr. pose proof Hr as Hb%IsInt_range. unfold IsWordChar. rewrite ascii_IsDigit, ascii_ToLower by lia.
  change (ascii_digit r) with (IsInt r). rewrite Hr, orb_true_r. unfold ascii_upper. destruct (Z.leb_spec 65 r); [lia|done].
Qed.

Lemma digits_word n w : digits (S n) w → all_word w ∧ str_month (ToLower <$> w) = None.
Proof.
  intros [Hl Hd]. assert (w ≠ []) as Hne by by intros ->. split.
  - split; [done|]. eapply Forall_impl; [exact Hd|]. intros r Hr. by apply digit_facts.
  - rewrite <-(digits_no_month w) by done. f_equal. rewrite <-(list_fmap_id w) at 2. apply list_fmap_ext.
    intros i r Hr. apply digit_facts. by eapply Forall_lookup in Hd.
Qed.

Lemma word_part_four w :
  digits 4 w → dp_Date (word_part w) = mkDate (digits_value w) 0 0.
Proof.
  intros Hd. pose proof (digits_value_bounds w (proj2 Hd)) as Hb. rewrite (proj1 Hd) in Hb. change (10 ^ Z.of_nat 4) with 10000 in Hb.
  unfold word_part. rewrite (proj2 (digits_word 3 w Hd)).
  rewrite (not_match _ _ (regex1Digit_match w) (digits_ne 4 1 w Hd ltac:(done))).
  rewrite (not_match _ _ (regex2Digits_match w) (digits_ne 4 2 w Hd ltac:(done))).
  rewrite (proj2 (regex4Digits_match w) Hd). simpl. by rewrite uint16_small by lia.
Qed.

Lemma word_part_two w :
  digits 2 w → 1 ≤ digits_value w ≤ 31 →
  dp_Date (word_part w)
  = mkDate (2000 + digits_value w) (if digits_value w <=? 12 then digits_value w else 0) (digits_value w).
Proof.
  intros Hd Hv. unfold word_part. rewrite (proj2 (digits_word 1 w Hd)).
  rewrite (not_match _ _ (regex1Digit_match w) (digits_ne 2 1 w Hd ltac:(done))).
  rewrite (proj2 (regex2Digits_match w) Hd). cbn [dp_Date]. rewrite uint16_small by lia.
  unfold uint8, wrap. rewrite Z.mod_small by lia. rewrite (proj2 (Z.leb_le 1 _)), (proj2 (Z.leb_le _ 31)) by lia. done.
Qed.

Lemma dash_break : all_break [45].
Proof.
  split; [done|]. constructor; [|done]. unfold IsWordChar. rewrite ascii_IsLetter, ascii_IsDigit by lia. done.
Qed.

(** The first turn on the parts of an ISO date. *)
Lemma iso_turn d sy sm sd qs :
  IsValid d = true → dp_Date (word_part sy) = mkDate (Year d) 0 0 → Month (dp_Date (word_part sm)) = Month d →
  Day (dp_Date (word_part sd)) = Day d → (qs = [] ∨ ∃ p rest, qs = p :: rest ∧ is_break p = true) →
  lexDate_turn (word_part sy :: break_part [45] :: word_part sm :: break_part [45] :: word_part sd :: qs) 0 true = Ok (inl d).
Proof.
  intros Hv Hy Hm Hd Hqs. pose proof Hv as Hv'. unfold IsValid in Hv'. rewrite !andb_true_iff, !Z.leb_le in Hv'.
  assert (∀ p, Year (dp_Date p) ≠ 0 ∨ Month (dp_Date p) ≠ 0 ∨ Day (dp_Date p) ≠ 0 → has_date p = true) as Hhas.
  { intros p Hp. unfold has_date, IsNil. rewrite bool_decide_eq_false_2; [done|]. intros E. rewrite E in Hp. simpl in Hp. lia. }
  unfold lexDate_turn. cbn [lookup list_lookup Nat.add of_option mbind outcome_bind negb].
  rewrite !Hhas; [|rewrite ?Hy, ?Hm, ?Hd; simpl; lia..].
  change (is_break (break_part [45])) with true. cbn [dp_literal break_part andb].
  rewrite (bool_decide_eq_true_2 ([45] ∈ separators)) by (apply list_elem_of_fmap; exists "-"%string; split; [done|set_solver]).
  rewrite (bool_decide_eq_true_2 ([45] = [45])) by done. cbn [negb].
  assert (findFirstValidDate (dp_Date (word_part sy)) (dp_Date (word_part sm)) (dp_Date (word_part sd)) = d) as Hf.
  { unfold findFirstValidDate. rewrite Hy, Hm, Hd. simpl. replace (mkDate (Year d) (Month d) (Day d)) with d by by destruct d.
    rewrite Hv, !(proj2 (Z.eqb_neq _ _)) by lia. done. }
  rewrite Hf. assert (IsNil d = false) as -> by (unfold IsNil; apply bool_decide_eq_false; intros ->; by vm_compute in Hv).
  destruct Hqs as [-> | (p & rest & -> & Hp)]; cbn [length lookup list_lookup Nat.add of_option mbind outcome_bind].
  - by rewrite bool_decide_eq_true_2.
  - rewrite bool_decide_eq_false_2 by done. simpl. by rewrite Hp.
Qed.

Lemma cut_break_first t ps : cut t ps → starts false t → ps = [] ∨ ∃ p rest, ps = p :: rest ∧ is_break p = true.
Proof.
  intros Hc Ht. destruct Hc as [|w t ps [Hne Hw] _ _|b t ps _ _ _]; [by left| |right; by do 2 eexists].
  destruct w as [|r w]; [done|]. inversion Hw. simpl in Ht. congruence.
Qed.

Lemma ParseDate_iso d post :
  1000 ≤ Year d ≤ 9999 → calendar_date d → starts false post → ParseDate (IsoDateString d ++ post) = Ok d.
Proof.
  intros Hy Hd Hpost. pose proof Hd as [Hm Hdd]. pose proof (days_in_bounds _ (Year d) Hm) as Hdi.
  rewrite IsoDateString_text by done.
  assert (number_text 4 (Year d) (appendInt 4 (Year d))) as (L4 & D4 & V4) by (apply year_text; lia).
  assert (∀ n, 1 ≤ n ≤ 31 → digits 2 (appendInt 2 n) ∧ digits_value (appendInt 2 n) = n) as H2.
  { intros n Hn. destruct (appendInt_text 2 n) as (? & ? & ?); [lia|change (10 ^ Z.of_nat 2) with 100; lia|]. done. }
  destruct (H2 (Month d)) as [Dm Vm]; [lia|]. destruct (H2 (Day d)) as [Dd Vd]; [lia|].
  set (sy := appendInt 4 (Year d)) in *. set (sm := appendInt 2 (Month d)) in *. set (sd := appendInt 2 (Day d)) in *.
  replace (_ ++ post) with (sy ++ [45] ++ sm ++ [45] ++ sd ++ post)
    by (rewrite <-app_assoc; cbn [app]; by rewrite <-app_assoc).
  clearbody sy sm sd. clear H2.
  destruct (ParseDate_cut (sy ++ [45] ++ sm ++ [45] ++ sd ++ post)) as (ps & Hc & ->).
  pose proof (proj1 (digits_word 3 sy (conj L4 D4))) as Wy. pose proof (proj1 (digits_word 1 sm Dm)) as Wm.
  pose proof (proj1 (digits_word 1 sd Dd)) as Wd. pose proof dash_break as Hdash.
  assert (starts false [45]) as S45 by by destruct Hdash as [_ Hb]; inversion Hb.
  assert (∀ w t, all_word w → starts true (w ++ t)) as Sw by (intros [|r w] t [? Hw]; [done|by inversion Hw]).
  apply cut_word_inv in Hc as (q1 & -> & Hc); [|done|done]. apply cut_break_inv in Hc as (q2 & -> & Hc); [|done|by apply Sw].
  apply cut_word_inv in Hc as (q3 & -> & Hc); [|done|done]. apply cut_break_inv in Hc as (q4 & -> & Hc); [|done|by apply Sw].
  apply cut_word_inv in Hc as (q5 & -> & Hc); [|done|done].
  cbn [lexDate_loop length Nat.add Nat.leb minParts].
  rewrite (iso_turn d); [done| | | | |by eapply cut_break_first].
  - unfold IsValid. rewrite numDaysInMonth_days_in by done. rewrite !andb_true_iff, !Z.leb_le. case_bool_decide; lia.
  - rewrite word_part_four by (by split). by rewrite V4.
  - rewrite word_part_two by (rewrite ?Vm; first [done|lia]). cbn [Month]. rewrite Vm. by rewrite (proj2 (Z.leb_le _ _)) by lia.
  - rewrite word_part_two by (rewrite ?Vd; first [done|lia]). exact Vd.
Qed.

(** ParseDate never fails, and what it finds is there: a date it returns is valid and its year, month and day are spelled in the name by three words around one separator, in one of the orders year-month-day, day-month-year and month-day-year, set off by other characters or the ends of the name.  A name that begins with a date in ISO form, followed by nothing or by a character that is no letter or digit, gives that date. *)
Theorem parse_date_finds s :
  (∃ d, ParseDate s = Ok d ∧ (d = zero ∨ dated s d))
  ∧ ∀ d post, s = IsoDateString d ++ post ∧ 1000 ≤ Year d ≤ 9999 ∧ calendar_date d ∧ starts false post → ParseDate s = Ok d.
Proof. split; [apply ParseDate_sound|]. intros d post (-> & Hy & Hd & Hp). by apply ParseDate_iso. Qed.

End lexer_spec.

Lemma parse_date_finds_witness :
  parse_date_test "2022-09-21 Title" = Ok (mkDate 2022 9 21).
Proof.
  apply (@parse_date_finds ascii_unicode Regex.ascii_tables ascii_unicode_laws) with (post := runes_of " Title").
  split_and!; [vm_compute; reflexivity|simpl; lia|simpl; lia| |vm_compute; reflexivity].
  split; [simpl; lia|]. vm_compute. split; discriminate.
Defined.

End Dates.
