(* ===== verification/Anime.v ===== *)
(** * Release names of anime

    [internal/anime]: which fansub group, episode number and tracks a release
    name advertises ([detect.go]), whether it carries only foreign audio
    ([audiolang.go]), and the title inside it ([title.go]).  The content filter
    uses the first two to spare anime from its rules, the classifier the third.

    Names are lists of runes.  Patterns are the text of the source, compiled by
    [Regex]; a slice of a name at the positions of a match is a slice of its
    runes, since matches begin and end between runes. *)
From S2P Require Import Prelude Protocol Lexer Metainfo Regex.
From stdpp Require Import list strings sets.
From Stdlib Require Import ZArith Lia.

Module Anime.
Import Protocol Regex.
Local Open Scope string_scope.

(** ** Patterns *)

Definition bracketTokenRe := MustCompile "\[([^\]]+)\]".
Definition leadingBracketRe := MustCompile "^\s*\[([^\]]+)\]".
Definition absoluteEpRe := MustCompile "(?:^|\s)-\s(\d{1,4})(?:v\d)?(?:\s|$|[\[(.])".
Definition absoluteRangeTailRe := MustCompile "^(?:v\d)?\s*(?:[~-]\s*\d|\.\d)".
Definition dateTailRe := MustCompile "^\.\d{1,2}\.\d{2,4}\b".
Definition sceneDateRe := MustCompile "\b\d{1,2}\.\d{1,2}\.\d{2,4}\b".
Definition englishTrackRe := MustCompile "(?i)(dual[ ._-]?audio|multi[ ._-]?audio|eng(?:lish)?[ ._-]?(?:dub|sub)s?|multi[ ._-]?subs?|multiple[ ._-]?subtitle|\[dual\])".
Definition englishAudioAnchoredRe := MustCompile "(?i)(eng(?:lish)?[ ._-]?dub(?:bed)?s?|[\[(]dub[\])]|english[ ._-]?audio)".
Definition genericAudioRe := MustCompile "(?i)(?:dual[ ._-]?audio|multi[ ._-]?audio|\[dual\])".
Definition namedAudioListRe := MustCompile "(?i)(?:dual|multi)[ ._-]?audio[ ._:=-]*[\[(]([^\]\)]+)[\]\)]".
Definition namedAudioEnglishRe := MustCompile "(?i)\b(?:eng|english|en)\b".
Definition englishAudioBareRe := MustCompile "(?i)\bdubbed\b".
Definition englishSubAnchoredRe := MustCompile "(?i)(eng(?:lish)?[ ._-]?subs?|multi[ ._-]?subs?|multiple[ ._-]?subtitle|[\[(](?:eng)?subs?[\])]|soft[ ._-]?subs?)".
Definition englishSubBareRe := MustCompile "(?i)\bsubbed\b".
Definition nonEnglishTrackRe := MustCompile "(?i)(hindi|tamil|telugu|kannada|malayalam|bengali|french|german|spanish|castellano|italian|portuguese|russian|polish|arabic|latino)[ ._-]{0,2}(dub|sub)(?:bed)?s?\b".
Definition seasonMarkerRe := MustCompile "(?i)(\b\d(?:st|nd|rd|th)\ season\b|\bcour\ ?\d\b|\bpart\ \d\b|\bfinal\ season\b)".
Definition asciiLetterRe := MustCompile "[A-Za-z]".

(** [audiolang.go] *)
Definition foreignAudioRe := MustCompile "(?i)(?:^|[^a-z])(dublado|lektor|dubbing\.pl|pl-?dub|truefrench|vff|vfq|vfi|vf2|castellano|dublaj)(?:[^a-z]|$)".
Definition foreignDubCompoundRe := MustCompile "(?i)(hindi|tamil|telugu|kannada|malayalam|bengali|french|german|spanish|castellano|italian|portuguese|russian|polish|arabic|latino|turkish)[ ._-]{0,2}dub(?:bed)?s?\b".
Definition foreignSubtitleRe := MustCompile "(?i)(?:^|[^a-z])(vostfr|legendado|napisy|nlsubbed|nlsubs|swesub|dksub|norsub|finsub|italiansubs|subspedia|altyazili)(?:[^a-z]|$)".
Definition englishEvidenceRe := MustCompile "(?i)(?:^|[^a-z])(eng|english|en|multi)(?:[^a-z]|$)".

(** [title.go] *)
Definition langAlt : string := "eng?|english|jap?|jpn|japanese|chs|cht|chinese|mandarin|cantonese|kor|korean|ita|italian|spa|spanish|fre?|french|ger|german|por|portuguese|rus|russian|ara|arabic|tha|thai|vie|vietnamese|ind|indonesian|pol|polish|dut|dutch|swe|swedish|dan|danish|nor|norwegian|fin|finnish|tur|turkish|hin|hindi|tam|tamil|tel|telugu|ukr|ukrainian".
Definition technicalTokenRe := MustCompile ("(?i)^(?:" +:+
  "\d{3,4}p|\d{3,4}x\d{3,4}|4k|uhd|sd|hd|" +:+
  "x26[45]|h\.?26[45]|hevc|avc|xvid|divx|av1|10 ?bit|8 ?bit|hi10p?|" +:+
  "bd ?rip|bd|blu-?ray|dvd ?rip|dvd|web-?dl|web ?rip|web|hdtv|tv|remux|" +:+
  "cr|amzn|nf|hidive|adn|funi(?:mation)?|disney\+?|abema|baha|b-?global|" +:+
  "aac|ac3|eac3|flac|dts(?:-?hd)?|opus|mp3|ddp?\d(?:\.\d)?|" +:+
  "mkv|mp4|avi|ts|m2ts|" +:+
  "multi ?-?subs?|multiple subtitles?|dual ?-?audio|multi ?-?audio|audio|" +:+
  "sub(?:bed|s)?|dub(?:bed|s)?|raws?|uncensored|censored|" +:+
  "batch|complete|repack|v\d|final|" +:+
  "[0-9a-f]{8}|" +:+
  "(?:" +:+ langAlt +:+ ")(?:[,+/ ]?(?:" +:+ langAlt +:+ "))*" +:+
  "|multiple|subtitles?" +:+
  ")$").
Definition bracketSpanRe := MustCompile "[\[(][^\])]*[\])]".
Definition fileExtRe := MustCompile "(?i)\.(mkv|mp4|avi|ts|m2ts|ogm|wmv|rmvb)$".
Definition versionTailRe := MustCompile "(?i)\s*v\d+$".
Definition titleJunkTailRe := MustCompile "[\s._~-]+$".
Definition batchRangeRe := MustCompile "(?:^|[\s._(\[])\d{1,4}\s*[-~]\s*\d{1,4}(?:$|[\s._)\]])".
Definition movieMarkerRe := MustCompile "(?i)(?:^|[\s._\[(-])(?:movie|gekijouban|gekijou-?ban|the movie|film|劇場版)(?:$|[\s._\])-])".

(** ** Signals *)

Record Signals := mkSignals {
  FansubGroup : runes;
  LeadingLatinGroup : runes;
  AbsoluteEpisode : Z;
  AbsoluteRange : bool;
  SeasonMarker : bool;
  EnglishTrack : bool;
  EnglishAudioSignal : bool;
  EnglishSubSignal : bool
}.

Definition nonempty (s : runes) : bool := bool_decide (s ≠ []).

Definition IsAnime (s : Signals) : bool :=
  if nonempty (FansubGroup s) then true
  else if nonempty (LeadingLatinGroup s) && ((0 <? AbsoluteEpisode s)%Z || SeasonMarker s || EnglishTrack s)
  then true
  else false.
Definition IsAnimeIndependentOfAbsolute (s : Signals) : bool :=
  if nonempty (FansubGroup s) then true
  else nonempty (LeadingLatinGroup s) && (SeasonMarker s || EnglishTrack s).
Definition IsKnownFansub (s : Signals) : bool := nonempty (FansubGroup s).

Definition fansubGroupNames : list string :=
  ["SubsPlease"; "Erai-raws"; "HorribleSubs"; "Judas"; "ASW"; "EMBER";
   "Anime Time"; "Ohys-Raws"; "Commie"; "GJM"; "Doki"; "Chihiro"; "Cleo";
   "Kaleido"; "Kaleido-subs"; "SSA"; "Kametsu"; "Beatrice-Raws"; "Yameii";
   "VARYG"; "NanDesuKa"; "DKB"; "URANIME"; "ToonsHub"; "Sokudo"; "Aergia";
   "Lycoris"; "Crymore"; "Nep_Blanc"; "Coalgirls"; "VCB-Studio"; "MTBB";
   "no-raws"; "One Pace"; "Arid"; "smol";
   "AnimeRG"; "BlackRabbit"; "Breeze"; "DragsterPS"; "Dynamis One";
   "KawaSubs"; "Kosaka"; "LostYears"; "NeoLX"; "Raze"; "Subeteka";
   "SubsMix"; "Trix"; "VON"; "neoDESU"; "neoHEVC";
   "TRC"; "Golumpa";
   "NanakoRaws"; "AsukaRaws"; "New-raws"; "shincaps"].

Definition resolutionHeights : list Z := [360; 480; 540; 576; 720; 1080; 1440; 2160; 4320]%Z.

Section detect.
Context `{Unicode} `{UnicodeTables}.

(** The replacer deletes hyphens, underscores, spaces and dots. *)
Definition separator (c : Z) : Prop := c ∈ [45; 95; 32; 46]%Z.
#[export] Instance separator_dec c : Decision (separator c) := _.
Definition normGroup (s : runes) : runes := filter (λ c, ¬ separator c) (ToLower <$> TrimSpace s).

Definition knownFansubGroups : list runes := normGroup ∘ runes_of <$> fansubGroupNames.
Definition canonicalFansubName (key : runes) : option string :=
  foldl (λ acc g, if decide (normGroup (runes_of g) = key) then Some g else acc) None fansubGroupNames.

Definition rawFansubGroups : list runes :=
  normGroup ∘ runes_of <$>
    ["Ohys-Raws"; "Beatrice-Raws"; "no-raws"; "VCB-Studio"; "NanakoRaws"; "AsukaRaws"; "New-raws"; "shincaps"].
Definition dubFansubGroups : list runes := normGroup ∘ runes_of <$> ["Yameii"; "TRC"; "Golumpa"].

Definition isLatinScript (s : runes) : bool :=
  if existsb (λ r, 127 <? r)%Z s then false else MatchString asciiLetterRe s.

(** The number stays far below the width of an int where the code calls
    this: [absolute_digits] shows at most four digits. *)
Fixpoint atoi_loop (n : Z) (s : runes) : Z :=
  match s with
  | [] => n
  | c :: s => if (c <? 48)%Z || (57 <? c)%Z then 0%Z else atoi_loop (n * 10 + (c - 48))%Z s
  end.
Definition atoi (s : runes) : Z := atoi_loop 0 s.

(** [strings.Contains] *)
Fixpoint contains (s sub : runes) : bool :=
  bool_decide (sub `prefix_of` s) || match s with [] => false | _ :: s => contains s sub end.

(** Group [n] of a match. *)
Definition group (n : nat) (m : list runes) : runes := default [] (m !! n).

Definition namedEnglishAudio (name : runes) : bool :=
  existsb (λ m, negb (contains (ToLower <$> group 1 m) (runes_of "sub")) && MatchString namedAudioEnglishRe (group 1 m))
    (FindAllStringSubmatch namedAudioListRe name).

Definition foreignAudioMarker (name : runes) : bool :=
  MatchString foreignAudioRe name || MatchString foreignDubCompoundRe name.
Definition explicitForeignTrack (name : runes) : bool :=
  foreignAudioMarker name || MatchString foreignSubtitleRe name || MatchString nonEnglishTrackRe name.

Definition fansub_group (name : runes) : runes :=
  default [] (snd <$> list_find (λ g, g ∈ knownFansubGroups)
                       (normGroup ∘ group 1 <$> FindAllStringSubmatch bracketTokenRe name)).

Definition leading_latin_group (name : runes) : runes :=
  match FindStringSubmatch leadingBracketRe name with
  | Some m =>
      let inner := TrimSpace (group 1 m) in
      if isLatinScript inner && negb (MatchString sceneDateRe name) then inner else []
  | None => []
  end.

(** The number and whether it begins a range. *)
Definition absolute_episode (name : runes) : Z * bool :=
  match find absoluteEpRe name with
  | Some (_, _, Some (a, b) :: _) =>
      let n := atoi (extract name a b) in
      if (0 <? n)%Z then
        let isRes := bool_decide (n ∈ resolutionHeights) in
        let isYear := ((1900 <=? n) && (n <=? 2099))%Z in
        if negb isRes && negb isYear && negb (MatchString dateTailRe (drop b name))
        then (n, MatchString absoluteRangeTailRe (drop b name))
        else (0%Z, false)
      else (0%Z, false)
  | _ => (0%Z, false)
  end.

(** The tracks the name itself advertises. *)
Definition explicit_english_audio (name : runes) : bool :=
  MatchString englishAudioAnchoredRe name || namedEnglishAudio name
  || MatchString englishAudioBareRe name && negb (MatchString nonEnglishTrackRe name).
Definition explicit_english_sub (name : runes) : bool :=
  MatchString englishSubAnchoredRe name
  || MatchString englishSubBareRe name && negb (MatchString nonEnglishTrackRe name).

Definition Detect (name : runes) : Signals :=
  let g := fansub_group name in
  let audio := explicit_english_audio name in
  let sub := explicit_english_sub name in
  let fallback := nonempty g && negb audio && negb sub && negb (explicitForeignTrack name)
                  && negb (MatchString genericAudioRe name) && negb (bool_decide (g ∈ rawFansubGroups)) in
  let dub := bool_decide (g ∈ dubFansubGroups) in
  mkSignals g (leading_latin_group name) (absolute_episode name).1 (absolute_episode name).2
    (MatchString seasonMarkerRe name) (MatchString englishTrackRe name)
    (audio || fallback && dub) (sub || fallback && negb dub).

Definition ForeignAudioOnly (name : runes) : bool :=
  if MatchString genericAudioRe name then false
  else if negb (foreignAudioMarker name) then false
  else if MatchString englishEvidenceRe name then false
  else let s := Detect name in negb (EnglishAudioSignal s) && negb (EnglishSubSignal s).

Definition KnownGroup (name : runes) : runes :=
  let fg := FansubGroup (Detect name) in
  if nonempty fg then match canonicalFansubName fg with Some c => runes_of c | None => fg end else [].

(** ** Titles *)

(** [strings.Trim(s, "[]()")] *)
Definition bracket (c : Z) : bool := bool_decide (c ∈ [91; 93; 40; 41]%Z).
Fixpoint trim_left_brackets (s : runes) : runes :=
  match s with c :: s' => if bracket c then trim_left_brackets s' else s | [] => [] end.
Definition trim_brackets (s : runes) : runes := rev (trim_left_brackets (rev (trim_left_brackets s))).

(** [strings.FieldsFunc]: the longest runs of runes for which [f] is false. *)
Fixpoint fields_loop (f : Z → bool) (cur : runes) (s : runes) : list runes :=
  match s with
  | [] => if decide (cur = []) then [] else [cur]
  | c :: s =>
      if f c then (if decide (cur = []) then [] else [cur]) ++ fields_loop f [] s
      else fields_loop f (cur ++ [c]) s
  end.
Definition FieldsFunc (s : runes) (f : Z → bool) : list runes := fields_loop f [] s.
Definition Fields (s : runes) : list runes := FieldsFunc s IsSpace.

Definition technical (s : runes) : bool := MatchString technicalTokenRe s.

(** The second loop over [counted]. *)
Fixpoint count_pairs (fields : list runes) (counted : list bool) : list bool :=
  match fields, counted with
  | f1 :: ((f2 :: _) as fields'), c1 :: c2 :: counted' =>
      if c1 && c2 then c1 :: count_pairs fields' (c2 :: counted')
      else if technical (f1 ++ [32%Z] ++ f2) || technical (f1 ++ f2)
      then true :: count_pairs fields' (true :: counted')
      else c1 :: count_pairs fields' (c2 :: counted')
  | _, _ => counted
  end.

Definition isTechnicalBracket (tok : runes) : bool :=
  let inner := TrimSpace (trim_brackets tok) in
  if decide (inner = []) then true
  else if nonempty (KnownGroup ([91%Z] ++ inner ++ [93%Z])) then true
  else if technical inner then true
  else
    let fields := FieldsFunc inner (λ r, bool_decide (r ∈ [32; 95; 46; 44]%Z)) in
    if decide (fields = []) then true
    else
      let counted := count_pairs fields (technical <$> fields) in
      (length fields <? length (filter (λ c, c = true) counted) * 2)%nat.

Definition IsBatch (name : runes) (s : Signals) : bool :=
  if AbsoluteRange s then true
  else
    let lower := ToLower <$> name in
    if contains lower (runes_of "[batch]") || contains lower (runes_of "(batch)")
       || contains lower (runes_of "complete series") || contains lower (runes_of "complete season")
    then true
    else MatchString batchRangeRe name.

Definition IsExplicitMovie (name : runes) : bool := MatchString movieMarkerRe name.

(** The first loop of [CleanTitle]; each turn cuts off at least a pair of
    brackets, so the length of the text is enough fuel. *)
Fixpoint strip_leading (fuel : nat) (t : runes) : runes :=
  match fuel with
  | O => t
  | S fuel =>
      match FindIndex bracketSpanRe t with
      | None => t
      | Some (i, j) =>
          if nonempty (TrimSpace (take i t)) then t
          else if negb (isTechnicalBracket (extract t i j)) then t
          else strip_leading fuel (drop j t)
      end
  end.

Definition underscores_to_spaces (t : runes) : runes :=
  if negb (contains t [32%Z]) && contains t [95%Z]
  then (λ c, if (c =? 95)%Z then 32%Z else c) <$> t else t.

Definition cut_absolute (s : Signals) (t : runes) : runes :=
  if (0 <? AbsoluteEpisode s)%Z then
    match FindIndex absoluteEpRe t with Some (i, _) => take i t | None => t end
  else t.

Definition cut_technical (t : runes) : runes :=
  match list_find (λ m, isTechnicalBracket (extract t m.1.1 m.1.2) = true) (FindAllIndex bracketSpanRe t) with
  | Some (_, m) => take m.1.1 t
  | None => t
  end.

Definition isLetterRune (r : Z) : bool := ascii_lower r || ascii_upper r || (127 <? r)%Z.

(** [strings.Join(fields, " ")] *)
Fixpoint join_space (l : list runes) : runes :=
  match l with [] => [] | [x] => x | x :: l => x ++ [32%Z] ++ join_space l end.

Definition CleanTitle (name : runes) (s : Signals) : runes :=
  if decide (name = []) then []
  else
    let t := strip_leading (S (length name)) name in
    let t := underscores_to_spaces t in
    let t := cut_absolute s t in
    let t := cut_technical t in
    let t := ReplaceAllString fileExtRe t [] in
    let t := ReplaceAllString versionTailRe t [] in
    let t := ReplaceAllString batchRangeRe t [] in
    let t := ReplaceAllString titleJunkTailRe t [] in
    let t := join_space (Fields t) in
    if (length t <? 3)%nat || negb (existsb isLetterRune t) then [] else t.

End detect.

Definition patterns : list regexp :=
  [bracketTokenRe; leadingBracketRe; absoluteEpRe; absoluteRangeTailRe; dateTailRe; sceneDateRe; englishTrackRe;
   englishAudioAnchoredRe; genericAudioRe; namedAudioListRe; namedAudioEnglishRe; englishAudioBareRe;
   englishSubAnchoredRe; englishSubBareRe; nonEnglishTrackRe; seasonMarkerRe; asciiLetterRe; foreignAudioRe;
   foreignDubCompoundRe; foreignSubtitleRe; englishEvidenceRe; technicalTokenRe; bracketSpanRe; fileExtRe;
   versionTailRe; titleJunkTailRe; batchRangeRe; movieMarkerRe].

(** Every pattern compiles. *)
Example anime_patterns_compile :
  forallb (λ re, match prog re with Class_ _ _ [] => false | _ => true end) patterns = true.
Proof. by vm_compute. Qed.

(** ** Tokens and numbers *)

Local Open Scope nat_scope.
Local Open Scope list_scope.

Section facts.
Context `{Unicode} `{UnicodeTables}.

Lemma class_char_has neg c r : class_has false neg [Range c c] r = xorb neg (r =? c)%Z.
Proof.
  unfold class_has, item_has, Metainfo.in_range. simpl. f_equal. rewrite !orb_false_r.
  destruct (Z.eqb_spec r c); rewrite ?andb_true_iff, ?andb_false_iff, ?Z.leb_le, ?Z.leb_gt; lia.
Qed.

(** A token is what stands between a pair of square brackets. *)
Lemma bracket_token name m :
  m ∈ FindAllStringSubmatch bracketTokenRe name →
  ∃ pre post, name = pre ++ [91%Z] ++ group 1 m ++ [93%Z] ++ post ∧ Forall (λ c, c ≠ 93%Z) (group 1 m) ∧ group 1 m ≠ [].
Proof.
  unfold FindAllStringSubmatch. rewrite list_elem_of_fmap.
  intros ([[i j] gs] & -> & Hm). apply FindAllIndex_found in Hm as (p & q & Hp & Hm & [= -> -> ->]).
  pose proof (points_of name [] None p Hp) as Hpo. pose proof (points_caps _ _ _ _ Hp) as Hc.
  change (prog bracketTokenRe) with
    (Seq (Seq (Seq Empty (Class_ false false [Range 91 91]))
       (Cap 1 (Seq Empty (Seq (Class_ false true [Range 93 93]) (Star true (Class_ false true [Range 93 93]))))))
       (Class_ false false [Range 93 93])) in Hm.
  apply matches_seq in Hm as (q2 & (q1 & H1 & H2)%matches_seq & H3).
  apply matches_seq in H1 as (? & ->%matches_empty & H1).
  apply matches_class in H1 as (c1 & H1 & E1). apply matches_class in H3 as (c3 & H3 & E3).
  apply matches_cap in H2 as (q0 & H2 & ->).
  apply matches_seq in H2 as (? & ->%matches_empty & H2). apply matches_seq in H2 as (q' & Ha & Hb).
  apply matches_class in Ha as (ca & Ha & Ea). apply matches_class_star in Hb as (ub & Hb & Eb).
  assert (reads q1 (ca :: ub) q0) as Hu by (change (ca :: ub) with ([ca] ++ ub); apply reads_app; eauto).
  rewrite class_char_has in E1, E3, Ea.
  destruct (reads_point name p [c1] q1 H1 Hpo) as (Hp1 & _ & Hc1 & _).
  destruct (reads_point name q1 _ q0 Hu Hp1) as (Hp0 & _ & Hc0 & Hx).
  assert (caps q = [(1, (at_ q1, at_ q0))]) as Hcq.
  { destruct (reads_point name _ _ _ H3 Hp0) as (_ & _ & -> & _). simpl. by rewrite Hc0, Hc1, Hc. }
  assert (span_of q 1 = Some (at_ q1, at_ q0)) as Hsp by (unfold span_of; rewrite Hcq; done).
  unfold group. cbn [snd fst fmap list_fmap lookup list_lookup default]. rewrite Hsp. simpl. rewrite Hx.
  simpl in E1, E3, Ea. apply Z.eqb_eq in E1 as ->. apply Z.eqb_eq in E3 as ->.
  exists (take (at_ p) name), (left q). split_and!; [| |done].
  - rewrite (point_of_split name p Hpo) at 1. f_equal.
    rewrite (reads_left _ _ _ H1), (reads_left _ _ _ Hu).
    pose proof (reads_left _ _ _ H3) as Hl. simpl in Hl. by rewrite Hl.
  - constructor; [by intros -> |]. eapply Forall_impl; [exact Eb|].
    intros c. cbv beta. rewrite class_char_has. simpl. by intros ? ->.
Qed.
Definition digit : regex := Class_ false false digit_items.
Definition short_number : regex := Seq Empty (repeat true 1 (Some 4) digit).
Lemma absolute_single : single 1 short_number (prog absoluteEpRe).
Proof.
  apply single_l; [|done]. apply single_l; [|done]. apply single_r; [done|]. by apply single_cap.
Qed.

Lemma atoi_loop_bounds u : ∀ n, (0 ≤ n)%Z → Forall (λ c, 48 ≤ c ≤ 57)%Z u →
  (0 ≤ atoi_loop n u < (n + 1) * 10 ^ Z.of_nat (length u))%Z.
Proof.
  induction u as [|c u IH]; intros n Hn Hu; [simpl; lia|].
  apply Forall_cons in Hu as [Hc Hu]. cbn [atoi_loop].
  rewrite (proj2 (Z.ltb_ge c 48)), (proj2 (Z.ltb_ge 57 c)) by lia. simpl orb. cbv iota.
  specialize (IH (n * 10 + (c - 48))%Z ltac:(lia) Hu).
  cbn [length]. rewrite Nat2Z.inj_succ, Z.pow_succ_r by lia.
  pose proof (Z.pow_pos_nonneg 10 (Z.of_nat (length u)) ltac:(lia) ltac:(lia)). nia.
Qed.

(** The number that the pattern captures has one to four digits, so its value
    has no room to overflow. *)
Lemma absolute_digits name i j gs :
  find absoluteEpRe name = Some (i, j, gs) →
  ∃ a b, gs = [Some (a, b)] ∧ 1 ≤ length (extract name a b) ≤ 4
    ∧ Forall (λ c, 48 ≤ c ≤ 57)%Z (extract name a b).
Proof.
  intros Hf%find_found.
  destruct (found_single _ _ _ _ _ _ _ absolute_single Hf) as (p1 & q1 & Hm & Hp & Hq & Hg); [vm_compute; lia|].
  destruct Hf as (p & q & _ & _ & [= _ _ ->]).
  change (seq 1 (groups absoluteEpRe)) with [1] in *. simpl in Hg. injection Hg as Hg.
  apply matches_seq in Hm as (? & ->%matches_empty & Hm).
  apply matches_repeat_class in Hm as (u & Hu & Hl & Fu); [|lia].
  destruct (reads_point name p1 u q1 Hu Hp) as (_ & _ & _ & Hx).
  exists (at_ p1), (at_ q1). rewrite Hx. split_and!; [by simpl; rewrite Hg|lia..|].
  eapply Forall_impl; [exact Fu|]. intros c. cbv beta.
  unfold class_has. simpl. rewrite !orb_false_r. unfold Metainfo.in_range.
  rewrite andb_true_iff, !Z.leb_le. done.
Qed.

Definition not_an_episode (n : Z) : Prop := n ∈ resolutionHeights ∨ (1900 ≤ n ≤ 2099)%Z.

Lemma absolute_episode_bounds name n r :
  absolute_episode name = (n, r) →
  (0 ≤ n ≤ 9999)%Z ∧ ¬ not_an_episode n ∧ (r = true → 0 < n)%Z.
Proof.
  unfold absolute_episode.
  assert (¬ not_an_episode 0) as Hz by (intros [Hz | Hz]; [unfold resolutionHeights in Hz; set_solver|lia]).
  destruct (find absoluteEpRe name) as [[[i j] gs]|] eqn:Hf; [|intros [= <- <-]; split_and!; done || lia].
  apply absolute_digits in Hf as (a & b & -> & Hl & Fu).
  pose proof (atoi_loop_bounds _ 0 ltac:(lia) Fu) as Hb. fold (atoi (extract name a b)) in Hb.
  assert (atoi (extract name a b) <= 9999)%Z as Hmax.
  { assert (10 ^ Z.of_nat (length (extract name a b)) ≤ 10 ^ 4)%Z by (apply Z.pow_le_mono_r; lia). lia. }
  revert Hb Hmax. generalize (atoi (extract name a b)) as k. intros k Hb Hmax.
  destruct (Z.ltb_spec 0 k); [|intros [= <- <-]; split_and!; done || lia].
  case_match eqn:Hc; intros [= <- <-]; [|split_and!; done || lia].
  rewrite !andb_true_iff, !negb_true_iff, bool_decide_eq_false in Hc.
  split_and!; [lia..| |done]. intros [? | Hy]; [tauto|].
  destruct Hc as [[_ Hc] _]. rewrite andb_false_iff, !Z.leb_gt in Hc. lia.
Qed.

Lemma canonical_known key :
  key ∈ knownFansubGroups →
  ∃ canon, canon ∈ fansubGroupNames ∧ normGroup (runes_of canon) = key ∧ canonicalFansubName key = Some canon.
Proof.
  unfold knownFansubGroups, canonicalFansubName. rewrite list_elem_of_fmap. intros (g & Hk & Hg).
  generalize (None : option string) as acc. revert Hg. generalize fansubGroupNames as l.
  induction l as [|x l IH] using rev_ind; intros Hg acc; [by apply not_elem_of_nil in Hg|].
  rewrite foldl_snoc. destruct (decide (normGroup (runes_of x) = key)) as [Hx | Hx].
  - exists x. split_and!; [set_solver|done..].
  - apply elem_of_app in Hg as [Hg | ->%list_elem_of_singleton]; [|by destruct Hx].
    destruct (IH Hg acc) as (canon & ? & ? & ?). exists canon. split_and!; [set_solver|done..].
Qed.

(** The known group of a name stands in brackets and is on the list. *)
Lemma fansub_group_known name :
  fansub_group name ≠ [] →
  ∃ pre g post canon, name = pre ++ [91%Z] ++ g ++ [93%Z] ++ post ∧ Forall (λ c, c ≠ 93%Z) g
    ∧ normGroup g = fansub_group name ∧ canon ∈ fansubGroupNames
    ∧ normGroup (runes_of canon) = fansub_group name ∧ canonicalFansubName (fansub_group name) = Some canon.
Proof.
  unfold fansub_group. destruct (list_find _ _) as [[k g]|] eqn:Hf; [|done]. simpl. intros _.
  apply list_find_Some in Hf as (Hk & Hin & _).
  rewrite list_lookup_fmap, fmap_Some in Hk. destruct Hk as (m & Hk & ->). apply list_elem_of_lookup_2 in Hk.
  apply bracket_token in Hk as (pre & post & Hn & Hb & _).
  destruct (canonical_known (normGroup (group 1 m)) Hin) as (canon & Hc & Hcn & Hce).
  exists pre, (group 1 m), post, canon. by split_and!.
Qed.

(** ** Titles *)

Lemma bracket_span t i j : FindIndex bracketSpanRe t = Some (i, j) → i + 2 ≤ j ≤ length t.
Proof.
  unfold FindIndex. destruct (find _ t) as [[[i0 j0] gs]|] eqn:Hf; [|done]. simpl. intros [= -> ->].
  apply find_found in Hf as (p & q & Hp & Hm & [= -> -> _]).
  pose proof (points_of t [] None p Hp) as Hpo. simpl in Hpo.
  change (prog bracketSpanRe) with
    (Seq (Seq (Seq Empty (Class_ false false [Range 91 91; Range 40 40])) (Star true (Class_ false true [Range 93 93; Range 41 41])))
       (Class_ false false [Range 93 93; Range 41 41])) in Hm.
  apply matches_seq in Hm as (q2 & (q1 & H1 & H2)%matches_seq & H3).
  apply matches_seq in H1 as (? & ->%matches_empty & H1).
  apply matches_class in H1 as (c1 & H1 & _). apply matches_class in H3 as (c3 & H3 & _).
  apply matches_class_star in H2 as (u & H2 & _).
  destruct (reads_point t _ _ _ H1 Hpo) as (Hp1 & E1 & _). destruct (reads_point t _ _ _ H2 Hp1) as (Hp2 & E2 & _).
  destruct (reads_point t _ _ _ H3 Hp2) as ([E4 _] & E3 & _). simpl in *. lia.
Qed.

(** The loop of [CleanTitle] ends: the fuel does not matter once it exceeds the
    length of the text. *)
Lemma strip_leading_fuel fuel : ∀ t fuel',
  length t < fuel → length t < fuel' → strip_leading fuel t = strip_leading fuel' t.
Proof.
  induction fuel as [|fuel IH]; intros t [|fuel'] H1 H2; try lia. cbn [strip_leading].
  destruct (FindIndex bracketSpanRe t) as [[i j]|] eqn:Hf; [|done].
  apply bracket_span in Hf. do 2 (case_match; [done|]). apply IH; rewrite length_drop; lia.
Qed.

Definition field (f : runes) : Prop := f ≠ [] ∧ Forall (λ c, IsSpace c = false) f.

Lemma fields_loop_app cur f s :
  Forall (λ c, IsSpace c = false) f → fields_loop IsSpace cur (f ++ s) = fields_loop IsSpace (cur ++ f) s.
Proof.
  revert cur. induction f as [|c f IH]; intros cur Hf; simpl; [by rewrite app_nil_r|].
  apply Forall_cons in Hf as [Hc Hf]. rewrite Hc, IH by done. by rewrite <-app_assoc.
Qed.

Lemma Fields_join l : Forall field l → Fields (join_space l) = l.
Proof.
  unfold Fields, FieldsFunc. induction l as [|f l IH]; intros Hl; [done|].
  apply Forall_cons in Hl as [[Hne Hf] Hl]. destruct l as [|g l].
  - simpl. rewrite <-(app_nil_r f) at 1. rewrite fields_loop_app by done. simpl. by rewrite decide_False.
  - change (join_space (f :: g :: l)) with (f ++ [32%Z] ++ join_space (g :: l)).
    rewrite fields_loop_app by done. cbn [fields_loop app]. change (IsSpace 32) with true. cbv iota.
    rewrite decide_False by done. simpl app. f_equal. by apply IH.
Qed.

Lemma Fields_field s : Forall field (Fields s).
Proof.
  unfold Fields, FieldsFunc.
  assert (Forall (λ c, IsSpace c = false) ([] : runes)) as Hc by constructor.
  revert Hc. generalize ([] : runes) as cur.
  induction s as [|c s IH]; intros cur Hc; simpl.
  - case_decide; repeat constructor; done.
  - destruct (IsSpace c) eqn:Hs.
    + apply Forall_app. split; [case_decide; repeat constructor; done|by apply IH].
    + apply IH. apply Forall_app. by repeat constructor.
Qed.

(** ** Properties *)

Lemma fansub_names_nonempty : Forall (λ g, runes_of g ≠ []) fansubGroupNames.
Proof. unfold fansubGroupNames. by repeat constructor. Qed.

Lemma nonempty_spec s : nonempty s = true ↔ s ≠ [].
Proof. apply bool_decide_eq_true. Qed.

(** What Detect reads out of any name is bounded: an absolute episode is at most 9999 and never a year or a resolution, and only an episode can begin a range; KnownGroup answers a name of the list exactly when a bracketed token of the release equals it up to case and separators; and a name with a dotted date is anime only through such a group. *)
Theorem anime_signals name :
  let s := Detect name in
  ((0 ≤ AbsoluteEpisode s ≤ 9999)%Z ∧ ¬ not_an_episode (AbsoluteEpisode s)
   ∧ (AbsoluteRange s = true → (0 < AbsoluteEpisode s)%Z))
  ∧ (IsKnownFansub s = true ↔ KnownGroup name ≠ [])
  ∧ (KnownGroup name ≠ [] →
     ∃ pre g post canon, name = pre ++ [91%Z] ++ g ++ [93%Z] ++ post ∧ canon ∈ fansubGroupNames
       ∧ KnownGroup name = runes_of canon ∧ normGroup g = normGroup (runes_of canon))
  ∧ (MatchString sceneDateRe name = true → IsAnime s = IsKnownFansub s).
Proof.
  cbv zeta. split; [|split; [|split]].
  - apply (absolute_episode_bounds name). apply surjective_pairing.
  - unfold IsKnownFansub, KnownGroup. rewrite nonempty_spec. simpl. split.
    + intros Hg. rewrite (proj2 (nonempty_spec _) Hg).
      destruct (fansub_group_known name Hg) as (? & ? & ? & canon & ? & ? & ? & Hc & ? & ->).
      by eapply Forall_forall in Hc; [|apply fansub_names_nonempty].
    + unfold nonempty. by case_bool_decide.
  - unfold KnownGroup. simpl. destruct (nonempty (fansub_group name)) eqn:Hg; [|done]. intros _.
    apply nonempty_spec in Hg. destruct (fansub_group_known name Hg) as (pre & g & post & canon & ? & ? & ? & ? & ? & ->).
    exists pre, g, post, canon. split_and!; [done..|congruence].
  - intros Hd. unfold IsAnime, IsKnownFansub. simpl.
    destruct (nonempty (fansub_group name)); [done|].
    unfold leading_latin_group. destruct (FindStringSubmatch _ name); [by rewrite Hd, andb_false_r|done].
Qed.

(** ForeignAudioOnly does not depend on the release group: a foreign audio marker switches off the inference from a subbing group, so only tracks that the name advertises itself keep a release with such a marker. *)
Theorem foreign_audio_ignores_group name :
  ForeignAudioOnly name
  = foreignAudioMarker name && negb (MatchString genericAudioRe name) && negb (MatchString englishEvidenceRe name)
    && negb (explicit_english_audio name) && negb (explicit_english_sub name).
Proof.
  unfold ForeignAudioOnly, Detect, explicitForeignTrack. cbn [EnglishAudioSignal EnglishSubSignal].
  destruct (MatchString genericAudioRe name); [by rewrite andb_false_r|].
  destruct (foreignAudioMarker name); [|done].
  destruct (MatchString englishEvidenceRe name); [done|]. simpl.
  rewrite !andb_false_r. simpl. by rewrite !orb_false_r.
Qed.

(** CleanTitle ends and answers nothing or a presentable title: the loop over leading brackets needs no more turns than the text is long, and a title that is answered has at least three characters, a letter among them, and is its own words joined by single spaces, without leading, trailing or other white space. *)
Theorem anime_clean_title name s :
  let t := CleanTitle name s in
  (∀ fuel, length name < fuel → strip_leading fuel name = strip_leading (S (length name)) name)
  ∧ (t = [] ∨ 3 ≤ length t ∧ existsb isLetterRune t = true ∧ join_space (Fields t) = t
             ∧ Forall field (Fields t)).
Proof.
  split; [intros; apply strip_leading_fuel; lia|].
  unfold CleanTitle. case_decide; [by left|].
  generalize (ReplaceAllString titleJunkTailRe
    (ReplaceAllString batchRangeRe
      (ReplaceAllString versionTailRe
        (ReplaceAllString fileExtRe
          (cut_technical (cut_absolute s (underscores_to_spaces (strip_leading (S (length name)) name)))) []) []) []) []).
  intros u. cbv zeta. case_match eqn:Hc; [by left|right].
  rewrite orb_false_iff, Nat.ltb_ge, negb_false_iff in Hc. destruct Hc as [Hl He].
  rewrite Fields_join by apply Fields_field. split_and!; [done..|apply Fields_field].
Qed.

End facts.

(** ** The tests of the sources *)

#[local] Existing Instances ascii_unicode ascii_tables.

Definition name_of (s : string) : runes := Metainfo.range_runes (string_bytes s).

(** [TestCleanTitle] *)
Definition clean_title_cases : list (string * string) :=
  [("[SubsPlease] One Piece - 1077 (480p) [3FC90F00].mkv", "One Piece");
   ("[Erai-raws] Towa no Yugure - 09 [720p HIDIVE WEB-DL AVC AAC][D482EC01].mkv",
    "Towa no Yugure");
   ("[Ohys-Raws] Kusuriya no Hitorigoto - 17 (NTV 1280x720 x264 AAC).mp4",
    "Kusuriya no Hitorigoto");
   ("[ASW] Tenmaku no Jaadugar - 02 [1080p HEVC][DA3ACF2B].mkv", "Tenmaku no Jaadugar");
   ("[SubsPlease] Saigo ni Hitotsu dake Onegai Shitemo Yoroshii Deshou ka - 01v2 (720p) [344234E4].mkv",
    "Saigo ni Hitotsu dake Onegai Shitemo Yoroshii Deshou ka");
   ("[Erai-raws] Grow Up Show - Himawari no Circus-dan - 03 [1080p CR WEB-DL AVC AAC][MultiSub][EDB2C88A].mkv",
    "Grow Up Show - Himawari no Circus-dan");
   ("[Erai-raws] Oshi no Ko 2nd Season - 11 [1080p AMZN WEBRip HEVC EAC3][MultiSub][9C9E5A43].mkv",
    "Oshi no Ko 2nd Season");
   ("[Beatrice-Raws] Kotonoha no Niwa [BDRip 1920x1080 HEVC DTSHD].mkv",
    "Kotonoha no Niwa");
   ("[HorribleSubs] Hinamatsuri [720p]", "Hinamatsuri");
   ("[Erai-raws] Top o Nerae! - Movie [720p][4F7C0410].mkv", "Top o Nerae! - Movie");
   ("[SubsPlease] Kizoku Tensei - Megumareta Umare kara Saikyou no Chikara wo Eru (01-12) (480p) [Batch]",
    "Kizoku Tensei - Megumareta Umare kara Saikyou no Chikara wo Eru");
   ("[Coalgirls]_Soul_Eater_27-39_(1280x720_Blu-ray_FLAC)", "Soul Eater");
   ("[Ohys-Raws][Raws] Some Title - 05 [1080p].mkv", "Some Title");
   ("[Ohys-Raws] Fate stay night [Unlimited Blade Works] - 12 (BS11 1280x720 x264 AAC).mp4",
    "Fate stay night [Unlimited Blade Works]");
   ("[SubsPlease] [Oshi no Ko] - 11 (1080p) [F00DF00D].mkv", "[Oshi no Ko]");
   ("[Erai-raws] Re Zero kara Hajimeru Isekai Seikatsu (Director's Cut) - 05 [1080p].mkv",
    "Re Zero kara Hajimeru Isekai Seikatsu (Director's Cut)");
   ("[SubsPlease] [Engage Kiss] - 01 (1080p) [ABCD1234].mkv", "[Engage Kiss]");
   ("[SubsPlease] Pokemon [Indigo League] - 05 (720p) [F00D1234].mkv",
    "Pokemon [Indigo League]");
   ("[Ohys-Raws] Haruhi (Endless Eight) - 03 (BS11 1280x720 x264 AAC).mp4",
    "Haruhi (Endless Eight)");
   ("[SubsPlease] Show [Crunchyroll Collection] - 02 (1080p) [11112222].mkv",
    "Show [Crunchyroll Collection]");
   ("[Erai-raws] Rawhide Riders - 07 [1080p][MultiSub][AABBCCDD].mkv",
    "Rawhide Riders");
   ("[Beatrice-Raws] Some Film [10 bit].mkv", "Some Film");
   ("[SubsPlease] Some Show [Dual Audio].mkv", "Some Show");
   ("[Erai-raws] Another Show [Blu Ray].mkv", "Another Show");
   ("[Ohys-Raws] Third Show [WEB DL].mp4", "Third Show");
   ("[Beatrice-Raws] Fourth Show [1080p 10 bit HEVC].mkv", "Fourth Show");
   ("[Yameii] OVERLORD - The Sacred Kingdom (2024) [English Dub] [CR WEB-DL 720p] [18859BC1].mkv",
    "OVERLORD - The Sacred Kingdom (2024)");
   ("[Yameii] Some Film - Movie [English Dub] [1080p].mkv", "Some Film - Movie");
   ("[SubsPlease] Some Show (01-12) [English Sub] [1080p] [Batch]", "Some Show");
   ("[Erai-raws] Another Show [English Audio] [1080p]", "Another Show");
   ("", "");
   ("[SubsPlease] [1080p].mkv", "");
   ("[SubsPlease] 12 - 05 [x264].mkv", "");
   ("[SubsPlease] ab - 03 [720p].mkv", "")].
Example clean_title_tests :
  forallb (λ c, bool_decide (CleanTitle (name_of c.1) (Detect (name_of c.1)) = name_of c.2)) clean_title_cases = true.
Proof. by vm_compute. Qed.

(** [TestForeignAudioOnly] *)
Definition foreign_audio_cases : list string :=
  ["Evil.Dead.Burn.2026.1080p.WEBRip.Dublado.mkv";
   "Toy.Story.5.2026.1080p.WEBRip.Dublado.mkv";
   "'Allo 'Allo! 1982-1992 [720p.AC3.HDTV.x264-sy5ka][Lektor PL][Alusia]";
   "Abduction 2011 m1080p x264 AC3 TURKCE DUBLAJ.mkv";
   "Some.Show.S01.2020.1080p.Hindi.Dubbed.x264.mkv";
   "[LoliHouse] DanMachi S5 - 08 [WebRip 1080p HEVC-10bit AAC][CHT].mkv Castellano";
   "10.Lives.2024.PLDUB.1080p.AMZN.WEB-DL.DD5.1.H264-RX";
   "[SubsPlease] Some Show - 07 French Dubbed [1080p].mkv";
   "[Erai-raws] Some Show - 07 [1080p] Hindi Dubbed.mkv";
   "[SubsPlease] Some Movie Dublado.mkv";
   "[SubsPlease] Some Movie TURKCE DUBLAJ.mkv";
   "[Erai-raws] Some Movie [Lektor PL].mkv";
   "[Judas] Some Movie TRUEFRENCH.mkv"].
Definition english_audio_cases : list string :=
  ["127.Hours.2010.1080p.WEB-DL.ENG.LATINO.CASTELLANO.POR.DDP.5.1.H264-BEN.THE.MEN";
   "10 Cloverfield Lane 2016 Bonus BR EAC3 VFF ENG 1080p x265 10Bits T0M";
   "Castle.Rock.S01.SweSub-EngSub.1080p.x264-Justiso";
   "The.Mandalorian.and.Grogu.2026.MULTi.TRUEFRENCH.iMAX.1080p.WEB.H264-SUPPLY.mkv";
   "Bullet (1996) [1080p] [WEB-DL] [AC3] [LEKTOR.PL] [NAPISY.PL.EN].mkv";
   "Death of a Unicorn (2025) [BRRip.XviD-NN] [Napisy_PL].avi";
   "Oceans.Eight.2018.SweSub.1080p.x264-Justiso";
   "Bamboozled (2000)(NLsubs) TBS";
   "Le.Samourai.1967.VOSTFR.1080p.BluRay.x264.mkv";
   "Some.English.Film.2024.1080p.Spanish.Subbed.x264.mkv";
   "Movie.2024.1080p.WEB-DL.TURKCE.Altyazili.x264.mkv";
   "Digimon Tamers Movie 2 (2002) [VOSTFR] [ENG SubsDubs] (BD 720p X264 AAC).mkv";
   "The Italian Job 2003 1080p BluRay HEVC x265 5.1 BONE.mkv";
   "The.French.Connection.1971.1080p.BluRay.x264.mkv";
   "Plain.Movie.2024.1080p.WEB-DL.x264.mkv";
   "[SubsPlease] Shangri-La Frontier - 40 (1080p) [59400145].mkv"].
Example foreign_audio_tests :
  forallb (λ n, ForeignAudioOnly (name_of n)) foreign_audio_cases = true
  ∧ forallb (λ n, negb (ForeignAudioOnly (name_of n))) english_audio_cases = true.
Proof. by vm_compute. Qed.

(** [TestDetect_*] and [TestAbsoluteRangeAndIndependentGate] *)
Example detect_tests :
  let d s := Detect (name_of s) in
  IsKnownFansub (d "[Judas] Kimetsu no Yaiba S03 [BD]") = true
  ∧ IsAnime (d "[SubsPlease] 葬送のフリーレン - 01 (1080p)") = true
  ∧ d "[NewGroup] Some Show - 137 [1080p]" = mkSignals [] (runes_of "NewGroup") 137 false false false false false
  ∧ IsAnime (d "[某组] 進撃の巨人 - 25") = false
  ∧ AbsoluteEpisode (d "Detective Conan - 2011 [1080p]") = 0%Z
  ∧ AbsoluteEpisode (d "[Erai-raws] Show - 12v2 [1080p]") = 12%Z
  ∧ AbsoluteRange (d "[Erai-raws] Show - 01 ~ 12 [1080p]") = true
  ∧ AbsoluteRange (d "[SubsPlease] Show - 05.5 (1080p)") = true
  ∧ IsAnimeIndependentOfAbsolute (d "[Brazzers] Scene Name - 12") = false
  ∧ IsAnimeIndependentOfAbsolute (d "[NewSubGroup] Show - 12 [Eng Sub]") = true
  ∧ IsAnime (d "[IKnowThatGirl] Performer (Title - 16.01.2017)") = false
  ∧ EnglishAudioSignal (d "[Group] Show - 12 [Dual Audio [ENG+JPN]]") = true
  ∧ EnglishAudioSignal (d "[Judas] Show - 12 [Dual-Audio]") = false
  ∧ IsBatch (name_of "[Group] Series Complete Series [1080p]") (d "[Group] Series Complete Series [1080p]") = true
  ∧ IsExplicitMovie (name_of "[Group] Gekijouban Something [BDRip]") = true.
Proof. vm_compute. by split_and!. Qed.

End Anime.
