(* ===== verification/Keywords.v ===== *)
(** * The keyword language

    [internal/keywords/parser.go] and the word classes of
    [internal/regex/regex.go]: a small pattern language for the keyword lists
    of the classifier, translated to tokens of hedhyw/rex, which compiles them
    to a regular expression.  In it [#] is a digit, a space any character that
    is no letter or digit, [*] any run of letters and digits, [?] and [+] are
    as usual, and parentheses, which do not nest, hold alternatives.

    A token is the call of the rex library that makes it; what the library
    makes of tokens is an interface, whose law states the documented meaning
    of each constructor. *)
From S2P Require Import Prelude Lexer Regex.
From stdpp Require Import list strings sets.
From Stdlib Require Import ZArith Lia.

Module Keywords.
Import Lexer.

(** ** Tokens of rex *)

Inductive repetition := ZeroOrOne | OneOrMore | ZeroOrMore | Between (m n : nat) | EqualOrMoreThan (n : nat).

Inductive token :=
| Single (r : Z)
| Runes (rs : runes)
| Digits
| Whitespace
| WordCharacter
| Upper
| Any
| Text (rs : runes)
| UnicodeTable (name : string)
| Class (negated : bool) (ts : list token)
| Repeat (k : repetition) (t : token)
| Define (ts : list token)
| NonCaptured (ts : list token)
| Composite (captured : bool) (ts : list token)
| Begin
| End_.

(** [regex.AnyWordChar] and [regex.AnyNonWordChar] *)
Definition AnyWordChar : token := Class false [UnicodeTable "L"; Digits].
Definition AnyNonWordChar : token := Class true [UnicodeTable "L"; Digits].

(** The members of a class token, for a class that is made of classes. *)
Fixpoint items (t : token) : list Regex.item :=
  match t with
  | Single r => [Regex.Range r r]
  | Runes rs => (λ r, Regex.Range r r) <$> rs
  | Digits => [Regex.Range 48 57]
  | Whitespace => Regex.space_items
  | WordCharacter => Regex.word_items
  | Upper => [Regex.Range 65 90]
  | UnicodeTable name => [Regex.Table name true]
  | Class _ ts => ts ≫= items
  | _ => []
  end.

Definition repeated (k : repetition) (r : Regex.regex) : Regex.regex :=
  match k with
  | ZeroOrOne => Regex.opt true r
  | OneOrMore => Regex.Seq r (Regex.Star true r)
  | ZeroOrMore => Regex.Star true r
  | Between m n => Regex.repeat true m (Some n) r
  | EqualOrMoreThan n => Regex.repeat true n None r
  end.

Definition text_regex (rs : runes) : Regex.regex := foldr (λ r k, Regex.Seq (Regex.literal false r) k) Regex.Empty rs.

(** The documented meaning of the tokens. *)
Fixpoint den (t : token) : Regex.regex :=
  match t with
  | Class negated ts => Regex.Class_ false negated (ts ≫= items)
  | Repeat k t => repeated k (den t)
  | Text rs => text_regex rs
  | Any => Regex.AnyNotNL
  | Define ts | NonCaptured ts => foldr (λ t r, Regex.Seq (den t) r) Regex.Empty ts
  | Composite _ ts => foldr (λ t r, Regex.Alt (den t) r) (Regex.Class_ false false []) ts
  | Begin => Regex.BeginText
  | End_ => Regex.EndText
  | _ => Regex.Class_ false false (items t)
  end.

(** [rex.New(tokens...).Compile()]: the tokens one after the other.  Groups
    are left out of the meaning, since keyword patterns are only tested. *)
Class Rex `{UnicodeTables} := {
  rex_Compile : list token → option Regex.regexp
}.
Class RexLaws `{Rex} := {
  rex_Compile_ok ts : ∃ re, rex_Compile ts = Some re ∧
    ∀ s, Regex.MatchString re s = Regex.MatchString (Regex.mkRegexp (den (NonCaptured ts)) 0) s
}.

(** The meaning with groups: [numbered n t] is the pattern of [t] when the
    next group has number [n], and the number after its groups. *)
Fixpoint numbered (n : nat) (t : token) : Regex.regex * nat :=
  let fix seqs (n : nat) (ts : list token) : Regex.regex * nat :=
    match ts with
    | [] => (Regex.Empty, n)
    | t :: ts => let '(a, n1) := numbered n t in let '(b, n2) := seqs n1 ts in (Regex.Seq a b, n2)
    end in
  let fix alts (n : nat) (ts : list token) : Regex.regex * nat :=
    match ts with
    | [] => (Regex.Class_ false false [], n)
    | t :: ts => let '(a, n1) := numbered n t in let '(b, n2) := alts n1 ts in (Regex.Alt a b, n2)
    end in
  match t with
  | Repeat k t => let '(a, n') := numbered n t in (repeated k a, n')
  | Define ts => let '(a, n') := seqs (S n) ts in (Regex.Cap n a, n')
  | NonCaptured ts => seqs n ts
  | Composite true ts => let '(a, n') := alts (S n) ts in (Regex.Cap n a, n')
  | Composite false ts => alts n ts
  | _ => (den t, n)
  end.
Definition with_groups (ts : list token) : Regex.regexp :=
  let '(r, n) := numbered 1 (NonCaptured ts) in Regex.mkRegexp r (n - 1).

(** The compiled pattern finds what the tokens say, with its groups. *)
Class RexGroups `{Rex} := {
  rex_Compile_groups ts : ∃ re, rex_Compile ts = Some re ∧ ∀ s, Regex.find re s = Regex.find (with_groups ts) s
}.
Definition rex_MustCompile `{UnicodeTables} `{!Rex} (ts : list token) : Regex.regexp := default Regex.never (rex_Compile ts).

(** ** The lexer of a keyword *)

Inductive kwError := ErrEOF | ErrUnexpectedEOF | ErrUnexpectedChar.

(** An error leaves the lexer where it is: its position is reported. *)
Abbreviation kw A := (go ((kwError + A) * Lexer)).

Section keywords.
Context `{Unicode}.

Definition reservedChars : list Z := [40; 41; 124; 42; 63; 43; 35; 32]%Z.

Definition lexClassToken (l : Lexer) : kw token :=
  let '(ch, l) := Read l in
  match ch with
  | None => Ok (inl ErrEOF, l)
  | Some ch =>
      if (ch =? 92)%Z then
        let '(exact, l) := Read l in
        match exact with
        | None => Ok (inl ErrUnexpectedEOF, l)
        | Some c => Ok (inr (Single c), l)
        end
      else if IsWordChar ch then
        if negb (ch =? ToLower ch)%Z then Ok (inl ErrUnexpectedChar, l)
        else if (ToLower ch =? ToUpper ch)%Z then Ok (inr (Single ch), l)
        else Ok (inr (Runes [ToUpper ch; ToLower ch]), l)
      else if (ch =? 35)%Z then Ok (inr Digits, l)
      else if (ch =? 32)%Z then Ok (inr AnyNonWordChar, l)
      else if bool_decide (ch ∈ reservedChars) then l ← Backup l; Ok (inl ErrUnexpectedChar, l)
      else Ok (inr (Single ch), l)
  end.

Definition lexClassWithModifierToken (l : Lexer) : kw token :=
  '(star, l) ← ReadChar 42 l;
  if star : bool then Ok (inr (Repeat ZeroOrMore AnyWordChar), l)
  else
    '(tk, l) ← lexClassToken l;
    match tk with
    | inl err => Ok (inl err, l)
    | inr tk =>
        let '(ch, l) := Read l in
        match ch with
        | None => Ok (inr tk, l)
        | Some ch =>
            if (ch =? 63)%Z then Ok (inr (Repeat ZeroOrOne tk), l)
            else if (ch =? 43)%Z then Ok (inr (Repeat OneOrMore tk), l)
            else l ← Backup l; Ok (inr tk, l)
        end
    end.

Definition addGroup (groupTokens tokens : list token) : list token :=
  match tokens with [] => groupTokens | _ => groupTokens ++ [NonCaptured tokens] end.

(** The end of [lexGroupToken], after its loops. *)
Definition finish (groupTokens : list token) (l : Lexer) : kw token :=
  match groupTokens with
  | [] => Ok (inl ErrUnexpectedEOF, l)
  | _ => Ok (inr (Composite false groupTokens), l)
  end.

(** One round of the inner loop; starting the outer loop over empties
    [tokens].  [fuel] exceeds the number of runes left: every round reads
    one. *)
Fixpoint lexGroupToken_loop (fuel : nat) (parens : bool) (groupTokens tokens : list token) (l : Lexer)
  : kw token :=
  match fuel with
  | O => Panic
  | S fuel =>
      '(opening, l) ← ReadChar 40 l;
      if opening : bool then
        if parens then l ← Backup l; Ok (inl ErrUnexpectedChar, l)
        else
          '(group, l) ← lexGroupToken_loop fuel true [] [] l;
          match group with
          | inl err => Ok (inl err, l)
          | inr group =>
              '(q, l) ← ReadChar 63 l;
              lexGroupToken_loop fuel parens groupTokens
                (tokens ++ [if q : bool then Repeat ZeroOrOne group else group]) l
          end
      else
        '(closing, l) ← (if parens then ReadChar 41 l else Ok (false, l));
        if closing : bool then finish (addGroup groupTokens tokens) l
        else
          '(bar, l) ← ReadChar 124 l;
          if bar : bool then
            match tokens with
            | [] => l ← Backup l; Ok (inl ErrUnexpectedChar, l)
            | _ => lexGroupToken_loop fuel parens (addGroup groupTokens tokens) [] l
            end
          else
            '(token, l) ← lexClassWithModifierToken l;
            match token with
            | inl ErrEOF =>
                if parens then Ok (inl ErrUnexpectedEOF, l) else finish (addGroup groupTokens tokens) l
            | inl err => Ok (inl err, l)
            | inr token => lexGroupToken_loop fuel parens groupTokens (tokens ++ [token]) l
            end
  end.

Definition lexGroupToken (parens : bool) (l : Lexer) : kw token :=
  lexGroupToken_loop (S (length (rest l))) parens [] [] l.

(** Why a list of keywords is refused: the keyword, the position and the
    error. *)
Inductive keywordsError := NoKeywords | InKeyword (kw : runes) (pos : Z) (err : kwError) | RexError.

Fixpoint rex_tokens_loop (used : list runes) (tokens : list token) (kws : list runes)
  : outcome keywordsError (list token) :=
  match kws with
  | [] => Ok tokens
  | kw :: kws =>
      if bool_decide (kw ∈ used) then rex_tokens_loop used tokens kws
      else
        '(group, l) ← lift_go (lexGroupToken false (NewLexer kw));
        match group with
        | inl err => Err (InKeyword kw (pos l) err)
        | inr group => rex_tokens_loop (kw :: used) (tokens ++ [group]) kws
        end
  end.

Definition NewRexTokensFromKeywords (kws : list runes) : outcome keywordsError (list token) :=
  match kws with [] => Err NoKeywords | _ => rex_tokens_loop [] [] kws end.

Definition MustNewRexTokensFromKeywords (kws : list runes) : go (list token) :=
  match NewRexTokensFromKeywords kws with Ok ts => Ok ts | _ => Panic end.

(** The tokens handed to [rex.New]. *)
Definition keyword_pattern (tokens : list token) : list token :=
  [Composite false [Begin; Repeat OneOrMore AnyNonWordChar];
   Composite true tokens;
   Composite false [End_; Repeat OneOrMore AnyNonWordChar]].

Definition NewRegexFromKeywords `{UnicodeTables} `{!Rex} (kws : list runes) : outcome keywordsError Regex.regexp :=
  tokens ← NewRexTokensFromKeywords kws;
  match rex_Compile (keyword_pattern tokens) with Some re => Ok re | None => Err RexError end.

Definition MustNewRegexFromKeywords `{UnicodeTables} `{!Rex} (kws : list runes) : go Regex.regexp :=
  match NewRegexFromKeywords kws with Ok re => Ok re | _ => Panic end.

(** ** The lexer reads on and never panics *)

(** [left_at n l]: [l] lexes a keyword of [n] runes. *)
Definition left_at (n : nat) (l : Lexer) : Prop := (pos l + Z.of_nat (length (rest l)) = Z.of_nat n)%Z.

Lemma ReadChar_left n c l :
  left_at n l → ∃ b l', ReadChar (E := Empty_set) c l = Ok (b, l') ∧ left_at n l'
    ∧ (b = true → length (rest l) = S (length (rest l')) ∧ unread l' = Some c)
    ∧ (b = false → rest l' = rest l).
Proof.
  unfold left_at. intros Hl. unfold ReadChar, ReadIf, Read, IsChar.
  destruct (rest l) as [|r rs] eqn:Hr; [|destruct (Z.eqb_spec c r) as [<- | ?]]; cbn -[Z.of_nat];
    do 2 eexists; (split_and!; [done|cbn -[Z.of_nat]; cbn -[Z.of_nat] in Hl; lia|done|done]).
Qed.

Lemma Backup_left n l r :
  left_at n l → unread l = Some r → ∃ l', Backup (E := Empty_set) l = Ok l' ∧ left_at n l'.
Proof. unfold left_at, Backup. intros Hl ->. eexists. split; [done|]. simpl. lia. Qed.

(** What a lexing function returns: an error, where it stopped, or a token
    and fewer runes left. *)
Definition lexed (n : nat) (l : Lexer) (m : kw token) : Prop :=
  ∃ res l', m = Ok (res, l') ∧ left_at n l' ∧ length (rest l') ≤ length (rest l)
    ∧ (∀ t, res = inr t → length (rest l') < length (rest l)).

Lemma lexClassToken_lexed n l : left_at n l → lexed n l (lexClassToken l).
Proof.
  unfold lexed, left_at. intros Hl. unfold lexClassToken, Read.
  destruct (rest l) as [|ch rs] eqn:Hr; simpl in *.
  - do 2 eexists. split_and!; [done|simpl; lia|simpl; lia|by intros].
  - destruct rs as [|c rs]; simpl in *; repeat case_match; simplify_eq/=;
      do 2 eexists; (split_and!; [done|simpl; lia|simpl; lia|intros; simplify_eq/=; lia]).
Qed.

Lemma lexClassWithModifierToken_lexed n l : left_at n l → lexed n l (lexClassWithModifierToken l).
Proof.
  intros Hl. unfold lexClassWithModifierToken.
  destruct (ReadChar_left n 42 l Hl) as ([] & l1 & -> & Hl1 & Ht & Hf); cbn [mbind outcome_bind].
  { destruct Ht as [? _]; [done|]. do 2 eexists. split_and!; [done|done|lia|intros; lia]. }
  destruct (lexClassToken_lexed n l1 Hl1) as (res & l2 & -> & Hl2 & Hle & Hlt); cbn [mbind outcome_bind].
  rewrite Hf in Hlt, Hle by done. destruct res as [err|tk]; [do 2 eexists; by split_and!|].
  specialize (Hlt tk eq_refl). unfold lexed, Read, left_at in *.
  destruct (rest l2) as [|ch rs] eqn:Hr; simpl in *; [|repeat case_match];
    do 2 eexists; (split_and!; [done|simpl; lia|simpl; lia|intros; simpl; lia]).
Qed.

(** The loop: it stops within its fuel, and [ErrEOF] stays inside. *)
Definition grouped (n : nat) (l : Lexer) (m : kw token) : Prop :=
  ∃ res l', m = Ok (res, l') ∧ left_at n l' ∧ length (rest l') ≤ length (rest l) ∧ res ≠ inl ErrEOF.

Lemma finish_grouped n l0 l g :
  left_at n l → length (rest l) ≤ length (rest l0) → grouped n l0 (finish g l).
Proof. intros Hl Hle. unfold grouped, finish. destruct g; do 2 eexists; by split_and!. Qed.

Lemma error_grouped n l0 l err :
  left_at n l → length (rest l) ≤ length (rest l0) → err ≠ ErrEOF → grouped n l0 (Ok (inl err, l)).
Proof. intros. do 2 eexists. split_and!; [done..|congruence]. Qed.

Lemma backup_grouped n l0 l r :
  left_at n l → unread l = Some r → length (rest l0) = S (length (rest l)) →
  grouped n l0 (l ← Backup l; Ok (inl ErrUnexpectedChar, l)).
Proof.
  intros Hl Hr Hlen. destruct (Backup_left n l r Hl Hr) as (l' & Hb & Hl'). rewrite Hb. cbn.
  apply error_grouped; try done. unfold left_at in *. unfold Backup in Hb. rewrite Hr in Hb. simplify_eq. simpl. lia.
Qed.

Lemma grouped_le n l0 l m : grouped n l m → length (rest l) ≤ length (rest l0) → grouped n l0 m.
Proof. intros (res & l' & -> & Hl' & Hle & Hne) ?. exists res, l'. split_and!; try done. lia. Qed.

Lemma lexGroupToken_loop_grouped n fuel : ∀ parens gs ts l,
  left_at n l → length (rest l) < fuel → grouped n l (lexGroupToken_loop fuel parens gs ts l).
Proof.
  induction fuel as [|fuel IH]; intros parens gs ts l Hl Hf; [lia|]. cbn [lexGroupToken_loop].
  destruct (ReadChar_left n 40 l Hl) as ([] & l1 & -> & Hl1 & Ht & Hno); cbn [mbind outcome_bind].
  { destruct Ht as [Hlen Hu]; [done|]. destruct parens; [by eapply backup_grouped|].
    destruct (IH true [] [] l1 Hl1) as (res & l2 & -> & Hl2 & Hle2 & Hne); [lia|]. cbn [mbind outcome_bind].
    destruct res as [err|g]; [apply error_grouped; [done|lia|congruence]|].
    destruct (ReadChar_left n 63 l2 Hl2) as (q & l3 & -> & Hl3 & Hq & Hq'); cbn [mbind outcome_bind].
    assert (length (rest l3) ≤ length (rest l2)) by (destruct q; [destruct Hq; [done|lia]|by rewrite Hq']).
    eapply grouped_le; [apply IH; [done|lia]|lia]. }
  assert (∃ b l2, (if parens then ReadChar (E := Empty_set) 41 l1 else Ok (false, l1)) = Ok (b, l2) ∧ left_at n l2
            ∧ (b = true → length (rest l1) = S (length (rest l2))) ∧ (b = false → rest l2 = rest l1))
    as (closing & l2 & -> & Hl2 & Hc & Hc').
  { destruct parens; [|by exists false, l1].
    destruct (ReadChar_left n 41 l1 Hl1) as (b & l2 & -> & Hl2 & H1 & H2).
    exists b, l2. split_and!; try done. intros Hb. by destruct (H1 Hb). }
  cbn [mbind outcome_bind]. pose proof (f_equal length (Hno eq_refl)) as E1. destruct closing.
  { apply finish_grouped; [done|]. specialize (Hc eq_refl). lia. }
  pose proof (f_equal length (Hc' eq_refl)) as E2.
  destruct (ReadChar_left n 124 l2 Hl2) as ([] & l3 & -> & Hl3 & Hb & Hb'); cbn [mbind outcome_bind].
  { destruct Hb as [Hlen Hu]; [done|]. destruct ts; [eapply backup_grouped; [done..|lia]|].
    eapply grouped_le; [apply IH; [done|lia]|lia]. }
  pose proof (f_equal length (Hb' eq_refl)) as E3.
  destruct (lexClassWithModifierToken_lexed n l3 Hl3) as (res & l4 & -> & Hl4 & Hle & Hlt); cbn [mbind outcome_bind].
  destruct res as [err|t]; [|eapply grouped_le; [apply IH; [done|]|]; specialize (Hlt t eq_refl); lia].
  assert (length (rest l4) ≤ length (rest l)) by lia.
  destruct err; [destruct parens; [by apply error_grouped|by apply finish_grouped]|by apply error_grouped..].
Qed.

Lemma rex_tokens_loop_total kws : ∀ used tokens,
  match rex_tokens_loop used tokens kws with
  | Ok ts => tokens `prefix_of` ts
  | Err e => ∃ kw pos err, e = InKeyword kw pos err ∧ kw ∈ kws ∧ err ≠ ErrEOF ∧ (pos ≤ Z.of_nat (length kw))%Z
  | Panic => False
  end.
Proof.
  induction kws as [|kw kws IH]; intros used tokens; cbn [rex_tokens_loop]; [done|].
  assert (∀ e, (∃ kw pos err, e = InKeyword kw pos err ∧ kw ∈ kws ∧ err ≠ ErrEOF ∧ (pos ≤ Z.of_nat (length kw))%Z) →
     ∃ kw' pos err, e = InKeyword kw' pos err ∧ kw' ∈ kw :: kws ∧ err ≠ ErrEOF ∧ (pos ≤ Z.of_nat (length kw'))%Z) as Hw.
  { intros e (kw' & p & err & ? & ? & ? & ?). exists kw', p, err. split_and!; [done|by right|done|done]. }
  case_bool_decide; [specialize (IH used tokens); case_match; auto|].
  assert (left_at (length kw) (NewLexer kw)) as Hl by (unfold left_at, NewLexer; simpl; lia).
  destruct (lexGroupToken_loop_grouped (length kw) (S (length kw)) false [] [] _ Hl) as (res & l & Hg & Hl' & _ & Hne);
    [simpl; lia|].
  unfold lexGroupToken. simpl rest. rewrite Hg. cbn [lift_go mbind outcome_bind]. destruct res as [err|g].
  - exists kw, (pos l), err. unfold left_at in Hl'. split_and!; [done|left|congruence|lia].
  - specialize (IH (kw :: used) (tokens ++ [g])). case_match; [|by auto|done].
    etrans; [|exact IH]. by apply prefix_app_r.
Qed.

(** Parsing a list of keywords always ends with tokens or with an error: for an empty list that there are none, otherwise a keyword of the list with a position inside it; the end-of-input error of the lexer never escapes and no read or backup of the lexer panics. *)
Theorem keywords_total kws :
  match NewRexTokensFromKeywords kws with
  | Ok ts => kws ≠ []
  | Err NoKeywords => kws = []
  | Err (InKeyword kw pos err) => kw ∈ kws ∧ err ≠ ErrEOF ∧ (pos ≤ Z.of_nat (length kw))%Z
  | Err RexError | Panic => False
  end.
Proof.
  unfold NewRexTokensFromKeywords. destruct kws as [|kw kws]; [done|].
  pose proof (rex_tokens_loop_total (kw :: kws) [] []) as Ht.
  destruct (rex_tokens_loop _ _ _) as [ts|e|]; [done| |done].
  destruct Ht as (kw' & p & err & -> & ? & ? & ?). done.
Qed.

(** ** Plain words *)

(** A lower-case letter or a digit without a meaning of its own. *)
Definition plain (c : Z) : Prop :=
  IsWordChar c = true ∧ ToLower c = c ∧ c ∉ [40; 41; 124; 42; 92; 63; 43]%Z.
Definition plain_word (w : runes) : Prop := w ≠ [] ∧ Forall plain w.

(** A rune in either case. *)
Definition either_case (c x : Z) : Prop := x = ToUpper c ∨ x = c.

Definition letter (c : Z) : token :=
  if (ToLower c =? ToUpper c)%Z then Single c else Runes [ToUpper c; ToLower c].

Lemma ReadChar_plain ch c l w :
  rest l = c :: w → plain c → ch ∈ [40; 41; 124; 42; 63]%Z →
  ∃ l', ReadChar (E := Empty_set) ch l = Ok (false, l') ∧ rest l' = c :: w.
Proof.
  intros Hl (_ & _ & Hc) Hch. destruct (ReadChar_spec (E := Empty_set) ch l (c :: w) Hl) as (l' & H').
  destruct (Z.eqb_spec ch c) as [-> | ?]; [exfalso; set_solver|]. destruct H'; eauto.
Qed.

Lemma lexClassWithModifierToken_plain l c w :
  rest l = c :: w → Forall plain (c :: w) →
  ∃ l', lexClassWithModifierToken l = Ok (inr (letter c), l') ∧ rest l' = w.
Proof.
  intros Hl [Hc Hw]%Forall_cons. unfold lexClassWithModifierToken.
  destruct (ReadChar_plain 42 c l w Hl Hc) as (l1 & -> & Hl1); [set_solver|]. cbn [mbind outcome_bind].
  destruct Hc as (Hword & Hlow & Hc).
  assert (lexClassToken l1 = Ok (inr (letter c), mkLexer (pos l1 + 1) (Some c) w)) as ->.
  { unfold lexClassToken, Read. rewrite Hl1. rewrite (proj2 (Z.eqb_neq c 92)) by set_solver.
    rewrite Hword, Hlow, Z.eqb_refl. unfold letter. rewrite Hlow. cbn. by destruct (c =? ToUpper c)%Z. }
  cbn [mbind outcome_bind]. unfold Read. cbn [rest]. destruct w as [|d w]; [by eexists|].
  apply Forall_cons in Hw as [(_ & _ & Hd) _].
  rewrite (proj2 (Z.eqb_neq d 63)), (proj2 (Z.eqb_neq d 43)) by set_solver. cbn. by eexists.
Qed.

Lemma lexGroupToken_loop_plain fuel : ∀ gs ts l w,
  rest l = w → Forall plain w → length w < fuel →
  ∃ l', lexGroupToken_loop fuel false gs ts l = finish (addGroup gs (ts ++ (letter <$> w))) l'.
Proof.
  induction fuel as [|fuel IH]; intros gs ts l w Hl Hw Hf; [lia|]. cbn [lexGroupToken_loop].
  destruct w as [|c w].
  - unfold lexClassWithModifierToken, lexClassToken, ReadChar, ReadIf, Read. rewrite Hl. cbn. rewrite app_nil_r.
    by eexists.
  - pose proof Hw as [Hc Hw']%Forall_cons.
    destruct (ReadChar_plain 40 c l w Hl Hc) as (l1 & -> & Hl1); [set_solver|]. cbn [mbind outcome_bind].
    destruct (ReadChar_plain 124 c l1 w Hl1 Hc) as (l2 & -> & Hl2); [set_solver|]. cbn [mbind outcome_bind].
    destruct (lexClassWithModifierToken_plain l2 c w Hl2 Hw) as (l3 & -> & Hl3). cbn [mbind outcome_bind].
    destruct (IH gs (ts ++ [letter c]) l3 w Hl3 Hw') as (l4 & ->); [simpl in *; lia|].
    exists l4. by rewrite <-app_assoc.
Qed.

Definition word_token (w : runes) : token := Composite false [NonCaptured (letter <$> w)].

Lemma rex_tokens_loop_plain kws : ∀ used tokens,
  Forall plain_word kws →
  ∃ ws, rex_tokens_loop used tokens kws = Ok (tokens ++ (word_token <$> ws))
    ∧ (∀ w, w ∈ ws → w ∈ kws) ∧ (∀ w, w ∈ kws → w ∈ ws ∨ w ∈ used).
Proof.
  induction kws as [|w kws IH]; intros used tokens Hk; cbn [rex_tokens_loop].
  { exists []. rewrite app_nil_r. split_and!; [done|done|]. intros w Hw. by apply elem_of_nil in Hw. }
  apply Forall_cons in Hk as [[Hne Hw] Hk]. case_bool_decide as Hu.
  - destruct (IH used tokens Hk) as (ws & -> & H1 & H2). exists ws. split_and!; [done|set_solver|].
    intros w' [-> | Hw']%elem_of_cons; [by right|by apply H2].
  - unfold lexGroupToken.
    destruct (lexGroupToken_loop_plain (S (length w)) [] [] (NewLexer w) w) as (l & Hl); [done|done|lia|].
    simpl rest. rewrite Hl. simpl app.
    assert (addGroup [] (letter <$> w) = [NonCaptured (letter <$> w)]) as -> by (by destruct w).
    cbn [finish lift_go mbind outcome_bind].
    destruct (IH (w :: used) (tokens ++ [word_token w]) Hk) as (ws & Hr & H1 & H2).
    rewrite <-app_assoc in Hr. exists (w :: ws). split_and!; [exact Hr|set_solver|].
    intros w' [-> | Hw']%elem_of_cons; [left; left|]. destruct (H2 w' Hw') as [? | [-> | ?]%elem_of_cons]; [left; by right|left; by left|by right].
Qed.

(** ** What the pattern of plain words matches *)

Section matching.
Context `{UnicodeTables}.

(** Neither a letter nor a digit of ASCII. *)
Definition non_word (c : Z) : Prop := table_has "L" c = false ∧ ascii_digit c = false.

Lemma non_word_class c :
  Regex.class_has false true ([UnicodeTable "L"; Digits] ≫= items) c = true ↔ non_word c.
Proof.
  unfold Regex.class_has, non_word. cbn. unfold Metainfo.Metainfo.in_range, ascii_digit.
  destruct (table_has "L" c), (48 <=? c)%Z, (c <=? 57)%Z; naive_solver.
Qed.

Lemma matches_letter c p q :
  ToLower c = c →
  Regex.matches (den (letter c)) p q ↔ ∃ x, Regex.reads p [x] q ∧ either_case c x.
Proof.
  intros Hlow. unfold letter, either_case. destruct (Z.eqb_spec (ToLower c) (ToUpper c)) as [He | Hne];
    cbn [den]; rewrite Regex.matches_class; unfold Regex.class_has, Metainfo.Metainfo.in_range; cbn;
    unfold Metainfo.Metainfo.in_range; split; intros (x & Hr & Hx); exists x; (split; [done|]);
    rewrite ?orb_false_r, ?orb_true_iff, ?andb_true_iff, ?Z.leb_le in *; lia.
Qed.

Lemma matches_letters w p q :
  Forall plain w →
  Regex.matches (den (NonCaptured (letter <$> w))) p q ↔ ∃ u, Regex.reads p u q ∧ Forall2 either_case w u.
Proof.
  intros Hw. revert p. induction Hw as [|c w (_ & Hlow & _) Hw IH]; intros p; cbn.
  - split.
    + inversion 1; subst. eexists; split; constructor.
    + intros (u & Hr & Hu). inversion Hu; subst. inversion Hr; subst. constructor.
  - split.
    + inversion 1 as [| | |a b ? q1 ? Ha Hb| | | | | | | |]; subst.
      apply matches_letter in Ha as (x & Hx & Hcx); [|done]. apply IH in Hb as (u & Hu & Hwu).
      exists (x :: u). split; [|by constructor]. apply (Regex.reads_app _ [x]). eauto.
    + intros (u & Hr & Hu). inversion Hu as [|? x ? u' Hcx Hu']; subst.
      apply (Regex.reads_app _ [x]) in Hr as (q1 & Hx & Hr). eapply Regex.m_seq.
      * apply matches_letter; eauto.
      * apply IH. eauto.
Qed.

Lemma matches_composite b ts p q :
  Regex.matches (den (Composite b ts)) p q ↔ ∃ t, t ∈ ts ∧ Regex.matches (den t) p q.
Proof.
  induction ts as [|t ts IH]; cbn in *.
  - split; [|intros (t & Ht & _); by apply elem_of_nil in Ht].
    intros Hm. apply Regex.matches_class in Hm as (r & _ & Hr). done.
  - split.
    + inversion 1; subst; [exists t; split; [left|done]|]. match goal with Hm : Regex.matches (foldr _ _ ts) _ _ |- _ => apply IH in Hm as (t' & ? & ?) end.
      exists t'. split; [by right|done].
    + intros (t' & [-> | Ht]%elem_of_cons & Hm); [by apply Regex.m_alt_l|]. apply Regex.m_alt_r, IH. eauto.
Qed.

(** One or more characters that are no word characters. *)
Lemma matches_separator p q :
  Regex.matches (den (Repeat OneOrMore AnyNonWordChar)) p q
  ↔ ∃ u, u ≠ [] ∧ Regex.reads p u q ∧ Forall non_word u.
Proof.
  cbn [den AnyNonWordChar]. split.
  - inversion 1 as [| | |a b ? q1 ? Ha Hb| | | | | | | |]; subst.
    apply Regex.matches_class in Ha as (r & Hr & Hc). apply Regex.matches_class_star in Hb as (u & Hu & Hall).
    exists (r :: u). split_and!; [done|apply (Regex.reads_app _ [r]); eauto|].
    constructor; [by apply non_word_class|]. eapply Forall_impl; [exact Hall|]. intros x. apply non_word_class.
  - intros (u & Hne & Hr & Hall). destruct u as [|r u]; [done|]. apply Forall_cons in Hall as [Hc Hall].
    apply (Regex.reads_app _ [r]) in Hr as (q1 & Hx & Hr). eapply Regex.m_seq.
    + apply Regex.matches_class. exists r. split; [done|by apply non_word_class].
    + apply Regex.matches_class_star. exists u. split; [done|].
      eapply Forall_impl; [exact Hall|]. intros x. apply non_word_class.
Qed.

(** [w] occurs in [s] in any case, between ends of the text or characters
    that are no word characters. *)
Definition occurs (w s : runes) : Prop :=
  ∃ pre u suf, s = pre ++ u ++ suf ∧ Forall2 either_case w u
    ∧ (pre = [] ∨ ∃ pre' c, pre = pre' ++ [c] ∧ non_word c)
    ∧ (suf = [] ∨ ∃ c suf', suf = c :: suf' ∧ non_word c).

Lemma matches_before s u p q :
  Regex.reads (Regex.start s) u p →
  Regex.matches (den (Composite false [Begin; Repeat OneOrMore AnyNonWordChar])) p q →
  ∃ pre, Regex.reads (Regex.start s) pre q ∧ (pre = [] ∨ ∃ pre' c, pre = pre' ++ [c] ∧ non_word c).
Proof.
  intros Hu Hm. apply matches_composite in Hm as (t & Ht & Hm).
  apply elem_of_cons in Ht as [-> | ->%list_elem_of_singleton].
  - inversion Hm as [| | | | | | | | |? Hb| |]; subst.
    rewrite (Regex.reads_before _ _ _ Hu) in Hb. destruct (last u) eqn:Hl; [done|].
    apply last_None in Hl as ->. exists []. auto.
  - apply matches_separator in Hm as (v & Hne & Hv & Hall). exists (u ++ v). split; [apply Regex.reads_app; eauto|].
    right. destruct v as [|c v _] using rev_ind; [done|]. exists (u ++ v), c. rewrite app_assoc. split; [done|].
    apply Forall_app in Hall as [_ Hall]. by inversion Hall.
Qed.

Lemma matches_after p q :
  Regex.matches (den (Composite false [End_; Repeat OneOrMore AnyNonWordChar])) p q →
  Regex.left p = [] ∨ ∃ c suf, Regex.left p = c :: suf ∧ non_word c.
Proof.
  intros Hm. apply matches_composite in Hm as (t & Ht & Hm).
  apply elem_of_cons in Ht as [-> | ->%list_elem_of_singleton].
  - inversion Hm; subst. auto.
  - apply matches_separator in Hm as (v & Hne & Hv & Hall). right. destruct v as [|c v]; [done|].
    rewrite (Regex.reads_left _ _ _ Hv). inversion Hall; subst. simpl. eauto.
Qed.

Lemma separator_of c p q :
  Regex.reads p [c] q → non_word c → Regex.matches (den (Repeat OneOrMore AnyNonWordChar)) p q.
Proof. intros Hr Hc. apply matches_separator. exists [c]. split_and!; [done|done|by constructor]. Qed.

Lemma after_matches p :
  Regex.left p = [] ∨ (∃ c suf, Regex.left p = c :: suf ∧ non_word c) →
  ∃ q, Regex.matches (den (Composite false [End_; Repeat OneOrMore AnyNonWordChar])) p q.
Proof.
  intros [Hl | (c & suf & Hl & Hc)].
  - exists p. apply matches_composite. exists End_. split; [left|by constructor].
  - destruct (Regex.reads_exists p [c] suf Hl) as (q & Hq & _). exists q.
    apply matches_composite. eexists. split; [right; left|by eapply separator_of].
Qed.

Lemma before_matches s pre q :
  Regex.reads (Regex.start s) pre q → (pre = [] ∨ ∃ pre' c, pre = pre' ++ [c] ∧ non_word c) →
  ∃ u p, Regex.reads (Regex.start s) u p
    ∧ Regex.matches (den (Composite false [Begin; Repeat OneOrMore AnyNonWordChar])) p q.
Proof.
  intros Hq [-> | (pre' & c & -> & Hc)].
  - inversion Hq; subst. exists [], (Regex.start s). split; [done|].
    apply matches_composite. exists Begin. split; [left|by constructor].
  - apply Regex.reads_app in Hq as (p & Hp & Hq). exists pre', p. split; [done|].
    apply matches_composite. eexists. split; [right; left|by eapply separator_of].
Qed.

Lemma matches_words ws p q :
  Forall plain_word ws →
  Regex.matches (den (Composite true (word_token <$> ws))) p q
  ↔ ∃ w u, w ∈ ws ∧ Regex.reads p u q ∧ Forall2 either_case w u.
Proof.
  intros Hws. rewrite Forall_forall in Hws. rewrite matches_composite. split.
  - intros (t & Ht & Hm). apply list_elem_of_fmap in Ht as (w & -> & Hin).
    apply (matches_composite false) in Hm as (t & ->%list_elem_of_singleton & Hm).
    apply matches_letters in Hm as (u & Hu & Hf); [|by apply Hws]. eauto.
  - intros (w & u & Hin & Hu & Hf). exists (word_token w). split; [by apply list_elem_of_fmap_2|].
    apply matches_composite. eexists. split; [by apply list_elem_of_singleton|].
    apply matches_letters; [by apply Hws|eauto].
Qed.

Lemma pattern_matches_occurs ws s :
  Forall plain_word ws →
  Regex.MatchString (Regex.mkRegexp (den (NonCaptured (keyword_pattern (word_token <$> ws)))) 0) s = true
  ↔ ∃ w, w ∈ ws ∧ occurs w s.
Proof.
  intros Hws. rewrite Regex.MatchString_reads. cbn [Regex.prog]. split.
  - intros (u & p & q & Hu & Hm). inversion Hm as [| | |a b ? q1 ? Ha Hb| | | | | | | |]; subst.
    inversion Hb as [| | |a b ? q2 ? Hw Hc| | | | | | | |]; subst.
    inversion Hc as [| | |a b ? q3 ? Hs He| | | | | | | |]; subst.
    destruct (matches_before _ _ _ _ Hu Ha) as (pre & Hpre & Hp).
    apply matches_words in Hw as (w & x & Hin & Hx & Hfx); [|done].
    exists w. split; [done|]. exists pre, x, (Regex.left q2). split_and!; [|done|done|by apply matches_after in Hs].
    rewrite <-(Regex.reads_left _ _ _ Hx), <-(Regex.reads_left _ _ _ Hpre). done.
  - intros (w & Hin & pre & x & suf & -> & Hx & Hpre & Hsuf).
    destruct (Regex.reads_exists (Regex.start (pre ++ x ++ suf)) pre (x ++ suf) eq_refl) as (q1 & Hq1 & Hl1).
    destruct (Regex.reads_exists q1 x suf Hl1) as (q2 & Hq2 & Hl2).
    destruct (after_matches q2) as (q3 & Hs); [rewrite Hl2; naive_solver|].
    destruct (before_matches _ _ _ Hq1 Hpre) as (u & p & Hu & Ha).
    assert (Regex.matches (den (Composite true (word_token <$> ws))) q1 q2) as Hw by (apply matches_words; eauto 10).
    exists u, p, q3. split; [done|]. repeat (eapply Regex.m_seq; [eassumption|]). constructor.
Qed.

End matching.

(** C21: For keywords that are plain words, the compiled pattern matches a text exactly when one of the words occurs in it, each rune in either case, and the occurrence is delimited on both sides by the end of the text or by a character that is neither a letter nor a digit; so a keyword inside a longer word does not match. *)
Theorem keywords_match_words `{UnicodeTables} `{!Rex} `{!RexLaws} kws :
  kws ≠ [] → Forall plain_word kws →
  ∃ re, NewRegexFromKeywords kws = Ok re
    ∧ ∀ s, Regex.MatchString re s = true ↔ ∃ w, w ∈ kws ∧ occurs w s.
Proof.
  intros Hne Hk. destruct (rex_tokens_loop_plain kws [] [] Hk) as (ws & Hr & Hin & Hcov).
  destruct (rex_Compile_ok (keyword_pattern (word_token <$> ws))) as (re & Hc & Hre).
  exists re. split.
  - unfold NewRegexFromKeywords, NewRexTokensFromKeywords. destruct kws; [done|]. rewrite Hr. cbn.
    by rewrite Hc.
  - intros s. rewrite Hre, pattern_matches_occurs by (rewrite !Forall_forall in *; eauto).
    split; intros (w & Hw & Ho); exists w; (split; [|done]); [by apply Hin|].
    destruct (Hcov w Hw) as [? | Hn]; [done|]. by apply elem_of_nil in Hn.
Qed.

End keywords.

(** ** Witnesses *)

Definition plain_rex : ∀ `{UnicodeTables}, Rex := λ _, {|
  rex_Compile ts := Some (Regex.mkRegexp (den (NonCaptured ts)) 0)
|}.

Lemma plain_rex_laws `{UnicodeTables} : @RexLaws _ plain_rex.
Proof. split. intros ts. by eexists. Qed.

Definition group_rex : ∀ `{UnicodeTables}, Rex := λ _, {| rex_Compile ts := Some (with_groups ts) |}.
Lemma group_rex_groups `{UnicodeTables} : @RexGroups _ group_rex.
Proof. split. intros ts. by eexists. Qed.

#[local] Existing Instances ascii_unicode Regex.ascii_tables plain_rex plain_rex_laws.

Lemma keywords_match_words_witness :
  ∃ re, NewRegexFromKeywords [runes_of "foo"; runes_of "h264"] = Ok re
    ∧ ∀ s, Regex.MatchString re s = true ↔ ∃ w, w ∈ [runes_of "foo"; runes_of "h264"] ∧ occurs w s.
Proof.
  apply (keywords_match_words [runes_of "foo"; runes_of "h264"]); [done|].
  repeat constructor; try done; by apply (bool_decide_unpack _).
Defined.

(** The examples of [parser_test.go]. *)
Definition kw_test (kws : list string) (s : string) : option bool :=
  match NewRegexFromKeywords (runes_of <$> kws) with
  | Ok re => Some (Regex.MatchString re (runes_of s))
  | _ => None
  end.

Example parser_test_match :
  kw_test ["foo"; "bar*"] <$> ["foo"; "bar"; "barfoo"; "x foo.x"; "foo/bar"; "bat"; "foobar"]
  = Some <$> [true; true; true; true; true; false; false].
Proof. by vm_compute. Qed.

Example parser_test_groups :
  kw_test ["(audio)?books?"; "(auto)?biograph(y|ies)"; "fo+(\(bar|\#)"] <$> ["audiobooks"; "Autobiographies"; "foo(bar"; "fo#"; "fo5"]
  = Some <$> [true; true; true; true; false].
Proof. by vm_compute. Qed.

Example parser_test_error :
  NewRexTokensFromKeywords [runes_of "foo(bar"] = Err (InKeyword (runes_of "foo(bar") 7 ErrUnexpectedEOF).
Proof. by vm_compute. Qed.

End Keywords.
