(* ===== verification/Episodes.v ===== *)
(** * Seasons and episodes

    [internal/model/episodes.go], the set of episodes of a release and its
    text, and [episodes_parser.go], the patterns that read it from a name.  A
    season without episodes stands for the whole season.

    Patterns are the tokens of hedhyw/rex, as in [Keywords]; the compiled
    pattern is an interface with the law that it finds what the tokens say. *)
From S2P Require Import Prelude Lexer Fts Regex Dates Anime Keywords.
From stdpp Require Import list strings sets gmap sorting.
From Stdlib Require Import ZArith Lia.

Module Episodes.
Import Lexer Keywords.
Local Open Scope Z_scope.
Local Open Scope list_scope.

(** ** The set, [episodes.go] *)

(** [map[int]map[int]struct{}] *)
Abbreviation Episodes := (gmap Z (gset Z)).

Record Season := mkSeason { se_Season : Z; se_Episodes : list Z }.
Record contiguousRange := mkRange { start : Z; end_ : Z }.

Definition HasEpisode (e : Episodes) (season episode : Z) : bool :=
  match e !! season with
  | None => false
  | Some epMap => if bool_decide (epMap = ∅) then true else bool_decide (episode ∈ epMap)
  end.

Definition AddEpisode (season episode : Z) (e : Episodes) : Episodes :=
  <[season := default ∅ (e !! season) ∪ {[episode]}]> e.

Definition AddSeason (season : Z) (e : Episodes) : Episodes := <[season := ∅]> e.

(** [sort.Slice] by season and by episode; the keys of a map are distinct, so
    the order of its iteration does not matter. *)
Definition SeasonEntries (e : Episodes) : list Season :=
  (λ s, mkSeason s (merge_sort Z.le (elements (default ∅ (e !! s))))) <$> merge_sort Z.le (elements (dom e)).

(** [%02d] *)
Definition format02 (n : Z) : runes := if n <? 0 then 45 :: Dates.pad 1 (Fts.dec_loop 20 (- n) []) else Dates.pad 2 (Fts.dec_loop 20 n []).

Definition contiguousRange_String (r : contiguousRange) : runes :=
  if start r =? end_ r then format02 (start r) else format02 (start r) ++ 45 :: format02 (end_ r).

(** The loop after its first turn; the range of an empty slice is the zero
    value. *)
Fixpoint ranges_loop (current : contiguousRange) (l : list Z) : list contiguousRange :=
  match l with
  | [] => [current]
  | v :: l =>
      if v =? end_ current + 1 then ranges_loop (mkRange (start current) v) l
      else current :: ranges_loop (mkRange v v) l
  end.
Definition getContiguousRanges (orderedInts : list Z) : list contiguousRange :=
  match orderedInts with [] => [mkRange 0 0] | v :: l => ranges_loop (mkRange v v) l end.

Definition Season_String (se : Season) : runes :=
  83 :: format02 (se_Season se)
  ++ match se_Episodes se with
     | [] => []
     | eps => Fts.join [44] ((λ r, 69 :: contiguousRange_String r) <$> getContiguousRanges eps)
     end.

Definition wholeSeasons (seasonEntries : list Season) : list Z :=
  se_Season <$> filter (λ s, Anime.nonempty (se_Episodes s) = false) seasonEntries.
Definition partsMap (seasonEntries : list Season) : gmap Z runes :=
  foldl (λ m entry, if Anime.nonempty (se_Episodes entry) then <[se_Season entry := Season_String entry]> m else m)
    (foldl (λ m r, <[start r := 83 :: contiguousRange_String r]> m) ∅ (getContiguousRanges (wholeSeasons seasonEntries)))
    seasonEntries.
Definition Episodes_String (e : Episodes) : runes :=
  Fts.join (runes_of ", ") (omap (λ entry, partsMap (SeasonEntries e) !! se_Season entry) (SeasonEntries e)).

(** ** The patterns, [episodes_parser.go] *)

Definition maxSeasonDigits : nat := 2.
Definition maxEpisodeDigits : nat := 4.
Definition maxRangeSpan : Z := 1000.

Definition ws : token := Repeat ZeroOrOne Whitespace.

Definition episodeNumRegex : Regex.regexp := Eval vm_compute in Regex.MustCompile "(?i)e(\d{1,4})".
Definition numberRunRegex : Regex.regexp := Eval vm_compute in Regex.MustCompile "\d{1,4}".

Definition rangeToken (rs : runes) (number : token) : token :=
  Define [
    Define [number];
    Repeat ZeroOrOne (Composite false [
      NonCaptured [ws; Single 45; ws; Repeat ZeroOrOne (NonCaptured [Repeat ZeroOrOne (Runes rs); ws]); Define [number]];
      Repeat OneOrMore (NonCaptured [
        ws; Single 44; ws; Repeat ZeroOrOne (NonCaptured [Repeat ZeroOrOne (Runes rs); ws]); Define [number]; ws])])].

Definition seasonNumberToken : token :=
  Composite false [
    NonCaptured [
      Composite false [Text (runes_of "18"); Text (runes_of "19"); Text (runes_of "20")];
      Repeat (Between 2 2) Digits];
    Repeat (Between 1 maxSeasonDigits) Digits].
Definition episodeNumberToken : token := Repeat (Between 1 maxEpisodeDigits) Digits.

(** [MustNewRexTokensFromKeywords] panics when the program starts if the
    keywords do not parse; these do. *)
Definition keyword_tokens `{Unicode} (kws : list string) : list token :=
  match MustNewRexTokensFromKeywords (runes_of <$> kws) with Ok ts => ts | _ => [] end.

Section parser.
Context `{Unicode} `{UnicodeTables} `{!Rex}.

Definition seasonToken : token :=
  NonCaptured [Composite false (keyword_tokens ["season"; "s"]); ws; rangeToken (runes_of "sS") seasonNumberToken; ws].
Definition episodeToken : token :=
  NonCaptured [Composite false (keyword_tokens ["episode"; "ep"; "e"]); ws; rangeToken (runes_of "eE") episodeNumberToken].
Definition episodeConcatToken : token :=
  Repeat ZeroOrOne (Define [
    Repeat OneOrMore (NonCaptured [Runes (runes_of "eE"); Repeat (Between 1 maxEpisodeDigits) Digits])]).
Definition episodesRegularTokens : token :=
  NonCaptured [seasonToken; Repeat ZeroOrOne episodeToken; episodeConcatToken].
Definition episodesXFormatTokens : token :=
  NonCaptured [
    NonCaptured [
      Repeat ZeroOrOne (Runes (runes_of "sS"));
      Define [Repeat (Between 1 maxSeasonDigits) Digits];
      Runes (runes_of "xX");
      Define [Repeat (Between 1 maxEpisodeDigits) Digits]];
    Repeat ZeroOrOne (NonCaptured [ws; Single 45; ws; Define [Repeat (Between 1 maxEpisodeDigits) Digits]])].
Definition EpisodesToken : token := Composite true [episodesXFormatTokens; episodesRegularTokens].

Definition episodes_tokens : list token := [Begin; EpisodesToken; End_].
Definition episodesRegex : Regex.regexp := rex_MustCompile episodes_tokens.

(** ** Reading a match *)

(** [strconv.ParseInt] in base 10 with its error ignored: 0 for a text that is
    no number and the largest value for one that does not fit. *)
Definition ParseInt (bits : Z) (s : runes) : Z :=
  if decide (s ≠ [] ∧ Forall (λ r, IsInt r = true) s) then Z.min (digits_value s) (2 ^ (bits - 1) - 1) else 0.

Definition clampRangeEnd (start end_ : Z) : Z :=
  if (end_ <? start) || (maxRangeSpan <? end_ - start) then start else end_.

Definition clampEpisodeRangeEnd (start end_ : Z) (rawRange : runes) : Z :=
  let end_ := clampRangeEnd start end_ in
  if existsb (λ r, (r =? 101) || (r =? 69)) rawRange then end_
  else if bool_decide (end_ ∈ [480; 576; 720; 1080; 2160]) && (300 <? end_ - start) then start
  else end_.

(** [for i := a; i <= b; i++] *)
Definition upto (a b : Z) : list Z := seqZ a (b - a + 1).

Definition FindAllString (re : Regex.regexp) (s : runes) : list runes :=
  (λ m, Regex.extract s m.1.1 m.1.2) <$> Regex.FindAllIndex re s.

Definition regular_episodes (group : nat → runes) : Episodes :=
  let seasonStart := ParseInt 16 (group 5%nat) in
  match group 8%nat with
  | [] =>
      if Anime.nonempty (group 6%nat) then
        foldl (λ e i, AddSeason i e) ∅ (upto seasonStart (clampRangeEnd seasonStart (ParseInt 16 (group 6%nat))))
      else if Anime.nonempty (group 7%nat) then
        foldl (λ e s, AddSeason (ParseInt 16 s) e) ∅ (FindAllString numberRunRegex (group 4%nat))
      else AddSeason seasonStart ∅
  | _ =>
      let episodeStart := ParseInt 16 (group 9%nat) in
      if Anime.nonempty (group 10%nat) then
        foldl (λ e i, AddEpisode seasonStart i e) ∅
          (upto episodeStart (clampEpisodeRangeEnd episodeStart (ParseInt 16 (group 10%nat)) (group 8%nat)))
      else if Anime.nonempty (group 11%nat) then
        foldl (λ e s, AddEpisode seasonStart (ParseInt 16 s) e) ∅ (FindAllString numberRunRegex (group 8%nat))
      else AddEpisode seasonStart episodeStart ∅
  end.

Definition x_episodes (group : nat → runes) : Episodes :=
  let season := ParseInt 16 (group 1%nat) in
  let episodeStart := ParseInt 16 (group 2%nat) in
  let episodeEnd := if Anime.nonempty (group 3%nat) then ParseInt 16 (group 3%nat) else episodeStart in
  foldl (λ e i, AddEpisode season i e) ∅ (upto episodeStart (clampEpisodeRangeEnd episodeStart episodeEnd [])).

(** A slice that is too short gives the nil map. *)
Definition EpisodesMatchToEpisodes (m : list runes) : option Episodes :=
  let group i := default [] (m !! i) in
  if (length m <? 12)%nat then None
  else if Anime.nonempty (group 1%nat) then Some (x_episodes group)
  else
    let episodes := regular_episodes group in
    if (12 <? length m)%nat && Anime.nonempty (group 12%nat) then
      Some (foldl (λ e sm, AddEpisode (ParseInt 16 (group 5%nat)) (ParseInt 32 (default [] (sm !! 1%nat))) e)
              episodes (Regex.FindAllStringSubmatch episodeNumRegex (group 12%nat)))
    else Some episodes.

Definition ParseEpisodes (input : runes) : option Episodes :=
  match Regex.FindStringSubmatch episodesRegex input with
  | None => None
  | Some m => EpisodesMatchToEpisodes (drop 1 m)
  end.

End parser.

(** ** The tables of the tests, by evaluation *)

Definition of_lists (l : list (Z * list Z)) : Episodes := list_to_map ((λ p, (p.1, list_to_set p.2)) <$> l).
Definition to_lists (e : Episodes) : list (Z * list Z) := (λ s, (se_Season s, se_Episodes s)) <$> SeasonEntries e.
Definition parse_test (s : string) : option (list (Z * list Z)) :=
  to_lists <$> @ParseEpisodes ascii_unicode Regex.ascii_tables (@group_rex Regex.ascii_tables) (runes_of s).
Definition string_test (l : list (Z * list Z)) : runes := Episodes_String (of_lists l).

Example episodes_string_tests :
  string_test <$> [[]; [(1, [])]; [(1, []); (2, []); (3, [])]; [(1, [1; 2])]; [(1, [1; 2]); (2, [])];
    [(1, []); (2, []); (3, []); (5, [1; 2; 4]); (6, []); (7, []); (9, [])]]
  = runes_of <$> [""; "S01"; "S01-03"; "S01E01-02"; "S01E01-02, S02"; "S01-03, S05E01-02,E04, S06-07, S09"]%string.
Proof. vm_compute. reflexivity. Qed.

Example parse_episodes_tests :
  parse_test <$> ["S02x20"; "S17X02"; "01x06"; "2x09"; "3x01-6"; "S01E05"; "S01"; "S20E048"; "S01E1000"; "S01E100-E102";
    "S01E01E02"; "S03E05E06E07"; "S2020"; "S01E01-E9999"; "1920x1080"; "1280x720"; "S2022E16"; "S1998-S2000"; "s1080p";
    "S1-2004"; "S01E106 - 1080"; "1x100-480"; "S2020,S2021"; "S1,S2,S3"; "S2023E01,E03"]%string
  = [Some [(2, [20])]; Some [(17, [2])]; Some [(1, [6])]; Some [(2, [9])]; Some [(3, [1; 2; 3; 4; 5; 6])]; Some [(1, [5])];
     Some [(1, [])]; Some [(20, [48])]; Some [(1, [1000])]; Some [(1, [100; 101; 102])]; Some [(1, [1; 2])];
     Some [(3, [5; 6; 7])]; Some [(2020, [])]; Some [(1, [1])]; None; None; Some [(2022, [16])];
     Some [(1998, []); (1999, []); (2000, [])]; None; Some [(1, [])]; Some [(1, [106])]; Some [(1, [100])];
     Some [(2020, []); (2021, [])]; Some [(1, []); (2, []); (3, [])]; Some [(2023, [1; 3])]].
Proof. vm_compute. reflexivity. Qed.

(** ** The pattern of the tokens *)

Section tokens.
Context `{UnicodeLaws}.

Definition ascii_word (w : runes) : Prop := w ≠ [] ∧ Forall (λ c, 97 ≤ c ≤ 122) w.
Definition ascii_token (w : runes) : token := Composite false [NonCaptured ((λ c, Runes [c - 32; c]) <$> w)].

Lemma ascii_letter c : 97 ≤ c ≤ 122 → plain c ∧ letter c = Runes [c - 32; c].
Proof.
  intros Hc. unfold plain, letter, IsWordChar.
  rewrite ascii_ToLower, ascii_ToUpper, ascii_IsLetter by lia. unfold ascii_upper, ascii_lower.
  rewrite (proj2 (Z.leb_le 97 c)), (proj2 (Z.leb_le c 122)) by lia. rewrite (proj2 (Z.leb_gt c 90)) by lia.
  rewrite andb_false_r. simpl. split; [split_and!; [done|done|set_solver by lia]|].
  by rewrite (proj2 (Z.eqb_neq _ _)) by lia.
Qed.

Lemma rex_tokens_distinct kws : ∀ used tokens,
  Forall ascii_word kws → NoDup kws → (∀ w, w ∈ kws → w ∉ used) →
  rex_tokens_loop used tokens kws = Ok (tokens ++ (ascii_token <$> kws)).
Proof.
  induction kws as [|w kws IH]; intros used tokens Hk Hd Hu; cbn [rex_tokens_loop]; [by rewrite app_nil_r|].
  apply Forall_cons in Hk as [[Hne Hw] Hk]. apply NoDup_cons in Hd as [Hn Hd].
  rewrite bool_decide_eq_false_2 by (apply Hu; left). unfold lexGroupToken.
  destruct (lexGroupToken_loop_plain (S (length w)) [] [] (NewLexer w) w) as (l & Hl); [done| |lia|].
  { eapply Forall_impl; [exact Hw|]. intros c Hc. by apply ascii_letter. }
  simpl rest. rewrite Hl. simpl app.
  assert (letter <$> w = (λ c, Runes [c - 32; c]) <$> w) as ->.
  { apply list_fmap_ext. intros i c Hc. apply ascii_letter. by eapply Forall_lookup in Hw. }
  assert (addGroup [] ((λ c, Runes [c - 32; c]) <$> w) = [NonCaptured ((λ c, Runes [c - 32; c]) <$> w)]) as -> by (by destruct w).
  cbn [finish lift_go mbind outcome_bind].
  rewrite IH; [by rewrite <-app_assoc|done|done|]. intros w' Hw'. apply not_elem_of_cons. split; [by intros ->|].
  apply Hu. by right.
Qed.

Lemma keyword_tokens_ascii kws :
  kws ≠ [] → Forall ascii_word (runes_of <$> kws) → NoDup (runes_of <$> kws) →
  keyword_tokens kws = ascii_token <$> (runes_of <$> kws).
Proof.
  intros Hne Hk Hd. unfold keyword_tokens, MustNewRexTokensFromKeywords, NewRexTokensFromKeywords.
  destruct kws as [|k kws]; [done|]. cbn [fmap list_fmap].
  rewrite (rex_tokens_distinct _ [] []); [done|done|done|]. intros w _. apply not_elem_of_nil.
Qed.

End tokens.

(** The tokens do not depend on [unicode] beyond ASCII. *)
Lemma episodes_tokens_ascii `{UnicodeLaws} : episodes_tokens = @episodes_tokens ascii_unicode.
Proof.
  unfold episodes_tokens, EpisodesToken, episodesRegularTokens, seasonToken, episodeToken.
  rewrite !(keyword_tokens_ascii (H := H)), !(@keyword_tokens_ascii ascii_unicode ascii_unicode_laws); [done|..];
    first [done|by apply (bool_decide_unpack _)|by repeat constructor].
Qed.

Definition episodes_pattern : Regex.regexp := Eval vm_compute in with_groups (@episodes_tokens ascii_unicode).

(** ** Contiguous ranges *)

Definition expand (r : contiguousRange) : list Z := upto (start r) (end_ r).
(** Apart, with a gap between them. *)
Definition apart (r1 r2 : contiguousRange) : Prop := end_ r1 + 1 < start r2.

Lemma elem_of_upto a b x : x ∈ upto a b ↔ a ≤ x ≤ b.
Proof. unfold upto. rewrite elem_of_seqZ. lia. Qed.

Lemma upto_snoc a b : a ≤ b + 1 → upto a (b + 1) = upto a b ++ [b + 1].
Proof.
  intros Hab. unfold upto. replace (b + 1 - a + 1) with ((b - a + 1) + 1) by lia.
  rewrite (seqZ_app a (b - a + 1) 1) by lia. f_equal. unfold seqZ. simpl. f_equal. lia.
Qed.

Lemma upto_single v : upto v v = [v].
Proof. unfold upto. replace (v - v + 1) with 1 by lia. cbn. f_equal; lia. Qed.

Lemma ranges_loop_spec l : ∀ c,
  start c ≤ end_ c → StronglySorted Z.lt l → Forall (λ v, end_ c < v) l →
  ∃ r rs, ranges_loop c l = r :: rs ∧ start r = start c
    ∧ concat (expand <$> ranges_loop c l) = expand c ++ l
    ∧ Forall (λ r, start r ≤ end_ r) (ranges_loop c l) ∧ StronglySorted apart (ranges_loop c l).
Proof.
  induction l as [|v l IH]; intros c Hc Hs Hgt; cbn [ranges_loop].
  { exists c, []. split_and!; [done|done|cbn; by rewrite app_nil_r|by constructor|by repeat constructor]. }
  apply StronglySorted_inv in Hs as [Hs Hv]. apply Forall_cons in Hgt as [Hcv Hgt].
  destruct (Z.eqb_spec v (end_ c + 1)) as [-> | Hne].
  - destruct (IH (mkRange (start c) (end_ c + 1))) as (r & rs & E & Hr & Hx & Hle & Hap); [simpl; lia|done|done|].
    exists r, rs. split_and!; [done|done| |done|done]. rewrite Hx. unfold expand. cbn [start end_].
    rewrite upto_snoc by lia. by rewrite <-app_assoc.
  - destruct (IH (mkRange v v)) as (r & rs & E & Hr & Hx & Hle & Hap); [done|done|done|]. rewrite E in *.
    exists c, (r :: rs). split_and!; [done|done| |by constructor|].
    + cbn [fmap list_fmap concat] in *. rewrite Hx. unfold expand. cbn [start end_]. by rewrite upto_single.
    + constructor; [done|]. apply StronglySorted_inv in Hap as [_ Hap]. apply Forall_cons in Hle as [Hle _].
      constructor; [unfold apart; simpl in Hr; lia|]. eapply Forall_impl; [exact Hap|]. unfold apart. simpl in Hr. lia.
Qed.

(** The ranges of an ordered list spell it out and do not touch. *)
Lemma getContiguousRanges_spec l :
  l ≠ [] → StronglySorted Z.lt l →
  concat (expand <$> getContiguousRanges l) = l
  ∧ Forall (λ r, start r ≤ end_ r) (getContiguousRanges l) ∧ StronglySorted apart (getContiguousRanges l).
Proof.
  intros Hne Hs. destruct l as [|v l]; [done|]. apply StronglySorted_inv in Hs as [Hs Hv].
  destruct (ranges_loop_spec l (mkRange v v)) as (r & rs & _ & _ & Hx & Hle & Hap); [done|done|done|].
  cbn [getContiguousRanges]. split_and!; [|done|done]. rewrite Hx. unfold expand. cbn [start end_]. by rewrite upto_single.
Qed.

Lemma range_of_member l x :
  l ≠ [] → StronglySorted Z.lt l → x ∈ l ↔ ∃ r, r ∈ getContiguousRanges l ∧ start r ≤ x ≤ end_ r.
Proof.
  intros Hne Hs. destruct (getContiguousRanges_spec l Hne Hs) as (Hx & _ & _). rewrite <-Hx at 1.
  rewrite list_elem_of_In, in_concat. setoid_rewrite <-list_elem_of_In. setoid_rewrite list_elem_of_fmap. split.
  - intros (u & (r & -> & Hr) & Hxu). exists r. split; [done|]. by apply elem_of_upto.
  - intros (r & Hr & Hxr). exists (expand r). split; [by exists r|]. by apply elem_of_upto.
Qed.

(** ** Sorted lists of sets *)

Definition sorted_elements (X : gset Z) : list Z := merge_sort Z.le (elements X).

Lemma sorted_elements_spec X : StronglySorted Z.lt (sorted_elements X) ∧ ∀ x, x ∈ sorted_elements X ↔ x ∈ X.
Proof.
  unfold sorted_elements. pose proof (merge_sort_Permutation Z.le (elements X)) as Hp.
  pose proof (StronglySorted_merge_sort Z.le (elements X)) as Hs. split.
  - assert (NoDup (merge_sort Z.le (elements X))) as Hn by (rewrite Hp; apply NoDup_elements). revert Hs Hn.
    generalize (merge_sort Z.le (elements X)). intros l. induction 1 as [|x l Hs IH Hall]; intros Hn; [constructor|].
    apply NoDup_cons in Hn as [Hx Hn]. constructor; [auto|]. rewrite Forall_forall in *. intros y Hy.
    pose proof (Hall y Hy). assert (x ≠ y) by (by intros ->). lia.
  - intros x. by rewrite Hp, elem_of_elements.
Qed.

Lemma sorted_unique l1 l2 :
  StronglySorted Z.lt l1 → StronglySorted Z.lt l2 → (∀ x, x ∈ l1 ↔ x ∈ l2) → l1 = l2.
Proof.
  revert l2. induction l1 as [|x l1 IH]; intros l2 H1 H2 Hin.
  { destruct l2 as [|y l2]; [done|]. exfalso. apply (not_elem_of_nil y), Hin. left. }
  destruct l2 as [|y l2]; [exfalso; apply (not_elem_of_nil x), Hin; left|].
  apply StronglySorted_inv in H1 as [H1 Hx]. apply StronglySorted_inv in H2 as [H2 Hy].
  rewrite Forall_forall in Hx, Hy. assert (x = y) as ->.
  { pose proof (proj1 (Hin x) ltac:(left)) as [? | Hxl]%elem_of_cons; [done|].
    pose proof (proj2 (Hin y) ltac:(left)) as [? | Hyl]%elem_of_cons; [done|].
    pose proof (Hx y Hyl). pose proof (Hy x Hxl). lia. }
  f_equal. apply IH; [done|done|]. intros z. specialize (Hin z). rewrite !elem_of_cons in Hin.
  split; intros Hz; [destruct (proj1 Hin ltac:(by right)) as [-> | ?]; [pose proof (Hx y Hz); lia|done]|].
  destruct (proj2 Hin ltac:(by right)) as [-> | ?]; [pose proof (Hy y Hz); lia|done].
Qed.

Lemma sorted_elements_of l X : StronglySorted Z.lt l → (∀ x, x ∈ l ↔ x ∈ X) → sorted_elements X = l.
Proof.
  intros Hs Hin. destruct (sorted_elements_spec X) as [Hs' Hin']. apply sorted_unique; [done|done|].
  intros x. by rewrite Hin', Hin.
Qed.

Lemma sorted_elements_nil X : sorted_elements X = [] ↔ X = ∅.
Proof.
  destruct (sorted_elements_spec X) as [_ Hin]. split.
  - intros E. apply elem_of_equiv_empty_L. intros x Hx. apply Hin in Hx. rewrite E in Hx. by apply elem_of_nil in Hx.
  - intros ->. reflexivity.
Qed.

(** ** What the text of a set says *)

Lemma SeasonEntries_eq e :
  SeasonEntries e = (λ s, mkSeason s (sorted_elements (default ∅ (e !! s)))) <$> sorted_elements (dom e).
Proof. done. Qed.

(** The parts of the text: a run of whole seasons, or a season with episodes. *)
Inductive part := Whole (r : contiguousRange) | Partial (se : Season).
Definition part_text (p : part) : runes :=
  match p with Whole r => 83 :: contiguousRange_String r | Partial se => Season_String se end.
Definition part_start (p : part) : Z := match p with Whole r => start r | Partial se => se_Season se end.

Fixpoint range_at (rs : list contiguousRange) (s : Z) : option contiguousRange :=
  match rs with [] => None | r :: rs => if start r =? s then Some r else range_at rs s end.
Definition entry_part (entries : list Season) (entry : Season) : option part :=
  if Anime.nonempty (se_Episodes entry) then Some (Partial entry)
  else Whole <$> range_at (getContiguousRanges (wholeSeasons entries)) (se_Season entry).
Definition parts (e : Episodes) : list part := omap (entry_part (SeasonEntries e)) (SeasonEntries e).

Lemma range_at_Some rs s r : range_at rs s = Some r → r ∈ rs ∧ start r = s.
Proof.
  induction rs as [|r' rs IH]; [done|]. cbn. destruct (Z.eqb_spec (start r') s) as [<- |].
  - intros [= ->]. split; [left|done].
  - intros Hr. destruct (IH Hr). split; [by right|done].
Qed.

Lemma range_at_None rs s : range_at rs s = None → s ∉ start <$> rs.
Proof.
  induction rs as [|r rs IH]; [intros _; apply not_elem_of_nil|]. cbn. destruct (Z.eqb_spec (start r) s); [done|].
  intros Hr. apply not_elem_of_cons. split; [congruence|auto].
Qed.

Lemma range_at_start rs r : NoDup (start <$> rs) → r ∈ rs → range_at rs (start r) = Some r.
Proof.
  intros Hd Hr. destruct (range_at rs (start r)) as [r'|] eqn:E.
  - apply range_at_Some in E as [Hr' E]. f_equal. apply list_elem_of_lookup in Hr as [i Hi], Hr' as [j Hj].
    assert (i = j) as ->; [|congruence]. eapply NoDup_lookup; [exact Hd|rewrite list_lookup_fmap, Hi; done|].
    rewrite list_lookup_fmap, Hj. simpl. by rewrite E.
  - apply range_at_None in E. destruct E. by apply list_elem_of_fmap_2.
Qed.

Lemma range_inserts rs s : ∀ (m : gmap Z runes),
  NoDup (start <$> rs) →
  foldl (λ m r, <[start r := 83 :: contiguousRange_String r]> m) m rs !! s
  = match range_at rs s with Some r => Some (83 :: contiguousRange_String r) | None => m !! s end.
Proof.
  induction rs as [|r rs IH]; intros m Hd; [done|]. cbn [fmap list_fmap] in Hd.
  apply NoDup_cons in Hd as [Hr Hd]. cbn [foldl range_at]. rewrite IH by done.
  destruct (Z.eqb_spec (start r) s) as [<- | Hne].
  - destruct (range_at rs (start r)) as [x|] eqn:E; [|by rewrite lookup_insert_eq].
    exfalso. apply range_at_Some in E as [Hx E]. apply Hr. rewrite <-E. by apply list_elem_of_fmap_2.
  - destruct (range_at rs s); [done|]. by rewrite lookup_insert_ne.
Qed.

Lemma season_inserts entries : ∀ (m : gmap Z runes) entry,
  NoDup (se_Season <$> entries) → entry ∈ entries →
  foldl (λ m e, if Anime.nonempty (se_Episodes e) then <[se_Season e := Season_String e]> m else m) m entries !! se_Season entry
  = if Anime.nonempty (se_Episodes entry) then Some (Season_String entry) else m !! se_Season entry.
Proof.
  assert (∀ entries (m : gmap Z runes) s, s ∉ se_Season <$> entries →
    foldl (λ m e, if Anime.nonempty (se_Episodes e) then <[se_Season e := Season_String e]> m else m) m entries !! s = m !! s) as Hother.
  { clear. induction entries as [|x entries IH]; intros m s Hs; [done|]. cbn in Hs |- *.
    apply not_elem_of_cons in Hs as [Hx Hs]. rewrite IH by done. destruct (Anime.nonempty _); [by rewrite lookup_insert_ne|done]. }
  induction entries as [|x entries IH]; intros m entry Hd He; [by apply elem_of_nil in He|].
  cbn [fmap list_fmap] in Hd. apply NoDup_cons in Hd as [Hx Hd]. cbn [foldl]. apply elem_of_cons in He as [-> | He].
  - rewrite Hother by done. destruct (Anime.nonempty _); [by rewrite lookup_insert_eq|done].
  - rewrite IH by done. destruct (Anime.nonempty (se_Episodes entry)); [done|].
    assert (se_Season x ≠ se_Season entry) by (intros E; apply Hx; rewrite E; by apply list_elem_of_fmap_2).
    destruct (Anime.nonempty _); [by rewrite lookup_insert_ne|done].
Qed.

Lemma NoDup_sorted l : StronglySorted Z.lt l → NoDup l.
Proof.
  induction 1 as [|x l Hs IH Hall]; constructor; [|done]. intros Hx. rewrite Forall_forall in Hall.
  pose proof (Hall x Hx). lia.
Qed.

Lemma seasons_sorted e : StronglySorted Z.lt (se_Season <$> SeasonEntries e).
Proof. rewrite SeasonEntries_eq, <-list_fmap_compose. rewrite list_fmap_id. apply sorted_elements_spec. Qed.

Lemma sorted_filter {A} (f : A → Z) (P : A → Prop) `{!∀ x, Decision (P x)} l :
  StronglySorted Z.lt (f <$> l) → StronglySorted Z.lt (f <$> filter P l).
Proof.
  induction l as [|x l IH]; [done|]. cbn [fmap list_fmap]. intros [Hs Hall]%StronglySorted_inv.
  rewrite filter_cons. case_decide; [|auto]. cbn [fmap list_fmap]. constructor; [auto|].
  rewrite Forall_forall in *. intros y (z & -> & [_ Hz]%list_elem_of_filter)%list_elem_of_fmap.
  apply Hall. by apply list_elem_of_fmap_2.
Qed.

Lemma wholeSeasons_sorted e : StronglySorted Z.lt (wholeSeasons (SeasonEntries e)).
Proof. apply sorted_filter, seasons_sorted. Qed.

Lemma whole_ranges_apart e :
  StronglySorted apart (getContiguousRanges (wholeSeasons (SeasonEntries e)))
  ∧ Forall (λ r, start r ≤ end_ r) (getContiguousRanges (wholeSeasons (SeasonEntries e))).
Proof.
  destruct (decide (wholeSeasons (SeasonEntries e) = [])) as [-> | Hne].
  - split; [repeat constructor|]. constructor; [done|constructor].
  - pose proof (getContiguousRanges_spec _ Hne (wholeSeasons_sorted e)). tauto.
Qed.

Lemma starts_NoDup rs : StronglySorted apart rs → Forall (λ r, start r ≤ end_ r) rs → NoDup (start <$> rs).
Proof.
  intros Hs Hle. apply NoDup_sorted. induction Hs as [|r rs Hs IH Hap]; [constructor|].
  apply Forall_cons in Hle as [Hr Hle]. cbn. constructor; [auto|]. apply Forall_forall.
  intros y (r' & -> & Hr')%list_elem_of_fmap. rewrite Forall_forall in Hap. pose proof (Hap r' Hr') as H. unfold apart in H. lia.
Qed.

Lemma partsMap_entry e entry :
  entry ∈ SeasonEntries e → partsMap (SeasonEntries e) !! se_Season entry = part_text <$> entry_part (SeasonEntries e) entry.
Proof.
  intros He. unfold partsMap, entry_part. destruct (whole_ranges_apart e) as [Ha Hle].
  rewrite season_inserts; [|apply NoDup_sorted, seasons_sorted|done].
  destruct (Anime.nonempty (se_Episodes entry)); [done|].
  rewrite range_inserts by by apply starts_NoDup. by destruct (range_at _ _).
Qed.

Lemma omap_ext_elem {A B} (f g : A → option B) (l : list A) : (∀ x, x ∈ l → f x = g x) → omap f l = omap g l.
Proof.
  induction l as [|x l IH]; intros Hfg; [done|]. cbn. rewrite (Hfg x) by left. rewrite IH; [done|]. intros y Hy. apply Hfg. by right.
Qed.

Lemma omap_fmap_out {A B C} (f : A → option B) (g : B → C) (l : list A) : omap (λ x, g <$> f x) l = g <$> omap f l.
Proof. induction l as [|x l IH]; [done|]. cbn. destruct (f x); cbn; by rewrite IH. Qed.

Lemma Episodes_String_parts e : Episodes_String e = Fts.join (runes_of ", ") (part_text <$> parts e).
Proof.
  unfold Episodes_String, parts. rewrite <-omap_fmap_out. f_equal. apply omap_ext_elem. intros entry He.
  by apply partsMap_entry.
Qed.

Lemma elem_of_SeasonEntries e entry :
  entry ∈ SeasonEntries e ↔ ∃ X, e !! se_Season entry = Some X ∧ se_Episodes entry = sorted_elements X.
Proof.
  rewrite SeasonEntries_eq, list_elem_of_fmap. split.
  - intros (s & -> & Hs). simpl. apply sorted_elements_spec, elem_of_dom in Hs as [X Hs]. exists X. by rewrite Hs.
  - intros (X & HX & He). exists (se_Season entry). rewrite HX. split; [destruct entry; simpl in *; by subst|].
    apply sorted_elements_spec, elem_of_dom. eauto.
Qed.

Lemma elem_of_wholeSeasons e s : s ∈ wholeSeasons (SeasonEntries e) ↔ e !! s = Some ∅.
Proof.
  unfold wholeSeasons. rewrite list_elem_of_fmap. setoid_rewrite list_elem_of_filter. setoid_rewrite elem_of_SeasonEntries. split.
  - intros (entry & -> & Hn & X & HX & He). unfold Anime.nonempty in Hn. apply bool_decide_eq_false, dec_stable in Hn.
    rewrite He in Hn. apply sorted_elements_nil in Hn as ->. done.
  - intros Hs. exists (mkSeason s []). split; [done|]. split; [done|]. by exists ∅.
Qed.

Lemma elem_of_parts_whole e r :
  Whole r ∈ parts e ↔ wholeSeasons (SeasonEntries e) ≠ [] ∧ r ∈ getContiguousRanges (wholeSeasons (SeasonEntries e)).
Proof.
  destruct (whole_ranges_apart e) as [Ha Hle]. pose proof (starts_NoDup _ Ha Hle) as Hd.
  unfold parts. rewrite list_elem_of_omap. unfold entry_part. split.
  - intros (entry & He & Hp). destruct (Anime.nonempty _) eqn:Hn; [done|].
    apply fmap_Some in Hp as (r' & [Hr Hs]%range_at_Some & [= <-]). split; [|done].
    assert (se_Season entry ∈ wholeSeasons (SeasonEntries e)) as Hin; [|by intros E; rewrite E in Hin; apply elem_of_nil in Hin].
    unfold wholeSeasons. apply list_elem_of_fmap_2. by apply list_elem_of_filter.
  - intros [Hne Hr]. assert (start r ∈ wholeSeasons (SeasonEntries e)) as Hs.
    { apply range_of_member; [done|apply wholeSeasons_sorted|]. exists r. split; [done|].
      rewrite Forall_forall in Hle. specialize (Hle r Hr). lia. }
    unfold wholeSeasons in Hs. apply list_elem_of_fmap in Hs as (entry & E & [Hn He]%list_elem_of_filter).
    exists entry. split; [done|]. rewrite Hn, <-E, range_at_start by done. done.
Qed.

Lemma elem_of_parts_partial e se :
  Partial se ∈ parts e ↔ ∃ X, e !! se_Season se = Some X ∧ X ≠ ∅ ∧ se_Episodes se = sorted_elements X.
Proof.
  unfold parts. rewrite list_elem_of_omap. unfold entry_part. setoid_rewrite elem_of_SeasonEntries.
  assert (∀ X, Anime.nonempty (sorted_elements X) = bool_decide (X ≠ ∅)) as Hn.
  { intros X. unfold Anime.nonempty. apply bool_decide_ext. by rewrite sorted_elements_nil. }
  split.
  - intros (entry & (X & HX & He) & Hp). rewrite He, Hn in Hp. case_bool_decide as HX'; [|by destruct (range_at _ _)].
    injection Hp as <-. by exists X.
  - intros (X & HX & Hne & He). exists se. split; [by exists X|]. rewrite He, Hn. by rewrite bool_decide_eq_true_2.
Qed.

Lemma part_start_entry entries entry p : entry_part entries entry = Some p → part_start p = se_Season entry.
Proof.
  unfold entry_part. destruct (Anime.nonempty _); [by intros [= <-]|].
  intros (r & [_ <-]%range_at_Some & ->)%fmap_Some. done.
Qed.

Lemma parts_sorted e : StronglySorted Z.lt (part_start <$> parts e).
Proof.
  unfold parts. generalize (seasons_sorted e). generalize (SeasonEntries e) at 1 3 as l. intros l.
  induction l as [|x l IH]; [constructor|]. cbn [fmap list_fmap]. intros [Hs Hall]%StronglySorted_inv. cbn.
  destruct (entry_part (SeasonEntries e) x) as [p|] eqn:Ep; [|auto]. cbn. constructor; [auto|].
  rewrite (part_start_entry _ _ _ Ep). apply Forall_forall.
  intros y (q & -> & (entry & Hin & Eq)%list_elem_of_omap)%list_elem_of_fmap.
  rewrite (part_start_entry _ _ _ Eq). rewrite Forall_forall in Hall. apply Hall. by apply list_elem_of_fmap_2.
Qed.

(** The text of a set of episodes says exactly what is in it: it is a list of parts in the order of their seasons, each a run of whole seasons or a season with its episodes; a season is in the set as a whole exactly when a run covers it, and with certain episodes exactly when a part names it with these, whose ranges, in order, spell them out; and runs are as long as they can be, so that no two of them touch. *)
Theorem episodes_string_exact e :
  Episodes_String e = Fts.join (runes_of ", ") (part_text <$> parts e)
  ∧ StronglySorted Z.lt (part_start <$> parts e)
  ∧ (∀ s, e !! s = Some ∅ ↔ ∃ r, Whole r ∈ parts e ∧ start r ≤ s ≤ end_ r)
  ∧ (∀ s X, e !! s = Some X ∧ X ≠ ∅ ↔
       ∃ eps, Partial (mkSeason s eps) ∈ parts e ∧ eps ≠ [] ∧ concat (expand <$> getContiguousRanges eps) = eps ∧ list_to_set eps = X)
  ∧ (∀ r1 r2, Whole r1 ∈ parts e ∧ Whole r2 ∈ parts e ∧ start r1 < start r2 → end_ r1 + 1 < start r2).
Proof.
  destruct (whole_ranges_apart e) as [Ha Hle]. split_and!.
  - apply Episodes_String_parts.
  - apply parts_sorted.
  - intros s. rewrite <-elem_of_wholeSeasons. setoid_rewrite elem_of_parts_whole.
    destruct (decide (wholeSeasons (SeasonEntries e) = [])) as [E | Hne].
    + rewrite E. split; [by intros ?%elem_of_nil|]. by intros (r & [[] _] & _).
    + rewrite (range_of_member _ s Hne (wholeSeasons_sorted e)).
      split; [intros (r & Hr & Hb)|intros (r & [_ Hr] & Hb)]; exists r; auto.
  - intros s X. setoid_rewrite elem_of_parts_partial. cbn [se_Season se_Episodes]. split.
    + intros [HX Hne]. exists (sorted_elements X).
      assert (sorted_elements X ≠ []) as Hne' by by rewrite sorted_elements_nil.
      destruct (sorted_elements_spec X) as [Hs Hin]. split_and!; [by exists X|done|by apply getContiguousRanges_spec|].
      apply leibniz_equiv. intros x. by rewrite elem_of_list_to_set.
    + intros (eps & (X' & HX & Hne & ->) & _ & _ & <-). rewrite HX. split; [|].
      * f_equal. apply leibniz_equiv. intros x. rewrite elem_of_list_to_set. symmetry. apply sorted_elements_spec.
      * intros E. apply Hne. apply sorted_elements_nil. destruct (sorted_elements X') as [|x l]; [done|]. set_solver.
  - intros r1 r2 ([_ H1]%elem_of_parts_whole & [_ H2]%elem_of_parts_whole & Hlt). revert H1 H2. clear -Ha Hle Hlt.
    induction Ha as [|r rs Hs IH Hap]; [by intros ?%elem_of_nil|]. apply Forall_cons in Hle as [Hr Hle].
    rewrite Forall_forall in Hap. intros [-> | H1]%elem_of_cons [-> | H2]%elem_of_cons; [lia|by apply Hap| |by apply IH].
    pose proof (Hap r1 H1) as H. unfold apart in H. lia.
Qed.

(** ** Reading back what was written *)

(** Digits that the pattern for years may tell apart, and any digit. *)
Definition digit_sets : list runes := [[48]; [49]; [50]; [51; 52; 53; 54; 55]; [56]; [57]].
Definition any_digit : runes := seqZ 48 10.

Lemma any_digit_spec c : IsInt c = true → c ∈ any_digit.
Proof. intros Hc%Dates.IsInt_range. apply elem_of_seqZ. lia. Qed.
Lemma digit_sets_spec c : IsInt c = true → Exists (λ cs, c ∈ cs) digit_sets.
Proof.
  intros Hc%Dates.IsInt_range. unfold digit_sets.
  assert (c = 48 ∨ c = 49 ∨ c = 50 ∨ 51 ≤ c ≤ 55 ∨ c = 56 ∨ c = 57) as Hcase by lia.
  rewrite !Exists_cons. setoid_rewrite elem_of_cons. repeat setoid_rewrite elem_of_cons. lia.
Qed.

(** The numbers the pattern reads as one season. *)
Definition readable (s : Z) : Prop := 0 ≤ s ≤ 99 ∨ 1800 ≤ s ≤ 2099.

(** The abstract texts of the seasons and of the episodes. *)
Definition two_digit_sets : list (list runes) := digit_sets ≫= λ c, (λ d, [c; d]) <$> digit_sets.
Definition season_sets : list (list runes) :=
  two_digit_sets ++ [[[49]; [56]; any_digit; any_digit]; [[49]; [57]; any_digit; any_digit]; [[50]; [48]; any_digit; any_digit]].
Definition episode_sets : list (list runes) := [replicate 2 any_digit; replicate 3 any_digit; replicate 4 any_digit].

Abbreviation among := (Forall2 (λ (c : Z) (cs : runes), c ∈ cs)).

Definition number_of (n : Z) (s : runes) : Prop := s ≠ [] ∧ Forall (λ r, IsInt r = true) s ∧ digits_value s = n.

Lemma format02_text n w :
  (2 ≤ w ≤ 20)%nat → 0 ≤ n < 10 ^ Z.of_nat w →
  number_of n (format02 n) ∧ (2 ≤ length (format02 n) ≤ w)%nat.
Proof.
  intros Hw Hn. unfold format02. rewrite (proj2 (Z.ltb_ge _ _)) by lia.
  pose proof (Dates.dec_loop_length 20 w n [] Hn ltac:(lia)) as Hl. cbn [length] in Hl.
  destruct (Fts.dec_loop_spec 20 n []) as (ds & Eds & Hv & Hne & Hall); [|lia|].
  { split; [lia|]. eapply Z.lt_le_trans; [apply Hn|]. apply Z.pow_le_mono_r; lia. }
  rewrite app_nil_r in Eds. rewrite Eds in *. clear Eds. unfold Dates.pad. split; [split_and!|].
  - destruct ds; [done|]. by destruct (replicate _ _).
  - apply Forall_app. split; [by apply Forall_replicate|done].
  - by rewrite Dates.digits_value_zeros.
  - rewrite length_app, length_replicate. lia.
Qed.

Lemma digits_any s : Forall (λ r, IsInt r = true) s → among s (replicate (length s) any_digit).
Proof. induction 1 as [|r s Hr Hs IH]; cbn; constructor; [by apply any_digit_spec|done]. Qed.

Lemma episode_among n : 0 ≤ n ≤ 9999 → number_of n (format02 n) ∧ ∃ cs, cs ∈ episode_sets ∧ among (format02 n) cs.
Proof.
  intros Hn. destruct (format02_text n 4) as [Ht Hl]; [lia|change (10 ^ Z.of_nat 4) with 10000; lia|].
  split; [done|]. destruct Ht as (_ & Hd & _). exists (replicate (length (format02 n)) any_digit).
  split; [|by apply digits_any]. unfold episode_sets. rewrite !elem_of_cons.
  assert (length (format02 n) = 2 ∨ length (format02 n) = 3 ∨ length (format02 n) = 4)%nat as [-> | [-> | ->]] by lia; auto.
Qed.

Lemma among_any s n : Forall (λ r, IsInt r = true) s → length s = n → among s (replicate n any_digit).
Proof. intros Hs <-. by apply digits_any. Qed.

Lemma season_among n : readable n → number_of n (format02 n) ∧ ∃ cs, cs ∈ season_sets ∧ among (format02 n) cs.
Proof.
  intros Hn. destruct (format02_text n 4) as [Ht Hl]; [lia|change (10 ^ Z.of_nat 4) with 10000; unfold readable in Hn; lia|].
  split; [done|]. destruct Ht as (_ & Hd & Hv). unfold season_sets. setoid_rewrite elem_of_app.
  set (t := format02 n) in *. destruct Hn as [Hn | Hn].
  - destruct (format02_text n 2) as [_ Hl2]; [lia|change (10 ^ Z.of_nat 2) with 100; lia|]. fold t in Hl2.
    destruct t as [|c [|d [|]]]; simpl in Hl2; try lia. rewrite !Forall_cons in Hd. destruct Hd as (Hc & Hd & _).
    apply digit_sets_spec, Exists_exists in Hc as (cs & Hcs & Hc). apply digit_sets_spec, Exists_exists in Hd as (ds & Hds & Hd).
    exists [cs; ds]. split; [left|by repeat constructor]. unfold two_digit_sets. apply list_elem_of_bind. exists cs. split; [|done].
    apply list_elem_of_fmap. by exists ds.
  - assert (length t = 4%nat) as H4.
    { pose proof (Dates.digits_value_bounds t Hd) as Hb. assert (length t = 2 ∨ length t = 3 ∨ length t = 4)%nat as [E | [E | E]] by lia;
        rewrite E in Hb; [change (10 ^ Z.of_nat 2) with 100 in Hb; lia|change (10 ^ Z.of_nat 3) with 1000 in Hb; lia|done]. }
    destruct t as [|a [|b [|c [|d [|]]]]]; simpl in H4; try lia. rewrite !Forall_cons in Hd.
    destruct Hd as (Ha%Dates.IsInt_range & Hb%Dates.IsInt_range & Hc & Hd & _).
    pose proof (Hc) as Hc'%Dates.IsInt_range. pose proof Hd as Hd'%Dates.IsInt_range.
    apply any_digit_spec in Hc, Hd. cbn in Hv.
    assert (a = 49 ∧ b = 56 ∨ a = 49 ∧ b = 57 ∨ a = 50 ∧ b = 48) as Hab by lia.
    destruct Hab as [[-> ->] | [[-> ->] | [-> ->]]];
      [exists [[49]; [56]; any_digit; any_digit]|exists [[49]; [57]; any_digit; any_digit]|exists [[50]; [48]; any_digit; any_digit]];
      (split; [right; rewrite !elem_of_cons; auto|
        rewrite !Forall2_cons; split_and!; [by left|by left|done|done|constructor]]).
Qed.

(** The groups of a match, by the lengths of the numbers: a season, seasons, an
    episode, episodes. *)
Definition groups_of (total : nat) (l : list (option (nat * nat))) : nat * nat * list (option (nat * nat)) :=
  (0%nat, total, Some (0%nat, total) :: None :: None :: None :: l).
Definition one_season (n : nat) :=
  groups_of (1 + n) [Some (1, 1 + n); Some (1, 1 + n); None; None; None; None; None; None; None]%nat.
Definition two_seasons (n m : nat) :=
  groups_of (2 + n + m)
    [Some (1, 2 + n + m); Some (1, 1 + n); Some (2 + n, 2 + n + m); None; None; None; None; None; None]%nat.
Definition one_episode (n m : nat) :=
  groups_of (2 + n + m)
    [Some (1, 1 + n); Some (1, 1 + n); None; None; Some (2 + n, 2 + n + m); Some (2 + n, 2 + n + m); None; None; None]%nat.
Definition two_episodes (n m l : nat) :=
  groups_of (3 + n + m + l)
    [Some (1, 1 + n); Some (1, 1 + n); None; None; Some (2 + n, 3 + n + m + l); Some (2 + n, 2 + n + m);
     Some (3 + n + m, 3 + n + m + l); None; None]%nat.

Section finds.
Context `{UnicodeTables}.

Definition finds (cs : list runes) (gs : nat * nat * list (option (nat * nat))) : bool :=
  bool_decide (Regex.afind episodes_pattern cs = Some (Some gs)).

(** Numbers of two digits, or years: a range does not mix them. *)
Definition same_kind (c d : list runes) : bool := (length c =? length d)%nat.

Lemma check_season : forallb (λ c, finds ([83] :: c) (one_season (length c))) season_sets = true.
Proof. vm_cast_no_check (eq_refl true). Qed.
Lemma check_seasons :
  forallb (λ c, forallb (λ d, negb (same_kind c d) || finds ([83] :: c ++ [45] :: d) (two_seasons (length c) (length d)))
    season_sets) season_sets = true.
Proof. vm_cast_no_check (eq_refl true). Qed.
Lemma check_episode :
  forallb (λ c, forallb (λ a, finds ([83] :: c ++ [69] :: a) (one_episode (length c) (length a))) episode_sets) season_sets = true.
Proof. vm_cast_no_check (eq_refl true). Qed.
Lemma check_episodes :
  forallb (λ c, forallb (λ a, forallb (λ b,
    finds ([83] :: c ++ [69] :: a ++ [45] :: b) (two_episodes (length c) (length a) (length b))) episode_sets) episode_sets)
    season_sets = true.
Proof. vm_cast_no_check (eq_refl true). Qed.

Lemma forallb_elem {A} (P : A → bool) l x : forallb P l = true → x ∈ l → P x = true.
Proof. rewrite forallb_forall. intros HP Hx. by apply HP, list_elem_of_In. Qed.

Lemma finds_spec s cs gs : finds cs gs = true → among s cs → Regex.find episodes_pattern s = Some gs.
Proof. unfold finds. intros Hf%bool_decide_eq_true Hs. by eapply Regex.afind_spec in Hf. Qed.

#[local] Opaque finds.

Lemma among_cons c cs s t : c ∈ cs → among s t → among (c :: s) (cs :: t).
Proof. by constructor. Qed.

Lemma find_season s :
  readable s → Regex.find episodes_pattern (83 :: format02 s) = Some (one_season (length (format02 s))).
Proof.
  intros (_ & c & Hc & Ac)%season_among. rewrite (Forall2_length _ _ _ Ac).
  eapply finds_spec; [exact (forallb_elem _ _ c check_season Hc)|]. apply among_cons; [by left|done].
Qed.

Lemma find_seasons s t :
  readable s → readable t → length (format02 s) = length (format02 t) →
  Regex.find episodes_pattern (83 :: format02 s ++ 45 :: format02 t)
  = Some (two_seasons (length (format02 s)) (length (format02 t))).
Proof.
  intros (_ & c & Hc & Ac)%season_among (_ & d & Hd & Ad)%season_among Hl.
  pose proof (forallb_elem _ _ d (forallb_elem _ _ c check_seasons Hc) Hd) as Hk. cbv beta in Hk.
  rewrite (Forall2_length _ _ _ Ac), (Forall2_length _ _ _ Ad) in *. unfold same_kind in Hk.
  apply orb_true_iff in Hk as [Hk|Hk]; [by rewrite Hl, Nat.eqb_refl in Hk|].
  eapply finds_spec; [exact Hk|]. apply among_cons; [by left|]. apply Forall2_app; [done|]. apply among_cons; [by left|done].
Qed.

Lemma find_episode s a :
  readable s → 0 ≤ a ≤ 9999 →
  Regex.find episodes_pattern (83 :: format02 s ++ 69 :: format02 a)
  = Some (one_episode (length (format02 s)) (length (format02 a))).
Proof.
  intros (_ & c & Hc & Ac)%season_among (_ & d & Hd & Ad)%episode_among.
  pose proof (forallb_elem _ _ d (forallb_elem _ _ c check_episode Hc) Hd) as Hk. cbv beta in Hk.
  rewrite (Forall2_length _ _ _ Ac), (Forall2_length _ _ _ Ad).
  eapply finds_spec; [exact Hk|]. apply among_cons; [by left|]. apply Forall2_app; [done|]. apply among_cons; [by left|done].
Qed.

Lemma find_episodes s a b :
  readable s → 0 ≤ a ≤ 9999 → 0 ≤ b ≤ 9999 →
  Regex.find episodes_pattern (83 :: format02 s ++ 69 :: format02 a ++ 45 :: format02 b)
  = Some (two_episodes (length (format02 s)) (length (format02 a)) (length (format02 b))).
Proof.
  intros (_ & c & Hc & Ac)%season_among (_ & d & Hd & Ad)%episode_among (_ & e & He & Ae)%episode_among.
  pose proof (forallb_elem _ _ e (forallb_elem _ _ d (forallb_elem _ _ c check_episodes Hc) Hd) He) as Hk. cbv beta in Hk.
  rewrite (Forall2_length _ _ _ Ac), (Forall2_length _ _ _ Ad), (Forall2_length _ _ _ Ae).
  eapply finds_spec; [exact Hk|]. apply among_cons; [by left|]. apply Forall2_app; [done|]. apply among_cons; [by left|].
  apply Forall2_app; [done|]. apply among_cons; [by left|done].
Qed.

End finds.

Section roundtrip.
Context `{HU : Unicode} `{!UnicodeLaws} `{HT : UnicodeTables} `{!Rex} `{!RexGroups}.

Lemma ParseEpisodes_find s i j gs :
  Regex.find episodes_pattern s = Some (i, j, gs) →
  ParseEpisodes s = EpisodesMatchToEpisodes ((λ g, match g with Some (a, b) => Regex.extract s a b | None => [] end) <$> gs).
Proof.
  intros Hf. unfold ParseEpisodes, Regex.FindStringSubmatch, episodesRegex, rex_MustCompile.
  destruct (rex_Compile_groups episodes_tokens) as (re & -> & Hre). cbn [default]. rewrite Hre, episodes_tokens_ascii.
  change (with_groups (@episodes_tokens ascii_unicode)) with episodes_pattern. by rewrite Hf.
Qed.

Lemma extract_at (u v w : runes) a b : a = length u → b = (length u + length v)%nat → Regex.extract (u ++ v ++ w) a b = v.
Proof.
  intros -> ->. unfold Regex.extract. rewrite drop_app_length. replace (_ + _ - _)%nat with (length v) by lia.
  apply take_app_length.
Qed.

Lemma ParseInt_number n s : number_of n s → n < 32768 → ParseInt 16 s = n.
Proof.
  intros (Hne & Hd & <-) Hn. unfold ParseInt. rewrite decide_True by done. change (2 ^ (16 - 1) - 1) with 32767. lia.
Qed.

Lemma number_nonempty n s : number_of n s → Anime.nonempty s = true.
Proof. intros (Hne & _). unfold Anime.nonempty. by apply bool_decide_eq_true. Qed.

(** The value of a match in regular form without a run of more episodes. *)
Lemma regular_match g0 g4 g5 g6 g7 g8 g9 g10 g11 :
  EpisodesMatchToEpisodes [g0; []; []; []; g4; g5; g6; g7; g8; g9; g10; g11; []]
  = Some (regular_episodes (λ i, default [] ([g0; []; []; []; g4; g5; g6; g7; g8; g9; g10; g11; []] !! i))).
Proof. done. Qed.

Definition episode_set (a b : Z) : gset Z := list_to_set (upto a b).
Definition seasons (s t : Z) : Episodes := list_to_map ((λ i, (i, ∅)) <$> upto s t).

Lemma add_episodes s l : ∀ X, foldl (λ e i, AddEpisode s i e) {[s := X]} l = {[s := X ∪ list_to_set l]}.
Proof.
  induction l as [|i l IH]; intros X; cbn; [by rewrite union_empty_r_L|].
  assert (AddEpisode s i {[s := X]} = {[s := X ∪ {[i]}]}) as ->.
  { unfold AddEpisode. by rewrite lookup_singleton_eq, insert_singleton_eq. }
  rewrite IH. f_equal. set_solver.
Qed.
Lemma add_episodes_empty s i l : foldl (λ e i, AddEpisode s i e) ∅ (i :: l) = {[s := list_to_set (i :: l)]}.
Proof.
  cbn. assert (AddEpisode s i ∅ = {[s := {[i]}]}) as ->.
  { unfold AddEpisode. rewrite lookup_empty. cbn. by rewrite union_empty_l_L. }
  by rewrite add_episodes.
Qed.

Lemma upto_cons a b : a ≤ b → upto a b = a :: upto (a + 1) b.
Proof. intros Hab. unfold upto. rewrite (seqZ_cons a) by lia. f_equal. f_equal; lia. Qed.

Lemma fold_episodes s a b : a ≤ b → foldl (λ e i, AddEpisode s i e) ∅ (upto a b) = {[s := episode_set a b]}.
Proof. intros Hab. unfold episode_set. rewrite upto_cons by done. apply add_episodes_empty. Qed.

Lemma fold_seasons l : ∀ e, NoDup l → (∀ i, i ∈ l → e !! i = None) →
  foldl (λ e i, AddSeason i e) e l = list_to_map ((λ i, (i, ∅)) <$> l) ∪ e.
Proof.
  induction l as [|i l IH]; intros e Hd He; cbn; [by rewrite map_empty_union|].
  apply NoDup_cons in Hd as [Hi Hd]. rewrite IH; [|done|].
  - unfold AddSeason. rewrite <-insert_union_l. symmetry. apply insert_union_r.
    apply not_elem_of_list_to_map_1. rewrite <-list_fmap_compose. cbn. by rewrite list_fmap_id.
  - intros j Hj. unfold AddSeason. rewrite lookup_insert_ne by (by intros ->). apply He. by right.
Qed.

(** How far a range of episodes survives the guards. *)
Definition kept_end (a b : Z) : Z :=
  if (1000 <? b - a) || bool_decide (b ∈ [480; 576; 720; 1080; 2160]) && (300 <? b - a) then a else b.

Lemma clamp_kept a b raw : a ≤ b → Forall (λ r, 45 ≤ r ≤ 57) raw → clampEpisodeRangeEnd a b raw = kept_end a b.
Proof.
  intros Hab Hraw. unfold clampEpisodeRangeEnd, clampRangeEnd, kept_end, maxRangeSpan.
  assert (existsb (λ r, (r =? 101) || (r =? 69)) raw = false) as ->.
  { apply not_true_is_false. intros (r & Hr & He)%existsb_exists. apply list_elem_of_In in Hr.
    rewrite Forall_forall in Hraw. specialize (Hraw r Hr). lia. }
  rewrite (proj2 (Z.ltb_ge b a)) by lia. cbn [orb].
  destruct (Z.ltb_spec 1000 (b - a)); cbn [orb]; [|done].
  replace (300 <? a - a) with false by (symmetry; apply Z.ltb_ge; lia). by rewrite andb_false_r.
Qed.

Lemma number_runes n s : number_of n s → Forall (λ r, 45 ≤ r ≤ 57) s.
Proof. intros (_ & Hd & _). eapply Forall_impl; [exact Hd|]. intros r Hr%Dates.IsInt_range. lia. Qed.

(** Numbers that are close have the same number of digits. *)
Lemma format02_length s : readable s → length (format02 s) = if s <? 1000 then 2%nat else 4%nat.
Proof.
  intros Hs. destruct (format02_text s 4) as [(_ & Hd & Hv) Hl]; [lia|change (10 ^ Z.of_nat 4) with 10000; unfold readable in Hs; lia|].
  destruct (Z.ltb_spec s 1000).
  - destruct (format02_text s 2) as [_ Hl2]; [lia|change (10 ^ Z.of_nat 2) with 100; unfold readable in Hs; lia|lia].
  - pose proof (Dates.digits_value_bounds _ Hd) as Hb. rewrite Hv in Hb.
    assert (length (format02 s) = 2 ∨ length (format02 s) = 3 ∨ length (format02 s) = 4)%nat as [E | [E | E]] by lia;
      rewrite E in Hb; [change (10 ^ Z.of_nat 2) with 100 in Hb; lia|change (10 ^ Z.of_nat 3) with 1000 in Hb; lia|done].
Qed.
Lemma same_length s t : readable s → readable t → t - s ≤ 1000 → s < t → length (format02 s) = length (format02 t).
Proof.
  intros Hs Ht Hspan Hst. rewrite !format02_length by done.
  destruct (Z.ltb_spec s 1000), (Z.ltb_spec t 1000); try done; unfold readable in *; lia.
Qed.

Lemma read_season s : readable s → ParseEpisodes (83 :: format02 s) = Some {[s := ∅]}.
Proof.
  intros Hs. rewrite (ParseEpisodes_find _ _ _ _ (find_season s Hs)). destruct (season_among s Hs) as [Hn _].
  assert (s < 32768) as Hlt by (unfold readable in Hs; lia). set (t := format02 s) in *. clearbody t.
  assert (Regex.extract (83 :: t) 1 (1 + length t) = t) as E.
  { pose proof (extract_at [83] t [] 1 (1 + length t)%nat eq_refl eq_refl) as E. by rewrite app_nil_r in E. }
  cbn [fmap list_fmap snd groups_of one_season]. rewrite !E. set (g := Regex.extract _ 0 _).
  rewrite regular_match. unfold regular_episodes.
  cbn [app lookup list_lookup default id]. rewrite (ParseInt_number s t Hn Hlt). done.
Qed.

Lemma read_seasons s t :
  readable s → readable t → s < t → t - s ≤ 1000 → ParseEpisodes (83 :: format02 s ++ 45 :: format02 t) = Some (seasons s t).
Proof.
  intros Hs Ht Hst Hspan. assert (s < 32768 ∧ t < 32768) as [Ls Lt] by (unfold readable in *; lia).
  destruct (season_among s Hs) as [Ns _], (season_among t Ht) as [Nt _].
  rewrite (ParseEpisodes_find _ _ _ _ (find_seasons s t Hs Ht (same_length s t Hs Ht Hspan Hst))).
  set (u := format02 s) in *. set (v := format02 t) in *. clearbody u v.
  assert (Regex.extract (83 :: u ++ 45 :: v) 1 (1 + length u) = u) as E1 by by apply (extract_at [83] u (45 :: v)).
  assert (Regex.extract (83 :: u ++ 45 :: v) (2 + length u) (2 + length u + length v) = v) as E2.
  { pose proof (extract_at (83 :: u ++ [45]) v [] (2 + length u)%nat (2 + length u + length v)%nat) as E.
    cbn [app] in E. rewrite app_nil_r, <-app_assoc in E. apply E; cbn; rewrite length_app; cbn; lia. }
  cbn [fmap list_fmap snd groups_of two_seasons]. rewrite E1, E2. set (g := Regex.extract _ 0 _). set (g4 := Regex.extract _ 1 _).
  rewrite regular_match. unfold regular_episodes.
  cbn [app lookup list_lookup default id]. rewrite (number_nonempty t v Nt), (ParseInt_number s u Ns Ls), (ParseInt_number t v Nt Lt).
  unfold clampRangeEnd, maxRangeSpan. rewrite (proj2 (Z.ltb_ge t s)), (proj2 (Z.ltb_ge 1000 (t - s))) by lia. cbn [orb].
  rewrite fold_seasons; [|apply NoDup_seqZ|done]. unfold seasons. by rewrite map_union_empty.
Qed.

Lemma read_episode s a : readable s → 0 ≤ a ≤ 9999 → ParseEpisodes (83 :: format02 s ++ 69 :: format02 a) = Some {[s := {[a]}]}.
Proof.
  intros Hs Ha. assert (s < 32768 ∧ a < 32768) as [Ls La] by (unfold readable in *; lia).
  destruct (season_among s Hs) as [Ns _], (episode_among a Ha) as [Na _].
  rewrite (ParseEpisodes_find _ _ _ _ (find_episode s a Hs Ha)).
  set (u := format02 s) in *. set (v := format02 a) in *. clearbody u v.
  assert (Regex.extract (83 :: u ++ 69 :: v) 1 (1 + length u) = u) as E1 by by apply (extract_at [83] u (69 :: v)).
  assert (Regex.extract (83 :: u ++ 69 :: v) (2 + length u) (2 + length u + length v) = v) as E2.
  { pose proof (extract_at (83 :: u ++ [69]) v [] (2 + length u)%nat (2 + length u + length v)%nat) as E.
    cbn [app] in E. rewrite app_nil_r, <-app_assoc in E. apply E; cbn; rewrite length_app; cbn; lia. }
  cbn [fmap list_fmap snd groups_of one_episode]. rewrite !E1, !E2. set (g := Regex.extract _ 0 _).
  rewrite regular_match. unfold regular_episodes.
  cbn [app lookup list_lookup default id]. rewrite (ParseInt_number s u Ns Ls), (ParseInt_number a v Na La).
  destruct Na as (Hne & _). destruct v; [done|]. cbn. unfold AddEpisode. rewrite lookup_empty. cbn. by rewrite union_empty_l_L.
Qed.

Lemma read_episodes s a b :
  readable s → 0 ≤ a < b → b ≤ 9999 →
  ParseEpisodes (83 :: format02 s ++ 69 :: format02 a ++ 45 :: format02 b) = Some {[s := episode_set a (kept_end a b)]}.
Proof.
  intros Hs Ha Hb. assert (s < 32768 ∧ a < 32768 ∧ b < 32768) as (Ls & La & Lb) by (unfold readable in *; lia).
  destruct (season_among s Hs) as [Ns _], (episode_among a ltac:(lia)) as [Na _], (episode_among b ltac:(lia)) as [Nb _].
  rewrite (ParseEpisodes_find _ _ _ _ (find_episodes s a b Hs ltac:(lia) ltac:(lia))).
  set (u := format02 s) in *. set (v := format02 a) in *. set (w := format02 b) in *. clearbody u v w.
  assert (Regex.extract (83 :: u ++ 69 :: v ++ 45 :: w) 1 (1 + length u) = u) as E1 by by apply (extract_at [83] u).
  assert (Regex.extract (83 :: u ++ 69 :: v ++ 45 :: w) (2 + length u) (2 + length u + length v) = v) as E2.
  { pose proof (extract_at (83 :: u ++ [69]) v (45 :: w) (2 + length u)%nat (2 + length u + length v)%nat) as E.
    cbn [app] in E. rewrite <-app_assoc in E. apply E; cbn; rewrite length_app; cbn; lia. }
  assert (Regex.extract (83 :: u ++ 69 :: v ++ 45 :: w) (3 + length u + length v) (3 + length u + length v + length w) = w) as E3.
  { pose proof (extract_at (83 :: u ++ 69 :: v ++ [45]) w [] (3 + length u + length v)%nat (3 + length u + length v + length w)%nat) as E.
    cbn [app] in E. rewrite app_nil_r, <-!app_assoc in E. cbn [app] in E. rewrite <-app_assoc in E.
    apply E; cbn; rewrite length_app; cbn; rewrite length_app; cbn; lia. }
  assert (Regex.extract (83 :: u ++ 69 :: v ++ 45 :: w) (2 + length u) (3 + length u + length v + length w) = v ++ 45 :: w) as E4.
  { pose proof (extract_at (83 :: u ++ [69]) (v ++ 45 :: w) [] (2 + length u)%nat (3 + length u + length v + length w)%nat) as E.
    cbn [app] in E. rewrite app_nil_r, <-app_assoc in E. apply E; cbn; rewrite !length_app; cbn; lia. }
  cbn [fmap list_fmap snd groups_of two_episodes]. rewrite !E1, E2, E3, E4. set (g := Regex.extract _ 0 _).
  rewrite regular_match. unfold regular_episodes.
  cbn [app lookup list_lookup default id].
  rewrite (ParseInt_number s u Ns Ls), (ParseInt_number a v Na La), (ParseInt_number b w Nb Lb), (number_nonempty b w Nb).
  rewrite (clamp_kept a b (v ++ 45 :: w)); [|lia|].
  - rewrite fold_episodes by (unfold kept_end; case_match; lia). by destruct v.
  - apply Forall_app. split; [by eapply number_runes|]. constructor; [lia|by eapply number_runes].
Qed.
End roundtrip.

(** ** The texts of these sets *)

Lemma upto_sorted a b : StronglySorted Z.lt (upto a b).
Proof.
  destruct (Z.le_gt_cases a b) as [Hab | Hab].
  - replace b with (a + Z.of_nat (Z.to_nat (b - a))) by lia. generalize (Z.to_nat (b - a)). intros n. clear Hab b.
    revert a. induction n as [|n IH]; intros a.
    + rewrite Z.add_0_r, upto_single. by repeat constructor.
    + rewrite upto_cons by lia. replace (a + Z.of_nat (S n)) with (a + 1 + Z.of_nat n) by lia. constructor; [apply IH|].
      apply Forall_forall. intros x Hx%elem_of_upto. lia.
  - unfold upto. rewrite seqZ_nil by lia. constructor.
Qed.

Lemma ranges_upto n : ∀ a c, ranges_loop (mkRange a c) (upto (c + 1) (c + Z.of_nat n)) = [mkRange a (c + Z.of_nat n)].
Proof.
  induction n as [|n IH]; intros a c.
  - rewrite Z.add_0_r. unfold upto. rewrite seqZ_nil by lia. done.
  - rewrite upto_cons by lia. cbn [ranges_loop end_ start]. rewrite Z.eqb_refl.
    replace (c + Z.of_nat (S n)) with (c + 1 + Z.of_nat n) by lia. apply IH.
Qed.

Lemma getContiguousRanges_upto a b : a ≤ b → getContiguousRanges (upto a b) = [mkRange a b].
Proof.
  intros Hab. rewrite upto_cons by done. cbn [getContiguousRanges].
  replace b with (a + Z.of_nat (Z.to_nat (b - a))) by lia. apply ranges_upto.
Qed.

Lemma SeasonEntries_singleton s X : SeasonEntries {[s := X]} = [mkSeason s (sorted_elements X)].
Proof.
  rewrite SeasonEntries_eq. rewrite (sorted_elements_of [s]).
  - cbn [fmap list_fmap]. by rewrite lookup_singleton_eq.
  - by repeat constructor.
  - intros x. rewrite dom_singleton_L. set_solver.
Qed.

Lemma String_season s : Episodes_String {[s := ∅]} = 83 :: format02 s.
Proof.
  rewrite Episodes_String_parts. unfold parts. rewrite SeasonEntries_singleton.
  change (sorted_elements ∅) with (@nil Z). unfold entry_part.
  change (getContiguousRanges (wholeSeasons [mkSeason s []])) with [mkRange s s].
  cbn [omap list_omap se_Episodes se_Season range_at start]. change (Anime.nonempty []) with false. rewrite Z.eqb_refl.
  cbn. unfold contiguousRange_String. cbn. by rewrite Z.eqb_refl.
Qed.

Lemma String_episodes s a b :
  a ≤ b → Episodes_String {[s := episode_set a b]}
  = 83 :: format02 s ++ 69 :: format02 a ++ (if a =? b then [] else 45 :: format02 b).
Proof.
  intros Hab. rewrite Episodes_String_parts. unfold parts. rewrite SeasonEntries_singleton.
  rewrite (sorted_elements_of (upto a b)); [|apply upto_sorted|intros x; unfold episode_set; by rewrite elem_of_list_to_set].
  assert (Anime.nonempty (upto a b) = true) as Hn.
  { unfold Anime.nonempty. apply bool_decide_eq_true. rewrite upto_cons by done. done. }
  unfold entry_part. cbn [omap list_omap se_Episodes]. rewrite Hn. cbn [fmap list_fmap part_text Fts.join].
  unfold Season_String. cbn [se_Season se_Episodes].
  assert (match upto a b with [] => [] | eps => Fts.join [44] ((λ r, 69 :: contiguousRange_String r) <$> getContiguousRanges eps) end
          = 69 :: contiguousRange_String (mkRange a b)) as ->.
  { pose proof (getContiguousRanges_upto a b Hab) as E. destruct (upto a b); [done|]. by rewrite E. }
  unfold contiguousRange_String. cbn. destruct (a =? b); by rewrite ?app_nil_r.
Qed.

Lemma dom_seasons s t : sorted_elements (dom (seasons s t)) = upto s t.
Proof.
  apply sorted_elements_of; [apply upto_sorted|]. intros x. unfold seasons. rewrite dom_list_to_map_L, <-list_fmap_compose.
  cbn. by rewrite list_fmap_id, elem_of_list_to_set.
Qed.

Lemma seasons_lookup s t x : s ≤ x ≤ t → seasons s t !! x = Some ∅.
Proof.
  intros Hx. unfold seasons. apply elem_of_list_to_map_1.
  - rewrite <-list_fmap_compose. cbn. rewrite list_fmap_id. apply NoDup_seqZ.
  - apply list_elem_of_fmap. exists x. split; [done|]. by apply elem_of_upto.
Qed.

Lemma String_seasons s t : s < t → Episodes_String (seasons s t) = 83 :: format02 s ++ 45 :: format02 t.
Proof.
  intros Hst. rewrite Episodes_String_parts. unfold parts.
  assert (SeasonEntries (seasons s t) = (λ i, mkSeason i []) <$> upto s t) as E.
  { rewrite SeasonEntries_eq, dom_seasons. apply list_fmap_ext. intros i x Hx. f_equal.
    rewrite seasons_lookup by (apply elem_of_upto; by eapply list_elem_of_lookup_2). done. }
  rewrite E.
  assert (wholeSeasons ((λ i, mkSeason i []) <$> upto s t) = upto s t) as Hw.
  { unfold wholeSeasons. clear E. induction (upto s t) as [|x l IH]; [done|].
    rewrite fmap_cons, filter_cons_True, fmap_cons by done. by rewrite IH. }
  assert (omap (entry_part ((λ i, mkSeason i []) <$> upto s t)) ((λ i, mkSeason i []) <$> upto s t) = [Whole (mkRange s t)]) as ->.
  { unfold entry_part. rewrite Hw, getContiguousRanges_upto by lia.
    rewrite upto_cons by lia. cbn [fmap list_fmap omap list_omap se_Episodes se_Season]. 
    assert (∀ l, Forall (λ x, s < x) l → omap (λ entry, if Anime.nonempty (se_Episodes entry) then Some (Partial entry)
      else Whole <$> range_at [mkRange s t] (se_Season entry)) ((λ i, mkSeason i []) <$> l) = []) as Hnil.
    { induction 1 as [|x l Hx Hl IH]; [done|]. cbn. rewrite (proj2 (Z.eqb_neq s x)) by lia. exact IH. }
    rewrite Hnil; [cbn; by rewrite Z.eqb_refl|]. apply Forall_forall. intros x Hx%elem_of_upto. lia. }
  cbn. unfold contiguousRange_String. cbn. by rewrite (proj2 (Z.eqb_neq s t)) by lia.
Qed.

(** C34: What is written for one season, for a run of whole seasons or for a run of episodes of a season is read back: for seasons of at most two digits or years from 1800 to 2099 and for episodes of at most four digits, reading the text of the set gives the set, except that a run of episodes that spans more than a thousand, or more than 300 and ends in the height of a video format, is read as its first episode alone. *)
Theorem episodes_roundtrip `{UnicodeLaws} `{UnicodeTables} `{!Rex} `{!RexGroups} s :
  readable s →
  ParseEpisodes (Episodes_String {[s := ∅]}) = Some {[s := ∅]}
  ∧ (∀ t, readable t ∧ s < t ≤ s + 1000 → ParseEpisodes (Episodes_String (seasons s t)) = Some (seasons s t))
  ∧ (∀ a b, 0 ≤ a ≤ b ∧ b ≤ 9999 →
       ParseEpisodes (Episodes_String {[s := episode_set a b]}) = Some {[s := episode_set a (kept_end a b)]}).
Proof.
  intros Hs. split_and!.
  - rewrite String_season. by apply read_season.
  - intros t [Ht Hst]. rewrite String_seasons by lia. apply read_seasons; try done; lia.
  - intros a b [Hab Hb]. rewrite String_episodes by lia. destruct (Z.eqb_spec a b) as [-> | Hne].
    + rewrite app_nil_r, read_episode by (done || lia). unfold kept_end, episode_set.
      rewrite (proj2 (Z.ltb_ge 1000 (b - b))), (proj2 (Z.ltb_ge 300 (b - b))) by lia. rewrite andb_false_r. cbn [orb].
      rewrite upto_single. cbn. by rewrite union_empty_r_L.
    + apply read_episodes; [done|lia|lia].
Qed.

Lemma episodes_roundtrip_witness :
  @ParseEpisodes ascii_unicode Regex.ascii_tables (@group_rex Regex.ascii_tables)
    (Episodes_String {[5 := episode_set 1 24]}) = Some {[5 := episode_set 1 24]}.
Proof.
  apply (@episodes_roundtrip ascii_unicode ascii_unicode_laws Regex.ascii_tables (@group_rex Regex.ascii_tables) group_rex_groups 5).
  - by left.
  - done.
Defined.

(** ** What a name can add *)

(** At most [n] seasons, each with at most [n] episodes. *)
Definition bounded (n : nat) (e : Episodes) : Prop := (size e ≤ n)%nat ∧ map_Forall (λ _ X, (size X ≤ n)%nat) e.

Lemma bounded_le n m e : bounded n e → (n ≤ m)%nat → bounded m e.
Proof. intros [Hs He] Hnm. split; [lia|]. eapply map_Forall_impl; [exact He|]. cbv beta. intros; lia. Qed.

Lemma bounded_empty n : bounded n ∅.
Proof. split; [rewrite map_size_empty; lia|apply map_Forall_empty]. Qed.

Lemma size_insert_le (e : Episodes) s X : (size (<[s := X]> e) ≤ S (size e))%nat.
Proof. rewrite map_size_insert. destruct (e !! s); simpl; lia. Qed.

Lemma bounded_AddEpisode n s i e : bounded n e → bounded (S n) (AddEpisode s i e).
Proof.
  intros [Hs He]. unfold AddEpisode. split; [pose proof (size_insert_le e s (default ∅ (e !! s) ∪ {[i]})); lia|].
  apply map_Forall_insert_2.
  - rewrite size_union_alt. pose proof (subseteq_size ({[i]} ∖ default ∅ (e !! s)) {[i]} ltac:(set_solver)) as Hu.
    rewrite size_singleton in Hu. assert (size (default ∅ (e !! s)) ≤ n)%nat; [|lia]. destruct (e !! s) as [X|] eqn:EX; cbn [default id]; [by apply (He s)|rewrite size_empty; lia].
  - eapply map_Forall_impl; [exact He|]. cbv beta. intros; lia.
Qed.

Lemma bounded_AddSeason n s e : bounded n e → bounded (S n) (AddSeason s e).
Proof.
  intros [Hs He]. unfold AddSeason. split; [pose proof (size_insert_le e s ∅); lia|].
  apply map_Forall_insert_2; [rewrite size_empty; lia|]. eapply map_Forall_impl; [exact He|]. cbv beta. intros; lia.
Qed.

Lemma bounded_foldl {A} (f : Episodes → A → Episodes) l :
  (∀ n e x, bounded n e → bounded (S n) (f e x)) → ∀ n e, bounded n e → bounded (n + length l) (foldl f e l).
Proof.
  intros Hf. induction l as [|x l IH]; intros n e He; cbn; [by rewrite Nat.add_0_r|].
  eapply bounded_le; [apply (IH (S n)); by apply Hf|]. lia.
Qed.

Lemma length_upto a b : length (upto a b) = Z.to_nat (b - a + 1).
Proof. unfold upto. by rewrite length_seqZ. Qed.

Lemma clampRangeEnd_bounds a b : a ≤ clampRangeEnd a b ≤ a + 1000.
Proof. unfold clampRangeEnd, maxRangeSpan. destruct (Z.ltb_spec b a), (Z.ltb_spec 1000 (b - a)); simpl; lia. Qed.

Lemma clampEpisodeRangeEnd_bounds a b raw : a ≤ clampEpisodeRangeEnd a b raw ≤ a + 1000.
Proof. unfold clampEpisodeRangeEnd. pose proof (clampRangeEnd_bounds a b). repeat case_match; lia. Qed.

Section bounds.
Context `{HU : Unicode} `{HT : UnicodeTables} `{!Rex}.

Lemma length_find_all fuel re s : ∀ pos prev, (length (Regex.find_all fuel re s pos prev) ≤ fuel)%nat.
Proof.
  induction fuel as [|fuel IH]; intros pos prev; cbn [Regex.find_all]; [done|].
  repeat case_match; cbn [length app]; try lia; try (etrans; [apply IH|lia]); apply le_n_S, IH.
Qed.

Lemma length_FindAllString re s : (length (FindAllString re s) ≤ 2 + length s)%nat.
Proof. unfold FindAllString, Regex.FindAllIndex. rewrite length_fmap. apply length_find_all. Qed.
Lemma length_FindAllStringSubmatch re s : (length (Regex.FindAllStringSubmatch re s) ≤ 2 + length s)%nat.
Proof. unfold Regex.FindAllStringSubmatch, Regex.FindAllIndex. rewrite length_fmap. apply length_find_all. Qed.

#[local] Hint Resolve bounded_empty bounded_AddEpisode bounded_AddSeason : core.

Lemma bounded_range {A} (f : Episodes → A → Episodes) l n :
  (∀ n e x, bounded n e → bounded (S n) (f e x)) → (length l ≤ n)%nat → bounded n (foldl f ∅ l).
Proof. intros Hf Hl. eapply bounded_le; [apply (bounded_foldl f l Hf 0), bounded_empty|lia]. Qed.

Lemma bounded_regular (group : nat → runes) n :
  (∀ i, length (group i) ≤ n)%nat → bounded (1003 + n) (regular_episodes group).
Proof.
  intros Hg. unfold regular_episodes. pose proof (Hg 4%nat). pose proof (Hg 8%nat) as H8.
  destruct (group 8%nat) as [|r g8]; [destruct (Anime.nonempty (group 6%nat)); [|destruct (Anime.nonempty (group 7%nat))]
    |destruct (Anime.nonempty (group 10%nat)); [|destruct (Anime.nonempty (group 11%nat))]];
    try (apply bounded_range; [intros; by auto|]; rewrite ?length_upto).
  - pose proof (clampRangeEnd_bounds (ParseInt 16 (group 5%nat)) (ParseInt 16 (group 6%nat))). lia.
  - pose proof (length_FindAllString numberRunRegex (group 4%nat)). lia.
  - eapply bounded_le; [apply bounded_AddSeason, (bounded_empty 0)|lia].
  - pose proof (clampEpisodeRangeEnd_bounds (ParseInt 16 (group 9%nat)) (ParseInt 16 (group 10%nat)) (r :: g8)). lia.
  - pose proof (length_FindAllString numberRunRegex (r :: g8)). lia.
  - eapply bounded_le; [apply bounded_AddEpisode, (bounded_empty 0)|lia].
Qed.

Lemma bounded_x (group : nat → runes) n : bounded (1003 + n) (x_episodes group).
Proof.
  unfold x_episodes. match goal with |- context [clampEpisodeRangeEnd ?a ?b ?r] => pose proof (clampEpisodeRangeEnd_bounds a b r) end.
  apply bounded_range; [by auto|]. rewrite length_upto. lia.
Qed.

Lemma bounded_match m e n :
  Forall (λ g, length g ≤ n)%nat m → EpisodesMatchToEpisodes m = Some e → bounded (1005 + 2 * n) e.
Proof.
  intros Hm. unfold EpisodesMatchToEpisodes. intros He. pose (group := λ i, default [] (m !! i)).
  change (λ i, default [] (m !! i)) with group in He.
  repeat match type of He with context [m !! ?i] => change (default [] (m !! i)) with (group i) in He end.
  assert (∀ i, length (group i) ≤ n)%nat as Hg.
  { intros i. unfold group. destruct (m !! i) as [g|] eqn:Eg; cbn; [|lia]. by eapply Forall_lookup in Hm. }
  clearbody group. pose proof (bounded_regular group n Hg) as Hr. pose proof (bounded_x group n) as Hx.
  revert He. repeat case_match; try done; intros He; apply (inj Some) in He as <-; try (eapply bounded_le; [first [exact Hx|exact Hr]|lia]).
  pose proof (length_FindAllStringSubmatch episodeNumRegex (group 12%nat)). pose proof (Hg 12%nat).
  eapply bounded_le; [apply bounded_foldl; [intros; by auto|exact Hr]|]. lia.
Qed.

(** C35: A name cannot make the parser expand more than the name pays for: whatever range it writes, the result has at most 1005 seasons plus two for each character of the name, and so many episodes in each of them. *)
Theorem parse_episodes_bounded s e : ParseEpisodes s = Some e → bounded (1005 + 2 * length s) e.
Proof.
  unfold ParseEpisodes, Regex.FindStringSubmatch. destruct (Regex.find _ s) as [[[i j] gs]|]; [|done].
  apply bounded_match. apply Forall_fmap, Forall_forall. intros [[a b]|] _; cbn; [|lia].
  unfold Regex.extract. rewrite length_take, length_drop. lia.
Qed.

End bounds.

Lemma parse_episodes_bounded_witness :
  ∃ e, @ParseEpisodes ascii_unicode Regex.ascii_tables (@group_rex Regex.ascii_tables) (runes_of "S01E01-E9999") = Some e
    ∧ bounded (1005 + 2 * 12) e.
Proof.
  destruct (@ParseEpisodes ascii_unicode Regex.ascii_tables (@group_rex Regex.ascii_tables) (runes_of "S01E01-E9999")) as [e|] eqn:E;
    [|by vm_compute in E].
  exists e. split; [done|]. exact (@parse_episodes_bounded ascii_unicode Regex.ascii_tables (@group_rex Regex.ascii_tables) _ e E).
Defined.

(** ** Adding and asking *)

(** Adding an episode makes it present and changes no other season; in a season that was there as a whole it leaves only itself, since a season without episodes stands for all of them.  Adding a season makes all its episodes present, whatever was known of it. *)
Theorem episodes_has s i e :
  (∀ s' i', HasEpisode (AddEpisode s i e) s' i' = true ↔
     if decide (s' = s) then i' = i ∨ (e !! s ≠ Some ∅ ∧ HasEpisode e s i' = true) else HasEpisode e s' i' = true)
  ∧ ∀ s' i', HasEpisode (AddSeason s e) s' i' = true ↔ s' = s ∨ HasEpisode e s' i' = true.
Proof.
  unfold HasEpisode, AddEpisode, AddSeason. split; intros s' i'.
  - case_decide as Hs; [subst s'; rewrite lookup_insert_eq|by rewrite lookup_insert_ne].
    rewrite bool_decide_eq_false_2 by set_solver. rewrite bool_decide_eq_true.
    destruct (e !! s) as [X|]; cbn; [|set_solver].
    destruct (decide (X = ∅)) as [-> | HX]; [rewrite bool_decide_eq_true_2 by done; set_solver|].
    rewrite (bool_decide_eq_false_2 (X = ∅)) by done. rewrite bool_decide_eq_true, elem_of_union, elem_of_singleton. naive_solver.
  - destruct (decide (s' = s)) as [-> | Hs]; [rewrite lookup_insert_eq|rewrite lookup_insert_ne by done; naive_solver].
    rewrite bool_decide_eq_true_2 by done. naive_solver.
Qed.
 End Episodes.
