(* ===== verification/Workflow.v ===== *)
(** * The classifier's workflow language and its compiler

    [internal/classifier]: the operator describes in YAML how a torrent is
    classified, as workflows of actions guarded by conditions.  This file holds
    the source of a workflow, the payload specifications that read it
    ([payload.go]), the fifteen actions and four conditions ([action*.go],
    [condition*.go], [features.go]) as far as they are compiled, the compiler
    with its two kinds of error ([classifier.go], [action.go],
    [condition.go]), the merging of sources ([source.go]) and the values of
    flags ([flag.go]).  [Classifier] runs what is compiled here.

    A compiled action is a closure in the code.  Here it is a tree, since the
    closure of [run_workflow] reads the table of all workflows when it runs;
    its constructor records what the closure captures.

    Two libraries are arguments.  [mapstructure] decodes a value into a string,
    a map or a structure ([Decoder], with the laws that are its documentation
    for the configuration in [decoder.go]); cel-go compiles and evaluates
    expressions ([Cel], no law needed).  The compiler recurs on the parts of a
    value that the decoder hands out, so it is written with the size of the
    value as fuel, and [compileAction_act_of] shows that this is enough. *)
From S2P Require Import Prelude Lexer Regex.
From stdpp Require Import gmap list strings sets pretty.
From Stdlib Require Import ZArith Lia.

#[local] Open Scope string_scope.
#[local] Open Scope list_scope.

Module Workflow.

(** ** Sources and values *)

(** A value that YAML gives to [any].  A map has distinct keys; [VOther] is a
    value of any other Go type. *)
Inductive value :=
| VNil
| VBool (b : bool)
| VInt (z : Z)
| VString (s : string)
| VList (l : list value)
| VMap (m : list (string * value))
| VOther (z : Z).

Fixpoint size (v : value) : nat :=
  match v with
  | VList l => S (foldr (λ v n, size v + n) 0 l)
  | VMap m => S (foldr (λ p n, size p.2 + n) 0 m)
  | _ => 1
  end%nat.

(** ** Errors of the compiler *)

Inductive message :=
| NotOk | ValueMismatch | DecodeFailed | SingleKey | MissingKey (key : string) | NoDefinition | NotInEnum (s : string)
| InvalidTagName (s : string) | InvalidContentType (s : string) | TypeCheck | OutputType | ProgramConstruction
| WorkflowNotFound (s : string) | NoAction (source : value) | NoCondition
| ConflictingFlag (s : string) | MissingFlag (s : string) | InvalidFlag (s : string).

(** [fatalCompilerError] wraps a [compilerError]; [errors.Join] keeps several. *)
Inductive error :=
| Plain (m : message)
| compilerError (path : list string) (cause : error)
| fatalCompilerError (path : list string) (cause : error)
| Joined (errs : list error).

(** [errors.As] looks at the error, then at what it unwraps to; of several, at
    each in turn. *)
Fixpoint asCompilerError (e : error) : option (list string * error) :=
  match e with
  | Plain _ => None
  | compilerError p c => Some (p, c)
  | fatalCompilerError p c => Some (p, c)
  | Joined es => foldr (λ e r, match asCompilerError e with Some x => Some x | None => r end) None es
  end.
Fixpoint asFatalCompilerError (e : error) : option (list string * error) :=
  match e with
  | Plain _ => None
  | compilerError _ c => asFatalCompilerError c
  | fatalCompilerError p c => Some (p, c)
  | Joined es => foldr (λ e r, match asFatalCompilerError e with Some x => Some x | None => r end) None es
  end.
Definition fatal_error (e : error) : bool := bool_decide (is_Some (asFatalCompilerError e)).

Abbreviation result A := (error + A)%type.
#[export] Instance result_bind : MBind (sum error) := λ A B f m, match m with inl e => inl e | inr a => f a end.

(** ** The libraries *)

Record ifElsePayload := mkIfElse { Condition : value; IfAction : value; ElseAction : value }.

Class Decoder := {
  decode_string : value → option string;
  decode_map : value → option (list (string * value));
  decode_ifElse : value → option ifElsePayload }.

Definition field (k : string) (m : list (string * value)) : value :=
  default VNil (snd <$> (snd <$> list_find (λ p, p.1 = k) m)).

(** What the library documents: nil decodes to the zero value, a value of
    another kind is an error, the fields of a structure are found by their
    names in snake case. *)
Class DecoderLaws `{Decoder} := {
  decode_string_spec v : decode_string v = match v with VString s => Some s | VNil => Some "" | _ => None end;
  decode_map_spec v : decode_map v = match v with VMap m => Some m | VNil => Some [] | _ => None end;
  decode_ifElse_nil : decode_ifElse VNil = Some (mkIfElse VNil VNil VNil);
  decode_ifElse_fields m : m.*1 ⊆ ["condition"; "if_action"; "else_action"] →
    decode_ifElse (VMap m) = Some (mkIfElse (field "condition" m) (field "if_action" m) (field "else_action" m));
  decode_ifElse_parts v p : decode_ifElse v = Some p →
    v = VNil ∧ p = mkIfElse VNil VNil VNil ∨
    ∃ m, v = VMap m ∧ Forall (λ f, f = VNil ∨ f ∈ m.*2) [Condition p; IfAction p; ElseAction p] }.

Inductive cel_compiled (program : Type) := CelIssues | CelNotBool | CelNoProgram | CelProgram (p : program).
Arguments CelIssues {_}. Arguments CelNotBool {_}. Arguments CelNoProgram {_}. Arguments CelProgram {_} _.

(** [cel.Env]: what [cel.NewEnv] makes of the variables, constants and
    functions of [cel_env.go]. *)
Class Cel := { program : Type; celEnv : Type; cel_Compile : celEnv → string → cel_compiled program }.

(** ** Content types *)

Definition ContentTypeNames : list string :=
  ["movie"; "tv_show"; "music"; "ebook"; "comic"; "audiobook"; "game"; "software"; "xxx"; "course"].

(** A nullable enumeration of the model: its value, [Valid] and [Set]. *)
Record NullEnum := mkNull { Val : string; Valid : bool; Set_ : bool }.
Definition no_type : NullEnum := mkNull "" false false.
Definition NewNullContentType (ct : string) : NullEnum := mkNull ct true false.

#[export] Instance NullEnum_eq_dec : EqDecision NullEnum.
Proof. solve_decision. Defined.

(** [strings.ToLower]; the names are ASCII. *)
Definition lower_ascii (c : Ascii.ascii) : Ascii.ascii :=
  let n := Ascii.nat_of_ascii c in if (65 <=? n)%nat && (n <=? 90)%nat then Ascii.ascii_of_nat (n + 32) else c.
Fixpoint string_map (f : Ascii.ascii → Ascii.ascii) (s : string) : string :=
  match s with EmptyString => EmptyString | String c s => String (f c) (string_map f s) end.

(** ** Compiled conditions and actions *)

Section language.
Context `{Cel}.

Inductive condition :=
| CAnd (conds : list condition)
| COr (conds : list condition)
| CNot (cond : condition)
| CExpression (prg : program).

Inductive action :=
| ASequence (actions : list action)
| AAddTag (tags : list string)
| AAttachLocalContentByID
| AAttachLocalContentBySearch
| AAttachTMDBContentByID
| AAttachTmdbContentBySearch
| ADelete (path : list string)
| AFindMatch (path : list string) (actions : list action)
| AIfElse (cond : condition) (ifAction elseAction : option action)
| AUnmatched (path : list string)
| AParseDate
| AParseVideoContent
| ARunWorkflow (names : list string)
| ASetContentType (contentType : NullEnum)
| ATypeFallback
| AEnrichTypeFallback.

(** The name stamped on an action by the definition that compiled it; a
    sequence has none. *)
Definition action_name (a : action) : string :=
  match a with
  | ASequence _ => ""
  | AAddTag _ => "add_tag"
  | AAttachLocalContentByID => "attach_local_content_by_id"
  | AAttachLocalContentBySearch => "attach_local_content_by_search"
  | AAttachTMDBContentByID => "attach_tmdb_content_by_id"
  | AAttachTmdbContentBySearch => "attach_tmdb_content_by_search"
  | ADelete _ => "delete"
  | AFindMatch _ _ => "find_match"
  | AIfElse _ _ _ => "if_else"
  | AUnmatched _ => "unmatched"
  | AParseDate => "parse_date"
  | AParseVideoContent => "parse_video_content"
  | ARunWorkflow _ => "run_workflow"
  | ASetContentType _ => "set_content_type"
  | ATypeFallback => "type_fallback"
  | AEnrichTypeFallback => "enrich_type_fallback"
  end.

(** ** Payload specifications, [payload.go] *)

Record compilerContext := mkContext { source : value; path : list string }.

Definition child (ctx : compilerContext) (pathPart : string) (src : value) : compilerContext :=
  mkContext src (path ctx ++ [pathPart]).
Definition numericPathPart (num : nat) : string := ("[" ++ pretty num ++ "]")%string.

Definition ctx_error (ctx : compilerContext) (cause : error) : error :=
  if bool_decide (is_Some (asCompilerError cause)) then cause else compilerError (path ctx) cause.
Definition ctx_fatal (ctx : compilerContext) (cause : error) : error :=
  if fatal_error cause then cause
  else match asCompilerError cause with
       | Some (p, c) => fatalCompilerError p c
       | None => fatalCompilerError (path ctx) cause
       end.
(** [return ctx.error(err)] for a failed payload. *)
Definition or_error {A} (ctx : compilerContext) (m : result A) : result A :=
  match m with inl e => inl (ctx_error ctx e) | inr a => inr a end.

Definition payload (A : Type) : Type := compilerContext → result A.

Definition decoded {A} (o : option A) : result A := match o with Some a => inr a | None => inl (Plain DecodeFailed) end.

Definition payloadTransformer {A B} (spec : payload A) (transform : A → compilerContext → result B) : payload B :=
  λ ctx, from ← spec ctx; transform from ctx.

Fixpoint union_loop {A} (oneOf : list (payload A)) (errs : list error) (ctx : compilerContext) : result A :=
  match oneOf with
  | [] => inl (Joined (errs ++ [Plain NoDefinition]))
  | def :: oneOf => match def ctx with inr a => inr a | inl e => union_loop oneOf (errs ++ [e]) ctx end
  end.
Definition payloadUnion {A} (oneOf : list (payload A)) : payload A := union_loop oneOf [].

(** A type assertion: to [any] it fails on nil only. *)
Definition payloadGeneric {A} (cast : value → option A) : payload A :=
  λ ctx, match cast (source ctx) with Some a => inr a | None => inl (ctx_error ctx (Plain NotOk)) end.
Definition as_string (v : value) : option string := match v with VString s => Some s | _ => None end.
Definition as_any (v : value) : option value := match v with VNil => None | _ => Some v end.

Fixpoint list_loop {A} (itemSpec : payload A) (ctx : compilerContext) (i : nat) (rawList : list value) : result (list A) :=
  match rawList with
  | [] => inr []
  | rawItem :: rawList =>
      item ← itemSpec (child ctx (numericPathPart i) rawItem);
      to ← list_loop itemSpec ctx (S i) rawList;
      inr (item :: to)
  end.
Definition payloadList {A} (itemSpec : payload A) : payload (list A) :=
  λ ctx, match source ctx with
         | VNil => inr []
         | VList rawList => list_loop itemSpec ctx 0 rawList
         | v => list_loop itemSpec ctx 0 [v]
         end.

Definition payloadMustSucceed {A} (p : payload A) : payload A :=
  λ ctx, match p ctx with inr a => inr a | inl e => inl (ctx_fatal ctx e) end.

Section decoder.
Context `{Decoder}.

Definition payloadStruct : payload ifElsePayload := λ ctx, decoded (decode_ifElse (source ctx)).

Definition payloadLiteral (literal : string) : payload string :=
  λ ctx, typedPayload ← decoded (decode_string (source ctx));
         if bool_decide (typedPayload = literal) then inr typedPayload else inl (Plain ValueMismatch).

Definition payloadSingleKeyValue {A} (key : string) (valueSpec : payload A) : payload A :=
  λ ctx, rawMap ← decoded (decode_map (source ctx));
         match rawMap with
         | [(k, rawValue)] =>
             if bool_decide (k = key) then valueSpec (child ctx key rawValue)
             else inl (ctx_error ctx (Plain (MissingKey key)))
         | _ => inl (ctx_error ctx (Plain SingleKey))
         end.

Definition payloadEnum (values : list string) : payload string :=
  λ ctx, match decode_string (source ctx) with
         | None => inl (ctx_error ctx (Plain DecodeFailed))
         | Some v => if bool_decide (v ∈ values) then inr v else inl (ctx_error ctx (Plain (NotInEnum v)))
         end.

(** ** Content types and tags *)

Definition ParseContentType (name : string) : result string :=
  if bool_decide (name ∈ ContentTypeNames) then inr name
  else let l := string_map lower_ascii name in
       if bool_decide (l ∈ ContentTypeNames) then inr l else inl (Plain (InvalidContentType name)).

Definition contentTypePayloadSpec : payload NullEnum :=
  payloadTransformer (payloadEnum (ContentTypeNames ++ ["unknown"])) (λ str _,
    if bool_decide (str = "unknown") then inr no_type
    else contentType ← ParseContentType str; inr (mkNull contentType true false)).

End decoder.
End language.

(** ** The definitions of conditions and actions *)

Inductive conditionDefinition := andCondition | notCondition | orCondition | expressionCondition.
Definition condition_def_name (d : conditionDefinition) : string :=
  match d with andCondition => "and" | notCondition => "not" | orCondition => "or" | expressionCondition => "expression" end.

Inductive actionDefinition :=
| addTagAction | attachLocalContentByIDAction | attachLocalContentBySearchAction | attachTMDBContentByIDAction
| attachTmdbContentBySearchAction | deleteAction | findMatchAction | ifElseAction | unmatchedAction | parseDateAction
| parseVideoContentAction | runWorkflowAction | setContentTypeAction | typeFallbackAction | enrichTypeFallbackAction.
Definition action_def_name (d : actionDefinition) : string :=
  match d with
  | addTagAction => "add_tag"
  | attachLocalContentByIDAction => "attach_local_content_by_id"
  | attachLocalContentBySearchAction => "attach_local_content_by_search"
  | attachTMDBContentByIDAction => "attach_tmdb_content_by_id"
  | attachTmdbContentBySearchAction => "attach_tmdb_content_by_search"
  | deleteAction => "delete"
  | findMatchAction => "find_match"
  | ifElseAction => "if_else"
  | unmatchedAction => "unmatched"
  | parseDateAction => "parse_date"
  | parseVideoContentAction => "parse_video_content"
  | runWorkflowAction => "run_workflow"
  | setContentTypeAction => "set_content_type"
  | typeFallbackAction => "type_fallback"
  | enrichTypeFallbackAction => "enrich_type_fallback"
  end.

#[export] Instance conditionDefinition_eq_dec : EqDecision conditionDefinition.
Proof. solve_decision. Defined.
#[export] Instance actionDefinition_eq_dec : EqDecision actionDefinition.
Proof. solve_decision. Defined.

Record features := mkFeatures { conditions : list conditionDefinition; actions : list actionDefinition }.
Definition defaultFeatures : features :=
  mkFeatures [andCondition; notCondition; orCondition; expressionCondition]
    [addTagAction; attachLocalContentByIDAction; attachLocalContentBySearchAction; attachTMDBContentByIDAction;
     attachTmdbContentBySearchAction; deleteAction; findMatchAction; ifElseAction; unmatchedAction; parseDateAction;
     parseVideoContentAction; runWorkflowAction; setContentTypeAction; typeFallbackAction; enrichTypeFallbackAction].

Section compiler.
Context `{HT : UnicodeTables} `{Cel} `{Decoder} (env : celEnv).

(** *** Tags *)

Definition tagNameRegex : Regex.regexp := Regex.MustCompile "^[a-z0-9]+(-[a-z0-9]+)*$".
Definition tagNameMaxLength : nat := 30.
Definition ValidateTagName (name : string) : option error :=
  if negb (Regex.MatchString tagNameRegex (runes_of name)) then Some (Plain (InvalidTagName name))
  else if (tagNameMaxLength <? String.length name)%nat then Some (Plain (InvalidTagName name))
  else None.

Definition tagPayloadSpec : payload string :=
  payloadTransformer (payloadGeneric as_string) (λ str _, match ValidateTagName str with Some e => inl e | None => inr str end).
Definition addTagPayloadSpec : payload (list string) :=
  payloadSingleKeyValue "add_tag" (payloadMustSucceed (payloadList tagPayloadSpec)).

(** *** Conditions *)

Definition andConditionPayloadSpec : payload (list value) :=
  payloadSingleKeyValue "and" (payloadMustSucceed (payloadList (payloadGeneric as_any))).
Definition orConditionSpec : payload (list value) :=
  payloadSingleKeyValue "or" (payloadMustSucceed (payloadList (payloadGeneric as_any))).
Definition notConditionPayloadSpec : payload value :=
  payloadSingleKeyValue "not" (payloadMustSucceed (payloadGeneric as_any)).

Definition celProgramPayload : payload program :=
  payloadTransformer (payloadGeneric as_string) (λ s ctx,
    match cel_Compile env s with
    | CelIssues => inl (ctx_error ctx (Plain TypeCheck))
    | CelNotBool => inl (ctx_error ctx (Plain OutputType))
    | CelNoProgram => inl (ctx_error ctx (Plain ProgramConstruction))
    | CelProgram prg => inr prg
    end).
Definition expressionConditionPayload : payload program :=
  payloadUnion [payloadSingleKeyValue "expression" (payloadMustSucceed celProgramPayload);
                payloadMustSucceed celProgramPayload].

(** The loop of [and] and [or] over their conditions, and of [find_match] over
    its actions. *)
Fixpoint compile_items {A} (compile : compilerContext → result A) (ctx : compilerContext) (i : nat) (raw : list value)
    : result (list A) :=
  match raw with
  | [] => inr []
  | v :: raw =>
      a ← compile (child ctx (numericPathPart i) v);
      l ← compile_items compile ctx (S i) raw;
      inr (a :: l)
  end.

Definition and_def (compileCondition : compilerContext → result condition) (ctx : compilerContext) : result condition :=
  payload ← or_error ctx (andConditionPayloadSpec ctx);
  match compile_items compileCondition ctx 0 payload with
  | inl err => inl (ctx_fatal ctx err)
  | inr conds => inr (CAnd conds)
  end.
Definition or_def (compileCondition : compilerContext → result condition) (ctx : compilerContext) : result condition :=
  rawConds ← orConditionSpec ctx;
  conds ← compile_items compileCondition ctx 0 rawConds;
  inr (COr conds).
Definition not_def (compileCondition : compilerContext → result condition) (ctx : compilerContext) : result condition :=
  p ← or_error ctx (notConditionPayloadSpec ctx);
  cond ← or_error ctx (compileCondition (child ctx "not" p));
  inr (CNot cond).
Definition expression_def (ctx : compilerContext) : result condition :=
  prg ← or_error ctx (expressionConditionPayload ctx);
  inr (CExpression prg).

Definition condition_def (compileCondition : compilerContext → result condition) (d : conditionDefinition)
    (ctx : compilerContext) : result condition :=
  match d with
  | andCondition => and_def compileCondition ctx
  | orCondition => or_def compileCondition ctx
  | notCondition => not_def compileCondition ctx
  | expressionCondition => expression_def ctx
  end.

Fixpoint conditions_loop (compileCondition : compilerContext → result condition) (defs : list conditionDefinition)
    (errs : list error) (ctx : compilerContext) : result condition :=
  match defs with
  | [] => inl (Joined (errs ++ [Plain NoCondition]))
  | def :: defs =>
      match condition_def compileCondition def (child ctx (condition_def_name def) (source ctx)) with
      | inr c => inr c
      | inl err => if fatal_error err then inl err else conditions_loop compileCondition defs (errs ++ [err]) ctx
      end
  end.

Section features.
Variable fs : features.

Fixpoint compileCondition_fuel (fuel : nat) (ctx : compilerContext) : result condition :=
  match fuel with
  | O => inl (Plain NoCondition)
  | S fuel => conditions_loop (compileCondition_fuel fuel) (conditions fs) [] ctx
  end.
Definition compileCondition (ctx : compilerContext) : result condition :=
  compileCondition_fuel (S (size (source ctx))) ctx.

(** *** Actions *)

Definition findMatchActionPayloadSpec : payload (list value) :=
  payloadSingleKeyValue "find_match" (payloadMustSucceed (payloadList (payloadGeneric as_any))).
Definition ifElsePayloadSpec : payload ifElsePayload :=
  payloadSingleKeyValue "if_else" (payloadMustSucceed payloadStruct).
Definition runWorkflowPayloadSpec : payload (list string) :=
  payloadSingleKeyValue "run_workflow" (payloadMustSucceed (payloadList (payloadGeneric as_string))).
Definition setContentTypePayloadSpec : payload NullEnum :=
  payloadSingleKeyValue "set_content_type" (payloadMustSucceed contentTypePayloadSpec).

(** An action without arguments: its source is its name. *)
Definition literal_action (name : string) (ctx : compilerContext) (a : action) : result action :=
  _ ← or_error ctx (payloadLiteral name ctx); inr a.

Section workflows.
Variable workflowNames : gset string.

Definition optional_action (compileAction : compilerContext → result action) (ctx : compilerContext) (part : string)
    (v : value) : result (option action) :=
  match v with
  | VNil => inr None
  | _ => a ← or_error ctx (compileAction (child ctx part v)); inr (Some a)
  end.

Fixpoint first_unknown (names : list string) : option string :=
  match names with
  | [] => None
  | name :: names => if bool_decide (name ∈ workflowNames) then first_unknown names else Some name
  end.

Definition add_tag_def (ctx : compilerContext) : result action :=
  tags ← or_error ctx (addTagPayloadSpec ctx); inr (AAddTag tags).
Definition find_match_def (compileAction : compilerContext → result action) (ctx : compilerContext) : result action :=
  payload ← or_error ctx (findMatchActionPayloadSpec ctx);
  actions ← compile_items compileAction ctx 0 payload;
  inr (AFindMatch (path ctx) actions).
Definition if_else_def (compileAction : compilerContext → result action) (ctx : compilerContext) : result action :=
  p ← or_error ctx (ifElsePayloadSpec ctx);
  cond ← or_error ctx (compileCondition (child ctx "condition" (Condition p)));
  ifAction ← optional_action compileAction ctx "if_action" (IfAction p);
  elseAction ← optional_action compileAction ctx "else_action" (ElseAction p);
  inr (AIfElse cond ifAction elseAction).
Definition run_workflow_def (ctx : compilerContext) : result action :=
  names ← or_error ctx (runWorkflowPayloadSpec ctx);
  match first_unknown names with
  | Some name => inl (ctx_fatal ctx (Plain (WorkflowNotFound name)))
  | None => inr (ARunWorkflow names)
  end.
Definition set_content_type_def (ctx : compilerContext) : result action :=
  contentType ← or_error ctx (setContentTypePayloadSpec ctx); inr (ASetContentType contentType).

Definition action_def (compileAction : compilerContext → result action) (d : actionDefinition) (ctx : compilerContext)
    : result action :=
  match d with
  | addTagAction => add_tag_def ctx
  | attachLocalContentByIDAction => literal_action "attach_local_content_by_id" ctx AAttachLocalContentByID
  | attachLocalContentBySearchAction => literal_action "attach_local_content_by_search" ctx AAttachLocalContentBySearch
  | attachTMDBContentByIDAction => literal_action "attach_tmdb_content_by_id" ctx AAttachTMDBContentByID
  | attachTmdbContentBySearchAction => literal_action "attach_tmdb_content_by_search" ctx AAttachTmdbContentBySearch
  | deleteAction => literal_action "delete" ctx (ADelete (path ctx))
  | findMatchAction => find_match_def compileAction ctx
  | ifElseAction => if_else_def compileAction ctx
  | unmatchedAction => literal_action "unmatched" ctx (AUnmatched (path ctx))
  | parseDateAction => literal_action "parse_date" ctx AParseDate
  | parseVideoContentAction => literal_action "parse_video_content" ctx AParseVideoContent
  | runWorkflowAction => run_workflow_def ctx
  | setContentTypeAction => set_content_type_def ctx
  | typeFallbackAction => literal_action "type_fallback" ctx ATypeFallback
  | enrichTypeFallbackAction => literal_action "enrich_type_fallback" ctx AEnrichTypeFallback
  end.

(** The definitions are tried in turn: a fatal error ends the compilation,
    another moves on to the next definition. *)
Fixpoint definitions_loop (compileAction : compilerContext → result action) (defs : list actionDefinition)
    (ctx : compilerContext) (rawAction : value) : error + option action :=
  match defs with
  | [] => inr None
  | def :: defs =>
      match action_def compileAction def (child ctx (action_def_name def) rawAction) with
      | inr a => inr (Some a)
      | inl err => if fatal_error err then inl err else definitions_loop compileAction defs ctx rawAction
      end
  end.

(** The outer loop: the actions compiled and the errors collected. *)
Fixpoint actions_loop (compileAction : compilerContext → result action) (ctx : compilerContext) (isArray : bool) (i : nat)
    (rawActions : list value) (acts : list action) (errs : list error) : error + (list action * list error) :=
  match rawActions with
  | [] => inr (acts, errs)
  | rawAction :: rawActions =>
      let actionCtx := if isArray then child ctx (numericPathPart i) rawAction else ctx in
      o ← definitions_loop compileAction (actions fs) actionCtx rawAction;
      match o with
      | Some a => actions_loop compileAction ctx isArray (S i) rawActions (acts ++ [a]) errs
      | None => actions_loop compileAction ctx isArray (S i) rawActions acts (errs ++ [Plain (NoAction (source ctx))])
      end
  end.

Definition compileAction_step (compileAction : compilerContext → result action) (ctx : compilerContext) : result action :=
  let '(isArray, rawActions) := match source ctx with VList s => (true, s) | v => (false, [v]) end in
  r ← actions_loop compileAction ctx isArray 0 rawActions [] [];
  match r with
  | (_, _ :: _ as errs) => inl (Joined errs)
  | ([a], []) => inr a
  | (acts, []) => inr (ASequence acts)
  end.

Fixpoint compileAction_fuel (fuel : nat) (ctx : compilerContext) : result action :=
  match fuel with
  | O => inl (Plain (NoAction (source ctx)))
  | S fuel => compileAction_step (compileAction_fuel fuel) ctx
  end.
Definition compileAction (ctx : compilerContext) : result action := compileAction_fuel (S (size (source ctx))) ctx.

End workflows.
End features.

End compiler.

(** ** Flags, [flag.go] *)

Inductive FlagType := FlagTypeBool | FlagTypeString | FlagTypeInt | FlagTypeStringList | FlagTypeContentTypeList | FlagTypeOther (s : string).
#[export] Instance FlagType_eq_dec : EqDecision FlagType.
Proof. solve_decision. Defined.

Inductive celValue := CelBool (b : bool) | CelString (s : string) | CelInt (z : Z) | CelStrings (l : list string) | CelTypes (l : list string).

(** [protobuf.NewContentType]: the enumeration by its names; what is not one
    of the ten types is [unknown]. *)
Definition NewContentType (ct : NullEnum) : string :=
  if Valid ct && bool_decide (Val ct ∈ ContentTypeNames) then Val ct else "unknown".

Fixpoint map_result {A B} (f : A → result B) (l : list A) : result (list B) :=
  match l with
  | [] => inr []
  | x :: l => y ← f x; r ← map_result f l; inr (y :: r)
  end.

Definition flag_string (t : FlagType) (v : value) : result string :=
  match v with VString s => inr s | _ => inl (Plain NotOk) end.
Definition flag_contentType (v : value) : result string :=
  match v with
  | VString s =>
      if bool_decide (s = "unknown") then inr (NewContentType no_type)
      else match ParseContentType s with inl e => inl e | inr ct => inr (NewContentType (NewNullContentType ct)) end
  | _ => inl (Plain NotOk)
  end.

Definition celVal (t : FlagType) (rawVal : value) : result celValue :=
  match t, rawVal with
  | FlagTypeBool, VBool b => inr (CelBool b)
  | FlagTypeString, VString s => inr (CelString s)
  | FlagTypeInt, VInt z => inr (CelInt z)
  | FlagTypeStringList, VList l => nativeVal ← map_result (flag_string t) l; inr (CelStrings nativeVal)
  | FlagTypeContentTypeList, VList l => celVal ← map_result flag_contentType l; inr (CelTypes celVal)
  | _, _ => inl (Plain NotOk)
  end.

(** ** Sources, [source.go] *)

Record Source := mkSource {
  Workflows : gmap string value;
  FlagDefinitions : gmap string FlagType;
  Flags : gmap string value;
  Keywords : gmap string (list string);
  Extensions : gmap string (list string) }.

Definition workflowNames (s : Source) : gset string := dom (Workflows s).

Definition conflicting (other : gmap string FlagType) (p : string * FlagType) : bool :=
  match other !! p.1 with Some tp => negb (bool_decide (tp = p.2)) | None => false end.
Definition flagDefinitions_merge (d other : gmap string FlagType) : result (gmap string FlagType) :=
  match filter (λ p, conflicting other p = true) (map_to_list d) with
  | (k, _) :: _ => inl (Plain (ConflictingFlag k))
  | [] => inr (d ∪ other)
  end.
Definition Flags_merge (f other : gmap string value) : gmap string value := other ∪ f.
Definition groups_merge (g other : gmap string (list string)) : gmap string (list string) :=
  union_with (λ v w, Some (v ++ w)) g other.
Definition workflowSources_merge (s other : gmap string value) : gmap string value := other ∪ s.

Definition Source_merge (s other : Source) : result Source :=
  flagDefs ← flagDefinitions_merge (FlagDefinitions s) (FlagDefinitions other);
  inr (mkSource (workflowSources_merge (Workflows s) (Workflows other)) flagDefs (Flags_merge (Flags s) (Flags other))
         (groups_merge (Keywords s) (Keywords other)) (groups_merge (Extensions s) (Extensions other))).

Definition emptySource : Source := mkSource ∅ ∅ ∅ ∅ ∅.

(** The sources of [mergeSourceProvider] in order, a provider that fails
    ending the loop. *)
Fixpoint merge_loop (source : Source) (providers : list (result Source)) : result Source :=
  match providers with
  | [] => inr source
  | p :: providers => s ← p; merged ← Source_merge source s; merge_loop merged providers
  end.

(** What the configuration contributes. *)
Record Config := mkConfig {
  cfg_Workflow : string;
  cfg_Keywords : gmap string (list string);
  cfg_Extensions : gmap string (list string);
  cfg_Flags : gmap string value;
  cfg_DeleteXxx : bool;
  cfg_DeleteContentTypes : list string }.
Definition configSource (c : Config) (tmdbEnabled : bool) : Source :=
  let fs := cfg_Flags c in
  let fs := if cfg_DeleteXxx c then <["delete_xxx" := VBool true]> fs else fs in
  let fs := match cfg_DeleteContentTypes c with
            | [] => fs
            | l => <["delete_content_types" := VList (VString <$> l)]> fs
            end in
  let fs := if tmdbEnabled then fs else <["tmdb_enabled" := VBool false]> fs in
  mkSource ∅ ∅ fs (cfg_Keywords c) (cfg_Extensions c).

(** ** [Compile] *)

Section compile.
Context `{HT : UnicodeTables} `{Cel} `{Decoder} (celEnvOption : Source → result celEnv).

Record runner := mkRunner {
  flagDefinitions : gmap string FlagType;
  compiledFlags : gmap string celValue;
  workflows : gmap string action }.

Definition root (s : Source) : compilerContext := mkContext VNil [].
Definition compile_workflow (env : celEnv) (source : Source) (p : string * value) : result (string * action) :=
  let workflowsCtx := mkContext VNil ["workflows"] in
  match compileAction env defaultFeatures (workflowNames source) (child workflowsCtx p.1 p.2) with
  | inl err => inl (ctx_fatal (root source) err)
  | inr a => inr (p.1, a)
  end.
Definition compile_flag (source : Source) (p : string * FlagType) : result (string * celValue) :=
  match Flags source !! p.1 with
  | None => inl (ctx_fatal (root source) (Plain (MissingFlag p.1)))
  | Some rawVal =>
      match celVal p.2 rawVal with
      | inl _ => inl (ctx_fatal (root source) (Plain (InvalidFlag p.1)))
      | inr val => inr (p.1, val)
      end
  end.

(** The loops range over maps: their order chooses which of several errors is
    reported, nothing else. *)
Definition Compile (source : Source) : result runner :=
  match celEnvOption source with
  | inl err => inl (ctx_fatal (root source) err)
  | inr env =>
      ws ← map_result (compile_workflow env source) (map_to_list (Workflows source));
      cfs ← map_result (compile_flag source) (map_to_list (FlagDefinitions source));
      inr (mkRunner (FlagDefinitions source) (list_to_map cfs) (list_to_map ws))
  end.

End compile.

(** ** The language that is compiled

    Which values are conditions and which are actions, and what each of them
    compiles to.  It is wider than the JSON schema of the language, modelled
    below: a payload that the schema wants to be an array may be a single item
    or nothing, an item of [find_match] may be a list of actions, and a name of
    a workflow may be empty.  An action knows the path of its source, through
    list positions and names of definitions. *)

Definition items (v : value) : list value := match v with VNil => [] | VList l => l | _ => [v] end.
Definition sequence `{Cel} (acts : list action) : action := match acts with [a] => a | _ => ASequence acts end.
Abbreviation indexed l := (zip (seq 0 (length l)) l).

Section grammar.
Context `{HT : UnicodeTables} `{Cel} `{Decoder} (env : celEnv) (names : gset string).

Inductive cond_of : value → condition → Prop :=
| cond_and v conds :
    VNil ∉ items v → Forall2 cond_of (items v) conds → cond_of (VMap [("and", v)]) (CAnd conds)
| cond_or v conds :
    VNil ∉ items v → Forall2 cond_of (items v) conds → cond_of (VMap [("or", v)]) (COr conds)
| cond_not v cond : v ≠ VNil → cond_of v cond → cond_of (VMap [("not", v)]) (CNot cond)
| cond_expression s prg : cel_Compile env s = CelProgram prg → cond_of (VString s) (CExpression prg)
| cond_expression_key s prg :
    cel_Compile env s = CelProgram prg → cond_of (VMap [("expression", VString s)]) (CExpression prg).

Definition literal_of (s : string) (p : list string) : option action :=
  if bool_decide (s = "attach_local_content_by_id") then Some AAttachLocalContentByID
  else if bool_decide (s = "attach_local_content_by_search") then Some AAttachLocalContentBySearch
  else if bool_decide (s = "attach_tmdb_content_by_id") then Some AAttachTMDBContentByID
  else if bool_decide (s = "attach_tmdb_content_by_search") then Some AAttachTmdbContentBySearch
  else if bool_decide (s = "delete") then Some (ADelete (p ++ ["delete"]))
  else if bool_decide (s = "unmatched") then Some (AUnmatched (p ++ ["unmatched"]))
  else if bool_decide (s = "parse_date") then Some AParseDate
  else if bool_decide (s = "parse_video_content") then Some AParseVideoContent
  else if bool_decide (s = "type_fallback") then Some ATypeFallback
  else if bool_decide (s = "enrich_type_fallback") then Some AEnrichTypeFallback
  else None.

Inductive act_of : list string → value → action → Prop :=
| act_list p l acts :
    Forall2 (λ iv a, single_of (p ++ [numericPathPart iv.1]) iv.2 a) (indexed l) acts →
    act_of p (VList l) (sequence acts)
| act_single p v a : single_of p v a → act_of p v a
with single_of : list string → value → action → Prop :=
| single_literal p s a : literal_of s p = Some a → single_of p (VString s) a
| single_add_tag p v tags :
    items v = VString <$> tags → Forall (λ t, ValidateTagName t = None) tags →
    single_of p (VMap [("add_tag", v)]) (AAddTag tags)
| single_run_workflow p v ws :
    items v = VString <$> ws → Forall (λ w, w ∈ names) ws → single_of p (VMap [("run_workflow", v)]) (ARunWorkflow ws)
| single_set_content_type p s :
    s ∈ ContentTypeNames → single_of p (VMap [("set_content_type", VString s)]) (ASetContentType (mkNull s true false))
| single_set_unknown p : single_of p (VMap [("set_content_type", VString "unknown")]) (ASetContentType no_type)
| single_find_match p v acts :
    VNil ∉ items v →
    Forall2 (λ iv a, act_of (p ++ ["find_match"; numericPathPart iv.1]) iv.2 a) (indexed (items v)) acts →
    single_of p (VMap [("find_match", v)]) (AFindMatch (p ++ ["find_match"]) acts)
| single_if_else p v pl cond ifAction elseAction :
    decode_ifElse v = Some pl → cond_of (Condition pl) cond →
    optional_of (p ++ ["if_else"; "if_action"]) (IfAction pl) ifAction →
    optional_of (p ++ ["if_else"; "else_action"]) (ElseAction pl) elseAction →
    single_of p (VMap [("if_else", v)]) (AIfElse cond ifAction elseAction)
with optional_of : list string → value → option action → Prop :=
| optional_none p : optional_of p VNil None
| optional_some p v a : v ≠ VNil → act_of p v a → optional_of p v (Some a).

End grammar.

(** ** Errors that are not fatal *)

Definition soft {A} (m : result A) : Prop := ∃ e, m = inl e ∧ fatal_error e = false.

Lemma fatal_error_error ctx e : fatal_error (ctx_error ctx e) = fatal_error e.
Proof. unfold ctx_error. by destruct (bool_decide (is_Some (asCompilerError e))). Qed.

Lemma fatal_error_fatal ctx e : fatal_error (ctx_fatal ctx e) = true.
Proof. unfold ctx_fatal. destruct (fatal_error e) eqn:E; [done|]. by destruct (asCompilerError e) as [[p c]|]. Qed.

Lemma soft_or_error {A} ctx (m : result A) : soft m → soft (or_error ctx m).
Proof. intros (e & -> & He). eexists. split; [done|]. by rewrite fatal_error_error. Qed.
Lemma soft_bind {A B} (m : result A) (f : A → result B) : soft m → soft (m ≫= f).
Proof. intros (e & -> & He). by exists e. Qed.
Lemma soft_plain {A} m : soft (inl (Plain m) : result A).
Proof. by eexists. Qed.
Lemma soft_ctx {A} ctx m : soft (inl (ctx_error ctx (Plain m)) : result A).
Proof. eexists. split; [done|]. by rewrite fatal_error_error. Qed.
Create HintDb soft.
#[export] Hint Resolve soft_or_error soft_bind soft_plain soft_ctx : soft.
#[export] Hint Extern 1 (soft (inl _)) => (eexists; split; reflexivity) : soft.

Lemma or_error_Ok {A} ctx (m : result A) a : or_error ctx m = inr a ↔ m = inr a.
Proof. destruct m; naive_solver. Qed.
Lemma result_bind_Ok {A B} (m : result A) (f : A → result B) b : m ≫= f = inr b ↔ ∃ a, m = inr a ∧ f a = inr b.
Proof. destruct m; cbn; naive_solver. Qed.

(** ** What the payloads accept *)

Section payloads.
Context `{HT : UnicodeTables} `{Cel} `{HD : Decoder} `{!DecoderLaws}.

(** A specification that accepts by the source alone, item by item. *)
Lemma list_loop_Ok {A} (spec : payload A) (Q : value → A → Prop) ctx i l r :
  (∀ ctx a, spec ctx = inr a ↔ Q (source ctx) a) → list_loop spec ctx i l = inr r ↔ Forall2 Q l r.
Proof.
  intros HQ. revert i r. induction l as [|v l IH]; intros i r; cbn [list_loop].
  - split; [intros [= <-]; constructor|by intros ->%Forall2_nil_inv_l].
  - rewrite result_bind_Ok. split.
    + intros (a & Ha%HQ & (r' & Hr & [= <-])%result_bind_Ok). constructor; [done|]. by eapply IH.
    + intros (a & r' & Ha & Hr & ->)%Forall2_cons_inv_l. exists a. split; [by apply HQ|].
      apply result_bind_Ok. exists r'. split; [by apply IH|done].
Qed.

Lemma payloadList_items {A} (spec : payload A) ctx : payloadList spec ctx = list_loop spec ctx 0 (items (source ctx)).
Proof. unfold payloadList. by destruct (source ctx). Qed.

Lemma MustSucceed_Ok {A} (spec : payload A) ctx a : payloadMustSucceed spec ctx = inr a ↔ spec ctx = inr a.
Proof. unfold payloadMustSucceed. destruct (spec ctx); naive_solver. Qed.
Lemma MustSucceed_fatal {A} (spec : payload A) ctx e : payloadMustSucceed spec ctx = inl e → fatal_error e = true.
Proof. unfold payloadMustSucceed. destruct (spec ctx); [|done]. intros [= <-]. apply fatal_error_fatal. Qed.

Lemma strict_list_Ok {A} (spec : payload A) (Q : value → A → Prop) ctx l :
  (∀ ctx a, spec ctx = inr a ↔ Q (source ctx) a) →
  payloadMustSucceed (payloadList spec) ctx = inr l ↔ Forall2 Q (items (source ctx)) l.
Proof. intros HQ. rewrite MustSucceed_Ok, payloadList_items. by apply list_loop_Ok. Qed.

Lemma generic_Ok {A} (cast : value → option A) ctx a : payloadGeneric cast ctx = inr a ↔ cast (source ctx) = Some a.
Proof. unfold payloadGeneric. destruct (cast (source ctx)); naive_solver. Qed.

Lemma anyList_Ok ctx l :
  payloadMustSucceed (payloadList (payloadGeneric as_any)) ctx = inr l ↔ l = items (source ctx) ∧ VNil ∉ l.
Proof.
  rewrite (strict_list_Ok _ (λ v a, as_any v = Some a)) by apply generic_Ok.
  generalize (items (source ctx)) as r. revert l. induction l as [|a l IH]; intros r.
  - split; [intros ->%Forall2_nil_inv_r|intros [<- _]]; [split; [done|apply not_elem_of_nil]|constructor].
  - rewrite not_elem_of_cons. split.
    + intros (v & r' & Hv & [-> Hr]%IH & ->)%Forall2_cons_inv_r. destruct v; naive_solver.
    + intros (<- & Ha & Hr). constructor; [by destruct a|]. by apply IH.
Qed.

Lemma stringList_Ok {A} (f : string → result A) ctx l :
  payloadMustSucceed (payloadList (payloadTransformer (payloadGeneric as_string) (λ s _, f s))) ctx = inr l ↔
  ∃ ss, items (source ctx) = VString <$> ss ∧ Forall2 (λ s a, f s = inr a) ss l.
Proof.
  rewrite (strict_list_Ok _ (λ v a, ∃ s, v = VString s ∧ f s = inr a)).
  - generalize (items (source ctx)) as r. revert l. induction l as [|a l IH]; intros r.
    + split; [intros ->%Forall2_nil_inv_r; by exists []|].
      intros (ss & -> & ->%Forall2_nil_inv_r). constructor.
    + split.
      * intros (v & r' & (s & -> & Hs) & (ss & -> & Hr)%IH & ->)%Forall2_cons_inv_r. exists (s :: ss). by split; [|constructor].
      * intros (ss & -> & (s & ss' & Hs & Hr & ->)%Forall2_cons_inv_r). constructor; [by exists s|]. apply IH. by exists ss'.
  - intros ctx' a. unfold payloadTransformer. rewrite result_bind_Ok. setoid_rewrite generic_Ok.
    unfold as_string. destruct (source ctx'); naive_solver.
Qed.

Lemma single_key_Ok {A} key (spec : payload A) v p a :
  payloadSingleKeyValue key spec (mkContext v p) = inr a ↔
  ∃ x, v = VMap [(key, x)] ∧ spec (mkContext x (p ++ [key])) = inr a.
Proof.
  unfold payloadSingleKeyValue. rewrite result_bind_Ok. unfold decoded. cbn [source path]. rewrite decode_map_spec. split.
  - intros (m & Hm & Hr). destruct v as [| | | | |m'|]; try done; simplify_eq/=; try done.
    destruct m as [|[k x] [|? ?]]; try done. case_bool_decide; [|done]. subst. by exists x.
  - intros (x & -> & Hx). exists [(key, x)]. split; [done|]. cbn. by rewrite bool_decide_eq_true_2.
Qed.

(** A keyed payload fails softly on a value without its key. *)
Lemma single_key_soft {A} key (spec : payload A) v p :
  (∀ x, v ≠ VMap [(key, x)]) → soft (payloadSingleKeyValue key spec (mkContext v p)).
Proof.
  intros Hv. unfold payloadSingleKeyValue, decoded. cbn [source path]. rewrite decode_map_spec.
  destruct v as [| | | | |m|]; cbn; eauto with soft. destruct m as [|[k x] [|? ?]]; cbn; eauto with soft.
  case_bool_decide; [by subst; destruct (Hv x)|eauto with soft].
Qed.

Lemma literal_Ok s v p a : payloadLiteral s (mkContext v p) = inr a ↔ a = s ∧ (v = VString s ∨ v = VNil ∧ s = "").
Proof.
  unfold payloadLiteral. rewrite result_bind_Ok. unfold decoded. cbn [source]. rewrite decode_string_spec. split.
  - intros (x & Hx & Hr). case_bool_decide; [|done]. destruct v; naive_solver.
  - intros [-> [-> | [-> ->]]]; eexists; (split; [done|]); by rewrite bool_decide_eq_true_2.
Qed.
Lemma literal_soft s v p : s ≠ "" → v ≠ VString s → soft (payloadLiteral s (mkContext v p)).
Proof.
  intros Hs Hv. unfold payloadLiteral, decoded. cbn [source]. rewrite decode_string_spec.
  destruct v; cbn; eauto with soft; case_bool_decide; naive_solver eauto with soft.
Qed.

End payloads.

(** ** One definition for a source *)

Definition literalDefinitions : list actionDefinition :=
  [attachLocalContentByIDAction; attachLocalContentBySearchAction; attachTMDBContentByIDAction;
   attachTmdbContentBySearchAction; deleteAction; unmatchedAction; parseDateAction; parseVideoContentAction;
   typeFallbackAction; enrichTypeFallbackAction].
Definition keyedDefinitions : list actionDefinition :=
  [addTagAction; findMatchAction; ifElseAction; runWorkflowAction; setContentTypeAction].
Definition named (s : string) (defs : list actionDefinition) : option actionDefinition :=
  head (filter (λ d, action_def_name d = s) defs).

(** The only definition that can accept a value. *)
Definition selects (v : value) : option actionDefinition :=
  match v with
  | VString s => named s literalDefinitions
  | VMap [(k, _)] => named k keyedDefinitions
  | _ => None
  end.
Definition selects_condition (v : value) : option conditionDefinition :=
  match v with
  | VString _ => Some expressionCondition
  | VMap [(k, _)] =>
      if bool_decide (k = "and") then Some andCondition else if bool_decide (k = "not") then Some notCondition
      else if bool_decide (k = "or") then Some orCondition
      else if bool_decide (k = "expression") then Some expressionCondition else None
  | _ => None
  end.

Section select.
Context `{HT : UnicodeTables} `{Cel} `{HD : Decoder} `{!DecoderLaws} (env : celEnv).

Lemma condition_def_soft rec d v p :
  d ≠ expressionCondition → selects_condition v ≠ Some d → soft (condition_def env rec d (mkContext v p)).
Proof.
  intros Hd Hs. destruct d; [| | |done]; cbn [condition_def]; unfold and_def, or_def, not_def; apply soft_bind; try apply soft_or_error;
    apply single_key_soft; intros x ->; by apply Hs.
Qed.

Lemma celProgram_Ok v p prg :
  payloadMustSucceed (celProgramPayload env) (mkContext v p) = inr prg ↔
  ∃ s, v = VString s ∧ cel_Compile env s = CelProgram prg.
Proof.
  rewrite MustSucceed_Ok. unfold celProgramPayload, payloadTransformer. rewrite result_bind_Ok. setoid_rewrite generic_Ok.
  cbn [source]. unfold as_string. split.
  - intros (s & Hs & He). destruct v; simplify_eq. exists s. split; [done|]. destruct (cel_Compile env s); naive_solver.
  - intros (s & -> & Hs). exists s. by rewrite Hs.
Qed.

Lemma union_Ok {A} (a b : payload A) ctx x :
  payloadUnion [a; b] ctx = inr x ↔ a ctx = inr x ∨ (∃ e, a ctx = inl e) ∧ b ctx = inr x.
Proof. unfold payloadUnion. cbn. destruct (a ctx), (b ctx); naive_solver. Qed.

Lemma expression_Ok v p prg :
  expressionConditionPayload env (mkContext v p) = inr prg ↔
  ∃ s, (v = VString s ∨ v = VMap [("expression", VString s)]) ∧ cel_Compile env s = CelProgram prg.
Proof.
  unfold expressionConditionPayload. rewrite union_Ok, single_key_Ok, celProgram_Ok. setoid_rewrite celProgram_Ok. split.
  - naive_solver.
  - intros (s & [-> | ->] & Hs); [right|left; naive_solver]. split; [|naive_solver].
    destruct (single_key_soft "expression" (payloadMustSucceed (celProgramPayload env)) (VString s) p) as (e & He & _); [done|].
    by exists e.
Qed.

Lemma conditions_loop_found rec defs errs ctx c :
  conditions_loop env rec defs errs ctx = inr c →
  ∃ d, d ∈ defs ∧ condition_def env rec d (child ctx (condition_def_name d) (source ctx)) = inr c.
Proof.
  revert errs. induction defs as [|d defs IH]; intros errs; cbn [conditions_loop]; [done|].
  destruct (condition_def _ _ _ _) as [e|c'] eqn:E.
  - destruct (fatal_error e); [done|]. intros (d' & Hd & Hc)%IH. exists d'. split; [by right|done].
  - intros [= ->]. exists d. split; [by left|done].
Qed.

Lemma conditions_loop_skip rec l1 d l2 errs ctx c :
  Forall (λ d', soft (condition_def env rec d' (child ctx (condition_def_name d') (source ctx)))) l1 →
  condition_def env rec d (child ctx (condition_def_name d) (source ctx)) = inr c →
  conditions_loop env rec (l1 ++ d :: l2) errs ctx = inr c.
Proof.
  intros Hl Hd. revert errs. induction Hl as [|d' l1 (e & He & Hf) _ IH]; intros errs; cbn [app conditions_loop].
  - by rewrite Hd.
  - by rewrite He, Hf.
Qed.

(** The loop accepts exactly what the definition selected by the source
    accepts. *)
Lemma conditions_loop_Ok rec v p c :
  conditions_loop env rec (conditions defaultFeatures) [] (mkContext v p) = inr c ↔
  ∃ d, selects_condition v = Some d ∧ condition_def env rec d (mkContext v (p ++ [condition_def_name d])) = inr c.
Proof.
  split.
  - intros (d & Hd & Hc)%conditions_loop_found. exists d. split; [|done]. destruct d; cbn [child source path condition_def_name] in Hc.
    1-3: match goal with |- _ = Some ?d => destruct (decide (selects_condition v = Some d)) as [|Hn]; [done|];
           destruct (condition_def_soft rec d v (p ++ [condition_def_name d])) as (e & He & _); [done|done|];
           cbn [condition_def_name] in He; unfold child in Hc; cbn [path] in Hc; congruence end.
    apply result_bind_Ok in Hc as (prg & (s & [-> | ->] & _)%or_error_Ok%expression_Ok & _); done.
  - intros (d & Hs & Hc).
    assert (∀ d', d' ≠ expressionCondition → d' ≠ d →
      soft (condition_def env rec d' (child (mkContext v p) (condition_def_name d') v))) as Hsoft.
    { intros d' Hd' Hne. apply condition_def_soft; [done|]. congruence. }
    destruct d; [apply (conditions_loop_skip rec [])|apply (conditions_loop_skip rec [andCondition])
      |apply (conditions_loop_skip rec [andCondition; notCondition])
      |apply (conditions_loop_skip rec [andCondition; notCondition; orCondition])]; try done; repeat (constructor; [by apply Hsoft|]); constructor.
Qed.

(** ** The conditions that compile *)

Lemma compile_items_Ok {A} (rec : compilerContext → result A) ctx i l r :
  compile_items rec ctx i l = inr r ↔
  Forall2 (λ iv a, rec (child ctx (numericPathPart iv.1) iv.2) = inr a) (zip (seq i (length l)) l) r.
Proof.
  revert i r. induction l as [|v l IH]; intros i r; cbn [compile_items length seq zip zip_with].
  - split; [intros [= <-]; constructor|by intros ->%Forall2_nil_inv_l].
  - rewrite result_bind_Ok. split.
    + intros (a & Ha & (r' & Hr & [= <-])%result_bind_Ok). constructor; [done|]. by apply IH.
    + intros (a & r' & Ha & Hr & ->)%Forall2_cons_inv_l. exists a. split; [done|].
      apply result_bind_Ok. exists r'. split; [by apply IH|done].
Qed.

Lemma and_Ok rec v p c :
  condition_def env rec andCondition (mkContext v p) = inr c ↔
  ∃ x conds, v = VMap [("and", x)] ∧ (VNil ∉ items x) ∧ compile_items rec (mkContext v p) 0 (items x) = inr conds ∧ c = CAnd conds.
Proof.
  cbn [condition_def]. unfold and_def. rewrite result_bind_Ok. setoid_rewrite or_error_Ok. unfold andConditionPayloadSpec. setoid_rewrite single_key_Ok.
  setoid_rewrite anyList_Ok. cbn [source]. split.
  - intros (l & (x & -> & -> & Hn) & Hc). destruct (compile_items _ _ _ _) eqn:E; naive_solver.
  - intros (x & conds & -> & Hn & Hc & ->). exists (items x). split; [naive_solver|]. by rewrite Hc.
Qed.
Lemma or_Ok rec v p c :
  condition_def env rec orCondition (mkContext v p) = inr c ↔
  ∃ x conds, v = VMap [("or", x)] ∧ (VNil ∉ items x) ∧ compile_items rec (mkContext v p) 0 (items x) = inr conds ∧ c = COr conds.
Proof.
  cbn [condition_def]. unfold or_def. rewrite result_bind_Ok. unfold orConditionSpec. setoid_rewrite single_key_Ok. setoid_rewrite result_bind_Ok.
  setoid_rewrite anyList_Ok. cbn [source]. naive_solver.
Qed.
Lemma not_Ok rec v p c :
  condition_def env rec notCondition (mkContext v p) = inr c ↔
  ∃ x cond, v = VMap [("not", x)] ∧ x ≠ VNil ∧ rec (mkContext x (p ++ ["not"])) = inr cond ∧ c = CNot cond.
Proof.
  cbn [condition_def]. unfold not_def. rewrite result_bind_Ok. setoid_rewrite or_error_Ok. unfold notConditionPayloadSpec. setoid_rewrite single_key_Ok.
  setoid_rewrite result_bind_Ok. setoid_rewrite or_error_Ok. setoid_rewrite MustSucceed_Ok. setoid_rewrite generic_Ok. cbn [source]. split.
  - intros (y & (x & -> & Hx) & cond & Hc & [= <-]). destruct x; simplify_eq/=; naive_solver.
  - intros (x & cond & -> & Hx & Hc & ->). exists x. split; [exists x; split; [done|by destruct x]|naive_solver].
Qed.

End select.

Lemma size_pos v : (1 ≤ size v)%nat.
Proof. destruct v; cbn; lia. Qed.
Lemma size_elem l v : v ∈ l → (size v < size (VList l))%nat.
Proof. cbn [size]. induction l as [|w l IH]; [by intros ?%elem_of_nil|]. intros [-> | Hv]%elem_of_cons; cbn; [|specialize (IH Hv)]; lia. Qed.
Lemma size_items x v : v ∈ items x → (size v ≤ size x)%nat.
Proof.
  destruct x as [| | | |l| |]; cbn [items]; try (by intros ->%list_elem_of_singleton).
  - by intros ?%elem_of_nil.
  - intros Hv%size_elem. lia.
Qed.
Lemma size_key k x : size (VMap [(k, x)]) = S (size x).
Proof. cbn. lia. Qed.

Section conditions.
Context `{HT : UnicodeTables} `{Cel} `{HD : Decoder} `{!DecoderLaws} (env : celEnv).

Lemma Forall2_indexed {A} (P : nat → value → A → Prop) (Q : value → A → Prop) l : ∀ i r,
  (∀ i v a, v ∈ l → P i v a → Q v a) → Forall2 (λ iv a, P iv.1 iv.2 a) (zip (seq i (length l)) l) r → Forall2 Q l r.
Proof.
  induction l as [|v l IH]; intros i r HP; cbn [length seq zip zip_with].
  - intros ->%Forall2_nil_inv_l. constructor.
  - intros (a & r' & Ha & Hr & ->)%Forall2_cons_inv_l. constructor; [apply (HP i); [by left|done]|].
    apply (IH (S i)); [|done]. intros j w b Hw. apply HP. by right.
Qed.
Lemma Forall2_index {A} (P : nat → value → A → Prop) (Q : value → A → Prop) l : ∀ i r,
  (∀ i v a, v ∈ l → Q v a → P i v a) → Forall2 Q l r → Forall2 (λ iv a, P iv.1 iv.2 a) (zip (seq i (length l)) l) r.
Proof.
  intros i r HP HQ. revert i HP. induction HQ as [|v a l r Ha Hr IH]; intros i HP; cbn [length seq zip zip_with]; constructor.
  - apply HP; [by left|done].
  - apply IH. intros j w b Hw. apply HP. by right.
Qed.

Lemma condition_sound n v p c : compileCondition_fuel env defaultFeatures n (mkContext v p) = inr c → cond_of env v c.
Proof.
  revert v p c. induction n as [|n IH]; intros v p c; cbn [compileCondition_fuel]; [done|].
  intros (d & _ & Hc)%conditions_loop_Ok. destruct d.
  - apply and_Ok in Hc as (x & conds & -> & Hn & Hc%compile_items_Ok & ->). constructor; [done|].
    eapply (Forall2_indexed (λ i v a, _ (child _ (numericPathPart i) v) = inr a)); [|exact Hc]. intros i w a _. apply IH.
  - apply not_Ok in Hc as (x & cond & -> & Hn & Hc & ->). constructor; [done|]. by eapply IH.
  - apply or_Ok in Hc as (x & conds & -> & Hn & Hc%compile_items_Ok & ->). constructor; [done|].
    eapply (Forall2_indexed (λ i v a, _ (child _ (numericPathPart i) v) = inr a)); [|exact Hc]. intros i w a _. apply IH.
  - apply result_bind_Ok in Hc as (prg & (s & Hv & Hs)%or_error_Ok%expression_Ok & [= <-]).
    destruct Hv as [-> | ->]; by constructor.
Qed.

Lemma condition_complete n v p c :
  cond_of env v c → (size v < n)%nat → compileCondition_fuel env defaultFeatures n (mkContext v p) = inr c.
Proof.
  revert v p c. induction n as [|n IH]; intros v p c Hc Hn; [lia|]. cbn [compileCondition_fuel]. apply conditions_loop_Ok.
  destruct Hc as [v conds Hv Hc|v conds Hv Hc|v cond Hv Hc|s prg Hs|s prg Hs]; rewrite ?size_key in Hn; cbn [selects_condition].
  - exists andCondition. split; [done|]. apply and_Ok. exists v, conds. do 2 (split; [done|]). split; [|done].
    apply compile_items_Ok. eapply (Forall2_index (λ i v a, _ (child _ (numericPathPart i) v) = inr a)); [|exact Hc].
    intros i w a Hw%size_items Ha. apply IH; [done|lia].
  - exists orCondition. split; [done|]. apply or_Ok. exists v, conds. do 2 (split; [done|]). split; [|done].
    apply compile_items_Ok. eapply (Forall2_index (λ i v a, _ (child _ (numericPathPart i) v) = inr a)); [|exact Hc].
    intros i w a Hw%size_items Ha. apply IH; [done|lia].
  - exists notCondition. split; [done|]. apply not_Ok. exists v, cond. do 2 (split; [done|]). split; [|done]. apply IH; [done|lia].
  - exists expressionCondition. split; [done|]. apply result_bind_Ok. exists prg. split; [|done]. apply or_error_Ok, expression_Ok. eauto.
  - exists expressionCondition. split; [done|]. apply result_bind_Ok. exists prg. split; [|done]. apply or_error_Ok, expression_Ok. eauto.
Qed.

Lemma compileCondition_Ok v p c : compileCondition env defaultFeatures (mkContext v p) = inr c ↔ cond_of env v c.
Proof. split; [apply condition_sound|]. intros Hc. apply condition_complete; [done|cbn; lia]. Qed.

Lemma ifElse_size v pl : decode_ifElse v = Some pl → (size (IfAction pl) ≤ size v ∧ size (ElseAction pl) ≤ size v)%nat.
Proof.
  intros Hd. pose proof (size_pos v). apply decode_ifElse_parts in Hd as [[-> ->]|(m & -> & Hm)]; [cbn; lia|].
  assert (∀ f, f = VNil ∨ f ∈ m.*2 → size f ≤ size (VMap m))%nat as Hf.
  { intros f [-> | Hf]; [cbn; lia|]. cbn [size]. clear - Hf. induction m as [|[k w] m IH]; cbn in *; [by apply elem_of_nil in Hf|].
    apply elem_of_cons in Hf as [-> | Hf]; [|specialize (IH Hf)]; lia. }
  rewrite !Forall_cons in Hm. destruct Hm as (_ & Hi & He & _). split; by apply Hf.
Qed.

End conditions.

Section actions.
Context `{HT : UnicodeTables} `{Cel} `{HD : Decoder} `{!DecoderLaws} (env : celEnv) (names : gset string) (fs : features).
Abbreviation def_of := (action_def env fs names).

Lemma action_def_soft rec d v p : selects v ≠ Some d → soft (def_of rec d (mkContext v p)).
Proof.
  intros Hs. destruct d; cbn [action_def]; unfold literal_action, add_tag_def, find_match_def, if_else_def, run_workflow_def, set_content_type_def; apply soft_bind, soft_or_error;
    first [apply literal_soft; [done|intros ->; by apply Hs] | apply single_key_soft; intros x ->; by apply Hs].
Qed.

Lemma definitions_loop_Ok rec defs ctx v a :
  definitions_loop env fs names rec defs ctx v = inr (Some a) ↔
  ∃ d, selects v = Some d ∧ d ∈ defs ∧ def_of rec d (child ctx (action_def_name d) v) = inr a.
Proof.
  induction defs as [|d defs IH]; cbn [definitions_loop].
  { split; [done|]. intros (d & _ & ?%elem_of_nil & _). done. }
  destruct (decide (selects v = Some d)) as [Hs|Hs].
  - destruct (def_of rec d _) as [e|a'] eqn:E.
    + split.
      * destruct (fatal_error e); [done|]. intros (d' & ? & ? & ?)%IH. exists d'. by repeat split; [|right|].
      * intros (d' & Hd' & _ & Ha). simplify_eq. congruence.
    + split; [intros [= ->]; exists d; by repeat split; [|left|]|]. intros (d' & Hd' & _ & Ha). simplify_eq. congruence.
  - destruct (action_def_soft rec d v (path ctx ++ [action_def_name d]) Hs) as (e & He & Hf).
    unfold child at 1. rewrite He, Hf, IH. split; intros (d' & Hd' & Hin & Ha); exists d'; (split; [done|]); (split; [|done]);
      [by right|]. by apply elem_of_cons in Hin as [-> | ?].
Qed.

(** Whatever is accepted once is accepted by the same definition whatever the
    order of the definitions, and the errors are the same too. *)
Lemma definitions_loop_members rec defs defs' ctx v :
  (∀ d, d ∈ defs ↔ d ∈ defs') → definitions_loop env fs names rec defs ctx v = definitions_loop env fs names rec defs' ctx v.
Proof.
  assert (∀ defs, definitions_loop env fs names rec defs ctx v =
    match selects v with
    | Some d => if decide (d ∈ defs) then
        match def_of rec d (child ctx (action_def_name d) v) with inr a => inr (Some a) | inl e => if fatal_error e then inl e else inr None end
        else inr None
    | None => inr None
    end) as Hl.
  { clear defs defs'. intros defs. induction defs as [|d defs IH]; cbn [definitions_loop].
    { destruct (selects v); [|done]. by rewrite decide_False by apply not_elem_of_nil. }
    destruct (decide (selects v = Some d)) as [Hs|Hs].
    - rewrite Hs in *. rewrite (decide_True (P := d ∈ d :: defs)) by by left. destruct (def_of rec d _) as [e|]; [|done].
      destruct (fatal_error e); [done|]. rewrite IH. by case_decide.
    - destruct (action_def_soft rec d v (path ctx ++ [action_def_name d]) Hs) as (e & He & Hf).
      unfold child at 1. rewrite He, Hf, IH. destruct (selects v) as [d'|]; [|done].
      rewrite (decide_ext (d' ∈ d :: defs) (d' ∈ defs)); [done|]. rewrite elem_of_cons. naive_solver. }
  intros Hd. rewrite !Hl. destruct (selects v) as [d|]; [|done]. by rewrite (decide_ext (d ∈ defs) (d ∈ defs')).
Qed.

(** ** The loop over the actions of a list *)

Definition action_ctx (ctx : compilerContext) (isArray : bool) (i : nat) (v : value) : compilerContext :=
  if isArray then child ctx (numericPathPart i) v else ctx.

Lemma actions_loop_errs rec ctx isArray i raws acts errs r :
  actions_loop env fs names rec ctx isArray i raws acts errs = inr r → errs ≠ [] → r.2 ≠ [].
Proof.
  revert i acts errs. induction raws as [|v raws IH]; intros i acts errs; cbn [actions_loop]; [by intros [= <-]|].
  intros (o & _ & Ho)%result_bind_Ok He. destruct o; (eapply IH; [exact Ho|]); [done|]. by destruct errs.
Qed.

Lemma actions_loop_Ok rec ctx isArray i raws acts l :
  actions_loop env fs names rec ctx isArray i raws acts [] = inr (l, []) ↔
  ∃ r, l = acts ++ r ∧
  Forall2 (λ iv a, definitions_loop env fs names rec (actions fs) (action_ctx ctx isArray iv.1 iv.2) iv.2 = inr (Some a))
    (zip (seq i (length raws)) raws) r.
Proof.
  revert i acts. induction raws as [|v raws IH]; intros i acts; cbn [actions_loop length seq zip zip_with].
  { split; [intros [= <-]; exists []; split; [by rewrite app_nil_r|constructor]|].
    intros (r & -> & ->%Forall2_nil_inv_l). by rewrite app_nil_r. }
  rewrite result_bind_Ok. split.
  - intros (o & Ho & Hl). destruct o as [a|].
    + apply IH in Hl as (r & -> & Hr). exists (a :: r). rewrite <- app_assoc. split; [done|]. by constructor.
    + by apply actions_loop_errs in Hl.
  - intros (r & -> & (a & r' & Ha & Hr & ->)%Forall2_cons_inv_l). exists (Some a). split; [exact Ha|].
    apply IH. exists r'. split; [by rewrite <- app_assoc|done].
Qed.

Lemma compileAction_step_Ok rec v p a :
  compileAction_step env fs names rec (mkContext v p) = inr a ↔
  (∃ l acts, v = VList l ∧ a = sequence acts ∧
     Forall2 (λ iv a, definitions_loop env fs names rec (actions fs) (mkContext iv.2 (p ++ [numericPathPart iv.1])) iv.2 = inr (Some a))
       (indexed l) acts)
  ∨ (definitions_loop env fs names rec (actions fs) (mkContext v p) v = inr (Some a)).
Proof.
  assert (∀ l, definitions_loop env fs names rec (actions fs) (mkContext (VList l) p) (VList l) ≠ inr (Some a)) as Hlist.
  { intros l (d & Hd & _)%definitions_loop_Ok. done. }
  assert (∀ r : list action * list error,
    match r with (_, _ :: _ as errs) => inl (Joined errs) | ([a], []) => inr a | (acts, []) => inr (ASequence acts) end = inr a ↔
    r.2 = [] ∧ a = sequence r.1) as Hr.
  { intros [[|? [|? ?]] [|? ?]]; naive_solver. }
  unfold compileAction_step. cbn [source].
  destruct v as [| | | |l| |]; rewrite result_bind_Ok; setoid_rewrite Hr.
  5: { split.
    - intros ([acts errs] & Ha & He & ->). cbn in He. subst errs. left. exists l, acts. do 2 (split; [done|]).
      by apply actions_loop_Ok in Ha as (r & -> & Hr').
    - intros [(l' & acts & [= ->] & -> & Ha)|Hc]; [|by apply Hlist in Hc].
      exists (acts, []). split; [|done]. apply actions_loop_Ok. exists acts. by split. }
  all: split; [intros ([acts errs] & Ha & He & ->); cbn in He; subst errs; right;
      apply actions_loop_Ok in Ha as (r & -> & (a' & r' & Ha & ->%Forall2_nil_inv_l & ->)%Forall2_cons_inv_l); exact Ha
    |intros [(l & acts & [=] & _)|Ha]; exists ([a], []); (split; [|done]); apply actions_loop_Ok; exists [a]; split; [done|];
      constructor; [exact Ha|constructor]].
Qed.

End actions.

(** ** The actions that compile *)

Section sound.
Context `{HT : UnicodeTables} `{Cel} `{HD : Decoder} `{!DecoderLaws} (env : celEnv) (names : gset string) (fs : features).
Hypothesis Hconditions : conditions fs = conditions defaultFeatures.
Hypothesis Hactions : ∀ d, d ∈ actions fs.
Abbreviation def := (action_def env fs names).

Lemma compileCondition_features ctx : compileCondition env fs ctx = compileCondition env defaultFeatures ctx.
Proof.
  unfold compileCondition. generalize (S (size (source ctx))) as n. intros n.
  assert (compileCondition_fuel env fs n = compileCondition_fuel env defaultFeatures n) as ->; [|done].
  induction n as [|n IH]; [done|]. cbn [compileCondition_fuel]. by rewrite IH, Hconditions.
Qed.

Lemma literal_action_Ok s v p a a' : s ≠ "" → literal_action s (mkContext v p) a = inr a' ↔ v = VString s ∧ a' = a.
Proof.
  intros Hs. unfold literal_action. rewrite result_bind_Ok. setoid_rewrite or_error_Ok. setoid_rewrite literal_Ok. naive_solver.
Qed.

Lemma add_tag_Ok rec v p a :
  def rec addTagAction (mkContext v p) = inr a ↔
  ∃ x tags, v = VMap [("add_tag", x)] ∧ items x = VString <$> tags ∧ Forall (λ t, ValidateTagName t = None) tags ∧ a = AAddTag tags.
Proof.
  cbn [action_def]. unfold add_tag_def. rewrite result_bind_Ok. setoid_rewrite or_error_Ok. unfold addTagPayloadSpec, tagPayloadSpec.
  setoid_rewrite single_key_Ok. setoid_rewrite stringList_Ok. cbn [source].
  assert (∀ ss l, Forall2 (λ s a, match ValidateTagName s with Some e => inl e | None => inr s end = inr a :> result string) ss l ↔
    l = ss ∧ Forall (λ t, ValidateTagName t = None) ss) as Hf.
  { induction ss as [|s ss IH]; intros l.
    - split; [by intros ->%Forall2_nil_inv_l|intros [-> _]; constructor].
    - rewrite Forall_cons. split.
      + intros (a' & l' & Ha & [-> Hl]%IH & ->)%Forall2_cons_inv_l. destruct (ValidateTagName s); naive_solver.
      + intros (-> & Hs & Hss). constructor; [by rewrite Hs|]. by apply IH. }
  setoid_rewrite Hf. naive_solver.
Qed.

Lemma first_unknown_None ws : first_unknown names ws = None ↔ Forall (λ w, w ∈ names) ws.
Proof. induction ws as [|w ws IH]; cbn; [done|]. rewrite Forall_cons. case_bool_decide; naive_solver. Qed.

Lemma run_workflow_Ok rec v p a :
  def rec runWorkflowAction (mkContext v p) = inr a ↔
  ∃ x ws, v = VMap [("run_workflow", x)] ∧ items x = VString <$> ws ∧ Forall (λ w, w ∈ names) ws ∧ a = ARunWorkflow ws.
Proof.
  cbn [action_def]. unfold run_workflow_def. rewrite result_bind_Ok. setoid_rewrite or_error_Ok. unfold runWorkflowPayloadSpec. setoid_rewrite single_key_Ok.
  setoid_rewrite (strict_list_Ok _ (λ v a, as_string v = Some a)); [|apply generic_Ok]. cbn [source].
  assert (∀ vs l, Forall2 (λ v a, as_string v = Some a) vs l ↔ vs = VString <$> l) as Hf.
  { induction vs as [|w vs IH]; intros l.
    - split; [by intros ->%Forall2_nil_inv_l|]. destruct l; [constructor|done].
    - split; [intros (a' & l' & Ha & ->%IH & ->)%Forall2_cons_inv_l; by destruct w; simplify_eq/=|].
      destruct l as [|a' l]; [done|]. intros [= -> ->]. constructor; [done|]. by apply IH. }
  setoid_rewrite Hf. setoid_rewrite <- first_unknown_None. split.
  - intros (ws & (x & -> & Hx) & Ha). exists x, ws. destruct (first_unknown names ws); naive_solver.
  - intros (x & ws & -> & Hx & Hu & ->). exists ws. split; [by exists x|]. by rewrite Hu.
Qed.

Lemma set_content_type_Ok rec v p a :
  def rec setContentTypeAction (mkContext v p) = inr a ↔
  (∃ s, s ∈ ContentTypeNames ∧ v = VMap [("set_content_type", VString s)] ∧ a = ASetContentType (mkNull s true false))
  ∨ v = VMap [("set_content_type", VString "unknown")] ∧ a = ASetContentType no_type.
Proof.
  cbn [action_def]. unfold set_content_type_def. rewrite result_bind_Ok. setoid_rewrite or_error_Ok. unfold setContentTypePayloadSpec. setoid_rewrite single_key_Ok.
  setoid_rewrite MustSucceed_Ok. unfold contentTypePayloadSpec, payloadTransformer. setoid_rewrite result_bind_Ok.
  assert (∀ x p s, payloadEnum (ContentTypeNames ++ ["unknown"]) (mkContext x p) = inr s ↔
    x = VString s ∧ s ∈ ContentTypeNames ++ ["unknown"]) as He.
  { intros x p' s. unfold payloadEnum. cbn [source]. rewrite decode_string_spec.
    destruct x; try (naive_solver; fail); case_bool_decide as Hb; naive_solver. }
  setoid_rewrite He. split.
  - intros (ct & (x & -> & s & (-> & Hs) & Hct) & [= <-]). case_bool_decide as Hu; [right; naive_solver|].
    apply elem_of_app in Hs as [Hs | ->%list_elem_of_singleton]; [|done]. left. exists s. do 2 (split; [done|]).
    apply result_bind_Ok in Hct as (ct' & Hp & [= <-]). unfold ParseContentType in Hp. rewrite bool_decide_eq_true_2 in Hp by done. naive_solver.
  - intros [(s & Hs & -> & ->)|[-> ->]].
    + eexists. split; [|done]. eexists. split; [done|]. exists s. split; [split; [done|apply elem_of_app; by left]|].
      rewrite bool_decide_eq_false_2; [|by intros ->; apply list_elem_of_In in Hs; vm_compute in Hs; intuition discriminate].
      unfold ParseContentType. by rewrite bool_decide_eq_true_2.
    + eexists. split; [|done]. eexists. split; [done|]. exists "unknown". split; [split; [done|apply elem_of_app; right; by left]|done].
Qed.

Lemma find_match_Ok rec v p a :
  def rec findMatchAction (mkContext v p) = inr a ↔
  ∃ x acts, v = VMap [("find_match", x)] ∧ (VNil ∉ items x) ∧ compile_items rec (mkContext v p) 0 (items x) = inr acts
    ∧ a = AFindMatch p acts.
Proof.
  cbn [action_def]. unfold find_match_def. rewrite result_bind_Ok. setoid_rewrite or_error_Ok. unfold findMatchActionPayloadSpec. setoid_rewrite single_key_Ok.
  setoid_rewrite result_bind_Ok. setoid_rewrite anyList_Ok. cbn [source path]. naive_solver.
Qed.

Lemma optional_action_Ok rec ctx part v o :
  optional_action rec ctx part v = inr o ↔ (v = VNil ∧ o = None) ∨ ∃ a, v ≠ VNil ∧ rec (child ctx part v) = inr a ∧ o = Some a.
Proof.
  unfold optional_action. destruct v; try (rewrite result_bind_Ok; setoid_rewrite or_error_Ok; naive_solver). naive_solver.
Qed.

Lemma if_else_Ok rec v p a :
  def rec ifElseAction (mkContext v p) = inr a ↔
  ∃ x pl cond ia ea, v = VMap [("if_else", x)] ∧ decode_ifElse x = Some pl ∧ cond_of env (Condition pl) cond
    ∧ optional_action rec (mkContext v p) "if_action" (IfAction pl) = inr ia
    ∧ optional_action rec (mkContext v p) "else_action" (ElseAction pl) = inr ea ∧ a = AIfElse cond ia ea.
Proof.
  cbn [action_def]. unfold if_else_def. rewrite result_bind_Ok. setoid_rewrite or_error_Ok. unfold ifElsePayloadSpec. setoid_rewrite single_key_Ok.
  setoid_rewrite MustSucceed_Ok. unfold payloadStruct, decoded. cbn [source]. setoid_rewrite result_bind_Ok. setoid_rewrite or_error_Ok.
  setoid_rewrite compileCondition_features. setoid_rewrite compileCondition_Ok. setoid_rewrite result_bind_Ok. setoid_rewrite result_bind_Ok. split.
  - intros (pl & (x & -> & Hx) & cond & Hc & ia & Hia & ea & Hea & [= <-]). exists x, pl, cond, ia, ea.
    destruct (decode_ifElse x); naive_solver.
  - intros (x & pl & cond & ia & ea & -> & Hx & Hc & Hia & Hea & ->). exists pl. split; [exists x; by rewrite Hx|].
    exists cond. split; [done|]. exists ia. split; [done|]. by exists ea.
Qed.

(** The definition that a source selects accepts it exactly when the grammar
    does, given that the recursive calls do. *)
Lemma literal_single p s d a :
  selects (VString s) = Some d → ∀ rec, def rec d (mkContext (VString s) (p ++ [action_def_name d])) = inr a ↔ literal_of s p = Some a.
Proof.
  unfold selects, named. intros Hd rec.
  assert (d ∈ literalDefinitions ∧ action_def_name d = s) as [Hin <-].
  { destruct (filter _ literalDefinitions) as [|d' l] eqn:E; [done|]. simplify_eq/=.
    assert (d ∈ d :: l) as Hd by by left. rewrite <- E in Hd. by apply list_elem_of_filter in Hd as [? ?]. }
  clear Hd. unfold literalDefinitions in Hin. repeat (apply elem_of_cons in Hin as [-> | Hin]; [cbn [action_def]; rewrite literal_action_Ok by done;
    split; [by intros [_ ->]|intros Hl; split; [done|by injection Hl as <-]]|]).
  by apply elem_of_nil in Hin.
Qed.

Lemma literal_of_selects s p a : literal_of s p = Some a → ∃ d, selects (VString s) = Some d.
Proof. unfold literal_of. repeat case_bool_decide; intros; simplify_eq; by eexists. Qed.

Lemma Forall2_pairs {A B} (P Q : A → B → Prop) l r : (∀ x y, x ∈ l → P x y → Q x y) → Forall2 P l r → Forall2 Q l r.
Proof. intros HPQ HP. induction HP as [|x y l r Hx _ IH]; constructor; [apply HPQ; [by left|done]|]. apply IH. intros. apply HPQ; [by right|done]. Qed.
Lemma indexed_elem {A} i (l : list A) iv : iv ∈ zip (seq i (length l)) l → iv.2 ∈ l.
Proof. intros Hiv. apply (list_elem_of_fmap_2 snd) in Hiv. by rewrite snd_zip in Hiv by by rewrite length_seq. Qed.

Lemma single_sound rec p v a d :
  (∀ v p a, rec (mkContext v p) = inr a → act_of env names p v a) →
  selects v = Some d → def rec d (mkContext v (p ++ [action_def_name d])) = inr a → single_of env names p v a.
Proof.
  intros Hrec Hs Ha. destruct v as [| | |s| |[|[k x] [|? ?]]|]; try done.
  { constructor. by apply (literal_single p s d a Hs rec). }
  assert (d ∈ keyedDefinitions) as Hin.
  { unfold selects, named in Hs. destruct (filter _ keyedDefinitions) as [|d' l] eqn:E; [done|]. simplify_eq/=.
    assert (d ∈ d :: l) as Hd by by left. rewrite <- E in Hd. by apply list_elem_of_filter in Hd as [? ?]. }
  clear Hs. unfold keyedDefinitions in Hin. repeat (apply elem_of_cons in Hin as [-> | Hin]; cbn [action_def_name] in Ha); [..|by apply elem_of_nil in Hin].
  - apply add_tag_Ok in Ha as (y & tags & [= -> ->] & Hi & Ht & ->). by constructor.
  - apply find_match_Ok in Ha as (y & acts & [= -> ->] & Hn & Ha%compile_items_Ok & ->). constructor; [done|].
    eapply Forall2_pairs; [|exact Ha]. intros [i w] b _ Hb%Hrec. cbn [path child] in Hb. by rewrite <- app_assoc in Hb.
  - apply if_else_Ok in Ha as (y & pl & cond & ia & ea & [= -> ->] & Hd & Hc & Hia & Hea & ->).
    eapply single_if_else; [done|done|..];
      [apply optional_action_Ok in Hia as [[-> ->]|(b & Hb & Hr%Hrec & ->)]|apply optional_action_Ok in Hea as [[-> ->]|(b & Hb & Hr%Hrec & ->)]];
      constructor; try done; cbn [path child] in Hr; by rewrite <- app_assoc in Hr.
  - apply run_workflow_Ok in Ha as (y & ws & [= -> ->] & Hi & Ht & ->). by constructor.
  - apply set_content_type_Ok in Ha as [(s & Hs & [= -> ->] & ->)|[[= -> ->] ->]]; by constructor.
Qed.

Lemma action_sound n v p a : compileAction_fuel env fs names n (mkContext v p) = inr a → act_of env names p v a.
Proof.
  revert v p a. induction n as [|n IH]; intros v p a; cbn [compileAction_fuel]; [done|].
  intros [(l & acts & -> & -> & Ha)|Ha]%compileAction_step_Ok.
  - constructor. eapply Forall2_pairs; [|exact Ha]. intros [i w] b _ (d & Hd & _ & Hb)%definitions_loop_Ok. by eapply single_sound.
  - apply definitions_loop_Ok in Ha as (d & Hd & _ & Hb). apply act_single. by eapply single_sound.
Qed.

(** The other way round; the calls are on smaller values. *)
Lemma single_complete rec p v a :
  (∀ w p a, (size w < size v)%nat → act_of env names p w a → rec (mkContext w p) = inr a) → single_of env names p v a →
  ∃ d, selects v = Some d ∧ def rec d (mkContext v (p ++ [action_def_name d])) = inr a.
Proof.
  intros Hrec Ha.
  assert (∀ q x part o, (size x < size v)%nat → optional_of env names (q ++ [part]) x o →
    optional_action rec (mkContext v q) part x = inr o) as Hopt.
  { intros q x part o Hx Ho. apply optional_action_Ok. inversion Ho as [|? ? b ? Hb]; subst; [by left|right].
    exists b. split; [done|]. split; [by apply Hrec|done]. }
  destruct Ha as [p s a Hl|p v tags Hi Ht|p v ws Hi Hw|p s Hs|p|p v acts Hn Ha|p v pl cond ia ea Hd Hc Hia Hea].
  - destruct (literal_of_selects s p a Hl) as [d Hd]. exists d. split; [done|]. by apply (literal_single p s d a Hd rec).
  - exists addTagAction. split; [done|]. apply add_tag_Ok. naive_solver.
  - exists runWorkflowAction. split; [done|]. apply run_workflow_Ok. naive_solver.
  - exists setContentTypeAction. split; [done|]. apply set_content_type_Ok. naive_solver.
  - exists setContentTypeAction. split; [done|]. apply set_content_type_Ok. naive_solver.
  - exists findMatchAction. split; [done|]. apply find_match_Ok. exists v, acts. do 2 (split; [done|]). split; [|done].
    apply compile_items_Ok. eapply Forall2_pairs; [|exact Ha]. intros [i w] b Hw%indexed_elem%size_items Hb. apply Hrec; [rewrite size_key; cbn in *; lia|].
    cbn [path child]. by rewrite <- app_assoc.
  - exists ifElseAction. split; [done|]. apply if_else_Ok. exists v, pl, cond, ia, ea. do 3 (split; [done|]).
    destruct (ifElse_size v pl Hd) as [Hsi Hse].
    rewrite size_key in Hopt. repeat split; apply Hopt; try lia; by rewrite <- app_assoc.
Qed.

Lemma action_complete n v p a :
  act_of env names p v a → (size v < n)%nat → compileAction_fuel env fs names n (mkContext v p) = inr a.
Proof.
  revert v p a. induction n as [|n IH]; intros v p a Ha Hn; [lia|]. cbn [compileAction_fuel]. apply compileAction_step_Ok.
  destruct Ha as [p l acts Ha|p v a Ha].
  - left. exists l, acts. do 2 (split; [done|]). eapply Forall2_pairs; [|exact Ha]. intros [i w] b Hw%indexed_elem%size_elem Hb. cbn [fst snd] in *.
    apply definitions_loop_Ok. edestruct (single_complete (compileAction_fuel env fs names n) (p ++ [numericPathPart i]) w b) as (d & Hd & Hr);
      [intros w' p' a' Hw' Ha'; apply IH; [done|lia]|exact Hb|].
    exists d. by repeat split.
  - right. apply definitions_loop_Ok. edestruct (single_complete (compileAction_fuel env fs names n) p v a) as (d & Hd & Hr);
      [intros w' p' a' Hw' Ha'; apply IH; [done|lia]|exact Ha|].
    exists d. by repeat split.
Qed.

Lemma compileAction_act_of v p a : compileAction env fs names (mkContext v p) = inr a ↔ act_of env names p v a.
Proof. split; [apply action_sound|]. intros Ha. apply action_complete; [done|cbn; lia]. Qed.

End sound.

(** ** Sources that compile *)

Lemma map_result_Ok {A B} (f : A → result B) l r : map_result f l = inr r ↔ Forall2 (λ x y, f x = inr y) l r.
Proof.
  revert r. induction l as [|x l IH]; intros r; cbn [map_result].
  - split; [intros [= <-]; constructor|by intros ->%Forall2_nil_inv_l].
  - rewrite result_bind_Ok. split.
    + intros (y & Hy & (r' & Hr & [= <-])%result_bind_Ok). constructor; [done|]. by apply IH.
    + intros (y & r' & Hy & Hr & ->)%Forall2_cons_inv_l. exists y. split; [done|]. apply result_bind_Ok. exists r'. split; [by apply IH|done].
Qed.

Lemma Forall2_choose {A B} (P : A → B → Prop) l : Forall (λ x, ∃ y, P x y) l → ∃ r, Forall2 P l r.
Proof. intros Hl. induction Hl as [|x l [y Hy] _ [r Hr]]; [by exists []|]. exists (y :: r). by constructor. Qed.

(** A loop over a map that compiles entry by entry. *)
Section loop.
Context {V A : Type} (f : string * V → result (string * A)) (R : string → V → A → Prop).
Hypothesis Hf : ∀ k v q, f (k, v) = inr q ↔ q.1 = k ∧ R k v q.2.

Lemma compile_list_lookup (l : list (string * V)) ws k :
  NoDup l.*1 → Forall2 (λ x y, f x = inr y) l ws →
  option_Forall2 (R k) ((list_to_map l : gmap string V) !! k) ((list_to_map ws : gmap string A) !! k).
Proof.
  intros Hl Hw. induction Hw as [|[k' v] [k'' a] l ws [Hk Hr]%Hf Hw IH]; [constructor|].
  cbn in Hk. subst k''. apply NoDup_cons in Hl as [_ Hl]. cbn [list_to_map foldr fmap list_fmap].
  cbn. destruct (decide (k = k')) as [-> | Hne]; [rewrite !lookup_insert_eq; by constructor|]. rewrite !lookup_insert_ne by done. by apply IH.
Qed.

Hypothesis HR : ∀ k v a b, R k v a → R k v b → a = b.

Lemma compile_map (m : gmap string V) (g : gmap string A) :
  (∃ ws, map_result f (map_to_list m) = inr ws ∧ list_to_map ws = g) ↔ ∀ k, option_Forall2 (R k) (m !! k) (g !! k).
Proof.
  assert (∀ ws, Forall2 (λ x y, f x = inr y) (map_to_list m) ws → ∀ k, option_Forall2 (R k) (m !! k) ((list_to_map ws : gmap string A) !! k)) as Hlook.
  { intros ws Hw k. rewrite <- (list_to_map_to_list m) at 1. apply compile_list_lookup; [apply NoDup_fst_map_to_list|done]. }
  split.
  - intros (ws & Hw%map_result_Ok & <-). by apply Hlook.
  - intros Hg. assert (∃ ws, Forall2 (λ x y, f x = inr y) (map_to_list m) ws) as [ws Hw].
    { apply Forall2_choose, Forall_forall. intros [k v] Hkv%elem_of_map_to_list.
      specialize (Hg k). rewrite Hkv in Hg. inversion Hg as [? a Ha Hv Hga|]; subst. exists (k, a). by apply Hf. }
    exists ws. split; [by apply map_result_Ok|]. apply map_eq. intros k. specialize (Hlook ws Hw k). specialize (Hg k).
    destruct Hlook as [v a Ha|]; inversion Hg; subst; [|done]. f_equal. by eapply HR.
Qed.

End loop.

(** ** The JSON schema of the language

    [JSONSchema] of the payloads, the definitions and the features, and what a
    validator of the draft accepts of them.  The schema leaves three kinds of
    strings open, which [chk] can restrict further. *)

Inductive open_string := OpenExpression | OpenTag | OpenWorkflow.
Inductive schema :=
| SRef (name : string)
| SOneOf (schemas : list schema)
| SConst (literal : string)
| SString (open : open_string) (nonempty : bool)
| SEnum (values : list string)
| SArray (items_ : schema)
| SObject (properties : list (string * schema)) (required : list string).

Definition payloadUnion_JSONSchema (oneOf : list schema) : schema := SOneOf oneOf.
Definition payloadLiteral_JSONSchema (literal : string) : schema := SConst literal.
Definition payloadList_JSONSchema (itemSpec : schema) : schema := SArray itemSpec.
Definition payloadSingleKeyValue_JSONSchema (key : string) (valueSpec : schema) : schema := SObject [(key, valueSpec)] [key].
Definition payloadEnum_JSONSchema (values : list string) : schema := SEnum values.

Definition condition_def_JSONSchema (d : conditionDefinition) : schema :=
  match d with
  | andCondition => payloadSingleKeyValue_JSONSchema "and" (payloadList_JSONSchema (SRef "condition"))
  | notCondition => payloadSingleKeyValue_JSONSchema "not" (SRef "condition")
  | orCondition => payloadSingleKeyValue_JSONSchema "or" (payloadList_JSONSchema (SRef "condition"))
  | expressionCondition =>
      payloadUnion_JSONSchema [payloadSingleKeyValue_JSONSchema "expression" (SString OpenExpression true); SString OpenExpression true]
  end.
Definition action_def_JSONSchema (d : actionDefinition) : schema :=
  match d with
  | addTagAction => payloadSingleKeyValue_JSONSchema "add_tag" (payloadList_JSONSchema (SString OpenTag false))
  | findMatchAction => payloadSingleKeyValue_JSONSchema "find_match" (payloadList_JSONSchema (SRef "action_single"))
  | ifElseAction =>
      payloadSingleKeyValue_JSONSchema "if_else"
        (SObject [("condition", SRef "condition"); ("if_action", SRef "action"); ("else_action", SRef "action")] ["condition"])
  | runWorkflowAction => payloadSingleKeyValue_JSONSchema "run_workflow" (payloadList_JSONSchema (SString OpenWorkflow true))
  | setContentTypeAction => payloadSingleKeyValue_JSONSchema "set_content_type" (payloadEnum_JSONSchema (ContentTypeNames ++ ["unknown"]))
  | d => payloadLiteral_JSONSchema (action_def_name d)
  end.

Definition definitions (fs : features) : list (string * schema) :=
  [("action", SOneOf [SRef "action_single"; SRef "action_multi"]);
   ("action_multi", SArray (SRef "action_single"));
   ("action_single", SOneOf ((λ d, SRef ("action__" +:+ action_def_name d)) <$> actions fs));
   ("condition", SOneOf ((λ d, SRef ("condition__" +:+ condition_def_name d)) <$> conditions fs))]
  ++ ((λ d, ("action__" +:+ action_def_name d, action_def_JSONSchema d)) <$> actions fs)
  ++ ((λ d, ("condition__" +:+ condition_def_name d, condition_def_JSONSchema d)) <$> conditions fs).

Definition property {A} (k : string) (l : list (string * A)) : option A := (λ p, p.2.2) <$> list_find (λ p, p.1 = k) l.

Section validator.
Context (defs : list (string * schema)) (chk : open_string → string → bool).

(** The fuel bounds the depth of the schema and of the references followed. *)
Fixpoint validates (fuel : nat) (s : schema) (v : value) : bool :=
  match fuel with
  | O => false
  | S fuel =>
      match s, v with
      | SRef k, _ => match property k defs with Some s => validates fuel s v | None => false end
      | SOneOf l, _ => (length (filter (λ s, validates fuel s v = true) l) =? 1)%nat
      | SConst c, VString x => bool_decide (x = c)
      | SString o nonempty, VString x => negb (nonempty && bool_decide (x = "")) && chk o x
      | SEnum l, VString x => bool_decide (x ∈ l)
      | SArray it, VList l => forallb (validates fuel it) l
      | SObject ps required, VMap m =>
          bool_decide (NoDup m.*1)
          && forallb (λ p, match property p.1 ps with Some s => validates fuel s p.2 | None => false end) m
          && forallb (λ k, bool_decide (k ∈ m.*1)) required
      | _, _ => false
      end
  end.

Lemma validates_oneOf n l v : validates (S n) (SOneOf l) v = true → ∃ s, s ∈ l ∧ validates n s v = true.
Proof.
  cbn [validates]. intros He%Nat.eqb_eq. destruct (filter _ l) as [|s r] eqn:Ef; [done|]. exists s.
  assert (Hs : s ∈ filter (λ s, validates n s v = true) l) by (rewrite Ef; left). by apply list_elem_of_filter in Hs as [? ?].
Qed.
Lemma validates_key n k s v : validates (S n) (SObject [(k, s)] [k]) v = true → ∃ x, v = VMap [(k, x)] ∧ validates n s x = true.
Proof.
  cbn [validates]. destruct v as [| | | | |m|]; try done. intros [[Hn%bool_decide_eq_true Hall]%andb_prop Hr]%andb_prop.
  rewrite forallb_forall in Hall. cbn [forallb] in Hr. apply andb_prop in Hr as [Hk%bool_decide_eq_true _].
  assert (Hkey : ∀ p, p ∈ m → p.1 = k ∧ validates n s p.2 = true).
  { intros [k' x] Hp%list_elem_of_In%Hall. revert Hp. unfold property. cbn [list_find fst snd].
    destruct (decide (k = k')) as [->|]; [by intros|done]. }
  destruct m as [|[k0 x] [|[k1 y] m]]; [by apply not_elem_of_nil in Hk| |].
  - destruct (Hkey (k0, x)) as [H0 Hx]; [by left|]. cbn in H0, Hx. subst k0. by exists x.
  - destruct (Hkey (k0, x)) as [H0 _]; [by left|]. destruct (Hkey (k1, y)) as [H1 _]; [by right; left|]. cbn in H0, H1. subst.
    apply NoDup_cons in Hn as [Hn _]. destruct Hn. by left.
Qed.
Lemma validates_array n it v : validates (S n) (SArray it) v = true → ∃ l, v = VList l ∧ ∀ x, x ∈ l → validates n it x = true.
Proof.
  cbn [validates]. destruct v as [| | | |l| |]; try done. intros Hl. exists l. split; [done|]. rewrite forallb_forall in Hl.
  intros x Hx%list_elem_of_In. by apply Hl.
Qed.
Lemma validates_ref n k s v : property k defs = Some s → validates n (SRef k) v = true → validates (pred n) s v = true.
Proof. intros Hp. destruct n as [|n]; [done|]. cbn [validates]. by rewrite Hp. Qed.
Lemma validates_nil n s : validates n s VNil = false.
Proof.
  revert s. induction n as [|n IH]; [done|]. intros [k|l| | | | |]; try done; cbn [validates].
  - destruct (property k defs); [apply IH|done].
  - assert (filter (λ s, validates n s VNil = true) l = []) as ->; [|done].
    induction l as [|s l IHl]; [done|]. rewrite filter_cons_False; [done|]. by rewrite IH.
Qed.
End validator.

(** ** Sources that are valid under the schema *)

Section schema_sound.
Context `{HT : UnicodeTables} `{Cel} `{Decoder} `{!DecoderLaws} (env : celEnv) (names : gset string).

(** What the compiler demands of the strings that the schema leaves open. *)
Definition checks (o : open_string) (s : string) : bool :=
  match o with
  | OpenExpression => match cel_Compile env s with CelProgram _ => true | _ => false end
  | OpenTag => match ValidateTagName s with None => true | Some _ => false end
  | OpenWorkflow => bool_decide (s ∈ names)
  end.
#[local] Abbreviation accepts := (validates (definitions defaultFeatures) checks).

Lemma each_exists {A} (P : value → A → Prop) (l : list value) : (∀ v, v ∈ l → ∃ a, P v a) → ∃ r, Forall2 P l r.
Proof.
  induction l as [|v l IH]; intros Hl; [by exists []|]. destruct (Hl v) as [a Ha]; [by left|]. destruct IH as [r Hr]; [intros w Hw; apply Hl; by right|].
  exists (a :: r). by constructor.
Qed.
Lemma each_indexed {A} (P : nat → value → A → Prop) (l : list value) i :
  (∀ i v, v ∈ l → ∃ a, P i v a) → ∃ r, Forall2 (λ iv a, P iv.1 iv.2 a) (zip (seq i (length l)) l) r.
Proof.
  revert i. induction l as [|v l IH]; intros i Hl; [by exists []|]. destruct (Hl i v) as [a Ha]; [by left|].
  destruct (IH (S i)) as [r Hr]; [intros j w Hw; apply Hl; by right|]. exists (a :: r). by constructor.
Qed.
Lemma strings_of (o : open_string) (nonempty : bool) n l :
  (∀ x, x ∈ l → accepts n (SString o nonempty) x = true) → ∃ ss, l = VString <$> ss ∧ Forall (λ s, checks o s = true) ss.
Proof.
  induction l as [|x l IH]; intros Hl; [by exists []|]. destruct IH as (ss & -> & Hss); [intros y Hy; apply Hl; by right|].
  specialize (Hl x ltac:(by left)). destruct n as [|n]; [done|]. cbn [validates] in Hl. destruct x as [| | |s| | |]; try done.
  apply andb_prop in Hl as [_ Hc]. exists (s :: ss). by split; [|constructor].
Qed.

Lemma schema_condition n : ∀ v, accepts n (SRef "condition") v = true → ∃ c, cond_of env v c.
Proof.
  induction (lt_wf n) as [n _ IH]. intros v Hv.
  apply (validates_ref _ _ n _ (SOneOf ((λ d, SRef ("condition__" +:+ condition_def_name d)) <$> conditions defaultFeatures))) in Hv; [|done]. destruct (pred n) as [|k] eqn:En; [done|].
  apply validates_oneOf in Hv as (s & (d & -> & _)%list_elem_of_fmap & Hs).
  apply (validates_ref _ _ k _ (condition_def_JSONSchema d)) in Hs; [|by destruct d]. destruct (pred k) as [|k'] eqn:Ek; [done|].
  assert (Hlist : ∀ x, accepts k' (payloadList_JSONSchema (SRef "condition")) x = true → ∃ conds, (VNil ∉ items x) ∧ Forall2 (cond_of env) (items x) conds).
  { intros x Hx. destruct k' as [|k']; [done|]. apply validates_array in Hx as (l & -> & Hl). cbn [items].
    destruct (each_exists (cond_of env) l) as [conds Hc]; [intros w Hw; apply (IH k'); [lia|by apply Hl]|]. exists conds. split; [|done].
    intros Hn%Hl. by rewrite validates_nil in Hn. }
  destruct d; cbn [condition_def_JSONSchema] in Hs.
  - apply validates_key in Hs as (x & -> & (conds & Hn & Hc)%Hlist). exists (CAnd conds). by constructor.
  - apply validates_key in Hs as (x & -> & Hx). destruct (IH k' ltac:(lia) x Hx) as [c Hc]. exists (CNot c). constructor; [|done].
    intros ->. by rewrite validates_nil in Hx.
  - apply validates_key in Hs as (x & -> & (conds & Hn & Hc)%Hlist). exists (COr conds). by constructor.
  - assert (Hstr : ∀ m x, accepts m (SString OpenExpression true) x = true → ∃ t prg, x = VString t ∧ cel_Compile env t = CelProgram prg).
    { intros m x Hx. destruct m as [|m]; [done|]. cbn [validates] in Hx. destruct x as [| | |t| | |]; try done. apply andb_prop in Hx as [_ Hx].
      cbn [checks] in Hx. destruct (cel_Compile env t) as [| | |prg] eqn:E; try done. by exists t, prg. }
    apply validates_oneOf in Hs as (s & Hin & Hs). apply elem_of_cons in Hin as [->| ->%list_elem_of_singleton].
    + destruct k' as [|k']; [done|]. apply validates_key in Hs as (x & -> & (t & prg & -> & Hp)%Hstr). exists (CExpression prg). by constructor.
    + apply Hstr in Hs as (t & prg & -> & Hp). exists (CExpression prg). by constructor.
Qed.

Lemma schema_if_else n v :
  accepts n (SObject [("condition", SRef "condition"); ("if_action", SRef "action"); ("else_action", SRef "action")] ["condition"]) v = true →
  ∃ m, v = VMap m ∧ m.*1 ⊆ ["condition"; "if_action"; "else_action"] ∧ accepts (pred n) (SRef "condition") (field "condition" m) = true
    ∧ ∀ k, k ∈ ["if_action"; "else_action"] → field k m = VNil ∨ accepts (pred n) (SRef "action") (field k m) = true.
Proof.
  destruct n as [|n]; [done|]. cbn [validates pred]. destruct v as [| | | | |m|]; try done. intros [[_ Hall]%andb_prop Hr]%andb_prop.
  rewrite forallb_forall in Hall. cbn [forallb] in Hr. apply andb_prop in Hr as [Hk%bool_decide_eq_true _]. exists m. split; [done|].
  assert (Hfield : ∀ k s, property k [("condition", SRef "condition"); ("if_action", SRef "action"); ("else_action", SRef "action")] = Some s →
    ((k ∉ m.*1) ∧ field k m = VNil) ∨ accepts n s (field k m) = true).
  { intros k s Hp. unfold field. destruct (list_find (λ p, p.1 = k) m) as [[i [k' x]]|] eqn:E; [right|left].
    - apply list_find_Some in E as (Hi & Hkk & _). cbn in Hkk. subst k'. cbn. apply list_elem_of_lookup_2, list_elem_of_In, Hall in Hi.
      cbn [fst snd] in Hi. by rewrite Hp in Hi.
    - split; [|done]. intros ((k', x) & -> & Hin)%list_elem_of_fmap. apply list_find_None in E. rewrite Forall_forall in E. by apply (E _ Hin). }
  split; [|split].
  - intros k ((k', x) & -> & Hin)%list_elem_of_fmap. apply list_elem_of_In, Hall in Hin. cbn [fst snd] in Hin |- *.
    unfold property in Hin. cbn [list_find fst] in Hin. repeat (destruct (decide (_ = k')) as [<-|] in Hin; [set_solver|]). done.
  - by destruct (Hfield "condition" _ eq_refl) as [[Hn _]|Hv].
  - intros k Hin. destruct (Hfield k (SRef "action")) as [[_ Hn]|Hv]; [|by left|by right].
    by apply elem_of_cons in Hin as [->| ->%list_elem_of_singleton].
Qed.

(** One step of the actions, the shallower ones given. *)
Lemma schema_single_step n :
  (∀ m v p, (m < n)%nat → accepts m (SRef "action") v = true → ∃ a, act_of env names p v a) →
  (∀ m v p, (m < n)%nat → accepts m (SRef "action_single") v = true → ∃ a, single_of env names p v a) →
  ∀ v p, accepts n (SRef "action_single") v = true → ∃ a, single_of env names p v a.
Proof.
  intros IHa IHs v p Hv.
  apply (validates_ref _ _ n _ (SOneOf ((λ d, SRef ("action__" +:+ action_def_name d)) <$> actions defaultFeatures))) in Hv; [|done].
  destruct (pred n) as [|k] eqn:En; [done|]. apply validates_oneOf in Hv as (s & (d & -> & _)%list_elem_of_fmap & Hs).
  apply (validates_ref _ _ k _ (action_def_JSONSchema d)) in Hs; [|by destruct d]. destruct (pred k) as [|k'] eqn:Ek; [done|].
  destruct d; cbn [action_def_JSONSchema payloadLiteral_JSONSchema action_def_name] in Hs;
    try (cbn [validates] in Hs; destruct v as [| | |t| | |]; try done; apply bool_decide_eq_true in Hs; subst t; eexists; constructor; reflexivity).
  - apply validates_key in Hs as (x & -> & Hx). destruct k' as [|k']; [done|]. apply validates_array in Hx as (l & -> & Hl).
    apply strings_of in Hl as (tags & Hl & Hc). exists (AAddTag tags). constructor; [done|]. eapply Forall_impl; [exact Hc|].
    intros t Ht. cbn [checks] in Ht. by destruct (ValidateTagName t).
  - apply validates_key in Hs as (x & -> & Hx). destruct k' as [|k']; [done|]. apply validates_array in Hx as (l & -> & Hl).
    destruct (each_indexed (λ i w a, act_of env names (p ++ ["find_match"; numericPathPart i]) w a) l 0) as [acts Ha].
    { intros i w Hw. destruct (IHs k' w (p ++ ["find_match"; numericPathPart i])) as [a Ha]; [lia|by apply Hl|]. exists a. by constructor. }
    eexists. apply single_find_match; [|exact Ha]. intros Hn%Hl. by rewrite validates_nil in Hn.
  - apply validates_key in Hs as (x & -> & (m & -> & Hm & Hc & Hf)%schema_if_else). apply schema_condition in Hc as [c Hc].
    assert (Hopt : ∀ k q, k ∈ ["if_action"; "else_action"] → ∃ o, optional_of env names q (field k m) o).
    { intros key q Hk. destruct (Hf key Hk) as [->|Ha]; [exists None; constructor|]. destruct (IHa (pred k') (field key m) q) as [a Hact]; [lia|done|].
      exists (Some a). constructor; [|done]. intros Hn. rewrite Hn, validates_nil in Ha. done. }
    destruct (Hopt "if_action" (p ++ ["if_else"; "if_action"])) as [o1 Ho1]; [set_solver|].
    destruct (Hopt "else_action" (p ++ ["if_else"; "else_action"])) as [o2 Ho2]; [set_solver|].
    eexists. by eapply single_if_else; [by apply decode_ifElse_fields|..].
  - apply validates_key in Hs as (x & -> & Hx). destruct k' as [|k']; [done|]. apply validates_array in Hx as (l & -> & Hl).
    apply strings_of in Hl as (ws & Hl & Hc). exists (ARunWorkflow ws). constructor; [done|]. eapply Forall_impl; [exact Hc|].
    intros w Hw. by apply bool_decide_eq_true in Hw.
  - apply validates_key in Hs as (x & -> & Hx). destruct k' as [|k']; [done|]. cbn [validates payloadEnum_JSONSchema] in Hx.
    destruct x as [| | |t| | |]; try done. apply bool_decide_eq_true, elem_of_app in Hx as [Ht| ->%list_elem_of_singleton]; eexists; by constructor.
Qed.

(** Every value that the schema accepts, and whose open strings pass the checks
    of the compiler, is an action of the grammar. *)
Lemma schema_actions n :
  (∀ v p, accepts n (SRef "action") v = true → ∃ a, act_of env names p v a)
  ∧ ∀ v p, accepts n (SRef "action_single") v = true → ∃ a, single_of env names p v a.
Proof.
  induction (lt_wf n) as [n _ IH].
  assert (Hsingle : ∀ v p, accepts n (SRef "action_single") v = true → ∃ a, single_of env names p v a).
  { apply schema_single_step; intros m v p Hm; by apply (IH m Hm). }
  split; [|done]. intros v p Hv. apply (validates_ref _ _ n _ (SOneOf [SRef "action_single"; SRef "action_multi"])) in Hv; [|done].
  destruct (pred n) as [|k] eqn:En; [done|]. apply validates_oneOf in Hv as (s & Hin & Hs). apply elem_of_cons in Hin as [->| ->%list_elem_of_singleton].
  - destruct (proj2 (IH k ltac:(lia)) v p Hs) as [a Ha]. exists a. by constructor.
  - apply (validates_ref _ _ k _ (SArray (SRef "action_single"))) in Hs; [|done]. destruct (pred k) as [|k'] eqn:Ek; [done|].
    apply validates_array in Hs as (l & -> & Hl).
    destruct (each_indexed (λ i w a, single_of env names (p ++ [numericPathPart i]) w a) l 0) as [acts Ha].
    { intros i w Hw. by apply (proj2 (IH k' ltac:(lia))), Hl. }
    eexists. by constructor.
Qed.
End schema_sound.

Lemma map_result_all {A B} (f : A → result B) l : (∀ x, x ∈ l → ∃ y, f x = inr y) → ∃ r, map_result f l = inr r.
Proof.
  induction l as [|x l IH]; intros Hl; [by exists []|]. destruct (Hl x) as [y Hy]; [by left|]. destruct IH as [r Hr]; [intros z Hz; apply Hl; by right|].
  exists (y :: r). cbn [map_result]. rewrite Hy. cbn. by rewrite Hr.
Qed.
Lemma default_members d : d ∈ actions defaultFeatures.
Proof. destruct d; cbn; set_solver. Qed.

Lemma act_of_fun `{UnicodeTables} `{Cel} `{!Decoder} `{!DecoderLaws} env names p v a b :
  act_of env names p v a → act_of env names p v b → a = b.
Proof.
  rewrite <- !(compileAction_act_of env names defaultFeatures eq_refl default_members). congruence.
Qed.

Lemma compile_workflow_Ok `{UnicodeTables} `{Cel} `{!Decoder} `{!DecoderLaws} env source k v q :
  compile_workflow env source (k, v) = inr q ↔ q.1 = k ∧ act_of env (workflowNames source) ["workflows"; k] v q.2.
Proof.
  rewrite <- (compileAction_act_of env (workflowNames source) defaultFeatures eq_refl default_members).
  unfold compile_workflow, child. cbn [fst snd path app]. destruct q as [k' a]. destruct (compileAction _ _ _ _); naive_solver.
Qed.

Lemma compile_flag_Ok source k t q :
  compile_flag source (k, t) = inr q ↔ q.1 = k ∧ ∃ raw, Flags source !! k = Some raw ∧ celVal t raw = inr q.2.
Proof.
  unfold compile_flag. cbn [fst snd]. destruct q as [k' c]. destruct (Flags source !! k) as [raw|]; [|naive_solver]. cbn [fst snd].
  destruct (celVal t raw) as [e|c'] eqn:E.
  - split; [done|]. intros (_ & raw' & [= <-] & Hc). congruence.
  - split; [intros [= <- <-]; split; [done|by exists raw]|]. intros (-> & raw' & [= <-] & Hc). congruence.
Qed.

Lemma compile_spec `{UnicodeTables} `{Cel} `{!Decoder} `{!DecoderLaws} (celEnvOption : Source → result celEnv) source r :
  Compile celEnvOption source = inr r ↔
  ∃ env, celEnvOption source = inr env ∧ flagDefinitions r = FlagDefinitions source
    ∧ (∀ k, option_Forall2 (act_of env (workflowNames source) ["workflows"; k]) (Workflows source !! k) (workflows r !! k))
    ∧ ∀ k, option_Forall2 (λ t c, ∃ raw, Flags source !! k = Some raw ∧ celVal t raw = inr c)
        (FlagDefinitions source !! k) (compiledFlags r !! k).
Proof.
  unfold Compile. destruct (celEnvOption source) as [e|env]; [split; [done|naive_solver]|]. rewrite result_bind_Ok. setoid_rewrite result_bind_Ok.
  pose proof (λ HR, compile_map (compile_workflow env source)
    (λ k, act_of env (workflowNames source) ["workflows"; k]) (compile_workflow_Ok env source) HR (Workflows source) (workflows r)) as Hw.
  pose proof (λ HR, compile_map (compile_flag source)
    (λ k t c, ∃ raw, Flags source !! k = Some raw ∧ celVal t raw = inr c) (compile_flag_Ok source) HR (FlagDefinitions source) (compiledFlags r)) as Hc.
  specialize (Hw (λ k v a b Ha Hb, act_of_fun env _ _ v a b Ha Hb)). specialize (Hc ltac:(intros k t a b (raw & Hr & Ha) (raw' & Hr' & Hb); congruence)).
  split.
  - intros (ws & Hws & cfs & Hcfs & [= <-]). exists env. cbn in *. repeat split; [apply Hw; by exists ws|apply Hc; by exists cfs].
  - intros (env' & [= <-] & Hd & Hws & Hcfs). apply Hw in Hws as (ws & Hws & Hmw). apply Hc in Hcfs as (cfs & Hcfs & Hmc).
    exists ws. split; [done|]. exists cfs. split; [done|]. destruct r; cbn in *. by subst.
Qed.

(** A source that the schema accepts, with meaningful open strings and flags,
    compiles. *)
Lemma schema_compiles `{UnicodeTables} `{Cel} `{!Decoder} `{!DecoderLaws} (celEnvOption : Source → result celEnv) source env n :
  celEnvOption source = inr env →
  (∀ k v, Workflows source !! k = Some v → validates (definitions defaultFeatures) (checks env (workflowNames source)) n (SRef "action") v = true) →
  (∀ k t, FlagDefinitions source !! k = Some t → ∃ raw c, Flags source !! k = Some raw ∧ celVal t raw = inr c) →
  ∃ r, Compile celEnvOption source = inr r.
Proof.
  intros He Hw Hf.
  assert (Hws : ∃ ws, map_result (compile_workflow env source) (map_to_list (Workflows source)) = inr ws).
  { apply map_result_all. intros [k v] Hk%elem_of_map_to_list. destruct (proj1 (schema_actions env (workflowNames source) n) v ["workflows"; k] (Hw k v Hk)) as [a Ha].
    exists (k, a). by apply compile_workflow_Ok. }
  assert (Hfs : ∃ cfs, map_result (compile_flag source) (map_to_list (FlagDefinitions source)) = inr cfs).
  { apply map_result_all. intros [k t] Hk%elem_of_map_to_list. destruct (Hf k t Hk) as (raw & c & Hr & Hc). exists (k, c). apply compile_flag_Ok.
    split; [done|]. by exists raw. }
  destruct Hws as [ws Hws], Hfs as [cfs Hfs]. unfold Compile. rewrite He, Hws. cbn. rewrite Hfs. by eexists.
Qed.

(** C9: the compiler accepts a source exactly when each of its workflows is a
    sentence of the grammar [act_of], which is wider than the JSON schema of the
    language, and each declared flag has a value of its type; then the runner
    holds, for every workflow and flag and no other, what the grammar
    prescribes: no definition takes a source meant for another, no error is
    lost, and a workflow that is run by name exists.  In particular every source
    is accepted whose workflows the JSON schema accepts, whose expressions
    compile, whose tags are valid and whose workflow names exist, and whose
    declared flags have values of their types. *)
Theorem compile_exact `{UnicodeTables} `{Cel} `{!Decoder} `{!DecoderLaws} (celEnvOption : Source → result celEnv) source :
  (∀ r, Compile celEnvOption source = inr r ↔
    ∃ env, celEnvOption source = inr env ∧ flagDefinitions r = FlagDefinitions source
      ∧ (∀ k, option_Forall2 (act_of env (workflowNames source) ["workflows"; k]) (Workflows source !! k) (workflows r !! k))
      ∧ ∀ k, option_Forall2 (λ t c, ∃ raw, Flags source !! k = Some raw ∧ celVal t raw = inr c)
          (FlagDefinitions source !! k) (compiledFlags r !! k))
  ∧ ∀ env n, celEnvOption source = inr env →
      (∀ k v, Workflows source !! k = Some v → validates (definitions defaultFeatures) (checks env (workflowNames source)) n (SRef "action") v = true) →
      (∀ k t, FlagDefinitions source !! k = Some t → ∃ raw c, Flags source !! k = Some raw ∧ celVal t raw = inr c) →
      ∃ r, Compile celEnvOption source = inr r.
Proof. split; [intros r; apply compile_spec|intros env n; apply schema_compiles]. Qed.

(** ** A decoder and an expression language to evaluate with *)

Definition key_ok (p : string * value) : bool := bool_decide (p.1 ∈ ["condition"; "if_action"; "else_action"]).
#[export] Instance plain_decoder : Decoder := {
  decode_string v := match v with VString s => Some s | VNil => Some "" | _ => None end;
  decode_map v := match v with VMap m => Some m | VNil => Some [] | _ => None end;
  decode_ifElse v :=
    match v with
    | VNil => Some (mkIfElse VNil VNil VNil)
    | VMap m => if forallb key_ok m then Some (mkIfElse (field "condition" m) (field "if_action" m) (field "else_action" m)) else None
    | _ => None
    end }.

Lemma field_elem k m : field k m = VNil ∨ field k m ∈ m.*2.
Proof.
  unfold field. destruct (list_find _ m) as [[i [k' v]]|] eqn:E; [right|by left].
  apply list_find_Some in E as (Hi & _). cbn. apply list_elem_of_fmap. exists (k', v). split; [done|]. by eapply list_elem_of_lookup_2.
Qed.

#[export] Instance plain_decoder_laws : @DecoderLaws plain_decoder.
Proof.
  split; cbn; try done.
  - intros m Hm. assert (forallb key_ok m = true) as ->; [|done]. apply forallb_forall. intros [k v] Hk%list_elem_of_In.
    apply bool_decide_eq_true_2. apply Hm. apply list_elem_of_fmap. by exists (k, v).
  - intros v p. destruct v as [| | | | |m|]; try done; [naive_solver|]. destruct (forallb key_ok m); [|done]. intros [= <-].
    right. exists m. split; [done|]. cbn. do 3 (apply Forall_cons; split; [apply field_elem|]). constructor.
Qed.

(** Expressions are their own programs, and the empty one does not compile. *)
#[export] Instance text_cel : Cel :=
  {| program := string; celEnv := unit; cel_Compile _ s := if bool_decide (s = "") then CelIssues else CelProgram s |}.

Definition sample_source : Source :=
  mkSource {[ "default" := VList [VMap [("if_else", VMap [("condition", VMap [("or", VList [VString "a"; VMap [("not", VString "b")]])]);
                                                     ("if_action", VString "delete")])];
                            VMap [("find_match", VList [VString "parse_date"; VMap [("add_tag", VList [VString "x"])]; VString "unmatched"])];
                            VMap [("run_workflow", VList [VString "policy"])]];
              "policy" := VMap [("set_content_type", VString "movie")] ]}
    {[ "delete_xxx" := FlagTypeBool; "types" := FlagTypeContentTypeList ]}
    {[ "delete_xxx" := VBool true; "types" := VList [VString "XXX"; VString "unknown"] ]} ∅ ∅.
Definition sample_runner : runner :=
  mkRunner {[ "delete_xxx" := FlagTypeBool; "types" := FlagTypeContentTypeList ]}
    {[ "delete_xxx" := CelBool true; "types" := CelTypes ["xxx"; "unknown"] ]}
    {[ "default" := ASequence [
         AIfElse (COr [CExpression "a"; CNot (CExpression "b")])
           (Some (ADelete ["workflows"; "default"; "[0]"; "if_else"; "if_action"; "delete"])) None;
         AFindMatch ["workflows"; "default"; "[1]"; "find_match"] [AParseDate; AAddTag ["x"];
           AUnmatched ["workflows"; "default"; "[1]"; "find_match"; "[2]"; "unmatched"]];
         ARunWorkflow ["policy"]];
       "policy" := ASetContentType (mkNull "movie" true false) ]}.

(** What the compiler accepts and the schema does not: an item in place of an
    array, an array among the items of [find_match], and a workflow with an empty
    name. *)
Definition wider : list value :=
  [VMap [("add_tag", VString "x")]; VMap [("find_match", VList [VList [VString "delete"]])]; VMap [("run_workflow", VList [VString ""])]].
Definition wider_source (v : value) : Source := mkSource {[ "w" := v; "" := VString "delete" ]} ∅ ∅ ∅ ∅.
Example schema_narrower :
  Forall (λ v, match @Compile Regex.ascii_tables text_cel plain_decoder (λ _, inr tt) (wider_source v) with inr _ => True | inl _ => False end
               ∧ validates (definitions defaultFeatures) (λ _ _, true) 40 (SRef "action") v = false) wider.
Proof. unfold wider. do 3 (apply Forall_cons; split; [split; vm_compute; [exact I|reflexivity]|]). apply Forall_nil, I. Qed.

Lemma compile_exact_witness :
  @Compile Regex.ascii_tables text_cel plain_decoder (λ _, inr tt) sample_source = inr sample_runner
  ∧ @act_of Regex.ascii_tables text_cel plain_decoder tt {["default"; "policy"]} ["workflows"; "policy"]
      (VMap [("set_content_type", VString "movie")]) (ASetContentType (mkNull "movie" true false))
  ∧ ∃ r, @Compile Regex.ascii_tables text_cel plain_decoder (λ _, inr tt) sample_source = inr r.
Proof.
  destruct (@compile_exact Regex.ascii_tables text_cel plain_decoder plain_decoder_laws (λ _, inr tt) sample_source) as [Hexact Hschema].
  assert (@Compile Regex.ascii_tables text_cel plain_decoder (λ _, inr tt) sample_source = inr sample_runner) as E.
  { vm_compute. reflexivity. }
  split; [exact E|]. split.
  - apply Hexact in E as (env & He & _ & Hw & _). destruct env. specialize (Hw "policy"). vm_compute in Hw. inversion Hw; subst. assumption.
  - apply (Hschema tt 40); [done|..].
    + apply map_Forall_lookup, map_Forall_insert_2; [vm_compute; reflexivity|]. apply map_Forall_singleton. vm_compute. reflexivity.
    + apply map_Forall_lookup, map_Forall_insert_2; [exists (VBool true), (CelBool true); split; vm_compute; reflexivity|].
      apply map_Forall_singleton. exists (VList [VString "XXX"; VString "unknown"]), (CelTypes ["xxx"; "unknown"]). split; vm_compute; reflexivity.
Defined.

End Workflow.
