(* ===== verification/Csam.v ===== *)
(** * The blocklist of forbidden hashes

    [internal/csamblocklist]: community feeds of double hashes (the SHA-256 of
    an info hash), loaded into a bloom filter that the crawler asks before it
    fetches any metadata, and the log of double hashes that this instance
    itself has seen.

    [doublehash.go] and [feed.go] are modelled on byte strings, with the line
    scanner of [bufio] and its limit on the length of a line; [service.go] and
    [noop.go] as a state with the cache of the last good entries of each feed;
    [export.go] as a machine that lists what it does to the file system and the
    network.  A feed is fetched by HTTP: what a fetch returns is an argument.
    The bloom filter (bits-and-blooms) is an interface whose laws say that what
    was added is found.  Metrics and log lines are left out, and the entries of
    the cache, a Go map, are visited in an order that is an argument. *)
From S2P Require Import Prelude Protocol SHA256 Lexer Metainfo Regex Keywords.
From stdpp Require Import gmap list strings sets sorting.
From Stdlib Require Import ZArith QArith Lia.
Local Close Scope Q_scope.
Local Open Scope nat_scope.

Module Csam.
Import Protocol Metainfo.

(** ** Double hashes (doublehash.go) *)

Definition DoubleHashLen : nat := 32.
Abbreviation digest := (list Z).

Definition DoubleHash (infoHash : ID) : digest := SHA256.Sum256 infoHash.
Definition DoubleHashHex (infoHash : ID) : string := hex_encode (DoubleHash infoHash).

(** [strings.TrimSpace] on the bytes of a string: the length of the space that
    a string starts with, and of the space it ends with. *)
Definition leading_space (s : bytes) : nat :=
  match s with
  | [] => 0
  | b :: s' => let '(r, w, _) := decode_rune b s' in if IsSpace r then w else 0
  end.
Definition ends_with_space (s : bytes) (n : nat) : bool :=
  (n <=? length s) && (leading_space (drop (length s - n) s) =? n).
Definition trailing_space (s : bytes) : nat :=
  if ends_with_space s 1 then 1 else if ends_with_space s 2 then 2 else if ends_with_space s 3 then 3 else 0.

Fixpoint trim_leading (fuel : nat) (s : bytes) : bytes :=
  match fuel with
  | O => s
  | S fuel => match leading_space s with O => s | n => trim_leading fuel (drop n s) end
  end.
Fixpoint trim_trailing (fuel : nat) (s : bytes) : bytes :=
  match fuel with
  | O => s
  | S fuel => match trailing_space s with O => s | n => trim_trailing fuel (take (length s - n) s) end
  end.
Definition TrimSpaceBytes (s : bytes) : bytes :=
  let s := trim_leading (length s) s in trim_trailing (length s) s.

Section double_hash.
Context `{Unicode}.

(** [strings.ToLower(s) != s]: a rune with a lower case of its own, or a byte
    that is no UTF-8, which [ToLower] replaces. *)
Definition not_lower (s : bytes) : bool :=
  existsb (λ x, negb x.2 || negb (ToLower x.1 =? x.1)%Z) (decode_loop 0 s).

Inductive dhError := ErrEmpty | ErrLength | ErrNotLower | ErrNotHex.

Definition ParseDoubleHashHex (s : bytes) : outcome dhError digest :=
  let s := TrimSpaceBytes s in
  if bool_decide (s = []) then Err ErrEmpty
  else if negb (length s =? DoubleHashLen * 2) then Err ErrLength
  else if not_lower s then Err ErrNotLower
  else match hex_decode s with
       | Ok b => Ok (fst (copy_into (replicate DoubleHashLen 0%Z) b))
       | Err _ => Err ErrNotHex
       | Panic => Panic
       end.

(** ** Feeds (feed.go) *)

(** What a reader yields, and the error after it when it is not the end. *)
Record reader := mkReader { r_data : bytes; r_err : option string }.

(** [io.LimitReader]: the end is reported at the limit, whatever follows. *)
Definition LimitReader (r : reader) (n : Z) : reader :=
  if (len (r_data r) <? n)%Z then r else mkReader (take (Z.to_nat n) (r_data r)) None.

(** [bufio.Scanner] with [ScanLines] and a buffer of at most 1024 bytes: a
    line is too long when it does not fit the buffer with its newline.  The
    reader reports its end on its own, not together with the last bytes. *)
Definition maxTokenSize : nat := Z.to_nat 1024.
Definition dropCR (line : bytes) : bytes :=
  match last line with Some c => if (c =? 13)%Z then take (length line - 1) line else line | None => line end.

(** The lines, and whether one was too long; [acc] is the line so far. *)
Fixpoint scan_lines (acc data : bytes) : list bytes * bool :=
  match data with
  | [] => (match acc with [] => [] | _ => [dropCR acc] end, false)
  | b :: data =>
      if (b =? 10)%Z then let '(lines, long) := scan_lines [] data in (dropCR acc :: lines, long)
      else if maxTokenSize <=? S (length acc) then ([], true)
      else scan_lines (acc ++ [b]) data
  end.

Inductive feedError :=
| ErrBuildRequest (e : string)
| ErrFetch (e : string)
| ErrStatus (code : Z)
| ErrTooBig
| ErrTooLong
| ErrRead (e : string).

(** [strings.IndexByte(s, '#')] and what the code keeps of the line. *)
Definition strip_comment (s : bytes) : bytes :=
  match list_find (λ c, c = 35%Z) s with
  | Some (i, _) => TrimSpaceBytes (take i s)
  | None => s
  end.

Definition feed_line (line : bytes) : bytes := strip_comment (TrimSpaceBytes line).

(** The body of the loop of [parseFeed]; [total] is [totalBytes]. *)
Fixpoint parse_lines (maxBytes total : Z) (seen : gset digest) (out : list digest) (parseErrs : Z)
    (lines : list bytes) : outcome feedError (list digest * Z) :=
  match lines with
  | [] => Ok (out, parseErrs)
  | line :: lines =>
      let total := (total + len line + 1)%Z in
      if (maxBytes <? total)%Z then Err ErrTooBig
      else
        let s := feed_line line in
        if bool_decide (s = []) then parse_lines maxBytes total seen out parseErrs lines
        else match ParseDoubleHashHex s with
             | Ok dh =>
                 if bool_decide (dh ∈ seen) then parse_lines maxBytes total seen out parseErrs lines
                 else parse_lines maxBytes total ({[dh]} ∪ seen) (out ++ [dh]) parseErrs lines
             | Err _ => parse_lines maxBytes total seen out (parseErrs + 1)%Z lines
             | Panic => Panic
             end
  end.

Definition parseFeed (r : reader) (maxBytes : Z) : outcome feedError (list digest * Z) :=
  let '(lines, long) := scan_lines [] (r_data r) in
  res ← parse_lines maxBytes 0 ∅ [] 0 lines;
  if long : bool then Err ErrTooLong
  else match r_err r with Some e => Err (ErrRead e) | None => Ok res end.

(** ** Configuration (config.go), as far as the model reads it *)

Record Config := mkConfig {
  Enabled : bool;
  FeedUrls : list string;
  FeedMaxBytes : Z;
  BloomCapacity : Z;
  BloomFalsePositiveRate : Q;
  ExportEnabled : bool;
  ExportFilePath : string;
  ExportUpstreamURL : string;
  ExportUpstreamAuthHeader : string
}.

Definition HasAnyFeed (c : Config) : bool := existsb (λ u, negb (bool_decide (u = ""%string))) (FeedUrls c).

(** What an HTTP request for a feed comes to. *)
Inductive http_result :=
| RequestNotBuilt (e : string)
| RequestFailed (e : string)
| Response (status : Z) (body : reader).

Definition fetchFeed (cfg : Config) (h : http_result) : outcome feedError (list digest) :=
  match h with
  | RequestNotBuilt e => Err (ErrBuildRequest e)
  | RequestFailed e => Err (ErrFetch e)
  | Response status body =>
      if (status <? 200)%Z || (300 <=? status)%Z then Err (ErrStatus status)
      else
        let limit := if (FeedMaxBytes cfg <=? 0)%Z then (64 * 1024 * 1024)%Z else FeedMaxBytes cfg in
        '(entries, _) ← parseFeed (LimitReader body (int64 (limit + 1))) limit;
        Ok entries
  end.

(** ** The service (service.go) *)

(** bits-and-blooms/bloom *)
Class Bloom (B : Type) := {
  NewWithEstimates : Z → Q → B;
  Add : B → bytes → B;
  Test : B → bytes → bool
}.
Class BloomLaws (B : Type) `{!Bloom B} := {
  Test_Add b x : Test (Add b x) x = true;
  Test_Add_mono b x y : Test b x = true → Test (Add b y) x = true
}.

Record FeedStatus := mkFeedStatus {
  URL : string;
  LastSuccessAt : Z;
  LastError : option feedError;
  LastErrorAt : Z;
  ConsecutiveErrs : Z;
  EntriesContributed : Z
}.
Definition FeedStatus_zero : FeedStatus := mkFeedStatus ""%string 0 None 0 0 0.

(** What one round of the feeds returned, in the order of the feeds. *)
Abbreviation results := (list (string * outcome feedError (list digest))).

Section service.
Context {B : Type} `{!Bloom B}.

Record service := mkService {
  cfg : Config;
  active : option B;
  perFeed : gmap string FeedStatus;
  lastGoodEntries : gmap string (list digest);
  lastRefreshAt : Z;
  entryCount : Z
}.

Definition maxUint (a b : Z) : Z := if (b <? a)%Z then a else b.

Definition emptyBloom (c : Config) : B := NewWithEstimates (maxUint (BloomCapacity c) 1) (BloomFalsePositiveRate c).

Definition nonempty_urls (c : Config) : list string := filter (λ u, u ≠ ""%string) (FeedUrls c).

Definition NewService (c : Config) : service :=
  mkService c (Some (emptyBloom c))
    (foldl (λ m u, <[u := mkFeedStatus u 0 None 0 0 0]> m) ∅ (nonempty_urls c)) ∅ 0 0.

Definition IsBlocked (s : service) (infoHash : ID) : bool :=
  match active s with
  | None => false
  | Some bf => Test bf (DoubleHash infoHash)
  end.

(** [Filter] appends to [infoHashes[:0:len(infoHashes)]]: the result shares
    the array it reads.  [w] hashes were kept of the first [i]. *)
Fixpoint Filter_loop (bf : B) (fuel i w : nat) (arr : list ID) : list ID * nat :=
  match fuel with
  | O => (arr, w)
  | S fuel =>
      match arr !! i with
      | None => (arr, w)
      | Some h =>
          if Test bf (DoubleHash h) then Filter_loop bf fuel (S i) w arr
          else Filter_loop bf fuel (S i) (S w) (<[w := h]> arr)
      end
  end.

(** The array of the argument after the call, and the result. *)
Definition Filter (s : service) (infoHashes : list ID) : list ID * list ID :=
  match active s with
  | None => (infoHashes, infoHashes)
  | Some bf =>
      let '(arr, w) := Filter_loop bf (length infoHashes) 0 0 infoHashes in (arr, take w arr)
  end.

(** The state that [Refresh] changes under its lock for one result; [now] is
    the clock. *)
Definition apply_result (now : Z) (s : service) (r : string * outcome feedError (list digest)) : service :=
  let '(url, res) := r in
  let st := default FeedStatus_zero (perFeed s !! url) in
  match res with
  | Ok entries =>
      mkService (cfg s) (active s)
        (<[url := mkFeedStatus url now None (LastErrorAt st) 0 (len entries)]> (perFeed s))
        (<[url := entries]> (lastGoodEntries s)) (lastRefreshAt s) (entryCount s)
  | Err e =>
      mkService (cfg s) (active s)
        (<[url := mkFeedStatus url (LastSuccessAt st) (Some e) now (ConsecutiveErrs st + 1)
                    (len (default [] (lastGoodEntries s !! url)))]> (perFeed s))
        (lastGoodEntries s) (lastRefreshAt s) (entryCount s)
  | Panic => s
  end.

Definition first_failure (rs : results) : option (string * feedError) :=
  head (omap (λ r, match r.2 with Err e => Some (r.1, e) | _ => None end) rs).

(** The union of the caches, visited in [order]. *)
Definition union_bloom (c : Config) (m : gmap string (list digest)) (order : list string) : B :=
  foldl (λ bf u, foldl Add bf (default [] (m !! u))) (emptyBloom c) order.
Definition total_entries (m : gmap string (list digest)) (order : list string) : Z :=
  foldl (λ n u, n + len (default [] (m !! u)))%Z 0%Z order.

(** [http] gives what the request for the i-th feed comes to. *)
Definition feed_results (c : Config) (http : nat → http_result) : results :=
  imap (λ i u, (u, fetchFeed c (http i))) (nonempty_urls c).

Definition Refresh (now : Z) (http : nat → http_result) (order : list string) (s : service)
  : service * option (string * feedError) :=
  match nonempty_urls (cfg s) with
  | [] => (mkService (cfg s) (Some (emptyBloom (cfg s))) (perFeed s) ∅ now 0, None)
  | _ =>
      let rs := feed_results (cfg s) http in
      let s := foldl (apply_result now) s rs in
      let m := lastGoodEntries s in
      (mkService (cfg s) (Some (union_bloom (cfg s) m order)) (perFeed s) m now (total_entries m order),
       first_failure rs)
  end.

(** The manager the factory returns: no operation, or the service. *)
Inductive Manager := NoOp | Live (s : service).

Definition New (c : Config) : Manager :=
  if negb (Enabled c) then NoOp else if negb (HasAnyFeed c) then NoOp else Live (NewService c).

Definition Manager_IsBlocked (m : Manager) (h : ID) : bool :=
  match m with NoOp => false | Live s => IsBlocked s h end.
Definition Manager_Filter (m : Manager) (hs : list ID) : list ID * list ID :=
  match m with NoOp => (hs, hs) | Live s => Filter s hs end.
Definition Manager_Refresh (now : Z) (http : nat → http_result) (order : list string) (m : Manager)
  : Manager * option (string * feedError) :=
  match m with
  | NoOp => (NoOp, None)
  | Live s => let '(s, e) := Refresh now http order s in (Live s, e)
  end.
Definition Manager_Enabled (m : Manager) : bool := match m with NoOp => false | Live _ => true end.

Record Snapshot_ := mkSnapshot { SEntryCount : Z; SBloomCapacity : Z; SLastRefreshAt : Z; SPerFeed : gmap string FeedStatus }.
Definition Snapshot (s : service) : Snapshot_ :=
  mkSnapshot (entryCount s) (BloomCapacity (cfg s)) (lastRefreshAt s) (perFeed s).
Definition Manager_Snapshot (m : Manager) : Snapshot_ :=
  match m with NoOp => mkSnapshot 0 0 0 ∅ | Live s => Snapshot s end.

End service.

Arguments service : clear implicits.
Arguments Manager : clear implicits.

(** ** Trimming *)

(** A character of ASCII that is no space. *)
Definition solid (c : Z) : Prop := (33 ≤ c < 127)%Z.

Lemma solid_not_space c : solid c → IsSpace c = false.
Proof.
  intros Hc. apply not_true_is_false. unfold solid, IsSpace in *. intros Hs.
  repeat (apply orb_true_iff in Hs as [Hs | Hs]); bool_hyps; lia.
Qed.

Lemma decode_rune_cont b s r w ok :
  decode_rune b s = (r, w, ok) → Forall (λ c, cont c = true) (take (w - 1) s).
Proof.
  assert (∀ x lo hi, (128 ≤ lo)%Z → (hi ≤ 191)%Z → in_range x lo hi = true → cont x = true) as Hr.
  { intros x lo hi Hlo Hhi Hx. unfold cont, in_range in *. bool_hyps. apply andb_true_iff.
    split; apply Z.leb_le; lia. }
  unfold decode_rune. intros Hd.
  destruct (b <? 128)%Z; [by simplify_eq; constructor|].
  destruct (in_range b 194 223); [|destruct (in_range b 224 239); [|destruct (in_range b 240 244)]];
    [| | |by simplify_eq; constructor].
  - destruct s as [|b1 s]; [by simplify_eq; constructor|].
    destruct (cont b1) eqn:?; simplify_eq; repeat constructor; done.
  - destruct s as [|b1 [|b2 s]]; [by simplify_eq; constructor..|].
    destruct (in_range b1 _ _ && cont b2) eqn:Hc; simplify_eq; [|constructor]. bool_hyps.
    repeat constructor; [|done]. eapply Hr; [| |done]; case_goal; lia.
  - destruct s as [|b1 [|b2 [|b3 s]]]; [by simplify_eq; constructor..|].
    destruct (in_range b1 _ _ && cont b2 && cont b3) eqn:Hc; simplify_eq; [|constructor]. bool_hyps.
    repeat constructor; [|done..]. eapply Hr; [| |done]; case_goal; lia.
Qed.

Lemma leading_space_ascii c s : (0 ≤ c < 128)%Z → leading_space (c :: s) = if IsSpace c then 1 else 0.
Proof. intros Hc. unfold leading_space, decode_rune. by rewrite (proj2 (Z.ltb_lt c 128)) by lia. Qed.

(** Space at the end does not reach over a character that is none. *)
Lemma trailing_space_le x c y : solid c → trailing_space (x ++ c :: y) ≤ length y.
Proof.
  intros Hc. assert (∀ n, 1 ≤ n → ends_with_space (x ++ c :: y) n = true → n ≤ length y) as Hn.
  { intros n Hn He. unfold ends_with_space in He. bool_hyps.
    match goal with H : (_ <=? _) = true |- _ => apply Nat.leb_le in H; rewrite length_app in H; simpl in H end.
    match goal with H : (_ =? _)%nat = true |- _ => apply Nat.eqb_eq in H; rename H into He end.
    destruct (Nat.le_gt_cases n (length y)) as [? | Hgt]; [done|exfalso].
    rewrite length_app in He. simpl in He.
    rewrite drop_app_le in He by lia. replace (length x + S (length y) - n) with (length x - (n - S (length y))) in He by lia.
    destruct (drop (length x - (n - S (length y))) x) as [|b z] eqn:Hd; simpl in He.
    - pose proof (decode_rune c y) as D. unfold solid in Hc.
      change (leading_space (c :: y) = n) in He. rewrite leading_space_ascii, solid_not_space in He by (unfold solid; lia). lia.
    - destruct (decode_rune b (z ++ c :: y)) as [[r w] ok] eqn:Hdec.
      apply decode_rune_cont in Hdec. destruct (IsSpace r); [|lia]. subst w.
      apply (f_equal length) in Hd. rewrite length_drop in Hd. simpl in Hd.
      rewrite take_ge in Hdec by (rewrite length_app; simpl; lia).
      apply Forall_app in Hdec as [_ Hdec]. apply Forall_cons in Hdec as [Hcc _].
      unfold cont, in_range, solid in *. bool_hyps. lia. }
  unfold trailing_space. repeat case_match; try lia; apply Hn; auto with lia.
Qed.

Lemma trailing_space_solid x c : solid c → trailing_space (x ++ [c]) = 0.
Proof. intros Hc. pose proof (trailing_space_le x c [] Hc) as H'. simpl in H'. lia. Qed.

Lemma trailing_space_32 x c : solid c → trailing_space (x ++ [c; 32%Z]) = 1.
Proof.
  intros Hc. unfold trailing_space, ends_with_space. rewrite length_app. simpl length.
  replace (length x + 2 - 1) with (length x + 1) by lia. rewrite drop_app_add'; [|done]. cbn.
  by rewrite Nat.add_comm.
Qed.

Lemma trim_trailing_hash fuel x y : ∃ y', trim_trailing fuel (x ++ 35%Z :: y) = x ++ 35%Z :: y'.
Proof.
  revert y. induction fuel as [|fuel IH]; intros y; simpl; [eauto|].
  pose proof (trailing_space_le x 35 y ltac:(unfold solid; lia)) as Hle.
  destruct (trailing_space (x ++ 35%Z :: y)) as [|n] eqn:Hn; [eauto|].
  rewrite length_app. simpl. rewrite take_app, take_ge by lia.
  replace (length x + S (length y) - S n - length x) with (S (length y - S n)) by lia. apply IH.
Qed.

Lemma trim_leading_solid fuel c s : solid c → trim_leading fuel (c :: s) = c :: s.
Proof.
  intros Hc. destruct fuel; [done|]. simpl trim_leading.
  unfold solid in Hc. change (match leading_space (c :: s) with 0 => c :: s | S n => trim_leading fuel (drop (S n) (c :: s)) end = c :: s).
  by rewrite leading_space_ascii, solid_not_space by (unfold solid; lia).
Qed.

Lemma trim_trailing_solid fuel x c : solid c → trim_trailing fuel (x ++ [c]) = x ++ [c].
Proof. intros Hc. destruct fuel; [done|]. simpl. by rewrite trailing_space_solid. Qed.

(** A text of solid characters is not trimmed, and one space after it is. *)
Lemma TrimSpace_solid s : Forall solid s → TrimSpaceBytes s = s.
Proof.
  intros Hs. destruct s as [|c s]; [done|]. unfold TrimSpaceBytes.
  inversion Hs; subst. rewrite trim_leading_solid by done.
  destruct (c :: s) as [|d l _] using rev_ind; [done|]. apply trim_trailing_solid.
  apply Forall_app in Hs as [_ Hs]. by inversion Hs.
Qed.

Lemma TrimSpace_solid_space s : s ≠ [] → Forall solid s → TrimSpaceBytes (s ++ [32%Z]) = s.
Proof.
  intros Hne Hs. destruct s as [|c s]; [done|]. unfold TrimSpaceBytes. inversion Hs; subst.
  simpl app. rewrite trim_leading_solid by done. change (c :: s ++ [32%Z]) with ((c :: s) ++ [32%Z]).
  destruct (c :: s) as [|d l _] using rev_ind; [done|]. rewrite <-app_assoc. simpl app.
  apply Forall_app in Hs as [_ Hs]. inversion Hs; subst.
  rewrite length_app. simpl length. rewrite Nat.add_comm. simpl trim_trailing.
  rewrite trailing_space_32 by done. rewrite length_app. simpl length.
  replace (length l + 2 - 1) with (length l + 1) by lia. rewrite take_app_add'; [|done]. simpl.
  rewrite trailing_space_solid by done. done.
Qed.

(** ** Feeds as documents *)

Definition digest_ok (d : digest) : Prop := length d = DoubleHashLen ∧ bytes_ok d.

(** A line of a feed: a digest, a digest with a comment, a comment, or
    nothing. *)
Inductive feed_entry :=
| FDigest (d : digest)
| FAnnotated (d : digest) (note : bytes)
| FComment (note : bytes)
| FBlank.

Definition note_ok (note : bytes) : Prop := (10%Z ∉ note) ∧ (len note < 900)%Z.
Definition entry_ok (e : feed_entry) : Prop :=
  match e with
  | FDigest d => digest_ok d
  | FAnnotated d note => digest_ok d ∧ note_ok note
  | FComment note => note_ok note
  | FBlank => True
  end.

Definition entry_text (e : feed_entry) : bytes :=
  match e with
  | FDigest d => hex_codes d
  | FAnnotated d note => hex_codes d ++ 32%Z :: 35%Z :: note
  | FComment note => 35%Z :: note
  | FBlank => []
  end.
Definition entry_digest (e : feed_entry) : option digest :=
  match e with FDigest d | FAnnotated d _ => Some d | _ => None end.

Definition feed_text (eol : bytes) (es : list feed_entry) : bytes := es ≫= (λ e, entry_text e ++ eol).

(** The first occurrences, in order. *)
Definition dedup (ds : list digest) : list digest :=
  foldl (λ out d, if bool_decide (d ∈ out) then out else out ++ [d]) [] ds.

Lemma digit_code_solid d : (0 ≤ d < 16)%Z → solid (digit_code d) ∧ digit_code d ≠ 35%Z
  ∧ (ascii_digit (digit_code d) || ascii_lower (digit_code d)) = true.
Proof.
  intros Hd. unfold digit_code, solid, ascii_digit, ascii_lower. destruct (Z.ltb_spec d 10); split_and!; try lia.
Qed.

Lemma hex_codes_forall (P : Z → Prop) d :
  (∀ x, (0 ≤ x < 16)%Z → P (digit_code x)) → bytes_ok d → Forall P (hex_codes d).
Proof.
  intros HP. induction 1 as [|b d Hb Hd IH]; [constructor|]. unfold byte_ok in Hb. cbn [hex_codes].
  pose proof (Z.mod_pos_bound b 16). pose proof (Z.div_pos b 16). pose proof (Z.div_lt_upper_bound b 16 16).
  repeat constructor; auto with lia.
Qed.

Lemma length_hex_codes d : length (hex_codes d) = 2 * length d.
Proof. induction d as [|b d IH]; [done|]. cbn [hex_codes length]. lia. Qed.

Lemma hex_codes_solid d : bytes_ok d → Forall solid (hex_codes d).
Proof. apply hex_codes_forall. intros x Hx. by apply digit_code_solid. Qed.

Lemma decode_loop_ascii s : Forall (λ c, 0 ≤ c < 128)%Z s → decode_loop 0 s = (λ c, (c, true)) <$> s.
Proof.
  induction 1 as [|c s Hc Hs IH]; [done|]. cbn [decode_loop]. unfold decode_rune at 1.
  rewrite (proj2 (Z.ltb_lt c 128)) by lia. cbn. by rewrite <-IH.
Qed.

Lemma not_lower_hex `{!UnicodeLaws} d : bytes_ok d → not_lower (hex_codes d) = false.
Proof.
  intros Hd. unfold not_lower. pose proof (hex_codes_solid d Hd) as Hs.
  rewrite decode_loop_ascii by (eapply Forall_impl; [exact Hs|]; unfold solid; lia).
  assert (Forall (λ c, ToLower c = c) (hex_codes d)) as Hl.
  { apply hex_codes_forall; [|done]. intros x Hx. destruct (digit_code_solid x Hx) as (Hso & _ & Hcl).
    unfold solid in Hso. rewrite ascii_ToLower by lia. unfold ascii_upper.
    unfold ascii_digit, ascii_lower in Hcl. apply orb_true_iff in Hcl as [Hcl | Hcl]; bool_hyps; zcases; lia || done. }
  induction Hl as [|c l Hc Hl IH]; [done|]. inversion Hs; subst. cbn. rewrite Hc, Z.eqb_refl. by apply IH.
Qed.

Lemma ParseDoubleHashHex_hex `{!UnicodeLaws} d : digest_ok d → ParseDoubleHashHex (hex_codes d) = Ok d.
Proof.
  intros [Hlen Hok]. unfold ParseDoubleHashHex. rewrite TrimSpace_solid by (by apply hex_codes_solid).
  assert (length (hex_codes d) = 64) as Hl by (by rewrite length_hex_codes, Hlen).
  rewrite bool_decide_eq_false_2 by (by intros He; rewrite He in Hl).
  rewrite Hl. simpl negb. rewrite not_lower_hex by done.
  pose proof (hex_decode_encode d Hok) as Hd. rewrite hex_encode_bytes in Hd by done. rewrite Hd.
  rewrite copy_into_full by done. done.
Qed.

(** What is left of the line of an entry, with or without a carriage return. *)
Lemma feed_line_text d : digest_ok d → feed_line (hex_codes d) = hex_codes d.
Proof.
  intros [_ Hok]. unfold feed_line, strip_comment. rewrite TrimSpace_solid by (by apply hex_codes_solid).
  destruct (list_find _ _) as [[i c]|] eqn:Hf; [|done].
  apply list_find_Some in Hf as (Hi & -> & _). apply list_elem_of_lookup_2 in Hi.
  assert (Forall (λ c, c ≠ 35%Z) (hex_codes d)) as Hn.
  { apply hex_codes_forall; [|done]. intros x Hx. by apply digit_code_solid. }
  rewrite Forall_forall in Hn. by apply Hn in Hi.
Qed.

Lemma strip_comment_at x y : 35%Z ∉ x → strip_comment (x ++ 35%Z :: y) = TrimSpaceBytes x.
Proof.
  intros Hx. unfold strip_comment.
  assert (list_find (λ c, c = 35%Z) (x ++ 35%Z :: y) = Some (length x, 35%Z)) as ->; [|by rewrite take_app_length].
  apply list_find_Some. split_and!; [by apply list_lookup_middle|done|].
  intros j z Hz Hlt ->. rewrite lookup_app_l in Hz by done. apply Hx. by eapply list_elem_of_lookup_2.
Qed.

Lemma feed_line_annotated d note : digest_ok d → feed_line (hex_codes d ++ 32%Z :: 35%Z :: note) = hex_codes d.
Proof.
  intros [Hlen Hok]. unfold feed_line. pose proof (hex_codes_solid d Hok) as Hs.
  assert (hex_codes d ≠ []) as Hne.
  { intros He. apply (f_equal length) in He. rewrite length_hex_codes, Hlen in He. done. }
  assert (∃ y, TrimSpaceBytes (hex_codes d ++ 32%Z :: 35%Z :: note) = (hex_codes d ++ [32%Z]) ++ 35%Z :: y) as (y & ->).
  { unfold TrimSpaceBytes. destruct (hex_codes d) as [|c l] eqn:Hd; [done|]. inversion Hs; subst. simpl app.
    rewrite trim_leading_solid by done.
    change (c :: l ++ 32%Z :: 35%Z :: note) with ((c :: l) ++ [32%Z] ++ 35%Z :: note). rewrite app_assoc.
    destruct (trim_trailing_hash (length (((c :: l) ++ [32%Z]) ++ 35%Z :: note)) ((c :: l) ++ [32%Z]) note) as (y & ->).
    eauto. }
  rewrite strip_comment_at; [by apply TrimSpace_solid_space|].
  rewrite elem_of_app. intros [Hin | Hin]; [|set_solver].
  assert (Forall (λ c, c ≠ 35%Z) (hex_codes d)) as Hn.
  { apply hex_codes_forall; [|done]. intros x Hx. by apply digit_code_solid. }
  rewrite Forall_forall in Hn. by apply Hn in Hin.
Qed.

Lemma feed_line_comment note : feed_line (35%Z :: note) = [].
Proof.
  unfold feed_line. assert (∃ y, TrimSpaceBytes (35%Z :: note) = [] ++ 35%Z :: y) as (y & ->).
  { unfold TrimSpaceBytes. rewrite trim_leading_solid by (unfold solid; lia).
    destruct (trim_trailing_hash (length (35%Z :: note)) [] note) as (y & Hy). eauto. }
  rewrite strip_comment_at by (by intros ?%elem_of_nil). done.
Qed.

(** ** The scanner on a document *)

Lemma scan_line acc line rest :
  10%Z ∉ line → length acc + length line < maxTokenSize →
  scan_lines acc (line ++ 10%Z :: rest)
  = (dropCR (acc ++ line) :: (scan_lines [] rest).1, (scan_lines [] rest).2).
Proof.
  revert acc. induction line as [|b line IH]; intros acc Hn Hl.
  - cbn [app scan_lines]. rewrite Z.eqb_refl, app_nil_r. by destruct (scan_lines [] rest).
  - cbn [app scan_lines]. rewrite (proj2 (Z.eqb_neq b 10)) by set_solver.
    simpl length in Hl. rewrite (proj2 (Nat.leb_gt _ _)) by lia.
    rewrite IH; [by rewrite <-app_assoc|set_solver|rewrite length_app; simpl; lia].
Qed.

(** The two line endings, without the newline. *)
Definition eol_ok (cr : bytes) : Prop := cr = [] ∨ cr = [13%Z].

Lemma entry_text_scan e cr :
  entry_ok e → eol_ok cr → (10%Z ∉ entry_text e ++ cr) ∧ length (entry_text e ++ cr) < maxTokenSize.
Proof.
  intros He Hcr. assert ((10%Z ∉ cr) ∧ length cr ≤ 1) as [Hc1 Hc2] by (destruct Hcr as [-> | ->]; split; set_solver || simpl; lia).
  assert (∀ d, digest_ok d → (10%Z ∉ hex_codes d) ∧ length (hex_codes d) = 64) as Hd.
  { intros d [Hl Hok]. rewrite length_hex_codes, Hl. split; [|done].
    pose proof (hex_codes_solid d Hok) as Hs. rewrite Forall_forall in Hs. intros Hin. apply Hs in Hin. unfold solid in Hin. lia. }
  assert (maxTokenSize = Z.to_nat 1024) as Hm by done.
  rewrite not_elem_of_app, length_app. unfold entry_ok, note_ok, len in He.
  destruct e as [d|d note|note|]; cbn [entry_text]; rewrite ?length_app; cbn [length].
  - destruct (Hd d He) as [? Hl]. rewrite Hl. split; [done|lia].
  - destruct He as [He [Hn Hln]]. destruct (Hd d He) as [? Hl]. rewrite Hl, not_elem_of_app. split; [set_solver|lia].
  - destruct He as [Hn Hln]. split; [set_solver|lia].
  - split; [set_solver|lia].
Qed.

Lemma scan_feed cr es :
  Forall entry_ok es → eol_ok cr →
  scan_lines [] (feed_text (cr ++ [10%Z]) es) = ((λ e, dropCR (entry_text e ++ cr)) <$> es, false).
Proof.
  intros Hes Hcr. induction Hes as [|e es He Hes IH]; [done|].
  unfold feed_text in *. rewrite bind_cons, app_assoc, <-app_assoc. simpl app.
  destruct (entry_text_scan e cr He Hcr). rewrite scan_line by done. by rewrite IH.
Qed.

(** ** Parsing a document *)

Lemma dropCR_snoc x : dropCR (x ++ [13%Z]) = x.
Proof.
  unfold dropCR. rewrite last_snoc. simpl. rewrite length_app. simpl.
  rewrite Nat.add_sub. by rewrite take_app_length.
Qed.

Lemma dropCR_note x note :
  ∃ note', dropCR (x ++ 35%Z :: note) = x ++ 35%Z :: note' ∧ length note' ≤ length note.
Proof.
  destruct note as [|c note _] using rev_ind.
  - exists []. unfold dropCR. rewrite last_snoc. done.
  - rewrite app_comm_cons, app_assoc. destruct (decide (c = 13%Z)) as [-> | Hc].
    + exists note. rewrite dropCR_snoc, length_app. split; [done|lia].
    + exists (note ++ [c]). unfold dropCR. rewrite last_snoc, (proj2 (Z.eqb_neq c 13)) by done.
      by rewrite <-app_assoc.
Qed.

(** The line of an entry is the line of an entry with the same digest. *)
Lemma dropCR_entry e cr :
  entry_ok e → eol_ok cr →
  ∃ e', dropCR (entry_text e ++ cr) = entry_text e' ∧ entry_digest e' = entry_digest e
    ∧ length (entry_text e') ≤ length (entry_text e).
Proof.
  intros He [-> | ->]; [rewrite app_nil_r|rewrite dropCR_snoc; eauto].
  destruct e as [d|d note|note|]; cbn [entry_text].
  - exists (FDigest d). split_and!; [|done..]. destruct He as [Hl Hok]. cbn [entry_text].
    pose proof (hex_codes_solid d Hok) as Hs. unfold dropCR.
    destruct (last (hex_codes d)) as [c|] eqn:Hc; [|done].
    apply last_Some_elem_of in Hc. rewrite Forall_forall in Hs. apply Hs in Hc. unfold solid in Hc.
    by rewrite (proj2 (Z.eqb_neq c 13)) by lia.
  - destruct (dropCR_note (hex_codes d ++ [32%Z]) note) as (note' & Hn & Hl). rewrite <-!app_assoc in Hn.
    exists (FAnnotated d note'). cbn [entry_text]. rewrite !length_app. simpl in *. split_and!; [done|done|lia].
  - destruct (dropCR_note [] note) as (note' & Hn & Hl). exists (FComment note'). simpl in *. split_and!; [done|done|lia].
  - by exists FBlank.
Qed.

Definition digest_entry_ok (e : feed_entry) : Prop := match entry_digest e with Some d => digest_ok d | None => True end.

Lemma parse_lines_entry `{!UnicodeLaws} e maxBytes total seen out n lines :
  digest_entry_ok e → (total + len (entry_text e) + 1 ≤ maxBytes)%Z →
  parse_lines maxBytes total seen out n (entry_text e :: lines)
  = let total := (total + len (entry_text e) + 1)%Z in
    match entry_digest e with
    | Some d => if bool_decide (d ∈ seen) then parse_lines maxBytes total seen out n lines
                else parse_lines maxBytes total ({[d]} ∪ seen) (out ++ [d]) n lines
    | None => parse_lines maxBytes total seen out n lines
    end.
Proof.
  intros He Hle. cbn [parse_lines]. rewrite (proj2 (Z.ltb_ge _ _)) by done.
  assert (∀ d, digest_ok d → hex_codes d ≠ []) as Hne.
  { intros d [Hl _] Hh. apply (f_equal length) in Hh. rewrite length_hex_codes, Hl in Hh. done. }
  destruct e as [d|d note|note|]; cbn [entry_text entry_digest digest_entry_ok] in *.
  - rewrite feed_line_text, bool_decide_eq_false_2, ParseDoubleHashHex_hex by auto. done.
  - rewrite feed_line_annotated, bool_decide_eq_false_2, ParseDoubleHashHex_hex by auto. done.
  - by rewrite feed_line_comment.
  - done.
Qed.

Definition feed_size (es : list feed_entry) : Z := foldr (λ e n, len (entry_text e) + 1 + n)%Z 0%Z es.
Definition dedup_step (out : list digest) (d : digest) : list digest :=
  if bool_decide (d ∈ out) then out else out ++ [d].

Lemma parse_lines_feed `{!UnicodeLaws} maxBytes cr es : ∀ total out,
  Forall entry_ok es → eol_ok cr → (total + feed_size es ≤ maxBytes)%Z →
  parse_lines maxBytes total (list_to_set out) out 0 ((λ e, dropCR (entry_text e ++ cr)) <$> es)
  = Ok (foldl dedup_step out (omap entry_digest es), 0%Z).
Proof.
  induction es as [|e es IH]; intros total out Hes Hcr Hle; [done|].
  apply Forall_cons in Hes as [He Hes]. rewrite fmap_cons.
  destruct (dropCR_entry e cr He Hcr) as (e' & -> & Hd & Hl). cbn [feed_size foldr] in Hle.
  fold (feed_size es) in Hle. unfold len in *.
  assert (0 ≤ feed_size es)%Z as Hpos.
  { clear. induction es as [|e es IH]; [done|]. cbn [feed_size foldr]. fold (feed_size es). unfold len. lia. }
  rewrite parse_lines_entry; [|unfold digest_entry_ok; rewrite Hd; destruct e; simpl in *; tauto|unfold len; lia].
  cbn zeta. rewrite Hd. cbn [omap list_omap].
  destruct (entry_digest e) as [d|]; [|apply IH; [done|done|unfold len; lia]].
  cbn [foldl]. unfold dedup_step at 2. rewrite (bool_decide_ext _ _ (elem_of_list_to_set d out)).
  case_bool_decide; [apply IH; [done|done|unfold len; lia]|].
  replace ({[d]} ∪ list_to_set out) with (list_to_set (out ++ [d]) : gset digest) by set_solver.
  apply IH; [done|done|unfold len; lia].
Qed.

Lemma parse_feed_text `{!UnicodeLaws} cr es maxBytes :
  Forall entry_ok es → eol_ok cr → (feed_size es ≤ maxBytes)%Z →
  parseFeed (mkReader (feed_text (cr ++ [10%Z]) es) None) maxBytes = Ok (dedup (omap entry_digest es), 0%Z).
Proof.
  intros Hes Hcr Hle. unfold parseFeed. cbn [r_data r_err]. rewrite scan_feed by done.
  pose proof (parse_lines_feed maxBytes cr es 0 [] Hes Hcr ltac:(lia)) as Hp. cbn [list_to_set] in Hp.
  rewrite Hp. done.
Qed.

(** ** The size limit *)

Lemma hex_decode_no_panic s : hex_decode s ≠ Panic.
Proof.
  induction s as [s IH] using (induction_ltof1 _ length); unfold ltof in IH.
  destruct s as [|p [|q s]]; cbn; repeat case_goal; try done.
  intros Hp. apply (IH s); [simpl; lia|]. by destruct (hex_decode s).
Qed.

Lemma ParseDoubleHashHex_no_panic s : ParseDoubleHashHex s ≠ Panic.
Proof.
  unfold ParseDoubleHashHex. pose proof (hex_decode_no_panic (TrimSpaceBytes s)). repeat case_goal; congruence.
Qed.

Definition lines_size (lines : list bytes) : Z := foldr (λ l n, len l + 1 + n)%Z 0%Z lines.

Lemma lines_size_nonneg lines : (0 ≤ lines_size lines)%Z.
Proof. induction lines as [|l lines IH]; [done|]. cbn [lines_size foldr]. fold (lines_size lines).
  unfold len. lia.
Qed.

(** The loop fails exactly when the lines exceed the limit. *)
Lemma parse_lines_limit maxBytes lines : ∀ total seen out n,
  (total ≤ maxBytes)%Z →
  if decide (total + lines_size lines ≤ maxBytes)%Z
  then ∃ r, parse_lines maxBytes total seen out n lines = Ok r
  else parse_lines maxBytes total seen out n lines = Err ErrTooBig.
Proof.
  induction lines as [|l lines IH]; intros total seen out n Ht.
  { rewrite decide_True by (cbn; lia). by eexists. }
  cbn [parse_lines lines_size foldr]. fold (lines_size lines). pose proof (lines_size_nonneg lines).
  destruct (Z.ltb_spec maxBytes (total + len l + 1)) as [Hlt | Hge].
  { by rewrite decide_False by lia. }
  rewrite (decide_ext _ (total + len l + 1 + lines_size lines ≤ maxBytes)%Z) by lia.
  case_bool_decide; [by apply IH|].
  pose proof (ParseDoubleHashHex_no_panic (feed_line l)).
  destruct (ParseDoubleHashHex (feed_line l)) as [dh|e|]; [|by apply IH|done].
  case_bool_decide; by apply IH.
Qed.

Lemma dropCR_no_CR l : 13%Z ∉ l → dropCR l = l.
Proof.
  intros Hl. unfold dropCR. destruct (last l) as [c|] eqn:Hc; [|done].
  apply last_Some_elem_of in Hc. by rewrite (proj2 (Z.eqb_neq c 13)) by set_solver.
Qed.

Lemma scan_size data : ∀ acc lines,
  13%Z ∉ acc → 13%Z ∉ data → scan_lines acc data = (lines, false) →
  (len acc + len data ≤ lines_size lines)%Z.
Proof.
  induction data as [|b data IH]; intros acc lines Ha Hd Hs; cbn [scan_lines] in Hs.
  - destruct acc; simplify_eq; [done|]. cbn. rewrite dropCR_no_CR by done. unfold len. simpl. lia.
  - destruct (b =? 10)%Z.
    + destruct (scan_lines [] data) as [lines' long] eqn:Hs'. simplify_eq.
      apply IH in Hs'; [|set_solver..]. cbn [lines_size foldr]. fold (lines_size lines').
      rewrite dropCR_no_CR by done. unfold len in *. simpl in *. lia.
    + destruct (maxTokenSize <=? S (length acc)); [done|].
      apply IH in Hs; [|set_solver..]. unfold len in *. rewrite length_app in Hs. simpl in *. lia.
Qed.

Lemma fetchFeed_body c body :
  (0 < FeedMaxBytes c < 2 ^ 63 - 1)%Z →
  fetchFeed c (Response 200 body)
  = ('(entries, _) ← parseFeed (LimitReader body (FeedMaxBytes c + 1)) (FeedMaxBytes c); Ok entries).
Proof.
  intros Hc. unfold fetchFeed. simpl orb. cbn iota. rewrite (proj2 (Z.leb_gt _ 0)) by lia.
  assert (int64 (FeedMaxBytes c + 1) = FeedMaxBytes c + 1)%Z as ->; [|done].
  unfold int64, wrap. rewrite Z.mod_small by lia. lia.
Qed.

Lemma oversize_rejected c body err :
  (0 < FeedMaxBytes c < 2 ^ 63 - 1)%Z → 13%Z ∉ body → (FeedMaxBytes c < len body)%Z →
  fetchFeed c (Response 200 (mkReader body err)) = Err ErrTooBig
  ∨ fetchFeed c (Response 200 (mkReader body err)) = Err ErrTooLong.
Proof.
  intros Hc Hcr Hlen. rewrite fetchFeed_body by done. unfold LimitReader. cbn [r_data].
  rewrite (proj2 (Z.ltb_ge _ _)) by lia. unfold parseFeed. cbn [r_data r_err].
  set (data := take _ body). assert (len data = FeedMaxBytes c + 1)%Z as Hd.
  { unfold data, len in *. rewrite length_take. lia. }
  assert (13%Z ∉ data) as Hn by (rewrite <-(take_drop (Z.to_nat (FeedMaxBytes c + 1)) body), not_elem_of_app in Hcr; tauto).
  destruct (scan_lines [] data) as [lines long] eqn:Hs.
  pose proof (parse_lines_limit (FeedMaxBytes c) lines 0 ∅ [] 0 ltac:(lia)) as Hp.
  destruct long.
  - case_decide; [destruct Hp as [r ->]; by right|]. rewrite Hp. by left.
  - apply scan_size in Hs; [|set_solver|done]. rewrite decide_False in Hp by (unfold len in *; simpl in *; lia).
    rewrite Hp. by left.
Qed.

Lemma feed_text_digests_length cr ds :
  Forall digest_ok ds → length (feed_text cr (FDigest <$> ds)) = (64 + length cr) * length ds.
Proof.
  induction 1 as [|d ds [Hl _] Hds IH]; [simpl; lia|]. unfold feed_text in *.
  rewrite fmap_cons, bind_cons, !length_app, IH. cbn [entry_text]. rewrite length_hex_codes, Hl. simpl length. unfold DoubleHashLen. lia.
Qed.

Lemma feed_size_digests ds : Forall digest_ok ds → feed_size (FDigest <$> ds) = (65 * len ds)%Z.
Proof.
  induction 1 as [|d ds [Hl _] Hds IH]; [done|]. rewrite fmap_cons. cbn [feed_size foldr]. fold (feed_size (FDigest <$> ds)).
  rewrite IH. unfold len. cbn [entry_text]. rewrite length_hex_codes, Hl. unfold DoubleHashLen. simpl. lia.
Qed.

Lemma omap_digests (ds : list digest) : omap entry_digest (FDigest <$> ds) = ds.
Proof. induction ds as [|d ds IH]; [done|]. rewrite fmap_cons. cbn. by f_equal. Qed.

Lemma crlf_truncated `{!UnicodeLaws} c ds n :
  Forall digest_ok ds → 0 < n ≤ length ds → FeedMaxBytes c = (66 * Z.of_nat n - 1)%Z → (FeedMaxBytes c < 2 ^ 63 - 1)%Z →
  fetchFeed c (Response 200 (mkReader (feed_text [13; 10]%Z (FDigest <$> ds)) None)) = Ok (dedup (take n ds)).
Proof.
  intros Hds Hn Hmax Hb. rewrite fetchFeed_body by lia. unfold LimitReader. cbn [r_data].
  rewrite (proj2 (Z.ltb_ge _ _)) by (unfold len; rewrite feed_text_digests_length by done; simpl length; lia).
  assert (Forall digest_ok (take n ds)) as Ht by (by apply Forall_take).
  assert (take (Z.to_nat (FeedMaxBytes c + 1)) (feed_text [13; 10]%Z (FDigest <$> ds))
          = feed_text [13; 10]%Z (FDigest <$> take n ds)) as ->.
  { rewrite <-(take_drop n ds) at 1. rewrite fmap_app. unfold feed_text. rewrite bind_app. apply take_app_length'.
    change (Z.to_nat (FeedMaxBytes c + 1) = length (feed_text [13; 10]%Z (FDigest <$> take n ds))).
    rewrite feed_text_digests_length by done. rewrite length_take. simpl length. lia. }
  pose proof (parse_feed_text [13%Z] (FDigest <$> take n ds) (FeedMaxBytes c)) as Hr.
  cbn [app] in Hr. rewrite Hr; [|by apply Forall_fmap|by right|].
  - cbn. by rewrite omap_digests.
  - rewrite feed_size_digests by done. unfold len. rewrite length_take. lia.
Qed.

(** A feed of digests, annotated digests, comments and blank lines, with either line ending, parses to its digests, each once and in the order of their first lines, without parse errors, when its lines counted with one newline each fit the size limit. *)
Theorem csam_feed_roundtrip `{!UnicodeLaws} cr es maxBytes :
  Forall entry_ok es → eol_ok cr → (feed_size es ≤ maxBytes)%Z →
  parseFeed (mkReader (feed_text (cr ++ [10%Z]) es) None) maxBytes = Ok (dedup (omap entry_digest es), 0%Z).
Proof. apply parse_feed_text. Qed.

(** A feed without carriage returns that exceeds the configured size is refused, whatever it holds; but the size is counted after the line ending is cut off, so a feed with carriage returns that exceeds it is accepted and silently cut short at the limit. *)
Theorem csam_feed_limit `{!UnicodeLaws} c :
  (0 < FeedMaxBytes c < 2 ^ 63 - 1)%Z →
  (∀ body err, 13%Z ∉ body → (FeedMaxBytes c < len body)%Z →
     fetchFeed c (Response 200 (mkReader body err)) = Err ErrTooBig
     ∨ fetchFeed c (Response 200 (mkReader body err)) = Err ErrTooLong)
  ∧ (∀ ds n, Forall digest_ok ds → 0 < n ≤ length ds → FeedMaxBytes c = (66 * Z.of_nat n - 1)%Z →
       fetchFeed c (Response 200 (mkReader (feed_text [13; 10]%Z (FDigest <$> ds)) None)) = Ok (dedup (take n ds))).
Proof.
  intros Hc. split.
  - intros body err Hcr Hlen. by apply oversize_rejected.
  - intros ds n Hds Hn Hmax. apply crlf_truncated; [done|done|done|lia].
Qed.

(** ** The filter and the refresh *)

Section service_proofs.
Context {B : Type} `{!Bloom B} `{!BloomLaws B}.

(** The in-place loop: what was kept is in front, what was not read yet is
    unchanged. *)
Lemma Filter_loop_spec (bf : B) (hs : list ID) : ∀ fuel i w arr,
  fuel = length hs - i → i ≤ length hs → w ≤ i → length arr = length hs →
  take w arr = filter (λ h, Test bf (DoubleHash h) = false) (take i hs) →
  drop w arr = drop w hs →
  ∃ arr' w', Filter_loop bf fuel i w arr = (arr', w')
    ∧ take w' arr' = filter (λ h, Test bf (DoubleHash h) = false) hs
    ∧ drop w' arr' = drop w' hs ∧ w' ≤ length hs ∧ length arr' = length hs.
Proof.
  induction fuel as [|fuel IH]; intros i w arr Hf Hi Hw Hl Ht Hd; cbn [Filter_loop].
  { rewrite (take_ge hs) in Ht by lia. exists arr, w. split_and!; try done. lia. }
  destruct (lookup_lt_is_Some_2 hs i ltac:(lia)) as [h Hh].
  assert (arr !! i = Some h) as ->.
  { rewrite <-(Nat.sub_add w i), Nat.add_comm, <-lookup_drop, Hd, lookup_drop by done. by rewrite Nat.add_comm, Nat.sub_add. }
  pose proof (take_S_r hs i h Hh) as Hs.
  destruct (Test bf (DoubleHash h)) eqn:Hb.
  - apply IH; [lia|lia|lia|done| |done]. rewrite Hs, filter_app, Ht, filter_cons_False by congruence.
    by rewrite filter_nil, app_nil_r.
  - apply IH; [lia|lia|lia|by rewrite length_insert| |].
    + rewrite Hs, filter_app, filter_cons_True, filter_nil, <-Ht by done.
      rewrite (take_S_r _ w h) by (apply list_lookup_insert_eq; lia).
      by rewrite take_insert_ge by lia.
    + rewrite drop_insert_lt by lia. replace (S w) with (w + 1) by lia. by rewrite <-!drop_drop, Hd.
Qed.

Lemma Filter_spec (s : service B) (hs : list ID) :
  Filter s hs = (filter (λ h, IsBlocked s h = false) hs
                   ++ drop (length (filter (λ h, IsBlocked s h = false) hs)) hs,
                 filter (λ h, IsBlocked s h = false) hs).
Proof.
  unfold Filter, IsBlocked. destruct (active s) as [bf|].
  - destruct (Filter_loop_spec bf hs (length hs) 0 0 hs) as (arr & w & -> & Ht & Hd & Hw & Hl); try done; [lia|lia|].
    rewrite Ht. f_equal. rewrite <-Ht at 2. rewrite length_take_le, <-Hd, <-Ht by lia. by rewrite take_drop.
  - rewrite list_filter_all by done. by rewrite drop_all, app_nil_r.
Qed.

(** Filter keeps exactly the hashes that are not blocked, in their order; it compacts them in place, so the front of the array the caller passed is overwritten with the result and the rest of it is unchanged. *)
Theorem csam_filter_in_place (s : service B) (hs : list ID) :
  Filter s hs = (filter (λ h, IsBlocked s h = false) hs
                   ++ drop (length (filter (λ h, IsBlocked s h = false) hs)) hs,
                 filter (λ h, IsBlocked s h = false) hs).
Proof. apply Filter_spec. Qed.

(** One round of the feeds: the results, and the state it leads to.  The map
    of the caches is visited in some order of its keys. *)
Definition order_of {A} (m : gmap string A) (order : list string) : Prop := order ≡ₚ (map_to_list m).*1.

Inductive history (s0 : service B) : results → service B → Prop :=
| history_new : history s0 [] s0
| history_refresh rs s now http order :
    history s0 rs s → order_of (lastGoodEntries (Refresh now http order s).1) order →
    history s0 (rs ++ feed_results (cfg s) http) (Refresh now http order s).1.

(** For each feed the entries of its last successful fetch. *)
Definition last_good (rs : results) : gmap string (list digest) :=
  foldl (λ m r, match r.2 with Ok es => <[r.1 := es]> m | _ => m end) ∅ rs.

Lemma fetchFeed_no_panic c h : fetchFeed c h ≠ Panic.
Proof.
  unfold fetchFeed, parseFeed. destruct h as [| |status body]; [done|done|]. case_goal; [done|].
  destruct (scan_lines _ _) as [lines long].
  match goal with |- context [parse_lines ?m 0 ∅ [] 0 lines] =>
    destruct (Z.le_gt_cases 0 m) as [Hm | Hm];
    [pose proof (parse_lines_limit m lines 0 ∅ [] 0 Hm) as Hp|] end.
  - case_decide; [destruct Hp as [[es n] ->]|rewrite Hp; done]. cbn. repeat case_goal; done.
  - case_match; lia.
Qed.

Lemma apply_results rs : ∀ (s : service B) now,
  (∀ r, r ∈ rs → r.2 ≠ Panic) →
  let s' := foldl (apply_result now) s rs in
  lastGoodEntries s' = foldl (λ m r, match r.2 with Ok es => <[r.1 := es]> m | _ => m end) (lastGoodEntries s) rs
  ∧ cfg s' = cfg s.
Proof.
  induction rs as [|[u res] rs IH]; intros s now Hr; cbn [foldl]; [done|].
  destruct (IH (apply_result now s (u, res)) now) as [-> ->]; [set_solver|].
  pose proof (Hr (u, res) ltac:(set_solver)). destruct res; done.
Qed.

Lemma foldl_Add_mono (bf : B) es x : Test bf x = true → Test (foldl Add bf es) x = true.
Proof. revert bf. induction es as [|e es IH]; intros bf Hx; [done|]. apply IH. by apply Test_Add_mono. Qed.

Lemma foldl_Add_in (bf : B) es x : x ∈ es → Test (foldl Add bf es) x = true.
Proof.
  revert bf. induction es as [|e es IH]; intros bf Hx; [by apply elem_of_nil in Hx|]. simpl.
  apply elem_of_cons in Hx as [-> | Hx]; [|by apply IH]. apply foldl_Add_mono, Test_Add.
Qed.

(** What is in a cache that was visited is in the filter. *)
Lemma union_bloom_in (c : Config) m order u es x :
  u ∈ order → m !! u = Some es → x ∈ es → Test (union_bloom (B := B) c m order) x = true.
Proof.
  intros Hu Hm Hx. unfold union_bloom. generalize (emptyBloom (B := B) c).
  assert (∀ order (bf : B), Test bf x = true →
    Test (foldl (λ bf u, foldl Add bf (default [] (m !! u))) bf order) x = true) as Hmono.
  { clear -H BloomLaws0. induction order as [|v order IH]; intros bf Hb; [done|]. apply IH. by apply foldl_Add_mono. }
  induction order as [|v order IH]; intros bf; [by apply elem_of_nil in Hu|]. simpl.
  apply elem_of_cons in Hu as [<- | Hu]; [|by apply IH].
  apply Hmono. rewrite Hm. by apply foldl_Add_in.
Qed.

(** How many entries the caches hold. *)
Definition cache_size (m : gmap string (list digest)) : Z := foldr (λ es n, len es + n)%Z 0%Z (map_to_list m).*2.

Lemma total_entries_size m order : order_of m order → total_entries m order = cache_size m.
Proof.
  intros Ho. set (f := λ (u : string) n, (len (default [] (m !! u)) + n)%Z).
  assert (∀ k, foldl (λ n u, n + len (default [] (m !! u)))%Z k order = (k + foldr f 0 order)%Z) as Hs.
  { clear Ho. induction order as [|u order IH]; intros k; simpl; [lia|]. rewrite IH. unfold f. lia. }
  unfold total_entries. rewrite Hs, Z.add_0_l.
  assert (∀ l1 l2, l1 ≡ₚ l2 → foldr f 0%Z l1 = foldr f 0%Z l2) as Hp.
  { induction 1; simpl; unfold f in *; lia. }
  rewrite (Hp _ _ Ho). unfold cache_size.
  assert (∀ k es, (k, es) ∈ map_to_list m → m !! k = Some es) as Hm by (intros; by apply elem_of_map_to_list).
  revert Hm. generalize (map_to_list m) as l. induction l as [|[k es] l IH]; intros Hm; [done|].
  change (f k (foldr f 0 l.*1) = len es + foldr (λ es n, len es + n) 0 l.*2)%Z.
  rewrite IH by set_solver. unfold f. by rewrite (Hm k es) by set_solver.
Qed.

(** The state after some rounds: the caches are the last good entries, the
    filter holds all of them, and the count is their number. *)
Record loaded (c : Config) (rs : results) (s : service B) : Prop := {
  loaded_cfg : cfg s = c;
  loaded_good : lastGoodEntries s = last_good rs;
  loaded_filter u es x : lastGoodEntries s !! u = Some es → x ∈ es →
    ∃ bf, active s = Some bf ∧ Test bf x = true;
  loaded_count : entryCount s = cache_size (lastGoodEntries s);
  loaded_none : nonempty_urls c = [] → lastGoodEntries s = ∅
}.

Lemma loaded_new c : loaded c [] (NewService c).
Proof. by split. Qed.

Lemma loaded_refresh c rs s now http order :
  loaded c rs s → order_of (lastGoodEntries (Refresh now http order s).1) order →
  loaded c (rs ++ feed_results (cfg s) http) (Refresh now http order s).1.
Proof.
  intros [Hcfg Hgood Hfilter Hcount Hnone]. unfold Refresh.
  destruct (nonempty_urls (cfg s)) as [|u0 us] eqn:Hu.
  - intros Ho. unfold feed_results. rewrite Hu. simpl. rewrite app_nil_r. rewrite Hcfg in Hu.
    split; simpl; try done. by rewrite <-Hgood, Hnone.
  - destruct (apply_results (feed_results (cfg s) http) s now) as [Hm Hc].
    { intros r Hr. unfold feed_results in Hr. apply elem_of_lookup_imap in Hr as (i & u & -> & _).
      apply fetchFeed_no_panic. }
    simpl. intros Ho. split; simpl.
    + by rewrite Hc.
    + rewrite Hm, Hgood. unfold last_good. by rewrite foldl_app.
    + intros u es x Hu' Hx. eexists. split; [done|]. eapply union_bloom_in; [|done|done].
      rewrite Ho. apply list_elem_of_fmap. exists (u, es). split; [done|]. by apply elem_of_map_to_list.
    + by apply total_entries_size.
    + rewrite <-Hcfg, Hu. done.
Qed.

Lemma history_loaded c rs s : history (NewService c) rs s → loaded c rs s.
Proof. induction 1; [apply loaded_new|by apply loaded_refresh]. Qed.

(** C16: After any sequence of refreshes of a new service, whatever each fetch returned, every info hash whose double hash was in the last successfully fetched version of any feed is blocked, also when later fetches of that feed failed; Filter drops it; and the reported count is the number of those entries. *)
Theorem csam_no_false_negatives c rs s :
  history (NewService c) rs s →
  (∀ u es h, last_good rs !! u = Some es → DoubleHash h ∈ es →
     IsBlocked s h = true ∧ ∀ hs, h ∉ (Filter s hs).2)
  ∧ entryCount s = cache_size (last_good rs).
Proof.
  intros Hh. apply history_loaded in Hh as [_ Hgood Hfilter Hcount _]. rewrite Hgood in *. split; [|done].
  intros u es h Hu Hin. destruct (Hfilter u es _ Hu Hin) as (bf & Ha & Ht).
  assert (IsBlocked s h = true) as Hb by (unfold IsBlocked; by rewrite Ha).
  split; [done|]. intros hs Hf. rewrite Filter_spec in Hf. simpl in Hf.
  apply list_elem_of_filter in Hf as [Hf _]. congruence.
Qed.

(** The failure of a feed keeps its entries; a success replaces them. *)
Lemma last_good_failure rs u e : last_good (rs ++ [(u, Err e)]) = last_good rs.
Proof. unfold last_good. by rewrite foldl_app. Qed.

Lemma last_good_success rs u es : last_good (rs ++ [(u, Ok es)]) = <[u := es]> (last_good rs).
Proof. unfold last_good. by rewrite foldl_app. Qed.

End service_proofs.
End double_hash.

Arguments service : clear implicits.
Arguments Manager : clear implicits.

(** ** Witnesses *)

(** A bloom filter with two hash functions over a set of bit positions. *)
Definition bit_positions (x : bytes) : gset Z :=
  {[ be_value (take 4 x) `mod` 97; 100 + foldr Z.add 0 x `mod` 89 ]}%Z.
Definition bit_bloom : Bloom (gset Z) := {|
  NewWithEstimates _ _ := ∅;
  Add b x := b ∪ bit_positions x;
  Test b x := bool_decide (bit_positions x ⊆ b)
|}.

Lemma bit_bloom_laws : @BloomLaws (gset Z) bit_bloom.
Proof.
  split; intros; cbn in *.
  - apply bool_decide_eq_true_2. set_solver.
  - apply bool_decide_eq_true_1 in H. apply bool_decide_eq_true_2. set_solver.
Qed.

#[local] Existing Instances ascii_unicode ascii_unicode_laws bit_bloom bit_bloom_laws.

Definition ex_hash (n : Z) : ID := n :: replicate 19 0%Z.
Definition ex_digests : list digest := DoubleHash <$> [ex_hash 1; ex_hash 2; ex_hash 3; ex_hash 1].

Definition ex_config (maxBytes : Z) : Config :=
  mkConfig true [""; "https://feed.example/a"; "https://feed.example/b"]%string maxBytes 1000 (Qmake 1 1000) true ""%string
    ""%string ""%string.

Lemma DoubleHash_ok h : digest_ok (DoubleHash h).
Proof. split; [apply SHA256.length_Sum256|apply SHA256.bytes_ok_Sum256]. Qed.

Definition ex_feed : list feed_entry :=
  [FComment (string_bytes " a feed"); FDigest (DoubleHash (ex_hash 1)); FBlank;
   FAnnotated (DoubleHash (ex_hash 2)) (string_bytes " reported # twice"); FDigest (DoubleHash (ex_hash 1))].

Lemma ex_feed_ok : Forall entry_ok ex_feed.
Proof.
  assert (note_ok (string_bytes " a feed") ∧ note_ok (string_bytes " reported # twice")) as [H1 H2].
  { split; (split; [by apply (bool_decide_unpack _); vm_compute|by vm_compute]). }
  repeat apply Forall_cons_2; [exact H1|apply DoubleHash_ok|exact I|split; [apply DoubleHash_ok|exact H2]
  |apply DoubleHash_ok|by apply Forall_nil].
Qed.

Lemma csam_feed_roundtrip_witness :
  parseFeed (mkReader (feed_text ([13%Z] ++ [10%Z]) ex_feed) None) 1000
  = Ok (dedup (omap entry_digest ex_feed), 0%Z)
  ∧ length (dedup (omap entry_digest ex_feed)) = 2.
Proof.
  split; [|by vm_compute]. apply (csam_feed_roundtrip [13%Z] ex_feed 1000); [apply ex_feed_ok|by right|by vm_compute].
Defined.

Lemma csam_feed_limit_witness :
  fetchFeed (ex_config 131) (Response 200 (mkReader (feed_text [13; 10]%Z (FDigest <$> ex_digests)) None))
  = Ok (dedup (take 2 ex_digests)).
Proof.
  apply (proj2 (csam_feed_limit (ex_config 131) ltac:(by vm_compute)) ex_digests 2).
  - apply Forall_fmap, Forall_true. intros. apply DoubleHash_ok.
  - split; apply (bool_decide_unpack _); by vm_compute.
  - done.
Defined.

(** The first feed answers once and then fails; the second always fails. *)
Definition ex_http (round : nat) (i : nat) : http_result :=
  match round, i with
  | 0, 0 => Response 200 (mkReader (feed_text [10%Z] ex_feed) None)
  | 0, _ => Response 503 (mkReader [] None)
  | _, _ => RequestFailed "timeout"%string
  end.

Definition ex_service0 : service (gset Z) := NewService (ex_config 0).
Definition ex_service1 : service (gset Z) := (Refresh 10 (ex_http 0) ["https://feed.example/a"%string] ex_service0).1.
Definition ex_service2 : service (gset Z) := (Refresh 20 (ex_http 1) ["https://feed.example/a"%string] ex_service1).1.

Definition ex_history : list (string * outcome feedError (list digest)) :=
  ([] ++ feed_results (cfg ex_service0) (ex_http 0)) ++ feed_results (cfg ex_service1) (ex_http 1).

Lemma ex_history_ok : history ex_service0 ex_history ex_service2.
Proof.
  unfold ex_history. refine (history_refresh ex_service0 _ ex_service1 20 (ex_http 1) _ _ _); [|by vm_compute].
  refine (history_refresh ex_service0 [] ex_service0 10 (ex_http 0) _ _ _); [constructor|by vm_compute].
Qed.

Lemma csam_no_false_negatives_witness :
  IsBlocked ex_service2 (ex_hash 2) = true ∧ entryCount ex_service2 = 2%Z.
Proof.
  destruct (csam_no_false_negatives (ex_config 0) ex_history ex_service2 ex_history_ok) as [Hb Hc]. split.
  - apply (Hb "https://feed.example/a"%string (dedup (omap entry_digest ex_feed)) (ex_hash 2)); [by vm_compute|].
    apply (bool_decide_unpack _). by vm_compute.
  - rewrite Hc. by vm_compute.
Defined.

End Csam.
