(* ===== verification/ExternalIP.v ===== *)
(** * The external address

    [internal/protocol/externalip] and the identity of the node in
    [internal/protocol/dht/dhtfx/module.go]: which public address the process
    is seen from, asked of a few HTTP services; the BEP-42 identifier that is
    derived from it; and the watcher that has the process restarted when the
    identifier no longer fits the address.

    The answers of the services are inputs ([fetched]); [netip.ParseAddr] and
    the predicates of [netip.Addr] are written out. *)
From S2P Require Import Prelude Net Protocol SecureID Metainfo Csam.
From stdpp Require Import list strings pretty.
From Stdlib Require Import ZArith Lia.

#[local] Open Scope nat_scope.

Module ExternalIP.
Import Net Protocol SecureID.

(** ** [netip.ParseAddr] *)

Definition decimal (c : Z) : bool := ((48 <=? c) && (c <=? 57))%Z.

(** [parseIPv4Fields]: the octets read so far, the value and the number of
    digits of the next one, and whether the last byte was a dot. *)
Fixpoint ipv4_loop (s : bytes) (dot : bool) (val : Z) (digits : nat) (fields : bytes) : option bytes :=
  match s with
  | [] => if length fields <? 3 then None else Some (fields ++ [val])
  | c :: s =>
      if decimal c
      then let v := (val * 10 + (c - 48))%Z in
           if (digits =? 1) && (val =? 0)%Z then None
           else if (255 <? v)%Z then None
           else ipv4_loop s false v (S digits) fields
      else if (c =? 46)%Z
      then if dot || bool_decide (s = []) then None
           else if length fields =? 3 then None
           else ipv4_loop s true 0 0 (fields ++ [val])
      else None
  end.
Definition parseIPv4Fields (s : bytes) : option bytes := ipv4_loop s true 0 0 [].
Definition parseIPv4 (s : bytes) : option Addr := AddrV4 <$> parseIPv4Fields s.

Definition hexadecimal (c : Z) : option Z :=
  if decimal c then Some (c - 48)%Z
  else if ((97 <=? c) && (c <=? 102))%Z then Some (c - 87)%Z
  else if ((65 <=? c) && (c <=? 70))%Z then Some (c - 55)%Z
  else None.
(** The digits of a group: its value, their number and what follows. *)
Fixpoint hex_field (s : bytes) (off : nat) (acc : Z) : option (Z * nat * bytes) :=
  match s with
  | [] => Some (acc, off, [])
  | c :: s' =>
      match hexadecimal c with
      | Some d =>
          let v := (acc * 16 + d)%Z in
          if (3 <? off) || (65535 <? v)%Z then None else hex_field s' (S off) v
      | None => Some (acc, off, s)
      end
  end.
Fixpoint ipv6_loop (fuel : nat) (s : bytes) (ip : bytes) (ellipsis : option nat) : option (bytes * option nat * bytes) :=
  match fuel with
  | O => Some (ip, ellipsis, s)
  | S fuel =>
      f ← hex_field s 0 0;
      let '(acc, off, rest) := f in
      if off =? 0 then None
      else
        match rest with
        | [] => Some (ip ++ [acc / 256; acc mod 256]%Z, ellipsis, [])
        | c :: rest =>
            if (c =? 46)%Z
            then if bool_decide (ellipsis = None) && negb (length ip =? 12) then None
                 else if 16 <? length ip + 4 then None
                 else v4 ← parseIPv4Fields s; Some (ip ++ v4, ellipsis, [])
            else
              let ip := ip ++ [acc / 256; acc mod 256]%Z in
              if negb (c =? 58)%Z then None
              else match rest with
                   | [] => None
                   | c :: rest' =>
                       if (c =? 58)%Z
                       then match ellipsis, rest' with
                            | Some _, _ => None
                            | None, [] => Some (ip, Some (length ip), [])
                            | None, _ => ipv6_loop fuel rest' ip (Some (length ip))
                            end
                       else ipv6_loop fuel rest ip ellipsis
                   end
        end
  end.

(** The text before and after the first [%]. *)
Fixpoint split_zone (s : bytes) : bytes * option bytes :=
  match s with
  | [] => ([], None)
  | c :: s => if (c =? 37)%Z then ([], Some s) else let '(a, z) := split_zone s in (c :: a, z)
  end.
Definition zone_string (z : option bytes) : string :=
  match z with Some z => String.string_of_list_ascii ((λ c, Ascii.ascii_of_N (Z.to_N c)) <$> z) | None => "" end.

Definition parseIPv6 (s : bytes) : option Addr :=
  let '(s, zone) := split_zone s in
  if bool_decide (zone = Some []) then None
  else
    let z := zone_string zone in
    let '(lead, s) := match s with (58 :: 58 :: s)%Z => (true, s) | _ => (false, s) end in
    if lead && bool_decide (s = []) then Some (AddrV6 (replicate 16 0%Z) z)
    else
      p ← ipv6_loop 8 s [] (if lead then Some 0 else None);
      let '(ip, ellipsis, rest) := p in
      if negb (bool_decide (rest = [])) then None
      else if length ip <? 16
      then match ellipsis with
           | None => None
           | Some e => Some (AddrV6 (take e ip ++ replicate (16 - length ip) 0%Z ++ drop e ip) z)
           end
      else if bool_decide (ellipsis = None) then Some (AddrV6 ip z) else None.

(** The first dot, colon or percent sign says what the text is. *)
Fixpoint first_sign (s : bytes) : option Z :=
  match s with
  | [] => None
  | c :: s => if ((c =? 46) || (c =? 58) || (c =? 37))%Z then Some c else first_sign s
  end.
Definition ParseAddr (s : bytes) : option Addr :=
  match first_sign s with
  | Some 46%Z => parseIPv4 s
  | Some 58%Z => parseIPv6 s
  | _ => None
  end.

(** ** The predicates of an address *)

Definition Unmap (a : Addr) : Addr :=
  match a with AddrV6 b _ => if Is4In6 a then AddrV4 (drop 12 b) else a | _ => a end.

Definition byte (b : bytes) (i : nat) : Z := default 0%Z (b !! i).
Definition group (b : bytes) (i : nat) : Z := (byte b (2 * i) * 256 + byte b (2 * i + 1))%Z.

Definition IsLoopback (a : Addr) : bool :=
  match Unmap a with
  | AddrV4 b => (byte b 0 =? 127)%Z
  | AddrV6 b z => bool_decide (b = replicate 15 0%Z ++ [1%Z])
  | AddrInvalid => false
  end.
Definition IsPrivate (a : Addr) : bool :=
  match Unmap a with
  | AddrV4 b => ((byte b 0 =? 10) || ((byte b 0 =? 172) && (Z.land (byte b 1) 240 =? 16)) || ((byte b 0 =? 192) && (byte b 1 =? 168)))%Z
  | AddrV6 b _ => (Z.land (byte b 0) 254 =? 252)%Z
  | AddrInvalid => false
  end.
Definition IsLinkLocalUnicast (a : Addr) : bool :=
  match Unmap a with
  | AddrV4 b => ((byte b 0 =? 169) && (byte b 1 =? 254))%Z
  | AddrV6 b _ => (Z.land (group b 0) 65472 =? 65152)%Z
  | AddrInvalid => false
  end.
Definition IsLinkLocalMulticast (a : Addr) : bool :=
  match Unmap a with
  | AddrV4 b => ((byte b 0 =? 224) && (byte b 1 =? 0) && (byte b 2 =? 0))%Z
  | AddrV6 b _ => (Z.land (group b 0) 65295 =? 65282)%Z
  | AddrInvalid => false
  end.
Definition IsMulticast (a : Addr) : bool :=
  match Unmap a with
  | AddrV4 b => (Z.land (byte b 0) 240 =? 224)%Z
  | AddrV6 b _ => (byte b 0 =? 255)%Z
  | AddrInvalid => false
  end.
(** [IsUnspecified] does not look into a mapped address. *)
Definition IsUnspecified (a : Addr) : bool :=
  bool_decide (a = AddrV4 (replicate 4 0%Z)) || bool_decide (a = AddrV6 (replicate 16 0%Z) "").
(** [cgnatPrefix.Contains]: 100.64.0.0/10; a mapped address is in no IPv4 prefix. *)
Definition in_cgnat (a : Addr) : bool :=
  match a with AddrV4 b => (Z.shiftr (Z.lxor (be_value b) (be_value [100; 64; 0; 0]%Z)) 22 =? 0)%Z | _ => false end.

(** ** Validation and resolution ([resolver.go]) *)

Inductive address_error := InvalidZero | NotIPv4 | Loopback | Private | LinkLocal | Multicast | Unspecified | CGNAT.

Definition validateAddr (a : Addr) : option address_error :=
  if negb (IsValid a) then Some InvalidZero
  else if negb (Is4 a) && negb (Is4In6 a) then Some NotIPv4
  else if IsLoopback a then Some Loopback
  else if IsPrivate a then Some Private
  else if IsLinkLocalUnicast a || IsLinkLocalMulticast a then Some LinkLocal
  else if IsMulticast a then Some Multicast
  else if IsUnspecified a then Some Unspecified
  else if in_cgnat a then Some CGNAT
  else None.

Inductive fetch_error := Transport | Status (code : Z) | Unparseable | BadAddress (e : address_error).

(** What a source answers: nothing, or a status and a body, of which at most
    128 bytes are read. *)
Definition answer : Type := option (Z * bytes).
Definition fetchOne (r : answer) : fetch_error + Addr :=
  match r with
  | None => inl Transport
  | Some (code, body) =>
      if negb (code =? 200)%Z then inl (Status code)
      else match ParseAddr (Csam.TrimSpaceBytes (take 128 body)) with
           | None => inl Unparseable
           | Some a => inr (if Is4In6 a then Unmap a else a)
           end
  end.

(** [multiSourceResolver.Resolve]: the first source that gives a valid address. *)
Fixpoint multi_Resolve (sources : list answer) : list fetch_error + Addr :=
  match sources with
  | [] => inl []
  | r :: sources =>
      match fetchOne r with
      | inl e => sum_map (cons e) id (multi_Resolve sources)
      | inr a => match validateAddr a with
                 | Some e => sum_map (cons (BadAddress e)) id (multi_Resolve sources)
                 | None => inr a
                 end
      end
  end.

(** The [Resolver] interface: what a call returns, given what the world holds,
    and its promise. *)
Class Resolver (W : Type) := Resolve : W → list fetch_error + Addr.
Class ResolverLaws (W : Type) `{Resolver W} := Resolve_valid w a : Resolve w = inr a → validateAddr a = None.

(** [New]: a static resolver for an override that is valid, or the sources. *)
Inductive resolver := staticResolver (a : Addr) | multiSourceResolver.
Inductive new_error := NotAnIP | NotUsable (e : address_error).
Definition New (override : bytes) : new_error + resolver :=
  if bool_decide (override = []) then inr multiSourceResolver
  else match ParseAddr override with
       | None => inl NotAnIP
       | Some a => match validateAddr a with Some e => inl (NotUsable e) | None => inr (staticResolver a) end
       end.
Definition resolver_Resolve (r : resolver) (sources : list answer) : list fetch_error + Addr :=
  match r with staticResolver a => inr a | multiSourceResolver => multi_Resolve sources end.

(** ** The identity of the node ([dhtfx/module.go]) *)

Record NodeIdentity := mkIdentity { ni_ID : ID; ni_ExternalIP : Addr; ni_RandomFallback : bool }.

(** [resolveNodeIdentity], with the metric it sets; [rng] is what the random
    source gives to [SecureNodeID], [rand] to the fallback. *)
Definition resolveNodeIdentity (resolved : list fetch_error + Addr) (rng : option bytes) (rand : bytes) : NodeIdentity * bool :=
  let fallback := (mkIdentity (RandomNodeIDWithClientSuffix rand) AddrInvalid true, false) in
  match resolved with
  | inl _ => fallback
  | inr ip => match SecureNodeID ip rng with Ok id => (mkIdentity id ip false, true) | _ => fallback end
  end.

(** ** The watcher ([watcher.go], [metrics.go]) *)

Record pending := mkPending { pendingTarget : Addr; pendingCount : Z }.
Definition no_pending : pending := mkPending AddrInvalid 0.
Definition addPendingConfirmation (a : Addr) (p : pending) : pending :=
  let p := if bool_decide (pendingTarget p ≠ a) then mkPending a 0 else p in mkPending (pendingTarget p) (pendingCount p + 1).

Record Watcher := mkWatcher { w_identity : NodeIdentity; w_confirmations : Z }.
(** The settings that [NewWatcher] corrects. *)
Definition NewWatcher (i : NodeIdentity) (confirmations : Z) : Watcher :=
  mkWatcher i (if (confirmations <=? 0)%Z then 2 else confirmations)%Z.

Definition invalidates (i : NodeIdentity) (a : Addr) : bool :=
  ni_RandomFallback i || match VerifySecureNodeID (ni_ID i) a with Ok b => negb b | _ => true end.

(** [tick]: the pending confirmations, and the address if [onChange] is called. *)
Definition tick (w : Watcher) (resolved : list fetch_error + Addr) (p : pending) : pending * option Addr :=
  match resolved with
  | inl _ => (p, None)
  | inr a =>
      if negb (invalidates (w_identity w) a) then (no_pending, None)
      else let p := addPendingConfirmation a p in
           if (pendingCount p <? w_confirmations w)%Z then (p, None) else (p, Some a)
  end.

(** [Run] over the resolutions of its polls: it ends at the call of [onChange],
    with the number of polls before it. *)
Fixpoint Run (w : Watcher) (polls : list (list fetch_error + Addr)) (p : pending) (n : nat) : option (nat * Addr) :=
  match polls with
  | [] => None
  | r :: polls => match tick w r p with
                  | (_, Some a) => Some (n, a)
                  | (p, None) => Run w polls p (S n)
                  end
  end.

(** ** Which addresses are valid *)

Definition v4 (a b c d : Z) : Z := be_value [a; b; c; d].
(** Unspecified, private, CGNAT, loopback, link-local, private, private and multicast. *)
Definition refused : list (Z * Z) :=
  [(v4 0 0 0 0, v4 0 0 0 0); (v4 10 0 0 0, v4 10 255 255 255); (v4 100 64 0 0, v4 100 127 255 255); (v4 127 0 0 0, v4 127 255 255 255);
   (v4 169 254 0 0, v4 169 254 255 255); (v4 172 16 0 0, v4 172 31 255 255); (v4 192 168 0 0, v4 192 168 255 255); (v4 224 0 0 0, v4 239 255 255 255)].

Lemma byte_cases (P : Z → bool) x : byte_ok x → forallb P (seqZ 0 256) = true → P x = true.
Proof. intros Hx Hp. rewrite forallb_forall in Hp. apply Hp, list_elem_of_In, elem_of_seqZ. unfold byte_ok in Hx. lia. Qed.
Lemma land_240_16 x : byte_ok x → (Z.land x 240 =? 16)%Z = ((16 <=? x) && (x <=? 31))%Z.
Proof. intros Hx. apply eqb_prop. by apply (byte_cases (λ x, eqb (Z.land x 240 =? 16) ((16 <=? x) && (x <=? 31)))%Z). Qed.
Lemma land_240_224 x : byte_ok x → (Z.land x 240 =? 224)%Z = ((224 <=? x) && (x <=? 239))%Z.
Proof. intros Hx. apply eqb_prop. by apply (byte_cases (λ x, eqb (Z.land x 240 =? 224) ((224 <=? x) && (x <=? 239)))%Z). Qed.

Lemma cgnat_range v : (0 ≤ v)%Z → (Z.shiftr (Z.lxor v (be_value [100; 64; 0; 0]%Z)) 22 =? 0)%Z = ((v4 100 64 0 0 <=? v) && (v <=? v4 100 127 255 255))%Z.
Proof.
  intros Hv. rewrite Z.shiftr_lxor. change (Z.shiftr (be_value [100; 64; 0; 0]%Z) 22) with 401%Z. rewrite Z.shiftr_div_pow2 by lia.
  change (v4 100 64 0 0) with (401 * 2 ^ 22)%Z. change (v4 100 127 255 255) with (402 * 2 ^ 22 - 1)%Z.
  apply eq_true_iff_eq. rewrite Z.eqb_eq, andb_true_iff, !Z.leb_le, Z.lxor_eq_0_iff.
  split; [intros He|intros [Ha Hb]].
  - pose proof (Z.div_mod v (2 ^ 22) ltac:(lia)). pose proof (Z.mod_pos_bound v (2 ^ 22) ltac:(lia)). lia.
  - symmetry. apply (Z.div_unique v (2 ^ 22) 401 (v - 401 * 2 ^ 22)); lia.
Qed.

Lemma v4_value a b c d : v4 a b c d = (((a * 256 + b) * 256 + c) * 256 + d)%Z.
Proof. unfold v4, be_value. cbn [foldl]. lia. Qed.

(** The addresses that are accepted.  An IPv4 address passes the checks
    exactly when, read as a number, it is outside eight ranges: 0.0.0.0,
    10.0.0.0/8, 100.64.0.0/10, 127.0.0.0/8, 169.254.0.0/16, 172.16.0.0/12,
    192.168.0.0/16 and 224.0.0.0/4; no other IPv6 address than a mapped one does. *)
Theorem validate_ranges a :
  addr_ok a →
  match a with
  | AddrV4 b => validateAddr a = None ↔ Forall (λ r, ¬ (r.1 ≤ be_value b ≤ r.2)%Z) refused
  | _ => validateAddr a = None → Is4In6 a = true
  end.
Proof.
  destruct a as [|b|b z]; intros Hok; [done| |].
  - destruct Hok as [Hl Hb]. destruct b as [|w [|x [|y [|t [|]]]]]; try done. unfold bytes_ok in Hb. rewrite !Forall_cons in Hb. destruct Hb as (Hw & Hx & Hy & Ht & _).
    unfold validateAddr, IsLoopback, IsPrivate, IsLinkLocalUnicast, IsLinkLocalMulticast, IsMulticast, IsUnspecified, in_cgnat.
    cbn [IsValid Is4 Unmap byte negb andb lookup list_lookup default from_option id].
    rewrite land_240_16, land_240_224 by done. fold (v4 w x y t). rewrite cgnat_range by (rewrite v4_value; unfold byte_ok in *; lia).
    rewrite (bool_decide_eq_false_2 (AddrV4 _ = AddrV6 _ _)) by done. rewrite orb_false_r.
    assert (Hz : bool_decide (AddrV4 [w; x; y; t] = AddrV4 (replicate 4 0%Z)) = (v4 w x y t =? 0)%Z).
    { apply eq_true_iff_eq. rewrite bool_decide_eq_true, Z.eqb_eq, v4_value. split; [by intros [= -> -> -> ->]|]. intros He.
      assert (w = 0 ∧ x = 0 ∧ y = 0 ∧ t = 0)%Z as (-> & -> & -> & ->) by (unfold byte_ok in *; lia). done. }
    rewrite Hz. unfold refused. rewrite !Forall_cons. cbn [fst snd]. fold (v4 w x y t). rewrite !v4_value. unfold byte_ok in *.
    repeat match goal with |- context [if ?c then _ else _] => destruct c eqn:? end;
      rewrite ?orb_true_iff, ?orb_false_iff, ?andb_true_iff, ?andb_false_iff, ?Z.eqb_eq, ?Z.eqb_neq, ?Z.leb_le, ?Z.leb_gt in *;
      (split; [intros Hn; first [discriminate Hn|split_and!; [lia..|constructor]] | intros (R1 & R2 & R3 & R4 & R5 & R6 & R7 & R8 & _); first [reflexivity|exfalso; lia]]).
  - unfold validateAddr. cbn [IsValid Is4 negb andb]. by destruct (Is4In6 (AddrV6 b z)).
Qed.

(** ** Resolution *)

Lemma validate_mapped a : validateAddr a = None → Is4 a = true ∨ Is4In6 a = true.
Proof. unfold validateAddr. destruct (IsValid a), (Is4 a), (Is4In6 a); cbn; intros Hv; first [discriminate Hv|by left|by right]. Qed.

Lemma fetchOne_unmapped r a : fetchOne r = inr a → Is4In6 a = false.
Proof.
  unfold fetchOne. destruct r as [[code body]|]; [|done]. destruct (negb _); [done|]. destruct (ParseAddr _) as [p|]; [|done].
  destruct (Is4In6 p) eqn:Em; intros [= <-]; [|done]. destruct p as [|b|b z]; try done. unfold Unmap. by rewrite Em.
Qed.

(** The external address.  When the sources give one it is the first
    answer, in their order, that is a text of a valid address, and it is an IPv4
    address; when they give none, every source failed and left one error. *)
Theorem resolve_first_valid sources :
  let fails r := ∀ a, fetchOne r = inr a → validateAddr a ≠ None in
  match multi_Resolve sources with
  | inr a => ∃ pre r post, sources = pre ++ r :: post ∧ fetchOne r = inr a ∧ validateAddr a = None ∧ Is4 a = true ∧ Forall fails pre
  | inl es => length es = length sources ∧ Forall fails sources
  end.
Proof.
  intros fails. induction sources as [|r sources IH]; [by split|]. cbn [multi_Resolve].
  assert (Hnext : ∀ e, fails r →
    match sum_map (cons e) id (multi_Resolve sources) with
    | inr a => ∃ pre r' post, r :: sources = pre ++ r' :: post ∧ fetchOne r' = inr a ∧ validateAddr a = None ∧ Is4 a = true ∧ Forall fails pre
    | inl es => length es = length (r :: sources) ∧ Forall fails (r :: sources)
    end).
  { intros e Hr. destruct (multi_Resolve sources) as [es|a]; cbn [sum_map id].
    - destruct IH as [He Hf]. split; [cbn [length]; by rewrite He|by constructor].
    - destruct IH as (pre & r' & post & -> & Hf & Hv & H4 & Hpre). exists (r :: pre), r', post. split_and!; [done..|by constructor]. }
  destruct (fetchOne r) as [e|a] eqn:Ef; [by apply Hnext; intros a'; rewrite Ef|].
  destruct (validateAddr a) as [e|] eqn:Ev; [apply Hnext; intros a'; rewrite Ef; by intros [= <-]; rewrite Ev|].
  exists [], r, sources. split_and!; [done..| |constructor]. pose proof (fetchOne_unmapped r a Ef) as Hm. destruct (validate_mapped a Ev) as [|Hm']; [done|congruence].
Qed.

(** The two resolvers keep the promise of the interface. *)
Lemma multi_Resolve_valid sources a : multi_Resolve sources = inr a → validateAddr a = None.
Proof.
  induction sources as [|r sources IH]; [done|]. cbn [multi_Resolve]. destruct (fetchOne r) as [e|b].
  - destruct (multi_Resolve sources); [done|]. intros [= <-]. by apply IH.
  - destruct (validateAddr b) eqn:Ev; [|by intros [= <-]]. destruct (multi_Resolve sources); [done|]. intros [= <-]. by apply IH.
Qed.
Lemma New_valid override r : New override = inr r → ∀ sources a, resolver_Resolve r sources = inr a → validateAddr a = None.
Proof.
  unfold New. destruct (bool_decide _); [intros [= <-]; apply multi_Resolve_valid|]. destruct (ParseAddr override) as [b|]; [|done].
  destruct (validateAddr b) eqn:Ev; [done|]. intros [= <-] sources a. by intros [= <-].
Qed.
#[export] Instance multi_resolver : Resolver (list answer) := multi_Resolve.
#[export] Instance multi_resolver_laws : ResolverLaws (list answer) := multi_Resolve_valid.

(** ** The watcher *)

(** The successful resolutions, and the length of the run of equal,
    invalidating ones at their end. *)
Definition successes (polls : list (list fetch_error + Addr)) : list Addr := omap (λ r, match r with inr a => Some a | inl _ => None end) polls.

(** What makes the watcher act: enough resolutions in a row, the last of them
    just now, that agree on an address the identifier does not fit. *)
Definition confirmed (w : Watcher) (polls : list (list fetch_error + Addr)) (a : Addr) : Prop :=
  last polls = Some (inr a) ∧ invalidates (w_identity w) a = true ∧ replicate (Z.to_nat (w_confirmations w)) a `suffix_of` successes polls.

(** The state of the watcher after some polls that it did not act on. *)
Definition tracks (w : Watcher) (polls : list (list fetch_error + Addr)) (p : pending) : Prop :=
  (p = no_pending ∧ (∀ a, last (successes polls) = Some a → invalidates (w_identity w) a = false))
  ∨ ∃ pre n a, successes polls = pre ++ replicate (S n) a ∧ last pre ≠ Some a ∧ a ≠ AddrInvalid ∧ invalidates (w_identity w) a = true
      ∧ p = mkPending a (Z.of_nat (S n)).

Lemma successes_app p q : successes (p ++ q) = successes p ++ successes q.
Proof. apply omap_app. Qed.

Lemma replicate_end {A} (a : A) n : replicate (S n) a = replicate n a ++ [a].
Proof. induction n as [|n IH]; [done|]. cbn [replicate app] in *. by rewrite IH at 1. Qed.

(** The longest run of an address at the end of a list. *)
Lemma suffix_run {A} (pre : list A) n m a : last pre ≠ Some a → replicate m a `suffix_of` pre ++ replicate n a → m ≤ n.
Proof.
  revert n. induction m as [|m IH]; intros n Hp Hs; [lia|]. destruct n as [|n].
  - exfalso. rewrite replicate_end in Hs. cbn [replicate] in Hs. rewrite app_nil_r in Hs. apply Hp. destruct Hs as [k ->]. rewrite app_assoc. apply last_snoc.
  - rewrite !replicate_end, app_assoc in Hs. apply suffix_snoc_inv_2 in Hs. apply le_n_S. by apply IH.
Qed.

Lemma tick_tracks w polls p r :
  (0 < w_confirmations w)%Z → (∀ a, r = inr a → a ≠ AddrInvalid) → tracks w polls p →
  match tick w r p with
  | (p', Some a) => r = inr a ∧ confirmed w (polls ++ [r]) a
  | (p', None) => tracks w (polls ++ [r]) p' ∧ ∀ a, ¬ confirmed w (polls ++ [r]) a
  end.
Proof.
  intros Hc Hr Ht. destruct r as [es|a]; cbn [tick].
  { split; [|intros a [Hl _]; by rewrite last_snoc in Hl]. unfold tracks. rewrite successes_app, app_nil_r. exact Ht. }
  specialize (Hr a eq_refl). assert (Es : successes (polls ++ [inr a]) = successes polls ++ [a]) by apply successes_app.
  destruct (invalidates (w_identity w) a) eqn:Ei; cbn [negb].
  2:{ split.
      - left. split; [done|]. intros b. rewrite Es, last_snoc. by intros [= <-].
      - intros b (Hl & Hi & _). rewrite last_snoc in Hl. injection Hl as <-. congruence. }
  assert (Hrun : ∃ pre n, successes (polls ++ [inr a]) = pre ++ replicate (S n) a ∧ last pre ≠ Some a
            ∧ addPendingConfirmation a p = mkPending a (Z.of_nat (S n))).
  { rewrite Es. destruct Ht as [[-> Hlast]|(pre & n & b & Hpre & Hlb & Hb & Hib & ->)].
    - exists (successes polls), 0. split; [done|]. split; [intros Hl; specialize (Hlast a Hl); congruence|].
      unfold addPendingConfirmation, no_pending. cbn [pendingTarget pendingCount]. by rewrite bool_decide_eq_true_2 by done.
    - unfold addPendingConfirmation. cbn [pendingTarget pendingCount]. destruct (decide (b = a)) as [->|Hne].
      + exists pre, (S n). rewrite Hpre, <- app_assoc, <- (replicate_end a (S n)). split; [done|]. split; [done|].
        rewrite bool_decide_eq_false_2 by (intros Hx; by apply Hx). cbn [pendingTarget pendingCount]. f_equal. lia.
      + exists (successes polls), 0. split; [done|]. split; [rewrite Hpre, replicate_end, app_assoc, last_snoc; congruence|].
        by rewrite bool_decide_eq_true_2 by done. }
  destruct Hrun as (pre & n & Hs & Hlast & ->). cbn [pendingCount]. destruct (Z.ltb_spec (Z.of_nat (S n)) (w_confirmations w)) as [Hlt|Hge].
  - split; [right; exists pre, n, a; by split_and!|]. intros b (Hl & _ & Hsuf). rewrite last_snoc in Hl. injection Hl as <-.
    rewrite Hs in Hsuf. apply suffix_run in Hsuf; [lia|done].
  - split; [done|]. split; [apply last_snoc|]. split; [done|]. rewrite Hs.
    replace (S n) with ((S n - Z.to_nat (w_confirmations w)) + Z.to_nat (w_confirmations w)) by lia. rewrite replicate_add, app_assoc. by eexists.
Qed.

Lemma Run_from w done polls p :
  (0 < w_confirmations w)%Z → Forall (λ r, ∀ a, r = inr a → a ≠ AddrInvalid) polls → tracks w done p →
  match Run w polls p (length done) with
  | None => ∀ m a, 0 < m ≤ length polls → ¬ confirmed w (done ++ take m polls) a
  | Some (n, a) => length done ≤ n ∧ confirmed w (done ++ take (S n - length done) polls) a
      ∧ ∀ m b, 0 < m ≤ n - length done → ¬ confirmed w (done ++ take m polls) b
  end.
Proof.
  intros Hc. revert done p. induction polls as [|r polls IH]; intros done p Hv Ht; [cbn; intros m a; lia|]. apply Forall_cons in Hv as [Hr Hv].
  pose proof (tick_tracks w done p r Hc Hr Ht) as Htick. cbn [Run]. destruct (tick w r p) as [p' [a|]].
  - destruct Htick as [_ Hconf]. split; [done|]. replace (S (length done) - length done) with 1 by lia. cbn [take]. rewrite take_0. split; [done|]. intros m b. lia.
  - destruct Htick as [Ht' Hno]. specialize (IH (done ++ [r]) p' Hv Ht'). rewrite length_app in IH. cbn [length] in IH. rewrite Nat.add_1_r in IH.
    assert (Hstep : ∀ m b, 0 < m → (∀ m', m = S m' → 0 < m' → ¬ confirmed w ((done ++ [r]) ++ take m' polls) b) → ¬ confirmed w (done ++ take m (r :: polls)) b).
    { intros m b Hm Hx. destruct m as [|m]; [lia|]. cbn [take]. destruct (decide (m = 0)) as [->|Hm0]; [rewrite take_0; apply Hno|].
      specialize (Hx m eq_refl ltac:(lia)). by rewrite <- app_assoc in Hx. }
    destruct (Run w polls p' (S (length done))) as [[n a]|].
    + destruct IH as (Hn & Hconf & Hmin). split; [lia|]. split.
      * replace (S n - length done) with (S (S n - S (length done))) by lia. cbn [take]. by rewrite <- app_assoc in Hconf.
      * intros m b Hm. apply Hstep; [lia|]. intros m' -> Hm'. apply Hmin. lia.
    + intros m a Hm. cbn [length] in Hm. apply Hstep; [lia|]. intros m' -> Hm'. apply IH. lia.
Qed.

Lemma tracks_nil w : tracks w [] no_pending.
Proof. left. by split. Qed.

(** C36: The watcher acts exactly when it should.  Over the polls of any
    resolver that keeps its promise, the process is restarted at the first poll
    that completes a run of the required number of successful resolutions of
    one address which the identifier of the node does not fit; failures in
    between do not count, neither for nor against, and if there is no such poll
    it is never restarted. *)
Theorem watcher_exact `{ResolverLaws W} w worlds :
  (0 < w_confirmations w)%Z →
  let polls := Resolve <$> worlds in
  match Run w polls no_pending 0 with
  | None => ∀ m a, m ≤ length polls → ¬ confirmed w (take m polls) a
  | Some (n, a) => confirmed w (take (S n) polls) a ∧ ∀ m b, m ≤ n → ¬ confirmed w (take m polls) b
  end.
Proof.
  intros Hc polls. pose proof (Run_from w [] polls no_pending Hc) as Hrun. cbn [length app] in Hrun.
  assert (Hnil : ∀ b, ¬ confirmed w [] b) by (by intros b [? _]).
  destruct (Run w polls no_pending 0) as [[n a]|].
  - destruct Hrun as (_ & Hconf & Hmin); [|apply tracks_nil|]; [|rewrite !Nat.sub_0_r in *; split; [done|]].
    + apply Forall_fmap, Forall_forall. intros x _ b Hx ->. by apply Resolve_valid in Hx.
    + intros m b Hm. destruct m as [|m]; [rewrite take_0; apply Hnil|]. apply Hmin. lia.
  - intros m a Hm. destruct m as [|m]; [rewrite take_0; apply Hnil|]. apply Hrun; [|apply tracks_nil|lia].
    apply Forall_fmap, Forall_forall. intros x _ b Hx ->. by apply Resolve_valid in Hx.
Qed.

(** The life of an identity.  An identifier that was derived from an
    address is kept as long as that address is what the polls resolve to, and
    one that was chosen at random is given up once enough polls in a row agree
    on an address. *)
Theorem identity_kept resolved rng rand confirmations polls :
  length rng = 17 → bytes_ok rng → Forall (λ r, ∀ a, r = inr a → a ≠ AddrInvalid) polls →
  let '(i, secure) := resolveNodeIdentity resolved (Some rng) rand in
  let w := NewWatcher i confirmations in
  (secure = true → (∀ a, a ∈ successes polls → Some a = match resolved with inr ip => Some ip | inl _ => None end) → Run w polls no_pending 0 = None)
  ∧ (secure = false → ∀ a, replicate (Z.to_nat (w_confirmations w)) a `suffix_of` successes polls → last polls = Some (inr a) → Run w polls no_pending 0 ≠ None).
Proof.
  intros Hl Hok Hv. pose proof (λ w Hc, Run_from w [] polls no_pending Hc Hv (tracks_nil w)) as Hrun. cbn [length app] in Hrun.
  assert (Hc : ∀ i, (0 < w_confirmations (NewWatcher i confirmations))%Z).
  { intros i. unfold NewWatcher. cbn [w_confirmations]. destruct (Z.leb_spec confirmations 0); lia. }
  assert (Hback : ∀ i a, ni_RandomFallback i = true → replicate (Z.to_nat (w_confirmations (NewWatcher i confirmations))) a `suffix_of` successes polls →
            last polls = Some (inr a) → Run (NewWatcher i confirmations) polls no_pending 0 ≠ None).
  { intros i a Hi Hs Hlast Hn. specialize (Hrun (NewWatcher i confirmations) (Hc i)). rewrite Hn in Hrun. apply (Hrun (length polls) a).
    - destruct polls; [done|]. cbn. lia.
    - rewrite take_ge by done. split; [done|]. split; [|done]. unfold invalidates. cbn [w_identity NewWatcher]. by rewrite Hi. }
  unfold resolveNodeIdentity. destruct resolved as [es|ip]; [split; [done|intros _ a; by apply Hback]|].
  destruct (IsValid ip) eqn:Hip; [|unfold SecureNodeID; rewrite Hip; cbn; split; [done|intros _ a; by apply Hback]].
  destruct (SecureNodeID_verifies ip rng Hip Hl Hok) as (id & -> & _ & _ & Hver). split; [|done]. intros _ Hall.
  specialize (Hrun (NewWatcher (mkIdentity id ip false) confirmations) (Hc _)). destruct (Run _ _ _ _) as [[n a]|]; [exfalso|done].
  destruct Hrun as (_ & (Hlast & Hinv & Hsuf) & _). assert (Ha : a ∈ successes polls).
  { apply list_elem_of_omap. exists (inr a). split; [|done]. apply last_Some in Hlast as [l' Hlast].
    rewrite <- (take_drop (S n - 0) polls), Hlast. apply elem_of_app. left. apply elem_of_app. right. by left. }
  specialize (Hall a Ha). injection Hall as ->. unfold invalidates in Hinv. cbn [w_identity NewWatcher ni_ID ni_RandomFallback] in Hinv. by rewrite Hver in Hinv.
Qed.

(** ** Printing and parsing *)

(** The digits of an octet, read on from a value. *)
Fixpoint feed (ds : bytes) (val : Z) (digits : nat) : option (Z * nat) :=
  match ds with
  | [] => Some (val, digits)
  | c :: ds =>
      let v := (val * 10 + (c - 48))%Z in
      if negb (decimal c) || ((digits =? 1) && (val =? 0)%Z) || (255 <? v)%Z then None else feed ds v (S digits)
  end.
Lemma ipv4_feed ds s dot val digits fields v n :
  ds ≠ [] → feed ds val digits = Some (v, n) → ipv4_loop (ds ++ s) dot val digits fields = ipv4_loop s false v n fields.
Proof.
  revert dot val digits. induction ds as [|c ds IH]; intros dot val digits Hne; [done|]. cbn [feed app ipv4_loop]. destruct (decimal c); [|done]. cbn [negb orb].
  destruct (_ && _); [done|]. destruct (255 <? _)%Z; [done|]. cbn [orb]. destruct ds as [|c' ds]; [by intros [= <- <-]|]. by apply IH.
Qed.

Definition octet (x : Z) : bytes := string_bytes (pretty (Z.to_N x)).
Lemma octet_checked :
  forallb (λ x, bool_decide (feed (octet x) 0 0 = Some (x, length (octet x))) && forallb decimal (octet x) && bool_decide (octet x ≠ [])) (seqZ 0 256) = true.
Proof. vm_compute. reflexivity. Qed.
Lemma octet_ok x : byte_ok x → feed (octet x) 0 0 = Some (x, length (octet x)) ∧ Forall (λ c, decimal c = true) (octet x) ∧ octet x ≠ [].
Proof.
  intros Hx. pose proof (byte_cases _ x Hx octet_checked) as Hc. rewrite !andb_true_iff, !bool_decide_eq_true in Hc. destruct Hc as [[Hf Hd] Hn].
  split; [done|]. split; [|done]. apply Forall_forall. intros c Hin. rewrite forallb_forall in Hd. by apply Hd, list_elem_of_In.
Qed.

Lemma string_bytes_app a b : string_bytes (a +:+ b) = string_bytes a ++ string_bytes b.
Proof. unfold string_bytes. induction a as [|c a IH]; [done|]. apply (f_equal (cons (Z.of_N (Ascii.N_of_ascii c)))). exact IH. Qed.

Definition text4 (b : bytes) : bytes := string_bytes (Addr_String (AddrV4 b)).
Lemma text4_octets w x y t : text4 [w; x; y; t] = octet w ++ [46%Z] ++ octet x ++ [46%Z] ++ octet y ++ [46%Z] ++ octet t.
Proof. unfold text4, octet. cbn [Addr_String dotted]. by rewrite !string_bytes_app. Qed.

Lemma first_sign_octet x s : byte_ok x → first_sign (octet x ++ s) = first_sign s.
Proof.
  intros Hx. destruct (octet_ok x Hx) as (_ & Hd & _). induction Hd as [|c l Hc _ IH]; [done|]. cbn [app first_sign].
  unfold decimal in Hc. apply andb_true_iff in Hc as [Ha Hb]. apply Z.leb_le in Ha, Hb.
  destruct (Z.eqb_spec c 46), (Z.eqb_spec c 58), (Z.eqb_spec c 37); try lia. exact IH.
Qed.

Lemma ipv4_dot s val digits fields :
  s ≠ [] → length fields < 3 → ipv4_loop (46%Z :: s) false val digits fields = ipv4_loop s true 0 0 (fields ++ [val]).
Proof.
  intros Hs Hl. cbn [ipv4_loop decimal orb]. rewrite bool_decide_eq_false_2 by done. cbn [orb]. destruct (Nat.eqb_spec (length fields) 3); [lia|done].
Qed.

Lemma ParseAddr_text4 b : length b = 4 → bytes_ok b → ParseAddr (text4 b) = Some (AddrV4 b).
Proof.
  intros Hl Hb. destruct b as [|w [|x [|y [|t [|]]]]]; try done. unfold bytes_ok in Hb. rewrite !Forall_cons in Hb. destruct Hb as (Hw & Hx & Hy & Ht & _).
  rewrite text4_octets. unfold ParseAddr. rewrite first_sign_octet by done. cbn [app first_sign Z.eqb Pos.eqb orb]. unfold parseIPv4, parseIPv4Fields.
  destruct (octet_ok w Hw) as (Fw & _ & Nw), (octet_ok x Hx) as (Fx & _ & Nx), (octet_ok y Hy) as (Fy & _ & Ny), (octet_ok t Ht) as (Ft & _ & Nt).
  rewrite (ipv4_feed _ _ _ _ _ _ _ _ Nw Fw), ipv4_dot by (first [by intros Hx'; apply app_nil in Hx' as [Hx' _]|simpl; lia]).
  rewrite (ipv4_feed _ _ _ _ _ _ _ _ Nx Fx), ipv4_dot by (first [by intros Hx'; apply app_nil in Hx' as [Hx' _]|simpl; lia]).
  rewrite (ipv4_feed _ _ _ _ _ _ _ _ Ny Fy), ipv4_dot by (first [done|simpl; lia]).
  rewrite <- (app_nil_r (octet t)), (ipv4_feed _ _ _ _ _ _ _ _ Nt Ft). reflexivity.
Qed.

(** Trimming a newline after a text without spaces. *)
Lemma trailing_newline x : Csam.trailing_space (x ++ [10%Z]) = 1.
Proof.
  unfold Csam.trailing_space, Csam.ends_with_space. rewrite length_app. cbn [length]. replace (length x + 1 - 1) with (length x) by lia.
  rewrite drop_app_length. destruct (Nat.leb_spec 1 (length x + 1)); [done|lia].
Qed.
Lemma TrimSpace_newline s : s ≠ [] → Forall Csam.solid s → Csam.TrimSpaceBytes (s ++ [10%Z]) = s.
Proof.
  intros Hne Hs. unfold Csam.TrimSpaceBytes. destruct s as [|c s]; [done|]. pose proof Hs as Hs'. apply Forall_cons in Hs' as [Hc _]. cbn [app].
  rewrite Csam.trim_leading_solid by done. change (c :: s ++ [10%Z]) with ((c :: s) ++ [10%Z]).
  destruct (c :: s) as [|d l _] using rev_ind; [done|]. apply Forall_app in Hs as [_ Hs]. apply Forall_cons in Hs as [Hd _].
  rewrite (length_app (l ++ [d]) [10%Z]). cbn [length]. rewrite Nat.add_comm. cbn [Nat.add Csam.trim_trailing].
  rewrite trailing_newline.
  rewrite (length_app (l ++ [d]) [10%Z]). cbn [length]. replace (length (l ++ [d]) + 1 - 1) with (length (l ++ [d])) by lia. rewrite take_app_length. by apply Csam.trim_trailing_solid.
Qed.

Lemma text4_solid b : length b = 4 → bytes_ok b → Forall Csam.solid (text4 b) ∧ text4 b ≠ [] ∧ length (text4 b) ≤ 15.
Proof.
  intros Hl Hb. destruct b as [|w [|x [|y [|t [|]]]]]; try done. unfold bytes_ok in Hb. rewrite !Forall_cons in Hb. destruct Hb as (Hw & Hx & Hy & Ht & _).
  assert (Ho : ∀ z, byte_ok z → Forall Csam.solid (octet z) ∧ octet z ≠ [] ∧ length (octet z) ≤ 3).
  { intros z Hz. destruct (octet_ok z Hz) as (_ & Hd & Hn). split; [|split; [done|]].
    - eapply Forall_impl; [exact Hd|]. intros c Hc. unfold decimal in Hc. apply andb_true_iff in Hc as [Ha Hb]. apply Z.leb_le in Ha, Hb. unfold Csam.solid. lia.
    - apply Nat.leb_le. apply (byte_cases (λ z, length (octet z) <=? 3)); [done|]. vm_compute. reflexivity. }
  rewrite text4_octets. destruct (Ho w Hw) as (Sw & Nw & Lw), (Ho x Hx) as (Sx & _ & Lx), (Ho y Hy) as (Sy & _ & Ly), (Ho t Ht) as (St & _ & Lt).
  assert (Hdot : Forall Csam.solid [46%Z]) by (repeat constructor; unfold Csam.solid; lia). rewrite !Forall_app, !length_app. cbn [length].
  split; [by split_and!|]. split; [by intros He; apply app_nil in He as [He _]|lia].
Qed.

(** An honest source is understood.  The text that [netip] prints for an
    IPv4 address, with or without a newline, is read back as that address, so a
    source that answers with a public address resolves to it. *)
Theorem honest_source b newline sources :
  length b = 4 → bytes_ok b →
  ParseAddr (string_bytes (Addr_String (AddrV4 b))) = Some (AddrV4 b)
  ∧ (validateAddr (AddrV4 b) = None →
      multi_Resolve (Some (200%Z, string_bytes (Addr_String (AddrV4 b)) ++ (if newline : bool then [10%Z] else [])) :: sources) = inr (AddrV4 b)).
Proof.
  intros Hl Hb. fold (text4 b). pose proof (ParseAddr_text4 b Hl Hb) as Hp. split; [done|]. intros Hv. destruct (text4_solid b Hl Hb) as (Hs & Hn & Hlen).
  cbn [multi_Resolve]. unfold fetchOne. cbn [Z.eqb Pos.eqb negb]. rewrite take_ge by (rewrite length_app; destruct newline; cbn [length]; lia).
  assert (Csam.TrimSpaceBytes (text4 b ++ (if newline then [10%Z] else [])) = text4 b) as ->.
  { destruct newline; [by apply TrimSpace_newline|]. rewrite app_nil_r. by apply Csam.TrimSpace_solid. }
  rewrite Hp. cbn [Is4In6]. by rewrite Hv.
Qed.

(** ** On concrete inputs *)

Definition parse (s : string) : option Addr := ParseAddr (string_bytes s).
Example parse_examples :
  parse "1.2.3.4" = Some (AddrV4 [1; 2; 3; 4]%Z) ∧ parse "01.2.3.4" = None ∧ parse "1.2.3" = None ∧ parse "1.2.3.4." = None ∧ parse "1.2.3.256" = None
  ∧ parse "::" = Some (AddrV6 (replicate 16 0%Z) "") ∧ parse "2001:db8::1" = Some (AddrV6 ([32; 1; 13; 184] ++ replicate 11 0 ++ [1])%Z "")
  ∧ parse "::ffff:1.2.3.4" = Some (AddrV6 (replicate 10 0 ++ [255; 255; 1; 2; 3; 4])%Z "") ∧ parse "fe80::1%eth0" = Some (AddrV6 ([254; 128] ++ replicate 13 0 ++ [1])%Z "eth0")
  ∧ parse "1:2:3:4:5:6:7:8" = Some (AddrV6 [0; 1; 0; 2; 0; 3; 0; 4; 0; 5; 0; 6; 0; 7; 0; 8]%Z "") ∧ parse "1:2:3:4:5:6:7::8" = None ∧ parse "1::2::3" = None
  ∧ parse "12345::" = None ∧ parse "1:2" = None ∧ parse "%eth0" = None ∧ parse "::1%" = None ∧ parse "localhost" = None.
Proof. split_and!; vm_compute; reflexivity. Qed.

(** Addresses that are not globally routable are accepted: documentation,
    benchmarking, reserved, limited broadcast and "this network". *)
Example reserved_accepted :
  Forall (λ b, validateAddr (AddrV4 b) = None) [[192; 0; 2; 1]; [198; 18; 0; 1]; [203; 0; 113; 7]; [240; 0; 0; 1]; [255; 255; 255; 255]; [0; 1; 2; 3]]%Z.
Proof. repeat constructor. Qed.

(** An override that is written as a mapped address escapes two of the checks. *)
Example mapped_override_accepted :
  New (string_bytes "100.64.0.1") = inl (NotUsable CGNAT) ∧ New (string_bytes "0.0.0.0") = inl (NotUsable Unspecified)
  ∧ New (string_bytes "::ffff:100.64.0.1") = inr (staticResolver (AddrV6 (replicate 10 0 ++ [255; 255; 100; 64; 0; 1])%Z ""))
  ∧ New (string_bytes "::ffff:0.0.0.0") = inr (staticResolver (AddrV6 (replicate 10 0 ++ [255; 255; 0; 0; 0; 0])%Z "")).
Proof. split_and!; vm_compute; reflexivity. Qed.

Lemma validate_ranges_witness : validateAddr (AddrV4 [8; 8; 8; 8]%Z) = None.
Proof.
  apply (validate_ranges (AddrV4 [8; 8; 8; 8]%Z)); [split; [reflexivity|repeat constructor; unfold byte_ok; lia]|].
  unfold refused. repeat (constructor; [vm_compute; intros [Ha Hb]; first [by apply Ha|by apply Hb]|]). constructor.
Defined.
Lemma honest_source_witness : multi_Resolve [Some (200%Z, string_bytes "8.8.8.8" ++ [10%Z])] = inr (AddrV4 [8; 8; 8; 8]%Z).
Proof. apply (honest_source [8; 8; 8; 8]%Z true []); [reflexivity|repeat constructor; unfold byte_ok; lia|vm_compute; reflexivity]. Defined.

(** The process started at one address and finds itself twice at another. *)
Definition booted : NodeIdentity := Eval vm_compute in (resolveNodeIdentity (inr ex_ip) (Some ex_rng) []).1.
Definition moved : list (list answer) :=
  [[Some (200%Z, string_bytes "124.31.75.21")]; [None]; [Some (200%Z, string_bytes "8.8.8.8")]; [Some (500%Z, [])]; [Some (200%Z, string_bytes "8.8.8.8")]].
Lemma watcher_exact_witness :
  Run (NewWatcher booted 0) (Resolve <$> moved) no_pending 0 = Some (4, AddrV4 [8; 8; 8; 8]%Z)
  ∧ confirmed (NewWatcher booted 0) (Resolve <$> moved) (AddrV4 [8; 8; 8; 8]%Z).
Proof.
  assert (Hr : Run (NewWatcher booted 0) (Resolve <$> moved) no_pending 0 = Some (4, AddrV4 [8; 8; 8; 8]%Z)) by (vm_compute; reflexivity).
  split; [exact Hr|]. pose proof (watcher_exact (NewWatcher booted 0) moved) as Hw. cbv zeta in Hw. rewrite Hr in Hw.
  destruct Hw as [Hw _]; [reflexivity|exact Hw].
Defined.
Lemma identity_kept_witness :
  Run (NewWatcher booted 2) [inr ex_ip; inl []; inr ex_ip; inr ex_ip] no_pending 0 = None.
Proof.
  pose proof (identity_kept (inr ex_ip) ex_rng [] 2 [inr ex_ip; inl []; inr ex_ip; inr ex_ip]) as Hk.
  assert (Hb : resolveNodeIdentity (inr ex_ip) (Some ex_rng) [] = (booted, true)) by (vm_compute; reflexivity). rewrite Hb in Hk.
  apply Hk; [reflexivity|unfold bytes_ok; cbn; repeat constructor; unfold byte_ok; lia|repeat (constructor; [intros a [= <-]; discriminate || done|]); constructor|reflexivity|].
  intros a Ha. cbn in Ha. rewrite !elem_of_cons, elem_of_nil in Ha. destruct Ha as [->|[->|[->|[]]]]; reflexivity.
Defined.
 End ExternalIP.
