(* ===== verification/CsamExport.v ===== *)
(** * The log of forbidden hashes this instance has seen

    [internal/csamblocklist/export.go]: when the classifier deletes a torrent
    for a banned keyword, the exporter checks the keyword again, appends the
    double hash to a local file and, when one is configured, posts it to a
    collecting server.

    An operation returns the events it caused: directories made, files opened,
    lines written, requests sent.  What the file system and the network answer
    is an argument of each step, as are [url.Parse], [filepath.Dir] and the
    formatted time.  [http.Client] follows redirects, so the model has its loop.
    [Record] checks that the exporter is open, appends under the lock and posts
    without it: the calls of several goroutines interleave between these parts.
    The keyword pattern is the text of the source, compiled by [Regex]. *)
From S2P Require Import Prelude Protocol SHA256 Lexer Metainfo Regex Keywords Csam.
From stdpp Require Import gmap list strings sets.
From Stdlib Require Import ZArith Lia.

Module CsamExport.
Import Protocol Metainfo Csam.
Local Open Scope string_scope.

(** ** The banned keywords *)

(** The tokens of the Go pattern. *)
Definition banned_tokens : list string :=
  ["pa?edo(?:fil[a-z]*|phil[a-z]*)?"; "preteen"; "pthc"; "ptsc"; "lsbar"; "lsm"; "underage"; "hebefilia"; "opva";
   "child[\s_-]?porn[a-z]*"; "child[\s_-]?lover[a-z]*"; "porno[\s_-]?child[a-z]*";
   "kidd(?:y[a-z]*|ie[a-z]*)[\s_-]?porn"; "young[\s_-]?video[\s_-]?models"; "childfugga"; "kinderkutje"; "yvm";
   "(?:#|1[0-7])[\s_-]?y[\s_-]?o"].

Fixpoint join (sep : string) (l : list string) : string :=
  match l with [] => "" | [x] => x | x :: l => x +:+ sep +:+ join sep l end.

Definition bannedKeywordRegex : Regex.regexp :=
  Regex.MustCompile ("(?i)\b(?:" +:+ join "|" banned_tokens +:+ ")\b").

Section export.
Context `{UnicodeTables}.

Definition matchesBannedKeyword (title : bytes) (filePaths : list bytes) : bool :=
  if bool_decide (title = []) && bool_decide (filePaths = []) then false
  else Regex.MatchString bannedKeywordRegex (range_runes (title ++ (filePaths ≫= λ p, 32%Z :: p))).

Definition MatchesBannedKeyword := matchesBannedKeyword.

(** ** The exporter *)

(** What the code reads of a parsed URL. *)
Record url := mkUrl { Scheme : string; Hostname : string }.

(** What the libraries compute: [url.Parse], [filepath.Dir], [URL.Parse] of a
    location, and the ASCII form of a host name. *)
Record lib := mkLib {
  url_Parse : string → option url;
  Dir : string → string;
  url_Resolve : string → string → option string;
  idna : string → string
}.

Record request := mkRequest { Method : string; URL : string; Authorization : option string; Body : option string }.
(** The answer to a request: an error, or a status with its Location header. *)
Inductive answer := Failed (err : string) | Answered (code : Z) (location : string).

(** What the file system and the network answer during a step; the [i]-th
    request of a step. *)
Record env := mkEnv {
  MkdirAll : string → option string;
  OpenFile : string → option string;
  FileWrite : string → option string;
  FileClose : option string;
  BuildRequest : string → option string;
  RoundTrip : nat → request → answer
}.

Inductive event :=
| EMkdir (dir : string)
| EOpen (path : string)
| EWrite (line : string)
| ERequest (r : request)
| EClose.

(** *** [http.Client.Do] with the default policy *)

Section client.
Context (L : lib).

Definition hostOf (u : string) : string := match url_Parse L u with Some u => idna L (Hostname u) | None => "" end.
Fixpoint ends_with (s suffix : string) : bool :=
  bool_decide (s = suffix) || match s with EmptyString => false | String _ s => ends_with s suffix end.
Fixpoint contains_colon_percent (s : string) : bool :=
  match s with EmptyString => false | String c s => bool_decide (Ascii.nat_of_ascii c ∈ [58; 37]%nat) || contains_colon_percent s end.
(** [isDomainOrSubdomain] *)
Definition isDomainOrSubdomain (sub parent : string) : bool :=
  bool_decide (sub = parent) || negb (contains_colon_percent sub) && ends_with sub ("." +:+ parent).

(** [redirectBehavior]: the method of the next request, and whether the body is
    sent again, for an answer that redirects. *)
Definition redirectBehavior (method : string) (code : Z) : option (string * bool) :=
  if bool_decide (code ∈ [301; 302; 303]%Z)
  then Some (if bool_decide (method ∈ ["GET"; "HEAD"]) then method else "GET", false)
  else if bool_decide (code ∈ [307; 308]%Z) then Some (method, true)
  else None.

(** The loop over the redirects.  [first] is the original request, [n] the
    number of requests sent so far.  A header that was dropped for another
    domain and a body that was dropped are never sent again. *)
Fixpoint client_loop (fuel : nat) (w : env) (first : request) (n : nat) (r : request) : list event * (string + Z) :=
  match RoundTrip w n r with
  | Failed err => ([ERequest r], inl err)
  | Answered code location =>
      match redirectBehavior (Method r) code with
      | None => ([ERequest r], inr code)
      | Some (method, again) =>
          if bool_decide (location = "") then ([ERequest r], inr code)
          else
            match url_Resolve L (URL r) location with
            | None => ([ERequest r], inl "failed to parse Location header")
            | Some u =>
                let auth := if isDomainOrSubdomain (hostOf u) (hostOf (URL first)) then Authorization r else None in
                let next := mkRequest method u auth (if again then Body r else None) in
                match fuel with
                | O => ([ERequest r], inl "stopped after 10 redirects")
                | S fuel => let '(evs, res) := client_loop fuel w first (S n) next in (ERequest r :: evs, res)
                end
            end
      end
  end.
Definition client_Do (w : env) (r : request) : list event * (string + Z) := client_loop 9 w r 0 r.

(** *** The exporter *)

Definition isSafeUpstreamURL (rawURL : string) : bool :=
  match url_Parse L rawURL with
  | None => false
  | Some u =>
      if bool_decide (Scheme u = "https") then true
      else bool_decide (Scheme u = "http") && bool_decide (Hostname u ∈ ["localhost"; "127.0.0.1"; "::1"])
  end.

Record observationRecord := mkObservation { Timestamp : string; RDoubleHash : string; Reason : string }.

(** [json.Marshal] of a record whose fields need no escapes. *)
Definition json_field (name value : string) : string :=
  dquote +:+ name +:+ dquote +:+ ":" +:+ dquote +:+ value +:+ dquote.
Definition json_Marshal (r : observationRecord) : string :=
  "{" +:+ json_field "ts" (Timestamp r) +:+ "," +:+ json_field "double_hash" (RDoubleHash r) +:+ ","
      +:+ json_field "reason" (Reason r) +:+ "}".
Definition newline : string := String (Ascii.ascii_of_nat 10) EmptyString.

Record exporter := mkExporter { e_cfg : Config; file : bool; closed : bool }.

(** [file] says whether the log file is open. *)
Inductive Exporter := NoOpExporter | LiveExporter (e : exporter).

Definition with_url (c : Config) (u : string) : Config :=
  mkConfig (Enabled c) (FeedUrls c) (FeedMaxBytes c) (BloomCapacity c) (BloomFalsePositiveRate c)
    (ExportEnabled c) (ExportFilePath c) u (ExportUpstreamAuthHeader c).

Definition NewExporter (c : Config) : Exporter :=
  if negb (ExportEnabled c) then NoOpExporter
  else
    let c :=
      if negb (bool_decide (ExportUpstreamURL c = "")) && negb (bool_decide (ExportUpstreamAuthHeader c = ""))
         && negb (isSafeUpstreamURL (ExportUpstreamURL c))
      then with_url c "" else c in
    LiveExporter (mkExporter c false false).

Inductive exportError := ErrClosed | ErrMkdir (e : string) | ErrOpen (e : string) | ErrWrite (e : string)
| ErrBuild (e : string) | ErrPost (e : string) | ErrUpstreamStatus (code : Z).

(** Opens the log file when it is not open yet. *)
Definition open_log (w : env) (e : exporter) : exporter * list event * option exportError :=
  if file e then (e, [], None)
  else
    let path := if bool_decide (ExportFilePath (e_cfg e) = "") then "data/csam-double-hashes.jsonl"
                else ExportFilePath (e_cfg e) in
    let dir := Dir L path in
    let needs_dir := negb (bool_decide (dir = "")) && negb (bool_decide (dir = ".")) in
    let made := if needs_dir then [EMkdir dir] else [] in
    match (if needs_dir then MkdirAll w dir else None) with
    | Some err => (e, made, Some (ErrMkdir err))
    | None =>
        match OpenFile w path with
        | Some err => (e, (made ++ [EOpen path])%list, Some (ErrOpen err))
        | None => (mkExporter (e_cfg e) true (closed e), (made ++ [EOpen path])%list, None)
        end
    end.

(** Under the lock. *)
Definition appendLocal (w : env) (e : exporter) (r : observationRecord)
  : exporter * list event * option exportError :=
  if closed e then (e, [], Some ErrClosed)
  else
    let '(e, evs, err) := open_log w e in
    match err with
    | Some err => (e, evs, Some err)
    | None =>
        let line := json_Marshal r +:+ newline in
        (e, (evs ++ [EWrite line])%list, ErrWrite <$> FileWrite w line)
    end.

Definition upstream_request (c : Config) (r : observationRecord) : request :=
  mkRequest "POST" (ExportUpstreamURL c)
    (if bool_decide (ExportUpstreamAuthHeader c = "") then None else Some (ExportUpstreamAuthHeader c)) (Some (json_Marshal r)).
Definition postUpstream (w : env) (e : exporter) (r : observationRecord) : list event * option exportError :=
  match BuildRequest w (ExportUpstreamURL (e_cfg e)) with
  | Some err => ([], Some (ErrBuild err))
  | None =>
      let '(evs, res) := client_Do w (upstream_request (e_cfg e) r) in
      (evs, match res with
            | inl err => Some (ErrPost err)
            | inr code => if (code <? 200)%Z || (300 <=? code)%Z then Some (ErrUpstreamStatus code) else None
            end)
  end.

(** [Record] up to the lock: the record to append, if any.  [now] is the
    formatted time. *)
Definition Record_begin (now : string) (infoHash : ID) (title : bytes) (filePaths : list bytes) (e : exporter) : option observationRecord :=
  if closed e then None
  else if negb (matchesBannedKeyword title filePaths) then None
  else Some (mkObservation now (DoubleHashHex infoHash) "banned_keyword").
(** Its last part. *)
Definition Record_post (w : env) (e : exporter) (r : observationRecord) : list event :=
  if bool_decide (ExportUpstreamURL (e_cfg e) = "") then [] else (postUpstream w e r).1.
(** The whole of it, when nothing runs in between. *)
Definition Record_ (w : env) (now : string) (infoHash : ID) (title : bytes) (filePaths : list bytes) (e : exporter)
  : exporter * list event :=
  match Record_begin now infoHash title filePaths e with
  | None => (e, [])
  | Some r => let '(e, evs, _) := appendLocal w e r in (e, (evs ++ Record_post w e r)%list)
  end.

(** Under the lock. *)
Definition Close (w : env) (e : exporter) : exporter * list event * option string :=
  if closed e || negb (file e) then (mkExporter (e_cfg e) (file e) true, [], None)
  else (mkExporter (e_cfg e) false true, [EClose], FileClose w).

(** ** Concurrent calls *)

(** Where a call of [Record] is that passed its checks. *)
Inductive stage := Appending (r : observationRecord) | Posting (r : observationRecord) | Finished.
Record state := mkState { exp : exporter; calls : list stage }.

(** A call starts; the [i]-th call appends, or posts; a close. *)
Inductive op :=
| ORecord (now : string) (h : ID) (title : bytes) (filePaths : list bytes)
| OAppend (w : env) (i : nat)
| OPost (w : env) (i : nat)
| OClose (w : env).

Definition exec (s : state) (o : op) : state * list event :=
  match o with
  | ORecord now h title paths =>
      match Record_begin now h title paths (exp s) with
      | None => (s, [])
      | Some r => (mkState (exp s) (calls s ++ [Appending r])%list, [])
      end
  | OAppend w i =>
      match calls s !! i with
      | Some (Appending r) => let '(e, evs, _) := appendLocal w (exp s) r in (mkState e (<[i := Posting r]> (calls s)), evs)
      | _ => (s, [])
      end
  | OPost w i =>
      match calls s !! i with
      | Some (Posting r) => (mkState (exp s) (<[i := Finished]> (calls s)), Record_post w (exp s) r)
      | _ => (s, [])
      end
  | OClose w => let '(e, evs, _) := Close w (exp s) in (mkState e (calls s), evs)
  end.

Fixpoint run (s : state) (ops : list op) : state * list event :=
  match ops with
  | [] => (s, [])
  | o :: ops => let '(s, evs) := exec s o in let '(s, evs') := run s ops in (s, (evs ++ evs')%list)
  end.

(** A call that nothing interrupts. *)
Lemma uninterrupted_record w now h title paths e :
  let s := run (mkState e []) [ORecord now h title paths; OAppend w 0; OPost w 0] in
  (exp s.1, s.2) = Record_ w now h title paths e.
Proof.
  unfold Record_. cbn [run exec exp calls]. destruct (Record_begin _ _ _ _ _) as [r|]; [|done]. cbn [calls exp app lookup list_lookup].
  destruct (appendLocal w e r) as [[e' evs] err] eqn:Ea. cbn. by rewrite app_nil_r.
Qed.

(** ** What the exporter lets out *)

(** [r] is the record of a banned torrent among the operations. *)
Definition recorded (ops : list op) (r : observationRecord) : Prop :=
  ∃ now h title paths, ORecord now h title paths ∈ ops ∧ matchesBannedKeyword title paths = true
    ∧ r = mkObservation now (DoubleHashHex h) "banned_keyword".

(** A request of the exporter: the post to the configured URL, or what an
    answer made of it by redirecting. *)
Inductive request_of (c : Config) (r : observationRecord) : request → Prop :=
| request_first : request_of c r (upstream_request c r)
| request_redirect (q q' : request) (code : Z) (location : string) (method : string) (again : bool) :
    request_of c r q → redirectBehavior (Method q) code = Some (method, again) → url_Resolve L (URL q) location = Some (URL q') →
    Method q' = method → (Body q' = None ∨ again = true ∧ Body q' = Body q) →
    (Authorization q' = None ∨ isDomainOrSubdomain (hostOf (URL q')) (hostOf (ExportUpstreamURL c)) = true ∧ Authorization q' = Authorization q) →
    request_of c r q'.
(** What the exporter may let out after the operations [ops]. *)
Definition event_ok (c : Config) (ops : list op) (ev : event) : Prop :=
  match ev with
  | EWrite line => ∃ r, recorded ops r ∧ line = json_Marshal r +:+ newline
  | ERequest q =>
      ExportUpstreamURL c ≠ "" ∧ (∃ r, recorded ops r ∧ request_of c r q ∧ (Body q = None ∨ Body q = Some (json_Marshal r)))
      ∧ ∀ a, Authorization q = Some a →
          a = ExportUpstreamAuthHeader c ∧ isSafeUpstreamURL (ExportUpstreamURL c) = true
          ∧ isDomainOrSubdomain (hostOf (URL q)) (hostOf (ExportUpstreamURL c)) = true
  | _ => True
  end.

Lemma recorded_mono ops ops' r : ops ⊆ ops' → recorded ops r → recorded ops' r.
Proof. intros Hs (now & h & ti & ps & ? & ? & ?). exists now, h, ti, ps. split_and!; [by apply Hs|done|done]. Qed.

(** A token is only sent when the configured URL may receive it. *)
Definition guarded (c : Config) : Prop :=
  ExportUpstreamURL c ≠ "" → ExportUpstreamAuthHeader c ≠ "" → isSafeUpstreamURL (ExportUpstreamURL c) = true.

Lemma NewExporter_guarded c e :
  NewExporter c = LiveExporter e → guarded (e_cfg e) ∧ closed e = false
    ∧ ExportUpstreamAuthHeader (e_cfg e) = ExportUpstreamAuthHeader c
    ∧ (ExportUpstreamURL (e_cfg e) = ExportUpstreamURL c ∨ ExportUpstreamURL (e_cfg e) = "").
Proof.
  unfold NewExporter, guarded. destruct (ExportEnabled c); [|done]. simpl. intros [= <-]. simpl.
  repeat case_bool_decide; simpl; try (split_and!; naive_solver).
  destruct (isSafeUpstreamURL (ExportUpstreamURL c)) eqn:Hs; simpl; split_and!; auto; naive_solver.
Qed.

(** The requests of a post. *)
Lemma request_of_token c r q a :
  request_of c r q → Authorization q = Some a →
  a = ExportUpstreamAuthHeader c ∧ ExportUpstreamAuthHeader c ≠ "" ∧ isDomainOrSubdomain (hostOf (URL q)) (hostOf (ExportUpstreamURL c)) = true.
Proof.
  intros Hq. revert a. induction Hq as [|q q' code loc m again Hq IH Hr Hu Hm Hb Ha]; intros a Hauth.
  - cbn in Hauth. case_bool_decide; [done|]. injection Hauth as <-. split_and!; [done|done|]. unfold isDomainOrSubdomain. by rewrite bool_decide_eq_true_2.
  - destruct Ha as [Ha|[Hd Ha]]; [congruence|]. rewrite Ha in Hauth. apply IH in Hauth as (-> & Hne & _). done.
Qed.
Lemma request_of_body c r q : request_of c r q → Body q = None ∨ Body q = Some (json_Marshal r).
Proof. induction 1 as [|q q' code loc m again Hq IH Hr Hu Hm Hb Ha]; [by right|]. destruct Hb as [|[_ ->]]; [by left|done]. Qed.

Lemma client_loop_requests fuel w c r n q :
  request_of c r q →
  (∀ ev, ev ∈ (client_loop fuel w (upstream_request c r) n q).1 → ∃ q', ev = ERequest q' ∧ request_of c r q')
  ∧ (length (client_loop fuel w (upstream_request c r) n q).1 ≤ S fuel)%nat.
Proof.
  revert n q. induction fuel as [|fuel IH]; intros n q Hq; cbn [client_loop].
  - assert (Hone : (∀ ev, ev ∈ [ERequest q] → ∃ q', ev = ERequest q' ∧ request_of c r q') ∧ (length [ERequest q] ≤ 1)%nat)
      by (split; [intros ev ->%list_elem_of_singleton; by exists q|done]).
    destruct (RoundTrip w n q) as [err|code loc]; [done|]. destruct (redirectBehavior _ code) as [[m again]|]; [|done].
    case_bool_decide; [done|]. by destruct (url_Resolve L (URL q) loc).
  - assert (Hone : (∀ ev, ev ∈ [ERequest q] → ∃ q', ev = ERequest q' ∧ request_of c r q') ∧ (length [ERequest q] ≤ S (S fuel))%nat)
      by (split; [intros ev ->%list_elem_of_singleton; by exists q|cbn; lia]).
    destruct (RoundTrip w n q) as [err|code loc]; [done|]. destruct (redirectBehavior _ code) as [[m again]|] eqn:Er; [|done].
    case_bool_decide; [done|]. destruct (url_Resolve L (URL q) loc) as [u|] eqn:Eu; [|done]. set (next := mkRequest m u _ _).
    destruct (IH (S n) next) as [Hev Hlen].
    { eapply (request_redirect c r q next code loc m again); [done|done|exact Eu|done|..]; unfold next; cbn.
      - destruct again; [by right|by left].
      - destruct (isDomainOrSubdomain _ _); [by right|by left]. }
    destruct (client_loop fuel w _ (S n) next) as [evs res]. cbn [fst] in *. split; [|cbn; lia].
    intros ev [->|Hin]%elem_of_cons; [by exists q|by apply Hev].
Qed.

Lemma postUpstream_requests w e r :
  (∀ ev, ev ∈ (postUpstream w e r).1 → ∃ q, ev = ERequest q ∧ request_of (e_cfg e) r q) ∧ (length (postUpstream w e r).1 ≤ 10)%nat.
Proof.
  unfold postUpstream, client_Do. destruct (BuildRequest w _); [split; [intros ev Hin; by apply elem_of_nil in Hin|cbn; lia]|].
  pose proof (client_loop_requests 9 w (e_cfg e) r 0 (upstream_request (e_cfg e) r) (request_first _ _)) as Hc.
  by destruct (client_loop _ _ _ _ _) as [evs res].
Qed.

Lemma open_log_effect w e :
  let '(e', evs, _) := open_log w e in
  e_cfg e' = e_cfg e ∧ closed e' = closed e ∧ ∀ ev, ev ∈ evs → ∃ p, ev = EMkdir p ∨ ev = EOpen p.
Proof.
  unfold open_log. destruct (file e); [split_and!; [done..|set_solver]|].
  destruct (negb _ && negb _); simpl; [destruct (MkdirAll w _)|]; try destruct (OpenFile w _);
    (split_and!; [done|done|]); set_solver.
Qed.

Lemma appendLocal_effect w e r :
  let '(e', evs, _) := appendLocal w e r in
  e_cfg e' = e_cfg e ∧ closed e' = closed e ∧ (closed e = true → evs = [])
  ∧ ∀ ev, ev ∈ evs → (∃ p, ev = EMkdir p ∨ ev = EOpen p) ∨ ev = EWrite (json_Marshal r +:+ newline).
Proof.
  unfold appendLocal. destruct (closed e) eqn:Hc; [split_and!; [done..|set_solver]|].
  pose proof (open_log_effect w e) as Ho. destruct (open_log w e) as [[e' evs] [err|]];
    destruct Ho as (-> & Hc' & Hev); (split_and!; [done|congruence|done|]); [by auto|].
  intros ev [Hin | ->%list_elem_of_singleton]%elem_of_app; auto.
Qed.

(** *** Steps *)

(** A call that passed its checks and still has to append or to post [r]. *)
Definition pending (s : state) (r : observationRecord) : Prop := Appending r ∈ calls s ∨ Posting r ∈ calls s.

Definition step_event (s : state) (ev : event) : Prop :=
  match ev with
  | EWrite line => closed (exp s) = false ∧ ∃ r, pending s r ∧ line = json_Marshal r +:+ newline
  | ERequest q => ExportUpstreamURL (e_cfg (exp s)) ≠ "" ∧ ∃ r, pending s r ∧ request_of (e_cfg (exp s)) r q
  | EMkdir _ | EOpen _ | EClose => closed (exp s) = false
  end.

Lemma pending_insert s i x r e :
  pending (mkState e (<[i := x]> (calls s))) r → pending s r ∨ x = Appending r ∨ x = Posting r.
Proof.
  unfold pending. cbn [calls]. intros [Hin|Hin]; apply list_elem_of_lookup in Hin as [j Hj];
    apply list_lookup_insert_Some in Hj as [(_ & -> & _)|[_ Hj%list_elem_of_lookup_2]]; auto.
Qed.

Lemma exec_effect s o :
  let '(s', evs) := exec s o in
  e_cfg (exp s') = e_cfg (exp s) ∧ (closed (exp s) = true → closed (exp s') = true) ∧ (∀ w, o = OClose w → closed (exp s') = true)
  ∧ (∀ r, pending s' r → pending s r ∨ closed (exp s) = false ∧ recorded [o] r)
  ∧ ∀ ev, ev ∈ evs → step_event s ev.
Proof.
  assert (Hstay : ∀ o, (∀ w, o ≠ OClose w) → e_cfg (exp s) = e_cfg (exp s) ∧ (closed (exp s) = true → closed (exp s) = true)
    ∧ (∀ w, o = OClose w → closed (exp s) = true) ∧ (∀ r, pending s r → pending s r ∨ closed (exp s) = false ∧ recorded [o] r)
    ∧ ∀ ev, ev ∈ @nil event → step_event s ev).
  { intros o' Ho. split_and!; [done|done|intros w Hw; by destruct (Ho w)|by left|]. intros ev Hin. by apply elem_of_nil in Hin. }
  destruct o as [now h title paths|w i|w i|w]; cbn [exec].
  - destruct (Record_begin now h title paths (exp s)) as [r0|] eqn:Eb; [|by apply Hstay].
    assert (closed (exp s) = false ∧ matchesBannedKeyword title paths = true ∧ r0 = mkObservation now (DoubleHashHex h) "banned_keyword") as (Hc & Hm & ->).
    { revert Eb. unfold Record_begin. destruct (closed (exp s)); [done|]. destruct (matchesBannedKeyword title paths); [|done]. by intros [= <-]. }
    cbn [exp]. split_and!; [done|congruence|done| |intros ev Hin; by apply elem_of_nil in Hin].
    intros r Hr. assert (pending s r ∨ r = mkObservation now (DoubleHashHex h) "banned_keyword") as [?| ->].
    { unfold pending in *. cbn [calls] in Hr. rewrite !elem_of_app, !list_elem_of_singleton in Hr. naive_solver. }
    + by left.
    + right. split; [done|]. exists now, h, title, paths. split_and!; [by left|done|done].
  - destruct (calls s !! i) as [[r| |]|] eqn:Ei; [|by apply Hstay..]. pose proof (appendLocal_effect w (exp s) r) as Ha.
    destruct (appendLocal w (exp s) r) as [[e evs] err]. destruct Ha as (Hcfg & Hcl & Hnone & Hev). cbn [exp].
    assert (Hp : pending s r) by (left; by eapply list_elem_of_lookup_2).
    split_and!; [done|congruence|done| |].
    + intros r' [?|[?|Hx]]%pending_insert; [by left|done|]. injection Hx as <-. by left.
    + intros ev Hin. assert (closed (exp s) = false) as Hopen by (destruct (closed (exp s)); [|done]; rewrite Hnone in Hin by done; by apply elem_of_nil in Hin).
      destruct (Hev ev Hin) as [(p & [-> | ->])| ->]; [done|done|]. split; [done|]. by exists r.
  - destruct (calls s !! i) as [[|r|]|] eqn:Ei; [by apply Hstay| |by apply Hstay..].
    assert (Hp : pending s r) by (right; by eapply list_elem_of_lookup_2). cbn [exp]. split_and!; [done|done|done| |].
    + intros r' [?|[?|?]]%pending_insert; [by left|done|done].
    + unfold Record_post. case_bool_decide as Hu; [intros ev Hin; by apply elem_of_nil in Hin|]. intros ev Hin.
      destruct (proj1 (postUpstream_requests w (exp s) r) ev Hin) as (q & -> & Hq). split; [done|]. by exists r.
  - unfold Close. destruct (closed (exp s)) eqn:Hc; cbn [orb]; [split_and!; [done|done|done|by left|intros ev Hin; by apply elem_of_nil in Hin]|].
    destruct (file (exp s)); cbn [negb]; (split_and!; [done|done|done|by left|]); intros ev Hin.
    + by apply list_elem_of_singleton in Hin as ->.
    + by apply elem_of_nil in Hin.
Qed.

(** *** Runs *)

Definition inv (c : Config) (ops : list op) (s : state) : Prop := e_cfg (exp s) = c ∧ ∀ r, pending s r → recorded ops r.

Lemma step_event_ok c ops s ev : guarded c → inv c ops s → step_event s ev → event_ok c ops ev.
Proof.
  intros Hg [Hc Hp]. destruct ev as [d|p|line|q|]; cbn; [done|done| | |done].
  - intros (_ & r & Hr & ->). exists r. split; [by apply Hp|done].
  - rewrite Hc. intros (Hu & r & Hr & Hq). split; [done|]. split; [exists r; split; [by apply Hp|]; split; [done|by apply (request_of_body c)]|].
    intros a Ha. destruct (request_of_token c r q a Hq Ha) as (-> & Hne & Hd). split; [done|]. split; [by apply Hg|done].
Qed.

Lemma exec_inv c ops s o : inv c ops s → inv c (ops ++ [o])%list (exec s o).1.
Proof.
  intros [Hc Hp]. pose proof (exec_effect s o) as He. destruct (exec s o) as [s' evs]. destruct He as (Hcfg & _ & _ & Hpend & _).
  split; [by rewrite <- Hc|]. intros r [Hr|[_ Hr]]%Hpend; [apply Hp in Hr|]; (eapply recorded_mono; [|exact Hr]); set_solver.
Qed.

Lemma run_events c ops : ∀ pre s,
  guarded c → inv c pre s →
  inv c (pre ++ ops)%list (run s ops).1 ∧ ∀ ev, ev ∈ (run s ops).2 → event_ok c (pre ++ ops)%list ev.
Proof.
  induction ops as [|o ops IH]; intros pre s Hg Hi; cbn [run].
  { rewrite app_nil_r. split; [done|]. intros ev Hin. by apply elem_of_nil in Hin. }
  pose proof (exec_effect s o) as He. pose proof (exec_inv c pre s o Hi) as Hi'. destruct (exec s o) as [s' evs]. destruct He as (_ & _ & _ & _ & Hev).
  cbn [fst] in Hi'. destruct (IH (pre ++ [o])%list s' Hg Hi') as [Hi'' Hevs]. destruct (run s' ops) as [s'' evs']. cbn [fst snd] in *.
  rewrite <- app_assoc in Hi'', Hevs. split; [done|]. intros ev [Hin|Hin]%elem_of_app; [|by apply Hevs].
  assert (Hok : event_ok c pre ev) by (eapply step_event_ok; [done|exact Hi|by apply Hev]).
  destruct ev as [d|p|line|q|]; cbn in *; try done.
  - destruct Hok as (r & Hr & ->). exists r. split; [|done]. eapply recorded_mono; [|done]. set_solver.
  - destruct Hok as (Hu & (r & Hr & Hq) & Ha). split; [done|]. split; [|done]. exists r. split; [|done]. eapply recorded_mono; [|done]. set_solver.
Qed.

(** Once the exporter is closed only the calls that passed their checks before
    send anything. *)
Lemma run_closed ops : ∀ s,
  closed (exp s) = true →
  closed (exp (run s ops).1) = true ∧ (∀ r, pending (run s ops).1 r → pending s r)
  ∧ ∀ ev, ev ∈ (run s ops).2 → ∃ q r, ev = ERequest q ∧ pending s r ∧ ExportUpstreamURL (e_cfg (exp s)) ≠ "" ∧ request_of (e_cfg (exp s)) r q.
Proof.
  induction ops as [|o ops IH]; intros s Hc; cbn [run]; [split_and!; [done|done|]; intros ev Hin; by apply elem_of_nil in Hin|].
  pose proof (exec_effect s o) as He. destruct (exec s o) as [s' evs]. destruct He as (Hcfg & Hcl & _ & Hpend & Hev).
  destruct (IH s' (Hcl Hc)) as (Hc'' & Hp'' & Hev''). destruct (run s' ops) as [s'' evs']. cbn [fst snd] in *.
  assert (Hp : ∀ r, pending s' r → pending s r) by (intros r [?|[Hx _]]%Hpend; [done|congruence]).
  split_and!; [done|by auto|]. intros ev [Hin|Hin]%elem_of_app.
  - specialize (Hev ev Hin). destruct ev as [d|p|line|q|]; cbn in Hev; try congruence; [destruct Hev; congruence|].
    destruct Hev as (Hu & r & Hr & Hq). by exists q, r.
  - destruct (Hev'' ev Hin) as (q & r & -> & Hr & Hu & Hq). rewrite Hcfg in Hu, Hq. exists q, r. auto.
Qed.

Lemma run_app s ops1 ops2 : run s (ops1 ++ ops2)%list = let '(s1, ev1) := run s ops1 in let '(s2, ev2) := run s1 ops2 in (s2, (ev1 ++ ev2)%list).
Proof.
  revert s. induction ops1 as [|o ops1 IH]; intros s; cbn [app run]; [by destruct (run s ops2)|]. destruct (exec s o) as [s' evs]. rewrite IH.
  destruct (run s' ops1) as [s1 ev1]. destruct (run s1 ops2) as [s2 ev2]. by rewrite app_assoc.
Qed.

Lemma request_of_cfg c c' r q :
  ExportUpstreamURL c = ExportUpstreamURL c' → ExportUpstreamAuthHeader c = ExportUpstreamAuthHeader c' → request_of c r q → request_of c' r q.
Proof.
  intros Hu Ha. induction 1 as [|q q' code loc m again Hq IH Hr Hl Hm Hb Hau].
  - unfold upstream_request. rewrite Hu, Ha. apply request_first.
  - rewrite Hu in Hau. by eapply request_redirect.
Qed.

(** C19: whatever the file system and the network answer, in whatever order the
    parts of concurrent records and closes run, an exporter built from a
    configuration writes nothing but records of torrents whose text matches the
    banned keywords, each holding only the double hash of the info hash, and
    sends nothing but the post of such a record to the configured URL and what
    [http.Client] makes of it when an answer redirects: at most ten requests, to
    where each answer points, with that record as the body or with none.  The
    token is the configured one and goes only to the host of the configured URL
    and to its subdomains, and only when the configured URL is https or
    loopback; a redirect may still take it to another scheme of these hosts.
    After [Close] nothing is written and no file opened, and what is sent are
    the posts of the calls that had passed their checks before it. *)
Theorem csam_export_guard c e ops1 w ops2 :
  NewExporter c = LiveExporter e →
  let s := (run (mkState e []) (ops1 ++ [OClose w])%list).1 in
  (∀ ev, ev ∈ (run (mkState e []) (ops1 ++ OClose w :: ops2)%list).2 → event_ok c (ops1 ++ OClose w :: ops2)%list ev)
  ∧ (∀ ev, ev ∈ (run s ops2).2 → ∃ q r, ev = ERequest q ∧ pending s r ∧ recorded ops1 r ∧ request_of c r q)
  ∧ ∀ s' w' i, (length (exec s' (OPost w' i)).2 ≤ 10)%nat.
Proof.
  intros He s. destruct (NewExporter_guarded c e He) as (Hg & _ & Hauth & Hurl).
  assert (Hi : inv (e_cfg e) [] (mkState e [])) by (split; [done|]; intros r [Hr|Hr]; by apply elem_of_nil in Hr).
  assert (Hsame : ∀ r q, ExportUpstreamURL (e_cfg e) ≠ "" → request_of (e_cfg e) r q → request_of c r q).
  { intros r q Hu. apply request_of_cfg; [destruct Hurl; congruence|done]. }
  split; [|split].
  - intros ev Hin. destruct (run_events (e_cfg e) (ops1 ++ OClose w :: ops2) [] _ Hg Hi) as [_ Hev]. specialize (Hev ev Hin). cbn [app] in Hev.
    destruct ev as [| |line|q|]; cbn [event_ok] in *; try done. destruct Hev as (Hu & (r & Hr & Hq & Hb) & Ha).
    assert (ExportUpstreamURL (e_cfg e) = ExportUpstreamURL c) as Huu by (destruct Hurl; congruence). rewrite Huu in Hu, Ha. rewrite Hauth in Ha.
    split; [done|]. split; [|done]. exists r. split; [done|]. split; [apply Hsame; [by rewrite Huu|done]|done].
  - destruct (run_events (e_cfg e) ops1 [] _ Hg Hi) as [[Hcfg Hpre] _]. cbn [app] in Hpre. unfold s. rewrite run_app.
    destruct (run (mkState e []) ops1) as [s1 ev1]. cbn [fst] in *. cbn [run]. pose proof (exec_effect s1 (OClose w)) as Hx.
    assert (Hcalls : ∀ r, pending (exec s1 (OClose w)).1 r → pending s1 r).
    { intros r. unfold pending. cbn [exec]. by destruct (Close w (exp s1)) as [[e' evs] err]. }
    destruct (exec s1 (OClose w)) as [s2 ev2]. destruct Hx as (Hcfg2 & _ & Hcl & _). cbn [fst] in *.
    intros ev Hin. destruct (run_closed ops2 s2 (Hcl w eq_refl)) as (_ & _ & Hev). destruct (Hev ev Hin) as (q & r & -> & Hr & Hu & Hq).
    rewrite Hcfg2, Hcfg in Hu, Hq. exists q, r. split_and!; [done|done|by apply Hpre, Hcalls|by apply Hsame].
  - intros s' w' i. cbn [exec]. destruct (calls s' !! i) as [[r|r|]|]; cbn [snd length]; try lia. unfold Record_post. case_bool_decide; [cbn; lia|].
    apply postUpstream_requests.
Qed.

End client.
End export.

(** ** The exporter's pattern and the classifier's keywords *)

(** The list [keywords.banned] of [classifier.core.yml], and the condition of
    its first rule. *)
Definition keywords_banned : list string :=
  ["pa?edo(fil*|phil*)?"; "preteen"; "pthc"; "ptsc"; "lsbar"; "lsm"; "underage"; "hebefilia"; "opva"; "child ?porn*";
   "child ?lover*"; "porno ?child*"; "kidd(y*|ie*) ?porn"; "young ?video ?models"; "childfugga"; "kinderkutje"; "yvm";
   "(#|10|11|12|13|14|15|16|17) ?y ?o"].

Definition classifier_bans `{UnicodeTables} `{Unicode} `{!Keywords.Rex} (text : bytes) : bool :=
  match Keywords.NewRegexFromKeywords (runes_of <$> keywords_banned) with
  | Ok re => Regex.MatchString re (range_runes text)
  | _ => false
  end.

#[local] Existing Instances ascii_unicode Regex.ascii_tables Keywords.plain_rex.

Definition title_of (s : string) : bytes := string_bytes s.

(** The exporter's pattern does not cover the classifier's banned keywords: a digit before the age suffix and a dot between the words of a keyword are banned by the classifier and not matched by the exporter, so such a torrent is deleted but not recorded. *)
Theorem csam_banned_parity :
  (∀ d, d ∈ seq 0 10 →
     let title := (48 + Z.of_nat d)%Z :: title_of "yo" in
     classifier_bans title = true ∧ matchesBannedKeyword title [] = false)
  ∧ classifier_bans (title_of "young.video.models") = true
  ∧ matchesBannedKeyword (title_of "young.video.models") [] = false
  ∧ (∀ t, t ∈ ["12yo"; "a young_video-models b"; "PTHC"] →
       classifier_bans (title_of t) = true ∧ matchesBannedKeyword (title_of t) [] = true).
Proof.
  split_and!.
  - intros d Hd. cbn in Hd. repeat (apply elem_of_cons in Hd as [-> | Hd]; [by vm_compute|]).
    by apply elem_of_nil in Hd.
  - by vm_compute.
  - by vm_compute.
  - intros t Ht. repeat (apply elem_of_cons in Ht as [-> | Ht]; [by vm_compute|]). by apply elem_of_nil in Ht.
Qed.

(** ** Witnesses *)

Definition ex_lib : lib := {|
  url_Parse u := Some (mkUrl (if bool_decide (String.substring 0 6 u = "https:") then "https" else "http") "collector.example");
  Dir _ := "data";
  url_Resolve _ location := Some location;
  idna h := h
|}.
(** A world in which every call succeeds and the collector redirects a post to
    its address without TLS. *)
Definition ex_env : env := {|
  MkdirAll _ := None;
  OpenFile _ := None;
  FileWrite _ := None;
  FileClose := None;
  BuildRequest _ := None;
  RoundTrip i _ := match i with O => Answered 307 "http://collector.example/in" | _ => Answered 204 "" end
|}.

Definition ex_config : Config :=
  mkConfig true ["https://feed.example/list"] 0 1000 (QArith_base.Qmake 1 1000) true "" "https://collector.example/in" "Bearer t".
Definition ex_exporter : exporter := mkExporter ex_config false false.

Definition ex_op (h : ID) : op := ORecord "2026-01-01T00:00:00Z" h (title_of "x pthc y") [].

(** The token of a collector that is configured with https is sent in the clear
    when the collector redirects to http. *)
Example token_in_cleartext :
  isSafeUpstreamURL ex_lib "http://collector.example/in" = false
  ∧ (λ ev, match ev with ERequest q => Some (URL q, Authorization q) | _ => None end)
      <$> (run ex_lib (mkState ex_exporter []) [ex_op ID_zero; OAppend ex_env 0; OPost ex_env 0]).2
    = [None; None; None; Some ("https://collector.example/in", Some "Bearer t"); Some ("http://collector.example/in", Some "Bearer t")].
Proof. split; vm_compute; reflexivity. Qed.

(** A call that passed its checks posts after [Close]. *)
Definition ex_before : list op := [ex_op ID_zero].
Definition ex_after : list op := [OAppend ex_env 0; OPost ex_env 0; ex_op ID_zero].
Lemma csam_export_guard_witness :
  NewExporter ex_lib ex_config = LiveExporter ex_exporter
  ∧ length (run ex_lib (mkState ex_exporter []) (ex_before ++ OClose ex_env :: ex_after)).2 = 2
  ∧ ∀ ev, ev ∈ (run ex_lib (mkState ex_exporter []) (ex_before ++ OClose ex_env :: ex_after)).2 →
      event_ok ex_lib ex_config (ex_before ++ OClose ex_env :: ex_after) ev.
Proof.
  assert (He : NewExporter ex_lib ex_config = LiveExporter ex_exporter) by by vm_compute.
  split; [exact He|]. split; [by vm_compute|].
  apply (proj1 (csam_export_guard ex_lib ex_config ex_exporter ex_before ex_env ex_after He)).
Defined.

End CsamExport.
