(* ===== verification/NamePolicy.v ===== *)
(** * The policy on release names

    [internal/namepolicy]: which releases the library may hold, decided from
    the info hash, the release name and, when it is known, the content type
    ([policy.go], [config.go], [context.go], [metrics.go]); and the same
    decision as a PostgreSQL expression ([sql.go]), with the white space of
    [internal/catalogueguard/tags.go].

    A policy that may be nil is an option.  The patterns are the texts that
    the source builds, compiled by [Regex].  The tables of the scripts Han and
    Cyrillic are data of Go's [unicode] and an argument; [unicode.Is] is
    defined on them.  SQL is modelled twice: as the text and arguments the
    source builds, and as an expression with a value, of which the text is the
    rendering; what PostgreSQL's [~] answers is an argument. *)
From S2P Require Import Prelude Protocol Lexer Metainfo Regex.
From stdpp Require Import gmap list strings sets sorting pretty.
From Stdlib Require Import ZArith Lia.

(** A range table of [unicode]: ranges with a stride. *)
Record range_entry := mkRangeEntry { re_lo : Z; re_hi : Z; re_stride : Z }.
Record range_table := mkRangeTable { R16 : list range_entry; R32 : list range_entry }.
Class ScriptTables := { Han : range_table; Cyrillic : range_table }.

Module NamePolicy.
Import Protocol Metainfo.

(** [unicode.Is] *)
Definition entry_has (r : Z) (e : range_entry) : bool :=
  in_range r (re_lo e) (re_hi e) && ((r - re_lo e) `mod` re_stride e =? 0)%Z.
Definition Is (t : range_table) (r : Z) : bool := existsb (entry_has r) (R16 t ++ R32 t).

(** [catalogueguard.TagWhitespace] *)
Definition TagWhitespace : runes :=
  [9; 10; 11; 12; 13; 32; 133; 160; 5760; 8192; 8193; 8194; 8195; 8196; 8197; 8198; 8199; 8200; 8201; 8202;
   8232; 8233; 8239; 8287; 12288]%Z.

(** ** Specification *)

Definition Version : string := "release-name-policy-v1".

Record RuneRange := mkRuneRange { Lo : Z; Hi : Z }.
Record Term := mkTerm { TName : string; Pattern : runes; Strong : bool }.
Record Specification := mkSpecification {
  SHan : list RuneRange;
  SCyrillic : list RuneRange;
  AdultTerms : list Term;
  MinimumDistinctAdultTerms : Z;
  ExplicitAdultPairs : list (string * string)
}.

(** [for r := lo; r <= hi; r += stride] *)
Definition stride_runes (lo hi stride : Z) : list Z :=
  if (hi <? lo)%Z then [] else (λ k, lo + Z.of_nat k * stride)%Z <$> seq 0 (S (Z.to_nat ((hi - lo) / stride))).

Definition entry_ranges (e : range_entry) : list RuneRange :=
  if (re_stride e =? 1)%Z then [mkRuneRange (re_lo e) (re_hi e)]
  else (λ r, mkRuneRange r r) <$> stride_runes (re_lo e) (re_hi e) (re_stride e).
Definition scriptRanges (t : range_table) : list RuneRange := (R16 t ≫= entry_ranges) ++ (R32 t ≫= entry_ranges).

(** [regexp.QuoteMeta], and the hyphens the code escapes after it. *)
Definition meta : runes := runes_of "\.+*?()|[]{}^$".
Definition QuoteMeta (s : runes) : runes := s ≫= λ c, if bool_decide (c ∈ meta) then [92; c]%Z else [c].
Definition escape_hyphens (s : runes) : runes := s ≫= λ c, if (c =? 45)%Z then [92; 45]%Z else [c].

Definition delimiters : runes :=
  escape_hyphens (QuoteMeta (TagWhitespace ++ runes_of "._-+:/\()[]{}!,;=?&'" ++ [34%Z] ++ runes_of "|#%@")).
Definition separators : runes := escape_hyphens (QuoteMeta (TagWhitespace ++ runes_of "._-+")).

Fixpoint join (sep : runes) (l : list runes) : runes :=
  match l with [] => [] | [x] => x | x :: l => x ++ sep ++ join sep l end.

Definition letter_pattern (r : Z) : runes :=
  if ascii_lower r then [91; r; r - 97 + 65; 93]%Z else QuoteMeta [r].
Definition termPattern (words : list string) : runes :=
  let variants := (λ w, join ([91%Z] ++ separators ++ [93; 42]%Z) (letter_pattern <$> runes_of w)) <$> words in
  runes_of "(^|[" ++ delimiters ++ runes_of "])(" ++ join [124%Z] variants ++ runes_of ")($|[" ++ delimiters
    ++ runes_of "])".

Definition term1 (strong : bool) (w : string) : Term := mkTerm w (termPattern [w]) strong.

Definition adult_terms : list Term :=
  [mkTerm "fetish" (termPattern ["fetish"; "fetishxxx"; "fetishporn"; "fetishporno"]) true]
  ++ (term1 true <$> ["blowjob"; "gangbang"; "bukkake"; "cumshot"])
  ++ [mkTerm "gaping_anal" (termPattern ["gapinganal"]) true;
      mkTerm "porn" (termPattern ["porn"; "p0rn"; "pr0n"; "fetishporn"; "pornxxx"]) false;
      mkTerm "porno" (termPattern ["porno"; "fetishporno"; "pornoxxx"]) false;
      mkTerm "xxx" (termPattern ["xxx"; "fetishxxx"; "pornxxx"; "pornoxxx"]) false]
  ++ (term1 false <$> ["hentai"; "milf"; "anal"; "adult"; "nsfw"; "hardcore"])
  ++ [mkTerm "sex" (termPattern ["sex"; "s3x"]) false].

Definition specification `{ScriptTables} : Specification :=
  mkSpecification (scriptRanges Han) (scriptRanges Cyrillic) adult_terms 2 [("porn", "xxx"); ("porno", "xxx")].

(** ** Configuration and policy *)

Record Config := mkConfig {
  Enabled : bool;
  ExcludedInfoHashes : list string;
  InternalCheckToken : bytes
}.
Definition NewDefaultConfig : Config := mkConfig false [] [].

Inductive configError := ErrTooManyHashes | ErrInvalidHash | ErrCredential.

Definition Validate (c : Config) : option configError :=
  if (4096 <? len (ExcludedInfoHashes c))%Z then Some ErrTooManyHashes
  else if existsb (λ h, match ParseID h with Ok _ => false | _ => true end) (ExcludedInfoHashes c) then Some ErrInvalidHash
  else
    let n := len (InternalCheckToken c) in
    if negb (n =? 0)%Z && ((n <? 32)%Z || (256 <? n)%Z) then Some ErrCredential else None.

Record Policy := mkPolicy {
  enabled : bool;
  excluded : gset ID;
  excludedHashes : list ID;
  internalToken : bytes;
  terms : list Regex.regexp;
  strong : list bool;
  termNames : list string;
  explicitPairs : list (string * string)
}.

(** [p.excludedHashes[i].String() < p.excludedHashes[j].String()]; the keys
    are distinct, so sorting by it has one result. *)
Definition hash_le (a b : ID) : Prop := (Cmp_bytes (string_bytes (ID_String a)) (string_bytes (ID_String b)) ≤ 0)%Z.
#[export] Instance hash_le_dec : RelDecision hash_le.
Proof. intros a b. unfold hash_le. apply _. Defined.

Definition New `{ScriptTables} (c : Config) : outcome configError Policy :=
  match Validate c with
  | Some e => Err e
  | None =>
      let ids := (λ h, match ParseID h with Ok id => id | _ => ID_zero end) <$> ExcludedInfoHashes c in
      let ex : gset ID := list_to_set ids in
      let spec := specification in
      Ok (mkPolicy (Enabled c) ex (merge_sort hash_le (elements ex)) (InternalCheckToken c)
            ((λ t, default Regex.never (Regex.Compile (Pattern t))) <$> AdultTerms spec)
            (Strong <$> AdultTerms spec) (TName <$> AdultTerms spec) (ExplicitAdultPairs spec))
  end.

(** The receiver of a method may be nil. *)
Definition Policy_Enabled (p : option Policy) : bool := match p with Some p => enabled p | None => false end.
Definition ExcludedHashes (p : option Policy) : list ID := match p with Some p => excludedHashes p | None => [] end.
Definition ExcludesHash (p : option Policy) (h : ID) : bool :=
  match p with Some p => enabled p && bool_decide (h ∈ excluded p) | None => false end.

(** ** The decision *)

Inductive reason := Disabled | Allowed | OwnerHash | MissingName | HanName | CyrillicName | AdultComposite | AdultType
| NotServed.
Record Decision_ := mkDecision { Eligible : bool; Reason : reason }.

(** The names of the terms that match and how many do; whether one is strong. *)
Definition term_hits `{UnicodeTables} (p : Policy) (name : runes) : list (bool * string) :=
  omap (λ t, if Regex.MatchString t.1 name then Some t.2 else None) (zip (terms p) (zip (strong p) (termNames p))).

Section policy.
Context `{ScriptTables} `{UnicodeTables}.

Definition Evaluate (p : option Policy) (h : ID) (name : bytes) : Decision_ :=
  match p with
  | None => mkDecision true Disabled
  | Some p =>
      if negb (enabled p) then mkDecision true Disabled
      else if ExcludesHash (Some p) h then mkDecision false OwnerHash
      else
        let rs := range_runes name in
        if bool_decide (TrimSpace rs = []) then mkDecision false MissingName
        else if existsb (Is Han) rs then mkDecision false HanName
        else if existsb (Is Cyrillic) rs then mkDecision false CyrillicName
        else
          let hits := term_hits p rs in
          let matched n := bool_decide (n ∈ hits.*2) in
          let explicitPair := existsb (λ pr, matched pr.1 && matched pr.2) (explicitPairs p) in
          if ((2 <=? len hits)%Z && existsb fst hits) || explicitPair
          then mkDecision false AdultComposite else mkDecision true Allowed
  end.

Definition EvaluateClassified (p : option Policy) (h : ID) (name : bytes) (contentType : string) : Decision_ :=
  let d := Evaluate p h name in
  if Policy_Enabled p && Eligible d && bool_decide (contentType = "xxx") then mkDecision false AdultType else d.

(** ** Decisions in a context (context.go) *)

Record Source := mkSource { InfoHash : ID; SName : bytes; ContentType : string }.

(** What the code keeps in a context: the source and the check at a provider
    boundary, which may fail. *)
Record context {E : Type} := mkContext { ctx_source : option Source; ctx_admission : option (Source → outcome E Decision_) }.
Arguments context : clear implicits.

Definition EvaluateContext {E} (p : option Policy) (ctx : context E) (h : ID) (name : bytes) (contentType : string) : Decision_ :=
  match ctx_source ctx with
  | Some s => EvaluateClassified p (InfoHash s) (SName s) (ContentType s)
  | None => EvaluateClassified p h name contentType
  end.

Definition AdmitContext {E} (p : option Policy) (ctx : context E) (h : ID) (name : bytes) (contentType : string)
  : outcome E Decision_ :=
  let d := EvaluateContext p ctx h name contentType in
  if negb (Policy_Enabled p) || negb (Eligible d) then Ok d
  else match ctx_admission ctx with
       | Some check => check (default (mkSource h name contentType) (ctx_source ctx))
       | None => Ok d
       end.

(** ** The SQL text (sql.go) *)

Definition sqlColumn : Regex.regexp := Regex.MustCompile "^[a-z_][a-z0-9_]*\.[a-z_][a-z0-9_]*$".

Definition range_text (r : RuneRange) : runes := if (Hi r =? Lo r)%Z then [Lo r] else [Lo r; 45; Hi r]%Z.
Definition runeClass (ranges : list RuneRange) : runes := [91%Z] ++ (ranges ≫= range_text) ++ [93%Z].

Definition rs := runes_of.

(** The map from the names of the terms to their patterns: a later term with
    the same name replaces the earlier, an absent name reads as empty. *)
Definition pattern_of (ts : list Term) (n : string) : runes :=
  foldl (λ acc t, if bool_decide (TName t = n) then Pattern t else acc) [] ts.

Definition AllowsSQL (p : option Policy) (nameColumn hashColumn : runes) : go (runes * list runes) :=
  if negb (Policy_Enabled p) then Ok (rs "TRUE", [])
  else if negb (Regex.MatchString sqlColumn nameColumn) || negb (Regex.MatchString sqlColumn hashColumn) then Panic
  else
    let spec := specification in
    let name := rs "(" ++ nameColumn ++ rs " COLLATE " ++ rs dquote ++ rs "C" ++ rs dquote ++ rs ")" in
    let args := [TagWhitespace; runeClass (SHan spec ++ SCyrillic spec)] in
    let patterns := pattern_of (AdultTerms spec) in
    let pairs := (λ _, rs "(" ++ name ++ rs " ~ ? AND " ++ name ++ rs " ~ ?)") <$> ExplicitAdultPairs spec in
    let args := args ++ (ExplicitAdultPairs spec ≫= λ pr, [patterns pr.1; patterns pr.2]) in
    let strongs := filter (λ t, Strong t = true) (AdultTerms spec) in
    let strong := (λ _, name ++ rs " ~ ?") <$> strongs in
    let args := args ++ (Pattern <$> strongs) in
    let counts := (λ _, rs "CASE WHEN " ++ name ++ rs " ~ ? THEN 1 ELSE 0 END") <$> AdultTerms spec in
    let args := args ++ (Pattern <$> AdultTerms spec) in
    let sql := rs "CASE WHEN COALESCE(btrim(" ++ nameColumn ++ rs ",?), '')='' THEN FALSE WHEN " ++ name
                 ++ rs " ~ ? THEN FALSE" in
    let sql := match pairs with
               | [] => sql
               | _ => sql ++ rs " WHEN (" ++ join (rs " OR ") pairs ++ rs ") THEN FALSE"
               end in
    let sql := sql ++ rs " WHEN (" ++ join (rs " OR ") strong ++ rs ") THEN (" ++ join (rs " + ") counts ++ rs ") < "
                 ++ rs (pretty (MinimumDistinctAdultTerms spec)) ++ rs " ELSE TRUE END" in
    match ExcludedHashes p with
    | [] => Ok (sql, args)
    | hashes =>
        let marks := (λ _, rs "decode(?,'hex')") <$> hashes in
        Ok (rs "(" ++ sql ++ rs ") AND " ++ hashColumn ++ rs " NOT IN (" ++ join (rs ",") marks ++ rs ")",
            args ++ ((λ h, rs (ID_String h)) <$> hashes))
    end.

(** ** SQL as an expression

    A placeholder carries its argument. *)
Inductive sql :=
| SBool (b : bool)
| SBlank (column whitespace : runes)
| SMatch (e pattern : runes)
| SAnd (a b : sql)
| SParen (a : sql)
| SOr (l : list sql)
| SCase (whens : list (sql * sql)) (els : sql)
| SCountLess (e : runes) (patterns : list runes) (n : Z)
| SNotIn (column : runes) (hashes : list ID).

(** The text of an expression and its arguments in the order of their marks. *)
Fixpoint render (q : sql) : runes :=
  match q with
  | SBool b => if b then rs "TRUE" else rs "FALSE"
  | SBlank c _ => rs "COALESCE(btrim(" ++ c ++ rs ",?), '')=''"
  | SMatch e _ => e ++ rs " ~ ?"
  | SAnd a b => render a ++ rs " AND " ++ render b
  | SParen a => rs "(" ++ render a ++ rs ")"
  | SOr l => join (rs " OR ") (render <$> l)
  | SCase ws e =>
      rs "CASE" ++ (ws ≫= λ w, rs " WHEN " ++ render w.1 ++ rs " THEN " ++ render w.2) ++ rs " ELSE " ++ render e ++ rs " END"
  | SCountLess e ps n =>
      rs "(" ++ join (rs " + ") ((λ _, rs "CASE WHEN " ++ e ++ rs " ~ ? THEN 1 ELSE 0 END") <$> ps) ++ rs ") < " ++ rs (pretty n)
  | SNotIn c hs => c ++ rs " NOT IN (" ++ join (rs ",") ((λ _, rs "decode(?,'hex')") <$> hs) ++ rs ")"
  end.

Fixpoint arguments (q : sql) : list runes :=
  match q with
  | SBool _ => []
  | SBlank _ w => [w]
  | SMatch _ p => [p]
  | SAnd a b => arguments a ++ arguments b
  | SParen a => arguments a
  | SOr l => l ≫= arguments
  | SCase ws e => (ws ≫= λ w, arguments w.1 ++ arguments w.2) ++ arguments e
  | SCountLess _ ps _ => ps
  | SNotIn _ hs => (λ h, rs (ID_String h)) <$> hs
  end.

(** What PostgreSQL does: [~] on a text, a parameter; [btrim] drops characters
    of a set at both ends; [CASE] takes the first branch whose condition
    holds.  The row is the name, NULL or a text, and the hash. *)
Section value.
Context (pg_match : runes → runes → bool) (name : option runes) (hash : ID).

Fixpoint drop_in (set s : runes) : runes :=
  match s with c :: s' => if bool_decide (c ∈ set) then drop_in set s' else s | [] => [] end.
Definition btrim (s set : runes) : runes := rev (drop_in set (rev (drop_in set s))).

Definition matches_name (p : runes) : bool := match name with Some n => pg_match p n | None => false end.

Fixpoint value (q : sql) : bool :=
  match q with
  | SBool b => b
  | SBlank _ w => bool_decide (default [] (n ← name; Some (btrim n w)) = [])
  | SMatch _ p => matches_name p
  | SAnd a b => value a && value b
  | SParen a => value a
  | SOr l => existsb value l
  | SCase ws e =>
      (fix case ws := match ws with [] => value e | w :: ws => if value w.1 then value w.2 else case ws end) ws
  | SCountLess _ ps n => (len (filter (λ p, matches_name p = true) ps) <? n)%Z
  | SNotIn _ hs => negb (bool_decide (hash ∈ hs))
  end.
End value.

Definition allow_expr (spec : Specification) (excluded : list ID) (nameColumn hashColumn : runes) : sql :=
  let name := rs "(" ++ nameColumn ++ rs " COLLATE " ++ rs dquote ++ rs "C" ++ rs dquote ++ rs ")" in
  let pat := pattern_of (AdultTerms spec) in
  let pairs := (λ pr, SParen (SAnd (SMatch name (pat pr.1)) (SMatch name (pat pr.2)))) <$> ExplicitAdultPairs spec in
  let strong := (λ t, SMatch name (Pattern t)) <$> filter (λ t, Strong t = true) (AdultTerms spec) in
  let q :=
    SCase ([(SBlank nameColumn TagWhitespace, SBool false);
            (SMatch name (runeClass (SHan spec ++ SCyrillic spec)), SBool false)]
           ++ (match pairs with [] => [] | _ => [(SParen (SOr pairs), SBool false)] end)
           ++ [(SParen (SOr strong), SCountLess name (Pattern <$> AdultTerms spec) (MinimumDistinctAdultTerms spec))])
      (SBool true) in
  match excluded with [] => q | _ => SAnd (SParen q) (SNotIn hashColumn excluded) end.

(** ** The text is the rendering of the expression *)

Lemma join_map {A} sep (f : A → runes) (g : A → sql) (l : list A) :
  (∀ x, render (g x) = f x) → join sep (render <$> (g <$> l)) = join sep (f <$> l).
Proof. intros Hg. rewrite <-list_fmap_compose. f_equal. apply list_fmap_ext. intros i x _. apply Hg. Qed.

Lemma arguments_map {A} (f : A → list runes) (g : A → sql) (l : list A) :
  (∀ x, arguments (g x) = f x) → (g <$> l) ≫= arguments = l ≫= f.
Proof. intros Hg. induction l as [|x l IH]; [done|]. by rewrite fmap_cons, !bind_cons, Hg, IH. Qed.

Lemma bind_singleton {A B} (f : A → B) (l : list A) : (l ≫= λ x, [f x]) = f <$> l.
Proof. induction l as [|x l IH]; [done|]. by rewrite bind_cons, IH. Qed.

Lemma AllowsSQL_render p n h :
  enabled p = true → Regex.MatchString sqlColumn n = true → Regex.MatchString sqlColumn h = true →
  let q := allow_expr specification (excludedHashes p) n h in
  AllowsSQL (Some p) n h = Ok (render q, arguments q).
Proof.
  intros He Hn Hh. unfold AllowsSQL, Policy_Enabled, ExcludedHashes. rewrite He, Hn, Hh. cbn [negb orb].
  unfold allow_expr. generalize specification as spec. intros spec. cbn zeta.
  set (name := rs "(" ++ n ++ _). set (pat := pattern_of (AdultTerms spec)).
  set (strongs := filter _ (AdultTerms spec)).
  set (pairs := _ <$> ExplicitAdultPairs spec). set (pairs' := (λ pr, SParen _) <$> ExplicitAdultPairs spec).
  assert (join (rs " OR ") (render <$> pairs') = join (rs " OR ") pairs) as Hp.
  { apply join_map. intros pr. cbn [render]. rewrite <-!app_assoc. done. }
  assert (join (rs " OR ") (render <$> ((λ t, SMatch name (Pattern t)) <$> strongs))
          = join (rs " OR ") ((λ _ : Term, name ++ rs " ~ ?") <$> strongs)) as Hs by (by apply join_map).
  assert (∀ (f : Term → runes), (λ _ : runes, rs "CASE WHEN " ++ name ++ rs " ~ ? THEN 1 ELSE 0 END") <$> (f <$> AdultTerms spec)
          = (λ _ : Term, rs "CASE WHEN " ++ name ++ rs " ~ ? THEN 1 ELSE 0 END") <$> AdultTerms spec) as Hc.
  { intros f. by rewrite <-list_fmap_compose. }
  assert ((pairs' ≫= arguments) = (ExplicitAdultPairs spec ≫= λ pr, [pat pr.1; pat pr.2])) as Ha by (by apply arguments_map).
  assert ((((λ t, SMatch name (Pattern t)) <$> strongs) ≫= arguments) = Pattern <$> strongs) as Ht.
  { rewrite <-(bind_singleton Pattern strongs). by apply arguments_map. }
  assert (pairs' = [] ↔ pairs = []) as Hnil by (unfold pairs, pairs'; by destruct (ExplicitAdultPairs spec)).
  change (rs "CASE WHEN COALESCE(btrim(") with (rs "CASE" ++ rs " WHEN " ++ rs "COALESCE(btrim(").
  change (rs ",?), '')='' THEN FALSE WHEN ") with (rs ",?), '')=''" ++ rs " THEN " ++ rs "FALSE" ++ rs " WHEN ").
  change (rs " ~ ? THEN FALSE") with (rs " ~ ?" ++ rs " THEN " ++ rs "FALSE").
  change (rs ") THEN FALSE") with (rs ")" ++ rs " THEN " ++ rs "FALSE").
  change (rs ") THEN (") with (rs ")" ++ rs " THEN " ++ rs "(").
  change (rs " WHEN (") with (rs " WHEN " ++ rs "(").
  change (rs " ELSE TRUE END") with (rs " ELSE " ++ rs "TRUE" ++ rs " END").
  change (rs ") AND ") with (rs ")" ++ rs " AND ").
  clearbody pairs pairs'.
  destruct (excludedHashes p) as [|h0 hs]; destruct pairs as [|pr pairs], pairs' as [|pr' pairs'];
    try (by destruct Hnil as [H1 H2]; (discriminate (H1 eq_refl) || discriminate (H2 eq_refl))).
  all: cbn [render arguments app mbind list_bind fst snd].
  all: rewrite ?Hp, ?Hs, ?Hc, ?Ht, <-?Ha, ?bind_cons, <-?app_assoc; cbn [app mbind list_bind]; by rewrite ?app_nil_r.
Qed.

(** ** Script classes *)

Definition has (r : Z) (x : RuneRange) : bool := in_range r (Lo x) (Hi x).

(** The tables hold runes beyond ASCII, and something. *)
Definition table_ok (t : range_table) : Prop :=
  R16 t ++ R32 t ≠ [] ∧ Forall (λ e, 128 ≤ re_lo e ≤ re_hi e ∧ 1 ≤ re_stride e)%Z (R16 t ++ R32 t).

Lemma stride_runes_elem lo hi stride r :
  (lo ≤ hi)%Z → (1 ≤ stride)%Z →
  r ∈ stride_runes lo hi stride ↔ (lo ≤ r ≤ hi)%Z ∧ ((r - lo) `mod` stride = 0)%Z.
Proof.
  intros Hle Hst. unfold stride_runes. rewrite (proj2 (Z.ltb_ge hi lo)) by done.
  rewrite list_elem_of_fmap. setoid_rewrite elem_of_seq. split.
  - intros (k & -> & Hk). pose proof (Z.mul_div_le (hi - lo) stride ltac:(lia)).
    pose proof (Z.div_pos (hi - lo) stride ltac:(lia) ltac:(lia)). split; [nia|].
    replace (lo + Z.of_nat k * stride - lo)%Z with (Z.of_nat k * stride)%Z by lia. apply Z.mod_mul. lia.
  - intros [Hr Hm]. exists (Z.to_nat ((r - lo) / stride)).
    pose proof (Z.div_pos (r - lo) stride ltac:(lia) ltac:(lia)).
    pose proof (Z.div_le_mono (r - lo) (hi - lo) stride ltac:(lia) ltac:(lia)).
    pose proof (Z.div_mod (r - lo) stride ltac:(lia)). split; [nia|lia].
Qed.

Lemma entry_ranges_has e r :
  (128 ≤ re_lo e ≤ re_hi e ∧ 1 ≤ re_stride e)%Z → existsb (has r) (entry_ranges e) = entry_has r e.
Proof.
  intros He. unfold entry_ranges, entry_has. destruct (Z.eqb_spec (re_stride e) 1) as [E | E].
  - rewrite E, Z.mod_1_r. cbn. by rewrite orb_false_r, andb_true_r.
  - apply eq_true_iff_eq. rewrite existsb_exists. unfold in_range. rewrite !andb_true_iff, !Z.leb_le, Z.eqb_eq.
    pose proof (stride_runes_elem (re_lo e) (re_hi e) (re_stride e) r ltac:(lia) ltac:(lia)) as Hs.
    split.
    + intros (x & Hx & Hr). apply list_elem_of_In, list_elem_of_fmap in Hx as (r' & -> & Hr').
      unfold has, in_range in Hr. cbn in Hr. bool_hyps. assert (r' = r) as -> by lia. by apply Hs.
    + intros Hr. exists (mkRuneRange r r). split; [|unfold has, in_range; cbn; apply andb_true_iff; rewrite !Z.leb_le; lia].
      apply list_elem_of_In, list_elem_of_fmap. exists r. split; [done|by apply Hs].
Qed.

(** The ranges handed to SQL are the script. *)
Lemma scriptRanges_Is t r : table_ok t → existsb (has r) (scriptRanges t) = Is t r.
Proof.
  intros [_ Ht]. unfold scriptRanges, Is. rewrite <-bind_app.
  induction Ht as [|e l He Hl IH]; [done|]. rewrite bind_cons, existsb_app, entry_ranges_has by done.
  cbn. by rewrite IH.
Qed.

Definition range_ok (x : RuneRange) : Prop := (128 ≤ Lo x ≤ Hi x)%Z.

Lemma scriptRanges_ok t : table_ok t → scriptRanges t ≠ [] ∧ Forall range_ok (scriptRanges t).
Proof.
  intros [Hne Ht]. unfold scriptRanges. rewrite <-bind_app. split.
  - destruct Ht as [|e l He Hl]; [done|]. rewrite bind_cons. unfold entry_ranges, stride_runes.
    destruct (re_stride e =? 1)%Z; [done|]. by rewrite (proj2 (Z.ltb_ge _ _)) by lia.
  - clear Hne. induction Ht as [|e l He Hl IH]; [constructor|]. rewrite bind_cons. apply Forall_app. split; [|apply IH].
    unfold entry_ranges. destruct (re_stride e =? 1)%Z; [by repeat constructor; unfold range_ok; cbn; lia|].
    apply Forall_fmap, Forall_forall. intros r Hr. apply stride_runes_elem in Hr; [|lia..]. unfold range_ok. cbn. lia.
Qed.

Lemma class_char_plain c rest : c ≠ 92%Z → Regex.class_char (c :: rest) = Some (c, rest).
Proof. intros Hc. unfold Regex.class_char. by rewrite (proj2 (Z.eqb_neq c 92)). Qed.

Definition item_of (x : RuneRange) : Regex.item := Regex.Range (Lo x) (Hi x).

Lemma class_range_plain x rest :
  range_ok x → (∃ c rest', rest = c :: rest' ∧ c ≠ 45%Z) →
  Regex.class_range (range_text x ++ rest) = Some (item_of x, rest).
Proof.
  unfold range_ok, item_of. intros Hx (c & rest' & -> & Hc). unfold range_text.
  destruct (Z.eqb_spec (Hi x) (Lo x)) as [-> | Hne]; unfold Regex.class_range; cbn [app];
    rewrite class_char_plain by lia.
  - destruct rest' as [|d rest']; [done|]. by rewrite (proj2 (Z.eqb_neq c 45)).
  - rewrite Z.eqb_refl, (proj2 (Z.eqb_neq (Hi x) 93)), class_char_plain by lia. cbn.
    by rewrite (proj2 (Z.ltb_ge _ _)) by lia.
Qed.

Lemma class_items_plain ranges : ∀ fuel first acc,
  Forall range_ok ranges → (first = true → ranges ≠ []) → length ranges < fuel →
  Regex.class_items fuel first acc ((ranges ≫= range_text) ++ [93%Z]) = Some (acc ++ (item_of <$> ranges), []).
Proof.
  induction ranges as [|x ranges IH]; intros fuel first acc Hr Hf Hl; (destruct fuel as [|fuel]; [simpl in Hl; lia|]).
  - destruct first; [by destruct Hf|]. cbn. by rewrite app_nil_r.
  - apply Forall_cons in Hr as [Hx Hr]. rewrite bind_cons, <-app_assoc.
    assert (∃ c s', range_text x ++ (ranges ≫= range_text) ++ [93%Z] = c :: s' ∧ (128 ≤ c)%Z) as (c & s' & Hs & Hc).
    { unfold range_text. unfold range_ok in Hx. destruct (Hi x =? Lo x)%Z; cbn; do 2 eexists; (split; [done|lia]). }
    assert (∃ c rest', (ranges ≫= range_text) ++ [93%Z] = c :: rest' ∧ c ≠ 45%Z) as Hn.
    { destruct ranges as [|y ranges]; [by exists 93%Z, []|]. apply Forall_cons in Hr as [Hy _]. unfold range_ok in Hy.
      rewrite bind_cons. unfold range_text at 1. destruct (Hi y =? Lo y)%Z; cbn; do 2 eexists; (split; [done|lia]). }
    pose proof (class_range_plain x _ Hx Hn) as Hcr. rewrite Hs in Hcr |- *. cbn [Regex.class_items].
    rewrite (proj2 (Z.eqb_neq c 93)), Hcr by lia. cbn [andb].
    rewrite IH; [|done|done|simpl in Hl; lia]. by rewrite <-app_assoc.
Qed.

Lemma range_text_length ranges : length ranges ≤ length (ranges ≫= range_text).
Proof.
  induction ranges as [|x l IH]; [done|]. rewrite bind_cons, length_app. unfold range_text at 1.
  destruct (Hi x =? Lo x)%Z; cbn [length]; lia.
Qed.

Lemma runeClass_match ranges s :
  Forall range_ok ranges → ranges ≠ [] →
  ∃ re, Regex.Compile (runeClass ranges) = Some re
    ∧ Regex.MatchString re s = existsb (λ r, existsb (has r) ranges) s.
Proof.
  intros Hr Hne. exists (Regex.mkRegexp (Regex.Seq Regex.Empty (Regex.Class_ false false (item_of <$> ranges))) 0).
  split.
  - assert (Regex.parse_class false ((ranges ≫= range_text) ++ [93%Z])
            = Some (Regex.Class_ false false (item_of <$> ranges), [])) as Hp.
    { unfold Regex.parse_class. destruct ranges as [|x ranges]; [done|].
      assert (∃ c s', ((x :: ranges) ≫= range_text) ++ [93%Z] = c :: s' ∧ (128 ≤ c)%Z) as (c & s' & Hs & Hc).
      { apply Forall_cons in Hr as [Hx _]. unfold range_ok in Hx. rewrite bind_cons. unfold range_text at 1.
        destruct (Hi x =? Lo x)%Z; cbn; do 2 eexists; (split; [done|lia]). }
      rewrite Hs. rewrite (proj2 (Z.eqb_neq c 94)) by lia. rewrite <-Hs.
      rewrite class_items_plain; [done|done|done|]. rewrite length_app. pose proof (range_text_length (x :: ranges)). cbn [length] in *. lia. }
    unfold Regex.Compile, runeClass. cbn [app length]. cbn [Nat.mul Nat.add]. cbn [Regex.parse_alt].
    cbn [Regex.m_fold]. rewrite Hp. cbn [Regex.repetition]. 
    rewrite <-Nat.add_succ_comm. cbn. done.
  - rewrite Regex.MatchString_class. induction s as [|r s IH]; [done|]. cbn [existsb]. rewrite IH. f_equal.
    unfold Regex.class_has. rewrite andb_false_l, orb_false_r, xorb_false_l.
    clear. induction ranges as [|x l IH]; [done|]. cbn. by rewrite IH.
Qed.

(** ** The value is the decision *)

Lemma TagWhitespace_IsSpace r : bool_decide (r ∈ TagWhitespace) = IsSpace r.
Proof.
  apply eq_true_iff_eq. rewrite bool_decide_eq_true. unfold TagWhitespace, IsSpace.
  rewrite !elem_of_cons, elem_of_nil, !orb_true_iff, !andb_true_iff, !Z.leb_le, !Z.eqb_eq. lia.
Qed.

Lemma btrim_TrimSpace s : btrim s TagWhitespace = TrimSpace s.
Proof.
  assert (∀ s, drop_in TagWhitespace s = trim_left s) as Hd.
  { intros u. induction u as [|r u IH]; [done|]. cbn [drop_in trim_left]. by rewrite TagWhitespace_IsSpace, IH. }
  unfold btrim, TrimSpace. by rewrite !Hd.
Qed.

Lemma Ok_inj {E A} (a b : A) : @Ok E A a = Ok b → a = b.
Proof. by intros [= ->]. Qed.

(** The compiled terms, as the policy keeps them. *)
Definition term_matches (t : Term) (name : runes) : bool :=
  Regex.MatchString (default Regex.never (Regex.Compile (Pattern t))) name.

Lemma New_fields c p :
  New c = Ok p →
  enabled p = Enabled c ∧ excludedHashes p ≡ₚ elements (excluded p) ∧ explicitPairs p = ExplicitAdultPairs specification
  ∧ ∀ name, term_hits p name
      = (λ t, (Strong t, TName t)) <$> filter (λ t, term_matches t name = true) adult_terms.
Proof.
  unfold New. destruct (Validate c); [done|]. intros Hp%Ok_inj. subst p. cbn [enabled excludedHashes excluded explicitPairs].
  split_and!; [done|apply merge_sort_Permutation|done|]. intros name. unfold term_hits. cbn [terms strong termNames].
  change (AdultTerms specification) with adult_terms.
  generalize adult_terms as l. induction l as [|t l IH]; [done|].
  rewrite !fmap_cons. cbn [zip zip_with omap list_omap fst snd]. fold (term_matches t name).
  destruct (term_matches t name) eqn:Hm.
  - rewrite filter_cons_True by done. rewrite fmap_cons. f_equal. apply IH.
  - rewrite filter_cons_False by congruence. apply IH.
Qed.

(** The names of the terms are distinct, so the map finds each pattern. *)
Lemma pattern_of_name ts t : NoDup (TName <$> ts) → t ∈ ts → pattern_of ts (TName t) = Pattern t.
Proof.
  unfold pattern_of. generalize (@nil Z) as acc. induction ts as [|u ts IH]; intros acc Hnd Hin; [by apply elem_of_nil in Hin|].
  rewrite fmap_cons in Hnd. apply NoDup_cons in Hnd as [Hnu Hnd]. cbn [foldl].
  apply elem_of_cons in Hin as [<- | Hin]; [|by apply IH].
  rewrite bool_decide_eq_true_2 by done. clear IH Hnd. generalize (Pattern t) as a.
  induction ts as [|u ts IH]; intros a; [done|]. cbn [foldl]. rewrite fmap_cons in Hnu.
  rewrite bool_decide_eq_false_2 by set_solver. apply IH. set_solver.
Qed.

Lemma adult_names : NoDup (TName <$> adult_terms).
Proof. apply (bool_decide_unpack _). by vm_compute. Qed.

Lemma pair_terms pr : pr ∈ ExplicitAdultPairs specification →
  ∃ a b, a ∈ adult_terms ∧ b ∈ adult_terms ∧ pr = (TName a, TName b).
Proof.
  change (ExplicitAdultPairs specification) with [("porn", "xxx"); ("porno", "xxx")].
  assert (∀ n, n ∈ ["porn"; "porno"; "xxx"] → ∃ t, t ∈ adult_terms ∧ n = TName t) as Hn.
  { intros n Hn. assert (n ∈ TName <$> adult_terms) as (t & -> & Ht)%list_elem_of_fmap; [|by exists t].
    assert (Forall (λ n, n ∈ TName <$> adult_terms) ["porn"; "porno"; "xxx"]) as Hf
      by (apply (bool_decide_unpack _); by vm_compute).
    rewrite Forall_forall in Hf. by apply Hf. }
  intros Hpr. destruct (Hn "xxx") as (x & Hx & Ex); [set_solver|].
  apply elem_of_cons in Hpr as [-> | ->%list_elem_of_singleton].
  - destruct (Hn "porn") as (a & Ha & Ea); [set_solver|]. exists a, x. by rewrite <-Ex, <-Ea.
  - destruct (Hn "porno") as (a & Ha & Ea); [set_solver|]. exists a, x. by rewrite <-Ex, <-Ea.
Qed.

Lemma adult_compile : Forall (λ t, is_Some (Regex.Compile (Pattern t))) adult_terms.
Proof. apply (bool_decide_unpack _). by vm_compute. Qed.

Lemma existsb_map {A} (f : A → bool) (g : A → sql) pg name h (l : list A) :
  (∀ x, value pg name h (g x) = f x) → existsb (value pg name h) (g <$> l) = existsb f l.
Proof. intros Hg. induction l as [|x l IH]; [done|]. cbn. by rewrite Hg, <-IH. Qed.

Lemma value_allow_expr pg name h spec ex n hc :
  let hit := matches_name pg name in
  let pat := pattern_of (AdultTerms spec) in
  value pg name h (allow_expr spec ex n hc)
  = (if bool_decide (default [] (x ← name; Some (btrim x TagWhitespace)) = []) then false
     else if hit (runeClass (SHan spec ++ SCyrillic spec)) then false
     else if existsb (λ pr, hit (pat pr.1) && hit (pat pr.2)) (ExplicitAdultPairs spec) then false
     else if existsb (λ t, hit (Pattern t)) (filter (λ t, Strong t = true) (AdultTerms spec))
          then (len (filter (λ p, hit p = true) (Pattern <$> AdultTerms spec)) <? MinimumDistinctAdultTerms spec)%Z
     else true) && negb (bool_decide (h ∈ ex)).
Proof.
  intros hit pat. unfold allow_expr. cbn zeta. fold pat.
  set (nm := rs "(" ++ _). set (strongs := filter _ (AdultTerms spec)).
  set (pairs := _ <$> ExplicitAdultPairs spec). set (strong := _ <$> strongs).
  assert (existsb (value pg name h) pairs = existsb (λ pr, hit (pat pr.1) && hit (pat pr.2)) (ExplicitAdultPairs spec))
    as <- by (by apply existsb_map).
  assert (existsb (value pg name h) strong = existsb (λ t, hit (Pattern t)) strongs) as <- by (by apply existsb_map).
  clearbody pairs strong. destruct pairs as [|q pairs], ex as [|e ex];
    rewrite ?(bool_decide_eq_false_2 (h ∈ [])) by (by intros ?%elem_of_nil);
    cbn [value app existsb negb fst snd]; rewrite ?andb_true_r; done.
Qed.

(** PostgreSQL and Go agree on the patterns of the specification. *)
Definition pg_agrees (pg : runes → runes → bool) : Prop :=
  ∀ pat re s, pat ∈ runeClass (SHan specification ++ SCyrillic specification) :: (Pattern <$> adult_terms) →
    Regex.Compile pat = Some re → pg pat s = Regex.MatchString re s.

Lemma pg_term pg t s : pg_agrees pg → t ∈ adult_terms → pg (Pattern t) s = term_matches t s.
Proof.
  intros Hpg Ht. pose proof adult_compile as Hc. rewrite Forall_forall in Hc. destruct (Hc t Ht) as [re Hre].
  unfold term_matches. rewrite Hre. apply Hpg; [|done]. right. by apply list_elem_of_fmap_2.
Qed.

Lemma pg_script pg s :
  pg_agrees pg → table_ok Han → table_ok Cyrillic →
  pg (runeClass (SHan specification ++ SCyrillic specification)) s = existsb (Is Han) s || existsb (Is Cyrillic) s.
Proof.
  intros Hpg HH HC. change (SHan specification) with (scriptRanges Han) in *.
  change (SCyrillic specification) with (scriptRanges Cyrillic) in *.
  destruct (scriptRanges_ok Han HH) as [Hne Hok]. destruct (scriptRanges_ok Cyrillic HC) as [_ Hok'].
  destruct (runeClass_match (scriptRanges Han ++ scriptRanges Cyrillic) s) as (re & Hre & Hm).
  { by apply Forall_app. }
  { intros [? _]%app_nil. done. }
  rewrite (Hpg _ re s) by (left || done). rewrite Hm. clear - HH HC. induction s as [|r s IH]; [done|].
  cbn [existsb]. rewrite IH, existsb_app, !scriptRanges_Is by done.
  by destruct (Is Han r), (Is Cyrillic r), (existsb (Is Han) s).
Qed.

Lemma NoDup_fmap_inj {A B} (f : A → B) (l : list A) x y : NoDup (f <$> l) → x ∈ l → y ∈ l → f x = f y → x = y.
Proof.
  induction l as [|z l IH]; [by intros _ ?%elem_of_nil|]. rewrite fmap_cons. intros [Hz Hnd]%NoDup_cons.
  assert (∀ w, w ∈ l → f z ≠ f w) as Hne by (intros w Hw He; apply Hz; rewrite He; by apply list_elem_of_fmap_2).
  intros [-> | Hx]%elem_of_cons [-> | Hy]%elem_of_cons He; [done| | |by apply IH]; exfalso; eapply Hne; eauto.
Qed.

(** The condition on adult terms, from both sides. *)
Lemma composite_agrees pg s :
  pg_agrees pg →
  let hits := (λ t, (Strong t, TName t)) <$> filter (λ t, term_matches t s = true) adult_terms in
  let hit p := pg p s in
  existsb (λ t, hit (Pattern t)) (filter (λ t, Strong t = true) adult_terms) = existsb fst hits
  ∧ len (filter (λ p, hit p = true) (Pattern <$> adult_terms)) = len hits
  ∧ ∀ t, t ∈ adult_terms → hit (pattern_of adult_terms (TName t)) = bool_decide (TName t ∈ hits.*2).
Proof.
  intros Hpg hits hit.
  assert (∀ t, t ∈ adult_terms → hit (Pattern t) = term_matches t s) as Hh by (intros; by apply pg_term).
  split_and!.
  - unfold hits. revert Hh. generalize adult_terms as l. induction l as [|t l IH]; intros Hh; [done|].
    specialize (IH ltac:(set_solver)). pose proof (Hh t ltac:(set_solver)) as Ht.
    destruct (term_matches t s) eqn:Hm;
      [rewrite (filter_cons_True (λ t, term_matches t s = true)) by done
      |rewrite (filter_cons_False (λ t, term_matches t s = true)) by congruence];
      (destruct (Strong t) eqn:Hs;
        [rewrite (filter_cons_True (λ t, Strong t = true)) by done
        |rewrite (filter_cons_False (λ t, Strong t = true)) by congruence]); cbn; rewrite ?Ht, ?Hs; done.
  - unfold hits, len. f_equal. rewrite length_fmap. revert Hh. generalize adult_terms as l.
    induction l as [|t l IH]; intros Hh; [done|]. rewrite fmap_cons. pose proof (Hh t ltac:(set_solver)) as Ht.
    specialize (IH ltac:(set_solver)). destruct (term_matches t s) eqn:Hm.
    + rewrite !filter_cons_True by done. cbn. by rewrite IH.
    + rewrite !filter_cons_False by congruence. apply IH.
  - intros t Ht. rewrite pattern_of_name by (done || apply adult_names). rewrite Hh by done.
    apply eq_true_iff_eq. rewrite bool_decide_eq_true. unfold hits. rewrite <-list_fmap_compose. split.
    + intros Hm. apply (list_elem_of_fmap_2 (snd ∘ (λ t, (Strong t, TName t)))). by apply list_elem_of_filter.
    + intros (u & Hu & [Hm Hin]%list_elem_of_filter)%list_elem_of_fmap. cbn in Hu.
      by rewrite (NoDup_fmap_inj TName adult_terms t u adult_names).
Qed.

Lemma value_decision pg p c name h n hc :
  table_ok Han → table_ok Cyrillic → pg_agrees pg → New c = Ok p → Enabled c = true →
  value pg (Some (range_runes name)) h (allow_expr specification (excludedHashes p) n hc)
  = Eligible (Evaluate (Some p) h name).
Proof.
  intros HH HC Hpg Hnew He. destruct (New_fields c p Hnew) as (Hen & Hex & Hpairs & Hhits). rewrite He in Hen.
  rewrite value_allow_expr. cbn zeta.
  change (AdultTerms specification) with adult_terms. change (MinimumDistinctAdultTerms specification) with 2%Z.
  destruct (composite_agrees pg (range_runes name) Hpg) as (Hstrong & Hcount & Hname).
  cbn [matches_name]. cbn [mbind option_bind default]. unfold id at 1. rewrite btrim_TrimSpace, pg_script by done.
  unfold Evaluate, ExcludesHash. rewrite Hen. cbn [negb andb].
  rewrite (bool_decide_ext (h ∈ excludedHashes p) (h ∈ excluded p)) by (rewrite Hex; apply elem_of_elements).
  destruct (bool_decide (h ∈ excluded p)); cbn [negb]; [by rewrite andb_false_r|]. rewrite andb_true_r.
  destruct (bool_decide (TrimSpace (range_runes name) = [])); [done|].
  destruct (existsb (Is Han) (range_runes name)); [done|]. destruct (existsb (Is Cyrillic) (range_runes name)); [done|].
  cbn [orb]. rewrite Hhits, Hpairs, Hstrong, Hcount. cbn zeta in Hname |- *. set (hits := _ <$> filter _ adult_terms) in *.
  assert (existsb (λ pr, pg (pattern_of adult_terms pr.1) (range_runes name) && pg (pattern_of adult_terms pr.2) (range_runes name))
            (ExplicitAdultPairs specification)
          = existsb (λ pr, bool_decide (pr.1 ∈ hits.*2) && bool_decide (pr.2 ∈ hits.*2)) (ExplicitAdultPairs specification)) as ->.
  { pose proof pair_terms as Hpt. revert Hpt. generalize (ExplicitAdultPairs specification) as l.
    induction l as [|pr l IH]; intros Hpt; [done|]. cbn [existsb]. rewrite IH by set_solver. f_equal.
    destruct (Hpt pr ltac:(set_solver)) as (a & b & Ha & Hb & ->). cbn [fst snd]. by rewrite !Hname. }
  destruct (existsb _ (ExplicitAdultPairs specification)); [by rewrite orb_true_r|]. rewrite orb_false_r.
  destruct (existsb fst hits); [|by rewrite andb_false_r]. rewrite andb_true_r. clearbody hits.
  destruct (Z.ltb_spec (len hits) 2), (Z.leb_spec 2 (len hits)); done || lia.
Qed.

(** C17: The SQL predicate is the decision: for an enabled policy, the text and arguments that AllowsSQL builds are those of an expression whose value, on every release name and info hash, is whether Evaluate finds the release eligible, given that PostgreSQL and Go agree on the patterns of the specification; on a NULL name it is false. *)
Theorem namepolicy_sql_equivalent pg c p n hc :
  table_ok Han → table_ok Cyrillic → pg_agrees pg → New c = Ok p → Enabled c = true →
  Regex.MatchString sqlColumn n = true → Regex.MatchString sqlColumn hc = true →
  ∃ q, AllowsSQL (Some p) n hc = Ok (render q, arguments q)
    ∧ (∀ name h, value pg (Some (range_runes name)) h q = Eligible (Evaluate (Some p) h name))
    ∧ ∀ h, value pg None h q = false.
Proof.
  intros HH HC Hpg Hnew He Hn Hc. exists (allow_expr specification (excludedHashes p) n hc). split_and!.
  - apply AllowsSQL_render; [|done|done]. destruct (New_fields c p Hnew) as (-> & _). done.
  - intros name h. by eapply value_decision.
  - intros h. rewrite value_allow_expr. cbn [mbind option_bind default]. by rewrite bool_decide_eq_true_2.
Qed.

#[local] Instance hash_le_total : Total hash_le.
Proof.
  intros a b. unfold hash_le.
  assert (∀ x y, Cmp_bytes x y ≤ 0 ∨ Cmp_bytes y x ≤ 0)%Z as Ht; [|apply Ht].
  induction x as [|u x IH]; intros [|v y]; cbn; try lia.
  destruct (Z.ltb_spec u v), (Z.ltb_spec v u); try lia; apply IH.
Qed.

Lemma Validate_None c :
  Validate c = None →
  (len (ExcludedInfoHashes c) ≤ 4096)%Z ∧ Forall (λ s, ∃ id, ParseID s = Ok id) (ExcludedInfoHashes c)
  ∧ (InternalCheckToken c = [] ∨ (32 ≤ len (InternalCheckToken c) ≤ 256)%Z).
Proof.
  unfold Validate. destruct (Z.ltb_spec 4096 (len (ExcludedInfoHashes c))) as [? | Hl]; [done|].
  destruct (existsb _ _) eqn:Hex; [done|]. intros Hv. split_and!; [done| |].
  - apply Forall_forall. intros s Hs. destruct (ParseID s) as [id|e|] eqn:Hp; [eauto| |];
      (assert (existsb (λ h, match ParseID h with Ok _ => false | _ => true end) (ExcludedInfoHashes c) = true);
       [|congruence]; apply existsb_exists; exists s; (split; [by apply list_elem_of_In|by rewrite Hp])).
  - unfold len in *. destruct (InternalCheckToken c) as [|b t]; [by left|right]. cbn zeta in Hv.
    destruct (Z.eqb_spec (Z.of_nat (length (b :: t))) 0); [simpl in *; lia|]. cbn [negb andb] in Hv.
    destruct (Z.ltb_spec (Z.of_nat (length (b :: t))) 32), (Z.ltb_spec 256 (Z.of_nat (length (b :: t)))); cbn in Hv; try done.
Qed.

Lemma ParseID_id20 s id : ParseID s = Ok id → id20 id.
Proof.
  unfold ParseID. intros Hp. apply outcome_bind_Ok in Hp as (b & Hb & Hp).
  apply hex_decode_sound in Hb as [Hok _]. case_decide as Hl; [done|].
  rewrite copy_into_full in Hp by (by rewrite length_ID_zero). injection Hp as <-. by split.
Qed.

(** A policy that New accepts is well formed: its hash list has at most 4096 entries, is sorted by hexadecimal text without repetition, holds exactly the configured hashes, each of 20 bytes; its credential is empty or of 32 to 256 bytes; and its three lists of terms have the same length. *)
Theorem namepolicy_new_wf c p :
  New c = Ok p →
  (∀ id, id ∈ excludedHashes p ↔ ∃ s, s ∈ ExcludedInfoHashes c ∧ ParseID s = Ok id)
  ∧ NoDup (excludedHashes p) ∧ Sorted hash_le (excludedHashes p) ∧ (len (excludedHashes p) ≤ 4096)%Z
  ∧ Forall id20 (excludedHashes p)
  ∧ (internalToken p = [] ∨ (32 ≤ len (internalToken p) ≤ 256)%Z)
  ∧ length (terms p) = length (strong p) ∧ length (strong p) = length (termNames p).
Proof.
  unfold New. destruct (Validate c) eqn:Hv; [done|]. intros Hp%Ok_inj. subst p.
  cbn [excludedHashes internalToken terms strong termNames].
  destruct (Validate_None c Hv) as (Hlen & Hids & Htok).
  set (ids := (λ h, match ParseID h with Ok id => id | _ => ID_zero end) <$> ExcludedInfoHashes c).
  assert (∀ id, id ∈ merge_sort hash_le (elements (list_to_set ids : gset ID))
            ↔ ∃ s, s ∈ ExcludedInfoHashes c ∧ ParseID s = Ok id) as Hin.
  { intros id. rewrite merge_sort_Permutation, elem_of_elements, elem_of_list_to_set. unfold ids.
    rewrite list_elem_of_fmap. rewrite Forall_forall in Hids. split.
    - intros (s & -> & Hs). exists s. split; [done|]. by destruct (Hids s Hs) as [id ->].
    - intros (s & Hs & Hid). exists s. by rewrite Hid. }
  split_and!; [exact Hin| | | | |exact Htok|by rewrite !length_fmap|by rewrite !length_fmap].
  - rewrite merge_sort_Permutation. apply NoDup_elements.
  - apply Sorted_merge_sort. apply _.
  - unfold len in *. rewrite merge_sort_Permutation.
    assert (length (elements (list_to_set ids : gset ID)) ≤ length ids); [|unfold ids in *; rewrite length_fmap in *; lia].
    apply submseteq_length, NoDup_submseteq; [apply NoDup_elements|]. set_solver.
  - apply Forall_forall. intros id Hid. apply Hin in Hid as (s & _ & Hs). by apply ParseID_id20 in Hs.
Qed.

End policy.

(** ** Witnesses *)

(** A part of each script. *)
Definition ex_scripts : ScriptTables := {|
  Han := mkRangeTable [mkRangeEntry 19968 40959 1] [mkRangeEntry 131072 173791 1];
  Cyrillic := mkRangeTable [mkRangeEntry 1024 1153 1; mkRangeEntry 1162 1166 2] []
|}.

#[local] Existing Instances ex_scripts Regex.ascii_tables.

Lemma ex_tables_ok : table_ok Han ∧ table_ok Cyrillic.
Proof. split; (split; [done|]); cbn; repeat constructor; cbn; lia. Qed.

Definition ex_pg (pat s : runes) : bool :=
  match Regex.Compile pat with Some re => Regex.MatchString re s | None => false end.

Lemma ex_pg_agrees : pg_agrees ex_pg.
Proof. intros pat re s _ Hre. unfold ex_pg. by rewrite Hre. Qed.

Definition ex_config : Config :=
  mkConfig true ["00000000000000000000000000000000000000ff"; "0x0102030405060708090a0b0c0d0e0f1011121314"]%string
    (replicate 40 7%Z).

Definition ex_policy : Policy :=
  match New ex_config with Ok p => p | _ => mkPolicy false ∅ [] [] [] [] [] [] end.

Lemma ex_policy_ok : New ex_config = Ok ex_policy.
Proof.
  unfold ex_policy. assert (Validate ex_config = None) as Hv by (by vm_compute). unfold New. by rewrite Hv.
Qed.

Lemma namepolicy_sql_equivalent_witness :
  ∃ q, AllowsSQL (Some ex_policy) (runes_of "torrents.name") (runes_of "torrents.info_hash") = Ok (render q, arguments q)
    ∧ (∀ name h, value ex_pg (Some (range_runes name)) h q = Eligible (Evaluate (Some ex_policy) h name))
    ∧ ∀ h, value ex_pg None h q = false.
Proof.
  destruct ex_tables_ok as [HH HC].
  apply (namepolicy_sql_equivalent ex_pg ex_config ex_policy (runes_of "torrents.name") (runes_of "torrents.info_hash") HH HC
           ex_pg_agrees ex_policy_ok eq_refl); by vm_compute.
Defined.

Lemma namepolicy_new_wf_witness :
  length (excludedHashes ex_policy) = 2 ∧ Sorted hash_le (excludedHashes ex_policy).
Proof.
  split; [by vm_compute|]. destruct (namepolicy_new_wf ex_config ex_policy ex_policy_ok) as (_ & _ & Hs & _). exact Hs.
Defined.

(** Names of [policy_test.go]. *)
Example denied_names :
  (λ s, Eligible (Evaluate (Some ex_policy) ID_zero (string_bytes s)))
  <$> ["Synthetic.电影.ENG.DUB.mkv"; "Synthetic.Фильм.English.mkv"; "Fetish.XXX.2024.mkv"; "f.e.t.i.s.h.x-x-x.mkv";
       "FETISH+S3X.mkv"; "Fetish.p0rn.mkv"; "FetishXXX.mkv"; "PornXXX.mkv"; "P0rn.X.X.X.mkv"; "Gaping.Anal.XXX.mkv"]
  = replicate 10 false.
Proof. by vm_compute. Qed.

Example allowed_names :
  (λ s, Eligible (Evaluate (Some ex_policy) ID_zero (string_bytes s)))
  <$> ["Café.2024.ENG.mkv"; "xXx.2002.1080p.mkv"; "Fetish.2024.Documentary.mkv"; "Sex.Education.S01.mkv";
       "Caféfetish.xxx.mkv"; "Fetish.xxxé.mkv"; "FetishFiction.xxx.mkv"; "MILF.2018.adult.comedy.mkv";
       "Porno.2019.Adult.Comedy.mkv"; "Hentai.Documentary.XXX.mkv"; "FétishXXX.mkv"]
  = replicate 11 true.
Proof. by vm_compute. Qed.

End NamePolicy.
