(* ===== verification/Classifier.v ===== *)
(** * Running a classifier workflow

    [internal/classifier]: what the compiled actions of [Workflow] do to a
    classification result when a torrent is classified ([action_*.go],
    [condition_*.go], [runner.go]), the result and its merging
    ([classification/result.go], [errors.go]), the hint that canonical evidence
    puts on a torrent ([runner_canonical.go]), and the local enrichment of a
    predicted type ([action_enrich_type_fallback.go], [identity.go]).

    The maps of tags and languages are references into a store, since a result
    is passed by value while its maps are shared: an action that writes into a
    map is seen by every copy of the result that holds it, also by the copy
    that [find_match] goes back to.  The state of a run is that store, the
    world behind the services, the cell that [type_fallback] and
    [enrich_type_fallback] share, and the traces of [evaltrace] and
    [processingstate].

    The services are arguments ([Services]: the local search and the TMDB
    resolver, the anime aliases, the video parser, cel-go's evaluation).  An
    action is run with fuel for the nesting of [run_workflow], and nothing else
    consumes it; [classifier_total] says how much is enough.  A workflow that is not
    in the table is a call of a nil function. *)
From S2P Require Import Prelude Protocol Lexer Fts Metainfo Regex Dates Episodes NamePolicy Workflow.
From stdpp Require Import gmap list strings sets.
From Stdlib Require Import ZArith Lia.

#[local] Open Scope string_scope.
#[local] Open Scope list_scope.

Module Classifier.
Import Lexer Workflow.

(** ** Errors of a run, [classification/errors.go] *)

(** [OtherError] is an error made elsewhere, by its identity. *)
Inductive error :=
| ErrUnmatched
| ErrDeleteTorrent
| RuntimeError (Path : list string) (Cause : error) (ContentType : NullEnum)
| ErrExcluded
| ErrWorkflowNotFound (name : string)
| ErrInvalidFlag (name : string)
| OtherError (z : Z).
#[export] Instance error_eq_dec : EqDecision error.
Proof. solve_decision. Defined.

(** [errors.Is] for one of the two workflow errors. *)
Fixpoint Is (e target : error) : bool :=
  bool_decide (e = target) || match e with RuntimeError _ c _ => Is c target | _ => false end.
(** [errors.As] for [RuntimeError]. *)
Definition AsRuntime (e : error) : option (list string * NullEnum) :=
  match e with RuntimeError p _ ct => Some (p, ct) | _ => None end.

(** ** Results, [classification/result.go] *)

Record NullString := mkString { Text : runes; TValid : bool }.
Definition no_string : NullString := mkString [] false.
Definition NewNullString (s : runes) : NullString := mkString s true.

Record ReleaseAttributes := mkReleaseAttributes {
  ra_Version : Z; ra_Parser : runes; ra_SourceNameSHA256 : runes; ra_HDRFormats : list runes; ra_AudioFormats : list runes;
  ra_AudioChannels : option runes; ra_AudioFeatures : list runes; ra_Revisions : list runes; ra_Encoder : option runes }.

(** The attributes of a result; [L] stands for the map of languages: a
    reference, or its value when the map has just been made. *)
Record ContentAttributes {L : Type} := mkAttributes {
  ContentType : NullEnum;
  BaseTitle : NullString;
  Date_ : Dates.Date;
  Languages : option L;
  LanguageMulti : bool;
  Episodes_ : Episodes.Episodes;
  VideoResolution : NullEnum;
  VideoSource : NullEnum;
  VideoCodec : NullEnum;
  Video3D : NullEnum;
  VideoModifier : NullEnum;
  ReleaseGroup : NullString;
  ReleaseAttributes_ : option ReleaseAttributes }.
Arguments ContentAttributes : clear implicits.

(** Of a catalogue entry, the fields the classifier reads. *)
Record Content := mkContent {
  c_Type : string; c_Source : runes; c_ID : runes; c_Title : runes; c_ReleaseYear : Z;
  c_OriginalLanguage : option string; c_OriginalTitle : NullString; c_Attributes : list (runes * runes) }.

Record ContentRef := mkRef { r_Type : string; r_Source : runes; r_ID : runes }.
#[export] Instance ContentRef_eq_dec : EqDecision ContentRef.
Proof. solve_decision. Defined.
Definition Ref (c : Content) : ContentRef := mkRef (c_Type c) (c_Source c) (c_ID c).

Record Result := mkResult {
  Attributes : ContentAttributes positive;
  Content_ : option Content;
  Tags : option positive }.

Definition no_attributes {L} : ContentAttributes L :=
  mkAttributes L no_type no_string Dates.zero None false ∅ no_type no_type no_type no_type no_type no_string None.
Definition no_result : Result := mkResult no_attributes None None.

Definition set_attributes (r : Result) (a : ContentAttributes positive) : Result := mkResult a (Content_ r) (Tags r).
Definition set_type {L} (a : ContentAttributes L) (ct : NullEnum) : ContentAttributes L :=
  mkAttributes L ct (BaseTitle a) (Date_ a) (Languages a) (LanguageMulti a) (Episodes_ a) (VideoResolution a) (VideoSource a)
    (VideoCodec a) (Video3D a) (VideoModifier a) (ReleaseGroup a) (ReleaseAttributes_ a).
Definition set_date {L} (a : ContentAttributes L) (d : Dates.Date) : ContentAttributes L :=
  mkAttributes L (ContentType a) (BaseTitle a) d (Languages a) (LanguageMulti a) (Episodes_ a) (VideoResolution a) (VideoSource a)
    (VideoCodec a) (Video3D a) (VideoModifier a) (ReleaseGroup a) (ReleaseAttributes_ a).
Definition set_languages {L M} (a : ContentAttributes L) (l : option M) : ContentAttributes M :=
  mkAttributes M (ContentType a) (BaseTitle a) (Date_ a) l (LanguageMulti a) (Episodes_ a) (VideoResolution a) (VideoSource a)
    (VideoCodec a) (Video3D a) (VideoModifier a) (ReleaseGroup a) (ReleaseAttributes_ a).
Definition set_episodes {L} (a : ContentAttributes L) (e : Episodes.Episodes) : ContentAttributes L :=
  mkAttributes L (ContentType a) (BaseTitle a) (Date_ a) (Languages a) (LanguageMulti a) e (VideoResolution a) (VideoSource a)
    (VideoCodec a) (Video3D a) (VideoModifier a) (ReleaseGroup a) (ReleaseAttributes_ a).

(** ** The store of maps *)

Abbreviation store := (gmap positive (gset string)).

Definition entries (h : store) (l : option positive) : gset string := default ∅ (l ≫= λ l, h !! l).
(** [make(map[string]struct{})] *)
Definition make_map (h : store) (X : gset string) : positive * store := let l := fresh (dom h) in (l, <[l := X]> h).
(** A map that is made if it is nil, then written. *)
Definition add_entries (h : store) (l : option positive) (ks : gset string) : positive * store :=
  match l with
  | None => make_map h ks
  | Some l => (l, <[l := entries h (Some l) ∪ ks]> h)
  end.

(** ** Merging, hints and attachment *)

Definition or_enum (a b : NullEnum) : NullEnum := if Valid a then a else b.
Definition or_string (a b : NullString) : NullString := if TValid a then a else b.

(** [Merge]; a map of languages counts by its entries. *)
Definition Merge {L} (empty : option L → bool) (a other : ContentAttributes L) : ContentAttributes L :=
  mkAttributes L
    (or_enum (ContentType a) (ContentType other))
    (or_string (BaseTitle a) (BaseTitle other))
    (if Dates.IsNil (Date_ a) then Date_ other else Date_ a)
    (if empty (Languages a) then Languages other else Languages a)
    (LanguageMulti a || LanguageMulti other)
    (if bool_decide (Episodes_ a = ∅) then Episodes_ other else Episodes_ a)
    (or_enum (VideoResolution a) (VideoResolution other))
    (or_enum (VideoSource a) (VideoSource other))
    (or_enum (VideoCodec a) (VideoCodec other))
    (or_enum (Video3D a) (Video3D other))
    (or_enum (VideoModifier a) (VideoModifier other))
    (or_string (ReleaseGroup a) (ReleaseGroup other))
    (match ReleaseAttributes_ a with None => ReleaseAttributes_ other | o => o end).

Definition nil_or_empty (h : store) (l : option positive) : bool := bool_decide (entries h l = ∅).

(** The hint of a torrent, [model.TorrentHint]. *)
Record TorrentHint := mkHint {
  h_ContentType : string; h_ContentSource : NullString; h_ContentID : NullString; h_Languages : option positive;
  h_Episodes : Episodes.Episodes; h_VideoResolution : NullEnum; h_VideoSource : NullEnum; h_VideoCodec : NullEnum;
  h_Video3D : NullEnum; h_VideoModifier : NullEnum; h_ReleaseGroup : NullString }.
Definition Hint_IsNil (h : TorrentHint) : bool := bool_decide (h_ContentType h = "").
Definition Hint_NullContentType (h : TorrentHint) : NullEnum :=
  if Hint_IsNil h then no_type else NewNullContentType (h_ContentType h).
Definition Hint_ContentRef (h : TorrentHint) : option ContentRef :=
  if negb (Hint_IsNil h) && TValid (h_ContentID h)
  then Some (mkRef (h_ContentType h) (Text (h_ContentSource h)) (Text (h_ContentID h))) else None.

Definition Attributes_ApplyHint (s : store) (h : TorrentHint) (a : ContentAttributes positive) : ContentAttributes positive :=
  mkAttributes positive (ContentType a) (BaseTitle a) (Date_ a)
    (if nil_or_empty s (h_Languages h) then Languages a else h_Languages h) (LanguageMulti a)
    (if bool_decide (h_Episodes h = ∅) then Episodes_ a else h_Episodes h)
    (or_enum (h_VideoResolution h) (VideoResolution a)) (or_enum (h_VideoSource h) (VideoSource a))
    (or_enum (h_VideoCodec h) (VideoCodec a)) (or_enum (h_Video3D h) (Video3D a)) (or_enum (h_VideoModifier h) (VideoModifier a))
    (or_string (h_ReleaseGroup h) (ReleaseGroup a)) (ReleaseAttributes_ a).
Definition ApplyHint (s : store) (h : TorrentHint) (r : Result) : Result :=
  set_attributes r (Attributes_ApplyHint s h (set_type (Attributes r) (Hint_NullContentType h))).

(** The language of the content goes into the map of the result, which is
    written in place when it is there. *)
Definition AttachContent (s : store) (c : Content) (r : Result) : store * Result :=
  let a := set_type (Attributes r) (NewNullContentType (c_Type c)) in
  match c_OriginalLanguage c with
  | Some lang =>
      if nil_or_empty s (Languages a) || LanguageMulti a then
        let '(l, s) := add_entries s (Languages a) {[lang]} in
        (s, mkResult (set_languages a (Some l)) (Some c) (Tags r))
      else (s, mkResult a (Some c) (Tags r))
  | None => (s, mkResult a (Some c) (Tags r))
  end.

(** ** What conditions see, [protobuf.NewClassification] *)

Record Classification := mkClassification {
  pb_ContentType : string; pb_HasAttachedContent : bool; pb_HasBaseTitle : bool; pb_BaseTitle : option runes;
  pb_Languages : gset string; pb_Episodes : list runes; pb_VideoResolution : option string; pb_VideoSource : option string;
  pb_VideoCodec : option string; pb_ReleaseGroup : option runes; pb_ContentId : option runes; pb_ContentSource : option runes }.

Definition valid_enum (e : NullEnum) : option string := if Valid e then Some (Val e) else None.
Definition valid_string (s : NullString) : option runes := if TValid s then Some (Text s) else None.
Definition NewClassification (s : store) (r : Result) : Classification :=
  let a := Attributes r in
  mkClassification (NewContentType (ContentType a)) (bool_decide (is_Some (Content_ r))) (TValid (BaseTitle a))
    (valid_string (BaseTitle a)) (entries s (Languages a)) (Episodes.Season_String <$> Episodes.SeasonEntries (Episodes_ a))
    (valid_enum (VideoResolution a)) (valid_enum (VideoSource a)) (valid_enum (VideoCodec a)) (valid_string (ReleaseGroup a))
    (c_ID <$> Content_ r) (c_Source <$> Content_ r).

(** ** Torrents and services *)

Record TorrentContent := mkTorrentContent {
  tc_ContentType : NullEnum; tc_ContentSource : NullString; tc_ContentID : NullString; tc_Content : Content }.
Record TorrentFile := mkTorrentFile { f_Index : Z; f_Path : bytes; f_Extension : NullString; f_Size : Z }.
Record Torrent := mkTorrent {
  t_InfoHash : Protocol.ID; t_Name : bytes; t_Size : Z; t_Extension : NullString; t_Files : list TorrentFile;
  t_Hint : TorrentHint; t_Contents : list TorrentContent }.

(** An entry of the anime titles, [animedb.Alias]. *)
Record Alias := mkAlias { al_Display : runes; al_TMDBType : string; al_TMDBID : Z; al_DirectAttach : bool; al_Adult : bool }.

Abbreviation answer W A := (W → W * (error + A)).

(** What the actions call.  A call reads and changes the world [W] behind it;
    [ctx_Err] is [context.Context.Err].  The message that conditions get for
    the torrent is a function of the torrent. *)
Class Services (W : Type) `{Cel} := {
  ContextEval : program → Torrent → option Classification → gmap string celValue → error + option bool;
  ContentByID : ContentRef → answer W Content;
  ContentBySearch : string → runes → Z → answer W Content;
  ContentCandidatesBySearch : string → runes → Z → nat → answer W (list Content);
  tmdbGetTMDBIDByExternalID : ContentRef → answer W Z;
  tmdbGetMovieByTMDBID : Z → answer W Content;
  tmdbGetTVShowByTMDBID : Z → answer W Content;
  tmdbSearchMovie : runes → Z → answer W Content;
  tmdbSearchTVShow : runes → Z → answer W Content;
  ParseVideoContentWithOptions : Torrent → Result → bool → error + ContentAttributes (gset string);
  NormalizeTitleForMatch : runes → runes;
  ctx_Err : W → option error }.

(** ** The state of a run *)

Record state {W : Type} := mkState {
  heap : store;
  world : W;
  typeApplied : NullEnum;
  enriched : bool;
  stages : list string;
  attempted : bool;
  failed : bool }.
Arguments state : clear implicits.

Section state.
Context {W : Type}.
Implicit Types s : state W.

Definition set_heap s (h : store) : state W := mkState W h (world s) (typeApplied s) (enriched s) (stages s) (attempted s) (failed s).
Definition set_world s (w : W) : state W := mkState W (heap s) w (typeApplied s) (enriched s) (stages s) (attempted s) (failed s).
Definition set_applied s (ct : NullEnum) : state W := mkState W (heap s) (world s) ct (enriched s) (stages s) (attempted s) (failed s).
Definition set_enriched s : state W := mkState W (heap s) (world s) (typeApplied s) true (stages s) (attempted s) (failed s).
(** [evaltrace.Record] and [processingstate.Search]. *)
Definition Record_ (stage : string) s : state W :=
  mkState W (heap s) (world s) (typeApplied s) (enriched s) (stages s ++ [stage]) (attempted s) (failed s).
Definition Search_ (technicalFailure : bool) s : state W :=
  mkState W (heap s) (world s) (typeApplied s) (enriched s) (stages s) true (failed s || technicalFailure).

(** A call of a service. *)
Definition ask {A} (m : answer W A) s : state W * (error + A) := let '(w, r) := m (world s) in (set_world s w, r).
Definition attach s (c : Content) (r : Result) : state W * Result :=
  let '(h, r) := AttachContent (heap s) c r in (set_heap s h, r).

End state.

(** An action returns a result and perhaps an error; it can also fail by
    calling a nil function, or not end. *)
Inductive exec (A : Type) := Done (a : A) | Panicked | Unfinished.
Arguments Done {_} _. Arguments Panicked {_}. Arguments Unfinished {_}.

Abbreviation outcome := (Result * option error)%type.

(** The dependencies of the compiler that actions read, and the callback that
    [WithTypeFallback] leaves in the context. *)
Record dependencies {W : Type} := mkDependencies {
  animeResolver : option (runes → bytes → option Alias);
  altTitleMatch : bool;
  singleEpisodeMaxBytes : Z;
  parseNoiseV2 : bool;
  typeFallback : option (Result → state W → state W * outcome) }.
Arguments dependencies : clear implicits.

Section run.
Context `{HU : Unicode} `{HT : UnicodeTables} {W : Type} `{HC : Cel} `{HS : !Services W} (deps : dependencies W).

Record executionContext := mkExecution {
  flags : gmap string celValue;
  workflows_ : gmap string action;
  torrent : Torrent;
  result : Result;
  resultPb : option Classification }.

Definition withResult (x : executionContext) (s : state W) (r : Result) : executionContext :=
  mkExecution (flags x) (workflows_ x) (torrent x) r (Some (NewClassification (heap s) r)).

(** ** Conditions *)

Fixpoint check (c : condition) (x : executionContext) : error + bool :=
  match c with
  | CAnd conds =>
      (fix all conds := match conds with
        | [] => inr true
        | c :: conds => match check c x with inl e => inl e | inr false => inr false | inr true => all conds end
        end) conds
  | COr conds =>
      (fix any conds := match conds with
        | [] => inr false
        | c :: conds => match check c x with inl e => inl e | inr true => inr true | inr false => any conds end
        end) conds
  | CNot cond => match check cond x with inl e => inl e | inr b => inr (negb b) end
  | CExpression prg =>
      match ContextEval prg (torrent x) (resultPb x) (flags x) with
      | inl e => inl e
      | inr None => inl (OtherError 0)
      | inr (Some b) => inr b
      end
  end.

(** ** Actions without parts *)

Abbreviation step := (executionContext → state W → state W * outcome).

Definition run_addTag (tags : list string) : step := λ x s,
  let cl := result x in
  let '(l, h) := add_entries (heap s) (Tags cl) (list_to_set tags) in
  (set_heap s h, (mkResult (Attributes cl) (Content_ cl) (Some l), None)).

Definition run_attachLocalContentByID : step := λ x s,
  let cl := result x in
  let h := t_Hint (torrent x) in
  if Hint_IsNil h || negb (TValid (h_ContentSource h)) then (s, (cl, Some ErrUnmatched))
  else match ask (ContentByID (mkRef (h_ContentType h) (Text (h_ContentSource h)) (Text (h_ContentID h)))) s with
       | (s, inl err) => (s, (cl, Some err))
       | (s, inr content) => let '(s, cl) := attach s content cl in (s, (cl, None))
       end.

(** The outcome of a search, as [processingstate] records it. *)
Definition searched {A} (r : state W * (error + A)) : state W * (error + A) :=
  let '(s, e) := r in
  (Search_ (match e with inl err => negb (Is err ErrUnmatched) | inr _ => false end) s, e).

Definition run_attachLocalContentBySearch : step := λ x s,
  let cl := result x in
  let a := Attributes cl in
  if negb (Valid (ContentType a)) || negb (TValid (BaseTitle a)) then (s, (cl, Some ErrUnmatched))
  else match searched (ask (ContentBySearch (Val (ContentType a)) (Text (BaseTitle a)) (Dates.Year (Date_ a))) s) with
       | (s, inl err) => (s, (cl, Some err))
       | (s, inr content) => let '(s, cl) := attach s content cl in (s, (cl, None))
       end.

(** [strconv.Atoi]: a sign and decimal digits that fit [int]. *)
Definition Atoi (t : runes) : option Z :=
  let '(neg, ds) := match t with 45%Z :: l => (true, l) | 43%Z :: l => (false, l) | l => (false, l) end in
  if negb (bool_decide (ds = [])) && forallb IsInt ds then
    let v := (if neg then - digits_value ds else digits_value ds)%Z in
    if (- 2 ^ 63 <=? v)%Z && (v <? 2 ^ 63)%Z then Some v else None
  else None.

Definition SourceTmdb : runes := runes_of "tmdb".

Definition run_attachTMDBContentByID : step := λ x s,
  let cl := result x in
  match Hint_ContentRef (t_Hint (torrent x)) with
  | None => (s, (cl, Some ErrUnmatched))
  | Some ref =>
      let ref := if Valid (ContentType (Attributes cl)) then mkRef (Val (ContentType (Attributes cl))) (r_Source ref) (r_ID ref) else ref in
      let '(s, tmdbID) :=
        if bool_decide (r_Source ref = SourceTmdb)
        then (s, match Atoi (r_ID ref) with Some id => inr id | None => inl ErrUnmatched end)
        else ask (tmdbGetTMDBIDByExternalID ref) s in
      match tmdbID with
      | inl err => (s, (cl, Some err))
      | inr id =>
          let '(s, content) :=
            if bool_decide (r_Type ref ∈ ["movie"; "xxx"]) then ask (tmdbGetMovieByTMDBID id) s
            else if bool_decide (r_Type ref = "tv_show") then ask (tmdbGetTVShowByTMDBID id) s
            else (s, inl ErrUnmatched) in
          match content with
          | inl err => (s, (cl, Some err))
          | inr content => let '(s, cl) := attach s content cl in (s, (cl, None))
          end
      end
  end.

(** The search of [attach_tmdb_content_by_search] once the query is chosen. *)
Definition tmdb_search (query : runes) : step := λ x s,
  let cl := result x in
  let a := Attributes cl in
  if bool_decide (Val (ContentType a) = "tv_show") then
    match searched (ask (tmdbSearchTVShow query (Dates.Year (Date_ a))) s) with
    | (s, inl err) => (s, (cl, Some err))
    | (s, inr content) => let '(s, cl) := attach s content cl in (s, (cl, None))
    end
  else if negb (bool_decide (Episodes_ a = ∅)) then (s, (cl, Some ErrUnmatched))
  else match searched (ask (tmdbSearchMovie query (Dates.Year (Date_ a))) s) with
       | (s, inl err) => (s, (cl, Some err))
       | (s, inr content) => let '(s, cl) := attach s content cl in (s, (cl, None))
       end.

Definition run_attachTmdbContentBySearch : step := λ x s,
  let cl := result x in
  let a := Attributes cl in
  if negb (TValid (BaseTitle a)) then (s, (cl, Some ErrUnmatched))
  else match animeResolver deps ≫= λ lookup, lookup (Text (BaseTitle a)) (t_Name (torrent x)) with
       | None => tmdb_search (Text (BaseTitle a)) x s
       | Some alias =>
           if al_Adult alias then (s, (cl, Some ErrUnmatched))
           else
             let query := if bool_decide (al_Display alias = []) then Text (BaseTitle a) else al_Display alias in
             if al_DirectAttach alias && (0 <? al_TMDBID alias)%Z then
               match ask (if bool_decide (al_TMDBType alias = "tv_show") then tmdbGetTVShowByTMDBID (al_TMDBID alias)
                          else tmdbGetMovieByTMDBID (al_TMDBID alias)) s with
               | (s, inr c) => let '(s, cl) := attach s c cl in (s, (cl, None))
               | (s, inl _) => tmdb_search query x s
               end
             else tmdb_search query x s
       end.

Definition run_parseDate : executionContext → state W → exec (state W * outcome) := λ x s,
  match Dates.ParseDate (Metainfo.range_runes (t_Name (torrent x))) with
  | Ok parsed =>
      if Dates.IsNil parsed then Done (s, (result x, Some ErrUnmatched))
      else Done (s, (set_attributes (result x) (set_date (Attributes (result x)) parsed), None))
  | _ => Panicked
  end.

(** ** Parsing the name *)

Definition isSeasonOnlyPack (episodes : Episodes.Episodes) : bool :=
  negb (bool_decide (episodes = ∅)) && bool_decide (map_Forall (λ _ epMap, epMap = ∅) episodes).

(** The season-pack backstop. *)
Definition size_backstop (maxBytes size : Z) (a : ContentAttributes positive) : ContentAttributes positive :=
  if (0 <? maxBytes)%Z && isSeasonOnlyPack (Episodes_ a) && (0 <? int64 size)%Z && (int64 size <=? maxBytes)%Z
  then set_episodes a ∅ else a.

(** The attributes of a parse, whose map of languages has just been made. *)
Definition merge_parsed (s : state W) (parsed : ContentAttributes (gset string)) (a : ContentAttributes positive)
    : state W * ContentAttributes positive :=
  match Languages parsed with
  | None => (s, Merge (nil_or_empty (heap s)) a (set_languages parsed None))
  | Some X =>
      let '(l, h) := make_map (heap s) X in
      (set_heap s h, Merge (nil_or_empty h) a (set_languages parsed (Some l)))
  end.

Definition run_parseVideoContent : step := λ x s,
  let cl := result x in
  match ParseVideoContentWithOptions (torrent x) cl (parseNoiseV2 deps) with
  | inl err => (s, (cl, Some err))
  | inr parsed =>
      let '(s, a) := merge_parsed s parsed (Attributes cl) in
      (s, (set_attributes cl (size_backstop (singleEpisodeMaxBytes deps) (t_Size (torrent x)) a), None))
  end.

(** ** The predicted type and its local enrichment *)

Definition movie_or_tv (ct : string) : bool := bool_decide (ct ∈ ["movie"; "tv_show"]).

Definition RunTypeFallback (r : Result) (s : state W) : state W * outcome :=
  if Valid (ContentType (Attributes r)) || bool_decide (is_Some (Content_ r)) then (s, (r, None))
  else match typeFallback deps with None => (s, (r, None)) | Some fallback => fallback r s end.

Definition run_typeFallback : step := λ x s,
  let '(s, (r, err)) := RunTypeFallback (result x) s in
  let ct := ContentType (Attributes r) in
  if bool_decide (err = None) && negb (Valid (ContentType (Attributes (result x)))) && bool_decide (Content_ (result x) = None)
     && bool_decide (Content_ r = None) && Valid ct && movie_or_tv (Val ct)
  then (set_applied s ct, (r, err)) else (s, (r, err)).

(** The titles of [identity.go]. *)
Definition AltTitleAttributePrefix : runes := runes_of "alt_title:".
Definition altTitlesOf (c : Content) : list runes :=
  ((filter (λ kv, take (length AltTitleAttributePrefix) kv.1 = AltTitleAttributePrefix) (c_Attributes c)).*2)
  ++ (if TValid (c_OriginalTitle c) then [Text (c_OriginalTitle c)] else []).

Definition apostrophe (r : Z) : bool := bool_decide (r ∈ [39; 8217; 700; 96]%Z).
(** [unicode.IsNumber]: category N. *)
Definition IsNumber (r : Z) : bool := table_has "N" r.
Definition title_rune (r : Z) : bool := IsLetter r || IsNumber r.
Fixpoint fields_loop (l : runes) (cur : runes) : list runes :=
  match l with
  | [] => match cur with [] => [] | _ => [cur] end
  | r :: l => if title_rune r then fields_loop l (cur ++ [r]) else match cur with [] => fields_loop l [] | _ => cur :: fields_loop l [] end
  end.
Definition normalizeIdentityTitle (title : runes) : runes :=
  Fts.join [32%Z] (fields_loop (filter (λ r, apostrophe r = false) (NormalizeTitleForMatch title)) []).

Definition exactContentTitle (title : runes) (c : Content) (aliases : bool) : bool :=
  let n := normalizeIdentityTitle title in
  if bool_decide (n = []) then false
  else bool_decide (n = normalizeIdentityTitle (c_Title c))
       || TValid (c_OriginalTitle c) && bool_decide (n = normalizeIdentityTitle (Text (c_OriginalTitle c)))
       || aliases && existsb (λ a, bool_decide (n = normalizeIdentityTitle a)) (altTitlesOf c).

(** The candidates that agree with the result in type, title and year. *)
Definition local_match (a : ContentAttributes positive) (altTitles : bool) (c : Content) : bool :=
  bool_decide (c_Type c = Val (ContentType a)) && negb (bool_decide (c_Source c = [])) && negb (bool_decide (c_ID c = []))
  && exactContentTitle (Text (BaseTitle a)) c altTitles
  && negb (bool_decide (c_Type c = "movie")
           && ((c_ReleaseYear c =? 0)%Z || (1 <? Z.abs (Dates.Year (Date_ a) - c_ReleaseYear c))%Z)).
Fixpoint unique_loop (a : ContentAttributes positive) (altTitles : bool) (candidates : list Content) (selected : option Content)
    : option Content :=
  match candidates with
  | [] => selected
  | c :: candidates =>
      if negb (local_match a altTitles c) then unique_loop a altTitles candidates selected
      else match selected with
           | Some d => if bool_decide (Ref d ≠ Ref c) then None else unique_loop a altTitles candidates (Some c)
           | None => unique_loop a altTitles candidates (Some c)
           end
  end.
Definition uniqueTypeLocalContent (a : ContentAttributes positive) (candidates : list Content) (altTitles : bool) : option Content :=
  if negb (Valid (ContentType a)) || negb (TValid (BaseTitle a)) || negb (movie_or_tv (Val (ContentType a)))
     || bool_decide (Val (ContentType a) = "movie") && (Dates.Year (Date_ a) =? 0)%Z
  then None
  else unique_loop a altTitles candidates None.

Definition typeLocalCandidateLimit : nat := 12.
Definition typeLocalEnrichedTagName : string := "type-local-enriched".

Record LocalTypeEnrichmentOptions := mkEnrichment {
  ParseNoiseV2 : bool; SingleEpisodeMaxBytes : Z; LocalSearchEnabled : bool; AltTitleMatch : bool }.

(** Looking the parsed title up; [ok] is whether there is a local search. *)
Definition enrich_search (a : ContentAttributes positive) (cl : Result) (opts : LocalTypeEnrichmentOptions) (s : state W)
    : state W * outcome :=
  let cl := set_attributes cl a in
  if negb (TValid (BaseTitle a)) || negb (LocalSearchEnabled opts) then (s, (cl, None))
  else if bool_decide (Val (ContentType a) = "movie") && (Dates.Year (Date_ a) =? 0)%Z then (s, (cl, None))
  else match ask (ContentCandidatesBySearch (Val (ContentType a)) (Text (BaseTitle a)) (Dates.Year (Date_ a)) typeLocalCandidateLimit) s with
       | (s, inl _) => (s, (cl, None))
       | (s, inr candidates) =>
           if (typeLocalCandidateLimit <=? length candidates)%nat then (s, (cl, None))
           else match uniqueTypeLocalContent a candidates (AltTitleMatch opts) with
                | None => (s, (cl, None))
                | Some content =>
                    let '(s, cl) := attach s content cl in
                    let '(l, h) := add_entries (heap s) (Tags cl) {[typeLocalEnrichedTagName]} in
                    (set_heap s h, (mkResult (Attributes cl) (Content_ cl) (Some l), None))
                end
       end.

Definition EnrichTypeLocally (t : Torrent) (cl : Result) (opts : LocalTypeEnrichmentOptions) (s : state W) : state W * outcome :=
  let a := Attributes cl in
  if bool_decide (is_Some (Content_ cl)) || negb (Valid (ContentType a)) || negb (movie_or_tv (Val (ContentType a))) then (s, (cl, None))
  else match ctx_Err (world s) with
       | Some err => (s, (cl, Some err))
       | None =>
           let '(s, a) :=
             match ParseVideoContentWithOptions t cl (ParseNoiseV2 opts) with
             | inl _ => (s, a)
             | inr attrs => let '(s, a) := merge_parsed s attrs a in (s, size_backstop (SingleEpisodeMaxBytes opts) (t_Size t) a)
             end in
           enrich_search a cl opts s
       end.

Definition run_enrichTypeFallback : step := λ x s,
  let cl := result x in
  if enriched s || negb (Valid (typeApplied s)) || negb (bool_decide (ContentType (Attributes cl) = typeApplied s))
     || bool_decide (is_Some (Content_ cl))
  then (s, (cl, None))
  else EnrichTypeLocally (torrent x) cl
         (mkEnrichment (parseNoiseV2 deps) (singleEpisodeMaxBytes deps)
            (match flags x !! "local_search_enabled" with Some (CelBool true) => true | _ => false end) (altTitleMatch deps))
         (set_enriched s).

(** ** Running an action *)

Definition set_content_type (ct : NullEnum) : step := λ x s,
  (s, (set_attributes (result x) (set_type (Attributes (result x)) ct), None)).

Fixpoint run (fuel : nat) : action → executionContext → state W → exec (state W * outcome) :=
  fix run_action (a : action) (x : executionContext) (s : state W) {struct a} : exec (state W * outcome) :=
    match a with
    | ASequence actions =>
        (fix sequence actions x s := match actions with
          | [] => Done (s, (result x, None))
          | a :: actions =>
              match run_action a x s with
              | Done (s, (r, None)) => sequence actions (withResult x s r) s
              | Done (s, (_, Some err)) => Done (s, (no_result, Some err))
              | Panicked => Panicked
              | Unfinished => Unfinished
              end
          end) actions x s
    | AFindMatch path actions =>
        (fix alternatives actions s := match actions with
          | [] => Done (s, (result x, None))
          | a :: actions =>
              match run_action a x s with
              | Done (s, (r, None)) => Done (Record_ (action_name a) s, (r, None))
              | Done (s, (_, Some err)) =>
                  if Is err ErrUnmatched then alternatives actions s
                  else Done (s, (no_result, Some (RuntimeError path err no_type)))
              | Panicked => Panicked
              | Unfinished => Unfinished
              end
          end) actions s
    | AIfElse cond ifAction elseAction =>
        match check cond x with
        | inl err => Done (s, (no_result, Some err))
        | inr true => match ifAction with Some a => run_action a x s | None => Done (s, (result x, None)) end
        | inr false => match elseAction with Some a => run_action a x s | None => Done (s, (result x, None)) end
        end
    | ARunWorkflow names =>
        (fix each names cl s := match names with
          | [] => Done (s, (cl, None))
          | name :: names =>
              match workflows_ x !! name with
              | None => Panicked
              | Some w =>
                  match fuel with
                  | O => Unfinished
                  | S fuel =>
                      match run fuel w (withResult x s cl) s with
                      | Done (s, (cl, None)) => each names cl s
                      | r => r
                      end
                  end
              end
          end) names (result x) s
    | ADelete path => Done (s, (result x, Some (RuntimeError path ErrDeleteTorrent (ContentType (Attributes (result x))))))
    | AUnmatched path => Done (s, (result x, Some (RuntimeError path ErrUnmatched no_type)))
    | AAddTag tags => Done (run_addTag tags x s)
    | AAttachLocalContentByID => Done (run_attachLocalContentByID x s)
    | AAttachLocalContentBySearch => Done (run_attachLocalContentBySearch x s)
    | AAttachTMDBContentByID => Done (run_attachTMDBContentByID x s)
    | AAttachTmdbContentBySearch => Done (run_attachTmdbContentBySearch x s)
    | AParseDate => run_parseDate x s
    | AParseVideoContent => Done (run_parseVideoContent x s)
    | ASetContentType ct => Done (set_content_type ct x s)
    | ATypeFallback => Done (run_typeFallback x s)
    | AEnrichTypeFallback => Done (run_enrichTypeFallback x s)
    end.

(** ** The runner, [runner.go] *)

(** The content of the torrent that the hint names. *)
Definition hinted (h : TorrentHint) (tc : TorrentContent) : bool :=
  Valid (tc_ContentType tc) && bool_decide (Val (tc_ContentType tc) = h_ContentType h) && TValid (tc_ContentSource tc)
  && bool_decide (Text (tc_ContentSource tc) = Text (h_ContentSource h))
  && bool_decide (Text (tc_ContentID tc) = Text (h_ContentID h))
  && bool_decide (c_Source (tc_Content tc) = Text (tc_ContentSource tc)).

Definition initial_result (t : Torrent) (s : store) : store * Result :=
  let h := t_Hint t in
  let cl := if Hint_IsNil h then no_result else ApplyHint s h no_result in
  if negb (Hint_IsNil h) && TValid (h_ContentSource h) then
    match head (filter (λ tc, hinted h tc = true) (t_Contents t)) with
    | Some tc => AttachContent s (tc_Content tc) cl
    | None => (s, cl)
    end
  else (s, cl).

Definition run_flag (r : runner) (rt : gmap string value) (p : string * FlagType) : error + (string * option celValue) :=
  match rt !! p.1 with
  | Some raw => match celVal p.2 raw with inl _ => inl (ErrInvalidFlag p.1) | inr v => inr (p.1, Some v) end
  | None => inr (p.1, compiledFlags r !! p.1)
  end.
Fixpoint run_flags (r : runner) (rt : gmap string value) (defs : list (string * FlagType)) (cfs : gmap string celValue)
    : error + gmap string celValue :=
  match defs with
  | [] => inr cfs
  | p :: defs =>
      match run_flag r rt p with
      | inl e => inl e
      | inr (k, Some v) => run_flags r rt defs (<[k := v]> cfs)
      | inr (_, None) => run_flags r rt defs cfs
      end
  end.

(** [Run]: the cell of the predicted type is new for every run, and the first
    action sees no message for the result. *)
Definition Run `{NamePolicy.ScriptTables} (namePolicy : option NamePolicy.Policy) (r : runner) (fuel : nat) (workflow : string)
    (rt : gmap string value) (t : Torrent) (s : state W) : exec (state W * outcome) :=
  if negb (NamePolicy.Eligible (NamePolicy.Evaluate namePolicy (t_InfoHash t) (t_Name t)))
  then Done (s, (no_result, Some ErrExcluded))
  else match workflows r !! workflow with
       | None => Done (s, (no_result, Some (ErrWorkflowNotFound workflow)))
       | Some w =>
           match run_flags r rt (map_to_list (flagDefinitions r)) ∅ with
           | inl err => Done (s, (no_result, Some err))
           | inr cfs =>
               let '(h, cl) := initial_result t (heap s) in
               run fuel w (mkExecution cfs (workflows r) t cl None)
                 (mkState W h (world s) no_type false (stages s) (attempted s) (failed s))
           end
       end.

End run.

(** ** Canonical evidence, [runner_canonical.go] *)

Record CanonicalLabel := mkLabel { MediaType : string; MediaID : runes }.

Definition canonicalToContentType (mt : string) : option string :=
  if bool_decide (mt = "movie") then Some "movie"
  else if bool_decide (mt = "tv") then Some "tv_show"
  else if bool_decide (mt = "music") then Some "music"
  else if bool_decide (mt = "audiobook") then Some "audiobook"
  else if bool_decide (mt = "book") then Some "ebook"
  else None.
Definition canonicalNeedsIdentityEnrichment (ct : string) : bool := movie_or_tv ct.

(** [strings.Cut] at a colon. *)
Fixpoint cut_colon (s : runes) : option (runes * runes) :=
  match s with
  | [] => None
  | r :: s => if (r =? 58)%Z then Some ([], s) else match cut_colon s with Some (a, b) => Some (r :: a, b) | None => None end
  end.

Section canonical.
Context `{HU : Unicode} `{HT : UnicodeTables}.

Definition canonicalContentRef (mediaID : runes) (contentType : string) : option ContentRef :=
  match cut_colon (TrimSpace mediaID) with
  | None => None
  | Some (source, id) =>
      let source := ToLower <$> TrimSpace source in
      let id := TrimSpace id in
      if bool_decide (id = []) then None
      else if bool_decide (source ∈ runes_of <$> ["tmdb"; "tvdb"; "imdb"]) then Some (mkRef contentType source id) else None
  end.

(** The identities of the type among the contents; two that differ are
    ambiguous. *)
Definition compatible (contentType : string) (tc : TorrentContent) : bool :=
  Valid (tc_ContentType tc) && bool_decide (Val (tc_ContentType tc) = contentType)
  && TValid (tc_ContentSource tc) && TValid (tc_ContentID tc)
  && negb (bool_decide (Text (tc_ContentSource tc) = [])) && negb (bool_decide (Text (tc_ContentID tc) = [])).
Fixpoint compatible_loop (contentType : string) (contents : list TorrentContent) (found : option ContentRef) : option ContentRef :=
  match contents with
  | [] => found
  | tc :: contents =>
      if negb (compatible contentType tc) then compatible_loop contentType contents found
      else
        let candidate := mkRef contentType (Text (tc_ContentSource tc)) (Text (tc_ContentID tc)) in
        match found with
        | None => compatible_loop contentType contents (Some candidate)
        | Some f => if bool_decide (f = candidate) then compatible_loop contentType contents (Some f) else None
        end
  end.
Definition compatibleContentRef (t : Torrent) (contentType : string) : option ContentRef :=
  let h := t_Hint t in
  if negb (Hint_IsNil h) && bool_decide (h_ContentType h = contentType) && TValid (h_ContentSource h) && TValid (h_ContentID h)
     && negb (bool_decide (Text (h_ContentSource h) = [])) && negb (bool_decide (Text (h_ContentID h) = []))
  then Some (mkRef contentType (Text (h_ContentSource h)) (Text (h_ContentID h)))
  else compatible_loop contentType (t_Contents t) None.

Definition set_identity (h : TorrentHint) (contentType : string) (source id : NullString) : TorrentHint :=
  mkHint contentType source id (h_Languages h) (h_Episodes h) (h_VideoResolution h) (h_VideoSource h) (h_VideoCodec h)
    (h_Video3D h) (h_VideoModifier h) (h_ReleaseGroup h).
Definition set_hint (t : Torrent) (h : TorrentHint) : Torrent :=
  mkTorrent (t_InfoHash t) (t_Name t) (t_Size t) (t_Extension t) (t_Files t) h (t_Contents t).

Definition applyCanonicalHint (t : Torrent) (label : CanonicalLabel) (contentType : string) : Torrent :=
  match canonicalContentRef (MediaID label) contentType with
  | Some ref => set_hint t (set_identity (t_Hint t) contentType (NewNullString (r_Source ref)) (NewNullString (r_ID ref)))
  | None =>
      match compatibleContentRef t contentType with
      | None => set_hint t (set_identity (t_Hint t) contentType no_string no_string)
      | Some ref => set_hint t (set_identity (t_Hint t) contentType (NewNullString (r_Source ref)) (NewNullString (r_ID ref)))
      end
  end.

(** What the decorator does with a torrent: refuse it, answer for the inner
    runner, or call it; with the stage it records. *)
Inductive decision := Refuse | Answer (stage : string) (r : Result) | Delegate (stage : option string) (t : Torrent).

Definition withTitleEvidence (titles : option (Torrent → option CanonicalLabel)) (t : Torrent) : decision :=
  match titles ≫= λ preferred, preferred t with
  | None => Delegate None t
  | Some label =>
      match canonicalToContentType (MediaType label) with
      | None => Delegate None t
      | Some contentType => Delegate (Some "evidence_title") (applyCanonicalHint t label contentType)
      end
  end.

Definition buildCanonicalResult (contentType : string) : Result :=
  set_attributes no_result (set_type (Attributes no_result) (NewNullContentType contentType)).

(** [lookup] is the answer of the store for the info hash. *)
Definition canonicalRunner_Run `{NamePolicy.ScriptTables} (namePolicy : option NamePolicy.Policy) (skipPreempt : bool)
    (lookup : error + option CanonicalLabel) (titles : option (Torrent → option CanonicalLabel)) (t : Torrent) : decision :=
  if negb (NamePolicy.Eligible (NamePolicy.Evaluate namePolicy (t_InfoHash t) (t_Name t))) then Refuse
  else if skipPreempt then withTitleEvidence titles t
  else match lookup with
       | inr (Some label) =>
           match canonicalToContentType (MediaType label) with
           | Some contentType =>
               if canonicalNeedsIdentityEnrichment contentType
               then Delegate (Some "canonical_constrain") (applyCanonicalHint t label contentType)
               else Answer "canonical_preempt" (buildCanonicalResult contentType)
           | None => withTitleEvidence titles t
           end
       | _ => withTitleEvidence titles t
       end.

End canonical.

(** ** Induction on actions *)

Section induction.
Context `{Cel} (P : action → Prop).
Hypothesis HSequence : ∀ l, Forall P l → P (ASequence l).
Hypothesis HFindMatch : ∀ p l, Forall P l → P (AFindMatch p l).
Hypothesis HIfElse : ∀ c i e, (∀ a, i = Some a → P a) → (∀ a, e = Some a → P a) → P (AIfElse c i e).
Hypothesis HOther : ∀ a, match a with ASequence _ | AFindMatch _ _ | AIfElse _ _ _ => False | _ => True end → P a.

Fixpoint action_induction (a : action) : P a :=
  let all := fix all (l : list action) : Forall P l :=
    match l with [] => Forall_nil_2 P | a :: l => Forall_cons_2 P a l (action_induction a) (all l) end in
  match a with
  | ASequence l => HSequence l (all l)
  | AFindMatch p l => HFindMatch p l (all l)
  | AIfElse c i e =>
      HIfElse c i e
        (match i with Some b => λ a E, eq_ind b P (action_induction b) a (Some_inj _ _ E) | None => λ a E, False_ind _ (None_ne_Some _ E) end)
        (match e with Some b => λ a E, eq_ind b P (action_induction b) a (Some_inj _ _ E) | None => λ a E, False_ind _ (None_ne_Some _ E) end)
  | a => HOther a I
  end.
End induction.

(** The workflows an action can run. *)
Fixpoint calls `{Cel} (a : action) : list string :=
  match a with
  | ASequence l => concat (calls <$> l)
  | AFindMatch _ l => concat (calls <$> l)
  | AIfElse _ i e => match i with Some a => calls a | None => [] end ++ match e with Some a => calls a | None => [] end
  | ARunWorkflow names => names
  | _ => []
  end.

Section runs.
Context `{HU : Unicode} `{HT : UnicodeTables} {W : Type} `{HC : Cel} `{HS : !Services W} (deps : dependencies W).
Implicit Types (s : state W) (x : executionContext) (a : action).
Abbreviation runs := (action → executionContext → state W → exec (state W * outcome)).

(** ** The loops of [run] by name *)

Definition sequence_loop (run_action : runs) : list action → executionContext → state W → exec (state W * outcome) :=
  fix sequence actions x s := match actions with
    | [] => Done (s, (result x, None))
    | a :: actions =>
        match run_action a x s with
        | Done (s, (r, None)) => sequence actions (withResult x s r) s
        | Done (s, (_, Some err)) => Done (s, (no_result, Some err))
        | Panicked => Panicked
        | Unfinished => Unfinished
        end
    end.
Definition match_loop (run_action : runs) (path : list string) (x : executionContext) : list action → state W → exec (state W * outcome) :=
  fix alternatives actions s := match actions with
    | [] => Done (s, (result x, None))
    | a :: actions =>
        match run_action a x s with
        | Done (s, (r, None)) => Done (Record_ (action_name a) s, (r, None))
        | Done (s, (_, Some err)) =>
            if Is err ErrUnmatched then alternatives actions s
            else Done (s, (no_result, Some (RuntimeError path err no_type)))
        | Panicked => Panicked
        | Unfinished => Unfinished
        end
    end.
Definition workflow_loop (run_action : option runs) (x : executionContext)
    : list string → Result → state W → exec (state W * outcome) :=
  fix each names cl s := match names with
    | [] => Done (s, (cl, None))
    | name :: names =>
        match workflows_ x !! name with
        | None => Panicked
        | Some w =>
            match run_action with
            | None => Unfinished
            | Some run_action =>
                match run_action w (withResult x s cl) s with
                | Done (s, (cl, None)) => each names cl s
                | r => r
                end
            end
        end
    end.
Definition below (fuel : nat) : option runs := match fuel with O => None | S fuel => Some (run deps fuel) end.

Lemma run_sequence fuel l x s : run deps fuel (ASequence l) x s = sequence_loop (run deps fuel) l x s.
Proof. by destruct fuel. Qed.
Lemma run_match fuel p l x s : run deps fuel (AFindMatch p l) x s = match_loop (run deps fuel) p x l s.
Proof. by destruct fuel. Qed.
Lemma run_workflow fuel ns x s : run deps fuel (ARunWorkflow ns) x s = workflow_loop (below fuel) x ns (result x) s.
Proof.
  destruct fuel; cbn; generalize (result x) as cl; revert s; induction ns as [|n ns IH]; intros s cl; try done; cbn;
    by destruct (workflows_ x !! n).
Qed.
Lemma run_ifElse fuel c i e x s :
  run deps fuel (AIfElse c i e) x s =
  match check c x with
  | inl err => Done (s, (no_result, Some err))
  | inr b => match (if b then i else e) with Some a => run deps fuel a x s | None => Done (s, (result x, None)) end
  end.
Proof. destruct fuel; cbn; by destruct (check c x) as [|[]]. Qed.

(** ** Every run ends *)

Lemma parseDate_ends x s : ∃ r, run_parseDate x s = Done r.
Proof. unfold run_parseDate. destruct (Dates.ParseDate_sound (Metainfo.range_runes (t_Name (torrent x)))) as (d & -> & _). case_match; eauto. Qed.

(** Nothing but [run_workflow] can fail to end, and nothing else calls. *)
Lemma run_ends ws (rank : string → nat) fuel a x s :
  workflows_ x = ws →
  (∀ n w, ws !! n = Some w → Forall (λ m, (rank m < rank n)%nat ∧ is_Some (ws !! m)) (calls w)) →
  Forall (λ m, (rank m < fuel)%nat ∧ is_Some (ws !! m)) (calls a) →
  ∃ r, run deps fuel a x s = Done r.
Proof.
  intros Hx Hrank. revert a x s Hx. induction fuel as [fuel IHf] using lt_wf_ind.
  induction a as [l IH|p l IH|c i e IHi IHe|a Ha] using action_induction; intros x s Hx Hc.
  - rewrite run_sequence. cbn [calls] in Hc. revert x s Hx. induction IH as [|a l IHa _ IHl]; intros x s Hx; cbn; [by eexists|].
    cbn in Hc. apply Forall_app in Hc as [Hca Hcl]. destruct (IHa x s Hx Hca) as [[s' [r [e|]]] ->]; [by eexists|]. by apply IHl.
  - rewrite run_match. cbn [calls] in Hc. revert s. induction IH as [|a l IHa _ IHl]; intros s; cbn; [by eexists|].
    cbn in Hc. apply Forall_app in Hc as [Hca Hcl]. destruct (IHa x s Hx Hca) as [[s' [r [e|]]] ->]; [|by eexists].
    destruct (Is e ErrUnmatched); [by apply IHl|by eexists].
  - rewrite run_ifElse. cbn [calls] in Hc. apply Forall_app in Hc as [Hi He]. destruct (check c x) as [|[]]; [by eexists| |].
    + destruct i as [a|]; [by apply (IHi a)|by eexists].
    + destruct e as [a|]; [by apply (IHe a)|by eexists].
  - destruct a; try done; try (destruct fuel; by eexists); [destruct fuel; apply parseDate_ends|].
    rewrite run_workflow. cbn [calls] in Hc. generalize (result x) as cl. revert s. induction Hc as [|m ms [Hm [w Hw]] _ IHm]; intros s cl; cbn; [by eexists|].
    rewrite Hx, Hw. destruct fuel as [|fuel]; [lia|]. cbn [below].
    destruct (IHf fuel ltac:(lia) w (withResult x s cl) s Hx) as [[s' [r [e|]]] ->]; [|by eexists|by apply IHm].
    eapply Forall_impl; [by apply (Hrank m)|]. intros k [Hk ?]. split; [lia|done].
Qed.

End runs.

(** ** Compiled runners *)

Section compiled.
Context `{HT : UnicodeTables} `{HC : Cel} `{HD : Decoder} `{!DecoderLaws} (env : celEnv) (names : gset string).

Abbreviation known := (λ m : string, m ∈ names).

Lemma known_parts (Q : nat → value → action → Prop) (l : list value) acts :
  (∀ i v a, v ∈ l → Q i v a → Forall known (calls a)) → Forall2 (λ iv a, Q iv.1 iv.2 a) (indexed l) acts →
  Forall known (concat (calls <$> acts)).
Proof.
  intros HQ Ha. assert (∀ iv, iv ∈ indexed l → iv.2 ∈ l) as Hl by (intros iv; apply indexed_elem).
  revert Hl. induction Ha as [|iv b il acts Hb _ IH]; intros Hl; cbn; [done|].
  apply Forall_app. split; [eapply HQ; [apply Hl; by left|exact Hb]|]. apply IH. intros iv' Hiv'. apply Hl. by right.
Qed.

(** What an action runs is among the names it was compiled with. *)
Lemma compiled_calls n :
  (∀ v p a, (size v < n)%nat → single_of env names p v a → Forall known (calls a))
  ∧ ∀ v p a, (size v < n)%nat → act_of env names p v a → Forall known (calls a).
Proof.
  induction n as [|n [IHs IHa]]; [split; intros; lia|].
  assert (∀ q x o, (size x < n)%nat → optional_of env names q x o → Forall known (match o with Some a => calls a | None => [] end)) as Hopt.
  { intros q x o Hx Ho. inversion Ho as [|? ? b ? Hb]; subst; [done|]. by eapply IHa. }
  assert (∀ v p a, (size v < S n)%nat → single_of env names p v a → Forall known (calls a)) as Hsingle.
  { intros v p a Hn Ha.
    destruct Ha as [p s a Hl|p v tags Hi Ht|p v ws Hi Hw|p s Hs|p|p v acts Hv Ha|p v pl cond ia ea Hd Hc Hia Hea]; try done.
    + unfold literal_of in Hl. repeat case_bool_decide; simplify_eq; done.
    + cbn [calls]. rewrite size_key in Hn. eapply (known_parts (λ i v a, act_of env names (p ++ ["find_match"; numericPathPart i]) v a)); [|exact Ha].
      intros i w b Hw%size_items Hb. eapply IHa; [|exact Hb]. lia.
    + cbn [calls]. rewrite size_key in Hn. destruct (ifElse_size v pl Hd) as [Hsi Hse]. apply Forall_app.
      split; eapply Hopt; try done; lia. }
  split; [done|]. intros v p a Hn Ha. destruct Ha as [p l acts Ha|p v a Ha]; [|by eapply Hsingle].
  assert (Forall known (concat (calls <$> acts))) as Hc.
  { eapply (known_parts (λ i v a, single_of env names (p ++ [numericPathPart i]) v a)); [|exact Ha]. intros i w b Hw%size_elem Hb. eapply IHs; [|exact Hb]. lia. }
  unfold sequence. destruct acts as [|b [|b' acts]]; cbn in *; [done| |done]. by rewrite app_nil_r in Hc.
Qed.

End compiled.

(** ** Runners that end *)

Section theorems.
Context `{HU : Unicode} `{HT : UnicodeTables} `{HN : NamePolicy.ScriptTables} `{HC : Cel} `{HD : Decoder} `{!DecoderLaws}.
Context {W : Type} `{HS : !Services W} (deps : dependencies W).
Context (celEnvOption : Source → Workflow.result celEnv) (namePolicy : option NamePolicy.Policy).

Lemma compiled_closed source r n w m :
  Compile celEnvOption source = inr r → workflows r !! n = Some w → m ∈ calls w → is_Some (workflows r !! m).
Proof.
  intros (env & _ & _ & Hw & _)%compile_spec Hn Hm. pose proof (Hw n) as Hwn. rewrite Hn in Hwn. inversion Hwn as [v ? Ha Hv|]; subst.
  destruct (compiled_calls env (workflowNames source) (S (size v))) as [_ Hc].
  assert (m ∈ dom (Workflows source)) as [x Hx]%elem_of_dom.
  { apply (proj1 (Forall_forall (λ m, m ∈ workflowNames source) (calls w))); [|exact Hm]. eapply Hc; [|exact Ha]. lia. }
  specialize (Hw m). rewrite Hx in Hw. inversion Hw; subst; eauto.
Qed.

(** C23: A compiled runner never calls a workflow that does not exist, and it ends, whatever the services answer, unless a workflow runs itself, directly or through others: with the workflows ranked so that each runs only lower ones, the depth of calls never exceeds the rank of the first. *)
Theorem classifier_total source r (rank : string → nat) fuel workflow rt t s :
  Compile celEnvOption source = inr r →
  (∀ n w m, workflows r !! n = Some w → m ∈ calls w → (rank m < rank n)%nat) →
  (rank workflow ≤ fuel)%nat →
  ∃ s' out, Run deps namePolicy r fuel workflow rt t s = Done (s', out).
Proof.
  intros Hr Hrank Hfuel. unfold Run. destruct (negb _); [by eexists _, _|].
  destruct (workflows r !! workflow) as [w|] eqn:Hw; [|by eexists _, _].
  destruct (run_flags _ _ _ _); [by eexists _, _|]. destruct (initial_result t (heap s)) as [h cl].
  assert (∀ n w, workflows r !! n = Some w → Forall (λ m, (rank m < rank n)%nat ∧ is_Some (workflows r !! m)) (calls w)) as Hall.
  { intros n w' Hn. apply Forall_forall. intros m Hm. split; [by eapply Hrank|by eapply compiled_closed]. }
  edestruct (run_ends deps (workflows r) rank fuel w) as [[s' out] Hrun]; [| |..|eexists _, _; exact Hrun]; [done|exact Hall|].
  eapply Forall_impl; [exact (Hall workflow w Hw)|]. cbv beta. intros m [Hm ?]. split; [lia|done].
Qed.

(** ** The policy at the end of a workflow *)

(** A workflow that deletes what satisfies a condition, and the step that runs
    a workflow by name. *)
Definition policy_value (cv : value) : value :=
  VList [VMap [("if_else", VMap [("condition", cv); ("if_action", VString "delete")])]].
Definition run_value (name : string) : value := VMap [("run_workflow", VList [VString name])].

Lemma policy_compiles env names p cv w :
  act_of env names p (policy_value cv) w → ∃ c q, w = AIfElse c (Some (ADelete q)) None ∧ cond_of env cv c.
Proof.
  intros Ha. inversion Ha as [? ? acts Hl|? ? ? Hs]; subst; [|inversion Hs].
  cbn in Hl. apply Forall2_cons_inv_l in Hl as (a & acts' & Hs & ->%Forall2_nil_inv_l & ->). cbn in Hs.
  inversion Hs as [| | | | | |? ? pl cond ia ea Hd Hc Hia Hea]; subst. rewrite decode_ifElse_fields in Hd by set_solver. injection Hd as <-. cbn in *.
  inversion Hea as [|? ? ? Hn]; subst; [|done]. inversion Hia as [|? ? b _ Hb]; subst.
  inversion Hb as [|? ? ? Hd]; subst. inversion Hd as [? ? ? Hl| | | | | |]; subst. injection Hl as <-. by eexists _, _.
Qed.

Lemma run_compiles env names p name a : single_of env names p (run_value name) a → a = ARunWorkflow [name].
Proof.
  intros Hs. inversion Hs as [| |? ? ws Hi Hw| | | |]; subst. cbn in Hi. destruct ws as [|w [|? ?]]; try done. by injection Hi as <-.
Qed.

Lemma last_compiles env names p l v w :
  act_of env names p (VList (l ++ [v])) w → ∃ acts a q, w = sequence (acts ++ [a]) ∧ single_of env names q v a.
Proof.
  intros Ha. inversion Ha as [? ? acts Hl|? ? ? Hs]; subst; [|inversion Hs].
  rewrite length_app, seq_app, zip_with_app in Hl by by rewrite length_seq. cbn in Hl.
  apply Forall2_app_inv_l in Hl as (acts' & last & _ & Hl & ->). apply Forall2_cons_inv_l in Hl as (a & ? & Ha' & ->%Forall2_nil_inv_l & ->).
  by eexists acts', a, _.
Qed.

Lemma sequence_last fuel acts a x s s' r :
  sequence_loop (run deps fuel) (acts ++ [a]) x s = Done (s', (r, None)) →
  ∃ y s1, flags y = flags x ∧ workflows_ y = workflows_ x ∧ torrent y = torrent x ∧ run deps fuel a y s1 = Done (s', (r, None)).
Proof.
  revert x s. induction acts as [|b acts IH]; intros x s; cbn.
  - destruct (run deps fuel a x s) as [[s1 [r1 [e|]]]| |] eqn:E; try done. cbn. intros [= -> ->]. by exists x, s.
  - destruct (run deps fuel b x s) as [[s1 [r1 [e|]]]| |]; try done. intros (y & s2 & Hf & Hw & Ht & Hr)%IH. by exists y, s2.
Qed.

Lemma run_policy fuel x s s' r policy c q :
  workflows_ x !! policy = Some (AIfElse c (Some (ADelete q)) None) → run deps fuel (ARunWorkflow [policy]) x s = Done (s', (r, None)) →
  check c (withResult x s' r) = inr false.
Proof.
  intros Hw. rewrite run_workflow. cbn. rewrite Hw. destruct fuel as [|fuel]; [done|]. cbn [below]. rewrite run_ifElse.
  destruct (check c (withResult x s (result x))) as [e|[]] eqn:E; try done; [by destruct fuel|]. cbn. by intros [= <- <-].
Qed.

(** C8: A workflow that ends by running a deleting policy lets nothing through that the policy excludes: whatever the actions before it did, and whatever the services and the type predictor answered, a torrent that is classified without an error has a result on which the policy's condition is false. *)
Theorem classifier_policy source r name policy cv actions fuel rt t s s' res :
  Compile celEnvOption source = inr r →
  Workflows source !! policy = Some (policy_value cv) →
  Workflows source !! name = Some (VList (actions ++ [run_value policy])) →
  Run deps namePolicy r fuel name rt t s = Done (s', (res, None)) →
  ∃ env c cfs, celEnvOption source = inr env ∧ cond_of env cv c ∧ run_flags r rt (map_to_list (flagDefinitions r)) ∅ = inr cfs
    ∧ check c (mkExecution cfs (workflows r) t res (Some (NewClassification (heap s') res))) = inr false.
Proof.
  intros (env & He & _ & Hw & _)%compile_spec Hp Hn. unfold Run. destruct (negb _); [done|].
  pose proof (Hw policy) as Hwp. rewrite Hp in Hwp. inversion Hwp as [? wp Hap Hv Hwp'|]; subst.
  apply policy_compiles in Hap as (c & q & -> & Hc).
  pose proof (Hw name) as Hwn. rewrite Hn in Hwn. inversion Hwn as [? wn Han Hv' Hwn'|]; subst.
  apply last_compiles in Han as (acts & a & q' & -> & ->%run_compiles).
  destruct (run_flags _ _ _ _) as [|cfs]; [done|]. destruct (initial_result t (heap s)) as [h cl].
  assert (∀ x s1, workflows_ x = workflows r → flags x = cfs → torrent x = t → run deps fuel (ARunWorkflow [policy]) x s1 = Done (s', (res, None)) →
    check c (mkExecution cfs (workflows r) t res (Some (NewClassification (heap s') res))) = inr false) as Hlast.
  { intros x s1 Hx <- <- Hr. pose proof (run_policy fuel x s1 s' res policy c q) as Hrp. rewrite Hx in Hrp. specialize (Hrp (eq_sym Hwp') Hr).
    unfold withResult in Hrp. by rewrite Hx in Hrp. }
  intros Hr. exists env, c, cfs. do 3 (split; [done|]). destruct acts as [|b acts].
  - by eapply Hlast; [..|exact Hr].
  - replace (sequence ((b :: acts) ++ [ARunWorkflow [policy]])) with (ASequence ((b :: acts) ++ [ARunWorkflow [policy]])) in Hr by by destruct acts.
    rewrite run_sequence in Hr. apply sequence_last in Hr as (y & s1 & Hf & Hwy & Ht & Hr). by eapply Hlast; [..|exact Hr].
Qed.

End theorems.

(** ** Maps only grow *)

Section growth.
Context `{HU : Unicode} `{HT : UnicodeTables} {W : Type} `{HC : Cel} `{HS : !Services W} (deps : dependencies W).
Implicit Types (s : state W) (x : executionContext).

Definition grows (h h' : store) : Prop := ∀ l X, h !! l = Some X → ∃ X', h' !! l = Some X' ∧ X ⊆ X'.
#[local] Instance grows_preorder : PreOrder grows.
Proof.
  split; [intros h l X Hl; by exists X|]. intros h1 h2 h3 H12 H23 l X (X2 & H2 & Hs)%H12. destruct (H23 l X2 H2) as (X3 & H3 & Hs').
  exists X3. split; [done|set_solver].
Qed.
Lemma grows_entries h h' o : grows h h' → entries h o ⊆ entries h' o.
Proof.
  intros Hg. destruct o as [l|]; [|done]. unfold entries. cbn. destruct (h !! l) as [X|] eqn:E; [|set_solver].
  destruct (Hg l X E) as (X' & -> & HX). done.
Qed.
Lemma make_map_grows h X : grows h (make_map h X).2.
Proof. intros l Y Hl. cbn. exists Y. split; [|done]. rewrite lookup_insert_ne; [done|]. intros <-. apply (is_fresh (dom h)). by apply elem_of_dom. Qed.
Lemma add_entries_grows h o ks : grows h (add_entries h o ks).2.
Proof.
  destruct o as [l|]; [|apply make_map_grows]. intros m Y Hm. cbn. destruct (decide (m = l)) as [-> | Hne].
  - rewrite lookup_insert_eq. eexists. split; [done|]. unfold entries. cbn. rewrite Hm. set_solver.
  - rewrite lookup_insert_ne by done. by exists Y.
Qed.
Lemma AttachContent_grows h c r : grows h (AttachContent h c r).1.
Proof.
  unfold AttachContent. case_match; [|done]. case_match; [|done].
  pose proof (add_entries_grows h (Languages (set_type (Attributes r) (NewNullContentType (c_Type c)))) {[s]}) as Hg.
  by destruct (add_entries h _ _).
Qed.
Lemma AttachContent_tags h c r : Tags (AttachContent h c r).2 = Tags r.
Proof. unfold AttachContent. repeat case_match; done. Qed.

(** A step that only adds to maps, keeps the tags of the result it is given,
    and adds to a map of tags only in the way of [add_entries]. *)
Definition keeps (tags : option positive) (s : state W) (o : state W * outcome) : Prop :=
  grows (heap s) (heap o.1) ∧ (o.2.2 = None → ∀ l, tags = Some l → Tags o.2.1 = Some l).

Hypothesis fallback_keeps : ∀ f, typeFallback deps = Some f → ∀ r s, keeps (Tags r) s (f r s).

Lemma keeps_same tags s r err : Tags r = tags → keeps tags s (s, (r, err)).
Proof. intros Ht. split; [done|]. cbn. intros _ l Hl. congruence. Qed.
Lemma keeps_ask tags s1 s r err : Tags r = tags → heap s1 = heap s → keeps tags s (s1, (r, err)).
Proof. intros Ht Hh. split; cbn; [by rewrite Hh|]. intros _ l Hl. congruence. Qed.
Lemma keeps_error tags s s1 r e : grows (heap s) (heap s1) → keeps tags s (s1, (r, Some e)).
Proof. by split. Qed.

Lemma attach_keeps tags s s1 c r :
  Tags r = tags → heap s1 = heap s → keeps tags s (let '(s, cl) := attach s1 c r in (s, (cl, None))).
Proof.
  intros Ht Hh. unfold attach. pose proof (AttachContent_grows (heap s1) c r). pose proof (AttachContent_tags (heap s1) c r).
  destruct (AttachContent (heap s1) c r) as [h r']. split; cbn in *; [by rewrite <- Hh|]. intros _ l Hl. congruence.
Qed.

Lemma ask_heap {A} (m : answer W A) s : heap (ask m s).1 = heap s.
Proof. unfold ask. by destruct (m (world s)). Qed.
Lemma searched_heap {A} (p : state W * (error + A)) : heap (searched p).1 = heap p.1.
Proof. unfold searched. by destruct p. Qed.

(** A service answers, and its content is attached. *)
Lemma answer_keeps tags s cl (p : state W * (error + Content)) :
  Tags cl = tags → heap p.1 = heap s →
  keeps tags s (match p with
    | (s, inl err) => (s, (cl, Some err))
    | (s, inr content) => let '(s, cl) := attach s content cl in (s, (cl, None)) end).
Proof.
  intros Ht Hh. destruct p as [s1 [e|c]]; cbn in Hh; [apply keeps_error; by rewrite Hh|]. by apply attach_keeps.
Qed.

Lemma tmdb_search_keeps q x s : keeps (Tags (result x)) s (tmdb_search q x s).
Proof.
  unfold tmdb_search. case_match; [|case_match; [by apply keeps_error|]]; apply answer_keeps; rewrite ?searched_heap, ?ask_heap; done.
Qed.

Lemma addTag_keeps tags x s : keeps (Tags (result x)) s (run_addTag tags x s).
Proof.
  unfold run_addTag. pose proof (add_entries_grows (heap s) (Tags (result x)) (list_to_set tags)).
  destruct (Tags (result x)) as [l|]; cbn in *; split; cbn; try done.
Qed.

Lemma merge_parsed_grows (s : state W) p a : grows (heap s) (heap (merge_parsed s p a).1).
Proof. unfold merge_parsed. case_match; [|done]. apply make_map_grows. Qed.

Lemma parseVideo_keeps x s : keeps (Tags (result x)) s (run_parseVideoContent deps x s).
Proof.
  unfold run_parseVideoContent. case_match; [by apply keeps_same|].
  match goal with |- context [merge_parsed ?s ?p ?a] => pose proof (merge_parsed_grows s p a); destruct (merge_parsed s p a) end.
  split; [done|]. cbn. by intros _ l ->.
Qed.

Lemma typeFallback_keeps x s : keeps (Tags (result x)) s (run_typeFallback deps x s).
Proof.
  unfold run_typeFallback, RunTypeFallback.
  assert (keeps (Tags (result x)) s (if Valid (ContentType (Attributes (result x))) || bool_decide (is_Some (Content_ (result x))) then (s, (result x, None))
    else match typeFallback deps with None => (s, (result x, None)) | Some fallback => fallback (result x) s end)) as Hk.
  { case_match; [by apply keeps_same|]. destruct (typeFallback deps); [by apply (fallback_keeps _ eq_refl)|by apply keeps_same]. }
  match type of Hk with keeps _ _ ?p => destruct p as [s1 [r err]] end. by case_match.
Qed.

Lemma enrich_search_keeps a cl opts s0 s :
  grows (heap s0) (heap s) → keeps (Tags cl) s0 (enrich_search a cl opts s).
Proof.
  intros Hg. assert (∀ s1, grows (heap s0) (heap s1) → keeps (Tags cl) s0 (s1, (set_attributes cl a, None))) as Hsame.
  { intros s1 H1. split; [done|]. cbn. by intros _ l ->. }
  unfold enrich_search. repeat (case_match; [by apply Hsame|]).
  match goal with |- context [ask ?m ?s] => pose proof (ask_heap m s) as Hh; destruct (ask m s) as [s1 [e|cs]]; cbn in Hh end; [apply Hsame; by rewrite Hh|].
  rewrite <- Hh in Hg. case_match; [by apply Hsame|]. case_match; [|by apply Hsame]. unfold attach.
  match goal with |- context [AttachContent ?h ?c ?r] => pose proof (AttachContent_grows h c r) as Ha; pose proof (AttachContent_tags h c r) as Ht;
    destruct (AttachContent h c r) as [h' r'] end. cbn in *.
  pose proof (add_entries_grows h' (Tags r') {[typeLocalEnrichedTagName]}) as He. destruct (add_entries h' (Tags r') _) as [l' h''] eqn:E. cbn in *.
  split; cbn; [by do 2 (etrans; [eassumption|])|]. intros _ l Hl. rewrite Ht, Hl in E. cbn in E. by injection E as <- <-.
Qed.

Lemma EnrichTypeLocally_keeps t cl opts s : keeps (Tags cl) s (EnrichTypeLocally t cl opts s).
Proof.
  unfold EnrichTypeLocally. case_match; [by apply keeps_same|]. case_match; [by apply keeps_same|].
  destruct (ParseVideoContentWithOptions _ _ _); [by apply enrich_search_keeps|].
  match goal with |- context [merge_parsed ?s ?p ?a] => pose proof (merge_parsed_grows s p a); destruct (merge_parsed s p a) end.
  by apply enrich_search_keeps.
Qed.

Lemma enrichTypeFallback_keeps x s : keeps (Tags (result x)) s (run_enrichTypeFallback deps x s).
Proof. unfold run_enrichTypeFallback. case_match; [by apply keeps_same|]. apply (EnrichTypeLocally_keeps _ _ _ (set_enriched s)). Qed.

Lemma attachTMDBByID_keeps x s : keeps (Tags (result x)) s (run_attachTMDBContentByID x s).
Proof.
  unfold run_attachTMDBContentByID. case_match; [|by apply keeps_same]. cbv zeta.
  match goal with |- context [let '(s, i) := ?p in _] => assert (heap p.1 = heap s) as Hh; [case_match; [done|apply ask_heap]|];
    destruct p as [s1 [e|id]] end; [by apply keeps_ask|]. cbn in Hh.
  match goal with |- context [let '(s, i) := ?p in _] => assert (heap p.1 = heap s1) as Hh'; [repeat case_match; try done; apply ask_heap|];
    destruct p as [s2 [e|content]] end; cbn in Hh'; [apply keeps_ask; [done|congruence]|]. apply attach_keeps; [done|congruence].
Qed.

Lemma attachTmdbBySearch_keeps x s : keeps (Tags (result x)) s (run_attachTmdbContentBySearch deps x s).
Proof.
  unfold run_attachTmdbContentBySearch. case_match; [by apply keeps_same|]. case_match; [|apply tmdb_search_keeps].
  case_match; [by apply keeps_same|]. case_match; [|apply tmdb_search_keeps].
  match goal with |- context [ask ?m ?s] => pose proof (ask_heap m s) as Hh; destruct (ask m s) as [s1 [e|c]]; cbn in Hh end; [|by apply attach_keeps].
  unfold keeps. rewrite <- Hh. apply tmdb_search_keeps.
Qed.

(** Steps compose: the maps keep growing and the tags stay where they are. *)
Lemma keeps_grows tags s s1 o : grows (heap s) (heap s1) → keeps tags s1 o → keeps tags s o.
Proof. intros Hg [Hg' Ht]. split; [by etrans|done]. Qed.

Lemma step_keeps fuel a x s o :
  match a with ASequence _ | AFindMatch _ _ | AIfElse _ _ _ | ARunWorkflow _ => False | _ => True end →
  run deps fuel a x s = Done o → keeps (Tags (result x)) s o.
Proof.
  destruct a; intros Ha; try done; destruct fuel; cbn; intros Hr; try injection Hr as <-;
    first [apply addTag_keeps | apply attachTMDBByID_keeps | apply attachTmdbBySearch_keeps | apply parseVideo_keeps
          | apply typeFallback_keeps | apply enrichTypeFallback_keeps | by apply keeps_same | by apply keeps_error | idtac].
  all: try (unfold run_parseDate in Hr; repeat case_match; simplify_eq; by apply keeps_same).
  all: unfold run_attachLocalContentByID, run_attachLocalContentBySearch; (case_match; [by apply keeps_same|]);
    apply answer_keeps; rewrite ?searched_heap, ?ask_heap; done.
Qed.

Lemma run_keeps fuel a x s o : run deps fuel a x s = Done o → keeps (Tags (result x)) s o.
Proof.
  revert a x s o. induction fuel as [fuel IHf] using lt_wf_ind.
  induction a as [l IH|p l IH|c i e IHi IHe|a Ha] using action_induction; intros x s o.
  - rewrite run_sequence. revert x s o. induction IH as [|a l IHa _ IHl]; intros x s o; cbn; [intros [= <-]; by apply keeps_same|].
    destruct (run deps fuel a x s) as [[s1 [r1 [e|]]]| |] eqn:E; try done; apply IHa in E as [Hg Ht].
    + intros [= <-]. by apply keeps_error.
    + intros [Hg' Ht']%IHl. split; [by etrans|]. intros He l' Hl'. by apply Ht', Ht.
  - rewrite run_match. revert s o. induction IH as [|a l IHa _ IHl]; intros s o; cbn; [intros [= <-]; by apply keeps_same|].
    destruct (run deps fuel a x s) as [[s1 [r1 [e|]]]| |] eqn:E; try done; apply IHa in E as [Hg Ht].
    + destruct (Is e ErrUnmatched); [|intros [= <-]; by apply keeps_error]. intros Hk%IHl. by eapply keeps_grows.
    + intros [= <-]. by split.
  - rewrite run_ifElse. destruct (check c x) as [err|[]]; [intros [= <-]; by apply keeps_error|..].
    + destruct i as [a|]; [by apply IHi|]. intros [= <-]. by apply keeps_same.
    + destruct e as [a|]; [by apply IHe|]. intros [= <-]. by apply keeps_same.
  - destruct a; try done; try (by apply step_keeps). rewrite run_workflow.
    assert (∀ cl s1, grows (heap s) (heap s1) → (∀ l, Tags (result x) = Some l → Tags cl = Some l) →
      workflow_loop (below deps fuel) x names cl s1 = Done o → keeps (Tags (result x)) s o) as Hloop; [|by apply Hloop].
    induction names as [|n ns IH]; intros cl s1 Hg Ht; cbn; [intros [= <-]; by split|].
    destruct (workflows_ x !! n) as [w|]; [|done]. destruct fuel as [|fuel]; [done|]. cbn [below].
    destruct (run deps fuel w (withResult x s1 cl) s1) as [[s2 [r2 [e|]]]| |] eqn:E; try done;
      apply (IHf fuel ltac:(lia)) in E as [Hg' Ht']; cbn in *.
    + intros [= <-]. apply keeps_error. by etrans.
    + apply IH; [by etrans|]. intros l Hl. by apply Ht', Ht.
Qed.

(** A classification only ever adds to what it is given: every map of tags or languages that exists when an action starts is still there when it ends, with all its entries, and a result that is returned without an error has every tag it had before. *)
Theorem classifier_adds fuel a x s s' r err :
  run deps fuel a x s = Done (s', (r, err)) →
  grows (heap s) (heap s') ∧ (err = None → entries (heap s) (Tags (result x)) ⊆ entries (heap s') (Tags r)).
Proof.
  intros [Hg Ht]%run_keeps. split; [done|]. cbn in *. intros He. destruct (Tags (result x)) as [l|]; [|set_solver].
  rewrite (Ht He l eq_refl). by apply grows_entries.
Qed.

End growth.

(** ** What the deletion metric reports, [processor/delete_metrics.go] *)

Definition deleteLabels (ct : NullEnum) (classifyErr : error) : string * string :=
  let '(ct, rule) :=
    match AsRuntime classifyErr with
    | Some (p, ct') => (if Valid ct' then ct' else ct, match p with [] => "unknown" | _ => String.concat "." p end)
    | None => (ct, "unknown")
    end in
  (if Valid ct then Val ct else "unknown", rule).

Section shared.
Context `{HU : Unicode} `{HT : UnicodeTables} {W : Type} `{HC : Cel} `{HS : !Services W} (deps : dependencies W).
Implicit Types (s : state W) (x : executionContext).

(** A delete carries its type and path to the caller through sequences, conditions and called workflows; inside [find_match] the error that is found first is the one of [find_match], which has its own path and no type. *)
Theorem delete_labels fuel p q acts x s :
  Valid (ContentType (Attributes (result x))) = true → q ≠ [] →
  (∃ s1 r1 e1, run deps fuel (ASequence (ADelete q :: acts)) x s = Done (s1, (r1, Some e1))
     ∧ Is e1 ErrDeleteTorrent = true ∧ deleteLabels (ContentType (Attributes r1)) e1 = (Val (ContentType (Attributes (result x))), String.concat "." q))
  ∧ (∃ s2 r2 e2, run deps fuel (AFindMatch (p ++ ["find_match"]) (ADelete q :: acts)) x s = Done (s2, (r2, Some e2))
       ∧ Is e2 ErrDeleteTorrent = true ∧ deleteLabels (ContentType (Attributes r2)) e2 = ("unknown", String.concat "." (p ++ ["find_match"]))).
Proof.
  intros Hv Hq. split.
  - eexists s, _, (RuntimeError q ErrDeleteTorrent (ContentType (Attributes (result x)))).
    split; [rewrite run_sequence; by destruct fuel|]. split; [done|]. unfold deleteLabels. cbn [AsRuntime]. rewrite Hv. destruct q; [done|]. cbv beta iota. by rewrite Hv.
  - eexists s, no_result, (RuntimeError (p ++ ["find_match"]) (RuntimeError q ErrDeleteTorrent (ContentType (Attributes (result x)))) no_type).
    split; [rewrite run_match; by destruct fuel|]. split; [done|]. unfold deleteLabels. cbn [AsRuntime]. by destruct p.
Qed.

(** [find_match] goes back to the result it was given when an alternative does not match, but a map that the alternative wrote into stays written: a tag that was added by an alternative that failed is on the result if the result had tags before, and is not if it had none. *)
Theorem find_match_shares_tags fuel p q tags x s :
  ∃ s', run deps fuel (AFindMatch p [ASequence [AAddTag tags; AUnmatched q]]) x s = Done (s', (result x, None))
    ∧ entries (heap s') (Tags (result x)) =
      match Tags (result x) with Some _ => entries (heap s) (Tags (result x)) ∪ list_to_set tags | None => ∅ end.
Proof.
  rewrite run_match. cbn [match_loop]. rewrite run_sequence. cbn [sequence_loop].
  assert (run deps fuel (AAddTag tags) x s = Done (run_addTag tags x s)) as -> by by destruct fuel. unfold run_addTag.
  destruct (Tags (result x)) as [l|] eqn:Et; cbn;
    (destruct (run deps fuel (AUnmatched q) _ _) as [[s1 [r1 [e|]]]| |] eqn:E; destruct fuel; cbn in E; simplify_eq; cbn);
    eexists; (split; [done|]); try done; cbn; by rewrite lookup_insert_eq.
Qed.

(** An error of [find_match] is never the one it looks for. *)
Lemma find_match_error fuel p l x s s' r e : run deps fuel (AFindMatch p l) x s = Done (s', (r, Some e)) → Is e ErrUnmatched = false.
Proof.
  rewrite run_match. revert s. induction l as [|a l IH]; intros s; cbn; [done|].
  destruct (run deps fuel a x s) as [[s1 [r1 [e1|]]]| |]; try done. destruct (Is e1 ErrUnmatched) eqn:E; [apply IH|].
  intros [= <- <- <-]. cbn. by rewrite E.
Qed.

(** A workflow that runs itself compiles, and never ends. *)
Theorem recursive_workflow_unfinished fuel name x s :
  workflows_ x !! name = Some (ARunWorkflow [name]) → run deps fuel (ARunWorkflow [name]) x s = Unfinished.
Proof.
  revert x s. induction fuel as [|fuel IH]; intros x s Hx; rewrite run_workflow; cbn; rewrite Hx; [done|]. cbn [below]. by rewrite IH.
Qed.

(** ** Local enrichment *)

Definition enrichable (a : ContentAttributes positive) : Prop :=
  Valid (ContentType a) = true ∧ TValid (BaseTitle a) = true ∧ movie_or_tv (Val (ContentType a)) = true
  ∧ (Val (ContentType a) = "movie" → Dates.Year (Date_ a) ≠ 0%Z).

Lemma unique_loop_Some a alt cs sel c :
  unique_loop a alt cs sel = Some c →
  (∀ d, d ∈ cs → local_match a alt d = true → Ref d = Ref c) ∧ (∀ d, sel = Some d → Ref d = Ref c)
  ∧ (sel = Some c ∨ c ∈ cs ∧ local_match a alt c = true).
Proof.
  revert sel. induction cs as [|d cs IH]; intros sel; cbn [unique_loop].
  - intros ->. split; [by intros d ?%elem_of_nil|]. split; [by intros d [= ->]|by left].
  - destruct (local_match a alt d) eqn:Em; cbn [negb].
    + assert (unique_loop a alt cs (Some d) = Some c → (∀ e, sel = Some e → Ref e = Ref d) →
        (∀ e, e ∈ d :: cs → local_match a alt e = true → Ref e = Ref c) ∧ (∀ e, sel = Some e → Ref e = Ref c)
        ∧ (sel = Some c ∨ c ∈ d :: cs ∧ local_match a alt c = true)) as Hstep.
      { intros (Hall & Hd & Hc)%IH Hsel. split; [intros e [-> | He]%elem_of_cons ?; [by apply Hd|by apply Hall]|].
        split; [intros e He; rewrite (Hsel e He); by apply Hd|]. right. destruct Hc as [[= ->]|[Hc ?]]; (split; [|done]); [by left|by right]. }
      destruct sel as [e|]; [|intros Hu; by apply Hstep]. case_bool_decide as Hne; [done|]. intros Hu. apply Hstep; [done|].
      intros e' [= ->]. by destruct (decide (Ref e' = Ref d)).
    + intros (Hall & Hd & Hc)%IH. split; [intros e [-> | He]%elem_of_cons ?; [congruence|by apply Hall]|]. split; [done|].
      destruct Hc as [?|[Hc ?]]; [by left|right]. split; [by right|done].
Qed.

Lemma uniqueTypeLocalContent_Some a cs alt c :
  uniqueTypeLocalContent a cs alt = Some c →
  enrichable a ∧ c ∈ cs ∧ local_match a alt c = true ∧ ∀ d, d ∈ cs → local_match a alt d = true → Ref d = Ref c.
Proof.
  unfold uniqueTypeLocalContent. destruct (Valid (ContentType a)) eqn:H1; [|done]. destruct (TValid (BaseTitle a)) eqn:H2; [|done].
  destruct (movie_or_tv _) eqn:H3; [|done]. cbn. case_match eqn:H4; [done|]. intros (Hall & _ & [?|[Hc Hm]])%unique_loop_Some; [done|].
  split; [|done]. split; [done|]. split; [done|]. split; [done|]. intros Hmovie Hy. rewrite Hmovie, Hy in H4. done.
Qed.

Lemma size_backstop_type m n (a : ContentAttributes positive) : ContentType (size_backstop m n a) = ContentType a.
Proof. unfold size_backstop. by case_match. Qed.
Lemma merge_parsed_type s p a : Valid (ContentType a) = true → ContentType (merge_parsed s p a).2 = ContentType a.
Proof. intros Hv. unfold merge_parsed. case_match; cbn; unfold or_enum; by rewrite Hv. Qed.
Lemma attach_content s c cl : Content_ (attach s c cl).2 = Some c.
Proof. unfold attach, AttachContent. repeat (case_match; simplify_eq); done. Qed.
Lemma add_entries_elem h o k : k ∈ entries (add_entries h o {[k]}).2 (Some (add_entries h o {[k]}).1).
Proof. destruct o as [l|]; cbn; rewrite lookup_insert_eq; cbn; set_solver. Qed.

Lemma enrich_search_unique a cl opts s s' r c :
  enrich_search a cl opts s = (s', (r, None)) → Content_ cl = None → Content_ r = Some c →
  ∃ s2 cs, ask (ContentCandidatesBySearch (Val (ContentType a)) (Text (BaseTitle a)) (Dates.Year (Date_ a)) typeLocalCandidateLimit) s = (s2, inr cs)
    ∧ LocalSearchEnabled opts = true ∧ (length cs < typeLocalCandidateLimit)%nat
    ∧ uniqueTypeLocalContent a cs (AltTitleMatch opts) = Some c ∧ typeLocalEnrichedTagName ∈ entries (heap s') (Tags r).
Proof.
  intros He Hcl Hr. unfold enrich_search in He.
  assert (∀ s1 : state W, (s1, (set_attributes cl a, @None error)) = (s', (r, None)) → False) as Hno by (intros s1 [= <- <-]; cbn in Hr; congruence).
  destruct (LocalSearchEnabled opts) eqn:Eo; [|rewrite orb_true_r in He; by apply Hno in He].
  case_match; [by apply Hno in He|]. case_match; [by apply Hno in He|].
  destruct (ask _ s) as [s2 [e|cs]]; [by apply Hno in He|]. exists s2, cs. do 2 (split; [done|]).
  destruct (Nat.leb_spec typeLocalCandidateLimit (length cs)); [by apply Hno in He|]. split; [done|].
  destruct (uniqueTypeLocalContent _ _ _) as [content|]; [|by apply Hno in He].
  pose proof (attach_content s2 content (set_attributes cl a)) as Hc. destruct (attach s2 content _) as [s3 cl'].
  pose proof (add_entries_elem (heap s3) (Tags cl') typeLocalEnrichedTagName) as Ht. destruct (add_entries (heap s3) (Tags cl') _) as [l h].
  injection He as <- <-. cbn in *. split; [congruence|done].
Qed.

(** What the release says of itself: its title and its date as the result has
    them, or else as the name is parsed. *)
Definition release_title (t : Torrent) (cl : Result) (opts : LocalTypeEnrichmentOptions) : NullString :=
  match ParseVideoContentWithOptions t cl (ParseNoiseV2 opts) with
  | inr parsed => if TValid (BaseTitle (Attributes cl)) then BaseTitle (Attributes cl) else BaseTitle parsed
  | inl _ => BaseTitle (Attributes cl)
  end.
Definition release_year (t : Torrent) (cl : Result) (opts : LocalTypeEnrichmentOptions) : Z :=
  Dates.Year match ParseVideoContentWithOptions t cl (ParseNoiseV2 opts) with
             | inr parsed => if Dates.IsNil (Date_ (Attributes cl)) then Date_ parsed else Date_ (Attributes cl)
             | inl _ => Date_ (Attributes cl)
             end.

(** A catalogue entry has the title, up to its normal form: its own, its
    original one, or one of its other titles if they count. *)
Definition has_title (c : Content) (aliases : bool) (title : runes) : Prop :=
  normalizeIdentityTitle title ≠ []
  ∧ ∃ name, normalizeIdentityTitle name = normalizeIdentityTitle title
      ∧ (name = c_Title c ∨ c_OriginalTitle c = NewNullString name ∨ aliases = true ∧ name ∈ altTitlesOf c).
(** It is an entry for a release of this type, title and year. *)
Definition same_release (ct : string) (title : runes) (year : Z) (aliases : bool) (c : Content) : Prop :=
  c_Type c = ct ∧ c_Source c ≠ [] ∧ c_ID c ≠ [] ∧ has_title c aliases title
  ∧ (ct = "movie" → c_ReleaseYear c ≠ 0%Z ∧ (Z.abs (year - c_ReleaseYear c) ≤ 1)%Z).

(** The search, if there is one, found the entries [cs] and no more. *)
Definition search_finds (t : Torrent) (cl : Result) (opts : LocalTypeEnrichmentOptions) (w : W) (cs : list Content) : Prop :=
  let ct := Val (ContentType (Attributes cl)) in
  LocalSearchEnabled opts = true ∧ TValid (release_title t cl opts) = true ∧ (ct = "movie" → release_year t cl opts ≠ 0%Z)
  ∧ (ContentCandidatesBySearch ct (Text (release_title t cl opts)) (release_year t cl opts) typeLocalCandidateLimit w).2 = inr cs
  ∧ (length cs < typeLocalCandidateLimit)%nat.
Definition beyond_doubt (t : Torrent) (cl : Result) (opts : LocalTypeEnrichmentOptions) (cs : list Content) (c : Content) : Prop :=
  let same := same_release (Val (ContentType (Attributes cl))) (Text (release_title t cl opts)) (release_year t cl opts) (AltTitleMatch opts) in
  c ∈ cs ∧ same c ∧ ∀ d, d ∈ cs → same d → Ref d = Ref c.

Lemma exactContentTitle_spec title c aliases : exactContentTitle title c aliases = true ↔ has_title c aliases title.
Proof.
  unfold exactContentTitle, has_title. case_bool_decide as Hn; [naive_solver|].
  rewrite !orb_true_iff, !andb_true_iff, !bool_decide_eq_true, existsb_exists. split.
  - intros [[He|[Hv He]]|[Ha (a & Hin%list_elem_of_In & He%bool_decide_eq_true)]]; (split; [done|]).
    + exists (c_Title c). by auto.
    + exists (Text (c_OriginalTitle c)). split; [done|]. right; left. destruct (c_OriginalTitle c); cbn in *. by subst.
    + exists a. by auto.
  - intros (_ & name & He & [-> |[Ho|[Ha Hin]]]); [by auto| |].
    + left; right. rewrite Ho. by split.
    + right. split; [done|]. exists name. split; [by apply list_elem_of_In|]. by apply bool_decide_eq_true.
Qed.
Lemma local_match_spec a aliases c :
  local_match a aliases c = true ↔ same_release (Val (ContentType a)) (Text (BaseTitle a)) (Dates.Year (Date_ a)) aliases c.
Proof.
  unfold local_match, same_release. rewrite !andb_true_iff, !negb_true_iff, bool_decide_eq_true, !bool_decide_eq_false, exactContentTitle_spec.
  destruct (decide (c_Type c = Val (ContentType a))) as [Ht|]; [|naive_solver]. rewrite Ht. case_bool_decide as Hm; cbn [andb]; [|naive_solver].
  rewrite orb_false_iff, Z.eqb_neq, Z.ltb_ge. naive_solver.
Qed.

Lemma unique_loop_complete a alt cs ref : ∀ sel,
  (∀ d, d ∈ cs → local_match a alt d = true → Ref d = ref) → (∀ d, sel = Some d → Ref d = ref) →
  (is_Some sel ∨ ∃ c, c ∈ cs ∧ local_match a alt c = true) → is_Some (unique_loop a alt cs sel).
Proof.
  induction cs as [|d cs IH]; intros sel Hall Hsel Hex; cbn [unique_loop].
  - destruct Hex as [?|(c & Hc & _)]; [done|by apply elem_of_nil in Hc].
  - assert (Hall' : ∀ e, e ∈ cs → local_match a alt e = true → Ref e = ref) by (intros e He; apply Hall; by right).
    destruct (local_match a alt d) eqn:Em; cbn [negb].
    + assert (Hd : Ref d = ref) by (apply Hall; [by left|done]).
      assert (Hgo : is_Some (unique_loop a alt cs (Some d))) by (apply IH; [done|by intros e [= <-]|by left]).
      destruct sel as [e|]; [|done]. rewrite bool_decide_eq_false_2; [done|]. intros Hne. apply Hne. by rewrite (Hsel e).
    + apply IH; [done|done|]. destruct Hex as [?|(c & [->|Hc]%elem_of_cons & Hm)]; [by left|congruence|right; by exists c].
Qed.
Lemma unique_complete a cs alt c :
  enrichable a → c ∈ cs → local_match a alt c = true → (∀ d, d ∈ cs → local_match a alt d = true → Ref d = Ref c) →
  is_Some (uniqueTypeLocalContent a cs alt).
Proof.
  intros (Hv & Ht & Hm & Hy) Hc Hl Hall. unfold uniqueTypeLocalContent. rewrite Hv, Ht, Hm. cbn [negb orb].
  assert ((bool_decide (Val (ContentType a) = "movie") && (Dates.Year (Date_ a) =? 0)%Z) = false) as ->.
  { case_bool_decide as Hmv; [|done]. cbn [andb]. apply Z.eqb_neq. by apply Hy. }
  apply (unique_loop_complete _ _ _ (Ref c)); [done|done|right; by exists c].
Qed.

(** Nothing is attached only when no entry is beyond doubt. *)
Lemma enrich_search_none a cl opts s s' r err :
  enrich_search a cl opts s = (s', (r, err)) → Content_ cl = None → Valid (ContentType a) = true → movie_or_tv (Val (ContentType a)) = true →
  err = None ∧ (Content_ r = None → ∀ cs, LocalSearchEnabled opts = true → TValid (BaseTitle a) = true →
    (Val (ContentType a) = "movie" → Dates.Year (Date_ a) ≠ 0%Z) →
    (ContentCandidatesBySearch (Val (ContentType a)) (Text (BaseTitle a)) (Dates.Year (Date_ a)) typeLocalCandidateLimit (world s)).2 = inr cs →
    (length cs < typeLocalCandidateLimit)%nat → uniqueTypeLocalContent a cs (AltTitleMatch opts) = None).
Proof.
  intros He Hcl Hv Hmt. unfold enrich_search in He.
  destruct (TValid (BaseTitle a)) eqn:Et; cbn [negb orb] in He; [|injection He as <- <- <-; by split].
  destruct (LocalSearchEnabled opts) eqn:El; cbn [negb] in He; [|injection He as <- <- <-; by split].
  destruct (bool_decide (Val (ContentType a) = "movie") && (Dates.Year (Date_ a) =? 0)%Z) eqn:Ey.
  { injection He as <- <- <-. split; [done|]. intros _ cs _ _ Hy. apply andb_prop in Ey as [Em%bool_decide_eq_true Ez%Z.eqb_eq]. by destruct (Hy Em). }
  unfold ask in He. destruct (ContentCandidatesBySearch _ _ _ _ (world s)) as [w [e|cs0]]; cbn [snd] in *; [injection He as <- <- <-; split; [done|]; congruence|].
  destruct (Nat.leb_spec typeLocalCandidateLimit (length cs0)); [injection He as <- <- <-; split; [done|]; intros _ cs _ _ _ [= <-]; lia|].
  destruct (uniqueTypeLocalContent a cs0 (AltTitleMatch opts)) as [content|] eqn:Eu.
  - pose proof (attach_content (set_world s w) content (set_attributes cl a)) as Hc. destruct (attach _ content _) as [s3 cl'].
    destruct (add_entries (heap s3) (Tags cl') _) as [l h]. injection He as <- <- <-. cbn in *. split; [done|]. congruence.
  - injection He as <- <- <-. split; [done|]. by intros _ cs _ _ _ [= <-].
Qed.

(** The attributes that are searched with are those of the release. *)
Lemma parsed_attributes t cl opts (s : state W) :
  Valid (ContentType (Attributes cl)) = true →
  let p := match ParseVideoContentWithOptions t cl (ParseNoiseV2 opts) with
           | inl _ => (s, Attributes cl)
           | inr attrs => let '(s, a) := merge_parsed s attrs (Attributes cl) in (s, size_backstop (SingleEpisodeMaxBytes opts) (t_Size t) a)
           end in
  world p.1 = world s ∧ ContentType p.2 = ContentType (Attributes cl) ∧ BaseTitle p.2 = release_title t cl opts
  ∧ Dates.Year (Date_ p.2) = release_year t cl opts.
Proof.
  intros Hv. unfold release_title, release_year. destruct (ParseVideoContentWithOptions t cl (ParseNoiseV2 opts)) as [?|attrs]; [done|].
  pose proof (merge_parsed_type s attrs (Attributes cl) Hv) as Ht.
  assert (Hb : BaseTitle (merge_parsed s attrs (Attributes cl)).2 = or_string (BaseTitle (Attributes cl)) (BaseTitle attrs)
    ∧ Date_ (merge_parsed s attrs (Attributes cl)).2 = (if Dates.IsNil (Date_ (Attributes cl)) then Date_ attrs else Date_ (Attributes cl))
    ∧ world (merge_parsed s attrs (Attributes cl)).1 = world s) by (unfold merge_parsed; destruct (Languages attrs); done).
  destruct (merge_parsed s attrs (Attributes cl)) as [s1 a]. cbn [fst snd] in *. destruct Hb as (Hb & Hd & Hw).
  assert (Hs : BaseTitle (size_backstop (SingleEpisodeMaxBytes opts) (t_Size t) a) = BaseTitle a
    ∧ Date_ (size_backstop (SingleEpisodeMaxBytes opts) (t_Size t) a) = Date_ a) by (unfold size_backstop; by destruct (_ && _)).
  destruct Hs as [-> ->]. rewrite size_backstop_type, Hb, Hd. by split_and!.
Qed.

(** C24: enriching a predicted film or series type attaches a catalogue entry
    exactly when it is beyond doubt: the local search was asked for the type,
    the title of the release and its year, as the result has them or else as the
    name of the torrent is parsed; it answered with fewer candidates than its
    limit; the entry is one of them, has that type and that title and, for a
    film, that year to within one; and every candidate of which that is true is
    the same entry.  The result is then tagged; otherwise nothing is attached. *)
Theorem enrichment_unique t cl opts s s' r err :
  EnrichTypeLocally t cl opts s = (s', (r, err)) →
  Content_ cl = None → Valid (ContentType (Attributes cl)) = true → movie_or_tv (Val (ContentType (Attributes cl))) = true →
  ctx_Err (world s) = None →
  err = None
  ∧ match Content_ r with
    | Some c => (∃ cs, search_finds t cl opts (world s) cs ∧ beyond_doubt t cl opts cs c) ∧ typeLocalEnrichedTagName ∈ entries (heap s') (Tags r)
    | None => ∀ cs c, search_finds t cl opts (world s) cs → beyond_doubt t cl opts cs c → False
    end.
Proof.
  unfold EnrichTypeLocally. intros He Hcl Hv Hm Hctx. rewrite Hcl, bool_decide_eq_false_2 in He by by intros [? ?]. rewrite Hv, Hm, Hctx in He.
  cbn [orb negb] in He. pose proof (parsed_attributes t cl opts s Hv) as Hp. cbn zeta in Hp.
  destruct (match ParseVideoContentWithOptions t cl (ParseNoiseV2 opts) with inl _ => _ | inr _ => _ end) as [s1 a].
  cbn [fst snd] in Hp. destruct Hp as (Hw & Ht & Hb & Hy).
  pose proof (enrich_search_none a cl opts s1 s' r err He Hcl) as Hnone. rewrite Ht in Hnone. destruct (Hnone Hv Hm) as [-> Hno]. split; [done|].
  unfold search_finds, beyond_doubt. rewrite <- Hb, <- Hy, <- Ht, <- Hw.
  destruct (Content_ r) as [c|] eqn:Ec.
  - apply (enrich_search_unique _ _ _ _ _ _ c) in He as (s2 & cs & Ha & Ho & Hl & (Hen & Hc & Hlm & Hu)%uniqueTypeLocalContent_Some & Htag); [|done|done].
    split; [|done]. exists cs. unfold ask in Ha. destruct (ContentCandidatesBySearch _ _ _ _ _) as [w res]. injection Ha as _ ->.
    destruct Hen as (_ & Htv & _ & Hyr). split; [by split_and!|]. split; [done|]. setoid_rewrite <- local_match_spec. by split.
  - intros cs c (Ho & Htv & Hyr & Hq & Hl) (Hc & Hs & Hall). rewrite Ht in Hyr, Hq.
    specialize (Hno eq_refl cs Ho Htv Hyr Hq Hl). setoid_rewrite <- local_match_spec in Hall. apply local_match_spec in Hs.
    destruct (unique_complete a cs (AltTitleMatch opts) c) as [d Hd]; [|done|done|done|congruence].
    split_and!; [by rewrite Ht|done|by rewrite Ht|by rewrite Ht].
Qed.

End shared.

(** ** Canonical evidence *)

Section evidence.
Context `{HU : Unicode} `{HT : UnicodeTables} `{HN : NamePolicy.ScriptTables}.

(** The media types of the evidence, and the content types they stand for. *)
Definition media_types : list (string * string) :=
  [("movie", "movie"); ("tv", "tv_show"); ("music", "music"); ("audiobook", "audiobook"); ("book", "ebook")].
Definition label_type (label : CanonicalLabel) (ct : string) : Prop := (MediaType label, ct) ∈ media_types.

(** The catalogue entry that a media identifier names: [source:id], for the
    catalogues that are known. *)
Definition names_entry (mediaID source id : runes) : Prop :=
  ∃ before after, TrimSpace mediaID = before ++ 58%Z :: after ∧ (58%Z ∉ before)
    ∧ source = ToLower <$> TrimSpace before ∧ id = TrimSpace after ∧ id ≠ [] ∧ source ∈ runes_of <$> ["tmdb"; "tvdb"; "imdb"].

(** The identity that a torrent already has for a content type: that of its
    hint or else the one that all its contents of the type agree on. *)
Definition identity (source id : NullString) (s i : runes) : Prop := source = NewNullString s ∧ id = NewNullString i ∧ s ≠ [] ∧ i ≠ [].
Definition hint_identity (t : Torrent) (ct : string) (s i : runes) : Prop :=
  ct ≠ "" ∧ h_ContentType (t_Hint t) = ct ∧ identity (h_ContentSource (t_Hint t)) (h_ContentID (t_Hint t)) s i.
Definition content_identity (ct : string) (tc : TorrentContent) (s i : runes) : Prop :=
  Valid (tc_ContentType tc) = true ∧ Val (tc_ContentType tc) = ct ∧ identity (tc_ContentSource tc) (tc_ContentID tc) s i.
Definition own_identity (t : Torrent) (ct : string) (s i : runes) : Prop :=
  hint_identity t ct s i
  ∨ (∀ s' i', ¬ hint_identity t ct s' i') ∧ (∃ tc, tc ∈ t_Contents t ∧ content_identity ct tc s i)
    ∧ ∀ tc s' i', tc ∈ t_Contents t → content_identity ct tc s' i' → s' = s ∧ i' = i.

(** The torrent as it is passed on under a label of type [ct]: its hint has the
    type, and the identity that the label names; when it names none, the one
    that the torrent had for that type; when it had none, none.  The rest of the
    torrent stays. *)
Definition identified (t : Torrent) (label : CanonicalLabel) (ct : string) (t' : Torrent) : Prop :=
  ∃ source id, t' = set_hint t (set_identity (t_Hint t) ct source id)
    ∧ ((∃ s i, names_entry (MediaID label) s i ∧ source = NewNullString s ∧ id = NewNullString i)
       ∨ (∀ s i, ¬ names_entry (MediaID label) s i)
         ∧ ((∃ s i, own_identity t ct s i ∧ source = NewNullString s ∧ id = NewNullString i)
            ∨ (∀ s i, ¬ own_identity t ct s i) ∧ source = no_string ∧ id = no_string)).

Lemma canonicalToContentType_spec label ct : canonicalToContentType (MediaType label) = Some ct ↔ label_type label ct.
Proof.
  unfold canonicalToContentType, label_type, media_types. rewrite !elem_of_cons, elem_of_nil.
  repeat case_bool_decide; naive_solver congruence.
Qed.

Lemma cut_colon_spec (s : runes) :
  match cut_colon s with Some (a, b) => s = a ++ 58%Z :: b ∧ (58%Z ∉ a) | None => 58%Z ∉ s end.
Proof.
  induction s as [|r s IH]; cbn [cut_colon]; [apply not_elem_of_nil|]. destruct (Z.eqb_spec r 58) as [->|Hr]; [split; [done|apply not_elem_of_nil]|].
  destruct (cut_colon s) as [[a b]|]; [destruct IH as [-> Ha]; split; [done|]|]; apply not_elem_of_cons; by split.
Qed.
Lemma colon_unique (a a' b b' : runes) : (58%Z ∉ a) → (58%Z ∉ a') → a ++ 58%Z :: b = a' ++ 58%Z :: b' → a = a' ∧ b = b'.
Proof.
  revert a'. induction a as [|x a IH]; intros [|x' a'] Ha Ha' He; cbn in He.
  - by injection He as ->.
  - injection He as <- _. destruct Ha'. by left.
  - injection He as -> _. destruct Ha. by left.
  - injection He as <- He. apply not_elem_of_cons in Ha as [_ Ha], Ha' as [_ Ha']. by destruct (IH a' Ha Ha' He) as [-> ->].
Qed.
Lemma canonicalContentRef_spec mediaID ct :
  match canonicalContentRef mediaID ct with
  | Some ref => names_entry mediaID (r_Source ref) (r_ID ref)
  | None => ∀ s i, ¬ names_entry mediaID s i
  end.
Proof.
  unfold canonicalContentRef. pose proof (cut_colon_spec (TrimSpace mediaID)) as Hc. destruct (cut_colon (TrimSpace mediaID)) as [[a b]|].
  - destruct Hc as [He Ha]. case_bool_decide as Hid; [|case_bool_decide as Hs].
    + intros s i (a' & b' & He' & Ha' & _ & -> & Hne & _). rewrite He in He'. by destruct (colon_unique a a' b b' Ha Ha' He') as [_ <-].
    + exists a, b. by split_and!.
    + intros s i (a' & b' & He' & Ha' & -> & _ & _ & Hin). rewrite He in He'. by destruct (colon_unique a a' b b' Ha Ha' He') as [<- _].
  - intros s i (a' & b' & He' & _). rewrite He' in Hc. apply Hc. apply elem_of_app. right. by left.
Qed.

Lemma identity_of (source id : NullString) :
  TValid source = true → TValid id = true → Text source ≠ [] → Text id ≠ [] → identity source id (Text source) (Text id).
Proof. destruct source, id; cbn. intros -> -> ? ?. by split_and!. Qed.
Lemma compatible_spec ct tc :
  if compatible ct tc then content_identity ct tc (Text (tc_ContentSource tc)) (Text (tc_ContentID tc)) else ∀ s i, ¬ content_identity ct tc s i.
Proof.
  unfold compatible. destruct (Valid (tc_ContentType tc)) eqn:Hv; cbn [andb]; [|intros s i (Hx & _); congruence].
  case_bool_decide as Ht; cbn [andb]; [|intros s i (_ & Hx & _); congruence].
  destruct (TValid (tc_ContentSource tc)) eqn:Hs; cbn [andb]; [|intros s i (_ & _ & Hx & _); by rewrite Hx in Hs].
  destruct (TValid (tc_ContentID tc)) eqn:Hi; cbn [andb]; [|intros s i (_ & _ & _ & Hx & _); by rewrite Hx in Hi].
  case_bool_decide as H1; cbn [negb andb]; [intros s i (_ & _ & Hx & _ & Hne & _); rewrite Hx in H1; by apply Hne|].
  case_bool_decide as H2; cbn [negb andb]; [intros s i (_ & _ & _ & Hx & _ & Hne); rewrite Hx in H2; by apply Hne|].
  split; [done|]. split; [done|]. by apply identity_of.
Qed.
Lemma content_identity_text ct tc s i : content_identity ct tc s i → s = Text (tc_ContentSource tc) ∧ i = Text (tc_ContentID tc).
Proof. intros (_ & _ & -> & -> & _). done. Qed.

(** The loop finds the one identity that the contents agree on. *)
Definition candidates (ct : string) (l : list TorrentContent) : list ContentRef :=
  omap (λ tc, if compatible ct tc then Some (mkRef ct (Text (tc_ContentSource tc)) (Text (tc_ContentID tc))) else None) l.
Definition agreed (rs : list ContentRef) : option ContentRef :=
  match rs with r :: rs => if forallb (λ r', bool_decide (r' = r)) rs then Some r else None | [] => None end.

Lemma compatible_loop_agreed ct l found : compatible_loop ct l found = agreed (option_list found ++ candidates ct l).
Proof.
  revert found. induction l as [|tc l IH]; intros found; cbn [compatible_loop candidates omap list_omap]; [by destruct found|].
  destruct (compatible ct tc); cbn [negb]; [|apply IH]. destruct found as [f|]; [|apply IH].
  rewrite (bool_decide_ext _ _ (symmetry_iff eq f _)). change (option_list (Some f)) with [f]. cbn [app agreed forallb].
  destruct (bool_decide_reflect (mkRef ct (Text (tc_ContentSource tc)) (Text (tc_ContentID tc)) = f)) as [He|]; [|done]. cbn [andb]. by rewrite IH.
Qed.
Lemma agreed_spec rs : match agreed rs with Some r => r ∈ rs ∧ ∀ r', r' ∈ rs → r' = r | None => ∀ r, r ∈ rs → ∃ r', r' ∈ rs ∧ r' ≠ r end.
Proof.
  destruct rs as [|r rs]; cbn [agreed]; [intros r Hr; by apply elem_of_nil in Hr|]. destruct (forallb _ rs) eqn:Ef.
  - rewrite forallb_forall in Ef. split; [by left|]. intros r' [->|Hr']%elem_of_cons; [done|]. apply list_elem_of_In, Ef in Hr'.
    by apply bool_decide_eq_true in Hr'.
  - intros q Hq. destruct (decide (q = r)) as [->|Hne]; [|exists r; split; [by left|congruence]].
    assert (Hex : existsb (λ r', negb (bool_decide (r' = r))) rs = true).
    { clear Hq. induction rs as [|x rs IH]; [done|]. cbn in *. destruct (bool_decide (x = r)); [by apply IH|done]. }
    apply existsb_exists in Hex as (r' & Hin%list_elem_of_In & Hn%negb_true_iff%bool_decide_eq_false). exists r'. split; [by right|done].
Qed.
Lemma candidates_spec ct l r : r ∈ candidates ct l ↔ r_Type r = ct ∧ ∃ tc, tc ∈ l ∧ content_identity ct tc (r_Source r) (r_ID r).
Proof.
  unfold candidates. rewrite list_elem_of_omap. split.
  - intros (tc & Hin & He). pose proof (compatible_spec ct tc) as Hc. destruct (compatible ct tc); [|done]. injection He as <-. split; [done|]. by exists tc.
  - intros (<- & tc & Hin & Hi). exists tc. split; [done|]. pose proof (compatible_spec (r_Type r) tc) as Hc.
    destruct (compatible (r_Type r) tc); [|by apply Hc in Hi]. apply content_identity_text in Hi as [<- <-]. by destruct r.
Qed.

Lemma compatibleContentRef_spec t ct :
  ct ≠ "" →
  match compatibleContentRef t ct with
  | Some ref => own_identity t ct (r_Source ref) (r_ID ref)
  | None => ∀ s i, ¬ own_identity t ct s i
  end.
Proof.
  intros Hct. unfold compatibleContentRef. destruct (negb (Hint_IsNil (t_Hint t)) && _ && _ && _ && _ && _) eqn:E.
  - rewrite !andb_true_iff, !negb_true_iff, bool_decide_eq_true, !bool_decide_eq_false in E. destruct E as [[[[[_ Ht] Hs] Hi] Hs'] Hi'].
    left. cbn. split; [done|]. split; [done|]. by apply identity_of.
  - assert (Hno : ∀ s i, ¬ hint_identity t ct s i).
    { intros s i (_ & Ht & Hs & Hi & Hs' & Hi'). revert E. unfold Hint_IsNil. rewrite Ht, Hs, Hi. cbn.
      rewrite (bool_decide_eq_false_2 _ Hct), (bool_decide_eq_true_2 (ct = ct)), (bool_decide_eq_false_2 _ Hs'), (bool_decide_eq_false_2 _ Hi') by done. done. }
    rewrite compatible_loop_agreed. cbn [option_list app]. change (option_list None ++ candidates ct (t_Contents t)) with (candidates ct (t_Contents t)).
    pose proof (agreed_spec (candidates ct (t_Contents t))) as Ha. destruct (agreed _) as [ref|].
    + destruct Ha as [Hin Hall]. apply candidates_spec in Hin as (Hty & tc & Hin & Hci). right. split; [done|]. split; [by exists tc|].
      intros tc' s' i' Hin' Hci'. assert (mkRef ct s' i' = ref) as <-; [|done]. apply Hall, candidates_spec. split; [done|]. by exists tc'.
    + intros s i [Hh|(_ & (tc & Hin & Hci) & Hall)]; [by apply Hno in Hh|]. destruct (Ha (mkRef ct s i)) as (r' & Hr' & Hne).
      { apply candidates_spec. split; [done|]. by exists tc. }
      apply candidates_spec in Hr' as (Hty & tc' & Hin' & Hci'). destruct (Hall tc' _ _ Hin' Hci') as [Hs Hi]. apply Hne. destruct r'; cbn in *. by subst.
Qed.

Lemma applyCanonicalHint_spec t label ct : ct ≠ "" → identified t label ct (applyCanonicalHint t label ct).
Proof.
  intros Hct. unfold applyCanonicalHint, identified. pose proof (canonicalContentRef_spec (MediaID label) ct) as Hc.
  destruct (canonicalContentRef (MediaID label) ct) as [ref|]; [eexists _, _; split; [done|]; left; by eexists _, _|].
  pose proof (compatibleContentRef_spec t ct Hct) as Ho. destruct (compatibleContentRef t ct) as [ref|]; eexists _, _; (split; [done|]; right; split; [done|]).
  - left. by eexists _, _.
  - by right.
Qed.

(** C25: canonical evidence decides exactly what happens to a torrent.  A name
    that the policy excludes reaches neither the label nor the classifier.
    Otherwise the label of the torrent itself, unless it is to be skipped, with
    a media type that is known: a film or series is passed on identified by it,
    anything else is answered with the type alone.  Without such a label, the
    one that the titles prefer, with a media type that is known: the torrent is
    passed on identified by it.  Without either the torrent is passed on as it
    is.  Identified means that the hint has the type of the label and the
    identity that the label names in a catalogue, or, when it names none, the
    one that the torrent already had for that same type. *)
Theorem canonical_identity namePolicy skip lookup titles t :
  let d := canonicalRunner_Run namePolicy skip lookup titles t in
  let own label ct := skip = false ∧ lookup = inr (Some label) ∧ label_type label ct in
  let titled label ct := (∃ preferred, titles = Some preferred ∧ preferred t = Some label) ∧ label_type label ct in
  if negb (NamePolicy.Eligible (NamePolicy.Evaluate namePolicy (t_InfoHash t) (t_Name t))) then d = Refuse
  else
    (∀ label ct, own label ct →
       if bool_decide (ct ∈ ["movie"; "tv_show"]) then ∃ t', d = Delegate (Some "canonical_constrain") t' ∧ identified t label ct t'
       else d = Answer "canonical_preempt" (mkResult (set_type no_attributes (NewNullContentType ct)) None None))
    ∧ ((∀ label ct, ¬ own label ct) →
       (∀ label ct, titled label ct → ∃ t', d = Delegate (Some "evidence_title") t' ∧ identified t label ct t')
       ∧ ((∀ label ct, ¬ titled label ct) → d = Delegate None t)).
Proof.
  intros d own titled. unfold d, canonicalRunner_Run. destruct (negb _); [done|].
  assert (Hne : ∀ label ct, label_type label ct → ct ≠ "") by (intros label ct; unfold label_type, media_types; rewrite !elem_of_cons, elem_of_nil; naive_solver).
  assert (Htitle : (∀ label ct, titled label ct → ∃ t', withTitleEvidence titles t = Delegate (Some "evidence_title") t' ∧ identified t label ct t')
    ∧ ((∀ label ct, ¬ titled label ct) → withTitleEvidence titles t = Delegate None t)).
  { unfold withTitleEvidence. split.
    - intros label ct [(preferred & -> & Hp) Ht]. cbn. rewrite Hp, (proj2 (canonicalToContentType_spec label ct) Ht).
      eexists. split; [done|]. by apply applyCanonicalHint_spec, (Hne label).
    - intros Hno. destruct titles as [preferred|]; [|done]. cbn. destruct (preferred t) as [label|] eqn:Ep; [|done].
      destruct (canonicalToContentType (MediaType label)) as [ct|] eqn:Ec; [|done]. destruct (Hno label ct). split; [by exists preferred|].
      by apply canonicalToContentType_spec. }
  destruct skip; [split; [by intros label ct [? _]|by intros _]|].
  destruct lookup as [e|[label|]]; [split; [by intros label ct (_ & ? & _)|by intros _]| |split; [by intros label ct (_ & ? & _)|by intros _]].
  destruct (canonicalToContentType (MediaType label)) as [ct|] eqn:Ec.
  - apply canonicalToContentType_spec in Ec. split; [|intros Hno; by destruct (Hno label ct)]. intros label' ct' (_ & [= <-] & Ht').
    assert (ct' = ct) as -> by (apply canonicalToContentType_spec in Ec, Ht'; congruence).
    unfold canonicalNeedsIdentityEnrichment, movie_or_tv. destruct (bool_decide (ct ∈ ["movie"; "tv_show"])) eqn:Em; [|done].
    eexists. split; [done|]. by apply applyCanonicalHint_spec, (Hne label).
  - split; [|by intros _]. intros label' ct (_ & [= <-] & Ht). apply canonicalToContentType_spec in Ht. congruence.
Qed.

End evidence.

(** ** The shipped workflows, [classifier.core.yml] *)

Definition if_else (cond : value) (parts : list (string * value)) : value := VMap [("if_else", VMap (("condition", cond) :: parts))].
Definition expr (s : string) : value := VString s.
Definition all_of (l : list value) : value := VMap [("and", VList l)].
Definition any_of (l : list value) : value := VMap [("or", VList l)].
Definition typed (cond : value) (ct : string) : value :=
  if_else cond [("if_action", VMap [("set_content_type", VString ct)]); ("else_action", VString "unmatched")].
Definition attempt (cond : string) (action : string) : value :=
  if_else (expr cond) [("if_action", VString action); ("else_action", VString "unmatched")].

Definition core_types : list value := [
  typed (any_of [expr "torrent.baseName.matches(keywords.course_exact)";
                 all_of [expr "torrent.baseName.matches(keywords.course_brand)";
                         expr "torrent.baseName.matches(keywords.course_evidence)"]]) "course";
  typed (all_of [expr "torrent.files.map(f, f.extension in extensions.audio ? f.size : - f.size).sum() > 50*mb";
                 any_of [expr "torrent.baseName.matches(keywords.audiobook_strong)";
                         expr "keywordList.audiobook_weak.filter(k, torrent.baseName.matches(k)).size() >= 2";
                         all_of [expr "torrent.files.filter(f, f.extension in extensions.audiobook).size() > 0";
                                 expr "keywordList.audiobook_weak.filter(k, torrent.baseName.matches(k)).size() >= 1"]]]) "audiobook";
  typed (all_of [expr "torrent.files.map(f, f.extension in extensions.comic ? f.size : - f.size).sum() > 0";
                 expr "!torrent.baseName.matches(keywords.document_archive)"]) "comic";
  typed (all_of [expr "torrent.files.map(f, f.extension in extensions.ebook ? f.size : - f.size).sum() > 0";
                 expr "!torrent.baseName.matches(keywords.document_archive)"]) "ebook";
  typed (all_of [expr "!torrent.baseName.matches(keywords.not_music)";
                 any_of [expr "torrent.files.map(f, f.extension in extensions.music ? f.size : - f.size).sum() > 0";
                         all_of [any_of [expr "torrent.baseName.matches(keywords.music_strong)";
                                         expr "keywordList.music_weak.filter(k, torrent.baseName.matches(k)).size() >= 2"];
                                 expr "torrent.files.map(f, f.extension in extensions.audio ? f.size : - f.size).sum() > 0"]]]) "music";
  typed (any_of [expr "torrent.files.map(f, f.extension in extensions.software ? f.size : - f.size).sum() > 0";
                 all_of [expr "torrent.files.map(f, f.extension in extensions.disc_image ? f.size : - f.size).sum() > 0";
                         expr "torrent.baseName.matches(keywords.software)"]]) "software";
  typed (all_of [expr "torrent.files.map(f, (f.extension in extensions.video || f.extension in extensions.image) ? f.size : - f.size).sum() > 0";
                 any_of [expr "([torrent.baseName] + torrent.files.map(f, f.basePath)).join(' ').matches(keywords.xxx_strong)";
                         expr "keywordList.xxx_weak.filter(k, torrent.baseName.matches(k)).size() >= 2"]]) "xxx"].

Definition core_actions : list value := [
  if_else (expr "([torrent.baseName] + torrent.files.map(f, f.basePath)).join(' ').matches(keywords.banned)") [("if_action", VString "delete")];
  if_else (expr "result.contentType == contentType.unknown") [("if_action", VMap [("find_match", VList core_types)])];
  VMap [("find_match", VList [VString "parse_date"])];
  if_else (all_of [expr "torrent.hasHintedContentId && !result.hasAttachedContent";
                   expr "result.contentType in [contentType.movie, contentType.tv_show, contentType.xxx]"])
    [("if_action", VMap [("find_match", VList [VString "attach_local_content_by_id";
                                                attempt "flags.apis_enabled && flags.tmdb_enabled" "attach_tmdb_content_by_id"])])];
  if_else (any_of [expr "result.contentType in [contentType.movie, contentType.tv_show]";
                   expr "torrent.files.map(f, f.extension in extensions.video ? f.size : - f.size).sum() > 100*mb"])
    [("if_action", VMap [("find_match", VList [VString "parse_video_content"])])];
  if_else (expr "!result.hasAttachedContent && result.hasBaseTitle")
    [("if_action", VMap [("find_match", VList [attempt "flags.local_search_enabled" "attach_local_content_by_search";
                                                attempt "flags.apis_enabled && flags.tmdb_enabled" "attach_tmdb_content_by_search"])])];
  run_value "content_type_policy";
  VString "type_fallback";
  run_value "content_type_policy";
  VString "enrich_type_fallback"].

Definition core_policy_condition : value :=
  any_of [expr "result.contentType in flags.delete_content_types"; expr "flags.delete_xxx && result.contentType == contentType.xxx"].

Definition core_workflows : gmap string value :=
  {[ "default" := VList (core_actions ++ [run_value "content_type_policy"]);
     "content_type_policy" := policy_value core_policy_condition ]}.

(** ** A classifier to evaluate with

    Expressions are read by name; the local search knows one film, and the
    video parser finds it. *)

Definition film : Content :=
  mkContent "movie" (runes_of "tmdb") (runes_of "603") (runes_of "the matrix") 1999 (Some "en") no_string [].
Definition parsed_film : ContentAttributes (gset string) :=
  mkAttributes _ no_type (NewNullString (runes_of "the matrix")) (Dates.mkDate 1999 0 0) (Some {["fr"]}) false ∅
    no_type no_type no_type no_type no_type no_string None.

Definition sample_eval (prg : string) (pb : option Classification) (fl : gmap string celValue) : bool :=
  let ct := match pb with Some pb => pb_ContentType pb | None => "unknown" end in
  if bool_decide (prg = "result.contentType in flags.delete_content_types")
  then match fl !! "delete_content_types" with Some (CelTypes l) => bool_decide (ct ∈ l) | _ => false end
  else if bool_decide (prg = "flags.delete_xxx && result.contentType == contentType.xxx")
  then match fl !! "delete_xxx" with Some (CelBool b) => b && bool_decide (ct = "xxx") | _ => false end
  else false.

#[local] Instance sample_services : @Services unit text_cel := {
  ContextEval prg _ pb fl := inr (Some (sample_eval prg pb fl));
  ContentByID _ w := (w, inl ErrUnmatched);
  ContentBySearch _ _ _ w := (w, inl ErrUnmatched);
  ContentCandidatesBySearch _ _ _ _ w := (w, inr [film]);
  tmdbGetTMDBIDByExternalID _ w := (w, inl ErrUnmatched);
  tmdbGetMovieByTMDBID _ w := (w, inl ErrUnmatched);
  tmdbGetTVShowByTMDBID _ w := (w, inl ErrUnmatched);
  tmdbSearchMovie _ _ w := (w, inl ErrUnmatched);
  tmdbSearchTVShow _ _ w := (w, inl ErrUnmatched);
  ParseVideoContentWithOptions _ _ _ := inr parsed_film;
  NormalizeTitleForMatch t := t;
  ctx_Err _ := None }.

(** The prediction is a film. *)
Definition sample_deps : dependencies unit :=
  mkDependencies unit None false 0 false
    (Some (λ r s, (s, (set_attributes r (set_type (Attributes r) (NewNullContentType "movie")), None)))).

Definition sample_flags : gmap string celValue :=
  {[ "delete_content_types" := CelTypes ["software"]; "delete_xxx" := CelBool true; "local_search_enabled" := CelBool true ]}.
Definition sample_source_core : Source :=
  mkSource core_workflows
    {[ "delete_content_types" := FlagTypeContentTypeList; "delete_xxx" := FlagTypeBool; "local_search_enabled" := FlagTypeBool ]}
    {[ "delete_content_types" := VList [VString "software"]; "delete_xxx" := VBool true; "local_search_enabled" := VBool true ]} ∅ ∅.

Definition no_hint : TorrentHint := mkHint "" no_string no_string None ∅ no_type no_type no_type no_type no_type no_string.
Definition sample_torrent : Torrent := mkTorrent [] (runes_of "The.Matrix.1999.1080p") 1000 no_string [] no_hint [].
Definition sample_state : state unit := mkState unit ∅ tt no_type false [] false false.
Definition sample_compiled : Workflow.result (@runner text_cel) :=
  @Compile Regex.ascii_tables text_cel plain_decoder (λ _, inr tt) sample_source_core.
Definition sample_r : @runner text_cel := match sample_compiled with inr r => r | inl _ => mkRunner ∅ ∅ ∅ end.
Definition sample_run : exec (state unit * outcome) :=
  @Run ascii_unicode Regex.ascii_tables unit text_cel sample_services sample_deps
    {| NamePolicy.Han := NamePolicy.mkRangeTable [] []; NamePolicy.Cyrillic := NamePolicy.mkRangeTable [] [] |}
    None sample_r 1 "default" ∅ sample_torrent sample_state.
Definition sample_end : state unit * Result :=
  match sample_run with Done (s, (r, _)) => (s, r) | _ => (sample_state, no_result) end.

(** A film is predicted, enriched from the local catalogue and let through. *)
Example sample_run_film :
  match sample_run with
  | Done (s, (r, None)) => (Val (ContentType (Attributes r)), c_ID <$> Content_ r, entries (heap s) (Tags r), entries (heap s) (Languages (Attributes r)), stages s)
  | _ => ("", None, ∅, ∅, [])
  end = ("movie", Some (runes_of "603"), {["type-local-enriched"]}, {["fr"]}, []).
Proof. vm_compute. reflexivity. Qed.

Definition no_scripts : NamePolicy.ScriptTables :=
  {| NamePolicy.Han := NamePolicy.mkRangeTable [] []; NamePolicy.Cyrillic := NamePolicy.mkRangeTable [] [] |}.
Definition sample_rank (n : string) : nat := if bool_decide (n = "default") then 1%nat else 0%nat.

Lemma sample_compiles : @Compile Regex.ascii_tables text_cel plain_decoder (λ _, inr tt) sample_source_core = inr sample_r.
Proof. vm_compute. reflexivity. Qed.
Lemma sample_ranked n w m : workflows sample_r !! n = Some w → m ∈ calls w → (sample_rank m < sample_rank n)%nat.
Proof.
  assert (bool_decide (map_Forall (λ n w, Forall (λ m, (sample_rank m < sample_rank n)%nat) (calls w)) (workflows sample_r)) = true) as Hb.
  { vm_compute. reflexivity. }
  apply bool_decide_eq_true in Hb. intros Hn Hm. specialize (Hb n w Hn). cbv beta in Hb. by apply (proj1 (Forall_forall _ _) Hb).
Qed.

Lemma classifier_total_witness :
  ∃ s' out, @Run ascii_unicode Regex.ascii_tables unit text_cel sample_services sample_deps no_scripts None sample_r 1 "default" ∅
    sample_torrent sample_state = Done (s', out).
Proof.
  apply (@classifier_total ascii_unicode Regex.ascii_tables no_scripts text_cel plain_decoder plain_decoder_laws unit sample_services sample_deps
    (λ _, inr tt) None sample_source_core sample_r sample_rank).
  - exact sample_compiles.
  - exact sample_ranked.
  - vm_compute. repeat constructor.
Defined.

Lemma classifier_policy_witness :
  ∃ env c cfs, inr tt = inr env :> Workflow.result unit ∧ @cond_of text_cel env core_policy_condition c
    ∧ run_flags sample_r ∅ (map_to_list (flagDefinitions sample_r)) ∅ = inr cfs
    ∧ @check unit text_cel sample_services c
        (mkExecution cfs (workflows sample_r) sample_torrent sample_end.2 (Some (NewClassification (heap sample_end.1) sample_end.2))) = inr false.
Proof.
  apply (@classifier_policy ascii_unicode Regex.ascii_tables no_scripts text_cel plain_decoder plain_decoder_laws unit sample_services sample_deps
    (λ _, inr tt) None sample_source_core sample_r "default" "content_type_policy" core_policy_condition core_actions 1 ∅ sample_torrent sample_state).
  - exact sample_compiles.
  - vm_compute. reflexivity.
  - vm_compute. reflexivity.
  - vm_compute. reflexivity.
Defined.

Definition sample_context : executionContext :=
  mkExecution sample_flags (workflows sample_r) sample_torrent (mkResult no_attributes None (Some 1%positive)) None.
Definition tagged_state : state unit := mkState unit {[ 1%positive := {["old"]} ]} tt no_type false [] false false.

Lemma classifier_adds_witness :
  ∃ s' r, @run ascii_unicode Regex.ascii_tables unit text_cel sample_services sample_deps 1
      (AFindMatch [] [ASequence [AAddTag ["a"]; AUnmatched []]; AAddTag ["b"]]) sample_context tagged_state = Done (s', (r, None))
    ∧ {["old"]} ⊆ entries (heap s') (Tags r) ∧ "a" ∈ entries (heap s') (Tags r).
Proof.
  eexists _, _. split; [vm_compute; reflexivity|].
  pose proof (@classifier_adds ascii_unicode Regex.ascii_tables unit text_cel sample_services sample_deps
    ltac:(intros f [= <-] r s; apply keeps_same; reflexivity) 1
    (AFindMatch [] [ASequence [AAddTag ["a"]; AUnmatched []]; AAddTag ["b"]]) sample_context tagged_state _ _ None ltac:(vm_compute; reflexivity)) as [_ Ha].
  specialize (Ha eq_refl). split; [exact Ha|]. apply (bool_decide_eq_true_1 _). vm_compute. reflexivity.
Defined.

Definition tv_label : CanonicalLabel := mkLabel "tv" (runes_of "tvdb:81189").
Lemma canonical_identity_witness :
  ∃ t', @canonicalRunner_Run ascii_unicode Regex.ascii_tables no_scripts None false (inr (Some tv_label)) None sample_torrent = Delegate (Some "canonical_constrain") t'
    ∧ @identified ascii_unicode sample_torrent tv_label "tv_show" t'.
Proof.
  pose proof (@canonical_identity ascii_unicode Regex.ascii_tables no_scripts None false (inr (Some tv_label)) None sample_torrent) as Hx. cbn zeta in Hx.
  destruct (negb (NamePolicy.Eligible _)) eqn:E in Hx; [by vm_compute in E|].
  apply (proj1 Hx tv_label "tv_show"). split; [done|]. split; [done|]. right; left.
Defined.

Definition predicted : Result := mkResult (set_type no_attributes (NewNullContentType "movie")) None None.
Lemma enrichment_unique_witness :
  ∃ s' r, @EnrichTypeLocally ascii_unicode Regex.ascii_tables unit text_cel sample_services sample_torrent predicted
      (mkEnrichment false 0 true false) sample_state = (s', (r, None))
    ∧ Content_ r = Some film ∧ typeLocalEnrichedTagName ∈ entries (heap s') (Tags r).
Proof.
  destruct (@EnrichTypeLocally ascii_unicode Regex.ascii_tables unit text_cel sample_services sample_torrent predicted
      (mkEnrichment false 0 true false) sample_state) as [s' [r err]] eqn:E.
  destruct (@enrichment_unique ascii_unicode Regex.ascii_tables unit text_cel sample_services sample_torrent predicted
    (mkEnrichment false 0 true false) sample_state s' r err E eq_refl eq_refl eq_refl eq_refl) as [-> H].
  assert (Content_ r = Some film) as Hc by (vm_compute in E; injection E as <- <-; reflexivity).
  rewrite Hc in H. exists s', r. split; [done|]. split; [exact Hc|apply H].
Defined.

End Classifier.
