(* ===== verification/Blocking.v ===== *)
(** * The blocking manager

    [internal/blocking/manager.go] and [factory.go]: the hashes that must not
    be indexed again, in a buffer and in a stable bloom filter that is kept in
    a large object of PostgreSQL; and the filter of
    [internal/cataloguerecovery/store.go] that has the last word when a
    recovery store is attached.

    The mutex makes every operation atomic, so an operation is a function on
    the manager and the database.  The bloom filter (BoomFilters) and the part
    of the recovery store that removes torrents are interfaces; every call of
    the database may fail, and which calls fail is an argument.  A failed
    transaction is rolled back. *)
From S2P Require Import Prelude Protocol.
From stdpp Require Import gmap list strings sets.
From Stdlib Require Import ZArith Lia.

Module Blocking.
Import Protocol.

(** BoomFilters' stable filter: adding evicts at random, so only what was
    added last is sure to be found.  [seed] stands for the random source. *)
Class StableBloom (B : Type) := {
  NewDefaultStableBloomFilter : B;
  SAdd : Z → B → bytes → B;
  STest : B → bytes → bool
}.
Class StableBloomLaws (B : Type) `{!StableBloom B} := {
  STest_SAdd seed b x : STest (SAdd seed b x) x = true
}.

(** The recovery store: whether it is enabled, removing a batch, and the rows
    that its filter reads: the state of a hash and whether its restoration
    holds. *)
Inductive recovery_state := Removed | Restored (valid : bool) | OtherState.
Class Recovery (R : Type) := {
  rec_Enabled : R → bool;
  RemoveBatch : R → list ID → string → string → Z → outcome string R;
  recovery_rows : R → list ID → outcome string (list (ID * recovery_state))
}.

Inductive error := ErrDisabled | ErrAttach | ErrBatchTooLarge | ErrOf (e : string).

(** ** The filter of the recovery store *)

(** The map [kept]: what the bloom filter kept, then the rows in order. *)
Definition kept_map (bloomKept : list ID) (rows : list (ID * recovery_state)) : gmap ID bool :=
  foldl (λ m r, match r.2 with
                | Removed => <[r.1 := false]> m
                | Restored valid => <[r.1 := valid]> m
                | OtherState => m
                end)
    (foldl (λ m h, <[h := true]> m) ∅ bloomKept) rows.

Definition recovery_Filter {R} `{!Recovery R} (s : R) (all bloomKept : list ID) : outcome error (list ID) :=
  if negb (rec_Enabled s) then Err ErrDisabled
  else if (1024 <? Z.of_nat (length all))%Z then Err ErrBatchTooLarge
  else match recovery_rows s all with
       | Ok rows => Ok (filter (λ h, kept_map bloomKept rows !! h = Some true) all)
       | Err e => Err (ErrOf e)
       | Panic => Panic
       end.

Section manager.
Context {B R : Type} `{!StableBloom B} `{!Recovery R}.

(** ** State *)

Record manager := mkManager {
  recovery : option R;
  buffer : gset ID;
  filter_ : option B;
  maxBufferSize : Z;
  lastFlushedAt : Z;
  maxFlushWait : Z
}.

(** The row of [bloom_filters], with its object identifier that may be NULL,
    and the large objects. *)
Record db := mkDb { row : option (option Z); objects : gmap Z B }.

(** Which calls fail, and the identifier of a large object that is created. *)
Record io := mkIo {
  begin_err : option string;
  query_err : option string;
  open_read_err : option string;
  create_result : string + Z;
  open_write_err : option string;
  write_err : option string;
  exec_err : option string;
  commit_err : option string
}.

Definition New : manager := mkManager None ∅ None 1000 0 (5 * 60 * 1000000000).

Definition shouldFlush (now : Z) (m : manager) : bool :=
  (maxBufferSize m <=? Z.of_nat (size (buffer m)))%Z || (maxFlushWait m <=? now - lastFlushedAt m)%Z.

Definition fail_on {A} (e : option string) (k : outcome error A) : outcome error A :=
  match e with Some e => Err (ErrOf e) | None => k end.

(** The filter stored in the database, and the identifier of its object: zero
    when there is none. *)
Definition load_filter (w : io) (d : db) : outcome error (B * Z) :=
  match row d with
  | Some (Some oid) =>
      fail_on (open_read_err w)
        match objects d !! oid with
        | Some bf => Ok (bf, oid)
        | None => Err (ErrOf "failed to read current bloom filter")
        end
  | _ => Ok (NewDefaultStableBloomFilter, 0%Z)
  end.

(** [flush]; [order] is the order in which the buffer is visited, [seeds] the
    random source of each addition. *)
Definition flush (now : Z) (w : io) (order : list ID) (seed : nat → Z) (m : manager) (d : db)
  : outcome error (manager * db) :=
  if bool_decide (0 < size (buffer m)) && bool_decide (recovery m = None) then Err ErrDisabled
  else
    fail_on (begin_err w) (
    fail_on (query_err w) (
    '(bf, oid) ← load_filter w d;
    oid ← (if (oid =? 0)%Z then match create_result w with inl e => Err (ErrOf e) | inr o => Ok o end else Ok oid);
    let bf := foldl (λ bf ih, SAdd (seed ih.1) bf ih.2) bf (imap (λ i h, (i, h)) order) in
    fail_on (open_write_err w) (
    fail_on (write_err w) (
    let d' := mkDb (match row d with Some (Some o) => Some (Some o) | _ => Some (Some oid) end)
                (<[oid := bf]> (objects d)) in
    let saves := match row d with Some (Some _) => false | _ => true end in
    fail_on (if saves : bool then exec_err w else None) (
    fail_on (commit_err w) (
    Ok (mkManager (recovery m) ∅ (Some bf) (maxBufferSize m) now (maxFlushWait m), d'))))))).

(** [Filter] *)
Definition Filter (now : Z) (w : io) (order : list ID) (seed : nat → Z) (hashes : list ID) (m : manager) (d : db)
  : manager * db * outcome error (list ID) :=
  let flushed :=
    if bool_decide (filter_ m = None) || shouldFlush now m then flush now w order seed m d else Ok (m, d) in
  match flushed with
  | Err e => (m, d, Err e)
  | Panic => (m, d, Panic)
  | Ok (m, d) =>
      match filter_ m with
      | None => (m, d, Panic)
      | Some bf =>
          let filtered := filter (λ h, h ∉ buffer m ∧ STest bf h = false) hashes in
          match recovery m with
          | None => (m, d, Ok filtered)
          | Some r => (m, d, recovery_Filter r hashes filtered)
          end
      end
  end.

Definition with_buffer (m : manager) (r : option R) (b : gset ID) : manager :=
  mkManager r b (filter_ m) (maxBufferSize m) (lastFlushedAt m) (maxFlushWait m).

(** [Block] *)
Definition Block (now : Z) (w : io) (order : list ID) (seed : nat → Z) (hashes : list ID) (mechanism reason : string)
    (doFlush : bool) (m : manager) (d : db) : manager * db * outcome error unit :=
  let removed :=
    match hashes, recovery m with
    | [], r => Ok r
    | _, None => Err ErrDisabled
    | _, Some r => match RemoveBatch r hashes mechanism reason now with
                   | Ok r => Ok (Some r)
                   | Err e => Err (ErrOf e)
                   | Panic => Panic
                   end
    end in
  match removed with
  | Ok r =>
      let m := with_buffer m r (buffer m ∪ list_to_set hashes) in
      if doFlush || shouldFlush now m then
        match flush now w order seed m d with
        | Ok (m, d) => (m, d, Ok ())
        | Err e => (m, d, Err e)
        | Panic => (m, d, Panic)
        end
      else (m, d, Ok ())
  | Err e => (m, d, Err e)
  | Panic => (m, d, Panic)
  end.

(** [Flush] *)
Definition Flush (now : Z) (w : io) (order : list ID) (seed : nat → Z) (m : manager) (d : db)
  : manager * db * outcome error unit :=
  if bool_decide (size (buffer m) = 0) then (m, d, Ok ())
  else match flush now w order seed m d with
       | Ok (m, d) => (m, d, Ok ())
       | Err e => (m, d, Err e)
       | Panic => (m, d, Panic)
       end.

(** [WithRecovery]; [same_pool] says whether the store uses the pool of the
    manager. *)
Definition WithRecovery (m : manager) (r : option R) (same_pool : bool) : outcome error manager :=
  match r with
  | None => Err ErrAttach
  | Some r =>
      if negb (rec_Enabled r) || negb same_pool then Err ErrAttach
      else if bool_decide (filter_ m ≠ None) || bool_decide (size (buffer m) ≠ 0) || bool_decide (is_Some (recovery m))
      then Err ErrAttach
      else Ok (with_buffer m (Some r) (buffer m))
  end.

(** ** Without a recovery store *)

(** The filter that the database holds. *)
Definition stored (d : db) (b : B) : Prop :=
  match row d with
  | Some (Some oid) => oid ≠ 0%Z ∧ objects d !! oid = Some b
  | _ => b = NewDefaultStableBloomFilter
  end.

Definition io_ok (w : io) : Prop := ∀ o, create_result w = inr o → o ≠ 0%Z.

Lemma fail_on_Ok {A} e (k : outcome error A) x : fail_on e k = Ok x → k = Ok x.
Proof. by destruct e. Qed.

(** A flush of an empty buffer keeps the filter. *)
Lemma flush_empty now w seed m d m' d' b :
  io_ok w → stored d b → buffer m = ∅ → flush now w [] seed m d = Ok (m', d') →
  stored d' b ∧ filter_ m' = Some b ∧ buffer m' = ∅ ∧ recovery m' = recovery m.
Proof.
  intros Hw Hs Hb. unfold flush. rewrite Hb, size_empty.
  rewrite bool_decide_eq_false_2 by lia. cbn [andb]. intros Hf. do 2 apply fail_on_Ok in Hf.
  apply outcome_bind_Ok in Hf as ([bf oid] & Hload & Hf). apply outcome_bind_Ok in Hf as (oid' & Hoid & Hf).
  cbn [imap foldl] in Hf. do 4 apply fail_on_Ok in Hf. simplify_eq. cbn [filter_ buffer recovery].
  assert (bf = b ∧ match row d with Some (Some o) => oid = o | _ => oid = 0%Z end) as [-> Ho].
  { unfold load_filter, stored in *. destruct (row d) as [[o|]|]; simplify_eq; try done.
    apply fail_on_Ok in Hload. destruct Hs as [_ Hs]. rewrite Hs in Hload. by simplify_eq. }
  split_and!; [|done|done|done]. unfold stored in *. cbn [row objects].
  assert (oid' ≠ 0%Z ∧ (oid = oid' ∨ oid = 0%Z)) as [Hne Heq].
  { destruct (Z.eqb_spec oid 0) as [-> | ?]; [|by simplify_eq; auto].
    destruct (create_result w) as [e|o] eqn:Hc; simplify_eq. split; [by apply Hw|auto]. }
  destruct (row d) as [[o|]|]; [|split; [done|apply lookup_insert_eq]..].
  destruct Hs as [Hne0 _]. subst oid. split; [done|]. destruct Heq as [-> | ?]; [apply lookup_insert_eq|done].
Qed.

Inductive op :=
| OFilter (hashes : list ID)
| OBlock (hashes : list ID) (mechanism reason : string) (doFlush : bool)
| OFlush.

Definition exec (now : Z) (w : io) (order : list ID) (seed : nat → Z) (o : op) (m : manager) (d : db) : manager * db :=
  match o with
  | OFilter hs => (Filter now w order seed hs m d).1
  | OBlock hs mech reason fl => (Block now w order seed hs mech reason fl m d).1
  | OFlush => (Flush now w order seed m d).1
  end.

(** The states that operations lead to, whatever fails. *)
Inductive reaches (d0 : db) : manager → db → Prop :=
| reaches_new : reaches d0 New d0
| reaches_step m d now w order seed o :
    reaches d0 m d → io_ok w → order ≡ₚ elements (buffer m) →
    reaches d0 (exec now w order seed o m d).1 (exec now w order seed o m d).2.

Record idle (b : B) (m : manager) (d : db) : Prop := {
  idle_recovery : recovery m = None;
  idle_buffer : buffer m = ∅;
  idle_filter : filter_ m = None ∨ filter_ m = Some b;
  idle_stored : stored d b
}.

Lemma idle_flush b now w seed m d m' d' :
  io_ok w → idle b m d → flush now w [] seed m d = Ok (m', d') → idle b m' d' ∧ filter_ m' = Some b.
Proof.
  intros Hw [Hr Hb Hf Hs] Hfl. destruct (flush_empty _ _ _ _ _ _ _ _ Hw Hs Hb Hfl) as (Hs' & Hf' & Hb' & Hr').
  split; [|done]. split; [congruence|done|by right|done].
Qed.

Lemma idle_Filter b now w seed hs m d :
  io_ok w → idle b m d →
  let '(m', d', res) := Filter now w [] seed hs m d in
  idle b m' d' ∧ ∀ l, res = Ok l → l = filter (λ h, STest b h = false) hs.
Proof.
  intros Hw Hi. unfold Filter.
  assert (∀ m' d', idle b m' d' → filter_ m' = Some b →
    let '(m'', d'', res) := match filter_ m' with
      | None => (m', d', Panic)
      | Some bf =>
          let filtered := filter (λ h, h ∉ buffer m' ∧ STest bf h = false) hs in
          match recovery m' with None => (m', d', Ok filtered) | Some r => (m', d', recovery_Filter r hs filtered) end
      end in idle b m'' d'' ∧ ∀ l, res = Ok l → l = filter (λ h, STest b h = false) hs) as Hgo.
  { intros m' d' Hi' Hf. rewrite Hf, (idle_recovery _ _ _ Hi'). split; [done|]. intros l [= <-].
    rewrite (idle_buffer _ _ _ Hi'). apply list_filter_iff. set_solver. }
  destruct (bool_decide (filter_ m = None) || shouldFlush now m) eqn:Hn.
  - destruct (flush now w [] seed m d) as [[m' d']|e|] eqn:Hfl; [|done|done].
    destruct (idle_flush _ _ _ _ _ _ _ _ Hw Hi Hfl) as [Hi' Hf']. by apply Hgo.
  - apply orb_false_iff in Hn as [Hn _]. apply bool_decide_eq_false_1 in Hn.
    destruct (idle_filter _ _ _ Hi); [done|]. by apply Hgo.
Qed.

Lemma idle_Block b now w seed hs mech reason fl m d :
  io_ok w → idle b m d →
  let '(m', d', err) := Block now w [] seed hs mech reason fl m d in
  idle b m' d' ∧ (hs ≠ [] → m' = m ∧ d' = d ∧ err = Err ErrDisabled).
Proof.
  intros Hw Hi. unfold Block. destruct hs as [|h hs].
  - rewrite (idle_recovery _ _ _ Hi), (idle_buffer _ _ _ Hi). cbn [list_to_set]. rewrite union_empty_r_L.
    assert (idle b (with_buffer m None ∅) d) as Hi' by (by destruct Hi; split).
    destruct (fl || shouldFlush now (with_buffer m None ∅)); [|by split].
    destruct (flush _ _ _ _ _ _) as [[m' d']|e|] eqn:Hfl; [|by split|by split].
    destruct (idle_flush _ _ _ _ _ _ _ _ Hw Hi' Hfl). by split.
  - by rewrite (idle_recovery _ _ _ Hi).
Qed.

Lemma idle_reaches d0 b m d : stored d0 b → reaches d0 m d → idle b m d.
Proof.
  intros Hs. induction 1 as [|m d now w order seed o Hr IH Hw Ho]; [split; try done; by left|].
  rewrite (idle_buffer _ _ _ IH), elements_empty in Ho. apply Permutation_nil_r in Ho as ->.
  destruct o as [hs|hs mech reason fl|]; cbn [exec].
  - pose proof (idle_Filter b now w seed hs m d Hw IH) as Hf. destruct (Filter _ _ _ _ _ _ _) as [[m' d'] res]. by destruct Hf.
  - pose proof (idle_Block b now w seed hs mech reason fl m d Hw IH) as Hf.
    destruct (Block _ _ _ _ _ _ _ _ _ _) as [[m' d'] res]. by destruct Hf.
  - unfold Flush. rewrite (idle_buffer _ _ _ IH), size_empty. done.
Qed.

(** The manager that the factory builds has no recovery store, and then no operation ever blocks anything: after any sequence of operations, with any failures of the database, Block of a non-empty batch answers ErrDisabled and changes nothing, and every Filter that succeeds returns exactly the hashes that the filter stored at the start did not hold. *)
Theorem blocking_without_recovery d0 b m d :
  stored d0 b → reaches d0 m d →
  buffer m = ∅
  ∧ (∀ now w seed hs mech reason fl, io_ok w → hs ≠ [] →
       Block now w [] seed hs mech reason fl m d = (m, d, Err ErrDisabled))
  ∧ (∀ now w seed hs m' d' l, io_ok w → Filter now w [] seed hs m d = (m', d', Ok l) →
       l = filter (λ h, STest b h = false) hs).
Proof.
  intros Hs Hr. pose proof (idle_reaches d0 b m d Hs Hr) as Hi. split_and!.
  - apply (idle_buffer _ _ _ Hi).
  - intros now w seed hs mech reason fl Hw Hne. pose proof (idle_Block b now w seed hs mech reason fl m d Hw Hi) as Hb.
    destruct (Block _ _ _ _ _ _ _ _ _ _) as [[m' d'] err]. destruct Hb as [_ Hb]. by destruct (Hb Hne) as (-> & -> & ->).
  - intros now w seed hs m' d' l Hw Hf. pose proof (idle_Filter b now w seed hs m d Hw Hi) as Hf'.
    rewrite Hf in Hf'. by apply Hf'.
Qed.

(** ** With a recovery store *)

Lemma kept_map_true bloomKept rows h :
  kept_map bloomKept rows !! h = Some true → h ∈ bloomKept ∨ (h, Restored true) ∈ rows.
Proof.
  unfold kept_map. induction rows as [|[h' st] rows IH] using rev_ind.
  - cbn [foldl]. intros Hk. left. revert Hk. induction bloomKept as [|x l IH] using rev_ind.
    + cbn. by rewrite lookup_empty.
    + rewrite foldl_app. cbn. destruct (decide (x = h)) as [-> | Hne]; [set_solver|].
      rewrite lookup_insert_ne by done. set_solver.
  - rewrite foldl_app. cbn [foldl fst snd]. destruct st as [|[]|].
    + destruct (decide (h' = h)) as [-> | Hne]; [by rewrite lookup_insert_eq|].
      rewrite lookup_insert_ne by done. set_solver.
    + destruct (decide (h' = h)) as [-> | Hne]; [set_solver|]. rewrite lookup_insert_ne by done. set_solver.
    + destruct (decide (h' = h)) as [-> | Hne]; [by rewrite lookup_insert_eq|].
      rewrite lookup_insert_ne by done. set_solver.
    + set_solver.
Qed.

(** With a recovery store, a hash that Block accepted is not returned by the filters that follow as long as it is in the buffer, unless the store says that it was validly restored; and blocking keeps every hash that was in the buffer before. *)
Theorem blocking_buffer_excludes now w order seed hs mech reason m d m1 d1 h now' w' order' seed' hs' l r rows :
  Block now w order seed hs mech reason false m d = (m1, d1, Ok ()) →
  h ∈ hs ∨ h ∈ buffer m → buffer m1 ≠ ∅ → filter_ m1 ≠ None → shouldFlush now' m1 = false →
  recovery m1 = Some r → recovery_rows r hs' = Ok rows → (h, Restored true) ∉ rows →
  (Filter now' w' order' seed' hs' m1 d1).2 = Ok l → h ∉ l.
Proof.
  intros Hb Hin Hne Hf Hnf' Hr Hrows Hrow Hl.
  assert (h ∈ buffer m1) as Hbuf.
  { unfold Block in Hb. destruct (match hs with [] => _ | _ => _ end) as [r'|e|]; [|done|done].
    cbn [orb] in Hb. destruct (shouldFlush now _) eqn:Hs'.
    - destruct (flush _ _ _ _ _ _) as [[m' d']|e|] eqn:Hfl; simplify_eq.
      exfalso. apply Hne. unfold flush in Hfl. case_match; [done|]. do 2 apply fail_on_Ok in Hfl.
      apply outcome_bind_Ok in Hfl as ([bf oid] & _ & Hfl). apply outcome_bind_Ok in Hfl as (oid' & _ & Hfl).
      do 4 apply fail_on_Ok in Hfl. by simplify_eq.
    - simplify_eq. cbn [with_buffer buffer]. set_solver. }
  unfold Filter in Hl. rewrite (bool_decide_eq_false_2 (filter_ m1 = None)), Hnf' in Hl by done. cbn [orb] in Hl.
  destruct (filter_ m1) as [bf|]; [|done]. rewrite Hr in Hl. cbn [snd] in Hl. unfold recovery_Filter in Hl.
  repeat case_match; simplify_eq. intros [Hk _]%list_elem_of_filter.
  apply kept_map_true in Hk as [[Hk _]%list_elem_of_filter | Hk]; [by destruct Hk|done].
Qed.

End manager.
Arguments manager : clear implicits.
Arguments db : clear implicits.

(** ** Witnesses *)

(** A filter of at most two cells: the oldest entry is evicted. *)
Definition two_cells : StableBloom (list bytes) := {|
  NewDefaultStableBloomFilter := [];
  SAdd _ b x := take 2 (x :: b);
  STest b x := bool_decide (x ∈ b)
|}.

Lemma two_cells_laws : @StableBloomLaws (list bytes) two_cells.
Proof. split. intros seed b x. cbn. apply bool_decide_eq_true_2. left. Qed.

(** A recovery store as the list of its rows, last first. *)
Definition rows_store : Recovery (list (ID * recovery_state)) := {|
  rec_Enabled _ := true;
  RemoveBatch s hs _ _ _ := Ok (((λ h, (h, Removed)) <$> hs) ++ s);
  recovery_rows s hs := Ok (filter (λ r, r.1 ∈ hs) s)
|}.

#[local] Existing Instances two_cells two_cells_laws rows_store.

Definition ex_hash (n : Z) : ID := n :: replicate 19 0%Z.
Definition ex_io : io := mkIo None None None (inr 7%Z) None None None None.
Definition ex_db : db (list bytes) := mkDb (Some (Some 5%Z)) {[ 5%Z := [ex_hash 1] ]}.

Abbreviation ex_manager := (manager (list bytes) (list (ID * recovery_state))).

Lemma blocking_without_recovery_witness :
  let m : ex_manager := (exec 0 ex_io [] (λ _, 0%Z) (OBlock [ex_hash 2] "csam" "csam_crawler" false) New ex_db).1 in
  Block 1 ex_io [] (λ _, 0%Z) [ex_hash 2] "csam" "csam_crawler" false m ex_db = (m, ex_db, Err ErrDisabled)
  ∧ (Filter 2 ex_io [] (λ _, 0%Z) [ex_hash 1; ex_hash 2] m ex_db).2 = Ok [ex_hash 2].
Proof.
  intros m. assert (io_ok ex_io) as Hw by (intros o [= <-]; done).
  assert (reaches ex_db m ex_db) as Hr by (refine (reaches_step _ _ _ 0 ex_io [] _ _ (reaches_new _) Hw _); done).
  destruct (blocking_without_recovery ex_db [ex_hash 1] m ex_db) as (_ & Hb & _); [by vm_compute|exact Hr|].
  split; [by apply Hb|by vm_compute].
Defined.

Definition ex_recovered : ex_manager :=
  match WithRecovery (New : ex_manager) (Some []) true with Ok m => m | _ => New end.
Definition ex_ready : ex_manager := (exec 0 ex_io [] (λ _, 0%Z) (OFilter []) ex_recovered ex_db).1.
Definition ex_blocked : ex_manager :=
  (exec 1 ex_io [] (λ _, 0%Z) (OBlock [ex_hash 2] "operator" "manual" false) ex_ready ex_db).1.

Lemma blocking_buffer_excludes_witness :
  (Filter 2 ex_io [] (λ _, 0%Z) [ex_hash 2; ex_hash 3] ex_blocked ex_db).2 = Ok [ex_hash 3]
  ∧ ex_hash 2 ∉ [ex_hash 3].
Proof.
  split; [by vm_compute|].
  apply (blocking_buffer_excludes 1 ex_io [] (λ _, 0%Z) [ex_hash 2] "operator" "manual" ex_ready ex_db ex_blocked ex_db
           (ex_hash 2) 2 ex_io [] (λ _, 0%Z) [ex_hash 2; ex_hash 3] [ex_hash 3] [(ex_hash 2, Removed)] [(ex_hash 2, Removed)]);
    try (by vm_compute).
  - left. left.
  - intros ?%list_elem_of_singleton. done.
Defined.

End Blocking.
