(* ===== verification/ContentFilter.v ===== *)
(** * The content filter

    [internal/classifier/contentfilter]: the operator's rules on what the
    catalogue keeps.  A ladder of checks on extension, content type, title and
    languages gives the first reason to drop a torrent; the filter drops it only
    when it is enabled and enforcing.

    Titles, extensions and configured words are lists of runes; scripts are
    tables of [unicode], by name. *)
From S2P Require Import Prelude Protocol Lexer Metainfo Regex Anime NamePolicy.
From stdpp Require Import list strings sets.
From Stdlib Require Import ZArith Lia Sorted.

(** [unicode.SimpleFold]: the next rune of the orbit of runes that are equal up
    to case. *)
Class CaseFolding := { SimpleFold : Z → Z }.

Module ContentFilter.
Import Protocol Regex Anime.

(** ** Comparison up to case *)

(** Orbits of [SimpleFold] have at most four members, so three steps reach
    every other member. *)
Section fold.
Context `{CaseFolding}.
Fixpoint fold_reaches (fuel : nat) (sr tr r : Z) : bool :=
  match fuel with
  | O => (r =? tr)%Z
  | S fuel => if (negb (r =? sr) && (r <? tr))%Z then fold_reaches fuel sr tr (SimpleFold r) else (r =? tr)%Z
  end.
Definition rune_fold_eq (a b : Z) : bool :=
  if (a =? b)%Z then true
  else
    let sr := Z.min a b in let tr := Z.max a b in
    if (tr <? 128)%Z then ((65 <=? sr) && (sr <=? 90) && (tr =? sr + 32))%Z
    else fold_reaches 4 sr tr (SimpleFold sr).
(** [strings.EqualFold] *)
Fixpoint EqualFold (s t : runes) : bool :=
  match s, t with
  | [], [] => true
  | a :: s, b :: t => rune_fold_eq a b && EqualFold s t
  | _, _ => false
  end.
End fold.

(** ** Configuration and decisions *)

Record Config := mkConfig {
  Enabled : bool;
  Enforce : bool;
  RequireEnglishLanguage : bool;
  DropNonLatinScript : bool;
  DropLossyAudioOnly : bool;
  DropNSFW : bool;
  DropForeignAudio : bool;
  AnimeAware : bool;
  BlockedExtensions : list runes;
  BlockedContentTypes : list runes;
  AllowedLanguages : list runes
}.

Definition NewDefaultConfig : Config :=
  mkConfig false false true true true true true true
    (runes_of <$> ["iso"; "zip"; "rar"; "exe"; "dmg"; "msi"; "pkg"; "deb"]%string) [] [runes_of "en"].

Inductive DropReason :=
| ReasonNone | ReasonBlockedExtension | ReasonBlockedContentType | ReasonNonEnglishLanguage
| ReasonNonLatinScript | ReasonMP3Only | ReasonNSFWKeyword | ReasonNSFWContentType
| ReasonLLMNonEnglish | ReasonForeignAudio.
#[export] Instance DropReason_eq_dec : EqDecision DropReason.
Proof. solve_decision. Defined.

Definition DropReason_String (r : DropReason) : string :=
  match r with
  | ReasonBlockedExtension => "blocked_extension"
  | ReasonBlockedContentType => "blocked_content_type"
  | ReasonNonEnglishLanguage => "non_english_language"
  | ReasonNonLatinScript => "non_latin_script"
  | ReasonMP3Only => "mp3_only"
  | ReasonNSFWKeyword => "nsfw_keyword"
  | ReasonNSFWContentType => "nsfw_content_type"
  | ReasonLLMNonEnglish => "llm_non_english"
  | ReasonForeignAudio => "foreign_audio"
  | ReasonNone => "none"
  end.

Record Decision_ := mkDecision {
  Allow : bool; WouldDrop : bool; WouldReview : bool; Review : bool; Defer : bool;
  Reason : DropReason;
  BlockedExt : runes
}.

Record Input := mkInput {
  Private : bool;
  Title : runes;
  PrimaryExtension : runes;
  AllExtensions : list runes;
  ContentType : runes;
  Languages : list runes
}.

(** ** Titles that name adult content *)

Definition nsfwKeywords : list string :=
  ["xxx"; "porn"; "hentai"; "jav"; "camrip-xxx"; "brazzers"; "naughtyamerica"; "realitykings"; "bangbros";
   "onlyfans"; "manyvids"; "clips4sale"; "javhd"; "uncen"; "uncensored.adult"; "adult.movie"; "18+"; "r18";
   "erotic"; "nubilefilms"; "vixen"; "blacked"; "tushy"; "deeper"; "slayed"; "milfy"].

(** The last byte of a keyword. *)
Definition isWordEnd (k : runes) : bool :=
  match last k with
  | Some c => ascii_lower c || ascii_upper c || ascii_digit c || (c =? 95)%Z
  | None => false
  end.
Definition keyword_part (k : string) : runes :=
  runes_of "\b" ++ NamePolicy.QuoteMeta (runes_of k)
  ++ (if isWordEnd (runes_of k) then runes_of "\b" else runes_of "(?:$|[^A-Za-z0-9])").
Definition nsfwTitlePattern : regexp :=
  default never (Compile (runes_of "(?i)(?:" ++ NamePolicy.join (runes_of "|") (keyword_part <$> nsfwKeywords) ++ runes_of ")")).

Definition nsfwContentTypeSet : list runes := runes_of <$> ["xxx"; "adult"; "porn"]%string.
Definition nonMP3MusicExtensions : list runes :=
  runes_of <$> ["flac"; "alac"; "m4a"; "wav"; "ape"; "opus"; "ogg"; "wv"; "dsf"]%string.

Section filter.
Context `{Unicode} `{UnicodeTables} `{CaseFolding}.

Definition titleMatchesNSFW (title : runes) : bool := MatchString nsfwTitlePattern title.

Definition isNSFWContentType (ct : runes) : bool :=
  bool_decide ((ToLower <$> TrimSpace ct) ∈ nsfwContentTypeSet).

Definition isMP3 (ext : runes) : bool := EqualFold ext (runes_of "mp3").

(** The loop over the extensions, with its two flags. *)
Fixpoint mp3_loop (hasAnyMP3 hasOtherAudio : bool) (exts : list runes) : bool * bool :=
  match exts with
  | [] => (hasAnyMP3, hasOtherAudio)
  | e :: exts =>
      if isMP3 e then mp3_loop true hasOtherAudio exts
      else if bool_decide (e ∈ nonMP3MusicExtensions) then mp3_loop hasAnyMP3 true exts
      else mp3_loop hasAnyMP3 hasOtherAudio exts
  end.
Definition isPureMP3 (exts : list runes) : bool :=
  if decide (exts = []) then false
  else let '(hasAnyMP3, hasOtherAudio) := mp3_loop false false exts in hasAnyMP3 && negb hasOtherAudio.

Definition extInBlocklist (ext : runes) (blocked : list runes) : bool :=
  let low := ToLower <$> TrimSpace ext in existsb (λ b, EqualFold b low) blocked.

Definition anyAllowedLanguage (langs allowed : list runes) : bool :=
  if decide (allowed = []) then false
  else existsb (λ lang, let l := ToLower <$> TrimSpace lang in existsb (λ a, EqualFold a l) allowed) langs.

(** ** Scripts *)

Definition nonLatinScripts : list string :=
  ["Cyrillic"; "Han"; "Hiragana"; "Katakana"; "Hangul"; "Arabic"; "Hebrew"; "Devanagari"; "Bengali"; "Tamil"; "Thai"].
Definition nonLatinScriptChar (r : Z) : bool := existsb (λ t, table_has t r) nonLatinScripts.
Definition titleContainsNonLatinScript (s : runes) : bool := existsb nonLatinScriptChar s.
Definition IsJapaneseScriptChar (r : Z) : bool := table_has "Han" r || table_has "Hiragana" r || table_has "Katakana" r.
Definition IsKanaChar (r : Z) : bool := table_has "Hiragana" r || table_has "Katakana" r.
Definition ContainsJapaneseScript (s : runes) : bool := existsb IsJapaneseScriptChar s.
Definition ContainsKana (s : runes) : bool := existsb IsKanaChar s.

(** ** The ladder *)

Definition evaluate (c : Config) (i : Input) : DropReason * runes :=
  let detectAnime := Detect (Title i) in
  if nonempty (PrimaryExtension i) && extInBlocklist (PrimaryExtension i) (BlockedExtensions c)
  then (ReasonBlockedExtension, ToLower <$> TrimSpace (PrimaryExtension i))
  else if nonempty (ContentType i)
          && existsb (λ b, EqualFold b (ToLower <$> TrimSpace (ContentType i))) (BlockedContentTypes c)
  then (ReasonBlockedContentType, [])
  else if DropNSFW c && isNSFWContentType (ContentType i) then (ReasonNSFWContentType, [])
  else if DropNSFW c && titleMatchesNSFW (Title i) && negb (AnimeAware c && IsKnownFansub detectAnime)
  then (ReasonNSFWKeyword, [])
  else if DropNonLatinScript c && titleContainsNonLatinScript (Title i) && negb (AnimeAware c && IsAnime detectAnime)
  then (ReasonNonLatinScript, [])
  else if DropForeignAudio c && ForeignAudioOnly (Title i) then (ReasonForeignAudio, [])
  else if RequireEnglishLanguage c && bool_decide (Languages i ≠ [])
          && negb (anyAllowedLanguage (Languages i) (AllowedLanguages c))
          && negb (AnimeAware c && IsAnime detectAnime)
  then (ReasonNonEnglishLanguage, [])
  else if DropLossyAudioOnly c && EqualFold (ContentType i) (runes_of "music") && isPureMP3 (AllExtensions i)
  then (ReasonMP3Only, [])
  else (ReasonNone, []).

Definition DecideDeterministic (c : Config) (i : Input) : Decision_ :=
  if negb (Enabled c) then mkDecision true false false false false ReasonNone []
  else
    let '(reason, ext) := evaluate c i in
    mkDecision (bool_decide (reason = ReasonNone) || negb (Enforce c)) (bool_decide (reason ≠ ReasonNone))
      false false false reason ext.
Definition Decide (c : Config) (i : Input) : Decision_ := DecideDeterministic c i.

End filter.

(** ** The adult keywords, as words of the title *)

Section keywords.
Context `{UnicodeTables}.

(** [r] is [c] up to case. *)
Definition folds (c r : Z) : Prop := r = c ∨ c ∈ orbit r.
(** One of two neighbours is a word character and the other is not. *)
Definition edge (a b : option Z) : Prop := xorb (word_at a) (word_at b) = true.
Definition alphanumeric (c : Z) : bool := class_has true false [Range 65 90; Range 97 122; Range 48 57] c.

(** The keyword [k] stands in a title. *)
Definition names_keyword (k title : runes) : Prop :=
  ∃ pre w post, title = pre ++ w ++ post ∧ Forall2 folds k w ∧ edge (last pre) (head (w ++ post))
    ∧ if isWordEnd k then edge (last (pre ++ w)) (head post)
      else match post with [] => True | c :: _ => alphanumeric c = false end.

Definition keyword_end (k : runes) : regex :=
  if isWordEnd k then WordBoundary true
  else Alt (Seq Empty EndText) (Seq Empty (Class_ true true [Range 65 90; Range 97 122; Range 48 57])).
Definition keyword_regex (k : runes) : regex :=
  Seq (foldl (λ a c, Seq a (literal true c)) (Seq Empty (WordBoundary true)) k) (keyword_end k).
Fixpoint alternatives (l : list regex) : regex :=
  match l with [] => Class_ false false [] | [r] => r | r :: l => Alt r (alternatives l) end.

(** What the pattern of the source compiles to. *)
Lemma nsfw_prog : prog nsfwTitlePattern = Seq Empty (alternatives (keyword_regex ∘ runes_of <$> nsfwKeywords)).
Proof. by vm_compute. Qed.

Lemma literal_has c r : class_has true false [Range c c] r = true ↔ folds c r.
Proof.
  unfold class_has, folds, item_has, Metainfo.in_range. cbn [existsb]. rewrite xorb_false_l, orb_true_iff, andb_true_l, existsb_exists.
  setoid_rewrite orb_false_r. setoid_rewrite andb_true_iff. setoid_rewrite Z.leb_le.
  setoid_rewrite <-list_elem_of_In. split.
  - intros [? | (x & Hx & ?)]; [left; lia|right]. by replace c with x by lia.
  - intros [-> | Hc]; [left; lia|right]. exists c. split; [done|lia].
Qed.

Lemma matches_literals a k p q :
  matches (foldl (λ a c, Seq a (literal true c)) a k) p q
  ↔ ∃ p1 u, matches a p p1 ∧ reads p1 u q ∧ Forall2 folds k u.
Proof.
  revert q. induction k as [|c k IH] using rev_ind; intros q.
  - simpl. split; [intros Hm; exists q, []; split_and!; [done|constructor..]|].
    intros (p1 & u & Hm & Hr & Hf). inversion Hf; subst. by inversion Hr; subst.
  - rewrite foldl_snoc, matches_seq. setoid_rewrite IH. unfold literal. setoid_rewrite matches_class.
    setoid_rewrite literal_has. split.
    + intros (q1 & (p1 & u & Hm & Hr & Hf) & r & Hr' & Hc). exists p1, (u ++ [r]).
      rewrite reads_app. split_and!; [done|by eauto|]. by apply Forall2_app; [|constructor].
    + intros (p1 & u & Hm & Hr & Hf). apply Forall2_app_inv_l in Hf as (u1 & u2 & Hf1 & Hf2 & ->).
      apply Forall2_cons_inv_l in Hf2 as (r & ? & Hc & Hn & ->). apply Forall2_nil_inv_l in Hn as ->.
      apply reads_app in Hr as (q1 & Hr1 & Hr2). eauto 10.
Qed.

Lemma matches_keyword_end k p q :
  matches (keyword_end k) p q →
  if isWordEnd k then edge (before p) (head (left p))
  else match left p with [] => True | c :: _ => alphanumeric c = false end.
Proof.
  unfold keyword_end. destruct (isWordEnd k); [by inversion 1|].
  rewrite matches_alt, !matches_seq. intros [(? & ->%matches_empty & Hm) | (? & ->%matches_empty & Hm)].
  - inversion Hm as [| | | | | | | | | |? Hl|]; subst. by rewrite Hl.
  - inversion Hm as [|? ? ? ? c rest Hl Hc| | | | | | | | | |]; subst. rewrite Hl.
    unfold alphanumeric. unfold class_has in *. by destruct (_ || _).
Qed.

Lemma keyword_end_matches k p :
  (if isWordEnd k then edge (before p) (head (left p))
   else match left p with [] => True | c :: _ => alphanumeric c = false end) →
  ∃ q, matches (keyword_end k) p q.
Proof.
  unfold keyword_end. destruct (isWordEnd k); [intros He; exists p; by constructor|].
  destruct (left p) as [|c rest] eqn:Hl; intros Hc; eexists; rewrite matches_alt, !matches_seq.
  - left. exists p. split; by constructor.
  - right. exists p. split; [constructor|]. eapply m_class; [done|].
    unfold alphanumeric, class_has in *. by destruct (_ || _).
Qed.

Lemma start_before s u p : reads (start s) u p → before p = last u ∧ s = u ++ left p.
Proof.
  intros Hr. split; [rewrite (reads_before _ _ _ Hr); by destruct (last u)|by apply reads_left in Hr].
Qed.

Lemma matches_keyword k title :
  (∃ u p q, reads (start title) u p ∧ matches (keyword_regex k) p q) ↔ names_keyword k title.
Proof.
  unfold keyword_regex, names_keyword. split.
  - intros (u & p & q & Hu & (q1 & (p1 & w & Hb & Hw & Hf)%matches_literals & He)%matches_seq).
    apply matches_seq in Hb as (? & ->%matches_empty & Hb). inversion Hb as [| | | | | | | | | | |? ? Hbo]; subst.
    exists u, w, (left q1).
    destruct (start_before _ _ _ Hu) as [Hp1 ->]. rewrite (reads_left _ _ _ Hw).
    assert (reads (start (u ++ left p1)) (u ++ w) q1) as Huw by (apply reads_app; eauto).
    rewrite <-(proj1 (start_before _ _ _ Huw)), <-Hp1, <-(reads_left _ _ _ Hw).
    split_and!; [done..|by apply (matches_keyword_end k q1 q)].
  - intros (u & w & post & -> & Hf & Hs & He).
    destruct (reads_exists (start (u ++ w ++ post)) u (w ++ post) eq_refl) as (p & Hu & Hl).
    destruct (reads_exists p w post Hl) as (q1 & Hw & Hl1).
    assert (reads (start (u ++ w ++ post)) (u ++ w) q1) as Huw by (apply reads_app; eauto).
    destruct (keyword_end_matches k q1) as [q Hq].
    { by rewrite (proj1 (start_before _ _ _ Huw)), Hl1. }
    exists u, p, q. split; [done|]. apply matches_seq. exists q1. split; [|done].
    apply matches_literals. exists p, w. split_and!; [|done..].
    apply matches_seq. exists p. split; constructor. unfold boundary. by rewrite (proj1 (start_before _ _ _ Hu)), Hl.
Qed.

Lemma matches_alternatives l p q : matches (alternatives l) p q ↔ ∃ r, r ∈ l ∧ matches r p q.
Proof.
  induction l as [|r l IH].
  - simpl. rewrite matches_class. split; [by intros (? & ? & ?)|by intros (? & ?%not_elem_of_nil & _)].
  - destruct l as [|r' l]; [|change (alternatives (r :: r' :: l)) with (Alt r (alternatives (r' :: l)));
                              rewrite matches_alt, IH]; set_solver.
Qed.

(** A title is taken for adult exactly when one of the keywords stands in it as a word: each letter in either case, a word boundary before it, and after it another boundary, or for a keyword that ends in a symbol the end of the title or a character that is not alphanumeric. *)
Theorem nsfw_title_words title :
  titleMatchesNSFW title = true ↔ ∃ k, k ∈ nsfwKeywords ∧ names_keyword (runes_of k) title.
Proof.
  unfold titleMatchesNSFW. rewrite MatchString_reads, nsfw_prog.
  setoid_rewrite matches_seq. setoid_rewrite matches_alternatives. setoid_rewrite list_elem_of_fmap.
  setoid_rewrite <-matches_keyword. split.
  - intros (u & p & q & Hu & ? & ->%matches_empty & ? & (k & -> & Hk) & Hm). eauto 10.
  - intros (k & Hk & u & p & q & Hu & Hm). exists u, p, q. split; [done|]. exists p. split; [constructor|]. eauto 10.
Qed.

End keywords.

(** ** The ladder as a set of rules *)

Section rules.
Context `{Unicode} `{UnicodeTables} `{CaseFolding}.

(** Whether a title has a listed group, for the carve-out of adult words. *)
Lemma IsKnownFansub_Detect name : IsKnownFansub (Detect name) = nonempty (fansub_group name).
Proof. done. Qed.
Lemma IsKnownFansub_IsAnime s : IsKnownFansub s = true → IsAnime s = true.
Proof. unfold IsKnownFansub, IsAnime. by intros ->. Qed.

#[local] Opaque Detect ForeignAudioOnly titleMatchesNSFW.

Definition lower_trimmed (s : runes) : runes := ToLower <$> TrimSpace s.
Definition listed (s : runes) (l : list runes) : Prop := ∃ x, x ∈ l ∧ EqualFold x (lower_trimmed s) = true.

(** Which rules of the configuration speak against a torrent, each for itself. *)
Inductive drops (c : Config) (i : Input) : DropReason → Prop :=
| drops_ext :
    PrimaryExtension i ≠ [] → listed (PrimaryExtension i) (BlockedExtensions c) → drops c i ReasonBlockedExtension
| drops_type :
    ContentType i ≠ [] → listed (ContentType i) (BlockedContentTypes c) → drops c i ReasonBlockedContentType
| drops_adult_type :
    DropNSFW c = true → lower_trimmed (ContentType i) ∈ nsfwContentTypeSet → drops c i ReasonNSFWContentType
| drops_adult_title :
    DropNSFW c = true → titleMatchesNSFW (Title i) = true →
    ¬ (AnimeAware c = true ∧ IsKnownFansub (Detect (Title i)) = true) → drops c i ReasonNSFWKeyword
| drops_script r :
    DropNonLatinScript c = true → r ∈ Title i → nonLatinScriptChar r = true →
    ¬ (AnimeAware c = true ∧ IsAnime (Detect (Title i)) = true) → drops c i ReasonNonLatinScript
| drops_audio :
    DropForeignAudio c = true → ForeignAudioOnly (Title i) = true → drops c i ReasonForeignAudio
| drops_language :
    RequireEnglishLanguage c = true → Languages i ≠ [] → (∀ l, l ∈ Languages i → ¬ listed l (AllowedLanguages c)) →
    ¬ (AnimeAware c = true ∧ IsAnime (Detect (Title i)) = true) → drops c i ReasonNonEnglishLanguage
| drops_mp3 :
    DropLossyAudioOnly c = true → EqualFold (ContentType i) (runes_of "music") = true →
    (∃ e, e ∈ AllExtensions i ∧ isMP3 e = true) →
    (∀ e, e ∈ AllExtensions i → isMP3 e = false → e ∉ nonMP3MusicExtensions) → drops c i ReasonMP3Only.

(** The position of a rule in the ladder. *)
Definition rank (r : DropReason) : nat :=
  match r with
  | ReasonBlockedExtension => 1 | ReasonBlockedContentType => 2 | ReasonNSFWContentType => 3
  | ReasonNSFWKeyword => 4 | ReasonNonLatinScript => 5 | ReasonForeignAudio => 6
  | ReasonNonEnglishLanguage => 7 | ReasonMP3Only => 8 | _ => 9
  end.

Lemma existsb_listed s l : existsb (λ b, EqualFold b (lower_trimmed s)) l = true ↔ listed s l.
Proof. rewrite existsb_exists. unfold listed. by setoid_rewrite list_elem_of_In. Qed.

Lemma anyAllowedLanguage_spec langs allowed :
  anyAllowedLanguage langs allowed = true ↔ ∃ l, l ∈ langs ∧ listed l allowed.
Proof.
  unfold anyAllowedLanguage. case_decide as Ha.
  - subst. split; [done|]. intros (l & _ & x & Hx & _). by apply not_elem_of_nil in Hx.
  - rewrite existsb_exists. setoid_rewrite <-existsb_listed. by setoid_rewrite list_elem_of_In.
Qed.

Lemma mp3_loop_spec exts : ∀ a b,
  mp3_loop a b exts
  = (a || existsb isMP3 exts, b || existsb (λ e, negb (isMP3 e) && bool_decide (e ∈ nonMP3MusicExtensions)) exts).
Proof.
  induction exts as [|e exts IH]; intros a b; simpl; [by rewrite !orb_false_r|].
  destruct (isMP3 e); simpl; [rewrite IH; by destruct a|].
  case_bool_decide; rewrite IH; simpl; by destruct b.
Qed.

Lemma isPureMP3_spec exts :
  isPureMP3 exts = true
  ↔ (∃ e, e ∈ exts ∧ isMP3 e = true) ∧ (∀ e, e ∈ exts → isMP3 e = false → e ∉ nonMP3MusicExtensions).
Proof.
  unfold isPureMP3. case_decide as He; [subst; split; [done|]; by intros [(e & ?%not_elem_of_nil & _) _]|].
  rewrite mp3_loop_spec. simpl. rewrite andb_true_iff, negb_true_iff, existsb_exists, <-not_true_iff_false, existsb_exists.
  setoid_rewrite andb_true_iff. setoid_rewrite negb_true_iff. setoid_rewrite bool_decide_eq_true.
  setoid_rewrite <-list_elem_of_In. naive_solver.
Qed.

Lemma spared_spec (a b : bool) : negb (a && b) = true ↔ ¬ (a = true ∧ b = true).
Proof. destruct a, b; naive_solver. Qed.

(** The test of each rule, as the ladder writes it. *)
Definition test (c : Config) (i : Input) (r : DropReason) : bool :=
  match r with
  | ReasonBlockedExtension => nonempty (PrimaryExtension i) && extInBlocklist (PrimaryExtension i) (BlockedExtensions c)
  | ReasonBlockedContentType =>
      nonempty (ContentType i) && existsb (λ b, EqualFold b (ToLower <$> TrimSpace (ContentType i))) (BlockedContentTypes c)
  | ReasonNSFWContentType => DropNSFW c && isNSFWContentType (ContentType i)
  | ReasonNSFWKeyword =>
      DropNSFW c && titleMatchesNSFW (Title i) && negb (AnimeAware c && IsKnownFansub (Detect (Title i)))
  | ReasonNonLatinScript =>
      DropNonLatinScript c && titleContainsNonLatinScript (Title i) && negb (AnimeAware c && IsAnime (Detect (Title i)))
  | ReasonForeignAudio => DropForeignAudio c && ForeignAudioOnly (Title i)
  | ReasonNonEnglishLanguage =>
      RequireEnglishLanguage c && bool_decide (Languages i ≠ [])
      && negb (anyAllowedLanguage (Languages i) (AllowedLanguages c)) && negb (AnimeAware c && IsAnime (Detect (Title i)))
  | ReasonMP3Only => DropLossyAudioOnly c && EqualFold (ContentType i) (runes_of "music") && isPureMP3 (AllExtensions i)
  | ReasonNone | ReasonLLMNonEnglish => false
  end.

Definition ladder : list DropReason :=
  [ReasonBlockedExtension; ReasonBlockedContentType; ReasonNSFWContentType; ReasonNSFWKeyword; ReasonNonLatinScript;
   ReasonForeignAudio; ReasonNonEnglishLanguage; ReasonMP3Only].

Fixpoint first_reason (f : DropReason → bool) (l : list DropReason) : DropReason :=
  match l with [] => ReasonNone | r :: l => if f r then r else first_reason f l end.

Lemma test_drops c i r : test c i r = true ↔ drops c i r.
Proof.
  split.
  - destruct r; simpl; rewrite ?andb_true_iff, ?spared_spec, ?nonempty_spec, ?isPureMP3_spec, ?bool_decide_eq_true,
      ?negb_true_iff; intros Ht; try done.
    + destruct Ht. apply drops_ext; [done|]. by apply existsb_listed.
    + destruct Ht. apply drops_type; [done|]. by apply existsb_listed.
    + destruct Ht as [[[? ?] Hl] ?]. apply drops_language; try done. intros l Hin Hli.
      apply not_true_iff_false in Hl. apply Hl, anyAllowedLanguage_spec. eauto.
    + destruct Ht as [[? (x & ?%list_elem_of_In & ?)%existsb_exists] ?]. by eapply drops_script.
    + destruct Ht as [[? ?] [? ?]]. by apply drops_mp3.
    + destruct Ht as [[? ?] ?]. by apply drops_adult_title.
    + destruct Ht as [? ?%bool_decide_eq_true]. by apply drops_adult_type.
    + destruct Ht. by apply drops_audio.
  - destruct 1; simpl; rewrite ?andb_true_iff, ?spared_spec, ?nonempty_spec, ?isPureMP3_spec, ?bool_decide_eq_true,
      ?negb_true_iff; split_and?; try done.
    + by apply existsb_listed.
    + by apply existsb_listed.
    + by apply bool_decide_eq_true.
    + apply existsb_exists. exists r. by rewrite <-list_elem_of_In.
    + apply not_true_iff_false. rewrite anyAllowedLanguage_spec. naive_solver.
Qed.

(** The ladder answers the first rule of its order that applies. *)
Lemma evaluate_first c i :
  (evaluate c i).1 = first_reason (test c i) ladder
  ∧ ((evaluate c i).2 ≠ [] → (evaluate c i).1 = ReasonBlockedExtension).
Proof. unfold evaluate, ladder, first_reason, test. cbv zeta. split; repeat case_goal; done. Qed.

Lemma first_reason_spec f l :
  StronglySorted (λ a b, rank a ≤ rank b) l → ReasonNone ∉ l →
  let r := first_reason f l in
  (r ≠ ReasonNone → f r = true) ∧ ∀ r', r' ∈ l → f r' = true → r ≠ ReasonNone ∧ rank r ≤ rank r'.
Proof.
  induction 1 as [|a l Hs IH Ha]; intros Hn; simpl; [split; [done|]; by intros ? ?%not_elem_of_nil|].
  apply not_elem_of_cons in Hn as [Hna Hn]. destruct (IH Hn) as [IH1 IH2].
  destruct (f a) eqn:Hf; split; [done| |done|].
  - intros r' [-> | Hr']%elem_of_cons _; [done|]. split; [done|]. by eapply Forall_forall in Ha.
  - intros r' [-> | Hr']%elem_of_cons; [congruence|by apply IH2].
Qed.

Lemma drops_ladder c i r : drops c i r → r ∈ ladder.
Proof. unfold ladder. destruct 1; set_solver. Qed.

Lemma evaluate_drops c i :
  let r := (evaluate c i).1 in
  (r ≠ ReasonNone → drops c i r) ∧ (∀ r', drops c i r' → r ≠ ReasonNone ∧ rank r ≤ rank r').
Proof.
  cbv zeta. rewrite (proj1 (evaluate_first c i)).
  destruct (first_reason_spec (test c i) ladder) as [H1' H2'].
  { repeat constructor; simpl; lia. } { unfold ladder. set_solver. }
  split; [by setoid_rewrite <-test_drops|].
  intros r' Hd. apply H2'; [by eapply drops_ladder|by apply test_drops].
Qed.

(** The filter drops a torrent exactly when it is enabled and enforcing and some rule of the configuration applies; when it is enabled but not enforcing it says what it would drop and drops nothing. The reason it reports is a rule that applies, the first in the order of the ladder, and an extension is reported only with the rule for extensions. *)
Theorem contentfilter_decision c i :
  let d := DecideDeterministic c i in
  (Allow d = false ↔ Enabled c = true ∧ Enforce c = true ∧ ∃ r, drops c i r)
  ∧ (WouldDrop d = true ↔ Enabled c = true ∧ ∃ r, drops c i r)
  ∧ (WouldDrop d = true → drops c i (Reason d) ∧ ∀ r, drops c i r → rank (Reason d) ≤ rank r)
  ∧ (WouldDrop d = false → Reason d = ReasonNone)
  ∧ (BlockedExt d ≠ [] → Reason d = ReasonBlockedExtension).
Proof.
  unfold DecideDeterministic. destruct (Enabled c); simpl; [|naive_solver].
  pose proof (evaluate_drops c i) as [H1' H2']. pose proof (proj2 (evaluate_first c i)) as He.
  destruct (evaluate c i) as [r ext]. simpl in *.
  rewrite orb_false_iff, negb_false_iff, bool_decide_eq_false, bool_decide_eq_true, bool_decide_eq_false.
  destruct (decide (r = ReasonNone)) as [-> | Hr]; naive_solver.
Qed.

Definition with_anime (b : bool) (c : Config) : Config :=
  mkConfig (Enabled c) (Enforce c) (RequireEnglishLanguage c) (DropNonLatinScript c) (DropLossyAudioOnly c) (DropNSFW c)
    (DropForeignAudio c) b (BlockedExtensions c) (BlockedContentTypes c) (AllowedLanguages c).

(** Being aware of anime never drops a torrent that would be kept without it. What it spares was to be dropped for its title words, script or language; a title with adult words is spared only when a token in square brackets names a group of the list, up to case and separators. *)
Theorem contentfilter_anime c i :
  (∀ r, drops (with_anime true c) i r → drops (with_anime false c) i r)
  ∧ (∀ r, drops (with_anime false c) i r → ¬ drops (with_anime true c) i r →
       r ∈ [ReasonNSFWKeyword; ReasonNonLatinScript; ReasonNonEnglishLanguage] ∧ IsAnime (Detect (Title i)) = true)
  ∧ (drops (with_anime false c) i ReasonNSFWKeyword → ¬ drops (with_anime true c) i ReasonNSFWKeyword →
       ∃ pre g post canon, Title i = pre ++ [91%Z] ++ g ++ [93%Z] ++ post ∧ canon ∈ fansubGroupNames
         ∧ normGroup g = normGroup (runes_of canon)).
Proof.
  split; [|split].
  - intros r. rewrite <-!test_drops. destruct r; simpl; rewrite ?andb_true_r; try done; rewrite !andb_true_iff; tauto.
  - intros r. rewrite <-!test_drops.
    destruct r; simpl; rewrite ?andb_true_r; try tauto; intros ->; rewrite andb_true_l; intros Hf;
      apply not_true_iff_false in Hf; rewrite negb_false_iff in Hf; split; set_solver || auto using IsKnownFansub_IsAnime.
  - rewrite <-!test_drops. simpl. rewrite andb_true_r. intros -> Hf.
    apply not_true_iff_false in Hf. rewrite andb_true_l, negb_false_iff, IsKnownFansub_Detect, nonempty_spec in Hf.
    destruct (fansub_group_known _ Hf) as (pre & g & post & canon & ? & ? & ? & ? & ? & _).
    exists pre, g, post, canon. split_and!; [done..|congruence].
Qed.

End rules.

(** ** The tests of the sources *)

(** Enough of the tables for the titles of the tests. *)
Definition some_tables : UnicodeTables := {|
  table_has name r :=
    if bool_decide (name = "Cyrillic"%string) then Metainfo.in_range r 1024 1327
    else if bool_decide (name = "Han"%string) then Metainfo.in_range r 19968 40959
    else if bool_decide (name = "Hiragana"%string) then Metainfo.in_range r 12353 12438
    else if bool_decide (name = "Katakana"%string) then Metainfo.in_range r 12449 12538
    else @table_has ascii_tables name r
|}.
Definition ascii_fold : CaseFolding := {|
  SimpleFold r := if ascii_lower r then (r - 32)%Z else if ascii_upper r then (r + 32)%Z else r
|}.
#[local] Existing Instances ascii_unicode some_tables ascii_fold.

Definition enforcing : Config :=
  let c := NewDefaultConfig in
  mkConfig true true (RequireEnglishLanguage c) (DropNonLatinScript c) (DropLossyAudioOnly c) (DropNSFW c)
    (DropForeignAudio c) (AnimeAware c) (BlockedExtensions c) (BlockedContentTypes c) (AllowedLanguages c).

Definition reason_of (title ext ct : string) (exts langs : list string) : DropReason :=
  Reason (DecideDeterministic enforcing
    (mkInput false (name_of title) (name_of ext) (name_of <$> exts) (name_of ct) (name_of <$> langs))).

Example contentfilter_tests :
  Forall (λ r, r = ReasonNSFWKeyword)
    ((λ t, reason_of t "mp4" "movie" [] []) <$>
       ["[Brazzers] Some Title 2024"; "My Favorite Film XXX"; "OnlyFans leaks 2023 1080p"; "hentai vol 7"; "Movie [18+]"]%string)
  ∧ Forall (λ r, r = ReasonNone)
    ((λ t, reason_of t "mkv" "movie" [] []) <$>
       ["Aviato Inc. 2024"; "Jurassic Park 1993"; "Naked Gun 1988"; "Amélie 2001"; "Crøssing 2023"]%string)
  ∧ Forall (λ r, r = ReasonNonLatinScript)
    ((λ t, reason_of t "mkv" "movie" [] []) <$> ["Какой-то фильм 2022"; "電影 2023"; "映画 2024"]%string)
  ∧ reason_of "x" " ISO" "" [] [] = ReasonBlockedExtension
  ∧ reason_of "Generic Movie 2024" "mkv" "movie" [] ["fr"]%string = ReasonNonEnglishLanguage
  ∧ reason_of "Generic Movie 2024" "mkv" "movie" [] ["ru"; "en"]%string = ReasonNone
  ∧ reason_of "Some Album 2024" "mp3" "music" ["mp3"; "jpg"; "txt"]%string [] = ReasonMP3Only
  ∧ reason_of "Some Album 2024" "flac" "music" ["flac"; "mp3"; "log"]%string [] = ReasonNone
  ∧ reason_of "[SubsPlease] 葬送のフリーレン - 01 [18+] (1080p)" "mkv" "tv_show" [] ["ja"]%string = ReasonNone
  ∧ reason_of "Toy.Story.5.2026.1080p.WEBRip.Dublado.mkv" "mkv" "movie" [] ["en"]%string = ReasonForeignAudio.
Proof. vm_compute. split_and!; by repeat constructor. Qed.

End ContentFilter.
