(* ===== verification/Titles.v ===== *)
(** * Titles in comparable form

    [internal/titlenorm] and [internal/regex/util.go]: the normal form of a
    title that the classifier compares by, its keys for families of titles and
    for titles in Japanese script, and the transliteration of kana; with the
    folding of punctuation of [internal/classifier/fuzzy.go] that comes before.

    A title is the list of its runes.  Transliteration to ASCII (go-unidecode)
    and the Unicode normal forms (golang.org/x/text) are an interface; its laws
    say what their documentation promises about ASCII.  The patterns are tokens
    of hedhyw/rex, as in [Keywords]. *)
From S2P Require Import Prelude Protocol Lexer Metainfo Regex Anime Keywords Episodes ContentFilter.
From stdpp Require Import list strings sets.
From Stdlib Require Import ZArith Lia.

(** [unidecode.Unidecode], the chain of [norm.NFD] and [norm.NFC], and
    [norm.NFKC.String]. *)
Class Transforms := {
  Unidecode : runes → runes;
  Recompose : runes → runes;
  NFKC : runes → runes }.

Definition is_ascii (r : Z) : Prop := (0 ≤ r < 128)%Z.
#[export] Instance is_ascii_dec r : Decision (is_ascii r) := and_dec (Z_le_dec 0 r) (Z_lt_dec r 128).

(** ASCII text is left alone by all of them. *)
Class TransformLaws `{Transforms} := {
  ascii_Unidecode s : Forall is_ascii s → Unidecode s = s;
  ascii_Recompose s : Forall is_ascii s → Recompose s = s;
  ascii_NFKC s : Forall is_ascii s → NFKC s = s }.

(** The punctuation and symbols of ASCII, and the tables used here on it. *)
Definition ascii_punct (r : Z) : bool := bool_decide (r ∈ runes_of "!#%&'()*,-./:;?@[\]_{}") || (r =? 34)%Z.
Definition ascii_symbol (r : Z) : bool := bool_decide (r ∈ runes_of "$+<=>^`|~").
Class TableLaws `{UnicodeTables} := {
  ascii_table_L r : is_ascii r → table_has "L" r = ascii_lower r || ascii_upper r;
  ascii_table_P r : is_ascii r → table_has "P" r = ascii_punct r;
  ascii_table_S r : is_ascii r → table_has "S" r = ascii_symbol r;
  ascii_not_kana r : is_ascii r → table_has "Hiragana" r = false ∧ table_has "Katakana" r = false;
  ascii_not_han r : is_ascii r → table_has "Han" r = false }.

Module Titles.
Import Lexer Keywords Anime.

(** A text of the source in UTF-8. *)
Definition utf8 (s : string) : runes := Metainfo.range_runes (Protocol.string_bytes s).

(** The length of a string in bytes. *)
Definition rune_len (r : Z) : nat := if (r <? 128)%Z then 1 else if (r <? 2048)%Z then 2 else if (r <? 65536)%Z then 3 else 4.
Definition byte_len (s : runes) : nat := sum_list_with rune_len s.

(** ** Word tokens, [regex/util.go] *)

Definition OpeningPunctuationToken : token := Runes [40; 39; 34]%Z.
Definition ClosingPunctuationToken : token := Runes (runes_of ",;:?!-)'" ++ [34]%Z).
Definition MidWordPunctuationToken : token := Runes (runes_of "'-").

Definition TrimmedWordToken : token :=
  Composite false [
    Repeat (EqualOrMoreThan 2) (NonCaptured [Upper; Single 46]);
    NonCaptured [
      Repeat OneOrMore AnyWordChar;
      Repeat ZeroOrMore (NonCaptured [Repeat OneOrMore MidWordPunctuationToken; Repeat OneOrMore AnyWordChar])]].
Definition WordToken : token :=
  NonCaptured [Repeat ZeroOrMore OpeningPunctuationToken; TrimmedWordToken; Repeat ZeroOrMore ClosingPunctuationToken].

Definition QuotedStringToken (quoteCharToken : token) : token :=
  NonCaptured [
    quoteCharToken;
    Repeat ZeroOrMore (Composite true [NonCaptured [Runes [92%Z]; quoteCharToken]; Class true [quoteCharToken]]);
    quoteCharToken].
Definition search_tokens : list token := [
  Repeat ZeroOrMore (Composite false [
    Define [QuotedStringToken (Runes [39%Z])];
    Define [QuotedStringToken (Runes [34%Z])];
    Define [Repeat ZeroOrMore (Runes (runes_of "-")); WordToken]])].

(** ** Kana, [romaji.go] *)

Definition kanaDigraph : list (runes * runes) :=
  prod_map utf8 runes_of <$> [
    ("キャ", "kya"); ("キュ", "kyu"); ("キョ", "kyo");
    ("ギャ", "gya"); ("ギュ", "gyu"); ("ギョ", "gyo");
    ("シャ", "sha"); ("シュ", "shu"); ("ショ", "sho");
    ("ジャ", "ja"); ("ジュ", "ju"); ("ジョ", "jo");
    ("チャ", "cha"); ("チュ", "chu"); ("チョ", "cho");
    ("ヂャ", "ja"); ("ヂュ", "ju"); ("ヂョ", "jo");
    ("ニャ", "nya"); ("ニュ", "nyu"); ("ニョ", "nyo");
    ("ヒャ", "hya"); ("ヒュ", "hyu"); ("ヒョ", "hyo");
    ("ビャ", "bya"); ("ビュ", "byu"); ("ビョ", "byo");
    ("ピャ", "pya"); ("ピュ", "pyu"); ("ピョ", "pyo");
    ("ミャ", "mya"); ("ミュ", "myu"); ("ミョ", "myo");
    ("リャ", "rya"); ("リュ", "ryu"); ("リョ", "ryo");
    ("シェ", "she"); ("ジェ", "je"); ("チェ", "che");
    ("ティ", "ti"); ("トゥ", "tu"); ("ディ", "di"); ("ドゥ", "du");
    ("ツァ", "tsa"); ("ツィ", "tsi"); ("ツェ", "tse"); ("ツォ", "tso");
    ("ファ", "fa"); ("フィ", "fi"); ("フェ", "fe"); ("フォ", "fo"); ("フュ", "fyu");
    ("ウィ", "wi"); ("ウェ", "we"); ("ウォ", "wo");
    ("ヴァ", "va"); ("ヴィ", "vi"); ("ヴェ", "ve"); ("ヴォ", "vo"); ("ヴュ", "vyu")].

Definition kanaMono : list (runes * runes) :=
  prod_map utf8 runes_of <$> [
    ("ア", "a"); ("イ", "i"); ("ウ", "u"); ("エ", "e"); ("オ", "o");
    ("カ", "ka"); ("キ", "ki"); ("ク", "ku"); ("ケ", "ke"); ("コ", "ko");
    ("ガ", "ga"); ("ギ", "gi"); ("グ", "gu"); ("ゲ", "ge"); ("ゴ", "go");
    ("サ", "sa"); ("シ", "shi"); ("ス", "su"); ("セ", "se"); ("ソ", "so");
    ("ザ", "za"); ("ジ", "ji"); ("ズ", "zu"); ("ゼ", "ze"); ("ゾ", "zo");
    ("タ", "ta"); ("チ", "chi"); ("ツ", "tsu"); ("テ", "te"); ("ト", "to");
    ("ダ", "da"); ("ヂ", "ji"); ("ヅ", "zu"); ("デ", "de"); ("ド", "do");
    ("ナ", "na"); ("ニ", "ni"); ("ヌ", "nu"); ("ネ", "ne"); ("ノ", "no");
    ("ハ", "ha"); ("ヒ", "hi"); ("フ", "fu"); ("ヘ", "he"); ("ホ", "ho");
    ("バ", "ba"); ("ビ", "bi"); ("ブ", "bu"); ("ベ", "be"); ("ボ", "bo");
    ("パ", "pa"); ("ピ", "pi"); ("プ", "pu"); ("ペ", "pe"); ("ポ", "po");
    ("マ", "ma"); ("ミ", "mi"); ("ム", "mu"); ("メ", "me"); ("モ", "mo");
    ("ヤ", "ya"); ("ユ", "yu"); ("ヨ", "yo");
    ("ラ", "ra"); ("リ", "ri"); ("ル", "ru"); ("レ", "re"); ("ロ", "ro");
    ("ワ", "wa"); ("ヰ", "wi"); ("ヱ", "we"); ("ヲ", "o"); ("ン", "n");
    ("ヴ", "vu");
    ("ァ", "a"); ("ィ", "i"); ("ゥ", "u"); ("ェ", "e"); ("ォ", "o");
    ("ャ", "ya"); ("ュ", "yu"); ("ョ", "yo");
    ("ヵ", "ka"); ("ヶ", "ke")].

Definition table_get (t : list (runes * runes)) (k : runes) : option runes := snd ∘ snd <$> list_find (λ e, e.1 = k) t.

(** The small tsu and the long-vowel mark. *)
Definition sokuon : Z := 12483.
Definition choonpu : Z := 12540.

Definition isVowelByte (b : Z) : bool := bool_decide (b ∈ runes_of "aiueo").
Definition isConsonantByte (b : Z) : bool := ascii_lower b && negb (isVowelByte b).

(** What [KanaToRomaji] has written, and its two flags; no last vowel is 0. *)
Record romaji := mkRomaji { written : runes; geminate : bool; lastVowel : Z }.

Definition has_prefix (p s : runes) : bool := bool_decide (take (length p) s = p).

Definition doubled (rom : runes) : runes :=
  if has_prefix (runes_of "ch") rom then runes_of "t"
  else match rom with b :: _ => if isConsonantByte b then [b] else [] | [] => [] end.

(** The closure [emit] *)
Definition emit (rom : runes) (st : romaji) : romaji :=
  if decide (rom = []) then st
  else mkRomaji (written st ++ (if geminate st then doubled rom else []) ++ rom) false
         (default (lastVowel st) (head (rev (filter (λ b, isVowelByte b = true) rom)))).

(** Hiragana as katakana. *)
Definition katakana (r : Z) : Z := (if (0x3041 <=? r) && (r <=? 0x3096) then r + 0x60 else r)%Z.

Definition single (r : Z) (st : romaji) : romaji :=
  match table_get kanaMono [r] with
  | Some rom => emit rom st
  | None => mkRomaji (written st ++ [r]) false 0
  end.

Fixpoint romaji_loop (st : romaji) (rs : runes) : runes :=
  match rs with
  | [] => written st
  | r :: rs' =>
      if (r =? sokuon)%Z then romaji_loop (mkRomaji (written st) true (lastVowel st)) rs'
      else if (r =? choonpu)%Z then
        romaji_loop (mkRomaji (written st ++ (if (lastVowel st =? 0)%Z then [] else [lastVowel st])) (geminate st) (lastVowel st)) rs'
      else match rs' with
           | r2 :: rs'' =>
               match table_get kanaDigraph [r; r2] with
               | Some rom => romaji_loop (emit rom st) rs''
               | None => romaji_loop (single r st) rs'
               end
           | [] => romaji_loop (single r st) rs'
           end
  end.
Definition KanaToRomaji (s : runes) : runes := romaji_loop (mkRomaji [] false 0) (katakana <$> s).

(** ** The normal form, [titlenorm.go] *)

Definition romanArabic : list (runes * runes) :=
  prod_map runes_of runes_of <$> [
    ("i", "1"); ("ii", "2"); ("iii", "3"); ("iv", "4"); ("v", "5"); ("vi", "6"); ("vii", "7"); ("viii", "8"); ("ix", "9");
    ("x", "10"); ("xi", "11"); ("xii", "12"); ("xiii", "13"); ("xiv", "14"); ("xv", "15"); ("xvi", "16"); ("xvii", "17");
    ("xviii", "18"); ("xix", "19"); ("xx", "20")].
Definition leadingArticles : list runes := runes_of <$> ["the"; "a"; "an"; "le"; "la"; "les"; "el"; "il"].
Definition isPureRoman (s : runes) : bool := forallb (λ c, bool_decide (c ∈ runes_of "ivxlcdm")) s.

Definition strip_article (tokens : list runes) : list runes :=
  match tokens with
  | a :: ((_ :: _) as rest) => if bool_decide (a ∈ leadingArticles) then rest else tokens
  | _ => tokens
  end.

(** [strings.ReplaceAll(s, "&", " and ")] *)
Definition expand_and (s : runes) : runes := s ≫= λ r, if (r =? 38)%Z then runes_of " and " else [r].

Section titles.
Context `{Unicode} `{HT : UnicodeTables} `{!Rex} `{Transforms}.

Definition lower (s : runes) : runes := ToLower <$> s.

Definition wordTokenRegex : Regex.regexp := rex_MustCompile [WordToken].

Definition NormalizeString (input : runes) : runes :=
  join_space (filter (λ t, t ≠ []) (Episodes.FindAllString wordTokenRegex (Recompose (lower input)))).

Definition searchTokenRegex : Regex.regexp := rex_MustCompile search_tokens.

(** The groups 2 and 4 are the inner ones of the quoted strings. *)
Definition search_token (m : list runes) : option runes :=
  let group i := default [] (m !! i) in
  if nonempty (group 1%nat) then Some (group 1%nat)
  else if nonempty (group 3%nat) then Some (group 3%nat)
  else if nonempty (group 5%nat) then Some (lower (group 5%nat)) else None.
Definition SearchStringToNormalizedTokens (input : runes) : list runes :=
  omap search_token (Regex.FindAllStringSubmatch searchTokenRegex input).
Definition NormalizeSearchString (input : runes) : runes := join_space (SearchStringToNormalizedTokens input).

(** The roman numeral a token is, in arabic digits. *)
Definition roman_of (tok : runes) : option runes :=
  match table_get romanArabic (lower tok) with
  | Some ar => if isPureRoman (lower tok) then Some ar else None
  | None => None
  end.

(** The loop over the tokens, which writes into the slice it ranges over: a
    numeral after [part] is written before the loop comes to it. *)
Fixpoint roman_loop (fuel i : nat) (tokens : list runes) : list runes :=
  match fuel with
  | O => tokens
  | S fuel =>
      match tokens !! i with
      | None => tokens
      | Some tok =>
          if bool_decide (lower tok = runes_of "part") && (i + 1 <? length tokens)%nat then
            roman_loop fuel (S i)
              (match tokens !! (i + 1)%nat ≫= roman_of with Some ar => <[(i + 1)%nat := ar]> tokens | None => tokens end)
          else
            roman_loop fuel (S i) (match roman_of tok with Some ar => <[i := ar]> tokens | None => tokens end)
      end
  end.

Definition NormalizeTitleForMatch (s : runes) : runes :=
  let s := expand_and s in
  let s := if ContentFilter.ContainsKana s then KanaToRomaji s else s in
  let s := NormalizeString (Unidecode s) in
  let tokens := strip_article (Fields s) in
  join_space (roman_loop (length tokens) 0 tokens).

Definition letters_digits (tok : runes) : runes := filter (λ r, IsLetter r || IsDigit r) tok.
Definition FamilyKey (s : runes) : runes :=
  join_space (filter (λ t, t ≠ []) (letters_digits <$> Fields (NormalizeTitleForMatch s))).

Definition NativeKey (s : runes) : runes := lower (letters_digits (NFKC s)).
Definition NativeMatchKey (s : runes) : runes :=
  if ContentFilter.ContainsJapaneseScript s then NativeKey s else [].

(** [foldTitlePunct] of [fuzzy.go]; [unicode.IsPunct] and [unicode.IsSymbol]
    are the categories P and S. *)
Definition fold_rune (r : Z) : runes :=
  if bool_decide (r ∈ [39; 0x2019; 0x2018; 96]%Z) then []
  else if (r =? 38)%Z then [r]
  else if table_has "P" r || table_has "S" r then [32%Z]
  else [r].
Definition foldTitlePunct (s : runes) : runes := s ≫= fold_rune.

End titles.

(** ** The tests of the sources *)

Definition title_tables : UnicodeTables := {|
  table_has name r :=
    if bool_decide (name = "P"%string) then ascii_punct r || bool_decide (r ∈ utf8 "・！—…")
    else if bool_decide (name = "S"%string) then ascii_symbol r
    else @table_has ContentFilter.some_tables name r
|}.
Definition plain_transforms : Transforms := {| Unidecode s := s; Recompose s := s; NFKC s := s |}.
Lemma ascii_cases (f g : Z → bool) : forallb (λ r, eqb (f r) (g r)) (seqZ 0 128) = true → ∀ r, is_ascii r → f r = g r.
Proof.
  intros H r Hr. apply eqb_prop. rewrite forallb_forall in H. apply H.
  apply list_elem_of_In, elem_of_seqZ. unfold is_ascii in Hr. lia.
Qed.
Lemma title_tables_laws : @TableLaws title_tables.
Proof.
  split; try (intros r Hr; split; revert r Hr); apply ascii_cases; by vm_compute.
Qed.
Lemma plain_transforms_laws : @TransformLaws plain_transforms.
Proof. by split. Qed.

Section tests.
#[local] Existing Instances ascii_unicode title_tables group_rex plain_transforms.

Example kana_tests :
  (λ t, KanaToRomaji (utf8 t)) <$>
    ["しんげきのきょじん"; "デスノート"; "きょう"; "しゃじゃちゃ"; "きって"; "ポケット"; "まっちゃ"; "ラーメン"; "ワンピース";
     "ヴァイオレット"; "ファシェチェ"; "けいおん"; "進撃の巨人"; "TVアニメ"; "Attack on Titan"; ""]
  = utf8 <$>
    ["shingekinokyojin"; "desunooto"; "kyou"; "shajacha"; "kitte"; "poketto"; "matcha"; "raamen"; "wanpiisu";
     "vaioretto"; "fasheche"; "keion"; "進撃no巨人"; "TVanime"; "Attack on Titan"; ""].
Proof. by vm_compute. Qed.

Example normalize_tests :
  (λ t, NormalizeTitleForMatch (runes_of t)) <$>
    ["The Matrix"; "A Beautiful Mind"; "An Officer and a Gentleman"; "Inception"; "The"; "Rocky IV"; "Star Wars Episode V";
     "Part II"; "Part 2"; "Se7en"; "Rocky XX"; "Fast & Furious"; "Planes, Trains and Automobiles"; "X-Men"]
  = runes_of <$>
    ["matrix"; "beautiful mind"; "officer and a gentleman"; "inception"; "the"; "rocky 4"; "star wars episode 5";
     "part 2"; "part 2"; "se7en"; "rocky 20"; "fast and furious"; "planes, trains and automobiles"; "x-men"].
Proof. by vm_compute. Qed.

Example fold_tests :
  (λ t, NormalizeTitleForMatch (foldTitlePunct (runes_of t))) <$>
    ["Planes, Trains and Automobiles"; "X-Men"; "X Men"; "Grey's Anatomy"; "Dexter: New Blood"; "Diners, Drive-Ins & Dives"]
  = runes_of <$>
    ["planes trains and automobiles"; "10 men"; "10 men"; "greys anatomy"; "dexter new blood"; "diners drive ins and dives"].
Proof. by vm_compute. Qed.

Example family_tests :
  (λ t, FamilyKey (runes_of t)) <$> ["Dexter: New Blood"; "Dexter"; "(The) Office"]
  = runes_of <$> ["dexter new blood"; "dexter"; "the office"].
Proof. by vm_compute. Qed.

Example search_string_test :
  NormalizeSearchString (runes_of "Foo 'a b' -Bar") = runes_of "foo 'a b' -bar".
Proof. by vm_compute. Qed.
End tests.

(** ** Words of a text

    On text without punctuation the word pattern finds the longest runs of
    letters and digits. *)

(** A compiled pattern finds, from any position, what its tokens say. *)
Class RexFinds `{Rex} := {
  rex_Compile_finds ts : ∃ re, rex_Compile ts = Some re ∧
    ∀ s pos, Regex.find_from re s pos = Regex.find_from (with_groups ts) s pos }.
Lemma group_rex_finds `{UnicodeTables} : @RexFinds _ group_rex.
Proof. split. intros ts. by eexists. Qed.

Lemma find_all_ext `{UnicodeTables} re re' s :
  (∀ pos, Regex.find_from re s pos = Regex.find_from re' s pos) →
  ∀ fuel pos prev, Regex.find_all fuel re s pos prev = Regex.find_all fuel re' s pos prev.
Proof.
  intros E. induction fuel as [|fuel IH]; intros pos prev; [done|]. cbn [Regex.find_all].
  case_match; [done|]. rewrite E. repeat case_match; by rewrite ?IH.
Qed.

(** Maximal runs. *)
Definition all (f : Z → bool) (w : runes) : Prop := Forall (λ r, f r = true) w.
Definition stops (f : Z → bool) (rest : runes) : Prop := match rest with r :: _ => f r = false | [] => True end.

Lemma cut_run f (s : runes) : ∃ w rest, s = w ++ rest ∧ all f w ∧ stops f rest.
Proof.
  induction s as [|r s (w & rest & -> & Hw & Hr)]; [by exists [], []; repeat constructor|].
  destruct (f r) eqn:E; [exists (r :: w), rest|exists [], (r :: w ++ rest)]; repeat constructor; done.
Qed.

Section words.
Context `{UnicodeTables}.

Definition forward (p : Regex.point) (w rest : runes) : Regex.point :=
  Regex.mkPoint (Regex.at_ p + length w) (match last w with Some r => Some r | None => Regex.before p end) rest (Regex.caps p).
Lemma forward_cons p r w rest :
  forward (Regex.advance p r (w ++ rest)) w rest = forward p (r :: w) rest.
Proof.
  unfold forward, Regex.advance. cbn. f_equal; [lia|]. rewrite last_cons. by destruct (last w).
Qed.
Lemma forward_nil p : forward p [] (Regex.left p) = p.
Proof. destruct p. unfold forward. cbn. f_equal. lia. Qed.

Lemma star_loop_run {R} fold neg items (k : Regex.point → option R) w rest x fuel p :
  Regex.left p = w ++ rest → all (Regex.class_has fold neg items) w → stops (Regex.class_has fold neg items) rest →
  k (forward p w rest) = Some x → (length (Regex.left p) < fuel)%nat →
  Regex.star_loop (Regex.run (Regex.Class_ fold neg items)) true k fuel p = Some x.
Proof.
  intros Hl Hw Hs. revert p fuel Hl.
  induction w as [|r w IH]; intros p fuel Hl Hk Hf; (destruct fuel as [|fuel]; [lia|]).
  - cbn [Regex.star_loop Regex.run]. simpl in Hl. subst rest. rewrite forward_nil in Hk. unfold Regex.one.
    destruct (Regex.left p) as [|c l]; cbn; [done|]. unfold stops in Hs. by rewrite Hs.
  - apply Forall_cons in Hw as [Hr Hw]. cbn [Regex.star_loop Regex.run]. unfold Regex.one. rewrite Hl in *. cbn [app].
    rewrite Hr. cbn [Regex.left Regex.advance length]. rewrite (proj2 (Nat.ltb_lt _ _)) by lia.
    erewrite (IH Hw (Regex.advance p r (w ++ rest))); [done|done| |cbn in *; lia].
    by rewrite forward_cons.
Qed.
Lemma star_run {R} fold neg items p (k : Regex.point → option R) w rest x :
  Regex.left p = w ++ rest → all (Regex.class_has fold neg items) w → stops (Regex.class_has fold neg items) rest →
  k (forward p w rest) = Some x → Regex.run (Regex.Star true (Regex.Class_ fold neg items)) p k = Some x.
Proof. intros. by eapply star_loop_run; [..|apply Nat.lt_succ_diag_r]. Qed.

Lemma star_stops {R} fold neg items p (k : Regex.point → option R) :
  stops (Regex.class_has fold neg items) (Regex.left p) → Regex.run (Regex.Star true (Regex.Class_ fold neg items)) p k = k p.
Proof.
  intros Hs. cbn [Regex.run Regex.star_loop]. unfold Regex.one.
  destruct (Regex.left p); cbn; [done|]. unfold stops in Hs. by rewrite Hs.
Qed.

Lemma run_class_stops {R} fold neg items p (k : Regex.point → option R) :
  stops (Regex.class_has fold neg items) (Regex.left p) → Regex.run (Regex.Class_ fold neg items) p k = None.
Proof. intros Hs. cbn. unfold Regex.one. destruct (Regex.left p); [done|]. unfold stops in Hs. by rewrite Hs. Qed.

Lemma run_class_step {R} fold neg items p (k : Regex.point → option R) r l :
  Regex.left p = r :: l → Regex.class_has fold neg items r = true →
  Regex.run (Regex.Class_ fold neg items) p k = k (Regex.advance p r l).
Proof. intros Hl Hr. cbn. unfold Regex.one. by rewrite Hl, Hr. Qed.

(** A letter or digit; the punctuation that is part of word tokens. *)
Definition wordy (r : Z) : bool := Regex.class_has false false [Regex.Table "L" true; Regex.Range 48 57] r.
Definition token_punct (r : Z) : bool := bool_decide (r ∈ runes_of "(),;:?!-.'" ++ [34%Z]).

Definition plain_text (s : runes) : Prop := Forall (λ r, is_ascii r ∧ token_punct r = false) s.

Definition word_regex : Regex.regex := Regex.prog (with_groups [WordToken]).

Context `{!TableLaws}.

Lemma wordy_ascii r : is_ascii r → wordy r = ascii_lower r || ascii_upper r || ascii_digit r.
Proof.
  intros Hr. unfold wordy, Regex.class_has. cbn [existsb Regex.item_has xorb andb].
  rewrite ascii_table_L by done. unfold Metainfo.in_range, ascii_digit. by destruct (ascii_lower r || ascii_upper r), ((48 <=? r) && (r <=? 57))%Z.
Qed.

Lemma plain_rune r (l : list Z) :
  token_punct r = false → Forall (λ c, token_punct c = true) l → Regex.class_has false false ((λ c, Regex.Range c c) <$> l) r = false.
Proof.
  intros Hr Hl. unfold Regex.class_has. rewrite orb_false_r. cbn [xorb].
  apply not_true_iff_false. rewrite existsb_exists. intros (i & Hi & Hh).
  apply list_elem_of_In, list_elem_of_fmap in Hi as (c & -> & Hc). rewrite Forall_forall in Hl. specialize (Hl c Hc).
  unfold Regex.item_has, Metainfo.in_range in Hh. assert (r = c) as -> by lia. congruence.
Qed.

Lemma plain_stops s (l : list Z) :
  plain_text s → Forall (λ c, token_punct c = true) l → stops (Regex.class_has false false ((λ c, Regex.Range c c) <$> l)) s.
Proof. intros [|r s' [_ Hr] _] Hl; [done|]. by apply plain_rune. Qed.

Lemma plain_app a b : plain_text (a ++ b) ↔ plain_text a ∧ plain_text b.
Proof. apply Forall_app. Qed.

(** The word pattern, part by part. *)
Definition one_of (l : list Z) : Regex.regex := Regex.Class_ false false ((λ c, Regex.Range c c) <$> l).
Definition word_class : Regex.regex := Regex.Class_ false false [Regex.Table "L" true; Regex.Range 48 57].
Definition initial : Regex.regex :=
  Regex.Seq (Regex.Class_ false false [Regex.Range 65 90]) (Regex.Seq (one_of [46%Z]) Regex.Empty).
Definition acronym : Regex.regex := Regex.Seq (Regex.repeat_exact 2 initial) (Regex.Star true initial).
Definition joined : Regex.regex :=
  Regex.Seq (Regex.Seq (one_of (runes_of "'-")) (Regex.Star true (one_of (runes_of "'-"))))
    (Regex.Seq (Regex.Seq word_class (Regex.Star true word_class)) Regex.Empty).
Definition plain_word : Regex.regex :=
  Regex.Seq (Regex.Seq word_class (Regex.Star true word_class)) (Regex.Seq (Regex.Star true joined) Regex.Empty).
Definition word_pattern : Regex.regex :=
  Regex.Seq
    (Regex.Seq (Regex.Star true (one_of [40; 39; 34]%Z))
      (Regex.Seq (Regex.Alt acronym (Regex.Alt plain_word (Regex.Class_ false false [])))
        (Regex.Seq (Regex.Star true (one_of (runes_of ",;:?!-)'" ++ [34%Z]))) Regex.Empty))) Regex.Empty.
Lemma word_regex_parts : word_regex = word_pattern.
Proof. reflexivity. Qed.

Lemma star_none {R} a p (k : Regex.point → option R) :
  (∀ k', Regex.run (R := R) a p k' = None) → Regex.run (Regex.Star true a) p k = k p.
Proof. intros Ha. cbn [Regex.run Regex.star_loop]. by rewrite Ha. Qed.

Lemma initial_none {R} p (k : Regex.point → option R) : plain_text (Regex.left p) → Regex.run initial p k = None.
Proof.
  intros Hp. unfold initial. cbn [Regex.run]. unfold Regex.one at 1. destruct (Regex.left p) as [|r l]; [done|].
  apply Forall_cons in Hp as [_ Hp]. destruct (Regex.class_has _ _ _ r); [|done].
  apply (run_class_stops _ _ _ (Regex.advance p r l)), plain_stops; [done|by repeat constructor].
Qed.
Lemma acronym_none {R} p (k : Regex.point → option R) : plain_text (Regex.left p) → Regex.run acronym p k = None.
Proof. intros Hp. unfold acronym. cbn [Regex.repeat_exact Regex.run]. by apply initial_none. Qed.
Lemma joined_none {R} p (k : Regex.point → option R) : plain_text (Regex.left p) → Regex.run joined p k = None.
Proof.
  intros Hp. unfold joined. cbn [Regex.run]. unfold one_of. cbn [Regex.run].
  apply (run_class_stops _ _ _ p), plain_stops; [done|by repeat constructor].
Qed.

Lemma plain_word_run {R} p (k : Regex.point → option R) w rest x :
  Regex.left p = w ++ rest → w ≠ [] → all wordy w → stops wordy rest → plain_text (w ++ rest) →
  k (forward p w rest) = Some x → Regex.run plain_word p k = Some x.
Proof.
  intros Hl Hne Hw Hs Hp Hk. destruct w as [|r w]; [done|]. apply Forall_cons in Hw as [Hr Hw].
  change (Regex.run word_class p (λ q, Regex.run (Regex.Star true word_class) q
    (λ q, Regex.run (Regex.Star true joined) q k)) = Some x).
  unfold word_class at 1. erewrite run_class_step; [|by rewrite Hl|done].
  apply (star_run _ _ _ (Regex.advance p r (w ++ rest)) _ w rest); [done..|].
  rewrite forward_cons. apply plain_app in Hp as [_ Hp].
  rewrite (star_none joined); [done|]. intros k'. by apply joined_none.
Qed.

Lemma word_pattern_run p :
  plain_text (Regex.left p) →
  Regex.run word_regex p Some =
    let k q := Regex.run (Regex.Star true (one_of (runes_of ",;:?!-)'" ++ [34%Z]))) q Some in
    Regex.choice (Regex.run plain_word p k) (Regex.run (Regex.Class_ false false []) p k).
Proof.
  intros Hp. rewrite word_regex_parts.
  change (Regex.run word_pattern p Some) with
    (Regex.run (Regex.Star true (one_of [40; 39; 34]%Z)) p (λ q, Regex.run (Regex.Alt acronym (Regex.Alt plain_word
       (Regex.Class_ false false []))) q (λ q, Regex.run (Regex.Star true (one_of (runes_of ",;:?!-)'" ++ [34%Z]))) q Some))).
  unfold one_of at 1. rewrite star_stops by (apply plain_stops; [done|by repeat constructor]).
  cbv zeta. set (k := λ q, _). change (Regex.run (Regex.Alt acronym ?b) p k) with (Regex.choice (Regex.run acronym p k) (Regex.run b p k)).
  by rewrite acronym_none.
Qed.

(** The word pattern at a word of plain text, and where there is none. *)
Lemma word_run p w rest :
  Regex.left p = w ++ rest → w ≠ [] → all wordy w → stops wordy rest → plain_text (w ++ rest) →
  Regex.run word_regex p Some = Some (forward p w rest).
Proof.
  intros Hl Hne Hw Hs Hp. rewrite word_pattern_run by by rewrite Hl. cbv zeta.
  erewrite plain_word_run; [done..|]. unfold one_of. apply star_stops. cbn [Regex.left forward].
  apply plain_stops; [by apply plain_app in Hp as [_ ?]|by repeat constructor].
Qed.

Lemma word_none p : plain_text (Regex.left p) → stops wordy (Regex.left p) → Regex.run word_regex p Some = None.
Proof.
  intros Hp Hs. rewrite word_pattern_run by done. cbv zeta. set (k := λ q, _).
  change (Regex.run plain_word p k) with (Regex.run word_class p (λ q, Regex.run (Regex.Star true word_class) q
    (λ q, Regex.run (Regex.Star true joined) q k))).
  unfold word_class at 1. rewrite run_class_stops by done. apply run_class_stops. by destruct (Regex.left p).
Qed.

End words.

Lemma drop_points s : ∀ i prev pos, (pos ≤ length s)%nat →
  ∃ prev', drop pos (Regex.points i prev s) = Regex.points (i + pos) prev' (drop pos s).
Proof.
  induction s as [|r s IH]; intros i prev [|pos] Hp; simpl in Hp; try lia; try (exists prev; rewrite Nat.add_0_r; done).
  destruct (IH (S i) (Some r) pos) as [prev' E]; [lia|]. exists prev'. cbn [Regex.points drop]. rewrite E. f_equal. lia.
Qed.

(** The fields of a text, a run at a time. *)
Lemma fields_skip f n s : all f n → fields_loop f [] (n ++ s) = fields_loop f [] s.
Proof. induction 1 as [|r n Hr _ IH]; [done|]. simpl. by rewrite Hr. Qed.
Lemma fields_word f cur w rest :
  all (negb ∘ f) w → stops (negb ∘ f) rest → cur ++ w ≠ [] →
  fields_loop f cur (w ++ rest) = (cur ++ w) :: fields_loop f [] rest.
Proof.
  intros Hw Hs. revert cur. induction Hw as [|r w Hr _ IH]; intros cur Hne.
  - rewrite app_nil_r in *. destruct rest as [|r rest]; simpl; [by rewrite decide_False|].
    simpl in Hs. apply negb_false_iff in Hs. by rewrite Hs, decide_False.
  - simpl. simpl in Hr. apply negb_true_iff in Hr. rewrite Hr. rewrite IH by (by destruct cur). by rewrite <-app_assoc.
Qed.

Section found_words.
Context `{UnicodeTables} `{!TableLaws}.

Definition unwordy (r : Z) : bool := negb (wordy r).

Lemma first_match_skip n s : ∀ i prev,
  plain_text (n ++ s) → all unwordy n →
  ∃ prev', Regex.first_match word_regex (Regex.points i prev (n ++ s))
           = Regex.first_match word_regex (Regex.points (i + length n) prev' s).
Proof.
  induction n as [|r n IH]; intros i prev Hp Hn.
  - exists prev. cbn. by rewrite Nat.add_0_r.
  - apply Forall_cons in Hn as [Hr Hn]. cbn [app Regex.points Regex.first_match].
    rewrite word_none; [|done|by apply negb_true_iff in Hr]. cbn [fmap option_fmap option_map Regex.choice].
    apply Forall_cons in Hp as [_ Hp]. destruct (IH (S i) (Some r) Hp Hn) as [prev' E]. exists prev'.
    rewrite E. f_equal. f_equal. cbn. lia.
Qed.

Lemma first_match_word w rest i prev :
  plain_text (w ++ rest) → w ≠ [] → all wordy w → stops wordy rest →
  ∃ q, Regex.first_match word_regex (Regex.points i prev (w ++ rest)) = Some (i, q) ∧ Regex.at_ q = (i + length w)%nat.
Proof.
  intros Hp Hne Hw Hs. destruct w as [|r w]; [done|]. cbn [app Regex.points Regex.first_match].
  erewrite (word_run _ (r :: w) rest); [|done..]. eexists. split; [done|]. done.
Qed.

(** The next word from a position, or none. *)
Lemma find_from_none s pos :
  (pos ≤ length s)%nat → plain_text s → all unwordy (drop pos s) → Regex.find_from (with_groups [WordToken]) s pos = None.
Proof.
  intros Hpos Hp Hn. unfold Regex.find_from. fold word_regex. destruct (drop_points s 0 None pos Hpos) as [prev ->].
  rewrite <-(app_nil_r (drop pos s)).
  destruct (first_match_skip (drop pos s) [] (0 + pos) prev) as [prev' ->]; [|done|].
  - rewrite app_nil_r. by apply Forall_drop.
  - cbn [Regex.points Regex.first_match]. rewrite word_none; [done|constructor|done].
Qed.
Lemma find_from_word s pos n w rest :
  (pos ≤ length s)%nat → plain_text s → drop pos s = n ++ w ++ rest → all unwordy n → w ≠ [] → all wordy w → stops wordy rest →
  ∃ gs, Regex.find_from (with_groups [WordToken]) s pos = Some (pos + length n, pos + length n + length w, gs)%nat.
Proof.
  intros Hpos Hp Hd Hn Hne Hw Hs. unfold Regex.find_from. fold word_regex.
  destruct (drop_points s 0 None pos Hpos) as [prev ->]. apply (Forall_drop _ pos) in Hp. rewrite Hd in *.
  destruct (first_match_skip n (w ++ rest) (0 + pos) prev) as [prev' ->]; [done..|].
  apply plain_app in Hp as [_ Hp].
  destruct (first_match_word w rest (0 + pos + length n) prev') as (q & -> & ->); [done..|]. by eexists.
Qed.

Lemma find_all_words s : plain_text s → ∀ fuel pos prev, (pos ≤ length s)%nat → (length s - pos < fuel)%nat →
  (λ m, Regex.extract s m.1.1 m.1.2) <$> Regex.find_all fuel (with_groups [WordToken]) s pos prev
  = fields_loop unwordy [] (drop pos s).
Proof.
  intros Hp. induction fuel as [|fuel IH]; intros pos prev Hpos Hf; [lia|]. cbn [Regex.find_all].
  rewrite (proj2 (Nat.ltb_ge _ _)) by lia.
  destruct (cut_run unwordy (drop pos s)) as (n & s1 & Hd & Hn & Hs1).
  destruct (cut_run wordy s1) as (w & rest & -> & Hw & Hs). destruct (decide (w = [])) as [->|Hne].
  { destruct rest as [|r rest]; [|simpl in *; unfold unwordy in Hs1; by rewrite Hs in Hs1].
    rewrite !app_nil_r in Hd. rewrite find_from_none by (by rewrite ?Hd). rewrite Hd, <-(app_nil_r n), fields_skip; done. }
  destruct (find_from_word s pos n w rest) as [gs ->]; [done..|].
  assert (length (drop pos s) = length n + length w + length rest)%nat as Hlen by (rewrite Hd, !length_app; lia).
  rewrite length_drop in Hlen. assert (0 < length w)%nat by (destruct w; simpl; [done|lia]).
  rewrite (proj2 (Nat.eqb_neq _ _)) by lia. cbn [fmap list_fmap fst snd]. rewrite IH by lia.
  rewrite Hd, fields_skip by done.
  rewrite (fields_word unwordy [] w rest); [| |by destruct rest; simpl in *; unfold unwordy; rewrite ?Hs|done].
  2: { eapply Forall_impl; [apply Hw|]. intros r Hr. simpl. unfold unwordy. by rewrite Hr. }
  f_equal.
  - unfold Regex.extract. rewrite <-drop_drop, Hd, drop_app_length.
    replace (pos + length n + length w - (pos + length n))%nat with (length w) by lia. apply take_app_length.
  - f_equal. rewrite <-Nat.add_assoc, <-drop_drop, Hd, app_assoc. rewrite <-length_app. apply drop_app_length.
Qed.

End found_words.

(** ** Roman numerals *)

Lemma fields_nonempty f s : Forall (λ w, w ≠ []) (FieldsFunc s f).
Proof.
  enough (∀ cur, Forall (λ w, w ≠ []) (fields_loop f cur s)) as Hall by apply Hall.
  induction s as [|c s IH]; intros cur; simpl.
  - case_decide; repeat constructor; done.
  - destruct (f c); [|apply IH]. apply Forall_app. split; [case_decide; repeat constructor; done|apply IH].
Qed.
Lemma fields_members f (P : Z → Prop) s : Forall P s → Forall (Forall (λ c, f c = false ∧ P c)) (FieldsFunc s f).
Proof.
  unfold FieldsFunc. intros Hs.
  assert (Forall (λ c, f c = false ∧ P c) ([] : runes)) as Hc by constructor. revert Hc. generalize ([] : runes).
  induction Hs as [|c s Hc Hs IH]; intros cur Hcur; simpl.
  - case_decide; repeat constructor; done.
  - destruct (f c) eqn:E; [|apply IH, Forall_app; by repeat constructor].
    apply Forall_app. split; [case_decide; repeat constructor; done|by apply IH].
Qed.

(** Texts that differ only in what separates the fields. *)
Lemma fields_ext f g l l' :
  Forall2 (λ a b, a = b ∧ f a = g b ∨ f a = true ∧ g b = true) l l' → FieldsFunc l f = FieldsFunc l' g.
Proof.
  unfold FieldsFunc. intros Hl. generalize ([] : runes). induction Hl as [|a b l l' Hab _ IH]; intros cur; [done|].
  simpl. destruct Hab as [[-> ->]|[-> ->]]; [|by rewrite IH]. destruct (g b); by rewrite IH.
Qed.

Section roman.
Context `{UnicodeLaws}.

Lemma lower_ascii s : Forall is_ascii s → Forall is_ascii (lower s).
Proof.
  unfold lower. intros Hs. apply Forall_fmap. eapply Forall_impl; [done|]. intros r Hr. unfold is_ascii in *. simpl.
  rewrite ascii_ToLower by done. unfold ascii_upper. case_match; lia.
Qed.
Lemma lower_lower s : Forall is_ascii s → Forall (λ c, ascii_upper c = false) s → lower s = s.
Proof.
  induction 1 as [|c s Hc _ IH]; intros Hu; [done|]. apply Forall_cons in Hu as [Hu Hus].
  cbn [lower fmap list_fmap]. rewrite ascii_ToLower, Hu by done. f_equal. by apply IH.
Qed.

Definition romanized (tok : runes) : runes := default tok (roman_of tok).

(** A numeral is not one again in digits, and the word part is none. *)
Lemma romanArabic_once : Forall (λ e : runes * runes, Forall is_ascii e.2 ∧ Forall (λ c, ascii_upper c = false) e.2 ∧ table_get romanArabic e.2 = None) romanArabic.
Proof. apply (bool_decide_unpack _). by vm_compute. Qed.

Lemma roman_of_arabic tok ar : roman_of tok = Some ar → roman_of ar = None.
Proof.
  unfold roman_of. intros Hr. destruct (table_get _ _) as [a|] eqn:E; [|done]. destruct (isPureRoman _); [|done].
  injection Hr as ->. unfold table_get in E. apply fmap_Some in E as ([i e] & He & ->).
  apply list_find_Some in He as (He & _ & _). apply list_elem_of_lookup_2 in He.
  destruct (proj1 (Forall_forall _ _) romanArabic_once e He) as (Ha & Hu & Hn).
  change (compose snd snd (i, e)) with e.2. by rewrite lower_lower, Hn.
Qed.
Lemma roman_of_part tok : lower tok = runes_of "part" → roman_of tok = None.
Proof. unfold roman_of. by intros ->. Qed.

Lemma romanized_idem tok : romanized (romanized tok) = romanized tok.
Proof.
  unfold romanized at 2 3. destruct (roman_of tok) as [ar|] eqn:E; simpl; unfold romanized;
    [by rewrite (roman_of_arabic tok)|by rewrite E].
Qed.

Lemma romanized_insert (tokens : list runes) (i : nat) tok :
  tokens !! i = Some tok → romanized <$> <[i := romanized tok]> tokens = romanized <$> tokens.
Proof. intros Hi. rewrite list_fmap_insert, romanized_idem. apply list_insert_id. by rewrite list_lookup_fmap, Hi. Qed.

Lemma set_romanized (tokens : list runes) (i : nat) tok :
  tokens !! i = Some tok →
  match roman_of tok with Some ar => <[i := ar]> tokens | None => tokens end = <[i := romanized tok]> tokens.
Proof.
  intros Hi. unfold romanized. destruct (roman_of tok); simpl; [done|]. by rewrite list_insert_id.
Qed.

(** One turn of the loop rewrites tokens in place, at most the next. *)
Lemma roman_loop_spec fuel : ∀ i tokens,
  (length tokens - i ≤ fuel)%nat → take i (romanized <$> tokens) = take i tokens →
  roman_loop fuel i tokens = romanized <$> tokens.
Proof.
  induction fuel as [|fuel IH]; intros i tokens Hf Ht; cbn [roman_loop].
  - rewrite !take_ge in Ht by (rewrite ?length_fmap; lia). done.
  - destruct (tokens !! i) as [tok|] eqn:Hi.
    2: { apply lookup_ge_None in Hi. rewrite !take_ge in Ht by (rewrite ?length_fmap; lia). done. }
    apply lookup_lt_Some in Hi as Hlt.
    destruct (bool_decide (lower tok = runes_of "part") && _) eqn:Hpart.
    + apply andb_true_iff in Hpart as [Hp%bool_decide_eq_true Hlen%Nat.ltb_lt].
      destruct (lookup_lt_is_Some_2 tokens (i + 1) Hlen) as [next Hn]. rewrite Hn. cbn [mbind option_bind].
      rewrite (set_romanized _ _ next) by done. rewrite IH.
      * by apply romanized_insert.
      * rewrite length_insert. lia.
      * rewrite romanized_insert by done. rewrite take_insert_ge by lia.
        erewrite !take_S_r by (rewrite ?list_lookup_fmap, ?Hi; done). rewrite Ht. do 2 f_equal.
        unfold romanized. by rewrite (roman_of_part tok).
    + rewrite (set_romanized _ _ tok) by done. rewrite IH.
      * by apply romanized_insert.
      * rewrite length_insert. lia.
      * rewrite romanized_insert by done.
        erewrite !take_S_r by (rewrite ?list_lookup_fmap, ?Hi, ?list_lookup_insert_eq; done).
        by rewrite take_insert_ge, Ht by lia.
Qed.

End roman.

(** ** The normal form of an ASCII title *)

Definition alnum (r : Z) : bool := ascii_lower r || ascii_upper r || ascii_digit r.
Definition apostrophe (r : Z) : bool := (r =? 39)%Z || (r =? 96)%Z.

Section normal_form.
Context `{HU : Unicode} `{!UnicodeLaws} `{HT : UnicodeTables} `{!TableLaws} `{!Rex} `{!RexFinds} `{HF : Transforms} `{!TransformLaws}.

(** Lower case, no apostrophes, [&] as a word, cut at everything that is
    neither a letter nor a digit. *)
Definition title_words (s : runes) : list runes :=
  FieldsFunc (lower (expand_and (filter (λ r, apostrophe r = false) s))) (λ r, negb (alnum r)).

Lemma wordTokenRegex_all s : Episodes.FindAllString wordTokenRegex s = Episodes.FindAllString (with_groups [WordToken]) s.
Proof.
  unfold Episodes.FindAllString, wordTokenRegex, rex_MustCompile, Regex.FindAllIndex.
  destruct (rex_Compile_finds [WordToken]) as (re & -> & Hre).
  cbn [default]. by rewrite (find_all_ext _ (with_groups [WordToken])).  
Qed.

Lemma plain_ascii s : plain_text s → Forall is_ascii s.
Proof. intros Hs. eapply Forall_impl; [apply Hs|]. by intros r [? _]. Qed.

Lemma plain_lower s : plain_text s → plain_text (lower s).
Proof.
  intros Hs. unfold plain_text, lower. apply Forall_fmap. eapply Forall_impl; [apply Hs|]. intros r [Hr Hp]. simpl.
  pose proof (lower_ascii [r]) as Ha. cbn in Ha. rewrite !Forall_singleton in Ha. split; [by apply Ha|].
  rewrite ascii_ToLower by done. destruct (ascii_upper r) eqn:Hu; [|done].
  apply (ascii_cases (λ r, ascii_upper r && token_punct (r + 32)) (λ _, false)) in Hr; [|by vm_compute].
  by rewrite Hu in Hr.
Qed.

Lemma filter_nonempty (l : list runes) : Forall (λ w, w ≠ []) l → filter (λ w, w ≠ []) l = l.
Proof. induction 1 as [|w l Hw _ IH]; [done|]. rewrite filter_cons, decide_True by done. by rewrite IH. Qed.

Lemma NormalizeString_words s : plain_text s → NormalizeString s = join_space (FieldsFunc (lower s) unwordy).
Proof.
  intros Hs. unfold NormalizeString. apply plain_lower in Hs. rewrite ascii_Recompose by by apply plain_ascii.
  rewrite wordTokenRegex_all. unfold Episodes.FindAllString, Regex.FindAllIndex.
  rewrite find_all_words by (done || lia). f_equal. apply filter_nonempty, fields_nonempty.
Qed.

(** What is left after folding and expanding. *)
Lemma fold_rune_cases r : is_ascii r →
  apostrophe r = true ∧ fold_rune r = []
  ∨ apostrophe r = false ∧ r = 38%Z ∧ fold_rune r = [38%Z]
  ∨ apostrophe r = false ∧ r ≠ 38%Z ∧ alnum r = false ∧ fold_rune r = [32%Z]
  ∨ apostrophe r = false ∧ r ≠ 38%Z ∧ token_punct r = false ∧ fold_rune r = [r].
Proof.
  intros Hr. unfold fold_rune. rewrite ascii_table_P, ascii_table_S by done.
  assert (bool_decide (r ∈ [39; 0x2019; 0x2018; 96]%Z) = apostrophe r) as ->.
  { revert r Hr. apply ascii_cases. by vm_compute. }
  destruct (apostrophe r) eqn:Ha; [by left|]. destruct (Z.eqb_spec r 38) as [->|Hne]; [by right; left|].
  destruct (ascii_punct r || ascii_symbol r) eqn:Hp; [right; right; left|right; right; right]; repeat split; try done.
  - apply (ascii_cases (λ r, (ascii_punct r || ascii_symbol r) && alnum r) (λ _, false)) in Hr; [|by vm_compute].
    by rewrite Hp in Hr.
  - apply (ascii_cases (λ r, negb (ascii_punct r || ascii_symbol r) && token_punct r) (λ _, false)) in Hr; [|by vm_compute].
    by rewrite Hp in Hr.
Qed.

Lemma expand_and_app a b : expand_and (a ++ b) = expand_and a ++ expand_and b.
Proof. unfold expand_and. by rewrite bind_app. Qed.
Lemma expand_other r : r ≠ 38%Z → expand_and [r] = [r].
Proof. intros. unfold expand_and. cbn. by rewrite (proj2 (Z.eqb_neq _ _)). Qed.

Lemma plain_runes (l : runes) : forallb (λ r, bool_decide (is_ascii r) && negb (token_punct r)) l = true → plain_text l.
Proof.
  rewrite forallb_forall. intros Hl. apply Forall_forall. intros r Hr%list_elem_of_In. apply Hl, andb_true_iff in Hr.
  destruct Hr as [?%bool_decide_eq_true ?%negb_true_iff]. done.
Qed.

Lemma folded_plain s : Forall is_ascii s → plain_text (expand_and (foldTitlePunct s)).
Proof.
  induction 1 as [|r s Hr _ IH]; [constructor|]. cbn [foldTitlePunct mbind list_bind]. rewrite expand_and_app.
  apply plain_app. split; [|done].
  destruct (fold_rune_cases r Hr) as [(_ & ->)|[(_ & -> & ->)|[(_ & _ & _ & ->)|(_ & Hne & Hp & ->)]]]; [by apply plain_runes..|].
  rewrite expand_other by done. by apply Forall_singleton.
Qed.

(** Where folding and deleting apostrophes agree as separators. *)
Definition same_fields (a b : Z) : Prop := a = b ∧ negb (alnum a) = negb (alnum b) ∨ negb (alnum a) = true ∧ negb (alnum b) = true.
Lemma same_fields_refl l : Forall2 same_fields l l.
Proof. induction l; constructor; [by left|done]. Qed.

Lemma lower_alnum r : is_ascii r → alnum r = false → alnum (ToLower r) = false.
Proof.
  intros Hr Ha. rewrite ascii_ToLower by done. destruct (ascii_upper r) eqn:Hu; [|done].
  unfold alnum in Ha. by rewrite Hu, orb_true_r in Ha.
Qed.

Lemma folded_fields s : Forall is_ascii s →
  Forall2 same_fields (lower (expand_and (foldTitlePunct s))) (lower (expand_and (filter (λ r, apostrophe r = false) s))).
Proof.
  induction 1 as [|r s Hr _ IH]; [constructor|]. cbn [foldTitlePunct mbind list_bind]. unfold lower in *.
  rewrite expand_and_app, fmap_app, filter_cons.
  destruct (fold_rune_cases r Hr) as [(Ha & ->)|[(Ha & -> & ->)|[(Ha & Hne & Hn & ->)|(Ha & Hne & Hp & ->)]]]; rewrite Ha; [done|..];
    rewrite decide_True by done; change (?x :: filter _ s) with ([x] ++ filter (λ r, apostrophe r = false) s);
    rewrite expand_and_app, fmap_app; (apply Forall2_app; [|done]); try apply same_fields_refl.
  rewrite !expand_other by done. constructor; [|constructor]. right.
  split; apply negb_true_iff, lower_alnum; done.
Qed.

Lemma title_words_fields s : Forall is_ascii s → FieldsFunc (lower (expand_and (foldTitlePunct s))) unwordy = title_words s.
Proof.
  intros Hs. unfold title_words. rewrite <-(fields_ext (λ r, negb (alnum r)) _ _ _ (folded_fields s Hs)).
  apply fields_ext. pose proof (plain_ascii _ (plain_lower _ (folded_plain s Hs))) as Ha.
  induction Ha as [|r l Hr _ IH]; constructor; [|done]. left. split; [done|]. unfold unwordy. by rewrite wordy_ascii.
Qed.

Lemma alnum_not_space r : is_ascii r → alnum r = true → IsSpace r = false.
Proof.
  intros Hr Ha. apply (ascii_cases (λ r, alnum r && IsSpace r) (λ _, false)) in Hr; [|by vm_compute]. by rewrite Ha in Hr.
Qed.
Lemma title_words_field s : Forall is_ascii s → Forall field (title_words s).
Proof.
  intros Hs. rewrite <-title_words_fields by done.
  pose proof (plain_ascii _ (plain_lower _ (folded_plain s Hs))) as Ha.
  apply (fields_members unwordy) in Ha.
  pose proof (fields_nonempty unwordy (lower (expand_and (foldTitlePunct s)))) as Hn. revert Ha Hn.
  generalize (FieldsFunc (lower (expand_and (foldTitlePunct s))) unwordy). intros ws Ha Hn.
  unfold field. apply Forall_and. split; [done|].
  eapply Forall_impl; [apply Ha|]. intros w Hw. eapply Forall_impl; [apply Hw|]. intros r [Hu Hr].
  apply alnum_not_space; [done|]. unfold unwordy in Hu. rewrite wordy_ascii in Hu by done. by apply negb_false_iff in Hu.
Qed.

Lemma ascii_no_kana s : Forall is_ascii s → ContentFilter.ContainsKana s = false.
Proof.
  induction 1 as [|r s Hr _ IH]; [done|]. unfold ContentFilter.ContainsKana in *. cbn [existsb]. rewrite IH.
  unfold ContentFilter.IsKanaChar. by destruct (ascii_not_kana r Hr) as [-> ->].
Qed.

Lemma NormalizeTitle_words s :
  Forall is_ascii s → NormalizeTitleForMatch (foldTitlePunct s) = join_space (romanized <$> strip_article (title_words s)).
Proof.
  intros Hs. pose proof (folded_plain s Hs) as Hp. pose proof (plain_ascii _ Hp) as Ha.
  unfold NormalizeTitleForMatch. rewrite ascii_no_kana, ascii_Unidecode, NormalizeString_words by done.
  rewrite title_words_fields, Fields_join by (done || by apply title_words_field). f_equal.
  apply roman_loop_spec; [lia|done].
Qed.

(** The form under which the matcher compares an ASCII title is what its words say: the title in lower case without apostrophes and backticks, the ampersand read as the word and, cut into the longest runs of letters and digits, without one leading article when a word follows, and with the roman numerals I to XX in digits. So any other punctuation is a mere word break, and the in-place loop over the numerals rewrites every token exactly once, a numeral after part included. *)
Theorem title_normal_form s :
  Forall is_ascii s → NormalizeTitleForMatch (foldTitlePunct s) = join_space (romanized <$> strip_article (title_words s)).
Proof. apply NormalizeTitle_words. Qed.

End normal_form.

(** ** Kana runs *)

(** A rune that the transliteration has nothing to say about. *)
Definition neutral (r : Z) : Prop := katakana r = r ∧ r ≠ sokuon ∧ r ≠ choonpu ∧ table_get kanaMono [r] = None.

Definition is_mono (r : Z) : bool := bool_decide (is_Some (table_get kanaMono [r])).
Lemma digraph_parts :
  Forall (λ e : runes * runes, match e.1 with [a; b] => is_mono a && is_mono b | _ => false end = true) kanaDigraph.
Proof. apply (bool_decide_unpack _). by vm_compute. Qed.
Lemma neutral_not_mono r : neutral r → is_mono r = false.
Proof. intros (_ & _ & _ & Hn). unfold is_mono. by rewrite Hn. Qed.

Lemma digraph_neutral a b : neutral a ∨ neutral b → table_get kanaDigraph [a; b] = None.
Proof.
  intros Hn. destruct (table_get kanaDigraph [a; b]) as [rom|] eqn:E; [|done]. exfalso.
  unfold table_get in E. apply fmap_Some in E as ([i e] & He & _). apply list_find_Some in He as (He & Hk & _).
  apply list_elem_of_lookup_2 in He. pose proof (proj1 (Forall_forall _ _) digraph_parts e He) as Hd. simpl in Hk, Hd. rewrite Hk in Hd.
  apply andb_true_iff in Hd as [Ha Hb]. destruct Hn as [Hn%neutral_not_mono|Hn%neutral_not_mono]; congruence.
Qed.

Definition written_after (w : runes) (st : romaji) : romaji := mkRomaji (w ++ written st) (geminate st) (lastVowel st).
Lemma emit_after w rom st : emit rom (written_after w st) = written_after w (emit rom st).
Proof. unfold emit, written_after. case_decide; simpl; [done|]. by rewrite !app_assoc. Qed.
Lemma single_after w r st : single r (written_after w st) = written_after w (single r st).
Proof. unfold single. destruct (table_get kanaMono [r]); [apply emit_after|]. unfold written_after. simpl. by rewrite app_assoc. Qed.

Lemma list_two_ind {A} (P : list A → Prop) :
  P [] → (∀ a, P [a]) → (∀ a b l, P l → P (b :: l) → P (a :: b :: l)) → ∀ l, P l.
Proof.
  intros H0 H1 H2 l. enough (P l ∧ ∀ a, P (a :: l)) as [? _] by done.
  induction l as [|b l [IH1 IH2]]; [done|]. split; [done|]. intros a. by apply H2.
Qed.

Lemma romaji_step st a b rs :
  romaji_loop st (a :: b :: rs) =
    if (a =? sokuon)%Z then romaji_loop (mkRomaji (written st) true (lastVowel st)) (b :: rs)
    else if (a =? choonpu)%Z then
      romaji_loop (mkRomaji (written st ++ (if (lastVowel st =? 0)%Z then [] else [lastVowel st])) (geminate st) (lastVowel st)) (b :: rs)
    else match table_get kanaDigraph [a; b] with
         | Some rom => romaji_loop (emit rom st) rs
         | None => romaji_loop (single a st) (b :: rs)
         end.
Proof. reflexivity. Qed.

Lemma romaji_after w rs : ∀ st, romaji_loop (written_after w st) rs = w ++ romaji_loop st rs.
Proof.
  induction rs as [|a|a b rs IH1 IH2] using list_two_ind; intros st; [done| |].
  - cbn [romaji_loop]. destruct (a =? sokuon)%Z; [done|]. destruct (a =? choonpu)%Z; [by cbn; rewrite app_assoc|].
    by rewrite single_after.
  - rewrite !romaji_step, single_after. destruct (a =? sokuon)%Z; [|destruct (a =? choonpu)%Z].
    + apply (IH2 (mkRomaji (written st) true (lastVowel st))).
    + rewrite <-IH2. unfold written_after. cbn [written geminate lastVowel]. by rewrite app_assoc.
    + destruct (table_get kanaDigraph [a; b]); [rewrite emit_after; apply IH1|apply IH2].
Qed.

(** A rune that is not kana cuts a title into parts that are transliterated on their own: the rune stays as it is, and neither a small tsu nor a long-vowel mark acts across it. In particular a title without kana is unchanged. *)
Theorem kana_runs a r b : neutral r → KanaToRomaji (a ++ r :: b) = KanaToRomaji a ++ r :: KanaToRomaji b.
Proof.
  intros Hr. unfold KanaToRomaji. rewrite fmap_app. cbn [fmap list_fmap]. pose proof Hr as (Hk & Hs & Hc & Hm). rewrite Hk.
  assert (∀ st rest, romaji_loop st (r :: rest) = written st ++ r :: romaji_loop (mkRomaji [] false 0) rest) as Hstep.
  { intros st rest. change (r :: romaji_loop (mkRomaji [] false 0) rest) with ([r] ++ romaji_loop (mkRomaji [] false 0) rest).
    rewrite app_assoc, <-romaji_after. cbn [romaji_loop].
    rewrite (proj2 (Z.eqb_neq _ _) Hs), (proj2 (Z.eqb_neq _ _) Hc).
    assert (single r st = written_after (written st ++ [r]) (mkRomaji [] false 0)) as ->.
    { unfold single, written_after. rewrite Hm. cbn. by rewrite app_nil_r. }
    destruct rest; [done|]. by rewrite digraph_neutral by (by left). }
  generalize (mkRomaji [] false 0) at 1 2. generalize (katakana <$> a). clear a.
  intros a. induction a as [|x|x y a IH1 IH2] using list_two_ind; intros st; [apply Hstep| |].
  - cbn [app romaji_loop]. destruct (x =? sokuon)%Z; [apply Hstep|]. destruct (x =? choonpu)%Z; [apply Hstep|].
    rewrite digraph_neutral by (by right). apply Hstep.
  - change ((x :: y :: a) ++ r :: (katakana <$> b)) with (x :: y :: (a ++ r :: (katakana <$> b))). rewrite !romaji_step.
    destruct (x =? sokuon)%Z; [apply IH2|]. destruct (x =? choonpu)%Z; [apply IH2|].
    destruct (table_get kanaDigraph [x; y]); [apply IH1|apply IH2].
Qed.

(** ** Witnesses *)

Section witnesses.
#[local] Existing Instances ascii_unicode ascii_unicode_laws title_tables title_tables_laws group_rex group_rex_finds
  plain_transforms plain_transforms_laws.

Lemma title_normal_form_witness :
  NormalizeTitleForMatch (foldTitlePunct (runes_of "The Bride's Tale: Part II")) = runes_of "brides tale part 2".
Proof.
  rewrite (title_normal_form (runes_of "The Bride's Tale: Part II")); [by vm_compute|].
  apply (bool_decide_unpack _). by vm_compute.
Defined.

Lemma kana_runs_witness : KanaToRomaji (utf8 "きっ、ター") = utf8 "ki、taa".
Proof.
  change (utf8 "きっ、ター") with (utf8 "きっ" ++ 12289%Z :: utf8 "ター").
  rewrite (kana_runs (utf8 "きっ") 12289 (utf8 "ター")); [by vm_compute|]. split_and!; by vm_compute.
Defined.
End witnesses.
 End Titles.
