(* ===== verification/Languages.v ===== *)
(** * Languages

    [internal/model/language.go]: the languages the catalogue knows, from the
    table of [languages.csv] that is part of the program; how a name is read as
    a language ([ParseLanguage]) and which languages the name of a release
    mentions ([InferLanguages]); and the text of a set of languages in the
    database and in JSON.

    A language is its code of two letters.  Where the source ranges over a map,
    the order is an argument. *)
From S2P Require Import Prelude Protocol Lexer Metainfo Regex Anime Keywords Episodes ContentFilter Titles.
From stdpp Require Import list strings sets gmap sorting.
From Stdlib Require Import ZArith Lia.

Module Languages.
Import Lexer Keywords Anime Titles.

(** [languages.csv], without its first line. *)
Definition languagesCsv : list string := [
    "af,afr,Afrikaans,"; "ar,ara,Arabic,"; "az,aze,Azerbaijani,"; "be,bel,Belarusian,";
    "bg,bul,Bulgarian,bbgaudio"; "bs,bos,Bosnian,"; "ca,cat,Catalan,Valencian|catalán"; "ce,che,Chechen,";
    "co,cos,Corsican,"; "cs,cze,Czech,cz"; "cy,wel,Welsh,"; "da,dan,Danish,";
    "de,ger,German,"; "el,gre,Greek,"; "en,eng,English,ing"; "es,spa,Spanish,Castilian|castellano|Español|esp|Latino|lat";
    "et,est,Estonian,"; "eu,baq,Basque,"; "fa,per,Persian,"; "fi,fin,Finnish,";
    "fr,fre,French,FR|VF|VF2|VFF|VFQ|TRUEFRENCH"; "he,heb,Hebrew,HEBDUB"; "hi,hin,Hindi,"; "hr,hrv,Croatian,";
    "hu,hun,Hungarian,HUNDUB"; "hy,arm,Armenian,"; "id,ind,Indonesian,"; "is,ice,Icelandic,";
    "it,ita,Italian,"; "ja,jpn,Japanese,"; "ka,geo,Georgian,"; "ko,kor,Korean,";
    "ku,kur,Kurdish,"; "lt,lit,Lithuanian,"; "lv,lav,Latvian,"; "mi,mao,Maori,";
    "mk,mac,Macedonian,"; "ml,mal,Malayalam,"; "mn,mon,Mongolian,"; "ms,may,Malay,";
    "mt,mlt,Maltese,"; "nl,dut,Dutch,Flemish"; "no,nor,Norwegian,"; "pl,pol,Polish,";
    "pt,por,Portuguese,"; "ro,rum,Romanian,Moldavian|Moldovan|rodubbed"; "ru,rus,Russian,"; "sa,san,Sanskrit,";
    "sk,slo,Slovak,"; "sl,slv,Slovenian,"; "sm,smo,Samoan,"; "so,som,Somali,";
    "sr,srp,Serbian,"; "sv,swe,Swedish,"; "ta,tam,Tamil,"; "th,tha,Thai,";
    "tr,tur,Turkish,"; "uk,ukr,Ukrainian,"; "vi,vie,Vietnamese,"; "yi,yid,Yiddish,";
    "zh,chi,Chinese,cn|Mandarin|Cantonese|简|繁|字幕"; "zu,zul,Zulu,"].

Record languageInfo := mkInfo { name : runes; alpha3 : runes; lowerName : runes; aliases : list runes; lowerAliases : list runes }.

(** [strings.Split] at a rune. *)
Fixpoint split_at (c : Z) (s : runes) : list runes :=
  match s with
  | [] => [[]]
  | r :: s =>
      if (r =? c)%Z then [] :: split_at c s
      else match split_at c s with p :: ps => (r :: p) :: ps | [] => [[r]] end
  end.

(** The columns of a line: the code, and the spellings beside it. *)
Definition csv_columns (line : string) : option (string * (runes * runes * list runes)) :=
  match split_at 44 (utf8 line) with
  | alpha2 :: alpha3 :: name :: aliases :: _ =>
      Some (Regex.string_of alpha2, (take 3 alpha3, name, filter (λ a, a ≠ []) (TrimSpace <$> split_at 124 aliases)))
  | _ => None
  end.
Definition csv_rows : list (string * (runes * runes * list runes)) := omap csv_columns languagesCsv.

(** No line is too short: the program would panic when it starts. *)
Example csv_complete : Forall (λ l, is_Some (csv_columns l)) languagesCsv ∧ length csv_rows = 62%nat.
Proof. split; [apply (bool_decide_unpack _)|]; by vm_compute. Qed.

Section languages.
Context `{Unicode}.

Definition row_info (row : runes * runes * list runes) : languageInfo :=
  let '(alpha3, name, aliases) := row in mkInfo name alpha3 (lower name) aliases (lower <$> aliases).

(** [languagesMap] as [init] fills it, in the order of [languageValues]. *)
Definition languagesMap : list (string * languageInfo) := prod_map id row_info <$> csv_rows.

Definition info (l : string) : option languageInfo := snd ∘ snd <$> list_find (λ e, e.1 = l) languagesMap.
Definition IsValid (l : string) : bool := bool_decide (is_Some (info l)).
Definition Alpha3 (l : string) : runes := match info l with Some i => alpha3 i | None => [0; 0; 0]%Z end.
Definition Name (l : string) : runes := match info l with Some i => name i | None => [] end.
Definition Aliases (l : string) : list runes := match info l with Some i => aliases i | None => [] end.
Definition LanguageValues : list string := languagesMap.*1.
Definition LanguageNames : list runes := (name ∘ snd) <$> languagesMap.

(** The loop of [ParseLanguage] over the map, in some order. *)
Definition names_language (n : runes) (e : string * languageInfo) : bool :=
  bool_decide (n = Alpha3 e.1) || bool_decide (lowerName e.2 = n) || bool_decide (n ∈ lowerAliases e.2).
Definition ParseLanguage (order : list (string * languageInfo)) (n : runes) : option string :=
  let n := lower n in
  match (if decide (byte_len n = 2%nat) then list_find (λ l, runes_of l = n) LanguageValues else None) with
  | Some (_, l) => Some l
  | None => fst ∘ snd <$> list_find (λ e, names_language n e = true) order
  end.

Definition newLanguagesRegex `{UnicodeTables} `{!Rex} : go Regex.regexp :=
  MustNewRegexFromKeywords (LanguageValues ≫= λ l,
    [runes_of l ++ runes_of "dub"; Alpha3 l; lower (Name l)] ++ (lower <$> Aliases l)).
Definition languagesRegex `{UnicodeTables} `{!Rex} : Regex.regexp :=
  match newLanguagesRegex with Ok re => re | _ => Regex.never end.

(** [strings.TrimSuffix] *)
Definition TrimSuffix (s suffix : runes) : runes :=
  let n := (length s - length suffix)%nat in if bool_decide (drop n s = suffix) then take n s else s.

(** The loop of [InferLanguages]; a match is not empty, so the length of the
    text is enough.  An empty set is the nil map. *)
Fixpoint infer_loop `{UnicodeTables} `{!Rex} (fuel : nat) (languages : gset string) (input : runes) : gset string :=
  match fuel with
  | O => languages
  | S fuel =>
      match Regex.find languagesRegex input with
      | None => languages
      | Some (_, j, gs) =>
          let substr := match head gs with Some (Some (a, b)) => Regex.extract input a b | _ => [] end in
          let languages :=
            match ParseLanguage languagesMap (TrimSuffix substr (runes_of "dub")) with
            | Some l => {[l]} ∪ languages
            | None => languages
            end in
          infer_loop fuel languages (drop j input)
      end
  end.
Definition InferLanguages `{UnicodeTables} `{!Rex} (input : runes) : gset string := infer_loop (S (length input)) ∅ input.

(** ** Sets of languages as values *)

Inductive languageError := InvalidLanguage | InvalidType.

(** The values of a column or of JSON: text or not. *)
Fixpoint scan_languages (l : list runes) (languages : gset string) : languageError + gset string :=
  match l with
  | [] => inr languages
  | s :: l =>
      match ParseLanguage languagesMap s with
      | None => inl InvalidLanguage
      | Some lang => scan_languages l ({[lang]} ∪ languages)
      end
  end.
Definition Languages_Scan (value : option (option (list runes))) : languageError + gset string :=
  match value with
  | None => inr ∅
  | Some None => inl InvalidType
  | Some (Some l) => scan_languages l ∅
  end.
(** [json.Unmarshal] is an argument: the strings of an array, or its error. *)
Definition Languages_UnmarshalJSON (decoded : languageError + list runes) : languageError + gset string :=
  match decoded with inl e => inl e | inr l => scan_languages l ∅ end.

(** [Slice] sorts by name, by the order of facette/natsort. *)
Definition by_name (natsort : runes → runes → bool) (a b : string) : Prop := natsort (Name a) (Name b) = true.
#[global] Instance by_name_dec natsort : RelDecision (by_name natsort) := λ a b, decide (natsort (Name a) (Name b) = true).
Definition Languages_Slice (natsort : runes → runes → bool) (languages : gset string) : list string :=
  merge_sort (by_name natsort) (elements languages).
Definition Languages_Value (natsort : runes → runes → bool) (languages : gset string) : option (list runes) :=
  if decide (languages = ∅) then None else Some (runes_of <$> Languages_Slice natsort languages).

(** [Language.Scan]: an element of a JSON array keeps its quotes. *)
Definition unquoted (v : runes) : runes :=
  match v with
  | [q; a; b; q'] => if (q =? 34)%Z && (q' =? 34)%Z then [a; b] else v
  | _ => v
  end.
Definition Language_Scan (v : option runes) : languageError + string :=
  match v with
  | None => inl InvalidType
  | Some v => match ParseLanguage languagesMap (unquoted v) with Some l => inr l | None => inl InvalidLanguage end
  end.
Definition NullLanguage_Scan (value : option (option runes)) : languageError + option string :=
  match value with
  | None => inr None
  | Some None => inl InvalidType
  | Some (Some []) => inr None
  | Some (Some v) => match ParseLanguage languagesMap v with Some l => inr (Some l) | None => inl InvalidLanguage end
  end.

End languages.

(** ** The tests of the source *)
Section tests.
#[local] Existing Instances ascii_unicode title_tables group_rex.

Example parse_language_tests :
  (λ t, ParseLanguage languagesMap (utf8 t)) <$> ["en"; "eng"; "English"; "moldovan"; "fr"; "xx"; ""]
  = [Some "en"; Some "en"; Some "en"; Some "ro"; Some "fr"; None; None].
Proof. by vm_compute. Qed.

Example infer_languages_tests :
  (λ t, elements (InferLanguages (runes_of t))) <$>
    ["eng"; "English"; "moldovan"; "en, eng, English, moldovan"; "foo bar en, eng, English, moldovan, fr, French bat bing"; "foo"]
  = [["en"]; ["en"]; ["ro"]; ["en"; "ro"]; ["en"; "fr"; "ro"]; []].
Proof. by vm_compute. Qed.

(** A dub in lower case names its language, in upper case it does not: the
    pattern ignores case but the suffix is cut as it is written. *)
Example infer_dub_case :
  (λ t, elements (InferLanguages (runes_of t))) <$> ["Film.1080p.rudub.x264"; "Film.1080p.RUDUB.x264"; "Film.1080p.HUNDUB.x264"]
  = [["ru"]; []; ["hu"]].
Proof. by vm_compute. Qed.
End tests.

(** ** Every spelling names one language *)

(** CJK ideographs have no case. *)
Definition ideograph (r : Z) : Prop := (0x4E00 ≤ r ≤ 0x9FFF)%Z.
#[export] Instance ideograph_dec r : Decision (ideograph r) := and_dec (Z_le_dec _ r) (Z_le_dec r _).
Class CaselessLaws `{Unicode} := { ideograph_ToLower r : ideograph r → ToLower r = r }.

(** Texts that may be equal in lower case, as far as ASCII and ideographs tell. *)
Definition known (r : Z) : Prop := is_ascii r ∨ ideograph r.
#[export] Instance known_dec r : Decision (known r) := or_dec (decide (is_ascii r)) (decide (ideograph r)).
Definition ascii_down (r : Z) : Z := if ascii_upper r then (r + 32)%Z else r.
Definition may_agree (r s : Z) : bool :=
  negb (bool_decide (known r) && bool_decide (known s)) || (ascii_down r =? ascii_down s)%Z.
Fixpoint may_equal (a b : runes) : bool :=
  match a, b with
  | [], [] => true
  | r :: a, s :: b => may_agree r s && may_equal a b
  | _, _ => false
  end.

Definition row_spellings (row : string * (runes * runes * list runes)) : list runes :=
  let '(l, (alpha3, name, aliases)) := row in runes_of l :: alpha3 :: name :: aliases.
Definition rows_apart (r1 r2 : string * (runes * runes * list runes)) : bool :=
  bool_decide (r1 = r2) || forallb (λ a, forallb (λ b, negb (may_equal a b)) (row_spellings r2)) (row_spellings r1).
Lemma csv_apart : forallb (λ r1, forallb (rows_apart r1) csv_rows) csv_rows = true.
Proof. by vm_compute. Qed.
(** The codes are lower case, two and three letters. *)
Lemma csv_codes : forallb (λ r : string * (runes * runes * list runes),
  bool_decide (length (runes_of r.1) = 2%nat) && forallb ascii_lower (runes_of r.1) && forallb ascii_lower r.2.1.1) csv_rows = true.
Proof. by vm_compute. Qed.
Lemma csv_codes_distinct : NoDup csv_rows.*1.
Proof. apply (bool_decide_unpack _). by vm_compute. Qed.

#[local] Opaque csv_rows.
Section spellings.
Context `{HU : Unicode} `{!UnicodeLaws} `{!CaselessLaws}.

Lemma known_ToLower r : known r → ToLower r = ascii_down r.
Proof.
  unfold ascii_down. intros [Hr|Hr]; [by rewrite ascii_ToLower|]. rewrite ideograph_ToLower by done.
  unfold ideograph in Hr. unfold ascii_upper. by rewrite (proj2 (Z.leb_gt r 90)), andb_false_r by lia.
Qed.
Lemma lower_may_equal a b : lower a = lower b → may_equal a b = true.
Proof.
  revert b. induction a as [|r a IH]; intros [|s b] E; try done. injection E as Er Ea. cbn [may_equal].
  rewrite IH, andb_true_r by done. unfold may_agree.
  destruct (decide (known r)) as [Hr|]; [|by rewrite bool_decide_false]. destruct (decide (known s)) as [Hs|].
  2: by rewrite (bool_decide_false (known s)), andb_false_r.
  rewrite !bool_decide_true by done. rewrite !known_ToLower in Er by done. simpl. by apply Z.eqb_eq.
Qed.

Lemma code_lower s : forallb ascii_lower s = true → lower s = s.
Proof.
  rewrite forallb_forall. intros Hs.
  apply lower_lower; apply Forall_forall; intros r Hr%list_elem_of_In%Hs; revert Hr; unfold ascii_lower, is_ascii, ascii_upper; lia.
Qed.

Lemma row_codes row : row ∈ csv_rows →
  byte_len (runes_of row.1) = 2%nat ∧ lower (runes_of row.1) = runes_of row.1 ∧ lower row.2.1.1 = row.2.1.1.
Proof.
  intros Hrow. pose proof csv_codes as Hc. rewrite forallb_forall in Hc. apply list_elem_of_In, Hc in Hrow.
  apply andb_true_iff in Hrow as [[Hlen%bool_decide_eq_true Hl]%andb_true_iff Ha].
  split_and!; [|by apply code_lower..].
  destruct (runes_of row.1) as [|a [|b [|]]]; try done. cbn in Hl. bool_hyps. unfold byte_len, rune_len. cbn.
  repeat match goal with H : ascii_lower _ = true |- _ => unfold ascii_lower in H end.
  rewrite !(proj2 (Z.ltb_lt _ _)) by lia. done.
Qed.

Lemma row_of l i : (l, i) ∈ languagesMap ↔ ∃ row, (l, row) ∈ csv_rows ∧ i = row_info row.
Proof.
  unfold languagesMap. rewrite list_elem_of_fmap. split.
  - intros ([l' row] & [= -> ->] & Hrow). by exists row.
  - intros (row & Hrow & ->). by exists (l, row).
Qed.

Lemma info_row l row : (l, row) ∈ csv_rows → info l = Some (row_info row).
Proof.
  intros Hrow. unfold info, languagesMap. pose proof csv_codes_distinct as Hd. revert Hrow Hd.
  generalize csv_rows. intros rows. induction rows as [|[l' row'] rows IH]; intros Hrow Hd; [by apply elem_of_nil in Hrow|].
  cbn [fmap list_fmap list_find prod_map fst snd id]. apply NoDup_cons in Hd as [Hn Hd].
  apply elem_of_cons in Hrow as [[= <- <-]|Hrow]; [by rewrite decide_True|].
  rewrite decide_False. 2: { intros ->. apply Hn. apply list_elem_of_fmap. by exists (l, row). }
  specialize (IH Hrow Hd). destruct (list_find _ _) as [[i e]|]; [|done]. simpl in *. by injection IH as ->.
Qed.

(** The spellings of a language: its codes, its name and its aliases. *)
Definition spelling (l : string) (w : runes) : Prop := ∃ row, (l, row) ∈ csv_rows ∧ w ∈ lower <$> row_spellings (l, row).

Lemma spelling_unique l l' w : spelling l w → spelling l' w → l = l'.
Proof.
  intros (row & Hrow & Hw) (row' & Hrow' & Hw').
  apply list_elem_of_fmap in Hw as (a & -> & Ha). apply list_elem_of_fmap in Hw' as (b & E%lower_may_equal & Hb).
  pose proof csv_apart as Hap. rewrite forallb_forall in Hap. specialize (Hap _ (proj1 (list_elem_of_In _ _) Hrow)).
  rewrite forallb_forall in Hap. specialize (Hap _ (proj1 (list_elem_of_In _ _) Hrow')).
  unfold rows_apart in Hap. apply orb_true_iff in Hap as [[= ->]%bool_decide_eq_true|Hap]; [done|].
  rewrite forallb_forall in Hap. specialize (Hap a (proj1 (list_elem_of_In _ _) Ha)).
  rewrite forallb_forall in Hap. specialize (Hap b (proj1 (list_elem_of_In _ _) Hb)). by rewrite E in Hap.
Qed.

Lemma elem_spellings w l a3 nm al :
  w ∈ lower <$> row_spellings (l, (a3, nm, al)) ↔ w = lower (runes_of l) ∨ w = lower a3 ∨ w = lower nm ∨ w ∈ lower <$> al.
Proof. cbn [row_spellings fmap list_fmap]. by rewrite !elem_of_cons. Qed.

Lemma names_spelling n l i : (l, i) ∈ languagesMap → names_language n (l, i) = true ∨ n = runes_of l ↔ spelling l n.
Proof.
  intros Hli. apply row_of in Hli as (row & Hrow & ->). destruct (row_codes _ Hrow) as (_ & Hl & Ha).
  unfold names_language, spelling, Alpha3. cbn [fst snd]. rewrite (info_row _ _ Hrow).
  rewrite !orb_true_iff, !bool_decide_eq_true. destruct row as [[a3 nm] al]. cbn [row_info alpha3 lowerName lowerAliases fst snd] in *. split.
  - intros [[[->| <-]|Hal]| ->]; exists (a3, nm, al); (split; [done|]); rewrite elem_spellings, ?Hl, ?Ha; eauto.
  - intros (row' & Hrow' & Hw). pose proof (info_row _ _ Hrow) as E. rewrite (info_row _ _ Hrow') in E.
    destruct row' as [[a3' nm'] al']. injection E as -> -> _ -> _. rewrite elem_spellings, Hl, Ha in Hw.
    destruct Hw as [->|[->|[->|Hw]]]; eauto.
Qed.

Lemma ParseLanguage_spelling order n l :
  order ≡ₚ languagesMap → ParseLanguage order n = Some l ↔ spelling l (lower n).
Proof.
  intros Ho. unfold ParseLanguage. set (w := lower n).
  assert (∀ j l', list_find (λ l, runes_of l = w) LanguageValues = Some (j, l') → spelling l' w) as Hcode.
  { intros j l' E. apply list_find_Some in E as (Hl & <- & _). apply list_elem_of_lookup_2 in Hl.
    unfold LanguageValues in Hl. apply list_elem_of_fmap in Hl as ([l0 i] & -> & Hli). apply (names_spelling _ _ i); eauto. }
  assert (∀ j e, list_find (λ e, names_language w e = true) order = Some (j, e) → spelling e.1 w) as Hname.
  { intros j [l' i] E. apply list_find_Some in E as (Hl & He & _). apply list_elem_of_lookup_2 in Hl. rewrite Ho in Hl.
    apply (names_spelling _ _ i); eauto. }
  split.
  - case_match eqn:E; [|by intros ([j e] & Ef%Hname & ->)%fmap_Some]. destruct p as [j l']. intros [= <-].
    case_decide; [by apply Hcode in E|done].
  - intros Hs. assert (∃ row, (l, row) ∈ csv_rows) as (row & Hrow) by (destruct Hs as (row & ? & _); eauto). destruct (row_codes _ Hrow) as (H2 & _ & _).
    case_match eqn:E.
    + destruct p as [j l']. case_decide; [|done]. apply Hcode in E. f_equal. by apply (spelling_unique _ _ w).
    + destruct (list_find (λ e, names_language w e = true) order) as [[j e]|] eqn:Ef.
      { pose proof (Hname _ _ eq_refl) as Hsp. cbn. f_equal. by apply (spelling_unique _ _ w). }
      exfalso. assert ((l, row_info row) ∈ languagesMap) as Hin by (apply row_of; eauto).
      destruct (proj2 (names_spelling w l (row_info row) Hin) Hs) as [Hn|Hn].
      * rewrite list_find_None, Forall_forall in Ef. apply (Ef (l, row_info row)); [by rewrite Ho|done].
      * rewrite decide_True in E by (by rewrite Hn). rewrite list_find_None, Forall_forall in E. apply (E l); [|done].
        apply list_elem_of_fmap. by exists (l, row_info row).
Qed.

(** A set of known languages survives its column in the database. *)
Lemma scan_codes ls : ∀ X, Forall (λ l, l ∈ LanguageValues) ls → scan_languages (runes_of <$> ls) X = inr (list_to_set ls ∪ X).
Proof.
  induction ls as [|l ls IH]; intros X Hls; cbn [fmap list_fmap scan_languages].
  - f_equal. set_solver.
  - apply Forall_cons in Hls as [Hl Hls]. apply list_elem_of_fmap in Hl as ([l' i] & -> & Hli).
    apply row_of in Hli as (row & Hrow & ->). cbn [fst].
    rewrite (proj2 (ParseLanguage_spelling languagesMap (runes_of l') l' (reflexivity _))).
    + rewrite IH by done. f_equal. set_solver.
    + exists row. split; [done|]. destruct row as [[a3 nm] al]. rewrite elem_spellings. by left.
Qed.

(** A language that is inferred from a text is spelled by a part of it, perhaps with the suffix of a dub. *)
Lemma infer_loop_sound `{UnicodeTables} `{!Rex} fuel : ∀ X pre input l,
  l ∈ infer_loop fuel X input →
  l ∈ X ∨ ∃ i j, spelling l (lower (TrimSuffix (Regex.extract (pre ++ input) i j) (runes_of "dub"))).
Proof.
  induction fuel as [|fuel IH]; intros X pre input l Hl; cbn [infer_loop] in Hl; [by left|].
  destruct (Regex.find languagesRegex input) as [[[i j] gs]|]; [|by left].
  destruct (IH _ (pre ++ take j input) _ l Hl) as [Hin|Hsp].
  - destruct (ParseLanguage languagesMap _) as [l'|] eqn:E; [|by left].
    apply elem_of_union in Hin as [->%elem_of_singleton|Hin]; [|by left]. right.
    apply ParseLanguage_spelling in E; [|done]. destruct gs as [|[[a b]|] gs]; cbn [head] in E; [by exists 0%nat, 0%nat| |by exists 0%nat, 0%nat].
    exists (length pre + a)%nat, (length pre + b)%nat. unfold Regex.extract in *.
    replace (length pre + b - (length pre + a))%nat with (b - a)%nat by lia. by rewrite drop_app_add.
  - right. by rewrite <-app_assoc, take_drop in Hsp.
Qed.
Theorem infer_languages_sound `{UnicodeTables} `{!Rex} s l :
  l ∈ InferLanguages s → ∃ i j, spelling l (lower (TrimSuffix (Regex.extract s i j) (runes_of "dub"))).
Proof. intros [?%elem_of_empty|Hsp]%(infer_loop_sound _ _ []); done. Qed.

(** ParseLanguage answers a language exactly when the name is, up to case, one of the spellings the table gives it: its code of two or three letters, its name or an alias; and whatever the order in which the map is read, since no spelling belongs to two languages. *)
Theorem parse_language_exact order n l :
  order ≡ₚ languagesMap → ParseLanguage order n = Some l ↔ spelling l (lower n).
Proof. apply ParseLanguage_spelling. Qed.

(** A set of known languages, written to its database column as the sorted list of its codes and read back, is the same set, whatever the order of natsort; the empty set is null. *)
Theorem languages_scan_value natsort X :
  (∀ l, l ∈ X → l ∈ LanguageValues) → Languages_Scan (Some <$> Languages_Value natsort X) = inr X.
Proof.
  intros HX. unfold Languages_Value. case_decide as E; [by rewrite E|]. cbn [fmap option_fmap option_map Languages_Scan].
  rewrite scan_codes; unfold Languages_Slice.
  - f_equal. rewrite merge_sort_Permutation, list_to_set_elements_L. set_solver.
  - apply Forall_forall. intros l. rewrite merge_sort_Permutation, elem_of_elements. apply HX.
Qed.

End spellings.

(** ** Witnesses *)
Section witnesses.
#[local] Existing Instances ascii_unicode ascii_unicode_laws.
#[local] Instance ascii_caseless : @CaselessLaws ascii_unicode.
Proof.
  split. intros r Hr. cbn. unfold ideograph in Hr. unfold ascii_upper. by rewrite (proj2 (Z.leb_gt r 90)), andb_false_r by lia.
Qed.

Lemma parse_language_exact_witness :
  ParseLanguage (rev languagesMap) (runes_of "Castilian") = Some "es"%string.
Proof.
  apply (parse_language_exact (rev languagesMap) (runes_of "Castilian") "es"); [symmetry; apply Permutation_rev|].
  exists (utf8 "spa", utf8 "Spanish", utf8 <$> ["Castilian"; "castellano"; "Español"; "esp"; "Latino"; "lat"]%string).
  split; apply (bool_decide_eq_true_1 _); by vm_compute.
Defined.

Lemma languages_scan_value_witness :
  Languages_Scan (Some <$> Languages_Value (λ _ _, false) {["en"; "ja"]}) = inr ({["en"; "ja"]} : gset string).
Proof.
  apply (languages_scan_value (λ _ _, false) {["en"; "ja"]}). intros l Hl.
  apply elem_of_union in Hl as [->%elem_of_singleton| ->%elem_of_singleton]; apply (bool_decide_eq_true_1 _); by vm_compute.
Defined.
End witnesses.
 End Languages.
