(* ===== verification/Tmdb.v ===== *)
(** * The TMDB client

    [internal/tmdb]: the chain of requesters behind the client
    ([requester*.go]), the requests the client makes ([client.go]), and how the
    details of a film or a series become a catalogue entry
    ([transformers.go]), with its alternative titles.

    HTTP and JSON are an interface: what a request answers, and what a body
    says.  A requester is a function on its state, which holds the world behind
    it.  Retries and traces of the HTTP client are inside that interface.
    Floating-point numbers are passed through and stand for themselves. *)
From S2P Require Import Prelude Protocol Lexer Metainfo SHA256 Regex Dates Anime Keywords Workflow Classifier ContentFilter Titles Languages.
From stdpp Require Import list strings sets gmap sorting pretty.
From Stdlib Require Import ZArith Lia Sorted.

Module SHA1.
Local Open Scope Z_scope.
Import SHA256.

(** [crypto/sha1.Sum], with the words and the padding of [SHA256]. *)
Definition rotl (x c : Z) : Z := Z.lor (uint32 (Z.shiftl x c)) (Z.shiftr x (32 - c)).
Definition sha1_H : list Z := [1732584193; 4023233417; 2562383102; 271733878; 3285377520].

(** The schedule, last word first. *)
Definition schedule1_step (ws : list Z) : list Z :=
  rotl (Z.lxor (Z.lxor (nth 2 ws 0) (nth 7 ws 0)) (Z.lxor (nth 13 ws 0) (nth 15 ws 0))) 1 :: ws.
Definition schedule1 (block : bytes) : list Z := rev (Nat.iter 64 schedule1_step (rev (be_words 16 block))).

Definition sha1_round (ist : nat * list Z) (w : Z) : nat * list Z :=
  let '(i, st) := ist in
  match st with
  | [a; b; c; d; e] =>
      let '(f, k) :=
        if (i <? 20)%nat then (ch b c d, 1518500249)
        else if (i <? 40)%nat then (Z.lxor (Z.lxor b c) d, 1859775393)
        else if (i <? 60)%nat then (maj b c d, 2400959708)
        else (Z.lxor (Z.lxor b c) d, 3395469782) in
      (S i, [uint32 (rotl a 5 + f + e + w + k); a; rotl b 30; c; d])
  | _ => (S i, st)
  end.
Definition sha1_block (st : list Z) (block : bytes) : list Z :=
  zip_with (λ x y, uint32 (x + y)) st (foldl sha1_round (0%nat, st) (schedule1 block)).2.
Fixpoint sha1_blocks (n : nat) (st : list Z) (m : bytes) : list Z :=
  match n with O => st | S n => sha1_blocks n (sha1_block st (take 64 m)) (drop 64 m) end.
Definition Sum (m : bytes) : bytes :=
  let p := sha_pad m in sha1_blocks (length p / 64)%nat sha1_H p ≫= put_be32.

Example sha1_abc : hex_encode (Sum [97; 98; 99]) = "a9993e364706816aba3e25717850c26c9cd0d89d"%string.
Proof. by vm_compute. Qed.
End SHA1.

Module Tmdb.
Import Lexer Anime Titles.

(** ** Requests *)

Record request := mkRequest { r_path : runes; r_params : gmap string runes }.

Inductive tmdbError :=
| ErrUnauthorized
| ErrNotFound
| StatusError (status : Z)
| TransportError (url : runes)
| ContextError
| ErrDisabled
| ErrNoAPIKey
| ErrKeyRejected
| ErrBadDate.
#[export] Instance tmdbError_eq_dec : EqDecision tmdbError.
Proof. solve_decision. Defined.

(** [errors.Is(err, ErrUnauthorized)]; the rejection of the key wraps it. *)
Definition is_unauthorized (e : tmdbError) : bool :=
  match e with ErrUnauthorized | ErrKeyRejected => true | _ => false end.

(** What the HTTP client answers: no response and the URL of the request, or a
    status and a body. *)
Class Resty (W B : Type) := { resty_Get : request → W → W * (runes + Z * B) }.

Definition apiKeyParam : Regex.regexp :=
  default Regex.never (Regex.Compile (runes_of "api_key=[^&" ++ [34%Z] ++ runes_of "\s]+")).
Section redact.
Context `{UnicodeTables}.
Definition redactAPIKey (s : runes) : runes := Regex.ReplaceAllString apiKeyParam s (runes_of "api_key=REDACTED").
End redact.

Section requester.
Context `{UnicodeTables} {W B : Type} `{!Resty W B}.

(** The state of the chain: the world, and the flag of [requesterFailFast]. *)
Record chain := mkChain { c_world : W; isUnauthorized : bool }.

(** What the limiter and the semaphore answer to a request: whether the
    context ends while it waits. *)
Record waits := mkWaits { limiter_fails : bool; semaphore_fails : bool }.

Definition requester_Request (req : request) (w : W) : W * (tmdbError + B) :=
  match resty_Get req w with
  | (w, inl url) => (w, inl (TransportError (redactAPIKey url)))
  | (w, inr (status, body)) =>
      (w, if ((200 <=? status) && (status <=? 299))%Z then inr body
          else if (status =? 401)%Z then inl ErrUnauthorized
          else if (status =? 404)%Z then inl ErrNotFound
          else inl (StatusError status))
  end.
Definition limiter_Request (x : waits) (req : request) (w : W) : W * (tmdbError + B) :=
  if limiter_fails x then (w, inl ContextError) else requester_Request req w.
Definition semaphore_Request (x : waits) (req : request) (w : W) : W * (tmdbError + B) :=
  if semaphore_fails x then (w, inl ContextError) else limiter_Request x req w.
Definition failFast_Request (x : waits) (req : request) (c : chain) : chain * (tmdbError + B) :=
  if isUnauthorized c then (c, inl ErrUnauthorized)
  else match semaphore_Request x req (c_world c) with
       | (w, inl e) => (mkChain w (is_unauthorized e), inl e)
       | (w, inr b) => (mkChain w false, inr b)
       end.
(** The logger changes nothing. *)
Definition logger_Request : waits → request → chain → chain * (tmdbError + B) := failFast_Request.

(** [requesterLazy]: the first request builds the chain and validates the key,
    once; its error is kept. *)
Record config := mkConfig { Enabled : bool; APIKey : runes }.
Inductive lazy_state := Unbuilt (w : W) | Built (err : option tmdbError) (c : chain).

Definition authentication : request := mkRequest (runes_of "/authentication") ∅.
Definition newRequester (cfg : config) (x : waits) (w : W) : chain * option tmdbError :=
  if negb (Enabled cfg) then (mkChain w false, Some ErrDisabled)
  else if decide (APIKey cfg = []) then (mkChain w false, Some ErrNoAPIKey)
  else match logger_Request x authentication (mkChain w false) with
       | (c, inl e) => (c, Some (if is_unauthorized e then ErrKeyRejected else e))
       | (c, inr _) => (c, None)
       end.
Definition lazy_Request (cfg : config) (x : waits * waits) (req : request) (s : lazy_state) : lazy_state * (tmdbError + B) :=
  let '(err, c) :=
    match s with
    | Unbuilt w => let '(c, err) := newRequester cfg x.1 w in (err, c)
    | Built err c => (err, c)
    end in
  match err with
  | Some e => (Built err c, inl e)
  | None => let '(c, r) := logger_Request x.2 req c in (Built None c, r)
  end.

End requester.
Arguments chain : clear implicits.
Arguments lazy_state : clear implicits.

(** ** The client *)

Definition Itoa (z : Z) : runes := runes_of (pretty z).

Record SearchRequest := mkSearch { q_Query : runes; q_IncludeAdult : bool; q_Year : Z }.

Definition optional (k : string) (v : option runes) : gmap string runes := match v with Some v => {[k := v]} | None => ∅ end.
Definition search_params (q : SearchRequest) (year : string) : gmap string runes :=
  {["query" := q_Query q]} ∪ optional "include_adult" (if q_IncludeAdult q then Some (runes_of "true") else None)
  ∪ optional year (if Dates.Year_IsNil (q_Year q) then None else Some (Dates.Year_String (q_Year q))).
(** Of the requests, the fields that the classifier sets. *)
Definition SearchMovie_request (q : SearchRequest) : request := mkRequest (runes_of "/search/movie") (search_params q "year").
Definition SearchTv_request (q : SearchRequest) : request := mkRequest (runes_of "/search/tv") (search_params q "first_air_date_year").
Fixpoint join_comma (l : list runes) : runes :=
  match l with [] => [] | [x] => x | x :: l => x ++ [44%Z] ++ join_comma l end.
Definition details_params (append : list string) : gmap string runes :=
  optional "append_to_response" (match append with [] => None | _ => Some (join_comma (runes_of <$> append)) end).
Definition MovieDetails_request (id : Z) (append : list string) : request :=
  mkRequest (runes_of "/movie/" ++ Itoa id) (details_params append).
Definition TvDetails_request (id : Z) (append : list string) : request :=
  mkRequest (runes_of "/tv/" ++ Itoa id) (details_params append).
Definition FindByID_request (source : string) (id : runes) : request :=
  mkRequest (runes_of "/find/" ++ id) {["external_source" := runes_of source]}.

(** ** Responses: the fields that are read *)

Record SearchResult := mkSearchResult { s_ID : Z; s_Title : runes; s_OriginalTitle : runes; s_ReleaseDate : runes }.
Record Genre := mkGenre { g_ID : Z; g_Name : runes }.
Record AlternativeTitle := mkAlternative { a_Iso3166_1 : runes; a_Title : runes }.
Record Translation := mkTranslation { t_Iso3166_1 : runes; t_DataTitle : runes; t_DataName : runes }.
Record Details := mkDetails {
  d_Adult : bool; d_BackdropPath : runes; d_Collection : Genre; d_Genres : list Genre; d_ID : Z; d_IMDbID : runes; d_TVDBID : Z;
  d_OriginalLanguage : runes; d_OriginalTitle : runes; d_Overview : runes; d_Popularity : Z; d_PosterPath : runes;
  d_ReleaseDate : runes; d_Runtime : Z; d_Title : runes; d_VoteAverage : Z; d_VoteCount : Z;
  d_AlternativeTitles : list AlternativeTitle; d_Translations : list Translation }.
Record FindByIDResponse := mkFind { MovieResults : list Z; TvResults : list Z }.

(** [json.Unmarshal] into the result of a request. *)
Class TmdbJson (B : Type) := {
  decode_search : B → list SearchResult;
  decode_details : B → Details;
  decode_find : B → FindByIDResponse }.

(** ** Catalogue entries, [transformers.go] *)

Record ContentCollection := mkCollection { cc_Type : string; cc_Source : runes; cc_ID : runes; cc_Name : runes }.
Record ContentAttribute := mkAttribute { ca_Source : runes; ca_Key : runes; ca_Value : runes }.
Record ModelContent := mkModel {
  m_Type : string; m_Source : runes; m_ID : runes; m_Title : runes; m_ReleaseDate : Dates.Date; m_ReleaseYear : Z;
  m_Adult : option bool; m_OriginalLanguage : option string; m_OriginalTitle : runes; m_Overview : option runes;
  m_Runtime : option Z; m_Popularity : Z; m_VoteAverage : Z; m_VoteCount : Z;
  m_Collections : list ContentCollection; m_Attributes : list ContentAttribute }.

(** The part of an entry that the classifier reads. *)
Definition content_of (m : ModelContent) : Classifier.Content :=
  Classifier.mkContent (m_Type m) (m_Source m) (m_ID m) (m_Title m) (m_ReleaseYear m) (m_OriginalLanguage m)
    (Classifier.NewNullString (m_OriginalTitle m)) ((λ a, (ca_Key a, ca_Value a)) <$> m_Attributes m).

Definition SourceTmdb : runes := runes_of "tmdb".
Definition SourceImdb : runes := runes_of "imdb".
Definition SourceTvdb : runes := runes_of "tvdb".
Definition AltTitleAttributePrefix : runes := runes_of "alt_title:".
Definition maxAltTitleAttributes : nat := 64.

(** The bytes of a string. *)
Definition encode_rune (r : Z) : bytes :=
  (if r <? 128 then [r]
   else if r <? 2048 then [192 + r / 64; 128 + r mod 64]
   else if r <? 65536 then [224 + r / 4096; 128 + (r / 64) mod 64; 128 + r mod 64]
   else [240 + r / 262144; 128 + (r / 4096) mod 64; 128 + (r / 64) mod 64; 128 + r mod 64])%Z.
Definition encode_utf8 (s : runes) : bytes := s ≫= encode_rune.

(** The order of strings; that of their bytes is that of their runes. *)
Fixpoint runes_le (a b : runes) : bool :=
  match a, b with
  | [], _ => true
  | _ :: _, [] => false
  | x :: a, y :: b => if (x <? y)%Z then true else if (y <? x)%Z then false else runes_le a b
  end.
Definition key_le (a b : ContentAttribute) : Prop := runes_le (ca_Key a) (ca_Key b) = true.
#[export] Instance key_le_dec : RelDecision key_le := λ a b, decide (runes_le (ca_Key a) (ca_Key b) = true).

Section transformers.
Context `{Unicode}.

Definition normalizeAltTitleKey (s : runes) : runes := lower (join_space (Fields s)).

(** The closure [add], on the titles seen and the attributes so far. *)
Definition alt_key (iso3166 norm : runes) : runes :=
  AltTitleAttributePrefix ++ lower iso3166 ++ [58%Z] ++ runes_of (hex_encode (take 4 (SHA1.Sum (encode_utf8 norm)))).
Definition alt_add (st : gset runes * list ContentAttribute) (entry : runes * runes) : gset runes * list ContentAttribute :=
  let '(seen, attrs) := st in
  let title := TrimSpace entry.2 in
  if decide (title = []) then st
  else
    let norm := normalizeAltTitleKey title in
    if decide (norm ∈ seen) then st
    else ({[norm]} ∪ seen, attrs ++ [mkAttribute SourceTmdb (alt_key entry.1 norm) title]).

Definition alt_entries (altTitles : list AlternativeTitle) (translations : list Translation) : list (runes * runes) :=
  ((λ t, (a_Iso3166_1 t, a_Title t)) <$> altTitles)
  ++ ((λ t, (t_Iso3166_1 t, if decide (t_DataTitle t = []) then t_DataName t else t_DataTitle t)) <$> translations).

(** Keys are equal only when hashes collide, so it does not matter that
    [sort.Slice] is not stable. *)
Definition AltTitleAttributes (canonicalTitles : list runes) (altTitles : list AlternativeTitle) (translations : list Translation)
  : list ContentAttribute :=
  let '(_, attrs) := foldl alt_add (list_to_set (normalizeAltTitleKey <$> canonicalTitles), []) (alt_entries altTitles translations) in
  take maxAltTitleAttributes (merge_sort key_le attrs).

Definition genre_collection (g : Genre) : ContentCollection := mkCollection "genre" SourceTmdb (Itoa (g_ID g)) (g_Name g).
Definition attribute_if (b : bool) (source key value : runes) : list ContentAttribute :=
  if b then [mkAttribute source key value] else [].
Definition paths (d : Details) : list ContentAttribute :=
  attribute_if (nonempty (d_PosterPath d)) SourceTmdb (runes_of "poster_path") (d_PosterPath d)
  ++ attribute_if (nonempty (d_BackdropPath d)) SourceTmdb (runes_of "backdrop_path") (d_BackdropPath d).
Definition overview (d : Details) : option runes := if decide (d_Overview d = []) then None else Some (d_Overview d).

Definition release_date (s : runes) : outcome Dates.parseError Dates.Date :=
  if decide (s = []) then Ok Dates.zero else Dates.NewDateFromIsoString s.

Definition MovieDetailsToMovieModel (d : Details) : outcome Dates.parseError ModelContent :=
  date ← release_date (d_ReleaseDate d);
  Ok (mkModel (if d_Adult d then "xxx" else "movie") SourceTmdb (Itoa (d_ID d)) (d_Title d) date (Dates.Year date)
    (Some (d_Adult d)) (Languages.ParseLanguage Languages.languagesMap (d_OriginalLanguage d)) (d_OriginalTitle d) (overview d)
    (if (0 <? d_Runtime d)%Z then Some (uint16 (d_Runtime d)) else None) (d_Popularity d) (d_VoteAverage d) (wrap 64 (d_VoteCount d))
    ((if (g_ID (d_Collection d) =? 0)%Z then []
      else [mkCollection "franchise" SourceTmdb (Itoa (g_ID (d_Collection d))) (g_Name (d_Collection d))])
     ++ (genre_collection <$> d_Genres d))
    (attribute_if (nonempty (d_IMDbID d)) SourceImdb (runes_of "id") (d_IMDbID d) ++ paths d
     ++ AltTitleAttributes [d_Title d; d_OriginalTitle d] (d_AlternativeTitles d) (d_Translations d))).

Definition TvShowDetailsToTvShowModel (d : Details) : outcome Dates.parseError ModelContent :=
  date ← release_date (d_ReleaseDate d);
  Ok (mkModel "tv_show" SourceTmdb (Itoa (d_ID d)) (d_Title d) date (Dates.Year date)
    None (Languages.ParseLanguage Languages.languagesMap (d_OriginalLanguage d)) (d_OriginalTitle d) (overview d)
    None (d_Popularity d) (d_VoteAverage d) (wrap 64 (d_VoteCount d))
    (genre_collection <$> d_Genres d)
    (attribute_if (nonempty (d_IMDbID d)) SourceImdb (runes_of "id") (d_IMDbID d)
     ++ attribute_if (negb (d_TVDBID d =? 0)%Z) SourceTvdb (runes_of "id") (Itoa (d_TVDBID d)) ++ paths d
     ++ AltTitleAttributes [d_Title d; d_OriginalTitle d] (d_AlternativeTitles d) (d_Translations d))).

End transformers.

(** The source and identifier under which TMDB knows a reference. *)
Definition ExternalSource (ref : Classifier.ContentRef) : option (string * runes) :=
  let t := Classifier.r_Type ref in
  if bool_decide (t ∈ ["movie"; "tv_show"; "xxx"]) && bool_decide (Classifier.r_Source ref = SourceImdb)
  then Some ("imdb_id", Classifier.r_ID ref)
  else if bool_decide (t = "tv_show") && bool_decide (Classifier.r_Source ref = SourceTvdb)
  then Some ("tvdb_id", Classifier.r_ID ref)
  else None.

(** ** The chain refuses for good *)

Section refusal.
Context `{UnicodeTables} {W B : Type} `{!Resty W B} (cfg : config).

Definition lazy_world (s : lazy_state W) : W := match s with Unbuilt w => w | Built _ c => c_world c end.

(** A requester that has seen a rejected key. *)
Definition refusing (s : lazy_state W) : Prop :=
  match s with
  | Unbuilt _ => False
  | Built (Some e) _ => is_unauthorized e = true
  | Built None c => isUnauthorized c = true
  end.

Lemma failFast_refuses x req (c c' : chain W) e :
  failFast_Request (B := B) x req c = (c', inl e) → is_unauthorized e = true → isUnauthorized c' = true.
Proof.
  unfold failFast_Request. destruct (isUnauthorized c) eqn:E; [by intros [= <- <-]|].
  destruct (semaphore_Request x req (c_world c)) as [w [e'|b]]; by intros [= <- <-].
Qed.

Lemma lazy_refuses x req (s s' : lazy_state W) e :
  lazy_Request (B := B) cfg x req s = (s', inl e) → is_unauthorized e = true → refusing s'.
Proof.
  unfold lazy_Request. destruct s as [w|err c].
  - destruct (newRequester cfg x.1 w) as [c [e'|]]; [by intros [= <- <-]|].
    unfold logger_Request. destruct (failFast_Request x.2 req c) as [c' [e'|b]] eqn:E; intros [= <- <-] He.
    by eapply failFast_refuses.
  - destruct err as [e'|]; [by intros [= <- <-]|].
    unfold logger_Request. destruct (failFast_Request x.2 req c) as [c' [e'|b]] eqn:E; intros [= <- <-] He.
    by eapply failFast_refuses.
Qed.

Lemma refusing_step x req (s : lazy_state W) :
  refusing s → ∃ e, lazy_Request (B := B) cfg x req s = (s, inl e) ∧ is_unauthorized e = true.
Proof.
  destruct s as [w|[e|] c]; cbn; [done|by exists e|]. intros E. unfold logger_Request, failFast_Request. rewrite E.
  by exists ErrUnauthorized.
Qed.

(** A sequence of requests, with its answers. *)
Fixpoint lazy_requests (s : lazy_state W) (l : list (waits * waits * request)) : lazy_state W * list (tmdbError + B) :=
  match l with
  | [] => (s, [])
  | (x, req) :: l =>
      let '(s, r) := lazy_Request cfg x req s in
      let '(s, rs) := lazy_requests s l in (s, r :: rs)
  end.

(** Once TMDB has answered 401 to any request, the validation of the key included, every later request fails as unauthorized and none reaches the network: the world behind the client stays as that answer left it. *)
Theorem tmdb_fails_fast x req s s' e later :
  lazy_Request (B := B) cfg x req s = (s', inl e) → is_unauthorized e = true →
  (lazy_requests s' later).1 = s' ∧ Forall (λ r, ∃ e, r = inl e ∧ is_unauthorized e = true) (lazy_requests s' later).2.
Proof.
  intros Hr He. pose proof (lazy_refuses _ _ _ _ _ Hr He) as Hs. clear Hr. induction later as [|[y rq] later IH]; [done|].
  destruct (refusing_step y rq s' Hs) as (e' & E & He'). cbn [lazy_requests]. rewrite E.
  destruct (lazy_requests s' later) as [s'' rs]. destruct IH as [Hs' Hrs]. cbn in *. split; [done|]. constructor; [by exists e'|done].
Qed.

(** An error of the first request, also one of the network or of its context,
    is the answer to every later request. *)
Theorem tmdb_first_error_kept x req w e s later :
  lazy_Request (B := B) cfg x req (Unbuilt w) = (s, inl e) → (newRequester (B := B) cfg x.1 w).2 = Some e →
  (lazy_requests s later).1 = s ∧ Forall (λ r, r = inl e) (lazy_requests s later).2.
Proof.
  intros Hr Hn. unfold lazy_Request in Hr. destruct (newRequester cfg x.1 w) as [c err]. cbn in Hn. subst err.
  injection Hr as <-. induction later as [|[y rq] later IH]; [done|]. cbn [lazy_requests]. cbn [lazy_Request].
  destruct (lazy_requests _ later) as [s'' rs]. destruct IH as [Hs' Hrs]. cbn in *. split; [done|]. by constructor.
Qed.

End refusal.

(** ** Alternative titles *)

Section alternatives.
Context `{Unicode}.

(** What an attribute says, given the entries it was made from. *)
Definition alt_of (entries : list (runes * runes)) (a : ContentAttribute) : Prop :=
  ∃ iso title, (iso, title) ∈ entries ∧ ca_Value a = TrimSpace title ∧ ca_Value a ≠ [] ∧ ca_Source a = SourceTmdb
    ∧ ca_Key a = alt_key iso (normalizeAltTitleKey (ca_Value a)).
Definition norm_of (a : ContentAttribute) : runes := normalizeAltTitleKey (ca_Value a).

(** The invariant of the loop over the entries. *)
Definition alt_inv (canonical : gset runes) (entries : list (runes * runes)) (st : gset runes * list ContentAttribute) : Prop :=
  st.1 = canonical ∪ list_to_set (norm_of <$> st.2) ∧ NoDup (norm_of <$> st.2)
  ∧ Forall (λ a, alt_of entries a ∧ norm_of a ∉ canonical) st.2
  ∧ ∀ e, e ∈ entries → TrimSpace e.2 ≠ [] → normalizeAltTitleKey (TrimSpace e.2) ∈ st.1.

Lemma alt_of_more entries entries' a : alt_of entries a → alt_of (entries ++ entries') a.
Proof. intros (iso & t & Ht & Hr). exists iso, t. by rewrite elem_of_app; auto. Qed.

Lemma alt_add_inv canonical entries st e :
  alt_inv canonical entries st → alt_inv canonical (entries ++ [e]) (alt_add st e).
Proof.
  destruct st as [seen attrs]. intros (Hs & Hd & Hf & Hc). cbn [fst snd] in Hs, Hd, Hf, Hc. unfold alt_add.
  assert (Forall (λ a, alt_of (entries ++ [e]) a ∧ norm_of a ∉ canonical) attrs) as Hf'.
  { eapply Forall_impl; [apply Hf|]. intros a [? ?]. split; [by apply alt_of_more|done]. }
  case_decide as Ht; [|case_decide as Hseen].
  - split_and!; [done..|]. intros e' [?| ->%list_elem_of_singleton]%elem_of_app ?; [by apply Hc|done].
  - split_and!; [done..|]. intros e' [?| ->%list_elem_of_singleton]%elem_of_app ?; [by apply Hc|done].
  - set (n := normalizeAltTitleKey (TrimSpace e.2)). set (a := mkAttribute SourceTmdb (alt_key e.1 n) (TrimSpace e.2)).
    assert (norm_of <$> attrs ++ [a] = (norm_of <$> attrs) ++ [n]) as Hn by by rewrite fmap_app.
    unfold alt_inv. cbn [fst snd]. rewrite Hn. split_and!.
    + rewrite list_to_set_app_L, Hs. clearbody n. set_solver.
    + apply NoDup_app. split_and!; [done| |apply NoDup_singleton].
      intros x Hx ->%list_elem_of_singleton. apply Hseen. rewrite Hs. fold n. clearbody n. set_solver.
    + apply Forall_app. split; [done|]. apply Forall_singleton. split; [|change (norm_of a) with n; fold n in Hseen; clearbody n; set_solver].
      exists e.1, e.2. split; [|done]. rewrite <-surjective_pairing. set_solver.
    + intros e' [?| ->%list_elem_of_singleton]%elem_of_app ?; [|by apply elem_of_union_l, elem_of_singleton].
      apply elem_of_union_r. by apply Hc.
Qed.

Lemma alt_fold_inv canonical entries :
  alt_inv canonical entries (foldl alt_add (canonical, []) entries).
Proof.
  induction entries as [|e entries IH] using rev_ind; [split_and!; [set_solver|constructor..|set_solver]|].
  rewrite foldl_app. cbn [foldl]. by apply alt_add_inv.
Qed.

Lemma runes_le_total a b : runes_le a b = true ∨ runes_le b a = true.
Proof.
  revert b. induction a as [|x a IH]; intros [|y b]; cbn; auto.
  destruct (x <? y)%Z eqn:E1; [auto|]. destruct (y <? x)%Z eqn:E2; [auto|]. apply IH.
Qed.
Lemma runes_le_trans a b c : runes_le a b = true → runes_le b c = true → runes_le a c = true.
Proof.
  revert b c. induction a as [|x a IH]; intros [|y b] [|z c]; cbn; try done.
  destruct (Z.ltb_spec x y), (Z.ltb_spec y x), (Z.ltb_spec y z), (Z.ltb_spec z y), (Z.ltb_spec x z), (Z.ltb_spec z x);
    try lia; try done; try (intros; lia). apply IH.
Qed.
#[local] Instance key_le_total : Total key_le.
Proof. intros a b. apply runes_le_total. Qed.
#[local] Instance key_le_trans : Transitive key_le.
Proof. intros a b c. apply runes_le_trans. Qed.

(** The alternative titles kept for an entry are at most 64, sorted by key; each is the trimmed text of an entry of the response under the country and hash of that entry; no two of them, and none of them and a canonical title, agree up to case and spaces; and when fewer than 64 are kept, every entry with a title is kept or agrees with one that is, or with a canonical title. *)
Theorem alt_titles_kept canonicalTitles altTitles translations :
  let result := AltTitleAttributes canonicalTitles altTitles translations in
  let entries := alt_entries altTitles translations in
  length result ≤ maxAltTitleAttributes ∧ Sorted key_le result ∧ NoDup (norm_of <$> result)
  ∧ Forall (λ a, alt_of entries a ∧ norm_of a ∉ normalizeAltTitleKey <$> canonicalTitles) result
  ∧ (length result < maxAltTitleAttributes → ∀ iso title, (iso, title) ∈ entries → TrimSpace title ≠ [] →
       normalizeAltTitleKey (TrimSpace title) ∈ (normalizeAltTitleKey <$> canonicalTitles) ++ (norm_of <$> result)).
Proof.
  intros result entries. subst result. unfold AltTitleAttributes. fold entries.
  pose proof (alt_fold_inv (list_to_set (normalizeAltTitleKey <$> canonicalTitles)) entries) as Hinv.
  destruct (foldl alt_add _ entries) as [seen attrs]. destruct Hinv as (Hs & Hd & Hf & Hc). cbn [fst snd] in *.
  pose proof (merge_sort_Permutation key_le attrs) as Hp. pose proof (Sorted_merge_sort key_le attrs) as Hsort.
  revert Hp Hsort. generalize (merge_sort key_le attrs). intros l Hp Hsort.
  assert (l = take maxAltTitleAttributes l ++ drop maxAltTitleAttributes l) as Hl by (by rewrite take_drop).
  split_and!.
  - rewrite length_take. lia.
  - apply Sorted_StronglySorted in Hsort as Hss; [|intros ???; apply runes_le_trans].
    apply StronglySorted_Sorted. rewrite Hl in Hss. by apply StronglySorted_app_1_l in Hss.
  - rewrite <-Hp, Hl, fmap_app in Hd. by apply NoDup_app in Hd as (? & _).
  - rewrite <-Hp, Hl in Hf. apply Forall_app in Hf as [Hf _]. eapply Forall_impl; [apply Hf|].
    intros a [? Ha]. split; [done|]. by rewrite elem_of_list_to_set in Ha.
  - intros Hlen iso title He Ht. rewrite length_take in Hlen. rewrite take_ge by lia.
    specialize (Hc (iso, title) He Ht). cbn [snd] in Hc. rewrite Hs, elem_of_union, !elem_of_list_to_set, <-Hp in Hc.
    by rewrite elem_of_app.
Qed.

End alternatives.

(** ** Evaluations and witnesses *)
Section witnesses.
#[local] Existing Instances ascii_unicode title_tables.

(** A server that counts its requests and accepts only the first. *)
#[local] Instance one_answer : Resty nat unit :=
  {| resty_Get _ w := (S w, inr (if decide (w = 0%nat) then 200%Z else 401%Z, ())) |}.
(** A network that is down at first. *)
Definition later_up : Resty nat unit :=
  {| resty_Get _ w := (S w, if decide (w = 0%nat) then inl (runes_of "https://h/3/x?api_key=SECRET&q=1") else inr (200%Z, ())) |}.

Definition no_waits : waits * waits := (mkWaits false false, mkWaits false false).
Definition some_config : config := mkConfig true (runes_of "SECRET").

Lemma tmdb_fails_fast_witness :
  let s := (lazy_Request (B := unit) some_config no_waits authentication (Unbuilt 0%nat)).1 in
  (lazy_requests (B := unit) some_config s [(no_waits, authentication); (no_waits, authentication)]).1 = s.
Proof.
  apply (tmdb_fails_fast some_config no_waits authentication (Unbuilt 0%nat) _ ErrUnauthorized
           [(no_waits, authentication); (no_waits, authentication)]); [by vm_compute|done].
Defined.

(** The key is not in the error, and the first failure answers for ever. *)
Example redacted :
  redactAPIKey (runes_of "https://h/3/x?api_key=SECRET&q=1 api_key=OTHER") = runes_of "https://h/3/x?api_key=REDACTED&q=1 api_key=REDACTED".
Proof. by vm_compute. Qed.
Example first_error_kept :
  lazy_requests (Resty0 := later_up) some_config (Unbuilt 0%nat) [(no_waits, authentication); (no_waits, authentication)]
  = (Built (Some (TransportError (runes_of "https://h/3/x?api_key=REDACTED&q=1"))) (mkChain 1%nat false),
     [inl (TransportError (runes_of "https://h/3/x?api_key=REDACTED&q=1")); inl (TransportError (runes_of "https://h/3/x?api_key=REDACTED&q=1"))]).
Proof. by vm_compute. Qed.

(** The same titles in another order get other keys. *)
Theorem alt_titles_order :
  let us := mkAlternative (runes_of "US") (runes_of "The Title") in
  let gb := mkAlternative (runes_of "GB") (runes_of "the title") in
  (ca_Key <$> AltTitleAttributes [runes_of "Film"] [us; gb] [] = [runes_of "alt_title:us:c7392387"])
  ∧ (ca_Key <$> AltTitleAttributes [runes_of "Film"] [gb; us] [] = [runes_of "alt_title:gb:c7392387"]).
Proof. split; by vm_compute. Qed.
End witnesses.
 End Tmdb.
