(* ===== verification/Matching.v ===== *)
(** * Finding the content of a title

    [internal/classifier]: how a title read from a release name is matched to
    entries of the catalogue or of TMDB.  Scores of titles ([fuzzy.go]) and the
    choice of the best ([util.go]); the passes of a local search and its
    candidates ([search.go], [search_semaphore.go]); the search in TMDB
    ([tmdb.go], [metadata_identity.go]).

    The edit distance (agnivade/levenshtein) and the database are interfaces.
    A ratio of floating-point numbers is the pair of its integers: for token
    sets of fewer than 2^25 tokens the comparisons of the source, with each
    other and with 0.90, agree with those of the exact ratios; the product
    0.15 * n rounds to the exact value when it is an integer. *)
From S2P Require Import Prelude Protocol Lexer Fts Metainfo Regex Dates Anime Keywords Workflow Classifier ContentFilter Titles Languages Tmdb.
From stdpp Require Import list strings sets gmap sorting.
From Stdlib Require Import ZArith Lia Sorted.

(** [levenshtein.ComputeDistance] *)
Class Levenshtein := { ComputeDistance : runes → runes → nat }.
Class LevenshteinLaws `{Levenshtein} := { distance_zero a b : ComputeDistance a b = 0%nat ↔ a = b }.

Module Matching.
Import Lexer Anime Titles.
#[export] Existing Instances Classifier.ContentRef_eq_dec Tmdb.tmdbError_eq_dec.

(** ** Scores, [fuzzy.go] *)

Definition levenshteinThreshold : nat := 5.

Definition tokenSet (s : runes) : gset runes := list_to_set (Fields s).
(** Numerator and denominator of the ratio. *)
Definition tokenSetRatio (a b : runes) : nat * nat :=
  let aToks := tokenSet a in
  let bToks := tokenSet b in
  if decide (aToks = ∅ ∧ bToks = ∅) then (1, 1)%nat
  else if decide (aToks = ∅ ∨ bToks = ∅) then (0, 1)%nat
  else
    let intersect := size (aToks ∩ bToks) in
    (intersect, size aToks + size bToks - intersect)%nat.
Definition ratio_lt (r s : nat * nat) : bool := (r.1 * s.2 <? s.1 * r.2)%nat.

Definition fuzzyLevThreshold (normQuery : runes) : nat :=
  let scaled := ((15 * byte_len normQuery + 99) / 100)%nat in
  if (scaled <? levenshteinThreshold)%nat then scaled else levenshteinThreshold.

Definition firstToken (s : runes) : runes := (span (λ r, negb (r =? 32)%Z) s).1.

Definition yearProximityPenalty (queryYear candidateYear : Z) : Z :=
  if ((queryYear =? 0) || (candidateYear =? 0))%Z then 0
  else
    let diff := Z.abs (queryYear - candidateYear) in
    if (diff =? 0)%Z then 0 else if (diff =? 1)%Z then 1 else 100.

(** ** The best match, [util.go] *)

Record candidate := mkCandidate { idx : nat; levDist : nat; tsr : nat * nat; penalty : Z }.

Definition better (c b : candidate) : bool :=
  (penalty c <? penalty b)%Z
  || ((penalty c =? penalty b)%Z && (levDist c <? levDist b)%nat)
  || ((penalty c =? penalty b)%Z && (levDist c =? levDist b)%nat && ratio_lt (tsr b) (tsr c)).
(** The closure [consider] *)
Definition consider (best : option candidate) (c : candidate) : option candidate :=
  match best with
  | None => Some c
  | Some b => if better c b then Some c else best
  end.

Section matching.
Context `{Unicode} `{HT : UnicodeTables} `{!Keywords.Rex} `{HF : Transforms} `{HL : Levenshtein}.

Definition levenshteinNormalizeString (str : runes) : runes := NormalizeString (Unidecode str).

Fixpoint min_distance_loop (normTarget : runes) (tried : gset runes) (minDistance : Z) (candidates : list runes) : Z :=
  match candidates with
  | [] => minDistance
  | candidate :: candidates =>
      let normCandidate := levenshteinNormalizeString candidate in
      if decide (normCandidate ∈ tried) then min_distance_loop normTarget tried minDistance candidates
      else
        let distance := Z.of_nat (ComputeDistance normTarget normCandidate) in
        let minDistance := if ((minDistance =? -1) || (distance <? minDistance))%Z then distance else minDistance in
        min_distance_loop normTarget ({[normCandidate]} ∪ tried) minDistance candidates
  end.
Definition levenshteinFindMinDistance (target : runes) (candidates : list runes) : Z :=
  min_distance_loop (levenshteinNormalizeString target) ∅ (-1) candidates.

Section choice.
Context {T : Type} (getCandidates : T → list runes).

(** The loop over the items: the index of the best so far, [None] for -1. *)
Fixpoint lev_loop (target : runes) (i : nat) (items : list T) (minDistance : Z) (bestMatch : option nat) : option nat :=
  match items with
  | [] => bestMatch
  | item :: items =>
      let distance := levenshteinFindMinDistance target (getCandidates item) in
      if ((0 <=? distance) && (distance <? minDistance))%Z then
        if (distance =? 0)%Z then Some i else lev_loop target (S i) items distance (Some i)
      else lev_loop target (S i) items minDistance bestMatch
  end.
Definition levenshteinFindBestMatch (target : runes) (items : list T) : option T :=
  lev_loop target 0 items (Z.of_nat levenshteinThreshold + 1) None ≫= λ i, items !! i.

(** What the loop body makes of a candidate title: nothing, or its distance
    and ratio. *)
Definition score (target raw : runes) : option (nat * (nat * nat)) :=
  let normTarget := NormalizeTitleForMatch (foldTitlePunct target) in
  let targetIsJP := ContentFilter.ContainsJapaneseScript target in
  let targetNative := if targetIsJP then NativeMatchKey target else [] in
  if nonempty targetNative && bool_decide (NativeMatchKey raw = targetNative) then Some (0, (1, 1))%nat
  else
    let normCand := NormalizeTitleForMatch (foldTitlePunct raw) in
    if negb targetIsJP && negb (bool_decide (firstToken normCand = firstToken normTarget)) then None
    else
      let levDist := ComputeDistance normTarget normCand in
      let tsr := tokenSetRatio normTarget normCand in
      if (levDist <=? fuzzyLevThreshold normTarget)%nat || (90 * tsr.2 <=? 100 * tsr.1)%nat then Some (levDist, tsr) else None.

Context (getYearPenalty : option (T → Z)).
Definition item_penalty (item : T) : Z := match getYearPenalty with Some f => f item | None => 0 end.

Definition fuzzy_item (target : runes) (i : nat) (item : T) (best : option candidate) : option candidate :=
  foldl (λ best raw,
    match score target raw with
    | Some (d, r) => consider best (mkCandidate i d r (item_penalty item))
    | None => best
    end) best (getCandidates item).
Fixpoint fuzzy_loop (target : runes) (i : nat) (items : list T) (best : option candidate) : option candidate :=
  match items with
  | [] => best
  | item :: items => fuzzy_loop target (S i) items (fuzzy_item target i item best)
  end.

Definition fuzzyFindBestMatch (target : runes) (items : list T) (fuzzyMatchEnabled : bool) : option T :=
  if negb fuzzyMatchEnabled then levenshteinFindBestMatch target items
  else fuzzy_loop target 0 items None ≫= λ c, items !! idx c.

End choice.

(** ** The local search, [search.go] *)

Definition localSearchNarrowLimit : Z := 10.
Definition localSearchBroadLimit : Z := 40.

Definition contentMatchCandidates (item : Classifier.Content) (altTitleMatch : bool) : list runes :=
  [Classifier.c_Title item]
  ++ (if Classifier.TValid (Classifier.c_OriginalTitle item) then [Classifier.Text (Classifier.c_OriginalTitle item)] else [])
  ++ (if altTitleMatch
      then snd <$> filter (λ a, has_prefix Tmdb.AltTitleAttributePrefix a.1 = true) (Classifier.c_Attributes item) else []).

Fixpoint dedupe_loop (seen : gset runes) (l : list runes) : list runes :=
  match l with
  | [] => []
  | s :: l =>
      let s := TrimSpace s in
      if decide (s = [] ∨ s ∈ seen) then dedupe_loop seen l else s :: dedupe_loop ({[s]} ∪ seen) l
  end.
Definition dedupeStrings (l : list runes) : list runes := dedupe_loop ∅ l.

Definition weakSearchTokens : list runes :=
  runes_of <$> ["a"; "an"; "and"; "at"; "de"; "der"; "do"; "du"; "el"; "for"; "in"; "la"; "le"; "les"; "of"; "on"; "or"; "the";
                "to"; "und"; "with"].
Fixpoint significant_loop (seen : gset runes) (l : list runes) : list runes :=
  match l with
  | [] => []
  | tok :: l =>
      if decide ((byte_len tok < 2)%nat ∨ tok ∈ weakSearchTokens ∨ tok ∈ seen) then significant_loop seen l
      else tok :: significant_loop ({[tok]} ∪ seen) l
  end.
Definition significantSearchTokens (tokens : list runes) : list runes :=
  match significant_loop ∅ tokens with [] => dedupeStrings tokens | out => out end.

Context (Tables : Z → option (list runes)).

(** [fts.TokenizeFlat], which always returns. *)
Definition tokens (s : runes) : list runes := match Fts.TokenizeFlat Tables s with Ok ts => ts | _ => [] end.
Definition tokenAndSearchQuery (title : runes) : runes := join_space (dedupeStrings (tokens title)).
Fixpoint join_or (l : list runes) : runes :=
  match l with [] => [] | [x] => x | x :: l => x ++ runes_of " | " ++ join_or l end.
Definition tokenOrSearchQuery (title : runes) : runes :=
  let ts := significantSearchTokens (tokens title) in if (length ts <? 2)%nat then [] else join_or ts.

(** A double quote in the title becomes a space. *)
Definition localContentSearchQueries (title : runes) (fuzzyMatchEnabled : bool) : list runes :=
  let title := TrimSpace ((λ r, if (r =? 34)%Z then 32%Z else r) <$> title) in
  if decide (title = []) then []
  else dedupeStrings (([34%Z] ++ title ++ [34%Z]) ::
    (if fuzzyMatchEnabled then
       (let q := tokenAndSearchQuery title in if nonempty q then [q] else [])
       ++ (let q := tokenOrSearchQuery title in if nonempty q && negb (bool_decide (q = title)) then [q] else [])
     else [])).

Record contentSearchPass := mkPass { ps_query : runes; ps_limit : Z; ps_useYear : bool }.

Definition localContentSearchPasses (title : runes) (ct : string) (year : Z) (fuzzyMatchEnabled : bool) (limit : Z)
  : list contentSearchPass :=
  let limit := if (limit <=? 0)%Z then localSearchNarrowLimit else limit in
  let queries := localContentSearchQueries title fuzzyMatchEnabled in
  imap (λ i q, mkPass q (Z.min (if (2 <=? i)%nat then localSearchBroadLimit else localSearchNarrowLimit) limit) true) queries
  ++ (if negb (Dates.Year_IsNil year) && bool_decide (ct = "tv_show")
      then (λ q, mkPass q (Z.min limit localSearchBroadLimit) false) <$> queries else []).

End matching.

(** A query of the content table: a ranked full-text search within a type and
    perhaps a range of release dates, or an identifier. *)
Inductive contentQuery :=
| BySearch (ct : string) (search : runes) (limit : Z) (released : option Dates.DateRange)
| ByCanonicalIdentifier (ct : string) (source id : runes)
| ByAlternativeIdentifier (ct : string) (source id : runes).
Class SearchBackend (W : Type) := { search_Content : contentQuery → W → W * (Classifier.error + list Classifier.Content) }.
(** What a query asks for is what it gets. *)
Definition query_type (q : contentQuery) : string :=
  match q with BySearch ct _ _ _ | ByCanonicalIdentifier ct _ _ | ByAlternativeIdentifier ct _ _ => ct end.
Class SearchBackendLaws (W : Type) `{!SearchBackend W} := {
  search_Content_type q w w' items c : search_Content q w = (w', inr items) → c ∈ items → Classifier.c_Type c = query_type q }.

Section search.
Context `{Unicode} `{HT : UnicodeTables} `{!Keywords.Rex} `{HF : Transforms} `{HL : Levenshtein} (Tables : Z → option (list runes)).
Context {W : Type} `{!SearchBackend W} (altTitleMatch fuzzyMatchEnabled : bool).

Definition run_pass (ct : string) (year : Z) (pass : contentSearchPass) : Classifier.answer W (list Classifier.Content) :=
  search_Content (BySearch ct (ps_query pass) (ps_limit pass)
    (if ps_useYear pass && negb (Dates.Year_IsNil year) then
       Some (if fuzzyMatchEnabled then Dates.NewDateRangeFromYearWindow year 1 else Dates.NewDateRangeFromYear year)
     else None)).

(** One pass adds the items whose reference is not that of an item before it:
    the map [seen] holds the references of the items. *)
Fixpoint add_unseen (items new : list Classifier.Content) : list Classifier.Content :=
  match new with
  | [] => items
  | c :: new =>
      if decide (Classifier.Ref c ∈ Classifier.Ref <$> items) then add_unseen items new
      else add_unseen (items ++ [c]) new
  end.
Fixpoint passes_loop (ct : string) (year : Z) (passes : list contentSearchPass) (items : list Classifier.Content)
  : Classifier.answer W (list Classifier.Content) := λ w,
  match passes with
  | [] => (w, inr items)
  | pass :: passes =>
      if decide (ps_query pass = []) then passes_loop ct year passes items w
      else match run_pass ct year pass w with
           | (w, inl err) => (w, inl err)
           | (w, inr new) => passes_loop ct year passes (add_unseen items new) w
           end
  end.
Definition contentCandidates (ct : string) (title : runes) (year limit : Z) : Classifier.answer W (list Classifier.Content) :=
  let limit := if (limit <=? 0)%Z then localSearchNarrowLimit else limit in
  passes_loop ct year (localContentSearchPasses Tables title ct year fuzzyMatchEnabled limit) [].

Definition localContentYearPenalty (ct : string) (year : Z) : option (Classifier.Content → Z) :=
  if bool_decide (ct = "tv_show") then None
  else Some (λ item, yearProximityPenalty year (Classifier.c_ReleaseYear item)).

Definition ContentByID (ref : Classifier.ContentRef) : Classifier.answer W Classifier.Content := λ w,
  let q := (if bool_decide (Classifier.r_Source ref = runes_of "tmdb") then ByCanonicalIdentifier else ByAlternativeIdentifier)
             (Classifier.r_Type ref) (Classifier.r_Source ref) (Classifier.r_ID ref) in
  match search_Content q w with
  | (w, inl err) => (w, inl err)
  | (w, inr []) => (w, inl Classifier.ErrUnmatched)
  | (w, inr (c :: _)) => (w, inr c)
  end.

Definition ContentBySearch (ct : string) (baseTitle : runes) (year : Z) : Classifier.answer W Classifier.Content := λ w,
  match contentCandidates ct baseTitle year localSearchBroadLimit w with
  | (w, inl err) => (w, inl err)
  | (w, inr items) =>
      match fuzzyFindBestMatch (λ c, contentMatchCandidates c altTitleMatch) (localContentYearPenalty ct year) baseTitle items
              fuzzyMatchEnabled with
      | Some c => (w, inr c)
      | None => (w, inl Classifier.ErrUnmatched)
      end
  end.

Definition ContentCandidatesBySearch (ct : string) (title : runes) (year limit : Z) : Classifier.answer W (list Classifier.Content) := λ w,
  let limit := if (limit <=? 0)%Z then 5%Z else limit in
  match contentCandidates ct title year limit w with
  | (w, inl err) => (w, inl err)
  | (w, inr items) => (w, inr (take (Z.to_nat limit) items))
  end.

(** [localSearchSemaphore]: the search, or the error of a context that ends
    while the semaphore is taken. *)
Definition with_semaphore {A} (ended : option Classifier.error) (m : Classifier.answer W A) : Classifier.answer W A := λ w,
  match ended with Some err => (w, inl err) | None => m w end.

End search.

(** ** TMDB, [tmdb.go] and [metadata_identity.go] *)

(** The interface [tmdb.Requester], and the number of an error in the runs of
    the classifier. *)
Class Requester (W B : Type) := { Request : Tmdb.request → W → W * (Tmdb.tmdbError + B) }.
Class ErrorNumbers := { errno : Tmdb.tmdbError → Z }.

Definition yearFromDateString (s : runes) : Z :=
  if decide (s = []) then 0%Z
  else default 0%Z (Classifier.Atoi (span (λ r, negb (r =? 45)%Z) s).1).

Section tmdb.
Context `{Unicode} `{HT : UnicodeTables} `{!Keywords.Rex} `{HF : Transforms} `{HL : Levenshtein}.
Context {W B : Type} `{!Requester W B} `{!Tmdb.TmdbJson B} `{!ErrorNumbers} (fuzzyMatchEnabled : bool).

Definition other (e : Tmdb.tmdbError) : Classifier.error := Classifier.OtherError (errno e).

Definition tmdbContentByID (isTV : bool) (id : Z) : Classifier.answer W Classifier.Content := λ w,
  let req := if isTV then Tmdb.TvDetails_request id ["external_ids"; "alternative_titles"; "translations"]
             else Tmdb.MovieDetails_request id ["alternative_titles"; "translations"] in
  match Request req w with
  | (w, inl e) => (w, inl (if bool_decide (e = Tmdb.ErrNotFound) then Classifier.ErrUnmatched else other e))
  | (w, inr b) =>
      match (if isTV then Tmdb.TvShowDetailsToTvShowModel else Tmdb.MovieDetailsToMovieModel) (Tmdb.decode_details b) with
      | Ok m => (w, inr (Tmdb.content_of m))
      | _ => (w, inl (other Tmdb.ErrBadDate))
      end
  end.
Definition tmdbGetMovieByTMDBID (id : Z) : Classifier.answer W Classifier.Content := tmdbContentByID false id.
Definition tmdbGetTVShowByTMDBID (id : Z) : Classifier.answer W Classifier.Content := tmdbContentByID true id.

(** [tmdbSearchMovie] and [tmdbSearchTVShow]: the year goes to the service
    when matching is exact, and into the score when it is fuzzy. *)
Definition tmdbSearch (isTV : bool) (title : runes) (year : Z) : Classifier.answer W Classifier.Content := λ w,
  let req := Tmdb.mkSearch title true (if negb (Dates.Year_IsNil year) && negb fuzzyMatchEnabled then year else 0%Z) in
  match Request ((if isTV then Tmdb.SearchTv_request else Tmdb.SearchMovie_request) req) w with
  | (w, inl e) => (w, inl (other e))
  | (w, inr b) =>
      match fuzzyFindBestMatch (λ item, [Tmdb.s_Title item; Tmdb.s_OriginalTitle item])
              (Some (λ item, yearProximityPenalty year (yearFromDateString (Tmdb.s_ReleaseDate item)))) title
              (Tmdb.decode_search b) fuzzyMatchEnabled with
      | None => (w, inl Classifier.ErrUnmatched)
      | Some bestMatch => tmdbContentByID isTV (Tmdb.s_ID bestMatch) w
      end
  end.
Definition tmdbSearchMovie (title : runes) (year : Z) : Classifier.answer W Classifier.Content := tmdbSearch false title year.
Definition tmdbSearchTVShow (title : runes) (year : Z) : Classifier.answer W Classifier.Content := tmdbSearch true title year.

Definition tmdbGetTMDBIDByExternalID (ref : Classifier.ContentRef) : Classifier.answer W Z := λ w,
  match Tmdb.ExternalSource ref with
  | None => (w, inl Classifier.ErrUnmatched)
  | Some (source, id) =>
      match Request (Tmdb.FindByID_request source id) w with
      | (w, inl e) => (w, inl (other e))
      | (w, inr b) =>
          let found :=
            if bool_decide (Classifier.r_Type ref ∈ ["movie"; "xxx"]) then Tmdb.MovieResults (Tmdb.decode_find b)
            else if bool_decide (Classifier.r_Type ref = "tv_show") then Tmdb.TvResults (Tmdb.decode_find b) else [] in
          (w, match found with id :: _ => inr id | [] => inl Classifier.ErrUnmatched end)
      end
  end.

End tmdb.

(** The chain of [Tmdb] is such a requester, for some configuration and some
    answers of its limiter and semaphore. *)
Definition lazy_requester `{UnicodeTables} {W B} `{!Tmdb.Resty W B} (cfg : Tmdb.config) (x : Tmdb.waits * Tmdb.waits)
  : Requester (Tmdb.lazy_state W) B := {| Request := Tmdb.lazy_Request cfg x |}.

(** ** The tests of the sources *)

(** The edit distance, a row of the table at a time. *)
Fixpoint lev_row (x : Z) (diag left : nat) (olds : list nat) (b : runes) : list nat :=
  match olds, b with
  | up :: olds, y :: b =>
      let v := Nat.min (S left) (Nat.min (S up) (diag + (if (x =? y)%Z then 0 else 1))) in v :: lev_row x up v olds b
  | _, _ => []
  end.
Definition lev_next (b : runes) (row : list nat) (x : Z) : list nat :=
  match row with r0 :: olds => S r0 :: lev_row x r0 (S r0) olds b | [] => [] end.
Definition edit_distance (a b : runes) : nat :=
  if decide (a = b) then 0 else Nat.max 1 (default 0%nat (last (foldl (lev_next b) (seq 0 (S (length b))) a))).
Definition edit_levenshtein : Levenshtein := {| ComputeDistance := edit_distance |}.
Lemma edit_levenshtein_laws : @LevenshteinLaws edit_levenshtein.
Proof. split. intros a b. cbn. unfold edit_distance. case_decide; [done|]. split; [lia|done]. Qed.

Section tests.
#[local] Existing Instances ascii_unicode title_tables Keywords.group_rex plain_transforms edit_levenshtein.

Definition fuzzy_test (query : string) (year : Z) (items : list (list string * Z)) (fuzzy : bool) : option (list string) :=
  fst <$> fuzzyFindBestMatch (λ it, utf8 <$> it.1) (Some (λ it, yearProximityPenalty year it.2)) (utf8 query) items fuzzy.

Example fuzzy_positives :
  (λ x, fuzzy_test x.1.1 x.1.2 x.2 true) <$>
    [("Rocky IV", 1985%Z, [(["Rocky 4"], 1985%Z)]);
     ("Star Wars Episode V", 1980%Z, [(["Star Wars Episode 5"], 1980%Z)]);
     ("Fast & Furious", 2009%Z, [(["Fast and Furious"], 2009%Z)]);
     ("Planes, Trains and Automobiles", 1987%Z, [(["Planes Trains and Automobiles"], 1987%Z)]);
     ("進撃の巨人", 0%Z, [(["Attack on Titan"; "進撃の 巨人"], 2013%Z)])]
  = Some <$> [["Rocky 4"]; ["Star Wars Episode 5"]; ["Fast and Furious"]; ["Planes Trains and Automobiles"]; ["Attack on Titan"; "進撃の 巨人"]].
Proof. by vm_compute. Qed.

Example fuzzy_negatives :
  (λ x, fuzzy_test x.1.1 x.1.2 x.2 true) <$>
    [("The Batman", 2022%Z, [(["Batman Begins"], 2005%Z)]); ("Rocky", 1976%Z, [(["Rocky IV"], 1985%Z)]); ("Alien", 1979%Z, [])]
  = [None; None; None].
Proof. by vm_compute. Qed.
End tests.

(** ** Choosing by a fold

    The first of the best elements of a list, by a strict order whose
    complement is transitive too. *)
Section best.
Context {A : Type} (lt : A → A → bool) (P : A → Prop).
Hypothesis lt_trans : ∀ a b c, P a → P b → P c → lt a b = true → lt b c = true → lt a c = true.
Hypothesis nlt_trans : ∀ a b c, P a → P b → P c → lt a b = false → lt b c = false → lt a c = false.

Definition choose (best : option A) (c : A) : option A :=
  match best with None => Some c | Some b => if lt c b then Some c else best end.

Definition first_best (l : list A) (b : A) : Prop :=
  ∃ l1 l2, l = l1 ++ b :: l2 ∧ Forall (λ c, lt b c = true) l1 ∧ Forall (λ c, lt c b = false) l2.

Lemma choose_first_best l :
  Forall P l → match foldl choose None l with None => l = [] | Some b => first_best l b end.
Proof using lt_trans nlt_trans.
  induction l as [|c l IH] using rev_ind; intros Hl; [done|]. rewrite foldl_app. cbn [foldl].
  apply Forall_app in Hl as [Hl Hc]. rewrite Forall_singleton in Hc. specialize (IH Hl).
  destruct (foldl choose None l) as [b|]; [|by subst l; exists [], []].
  destruct IH as (l1 & l2 & -> & H1 & H2). apply Forall_app in Hl as [Hl1 Hl2]. apply Forall_cons in Hl2 as [Hb Hl2].
  cbn [choose]. destruct (lt c b) eqn:E.
  - exists (l1 ++ b :: l2), []. split_and!; [done| |constructor].
    rewrite Forall_forall in Hl1, Hl2, H1, H2. apply Forall_forall.
    intros x [Hx|[->|Hx]%elem_of_cons]%elem_of_app; [|done|].
    + apply (lt_trans _ b); [done|done|by apply Hl1|done|by apply H1].
    + apply not_false_iff_true. intros Hn. by rewrite (nlt_trans c x b Hc (Hl2 x Hx) Hb Hn (H2 x Hx)) in E.
  - exists l1, (l2 ++ [c]). rewrite <-app_assoc. split_and!; [done..|]. apply Forall_app. by rewrite Forall_singleton.
Qed.
End best.

(** The order of candidates. *)
Definition proper (c : candidate) : Prop := (0 < (tsr c).2)%nat.

Lemma ratio_trans (a b c d e f : nat) : (0 < b)%nat → (0 < d)%nat → (0 < f)%nat →
  (c * b < a * d)%nat → (e * d < c * f)%nat → (e * b < a * f)%nat.
Proof. nia. Qed.
Lemma ratio_ntrans (a b c d e f : nat) : (0 < b)%nat → (0 < d)%nat → (0 < f)%nat →
  (a * d <= c * b)%nat → (c * f <= e * d)%nat → (a * f <= e * b)%nat.
Proof. nia. Qed.

Lemma better_spec c b :
  better c b = true ↔ (penalty c < penalty b)%Z
    ∨ penalty c = penalty b ∧ ((levDist c < levDist b)%nat
        ∨ levDist c = levDist b ∧ ((tsr b).1 * (tsr c).2 < (tsr c).1 * (tsr b).2)%nat).
Proof.
  unfold better, ratio_lt. rewrite !orb_true_iff, !andb_true_iff, Z.ltb_lt, Z.eqb_eq, !Nat.ltb_lt, Nat.eqb_eq. tauto.
Qed.
Lemma not_better_spec c b :
  better c b = false ↔ (penalty b < penalty c)%Z
    ∨ penalty c = penalty b ∧ ((levDist b < levDist c)%nat
        ∨ levDist c = levDist b ∧ ((tsr c).1 * (tsr b).2 <= (tsr b).1 * (tsr c).2)%nat).
Proof.
  rewrite <-not_true_iff_false, better_spec.
  generalize ((tsr b).1 * (tsr c).2)%nat ((tsr c).1 * (tsr b).2)%nat. generalize (penalty c) (penalty b) (levDist c) (levDist b).
  intros. lia.
Qed.

Lemma better_trans a b c : proper a → proper b → proper c → better a b = true → better b c = true → better a c = true.
Proof.
  unfold proper. intros Ha Hb Hc. rewrite !better_spec.
  intros [?|(? & [?|[? R1]])] [?|(? & [?|[? R2]])]; try lia. right. split; [lia|]. right. split; [lia|].
  eapply ratio_trans; [apply Ha|apply Hb|apply Hc|exact R1|exact R2].
Qed.
Lemma better_ntrans a b c : proper a → proper b → proper c → better a b = false → better b c = false → better a c = false.
Proof.
  unfold proper. intros Ha Hb Hc. rewrite !not_better_spec.
  intros [?|(? & [?|[? R1]])] [?|(? & [?|[? R2]])]; try lia. right. split; [lia|]. right. split; [lia|].
  eapply ratio_ntrans; [apply Ha|apply Hb|apply Hc|exact R1|exact R2].
Qed.

(** ** The best match *)

Section best_match.
Context `{Unicode} `{HT : UnicodeTables} `{!Keywords.Rex} `{HF : Transforms} `{HL : Levenshtein}.
Context {T : Type} (getCandidates : T → list runes) (getYearPenalty : option (T → Z)).

Definition candidate_of (i : nat) (t : T) (s : nat * (nat * nat)) : candidate :=
  mkCandidate i s.1 s.2 (item_penalty getYearPenalty t).

(** The candidates that are considered, in the order of the loops. *)
Fixpoint considered (target : runes) (i : nat) (items : list T) : list candidate :=
  match items with
  | [] => []
  | t :: items =>
      omap (λ raw, candidate_of i t <$> score target raw) (getCandidates t) ++ considered target (S i) items
  end.

Lemma fuzzy_loop_considered target items : ∀ i best,
  fuzzy_loop getCandidates getYearPenalty target i items best = foldl consider best (considered target i items).
Proof.
  induction items as [|t items IH]; intros i best; [done|]. cbn [fuzzy_loop considered]. rewrite IH, foldl_app. f_equal.
  unfold fuzzy_item. revert best. induction (getCandidates t) as [|raw raws IHr]; intros best; [done|].
  cbn [foldl omap list_omap]. destruct (score target raw) as [[d r]|]; cbn [fmap option_fmap option_map foldl]; apply IHr.
Qed.

Lemma elem_considered target items c : ∀ i,
  c ∈ considered target i items ↔
  ∃ j t raw s, items !! j = Some t ∧ raw ∈ getCandidates t ∧ score target raw = Some s ∧ c = candidate_of (i + j) t s.
Proof.
  induction items as [|t items IH]; intros i; cbn [considered].
  - split; [by intros ?%elem_of_nil|intros (j & ? & ? & ? & ? & _)]. done.
  - rewrite elem_of_app, list_elem_of_omap, IH. split.
    + intros [(raw & Hraw & (s & Hs & ->)%fmap_Some)|(j & t' & raw & s & Hj & Hraw & Hs & ->)].
      * exists 0%nat, t, raw, s. by rewrite Nat.add_0_r.
      * exists (S j), t', raw, s. by rewrite <-plus_n_Sm.
    + intros ([|j] & t' & raw & s & Hj & Hraw & Hs & ->).
      * injection Hj as ->. left. exists raw. rewrite Hs, Nat.add_0_r. by split.
      * right. exists j, t', raw, s. rewrite <-plus_n_Sm. by split_and!.
Qed.

Lemma considered_idx target items i : Forall (λ c, i ≤ idx c)%nat (considered target i items).
Proof. apply Forall_forall. intros c (j & t & raw & s & _ & _ & _ & ->)%elem_considered. cbn. lia. Qed.
Lemma considered_sorted target items : ∀ i l1 b l2 c,
  considered target i items = l1 ++ b :: l2 → c ∈ l2 → (idx b ≤ idx c)%nat.
Proof.
  intros i l1 b l2 c E Hc. assert (StronglySorted (λ a b, idx a ≤ idx b)%nat (considered target i items)) as Hs.
  { clear. revert i. induction items as [|t items IH]; intros i; cbn [considered]; [constructor|].
    induction (getCandidates t) as [|raw raws IHr]; [apply IH|]. cbn [omap list_omap].
    destruct (score target raw); cbn [fmap option_fmap option_map app]; [|done]. constructor; [done|].
    apply Forall_app. split.
    - apply Forall_forall. intros c (raw' & _ & (s' & _ & ->)%fmap_Some)%list_elem_of_omap. done.
    - eapply Forall_impl; [apply considered_idx|]. cbn. lia. }
  rewrite E, StronglySorted_app in Hs. destruct Hs as (_ & _ & Hs). inversion Hs as [|? ? ? Hf]; subst.
  rewrite Forall_forall in Hf. by apply Hf.
Qed.

Lemma tokenSetRatio_proper a b : (0 < (tokenSetRatio a b).2)%nat.
Proof.
  unfold tokenSetRatio. case_decide; [cbn; lia|]. case_decide as E; [cbn; lia|]. cbn [snd].
  assert (tokenSet a ≠ ∅ ∧ tokenSet b ≠ ∅) as [Ha Hb] by tauto. pose proof (subseteq_size (tokenSet a ∩ tokenSet b) (tokenSet b)) as Hi.
  assert (size (tokenSet a) ≠ 0%nat) by (intros E0%size_empty_inv; set_solver). specialize (Hi ltac:(set_solver)). lia.
Qed.
Lemma score_proper target raw s : score target raw = Some s → (0 < s.2.2)%nat.
Proof.
  unfold score. destruct (nonempty _ && _); [intros [= <-]; cbn; lia|]. destruct (negb _ && negb _); [done|].
  destruct (_ || _); [|done]. intros [= <-]. apply tokenSetRatio_proper.
Qed.
Lemma considered_proper target items i : Forall proper (considered target i items).
Proof.
  apply Forall_forall. intros c (j & t & raw & s & _ & _ & Hs & ->)%elem_considered. by apply score_proper in Hs.
Qed.

Lemma fuzzy_best target items :
  match fuzzyFindBestMatch getCandidates getYearPenalty target items true with
  | None => ∀ t raw, t ∈ items → raw ∈ getCandidates t → score target raw = None
  | Some t => ∃ i raw s, items !! i = Some t ∧ raw ∈ getCandidates t ∧ score target raw = Some s ∧
      ∀ j t' raw' s', items !! j = Some t' → raw' ∈ getCandidates t' → score target raw' = Some s' →
        better (candidate_of j t' s') (candidate_of i t s) = false
        ∧ ((j < i)%nat → better (candidate_of i t s) (candidate_of j t' s') = true)
  end.
Proof.
  unfold fuzzyFindBestMatch. cbn [negb]. rewrite fuzzy_loop_considered.
  change (foldl consider) with (foldl (choose better)).
  pose proof (choose_first_best better proper better_trans better_ntrans _ (considered_proper target items 0)) as Hb.
  destruct (foldl (choose better) None _) as [b|] eqn:Ef.
  - destruct Hb as (l1 & l2 & El & H1 & H2).
    assert (b ∈ considered target 0 items) as Hin by (rewrite El; set_solver).
    apply elem_considered in Hin as (i & t & raw & s & Hi & Hraw & Hs & ->). cbn [mbind option_bind idx candidate_of Nat.add] in *. rewrite Hi.
    exists i, raw, s. split_and!; [done..|]. intros j t' raw' s' Hj Hraw' Hs'.
    assert (candidate_of j t' s' ∈ considered target 0 items) as Hin' by (apply elem_considered; eauto 8).
    rewrite Forall_forall in H1, H2. rewrite El in Hin'. apply elem_of_app in Hin' as [Hin'|[E|Hin']%elem_of_cons].
    + split; [|intros _; by apply H1]. apply not_true_iff_false. intros Hb. apply H1 in Hin'.
      apply better_spec in Hb. apply better_spec in Hin'. lia.
    + rewrite E. cbn [candidate_of] in E. injection E as -> _ _ _. split; [|lia].
      apply not_better_spec. right. split; [done|]. right. split; [done|lia].
    + split; [by apply H2|]. intros Hlt. pose proof (considered_sorted _ _ _ _ _ _ _ El Hin') as Hle. cbn in Hle. lia.
  - intros t raw [j Hj]%list_elem_of_lookup Hraw. destruct (score target raw) as [s|] eqn:Hs; [|done].
    assert (candidate_of j t s ∈ considered target 0 items) as Hin by (apply elem_considered; eauto 8).
    rewrite Hb in Hin. by apply elem_of_nil in Hin.
Qed.

End best_match.

(** ** Exact matching *)

Section levenshtein.
Context `{Unicode} `{HT : UnicodeTables} `{!Keywords.Rex} `{HF : Transforms} `{HL : Levenshtein}.

(** The distance of two titles as words. *)
Definition distance (target raw : runes) : Z :=
  Z.of_nat (ComputeDistance (levenshteinNormalizeString target) (levenshteinNormalizeString raw)).

Lemma min_distance_spec target raws : ∀ tried m,
  (-1 ≤ m)%Z → (∀ n, n ∈ tried → m ≠ -1 ∧ m ≤ Z.of_nat (ComputeDistance (levenshteinNormalizeString target) n))%Z →
  let r := min_distance_loop (levenshteinNormalizeString target) tried m raws in
  (r = m ∨ ∃ raw, raw ∈ raws ∧ r = distance target raw) ∧ (m ≠ -1 → r ≠ -1 ∧ r ≤ m)%Z
  ∧ ∀ raw, raw ∈ raws → (r ≠ -1 ∧ r ≤ distance target raw)%Z.
Proof.
  induction raws as [|raw raws IH]; intros tried m Hm Ht; cbn [min_distance_loop].
  { split_and!; [by left|done|by intros ? ?%elem_of_nil]. }
  case_decide as Hin.
  - destruct (IH tried m Hm Ht) as (H1 & H2 & H3). destruct (Ht _ Hin) as [Hne Hle].
    split_and!; [destruct H1 as [?|(x & ? & ?)]; [by left|right; exists x; set_solver]|done|].
    intros x [->|Hx]%elem_of_cons; [|by apply H3]. destruct (H2 Hne). unfold distance. lia.
  - fold (distance target raw). set (m' := if ((m =? -1) || (distance target raw <? m))%Z then distance target raw else m).
    assert (m' = distance target raw ∧ (m = -1 ∨ distance target raw < m) ∨ m' = m ∧ m ≠ -1 ∧ m ≤ distance target raw)%Z as Hm'.
    { subst m'. destruct (Z.eqb_spec m (-1)), (Z.ltb_spec (distance target raw) m); cbn; lia. }
    assert (0 ≤ distance target raw)%Z as Hd0 by (unfold distance; lia).
    edestruct (IH ({[levenshteinNormalizeString raw]} ∪ tried) m') as (H1 & H2 & H3); [lia| |].
    { intros n [->%elem_of_singleton|Hn%Ht]%elem_of_union; [fold (distance target raw)|]; lia. }
    destruct (H2 ltac:(lia)) as [Hr Hrm]. split_and!; [|lia|].
    + destruct H1 as [E|(x & ? & ?)]; [|right; exists x; set_solver].
      destruct Hm' as [(E' & _)|(E' & _)]; [right; exists raw; split; [set_solver|congruence]|left; congruence].
    + intros x [->|Hx]%elem_of_cons; [lia|by apply H3].
Qed.

Lemma FindMinDistance_spec target raws :
  let r := levenshteinFindMinDistance target raws in
  (r = -1)%Z ∧ raws = [] ∨ (0 ≤ r)%Z ∧ (∃ raw, raw ∈ raws ∧ r = distance target raw) ∧ ∀ raw, raw ∈ raws → (r ≤ distance target raw)%Z.
Proof.
  intros r. destruct (min_distance_spec target raws ∅ (-1)) as (H1 & _ & H3); [lia|set_solver|].
  destruct raws as [|raw raws]; [by left|]. right. destruct (H3 raw ltac:(set_solver)) as [Hr _].
  destruct H1 as [E|(x & Hx & E)]; [done|]. assert (0 ≤ r)%Z by (change r with (min_distance_loop (levenshteinNormalizeString target) ∅ (-1) (raw :: raws)); rewrite E; unfold distance; lia).
  split_and!; [done|by exists x|]. intros y Hy. by apply H3.
Qed.

Context {T : Type} (getCandidates : T → list runes).
Definition item_distance (target : runes) (t : T) : Z := levenshteinFindMinDistance target (getCandidates t).

Lemma lev_loop_spec target items : ∀ i m best,
  let r := lev_loop getCandidates target i items m best in
  r = best ∧ (∀ t, t ∈ items → item_distance target t < 0 ∨ m ≤ item_distance target t)%Z
  ∨ ∃ j t, items !! j = Some t ∧ r = Some (i + j)%nat ∧ (0 ≤ item_distance target t < m)%Z
      ∧ ∀ j' t', items !! j' = Some t' → (item_distance target t' < 0 ∨ item_distance target t ≤ item_distance target t')%Z ∧ ((j' < j)%nat → (item_distance target t' < 0 ∨ item_distance target t < item_distance target t')%Z).
Proof.
  induction items as [|t items IH]; intros i m best; cbn [lev_loop]; [left; split; [done|set_solver]|].
  fold (item_distance target t). destruct ((0 <=? item_distance target t) && (item_distance target t <? m))%Z eqn:Hc.
  - apply andb_true_iff in Hc as [Hc1%Z.leb_le Hc2%Z.ltb_lt]. destruct (Z.eqb_spec (item_distance target t) 0) as [E|E].
    + right. exists 0%nat, t. rewrite Nat.add_0_r. split_and!; [done|done|lia|lia|]. intros j' t' _. split; lia.
    + destruct (IH (S i) (item_distance target t) (Some i)) as [[-> Hall]|(j & t1 & Hj & -> & Ht1 & Hall)].
      * right. exists 0%nat, t. rewrite Nat.add_0_r. split_and!; [done|done|lia|lia|].
        intros [|j'] t' Hj'; [injection Hj' as ->; lia|]. split; [|lia]. apply Hall. by eapply list_elem_of_lookup_2.
      * right. exists (S j), t1. rewrite <-plus_n_Sm. split_and!; [done|done|lia|lia|].
        intros [|j'] t' Hj'; [injection Hj' as <-; lia|]. destruct (Hall j' t' Hj') as [Ha Hb].
        split; [done|]. intros ?. apply Hb. lia.
  - assert (item_distance target t < 0 ∨ m ≤ item_distance target t)%Z as Hn by lia.
    destruct (IH (S i) m best) as [[-> Hall]|(j & t1 & Hj & -> & Ht1 & Hall)].
    + left. split; [done|]. intros x [->|Hx]%elem_of_cons; [done|by apply Hall].
    + right. exists (S j), t1. rewrite <-plus_n_Sm. split_and!; [done|done|lia|lia|].
      intros [|j'] t' Hj'; [injection Hj' as <-; lia|]. destruct (Hall j' t' Hj') as [Ha Hb].
      split; [done|]. intros ?. apply Hb. lia.
Qed.

(** Without fuzzy matching the match is an item with a title at the least distance from the target, the first such item, provided the distance is at most five; and there is none exactly when every title of every item is further away. *)
Theorem levenshtein_best_match getYearPenalty target items :
  match fuzzyFindBestMatch getCandidates getYearPenalty target items false with
  | None => ∀ t raw, t ∈ items → raw ∈ getCandidates t → (5 < distance target raw)%Z
  | Some t => ∃ i raw, items !! i = Some t ∧ raw ∈ getCandidates t ∧ (distance target raw ≤ 5)%Z ∧
      ∀ j t' raw', items !! j = Some t' → raw' ∈ getCandidates t' →
        (distance target raw ≤ distance target raw')%Z ∧ ((j < i)%nat → distance target raw < distance target raw')%Z
  end.
Proof.
  unfold fuzzyFindBestMatch, levenshteinFindBestMatch. cbn [negb].
  destruct (lev_loop_spec target items 0 (Z.of_nat levenshteinThreshold + 1) None) as [[-> Hall]|(j & t & Hj & -> & Ht & Hall)]; cbn.
  - intros t raw Ht Hraw. destruct (FindMinDistance_spec target (getCandidates t)) as [[_ E]|(Hr & _ & Hle)].
    { rewrite E in Hraw. by apply elem_of_nil in Hraw. }
    specialize (Hle raw Hraw). specialize (Hall t Ht). unfold item_distance in Hall. unfold levenshteinThreshold in Hall. lia.
  - rewrite Hj. destruct (FindMinDistance_spec target (getCandidates t)) as [[E _]|(Hr & (raw & Hraw & Er) & _)].
    { unfold item_distance in Ht. lia. }
    exists j, raw. unfold item_distance, levenshteinThreshold in *. split_and!; [done|done|lia|].
    intros j' t' raw' Hj' Hraw'. destruct (Hall j' t' Hj') as [Ha Hb].
    destruct (FindMinDistance_spec target (getCandidates t')) as [[_ E]|(Hr' & _ & Hle)].
    { rewrite E in Hraw'. by apply elem_of_nil in Hraw'. }
    specialize (Hle raw' Hraw'). lia.
Qed.

End levenshtein.

(** ** Fuzzy matching *)

Section fuzzy.
Context `{HU : Unicode} `{HT : UnicodeTables} `{!Keywords.Rex} `{HF : Transforms} `{HL : Levenshtein}.

(** *** What a match is *)

Definition plain_title (s : runes) : runes := NormalizeTitleForMatch (foldTitlePunct s).

(** The same title in Japanese script. *)
Definition native_hit (target raw : runes) : Prop :=
  ContentFilter.ContainsJapaneseScript target = true ∧ NativeMatchKey target ≠ [] ∧ NativeMatchKey raw = NativeMatchKey target.
#[export] Instance native_hit_dec target raw : Decision (native_hit target raw).
Proof. unfold native_hit. apply _. Defined.

Definition same_first_word (a b : runes) : Prop :=
  ∃ w, (32%Z ∉ w) ∧ (a = w ∨ ∃ rest, a = w ++ 32%Z :: rest) ∧ (b = w ∨ ∃ rest, b = w ++ 32%Z :: rest).

(** The words in common among all the words; two empty titles are the same. *)
Definition jaccard (a b : runes) : nat * nat :=
  let A := list_to_set (C := gset runes) (Fields a) in
  let B := list_to_set (C := gset runes) (Fields b) in
  if decide (A ∪ B = ∅) then (1, 1)%nat else (size (A ∩ B), size (A ∪ B)).

Definition title_distance (target raw : runes) : nat :=
  if decide (native_hit target raw) then 0%nat else ComputeDistance (plain_title target) (plain_title raw).
Definition title_ratio (target raw : runes) : nat * nat :=
  if decide (native_hit target raw) then (1, 1)%nat else jaccard (plain_title target) (plain_title raw).

(** A title matches: the same in Japanese script; or it has the same first
    word, unless the target is Japanese, and is at most five edits and at most
    15 %, rounded up, of the length of the target away, or has at least nine
    tenths of its words in common with the target. *)
Definition title_matches (target raw : runes) : Prop :=
  let n := ComputeDistance (plain_title target) (plain_title raw) in
  let '(common, all) := jaccard (plain_title target) (plain_title raw) in
  native_hit target raw
  ∨ (ContentFilter.ContainsJapaneseScript target = true ∨ same_first_word (plain_title raw) (plain_title target))
    ∧ ((n ≤ 5 ∧ 100 * n < 15 * byte_len (plain_title target) + 100) ∨ 9 * all ≤ 10 * common)%nat.

(** A title of an item of one penalty is preferred to a title of another: by
    the lower penalty, then the fewer edits, then the higher ratio. *)
Definition preferred (target : runes) (p p' : Z) (raw raw' : runes) : Prop :=
  let '(common, all) := title_ratio target raw in
  let '(common', all') := title_ratio target raw' in
  (p < p')%Z ∨ p = p' ∧ ((title_distance target raw < title_distance target raw')%nat
    ∨ title_distance target raw = title_distance target raw' ∧ (common' * all < common * all')%nat).

Lemma firstToken_split (s : runes) : (32%Z ∉ firstToken s) ∧ (s = firstToken s ∨ ∃ rest, s = firstToken s ++ 32%Z :: rest).
Proof.
  unfold firstToken. induction s as [|r s IH]; [split; [apply not_elem_of_nil|by left]|]. cbn [span].
  destruct (Z.eqb_spec r 32) as [->|Hr]; cbn [negb fst]; [split; [apply not_elem_of_nil|right; by exists s]|].
  destruct (span _ s) as [a b]. cbn [fst] in *. destruct IH as [Ha Hs]. split; [apply not_elem_of_cons; by split|].
  destruct Hs as [->|[rest ->]]; [by left|right; by exists rest].
Qed.
Lemma firstToken_of (w rest : runes) : (32%Z ∉ w) → firstToken w = w ∧ firstToken (w ++ 32%Z :: rest) = w.
Proof.
  unfold firstToken. induction w as [|r w IH]; intros Hw; [done|]. apply not_elem_of_cons in Hw as [Hr Hw]. cbn [app span].
  rewrite (proj2 (Z.eqb_neq r 32)) by congruence. cbn [negb]. specialize (IH Hw).
  destruct (span _ w) as [a b], (span _ (w ++ 32%Z :: rest)) as [a' b']. cbn in *. destruct IH as [-> ->]. done.
Qed.
Lemma same_first_word_spec a b : firstToken a = firstToken b ↔ same_first_word a b.
Proof.
  split.
  - intros He. destruct (firstToken_split a) as [Hn Ha], (firstToken_split b) as [_ Hb]. exists (firstToken a). split; [done|]. split; [done|]. by rewrite He.
  - intros (w & Hn & Ha & Hb). assert (∀ x, x = w ∨ (∃ rest, x = w ++ 32%Z :: rest) → firstToken x = w) as Hf.
    { intros x [->|[rest ->]]; by apply (firstToken_of w []) || by apply (firstToken_of w rest). }
    by rewrite (Hf a Ha), (Hf b Hb).
Qed.

Lemma jaccard_ratio a b :
  ((tokenSetRatio a b).1 * (jaccard a b).2 = (jaccard a b).1 * (tokenSetRatio a b).2)%nat ∧ (0 < (tokenSetRatio a b).2)%nat ∧ (0 < (jaccard a b).2)%nat.
Proof.
  pose proof (tokenSetRatio_proper a b) as Hp. unfold jaccard. fold (tokenSet a) (tokenSet b).
  case_decide as Hu; cbn [fst snd].
  - unfold tokenSetRatio. rewrite decide_True by set_solver. cbn. lia.
  - assert (0 < size (tokenSet a ∪ tokenSet b))%nat as Hs by (apply Nat.neq_0_lt_0; intros E%size_empty_inv; set_solver).
    split; [|done]. unfold tokenSetRatio. rewrite (decide_False (P := _ ∧ _)) by set_solver. case_decide as He; cbn [fst snd].
    + assert (tokenSet a ∩ tokenSet b = ∅) as -> by set_solver. rewrite size_empty. lia.
    + pose proof (size_union_alt (tokenSet a) (tokenSet b)) as H1. pose proof (size_difference_alt (tokenSet b) (tokenSet a)) as H2.
      assert (tokenSet b ∩ tokenSet a = tokenSet a ∩ tokenSet b) as H3 by set_solver. rewrite H1, H2, H3.
      assert (size (tokenSet a ∩ tokenSet b) ≤ size (tokenSet b))%nat by (apply subseteq_size; set_solver). f_equal. lia.
Qed.

(** The score of a title is that of the definition. *)
Lemma score_spec target raw :
  match score target raw with
  | Some (d, r) => title_matches target raw ∧ d = title_distance target raw
      ∧ (r.1 * (title_ratio target raw).2 = (title_ratio target raw).1 * r.2)%nat ∧ (0 < r.2)%nat ∧ (0 < (title_ratio target raw).2)%nat
  | None => ¬ title_matches target raw
  end.
Proof.
  unfold score, title_matches, title_distance, title_ratio. fold (plain_title target) (plain_title raw).
  assert (Hnat : nonempty (if ContentFilter.ContainsJapaneseScript target then NativeMatchKey target else [])
    && bool_decide (NativeMatchKey raw = (if ContentFilter.ContainsJapaneseScript target then NativeMatchKey target else [])) = bool_decide (native_hit target raw)).
  { apply eq_true_iff_eq. rewrite andb_true_iff, !bool_decide_eq_true. unfold native_hit.
    destruct (ContentFilter.ContainsJapaneseScript target); [|naive_solver]. destruct (NativeMatchKey target); naive_solver. }
  rewrite Hnat. clear Hnat. pose proof (jaccard_ratio (plain_title target) (plain_title raw)) as (Hr & Hp1 & Hp2).
  destruct (jaccard (plain_title target) (plain_title raw)) as [common all] eqn:Ej. cbn [fst snd] in *.
  case_bool_decide as Hh; [rewrite !decide_True by done; cbn; split_and!; (lia || by left)|]. rewrite !decide_False by done.
  set (n := ComputeDistance _ _). set (r := tokenSetRatio _ _) in *.
  assert (Hd : (n <=? fuzzyLevThreshold (plain_title target))%nat = true ↔ (n ≤ 5 ∧ 100 * n < 15 * byte_len (plain_title target) + 100)%nat).
  { rewrite Nat.leb_le. unfold fuzzyLevThreshold, levenshteinThreshold. set (L := byte_len _).
    pose proof (Nat.div_mod_eq (15 * L + 99) 100). pose proof (Nat.mod_upper_bound (15 * L + 99) 100).
    destruct (Nat.ltb_spec ((15 * L + 99) / 100) 5); lia. }
  assert (Ht : (90 * r.2 <=? 100 * r.1)%nat = true ↔ (9 * all ≤ 10 * common)%nat) by (rewrite Nat.leb_le; nia).
  assert (Hacc : ((n <=? fuzzyLevThreshold (plain_title target))%nat || (90 * r.2 <=? 100 * r.1)%nat) = true
    ↔ ((n ≤ 5 ∧ 100 * n < 15 * byte_len (plain_title target) + 100) ∨ 9 * all ≤ 10 * common)%nat) by (rewrite orb_true_iff, Hd, Ht; done).
  destruct (ContentFilter.ContainsJapaneseScript target); cbn [negb andb].
  - destruct (_ || _) eqn:Eo; [split; [right; split; [by left|by apply Hacc]|by split_and!]|]. intros [?|[_ Hx%Hacc]]; [done|congruence].
  - case_bool_decide as Hf; rewrite same_first_word_spec in Hf; cbn [negb]; [|intros [?|[[?|?] _]]; done].
    destruct (_ || _) eqn:Eo; [split; [right; split; [by right|by apply Hacc]|by split_and!]|]. intros [?|[_ Hx%Hacc]]; [done|congruence].
Qed.

Lemma ratio_scaled (n m a b n' m' a' b' : nat) :
  (n * b = a * m → n' * b' = a' * m' → 0 < m → 0 < b → 0 < m' → 0 < b' → n' * m < n * m' ↔ a' * b < a * b')%nat.
Proof.
  intros H1 H2 Hm Hb Hm' Hb'. rewrite (Nat.mul_lt_mono_pos_l (b * b') (n' * m)) by nia. rewrite (Nat.mul_lt_mono_pos_l (m * m') (a' * b)) by nia.
  replace (b * b' * (n' * m))%nat with (n' * b' * (b * m))%nat by lia. replace (b * b' * (n * m'))%nat with (n * b * (b' * m'))%nat by lia.
  rewrite H1, H2. replace (m * m' * (a' * b))%nat with (a' * m' * (b * m))%nat by lia. by replace (m * m' * (a * b'))%nat with (a * m * (b' * m'))%nat by lia.
Qed.
Lemma better_preferred {T} (getYearPenalty : option (T → Z)) target i t raw s j t' raw' s' :
  score target raw = Some s → score target raw' = Some s' →
  better (candidate_of getYearPenalty i t s) (candidate_of getYearPenalty j t' s') = true ↔
  preferred target (item_penalty getYearPenalty t) (item_penalty getYearPenalty t') raw raw'.
Proof.
  intros Hs Hs'. pose proof (score_spec target raw) as Hc. pose proof (score_spec target raw') as Hc'. rewrite Hs in Hc. rewrite Hs' in Hc'.
  destruct s as [d [n m]], s' as [d' [n' m']]. destruct Hc as (_ & -> & Hr & Hm & Hb), Hc' as (_ & -> & Hr' & Hm' & Hb').
  rewrite better_spec. unfold preferred. destruct (title_ratio target raw) as [a b], (title_ratio target raw') as [a' b'].
  cbn [fst snd] in *. cbn [candidate_of penalty levDist tsr fst snd]. by rewrite (ratio_scaled n m a b n' m' a' b').
Qed.

(** C26: with fuzzy matching the answer is an item with a title that matches
    the target, where no matching title of any item is preferred to it and it is
    preferred to every matching title of the items before it; and there is no
    answer exactly when no title of any item matches.  What matches and what is
    preferred is said by edits and common words of the normal forms; the penalty
    of an item for its year counts before the likeness of its title. *)
Theorem fuzzy_best_match {T} (getCandidates : T → list runes) getYearPenalty target items :
  match fuzzyFindBestMatch getCandidates getYearPenalty target items true with
  | None => ∀ t raw, t ∈ items → raw ∈ getCandidates t → ¬ title_matches target raw
  | Some t => ∃ i raw, items !! i = Some t ∧ raw ∈ getCandidates t ∧ title_matches target raw ∧
      ∀ j t' raw', items !! j = Some t' → raw' ∈ getCandidates t' → title_matches target raw' →
        ¬ preferred target (item_penalty getYearPenalty t') (item_penalty getYearPenalty t) raw' raw
        ∧ ((j < i)%nat → preferred target (item_penalty getYearPenalty t) (item_penalty getYearPenalty t') raw raw')
  end.
Proof.
  pose proof (fuzzy_best getCandidates getYearPenalty target items) as Hb.
  destruct (fuzzyFindBestMatch getCandidates getYearPenalty target items true) as [t|].
  - destruct Hb as (i & raw & s & Hi & Hraw & Hs & Hall). pose proof (score_spec target raw) as Hm. rewrite Hs in Hm. exists i, raw.
    split; [done|]. split; [done|]. split; [by destruct s, Hm|]. intros j t' raw' Hj Hraw' Hm'.
    pose proof (score_spec target raw') as Hc'. destruct (score target raw') as [s'|] eqn:Hs'; [|done]. destruct (Hall j t' raw' s' Hj Hraw' Hs') as [Hn Hlt].
    split; [|intros Hji%Hlt; by apply (better_preferred getYearPenalty target i t raw s j t' raw' s')].
    intros Hp%(better_preferred getYearPenalty target j t' raw' s' i t raw s); [congruence|done|done].
  - intros t raw Ht Hraw. pose proof (score_spec target raw) as Hc. by rewrite (Hb t raw Ht Hraw) in Hc.
Qed.

Lemma score_same `{!LevenshteinLaws} target raw :
  NormalizeTitleForMatch (foldTitlePunct raw) = NormalizeTitleForMatch (foldTitlePunct target) →
  ∃ r, score target raw = Some (0%nat, r).
Proof.
  intros E. unfold score. destruct (nonempty _ && _); [by eexists|]. rewrite E, bool_decide_true by done.
  rewrite andb_false_r. rewrite (proj2 (distance_zero _ _)) by done. by eexists.
Qed.

(** Titles of the same words match: when a title of an item and the target, both ASCII, have the same words, whatever their case, punctuation and spacing, then fuzzy matching answers an item, and one whose year is no further off. *)
Theorem same_words_found `{!UnicodeLaws} `{!TableLaws} `{!RexFinds} `{!TransformLaws} `{!LevenshteinLaws}
    {T} (getCandidates : T → list runes) getYearPenalty target items t raw :
  Forall is_ascii target → Forall is_ascii raw → title_words raw = title_words target →
  t ∈ items → raw ∈ getCandidates t →
  ∃ t', fuzzyFindBestMatch getCandidates getYearPenalty target items true = Some t'
    ∧ (item_penalty getYearPenalty t' ≤ item_penalty getYearPenalty t)%Z.
Proof.
  intros Ht Hr Hw Hin Hraw. destruct (score_same target raw) as [r Hs]; [by rewrite !NormalizeTitle_words, Hw|].
  pose proof (fuzzy_best getCandidates getYearPenalty target items) as Hb.
  destruct (fuzzyFindBestMatch _ _ target items true) as [t'|].
  - destruct Hb as (i & raw' & s & _ & _ & _ & Hb). exists t'. split; [done|].
    apply list_elem_of_lookup in Hin as [j Hj]. destruct (Hb j t raw (0%nat, r) Hj Hraw Hs) as [Hn _].
    apply not_better_spec in Hn. cbn [candidate_of penalty] in Hn. lia.
  - by rewrite (Hb t raw Hin Hraw) in Hs.
Qed.

(** The accepted distance grows with the query up to five, and no further. *)
Theorem fuzzy_threshold s :
  (fuzzyLevThreshold s ≤ levenshteinThreshold)%nat
  ∧ ((fuzzyLevThreshold s < levenshteinThreshold)%nat ↔ (byte_len s ≤ 26)%nat).
Proof.
  unfold fuzzyLevThreshold, levenshteinThreshold.
  assert ((15 * byte_len s + 99) / 100 < 5 ↔ byte_len s ≤ 26)%nat as Hb.
  { pose proof (Nat.div_mod_eq (15 * byte_len s + 99) 100). pose proof (Nat.mod_upper_bound (15 * byte_len s + 99) 100). lia. }
  destruct (Nat.ltb_spec ((15 * byte_len s + 99) / 100) 5); lia.
Qed.

End fuzzy.

(** ** The local search *)

Section local_search.
Context `{HU : Unicode} `{HT : UnicodeTables} `{!Keywords.Rex} `{HF : Transforms} `{HL : Levenshtein} (Tables : Z → option (list runes)).

Lemma dedupe_spec l : ∀ seen,
  NoDup (dedupe_loop seen l) ∧ (∀ s, s ∈ dedupe_loop seen l → s ≠ [] ∧ (s ∉ seen) ∧ (∃ s0, s0 ∈ l ∧ s = TrimSpace s0)).
Proof.
  induction l as [|s l IH]; intros seen; cbn [dedupe_loop]; [split; [constructor|by intros ? ?%elem_of_nil]|].
  case_decide as Hd.
  - destruct (IH seen) as [Hn Hs]. split; [done|]. intros x Hx. destruct (Hs x Hx) as (? & ? & y & ? & ?).
    split_and!; [done..|]. exists y. set_solver.
  - assert (TrimSpace s ≠ [] ∧ TrimSpace s ∉ seen) as [H1 H2] by tauto.
    destruct (IH ({[TrimSpace s]} ∪ seen)) as [Hn Hs]. split.
    + constructor; [|done]. intros Hx%Hs. set_solver.
    + intros x [->|Hx]%elem_of_cons; [split_and!; [done..|exists s; set_solver]|].
      destruct (Hs x Hx) as (? & ? & y & ? & ?). split_and!; [done|set_solver|exists y; set_solver].
Qed.
Lemma length_dedupe l : ∀ seen, (length (dedupe_loop seen l) ≤ length l)%nat.
Proof. induction l as [|s l IH]; intros seen; cbn [dedupe_loop length]; [done|]. case_decide; cbn [length]; [pose proof (IH seen)|pose proof (IH ({[TrimSpace s]} ∪ seen))]; lia. Qed.

Lemma queries_bound title fuzzy : (length (localContentSearchQueries Tables title fuzzy) ≤ 3)%nat.
Proof.
  unfold localContentSearchQueries. case_decide; [cbn; lia|]. unfold dedupeStrings. etrans; [apply length_dedupe|].
  cbn [length]. destruct fuzzy; [rewrite length_app|cbn; lia]. destruct (nonempty _); destruct (nonempty _ && _); cbn; lia.
Qed.
Lemma queries_clean title fuzzy :
  NoDup (localContentSearchQueries Tables title fuzzy) ∧ [] ∉ localContentSearchQueries Tables title fuzzy.
Proof.
  unfold localContentSearchQueries. case_decide; [split; [constructor|by intros ?%elem_of_nil]|].
  unfold dedupeStrings. set (l := _ :: _). destruct (dedupe_spec l ∅) as [Hn Hs].
  split; [apply Hn|]. intros Hx. by destruct (Hs _ Hx).
Qed.

(** A local search makes at most six queries, none of them empty; each asks for at least one and at most forty rows, and for no more than the caller wants; a query drops the filter on the year only for a series whose year is known, and those queries come last. *)
Theorem search_passes_bounded title ct year fuzzy limit :
  let passes := localContentSearchPasses Tables title ct year fuzzy limit in
  let limit' := if (limit <=? 0)%Z then localSearchNarrowLimit else limit in
  (length passes ≤ 6)%nat
  ∧ Forall (λ p, ps_query p ≠ [] ∧ (1 ≤ ps_limit p ≤ 40)%Z ∧ (ps_limit p ≤ limit')%Z) passes
  ∧ ∃ with_year without, passes = with_year ++ without ∧ Forall (λ p, ps_useYear p = true) with_year
      ∧ (without = [] ∨ ct = "tv_show" ∧ year ≠ 0%Z ∧ ps_query <$> without = ps_query <$> with_year).
Proof.
  intros passes limit'. unfold passes, localContentSearchPasses. fold limit'.
  assert (1 ≤ limit')%Z as Hl by (unfold limit', localSearchNarrowLimit; destruct (Z.leb_spec limit 0); lia).
  pose proof (queries_bound title fuzzy) as Hb. destruct (queries_clean title fuzzy) as [_ Hne].
  set (qs := localContentSearchQueries Tables title fuzzy) in *. clearbody qs limit'.
  assert (∀ q, q ∈ qs → q ≠ []) as Hq by (intros q Hq ->; done).
  set (f := λ (i : nat) q, mkPass q _ true).
  assert (ps_query <$> imap f qs = qs) as Hqs.
  { rewrite fmap_imap. unfold f. cbn. clear. induction qs as [|q qs IH] using rev_ind; [done|]. rewrite imap_app. cbn. by rewrite IH. }
  assert (Forall (λ p, ps_query p ≠ [] ∧ (1 ≤ ps_limit p ≤ 40)%Z ∧ (ps_limit p ≤ limit')%Z) (imap f qs)
          ∧ Forall (λ p, ps_useYear p = true) (imap f qs)) as [H1 H2].
  { split; apply Forall_lookup; intros i p (q & Hi & ->)%list_lookup_imap_Some; [|done]. unfold f. cbn [ps_query ps_limit].
    split; [by eapply Hq, list_elem_of_lookup_2|]. unfold localSearchBroadLimit, localSearchNarrowLimit. destruct (2 <=? i)%nat; lia. }
  split_and!.
  - rewrite length_app, length_imap. destruct (_ && _); rewrite ?length_fmap; cbn [length]; lia.
  - apply Forall_app. split; [done|]. destruct (_ && _); [|constructor]. apply Forall_fmap, Forall_forall.
    intros q Hin. cbn [compose ps_query ps_limit]. unfold localSearchBroadLimit. split; [by apply Hq|]. lia.
  - eexists _, _. split_and!; [done|done|]. destruct (negb (Dates.Year_IsNil year) && _) eqn:E; [right|by left].
    apply andb_true_iff in E as [Hy%negb_true_iff Hct%bool_decide_eq_true]. split_and!; [done| |].
    + unfold Dates.Year_IsNil in Hy. by apply Z.eqb_neq in Hy.
    + rewrite Hqs, <-list_fmap_compose. apply list_fmap_id.
Qed.

End local_search.

Section content_search.
Context `{HU : Unicode} `{HT : UnicodeTables} `{!Keywords.Rex} `{HF : Transforms} `{HL : Levenshtein} (Tables : Z → option (list runes)).
Context {W : Type} `{!SearchBackend W}.

Lemma add_unseen_spec new : ∀ items,
  NoDup (Classifier.Ref <$> items) →
  NoDup (Classifier.Ref <$> add_unseen items new) ∧ ∀ c, c ∈ add_unseen items new → c ∈ items ∨ c ∈ new.
Proof.
  induction new as [|c new IH]; intros items Hn; cbn [add_unseen]; [by split; [|left]|]. case_decide as Hd.
  - destruct (IH items Hn) as [H1 H2]. split; [done|]. intros x [?|?]%H2; [by left|right; set_solver].
  - destruct (IH (items ++ [c])) as [H1 H2].
    { rewrite fmap_app. apply NoDup_app. split_and!; [done| |apply NoDup_singleton]. by intros x Hx ->%list_elem_of_singleton. }
    split; [done|]. intros x [[?| ->%list_elem_of_singleton]%elem_of_app|?]%H2; [by left|right; set_solver..].
Qed.

Lemma passes_loop_spec `{!SearchBackendLaws W} fuzzy ct year passes : ∀ items w w' items',
  NoDup (Classifier.Ref <$> items) → Forall (λ c, Classifier.c_Type c = ct) items →
  passes_loop fuzzy ct year passes items w = (w', inr items') →
  NoDup (Classifier.Ref <$> items') ∧ Forall (λ c, Classifier.c_Type c = ct) items'.
Proof.
  induction passes as [|pass passes IH]; intros items w w' items' Hn Ht E; cbn [passes_loop] in E; [by injection E as <- <-|].
  case_decide; [by eapply IH|]. destruct (run_pass fuzzy ct year pass w) as [w1 [err|new]] eqn:Er; [done|].
  destruct (add_unseen_spec new items Hn) as [H1 H2]. eapply IH; [apply H1| |apply E].
  apply Forall_forall. intros c [Hc|Hc]%H2; [by rewrite Forall_forall in Ht; apply Ht|].
  unfold run_pass in Er. by apply (search_Content_type _ _ _ _ c Er).
Qed.

Lemma contentCandidates_spec `{!SearchBackendLaws W} fuzzy ct title year limit w w' items :
  contentCandidates Tables fuzzy ct title year limit w = (w', inr items) →
  NoDup (Classifier.Ref <$> items) ∧ Forall (λ c, Classifier.c_Type c = ct) items.
Proof. apply passes_loop_spec; constructor. Qed.

Lemma fuzzy_match_in {T} (getCandidates : T → list runes) getYearPenalty target items fuzzy t :
  fuzzyFindBestMatch getCandidates getYearPenalty target items fuzzy = Some t → t ∈ items.
Proof.
  unfold fuzzyFindBestMatch, levenshteinFindBestMatch. destruct fuzzy; cbn [negb].
  all: intros (? & _ & ?%list_elem_of_lookup_2)%bind_Some; done.
Qed.

(** What a local search answers is a catalogue entry of the content type that was asked for, one of the candidates of the search, none of which shares its reference with another; with fuzzy matching one of its titles is accepted by the score. When no candidate matches, the answer is that the torrent is unmatched. *)
Theorem content_by_search `{!SearchBackendLaws W} altTitles fuzzy ct title year w w' items :
  contentCandidates Tables fuzzy ct title year localSearchBroadLimit w = (w', inr items) →
  NoDup (Classifier.Ref <$> items)
  ∧ match ContentBySearch Tables altTitles fuzzy ct title year w with
    | (w'', inr c) => w'' = w' ∧ c ∈ items ∧ Classifier.c_Type c = ct
        ∧ (fuzzy = true → ∃ raw, raw ∈ contentMatchCandidates c altTitles ∧ is_Some (score title raw))
    | (w'', inl err) => w'' = w' ∧ err = Classifier.ErrUnmatched
        ∧ (fuzzy = true → ∀ c raw, c ∈ items → raw ∈ contentMatchCandidates c altTitles → score title raw = None)
    end.
Proof.
  intros E. destruct (contentCandidates_spec _ _ _ _ _ _ _ _ E) as [Hn Ht]. split; [done|].
  unfold ContentBySearch. rewrite E. destruct (fuzzyFindBestMatch _ _ title items fuzzy) as [c|] eqn:Ef.
  - apply fuzzy_match_in in Ef as Hin. split_and!; [done|done|by rewrite Forall_forall in Ht; apply Ht|]. intros ->.
    pose proof (fuzzy_best (λ c, contentMatchCandidates c altTitles) (localContentYearPenalty ct year) title items) as Hb.
    rewrite Ef in Hb. destruct Hb as (i & raw & s & _ & Hraw & Hs & _). exists raw. rewrite Hs. by split.
  - split_and!; [done|done|]. intros ->.
    pose proof (fuzzy_best (λ c, contentMatchCandidates c altTitles) (localContentYearPenalty ct year) title items) as Hb.
    by rewrite Ef in Hb.
Qed.

(** The candidates handed to other stages are as many as asked for at most. *)
Theorem candidates_limited `{!SearchBackendLaws W} fuzzy ct title year limit w w' items :
  ContentCandidatesBySearch Tables fuzzy ct title year limit w = (w', inr items) →
  (length items ≤ Z.to_nat (if (limit <=? 0)%Z then 5 else limit))%nat
  ∧ NoDup (Classifier.Ref <$> items) ∧ Forall (λ c, Classifier.c_Type c = ct) items.
Proof.
  unfold ContentCandidatesBySearch. set (n := if (limit <=? 0)%Z then 5%Z else limit).
  destruct (contentCandidates _ _ _ _ _ n w) as [w1 [err|all_items]] eqn:E; [done|]. intros [= <- <-].
  apply contentCandidates_spec in E as [Hn Ht]. rewrite <-(take_drop (Z.to_nat n) all_items) in Hn, Ht.
  rewrite fmap_app in Hn. apply NoDup_app in Hn as (Hn & _). apply Forall_app in Ht as [Ht _].
  split_and!; [rewrite length_take; lia|done..].
Qed.

End content_search.

(** ** Evaluations and witnesses *)
Section witnesses.
#[local] Existing Instances ascii_unicode ascii_unicode_laws title_tables title_tables_laws Keywords.group_rex group_rex_finds
  plain_transforms plain_transforms_laws edit_levenshtein edit_levenshtein_laws.

(** The year outranks the title: a near title of the right year beats the exact
    title of the year after. *)
Theorem year_outranks_title :
  fuzzy_test "Night Train" 1998 [(["Night Train"], 1999%Z); (["Night Trail"], 1998%Z)] true = Some ["Night Trail"].
Proof. by vm_compute. Qed.

(** The first tokens of the pairs that the gate is said to keep apart. *)
Theorem first_token_gate :
  firstToken (NormalizeTitleForMatch (foldTitlePunct (runes_of "The Batman")))
    = firstToken (NormalizeTitleForMatch (foldTitlePunct (runes_of "Batman Begins")))
  ∧ firstToken (NormalizeTitleForMatch (foldTitlePunct (runes_of "Rocky")))
    = firstToken (NormalizeTitleForMatch (foldTitlePunct (runes_of "Rocky IV"))).
Proof. split; by vm_compute. Qed.

Lemma fuzzy_best_match_witness :
  ∃ i raw, ["Other"; "Night Trail"] !! i = Some "Night Trail" ∧ raw ∈ [runes_of "Night Trail"] ∧ title_matches (runes_of "Night Train") raw.
Proof.
  pose proof (fuzzy_best_match (λ t : string, [runes_of t]) None (runes_of "Night Train") ["Other"; "Night Trail"]) as Hb.
  assert (fuzzyFindBestMatch (λ t : string, [runes_of t]) None (runes_of "Night Train") ["Other"; "Night Trail"] true = Some "Night Trail") as E by by vm_compute.
  rewrite E in Hb. destruct Hb as (i & raw & Hi & Hr & Hm & _). exists i, raw. exact (conj Hi (conj Hr Hm)).
Defined.

Lemma same_words_found_witness :
  ∃ t', fuzzyFindBestMatch (λ t : string, [runes_of t]) None (runes_of "Grey's Anatomy") ["Other"; "GREYS... anatomy"] true = Some t'
    ∧ (0 ≤ 0)%Z.
Proof.
  apply (same_words_found (λ t : string, [runes_of t]) None (runes_of "Grey's Anatomy") ["Other"; "GREYS... anatomy"] "GREYS... anatomy"
           (runes_of "GREYS... anatomy")); try (apply (bool_decide_unpack _); by vm_compute); by vm_compute.
Defined.

(** A database of two films, and a series that is never answered for films. *)
Definition film (title : string) (year : Z) : Classifier.Content :=
  Classifier.mkContent "movie" (runes_of "tmdb") (runes_of title) (runes_of title) year None Classifier.no_string [].
#[local] Instance two_films : SearchBackend unit :=
  {| search_Content q w := (w, inr (if bool_decide (query_type q = "movie") then [film "Night Train" 1999; film "Night Trail" 1998] else [])) |}.
#[local] Instance two_films_laws : SearchBackendLaws unit.
Proof.
  split. intros q w w' items c [= <- <-] Hc. case_bool_decide as E; [|by apply elem_of_nil in Hc].
  rewrite E. by repeat apply elem_of_cons in Hc as [->|Hc]; [..|apply elem_of_nil in Hc].
Qed.

Lemma content_by_search_witness :
  NoDup (Classifier.Ref <$> [film "Night Train" 1999; film "Night Trail" 1998])
  ∧ ContentBySearch (λ _, None) false true "movie" (runes_of "Night Train") 1999 () = ((), inr (film "Night Train" 1999)).
Proof.
  split; [|by vm_compute].
  refine (proj1 (content_by_search (λ _, None) false true "movie" (runes_of "Night Train") 1999 () ()
    [film "Night Train" 1999; film "Night Trail" 1998] _)). by vm_compute.
Defined.
End witnesses.
 End Matching.
