(* ===== verification/ReleaseInfo.v ===== *)
(** * What a release name says about its video

    [internal/model]: the enumerations of resolution, source, codec, 3D format
    and modifier with the inference of each from a release name
    ([video_resolution.go], [video_source.go], [video_codec.go], [video_3d.go],
    [video_modifier.go]), the release group ([release_group.go]) and the
    advertised attributes ([release_attributes.go]); and
    [ContentAttributes.InferVideoAttributes] of [classification/result.go].

    The tables of aliases are Go maps: the lists that are built by ranging
    over one take its keys in some order, and the theorems about them say what
    does not depend on it. *)
From S2P Require Import Prelude Protocol SHA256 Lexer Metainfo Regex Dates Anime Keywords Episodes Workflow Classifier ContentFilter Titles Languages.
From stdpp Require Import gmap list strings sets sorting.
From Stdlib Require Import ZArith Lia.

#[local] Open Scope string_scope.
#[local] Open Scope list_scope.

Module ReleaseInfo.
Import Lexer Keywords Workflow Classifier Titles.

(** ** Enumerations *)

Definition VideoResolutionNames : list string := ["V360p"; "V480p"; "V540p"; "V576p"; "V720p"; "V1080p"; "V1440p"; "V2160p"; "V4320p"].
Definition VideoSourceNames : list string := ["CAM"; "TELESYNC"; "TELECINE"; "WORKPRINT"; "DVD"; "TV"; "WEBDL"; "WEBRip"; "BluRay"].
Definition VideoCodecNames : list string := ["H264"; "x264"; "x265"; "XviD"; "DivX"; "MPEG2"; "MPEG4"; "HEVC"; "AV1"].
Definition Video3DNames : list string := ["V3D"; "V3DSBS"; "V3DOU"].
Definition VideoModifierNames : list string := ["REGIONAL"; "SCREENER"; "RAWHD"; "BRDISK"; "REMUX"].

(** The generated table of values holds every name and its lower case. *)
Definition enum_value (names : list string) (key : runes) : option string :=
  snd <$> list_find (λ n, runes_of n = key ∨ runes_of (string_map Workflow.lower_ascii n) = key) names.
Definition ParseEnum `{Unicode} (names : list string) (name : runes) : option string :=
  match enum_value names name with Some v => Some v | None => enum_value names (lower name) end.
Definition no_enum : NullEnum := mkNull "" false false.
Definition NewNullEnum (v : string) : NullEnum := mkNull v true false.

(** [removeEnumPrefixes] and [namesToLower] of [enums.go]. *)
Definition removeEnumPrefixes (names : list string) : list runes := tail ∘ runes_of <$> names.
Definition namesToLower `{Unicode} (names : list runes) : list runes := lower <$> names.

(** ** Tables of aliases *)

Definition videoResolutionAliases : list (string * string) :=
  [("1080i", "V1080p"); ("1920x1080", "V1080p"); ("3840x2160", "V2160p"); ("2k", "V1080p"); ("4k", "V2160p"); ("8k", "V4320p");
   ("sd", "V480p"); ("hd", "V720p"); ("fhd", "V1080p"); ("uhd", "V2160p")].
Definition videoSourceAliases : list (string * string) :=
  [("bdremux", "BluRay"); ("camrip", "CAM"); ("bdrip", "BluRay"); ("blu-ray", "BluRay"); ("brrip", "BluRay"); ("dvd5", "DVD");
   ("dvd9", "DVD"); ("dvdrip", "DVD"); ("hdtv", "TV"); ("iptvrip", "TV"); ("satrip", "TV"); ("web", "WEBRip"); ("web-dl", "WEBDL");
   ("web.dl", "WEBDL"); ("web-rip", "WEBRip")].
Definition videoCodecAliases : list (string * string) :=
  [("avc", "H264"); ("h.264", "H264"); ("h-264", "H264"); ("h_264", "H264"); ("h 264", "H264"); ("h265", "HEVC"); ("h.265", "HEVC");
   ("h-265", "HEVC"); ("h_265", "HEVC"); ("h 265", "HEVC")].
Definition alias (t : list (string * string)) (key : runes) : option string :=
  snd ∘ snd <$> list_find (λ e, runes_of e.1 = key) t.
Definition alias_names (t : list (string * string)) : list runes := runes_of ∘ fst <$> t.

(** The order of the sorted tables: the longest first, then by bytes. *)
Fixpoint runes_lt (a b : runes) : bool :=
  match a, b with
  | _, [] => false
  | [], _ :: _ => true
  | x :: a, y :: b => (x <? y)%Z || ((x =? y)%Z && runes_lt a b)
  end.
Definition longest_first (a b : runes) : Prop :=
  (length b < length a)%nat ∨ (length a = length b ∧ runes_lt b a = false).
#[export] Instance longest_first_dec : RelDecision longest_first := λ a b, or_dec (decide _) (and_dec (decide _) (decide _)).

Definition keyword_regex `{Unicode} `{UnicodeTables} `{!Rex} (kws : list runes) : Regex.regexp :=
  match MustNewRegexFromKeywords kws with Ok re => re | _ => Regex.never end.

(** [regexp.QuoteMeta] *)
Definition QuoteMeta (s : runes) : runes :=
  s ≫= λ r, if bool_decide (r ∈ runes_of "\.+*?()|[]{}^$") then [92; r]%Z else [r].
Fixpoint join_with (sep : runes) (l : list runes) : runes :=
  match l with [] => [] | [w] => w | w :: l => w ++ sep ++ join_with sep l end.

(** A pattern assembled from parts, as [MustCompile] of a text. *)
Definition compile (pattern : runes) : Regex.regexp := default Regex.never (Regex.Compile pattern).

Section infer.
Context `{Unicode} `{UnicodeTables} `{!Rex}.

(** ** Resolution, source, 3D and modifier *)

(** [order] is the order in which the map of aliases is ranged over. *)
Definition createVideoResolutionRegex (order : list (string * string)) : Regex.regexp :=
  keyword_regex (namesToLower (removeEnumPrefixes VideoResolutionNames) ++ alias_names order).
Definition videoResolutionRegex : Regex.regexp := createVideoResolutionRegex videoResolutionAliases.

Definition first_group (m : list runes) : runes := default [] (m !! 1%nat).

Definition resolution_of (w : runes) : NullEnum :=
  match ParseEnum VideoResolutionNames (86%Z :: w) with
  | Some parsed => NewNullEnum parsed
  | None => match alias videoResolutionAliases (lower w) with Some inferred => NewNullEnum inferred | None => no_enum end
  end.
Definition InferVideoResolution_with (re : Regex.regexp) (input : runes) : NullEnum :=
  match Regex.FindStringSubmatch re input with
  | Some m => resolution_of (first_group m)
  | None => no_enum
  end.
Definition InferVideoResolution (input : runes) : NullEnum := InferVideoResolution_with videoResolutionRegex input.

Definition source_names (order : list (string * string)) : list runes :=
  merge_sort longest_first (namesToLower (runes_of <$> VideoSourceNames) ++ alias_names order).
Definition createVideoSourceRegex (order : list (string * string)) : Regex.regexp := keyword_regex (source_names order).
Definition videoSourceRegex : Regex.regexp := createVideoSourceRegex videoSourceAliases.

Definition InferVideoSource (input : runes) : NullEnum :=
  match Regex.FindStringSubmatch videoSourceRegex input with
  | Some m =>
      match ParseEnum VideoSourceNames (first_group m) with
      | Some parsed => NewNullEnum parsed
      | None => match alias videoSourceAliases (lower (first_group m)) with Some aliased => NewNullEnum aliased | None => no_enum end
      end
  | None => no_enum
  end.

Definition video3dRegex : Regex.regexp := keyword_regex (namesToLower (removeEnumPrefixes Video3DNames)).
Definition InferVideo3D (input : runes) : NullEnum :=
  match Regex.FindStringSubmatch video3dRegex input with
  | Some m => match ParseEnum Video3DNames (86%Z :: first_group m) with Some parsed => NewNullEnum parsed | None => no_enum end
  | None => no_enum
  end.

Definition videoModifierRegex : Regex.regexp := keyword_regex (runes_of "bdremux" :: namesToLower (runes_of <$> VideoModifierNames)).
(** [strings.EqualFold] with a text of ASCII letters that fold to ASCII only. *)
Definition EqualFold_ascii (s : runes) (t : string) : bool := bool_decide ((λ r, if ascii_upper r then (r + 32)%Z else r) <$> s = runes_of t).
Definition InferVideoModifier (input : runes) : NullEnum :=
  match Regex.FindStringSubmatch videoModifierRegex input with
  | Some m =>
      if EqualFold_ascii (first_group m) "bdremux" then NewNullEnum "REMUX"
      else match ParseEnum VideoModifierNames (first_group m) with Some parsed => NewNullEnum parsed | None => no_enum end
  | None => no_enum
  end.

(** ** Codec *)

Definition codec_names (order : list (string * string)) : list runes :=
  merge_sort longest_first (namesToLower (runes_of <$> VideoCodecNames) ++ alias_names order).
Definition videoCodecTokenPattern : runes := join_with (runes_of "|") (QuoteMeta <$> codec_names videoCodecAliases).
Definition videoCodecRegex : Regex.regexp :=
  compile (runes_of "(?i)(?:^|[^\pL\pN])(" ++ videoCodecTokenPattern ++ runes_of ")(?:$|[^\pL\pN])").

Definition codecFamily (codec : string) : string :=
  if bool_decide (codec ∈ ["H264"; "x264"]) then "H264"
  else if bool_decide (codec ∈ ["HEVC"; "x265"]) then "HEVC"
  else if bool_decide (codec ∈ ["MPEG4"; "XviD"; "DivX"]) then "MPEG4"
  else codec.

(** An alias that is not in the table is the zero value of the map. *)
Definition codec_of (token : runes) : string :=
  match ParseEnum VideoCodecNames token with
  | Some codec => codec
  | None => default "" (alias videoCodecAliases (lower token))
  end.

(** The search goes on at the end of the token; a token is not empty, so the
    length of the text is enough. *)
Fixpoint codec_loop (fuel : nat) (selected : option string) (input : runes) : NullEnum :=
  let stop := match selected with Some c => NewNullEnum c | None => no_enum end in
  match fuel with
  | O => stop
  | S fuel =>
      match input with
      | [] => stop
      | _ =>
          match Regex.find videoCodecRegex input with
          | None => stop
          | Some (_, _, gs) =>
              let '(a, b) := default (0, 0)%nat (default None (head gs)) in
              let codec := codec_of (Regex.extract input a b) in
              match selected with
              | Some c => if bool_decide (codecFamily c = codecFamily codec) then codec_loop fuel selected (drop b input) else no_enum
              | None => codec_loop fuel (Some codec) (drop b input)
              end
          end
      end
  end.
Definition InferVideoCodec (input : runes) : NullEnum := codec_loop (S (length input)) None input.

End infer.

(** ** Release group, [release_group.go] *)

Definition releaseGroupExtension : Regex.regexp :=
  Eval vm_compute in Regex.MustCompile "(?i)\.(?:mkv|mp4|avi|mov|m4v|wmv|ts|mpg|mpeg|vob|iso|torrent)$".
Definition releaseGroupSuffix : Regex.regexp := Eval vm_compute in Regex.MustCompile "-([\pL\pN][\pL\pN_]{0,63})$".
Definition releaseGroupRevision : Regex.regexp := Eval vm_compute in Regex.MustCompile "(?i)[ ._]+(?:proper|repack|internal|readnfo)$".
Definition releaseGroupVersion : Regex.regexp := Eval vm_compute in Regex.MustCompile "(?i)^(?:v\d+|\d+|\d{3,4}[pi])$".

Definition reservedReleaseGroup : list string :=
  ["dl"; "rip"; "web"; "webrip"; "webdl"; "bluray"; "bdremux"; "remux"; "proper"; "repack"; "internal"; "readnfo"; "remastered";
   "extended"; "unrated"; "uncut"; "limited"; "complete"; "multi"; "dubbed"; "subbed"; "hdr"; "hdr10"; "dv"; "atmos"; "truehd";
   "dts"; "hd"; "ma"; "aac"; "ac3"; "dd"; "ddp"; "flac"; "opus"; "avc"; "h264"; "h265"; "hevc"; "av1"; "x264"; "x265"; "xvid"; "divx"].

(** ** Advertised attributes, [release_attributes.go] *)

Definition claimRegex (token : runes) : Regex.regexp :=
  compile (runes_of "(?i)(?:^|[^\pL\pN])(?:" ++ token ++ runes_of ")(?:$|[^\pL\pN])").
Definition audioClaimRegex (token : runes) : Regex.regexp :=
  claimRegex (runes_of "(?:" ++ token ++ runes_of ")(?:[ ._-]?[1-9](?:[ ._][01])?(?:[ ._]?ch)?)?").

Definition ReleaseAttributesParser : string := "release-attributes-v1".

Inductive claim_field := Hdr | Audio | Feature | Revision.
#[export] Instance claim_field_eq_dec : EqDecision claim_field.
Proof. solve_decision. Defined.

Definition releaseAttributeClaims : list (Regex.regexp * claim_field * string) := Eval vm_compute in
  [(claimRegex (runes_of "hdr10(?:\+|[ ._-]?plus)"), Hdr, "HDR10_PLUS");
   (claimRegex (runes_of "hdr10"), Hdr, "HDR10");
   (claimRegex (runes_of "hdr"), Hdr, "HDR");
   (claimRegex (runes_of "dv|dovi|dolby[ ._-]?vision"), Hdr, "DOLBY_VISION");
   (audioClaimRegex (runes_of "true[ ._-]?hd"), Audio, "TRUEHD");
   (audioClaimRegex (runes_of "dts(?:[ ._-]?(?:hd|ma|hres|es|x))*"), Audio, "DTS");
   (audioClaimRegex (runes_of "e[ ._-]?ac[ ._-]?3|ddp|dd\+"), Audio, "EAC3");
   (audioClaimRegex (runes_of "ac[ ._-]?3|dd"), Audio, "AC3");
   (audioClaimRegex (runes_of "aac"), Audio, "AAC");
   (audioClaimRegex (runes_of "flac"), Audio, "FLAC");
   (audioClaimRegex (runes_of "opus"), Audio, "OPUS");
   (claimRegex (runes_of "atmos"), Feature, "ATMOS");
   (claimRegex (runes_of "dts[ ._-]?x"), Feature, "DTS_X");
   (claimRegex (runes_of "proper"), Revision, "PROPER");
   (claimRegex (runes_of "repack"), Revision, "REPACK");
   (claimRegex (runes_of "readnfo"), Revision, "READNFO");
   (claimRegex (runes_of "internal"), Revision, "INTERNAL")].

Definition audioChannelClaim : Regex.regexp := Eval vm_compute in
  Regex.MustCompile "(?i)(?:^|[^\pL\pN])(?:true[ ._-]?hd|dts(?:[ ._-]?(?:hd|ma|hres|es|x))*|e?[ ._-]?ac[ ._-]?3|ddp?|aac|flac|opus)[ ._-]*([1-9][ ._][01]|[1-9]ch)(?:$|[^\pL\pN])".

(** [sort.Strings] *)
Definition string_le (a b : string) : Prop := String.leb a b = true.
#[export] Instance string_le_dec : RelDecision string_le := λ a b, decide (String.leb a b = true).

(** More specific claims subsume the label of the family. *)
Definition subsume (field : claim_field) (X : gset string) : gset string :=
  match field with
  | Hdr =>
      let X := if bool_decide ("HDR10_PLUS" ∈ X) then X ∖ {["HDR10"]} else X in
      if bool_decide ("HDR10" ∈ X) || bool_decide ("HDR10_PLUS" ∈ X) then X ∖ {["HDR"]} else X
  | Audio => if bool_decide ("EAC3" ∈ X) then X ∖ {["AC3"]} else X
  | _ => X
  end.

Section attributes.
Context `{Unicode} `{UnicodeTables} `{!Rex}.

Definition releaseGroupEvidence : Regex.regexp :=
  compile (runes_of "(?i)(?:^|[^\pL\pN])(?:" ++ videoCodecTokenPattern ++
    runes_of "|dts(?:[ ._-](?:hd|ma|es|x))*|true[ ._-]?hd|atmos|e[ ._-]?ac3|ac[ ._-]?3|ddp?|aac|flac|opus" ++
    runes_of "|\d{3,4}p|web[ ._-]?(?:dl|rip)|web|blu[ ._-]?ray|b[dr]rip|bdremux|dvd(?:rip)?|hdtv|remux|proper|repack)" ++
    runes_of "(?:[ ._]?\d(?:[ ._]\d)?(?:[ ._]?ch)?)?$").

Fixpoint strip_revisions (n : nat) (input : runes) : runes :=
  match n with
  | O => input
  | S n =>
      let stripped := Regex.ReplaceAllString releaseGroupRevision input [] in
      if bool_decide (stripped = input) then input else strip_revisions n stripped
  end.

Definition reserved (group : runes) : bool := existsb (λ w, bool_decide (runes_of w = lower group)) reservedReleaseGroup.

Definition group_input (input : runes) : runes :=
  strip_revisions 3 (Regex.ReplaceAllString releaseGroupExtension (TrimSpace input) []).
Definition InferReleaseGroup (input : runes) : NullString :=
  let input := group_input input in
  match Regex.find releaseGroupSuffix input with
  | None => no_string
  | Some (i, _, gs) =>
      let '(a, b) := default (0, 0)%nat (default None (head gs)) in
      let group := Regex.extract input a b in
      if reserved group || Regex.MatchString releaseGroupVersion group
         || negb (Regex.MatchString releaseGroupEvidence (take i input))
      then no_string else NewNullString group
  end.

Definition InferVideoCodecAndReleaseGroup (input : runes) : NullEnum * NullString := (InferVideoCodec input, InferReleaseGroup input).

(** The values claimed for a field. *)
Definition claimed (suffix : runes) (field : claim_field) : gset string :=
  list_to_set (omap (λ c, if bool_decide (c.1.2 = field) && Regex.MatchString c.1.1 suffix then Some c.2 else None) releaseAttributeClaims).
Definition values (suffix : runes) (field : claim_field) : list runes :=
  runes_of <$> merge_sort string_le (elements (subsume field (claimed suffix field))).

(** The channels: the last value found and whether two differ. *)
Definition channel_value (s : runes) : runes := (λ r, if ((r =? 32) || (r =? 95))%Z then 46%Z else r) <$> lower s.
Fixpoint channel_loop (fuel : nat) (channel : runes) (ambiguous : bool) (suffix : runes) : runes * bool :=
  match fuel with
  | O => (channel, ambiguous)
  | S fuel =>
      match suffix with
      | [] => (channel, ambiguous)
      | _ =>
          match Regex.find audioChannelClaim suffix with
          | None => (channel, ambiguous)
          | Some (_, _, gs) =>
              let '(a, b) := default (0, 0)%nat (default None (head gs)) in
              let value := channel_value (Regex.extract suffix a b) in
              channel_loop fuel value (ambiguous || (bool_decide (channel ≠ []) && bool_decide (channel ≠ value))) (drop b suffix)
          end
      end
  end.
Definition audio_channels (suffix : runes) : option runes :=
  let '(channel, ambiguous) := channel_loop (S (length suffix)) [] false suffix in
  if bool_decide (channel ≠ []) && negb ambiguous then Some channel else None.

Definition encoder (suffix : runes) : option runes :=
  match filter (λ e, Regex.MatchString (claimRegex (runes_of e)) suffix = true) ["x264"; "x265"] with
  | [e] => Some (runes_of e)
  | _ => None
  end.

(** [sourceName] is the name in bytes, of which the digest is kept. *)
Definition InferReleaseAttributes (sourceName : bytes) (suffix : runes) : option ReleaseAttributes :=
  let hdr := values suffix Hdr in
  let audio := values suffix Audio in
  let features := values suffix Feature in
  let revisions := values suffix Revision in
  let channels := audio_channels suffix in
  let enc := encoder suffix in
  if (length hdr + length audio + length features + length revisions =? 0)%nat && bool_decide (channels = None) && bool_decide (enc = None)
  then None
  else Some (mkReleaseAttributes 1 (runes_of ReleaseAttributesParser) (runes_of (hex_encode (SHA256.Sum256 sourceName)))
               hdr audio channels features revisions enc).

(** [ContentAttributes.InferVideoAttributes] *)
Definition InferVideoAttributes {L} (input : runes) (sourceName : bytes) (a : ContentAttributes L) : ContentAttributes L :=
  let '(codec, group) := InferVideoCodecAndReleaseGroup input in
  mkAttributes L (ContentType a) (BaseTitle a) (Date_ a) (Classifier.Languages a) (LanguageMulti a) (Episodes_ a)
    (InferVideoResolution input) (InferVideoSource input) codec (InferVideo3D input) (InferVideoModifier input) group
    (InferReleaseAttributes sourceName input).

End attributes.

(** ** The tests of the sources *)

Definition name_tables : UnicodeTables := {|
  table_has name r :=
    if bool_decide (name = "N"%string) then ascii_digit r else @table_has title_tables name r
|}.

Section tests.
#[local] Existing Instances ascii_unicode name_tables group_rex.

Definition video_source_test (s : string) : string := Val (InferVideoSource (runes_of s)).
Example video_source_tests :
  video_source_test <$> ["A.2024.1080p.WEB-DL.H264-GROUP"; "A.1080p.WEB.DL.H264"; "A.WEBDL.H264"; "[web-dl] A"; "WEB.DL"; "A.WEBRip.H264";
    "A.WEB-Rip.H264"; "A.WEB.H264"; "A.Blu-Ray.H264"; "A.BDRemux.H264"; "A.DVD5.H264"; "A.HDTV.H264"; "A.IPTVRip"; "A.CAM.H264"; "A.CAMP.H264";
    "A.WEBDLExtra"; "A.SomeWEB-DL"]
  = ["WEBDL"; "WEBDL"; "WEBDL"; "WEBDL"; "WEBDL"; "WEBRip"; "WEBRip"; "WEBRip"; "BluRay"; "BluRay"; "DVD"; "TV"; "TV"; "CAM"; ""; ""; ""].
Proof. by vm_compute. Qed.

Definition codec_test (s : string) : string * runes :=
  let '(c, g) := InferVideoCodecAndReleaseGroup (runes_of s) in (Val c, Text g).
Example codec_claims :
  Forall (λ e, codec_test e.1 = (e.2.1, runes_of e.2.2))
    [("1080p.H.264-GROUP.mkv", ("H264", "GROUP")); ("1080p.H_264-GROUP", ("H264", "GROUP")); ("1080p.AVC-GROUP", ("H264", "GROUP"));
     ("1080p.x264.DTS-GROUP.mkv", ("x264", "GROUP")); ("1080p.x265.TrueHD.7.1-GROUP.mkv", ("x265", "GROUP"));
     ("2160p.H.265.DDP5.1-GROUP.mkv", ("HEVC", "GROUP")); ("2160p.H 265-GROUP", ("HEVC", "GROUP"));
     ("2160p.AV1.DTS-HD.MA.5.1-GROUP.mkv", ("AV1", "GROUP")); ("1080p.DDP5.1-GROUP.mkv", ("", "GROUP"));
     ("1080p.WEB-DL-GROUP.mkv", ("", "GROUP")); ("1080p.WEB-DL", ("", "")); ("1080p.AV1-GROUP.PROPER.mkv", ("AV1", "GROUP"));
     ("Amber-Signal.mkv", ("", "")); ("Amber-Story.2025.mkv", ("", "")); ("1080p.x265-REPACK.mkv", ("x265", ""));
     ("1080p.x265-v2.mkv", ("x265", "")); ("1080p.av1encoded.mkv", ("", "")); ("1080p.prehevc.mkv", ("", ""));
     ("1080p.H264.x265-GROUP.mkv", ("", "GROUP")); ("1080p.x265.H.265-GROUP.mkv", ("x265", "GROUP"));
     ("x265.DTS-Ab12_Group.mkv", ("x265", "Ab12_Group"))].
Proof. repeat constructor; by vm_compute. Qed.

Example resolution_tests :
  (λ s, Val (InferVideoResolution (runes_of s))) <$> ["A.1080p.x264"; "A.1080i"; "UHD"; "a 4K b"; "A.hdtv"; "A 1920x1080"; "[720P]"]
  = ["V1080p"; "V1080p"; "V2160p"; "V2160p"; ""; "V1080p"; "V720p"].
Proof. by vm_compute. Qed.

Example attribute_tests :
  (λ r, (ra_HDRFormats r, ra_AudioFormats r, ra_AudioChannels r, ra_AudioFeatures r, ra_Encoder r))
    <$> InferReleaseAttributes [] (runes_of "2160p.HDR10+.DV.DDP5.1.Atmos.x265-GROUP")
  = Some ([runes_of "DOLBY_VISION"; runes_of "HDR10_PLUS"], [runes_of "EAC3"], Some (runes_of "5.1"), [runes_of "ATMOS"], Some (runes_of "x265")).
Proof. by vm_compute. Qed.
End tests.

Lemma extract_middle (a b c : runes) : Regex.extract (a ++ b ++ c) (length a) (length a + length b) = b.
Proof. unfold Regex.extract. rewrite drop_app_length. replace (length a + length b - length a)%nat with (length b) by lia. apply take_app_length. Qed.

(** ** Delimited claims *)

(** The numbers of ASCII. *)
Class NumberLaws `{UnicodeTables} := { ascii_table_N r : is_ascii r → table_has "N" r = ascii_digit r }.

#[export] Instance name_tables_laws : @TableLaws name_tables.
Proof. split; intros r Hr; [apply title_tables_laws, Hr..]. Qed.
#[export] Instance name_tables_numbers : @NumberLaws name_tables.
Proof. by split. Qed.

Abbreviation edge_class := (Regex.Class_ true true [Regex.Table "L" true; Regex.Table "N" true]).
Definition delim (b : Regex.regex) : Regex.regex :=
  Regex.Seq (Regex.Seq (Regex.Seq Regex.Empty (Regex.Alt (Regex.Seq Regex.Empty Regex.BeginText) (Regex.Seq Regex.Empty edge_class))) b)
    (Regex.Alt (Regex.Seq Regex.Empty Regex.EndText) (Regex.Seq Regex.Empty edge_class)).

Section delimited.
Context `{UnicodeTables}.

(** A character that ends a word: neither it nor another case of it is a
    letter or a number. *)
Definition edge (r : Z) : Prop := Regex.class_has true true [Regex.Table "L" true; Regex.Table "N" true] r = true.

(** A part of a text with [u] before it and [v] after it stands alone. *)
Definition ends_at_edge (u : runes) : Prop := u = [] ∨ ∃ u' c, u = u' ++ [c] ∧ edge c.
Definition starts_at_edge (v : runes) : Prop := v = [] ∨ ∃ c v', v = c :: v' ∧ edge c.

Lemma edge_not_alnum `{!TableLaws} `{!NumberLaws} r : alnum r = true → ¬ edge r.
Proof.
  unfold alnum. intros Hr He.
  assert (is_ascii r) as Ha by (unfold is_ascii, ascii_lower, ascii_upper, ascii_digit, Metainfo.in_range in *; bool_hyps; lia).
  unfold edge, Regex.class_has in He. cbn [existsb Regex.item_has] in He.
  rewrite ascii_table_L, ascii_table_N in He by done. unfold ascii_lower, ascii_upper, ascii_digit in *.
  unfold Metainfo.in_range in *. repeat match type of He with context [(?a <=? ?b)%Z] => destruct (a <=? b)%Z end; done.
Qed.

Lemma matches_delim b s x p q :
  Regex.reads (Regex.start s) x p → Regex.matches (delim b) p q →
  ∃ u p1 q1, Regex.reads (Regex.start s) u p1 ∧ Regex.matches b p1 q1 ∧ ends_at_edge u ∧ starts_at_edge (Regex.left q1)
    ∧ (u = [] ∧ x = [] ∨ ∃ c, u = x ++ [c] ∧ edge c) ∧ Regex.caps q = Regex.caps q1 ∧ (Regex.at_ q1 ≤ Regex.at_ q)%nat.
Proof.
  intros Hx (q1 & (p1 & (p0 & ->%Regex.matches_empty & Ha)%Regex.matches_seq & Hb)%Regex.matches_seq & He)%Regex.matches_seq.
  assert (starts_at_edge (Regex.left q1) ∧ Regex.caps q = Regex.caps q1 ∧ (Regex.at_ q1 ≤ Regex.at_ q)%nat) as (? & ? & ?).
  { apply Regex.matches_alt in He as [(p2 & ->%Regex.matches_empty & He)%Regex.matches_seq |
      (p2 & ->%Regex.matches_empty & (c & Hc & E)%Regex.matches_class)%Regex.matches_seq].
    - inversion He; subst. split_and!; [by left|done|lia].
    - inversion Hc as [|????? Hl Hc']; subst. inversion Hc'; subst. split_and!; [right; eauto|done|simpl; lia]. }
  apply Regex.matches_alt in Ha as [(p2 & ->%Regex.matches_empty & Ha)%Regex.matches_seq |
    (p2 & ->%Regex.matches_empty & (c & Hc & E)%Regex.matches_class)%Regex.matches_seq].
  - inversion Ha as [| | | | | | | | |? Hn| |]; subst. rewrite (Regex.reads_before _ _ _ Hx) in Hn.
    destruct (last x) eqn:El; [done|]. apply last_None in El as ->. exists [], p1, q1. split_and!; try done; [by left|by left].
  - exists (x ++ [c]), p1, q1. split_and!; try done; [apply Regex.reads_app; eauto|right; eauto|right; eauto].
Qed.

Lemma delim_matches b s u p1 q1 :
  Regex.reads (Regex.start s) u p1 → Regex.matches b p1 q1 → ends_at_edge u → starts_at_edge (Regex.left q1) →
  ∃ x p q, Regex.reads (Regex.start s) x p ∧ Regex.matches (delim b) p q ∧ (u = [] ∧ x = [] ∨ ∃ c, u = x ++ [c]).
Proof.
  intros Hu Hb Hs He.
  assert (∃ q, Regex.matches (Regex.Alt (Regex.Seq Regex.Empty Regex.EndText) (Regex.Seq Regex.Empty edge_class)) q1 q) as [q Hq].
  { destruct He as [Hl | (c & v & Hl & E)].
    - exists q1. apply Regex.m_alt_l. econstructor; [constructor|by constructor].
    - eexists. apply Regex.m_alt_r. econstructor; [constructor|by econstructor]. }
  destruct Hs as [-> | (x & c & -> & E)].
  - inversion Hu; subst. exists [], (Regex.start s), q. split_and!; [done| |by left].
    eapply Regex.m_seq; [|exact Hq]. eapply Regex.m_seq; [|exact Hb]. econstructor; [constructor|].
    apply Regex.m_alt_l. econstructor; [constructor|by constructor].
  - apply Regex.reads_app in Hu as (p & Hx & Hc). exists x, p, q. split_and!; [done| |right; eauto].
    eapply Regex.m_seq; [|exact Hq]. eapply Regex.m_seq; [|exact Hb]. econstructor; [constructor|].
    apply Regex.m_alt_r. econstructor; [constructor|]. apply Regex.matches_class. eauto.
Qed.

End delimited.

(** ** Literals in any case *)

Definition down (s : runes) : runes := Languages.ascii_down <$> s.
(** Characters whose other cases are in ASCII. *)
Definition plain_fold (c : Z) : bool := bool_decide (is_ascii c) && negb (ascii_upper c) && negb (c =? 107)%Z && negb (c =? 115)%Z.
Definition literals (w : runes) : Regex.regex := foldl (λ r c, Regex.Seq r (Regex.literal true c)) Regex.Empty w.

Section literals.
Context `{UnicodeTables}.

Lemma folds_down c r : plain_fold c = true → ContentFilter.folds c r ↔ Languages.ascii_down r = c.
Proof.
  unfold plain_fold. rewrite !andb_true_iff, !negb_true_iff, bool_decide_eq_true. intros (((Ha & Hu) & Hk) & Hs).
  unfold is_ascii, ContentFilter.folds, Regex.orbit, Languages.ascii_down, ascii_upper, ascii_lower in *.
  apply Z.eqb_neq in Hk, Hs.
  assert (¬ (65 ≤ c ≤ 90)%Z) as Hnu by (bool_hyps; lia). clear Hu.
  destruct (Z.leb_spec 97 r), (Z.leb_spec r 122), (Z.leb_spec 65 r), (Z.leb_spec r 90); cbn [andb orb app]; try lia;
    repeat match goal with |- context [(?a =? ?b)%Z] => destruct (Z.eqb_spec a b) end; subst; cbn [andb orb app];
    rewrite ?elem_of_cons, ?elem_of_nil; lia.
Qed.

Lemma matches_literals_down w p q :
  forallb plain_fold w = true → Regex.matches (literals w) p q ↔ ∃ u, Regex.reads p u q ∧ down u = w.
Proof.
  intros Hw. unfold literals. rewrite ContentFilter.matches_literals.
  assert (∀ u, Forall2 ContentFilter.folds w u ↔ down u = w) as Hf.
  { induction w as [|c w IH]; intros u; [split; [by intros ->%Forall2_nil_inv_l|by intros ->%fmap_nil_inv]|].
    cbn [forallb] in Hw. apply andb_true_iff in Hw as [Hc Hw]. specialize (IH Hw). destruct u as [|r u].
    - split; [by intros ?%Forall2_cons_nil_inv|done].
    - rewrite Forall2_cons, folds_down, IH by done. unfold down. cbn. naive_solver congruence. }
  split.
  - intros (p1 & u & ->%Regex.matches_empty & Hu & ?%Hf). eauto.
  - intros (u & Hu & ?%Hf). exists p, u. split_and!; [constructor|done..].
Qed.

Lemma matches_alternatives_down l p q :
  forallb (forallb plain_fold) l = true →
  Regex.matches (ContentFilter.alternatives (literals <$> l)) p q ↔ ∃ u, Regex.reads p u q ∧ down u ∈ l.
Proof.
  induction l as [|w l IH]; intros Hl.
  - cbn. split; [|intros (u & _ & ?%not_elem_of_nil); done]. by intros (r & _ & ?)%Regex.matches_class.
  - cbn [forallb] in Hl. apply andb_true_iff in Hl as [Hw Hl].
    assert (Regex.matches (ContentFilter.alternatives (literals <$> w :: l)) p q
            ↔ Regex.matches (literals w) p q ∨ Regex.matches (ContentFilter.alternatives (literals <$> l)) p q) as ->.
    { destruct l as [|w' l]; [|apply Regex.matches_alt]. cbn. split; [by left|]. intros [?|(r & _ & ?)%Regex.matches_class]; done. }
    rewrite matches_literals_down, IH by done. setoid_rewrite elem_of_cons. naive_solver.
Qed.

End literals.

(** ** Codec claims *)

(** The spellings of the codecs, sorted. *)
Definition codec_list : list runes := Eval vm_compute in @codec_names ascii_unicode videoCodecAliases.

(** The spellings do not overlap: none begins another, and no spelling begins
    with what follows a separator inside another. *)
Fixpoint inner_starts (w : runes) : list Z :=
  match w with
  | a :: (b :: _) as w' => if alnum a then inner_starts w' else b :: inner_starts w'
  | _ => []
  end.
Lemma codec_list_apart :
  forallb (λ n, forallb (λ n', bool_decide (n = n') || negb (bool_decide (n `prefix_of` n'))) codec_list) codec_list
  && forallb (λ n, forallb (λ n', match n' with c :: _ => alnum c && negb (bool_decide (c ∈ inner_starts n)) | [] => false end) codec_list) codec_list
  && forallb (forallb plain_fold) codec_list = true.
Proof. by vm_compute. Qed.

Lemma runes_lt_trans : ∀ a b c, runes_lt a b = true → runes_lt b c = true → runes_lt a c = true.
Proof.
  induction a as [|x a IH]; intros [|y b] [|z c]; simpl; try done.
  rewrite !orb_true_iff, !andb_true_iff, !Z.ltb_lt, !Z.eqb_eq. intros [?|[-> ?]] [?|[-> ?]]; [left; lia..|]. eauto.
Qed.
Lemma runes_lt_total : ∀ a b, runes_lt a b = false → runes_lt b a = false → a = b.
Proof.
  induction a as [|x a IH]; intros [|y b]; simpl; try done.
  rewrite !orb_false_iff, !andb_false_iff, !Z.ltb_ge, !Z.eqb_neq. intros [? H1] [? H2].
  assert (x = y) as -> by lia. f_equal. apply IH; destruct H1, H2; done.
Qed.
#[local] Instance longest_first_trans : Transitive longest_first.
Proof.
  intros a b c [?|[? Ha]] [?|[? Hb]]; [left; lia..|]. right. split; [lia|].
  destruct (runes_lt c a) eqn:E; [|done].
  destruct (runes_lt a b) eqn:Eab; [by rewrite (runes_lt_trans c a b) in Hb by done|].
  pose proof (runes_lt_total _ _ Ha Eab) as <-. congruence.
Qed.
#[local] Instance longest_first_anti : AntiSymm (=) longest_first.
Proof. intros a b [?|[? Ha]] [?|[? Hb]]; [lia..|]. by apply runes_lt_total. Qed.
#[local] Instance longest_first_total : Total longest_first.
Proof.
  intros a b. unfold longest_first.
  destruct (decide (length a = length b)) as [El|]; [|destruct (decide (length b < length a)%nat); [left; by left|right; left; lia]].
  destruct (runes_lt b a) eqn:E; [|left; by right]. right. right. split; [done|].
  destruct (runes_lt a b) eqn:E'; [|done]. pose proof (runes_lt_trans _ _ _ E E') as Hc. clear -Hc.
  induction b as [|x b IH]; [done|]. simpl in Hc. rewrite Z.ltb_irrefl, Z.eqb_refl in Hc. by apply IH.
Qed.

Lemma sorted_names_unique (l l' : list runes) : l ≡ₚ l' → merge_sort longest_first l = merge_sort longest_first l'.
Proof.
  intros Hp. apply (Sorted_unique longest_first); [apply Sorted_merge_sort, _..|]. by rewrite !merge_sort_Permutation.
Qed.

Section codec.
Context `{Unicode} `{!UnicodeLaws} `{UnicodeTables} `{!TableLaws} `{!NumberLaws}.

Lemma lower_ascii_down s : Forall is_ascii s → lower s = down s.
Proof. intros Hs. unfold lower, down. apply list_fmap_ext. intros i r Hi. rewrite Forall_lookup in Hs. by rewrite ascii_ToLower by (eapply Hs, Hi). Qed.

Lemma namesToLower_down l : forallb (forallb (λ r, bool_decide (is_ascii r))) l = true → namesToLower l = down <$> l.
Proof.
  intros Hl. unfold namesToLower. apply list_fmap_ext. intros i s Hi. apply lower_ascii_down.
  apply list_elem_of_lookup_2, list_elem_of_In in Hi. rewrite forallb_forall in Hl. specialize (Hl _ Hi).
  rewrite forallb_forall in Hl. rewrite Forall_forall. intros r Hr%list_elem_of_In. specialize (Hl _ Hr). by apply bool_decide_eq_true in Hl.
Qed.

(** The list of spellings is the same for every order of the map. *)
Lemma codec_names_eq order : order ≡ₚ videoCodecAliases → codec_names order = codec_list.
Proof.
  intros Ho. transitivity (codec_names videoCodecAliases).
  - apply sorted_names_unique. f_equiv. unfold alias_names. by rewrite Ho.
  - unfold codec_names. rewrite namesToLower_down by by vm_compute. by vm_compute.
Qed.

Lemma videoCodecRegex_prog :
  videoCodecRegex = Regex.mkRegexp (delim (Regex.Cap 1 (ContentFilter.alternatives (literals <$> codec_list)))) 1.
Proof. unfold videoCodecRegex, videoCodecTokenPattern. rewrite codec_names_eq by done. by vm_compute. Qed.

(** A spelling of a codec that stands alone in [s], in any case. *)
Definition codec_at (s u w : runes) : Prop :=
  ∃ v, s = u ++ w ++ v ∧ ends_at_edge u ∧ starts_at_edge v ∧ down w ∈ codec_list.
Definition claims_codec (s : runes) (c : string) : Prop := ∃ u w, codec_at s u w ∧ codec_of w = c.

Lemma codec_match s x p q :
  Regex.reads (Regex.start s) x p → Regex.matches (Regex.prog videoCodecRegex) p q →
  ∃ u w, codec_at s u w ∧ (u = [] ∧ x = [] ∨ ∃ c, u = x ++ [c] ∧ edge c)
    ∧ Regex.caps q = [(1, (length u, length u + length w))]%nat.
Proof.
  rewrite videoCodecRegex_prog. cbn [Regex.prog]. intros Hx Hm.
  destruct (matches_delim _ _ _ _ _ Hx Hm) as (u & p1 & q1 & Hu & (q0 & Hb & ->)%Regex.matches_cap & He & Hs & Hux & Hc & _).
  apply matches_alternatives_down in Hb as (w & Hw & Hin); [|by vm_compute].
  pose proof (Regex.reads_point s _ _ _ Hu (conj eq_refl eq_refl)) as (Hp & Hat & Hcp & _).
  pose proof (Regex.reads_point s _ _ _ Hw Hp) as (_ & Hat' & Hcq & _).
  exists u, w. split_and!; [|done|].
  - exists (Regex.left q0). split_and!; try done. rewrite <-(Regex.reads_left _ _ _ Hw), <-(Regex.reads_left _ _ _ Hu). done.
  - rewrite Hc. cbn [Regex.caps Regex.capture]. rewrite Hcq, Hcp, Hat', Hat. done.
Qed.

Lemma codec_matched s u w :
  codec_at s u w → ∃ x p q, Regex.reads (Regex.start s) x p ∧ Regex.matches (Regex.prog videoCodecRegex) p q ∧ (u = [] ∧ x = [] ∨ ∃ c, u = x ++ [c]).
Proof.
  intros (v & -> & Hu & Hv & Hin). rewrite videoCodecRegex_prog. cbn [Regex.prog].
  destruct (Regex.reads_exists (Regex.start (u ++ w ++ v)) u (w ++ v) eq_refl) as (p1 & Hp1 & Hl1).
  destruct (Regex.reads_exists p1 w v Hl1) as (q1 & Hq1 & Hl2).
  eapply delim_matches; [exact Hp1| |done|].
  - constructor. apply matches_alternatives_down; [by vm_compute|]. eauto.
  - cbn [Regex.left Regex.capture]. by rewrite Hl2.
Qed.

(** A spelling begins with a letter or a digit. *)
Lemma codec_head s u w : codec_at s u w → ∃ c w', w = c :: w' ∧ ¬ edge c.
Proof.
  intros (v & _ & _ & _ & Hin). pose proof codec_list_apart as [[_ Ha]%andb_true_iff _]%andb_true_iff.
  rewrite forallb_forall in Ha. specialize (Ha _ (proj1 (list_elem_of_In _ _) Hin)).
  rewrite forallb_forall in Ha. specialize (Ha _ (proj1 (list_elem_of_In _ _) Hin)).
  destruct w as [|c w]; [done|]. exists c, w. split; [done|]. apply edge_not_alnum.
  cbn [down fmap list_fmap] in Ha. apply andb_true_iff in Ha as [Ha _]. revert Ha.
  unfold alnum, Languages.ascii_down. destruct (ascii_upper c) eqn:E; [by rewrite orb_true_r|]. by rewrite E.
Qed.

Lemma find_codec s :
  match Regex.find videoCodecRegex s with
  | None => ∀ u w, ¬ codec_at s u w
  | Some (_, _, gs) =>
      ∃ u w, codec_at s u w ∧ head gs = Some (Some (length u, length u + length w))%nat
        ∧ ∀ u' w', codec_at s u' w' → (length u ≤ length u')%nat
  end.
Proof.
  unfold Regex.find. destruct (Regex.first_match _ _) as [[i q]|] eqn:Hf.
  - apply Regex.first_match_Some in Hf as (ps1 & p & ps2 & Hps & Hi & Hm & Hn).
    assert (p ∈ Regex.points 0 None s) as Hp by (rewrite Hps; apply elem_of_app; right; left).
    apply Regex.points_reads in Hp as (x & Hx).
    destruct (codec_match _ _ _ _ Hx Hm) as (u & w & Hat & Hux & Hc). exists u, w. split_and!; [done| |].
    + rewrite videoCodecRegex_prog. cbn. unfold Regex.span_of. by rewrite Hc.
    + intros u' w' Hat'. destruct (codec_matched _ _ _ Hat') as (x' & p' & q' & Hx' & Hm' & Hux').
      pose proof (Regex.reads_point s _ _ _ Hx (conj eq_refl eq_refl)) as (_ & Hpx & _).
      pose proof (Regex.reads_point s _ _ _ Hx' (conj eq_refl eq_refl)) as (_ & Hpx' & _). cbn in Hpx, Hpx'.
      destruct (decide (length x' < length x)%nat) as [Hlt|Hge].
      { destruct (Hn p' q'); [|done]. apply (Regex.points_before s ps1 p ps2); [done| |lia]. apply Regex.points_reads. eauto. }
      destruct Hux as [[-> ->] | (c & -> & Ec)]; [simpl; lia|].
      destruct Hux' as [[-> ->] | (c' & ->)]; [|rewrite !length_app; simpl; lia].
      simpl in Hge. assert (x = []) as -> by (clear -Hge; destruct x; [done|cbn in Hge; lia]).
      destruct (codec_head _ _ _ Hat') as (d & w'' & -> & Hd). destruct Hat as (v & Hs & _), Hat' as (v' & Hs' & _).
      rewrite Hs in Hs'. cbn in Hs'. injection Hs' as -> _. done.
  - rewrite Regex.first_match_None in Hf. intros u w Hat. destruct (codec_matched _ _ _ Hat) as (x & p & q & Hx & Hm & _).
    apply (Hf p q); [|done]. apply Regex.points_reads. eauto.
Qed.

End codec.

(** ** Codecs of one family *)

Lemma inner_starts_at z c d r : alnum c = false → d ∈ inner_starts (z ++ c :: d :: r).
Proof.
  intros Hc. induction z as [|a z IH]; [cbn [app inner_starts]; rewrite Hc; by left|]. cbn [app].
  assert (∃ b l, z ++ c :: d :: r = b :: l) as (b & l & E) by (destruct z; cbn; eauto). rewrite E in *.
  cbn [inner_starts]. destruct (alnum a); [done|]. by right.
Qed.

Lemma alnum_down c : alnum (Languages.ascii_down c) = alnum c.
Proof.
  unfold alnum, Languages.ascii_down. destruct (ascii_upper c) eqn:E; [|by rewrite E]. rewrite orb_true_r.
  assert (ascii_lower (c + 32) = true) as -> by (unfold ascii_upper, ascii_lower in *; bool_hyps; lia). done.
Qed.

Section family.
Context `{Unicode} `{!UnicodeLaws} `{UnicodeTables} `{!TableLaws} `{!NumberLaws}.

Lemma codec_at_apart s u w u' w' :
  codec_at s u w → codec_at s u' w' → (length u ≤ length u' < length u + length w)%nat → u = u' ∧ w = w'.
Proof.
  intros (v & Hs & _ & Hv & Hin) Hat' Hl. pose proof (codec_head _ _ _ Hat') as (d' & w1 & Hw' & _).
  destruct Hat' as (v' & Hs' & Hu' & Hv' & Hin').
  pose proof codec_list_apart as [[Hpre Hinner]%andb_true_iff _]%andb_true_iff.
  assert (∀ a b, a ∈ codec_list → b ∈ codec_list → a `prefix_of` b → a = b) as Hp.
  { intros a b Ha%list_elem_of_In Hb%list_elem_of_In Hab. rewrite forallb_forall in Hpre. specialize (Hpre _ Ha).
    rewrite forallb_forall in Hpre. specialize (Hpre _ Hb). rewrite (bool_decide_eq_true_2 _ Hab) in Hpre.
    rewrite orb_false_r in Hpre. by apply bool_decide_eq_true in Hpre. }
  assert (∃ z, u' = u ++ z) as [z ->].
  { destruct (app_eq_inv u (w ++ v) u' (w' ++ v')) as [(k & -> & ?)|(k & -> & _)]; [congruence| |eauto].
    rewrite length_app in Hl. assert (k = []) as -> by (clear -Hl; destruct k; [done|cbn in Hl; lia]). exists []. by rewrite !app_nil_r. }
  rewrite Hs, <-app_assoc in Hs'. apply app_inv_head in Hs'. rewrite length_app in Hl.
  assert (∃ w2, w = z ++ w2 ∧ w2 ≠ []) as (w2 & -> & Hw2).
  { destruct (app_eq_inv w v z (w' ++ v')) as [(k & -> & ?)|(k & -> & _)]; [done| |rewrite length_app in Hl; lia].
    exists k. split; [done|]. intros ->. rewrite app_nil_r in Hl. lia. }
  rewrite <-app_assoc in Hs'. apply app_inv_head in Hs'.
  destruct z as [|c z _] using rev_ind.
  - rewrite app_nil_r. cbn [app] in *. split; [done|].
    destruct (app_eq_inv w2 v w' v') as [(k & -> & _)|(k & -> & _)]; [done| |].
    + assert (down w' = down (w' ++ k)) as E by (apply Hp; [done..|]; unfold down; rewrite fmap_app; by eexists).
      apply (f_equal length) in E. unfold down in E. rewrite !length_fmap, length_app in E.
      by assert (k = []) as -> by (clear -E; destruct k; [done|cbn in E; lia]); rewrite app_nil_r.
    + assert (down w2 = down (w2 ++ k)) as E by (apply Hp; [done..|]; unfold down; rewrite fmap_app; by eexists).
      apply (f_equal length) in E. unfold down in E. rewrite !length_fmap, length_app in E.
      by assert (k = []) as -> by (clear -E; destruct k; [done|cbn in E; lia]); rewrite app_nil_r.
  - exfalso. destruct w2 as [|d w2]; [done|]. rewrite Hw' in Hs'. cbn [app] in Hs'. injection Hs' as -> _.
    destruct Hu' as [E|(x & c' & E & He)]; [apply (f_equal length) in E; rewrite !length_app in E; cbn in E; lia|]. rewrite app_assoc in E. apply app_inj_tail in E as [_ <-].
    assert (alnum c = false) as Hc by (destruct (alnum c) eqn:E; [by destruct (edge_not_alnum _ E)|done]).
    rewrite forallb_forall in Hinner. specialize (Hinner _ (proj1 (list_elem_of_In _ _) Hin)).
    rewrite forallb_forall in Hinner. specialize (Hinner _ (proj1 (list_elem_of_In _ _) Hin')). subst w'.
    unfold down in Hinner at 1. cbn [fmap list_fmap] in Hinner. apply andb_true_iff in Hinner as [_ Hn].
    rewrite bool_decide_eq_true_2 in Hn; [done|]. unfold down. rewrite !fmap_app. cbn [fmap list_fmap]. rewrite <-app_assoc. cbn [app].
    apply inner_starts_at. by rewrite alnum_down.
Qed.

Lemma claims_split s u w c :
  codec_at s u w → (∀ u' w', codec_at s u' w' → (length u ≤ length u')%nat) →
  claims_codec s c ↔ c = codec_of w ∨ claims_codec (drop (length u + length w) s) c.
Proof.
  intros Hat Hleft. pose proof Hat as (v & Hs & Hu & Hv & Hin).
  assert (drop (length u + length w) s = v) as -> by (rewrite Hs, app_assoc, <-length_app; apply drop_app_length).
  split.
  - intros (u' & w' & Hat' & <-). destruct (decide (length u' < length u + length w)%nat) as [Hlt|Hge].
    + left. destruct (codec_at_apart _ _ _ _ _ Hat Hat') as [_ ->]; [|done]. split; [by eapply Hleft|done].
    + right. destruct Hat' as (v' & Hs' & Hu' & Hv' & Hin').
      assert (∃ x, u' = u ++ w ++ x) as [x ->].
      { rewrite Hs in Hs'. destruct (app_eq_inv (u ++ w) v u' (w' ++ v')) as [(k & E & ?)|(k & -> & _)]; [by rewrite <-app_assoc| |eexists; by rewrite <-app_assoc].
        apply (f_equal length) in E. rewrite !length_app in E. assert (k = []) as -> by (clear -E Hge; destruct k; [done|cbn in E; lia]).
        exists []. rewrite app_nil_r in *. apply (f_equal (take (length u'))) in Hs'. rewrite take_app_length in Hs'.
        rewrite app_assoc, take_app_le, take_ge in Hs' by (rewrite length_app; lia). congruence. }
      rewrite Hs, <-!app_assoc in Hs'. apply app_inv_head, app_inv_head in Hs'. subst v.
      exists x, w'. split; [|done]. exists v'. split_and!; try done.
      destruct Hu' as [E|(y & c & E & He)]; [left; by destruct x, u, w|].
      destruct x as [|x0 x _] using rev_ind; [by left|]. right. rewrite !app_assoc in E. apply app_inj_tail in E as [_ ->]. eauto.
  - intros [-> | (u' & w' & (v' & -> & Hu' & Hv' & Hin') & <-)]; [by exists u, w|].
    exists (u ++ w ++ u'), w'. split; [|done]. exists v'. split_and!; try done; [by rewrite Hs, <-!app_assoc|].
    destruct Hu' as [-> | (y & c & -> & He)]; [|right; exists (u ++ w ++ y), c; by rewrite !app_assoc].
    exfalso. destruct (codec_head (w' ++ v') [] w') as (d & w1 & -> & Hd); [exists v'; split_and!; [done|by left|done..]|].
    destruct Hv as [E | (c & v1 & E & He)]; [done|]. cbn in E. injection E as -> _. done.
Qed.

Lemma claims_codec_nil c : ¬ claims_codec [] c.
Proof.
  intros (u & w & Hat & _). destruct (codec_head _ _ _ Hat) as (d & w1 & -> & _). destruct Hat as (v & E & _). by destruct u.
Qed.

(** The loop, once a codec was selected. *)
Lemma codec_loop_selected c fuel : ∀ s, (length s < fuel)%nat →
  codec_loop fuel (Some c) s = NewNullEnum c ∧ (∀ c', claims_codec s c' → codecFamily c' = codecFamily c)
  ∨ codec_loop fuel (Some c) s = no_enum ∧ ∃ c', claims_codec s c' ∧ codecFamily c' ≠ codecFamily c.
Proof.
  induction fuel as [|fuel IH]; intros s Hl; [lia|]. cbn [codec_loop].
  destruct s as [|r s']; [left; split; [done|]; by intros c' ?%claims_codec_nil|]. set (s := r :: s') in *.
  pose proof (find_codec s) as Hf. destruct (Regex.find videoCodecRegex s) as [[[i j] gs]|].
  - destruct Hf as (u & w & Hat & -> & Hleft). cbn [from_option id].
    assert (Regex.extract s (length u) (length u + length w) = w) as -> by (destruct Hat as (v & -> & _); apply extract_middle).
    pose proof (λ c', claims_split s u w c' Hat Hleft) as Hsplit.
    case_bool_decide as Ef.
    + destruct (IH (drop (length u + length w) s)) as [[-> Hc]|[-> (c' & Hc & Hne)]].
      * destruct (codec_head _ _ _ Hat) as (d & w1 & -> & _). rewrite length_drop. unfold s in *. cbn [length] in *. lia.
      * left. split; [done|]. intros c' [-> | Hc']%Hsplit; [done|by apply Hc].
      * right. split; [done|]. exists c'. split; [|done]. apply Hsplit. by right.
    + right. split; [done|]. exists (codec_of w). split; [|by apply not_eq_sym]. apply Hsplit. by left.
  - left. split; [done|]. intros c' (u & w & Hat & _). by destruct (Hf u w).
Qed.

End family.

(** ** Values of the enumerations *)

Definition valid_enum (names : list string) (e : NullEnum) : Prop := e = no_enum ∨ ∃ v, e = NewNullEnum v ∧ v ∈ names.

Lemma enum_value_in names key v : enum_value names key = Some v → v ∈ names.
Proof.
  unfold enum_value. destruct (list_find _ _) as [[i n]|] eqn:E; [|done]. intros [= <-].
  apply list_find_Some in E as (Hi & _). by eapply list_elem_of_lookup_2.
Qed.
Lemma alias_in t (names : list string) key v : forallb (λ e, bool_decide (e.2 ∈ names)) t = true → alias t key = Some v → v ∈ names.
Proof.
  intros Ht. unfold alias. destruct (list_find _ _) as [[i [k x]]|] eqn:E; [|done]. intros [= <-].
  apply list_find_Some in E as (Hi & _). apply list_elem_of_lookup_2, list_elem_of_In in Hi. rewrite forallb_forall in Ht.
  specialize (Ht _ Hi). by apply bool_decide_eq_true in Ht.
Qed.

Section typed.
Context `{Unicode}.

Lemma ParseEnum_in names key v : ParseEnum names key = Some v → v ∈ names.
Proof. unfold ParseEnum. destruct (enum_value names key) eqn:E; [intros [= <-]; by eapply enum_value_in|apply enum_value_in]. Qed.

Lemma resolution_typed w : valid_enum VideoResolutionNames (resolution_of w).
Proof.
  unfold resolution_of. destruct (ParseEnum _ _) eqn:E; [right; eexists; split; [done|by eapply ParseEnum_in]|].
  destruct (alias _ _) eqn:E'; [right; eexists; split; [done|]|by left]. by eapply alias_in; [|exact E'].
Qed.

Context `{!UnicodeLaws} `{UnicodeTables} `{!TableLaws} `{!NumberLaws} `{!Rex}.

Lemma codec_of_in w : down w ∈ codec_list → codec_of w ∈ VideoCodecNames.
Proof.
  intros Hw. assert (lower w = down w) as El.
  { apply lower_ascii_down. rewrite Forall_forall. intros r Hr.
    pose proof codec_list_apart as [_ Hp]%andb_true_iff. rewrite forallb_forall in Hp. specialize (Hp _ (proj1 (list_elem_of_In _ _) Hw)).
    rewrite forallb_forall in Hp. specialize (Hp (Languages.ascii_down r)).
    assert (plain_fold (Languages.ascii_down r) = true) as Hf by (apply Hp, list_elem_of_In, list_elem_of_fmap; eauto).
    unfold plain_fold in Hf. rewrite !andb_true_iff, bool_decide_eq_true in Hf. destruct Hf as [[[Ha _] _] _].
    revert Ha. unfold is_ascii, Languages.ascii_down, ascii_upper. destruct (Z.leb_spec 65 r), (Z.leb_spec r 90); cbn; lia. }
  unfold codec_of, ParseEnum. destruct (enum_value _ w) eqn:E1; [by eapply enum_value_in|].
  rewrite El. destruct (enum_value _ (down w)) eqn:E2; [by eapply enum_value_in|].
  assert (forallb (λ d, match enum_value VideoCodecNames d with Some _ => true | None => bool_decide (default "" (alias videoCodecAliases d) ∈ VideoCodecNames) end)
            codec_list = true) as Hall by by vm_compute.
  rewrite forallb_forall in Hall. specialize (Hall _ (proj1 (list_elem_of_In _ _) Hw)). rewrite E2 in Hall. by apply bool_decide_eq_true in Hall.
Qed.

(** What the loop answers. *)
Lemma InferVideoCodec_cases s :
  (InferVideoCodec s = no_enum ∧ ∀ c, ¬ claims_codec s c)
  ∨ (∃ c, InferVideoCodec s = NewNullEnum c ∧ claims_codec s c ∧ ∀ c', claims_codec s c' → codecFamily c' = codecFamily c)
  ∨ (InferVideoCodec s = no_enum ∧ ∃ c c', claims_codec s c ∧ claims_codec s c' ∧ codecFamily c' ≠ codecFamily c).
Proof.
  unfold InferVideoCodec. cbn [codec_loop]. destruct s as [|r s']; [left; split; [done|apply claims_codec_nil]|]. set (s := r :: s') in *.
  pose proof (find_codec s) as Hf. destruct (Regex.find videoCodecRegex s) as [[[i j] gs]|].
  - destruct Hf as (u & w & Hat & -> & Hleft). cbn [from_option id].
    assert (Regex.extract s (length u) (length u + length w) = w) as -> by (destruct Hat as (v & -> & _); apply extract_middle).
    pose proof (λ c', claims_split s u w c' Hat Hleft) as Hsplit. right.
    destruct (codec_loop_selected (codec_of w) (length s) (drop (length u + length w) s)) as [[-> Hc]|[-> (c' & Hc & Hne)]].
    + destruct (codec_head _ _ _ Hat) as (d & w1 & -> & _). rewrite length_drop. unfold s in *. cbn [length] in *. lia.
    + left. exists (codec_of w). split_and!; [done|apply Hsplit; by left|]. intros c' [-> | Hc']%Hsplit; [done|by apply Hc].
    + right. split; [done|]. exists (codec_of w), c'. split_and!; [apply Hsplit; by left|apply Hsplit; by right|done].
  - left. split; [done|]. intros c (u & w & Hat & _). by destruct (Hf u w).
Qed.

Lemma claims_codec_in s c : claims_codec s c → c ∈ VideoCodecNames.
Proof. intros (u & w & (v & _ & _ & _ & Hin) & <-). by apply codec_of_in. Qed.

Lemma codec_typed s : valid_enum VideoCodecNames (InferVideoCodec s).
Proof.
  destruct (InferVideoCodec_cases s) as [[-> _]|[(c & -> & Hc & _)|[-> _]]]; [by left| |by left].
  right. exists c. split; [done|]. by eapply claims_codec_in.
Qed.

Lemma parsed_typed names key : valid_enum names (match ParseEnum names key with Some v => NewNullEnum v | None => no_enum end).
Proof. destruct (ParseEnum _ _) eqn:E; [right; eexists; split; [done|by eapply ParseEnum_in]|by left]. Qed.

Lemma source_typed s : valid_enum VideoSourceNames (InferVideoSource s).
Proof.
  unfold InferVideoSource. destruct (Regex.FindStringSubmatch _ _); [|by left].
  destruct (ParseEnum _ _) eqn:E; [right; eexists; split; [done|by eapply ParseEnum_in]|].
  destruct (alias _ _) eqn:E'; [right; eexists; split; [done|]|by left]. by eapply alias_in; [|exact E'].
Qed.
Lemma modifier_typed s : valid_enum VideoModifierNames (InferVideoModifier s).
Proof.
  unfold InferVideoModifier. destruct (Regex.FindStringSubmatch _ _); [|by left]. destruct (EqualFold_ascii _ _); [|apply parsed_typed].
  right. exists "REMUX". split; [done|]. by vm_compute; repeat (left || right).
Qed.

(** C32: Every attribute that is inferred from a name is a value of its enumeration or absent, never an empty or unknown name: resolution, source, codec, 3D format and modifier. The other attributes of the classification, the type, the title, the date, the languages and the episodes, are left as they were. *)
Theorem video_attributes_typed {L} input name (a : ContentAttributes L) :
  let b := InferVideoAttributes input name a in
  valid_enum VideoResolutionNames (VideoResolution b) ∧ valid_enum VideoSourceNames (VideoSource b)
  ∧ valid_enum VideoCodecNames (VideoCodec b) ∧ valid_enum Video3DNames (Video3D b) ∧ valid_enum VideoModifierNames (VideoModifier b)
  ∧ ContentType b = ContentType a ∧ BaseTitle b = BaseTitle a ∧ Date_ b = Date_ a ∧ Classifier.Languages b = Classifier.Languages a
  ∧ LanguageMulti b = LanguageMulti a ∧ Episodes_ b = Episodes_ a.
Proof.
  cbn. split_and!; try done; [|apply source_typed|apply codec_typed| |apply modifier_typed].
  - unfold InferVideoResolution, InferVideoResolution_with. destruct (Regex.FindStringSubmatch _ _); [apply resolution_typed|by left].
  - unfold InferVideo3D. destruct (Regex.FindStringSubmatch _ _); [apply parsed_typed|by left].
Qed.

(** The codec of a release is what its name claims, and only when it claims one: a spelling of a codec counts when it stands alone in the name, in any case; when all spellings in the name belong to one family the answer is one of them, and when there is none, or when two of different families appear anywhere in the name, next to each other or not, there is no answer. *)
Theorem codec_unambiguous s :
  let r := InferVideoCodec s in
  (Valid r = true → claims_codec s (Val r) ∧ ∀ c, claims_codec s c → codecFamily c = codecFamily (Val r))
  ∧ (Valid r = false → (∀ c, ¬ claims_codec s c) ∨ ∃ c c', claims_codec s c ∧ claims_codec s c' ∧ codecFamily c' ≠ codecFamily c).
Proof.
  cbn zeta. destruct (InferVideoCodec_cases s) as [[-> ?]|[(c & -> & ? & ?)|[-> ?]]]; cbn; split; intros; try done; [by left|by right].
Qed.

End typed.

(** ** The release group *)

Section release_group.
Context `{Unicode} `{UnicodeTables}.

(** A pattern that ends the text, removed from it. *)
Definition at_end (r : Regex.regex) : Prop :=
  ∀ p q, Regex.matches r p q → Regex.left q = [] ∧ (Regex.at_ p < Regex.at_ q)%nat.

Lemma replace_at_end re s : at_end (Regex.prog re) → Regex.ReplaceAllString re s [] `prefix_of` s.
Proof.
  intros Hend.
  assert (∀ pos i j gs, Regex.find_from re s pos = Some (i, j, gs) → (i < length s)%nat ∧ j = length s) as Hj.
  { intros pos i j gs Hf. apply Regex.find_from_found in Hf as [(p & q & Hp & Hm & [= -> -> ->]) _].
    destruct (Hend _ _ Hm) as [Hl Hlt]. destruct (Regex.matches_forward _ _ _ s Hm) as [[Hq _] _]; [by apply (Regex.points_of s [] None)|].
    rewrite Hl in Hq. simpl in Hq. lia. }
  unfold Regex.ReplaceAllString. cbn [Regex.replace_all Nat.add].
  destruct (Nat.ltb_spec (length s) 0) as [?|_]; [lia|].
  destruct (Regex.find_from re s 0) as [[[i j] gs]|] eqn:Hf; [|done]. destruct (Hj _ _ _ _ Hf) as [Hi ->].
  assert (∀ pos, (length s ≤ pos)%nat → Regex.find_from re s pos = None) as Hnone.
  { intros pos Hpos. destruct (Regex.find_from re s pos) as [[[i' j'] gs']|] eqn:Hf'; [|done].
    destruct (Hj _ _ _ _ Hf') as [Hi' _]. apply Regex.find_from_found in Hf' as [_ ?]. lia. }
  destruct (Nat.ltb_spec (length s) 1) as [?|_].
  - lia.
  - rewrite Nat.ltb_irrefl, Hnone, drop_all by done. destruct (_ || _); cbn [app]; rewrite ?app_nil_r; unfold Regex.extract;
      rewrite drop_0, Nat.sub_0_r; by exists (drop i s); rewrite take_drop.
Qed.

Lemma matches_end r p q : Regex.matches (Regex.Seq r Regex.EndText) p q → Regex.left q = [] ∧ Regex.matches r p q.
Proof. intros (q1 & Hr & He)%Regex.matches_seq. by inversion He; subst. Qed.

(** How many runes a pattern reads at least. *)
Fixpoint min_read (r : Regex.regex) : nat :=
  match r with
  | Regex.Class_ _ _ _ | Regex.AnyNotNL => 1
  | Regex.Seq a b => min_read a + min_read b
  | Regex.Alt a b => min_read a `min` min_read b
  | Regex.Cap _ a => min_read a
  | _ => 0
  end.
Lemma matches_min_read r p q : Regex.matches r p q → (Regex.at_ p + min_read r ≤ Regex.at_ q)%nat.
Proof. induction 1; cbn [min_read Regex.at_ Regex.advance Regex.capture] in *; lia. Qed.

Lemma at_end_of r : (1 ≤ min_read r)%nat → at_end (Regex.Seq r Regex.EndText).
Proof. intros Hr p q [Hl Hm]%matches_end. split; [done|]. apply matches_min_read in Hm. lia. Qed.

Lemma strip_revisions_prefix n : ∀ s, strip_revisions n s `prefix_of` s.
Proof.
  induction n as [|n IH]; intros s; cbn [strip_revisions]; [done|]. case_bool_decide; [done|].
  etrans; [apply IH|]. apply replace_at_end, at_end_of. by apply Nat.leb_le.
Qed.

Lemma group_input_prefix s : group_input s `prefix_of` TrimSpace s.
Proof. unfold group_input. etrans; [apply strip_revisions_prefix|]. apply replace_at_end, at_end_of. by apply Nat.leb_le. Qed.

(** A letter or a number, of Unicode. *)
Definition group_rune (r : Z) : bool := table_has "L" r || table_has "N" r.

Lemma group_suffix s i j gs :
  Regex.find releaseGroupSuffix s = Some (i, j, gs) →
  ∃ pre c g, s = pre ++ 45%Z :: c :: g ∧ length pre = i ∧ (length g ≤ 63)%nat ∧ group_rune c = true
    ∧ Forall (λ r, group_rune r || (r =? 95)%Z = true) g
    ∧ head gs = Some (Some (S (length pre), S (length pre) + S (length g)))%nat.
Proof.
  intros (p & q & Hp & Hm & [= -> -> ->])%Regex.find_found.
  pose proof (Regex.points_of s [] None p Hp) as Hpo. pose proof (Regex.points_caps _ _ _ _ Hp) as Hcaps.
  cbn [Regex.prog releaseGroupSuffix] in Hm.
  apply matches_end in Hm as [Hl (q1 & (p1 & ->%Regex.matches_empty & (d & Hd & Ed)%Regex.matches_class)%Regex.matches_seq
    & (q2 & Hb & ->)%Regex.matches_cap)%Regex.matches_seq].
  apply Regex.matches_seq in Hb as (q3 & (p1' & ->%Regex.matches_empty & (c & Hc & Ec)%Regex.matches_class)%Regex.matches_seq & Hg).
  apply (Regex.matches_repeat_class true false false
    [Regex.Table "L" true; Regex.Table "N" true; Regex.Range 95 95] 0 63) in Hg as (g & Hg & Hlen & Fg); [|lia].
  pose proof (Regex.reads_point s _ _ _ Hd Hpo) as (Hq1 & Ha1 & Hc1 & _).
  pose proof (Regex.reads_point s _ _ _ Hc Hq1) as (Hq3 & Ha3 & Hc3 & _).
  pose proof (Regex.reads_point s _ _ _ Hg Hq3) as (Hq2 & Ha2 & Hc2 & _).
  assert (d = 45%Z) as ->.
  { unfold Regex.class_has in Ed. cbn in Ed. unfold Metainfo.in_range in Ed. bool_hyps. lia. }
  pose proof (Regex.point_of_split s p Hpo) as Hs.
  rewrite (Regex.reads_left _ _ _ Hd), (Regex.reads_left _ _ _ Hc), (Regex.reads_left _ _ _ Hg) in Hs. cbn [Regex.left Regex.capture] in Hl.
  rewrite Hl, app_nil_r in Hs. cbn [app] in Hs.
  assert (length (take (Regex.at_ p) s) = Regex.at_ p) as Hlt by (rewrite length_take; destruct Hpo as [Hpo _]; simpl in Hpo; lia).
  exists (take (Regex.at_ p) s), c, g. split_and!; [done|done|lia| | |].
  - revert Ec. unfold Regex.class_has, group_rune. cbn. by destruct (table_has "L" c), (table_has "N" c).
  - eapply Forall_impl; [exact Fg|]. intros r. unfold Regex.class_has, group_rune. cbn. unfold Metainfo.in_range.
    destruct (table_has "L" r), (table_has "N" r); try done. cbn. intros ?. bool_hyps. apply Z.eqb_eq. lia.
  - cbn. unfold Regex.span_of. cbn. rewrite Hlt, decide_True by done. cbn in Ha1, Ha2, Ha3 |- *. rewrite Ha2, Ha3, Ha1. repeat f_equal; lia.
Qed.

(** A release group is read only from the end of the name and only with evidence: it is at most 64 runes long, letters, numbers and underscores with a letter or number first, it stands in the name behind a dash, what comes before that dash ends in a technical token (a codec, an audio format, a resolution, a source), and it is none of the reserved words and no version or number. *)
Theorem release_group_bounded input :
  TValid (InferReleaseGroup input) = true →
  let g := Text (InferReleaseGroup input) in
  ∃ pre tail c rest, TrimSpace input = pre ++ 45%Z :: g ++ tail
    ∧ g = c :: rest ∧ (length g ≤ 64)%nat ∧ group_rune c = true ∧ Forall (λ r, group_rune r || (r =? 95)%Z = true) g
    ∧ Regex.MatchString releaseGroupEvidence pre = true ∧ reserved g = false ∧ Regex.MatchString releaseGroupVersion g = false.
Proof.
  destruct (group_input_prefix input) as [tail Ht]. unfold InferReleaseGroup.
  destruct (Regex.find _ _) as [[[i j] gs]|] eqn:Hf; [|done].
  apply group_suffix in Hf as (pre & c & g & Hs & Hi & Hlen & Hc & Hg & ->). cbn [from_option id].
  assert (Regex.extract (group_input input) (S (length pre)) (S (length pre) + S (length g)) = c :: g) as ->.
  { rewrite Hs. unfold Regex.extract. replace (S (length pre) + S (length g) - S (length pre))%nat with (length (c :: g)) by (cbn; lia).
    rewrite cons_middle, app_assoc. replace (S (length pre)) with (length (pre ++ [45%Z])) by (rewrite length_app; cbn; lia).
    rewrite drop_app_length. apply take_ge. cbn. lia. }
  replace (take i (group_input input)) with pre by (rewrite Hs, <-Hi; symmetry; apply take_app_length).
  destruct (reserved (c :: g) || _ || _) eqn:E; [done|]. rewrite !orb_false_iff, negb_false_iff in E. destruct E as [[Er Ev] Ee].
  intros _. cbn [Text NewNullString]. exists pre, tail, c, g.
  split_and!; try done; [|cbn; lia|constructor; [by rewrite Hc|done]].
  rewrite Ht, Hs, <-app_assoc. done.
Qed.

End release_group.

(** ** The first keyword of a name *)

Section fields.
Context (f : Z → bool).

Definition closes (a : runes) : Prop := a = [] ∨ ∃ a' c, a = a' ++ [c] ∧ f c = true.
Definition opens (b : runes) : Prop := b = [] ∨ ∃ c b', b = c :: b' ∧ f c = true.

Lemma fields_break cur a c t : f c = true → Anime.fields_loop f cur (a ++ c :: t) = Anime.fields_loop f cur (a ++ [c]) ++ Anime.fields_loop f [] t.
Proof.
  intros Hc. revert cur. induction a as [|x a IH]; intros cur; cbn [app Anime.fields_loop].
  - rewrite Hc. cbn [app Anime.fields_loop]. by destruct (decide (cur = [])); rewrite ?app_nil_r.
  - destruct (f x); [by rewrite IH, <-app_assoc|apply IH].
Qed.

Lemma fields_split a w b :
  closes a → w ≠ [] → Forall (λ r, f r = false) w → opens b →
  Anime.FieldsFunc (a ++ w ++ b) f = Anime.FieldsFunc a f ++ w :: Anime.FieldsFunc b f.
Proof.
  intros Ha Hne Hw Hb. unfold Anime.FieldsFunc.
  assert (Anime.fields_loop f [] (w ++ b) = w :: Anime.fields_loop f [] b) as Hwb.
  { enough (∀ cur, cur ++ w ≠ [] → Anime.fields_loop f cur (w ++ b) = (cur ++ w) :: Anime.fields_loop f [] b) as Hall by by apply (Hall []).
    clear Hne. induction Hw as [|r w Hr Hw IH]; intros cur Hcw; cbn [app].
    - rewrite app_nil_r in *. destruct Hb as [-> | (c & b' & -> & Hc)]; cbn [Anime.fields_loop].
      + by rewrite !decide_False, decide_True by done.
      + rewrite Hc. by rewrite decide_False, decide_True by done.
    - cbn [Anime.fields_loop]. rewrite Hr, IH by (by destruct cur). by rewrite <-app_assoc. }
  destruct Ha as [-> | (a' & c & -> & Hc)]; [done|].
  rewrite <-app_assoc. cbn [app]. by rewrite fields_break, Hwb by done.
Qed.

Lemma fields_member s w :
  w ∈ Anime.FieldsFunc s f → ∃ a b, s = a ++ w ++ b ∧ closes a ∧ w ≠ [] ∧ Forall (λ r, f r = false) w ∧ opens b.
Proof.
  unfold Anime.FieldsFunc.
  enough (∀ cur, Forall (λ r, f r = false) cur → w ∈ Anime.fields_loop f cur s →
    ∃ a b, cur ++ s = a ++ w ++ b ∧ closes a ∧ w ≠ [] ∧ Forall (λ r, f r = false) w ∧ opens b) as Hall by (intros Hw; by apply (Hall [])).
  induction s as [|x s IH]; intros cur Hcur; cbn [Anime.fields_loop].
  - destruct (decide (cur = [])); [by intros ?%not_elem_of_nil|]. intros ->%list_elem_of_singleton.
    exists [], []. split_and!; [done|by left|done|done|by left].
  - destruct (f x) eqn:Hx.
    + rewrite elem_of_app. intros [Hw | Hw].
      * destruct (decide (cur = [])); [by apply not_elem_of_nil in Hw|]. apply list_elem_of_singleton in Hw as ->.
        exists [], (x :: s). split_and!; [done|by left|done|done|right; eauto].
      * destruct (IH [] (Forall_nil_2 _) Hw) as (a & b & E & Ha & ? & ? & ?). exists (cur ++ x :: a), b.
        cbn in E. split_and!; try done; [rewrite E, <-app_assoc; done|]. right.
        destruct Ha as [-> | (a' & c & -> & Hc)]; [by exists cur, x|]. exists (cur ++ x :: a'), c. by rewrite <-app_assoc.
    + intros Hw. destruct (IH (cur ++ [x])) as (a & b & E & ?); [apply Forall_app; by repeat constructor|done|].
      exists a, b. by rewrite <-app_assoc in E.
Qed.

End fields.

Section first_keyword.
Context `{Unicode} `{!UnicodeLaws} `{UnicodeTables} `{!TableLaws} `{!Rex} `{!RexGroups}.

(** The words of a name: runs of letters and digits. *)
Definition word_rune (r : Z) : bool := table_has "L" r || ascii_digit r.
Definition words (s : runes) : list runes := Anime.FieldsFunc s (λ r, negb (word_rune r)).

Lemma non_word_rune r : non_word r ↔ negb (word_rune r) = true.
Proof. unfold non_word, word_rune. rewrite negb_true_iff, orb_false_iff. done. Qed.

(** A keyword of lower-case letters and digits of ASCII. *)
Definition simple (w : runes) : bool := bool_decide (w ≠ []) && forallb (λ c, ascii_lower c || ascii_digit c) w.

Lemma simple_alnum c : ascii_lower c || ascii_digit c = true → is_ascii c ∧ ToLower c = c ∧ IsWordChar c = true.
Proof.
  intros Hc. assert (is_ascii c) as Ha by (unfold is_ascii, ascii_lower, ascii_digit in *; bool_hyps; lia).
  split; [done|]. unfold IsWordChar. rewrite ascii_IsLetter, ascii_ToLower by done. rewrite ?ascii_IsDigit by done.
  unfold IsInt, ascii_lower, ascii_upper, ascii_digit, is_ascii in *. destruct (Z.leb_spec 97 c), (Z.leb_spec c 122), (Z.leb_spec 48 c), (Z.leb_spec c 57),
    (Z.leb_spec 65 c), (Z.leb_spec c 90); cbn in *; try done; lia.
Qed.

Lemma simple_plain w : simple w = true → Keywords.plain_word w.
Proof.
  unfold simple. rewrite andb_true_iff, bool_decide_eq_true. intros [Hne Hw]. split; [done|].
  rewrite forallb_forall in Hw. apply Forall_forall. intros c Hc%list_elem_of_In. specialize (Hw _ Hc).
  destruct (simple_alnum c Hw) as (Ha & Hl & Hi). split_and!; [done|done|].
  intros Hin. repeat (apply elem_of_cons in Hin as [-> | Hin]; [done|]). by apply not_elem_of_nil in Hin.
Qed.

Lemma simple_word w u : simple w = true → Forall2 either_case w u → u ≠ [] ∧ Forall (λ r, negb (word_rune r) = false) u.
Proof.
  unfold simple. rewrite andb_true_iff, bool_decide_eq_true. intros [Hne Hw] Hf. split; [by intros ->; inversion Hf; subst|].
  clear Hne. induction Hf as [|c x w u Hcx Hf IH]; [constructor|]. cbn [forallb] in Hw. apply andb_true_iff in Hw as [Hc Hw].
  constructor; [|by apply IH]. rewrite negb_false_iff. destruct (simple_alnum c Hc) as (Ha & _ & _). unfold word_rune.
  assert (is_ascii x ∧ (ascii_lower x || ascii_upper x || ascii_digit x) = true) as [Hax Hx].
  { unfold either_case in Hcx. rewrite ascii_ToUpper in Hcx by done. unfold is_ascii, ascii_lower, ascii_upper, ascii_digit in *.
    destruct Hcx as [-> | ->]; [|split; [done|]; bool_hyps; lia].
    destruct (Z.leb_spec 97 c), (Z.leb_spec c 122); cbn in *; split; try lia; bool_hyps; lia. }
  rewrite ascii_table_L by done. exact Hx.
Qed.

End first_keyword.

Section keyword_groups.
Context `{Unicode} `{UnicodeTables}.

Lemma numbered_letters n w : numbered n (NonCaptured (letter <$> w)) = (den (NonCaptured (letter <$> w)), n).
Proof.
  revert n. induction w as [|c w IH]; intros n; [done|]. specialize (IH n). cbn in *.
  assert (numbered n (letter c) = (den (letter c), n)) as -> by (unfold letter; by destruct (_ =? _)%Z). by rewrite IH.
Qed.
Lemma numbered_word_token n w : numbered n (word_token w) = (den (word_token w), n).
Proof. pose proof (numbered_letters n w) as Hw. unfold word_token. cbn in *. by rewrite Hw. Qed.
Lemma numbered_words n ws : numbered n (Composite false (word_token <$> ws)) = (den (Composite false (word_token <$> ws)), n).
Proof.
  revert n. induction ws as [|w ws IH]; intros n; [done|]. specialize (IH n). pose proof (numbered_word_token n w) as Hw. cbn in *.
  by rewrite Hw, IH.
Qed.

Abbreviation before_word := (Composite false [Begin; Repeat OneOrMore AnyNonWordChar]).
Abbreviation after_word := (Composite false [End_; Repeat OneOrMore AnyNonWordChar]).
Lemma keyword_prog ws :
  with_groups (keyword_pattern (word_token <$> ws))
  = Regex.mkRegexp (Regex.Seq (den before_word) (Regex.Seq (Regex.Cap 1 (den (Composite true (word_token <$> ws))))
      (Regex.Seq (den after_word) Regex.Empty))) 1.
Proof. pose proof (numbered_words 2 ws) as Hw. unfold with_groups, keyword_pattern. cbn in *. by rewrite Hw. Qed.

End keyword_groups.

Section first_word.
Context `{Unicode} `{!UnicodeLaws} `{UnicodeTables} `{!TableLaws}.

(** A keyword of [ws] at the part [u] of [s], after [pre]. *)
Definition keyword_at (ws : list runes) (s pre u : runes) : Prop :=
  ∃ w suf, w ∈ ws ∧ s = pre ++ u ++ suf ∧ Forall2 either_case w u
    ∧ closes (λ r, negb (word_rune r)) pre ∧ opens (λ r, negb (word_rune r)) suf.

Lemma keyword_at_occurs ws s pre u : keyword_at ws s pre u → ∃ w, w ∈ ws ∧ ∃ suf, s = pre ++ u ++ suf ∧ Forall2 either_case w u
    ∧ (pre = [] ∨ ∃ pre' c, pre = pre' ++ [c] ∧ non_word c) ∧ (suf = [] ∨ ∃ c suf', suf = c :: suf' ∧ non_word c).
Proof.
  intros (w & suf & Hin & Hs & Hf & Hp & Hq). exists w. split; [done|]. exists suf. unfold closes, opens in *.
  setoid_rewrite non_word_rune. done.
Qed.

Lemma keyword_match ws s x p q :
  Forall Keywords.plain_word ws → Regex.reads (Regex.start s) x p →
  Regex.matches (Regex.prog (with_groups (keyword_pattern (word_token <$> ws)))) p q →
  ∃ pre u, keyword_at ws s pre u ∧ (pre = [] ∧ x = [] ∨ ∃ v, pre = x ++ v ∧ Forall (λ r, negb (word_rune r) = true) v)
    ∧ Regex.caps q = [(1, (length pre, length pre + length u))]%nat.
Proof.
  intros Hws Hx. rewrite keyword_prog. cbn [Regex.prog].
  intros (p1 & Ha & (q1 & (q0 & Hw & ->)%Regex.matches_cap & (q2 & Hc & ->%Regex.matches_empty)%Regex.matches_seq)%Regex.matches_seq)%Regex.matches_seq.
  apply matches_words in Hw as (w & u & Hin & Hu & Hf); [|done].
  destruct (matches_before _ _ _ _ Hx Ha) as (pre & Hpre & Hp).
  assert (Regex.caps q2 = Regex.caps (Regex.capture 1 (Regex.at_ p1) q0)) as Hcaps by (eapply Regex.matches_no_caps; [exact Hc|done]).
  pose proof (Regex.reads_point s _ _ _ Hpre (conj eq_refl eq_refl)) as (Hpo & Hat & Hcp & _).
  pose proof (Regex.reads_point s _ _ _ Hu Hpo) as (_ & Hat' & Hcq & _).
  exists pre, u. split_and!.
  - exists w, (Regex.left q0). split_and!; try done.
    + rewrite <-(Regex.reads_left _ _ _ Hu), <-(Regex.reads_left _ _ _ Hpre). done.
    + unfold closes. setoid_rewrite <-non_word_rune. done.
    + unfold opens. setoid_rewrite <-non_word_rune. apply matches_after in Hc. done.
  - apply matches_composite in Ha as (t & [-> | ->%list_elem_of_singleton]%elem_of_cons & Ha).
    + left. inversion Ha as [| | | | | | | | |? Hb| |]; subst.
      pose proof (Regex.reads_before _ _ _ Hpre) as E. rewrite Hb in E. destruct (last pre) eqn:El; [done|]. apply last_None in El as ->.
      split; [done|]. pose proof (Regex.reads_point s _ _ _ Hx (conj eq_refl eq_refl)) as (_ & Hax & _).
      rewrite Hat in Hax. cbn in Hax. by destruct x.
    + right. apply matches_separator in Ha as (v & _ & Hv & Fv). exists v. split.
      * assert (Regex.reads (Regex.start s) (x ++ v) p1) as Hxv by (apply Regex.reads_app; eauto).
        pose proof (Regex.reads_point s _ _ _ Hxv (conj eq_refl eq_refl)) as (_ & _ & _ & <-).
        by pose proof (Regex.reads_point s _ _ _ Hpre (conj eq_refl eq_refl)) as (_ & _ & _ & <-).
      * eapply Forall_impl; [exact Fv|]. intros r. apply non_word_rune.
  - rewrite Hcaps. cbn [Regex.caps Regex.capture]. rewrite Hcq, Hcp, Hat', Hat. done.
Qed.

Lemma keyword_matched ws s pre u :
  Forall Keywords.plain_word ws → keyword_at ws s pre u →
  ∃ x p q, Regex.reads (Regex.start s) x p ∧ Regex.matches (Regex.prog (with_groups (keyword_pattern (word_token <$> ws)))) p q
    ∧ (length x ≤ length pre)%nat.
Proof.
  intros Hws (w & Hin & suf & Hs & Hf & Hpre & Hsuf)%keyword_at_occurs. rewrite keyword_prog. cbn [Regex.prog].
  destruct (Regex.reads_exists (Regex.start s) pre (u ++ suf) Hs) as (q1 & Hq1 & Hl1).
  destruct (Regex.reads_exists q1 u suf Hl1) as (q2 & Hq2 & Hl2).
  destruct (after_matches (Regex.capture 1 (Regex.at_ q1) q2)) as (q3 & Hc); [cbn; rewrite Hl2; naive_solver|].
  destruct (before_matches _ _ _ Hq1 Hpre) as (x & p & Hx & Ha).
  exists x, p, q3. split_and!; [done| |].
  - eapply Regex.m_seq; [exact Ha|]. eapply Regex.m_seq; [constructor; apply matches_words; eauto 10|].
    eapply Regex.m_seq; [exact Hc|constructor].
  - destruct (Regex.matches_forward _ _ _ s Ha) as [_ Hle]; [apply (Regex.reads_point s _ _ _ Hx); by split|].
    pose proof (Regex.reads_point s _ _ _ Hx (conj eq_refl eq_refl)) as (_ & E1 & _).
    pose proof (Regex.reads_point s _ _ _ Hq1 (conj eq_refl eq_refl)) as (_ & E2 & _). cbn in E1, E2. lia.
Qed.

(** Two occurrences at different places: the later one is in the words after. *)
Lemma find_keyword ws s :
  forallb simple ws = true →
  match Regex.find (with_groups (keyword_pattern (word_token <$> ws))) s with
  | None => ∀ pre u, ¬ keyword_at ws s pre u
  | Some (_, _, gs) =>
      ∃ pre u, keyword_at ws s pre u ∧ gs = [Some (length pre, length pre + length u)]%nat
        ∧ ∀ pre' u', keyword_at ws s pre' u' → (length pre ≤ length pre')%nat
  end.
Proof.
  intros Hsim. assert (Forall Keywords.plain_word ws) as Hws.
  { rewrite forallb_forall in Hsim. apply Forall_forall. intros w Hw%list_elem_of_In. by apply simple_plain, Hsim. }
  unfold Regex.find. destruct (Regex.first_match _ _) as [[i q]|] eqn:Hf.
  - apply Regex.first_match_Some in Hf as (ps1 & p & ps2 & Hps & Hi & Hm & Hn).
    assert (p ∈ Regex.points 0 None s) as Hp by (rewrite Hps; set_solver). apply Regex.points_reads in Hp as (x & Hx).
    destruct (keyword_match _ _ _ _ _ Hws Hx Hm) as (pre & u & Hat & Hpx & Hc). exists pre, u. split_and!; [done| |].
    + rewrite keyword_prog. cbn. unfold Regex.span_of. by rewrite Hc.
    + intros pre' u' Hat'. destruct (keyword_matched _ _ _ _ Hws Hat') as (x' & p' & q' & Hx' & Hm' & Hlx').
      pose proof (Regex.reads_point s _ _ _ Hx (conj eq_refl eq_refl)) as (_ & Hpx0 & _).
      pose proof (Regex.reads_point s _ _ _ Hx' (conj eq_refl eq_refl)) as (_ & Hpx' & _). cbn in Hpx0, Hpx'.
      destruct (decide (length x' < length x)%nat) as [Hlt|Hge].
      { destruct (Hn p' q'); [|done]. apply (Regex.points_before s ps1 p ps2); [done| |lia]. apply Regex.points_reads. eauto. }
      destruct Hpx as [[-> ->] | (v & -> & Fv)]; [simpl; lia|].
      destruct (decide (length (x ++ v) ≤ length pre')%nat) as [?|Hlt]; [done|exfalso]. rewrite length_app in Hlt.
      destruct Hat as (w & suf & _ & Hs & _), Hat' as (w' & suf' & Hin' & Hs' & Hf' & _).
      rewrite forallb_forall in Hsim. destruct (simple_word w' u') as [Hne Fu]; [by apply Hsim, list_elem_of_In|done|].
      destruct u' as [|c u']; [done|]. apply Forall_cons in Fu as [Hc' _].
      assert (s !! length pre' = Some c) as Hl by (rewrite Hs'; apply list_lookup_middle; done).
      rewrite Hs, lookup_app_l, lookup_app_r in Hl by (rewrite ?length_app; lia).
      rewrite Forall_lookup in Fv. rewrite (Fv _ _ Hl) in Hc'. done.
  - rewrite Regex.first_match_None in Hf. intros pre u Hat. destruct (keyword_matched _ _ _ _ Hws Hat) as (x & p & q & Hx & Hm & _).
    apply (Hf p q); [|done]. apply Regex.points_reads. eauto.
Qed.

End first_word.

(** ** Resolution *)

(** The spellings of the resolutions. *)
Definition resolution_table : list (runes * string) :=
  ((λ n, (tail (runes_of n), n)) <$> VideoResolutionNames) ++ (prod_map runes_of id <$> videoResolutionAliases).
Definition spelled (t : list (runes * string)) (key : runes) : option string := snd ∘ snd <$> list_find (λ e, e.1 = key) t.

Section resolution.
Context `{Unicode} `{!UnicodeLaws} `{UnicodeTables} `{!TableLaws} `{!Rex} `{!RexGroups}.

Lemma either_case_down w u : forallb (λ c, ascii_lower c || ascii_digit c) w = true → Forall2 either_case w u ↔ down u = w.
Proof.
  revert u. induction w as [|c w IH]; intros u Hw.
  - split; [by intros ->%Forall2_nil_inv_l|]. intros ->%fmap_nil_inv. constructor.
  - cbn [forallb] in Hw. apply andb_true_iff in Hw as [Hc Hw]. destruct u as [|x u]; [split; [by intros ?%Forall2_cons_nil_inv|done]|].
    rewrite Forall2_cons, IH by done. unfold down. cbn. unfold either_case. destruct (simple_alnum c Hc) as (Ha & _ & _).
    rewrite ascii_ToUpper by done.
    assert (x = (if ascii_lower c then (c - 32)%Z else c) ∨ x = c ↔ Languages.ascii_down x = c) as ->; [|naive_solver congruence].
    unfold Languages.ascii_down, ascii_upper, ascii_lower, ascii_digit in *.
    destruct (Z.leb_spec 97 c), (Z.leb_spec c 122), (Z.leb_spec 48 c), (Z.leb_spec c 57), (Z.leb_spec 65 x), (Z.leb_spec x 90);
      cbn in *; try done; lia.
Qed.

Lemma first_keyword kws s :
  kws ≠ [] → forallb simple kws = true →
  first_group <$> Regex.FindStringSubmatch (keyword_regex kws) s = snd <$> list_find (λ w, down w ∈ kws) (words s).
Proof.
  intros Hne Hsim. assert (Forall Keywords.plain_word kws) as Hk.
  { rewrite forallb_forall in Hsim. apply Forall_forall. intros w Hw%list_elem_of_In. by apply simple_plain, Hsim. }
  destruct (rex_tokens_loop_plain kws [] [] Hk) as (ws & Hr & Hin & Hcov).
  assert (∀ w, w ∈ ws ↔ w ∈ kws) as Heq by (intros w; split; [apply Hin|intros [?|?%not_elem_of_nil]%Hcov; done]).
  assert (forallb simple ws = true) as Hsw.
  { apply forallb_forall. intros w Hw%list_elem_of_In%Hin%list_elem_of_In. rewrite forallb_forall in Hsim. by apply Hsim. }
  destruct (rex_Compile_groups (keyword_pattern (word_token <$> ws))) as (re & Hc & Hre).
  assert (keyword_regex kws = re) as ->.
  { unfold keyword_regex, MustNewRegexFromKeywords, NewRegexFromKeywords, NewRexTokensFromKeywords. destruct kws; [done|]. rewrite Hr. cbn. by rewrite Hc. }
  assert (∀ u, down u ∈ kws ↔ ∃ w, w ∈ ws ∧ Forall2 either_case w u) as Hdown.
  { intros u. assert (∀ w, w ∈ ws → Forall2 either_case w u ↔ down u = w) as Hed.
    { intros w Hw%list_elem_of_In. apply either_case_down. rewrite forallb_forall in Hsw. specialize (Hsw _ Hw). unfold simple in Hsw. by apply andb_true_iff in Hsw as [_ ?]. }
    split; [intros Hu%Heq; exists (down u); split; [done|by apply Hed]|]. intros (w & Hw & Hf). apply Hed in Hf as ->; [by apply Hin|done]. }
  unfold Regex.FindStringSubmatch. rewrite Hre. pose proof (find_keyword ws s Hsw) as Hf.
  destruct (Regex.find _ s) as [[[i j] gs]|].
  - destruct Hf as (pre & u & Hat & -> & Hleft). pose proof Hat as (w & suf & Hw & Hs & Hf & Hpre & Hsuf).
    destruct (simple_word w u) as [Hne' Fu]; [rewrite forallb_forall in Hsw; by apply Hsw, list_elem_of_In|done|].
    assert (words s = words pre ++ u :: words suf) as Hwords by (rewrite Hs; by apply fields_split).
    assert (list_find (λ w, down w ∈ kws) (words s) = Some (length (words pre), u)) as ->.
    { apply list_find_Some. rewrite Hwords. split_and!; [by apply list_lookup_middle|apply Hdown; eauto|].
      intros k y Hy Hlt. rewrite lookup_app_l in Hy by done. apply list_elem_of_lookup_2, fields_member in Hy as (a & b & E & Ha & Hny & Fy & Hb).
      intros (w' & Hw' & Hf')%Hdown. assert (keyword_at ws s a y) as Hat'.
      { exists w', (b ++ u ++ suf). split_and!; try done; [by rewrite Hs, E, <-!app_assoc|].
        destruct Hb as [-> | (c & b' & -> & ?)]; [|right; by eexists _, _]. exfalso. rewrite app_nil_r in E.
        destruct Hpre as [-> | (p' & c & -> & Hc')]; [by destruct a, y|].
        destruct y as [|c' y _] using rev_ind; [done|]. rewrite app_assoc in E. apply app_inj_tail in E as [_ <-].
        apply Forall_app in Fy as [_ Fy]. inversion Fy; congruence. }
      apply Hleft in Hat'. rewrite E, !length_app in Hat'. destruct y; [done|]. cbn in Hat'. lia. }
    cbn. f_equal. rewrite Hs. apply extract_middle.
  - assert (list_find (λ w, down w ∈ kws) (words s) = None) as ->; [|done]. apply list_find_None, Forall_forall.
    intros y (a & b & E & Ha & Hny & Fy & Hb)%fields_member (w' & Hw' & Hf')%Hdown. apply (Hf a y). by exists w', b.
Qed.

Lemma resolution_keys : namesToLower (removeEnumPrefixes VideoResolutionNames) ++ alias_names videoResolutionAliases = resolution_table.*1.
Proof. rewrite namesToLower_down by by vm_compute. by vm_compute. Qed.

Lemma resolution_of_spelled w : down w ∈ resolution_table.*1 →
  ∃ v, resolution_of w = NewNullEnum v ∧ spelled resolution_table (down w) = Some v.
Proof.
  intros Hw.
  assert (forallb (λ d, forallb (λ c, bool_decide (is_ascii c) && negb (ascii_upper c)) d
      && match (match enum_value VideoResolutionNames (118%Z :: d) with Some v => Some v | None => alias videoResolutionAliases d end) with
         | Some v => bool_decide (spelled resolution_table d = Some v) | None => false end) (resolution_table.*1)
    && forallb (λ n, bool_decide (spelled resolution_table (down (tail (runes_of n))) = Some n)) VideoResolutionNames = true) as Hall by by vm_compute.
  apply andb_true_iff in Hall as [Hkeys Hnames]. rewrite forallb_forall in Hkeys, Hnames.
  specialize (Hkeys _ (proj1 (list_elem_of_In _ _) Hw)). apply andb_true_iff in Hkeys as [Hasc Hkeys].
  assert (∀ t, down t = down w → lower t = down w) as Hlow.
  { intros t Ht. rewrite <-Ht. apply lower_ascii_down, Forall_forall. intros r Hr. rewrite forallb_forall in Hasc.
    specialize (Hasc (Languages.ascii_down r)). rewrite andb_true_iff, bool_decide_eq_true in Hasc.
    destruct Hasc as [Ha _]; [rewrite <-Ht; apply list_elem_of_In, list_elem_of_fmap; eauto|].
    revert Ha. unfold is_ascii, Languages.ascii_down, ascii_upper. destruct (Z.leb_spec 65 r), (Z.leb_spec r 90); cbn; lia. }
  unfold resolution_of, ParseEnum. destruct (enum_value VideoResolutionNames (86%Z :: w)) as [v|] eqn:E1.
  - exists v. split; [done|]. unfold enum_value in E1. destruct (list_find _ _) as [[i n]|] eqn:El; [|done]. injection E1 as <-.
    apply list_find_Some in El as (Hn & Hor & _). apply list_elem_of_lookup_2 in Hn. 
    assert (runes_of n = 86%Z :: w) as En.
    { destruct Hor as [?|Ho]; [done|]. exfalso.
      repeat (apply elem_of_cons in Hn as [-> | Hn]; [done|]). by apply not_elem_of_nil in Hn. }
    apply list_elem_of_In in Hn. specialize (Hnames _ Hn). rewrite En in Hnames. by apply bool_decide_eq_true in Hnames.
  - assert (lower (86%Z :: w) = 118%Z :: down w) as ->.
    { unfold lower. rewrite fmap_cons. fold (lower w). rewrite (Hlow w eq_refl). by rewrite ascii_ToLower by by vm_compute. }
    rewrite (Hlow w eq_refl).
    destruct (enum_value VideoResolutionNames (118%Z :: down w)) as [v|]; [apply bool_decide_eq_true in Hkeys; eauto|].
    destruct (alias _ _) as [v|]; [apply bool_decide_eq_true in Hkeys; eauto|done].
Qed.

(** The resolution of a release is that of the first word of its name that spells one: the name is cut into its longest runs of letters and digits, and the first of them that is a resolution or an alias of one, in any case, decides; a resolution inside a longer word does not count. The order in which the map of aliases is ranged over when the pattern is built does not matter. *)
Theorem resolution_first_word order s :
  order ≡ₚ videoResolutionAliases →
  InferVideoResolution_with (createVideoResolutionRegex order) s
  = match head (omap (λ w, spelled resolution_table (down w)) (words s)) with Some v => NewNullEnum v | None => no_enum end.
Proof.
  intros Ho. unfold createVideoResolutionRegex, InferVideoResolution_with.
  set (kws := namesToLower (removeEnumPrefixes VideoResolutionNames) ++ alias_names order).
  assert (kws ≡ₚ resolution_table.*1) as Hk by (rewrite <-resolution_keys; unfold kws, alias_names; by rewrite Ho).
  assert (forallb simple kws = true) as Hsim.
  { assert (forallb simple (resolution_table.*1) = true) as Hs by by vm_compute. rewrite forallb_forall in Hs.
    apply forallb_forall. intros w Hw%list_elem_of_In. apply Hs, list_elem_of_In. by rewrite <-Hk. }
  pose proof (first_keyword kws s) as Hf. assert (kws ≠ []) as Hne by (intros E; rewrite E in Hk; by apply Permutation_nil_l in Hk).
  specialize (Hf Hne Hsim).
  assert (∀ l, match snd <$> list_find (λ w, down w ∈ kws) l with Some w => resolution_of w | None => no_enum end
    = match head (omap (λ w, spelled resolution_table (down w)) l) with Some v => NewNullEnum v | None => no_enum end) as Hl.
  { assert (∀ w, down w ∉ kws → spelled resolution_table (down w) = None) as Hnone.
    { intros w Hw. unfold spelled. destruct (list_find (λ e, e.1 = down w) resolution_table) as [[k e]|] eqn:E; [|reflexivity]. apply list_find_Some in E as (He & Ew & _).
      destruct Hw. rewrite Hk. apply list_elem_of_fmap. exists e. split; [symmetry; exact Ew|]. eapply list_elem_of_lookup_2, He. }
    induction l as [|w l IH]; [done|].
    change (omap (λ w, spelled resolution_table (down w)) (w :: l)) with
      (match spelled resolution_table (down w) with Some v => v :: omap (λ w, spelled resolution_table (down w)) l | None => omap (λ w, spelled resolution_table (down w)) l end).
    destruct (decide (down w ∈ kws)) as [Hin|Hin].
    - simpl list_find. rewrite decide_True by done. cbn [fmap option_fmap option_map snd]. destruct (resolution_of_spelled w) as (v & -> & ->); [by rewrite <-Hk|reflexivity].
    - rewrite (Hnone w Hin), <-IH. simpl list_find. rewrite decide_False by done. by destruct (list_find _ l) as [[k e]|]. }
  rewrite <-Hl, <-Hf. by destruct (Regex.FindStringSubmatch _ s).
Qed.

End resolution.

Section witnesses.
#[local] Existing Instances ascii_unicode ascii_unicode_laws name_tables name_tables_laws name_tables_numbers group_rex group_rex_groups.

Definition no_attributes : ContentAttributes unit :=
  mkAttributes unit no_enum no_string Dates.zero None false ∅ no_enum no_enum no_enum no_enum no_enum no_string None.
Lemma video_attributes_typed_witness : valid_enum VideoCodecNames (VideoCodec (InferVideoAttributes (runes_of "A.1080p.x265") [] no_attributes)).
Proof. exact (proj1 (proj2 (proj2 (video_attributes_typed (runes_of "A.1080p.x265") [] no_attributes)))). Defined.
Lemma codec_unambiguous_witness :
  Valid (InferVideoCodec (runes_of "H264.x265")) = false
  ∧ ((∀ c, ¬ claims_codec (runes_of "H264.x265") c)
     ∨ ∃ c c', claims_codec (runes_of "H264.x265") c ∧ claims_codec (runes_of "H264.x265") c' ∧ codecFamily c' ≠ codecFamily c).
Proof.
  assert (Valid (InferVideoCodec (runes_of "H264.x265")) = false) as E by by vm_compute. split; [exact E|].
  exact (proj2 (codec_unambiguous (runes_of "H264.x265")) E).
Defined.
Lemma release_group_bounded_witness : reserved (runes_of "GROUP") = false.
Proof.
  assert (TValid (InferReleaseGroup (runes_of "1080p.x264-GROUP.mkv")) = true) as E by by vm_compute.
  pose proof (release_group_bounded (runes_of "1080p.x264-GROUP.mkv") E) as Hg. cbv zeta in Hg.
  destruct Hg as (pre & tail & c & rest & _ & _ & _ & _ & _ & _ & Hr & _).
  assert (Text (InferReleaseGroup (runes_of "1080p.x264-GROUP.mkv")) = runes_of "GROUP") as Et by by vm_compute.
  rewrite Et in Hr. exact Hr.
Defined.
Lemma resolution_first_word_witness :
  InferVideoResolution_with (createVideoResolutionRegex (reverse videoResolutionAliases)) (runes_of "A.UHD.1080p") = NewNullEnum "V2160p".
Proof.
  rewrite (resolution_first_word (reverse videoResolutionAliases)) by apply reverse_Permutation. by vm_compute.
Defined.
End witnesses.
 End ReleaseInfo.
