(* ===== verification/VideoParser.v ===== *)
(** * The video parser

    [internal/classifier/parsers/video.go]: what a release name says about its
    title, year and episodes, and the content attributes made of it.  The name
    is freed of the site it was posted on, a range of years is collapsed to its
    first year, and a cascade of patterns looks for a title with episodes, a
    title with a year, or a title; then the type is decided, from what is known
    already, the episodes, the fansub group or the year.

    A name is the list of its runes.  The patterns are those of the source,
    kept as text for [regexp] and as tokens for hedhyw/rex. *)
From S2P Require Import Prelude Protocol Lexer Metainfo Regex Dates Anime Keywords Episodes Workflow Classifier ContentFilter Titles Languages ReleaseInfo.
From stdpp Require Import gmap list strings sets.
From Stdlib Require Import ZArith Lia.

#[local] Open Scope string_scope.
#[local] Open Scope list_scope.

Module VideoParser.
Import Lexer Keywords Workflow Classifier Titles ReleaseInfo.

(** ** Patterns *)

Definition siteNoisePrefixRegex : Regex.regexp := Eval vm_compute in
  Regex.MustCompile "(?i)^\s*(?:www\.)?[a-z0-9][a-z0-9-]*\.(?:com|net|org|info|biz|me|tv|cc|to|io|xyz|club|se|eu|nz|link|app|us|uk|co)\b[\s._]*-+[\s._]*".
Definition cjkSpanRegex : Regex.regexp := Eval vm_compute in Regex.MustCompile "【[^】]*】".
Definition siteNoisePrefixV2WWWRegex : Regex.regexp := Eval vm_compute in
  Regex.MustCompile "(?i)^\s*www\.[a-z0-9][a-z0-9-]*(?:\.[a-z0-9-]+)*\.[a-z]{2,10}\b(?:[\s._]*-+[\s._]*|\s{2,})".
Definition siteNoisePrefixV2TLDsRegex : Regex.regexp := Eval vm_compute in
  Regex.MustCompile "(?i)^\s*[a-z0-9][a-z0-9-]*\.(?:rsvp|pics|la|pl|vip|red|win|pro|site|live|online|top|fun|icu|cyou|ws|ru|in|ph|ai|gg|cx|sh|st|mov|fyi|lol|day|wtf|autos|skin)\b[\s._]*-+[\s._]*".
Definition leadingBracketTagRegex : Regex.regexp := Eval vm_compute in Regex.MustCompile "^\s*\[[^\]]*\]\s*".
Definition absoluteEpisodeRegex : Regex.regexp := Eval vm_compute in
  Regex.MustCompile "(?i)^(.*?[\p{L}\p{N}])[\s._-]+EP(\d{2,4})(?:v\d)?(?:[\s._\-\[(]|$)".
Definition leadingYearRegex : Regex.regexp := Eval vm_compute in Regex.MustCompile "^((?:19|20)\d{2})[\s._-]+(\S.*)$".
Definition techCutRegex : Regex.regexp := Eval vm_compute in
  Regex.MustCompile "(?i)[\s._-](?:2160p|1080p|720p|480p|576p|4k|uhd|bluray|blu-ray|bdrip|brrip|web-?dl|web-?rip|hdtv|dvdrip|dvd-?r|hdrip|camrip|telesync|x264|x265|h\.?264|h\.?265|hevc|xvid|divx|av1|remux|proper|repack|internal|limited)\b".
Definition dashSeparatorRegex : Regex.regexp := Eval vm_compute in Regex.MustCompile "-+".
Definition spaceSqueezeRegex : Regex.regexp := Eval vm_compute in Regex.MustCompile "\s+".
Definition yearRangeRegex : Regex.regexp := Eval vm_compute in
  Regex.MustCompile "(?i)\(?((?:18|19|20)\d{2})\s*[-–—]\s*(?:(?:18|19|20)\d{2}|present|now|ongoing|\?{1,4})\)?".
Definition moviePackRegex : Regex.regexp := Eval vm_compute in
  Regex.MustCompile "(?i)(trilogy|dilog(?:y|ies)|quadrilogy|anthology|filmography|\bcollection\b|complete\s+(?:movies|films|collection)|\b\d+[- ]?movies?\b)".
Definition episodeTokenRegex : Regex.regexp := Eval vm_compute in Regex.MustCompile "(?i)(?:S\d{1,2}(?:E\d{1,2})?|season\s+\d+)".

(** Every pattern compiles. *)
Example patterns_compile :
  Forall (λ re, Regex.prog re ≠ Regex.prog Regex.never)
    [siteNoisePrefixRegex; cjkSpanRegex; siteNoisePrefixV2WWWRegex; siteNoisePrefixV2TLDsRegex; leadingBracketTagRegex; absoluteEpisodeRegex;
     leadingYearRegex; techCutRegex; dashSeparatorRegex; spaceSqueezeRegex; yearRangeRegex; moviePackRegex; episodeTokenRegex].
Proof. by repeat constructor. Qed.

Definition titleTokens : list token :=
  [Define [
    Repeat OneOrMore (Composite false [
      NonCaptured [Repeat OneOrMore AnyWordChar; Repeat ZeroOrMore (NonCaptured [Single 45; Repeat OneOrMore AnyWordChar])];
      Repeat OneOrMore AnyNonWordChar]);
    Composite false [Repeat OneOrMore AnyNonWordChar; End_]]].
Definition title_tokens : list token := [Begin; NonCaptured titleTokens].
Definition yearTokens : list token :=
  [NonCaptured [Repeat ZeroOrMore (Class true [WordCharacter])];
   Define [Composite false [Keywords.Text (runes_of "18"); Keywords.Text (runes_of "19"); Keywords.Text (runes_of "20")]; Repeat (Between 2 2) Digits];
   Composite false [Class true [WordCharacter]; End_]].
Definition title_year_tokens : list token := [Begin; NonCaptured [NonCaptured titleTokens; NonCaptured yearTokens]].
Definition title_episodes_tokens `{Unicode} : list token := [Begin; NonCaptured [NonCaptured titleTokens; Episodes.EpisodesToken]].

Definition separatorToken : token := Runes (runes_of " ._").
Definition title_part_tokens : list token := [Repeat ZeroOrOne separatorToken; Define [WordToken]; Repeat ZeroOrOne separatorToken].
Definition bracketed (o c : Z) : token := NonCaptured [Single o; Repeat OneOrMore (Class true [Single c]); Single c].
Definition trim_title_tokens : list token :=
  [Begin; Repeat ZeroOrOne (Composite false [bracketed 91 93; bracketed 0x3010 0x3011]);
   Repeat ZeroOrMore AnyNonWordChar;
   Define [WordToken; Repeat ZeroOrMore (NonCaptured [Any; WordToken])];
   Repeat ZeroOrMore AnyNonWordChar; End_].

(** ** Replacement with what was matched *)

(** [ReplaceAllStringFunc], and [ReplaceAllString] with a template: [f] gets
    the extent and the groups of a match. *)
Fixpoint replace_with `{UnicodeTables} (fuel : nat) (re : Regex.regexp) (f : nat * nat * list (option (nat * nat)) → runes) (s : runes)
    (pos lastEnd : nat) : runes :=
  match fuel with
  | O => drop lastEnd s
  | S fuel =>
      if (length s <? pos)%nat then drop lastEnd s
      else
        match Regex.find_from re s pos with
        | None => drop lastEnd s
        | Some (i, j, gs) =>
            Regex.extract s lastEnd i
            ++ (if (lastEnd <? j)%nat || (i =? 0)%nat then f (i, j, gs) else [])
            ++ replace_with fuel re f s (if (j <? S pos)%nat then S pos else j) j
        end
  end.
Definition ReplaceAllStringFunc `{UnicodeTables} (re : Regex.regexp) (s : runes) (f : runes → runes) : runes :=
  replace_with (2 + length s) re (λ m, f (Regex.extract s m.1.1 m.1.2)) s 0 0.
(** The template ["$1"]. *)
Definition ReplaceAllString_1 `{UnicodeTables} (re : Regex.regexp) (s : runes) : runes :=
  replace_with (2 + length s) re (λ m, Regex.group_text s (default None (head m.2))) s 0 0.

(** [strconv.ParseUint] in base 10 with its error ignored. *)
Definition ParseUint (bits : Z) (s : runes) : Z :=
  if decide (s ≠ [] ∧ Forall (λ r, IsInt r = true) s) then Z.min (digits_value s) (2 ^ bits - 1)%Z else 0%Z.

Fixpoint drop_while (f : Z → bool) (s : runes) : runes :=
  match s with r :: s' => if f r then drop_while f s' else s | [] => [] end.
(** [strings.TrimFunc] *)
Definition TrimFunc (s : runes) (f : Z → bool) : runes := rev (drop_while f (rev (drop_while f s))).
Definition HasPrefix (s p : runes) : bool := bool_decide (take (length p) s = p).
Definition count_rune (c : Z) (s : runes) : nat := length (filter (λ r, r = c) s).

Section parser.
Context `{Unicode} `{UnicodeTables} `{!Rex}.

(** ** Site noise *)

Fixpoint strip_site_loop (n : nat) (name : runes) : runes :=
  match n with
  | O => name
  | S n =>
      match Regex.FindIndex siteNoisePrefixRegex name with
      | Some (O, j) => strip_site_loop n (drop j name)
      | _ => name
      end
  end.
Definition stripSiteNoisePrefix (name : runes) : runes := strip_site_loop 3 name.

Definition cut_prefix (re : Regex.regexp) (name : runes) : runes :=
  match Regex.FindIndex re name with Some (_, j) => drop j name | None => name end.
Fixpoint strip_v2_loop (n : nat) (name : runes) : runes :=
  match n with
  | O => name
  | S n =>
      let stripped := cut_prefix siteNoisePrefixV2TLDsRegex (cut_prefix siteNoisePrefixV2WWWRegex (stripSiteNoisePrefix name)) in
      if decide (stripped = name) then name else strip_v2_loop n stripped
  end.
Definition stripSiteNoisePrefixV2 (name : runes) : runes :=
  strip_v2_loop 3 (TrimSpace (Regex.ReplaceAllString cjkSpanRegex name [32%Z])).

(** ** The Latin half of a bilingual title *)

Definition is_cjk (r : Z) : bool := table_has "Han" r || table_has "Hiragana" r || table_has "Katakana" r || table_has "Hangul" r.
Definition digit_run (s : runes) : nat := length (span IsDigit s).1.

Fixpoint cjk_loop (i : nat) (cut : option nat) (sawLetter firstLetterIsCJK : bool) (rs : runes) : option nat * bool :=
  match rs with
  | [] => (cut, firstLetterIsCJK)
  | r :: rs =>
      let cjk := is_cjk r in
      let '(sawLetter, firstLetterIsCJK) := if negb sawLetter && IsLetter r then (true, cjk) else (sawLetter, firstLetterIsCJK) in
      cjk_loop (S i) (if cjk then Some (S i + digit_run rs)%nat else cut) sawLetter firstLetterIsCJK rs
  end.

Definition IsNumber (r : Z) : bool := table_has "N" r.
Definition is_latin (r : Z) : bool := table_has "Latin" r.
Definition title_rune (r : Z) : bool := is_latin r || IsNumber r || bool_decide (r ∈ runes_of "'&:!,.-" ++ [0x2019%Z]).

Definition latinTitleAfterCJK (title : runes) : runes :=
  match cjk_loop 0 None false false title with
  | (Some cut, true) =>
      let rest := drop_while IsSpace (drop cut title) in
      if HasPrefix rest [91%Z] then title
      else
        let tail := TrimFunc rest (λ r, negb (IsLetter r) && negb (IsNumber r)) in
        let words := Anime.Fields tail in
        if negb (forallb (forallb title_rune) words) then title
        else if (length words <? 2)%nat || negb (existsb (existsb is_latin) words) then title
        else tail
  | _ => title
  end.

(** ** Titles *)

Definition titleRegex : Regex.regexp := rex_MustCompile title_tokens.
Definition titleYearRegex : Regex.regexp := rex_MustCompile title_year_tokens.
Definition titleEpisodesRegex : Regex.regexp := rex_MustCompile title_episodes_tokens.
Definition titlePartRegex : Regex.regexp := rex_MustCompile title_part_tokens.
Definition trimTitleRegex : Regex.regexp := rex_MustCompile trim_title_tokens.
Definition multiRegex : Regex.regexp := keyword_regex [runes_of "multi"; runes_of "dual"].

Definition collapseYearRange (name : runes) : runes := ReplaceAllString_1 yearRangeRegex name.

Definition isLikelyMoviePack (name : runes) : bool :=
  if Regex.MatchString episodeTokenRegex name then false else Regex.MatchString moviePackRegex name.

Definition title_part (s : runes) : runes :=
  match Regex.FindStringSubmatch titlePartRegex s with None => [] | Some m => first_group m ++ [32%Z] end.
Definition cleanTitle (title : runes) : runes :=
  let title := ReplaceAllStringFunc titlePartRegex title title_part in
  let title := ReplaceAllString_1 trimTitleRegex title in
  let title := Regex.ReplaceAllString dashSeparatorRegex title [32%Z] in
  TrimSpace (Regex.ReplaceAllString spaceSqueezeRegex title [32%Z]).

Definition parseTitleYear (input : runes) : option (runes * Z * runes) :=
  match Regex.FindStringSubmatch titleYearRegex input with
  | Some m =>
      let title := cleanTitle (first_group m) in
      if decide (title = []) then None
      else Some (title, ParseUint 16 (default [] (m !! 2%nat)), drop (length (default [] (m !! 0%nat))) input)
  | None => None
  end.

Definition parseTitle (input : runes) : option (runes * runes) :=
  match Regex.FindStringSubmatch titleRegex input with
  | Some m =>
      let title := cleanTitle (first_group m) in
      if decide (title = []) then None else Some (title, drop (length (default [] (m !! 0%nat))) input)
  | None => None
  end.

Definition parseTitleYearEpisodes (input : runes) : option (runes * Z * Episodes.Episodes * runes) :=
  match Regex.FindStringSubmatch titleEpisodesRegex input with
  | Some m =>
      let title := first_group m in
      let '(title, year) := match parseTitleYear title with Some (t, y, _) => (t, y) | None => (cleanTitle title, 0%Z) end in
      Some (title, year, default ∅ (Episodes.EpisodesMatchToEpisodes (drop 2 m)), drop (length (default [] (m !! 0%nat))) input)
  | None => None
  end.

(** The cascade; [None] is [ErrUnmatched]. *)
Definition ParseTitleYearEpisodes (contentType : NullEnum) (input : runes) : option (runes * Z * Episodes.Episodes * runes) :=
  let titled :=
    match parseTitleYear input with
    | Some (title, year, rest) => Some (title, year, ∅, rest)
    | None => match parseTitle input with Some (title, rest) => Some (title, 0%Z, ∅, rest) | None => None end
    end in
  if negb (Valid contentType) || bool_decide (Val contentType = "tv_show") then
    match parseTitleYearEpisodes input with Some r => Some r | None => titled end
  else titled.

(** The rescue of a year that opens the name. *)
Definition rescueLeadingYear (name : runes) : option (runes * Z * runes) :=
  match Regex.FindStringSubmatch leadingYearRegex name with
  | None => None
  | Some m =>
      let remainder := default [] (m !! 2%nat) in
      if Regex.MatchString titleYearRegex remainder then None
      else
        let '(titlePart, rest) :=
          match Regex.FindIndex techCutRegex remainder with
          | Some (i, _) => (take i remainder, drop i remainder)
          | None => (remainder, [])
          end in
        let title := cleanTitle titlePart in
        if decide (title = []) then None else Some (title, ParseUint 16 (first_group m), rest)
  end.

(** ** The attributes of a release *)

(** What the parse knows on the way: the title, the year, the episodes and the
    rest of the name. *)
Record parsed := mkParsed { p_title : runes; p_year : Z; p_episodes : Episodes.Episodes; p_rest : runes }.

Definition TrimPrefix (s p : runes) : runes := if HasPrefix s p then drop (length p) s else s.

Definition leading_year (noiseV2 : bool) (name : runes) (r : option parsed) : option parsed :=
  let year := from_option p_year 0%Z r in
  if noiseV2 && (year =? 0)%Z then
    match Regex.FindStringSubmatch leadingYearRegex name with
    | None => r
    | Some m =>
        match r with
        | Some p =>
            if decide (p_episodes p ≠ ∅) then
              let yearTok := first_group m in
              if HasPrefix (p_title p) (yearTok ++ [32%Z])
              then Some (mkParsed (TrimPrefix (p_title p) (yearTok ++ [32%Z])) (ParseUint 16 yearTok) (p_episodes p) (p_rest p))
              else r
            else match rescueLeadingYear name with Some (t, y, rest) => Some (mkParsed t y ∅ rest) | None => r end
        | None => match rescueLeadingYear name with Some (t, y, rest) => Some (mkParsed t y ∅ rest) | None => r end
        end
    end
  else r.

(** An episode with an absolute number after [EP]. *)
Definition ep_numbered (noiseV2 : bool) (contentType : NullEnum) (name : runes) (p : parsed) : parsed * bool :=
  if noiseV2 && bool_decide (p_episodes p = ∅) && (negb (Valid contentType) || bool_decide (Val contentType = "tv_show")) then
    match Regex.FindStringSubmatch absoluteEpisodeRegex name with
    | Some m =>
        let m1 := first_group m in
        if (count_rune 91 m1 =? count_rune 93 m1)%nat then
          let before := TrimSpace (Regex.ReplaceAllString leadingBracketTagRegex m1 []) in
          let '(title, year) := match parseTitleYear (before ++ [32%Z]) with Some (t, y, _) => (t, y) | None => (cleanTitle before, p_year p) end in
          if decide (title = []) then (mkParsed title year (p_episodes p) (p_rest p), false)
          else (mkParsed title year (p_episodes p) (drop (length m1) name), true)
        else (p, false)
    | None => (p, false)
    end
  else (p, false).

(** The type of the release: the type, and what the fansub branch found: [None]
    when another branch decided, or whether it was left in doubt. *)
Definition content_type (result : Result) (name : runes) (epNumbered : bool) (p : parsed) : NullEnum * option bool :=
  let signals := Anime.Detect name in
  let known := ContentType (Attributes result) in
  if Valid known then (NewNullEnum (Val known), None)
  else if bool_decide (p_episodes p ≠ ∅) || Dates.IsValid (Date_ (Attributes result)) then (NewNullEnum "tv_show", None)
  else if Anime.IsKnownFansub signals then
    if (0 <? Anime.AbsoluteEpisode signals)%Z || Anime.SeasonMarker signals || Anime.IsBatch name signals then (NewNullEnum "tv_show", Some false)
    else if Anime.IsExplicitMovie name then (NewNullEnum "movie", Some false)
    else (NewNullEnum "tv_show", Some true)
  else if epNumbered then (NewNullEnum "tv_show", None)
  else if negb (p_year p =? 0)%Z then (NewNullEnum "movie", None)
  else (no_enum, None).

Definition clear_untyped (ct : NullEnum) (name : runes) (p : parsed) : parsed :=
  if bool_decide (Val ct = "tv_show") then p
  else if (p_year p =? 0)%Z then mkParsed [] (p_year p) ∅ name else mkParsed (p_title p) (p_year p) ∅ (p_rest p).

Definition fansub_title (name : runes) (fansub : option bool) (title : runes) : runes :=
  match fansub with
  | None => title
  | Some true => []
  | Some false => Anime.CleanTitle name (Anime.Detect name)
  end.

(** The steps before the type is decided. *)
Definition parse_name (name original : runes) (noiseV2 : bool) (result : Result) : error + parsed * bool :=
  let known := ContentType (Attributes result) in
  let r := (λ '(t, y, e, rest), mkParsed t y e rest) <$> ParseTitleYearEpisodes known name in
  let guarded p :=
    if bool_decide (p_episodes p = ∅) && isLikelyMoviePack original then mkParsed [] 0 (p_episodes p) (p_rest p) else p in
  match leading_year noiseV2 name r with
  | Some p => inr (ep_numbered noiseV2 known name (guarded p))
  | None =>
      if Valid known then inr (ep_numbered noiseV2 known name (guarded (mkParsed [] 0 ∅ name)))
      else inl ErrUnmatched
  end.

Definition stripped_name (original : runes) (noiseV2 : bool) : runes :=
  collapseYearRange (if noiseV2 then stripSiteNoisePrefixV2 original else stripSiteNoisePrefix original).

Definition set_group {L} (a : ContentAttributes L) (g : NullString) : ContentAttributes L :=
  mkAttributes L (ContentType a) (BaseTitle a) (Date_ a) (Classifier.Languages a) (LanguageMulti a) (Episodes_ a) (VideoResolution a) (VideoSource a)
    (VideoCodec a) (Video3D a) (VideoModifier a) g (ReleaseAttributes_ a).

Definition ParseVideoContentWithOptions (t : Torrent) (result : Result) (noiseV2 : bool) : error + ContentAttributes (gset string) :=
  let original := Metainfo.range_runes (t_Name t) in
  let name := stripped_name original noiseV2 in
  match parse_name name original noiseV2 result with
  | inl e => inl e
  | inr (p, epNumbered) =>
      let '(ct, fansub) := content_type result name epNumbered p in
      let p := clear_untyped ct name p in
      let title := fansub_title name fansub (p_title p) in
      let title := if noiseV2 then latinTitleAfterCJK title else title in
      let languages := Languages.InferLanguages (p_rest p) in
      let attrs := mkAttributes (gset string) ct (mkString title (bool_decide (title ≠ []))) (Dates.mkDate (p_year p) 0 0)
        (if decide (languages = ∅) then None else Some languages) (Regex.MatchString multiRegex (p_rest p)) (p_episodes p)
        no_enum no_enum no_enum no_enum no_enum no_string None in
      let attrs := InferVideoAttributes (p_rest p) (t_Name t) attrs in
      inr (if negb (TValid (ReleaseGroup attrs)) && bool_decide (Anime.KnownGroup name ≠ [])
           then set_group attrs (NewNullString (Anime.KnownGroup name)) else attrs)
  end.
Definition ParseVideoContent (t : Torrent) (result : Result) : error + ContentAttributes (gset string) :=
  ParseVideoContentWithOptions t result false.

End parser.

(** ** Runs replaced by one rune *)

Fixpoint collapse (f : Z → bool) (c0 : Z) (inside : bool) (s : runes) : runes :=
  match s with
  | [] => []
  | r :: s => if f r then (if inside then [] else [c0]) ++ collapse f c0 true s else r :: collapse f c0 false s
  end.
Definition one_or_more (fold neg : bool) (items : list Regex.item) : Regex.regex :=
  Regex.Seq Regex.Empty (Regex.Seq (Regex.Class_ fold neg items) (Regex.Star true (Regex.Class_ fold neg items))).

Section runs.
Context `{UnicodeTables} (fold neg : bool) (items : list Regex.item) (n0 : nat).
#[local] Abbreviation f := (Regex.class_has fold neg items).
#[local] Abbreviation re := (Regex.mkRegexp (one_or_more fold neg items) n0).

Lemma run_one_or_more p w rest :
  Regex.left p = w ++ rest → all f w → stops f rest → w ≠ [] → Regex.run (one_or_more fold neg items) p Some = Some (forward p w rest).
Proof.
  intros Hl Hw Hs Hne. destruct w as [|r w]; [done|]. apply Forall_cons in Hw as [Hr Hw]. unfold one_or_more. cbn [Regex.run].
  unfold Regex.one. rewrite Hl. cbn [app]. rewrite Hr.
  apply (star_run fold neg items (Regex.advance p r (w ++ rest)) Some w rest); [done..|]. by rewrite forward_cons.
Qed.
Lemma run_one_or_more_none p : stops f (Regex.left p) → Regex.run (one_or_more fold neg items) p Some = None.
Proof. intros Hs. unfold one_or_more. cbn [Regex.run]. unfold Regex.one. destruct (Regex.left p); [done|]. unfold stops in Hs. by rewrite Hs. Qed.

Lemma first_match_run n w rest : ∀ i prev,
  all (λ r, negb (f r)) n → all f w → stops f rest → w ≠ [] →
  ∃ q, Regex.first_match (one_or_more fold neg items) (Regex.points i prev (n ++ w ++ rest)) = Some (i + length n, q)%nat
    ∧ Regex.at_ q = (i + length n + length w)%nat.
Proof.
  induction n as [|r n IH]; intros i prev Hn Hw Hs Hne.
  - destruct w as [|r w]; [done|]. cbn [app Regex.points Regex.first_match].
    erewrite (run_one_or_more _ (r :: w) rest); [|done..]. eexists. cbn. rewrite Nat.add_0_r. split; [done|]. cbn. lia.
  - apply Forall_cons in Hn as [Hr Hn]. cbn [app Regex.points Regex.first_match].
    rewrite run_one_or_more_none by (cbn; by apply negb_true_iff in Hr). cbn [fmap option_fmap option_map Regex.choice].
    destruct (IH (S i) (Some r) Hn Hw Hs Hne) as (q & -> & Hq). exists q. rewrite Hq. cbn [length]. split; [do 2 f_equal; lia|lia].
Qed.
Lemma first_match_no_run n : ∀ i prev, all (λ r, negb (f r)) n → Regex.first_match (one_or_more fold neg items) (Regex.points i prev n) = None.
Proof.
  induction n as [|r n IH]; intros i prev Hn; cbn [Regex.points Regex.first_match]; rewrite run_one_or_more_none; try done.
  - apply Forall_cons in Hn as [_ Hn]. cbn [fmap option_fmap option_map Regex.choice]. by apply IH.
  - apply Forall_cons in Hn as [Hr _]. cbn. by apply negb_true_iff.
Qed.

Lemma collapse_skip c0 n s : all (λ r, negb (f r)) n → n ≠ [] → ∀ b, collapse f c0 b (n ++ s) = n ++ collapse f c0 false s.
Proof.
  intros Hn. induction Hn as [|r n Hr Hn IH]; intros Hne b; [done|]. apply negb_true_iff in Hr. cbn. rewrite Hr.
  destruct n; [done|]. f_equal. by apply IH.
Qed.
Lemma collapse_run c0 w rest : all f w → stops f rest → collapse f c0 true (w ++ rest) = collapse f c0 false rest.
Proof.
  intros Hw Hs. induction Hw as [|r w Hr Hw IH]; cbn; [|by rewrite Hr].
  destruct rest as [|r rest]; [done|]. cbn in *. by rewrite Hs.
Qed.

Lemma replace_runs c0 s fuel : ∀ pos, (pos ≤ length s)%nat → (length s - pos < fuel)%nat →
  Regex.replace_all fuel re s [c0] pos pos = collapse f c0 false (drop pos s).
Proof.
  induction fuel as [|fuel IH]; intros pos Hpos Hf; [lia|]. cbn [Regex.replace_all].
  rewrite (proj2 (Nat.ltb_ge _ _)) by lia. unfold Regex.find_from. cbn [Regex.prog Regex.groups].
  destruct (drop_points s 0 None pos Hpos) as [prev ->].
  destruct (cut_run (λ r, negb (f r)) (drop pos s)) as (n & s1 & Hd & Hn & Hs1).
  destruct (cut_run f s1) as (w & rest & -> & Hw & Hs). destruct (decide (w = [])) as [->|Hne].
  - assert (rest = []) as -> by (destruct rest as [|r rest]; [done|]; cbn in *; by rewrite Hs in Hs1).
    rewrite !app_nil_r in Hd. rewrite Hd, first_match_no_run by done. destruct n as [|r n]; [done|].
    rewrite <-(app_nil_r (r :: n)) at 2. rewrite collapse_skip by done. by rewrite app_nil_r.
  - rewrite Hd. destruct (first_match_run n w rest (0 + pos) prev) as (q & -> & ->); [done..|].
    assert (length (drop pos s) = length n + length w + length rest)%nat as Hlen by (rewrite Hd, !length_app; lia).
    rewrite length_drop in Hlen. assert (0 < length w)%nat by (destruct w; cbn; [done|lia]).
    cbn [Nat.add]. rewrite (proj2 (Nat.ltb_lt _ _)), (proj2 (Nat.ltb_ge _ _)) by lia. cbn [orb].
    rewrite IH by lia.
    assert (drop (pos + length n + length w) s = rest) as ->
      by (rewrite <-Nat.add_assoc, <-drop_drop, Hd, app_assoc, <-length_app; apply drop_app_length).
    assert (Regex.extract s pos (pos + length n) = n) as ->.
    { unfold Regex.extract. rewrite Hd. replace (pos + length n - pos)%nat with (length n) by lia. apply take_app_length. }
    assert (collapse f c0 false (w ++ rest) = c0 :: collapse f c0 false rest) as Hc.
    { destruct w as [|r w]; [done|]. apply Forall_cons in Hw as [Hr Hw]. cbn [app collapse]. rewrite Hr. cbn. f_equal. by apply collapse_run. }
    destruct n as [|r n]; [cbn [app]; by rewrite Hc|]. rewrite collapse_skip by done. by rewrite Hc.
Qed.

Lemma replace_run c0 s : Regex.ReplaceAllString re s [c0] = collapse f c0 false s.
Proof. unfold Regex.ReplaceAllString. rewrite replace_runs by lia. by rewrite drop_0. Qed.

End runs.

(** ** The form of a clean title *)

Section clean.
Context `{Unicode} `{UnicodeTables} `{!Rex}.

Definition is_dash (r : Z) : bool := (r =? 45)%Z.
Definition is_blank (r : Z) : bool := Regex.class_has false false Regex.space_items r.

Lemma collapse_members f c0 b s r : r ∈ collapse f c0 b s → r = c0 ∨ r ∈ s ∧ f r = false.
Proof.
  revert b. induction s as [|x s IH]; intros b; [by intros ?%not_elem_of_nil|]. cbn. destruct (f x) eqn:Hx.
  - rewrite elem_of_app. intros [Hr | [?|[? ?]]%IH]; [|by left|right; split; [by right|done]].
    destruct b; [by apply not_elem_of_nil in Hr|]. apply list_elem_of_singleton in Hr. by left.
  - intros [-> | [?|[? ?]]%IH]%elem_of_cons; [right; split; [by left|done]|by left|right; split; [by right|done]].
Qed.

(** No two neighbours are both in [f]. *)
Definition sparse (f : Z → bool) (s : runes) : Prop := ∀ u a b v, s = u ++ a :: b :: v → f a = false ∨ f b = false.
Lemma sparse_infix f s a b : sparse f (a ++ s ++ b) → sparse f s.
Proof. intros Hs u x y v E. apply (Hs (a ++ u) x y (v ++ b)). rewrite E, <-!app_assoc. done. Qed.
Lemma sparse_cons f r s : sparse f s → (f r = true → match s with x :: _ => f x = false | [] => True end) → sparse f (r :: s).
Proof.
  intros Hs Hr u a b v E. destruct u as [|x u]; cbn in E; injection E as -> E; [|by eapply Hs].
  subst s. destruct (f a) eqn:Ea; [right; by apply Hr|by left].
Qed.
Lemma collapse_sparse f c0 s : sparse f (collapse f c0 false s) ∧ sparse f (collapse f c0 true s)
  ∧ match collapse f c0 true s with x :: _ => f x = false | [] => True end.
Proof.
  induction s as [|x s (IH1 & IH2 & IH3)]; cbn; [split_and!; try done; intros [|? ?]; done|]. destruct (f x) eqn:Hx; cbn.
  - split_and!; [|done|done]. by apply sparse_cons.
  - split_and!; [apply sparse_cons; [done|congruence]..|done].
Qed.

Lemma trim_left_suffix s : ∃ u, s = u ++ trim_left s ∧ match trim_left s with r :: _ => IsSpace r = false | [] => True end.
Proof.
  induction s as [|r s (u & E & Hh)]; cbn; [by exists []|]. destruct (IsSpace r) eqn:Hr.
  - exists (r :: u). cbn. by rewrite <-E.
  - by exists [].
Qed.
Lemma TrimSpace_infix s : ∃ u v, s = u ++ TrimSpace s ++ v ∧ match TrimSpace s with r :: _ => IsSpace r = false | [] => True end
  ∧ match last (TrimSpace s) with Some r => IsSpace r = false | None => True end.
Proof.
  unfold TrimSpace. destruct (trim_left_suffix s) as (u & E & Hh). set (t := trim_left s) in *.
  destruct (trim_left_suffix (rev t)) as (v & E' & Hl). apply (f_equal (@rev Z)) in E'. rewrite rev_app_distr, rev_involutive in E'.
  exists u, (rev v). split_and!; [by rewrite <-E', <-E| |].
  - rewrite E' in Hh. by destruct (rev (trim_left (rev t))).
  - destruct (trim_left (rev t)) as [|r l]; [done|]. cbn [rev]. by rewrite last_snoc.
Qed.

(** A cleaned title has one form: no dash is left in it, it neither begins nor ends with a space, and no two blanks follow each other. *)
Theorem clean_title_form title :
  let t := cleanTitle title in
  (45%Z ∉ t) ∧ sparse is_blank t ∧ (∀ r, head t = Some r → IsSpace r = false) ∧ (∀ r, last t = Some r → IsSpace r = false).
Proof.
  cbv zeta. unfold cleanTitle. generalize (ReplaceAllString_1 trimTitleRegex (ReplaceAllStringFunc titlePartRegex title title_part)). intros s.
  unfold dashSeparatorRegex, spaceSqueezeRegex.
  change (Regex.Seq Regex.Empty (Regex.Seq (Regex.Class_ false false [Regex.Range 45 45]) (Regex.Star true (Regex.Class_ false false [Regex.Range 45 45]))))
    with (one_or_more false false [Regex.Range 45 45]).
  match goal with |- context [Regex.mkRegexp (Regex.Seq Regex.Empty (Regex.Seq (Regex.Class_ false false ?i) _)) 0] =>
    change (Regex.Seq Regex.Empty (Regex.Seq (Regex.Class_ false false i) (Regex.Star true (Regex.Class_ false false i)))) with (one_or_more false false Regex.space_items) end.
  rewrite !replace_run. set (s1 := collapse _ 32 false s). set (s2 := collapse _ 32 false s1).
  destruct (TrimSpace_infix s2) as (u & v & E & Hh & Hl). split_and!.
  - intros Hd. assert (45%Z ∈ s2) as Hd2 by (rewrite E; apply elem_of_app; right; apply elem_of_app; by left).
    apply collapse_members in Hd2 as [?|[Hd1 _]]; [done|]. apply collapse_members in Hd1 as [?|[_ Hc]]; done.
  - apply (sparse_infix _ _ u v). rewrite <-E. apply collapse_sparse.
  - intros r Hr. destruct (TrimSpace s2); [done|]. by injection Hr as ->.
  - intros r Hr. by rewrite Hr in Hl.
Qed.

End clean.

(** ** Titles with a year *)

Definition title_body : Regex.regex := Eval vm_compute in (numbered 2 (NonCaptured (match titleTokens with Define l :: _ => l | _ => [] end))).1.
Definition not_word : Regex.regex := Regex.Class_ false true Regex.word_items.
Definition year_body : Regex.regex :=
  Regex.Seq (Regex.Alt (text_regex (runes_of "18")) (Regex.Alt (text_regex (runes_of "19")) (Regex.Alt (text_regex (runes_of "20")) (Regex.Class_ false false []))))
    (Regex.Seq (Regex.repeat true 2 (Some 2) (Regex.Class_ false false Regex.digit_items)) Regex.Empty).
Definition year_end : Regex.regex := Regex.Alt not_word (Regex.Alt Regex.EndText (Regex.Class_ false false [])).

Lemma title_year_prog :
  with_groups title_year_tokens
  = Regex.mkRegexp (Regex.Seq Regex.BeginText (Regex.Seq (Regex.Seq (Regex.Seq (Regex.Cap 1 title_body) Regex.Empty)
      (Regex.Seq (Regex.Seq (Regex.Seq (Regex.Star true not_word) Regex.Empty) (Regex.Seq (Regex.Cap 2 year_body) (Regex.Seq year_end Regex.Empty)))
         Regex.Empty)) Regex.Empty)) 2.
Proof. by vm_compute. Qed.

Section title_year.
Context `{Unicode} `{UnicodeTables}.

Lemma not_word_class r : Regex.class_has false true Regex.word_items r = true ↔ Regex.is_word r = false.
Proof.
  unfold Regex.class_has, Regex.is_word, Regex.word_items, ascii_digit, ascii_upper, ascii_lower. cbn [existsb Regex.item_has].
  unfold Metainfo.in_range. rewrite !orb_false_r.
  destruct (Z.leb_spec 48 r), (Z.leb_spec r 57), (Z.leb_spec 65 r), (Z.leb_spec r 90), (Z.leb_spec 95 r), (Z.leb_spec r 95), (Z.leb_spec 97 r),
    (Z.leb_spec r 122), (Z.eqb_spec r 95); cbn; split; try done; lia.
Qed.

Lemma matches_two a b p q :
  Regex.matches (text_regex [a; b]) p q → Regex.reads p [a; b] q.
Proof.
  cbn. unfold Regex.literal. intros (q1 & (x & Hx & Ex)%Regex.matches_class & (q2 & (y & Hy & Ey)%Regex.matches_class & ->%Regex.matches_empty)%Regex.matches_seq)%Regex.matches_seq.
  unfold Regex.class_has in *. cbn in *. unfold Metainfo.in_range in *. assert (x = a ∧ y = b) as [-> ->] by (bool_hyps; lia).
  apply (Regex.reads_app _ [a]). eauto.
Qed.

(** A year as the patterns read it. *)
Definition year_text (ds : runes) : Prop :=
  ∃ a b c d, ds = [a; b; c; d] ∧ ([a; b] = runes_of "18" ∨ [a; b] = runes_of "19" ∨ [a; b] = runes_of "20")
    ∧ ascii_digit c = true ∧ ascii_digit d = true.

Lemma year_digit_class r : Regex.class_has false false Regex.digit_items r = ascii_digit r.
Proof. unfold Regex.class_has. cbn. unfold Metainfo.in_range, ascii_digit. by rewrite !orb_false_r. Qed.

Lemma matches_year p q : Regex.matches year_body p q → ∃ ds, Regex.reads p ds q ∧ year_text ds.
Proof.
  intros (q1 & Hc & (q2 & Hd & ->%Regex.matches_empty)%Regex.matches_seq)%Regex.matches_seq.
  apply Regex.matches_repeat_class in Hd as (u & Hu & Hlen & Fu); [|done].
  destruct u as [|c [|d [|]]]; cbn in Hlen; try lia. clear Hlen.
  apply Forall_cons in Fu as [Ec [Ed _]%Forall_cons]. rewrite year_digit_class in Ec, Ed.
  assert (∃ a b, Regex.reads p [a; b] q1 ∧ ([a; b] = runes_of "18" ∨ [a; b] = runes_of "19" ∨ [a; b] = runes_of "20")) as (a & b & Hab & Hor).
  { rewrite !Regex.matches_alt in Hc. destruct Hc as [Hc|[Hc|[Hc|(r & _ & ?)%Regex.matches_class]]]; [| | |done];
      apply matches_two in Hc; eexists _, _; (split; [exact Hc|]); auto. }
  exists ([a; b] ++ [c; d]). split; [apply Regex.reads_app; eauto|]. by exists a, b, c, d.
Qed.

Lemma year_value ds : year_text ds → (1800 ≤ ParseUint 16 ds ≤ 2099)%Z ∧ ParseUint 16 ds = digits_value ds ∧ length ds = 4%nat ∧ Forall (λ r, ascii_digit r = true) ds.
Proof.
  intros (a & b & c & d & -> & Hab & Hc & Hd).
  assert (ascii_digit a = true ∧ ascii_digit b = true ∧ (18 ≤ (a - 48) * 10 + (b - 48) ≤ 20)%Z) as (Ha & Hb & Hr)
    by (destruct Hab as [[= -> ->]|[[= -> ->]|[= -> ->]]]; by vm_compute).
  unfold ParseUint. rewrite decide_True; [|split; [done|repeat constructor; done]].
  assert (digits_value [a; b; c; d] = (((a - 48) * 10 + (b - 48)) * 10 + (c - 48)) * 10 + (d - 48))%Z as -> by (cbn; lia).
  unfold ascii_digit in Hc, Hd. bool_hyps. change (2 ^ 16 - 1)%Z with 65535%Z.
  split_and!; [lia|lia|lia|done|]. repeat constructor; try done; unfold ascii_digit; bool_hyps; lia.
Qed.

Context `{!Rex} `{!RexGroups}.

Lemma rex_FindStringSubmatch ts s : Regex.FindStringSubmatch (rex_MustCompile ts) s = Regex.FindStringSubmatch (with_groups ts) s.
Proof.
  unfold rex_MustCompile. destruct (rex_Compile_groups ts) as (re & -> & Hre). unfold Regex.FindStringSubmatch. cbn [from_option id]. by rewrite Hre.
Qed.

Lemma title_year_match s m :
  Regex.FindStringSubmatch titleYearRegex s = Some m →
  ∃ title gap ds sep rest, s = title ++ gap ++ ds ++ sep ++ rest ∧ m = [title ++ gap ++ ds ++ sep; title; ds]
    ∧ Forall (λ r, Regex.is_word r = false) gap ∧ year_text ds
    ∧ (sep = [] ∧ rest = [] ∨ ∃ c, sep = [c] ∧ Regex.is_word c = false).
Proof.
  unfold titleYearRegex. rewrite rex_FindStringSubmatch, title_year_prog. unfold Regex.FindStringSubmatch.
  destruct (Regex.find _ s) as [[[i j] gs]|] eqn:Hf; [|done]. intros [= <-].
  apply Regex.find_found in Hf as (p & q & Hp & Hm & [= -> -> ->]).
  pose proof (Regex.points_of s [] None p Hp) as Hpo. cbn [app] in Hpo. pose proof (Regex.points_caps _ _ _ _ Hp) as Hcaps.
  apply Regex.points_reads in Hp as (x & Hx). cbn [Regex.prog] in Hm.
  apply Regex.matches_seq in Hm as (p' & Hb & (q' & Hm & ->%Regex.matches_empty)%Regex.matches_seq).
  inversion Hb as [| | | | | | | | |? Hn| |]; subst. clear Hb.
  pose proof (Regex.reads_before _ _ _ Hx) as E. rewrite Hn in E. destruct (last x) eqn:El; [done|]. apply last_None in El as ->.
  inversion Hx; subst. clear Hx E Hn Hcaps.
  apply Regex.matches_seq in Hm as (q1 & (q0 & (t1 & Ht & ->)%Regex.matches_cap & ->%Regex.matches_empty)%Regex.matches_seq & Hm).
  apply Regex.matches_seq in Hm as (q2 & (q3 & (q4 & Hg & ->%Regex.matches_empty)%Regex.matches_seq & Hm)%Regex.matches_seq & ->%Regex.matches_empty).
  apply Regex.matches_seq in Hm as (q5 & (y1 & Hy & ->)%Regex.matches_cap & (q6 & He & ->%Regex.matches_empty)%Regex.matches_seq).
  apply Regex.matches_class_star in Hg as (gap & Hg & Fg). apply matches_year in Hy as (ds & Hds & Hyt).
  destruct (Regex.matches_forward _ _ _ s Ht Hpo) as [Ht1 _].
  assert (Regex.caps t1 = []) as Hct by (by rewrite (Regex.matches_no_caps _ _ _ Ht eq_refl)).
  pose proof (Regex.reads_point s _ _ _ Hg Ht1) as (Hq4 & Ha4 & Hc4 & _).
  pose proof (Regex.reads_point s _ _ _ Hds Hq4) as (Hy1 & Hay & Hcy & _).
  assert (∃ sep, Regex.reads y1 sep (Regex.mkPoint (Regex.at_ q6) (Regex.before q6) (Regex.left q6) (Regex.caps y1))
      ∧ Regex.caps q6 = (2, (Regex.at_ q4, Regex.at_ y1))%nat :: Regex.caps y1
      ∧ (sep = [] ∧ Regex.left q6 = [] ∨ ∃ c, sep = [c] ∧ Regex.is_word c = false)) as (sep & Hsep & Hc6 & Hse).
  { unfold year_end in He. rewrite !Regex.matches_alt in He. destruct He as [(c & Hc & Ec)%Regex.matches_class | [He | (r & _ & ?)%Regex.matches_class]]; [| |done].
    - inversion Hc as [|? ? ? rest ? Hl Hc']; subst. inversion Hc'; subst. cbn in *. exists [c]. split_and!; [|done|right; exists c; split; [done|by apply not_word_class]].
      eapply Regex.reads_cons; [exact Hl|]. constructor.
    - inversion He; subst. cbn in *. exists []. split_and!; [by destruct y1; constructor|done|by left]. }
  pose proof (Regex.reads_point s _ _ _ Hsep Hy1) as (Hq6 & Ha6 & _ & _). cbn [Regex.at_] in Ha6.
  set (title := take (Regex.at_ t1) s). assert (length title = Regex.at_ t1) as Hlt by (unfold title; rewrite length_take; destruct Ht1; lia).
  assert (s = title ++ gap ++ ds ++ sep ++ Regex.left q6) as Hs.
  { rewrite (Regex.point_of_split s t1 Ht1). fold title. f_equal. apply Regex.reads_left in Hg, Hds, Hsep. cbn in Hg, Hsep. by rewrite Hg, Hds, Hsep. }
  exists title, gap, ds, sep, (Regex.left q6). split_and!; [done| | |done|done].
  - cbn [Regex.at_ Regex.start seq fmap list_fmap Regex.groups]. unfold Regex.span_of. rewrite Hc6, Hcy, Hc4. cbn [Regex.caps Regex.capture]. rewrite Hct.
    cbn. cbn in Ha4.
    assert (Regex.at_ q6 = length (title ++ gap ++ ds ++ sep)) as -> by (rewrite !length_app; lia).
    assert (Regex.at_ y1 = length (title ++ gap) + length ds)%nat as -> by (rewrite length_app; lia).
    assert (Regex.at_ q4 = length (title ++ gap)) as -> by (rewrite length_app; lia). rewrite <-Hlt.
    f_equal; [|f_equal; [|f_equal]].
    + replace s with ((title ++ gap ++ ds ++ sep) ++ Regex.left q6) by (by rewrite <-!app_assoc). apply (extract_middle []).
    + rewrite Hs. apply (extract_middle []).
    + rewrite Hs, (app_assoc title). apply extract_middle.
  - eapply Forall_impl; [exact Fg|]. intros r. apply not_word_class.
Qed.

(** What a title with a year is made of. *)
Lemma parseTitleYear_sound input t y rest :
  parseTitleYear input = Some (t, y, rest) →
  ∃ title gap ds sep, input = title ++ gap ++ ds ++ sep ++ rest ∧ t = cleanTitle title ∧ t ≠ []
    ∧ Forall (λ r, Regex.is_word r = false) gap ∧ length ds = 4%nat ∧ Forall (λ r, ascii_digit r = true) ds
    ∧ y = digits_value ds ∧ (1800 ≤ y ≤ 2099)%Z ∧ (sep = [] ∧ rest = [] ∨ ∃ c, sep = [c] ∧ Regex.is_word c = false).
Proof.
  unfold parseTitleYear. destruct (Regex.FindStringSubmatch _ _) as [m|] eqn:Hm; [|done].
  apply title_year_match in Hm as (title & gap & ds & sep & rest' & Hs & -> & Hg & Hy & Hse).
  destruct (decide _) as [|Hne]; [done|]. intros [= <- <- <-].
  destruct (year_value ds Hy) as (Hr & Hv & Hl & Hd). exists title, gap, ds, sep. cbn [default from_option id lookup list_lookup first_group].
  split_and!; [|reflexivity|exact Hne|exact Hg|exact Hl|exact Hd|exact Hv|apply Hr|apply Hr|].
  - rewrite Hs. rewrite !app_assoc, drop_app_length. done.
  - destruct Hse as [[-> ->]|?]; [left|by right]. split; [done|]. rewrite Hs, !app_nil_r. by apply drop_ge.
Qed.

(** A year is read only from the name: when the parser finds a title with a year, the name is the text of the title, a gap without letters, digits or underscores, the four digits of the year, and the end of the name or one character that is no letter, digit or underscore, followed by the rest that attributes are inferred from; the year is the number the digits write and lies between 1800 and 2099, and the title is the cleaned text and is not empty. *)
Theorem title_year_sound input t y rest :
  parseTitleYear input = Some (t, y, rest) →
  ∃ title gap ds sep, input = title ++ gap ++ ds ++ sep ++ rest ∧ t = cleanTitle title ∧ t ≠ []
    ∧ Forall (λ r, Regex.is_word r = false) gap ∧ length ds = 4%nat ∧ Forall (λ r, ascii_digit r = true) ds
    ∧ y = digits_value ds ∧ (1800 ≤ y ≤ 2099)%Z ∧ (sep = [] ∧ rest = [] ∨ ∃ c, sep = [c] ∧ Regex.is_word c = false).
Proof. apply parseTitleYear_sound. Qed.

End title_year.

(** ** What the attributes of a release agree on *)

Definition leading_year_body : Regex.regex :=
  Regex.Seq (Regex.Seq Regex.Empty
    (Regex.Alt (Regex.Seq (Regex.Seq Regex.Empty (Regex.literal false 49)) (Regex.literal false 57))
       (Regex.Seq (Regex.Seq Regex.Empty (Regex.literal false 50)) (Regex.literal false 48))))
    (Regex.repeat true 2 (Some 2) (Regex.Class_ false false Regex.digit_items)).

Section consistent.
Context `{Unicode} `{UnicodeTables}.

Lemma leading_year_prog : ∃ sep rest, Regex.no_caps sep = true ∧ Regex.no_caps rest = true
  ∧ Regex.prog leadingYearRegex
    = Regex.Seq (Regex.Seq (Regex.Seq (Regex.Seq (Regex.Seq Regex.Empty Regex.BeginText) (Regex.Cap 1 leading_year_body)) sep) (Regex.Cap 2 rest)) Regex.EndText.
Proof. eexists _, _. split_and!; cycle 2; [reflexivity|done..]. Qed.

Lemma matches_pair a b p q :
  Regex.matches (Regex.Seq (Regex.Seq Regex.Empty (Regex.literal false a)) (Regex.literal false b)) p q → Regex.reads p [a; b] q.
Proof.
  unfold Regex.literal. intros (q1 & (p0 & ->%Regex.matches_empty & (x & Hx & Ex)%Regex.matches_class)%Regex.matches_seq & (y & Hy & Ey)%Regex.matches_class)%Regex.matches_seq.
  unfold Regex.class_has in *. cbn in *. unfold Metainfo.in_range in *. assert (x = a ∧ y = b) as [-> ->] by (bool_hyps; lia).
  apply (Regex.reads_app _ [a]). eauto.
Qed.

Lemma matches_leading_year p q : Regex.matches leading_year_body p q → ∃ ds, Regex.reads p ds q ∧ year_text ds.
Proof.
  intros (q1 & (p0 & ->%Regex.matches_empty & Hc)%Regex.matches_seq & Hd)%Regex.matches_seq.
  apply Regex.matches_repeat_class in Hd as (u & Hu & Hlen & Fu); [|done].
  destruct u as [|c [|d [|]]]; cbn in Hlen; try lia. clear Hlen.
  apply Forall_cons in Fu as [Ec [Ed _]%Forall_cons]. rewrite year_digit_class in Ec, Ed.
  assert (∃ a b, Regex.reads p [a; b] q1 ∧ ([a; b] = runes_of "18" ∨ [a; b] = runes_of "19" ∨ [a; b] = runes_of "20")) as (a & b & Hab & Hor)
    by (apply Regex.matches_alt in Hc as [Hc|Hc]; apply matches_pair in Hc; eexists _, _; (split; [exact Hc|]); auto).
  exists ([a; b] ++ [c; d]). split; [apply Regex.reads_app; eauto|]. by exists a, b, c, d.
Qed.

Lemma leading_year_group s m : Regex.FindStringSubmatch leadingYearRegex s = Some m → year_text (first_group m).
Proof.
  unfold Regex.FindStringSubmatch. destruct (Regex.find _ s) as [[[i j] gs]|] eqn:Hf; [|done]. intros [= <-].
  apply Regex.find_found in Hf as (p & q & Hp & Hm & [= -> -> ->]). destruct leading_year_prog as (sep & rest & Hns & Hnr & E). rewrite E in Hm.
  pose proof (Regex.points_of s [] None p Hp) as Hpo. cbn [app] in Hpo. pose proof (Regex.points_caps _ _ _ _ Hp) as Hcaps.
  apply matches_end in Hm as [_ (q1 & (q2 & (q3 & (q4 & ->%Regex.matches_empty & Hb)%Regex.matches_seq & Hy)%Regex.matches_seq
    & Hsep)%Regex.matches_seq & (q5 & Hr & ->)%Regex.matches_cap)%Regex.matches_seq].
  inversion Hb; subst. apply Regex.matches_cap in Hy as (q0 & Hy & ->). apply matches_leading_year in Hy as (ds & Hds & Hyt).
  pose proof (Regex.reads_point s _ _ _ Hds Hpo) as (_ & _ & Hc0 & Hx).
  assert (Regex.caps q5 = [(1, (Regex.at_ q3, Regex.at_ q0))]%nat) as Hc5.
  { rewrite (Regex.matches_no_caps _ _ _ Hr Hnr), (Regex.matches_no_caps _ _ _ Hsep Hns). cbn. by rewrite Hc0, Hcaps. }
  unfold first_group, Regex.span_of. cbn [Regex.caps Regex.capture]. rewrite Hc5. cbn. rewrite ?decide_False, ?decide_True by done. cbn. by rewrite ?Hx.
Qed.

(** A year of the catalogue or none. *)
Definition year_ok (y : Z) : Prop := y = 0%Z ∨ (1800 ≤ y ≤ 2099)%Z.
(** Episodes are only looked for where the type allows them. *)
Definition episodes_ok (known : NullEnum) (e : Episodes.Episodes) : Prop := e ≠ ∅ → Valid known = false ∨ Val known = "tv_show".

Lemma year_text_ok ds : year_text ds → year_ok (ParseUint 16 ds).
Proof. intros Hd. right. by apply year_value. Qed.

Context `{!Rex} `{!RexGroups}.

Lemma parseTitleYear_year input t y rest : parseTitleYear input = Some (t, y, rest) → year_ok y ∧ t ≠ [].
Proof. intros (? & ? & ? & ? & _ & _ & Ht & _ & _ & _ & _ & Hy & _)%parseTitleYear_sound. split; [by right|done]. Qed.

Lemma cascade_ok known input t y e rest :
  ParseTitleYearEpisodes known input = Some (t, y, e, rest) → year_ok y ∧ episodes_ok known e.
Proof.
  unfold ParseTitleYearEpisodes, episodes_ok.
  assert (∀ r : runes * Z * Episodes.Episodes * runes,
    (match parseTitleYear input with
     | Some (title, year, rest) => Some (title, year, ∅, rest)
     | None => match parseTitle input with Some (title, rest) => Some (title, 0%Z, ∅, rest) | None => None end
     end) = Some r → year_ok r.1.1.2 ∧ r.1.2 = ∅) as Ht.
  { intros r. destruct (parseTitleYear input) as [[[? ?] ?]|] eqn:E; [intros [= <-]; by apply parseTitleYear_year in E as [? _]|].
    destruct (parseTitle input) as [[? ?]|]; [|done]. intros [= <-]. split; [by left|done]. }
  destruct (negb (Valid known) || bool_decide (Val known = "tv_show")) eqn:Ek.
  - assert (Valid known = false ∨ Val known = "tv_show") as Hk
      by (apply orb_true_iff in Ek as [?|Ek]; [left; by apply negb_true_iff|right; by apply bool_decide_eq_true in Ek]).
    unfold parseTitleYearEpisodes. destruct (Regex.FindStringSubmatch _ _) as [m|]; [|by intros [? _]%Ht].
    destruct (parseTitleYear (first_group m)) as [[[? ?] ?]|] eqn:E; intros [= <- <- <- <-]; (split; [|done]); [by apply parseTitleYear_year in E as [? _]|by left].
  - intros [? He]%Ht. cbn in He. split; [done|]. by subst e.
Qed.

Definition parsed_ok (known : NullEnum) (p : parsed) : Prop := year_ok (p_year p) ∧ episodes_ok known (p_episodes p).

Lemma rescue_ok name t y rest : rescueLeadingYear name = Some (t, y, rest) → year_ok y.
Proof.
  unfold rescueLeadingYear. destruct (Regex.FindStringSubmatch _ _) as [m|] eqn:Hm; [|done]. destruct (Regex.MatchString _ _); [done|].
  destruct (match Regex.FindIndex _ _ with Some _ => _ | None => _ end) as [titlePart r]. destruct (decide _); [done|]. intros [= <- <- <-].
  by eapply year_text_ok, leading_year_group.
Qed.

Lemma leading_year_ok noiseV2 known name r :
  (∀ p, r = Some p → parsed_ok known p) → ∀ p, leading_year noiseV2 name r = Some p → parsed_ok known p.
Proof.
  intros Hr. unfold leading_year. destruct (noiseV2 && _); [|done].
  destruct (Regex.FindStringSubmatch leadingYearRegex name) as [m|] eqn:Hm; [|done].
  assert (∀ p, match rescueLeadingYear name with Some (t, y, rest) => Some (mkParsed t y ∅ rest) | None => r end = Some p → parsed_ok known p) as Hres.
  { intros p. destruct (rescueLeadingYear name) as [[[? ?] ?]|] eqn:E; [|by apply Hr]. intros [= <-]. split; [by eapply rescue_ok|]. intros Hne. by destruct Hne. }
  destruct r as [p0|]; [|done]. destruct (decide _); [|done]. destruct (HasPrefix _ _); [|done]. intros p [= <-].
  split; [by eapply year_text_ok, leading_year_group|]. by apply (Hr p0).
Qed.

Lemma ep_numbered_ok noiseV2 known name p : parsed_ok known p →
  parsed_ok known (ep_numbered noiseV2 known name p).1 ∧ p_episodes (ep_numbered noiseV2 known name p).1 = p_episodes p
  ∧ (noiseV2 = false → ep_numbered noiseV2 known name p = (p, false)).
Proof.
  intros Hp. unfold ep_numbered. destruct noiseV2; cbn [andb]; [|done].
  destruct (_ && _); [|done]. destruct (Regex.FindStringSubmatch _ _) as [m|]; [|done]. destruct (_ =? _)%nat; [|done].
  destruct (parseTitleYear _) as [[[t y] ?]|] eqn:E.
  - apply parseTitleYear_year in E as [Hy _]. destruct (decide (t = [])); cbn [fst]; (split_and!; [split; cbn [p_year p_episodes]; [exact Hy|apply Hp]|reflexivity|discriminate]).
  - destruct Hp as [Hy He]. destruct (decide (_ = [])); cbn [fst]; (split_and!; [split; [exact Hy|exact He]|reflexivity|discriminate]).
Qed.

Lemma parse_name_ok name original noiseV2 result p ep :
  parse_name name original noiseV2 result = inr (p, ep) →
  parsed_ok (ContentType (Attributes result)) p
  ∧ (noiseV2 = false → isLikelyMoviePack original = true → p_episodes p = ∅ → p_title p = [] ∧ p_year p = 0%Z ∧ ep = false).
Proof.
  unfold parse_name. set (known := ContentType (Attributes result)).
  set (guarded := λ p, if bool_decide (p_episodes p = ∅) && isLikelyMoviePack original then mkParsed [] 0 (p_episodes p) (p_rest p) else p).
  assert (∀ p0, parsed_ok known p0 → ep_numbered noiseV2 known name (guarded p0) = (p, ep) →
    parsed_ok known p ∧ (noiseV2 = false → isLikelyMoviePack original = true → p_episodes p = ∅ → p_title p = [] ∧ p_year p = 0%Z ∧ ep = false)) as Hstep.
  { intros p0 Hp0 E. assert (parsed_ok known (guarded p0)) as Hg by (unfold guarded; destruct (_ && _); [split; [by left|apply Hp0]|done]).
    destruct (ep_numbered_ok noiseV2 known name _ Hg) as (Hok & He & Hf). rewrite E in Hok, He, Hf. split; [done|].
    intros Hn Hpack Hemp. specialize (Hf Hn). injection Hf as -> ->. revert Hemp. unfold guarded. rewrite Hpack, andb_true_r.
    case_bool_decide; [done|]. intros. done. }
  match goal with |- match leading_year _ _ ?r with _ => _ end = _ → _ => assert (∀ p, r = Some p → parsed_ok known p) as Hr end.
  { intros p0. destruct (ParseTitleYearEpisodes known name) as [[[[t y] e] rest]|] eqn:E; [|done]. intros [= <-]. by eapply cascade_ok. }
  destruct (leading_year _ _ _) as [p0|] eqn:El.
  - intros [= E]. eapply Hstep; [by eapply leading_year_ok|exact E].
  - destruct (Valid known); [|done]. intros [= E]. eapply Hstep; [|exact E]. split; [by left|]. intros Hne. by destruct Hne.
Qed.

End consistent.

Section attributes.
Context `{Unicode} `{UnicodeTables} `{!Rex} `{!RexGroups}.

Definition fansub_film (result : Result) (name : runes) : Prop :=
  Valid (ContentType (Attributes result)) = false ∧ Anime.IsKnownFansub (Anime.Detect name) = true ∧ Anime.IsExplicitMovie name = true.

Lemma content_type_cases result name ep p ct fansub :
  content_type result name ep p = (ct, fansub) →
  (Valid (ContentType (Attributes result)) = true → ct = NewNullEnum (Val (ContentType (Attributes result))) ∧ fansub = None)
  ∧ (Valid (ContentType (Attributes result)) = false → p_episodes p ≠ ∅ → ct = NewNullEnum "tv_show" ∧ fansub = None)
  ∧ (Valid ct = false → ct = no_enum ∧ fansub = None ∧ p_year p = 0%Z ∧ p_episodes p = ∅)
  ∧ (fansub ≠ None → Valid (ContentType (Attributes result)) = false ∧ Anime.IsKnownFansub (Anime.Detect name) = true
       ∧ Dates.IsValid (Date_ (Attributes result)) = false ∧ (Val ct = "tv_show" ∨ Anime.IsExplicitMovie name = true)).
Proof.
  unfold content_type. destruct (Valid (ContentType (Attributes result))); [intros [= <- <-]; by split_and!|].
  case_bool_decide as He; cbn [orb]; [intros [= <- <-]; by split_and!|].
  destruct (Dates.IsValid _) eqn:Ed; [intros [= <- <-]; by split_and!|].
  destruct (Anime.IsKnownFansub _) eqn:Ef.
  - destruct (_ || _); [intros [= <- <-]; split_and!; try done; auto|]. 
    destruct (Anime.IsExplicitMovie name) eqn:Em; intros [= <- <-]; split_and!; try done; auto.
  - destruct ep; [intros [= <- <-]; by split_and!|]. destruct (Z.eqb_spec (p_year p) 0) as [Hy|]; cbn; intros [= <- <-]; by split_and!.
Qed.

Lemma clear_untyped_fields ct name p :
  p_year (clear_untyped ct name p) = p_year p
  ∧ (Val ct ≠ "tv_show" → p_episodes (clear_untyped ct name p) = ∅ ∧ (p_year p = 0%Z → p_title (clear_untyped ct name p) = []))
  ∧ (p_episodes (clear_untyped ct name p) = p_episodes p ∨ p_episodes (clear_untyped ct name p) = ∅ ∧ Val ct ≠ "tv_show")
  ∧ (p_title p = [] → p_title (clear_untyped ct name p) = []).
Proof.
  unfold clear_untyped. case_bool_decide as Ht; [by split_and!; auto|].
  destruct (Z.eqb_spec (p_year p) 0); cbn [p_year p_episodes p_title]; split_and!; try done; auto.
Qed.

Lemma infer_fields {L} input name (a : ContentAttributes L) :
  let b := InferVideoAttributes input name a in
  ContentType b = ContentType a ∧ BaseTitle b = BaseTitle a ∧ Date_ b = Date_ a ∧ Episodes_ b = Episodes_ a.
Proof. split_and!; reflexivity. Qed.

(** C33: What the video parser reports is coherent, whatever the name: a type that was known is kept; episodes are only reported for a series; a release without a type gets no title, no year and no episodes, so nothing is searched for; a year is absent or between 1800 and 2099; a title is reported exactly when it is not empty, and a release that is no series and has no year gets one only as a film that a known fansub group marks as such; and a collection of films without episode markers gets no year, and no title unless a fansub group decides it, so it is never attached to one film (second-generation parsing aside). *)
Theorem video_content_coherent t result noiseV2 a :
  ParseVideoContentWithOptions t result noiseV2 = inr a →
  let known := ContentType (Attributes result) in
  let original := Metainfo.range_runes (t_Name t) in
  let name := stripped_name original noiseV2 in
  (Valid known = true → ContentType a = NewNullEnum (Val known))
  ∧ (Episodes_ a ≠ ∅ → Val (ContentType a) = "tv_show")
  ∧ (Valid (ContentType a) = false → TValid (BaseTitle a) = false ∧ Dates.Year (Date_ a) = 0%Z ∧ Episodes_ a = ∅)
  ∧ year_ok (Dates.Year (Date_ a))
  ∧ (TValid (BaseTitle a) = true ↔ Classifier.Text (BaseTitle a) ≠ [])
  ∧ (Val (ContentType a) ≠ "tv_show" → Dates.Year (Date_ a) = 0%Z → TValid (BaseTitle a) = true → fansub_film result name)
  ∧ (noiseV2 = false → isLikelyMoviePack original = true → Episodes_ a = ∅ →
     Dates.Year (Date_ a) = 0%Z ∧ (TValid (BaseTitle a) = true → Anime.IsKnownFansub (Anime.Detect name) = true ∧ Valid known = false)).
Proof.
  intros Hp known original name. revert Hp. unfold ParseVideoContentWithOptions. fold original. fold name.
  destruct (parse_name name original noiseV2 result) as [e|[p ep]] eqn:Hn; [done|].
  apply parse_name_ok in Hn as [[Hy Hep] Hpack].
  destruct (content_type result name ep p) as [ct fansub] eqn:Hct. apply content_type_cases in Hct as (Hk & Hser & Hnone & Hfan).
  destruct (clear_untyped_fields ct name p) as (Hyear & Huntyped & Hepis & Htitle). set (p' := clear_untyped ct name p) in *.
  set (title0 := fansub_title name fansub (p_title p')). set (title := if noiseV2 then latinTitleAfterCJK title0 else title0).
  assert (title0 = [] → title = []) as Ht0 by (unfold title; intros ->; by destruct noiseV2).
  assert (fansub = None → p_title p' = [] → title = []) as Hnt by (intros -> Hpt; by apply Ht0).
  match goal with |- context [InferVideoAttributes ?i ?n ?x] =>
    destruct (infer_fields i n x) as (F1 & F2 & F3 & F4); revert F1 F2 F3 F4; generalize (InferVideoAttributes i n x) end.
  intros attrs F1 F2 F3 F4 E.
  assert (ContentType a = ct ∧ BaseTitle a = mkString title (bool_decide (title ≠ [])) ∧ Dates.Year (Date_ a) = p_year p ∧ Episodes_ a = p_episodes p')
    as (Ea & Eb & Ey & Ee) by (injection E as <-; destruct (_ && _); cbn [ContentType BaseTitle Date_ Episodes_ set_group]; rewrite F1, F2, F3, F4;
        cbn [ContentType BaseTitle Date_ Episodes_ Dates.Year]; by rewrite Hyear).
  rewrite Ea, Eb, Ey, Ee. clear E. fold known in Hk, Hser, Hfan, Hep. cbn [TValid Classifier.Text]. rewrite bool_decide_eq_true, bool_decide_eq_false.
  assert (Episodes_ a = ∅ → p_episodes p = ∅) as Hempty.
  { rewrite Ee. destruct Hepis as [-> | [_ Hv]]; [done|]. intros _. destruct (decide (p_episodes p = ∅)) as [|Hne]; [done|]. exfalso.
    destruct (Hep Hne) as [Hkv | Hkv]; [destruct (Hser Hkv Hne) as [-> _]; done|].
    destruct (Valid known) eqn:Ev; [destruct (Hk eq_refl) as [-> _]; cbn in Hv; done|]. destruct (Hser eq_refl Hne) as [-> _]; done. }
  split_and!.
  - intros Hv. by apply Hk.
  - intros Hne. destruct (decide (Val ct = "tv_show")) as [|Hc]; [done|]. destruct (Huntyped Hc) as [E _]. done.
  - intros Hv. destruct (Hnone Hv) as (-> & -> & Hy0 & He0). destruct (Huntyped ltac:(done)) as [He' Ht']. split_and!; [|done|done].
    intros Hne. by apply Hne, Hnt, Ht'.
  - done.
  - done.
  - intros Hc Hy0 Hne. destruct (Huntyped Hc) as [_ Ht']. destruct fansub as [b|]; [|destruct Hne; by apply Hnt, Ht'].
    destruct (Hfan ltac:(done)) as (? & ? & _ & [?|?]); [done|]. by split_and!.
  - intros Hn2 Hp2 He2. rewrite <-Ee in He2. destruct (Hpack Hn2 Hp2 (Hempty He2)) as (Hpt & Hpy & _). split; [done|]. intros Hne.
    destruct fansub as [b|]; [|destruct Hne; by apply Hnt, Htitle]. by destruct (Hfan ltac:(done)) as (? & ? & _).
Qed.

End attributes.

(** ** Tests of the sources, on short names *)

Section tests.
#[local] Existing Instances ascii_unicode name_tables group_rex group_rex_groups.

Definition no_hint : TorrentHint := mkHint "" no_string no_string None ∅ no_enum no_enum no_enum no_enum no_enum no_string.
Definition named (s : string) : Torrent := mkTorrent [] (Protocol.string_bytes s) 0 no_string [] no_hint [].
Definition of_type (ct : string) : Result :=
  mkResult (mkAttributes positive (if bool_decide (ct = "") then no_enum else NewNullEnum ct) no_string Dates.zero None false ∅
    no_enum no_enum no_enum no_enum no_enum no_string None) None None.
Definition title_test (noiseV2 : bool) (s ct : string) : option (string * Z * string * list (Z * list Z)) :=
  match ParseVideoContentWithOptions (named s) (of_type ct) noiseV2 with
  | inl _ => None
  | inr a => Some (Regex.string_of (Classifier.Text (BaseTitle a)), Dates.Year (Date_ a), Val (ContentType a), Episodes.to_lists (Episodes_ a))
  end.

Example title_tests :
  title_test false "Spider-Man.2002" "movie" = Some ("Spider Man", 2002%Z, "movie", [])
  ∧ title_test false "www.A.com - Up.1982" "movie" = Some ("Up", 1982%Z, "movie", [])
  ∧ title_test false "Show.S01E05.A" "" = Some ("Show", 0%Z, "tv_show", [(1%Z, [5%Z])])
  ∧ title_test false "Fog (2003-2005) S01" "" = Some ("Fog", 2003%Z, "tv_show", [(1%Z, [])])
  ∧ title_test true "2019.Up.1080p" "" = Some ("Up", 2019%Z, "movie", [])
  ∧ title_test true "Up.EP12" "" = Some ("Up", 0%Z, "tv_show", []).
Proof. by vm_compute. Qed.

(** A range of seasons that repeats the letter keeps its last season only: the
    title is read as far as it goes, and takes the first season with it. *)
Example season_range_lost :
  Episodes.parse_test "S01-S03" = Some [(1%Z, []); (2%Z, []); (3%Z, [])]
  ∧ title_test false "Up S01-S03" "" = Some ("Up S01", 0%Z, "tv_show", [(3%Z, [])]).
Proof. by vm_compute. Qed.

Lemma title_year_sound_witness : (1800 ≤ 2002 ≤ 2099)%Z.
Proof.
  assert (parseTitleYear (runes_of "Up.2002") = Some (runes_of "Up", 2002%Z, [])) as E by by vm_compute.
  destruct (title_year_sound _ _ _ _ E) as (? & ? & ? & ? & _ & _ & _ & _ & _ & _ & _ & Hy & _). exact Hy.
Defined.
Definition sample : ContentAttributes (gset string) :=
  match ParseVideoContentWithOptions (named "Up.2002") (of_type "") false with inr a => a | inl _ => mkAttributes _ no_enum no_string Dates.zero None false ∅
    no_enum no_enum no_enum no_enum no_enum no_string None end.
Lemma video_content_coherent_witness : year_ok (Dates.Year (Date_ sample)).
Proof.
  assert (ParseVideoContentWithOptions (named "Up.2002") (of_type "") false = inr sample) as E by by vm_compute.
  exact (proj1 (proj2 (proj2 (proj2 (video_content_coherent _ _ _ _ E))))).
Defined.
End tests.
 End VideoParser.
