(* ===== verification/Evidence.v ===== *)
(** * Evidence about torrents

    [internal/evidence]: what qBittorrent and the *arr services report about a
    torrent is written to an append-only table, [label_evidence]; a second
    table, [torrent_canonical_labels], keeps the winning label of every info
    hash.  The file models the store ([store.go], [model.go]), the classes of
    qBittorrent states ([qbstate.go]), the freshness of the feeds
    ([freshness.go]), the sources that make evidence
    ([sources/qbpoller], [sources/arrpoller], [sources/arrwebhook]) and the
    privacy predicates of [internal/catalogueguard], in Go and in SQL.

    The tables are lists and maps; a statement is a function on them, with the
    unique index and the conflict clause of the source.  A call that can fail
    takes which of its stages fails as an argument; a failed transaction leaves
    the tables as they were.  Texts are lists of runes, times are nanoseconds. *)
From S2P Require Import Prelude Protocol Lexer Metainfo Fts Dates Anime Keywords Workflow NamePolicy Classifier Titles Tmdb.
From stdpp Require Import gmap list strings sets pretty.
From Stdlib Require Import ZArith Lia.

#[local] Open Scope string_scope.
#[local] Open Scope list_scope.

Module Evidence.
Import Lexer Tmdb.

(** ** Constants *)

Definition SourceQBittorrent : string := "qbittorrent".
Definition SourceSonarr : string := "sonarr".
Definition SourceRadarr : string := "radarr".
Definition SourceReadarr : string := "readarr".
Definition SourceLidarr : string := "lidarr".

Definition KindWebhookImport : string := "webhook_import".
Definition KindWebhookGrab : string := "webhook_grab".
Definition KindPollHistory : string := "poll_history".
Definition KindPollCategories : string := "poll_categories".
Definition KindQBStateObservation : string := "qb_state_observation".

Definition StrengthQBCategoryPublic : Z := 30.
Definition StrengthQBCategoryPrivate : Z := 40.
Definition StrengthArrPollGrab : Z := 60.
Definition StrengthArrWebhookGrab : Z := 60.
Definition StrengthArrPollImport : Z := 80.
Definition StrengthArrWebhookImport : Z := 100.
Definition StrengthQBStateAlive : Z := 50.
Definition StrengthQBStateSuspect : Z := 35.

Definition Minute : Z := 60 * 1000000000.
Definition Hour : Z := 60 * Minute.

(** ** Data *)

Record Evidence := mkEvidence {
  e_Source : string; e_Kind : string; e_SourceInstance : runes; e_SourceObjectID : runes; e_DownloadID : runes;
  e_InfoHash : bytes; e_Title : runes; e_MediaType : string; e_MediaID : runes; e_Category : runes;
  e_ObservedAt : Z; e_Strength : Z; e_RawPayload : bytes; e_QBState : runes }.

(** A row of [label_evidence]: absent columns are null. *)
Record LabelRow := mkLabelRow {
  l_id : Z; l_source : string; l_source_kind : string; l_source_instance : runes; l_source_object_id : runes;
  l_download_id : option runes; l_info_hash : option bytes; l_title : option runes; l_media_type : option string;
  l_media_id : option runes; l_category : option runes; l_observed_at : Z; l_strength : Z; l_raw_payload : option bytes }.

(** A row of [torrent_canonical_labels], by info hash. *)
Record CanonicalRow := mkCanonicalRow {
  c_media_type : option string; c_media_id : option runes; c_category : option runes; c_title : option runes;
  c_resolved_from : Z; c_resolved_source : string; c_resolved_strength : Z; c_resolved_at : Z }.

(** A row of [torrents] with its tags and the content types of its
    [torrent_contents], and one of [torrent_pieces]. *)
Record TorrentRow := mkTorrentRow { t_name : bytes; t_private : bool; t_tags : list runes; t_types : list string }.
Record PiecesRow := mkPiecesRow { pc_length : Z; pc_pieces : bytes }.

Record db := mkDb {
  label_evidence : list LabelRow;
  next_id : Z;
  canonical_labels : gmap bytes CanonicalRow;
  torrents : gmap bytes TorrentRow;
  torrent_pieces : gmap bytes PiecesRow }.

Definition CanonicalLabel_of (r : CanonicalRow) : Classifier.CanonicalLabel :=
  Classifier.mkLabel (default "" (c_media_type r)) (default [] (c_media_id r)).

(** ** Columns *)

Definition nullableString (v : runes) : option runes := match v with [] => None | _ => Some v end.
Definition nullableBytes (v : bytes) : option bytes := match v with [] => None | _ => Some v end.
Definition nullableMediaType (v : string) : option string := if bool_decide (v = "") then None else Some v.
Definition nullableJSON (v : bytes) : option bytes := nullableBytes v.

(** [timestamptz] keeps microseconds. *)
Definition timestamptz (ns : Z) : Z := (ns / 1000 * 1000)%Z.

Definition isLabelBearing (kind : string) : bool :=
  bool_decide (kind ∈ [KindWebhookImport; KindWebhookGrab; KindPollHistory; KindPollCategories]).

(** ** The store *)

Inductive insert_error := ErrNotUsable | ErrDuplicate | ErrDatabase.
Inductive stage := AcquirePool | BeginTx | InsertRow | UpsertLabel | CommitTx.
#[export] Instance insert_error_eq_dec : EqDecision insert_error.
Proof. solve_decision. Defined.

(** The columns of the unique index [label_evidence_dedupe]. *)
Definition row_key (r : LabelRow) : string * string * runes * runes :=
  (l_source r, l_source_kind r, l_source_instance r, l_source_object_id r).
Definition evidence_key (e : Evidence) : string * string * runes * runes :=
  (e_Source e, e_Kind e, e_SourceInstance e, e_SourceObjectID e).

Definition row_of (id : Z) (e : Evidence) : LabelRow :=
  mkLabelRow id (e_Source e) (e_Kind e) (e_SourceInstance e) (e_SourceObjectID e)
    (nullableString (e_DownloadID e)) (nullableBytes (e_InfoHash e)) (nullableString (e_Title e))
    (nullableMediaType (e_MediaType e)) (nullableString (e_MediaID e)) (nullableString (e_Category e))
    (timestamptz (e_ObservedAt e)) (e_Strength e) (nullableJSON (e_RawPayload e)).

Definition canonical_of (id : Z) (e : Evidence) : CanonicalRow :=
  mkCanonicalRow (nullableMediaType (e_MediaType e)) (nullableString (e_MediaID e)) (nullableString (e_Category e))
    (nullableString (e_Title e)) id (e_Source e) (e_Strength e) (timestamptz (e_ObservedAt e)).

(** The condition of the conflict clause: [excluded] replaces the row. *)
Definition outranked (old excluded : CanonicalRow) : bool :=
  ((c_resolved_strength old <? c_resolved_strength excluded)
   || ((c_resolved_strength old =? c_resolved_strength excluded) && (c_resolved_at old <? c_resolved_at excluded)))%Z.

Definition upsert_canonical (h : bytes) (new : CanonicalRow) (m : gmap bytes CanonicalRow) : gmap bytes CanonicalRow :=
  match m !! h with
  | None => <[h := new]> m
  | Some old => if outranked old new then <[h := new]> m else m
  end.

(** A sequence is not rolled back: an identifier is used up by an insertion
    that fails. *)
Definition skip_id (d : db) : db := mkDb (label_evidence d) (next_id d + 1) (canonical_labels d) (torrents d) (torrent_pieces d).

Definition Insert (fails : stage → bool) (e : Evidence) (d : db) : db * option insert_error :=
  if bool_decide (e_InfoHash e = []) && bool_decide (e_DownloadID e = []) then (d, Some ErrNotUsable)
  else if fails AcquirePool || fails BeginTx then (d, Some ErrDatabase)
  else if fails InsertRow then (skip_id d, Some ErrDatabase)
  else if existsb (λ r, bool_decide (row_key r = evidence_key e)) (label_evidence d) then (skip_id d, Some ErrDuplicate)
  else
    let id := next_id d in
    let labels := bool_decide (e_InfoHash e ≠ []) && isLabelBearing (e_Kind e) in
    if labels && fails UpsertLabel || fails CommitTx then (skip_id d, Some ErrDatabase)
    else
      (mkDb (label_evidence d ++ [row_of id e]) (id + 1)
         (if labels then upsert_canonical (e_InfoHash e) (canonical_of id e) (canonical_labels d) else canonical_labels d)
         (torrents d) (torrent_pieces d), None).

(** A lookup: an error of the database, or its answer. *)
Definition CanonicalForInfoHash (fails : bool) (h : bytes) (d : db) : outcome insert_error (option Classifier.CanonicalLabel) :=
  if fails then Err ErrDatabase else Ok (CanonicalLabel_of <$> canonical_labels d !! h).

Record TitleLabel := mkTitleLabel { tl_InfoHash : bytes; tl_Name : bytes; tl_MediaType : string; tl_MediaID : runes }.

(** The join of the labels that carry an identity with the names of their
    torrents; the query leaves the order open. *)
Definition title_label (d : db) (e : bytes * CanonicalRow) : option TitleLabel :=
  t ← torrents d !! e.1; id ← c_media_id e.2;
  if bool_decide (id = []) then None else Some (mkTitleLabel e.1 (t_name t) (default "" (c_media_type e.2)) id).
Definition CanonicalTitleLabels (fails : bool) (d : db) : outcome insert_error (list TitleLabel) :=
  if fails then Err ErrDatabase else Ok (omap (title_label d) (map_to_list (canonical_labels d))).

Section evidence.
Context `{Unicode}.

(** ** Privacy, in Go and in SQL ([catalogueguard/tags.go]) *)

Definition tagSeparators : runes := runes_of ":/-_".
Definition TagWhitespace : runes := NamePolicy.TagWhitespace.

Definition qualified (name prefix : runes) : bool :=
  bool_decide (name = prefix)
  || (bool_decide (take (length prefix) name = prefix)
      && match name !! length prefix with Some r => bool_decide (r ∈ tagSeparators) | None => false end).

Definition lower_trim (s : runes) : runes := ToLower <$> TrimSpace s.

Definition ProtectedTag (name : runes) (includeWanted : bool) : bool :=
  existsb (λ prefix, negb (bool_decide (prefix = "wanted") && negb includeWanted) && qualified (lower_trim name) (runes_of prefix))
    ["manual"; "reference"; "bitgrab"; "wanted"].
Definition PrivacyTag (name : runes) : bool := qualified (lower_trim name) (runes_of "bitgrab").

(** [btrim(s, chars)] *)
Fixpoint ltrim (chars s : runes) : runes :=
  match s with r :: s' => if bool_decide (r ∈ chars) then ltrim chars s' else s | [] => [] end.
Definition btrim (chars s : runes) : runes := rev (ltrim chars (rev (ltrim chars s))).
Definition sql_normal (s : runes) : runes := ToLower <$> btrim TagWhitespace s.

Definition PrivacyTagSQL (name : runes) : bool :=
  let n := sql_normal name in
  bool_decide (n = runes_of "bitgrab")
  || (bool_decide (take 7 n = runes_of "bitgrab") && bool_decide (take 1 (drop 7 n) ∈ [runes_of ":"; runes_of "/"; runes_of "-"; runes_of "_"])).

Definition private_categories : list runes := [runes_of "private"; runes_of "bitgrab"].

(** A comparison with null is not true. *)
Definition QBPrivacySQL (source : string) (category : option runes) : bool :=
  bool_decide (sql_normal (runes_of source) = runes_of "qbittorrent")
  && match category with Some c => bool_decide (sql_normal c ∈ private_categories) | None => false end.

Definition private_row (h : bytes) (r : LabelRow) : bool :=
  bool_decide (l_info_hash r = Some h) && QBPrivacySQL (l_source r) (l_category r).

Definition PublicSQL (d : db) (h : bytes) (t : TorrentRow) : bool :=
  negb (t_private t) && negb (existsb (private_row h) (label_evidence d)) && negb (existsb PrivacyTagSQL (t_tags t))
  && match canonical_labels d !! h with
     | Some r => negb match c_category r with Some c => bool_decide (sql_normal c ∈ private_categories) | None => false end
     | None => true
     end.

Definition IsPrivateInfoHash (fails : bool) (h : bytes) (d : db) : outcome insert_error bool :=
  if bool_decide (h = []) then Ok false
  else if fails then Err ErrDatabase
  else Ok (existsb (private_row h) (label_evidence d)).

(** ** Piece hashes *)

Definition arr_kinds : list string := [KindWebhookGrab; KindWebhookImport; KindPollHistory].

Definition missing_pieces (d : db) (h : bytes) : bool :=
  match torrents d !! h with
  | Some t =>
      bool_decide (torrent_pieces d !! h = None)
      && existsb (λ r, bool_decide (l_info_hash r = Some h) && bool_decide (l_source_kind r ∈ arr_kinds)) (label_evidence d)
      && PublicSQL d h t
  | None => false
  end.
Definition MissingPieces (fails : bool) (hs : list bytes) (d : db) : outcome insert_error (list bytes) :=
  match hs with
  | [] => Ok []
  | _ => if fails then Err ErrDatabase else Ok (filter (λ h, missing_pieces d h = true) (remove_dups hs))
  end.

Definition SavePieces (fails : bool) (h : bytes) (pieceLength : Z) (pieces : bytes) (d : db) : db * option insert_error :=
  if fails then (d, Some ErrDatabase)
  else
    match torrents d !! h, torrent_pieces d !! h with
    | Some _, None => (mkDb (label_evidence d) (next_id d) (canonical_labels d) (torrents d) (<[h := mkPiecesRow pieceLength pieces]> (torrent_pieces d)), None)
    | _, _ => (d, None)
    end.

(** ** States of qBittorrent ([qbstate.go]) *)

Inductive QBStateClass := QBStateClassAlive | QBStateClassSuspect | QBStateClassIgnore.
#[export] Instance QBStateClass_eq_dec : EqDecision QBStateClass.
Proof. solve_decision. Defined.

Definition alive_states : list string := ["seeding"; "uploading"; "forcedup"; "forceddl"; "downloading"; "stalledup"].
Definition suspect_states : list string := ["stalleddl"; "metadl"; "error"; "missingfiles"; "pauseddl"; "unknown"].
Definition ignored_states : list string :=
  ["queueddl"; "queuedup"; "checkingdl"; "checkingup"; "checkingresumedata"; "moving"; "allocating"; ""].

Definition ClassifyQBState (state : runes) : QBStateClass :=
  let s := lower_trim state in
  if bool_decide (s ∈ runes_of <$> alive_states) then QBStateClassAlive
  else if bool_decide (s ∈ runes_of <$> suspect_states) then QBStateClassSuspect
  else if bool_decide (s ∈ runes_of <$> ignored_states) then QBStateClassIgnore
  else QBStateClassSuspect.

(** ** Freshness of the feeds ([freshness.go]) *)

Record Freshness := mkFreshness { f_last : gmap runes Z; f_maxAge : gmap runes Z }.
Definition NewFreshness : Freshness := mkFreshness ∅ ∅.

Definition freshnessKey (src : string) (instance : runes) : runes := runes_of src ++ runes_of "/" ++ instance.

Definition Track (src : string) (instance : runes) (maxAge now : Z) (f : Freshness) : Freshness :=
  let key := freshnessKey src instance in mkFreshness (<[key := now]> (f_last f)) (<[key := maxAge]> (f_maxAge f)).
Definition MarkSuccess (src : string) (instance : runes) (now : Z) (f : Freshness) : Freshness :=
  mkFreshness (<[freshnessKey src instance := now]> (f_last f)) (f_maxAge f).
Definition Active (f : Freshness) : bool := bool_decide (f_last f ≠ ∅).

Definition stale_entry (now : Z) (f : Freshness) (e : runes * Z) : option (runes * Z * Z) :=
  let maxAge := default 0%Z (f_maxAge f !! e.1) in
  if (maxAge <=? 0)%Z then None
  else if (maxAge <? now - e.2)%Z then Some (e.1, (now - e.2) / Minute * Minute, maxAge)%Z else None.
(** The stale instances with the age and window of their message. *)
Definition Stale (now : Z) (f : Freshness) : list (runes * Z * Z) := omap (stale_entry now f) (map_to_list (f_last f)).

Definition FreshnessWindow (interval : Z) : Z := (3 * (if interval <=? 0 then 15 * Minute else interval))%Z.

(** The health check passes. *)
Definition FreshnessCheck (now : Z) (f : Freshness) : bool := bool_decide (Stale now f = []).

(** ** The qBittorrent poller ([sources/qbpoller]) *)

Record qbTorrent := mkQB { qb_Hash : runes; qb_Name : runes; qb_Category : runes; qb_State : runes; qb_json : bytes }.

(** [hex.DecodeString] of 40 digits. *)
Definition decode_hash (s : runes) : option bytes :=
  match Protocol.hex_decode s with Ok b => if bool_decide (length b = 20%nat) then Some b else None | _ => None end.

Definition private_category (cat : runes) : bool := bool_decide (cat ∈ private_categories).

Definition trim_lower (s : runes) : runes := TrimSpace (ToLower <$> s).

Definition torrentToEvidence (instance : runes) (t : qbTorrent) (now : Z) : option Evidence :=
  let cat := trim_lower (qb_Category t) in
  if bool_decide (cat = []) then None
  else
    ih ← decode_hash (qb_Hash t);
    let strength := if private_category cat then StrengthQBCategoryPrivate else StrengthQBCategoryPublic in
    Some (mkEvidence SourceQBittorrent KindPollCategories instance (qb_Hash t) [] ih (qb_Name t) "" [] cat now strength (qb_json t) []).

(** [time.RFC3339] in UTC; seconds count from the year 1970. *)
Definition unix_epoch : Z := Dates.days_of 1970 1 1 * 86400.
Definition format_rfc3339 (ns : Z) : runes :=
  let sec := (ns / 1000000000)%Z in
  let day := (sec mod 86400)%Z in
  Dates.format_date (Dates.mkTime (sec + unix_epoch) 0) ++ runes_of "T" ++ Dates.appendInt 2 (day / 3600)
  ++ runes_of ":" ++ Dates.appendInt 2 (day / 60 mod 60) ++ runes_of ":" ++ Dates.appendInt 2 (day mod 60) ++ runes_of "Z".
Definition bucket (now : Z) : runes := format_rfc3339 (now / Minute * Minute).

Definition torrentToStateEvidence (instance : runes) (t : qbTorrent) (now : Z) : option Evidence :=
  let class := ClassifyQBState (qb_State t) in
  if bool_decide (class = QBStateClassIgnore) then None
  else
    ih ← decode_hash (qb_Hash t);
    let objectID := runes_of "state:" ++ qb_Hash t ++ runes_of ":" ++ bucket now in
    let strength := if bool_decide (class = QBStateClassSuspect) then StrengthQBStateSuspect else StrengthQBStateAlive in
    Some (mkEvidence SourceQBittorrent KindQBStateObservation instance objectID [] ih (qb_Name t) "" []
            (trim_lower (qb_Category t)) now strength (qb_json t) (qb_State t)).

(** What happens outside during a cycle: the clock and the failures of the
    store at each insertion of the torrent's category and state. *)
Record qbInput := mkQBInput { q_torrent : qbTorrent; q_now : Z; q_fails_category : stage → bool; q_fails_state : stage → bool }.

(** The evidence that a torrent of the listing yields, in order. *)
Definition qb_evidence (instance : runes) (emitStateEvents : bool) (now : Z) (q : qbInput) : list ((stage → bool) * Evidence) :=
  ((q_fails_category q,.) <$> option_list (torrentToEvidence instance (q_torrent q) (q_now q)))
  ++ (if emitStateEvents then (q_fails_state q,.) <$> option_list (torrentToStateEvidence instance (q_torrent q) now) else []).

Definition insert_all (es : list ((stage → bool) * Evidence)) (d : db) : db := foldl (λ d p, (Insert p.1 p.2 d).1) d es.

Section retain.
Context `{Metainfo.Torrent} (export : bytes → option bytes).

(** [retainOne]: the metadata of a torrent that the client holds, verified
    against its hash. *)
Definition retainOne (fails : bool) (h : bytes) (d : db) : db :=
  match export h with
  | None => d
  | Some torrent =>
      match Metainfo.ParseTorrentFileInfo h torrent with
      | Ok info =>
          if bool_decide (Metainfo.info_Private info = Some true) then d
          else (SavePieces fails h (Metainfo.PieceLength info) (Metainfo.info_Pieces info) d).1
      | _ => d
      end
  end.

Definition retainPieces (fails : bool) (fails_save : bytes → bool) (ts : list qbTorrent) (d : db) : db :=
  match MissingPieces fails (omap (decode_hash ∘ qb_Hash) ts) d with
  | Ok missing => foldl (λ d h, retainOne (fails_save h) h d) d missing
  | _ => d
  end.

(** A cycle of the poller on a listing; no listing when the client cannot be
    made, its login fails or the listing fails. *)
Definition qb_pollOnce (instance : runes) (emitStateEvents : bool) (now : Z) (listing : option (list qbInput)) (fails : bool)
    (fails_save : bytes → bool) (s : db * Freshness) : db * Freshness :=
  match listing with
  | None => s
  | Some qs =>
      (retainPieces fails fails_save (q_torrent <$> qs) (insert_all (qs ≫= qb_evidence instance emitStateEvents now) s.1),
       MarkSuccess SourceQBittorrent instance now s.2)
  end.
End retain.

(** ** The *arr poller ([sources/arrpoller]) *)

Record arrHistoryEntry := mkEntry {
  h_ID : Z; h_Date : Z; h_DownloadID : runes; h_SourceTitle : runes; h_MovieID : Z; h_SeriesID : Z; h_ArtistID : Z; h_AuthorID : Z;
  h_json : bytes }.

Definition local_id (prefix : string) (n : Z) : runes := if (n =? 0)%Z then [] else runes_of prefix ++ Itoa n.
Definition entry_mediaID (e : arrHistoryEntry) (src : string) : runes :=
  if bool_decide (src = SourceRadarr) then local_id "radarr:" (h_MovieID e)
  else if bool_decide (src = SourceSonarr) then local_id "sonarr:" (h_SeriesID e)
  else if bool_decide (src = SourceReadarr) then local_id "readarr:" (h_AuthorID e)
  else if bool_decide (src = SourceLidarr) then local_id "lidarr:" (h_ArtistID e)
  else [].

Definition arr_media_type (src : string) : string :=
  if bool_decide (src = SourceSonarr) then "tv"
  else if bool_decide (src = SourceRadarr) then "movie"
  else if bool_decide (src = SourceReadarr) then "book"
  else if bool_decide (src = SourceLidarr) then "music"
  else "".

Definition entryToEvidence (kind : string) (instance : runes) (eventType : string) (e : arrHistoryEntry) : option Evidence :=
  strength ← if bool_decide (eventType = "grabbed") then Some StrengthArrPollGrab
             else if bool_decide (eventType = "downloadFolderImported") then Some StrengthArrPollImport
             else None;
  let ih := if bool_decide (length (h_DownloadID e) = 40%nat) then default [] (decode_hash (ToLower <$> h_DownloadID e)) else [] in
  Some (mkEvidence kind KindPollHistory instance (runes_of eventType ++ runes_of ":" ++ Itoa (h_ID e)) (ToLower <$> h_DownloadID e)
          ih (h_SourceTitle e) (arr_media_type kind) (entry_mediaID e kind) [] (h_Date e) strength (h_json e) []).

(** A cycle: the history of both event types, absent where its request fails;
    the instance counts as fresh when both succeed. *)
Definition arr_evidence (kind : string) (instance : runes) (eventType : string) (entries : list ((stage → bool) * arrHistoryEntry)) :
    list ((stage → bool) * Evidence) :=
  omap (λ p, (p.1,.) <$> entryToEvidence kind instance eventType p.2) entries.
Definition arr_pollOnce (kind : string) (instance : runes) (now : Z) (grabbed imported : option (list ((stage → bool) * arrHistoryEntry)))
    (s : db * Freshness) : db * Freshness :=
  let d := match grabbed with Some l => insert_all (arr_evidence kind instance "grabbed" l) s.1 | None => s.1 end in
  let d := match imported with Some l => insert_all (arr_evidence kind instance "downloadFolderImported" l) d | None => d end in
  (d, if bool_decide (is_Some grabbed) && bool_decide (is_Some imported) then MarkSuccess kind instance now s.2 else s.2).

(** ** The *arr webhook ([sources/arrwebhook]) *)

Record arrPayload := mkPayload {
  a_ApplicationName : runes; a_EventType : runes; a_InstanceName : runes; a_DownloadID : runes; a_ReleaseTitle : runes;
  a_MovieID : Z; a_MovieTitle : runes; a_TmdbID : Z; a_SeriesID : Z; a_SeriesTitle : runes; a_TvdbID : Z; a_Episodes : list Z }.

(** [itoaCompact]; the least integer has no opposite and loses its digits. *)
Definition itoaCompact (n : Z) : runes := if (n =? - 2 ^ 63)%Z then runes_of "-" else Itoa n.

Fixpoint join_parts (sep : runes) (l : list runes) : runes :=
  match l with [] => [] | [x] => x | x :: l => x ++ sep ++ join_parts sep l end.

Definition eventID (p : arrPayload) : runes :=
  join_parts (runes_of "|")
    ([a_EventType p]
     ++ (if bool_decide (a_DownloadID p ≠ []) then [a_DownloadID p]
         else if bool_decide (a_ReleaseTitle p ≠ []) then [runes_of "release:" ++ a_ReleaseTitle p] else [])
     ++ (if (a_MovieID p =? 0)%Z then [] else [runes_of "movie"])
     ++ (if (a_SeriesID p =? 0)%Z then [] else [runes_of "series"])
     ++ ((λ n, runes_of "ep" ++ itoaCompact n) <$> a_Episodes p)).

Definition bestTitle (p : arrPayload) : runes :=
  if bool_decide (a_ReleaseTitle p ≠ []) then a_ReleaseTitle p
  else if bool_decide (a_MovieTitle p ≠ []) then a_MovieTitle p
  else a_SeriesTitle p.

Definition payload_mediaID (p : arrPayload) : runes :=
  if negb (a_TmdbID p =? 0)%Z then runes_of "tmdb:" ++ itoaCompact (a_TmdbID p)
  else if negb (a_TvdbID p =? 0)%Z then runes_of "tvdb:" ++ itoaCompact (a_TvdbID p)
  else if negb (a_MovieID p =? 0)%Z then runes_of "radarr:" ++ itoaCompact (a_MovieID p)
  else if negb (a_SeriesID p =? 0)%Z then runes_of "sonarr:" ++ itoaCompact (a_SeriesID p)
  else [].

Definition decodeHexOrNil (s : runes) : bytes := if bool_decide (length s = 40%nat) then default [] (decode_hash s) else [].

Definition deriveApp (instance : runes) (p : arrPayload) : runes :=
  let fix first (l : list runes) : runes :=
    match l with [] => [] | v :: l => if bool_decide (TrimSpace v ≠ []) then TrimSpace v else first l end in
  first [instance; a_InstanceName p; a_ApplicationName p].

Definition arr_sources : list string := [SourceSonarr; SourceRadarr; SourceReadarr; SourceLidarr].

Definition classifyEvent (app event : runes) : option (string * string * string * Z) :=
  '(_, src) ← list_find (λ s, (ToLower <$> app) = runes_of s) arr_sources;
  if bool_decide (event = runes_of "Grab") then Some (src, KindWebhookGrab, arr_media_type src, StrengthArrWebhookGrab)
  else if bool_decide (event ∈ [runes_of "Download"; runes_of "DownloadFolderImported"])
  then Some (src, KindWebhookImport, arr_media_type src, StrengthArrWebhookImport)
  else None.

Definition payload_evidence (instance : runes) (now : Z) (body : bytes) (p : arrPayload) : option Evidence :=
  '(src, kind, mediaType, strength) ← classifyEvent (deriveApp instance p) (a_EventType p);
  Some (mkEvidence src kind instance (eventID p) (ToLower <$> a_DownloadID p) (decodeHexOrNil (a_DownloadID p)) (bestTitle p)
          mediaType (payload_mediaID p) [] now strength body []).

(** The answers of the endpoint, with their status codes. *)
Inductive reply := Unauthorized | BadRequest | Ignored | Duplicate | NoJoinKey | StoreError | Accepted.
Definition status_code (r : reply) : Z :=
  match r with Unauthorized => 401 | BadRequest => 400 | StoreError => 500 | _ => 200 end.

(** [handle]: the body and the payload decoded from it, absent where reading
    or decoding fails. *)
Definition handle (secret : bytes) (given : bytes) (instance : runes) (now : Z) (body : option (bytes * arrPayload)) (fails : stage → bool)
    (d : db) : db * reply :=
  if bool_decide (secret ≠ []) && bool_decide (given ≠ secret) then (d, Unauthorized)
  else
    match body with
    | None => (d, BadRequest)
    | Some (raw, p) =>
        match payload_evidence instance now raw p with
        | None => (d, Ignored)
        | Some e =>
            match Insert fails e d with
            | (d', None) => (d', Accepted)
            | (d', Some ErrDuplicate) => (d', Duplicate)
            | (d', Some ErrNotUsable) => (d', NoJoinKey)
            | (d', Some ErrDatabase) => (d', StoreError)
            end
        end
    end.
End evidence.

(** ** Steps of the tables *)

Inductive dbstep : db → db → Prop :=
| step_insert fails e d : dbstep d (Insert fails e d).1
| step_pieces fails h n p d : dbstep d (SavePieces fails h n p d).1.

Lemma insert_all_steps es d : rtc dbstep d (insert_all es d).
Proof.
  revert d. induction es as [|[f e] es IH]; intros d; [done|].
  eapply rtc_l; [apply (step_insert f e)|]. apply IH.
Qed.

Lemma retain_steps `{Metainfo.Torrent} export (hs : list bytes) fails d :
  rtc dbstep d (foldl (λ d h, retainOne export (fails h) h d) d hs).
Proof.
  revert d. induction hs as [|h hs IH]; intros d; [done|]. simpl. etrans; [|apply IH].
  unfold retainOne. destruct (export h) as [t|]; [|done]. destruct (Metainfo.ParseTorrentFileInfo h t) as [info| |]; try done.
  destruct (bool_decide _); [done|]. apply rtc_once, step_pieces.
Qed.

Lemma qb_pollOnce_steps `{Unicode} `{Metainfo.Torrent} export i emit now listing fails fs s :
  rtc dbstep s.1 (qb_pollOnce export i emit now listing fails fs s).1.
Proof.
  destruct listing as [qs|]; [|done]. cbn [qb_pollOnce fst]. etrans; [apply insert_all_steps|].
  unfold retainPieces. destruct (MissingPieces _ _ _); [apply retain_steps|done|done].
Qed.

Lemma arr_pollOnce_steps `{Unicode} kind i now g m s : rtc dbstep s.1 (arr_pollOnce kind i now g m s).1.
Proof.
  unfold arr_pollOnce. cbn [fst].
  destruct g as [g|], m as [m|]; cbn beta iota; first [done | apply insert_all_steps | idtac].
  etrans; apply insert_all_steps.
Qed.

Lemma handle_steps `{Unicode} secret given i now body fails d : rtc dbstep d (handle secret given i now body fails d).1.
Proof.
  unfold handle. destruct (_ && _); [done|]. destruct body as [[raw p]|]; [|done].
  destruct (payload_evidence i now raw p) as [e|]; [|done].
  pose proof (step_insert fails e d) as Hs. destruct (Insert fails e d) as [d' [[]|]]; by apply rtc_once.
Qed.

(** ** Insertion *)

(** The rows that label an info hash. *)
Definition labels_hash (h : bytes) (r : LabelRow) : Prop := l_info_hash r = Some h ∧ isLabelBearing (l_source_kind r) = true.
#[export] Instance labels_hash_dec h r : Decision (labels_hash h r).
Proof. unfold labels_hash. apply _. Defined.
Definition candidates (h : bytes) (d : db) : list LabelRow := filter (labels_hash h) (label_evidence d).

Definition canonical_row (r : LabelRow) : CanonicalRow :=
  mkCanonicalRow (l_media_type r) (l_media_id r) (l_category r) (l_title r) (l_id r) (l_source r) (l_strength r) (l_observed_at r).

Lemma canonical_of_row id e : canonical_row (row_of id e) = canonical_of id e.
Proof. done. Qed.

(** The outcomes of an insertion: nothing but the sequence moves, or the row
    is appended and the label updated. *)
Lemma Insert_inv fails e d :
  ((Insert fails e d).2 ≠ None ∧ label_evidence (Insert fails e d).1 = label_evidence d
   ∧ canonical_labels (Insert fails e d).1 = canonical_labels d ∧ (next_id d ≤ next_id (Insert fails e d).1)%Z)
  ∨ ((Insert fails e d).2 = None ∧ label_evidence (Insert fails e d).1 = label_evidence d ++ [row_of (next_id d) e]
     ∧ (∀ r, r ∈ label_evidence d → row_key r ≠ evidence_key e)
     ∧ next_id (Insert fails e d).1 = (next_id d + 1)%Z
     ∧ canonical_labels (Insert fails e d).1 =
         if bool_decide (e_InfoHash e ≠ []) && isLabelBearing (e_Kind e)
         then upsert_canonical (e_InfoHash e) (canonical_of (next_id d) e) (canonical_labels d) else canonical_labels d).
Proof.
  unfold Insert. destruct (bool_decide (e_InfoHash e = []) && _); [left; cbn; by repeat split|].
  destruct (fails AcquirePool || fails BeginTx); [left; cbn; by repeat split|].
  destruct (fails InsertRow); [left; cbn; repeat split; try done; lia|].
  destruct (existsb _ _) eqn:Ek; [left; cbn; repeat split; try done; lia|].
  destruct (_ && fails UpsertLabel || _); [left; cbn; repeat split; try done; lia|].
  right. cbn. repeat split; try done. intros r Hr Hk.
  apply (eq_true_false_abs _ (proj2 (existsb_exists _ _) (ex_intro _ r (conj (proj1 (list_elem_of_In _ _) Hr) (bool_decide_eq_true_2 _ Hk)))) Ek).
Qed.

Lemma Insert_keeps fails e d :
  torrents (Insert fails e d).1 = torrents d ∧ torrent_pieces (Insert fails e d).1 = torrent_pieces d.
Proof.
  unfold Insert. destruct (bool_decide (e_InfoHash e = []) && _); [done|].
  destruct (fails AcquirePool || fails BeginTx); [done|]. destruct (fails InsertRow); [done|]. destruct (existsb _ _); [done|].
  by destruct (_ && fails UpsertLabel || _).
Qed.

Lemma SavePieces_keeps fails h n p d :
  label_evidence (SavePieces fails h n p d).1 = label_evidence d ∧ canonical_labels (SavePieces fails h n p d).1 = canonical_labels d
  ∧ next_id (SavePieces fails h n p d).1 = next_id d ∧ torrents (SavePieces fails h n p d).1 = torrents d.
Proof. unfold SavePieces. destruct fails; [done|]. by destruct (torrents d !! h), (torrent_pieces d !! h). Qed.

Lemma evidence_append_only d d' : rtc dbstep d d' → label_evidence d `prefix_of` label_evidence d'.
Proof.
  induction 1 as [|d1 d2 d3 Hs _ IH]; [done|]. etrans; [|exact IH]. destruct Hs as [f e d|f h n p d].
  - destruct (Insert_inv f e d) as [(_ & -> & _)|(_ & -> & _)]; [done|]. by exists [row_of (next_id d) e].
  - by destruct (SavePieces_keeps f h n p d) as (-> & _).
Qed.

(** ** The winning label *)

Definition weaker (a b : CanonicalRow) : Prop :=
  (c_resolved_strength a < c_resolved_strength b)%Z
  ∨ c_resolved_strength a = c_resolved_strength b ∧ (c_resolved_at a < c_resolved_at b)%Z.

Lemma outranked_spec a b : outranked a b = true ↔ weaker a b.
Proof. unfold outranked, weaker. rewrite orb_true_iff, andb_true_iff, !Z.ltb_lt, Z.eqb_eq. done. Qed.

Lemma weaker_trans a b c : ¬ weaker b a → weaker b c → weaker a c.
Proof. unfold weaker. lia. Qed.

(** The first of the strongest of a list of rows. *)
Definition strongest (l : list LabelRow) (o : option CanonicalRow) : Prop :=
  match o with
  | None => l = []
  | Some c => ∃ l1 r l2, l = l1 ++ r :: l2 ∧ c = canonical_row r
                ∧ Forall (λ r', weaker (canonical_row r') c) l1 ∧ Forall (λ r', ¬ weaker c (canonical_row r')) l2
  end.

Lemma strongest_snoc l o r :
  strongest l o →
  strongest (l ++ [r]) (Some match o with None => canonical_row r | Some c => if outranked c (canonical_row r) then canonical_row r else c end).
Proof.
  destruct o as [c|]; simpl; [intros (l1 & r0 & l2 & -> & -> & H1 & H2)|intros ->].
  - destruct (outranked (canonical_row r0) (canonical_row r)) eqn:Er.
    + apply outranked_spec in Er. exists (l1 ++ r0 :: l2), r, []. do 2 (split; [done|]). split; [|done].
      apply Forall_app. split; [|constructor; [done|]].
      * eapply Forall_impl; [exact H1|]. intros x Hx. unfold weaker in *. lia.
      * eapply Forall_impl; [exact H2|]. intros x Hx. exact (weaker_trans _ _ _ Hx Er).
    + exists l1, r0, (l2 ++ [r]). split; [by rewrite <- app_assoc|]. do 2 (split; [done|]).
      apply Forall_app. split; [done|]. constructor; [|done]. intros Hw. apply outranked_spec in Hw. congruence.
  - exists [], r, []. do 2 (split; [done|]). by split.
Qed.

Definition labels_ok (d : db) : Prop := ∀ h, strongest (candidates h d) (canonical_labels d !! h).

Lemma labels_hash_row h id e :
  labels_hash h (row_of id e) ↔ e_InfoHash e = h ∧ e_InfoHash e ≠ [] ∧ isLabelBearing (e_Kind e) = true.
Proof.
  unfold labels_hash. cbn [l_info_hash l_source_kind row_of]. unfold nullableBytes.
  destruct (e_InfoHash e); split; [naive_solver|naive_solver| |]; intros ?; naive_solver.
Qed.

Lemma insert_labels_ok fails e d : labels_ok d → labels_ok (Insert fails e d).1.
Proof.
  intros Hok h. specialize (Hok h). unfold candidates in *.
  destruct (Insert_inv fails e d) as [(_ & -> & -> & _)|(_ & -> & _ & _ & ->)]; [done|].
  rewrite filter_app, filter_cons, filter_nil.
  destruct (decide (labels_hash h (row_of (next_id d) e))) as [Hl|Hl].
  - apply labels_hash_row in Hl as (<- & Hn & Hk). rewrite bool_decide_eq_true_2 by done. rewrite Hk. cbn [andb].
    apply (strongest_snoc _ _ (row_of (next_id d) e)) in Hok. rewrite canonical_of_row in Hok. unfold upsert_canonical.
    destruct (canonical_labels d !! e_InfoHash e) as [old|] eqn:Eo; [|by rewrite lookup_insert_eq].
    destruct (outranked old _); [by rewrite lookup_insert_eq|by rewrite Eo].
  - rewrite app_nil_r. destruct (bool_decide (e_InfoHash e ≠ []) && _) eqn:Eb; [|done].
    apply andb_true_iff in Eb as [Hn%bool_decide_eq_true Hk]. assert (Hh : e_InfoHash e ≠ h) by (intros <-; apply Hl, labels_hash_row; done).
    unfold upsert_canonical. destruct (canonical_labels d !! e_InfoHash e) as [old|]; [|by rewrite lookup_insert_ne].
    destruct (outranked old _); [by rewrite lookup_insert_ne|done].
Qed.

Lemma steps_labels_ok d d' : rtc dbstep d d' → labels_ok d → labels_ok d'.
Proof.
  induction 1 as [|d1 d2 d3 Hs _ IH]; [done|]. intros Hok. apply IH. destruct Hs as [f e d|f h n p d]; [by apply insert_labels_ok|].
  intros x. specialize (Hok x). unfold candidates in *. by destruct (SavePieces_keeps f h n p d) as (-> & -> & _).
Qed.

(** Tables before any evidence. *)
Definition no_evidence (ts : gmap bytes TorrentRow) (ps : gmap bytes PiecesRow) : db := mkDb [] 1 ∅ ts ps.

(** C13: whatever the pollers, the webhook and the retention of pieces do, in
    any order and with any failure of the database, the canonical label of an
    info hash is the first inserted of the strongest, and among those the most
    recent, of the evidence rows that carry a label for it; there is no label
    exactly when there is no such row. *)
Theorem canonical_label_strongest ts ps d h :
  rtc dbstep (no_evidence ts ps) d →
  match canonical_labels d !! h with
  | None => candidates h d = []
  | Some c => ∃ l1 r l2, candidates h d = l1 ++ r :: l2 ∧ c = canonical_row r
                ∧ Forall (λ r', weaker (canonical_row r') c) l1 ∧ Forall (λ r', ¬ weaker c (canonical_row r')) l2
  end.
Proof. intros Hs. apply (steps_labels_ok _ _ Hs). intros x. done. Qed.

(** ** Order *)

Definition no_fault : stage → bool := λ _, false.
Definition usable (e : Evidence) : Prop := e_InfoHash e ≠ [] ∨ e_DownloadID e ≠ [].
Definition labels_for (h : bytes) (e : Evidence) : Prop := e_InfoHash e = h ∧ h ≠ [] ∧ isLabelBearing (e_Kind e) = true.
Definition rank_below (a b : Evidence) : Prop := weaker (canonical_of 0 a) (canonical_of 0 b).

Lemma Insert_fresh e d :
  usable e → (∀ r, r ∈ label_evidence d → row_key r ≠ evidence_key e) →
  (Insert no_fault e d).2 = None ∧ label_evidence (Insert no_fault e d).1 = label_evidence d ++ [row_of (next_id d) e].
Proof.
  intros Hu Hf. unfold Insert, no_fault. cbn [orb].
  assert (bool_decide (e_InfoHash e = []) && bool_decide (e_DownloadID e = []) = false) as ->.
  { apply andb_false_iff. rewrite !bool_decide_eq_false. destruct Hu; auto. }
  destruct (existsb _ _) eqn:Ek; [exfalso|].
  - apply existsb_exists in Ek as (r & Hr%list_elem_of_In & Hk%bool_decide_eq_true). by apply (Hf r).
  - rewrite andb_false_r. done.
Qed.

Lemma Insert_present fails e d :
  usable e → fails AcquirePool = false → fails BeginTx = false → fails InsertRow = false →
  (∃ r, r ∈ label_evidence d ∧ row_key r = evidence_key e) → Insert fails e d = (skip_id d, Some ErrDuplicate).
Proof.
  intros Hu H1 H2 H3 (r & Hr & Hk). unfold Insert. rewrite H1, H2, H3. cbn [orb].
  assert (bool_decide (e_InfoHash e = []) && bool_decide (e_DownloadID e = []) = false) as ->.
  { apply andb_false_iff. rewrite !bool_decide_eq_false. destruct Hu; auto. }
  assert (existsb (λ r, bool_decide (row_key r = evidence_key e)) (label_evidence d) = true) as ->; [|done].
  apply existsb_exists. exists r. split; [by apply list_elem_of_In|by apply bool_decide_eq_true_2].
Qed.

Lemma insert_all_rows es d :
  Forall usable es → NoDup (evidence_key <$> es) →
  (∀ r e, r ∈ label_evidence d → e ∈ es → row_key r ≠ evidence_key e) →
  ∃ rows, label_evidence (insert_all ((no_fault,.) <$> es) d) = label_evidence d ++ rows
    ∧ Forall2 (λ e r, ∃ id, r = row_of id e) es rows.
Proof.
  revert d. induction es as [|e es IH]; intros d Hu Hn Hf; [exists []; by rewrite app_nil_r|].
  apply Forall_cons in Hu as [Hu Hus]. rewrite fmap_cons in Hn. apply NoDup_cons in Hn as [Hne Hn].
  destruct (Insert_fresh e d Hu) as [_ Hr]; [intros r Hr; apply Hf; [done|by left]|].
  destruct (IH (Insert no_fault e d).1 Hus Hn) as (rows & Hrows & Hall).
  { intros r e' Hin He'. rewrite Hr, elem_of_app, list_elem_of_singleton in Hin. destruct Hin as [Hin| ->]; [apply Hf; [done|by right]|].
    intros Hk. apply Hne. change (row_key (row_of (next_id d) e)) with (evidence_key e) in Hk. rewrite Hk. by apply list_elem_of_fmap_2. }
  exists (row_of (next_id d) e :: rows). split; [|constructor; [by exists (next_id d)|done]].
  change (insert_all ((no_fault,.) <$> e :: es) d) with (insert_all ((no_fault,.) <$> es) (Insert no_fault e d).1).
  by rewrite Hrows, Hr, <- app_assoc.
Qed.

Lemma weaker_irrefl c : ¬ weaker c c.
Proof. unfold weaker. lia. Qed.

Lemma rank_below_rows i j a b : rank_below a b ↔ weaker (canonical_of i a) (canonical_of j b).
Proof. done. Qed.

(** evidence may arrive in any order.  Of a set of distinct pieces of
    evidence stored without a failure, the one that outranks every other piece
    that labels an info hash makes its canonical label. *)
Theorem evidence_order_free ts ps es e h :
  Forall usable es → NoDup (evidence_key <$> es) → e ∈ es → labels_for h e →
  (∀ e', e' ∈ es → labels_for h e' → e' ≠ e → rank_below e' e) →
  ∃ id, canonical_labels (insert_all ((no_fault,.) <$> es) (no_evidence ts ps)) !! h = Some (canonical_of id e).
Proof.
  intros Hu Hn He Hl Hmax. destruct (insert_all_rows es (no_evidence ts ps) Hu Hn) as (rows & Hrows & Hall).
  { intros r e' Hr. by apply not_elem_of_nil in Hr. }
  set (d := insert_all _ _) in *. cbn [label_evidence no_evidence app] in Hrows.
  assert (Hok : labels_ok d) by (apply (steps_labels_ok (no_evidence ts ps)); [apply insert_all_steps|by intros x]).
  specialize (Hok h). unfold candidates in Hok. rewrite Hrows in Hok.
  apply list_elem_of_lookup in He as [i Hi]. destruct (Forall2_lookup_l _ _ _ _ _ Hall Hi) as (r & Hri & id & ->).
  assert (Hin : row_of id e ∈ filter (labels_hash h) rows).
  { apply list_elem_of_filter. split; [|by eapply list_elem_of_lookup_2]. apply labels_hash_row. destruct Hl as (<- & ? & ?). done. }
  destruct (canonical_labels d !! h) as [c|]; cbn [strongest] in Hok; [|rewrite Hok in Hin; by apply not_elem_of_nil in Hin].
  destruct Hok as (l1 & r & l2 & Hsplit & -> & H1 & H2).
  assert (Hr : r ∈ filter (labels_hash h) rows) by (rewrite Hsplit; apply elem_of_app; right; left).
  apply list_elem_of_filter in Hr as [Hlr Hr]. apply list_elem_of_lookup in Hr as [j Hj].
  destruct (Forall2_lookup_r _ _ _ _ _ Hall Hj) as (e' & He' & id' & ->). exists id'. f_equal.
  apply labels_hash_row in Hlr as (Hh' & Hne' & Hk').
  destruct (decide (evidence_key e' = evidence_key e)) as [Hk|Hk].
  { assert (i = j) as ->; [|rewrite Hi in He'; by injection He' as ->].
    eapply (NoDup_lookup (evidence_key <$> es)); [done|rewrite list_lookup_fmap, Hi; reflexivity|rewrite list_lookup_fmap, He'; simpl; by rewrite Hk]. }
  assert (Hb : rank_below e' e).
  { apply Hmax; [by eapply list_elem_of_lookup_2| |by intros ->]. split; [done|]. split; [|done]. by rewrite <- Hh'. }
  exfalso. rewrite Hsplit, elem_of_app, elem_of_cons in Hin. rewrite Forall_forall in H1, H2. destruct Hin as [Hin|[Heq|Hin]].
  - specialize (H1 _ Hin). unfold rank_below, weaker in *. cbn in *. lia.
  - apply Hk. change (row_key (row_of id' e') = row_key (row_of id e)). by rewrite Heq.
  - by apply (H2 _ Hin).
Qed.

(** ** The webhook *)

Lemma payload_evidence_key `{Unicode} i now now' raw p :
  evidence_key <$> payload_evidence i now raw p = evidence_key <$> payload_evidence i now' raw p.
Proof. unfold payload_evidence. by destruct (classifyEvent _ _) as [[[[] ] ]|]. Qed.

Lemma Insert_stored fails e d : (Insert fails e d).2 = None → ∃ r, r ∈ label_evidence (Insert fails e d).1 ∧ row_key r = evidence_key e.
Proof.
  destruct (Insert_inv fails e d) as [(? & _)|(_ & -> & _)]; [done|]. intros _. exists (row_of (next_id d) e).
  split; [apply elem_of_app; right; by left|done].
Qed.

Lemma Insert_stored_usable fails e d : (Insert fails e d).2 = None → usable e.
Proof.
  unfold Insert, usable. destruct (bool_decide (e_InfoHash e = [])) eqn:E1; [|intros _; left; by apply bool_decide_eq_false in E1].
  destruct (bool_decide (e_DownloadID e = [])) eqn:E2; [done|intros _; right; by apply bool_decide_eq_false in E2].
Qed.

(** a delivery of the webhook that was accepted is answered as a duplicate
    when it is delivered again, at any later time and after any other evidence,
    and then changes neither table. *)
Theorem webhook_retry `{Unicode} secret given i now raw p fails d :
  (handle secret given i now (Some (raw, p)) fails d).2 = Accepted →
  ∀ now' d', rtc dbstep (handle secret given i now (Some (raw, p)) fails d).1 d' →
  handle secret given i now' (Some (raw, p)) no_fault d' = (skip_id d', Duplicate).
Proof.
  unfold handle. destruct (bool_decide (secret ≠ []) && _) eqn:Es; [done|].
  destruct (payload_evidence i now raw p) as [e|] eqn:Ee; [|done]. intros Ha now' d' Hs.
  assert (Hi : (Insert fails e d).2 = None) by (destruct (Insert fails e d) as [x [[]|]]; done).
  assert (Hs' : rtc dbstep (Insert fails e d).1 d') by (destruct (Insert fails e d) as [x [[]|]]; done).
  pose proof (payload_evidence_key i now now' raw p) as Hk. rewrite Ee in Hk.
  destruct (payload_evidence i now' raw p) as [e'|] eqn:Ee'; [|done]. injection Hk as Hk1 Hk2 Hk3 Hk4.
  rewrite (Insert_present no_fault e' d'); [done| |done..|].
  - pose proof (Insert_stored_usable _ _ _ Hi) as Hu. revert Ee Ee' Hu. unfold payload_evidence.
    destruct (classifyEvent _ _) as [[[[a b] c] s]|]; [|done]. intros [= <-] [= <-]. done.
  - destruct (Insert_stored _ _ _ Hi) as (r & Hr & Hrk). apply evidence_append_only in Hs' as [more Hm]. exists r. split.
    + rewrite Hm. apply elem_of_app. by left.
    + rewrite Hrk. unfold evidence_key. by rewrite Hk1, Hk2, Hk3, Hk4.
Qed.

(** ** Privacy *)

Lemma TagWhitespace_spec r : r ∈ TagWhitespace ↔ IsSpace r = true.
Proof.
  unfold TagWhitespace, NamePolicy.TagWhitespace, IsSpace. rewrite !elem_of_cons, elem_of_nil, !orb_true_iff, !andb_true_iff, !Z.leb_le, !Z.eqb_eq. lia.
Qed.

Lemma ltrim_space s : ltrim TagWhitespace s = trim_left s.
Proof.
  induction s as [|r s IH]; [done|]. cbn [ltrim trim_left]. destruct (IsSpace r) eqn:E.
  - rewrite bool_decide_eq_true_2 by by apply TagWhitespace_spec. done.
  - rewrite bool_decide_eq_false_2; [done|]. rewrite TagWhitespace_spec. congruence.
Qed.

Lemma btrim_space s : btrim TagWhitespace s = TrimSpace s.
Proof. unfold btrim, TrimSpace. by rewrite !ltrim_space. Qed.

Lemma sql_normal_trim `{Unicode} s : sql_normal s = lower_trim s.
Proof. unfold sql_normal, lower_trim. by rewrite btrim_space. Qed.

Lemma forallb_reverse {A} (f : A → bool) l : forallb f (rev l) = forallb f l.
Proof. induction l as [|x l IH]; [done|]. simpl. rewrite forallb_app, IH. simpl. rewrite andb_true_r. apply andb_comm. Qed.

(** A text of lower-case letters is its own normal form. *)
Lemma lower_trim_letters `{UnicodeLaws} s : forallb ascii_lower s = true → lower_trim s = s.
Proof.
  intros Hs. assert (Hsp : ∀ l, forallb ascii_lower l = true → trim_left l = l).
  { intros [|r l]; [done|]. cbn [forallb trim_left]. intros [Hr _]%andb_true_iff.
    assert (IsSpace r = false) as ->; [|done]. unfold ascii_lower in Hr. bool_hyps. apply not_true_iff_false.
    rewrite <- TagWhitespace_spec. unfold TagWhitespace, NamePolicy.TagWhitespace. rewrite !elem_of_cons, elem_of_nil. lia. }
  unfold lower_trim, TrimSpace. rewrite (Hsp s) by done.
  rewrite (Hsp (rev s)), rev_involutive; [|by rewrite <- Hs; apply forallb_reverse].
  clear Hsp. induction s as [|r s IH]; [done|]. cbn [forallb] in Hs. apply andb_true_iff in Hs as [Hr Hs].
  rewrite fmap_cons, IH by done. f_equal. unfold ascii_lower in Hr. bool_hyps. rewrite ascii_ToLower by lia.
  unfold ascii_upper. by replace (r <=? 90)%Z with false by (symmetry; apply Z.leb_gt; lia); rewrite andb_false_r.
Qed.

Lemma private_categories_normal `{UnicodeLaws} c : c ∈ private_categories → sql_normal c = c.
Proof.
  intros Hc. rewrite sql_normal_trim. apply lower_trim_letters. unfold private_categories in Hc.
  rewrite !elem_of_cons in Hc. destruct Hc as [->|[->|Hc%elem_of_nil]]; done.
Qed.

Lemma qualified_sql n :
  qualified n (runes_of "bitgrab") =
  bool_decide (n = runes_of "bitgrab")
  || (bool_decide (take 7 n = runes_of "bitgrab") && bool_decide (take 1 (drop 7 n) ∈ [runes_of ":"; runes_of "/"; runes_of "-"; runes_of "_"])).
Proof.
  unfold qualified. change (length (runes_of "bitgrab")) with 7%nat. f_equal. f_equal.
  rewrite <- (Nat.add_0_r 7) at 1. rewrite <- lookup_drop. destruct (drop 7 n) as [|r l]; [done|]. cbn [take].
  apply bool_decide_ext. unfold tagSeparators. cbn. rewrite !elem_of_cons, !elem_of_nil. naive_solver.
Qed.

(** the privacy predicates that SQL evaluates are those of the Go code: a
    tag is private for the one exactly when it is for the other, and a category
    recorded for qBittorrent is private exactly when, trimmed and in lower case,
    it is one of the two private categories. *)
Theorem privacy_sql_equivalent `{UnicodeLaws} tag category :
  PrivacyTagSQL tag = PrivacyTag tag
  ∧ QBPrivacySQL SourceQBittorrent (nullableString category) = private_category (lower_trim category).
Proof.
  split.
  - unfold PrivacyTagSQL, PrivacyTag. by rewrite sql_normal_trim, qualified_sql.
  - unfold QBPrivacySQL. rewrite bool_decide_eq_true_2 by by rewrite sql_normal_trim; apply lower_trim_letters.
    destruct category as [|c l]; [done|]. cbn [nullableString andb]. by rewrite sql_normal_trim.
Qed.

Lemma private_row_of `{UnicodeLaws} h id e :
  e_Source e = SourceQBittorrent → e_InfoHash e = h → h ≠ [] → e_Category e ∈ private_categories → private_row h (row_of id e) = true.
Proof.
  intros Hs Hh Hn Hc. unfold private_row. apply andb_true_iff. split.
  - apply bool_decide_eq_true_2. cbn [l_info_hash row_of]. rewrite Hh. by destruct h.
  - unfold QBPrivacySQL. cbn [l_source l_category row_of]. rewrite Hs, bool_decide_eq_true_2 by (rewrite sql_normal_trim; by apply lower_trim_letters).
    destruct (e_Category e) as [|x c] eqn:Ec; [by vm_compute in Hc; apply elem_of_cons in Hc as [?|Hc%elem_of_cons]; [|destruct Hc as [?|?%elem_of_nil]]|].
    cbn [nullableString andb]. apply bool_decide_eq_true_2. by rewrite private_categories_normal.
Qed.

Definition is_private `{Unicode} (h : bytes) (d : db) : bool := existsb (private_row h) (label_evidence d).

Lemma private_steps `{Unicode} h d d' : rtc dbstep d d' → is_private h d = true → is_private h d' = true.
Proof. intros [l Hl]%evidence_append_only. unfold is_private. rewrite Hl, existsb_app. by intros ->. Qed.

(** ** What a poll of qBittorrent records *)

Definition category_key (i hash : runes) : string * string * runes * runes := (SourceQBittorrent, KindPollCategories, i, hash).
Definition state_key (i hash : runes) (now : Z) : string * string * runes * runes :=
  (SourceQBittorrent, KindQBStateObservation, i, runes_of "state:" ++ hash ++ runes_of ":" ++ bucket now).

Lemma Insert_fresh_ok fails e d :
  (∀ s, fails s = false) → usable e → (∀ r, r ∈ label_evidence d → row_key r ≠ evidence_key e) →
  label_evidence (Insert fails e d).1 = label_evidence d ++ [row_of (next_id d) e].
Proof.
  intros Hn Hu Hf. replace (Insert fails e d) with (Insert no_fault e d); [by apply Insert_fresh|].
  unfold Insert, no_fault. by rewrite !Hn.
Qed.

Lemma insert_all_app es es' d : insert_all (es ++ es') d = insert_all es' (insert_all es d).
Proof. unfold insert_all. apply foldl_app. Qed.

(** The keys that insertions add are those of what is inserted. *)
Lemma insert_all_keys es d r :
  r ∈ label_evidence (insert_all es d) → r ∈ label_evidence d ∨ ∃ p, p ∈ es ∧ row_key r = evidence_key p.2.
Proof.
  revert d. induction es as [|[f e] es IH]; intros d; [by left|].
  change (insert_all ((f, e) :: es) d) with (insert_all es (Insert f e d).1). intros [Hr|(p & Hp & Hk)]%IH.
  - destruct (Insert_inv f e d) as [(_ & Hl & _)|(_ & Hl & _)]; rewrite Hl in Hr; [by left|].
    apply elem_of_app in Hr as [Hr|Hr%list_elem_of_singleton]; [by left|]. right. exists (f, e). split; [by left|by rewrite Hr].
  - right. exists p. split; [by right|done].
Qed.

Section polls.
Context `{UnicodeLaws}.

Lemma qb_evidence_keys i emit now q p :
  p ∈ qb_evidence i emit now q →
  evidence_key p.2 = category_key i (qb_Hash (q_torrent q)) ∨ evidence_key p.2 = state_key i (qb_Hash (q_torrent q)) now.
Proof.
  unfold qb_evidence. rewrite elem_of_app. intros [Hp|Hp].
  - left. apply list_elem_of_fmap in Hp as (e & -> & He). unfold torrentToEvidence in He.
    destruct (bool_decide _); [by apply elem_of_nil in He|]. destruct (decode_hash _); [|by apply elem_of_nil in He].
    by apply list_elem_of_singleton in He as ->.
  - right. destruct emit; [|by apply elem_of_nil in Hp]. apply list_elem_of_fmap in Hp as (e & -> & He). unfold torrentToStateEvidence in He.
    destruct (bool_decide _); [by apply elem_of_nil in He|]. destruct (decode_hash _); [|by apply elem_of_nil in He].
    by apply list_elem_of_singleton in He as ->.
Qed.

Lemma state_key_inj i a b now : state_key i a now = state_key i b now → a = b.
Proof. unfold state_key. intros [= Hk]. by apply app_inv_tail in Hk. Qed.

Lemma qb_evidence_distinct i emit now q : NoDup (evidence_key ∘ snd <$> qb_evidence i emit now q).
Proof.
  unfold qb_evidence. destruct (torrentToEvidence i (q_torrent q) (q_now q)) as [a|] eqn:Ea; cbn [option_list fmap list_fmap app].
  - constructor; [|destruct emit; [|constructor]; destruct (torrentToStateEvidence _ _ _); [apply NoDup_singleton|constructor]].
    destruct emit; [|apply not_elem_of_nil]. destruct (torrentToStateEvidence i (q_torrent q) now) as [b|] eqn:Eb; [|apply not_elem_of_nil].
    cbn. rewrite list_elem_of_singleton. revert Ea Eb. unfold torrentToEvidence, torrentToStateEvidence.
    destruct (bool_decide _); [done|]. destruct (decode_hash _); [|done]. intros [= <-]. destruct (bool_decide _); [done|]. by intros [= <-].
  - destruct emit; [|constructor]. destruct (torrentToStateEvidence _ _ _); [apply NoDup_singleton|constructor].
Qed.

Lemma listing_distinct i emit now qs :
  NoDup ((λ q, qb_Hash (q_torrent q)) <$> qs) → NoDup (evidence_key ∘ snd <$> (qs ≫= qb_evidence i emit now)).
Proof.
  induction qs as [|q qs IH]; [constructor|]. rewrite fmap_cons, NoDup_cons. intros [Hq Hqs].
  rewrite bind_cons, fmap_app. apply NoDup_app. split; [apply qb_evidence_distinct|]. split; [|by apply IH].
  intros k Hk Hk'. apply list_elem_of_fmap in Hk as (p & -> & Hp), Hk' as (p' & Hpp & Hp').
  apply list_elem_of_bind in Hp' as (q' & Hp' & Hq'). apply Hq.
  replace (qb_Hash (q_torrent q)) with (qb_Hash (q_torrent q')); [exact (list_elem_of_fmap_2 (λ q, qb_Hash (q_torrent q)) qs q' Hq')|].
  apply qb_evidence_keys in Hp, Hp'. cbn [compose] in Hpp. unfold compose in Hpp.
  destruct Hp as [Hp|Hp], Hp' as [Hp'|Hp']; rewrite Hp, Hp' in Hpp; [by injection Hpp|done|done|]. by apply state_key_inj in Hpp.
Qed.
End polls.

(** An insertion that does not fail, of a key that is not in use, records its
    evidence. *)
Lemma insert_all_records es f e d :
  NoDup (evidence_key ∘ snd <$> es) → (f, e) ∈ es → (∀ s, f s = false) → usable e →
  (∀ r, r ∈ label_evidence d → row_key r ≠ evidence_key e) →
  ∃ id, row_of id e ∈ label_evidence (insert_all es d).
Proof.
  intros Hnd Hin Hf Hu Hfresh. apply list_elem_of_split in Hin as (es1 & es2 & ->). rewrite insert_all_app.
  set (d1 := insert_all es1 d). exists (next_id d1).
  change (insert_all ((f, e) :: es2) d1) with (insert_all es2 (Insert f e d1).1).
  destruct (evidence_append_only _ _ (insert_all_steps es2 (Insert f e d1).1)) as [l ->]. apply elem_of_app. left.
  rewrite Insert_fresh_ok; [apply elem_of_app; right; by left|done|done|].
  intros r Hr Hk. unfold d1 in Hr. apply insert_all_keys in Hr as [Hr|(p & Hp & Hkp)]; [by apply (Hfresh r)|].
  rewrite fmap_app, fmap_cons in Hnd. apply NoDup_app in Hnd as (_ & Hnd & _).
  apply (Hnd (evidence_key e)); [|by left]. rewrite <- Hk, Hkp. exact (list_elem_of_fmap_2 (evidence_key ∘ snd) es1 p Hp).
Qed.

Lemma decode_hash_nonempty s h : decode_hash s = Some h → h ≠ [].
Proof. unfold decode_hash. destruct (Protocol.hex_decode s) as [b| |]; [|done..]. by destruct (bool_decide_reflect (length b = 20%nat)); [|done]; intros [= <-] ->. Qed.

(** a torrent that the client lists with a private category is private from
    then on, whatever is recorded later, when its category is seen for the first
    time, or, while state observations are made, when its state is not one of
    the ignored ones and no observation of it was made in the same minute. *)
Theorem private_category_recorded `{UnicodeLaws} `{Metainfo.Torrent} export i emit now qs fails fs s q h :
  q ∈ qs → NoDup ((λ q, qb_Hash (q_torrent q)) <$> qs) →
  decode_hash (qb_Hash (q_torrent q)) = Some h → trim_lower (qb_Category (q_torrent q)) ∈ private_categories →
  (∀ st, q_fails_category q st = false ∧ q_fails_state q st = false) →
  (∀ r, r ∈ label_evidence s.1 → row_key r ≠ category_key i (qb_Hash (q_torrent q)))
  ∨ emit = true ∧ ClassifyQBState (qb_State (q_torrent q)) ≠ QBStateClassIgnore
    ∧ (∀ r, r ∈ label_evidence s.1 → row_key r ≠ state_key i (qb_Hash (q_torrent q)) now) →
  ∀ d, rtc dbstep (qb_pollOnce export i emit now (Some qs) fails fs s).1 d → IsPrivateInfoHash false h d = Ok true.
Proof.
  intros Hq Hnd Hh Hc Hf Hcase d Hs. pose proof (decode_hash_nonempty _ _ Hh) as Hne.
  unfold IsPrivateInfoHash. rewrite bool_decide_eq_false_2 by done. cbn [negb]. f_equal. apply (private_steps h _ _ Hs).
  cbn [qb_pollOnce fst]. set (d0 := insert_all _ _). apply (private_steps h d0).
  { unfold retainPieces. destruct (MissingPieces _ _ _); [apply retain_steps|done|done]. }
  assert (∃ f e, (f, e) ∈ qb_evidence i emit now q ∧ (∀ st, f st = false) ∧ e_InfoHash e = h ∧ e_Source e = SourceQBittorrent
            ∧ e_Category e ∈ private_categories ∧ ∀ r, r ∈ label_evidence s.1 → row_key r ≠ evidence_key e) as (f & e & Hin & Hfe & Hhe & Hse & Hce & Hfr).
  { destruct Hcase as [Hfr|(-> & Hst & Hfr)].
    - exists (q_fails_category q). unfold qb_evidence, torrentToEvidence.
      rewrite (bool_decide_eq_false_2 (trim_lower _ = [])) by (intros He; rewrite He in Hc; unfold private_categories in Hc; rewrite !elem_of_cons, elem_of_nil in Hc; naive_solver).
      rewrite Hh. cbn [mbind option_bind option_list fmap list_fmap app]. eexists. split; [by left|]. split; [apply Hf|]. by do 3 (split; [done|]).
    - exists (q_fails_state q). unfold qb_evidence, torrentToStateEvidence. rewrite (bool_decide_eq_false_2 (ClassifyQBState _ = _)) by done.
      rewrite Hh. cbn [mbind option_bind option_list fmap list_fmap]. eexists. split; [apply elem_of_app; right; by left|]. split; [apply Hf|]. by do 3 (split; [done|]). }
  destruct (insert_all_records (qs ≫= qb_evidence i emit now) f e s.1) as [id Hid]; [by apply listing_distinct| |done|left; by rewrite Hhe|done|].
  { apply list_elem_of_bind. by exists q. }
  apply existsb_exists. exists (row_of id e). split; [by apply list_elem_of_In|]. by apply private_row_of.
Qed.

(** ** A category that changes *)

Lemma Insert_seen fails e d :
  (∃ r, r ∈ label_evidence d ∧ row_key r = evidence_key e) →
  label_evidence (Insert fails e d).1 = label_evidence d ∧ canonical_labels (Insert fails e d).1 = canonical_labels d.
Proof.
  intros (r & Hr & Hk). destruct (Insert_inv fails e d) as [(_ & -> & -> & _)|(_ & _ & Hf & _)]; [done|]. exfalso. by apply (Hf r).
Qed.

(** a category is recorded once: while no state observations are made, a
    poll that lists torrents whose category was recorded before by the same
    instance changes neither the evidence nor the labels, whatever their
    categories are now. *)
Theorem category_change_unseen `{UnicodeLaws} i now qs d :
  Forall (λ q, ∃ r, r ∈ label_evidence d ∧ row_key r = category_key i (qb_Hash (q_torrent q))) qs →
  label_evidence (insert_all (qs ≫= qb_evidence i false now) d) = label_evidence d
  ∧ canonical_labels (insert_all (qs ≫= qb_evidence i false now) d) = canonical_labels d.
Proof.
  revert d. induction qs as [|q qs IH]; intros d; [done|]. rewrite Forall_cons. intros [(r & Hr & Hk) Hqs].
  rewrite bind_cons, insert_all_app.
  assert (Hd : label_evidence (insert_all (qb_evidence i false now q) d) = label_evidence d
               ∧ canonical_labels (insert_all (qb_evidence i false now q) d) = canonical_labels d).
  { unfold qb_evidence. rewrite app_nil_r. destruct (torrentToEvidence i (q_torrent q) (q_now q)) as [e|] eqn:Ee; [|done].
    apply Insert_seen. exists r. split; [done|]. rewrite Hk. revert Ee. unfold torrentToEvidence.
    destruct (bool_decide _); [done|]. destruct (decode_hash _); [|done]. by intros [= <-]. }
  destruct Hd as [Hl Hc]. destruct (IH (insert_all (qb_evidence i false now q) d)) as [-> ->]; [|done].
  eapply Forall_impl; [exact Hqs|]. intros x (r' & Hr' & Hk'). exists r'. split; [by rewrite Hl|done].
Qed.

(** ** The pieces that are kept *)

Section pieces.
Context `{Unicode} `{Metainfo.Torrent} (export : bytes → option bytes).

(** What a row of pieces is made of. *)
Definition verified (h : bytes) (p : PiecesRow) : Prop :=
  ∃ raw info, Metainfo.HashBytes raw = h ∧ Metainfo.Unmarshal_info raw = inr info
    ∧ Metainfo.info_Private info ≠ Some true ∧ p = mkPiecesRow (Metainfo.PieceLength info) (Metainfo.info_Pieces info).

Lemma ParseTorrentFileInfo_verified h t info :
  Metainfo.ParseTorrentFileInfo h t = Ok info → ∃ raw, Metainfo.HashBytes raw = h ∧ Metainfo.Unmarshal_info raw = inr info.
Proof.
  unfold Metainfo.ParseTorrentFileInfo, Metainfo.ParseMetaInfoBytes. destruct (Metainfo.Unmarshal_rawInfo t) as [?|raw]; [done|].
  destruct (_ <? _)%Z; [done|]. destruct (decide _) as [|Hh]; [done|]. destruct (Metainfo.Unmarshal_info raw) as [?|i'] eqn:Ei; [done|].
  destruct (Metainfo.validateInfo i') as [[]|]; [done|]. intros [= <-]. exists raw. split; [|done]. by apply dec_stable in Hh.
Qed.

Lemma SavePieces_pieces fails h n ps d h' :
  torrent_pieces (SavePieces fails h n ps d).1 !! h' = torrent_pieces d !! h'
  ∨ h' = h ∧ torrent_pieces (SavePieces fails h n ps d).1 !! h' = Some (mkPiecesRow n ps) ∧ torrent_pieces d !! h = None.
Proof.
  unfold SavePieces. destruct fails; [by left|]. destruct (torrents d !! h), (torrent_pieces d !! h) eqn:E; try by left.
  cbn [fst torrent_pieces]. destruct (decide (h' = h)) as [->|Hn]; [right; by rewrite lookup_insert_eq|left; by rewrite lookup_insert_ne].
Qed.

Lemma retain_pieces_rows (hs : list bytes) fails d h p :
  torrent_pieces (foldl (λ d h, retainOne export (fails h) h d) d hs) !! h = Some p →
  torrent_pieces d !! h = Some p ∨ h ∈ hs ∧ torrent_pieces d !! h = None ∧ verified h p.
Proof.
  revert d. induction hs as [|h0 hs IH]; intros d; [by left|]. simpl. intros [Hp|(Hin & Hn & Hv)]%IH; cycle 1.
  { destruct (torrent_pieces d !! h) as [p'|] eqn:E; [exfalso|right; split; [by right|done]].
    revert Hn. unfold retainOne. destruct (export h0) as [t|]; [|by rewrite E].
    destruct (Metainfo.ParseTorrentFileInfo h0 t) as [info| |]; [|by rewrite E..]. destruct (bool_decide _); [by rewrite E|].
    destruct (SavePieces_pieces (fails h0) h0 (Metainfo.PieceLength info) (Metainfo.info_Pieces info) d h) as [->|(-> & -> & ?)]; by rewrite ?E. }
  revert Hp. unfold retainOne. destruct (export h0) as [t|]; [|by left].
  destruct (Metainfo.ParseTorrentFileInfo h0 t) as [info| |] eqn:Ei; [|by left..]. destruct (bool_decide _) eqn:Eb; [by left|].
  destruct (SavePieces_pieces (fails h0) h0 (Metainfo.PieceLength info) (Metainfo.info_Pieces info) d h) as [->|(-> & -> & Hn)]; [by left|].
  intros [= <-]. right. split; [by left|]. split; [done|]. destruct (ParseTorrentFileInfo_verified _ _ _ Ei) as (raw & Hr & Hu).
  exists raw, info. do 2 (split; [done|]). split; [|done]. by apply bool_decide_eq_false in Eb.
Qed.
End pieces.

(** C31: after a poll, the piece hashes of a torrent are the ones stored before
    or new; new ones were read from metadata whose SHA-1 is the info hash and
    which is not marked private, and only for a torrent of the catalogue that is
    not private, that some *arr grabbed or imported, and for which neither the
    evidence recorded by this very poll nor a tag nor the label says private. *)
Theorem retained_pieces_verified `{Unicode} `{Metainfo.Torrent} export i emit now qs fails fs s h p :
  torrent_pieces (qb_pollOnce export i emit now (Some qs) fails fs s).1 !! h = Some p →
  torrent_pieces s.1 !! h = Some p
  ∨ verified h p ∧ torrent_pieces s.1 !! h = None
    ∧ ∃ t, let d := insert_all (qs ≫= qb_evidence i emit now) s.1 in
      torrents s.1 !! h = Some t ∧ t_private t = false ∧ is_private h d = false ∧ existsb PrivacyTagSQL (t_tags t) = false
      ∧ (∀ c cat, canonical_labels d !! h = Some c → c_category c = Some cat → sql_normal cat ∉ private_categories)
      ∧ ∃ r, r ∈ label_evidence d ∧ l_info_hash r = Some h ∧ l_source_kind r ∈ arr_kinds.
Proof.
  cbn [qb_pollOnce fst]. set (d := insert_all _ _).
  assert (Hkeep : torrents d = torrents s.1 ∧ torrent_pieces d = torrent_pieces s.1).
  { unfold d. generalize (qs ≫= qb_evidence i emit now) as es. intros es. clear d. generalize s.1 as d.
    induction es as [|[f e] es IH]; intros d; [done|]. change (insert_all ((f, e) :: es) d) with (insert_all es (Insert f e d).1).
    destruct (IH (Insert f e d).1) as [-> ->]. apply Insert_keeps. }
  destruct Hkeep as [Ht Hpc]. unfold retainPieces. destruct (MissingPieces fails _ d) as [missing| |] eqn:Em; [|rewrite Hpc; by left..].
  intros [Hp|(Hin & Hn & Hv)]%retain_pieces_rows; rewrite Hpc in *; [by left|]. right. do 2 (split; [done|]).
  assert (Hm : missing_pieces d h = true).
  { revert Em. unfold MissingPieces. destruct (omap _ _); [intros [= <-]; by apply elem_of_nil in Hin|]. destruct fails; [done|].
    intros [= <-]. by apply list_elem_of_filter in Hin as [? _]. }
  unfold missing_pieces in Hm. rewrite Ht in Hm. destruct (torrents s.1 !! h) as [t|]; [|done]. exists t. split; [done|].
  apply andb_true_iff in Hm as [Hm Hpub]. apply andb_true_iff in Hm as [_ Harr].
  unfold PublicSQL in Hpub. rewrite !andb_true_iff, !negb_true_iff in Hpub. destruct Hpub as [[[Hpr Hev] Htag] Hcan].
  do 3 (split; [done|]). split.
  - intros c cat Hc Hcat. rewrite Hc, Hcat in Hcan. by apply negb_true_iff, bool_decide_eq_false in Hcan.
  - apply existsb_exists in Harr as (r & Hr%list_elem_of_In & [H1 H2]%andb_true_iff). apply bool_decide_eq_true in H1, H2. by exists r.
Qed.

(** ** Freshness *)

(** an instance is reported exactly when it is tracked with a positive
    window and more than the window has passed since its last success, whatever
    other instances do. *)
Theorem stale_exact now f key age window :
  (key, age, window) ∈ Stale now f ↔
  ∃ at_, f_last f !! key = Some at_ ∧ default 0%Z (f_maxAge f !! key) = window ∧ (0 < window)%Z
    ∧ (window < now - at_)%Z ∧ age = ((now - at_) / Minute * Minute)%Z.
Proof.
  unfold Stale. rewrite list_elem_of_omap. split.
  - intros ([k at_] & Hin & He). apply elem_of_map_to_list in Hin. unfold stale_entry in He. cbn [fst snd] in He.
    destruct (Z.leb_spec (default 0%Z (f_maxAge f !! k)) 0); [done|]. destruct (Z.ltb_spec (default 0%Z (f_maxAge f !! k)) (now - at_)); [|done].
    injection He as <- <- <-. by exists at_.
  - intros (at_ & Hl & Hw & Hp & Ho & ->). exists (key, at_). split; [by apply elem_of_map_to_list|]. unfold stale_entry. cbn [fst snd]. rewrite Hw.
    destruct (Z.leb_spec window 0); [lia|]. by destruct (Z.ltb_spec window (now - at_)); [|lia].
Qed.

(** ** On concrete inputs *)

Definition sample_hash : runes := replicate 40 97%Z.
Definition sample_id : bytes := replicate 20 170%Z.
Definition qb (category state : string) : qbInput :=
  mkQBInput (mkQB sample_hash (runes_of "Up") (runes_of category) (runes_of state) []) 5 no_fault no_fault.
Definition catalogue : db := no_evidence {[ sample_id := mkTorrentRow [85; 112]%Z false [] [] ]} ∅.
Definition grab : arrPayload :=
  mkPayload [] (runes_of "Grab") [] sample_hash (runes_of "Up.2009") 0 [] 14160 0 [] 0 [].
Definition grabbed : db := (@handle ascii_unicode [] [] (runes_of "radarr") 3 (Some ([], grab)) no_fault catalogue).1.

Definition sample_info : Metainfo.Info := Metainfo.mkInfo [85; 112]%Z 65536 [] None (replicate 20 7%Z) [].
Definition sample_torrent : Metainfo.Torrent := {|
  Metainfo.HashBytes _ := sample_id; Metainfo.Unmarshal_info _ := inr sample_info; Metainfo.Unmarshal_rawInfo _ := inr [];
  Metainfo.BestName := Metainfo.Name; Metainfo.TotalLength _ := 0%Z; Metainfo.DisplayPath _ _ := [] |}.

Example sample_decodes : decode_hash sample_hash = Some sample_id.
Proof. by vm_compute. Qed.
Example sample_bucket : format_rfc3339 (1753536000 * 1000000000) = runes_of "2025-07-26T13:20:00Z".
Proof. by vm_compute. Qed.
Example sample_label :
  (λ c, (c_media_type c, c_media_id c, c_resolved_strength c)) <$> canonical_labels grabbed !! sample_id = Some (Some "movie", Some (runes_of "tmdb:14160"), 60%Z).
Proof. by vm_compute. Qed.
Example states :
  (@ClassifyQBState ascii_unicode ∘ runes_of) <$> [" Uploading"; "stalledDL"; "queuedDL"; "forcedMetaDL"; ""]
  = [QBStateClassAlive; QBStateClassSuspect; QBStateClassIgnore; QBStateClassSuspect; QBStateClassIgnore].
Proof. by vm_compute. Qed.

(** A torrent that is moved to the private category after its first category
    was recorded stays public for the gates: its piece hashes are still asked
    for. *)
Example recategorised_stays_public :
  let d1 := insert_all (@qb_evidence ascii_unicode (runes_of "qb1") false 5 (qb "movies" "uploading")) grabbed in
  let d2 := insert_all (@qb_evidence ascii_unicode (runes_of "qb1") false (5 + Hour) (qb "private" "uploading")) d1 in
  @IsPrivateInfoHash ascii_unicode false sample_id d2 = Ok false ∧ @MissingPieces ascii_unicode false [sample_id] d2 = Ok [sample_id].
Proof. by vm_compute. Qed.

Lemma canonical_label_strongest_witness : canonical_labels grabbed !! sample_id ≠ None ∧ candidates sample_id grabbed ≠ [].
Proof.
  assert (Hs : rtc dbstep catalogue grabbed) by apply handle_steps.
  pose proof (canonical_label_strongest _ _ grabbed sample_id Hs) as Hc. split; [by vm_compute|].
  destruct (canonical_labels grabbed !! sample_id) as [c|] eqn:E; [|by vm_compute in E]. destruct Hc as (l1 & r & l2 & -> & _). by destruct l1.
Defined.

Definition two_labels : list Evidence :=
  [ mkEvidence SourceRadarr KindWebhookGrab (runes_of "r") (runes_of "1") [] sample_id [] "movie" (runes_of "tmdb:1") [] 9000 60 [] [];
    mkEvidence SourceQBittorrent KindPollCategories (runes_of "q") (runes_of "2") [] sample_id [] "" [] (runes_of "tv") 20000 30 [] [] ].
Lemma evidence_order_free_witness :
  ∃ id, canonical_labels (insert_all ((no_fault,.) <$> reverse two_labels) catalogue) !! sample_id = Some (canonical_of id (hd (mkEvidence "" "" [] [] [] [] [] "" [] [] 0 0 [] []) two_labels)).
Proof.
  apply (evidence_order_free {[ sample_id := mkTorrentRow [85; 112]%Z false [] [] ]} ∅ (reverse two_labels)).
  - apply Forall_reverse. constructor; [by left|]. constructor; [by left|done].
  - apply (bool_decide_unpack _). by vm_compute.
  - apply elem_of_reverse. by left.
  - by vm_compute.
  - intros e' He' _ Hne. rewrite elem_of_reverse in He'. unfold two_labels in *. rewrite !elem_of_cons, elem_of_nil in He'. cbn [hd] in *.
    destruct He' as [->|[->|[]]]; [done|]. left. by vm_compute.
Defined.

Lemma webhook_retry_witness : @handle ascii_unicode [] [] (runes_of "radarr") 99 (Some ([], grab)) no_fault grabbed = (skip_id grabbed, Duplicate).
Proof. apply (@webhook_retry ascii_unicode [] [] (runes_of "radarr") 3 [] grab no_fault catalogue); [by vm_compute|apply rtc_refl]. Defined.

Lemma privacy_sql_equivalent_witness :
  @PrivacyTagSQL ascii_unicode (runes_of " BitGrab-1") = @PrivacyTag ascii_unicode (runes_of " BitGrab-1")
  ∧ @QBPrivacySQL ascii_unicode SourceQBittorrent (nullableString (runes_of "Private ")) = private_category (@lower_trim ascii_unicode (runes_of "Private ")).
Proof. apply (@privacy_sql_equivalent ascii_unicode ascii_unicode_laws). Defined.

Lemma private_category_recorded_witness :
  @IsPrivateInfoHash ascii_unicode false sample_id
    (@qb_pollOnce ascii_unicode sample_torrent (λ _, None) (runes_of "qb1") false 5 (Some [qb "Private" "uploading"]) false (λ _, false) (catalogue, NewFreshness)).1
  = Ok true.
Proof.
  apply (@private_category_recorded ascii_unicode ascii_unicode_laws sample_torrent (λ _, None) (runes_of "qb1") false 5
           [qb "Private" "uploading"] false (λ _, false) (catalogue, NewFreshness) (qb "Private" "uploading") sample_id).
  - by left.
  - apply NoDup_singleton.
  - by vm_compute.
  - by left.
  - done.
  - left. intros r Hr. by apply elem_of_nil in Hr.
  - apply rtc_refl.
Defined.

Lemma category_change_unseen_witness :
  let d := insert_all (@qb_evidence ascii_unicode (runes_of "qb1") false 5 (qb "movies" "uploading")) grabbed in
  label_evidence (insert_all ([qb "private" "uploading"] ≫= @qb_evidence ascii_unicode (runes_of "qb1") false 9) d) = label_evidence d.
Proof.
  apply (@category_change_unseen ascii_unicode ascii_unicode_laws). constructor; [|done].
  eexists. split; [right; left|]. by vm_compute.
Defined.

Lemma retained_pieces_verified_witness :
  let s := (grabbed, NewFreshness) in
  torrent_pieces (@qb_pollOnce ascii_unicode sample_torrent (λ _, Some []) (runes_of "qb1") false 5 (Some [qb "movies" "uploading"]) false (λ _, false) s).1
    !! sample_id = Some (mkPiecesRow 65536 (replicate 20 7%Z))
  ∧ @verified sample_torrent sample_id (mkPiecesRow 65536 (replicate 20 7%Z)).
Proof.
  intros s. assert (Hp : torrent_pieces (@qb_pollOnce ascii_unicode sample_torrent (λ _, Some []) (runes_of "qb1") false 5 (Some [qb "movies" "uploading"]) false (λ _, false) s).1
    !! sample_id = Some (mkPiecesRow 65536 (replicate 20 7%Z))) by by vm_compute.
  split; [exact Hp|]. destruct (@retained_pieces_verified ascii_unicode sample_torrent _ _ _ _ _ _ _ _ _ _ Hp) as [Hn|[Hv _]]; [by vm_compute in Hn|exact Hv].
Defined.
 End Evidence.
