(* ===== verification/TitleEvidence.v ===== *)
(** * Title evidence

    [internal/classifier/evidence_title.go]: which identity the *arr services
    gave to other torrents released under the same title.  An index counts, by
    a key made of the title of a release, the identities of the labels of the
    evidence store; a torrent is given the identity that enough of the others
    agree on.  The index is built on first use and rebuilt in the background.

    Go ranges over a map in an order of its choice: the order is an argument. *)
From S2P Require Import Prelude Protocol Lexer Metainfo Regex Fts Dates Anime Keywords Episodes Workflow NamePolicy Classifier Titles Tmdb Languages ReleaseInfo VideoParser Evidence.
From stdpp Require Import gmap list strings sets.
From Stdlib Require Import ZArith Lia SpecFloat.

#[local] Open Scope string_scope.
#[local] Open Scope list_scope.

Module TitleEvidence.
Import Lexer Keywords Workflow Classifier Titles ReleaseInfo VideoParser.

(** ** Data *)

Record titleVote := mkVote { v_mediaType : string; v_source : runes; v_id : runes }.
#[export] Instance titleVote_eq_dec : EqDecision titleVote.
Proof. solve_decision. Defined.
#[export] Instance titleVote_countable : Countable titleVote.
Proof.
  refine (inj_countable' (λ v, (v_mediaType v, v_source v, v_id v)) (λ p, mkVote p.1.1 p.1.2 p.2) _). by intros [].
Defined.

Record titleSelf := mkSelf { s_key : runes; s_vote : titleVote }.
#[export] Instance titleSelf_eq_dec : EqDecision titleSelf.
Proof. solve_decision. Defined.

(** The index; its votes are nil when the labels could not be loaded. *)
Record titleIndex := mkIndex { votes : option (gmap runes (gmap titleVote nat)); self : gmap string titleSelf }.

Inductive titleOutcome := titleApplied | titleNoKey | titleNoPreference | titleWeak | titleNoIndex.

Definition titleEvidenceMinVotes : nat := 2.
Definition titleEvidenceTTL : Z := 15 * Evidence.Minute.
Definition titleEvidenceRetry : Z := Evidence.Minute.

(** The share test, [float64(bestN) < 2.0 / 3.0 * float64(total)]. *)
Definition float_of (n : nat) : spec_float := binary_normalize 53 1024 (Z.of_nat n) 0 false.
Definition titleEvidenceMinShare : spec_float := SFdiv 53 1024 (float_of 2) (float_of 3).
Definition below_share (n total : nat) : bool := SFltb (float_of n) (SFmul 53 1024 titleEvidenceMinShare (float_of total)).

Section title.
Context `{Unicode} `{UnicodeTables} `{!Rex} `{Transforms}.

Definition titleEvidenceKey (name : bytes) : runes :=
  match ParseTitleYearEpisodes no_enum (Metainfo.range_runes name) with
  | None => []
  | Some (title, year, episodes, _) =>
      let norm := NormalizeTitleForMatch (foldTitlePunct title) in
      if bool_decide (norm = []) then []
      else if bool_decide (episodes ≠ ∅) then runes_of "tv|" ++ norm
      else if negb (year =? 0)%Z then runes_of "movie|" ++ norm ++ runes_of "|" ++ Tmdb.Itoa year
      else runes_of "other|" ++ norm
  end.

(** ** Building the index *)

(** The vote of a label, for a catalogue identity of a film or a series. *)
Definition label_vote (l : Evidence.TitleLabel) : option (runes * titleVote) :=
  contentType ← canonicalToContentType (Evidence.tl_MediaType l);
  if canonicalNeedsIdentityEnrichment contentType
  then ref ← canonicalContentRef (Evidence.tl_MediaID l) contentType;
       let key := titleEvidenceKey (Evidence.tl_Name l) in
       if bool_decide (key = []) then None else Some (key, mkVote (Evidence.tl_MediaType l) (r_Source ref) (r_ID ref))
  else None.

Definition add_vote (m : gmap runes (gmap titleVote nat)) (kv : runes * titleVote) : gmap runes (gmap titleVote nat) :=
  let vs := default ∅ (m !! kv.1) in <[kv.1 := <[kv.2 := S (default 0 (vs !! kv.2))]> vs]> m.
Definition add_label (i : gmap runes (gmap titleVote nat) * gmap string titleSelf) (l : Evidence.TitleLabel) :
    gmap runes (gmap titleVote nat) * gmap string titleSelf :=
  match label_vote l with
  | None => i
  | Some kv => (add_vote i.1 kv, <[hex_encode (Evidence.tl_InfoHash l) := mkSelf kv.1 kv.2]> i.2)
  end.
Definition build (labels : list Evidence.TitleLabel) : titleIndex :=
  let i := foldl add_label (∅, ∅) labels in mkIndex (Some i.1) i.2.

(** ** The preferred identity *)

(** The loop over the votes: the best one, its votes and all votes, the
    torrent's own left out. *)
Definition tally (own : option titleSelf) (key : runes) (order : list (titleVote * nat)) : option titleVote * nat * nat :=
  foldl (λ acc p,
    let '(best, bestN, total) := acc in
    let n := if bool_decide (own = Some (mkSelf key p.1)) then (p.2 - 1)%nat else p.2 in
    if bool_decide (bestN < n)%nat then (Some p.1, n, total + n)%nat else (best, bestN, total + n)%nat) (None, 0, 0) order.

Definition vote_label (v : titleVote) : CanonicalLabel := mkLabel (v_mediaType v) (v_source v ++ runes_of ":" ++ v_id v).

Definition Preferred (range : gmap titleVote nat → list (titleVote * nat)) (idx : titleIndex) (t : Torrent) : option CanonicalLabel * titleOutcome :=
  match votes idx with
  | None => (None, titleNoIndex)
  | Some vs =>
      let key := titleEvidenceKey (t_Name t) in
      if bool_decide (key = []) then (None, titleNoKey)
      else
        let own := self idx !! hex_encode (t_InfoHash t) in
        let '(best, bestN, total) := tally own key (range (default ∅ (vs !! key))) in
        if bool_decide (total = 0%nat) then (None, titleNoPreference)
        else if bool_decide (bestN < titleEvidenceMinVotes)%nat || below_share bestN total then (None, titleWeak)
        else (vote_label <$> best, titleApplied)
  end.

(** ** The life of the index *)

Record evidence_state := mkState { idx : option titleIndex; building : bool; nextRefresh : Z }.
Definition new_state : evidence_state := mkState None false 0.

(** [rebuild]: the labels, or an error of their source. *)
Definition rebuild (labels : option (list Evidence.TitleLabel)) (now : Z) (s : evidence_state) : evidence_state :=
  match labels with
  | None => mkState (Some (default (mkIndex None ∅) (idx s))) (building s) (now + titleEvidenceRetry)
  | Some ls => mkState (Some (build ls)) (building s) (now + titleEvidenceTTL)
  end.

(** [index]: the first call builds the index; a later one may start a rebuild. *)
Definition index_call (labels : option (list Evidence.TitleLabel)) (now : Z) (s : evidence_state) : evidence_state * option titleIndex :=
  match idx s with
  | None => let s' := rebuild labels now s in (s', idx s')
  | Some i => (if (nextRefresh s <=? now)%Z && negb (building s) then mkState (idx s) true (nextRefresh s) else s, Some i)
  end.
(** The end of a rebuild in the background. *)
Definition rebuild_done (labels : option (list Evidence.TitleLabel)) (now : Z) (s : evidence_state) : evidence_state :=
  if building s then let s' := rebuild labels now s in mkState (idx s') false (nextRefresh s') else s.
End title.

(** ** Counting votes *)

Definition support (vs : list (runes * titleVote)) (key : runes) (v : titleVote) : nat := length (filter (λ kv, kv = (key, v)) vs).
Definition all_votes (vs : list (runes * titleVote)) (key : runes) : nat := length (filter (λ kv, kv.1 = key) vs).

Definition sum_votes (m : gmap titleVote nat) : nat := sum_list_with snd (map_to_list m).

Lemma sum_list_with_perm {A} (f : A → nat) l l' : l ≡ₚ l' → sum_list_with f l = sum_list_with f l'.
Proof. induction 1; simpl; lia. Qed.

Lemma sum_votes_insert (m : gmap titleVote nat) v n : (sum_votes (<[v := n]> m) + default 0 (m !! v) = sum_votes m + n)%nat.
Proof.
  unfold sum_votes. rewrite <- insert_delete_eq.
  rewrite (sum_list_with_perm snd _ _ (map_to_list_insert (delete v m) v n (lookup_delete_eq m v))). cbn [sum_list_with snd].
  destruct (m !! v) as [k|] eqn:E; cbn [default from_option id].
  - rewrite <- (insert_delete_id m v k E) at 2.
    rewrite (sum_list_with_perm snd _ _ (map_to_list_insert (delete v m) v k (lookup_delete_eq m v))). cbn [sum_list_with snd]. lia.
  - rewrite delete_id by done. lia.
Qed.

(** What a map of votes counts. *)
Definition counts_votes (m : gmap runes (gmap titleVote nat)) (vs : list (runes * titleVote)) : Prop :=
  ∀ key, sum_votes (default ∅ (m !! key)) = all_votes vs key
    ∧ ∀ v, default ∅ (m !! key) !! v = if bool_decide (support vs key v = 0%nat) then None else Some (support vs key v).

Lemma add_vote_counts m vs kv : counts_votes m vs → counts_votes (add_vote m kv) (vs ++ [kv]).
Proof.
  intros Hm key. specialize (Hm key) as [Hs Hc]. unfold add_vote, all_votes, support. rewrite filter_app, length_app, filter_cons, filter_nil.
  assert (Hd : ∀ v, default 0 (default ∅ (m !! key) !! v) = support vs key v) by (intros v; rewrite Hc; case_bool_decide; [by symmetry|done]).
  destruct (decide (kv.1 = key)) as [<-|Hk].
  - rewrite lookup_insert_eq. cbn [default from_option id length]. split.
    + pose proof (sum_votes_insert (default ∅ (m !! kv.1)) kv.2 (S (default 0 (default ∅ (m !! kv.1) !! kv.2)))) as Hx. unfold all_votes in Hs. lia.
    + intros v. rewrite filter_app, length_app, filter_cons, filter_nil. fold (support vs kv.1 v). destruct (decide (v = kv.2)) as [->|Hv].
      * rewrite lookup_insert_eq, Hd, decide_True by by destruct kv. cbn [length]. rewrite bool_decide_eq_false_2 by lia. f_equal. lia.
      * rewrite lookup_insert_ne by done. rewrite decide_False by (intros Hx; apply Hv; by rewrite Hx). cbn [length]. rewrite Nat.add_0_r. apply Hc.
  - rewrite lookup_insert_ne by done. cbn [length]. rewrite Nat.add_0_r. split; [done|]. intros v. rewrite filter_app, length_app, filter_cons, filter_nil.
    rewrite decide_False by (intros Hx; apply Hk; by rewrite Hx). cbn [length]. rewrite Nat.add_0_r. apply Hc.
Qed.

Lemma add_votes_counts vs : counts_votes (foldl add_vote ∅ vs) vs.
Proof.
  induction vs as [|kv vs IH] using rev_ind.
  - intros key. cbn [foldl]. rewrite lookup_empty. cbn [default from_option id]. split; [|done]. unfold sum_votes. by rewrite map_to_list_empty.
  - rewrite foldl_app. by apply add_vote_counts.
Qed.

(** ** The tally *)

Definition left_of (own : option titleSelf) (key : runes) (p : titleVote * nat) : nat :=
  if bool_decide (own = Some (mkSelf key p.1)) then (p.2 - 1)%nat else p.2.

Lemma tally_spec own key order :
  let '(best, bestN, total) := tally own key order in
  total = sum_list_with (left_of own key) order ∧ Forall (λ p, (left_of own key p ≤ bestN)%nat) order
  ∧ match best with None => bestN = 0%nat | Some v => ∃ n, (v, n) ∈ order ∧ left_of own key (v, n) = bestN end.
Proof.
  induction order as [|p order IH] using rev_ind; [done|]. unfold tally in *. rewrite foldl_app. cbn [foldl].
  destruct (foldl _ (None, 0, 0) order) as [[best bestN] total]. destruct IH as (-> & Hall & Hbest). fold (left_of own key p).
  rewrite sum_list_with_app. cbn [sum_list_with]. destruct (bool_decide_reflect (bestN < left_of own key p)%nat) as [Hlt|Hge].
  - split; [lia|]. split.
    + apply Forall_app. split; [|by repeat constructor]. eapply Forall_impl; [exact Hall|]. cbn beta. lia.
    + exists p.2. destruct p as [v n]. split; [apply elem_of_app; right; by left|done].
  - split; [lia|]. split.
    + apply Forall_app. split; [done|]. constructor; [lia|done].
    + destruct best as [v|]; [|done]. destruct Hbest as (n & Hn & He). exists n. split; [apply elem_of_app; by left|done].
Qed.

(** ** The torrent's own vote *)

Section votes.
Context `{Unicode} `{UnicodeTables} `{!Rex} `{Transforms}.

Lemma build_votes labels i : (foldl add_label i labels).1 = foldl add_vote i.1 (omap label_vote labels).
Proof.
  revert i. induction labels as [|l labels IH]; intros i; [done|]. cbn [foldl omap list_omap]. rewrite IH. unfold add_label.
  by destruct (label_vote l).
Qed.

Lemma hex_encode_inj a b : bytes_ok a → bytes_ok b → hex_encode a = hex_encode b → a = b.
Proof.
  intros Ha Hb He. pose proof (Protocol.hex_decode_encode a Ha) as Hd. rewrite He, (Protocol.hex_decode_encode b Hb) in Hd. by injection Hd as ->.
Qed.

(** The vote that a torrent with this hash casts itself. *)
Definition own_vote (labels : list Evidence.TitleLabel) (h : bytes) : list (runes * titleVote) :=
  omap label_vote (filter (λ l, Evidence.tl_InfoHash l = h) labels).

Lemma build_self labels i h :
  bytes_ok h → Forall (λ l, bytes_ok (Evidence.tl_InfoHash l)) labels →
  (foldl add_label i labels).2 !! hex_encode h = match last (own_vote labels h) with Some kv => Some (mkSelf kv.1 kv.2) | None => i.2 !! hex_encode h end.
Proof.
  intros Hh. revert i. induction labels as [|l labels IH]; intros i Hl; [done|]. apply Forall_cons in Hl as [Hb Hl]. cbn [foldl]. rewrite IH by done.
  unfold own_vote. rewrite filter_cons. fold (own_vote labels h). unfold add_label. destruct (decide (Evidence.tl_InfoHash l = h)) as [He|He].
  - cbn [omap list_omap]. destruct (label_vote l) as [kv|]; [|done]. rewrite last_cons. fold (own_vote labels h). rewrite He.
    destruct (last (own_vote labels h)); [done|]. cbn [snd]. by rewrite lookup_insert_eq.
  - fold (own_vote labels h). destruct (label_vote l) as [kv|]; [|done]. destruct (last (own_vote labels h)); [done|]. cbn [snd].
    apply lookup_insert_ne. intros Hx. apply He. by apply hex_encode_inj.
Qed.

(** The votes of the other torrents. *)
Definition others (labels : list Evidence.TitleLabel) (h : bytes) : list (runes * titleVote) :=
  omap label_vote (filter (λ l, Evidence.tl_InfoHash l ≠ h) labels).

Lemma votes_split labels h : omap label_vote labels ≡ₚ others labels h ++ own_vote labels h.
Proof.
  unfold others, own_vote. induction labels as [|l labels IH]; [done|]. rewrite !filter_cons. destruct (decide (Evidence.tl_InfoHash l = h)) as [He|He].
  - rewrite (decide_False (P := Evidence.tl_InfoHash l ≠ h)) by (intros Hx; by apply Hx). cbn [omap list_omap]. destruct (label_vote l); [|exact IH].
    rewrite IH. by rewrite Permutation_middle.
  - rewrite (decide_True (P := Evidence.tl_InfoHash l ≠ h)) by done. cbn [omap list_omap]. destruct (label_vote l); [|exact IH]. by rewrite IH.
Qed.

Lemma own_vote_single labels h : NoDup (Evidence.tl_InfoHash <$> labels) → (length (own_vote labels h) ≤ 1)%nat.
Proof.
  unfold own_vote. induction labels as [|l labels IH]; [simpl; lia|]. rewrite fmap_cons, NoDup_cons. intros [Hl Hn]. rewrite filter_cons.
  destruct (decide (Evidence.tl_InfoHash l = h)) as [<-|He]; [|by apply IH].
  assert (filter (λ l', Evidence.tl_InfoHash l' = Evidence.tl_InfoHash l) labels = []) as ->.
  { apply list_filter_none. intros x Hx He. apply Hl. rewrite <- He. by apply list_elem_of_fmap_2. }
  cbn. destruct (label_vote l); simpl; lia.
Qed.
End votes.

(** Up to 250 votes, the floating-point test is the exact one. *)
Definition share_bound : nat := 250.
Lemma below_share_checked :
  forallb (λ t, forallb (λ n, eqb (below_share n t) (bool_decide (3 * n < 2 * t)%nat)) (seq 0 (S t))) (seq 0 (S share_bound)) = true.
Proof. by vm_compute. Qed.
Lemma below_share_exact n t : (n ≤ t ≤ share_bound)%nat → below_share n t = bool_decide (3 * n < 2 * t)%nat.
Proof.
  intros Hnt. pose proof below_share_checked as Hc. rewrite forallb_forall in Hc. specialize (Hc t). rewrite forallb_forall in Hc.
  apply eqb_prop, Hc; apply in_seq; lia.
Qed.

Lemma sum_list_with_elem {A} (f : A → nat) l x : x ∈ l → (f x ≤ sum_list_with f l)%nat.
Proof. induction 1; simpl; lia. Qed.

Lemma sum_left_none own key order :
  (∀ v, own ≠ Some (mkSelf key v)) → sum_list_with (left_of own key) order = sum_list_with snd order.
Proof. intros Hn. induction order as [|p order IH]; [done|]. simpl. rewrite IH. unfold left_of. by rewrite bool_decide_eq_false_2 by apply Hn. Qed.

Lemma sum_left_own key v n order :
  NoDup order.*1 → (v, n) ∈ order → (0 < n)%nat → (sum_list_with (left_of (Some (mkSelf key v)) key) order + 1 = sum_list_with snd order)%nat.
Proof.
  intros Hnd Hin Hn. apply list_elem_of_split in Hin as (l1 & l2 & ->). rewrite fmap_app, fmap_cons in Hnd. apply NoDup_app in Hnd as (_ & H1 & Hnd).
  apply NoDup_cons in Hnd as [H2 _]. rewrite !sum_list_with_app. cbn [sum_list_with].
  assert (Hl : ∀ l : list (titleVote * nat), v ∉ l.*1 → sum_list_with (left_of (Some (mkSelf key v)) key) l = sum_list_with snd l).
  { intros l Hv. induction l as [|p l IH]; [done|]. cbn [fmap list_fmap] in Hv. apply not_elem_of_cons in Hv as [Hp Hv]. simpl. rewrite (IH Hv).
    unfold left_of. rewrite bool_decide_eq_false_2; [done|]. intros [= Hx]. by apply Hp. }
  rewrite (Hl l1), (Hl l2); [|done|]; [|intros Hv; apply (H1 v); [done|by left]].
  unfold left_of. rewrite bool_decide_eq_true_2 by done. cbn [snd]. lia.
Qed.

Section preferred.
Context `{Unicode} `{UnicodeTables} `{!Rex} `{Transforms}.
Context (range : gmap titleVote nat → list (titleVote * nat)) (range_perm : ∀ m, range m ≡ₚ map_to_list m).

Lemma support_app vs vs' key v : support (vs ++ vs') key v = (support vs key v + support vs' key v)%nat.
Proof. unfold support. by rewrite filter_app, length_app. Qed.
Lemma support_perm vs vs' key v : vs ≡ₚ vs' → support vs key v = support vs' key v.
Proof. intros Hp. unfold support. by rewrite Hp. Qed.
Lemma all_votes_perm vs vs' key : vs ≡ₚ vs' → all_votes vs key = all_votes vs' key.
Proof. intros Hp. unfold all_votes. by rewrite Hp. Qed.
Lemma all_votes_app vs vs' key : all_votes (vs ++ vs') key = (all_votes vs key + all_votes vs' key)%nat.
Proof. unfold all_votes. by rewrite filter_app, length_app. Qed.

(** The loop over the votes of a key sees the votes of the others. *)
Lemma tally_others labels h key :
  NoDup (Evidence.tl_InfoHash <$> labels) → Forall (λ l, bytes_ok (Evidence.tl_InfoHash l)) labels → bytes_ok h →
  let m := default ∅ ((foldl add_label (∅, ∅) labels).1 !! key) in
  let '(best, bestN, total) := tally ((foldl add_label (∅, ∅) labels).2 !! hex_encode h) key (range m) in
  total = all_votes (others labels h) key ∧ (∀ v, (support (others labels h) key v ≤ bestN)%nat) ∧ (bestN ≤ total)%nat
  ∧ match best with None => bestN = 0%nat | Some v => support (others labels h) key v = bestN end.
Proof.
  intros Hnd Hb Hh m. set (own := (foldl add_label (∅, ∅) labels).2 !! hex_encode h).
  assert (Hown : (own_vote labels h = [] ∧ own = None) ∨ ∃ kv, own_vote labels h = [kv] ∧ own = Some (mkSelf kv.1 kv.2)).
  { unfold own. rewrite build_self by done. pose proof (own_vote_single labels h Hnd) as Hs. destruct (own_vote labels h) as [|kv [|]]; [by left|right; by exists kv|simpl in Hs; lia]. }
  destruct (add_votes_counts (omap label_vote labels) key) as [Hsum Hcnt].
  assert (Hv : foldl add_vote ∅ (omap label_vote labels) = (foldl add_label (∅, ∅) labels).1) by (symmetry; apply (build_votes labels (∅, ∅))).
  rewrite Hv in Hsum, Hcnt. clear Hv. fold m in Hsum, Hcnt.
  assert (Hlook : ∀ v n, (v, n) ∈ range m → n = (support (others labels h) key v + support (own_vote labels h) key v)%nat ∧ (0 < n)%nat).
  { intros v n Hin. rewrite range_perm, elem_of_map_to_list, Hcnt in Hin. revert Hin. case_bool_decide as Hz; [done|]. intros [= <-].
    rewrite <- support_app, <- (support_perm _ _ key v (votes_split labels h)). split; [done|lia]. }
  assert (Hleft : ∀ v n, (v, n) ∈ range m → left_of own key (v, n) = support (others labels h) key v).
  { intros v n Hin. destruct (Hlook v n Hin) as [-> _]. unfold left_of. cbn [fst snd].
    destruct Hown as [[-> ->]|(kv & -> & ->)]; [rewrite bool_decide_eq_false_2 by done; cbn; lia|]. unfold support at 2 4. rewrite filter_cons, filter_nil.
    case_bool_decide as Hk; [injection Hk as <- <-; rewrite decide_True by (by destruct kv); cbn [length]; lia|].
    rewrite decide_False by (intros ->; by apply Hk). simpl. lia. }
  assert (Hnodup : NoDup (range m).*1) by (rewrite range_perm; apply NoDup_fst_map_to_list).
  pose proof (tally_spec own key (range m)) as Ht. destruct (tally own key (range m)) as [[best bestN] total]. destruct Ht as (-> & Hall & Hbest).
  assert (Htot : sum_list_with (left_of own key) (range m) = all_votes (others labels h) key).
  { rewrite (all_votes_perm _ _ key (votes_split labels h)), all_votes_app in Hsum. unfold sum_votes in Hsum.
    rewrite <- (sum_list_with_perm snd _ _ (range_perm m)) in Hsum. destruct Hown as [[Ho ->]|([k v] & Ho & ->)]; rewrite Ho in Hsum; cbn [fst snd] in *.
    - rewrite sum_left_none by done. change (all_votes [] key) with 0%nat in Hsum. lia.
    - change (all_votes [(k, v)] key) with (length (filter (λ kv, kv.1 = key) [(k, v)])) in Hsum. rewrite filter_cons, filter_nil in Hsum.
      cbn [fst] in Hsum. destruct (decide (k = key)) as [->|Hk].
      + assert (Hv : ∃ n, (v, n) ∈ range m).
        { exists (support (omap label_vote labels) key v). rewrite range_perm, elem_of_map_to_list, Hcnt, bool_decide_eq_false_2; [done|].
          rewrite (support_perm _ _ key v (votes_split labels h)), support_app, Ho. unfold support at 2. rewrite filter_cons, decide_True by done. simpl. lia. }
        destruct Hv as [n Hv]. destruct (Hlook v n Hv) as [_ Hpos]. pose proof (sum_left_own key v n (range m) Hnodup Hv Hpos). cbn [length] in Hsum. lia.
      + rewrite sum_left_none by (intros v' [= Hx _]; by apply Hk). cbn [length] in Hsum. lia. }
  rewrite Htot. split; [done|]. split.
  - intros v. destruct (decide (support (others labels h) key v = 0%nat)) as [->|Hz]; [lia|].
    assert (Hv : (v, support (omap label_vote labels) key v) ∈ range m).
    { rewrite range_perm, elem_of_map_to_list, Hcnt, bool_decide_eq_false_2; [done|]. rewrite (support_perm _ _ key v (votes_split labels h)), support_app. lia. }
    rewrite Forall_forall in Hall. specialize (Hall _ Hv). cbn beta in Hall. by rewrite (Hleft _ _ Hv) in Hall.
  - destruct best as [v|]; [destruct Hbest as (n & Hv & <-)|subst bestN; split; [lia|done]].
    split; [rewrite <- Htot; exact (sum_list_with_elem (left_of own key) _ _ Hv)|]. by rewrite (Hleft _ _ Hv).
Qed.

(** An identity that enough of the votes agree on: two of them, and two in three. *)
Definition agreed (vs : list (runes * titleVote)) (key : runes) (v : titleVote) : Prop :=
  (2 ≤ support vs key v)%nat ∧ (2 * all_votes vs key ≤ 3 * support vs key v)%nat.

Lemma support_disjoint vs key v v' : v ≠ v' → (support vs key v + support vs key v' ≤ all_votes vs key)%nat.
Proof.
  intros Hv. unfold support, all_votes. induction vs as [|[k w] vs IH]; [done|]. rewrite !filter_cons. cbn [fst].
  destruct (decide ((k, w) = (key, v))) as [[= -> ->]|Hn].
  - rewrite decide_False by (intros [=]; by apply Hv). rewrite decide_True by done. cbn [length]. lia.
  - destruct (decide ((k, w) = (key, v'))) as [[= -> ->]|Hn'].
    + rewrite decide_True by done. cbn [length]. lia.
    + destruct (decide (k = key)); cbn [length]; lia.
Qed.

Lemma agreed_unique vs key v v' : agreed vs key v → agreed vs key v' → v = v'.
Proof.
  intros [Hp Hq] [Hp' Hq']. destruct (decide (v = v')) as [|Hv]; [done|]. pose proof (support_disjoint vs key v v' Hv). lia.
Qed.

(** C27: The identity of a title.  A torrent is given, by the labels of the
    others that share its title, the only identity that at least two of them
    and at least two in three of them carry, and when there is none it is given
    nothing: its own label is not counted, and the order in which Go ranges over
    the votes makes no difference.  (Hashes are distinct, since labels are keyed
    by them; up to 250 votes are compared.) *)
Theorem title_evidence_exact labels t :
  NoDup (Evidence.tl_InfoHash <$> labels) → Forall (λ l, bytes_ok (Evidence.tl_InfoHash l)) labels → bytes_ok (t_InfoHash t) →
  let key := titleEvidenceKey (t_Name t) in let vs := others labels (t_InfoHash t) in
  (all_votes vs key ≤ share_bound)%nat →
  match Preferred range (build labels) t with
  | (None, titleNoKey) => key = []
  | (None, titleNoPreference) => key ≠ [] ∧ all_votes vs key = 0%nat
  | (None, titleWeak) => key ≠ [] ∧ (0 < all_votes vs key)%nat ∧ ∀ v, ¬ agreed vs key v
  | (Some l, titleApplied) => key ≠ [] ∧ ∃ v, agreed vs key v ∧ l = vote_label v ∧ ∀ v', agreed vs key v' → v' = v
  | _ => False
  end.
Proof.
  intros Hnd Hb Hh key vs Hbound. unfold Preferred, build. cbn [votes self]. fold key. destruct (bool_decide_reflect (key = [])) as [Hk|Hk]; [done|].
  pose proof (tally_others labels (t_InfoHash t) key Hnd Hb Hh) as Ht. cbv zeta in Ht. fold vs in Ht.
  destruct (tally _ key _) as [[best bestN] total]. destruct Ht as (-> & Hmax & Hle & Hbest).
  destruct (bool_decide_reflect (all_votes vs key = 0%nat)) as [Hz|Hz]; [done|].
  rewrite (below_share_exact bestN (all_votes vs key)) by lia. unfold titleEvidenceMinVotes.
  destruct (bool_decide_reflect (bestN < 2)%nat) as [Hlow|Hlow]; cbn [orb].
  - split; [done|]. split; [lia|]. intros v [Hv _]. specialize (Hmax v). lia.
  - destruct (bool_decide_reflect (3 * bestN < 2 * all_votes vs key)%nat) as [Hsh|Hsh].
    + split; [done|]. split; [lia|]. intros v [_ Hv]. specialize (Hmax v). lia.
    + destruct best as [v|]; [|lia]. split; [done|]. assert (Ha : agreed vs key v) by (split; lia).
      exists v. split; [done|]. split; [done|]. intros v' Hv'. by apply (agreed_unique vs key).
Qed.
End preferred.

(** ** The index over time

    The requests to the index, each with the time and the result its source
    would give, and the ends of the rebuilds. *)

Section life.
Context `{Unicode} `{UnicodeTables} `{!Rex} `{Transforms}.

Inductive life_step : evidence_state → evidence_state → Prop :=
  | life_index labels now s : life_step s (index_call labels now s).1
  | life_done labels now s : life_step s (rebuild_done labels now s).

(** Once an index with votes is there, it stays, whatever the source does. *)
Definition loaded (s : evidence_state) : Prop := ∃ i vs, idx s = Some i ∧ votes i = Some vs.
Lemma rebuild_loaded labels now s : loaded s → loaded (rebuild labels now s).
Proof. intros (i & vs & Hi & Hv). destruct labels as [ls|]; unfold rebuild, loaded; cbn [idx]; [exists (build ls); eexists; split; reflexivity|]. rewrite Hi. by exists i, vs. Qed.
Lemma life_loaded s s' : life_step s s' → loaded s → loaded s'.
Proof.
  destruct 1 as [labels now s|labels now s]; intros Hl.
  - unfold index_call. destruct (idx s) as [i|] eqn:Hi; [|by destruct Hl as (i & vs & Hx & _); rewrite Hi in Hx]. cbn [fst]. destruct (_ && _); [|exact Hl].
    destruct Hl as (j & vs & Hj & Hv). exists j, vs. cbn [idx]. by rewrite <- Hi.
  - unfold rebuild_done. destruct (building s); [|done]. pose proof (rebuild_loaded labels now s Hl) as (i & vs & Hi & Hv). by exists i, vs.
Qed.

(** Title evidence fails open.  Asking for the index always gives one; an
    index that was loaded is never lost to a failing source; and after a failed
    load the source is asked again a minute later, not before. *)
Theorem title_index_survives labels now s :
  (index_call labels now s).2 ≠ None
  ∧ (∀ s', rtc life_step s s' → loaded s → loaded s')
  ∧ (idx s = None → labels = None → (index_call labels now s).2 = Some (mkIndex None ∅)
      ∧ ∀ now' labels', let s1 := (index_call labels now s).1 in
          building (index_call labels' now' s1).1 = building s || (now + titleEvidenceRetry <=? now')%Z).
Proof.
  split; [|split].
  - unfold index_call. destruct (idx s) as [i|]; [done|]. by destruct labels.
  - induction 1 as [|x y z Hxy _ IH]; [done|]. intros Hx. by apply IH, (life_loaded x).
  - intros Hi ->. unfold index_call at 1. rewrite Hi. unfold rebuild. cbn [idx snd]. rewrite Hi. split; [done|]. intros now' labels'.
    unfold index_call at 2. rewrite Hi. unfold rebuild. rewrite Hi. unfold index_call. cbn [fst idx default from_option id nextRefresh building].
    destruct (_ <=? _)%Z, (building s); done.
Qed.
End life.

(** ** Witnesses *)

#[local] Existing Instances ascii_unicode name_tables group_rex plain_transforms.
Definition ex_label (h : Z) (id : string) : Evidence.TitleLabel :=
  Evidence.mkTitleLabel [h] (Protocol.string_bytes "Up.2009") "movie" (runes_of id).
(** A torrent, wrongly labelled itself, and two others. *)
Definition ex_labels : list Evidence.TitleLabel := [ex_label 1 "tmdb:1"; ex_label 2 "tmdb:2"; ex_label 3 "tmdb:2"].
Definition ex_up : Torrent := mkTorrent [1%Z] (Protocol.string_bytes "Up.2009") 0 no_string [] no_hint [].

Lemma title_evidence_exact_witness :
  Preferred map_to_list (build ex_labels) ex_up = (Some (mkLabel "movie" (runes_of "tmdb:2")), titleApplied)
  ∧ ∃ v, agreed (others ex_labels (t_InfoHash ex_up)) (titleEvidenceKey (t_Name ex_up)) v ∧ mkLabel "movie" (runes_of "tmdb:2") = vote_label v.
Proof.
  assert (Hp : Preferred map_to_list (build ex_labels) ex_up = (Some (mkLabel "movie" (runes_of "tmdb:2")), titleApplied)) by (vm_compute; reflexivity).
  split; [exact Hp|]. pose proof (title_evidence_exact map_to_list (λ m, Permutation_refl _) ex_labels ex_up) as Ht. cbv zeta in Ht. rewrite Hp in Ht.
  destruct Ht as [_ (v & Ha & Hl & _)].
  - apply (bool_decide_unpack (NoDup (Evidence.tl_InfoHash <$> ex_labels))). vm_compute; exact I.
  - repeat constructor; vm_compute; congruence.
  - repeat constructor; vm_compute; congruence.
  - vm_compute. lia.
  - exists v. split; [exact Ha|exact Hl].
Defined.

Lemma title_index_survives_witness :
  loaded (rebuild_done None 0 (mkState (Some (build ex_labels)) true 0)).
Proof.
  apply (proj1 (proj2 (title_index_survives None 0 (mkState (Some (build ex_labels)) true 0)))).
  - apply rtc_once. constructor.
  - exists (build ex_labels). eexists. split; reflexivity.
Defined.
 End TitleEvidence.
