(* ===== verification/Liveness.v ===== *)
(** * Liveness of torrents

    [internal/evidence/liveness]: a row per info hash of [torrent_liveness] says
    whether a torrent is alive, suspect or dead, from the states that
    qBittorrent reports, the imports of the *arr services, lookups in the DHT
    and scrapes of trackers.  The file models the store ([store.go]), the
    resolver that evidence drives ([resolver.go]) and the revalidator
    ([revalidator.go]), and the hook that joins the resolver to the evidence
    store.

    The handler of evidence records a suspect observation with one statement
    and promotes the torrent to dead with another, so the traces interleave
    statements, not handlers.  The specification is an automaton per info hash
    that counts the suspect observations of qBittorrent since the last sign of
    life and the promotions decided and not yet carried out; the rows of the
    table implement it. *)
From S2P Require Import Prelude Protocol Lexer Metainfo Fts Dates Anime Keywords Workflow Classifier Titles Tmdb Evidence.
From stdpp Require Import gmap gmultiset list strings sets sorting.
From Stdlib Require Import ZArith Lia.

#[local] Open Scope string_scope.
#[local] Open Scope list_scope.

Module Liveness.
Import Lexer Evidence.

(** ** Data *)

Inductive Status := StatusAlive | StatusSuspect | StatusDead.
#[export] Instance Status_eq_dec : EqDecision Status.
Proof. solve_decision. Defined.

Definition AliveSourceQBState : string := "qb_state".
Definition AliveSourceArrWebhook : string := "arr_webhook_import".
Definition AliveSourceDHTRevalidate : string := "dht_revalidate".
Definition AliveSourceTrackerScrape : string := "tracker_scrape".

(** A row of [torrent_liveness], by info hash. *)
Record Row := mkRow {
  status : Status; last_qb_state : option runes; suspect_first_seen_at : option Z; suspect_observations : Z; last_observed_at : Z;
  blacklisted_at : option Z; next_revalidate_at : option Z; alive_source : option string; updated_at : Z }.
Abbreviation table := (gmap bytes Row).

(** [LivenessConfig] *)
Record LivenessConfig := mkConfig {
  Enabled : bool; StallThresholdHours : Z; MinObservations : Z; BlacklistTTLDays : Z; RevalidateMinPeers : Z; ExcludePrivateTrackerGrabs : bool }.
Definition NewDefaultLivenessConfig : LivenessConfig := mkConfig false 4 2 30 2 true.
Definition StallThreshold (c : LivenessConfig) : Z := StallThresholdHours c * Hour.
Definition BlacklistTTL (c : LivenessConfig) : Z := BlacklistTTLDays c * 24 * Hour.

(** ** The store

    [now] is the clock of the database. *)

Definition Get (h : bytes) (t : table) : option Row := match h with [] => None | _ => t !! h end.

Definition MarkAlive (h : bytes) (observedAt : Z) (qbState : runes) (source : string) (now : Z) (t : table) : table :=
  <[h := mkRow StatusAlive (nullableString qbState) None 0 (timestamptz observedAt) None None (nullableMediaType source) now]> t.

Definition suspect_row (observedAt : Z) (qbState : runes) (now : Z) (old : option Row) : Row :=
  match old with
  | None => mkRow StatusSuspect (nullableString qbState) (Some (timestamptz observedAt)) 1 (timestamptz observedAt) None None None now
  | Some r =>
      let fresh := bool_decide (status r = StatusAlive) || bool_decide (last_qb_state r = None) in
      mkRow (if bool_decide (status r = StatusDead) then StatusDead else StatusSuspect)
        (nullableString qbState)
        (if fresh then Some (timestamptz observedAt) else Some (default (timestamptz observedAt) (suspect_first_seen_at r)))
        (if fresh then 1 else suspect_observations r + 1)%Z
        (timestamptz observedAt) (blacklisted_at r) (next_revalidate_at r) (alive_source r) now
  end.
Definition RecordSuspect (h : bytes) (observedAt : Z) (qbState : runes) (now : Z) (t : table) : table * Row :=
  let r := suspect_row observedAt qbState now (t !! h) in (<[h := r]> t, r).

Definition MarkDead (h : bytes) (blacklistedAt ttl now : Z) (t : table) : table :=
  match t !! h with
  | None => t
  | Some r => <[h := mkRow StatusDead (last_qb_state r) (suspect_first_seen_at r) (suspect_observations r) (last_observed_at r)
                       (Some (timestamptz blacklistedAt)) (Some (timestamptz blacklistedAt + ttl)%Z) (alive_source r) now]> t
  end.

Definition RearmRevalidate (h : bytes) (ttl now : Z) (t : table) : table :=
  match t !! h with
  | Some r => if bool_decide (status r = StatusDead)
              then <[h := mkRow StatusDead (last_qb_state r) (suspect_first_seen_at r) (suspect_observations r) (last_observed_at r)
                            (blacklisted_at r) (Some (now + ttl)%Z) (alive_source r) now]> t
              else t
  | None => t
  end.

(** The due rows, by the time at which they are due. *)
Definition due (now : Z) (e : bytes * Row) : option (Z * bytes) :=
  at_ ← next_revalidate_at e.2;
  if bool_decide (status e.2 = StatusDead) && (at_ <=? now)%Z then Some (at_, e.1) else None.
Definition due_before (a b : Z * bytes) : Prop := (a.1 ≤ b.1)%Z.
#[export] Instance due_before_dec a b : Decision (due_before a b).
Proof. unfold due_before. apply _. Defined.
Definition DueForRevalidation (limit : nat) (now : Z) (t : table) : list bytes :=
  take limit (snd <$> merge_sort due_before (omap (due now) (map_to_list t))).

Definition IsDead (h : bytes) (t : table) : bool :=
  match Get h t with Some r => bool_decide (status r = StatusDead) | None => false end.

Definition hashKey (h : bytes) : string := hex_encode h.
Definition DeadSet (hs : list bytes) (t : table) : gset string :=
  list_to_set (hashKey <$> filter (λ h, bool_decide (status <$> t !! h = Some StatusDead) = true) hs).
Definition Count (s : Status) (t : table) : nat := length (filter (λ e, status e.2 = s) (map_to_list t)).

(** The condition of the update: rows that are not alive, but for those that
    are dead for good. *)
Definition revivable (r : Row) : bool :=
  negb (bool_decide (status r = StatusAlive)) && negb (bool_decide (status r = StatusDead) && bool_decide (next_revalidate_at r = None)).
Definition revive_row (observedAt : Z) (source : string) (now : Z) (r : Row) : Row :=
  if revivable r
  then mkRow StatusAlive (last_qb_state r) None 0 (timestamptz observedAt) None None (Some source) now
  else r.
(** One statement over a list of hashes: the rows of the listed hashes are
    replaced. *)
Definition update_rows (f : bytes → option Row → option Row) (hs : list bytes) (t : table) : table :=
  foldr (λ h, partial_alter (f h) h) t (remove_dups hs).
Definition markAliveBatch (hs : list bytes) (observedAt : Z) (source : string) (now : Z) (t : table) : table :=
  update_rows (λ _ o, revive_row observedAt source now <$> o) hs t.

(** The condition of the conflict clause of the remote observations. *)
Definition remote_applies (r : Row) : bool :=
  bool_decide (last_qb_state r = None)
  && negb (bool_decide (status r = StatusAlive) && bool_decide (default "" (alive_source r) ∈ [AliveSourceQBState; AliveSourceArrWebhook])).
Definition remote_row (observedAt now : Z) (old : option Row) : option Row :=
  match old with
  | None => Some (mkRow StatusSuspect None (Some (timestamptz observedAt)) 1 (timestamptz observedAt) None None None now)
  | Some r =>
      if remote_applies r
      then
        let fresh := bool_decide (status r = StatusAlive) in
        Some (mkRow (if bool_decide (status r = StatusDead) then StatusDead else StatusSuspect) (last_qb_state r)
          (if fresh then Some (timestamptz observedAt) else Some (default (timestamptz observedAt) (suspect_first_seen_at r)))
          (if fresh then 1 else suspect_observations r + 1)%Z
          (timestamptz observedAt) (blacklisted_at r) (next_revalidate_at r) (alive_source r) now)
      else Some r
  end.
Definition recordSuspectBatch (hs : list bytes) (observedAt now : Z) (t : table) : table :=
  update_rows (λ _, remote_row observedAt now) hs t.

(** ** The resolver *)

(** The metric that an observation increments: a class and an outcome. *)
Abbreviation metric := (string * string)%type.
(** Which calls of the store fail, and the clock of the process. *)
Record faults := mkFaults { fail_alive : bool; fail_suspect : bool; fail_dead : bool }.
Definition no_faults : faults := mkFaults false false false.

Section liveness.
Context `{Unicode} (cfg : LivenessConfig).

Definition isPrivateCategory (category : runes) : bool := bool_decide (lower_trim category ∈ private_categories).

(** Whether a recorded row is to be promoted to dead. *)
Definition promotes (now : Z) (r : Row) : bool :=
  bool_decide (status r = StatusSuspect)
  && match suspect_first_seen_at r with
     | None => false
     | Some first => negb (now - first <? StallThreshold cfg)%Z && negb (suspect_observations r <? MinObservations cfg)%Z
     end.

(** [handleQBState] up to its second call of the store: the observation is
    recorded, and the torrent is to be promoted or not. *)
Definition observeQBState (f : faults) (now : Z) (ev : Evidence) (t : table) : table * list metric * option bytes :=
  match ClassifyQBState (e_QBState ev) with
  | QBStateClassAlive =>
      if fail_alive f then (t, [("alive", "error")], None)
      else (MarkAlive (e_InfoHash ev) (e_ObservedAt ev) (e_QBState ev) AliveSourceQBState now t, [("alive", "upsert")], None)
  | QBStateClassSuspect =>
      if fail_suspect f then (t, [("suspect", "error")], None)
      else
        let '(t, r) := RecordSuspect (e_InfoHash ev) (e_ObservedAt ev) (e_QBState ev) now t in
        (t, [("suspect", "upsert")], if promotes now r then Some (e_InfoHash ev) else None)
  | QBStateClassIgnore => (t, [], None)
  end.

(** Its second call, some time later. *)
Definition promote (fails : bool) (now : Z) (h : bytes) (t : table) : table * list metric :=
  if fails then (t, [("suspect", "error")]) else (MarkDead h now (BlacklistTTL cfg) now t, [("suspect", "blacklisted")]).

Definition handleArrImport (f : faults) (now : Z) (ev : Evidence) (t : table) : table * list metric :=
  if ExcludePrivateTrackerGrabs cfg && isPrivateCategory (e_Category ev) then (t, [("alive", "skip_private")])
  else if fail_alive f then (t, [("alive", "error")])
  else (MarkAlive (e_InfoHash ev) (e_ObservedAt ev) [] AliveSourceArrWebhook now t, [("alive", "upsert")]).

(** The handler up to the promotion, and the whole of it when nothing else runs
    in between. *)
Definition begin_evidence (f : faults) (now : Z) (ev : Evidence) (t : table) : table * list metric * option bytes :=
  if negb (Enabled cfg) then (t, [], None)
  else if bool_decide (e_InfoHash ev = []) then (t, [], None)
  else if bool_decide (e_Kind ev = KindQBStateObservation) then observeQBState f now ev t
  else if bool_decide (e_Kind ev ∈ [KindWebhookImport; KindPollHistory]) && (StrengthArrPollImport <=? e_Strength ev)%Z
  then (handleArrImport f now ev t, None)
  else (t, [], None).
Definition HandleEvidence (f : faults) (now : Z) (ev : Evidence) (t : table) : table * list metric :=
  match begin_evidence f now ev t with
  | (t, ms, None) => (t, ms)
  | (t, ms, Some h) => let '(t, ms') := promote (fail_dead f) now h t in (t, ms ++ ms')
  end.

Definition MarkAliveFromDHT (f : faults) (now : Z) (h : bytes) (t : table) : table * bool :=
  if negb (Enabled cfg) then (t, true)
  else if fail_alive f then (t, false)
  else (MarkAlive h now [] AliveSourceDHTRevalidate now t, true).

(** The hook of the evidence store: a piece of evidence that is stored drives
    the resolver, once. *)
Definition ingest (fails : stage → bool) (f : faults) (now : Z) (ev : Evidence) (s : db * table) : db * table :=
  match Insert fails ev s.1 with
  | (d, None) => (d, (HandleEvidence f now ev s.2).1)
  | (d, Some _) => (d, s.2)
  end.

(** ** The revalidator *)

(** A peer that a node returned, in text; a query that fails gives none.
    [expired i] says that the time of the lookup is up before query [i]. *)
Fixpoint query_loop (minPeers : Z) (expired : nat → bool) (i : nat) (answers : list (option (list runes))) (peers : gset runes) : gset runes :=
  match answers with
  | [] => peers
  | a :: answers =>
      if expired i then peers
      else
        match a with
        | None => query_loop minPeers expired (S i) answers peers
        | Some vs =>
            let peers := peers ∪ list_to_set vs in
            if (minPeers <=? Z.of_nat (size peers))%Z then peers else query_loop minPeers expired (S i) answers peers
        end
  end.

Inductive revalidation := RevError | RevNoNodes | RevAliveAgain | RevStillDead.

(** [answers] are the answers of the closest nodes of the routing table, in
    order; [fail_rearm] says that the store cannot rearm the row. *)
Definition revalidateOne (f : faults) (fail_rearm : bool) (expired : nat → bool) (answers : list (option (list runes))) (now : Z) (h : bytes)
    (t : table) : table * revalidation :=
  if negb (bool_decide (length h = 20%nat)) then (t, RevError)
  else
    let rearmed := if fail_rearm then t else RearmRevalidate h (BlacklistTTL cfg) now t in
    match answers with
    | [] => (rearmed, RevNoNodes)
    | _ =>
        let peers := query_loop (RevalidateMinPeers cfg) expired 0 answers ∅ in
        if (RevalidateMinPeers cfg <=? Z.of_nat (size peers))%Z
        then let '(t', ok) := MarkAliveFromDHT f now h t in (t', if ok then RevAliveAgain else RevError)
        else (rearmed, if fail_rearm then RevError else RevStillDead)
    end.
End liveness.

(** ** The specification *)

(** What was last learnt of a torrent: nothing; a sign of life, with whether
    qBittorrent's state is known and whether the sign is local; doubts of
    trackers only; observations of qBittorrent that it is stuck, with their
    times, since the last sign of life. *)
Inductive basis :=
| NoEvidence
| Healthy (known local : bool)
| Doubted
| Stalling (first : Z) (more : list Z).

(** Besides, since when it is blacklisted, if it is, and how many promotions
    were decided and are still to be carried out. *)
Record health := mkHealth { h_basis : basis; h_dead : option Z; h_decided : nat }.
Definition unknown : health := mkHealth NoEvidence None 0.

(** What happens, for one info hash. *)
Inductive signal :=
| SignAlive (known local : bool)
| SignStuck (observedAt now : Z)
| SignPromotion (now : Z) (fails : bool)
| SignScrapePositive
| SignScrapeZero.

Section spec.
Context (cfg : LivenessConfig).

(** Enough observations, over long enough. *)
Definition stalled (now first : Z) (more : list Z) : bool :=
  (StallThreshold cfg <=? now - timestamptz first)%Z && (MinObservations cfg <=? 1 + Z.of_nat (length more))%Z.

Definition one_more (b : basis) (t : Z) : Z * list Z :=
  match b with Stalling first more => (first, more ++ [t]) | _ => (t, []) end.

Definition health_step (s : health) (g : signal) : health :=
  let '(mkHealth b d n) := s in
  match g with
  | SignAlive k l => mkHealth (Healthy k l) None n
  | SignStuck t now =>
      let '(first, more) := one_more b t in
      mkHealth (Stalling first more) d (if bool_decide (d = None) && stalled now first more then S n else n)
  | SignPromotion now fails =>
      match n with
      | 0 => s
      | S n => mkHealth b (if fails : bool then d else match b with NoEvidence => d | _ => Some now end) n
      end
  | SignScrapePositive =>
      match b, d with
      | NoEvidence, _ => mkHealth NoEvidence None n
      | Healthy _ _, None => s
      | Healthy k _, Some _ => mkHealth (Healthy k false) None n
      | Doubted, _ => mkHealth (Healthy false false) None n
      | Stalling _ _, _ => mkHealth (Healthy true false) None n
      end
  | SignScrapeZero =>
      match b, d with
      | NoEvidence, _ | Doubted, _ | Healthy false false, None | Healthy false _, Some _ => mkHealth Doubted d n
      | _, _ => s
      end
  end.

(** How a row implements it. *)
Definition counts (r : Row) (first : Z) (more : list Z) : Prop :=
  last_qb_state r ≠ None ∧ suspect_first_seen_at r = Some (timestamptz first) ∧ suspect_observations r = (1 + Z.of_nat (length more))%Z.
Definition local_source (r : Row) : bool := bool_decide (default "" (alive_source r) ∈ [AliveSourceQBState; AliveSourceArrWebhook]).
Definition knows (b : basis) (r : Row) : Prop :=
  match b with
  | NoEvidence => False
  | Healthy k l => k = bool_decide (last_qb_state r ≠ None) ∧ l = local_source r ∧ suspect_first_seen_at r = None ∧ suspect_observations r = 0%Z
  | Doubted => last_qb_state r = None
  | Stalling first more => counts r first more
  end.
Definition shown (b : basis) (d : option Z) : Status :=
  match d, b with Some _, _ => StatusDead | None, Healthy _ _ => StatusAlive | None, _ => StatusSuspect end.
Definition implements (o : option Row) (s : health) : Prop :=
  match o with
  | None => h_basis s = NoEvidence ∧ h_dead s = None
  | Some r =>
      knows (h_basis s) r ∧ status r = shown (h_basis s) (h_dead s)
      ∧ match h_dead s with Some since => blacklisted_at r = Some (timestamptz since) ∧ next_revalidate_at r ≠ None | None => True end
  end.

Lemma implements_alive (h : bytes) (obs : Z) (qbState : runes) (source : string) (now : Z) (t : table) (s : health) :
  implements (MarkAlive h obs qbState source now t !! h)
    (health_step s (SignAlive (bool_decide (qbState ≠ [])) (bool_decide (source ∈ [AliveSourceQBState; AliveSourceArrWebhook])))).
Proof.
  destruct s as [b d n]. unfold MarkAlive. rewrite lookup_insert_eq. cbn. repeat split.
  - apply bool_decide_ext. by destruct qbState.
  - unfold local_source, nullableMediaType. cbn. by destruct (bool_decide_reflect (source = "")) as [->|].
Qed.

(** The row after a suspect observation, and whether it is to be promoted. *)
Lemma implements_suspect obs qbState now s o :
  qbState ≠ [] → implements o s →
  let r := suspect_row obs qbState now o in
  implements (Some r) (health_step s (SignStuck obs now))
  ∧ h_decided (health_step s (SignStuck obs now)) = (if promotes cfg now r then S (h_decided s) else h_decided s).
Proof.
  intros Hq Hi r. destruct s as [b d n]. cbn [health_step]. destruct (one_more b obs) as [first more] eqn:Eo.
  assert (Hn : nullableString qbState ≠ None) by by destruct qbState.
  assert (Hc : counts r first more ∧ status r = match d with Some _ => StatusDead | None => StatusSuspect end
            ∧ blacklisted_at r = (o ≫= blacklisted_at) ∧ next_revalidate_at r = (o ≫= next_revalidate_at)).
  { unfold r, suspect_row. destruct o as [q|]; [|destruct Hi as [Hb Hd]; cbn [h_basis h_dead] in Hb, Hd; subst b d; injection Eo as <- <-; by repeat split].
    destruct Hi as (Hk & Hs & _). cbn [h_basis h_dead] in Hk, Hs. unfold counts. cbn [status last_qb_state suspect_first_seen_at suspect_observations blacklisted_at next_revalidate_at].
    assert (Hst : (if bool_decide (status q = StatusDead) then StatusDead else StatusSuspect) = match d with Some _ => StatusDead | None => StatusSuspect end)
      by (rewrite Hs; destruct d, b; done). rewrite Hst.
    destruct b as [|k l| |f m]; cbn [one_more knows] in Eo, Hk; [done|..]; injection Eo as <- <-.
    - destruct Hk as (_ & _ & Hf & Ho). rewrite Hf, Ho. destruct (bool_decide (status q = StatusAlive) || bool_decide (last_qb_state q = None)); repeat split; try done.
    - rewrite (bool_decide_eq_true_2 _ Hk), orb_true_r. by repeat split.
    - destruct Hk as (Hl & Hf & Ho). rewrite (bool_decide_eq_false_2 _ Hl), Hf, Ho, orb_false_r, bool_decide_eq_false_2 by (rewrite Hs; by destruct d).
      repeat split; try done. rewrite length_app. cbn [length]. lia. }
  destruct Hc as ((Hl & Hf & Ho) & Hs & Hbl & Hnx). split.
  - cbn [implements h_basis h_dead knows shown]. split; [done|]. split; [by destruct d|]. destruct d as [since|]; [|done]. rewrite Hbl, Hnx.
    destruct o as [q|]; [|by destruct Hi as [_ Hd]]. by destruct Hi as (_ & _ & Hx).
  - cbn [h_decided]. unfold promotes, stalled. rewrite Hs, Hf, Ho. destruct d; [done|]. rewrite !bool_decide_eq_true_2 by done. cbn [andb].
    by rewrite <- !Z.leb_antisym.
Qed.

Lemma implements_promotion (fails : bool) (h : bytes) (now : Z) (t : table) (b : basis) (d : option Z) (n : nat) :
  implements (t !! h) (mkHealth b d (S n)) →
  implements ((promote cfg fails now h t).1 !! h) (health_step (mkHealth b d (S n)) (SignPromotion now fails)).
Proof.
  intros Hi. unfold promote. cbn [health_step]. destruct fails; [done|]. cbn [fst]. unfold MarkDead.
  destruct (t !! h) as [r|] eqn:Er; [|rewrite Er; destruct Hi as [Hb Hd]; cbn in Hb, Hd; by subst b d]. rewrite lookup_insert_eq.
  destruct Hi as (Hk & _ & _). cbn [h_basis] in Hk. destruct b as [|k l| |first more]; [done|..]; (split; [exact Hk|by repeat split]).
Qed.

Lemma implements_rearm (h : bytes) (ttl now : Z) (t : table) (s : health) : implements (t !! h) s → implements (RearmRevalidate h ttl now t !! h) s.
Proof.
  unfold RearmRevalidate. destruct (t !! h) as [r|] eqn:E; [|by rewrite E].
  destruct (bool_decide_reflect (status r = StatusDead)) as [Hd|Hd]; [|by rewrite E]. rewrite lookup_insert_eq.
  intros (Hk & Hs & Hx). cbn [implements]. rewrite Hd in Hs. split; [by destruct (h_basis s)|]. split; [done|]. by destruct (h_dead s); [destruct Hx|].
Qed.

Lemma implements_revive (obs now : Z) (o : option Row) (s : health) :
  implements o s → implements (revive_row obs AliveSourceTrackerScrape now <$> o) (health_step s SignScrapePositive).
Proof.
  destruct s as [b d n]. destruct o as [r|]; cbn [implements fmap option_fmap option_map h_basis h_dead health_step]; [|by intros [-> ->]].
  intros (Hk & Hs & Hx). unfold revive_row, revivable. rewrite Hs. destruct b as [|k l| |first more], d as [since|]; cbn [shown knows] in *; try done.
  - destruct Hk as (-> & -> & _), Hx as [_ Hx]. rewrite (bool_decide_eq_false_2 _ Hx). cbn. by repeat split.
  - destruct Hx as [_ Hx]. rewrite (bool_decide_eq_false_2 _ Hx), Hk. cbn. by repeat split.
  - rewrite Hk. cbn. by repeat split.
  - destruct Hk as (Hl & _), Hx as [_ Hx]. rewrite (bool_decide_eq_false_2 _ Hx). cbn. by rewrite (bool_decide_eq_true_2 _ Hl).
  - destruct Hk as (Hl & _). cbn. by rewrite (bool_decide_eq_true_2 _ Hl).
Qed.

Lemma implements_remote (obs now : Z) (o : option Row) (s : health) : implements o s → implements (remote_row obs now o) (health_step s SignScrapeZero).
Proof.
  destruct s as [b d n]. unfold remote_row, remote_applies. destruct o as [r|]; cbn [implements h_basis h_dead health_step]; [|by intros [-> ->]].
  intros (Hk & Hs & Hx). destruct b as [|k l| |first more]; cbn [knows] in Hk; [done|..].
  - destruct Hk as (Hq & Hl & Hf & Ho). fold (local_source r). rewrite <- Hl, Hs. destruct (bool_decide_reflect (last_qb_state r = None)) as [Hn|Hn].
    + rewrite bool_decide_eq_false_2 in Hq by (intros Hz; by apply Hz). subst k. destruct d as [since|]; cbn [shown].
      * rewrite (bool_decide_eq_false_2 (StatusDead = StatusAlive)) by done. cbn. by destruct l.
      * destruct l; cbn [negb andb]; [rewrite bool_decide_eq_true_2 by done; cbn [andb negb implements h_basis h_dead knows]|].
        -- split; [|done]. by rewrite bool_decide_eq_false_2 by (intros Hz; by apply Hz).
        -- rewrite andb_false_r. by repeat split.
    + rewrite bool_decide_eq_true_2 in Hq by done. subst k. cbn [andb]. destruct d; (split; [|done]); cbn [h_basis knows]; by rewrite bool_decide_eq_true_2.
  - rewrite (bool_decide_eq_true_2 _ Hk), Hs. destruct d as [since|]; cbn; (split; [exact Hk|done]).
  - destruct Hk as (Hl & Hf & Ho). rewrite (bool_decide_eq_false_2 _ Hl). cbn [andb]. by destruct d.
Qed.
End spec.

(** ** Traces *)

(** Every statement that writes the table, of however many goroutines: the
    first one of a handler of evidence; the promotion, if that handler decided
    on one, whenever it comes; those of the revalidator, and the two batches of
    the tracker scrapes. *)
Inductive event :=
| EvEvidence (f : faults) (now : Z) (ev : Evidence)
| EvPromote (fails : bool) (now : Z) (h : bytes)
| EvRevalidate (f : faults) (fail_rearm : bool) (expired : nat → bool) (answers : list (option (list runes))) (now : Z) (h : bytes)
| EvScrapePositive (hs : list bytes) (observedAt now : Z)
| EvScrapeZero (hs : list bytes) (observedAt now : Z).

(** The table, and the hashes whose handlers are between their two calls. *)
Abbreviation system := (table * gmultiset bytes)%type.

Section traces.
Context `{Unicode} (cfg : LivenessConfig).

Definition run_event (s : system) (e : event) : system :=
  match e with
  | EvEvidence f now ev =>
      match begin_evidence cfg f now ev s.1 with
      | (t, _, None) => (t, s.2)
      | (t, _, Some h) => (t, s.2 ⊎ {[+ h +]})
      end
  | EvPromote fails now h =>
      if bool_decide (h ∈ s.2) then ((promote cfg fails now h s.1).1, s.2 ∖ {[+ h +]}) else s
  | EvRevalidate f r x a now h => ((revalidateOne cfg f r x a now h s.1).1, s.2)
  | EvScrapePositive hs obs now => (markAliveBatch hs obs AliveSourceTrackerScrape now s.1, s.2)
  | EvScrapeZero hs obs now => (recordSuspectBatch hs obs now s.1, s.2)
  end.

(** What a piece of evidence says of its torrent. *)
Definition evidence_signal (f : faults) (now : Z) (ev : Evidence) : option signal :=
  if bool_decide (e_Kind ev = KindQBStateObservation)
  then match ClassifyQBState (e_QBState ev) with
       | QBStateClassAlive => if fail_alive f then None else Some (SignAlive true true)
       | QBStateClassSuspect => if fail_suspect f then None else Some (SignStuck (e_ObservedAt ev) now)
       | QBStateClassIgnore => None
       end
  else if bool_decide (e_Kind ev ∈ [KindWebhookImport; KindPollHistory]) && (StrengthArrPollImport <=? e_Strength ev)%Z
  then if ExcludePrivateTrackerGrabs cfg && isPrivateCategory (e_Category ev) || fail_alive f then None else Some (SignAlive false true)
  else None.

(** Enough distinct peers were found by the lookup. *)
Definition found_peers (expired : nat → bool) (answers : list (option (list runes))) : bool :=
  (RevalidateMinPeers cfg <=? Z.of_nat (size (query_loop (RevalidateMinPeers cfg) expired 0 answers ∅)))%Z.

Definition signals (h : bytes) (e : event) : list signal :=
  match e with
  | EvEvidence f now ev => if Enabled cfg && bool_decide (h ≠ []) && bool_decide (e_InfoHash ev = h) then option_list (evidence_signal f now ev) else []
  | EvPromote fails now h' => if bool_decide (h' = h) then [SignPromotion now fails] else []
  | EvRevalidate f _ x a _ h' =>
      if Enabled cfg && bool_decide (h' = h) && bool_decide (length h = 20%nat) && bool_decide (a ≠ []) && found_peers x a && negb (fail_alive f)
      then [SignAlive false false] else []
  | EvScrapePositive hs _ _ => if bool_decide (h ∈ hs) then [SignScrapePositive] else []
  | EvScrapeZero hs _ _ => if bool_decide (h ∈ hs) then [SignScrapeZero] else []
  end.

Definition run (tr : list event) (s : system) : system := foldl run_event s tr.
Definition spec_run (h : bytes) (tr : list event) : health := foldl (health_step cfg) unknown (tr ≫= signals h).

(** The whole state implements the automaton of a hash. *)
Definition in_step (s : system) (h : bytes) (a : health) : Prop := implements (s.1 !! h) a ∧ multiplicity h s.2 = h_decided a.

Lemma update_rows_lookup (f : bytes → option Row → option Row) (hs : list bytes) (t : table) (h : bytes) : update_rows f hs t !! h = if bool_decide (h ∈ hs) then f h (t !! h) else t !! h.
Proof.
  unfold update_rows. rewrite (bool_decide_ext (h ∈ hs) (h ∈ remove_dups hs)) by by rewrite elem_of_remove_dups.
  pose proof (NoDup_remove_dups hs) as Hn. induction (remove_dups hs) as [|x l IH]; [done|]. simpl. apply NoDup_cons in Hn as [Hx Hn]. specialize (IH Hn).
  destruct (decide (h = x)) as [->|Hne].
  - rewrite lookup_partial_alter_eq, IH, (bool_decide_eq_false_2 _ Hx). by rewrite bool_decide_eq_true_2 by by left.
  - rewrite lookup_partial_alter_ne by done. rewrite IH. by rewrite (bool_decide_ext (h ∈ x :: l) (h ∈ l)) by (rewrite elem_of_cons; naive_solver).
Qed.

Lemma ClassifyQBState_nonempty s : ClassifyQBState s ≠ QBStateClassIgnore → s ≠ [].
Proof. intros Hc ->. by apply Hc. Qed.

Lemma observeQBState_other (f : faults) (now : Z) (ev : Evidence) (t : table) (h : bytes) :
  h ≠ e_InfoHash ev → (observeQBState cfg f now ev t).1.1 !! h = t !! h ∧ (observeQBState cfg f now ev t).2 ≠ Some h.
Proof.
  intros Hh. unfold observeQBState. destruct (ClassifyQBState _); [| |done].
  - destruct (fail_alive f); [done|]. unfold MarkAlive. cbn [fst snd]. by rewrite lookup_insert_ne.
  - destruct (fail_suspect f); [done|]. unfold RecordSuspect. cbn [fst snd]. rewrite lookup_insert_ne by done. split; [done|].
    destruct (promotes _ _ _); congruence.
Qed.

(** An observation of qBittorrent follows the automaton. *)
Lemma observeQBState_implements (f : faults) (now : Z) (ev : Evidence) (t : table) (s : health) :
  implements (t !! e_InfoHash ev) s → e_Kind ev = KindQBStateObservation →
  let a := foldl (health_step cfg) s (option_list (evidence_signal f now ev)) in
  let o := observeQBState cfg f now ev t in
  implements (o.1.1 !! e_InfoHash ev) a ∧ h_decided a = (h_decided s + match o.2 with Some _ => 1 | None => 0 end)%nat
  ∧ (o.2 = None ∨ o.2 = Some (e_InfoHash ev)).
Proof.
  intros Hi Hk. unfold evidence_signal, observeQBState. rewrite bool_decide_eq_true_2 by done.
  pose proof (ClassifyQBState_nonempty (e_QBState ev)) as Hst. destruct (ClassifyQBState (e_QBState ev)).
  - destruct (fail_alive f); [cbn; split; [done|]; split; [lia|by left]|]. change (option_list (Some ?g)) with [g]. cbn [foldl fst snd].
    pose proof (implements_alive cfg (e_InfoHash ev) (e_ObservedAt ev) (e_QBState ev) AliveSourceQBState now t s) as Ha.
    rewrite (bool_decide_eq_true_2 (e_QBState ev ≠ [])) in Ha by by apply Hst. split; [exact Ha|]. destruct s. cbn. split; [lia|by left].
  - destruct (fail_suspect f); [cbn; split; [done|]; split; [lia|by left]|]. change (option_list (Some ?g)) with [g]. unfold RecordSuspect. cbn [foldl fst snd].
    destruct (implements_suspect cfg (e_ObservedAt ev) (e_QBState ev) now s _ (Hst ltac:(done)) Hi) as [Hr Hd]. rewrite lookup_insert_eq, Hd.
    split; [done|]. destruct (promotes _ _ _); (split; [lia|]); [by right|by left].
  - cbn. split; [done|]. split; [lia|by left].
Qed.

Lemma handleArrImport_lookup (f : faults) (now : Z) (ev : Evidence) (t : table) (h : bytes) :
  (handleArrImport cfg f now ev t).1 !! h =
  if ExcludePrivateTrackerGrabs cfg && isPrivateCategory (e_Category ev) || fail_alive f then t !! h
  else MarkAlive (e_InfoHash ev) (e_ObservedAt ev) [] AliveSourceArrWebhook now t !! h.
Proof. unfold handleArrImport. destruct (_ && _); [done|]. by destruct (fail_alive f). Qed.

(** A handler's first statement follows the automaton, for every hash. *)
Lemma begin_evidence_in_step (f : faults) (now : Z) (ev : Evidence) (s : system) (a : health) (h : bytes) :
  in_step s h a → in_step (run_event s (EvEvidence f now ev)) h (foldl (health_step cfg) a (signals h (EvEvidence f now ev))).
Proof.
  intros [Hi Hm]. unfold run_event, begin_evidence, signals. destruct (Enabled cfg); [|done]. cbn [negb andb].
  destruct (bool_decide_reflect (e_InfoHash ev = [])) as [He|He].
  { rewrite He. destruct (bool_decide_reflect (h ≠ [])); [|done]. rewrite bool_decide_eq_false_2 by done. done. }
  destruct (bool_decide_reflect (e_Kind ev = KindQBStateObservation)) as [Hk|Hk].
  - destruct (decide (e_InfoHash ev = h)) as [<-|Hh]; cycle 1.
    { rewrite (bool_decide_eq_false_2 _ Hh), andb_false_r. destruct (observeQBState_other f now ev s.1 h) as [Ht Hp]; [done|].
      destruct (observeQBState _ _ _ _ _) as [[t ms] [p|]]; cbn [fst snd] in *; (split; cbn [fst snd]; [by rewrite Ht|]); [|done].
      rewrite multiplicity_disj_union, multiplicity_singleton_ne by congruence. cbn [foldl]. lia. }
    rewrite (bool_decide_eq_true_2 _ He), (bool_decide_eq_true_2 (e_InfoHash ev = e_InfoHash ev)) by done. cbn [andb].
    destruct (observeQBState_implements f now ev s.1 a Hi Hk) as (Hr & Hd & Hp).
    destruct (observeQBState _ _ _ _ _) as [[t ms] [p|]]; cbn [fst snd] in *; (split; cbn [fst snd]; [done|]); rewrite Hd, <- Hm; [|lia].
    destruct Hp as [Hp|Hp]; [done|]. injection Hp as ->. rewrite multiplicity_disj_union, multiplicity_singleton_eq. lia.
  - unfold evidence_signal. rewrite (bool_decide_eq_false_2 _ Hk). destruct (_ && (_ <=? _)%Z); [|destruct (bool_decide (h ≠ []) && _); by split].
    pose proof (handleArrImport_lookup f now ev s.1 h) as Hl. destruct (handleArrImport _ _ _ _ _) as [t ms]. cbn [fst snd] in *.
    destruct (_ || fail_alive f); [destruct (bool_decide (h ≠ []) && _); (split; cbn [fst snd]; [by rewrite Hl|done])|].
    destruct (decide (e_InfoHash ev = h)) as [<-|Hh]; cycle 1.
    { rewrite (bool_decide_eq_false_2 _ Hh), andb_false_r. split; cbn [fst snd]; [|done]. rewrite Hl. unfold MarkAlive. by rewrite lookup_insert_ne. }
    rewrite (bool_decide_eq_true_2 _ He), (bool_decide_eq_true_2 (e_InfoHash ev = e_InfoHash ev)) by done. split; cbn [fst snd andb].
    + rewrite Hl. apply (implements_alive cfg (e_InfoHash ev) (e_ObservedAt ev) [] AliveSourceArrWebhook).
    + by destruct a.
Qed.
End traces.

Section refinement.
Context `{Unicode} (cfg : LivenessConfig).

Lemma promote_in_step (fails : bool) (now : Z) (h' h : bytes) (s : system) (a : health) :
  in_step s h a → in_step (run_event cfg s (EvPromote fails now h')) h (foldl (health_step cfg) a (signals cfg h (EvPromote fails now h'))).
Proof.
  intros [Hi Hm]. cbn [run_event signals]. destruct (bool_decide_reflect (h' ∈ s.2)) as [Hp|Hp].
  - destruct (bool_decide_reflect (h' = h)) as [->|Hh]; cbn [foldl].
    + rewrite elem_of_multiplicity in Hp. destruct a as [b d [|n]]; cbn [h_decided] in Hm; [lia|]. split; cbn [fst snd].
      * by apply implements_promotion.
      * rewrite multiplicity_difference, multiplicity_singleton_eq, Hm. cbn [health_step h_decided]. lia.
    + split; cbn [fst snd].
      * unfold promote, MarkDead. destruct fails; [done|]. cbn [fst]. destruct (s.1 !! h'); [by rewrite lookup_insert_ne|done].
      * rewrite multiplicity_difference, multiplicity_singleton_ne by done. cbn [foldl]. lia.
  - destruct (bool_decide_reflect (h' = h)) as [->|Hh]; [|done]. destruct a as [b d [|n]]; [done|]. cbn [h_decided] in Hm.
    destruct Hp. apply elem_of_multiplicity. lia.
Qed.

Lemma revalidateOne_implements (f : faults) (r : bool) (x : nat → bool) (a : list (option (list runes))) (now : Z) (h' h : bytes) (t : table) (s : health) :
  implements (t !! h) s →
  implements ((revalidateOne cfg f r x a now h' t).1 !! h) (foldl (health_step cfg) s (signals cfg h (EvRevalidate f r x a now h'))).
Proof.
  intros Hi. unfold revalidateOne, signals. fold (found_peers cfg x a).
  assert (Hre : implements ((if r then t else RearmRevalidate h' (BlacklistTTL cfg) now t) !! h) s).
  { destruct r; [done|]. destruct (decide (h' = h)) as [->|Hh]; [by apply implements_rearm|].
    unfold RearmRevalidate. destruct (t !! h') as [row|]; [|done]. destruct (bool_decide _); [by rewrite lookup_insert_ne|done]. }
  destruct (bool_decide_reflect (length h' = 20%nat)) as [Hl|Hl]; cbn [negb]; cycle 1.
  { destruct (bool_decide_reflect (h' = h)) as [<-|]; [|by rewrite andb_false_r]. rewrite (bool_decide_eq_false_2 _ Hl), andb_false_r. done. }
  destruct a as [|a0 a]; [by rewrite (bool_decide_eq_false_2 (_ ≠ [])), andb_false_r by (intros Hx; by apply Hx)|].
  rewrite (bool_decide_eq_true_2 (a0 :: a ≠ [])), andb_true_r by done. unfold found_peers.
  destruct (RevalidateMinPeers cfg <=? _)%Z; cbn [fst]; [|by rewrite andb_false_r].
  rewrite andb_true_r. unfold MarkAliveFromDHT. destruct (Enabled cfg); cbn [negb andb]; [|done].
  destruct (bool_decide_reflect (h' = h)) as [<-|Hh]; cbn [andb].
  - rewrite (bool_decide_eq_true_2 _ Hl). destruct (fail_alive f); [done|]. apply (implements_alive cfg h' now [] AliveSourceDHTRevalidate).
  - destruct (fail_alive f); [done|]. cbn [fst]. unfold MarkAlive. by rewrite lookup_insert_ne.
Qed.

(** Only qBittorrent and the promotions change what is decided. *)
Lemma other_signals_decided (a : health) (g : signal) :
  match g with SignStuck _ _ | SignPromotion _ _ => False | _ => True end → h_decided (health_step cfg a g) = h_decided a.
Proof. destruct a as [b d n], g; try done; cbn; intros _; by destruct b as [|[] []| |], d. Qed.

Lemma run_event_in_step (e : event) (s : system) (h : bytes) (a : health) :
  in_step s h a → in_step (run_event cfg s e) h (foldl (health_step cfg) a (signals cfg h e)).
Proof.
  destruct e as [f now ev|fails now h'|f r x ans now h'|hs obs now|hs obs now].
  - by apply begin_evidence_in_step.
  - by apply promote_in_step.
  - intros [Hi Hm]. split; [by apply revalidateOne_implements|]. cbn [run_event fst snd signals]. rewrite Hm.
    destruct (_ && _); [|done]. cbn [foldl]. by rewrite other_signals_decided.
  - intros [Hi Hm]. split; cbn [run_event fst snd signals].
    + unfold markAliveBatch. rewrite update_rows_lookup. destruct (bool_decide _); [by apply (implements_revive cfg)|done].
    + rewrite Hm. destruct (bool_decide _); [|done]. cbn [foldl]. by rewrite other_signals_decided.
  - intros [Hi Hm]. split; cbn [run_event fst snd signals].
    + unfold recordSuspectBatch. rewrite update_rows_lookup. destruct (bool_decide _); [by apply (implements_remote cfg)|done].
    + rewrite Hm. destruct (bool_decide _); [|done]. cbn [foldl]. by rewrite other_signals_decided.
Qed.

Lemma run_in_step (tr : list event) (s : system) (h : bytes) (a : health) :
  in_step s h a → in_step (run cfg tr s) h (foldl (health_step cfg) a (tr ≫= signals cfg h)).
Proof.
  revert s a. induction tr as [|e tr IH]; intros s a Hi; [done|]. rewrite bind_cons, foldl_app. by apply IH, run_event_in_step.
Qed.
Lemma run_rows_spec (tr : list event) (h : bytes) : in_step (run cfg tr (∅, ∅)) h (spec_run cfg h tr).
Proof. apply run_in_step. split; [done|]. exact (multiplicity_empty h). Qed.

(** A handler that nothing interrupts is its two statements. *)
Lemma uninterrupted_handler (f : faults) (now : Z) (ev : Evidence) (t : table) :
  run cfg [EvEvidence f now ev; EvPromote (fail_dead f) now (e_InfoHash ev)] (t, ∅) = ((HandleEvidence cfg f now ev t).1, ∅).
Proof.
  unfold HandleEvidence. cbn [run foldl run_event fst snd].
  assert (Hp : (begin_evidence cfg f now ev t).2 = None ∨ (begin_evidence cfg f now ev t).2 = Some (e_InfoHash ev)).
  { unfold begin_evidence, observeQBState, RecordSuspect. repeat (case_match; try by left); try by right. }
  destruct (begin_evidence cfg f now ev t) as [[t' ms] [p|]]; cbn [snd] in Hp.
  - destruct Hp as [Hp|Hp]; [done|]. injection Hp as ->. cbn [fst snd]. rewrite bool_decide_eq_true_2 by multiset_solver.
    destruct (promote _ _ _ _ _) as [t2 ms2]. cbn [fst]. f_equal. multiset_solver.
  - rewrite bool_decide_eq_false_2 by multiset_solver. done.
Qed.
End refinement.


(** The observations of qBittorrent that a torrent is stuck, since the last
    sign of life. *)
Definition stuck_since (w : list Z) (g : signal) : list Z :=
  match g with SignStuck t _ => w ++ [t] | SignAlive _ _ | SignScrapePositive => [] | SignPromotion _ _ | SignScrapeZero => w end.
Definition stuck_times (gs : list signal) : list Z := foldl stuck_since [] gs.
Definition sign_of_life (g : signal) : bool :=
  match g with SignAlive _ _ | SignScrapePositive => true | _ => false end.

Section justification.
Context (cfg : LivenessConfig).

(** After [gs1] the observation at [obs] decides, at [now]. *)
Definition decides (gs1 : list signal) (obs now : Z) : Prop :=
  ∃ first more, stuck_times (gs1 ++ [SignStuck obs now]) = first :: more
    ∧ (StallThreshold cfg ≤ now - timestamptz first)%Z ∧ (MinObservations cfg ≤ 1 + Z.of_nat (length more))%Z.
Definition decided_in (gs : list signal) : Prop := ∃ gs1 obs now gs2, gs = gs1 ++ SignStuck obs now :: gs2 ∧ decides gs1 obs now.
Definition buried_in (gs : list signal) (since : Z) : Prop :=
  ∃ gs1 gs2, gs = gs1 ++ SignPromotion since false :: gs2 ∧ decided_in gs1 ∧ Forall (λ g, sign_of_life g = false) gs2.

Definition justified (gs : list signal) (s : health) : Prop :=
  stuck_times gs = match h_basis s with Stalling first more => first :: more | _ => [] end
  ∧ ((0 < h_decided s)%nat → decided_in gs) ∧ (∀ since, h_dead s = Some since → buried_in gs since).

Lemma decided_in_app (gs gs' : list signal) : decided_in gs → decided_in (gs ++ gs').
Proof. intros (g1 & obs & now & g2 & -> & Hd). exists g1, obs, now, (g2 ++ gs'). split; [|done]. by rewrite <- app_assoc. Qed.
Lemma buried_in_app (gs : list signal) (since : Z) (g : signal) : sign_of_life g = false → buried_in gs since → buried_in (gs ++ [g]) since.
Proof.
  intros Hg (g1 & g2 & -> & Hd & Hf). exists g1, (g2 ++ [g]). split; [by rewrite <- app_assoc|]. split; [done|]. by apply Forall_app_2; [|constructor].
Qed.

Lemma health_step_justified (gs : list signal) (s : health) (g : signal) : justified gs s → justified (gs ++ [g]) (health_step cfg s g).
Proof.
  destruct s as [b d n]. intros (Hw & Hn & Hd). cbn [h_basis h_decided h_dead] in *.
  assert (Hn' : (0 < n)%nat → decided_in (gs ++ [g])) by (intros Hp; by apply decided_in_app, Hn).
  assert (Hd' : sign_of_life g = false → ∀ since, d = Some since → buried_in (gs ++ [g]) since) by (intros Hg since Hs; apply buried_in_app; auto).
  assert (Hs : stuck_times (gs ++ [g]) = stuck_since (stuck_times gs) g) by (unfold stuck_times; by rewrite foldl_app).
  destruct g as [k l|t now|now fails| |]; cbn [sign_of_life stuck_since] in Hs, Hd'; unfold justified; rewrite Hs.
  - by cbn.
  - cbn [health_step]. destruct (one_more b t) as [first more] eqn:Eo. cbn [h_basis h_decided h_dead].
    assert (Hst : stuck_times gs ++ [t] = first :: more) by (rewrite Hw; destruct b; by injection Eo as <- <-).
    split; [done|]. split; [|by apply Hd']. destruct (bool_decide (d = None) && stalled cfg now first more) eqn:Es; [|done]. intros _.
    apply andb_prop in Es as [_ Es]. apply andb_prop in Es as [Et Em]. exists gs, t, now, []. split; [done|]. exists first, more. split; [by rewrite Hs|lia].
  - destruct n as [|n]; cbn [health_step]; [by auto|]. cbn [h_basis h_decided h_dead]. split; [done|].
    split; [intros _; apply Hn'; lia|]. intros since Hx. destruct fails; [by apply Hd'|].
    destruct b; [by apply Hd'|..]; injection Hx as <-; (exists gs, []; split; [done|]; split; [apply Hn; lia|done]).
  - destruct b, d; cbn; (split; [done|]; by auto).
  - destruct b as [|[] []| |], d as [since|]; cbn; (split; [done|]; auto).
Qed.

Lemma spec_justified (gs : list signal) : justified gs (foldl (health_step cfg) unknown gs).
Proof.
  induction gs as [|g gs IH] using rev_ind; [by split; [|split; [cbn; lia|]]|]. rewrite foldl_app. cbn [foldl]. by apply health_step_justified.
Qed.
End justification.

(** C22: a torrent is dead only on local evidence.  In whatever order the
    statements ran, a dead row was promoted, at the time it is blacklisted since,
    by a handler that decided on it earlier: when qBittorrent reported the
    torrent stuck once more and, counted from the sign of life that was last
    then, it had done so at least [MinObservations] times, the first of them at
    least [StallThreshold] before; and no sign of life came after the promotion.
    The zeros of trackers count for nothing, however many there are.  (A sign
    of life may come between the decision and the promotion.) *)
Theorem dead_justified `{Unicode} (cfg : LivenessConfig) (tr : list event) (h : bytes) (r : Row) :
  (run cfg tr (∅, ∅)).1 !! h = Some r → status r = StatusDead →
  ∃ gs1 obs now gs2 since gs3 first more,
    tr ≫= signals cfg h = gs1 ++ SignStuck obs now :: gs2 ++ SignPromotion since false :: gs3
    ∧ stuck_times (gs1 ++ [SignStuck obs now]) = first :: more
    ∧ (StallThreshold cfg ≤ now - timestamptz first)%Z ∧ (MinObservations cfg ≤ 1 + Z.of_nat (length more))%Z
    ∧ Forall (λ g, sign_of_life g = false) gs3 ∧ blacklisted_at r = Some (timestamptz since).
Proof.
  intros Hr Hd. destruct (run_rows_spec cfg tr h) as [Hi _]. rewrite Hr in Hi. destruct Hi as (_ & Hs & Hb). rewrite Hd in Hs.
  destruct (spec_justified cfg (tr ≫= signals cfg h)) as (_ & _ & Hj). fold (spec_run cfg h tr) in Hj.
  destruct (h_dead (spec_run cfg h tr)) as [since|]; [|by destruct (h_basis _)].
  destruct (Hj since eq_refl) as (? & gs3 & Hg & (gs1 & obs & now & gs2 & -> & first & more & Hst & Ht & Hm) & Hl).
  exists gs1, obs, now, gs2, since, gs3, first, more. rewrite Hg, <- app_assoc. by destruct Hb.
Qed.

(** a torrent that stalls is blacklisted: when the observation that
    qBittorrent reports, with those since the last sign of life, makes enough of
    them over a long enough time, the promotion that the handler then carries
    out leaves the torrent dead. *)
Theorem stalled_is_blacklisted `{Unicode} (cfg : LivenessConfig) (tr : list event) (f : faults) (now now' : Z) (ev : Evidence) (first : Z) (more : list Z) :
  Enabled cfg = true → e_InfoHash ev ≠ [] → e_Kind ev = KindQBStateObservation → ClassifyQBState (e_QBState ev) = QBStateClassSuspect →
  fail_suspect f = false →
  stuck_times (tr ≫= signals cfg (e_InfoHash ev)) ++ [e_ObservedAt ev] = first :: more →
  (StallThreshold cfg ≤ now - timestamptz first)%Z → (MinObservations cfg ≤ 1 + Z.of_nat (length more))%Z →
  status <$> (run cfg (tr ++ [EvEvidence f now ev; EvPromote false now' (e_InfoHash ev)]) (∅, ∅)).1 !! e_InfoHash ev = Some StatusDead.
Proof.
  intros He Hne Hk Hst Hf Hw Ht Hm. set (h := e_InfoHash ev) in *.
  destruct (run_rows_spec cfg (tr ++ [EvEvidence f now ev; EvPromote false now' h]) h) as [Hi _]. unfold spec_run in Hi.
  rewrite bind_app, foldl_app in Hi. cbn [mbind list_bind] in Hi. rewrite app_nil_r, foldl_app in Hi. cbn [signals] in Hi.
  rewrite He, (bool_decide_eq_true_2 _ Hne), (bool_decide_eq_true_2 (e_InfoHash ev = h)), (bool_decide_eq_true_2 (h = h)) in Hi by done.
  unfold evidence_signal in Hi. rewrite (bool_decide_eq_true_2 _ Hk), Hst, Hf in Hi.
  change (option_list (Some ?g)) with [g] in Hi. cbn [foldl andb] in Hi.
  destruct (spec_justified cfg (tr ≫= signals cfg h)) as (Hj & _). fold (stuck_times (tr ≫= signals cfg h)) in Hj.
  destruct (foldl (health_step cfg) unknown (tr ≫= signals cfg h)) as [b d n]. cbn [h_basis health_step] in Hj, Hi.
  assert (Hs : stalled cfg now first more = true) by (apply andb_true_iff; by rewrite !Z.leb_le).
  assert (Ho : one_more b (e_ObservedAt ev) = (first, more)) by (rewrite Hj in Hw; destruct b; cbn in Hw |- *; by injection Hw as -> ->).
  rewrite Ho, Hs in Hi. destruct ((run _ _ _).1 !! h) as [r|]; cbn [fmap option_fmap option_map].
  - f_equal. destruct Hi as (_ & Hx & _). rewrite Hx. destruct d as [since|]; [|done]. cbn. by destruct n.
  - destruct Hi as [Hb _]. revert Hb. destruct (bool_decide _ && true); [done|]. by destruct n.
Qed.

(** ** Scrapes *)

(** the scrapes of trackers kill nothing and resurrect nothing that is dead
    for good: from any table, a row that is dead after a batch was dead before
    it, and a dead row without a timer stays dead and without one. *)
Theorem scrapes_harmless (hs : list bytes) (obs now : Z) (t : table) (h : bytes) (r : Row) (positive : bool) :
  (if positive then markAliveBatch hs obs AliveSourceTrackerScrape now t else recordSuspectBatch hs obs now t) !! h = Some r →
  (status r = StatusDead → ∃ r0, t !! h = Some r0 ∧ status r0 = StatusDead ∧ next_revalidate_at r0 = next_revalidate_at r)
  ∧ (∀ r0, t !! h = Some r0 → status r0 = StatusDead → next_revalidate_at r0 = None → status r = StatusDead ∧ next_revalidate_at r = None).
Proof.
  destruct positive; unfold markAliveBatch, recordSuspectBatch; rewrite update_rows_lookup;
    (destruct (bool_decide (h ∈ hs)); [|intros Hr; rewrite Hr; split; [by exists r|intros ? [= <-]; done]]).
  - destruct (t !! h) as [r0|]; [|done]. cbn. unfold revive_row. intros [= <-]. destruct (revivable r0) eqn:Er.
    + split; [done|]. intros ? [= <-] Hs Hn. unfold revivable in Er. rewrite Hs, Hn in Er. done.
    + split; [by exists r0|]. by intros ? [= <-].
  - unfold remote_row. destruct (t !! h) as [r0|]; [|by intros [= <-]].
    destruct (remote_applies r0); [|intros [= <-]; split; [by exists r0|by intros ? [= <-]]]. intros [= <-]. cbn. split.
    + destruct (bool_decide_reflect (status r0 = StatusDead)); [by exists r0|done].
    + intros ? [= <-] Hs Hn. by rewrite Hs.
Qed.

(** ** Lookups *)

Definition all_peers (answers : list (option (list runes))) : gset runes := ⋃ (list_to_set ∘ default [] <$> answers).

Lemma query_loop_enough (m : Z) (answers : list (option (list runes))) (i : nat) (peers : gset runes) :
  (m ≤ Z.of_nat (size (query_loop m (λ _, false) i answers peers)) ↔ m ≤ Z.of_nat (size (peers ∪ all_peers answers)))%Z.
Proof.
  revert i peers. induction answers as [|a answers IH]; intros i peers.
  - cbn [query_loop]. unfold all_peers. cbn. by rewrite (right_id_L ∅ (∪) peers).
  - cbn [query_loop]. unfold all_peers. cbn [fmap list_fmap union_list foldr]. fold (all_peers answers). destruct a as [vs|]; cbn [compose default].
    + rewrite (assoc_L (∪)). destruct (Z.leb_spec m (Z.of_nat (size (peers ∪ list_to_set vs)))) as [Hm|Hm]; [|by rewrite IH].
      split; [intros _|done]. etrans; [exact Hm|]. apply inj_le, subseteq_size, union_subseteq_l.
    + rewrite IH. cbn. by rewrite (left_id_L ∅ (∪) (all_peers answers)).
Qed.

(** a lookup that is given the time revives a torrent exactly when the
    closest nodes, all together, return enough distinct peers: stopping at the
    first node that completes the number changes nothing.  Otherwise the status
    of the torrent does not change. *)
Theorem lookup_exact (cfg : LivenessConfig) (answers : list (option (list runes))) (now : Z) (h : bytes) (t : table) :
  Enabled cfg = true → length h = 20%nat → answers ≠ [] →
  let '(t', v) := revalidateOne cfg no_faults false (λ _, false) answers now h t in
  if decide (RevalidateMinPeers cfg ≤ Z.of_nat (size (all_peers answers)))%Z
  then v = RevAliveAgain ∧ status <$> t' !! h = Some StatusAlive
  else v = RevStillDead ∧ (status <$> t' !! h) = (status <$> t !! h).
Proof.
  intros He Hl Hn. unfold revalidateOne. rewrite bool_decide_eq_true_2 by done. cbn [negb]. destruct answers as [|a answers]; [done|].
  pose proof (query_loop_enough (RevalidateMinPeers cfg) (a :: answers) 0 ∅) as Hq. rewrite (left_id_L ∅ (∪)) in Hq.
  destruct (Z.leb_spec (RevalidateMinPeers cfg) (Z.of_nat (size (query_loop (RevalidateMinPeers cfg) (λ _, false) 0 (a :: answers) ∅)))) as [Hm|Hm].
  - unfold MarkAliveFromDHT. rewrite He. cbn [negb no_faults fail_alive]. rewrite decide_True by by apply Hq. split; [done|].
    unfold MarkAlive. by rewrite lookup_insert_eq.
  - rewrite decide_False by (intros Hx; apply Hq in Hx; lia). split; [done|]. unfold RearmRevalidate.
    destruct (t !! h) as [r|] eqn:Er; [|by rewrite Er]. destruct (bool_decide_reflect (status r = StatusDead)) as [Hd|]; [|by rewrite Er].
    rewrite lookup_insert_eq. cbn. by rewrite Hd.
Qed.

Definition qb_state (h : bytes) (state : string) (at_ : Z) : Evidence :=
  mkEvidence SourceQBittorrent KindQBStateObservation [] [] [] h [] "" [] [] at_ 35 [] (runes_of state).
Definition on_config : LivenessConfig := mkConfig true 4 2 30 2 true.

(** A torrent that was just seen seeding can be blacklisted: the promotion that
    an earlier observation decided runs after the sign of life, and marks dead a
    row that has no observation left. *)
Definition race_hash : bytes := [7]%Z.
Example promotion_race :
  (λ r, (status r, suspect_observations r, suspect_first_seen_at r, last_qb_state r)) <$>
    (@run ascii_unicode on_config
      [EvEvidence no_faults 0 (qb_state race_hash "stalledDL" 0); EvEvidence no_faults (5 * Hour) (qb_state race_hash "stalledDL" (5 * Hour));
       EvEvidence no_faults (5 * Hour) (qb_state race_hash "uploading" (5 * Hour)); EvPromote false (5 * Hour) race_hash] (∅, ∅)).1 !! race_hash
  = Some (StatusDead, 0%Z, None, Some (runes_of "uploading")).
Proof. vm_compute. reflexivity. Qed.

(** ** Private imports *)

Definition set_exclude (b : bool) (cfg : LivenessConfig) : LivenessConfig :=
  mkConfig (Enabled cfg) (StallThresholdHours cfg) (MinObservations cfg) (BlacklistTTLDays cfg) (RevalidateMinPeers cfg) b.

(** the exclusion of private imports never applies: evidence of the *arr
    poller and of the webhook carries no category, so the resolver does the same
    with it whether or not the exclusion is configured. *)
Theorem private_exclusion_inert `{Unicode} (cfg : LivenessConfig) (f : faults) (now : Z) (ev : Evidence) (t : table) :
  (∃ kind i event entry, entryToEvidence kind i event entry = Some ev) ∨ (∃ i at_ body p, payload_evidence i at_ body p = Some ev) →
  HandleEvidence (set_exclude true cfg) f now ev t = HandleEvidence (set_exclude false cfg) f now ev t.
Proof.
  intros Hev. assert (Hc : e_Category ev = []).
  { destruct Hev as [(kind & i & event & entry & He)|(i & at_ & body & p & He)].
    - revert He. unfold entryToEvidence. destruct (bool_decide (event = "grabbed")); [by intros [= <-]|].
      destruct (bool_decide (event = "downloadFolderImported")); [by intros [= <-]|done].
    - revert He. unfold payload_evidence. destruct (classifyEvent _ _) as [[[[a b] c] s]|]; [by intros [= <-]|done]. }
  unfold HandleEvidence, begin_evidence. cbn [set_exclude Enabled]. destruct (negb (Enabled cfg)); [done|]. destruct (bool_decide (e_InfoHash ev = [])); [done|].
  destruct (bool_decide (e_Kind ev = _)); [done|]. destruct (_ && _); [|done].
  unfold handleArrImport. rewrite Hc. cbn [set_exclude ExcludePrivateTrackerGrabs andb].
  by rewrite (eq_refl : isPrivateCategory [] = false).
Qed.

(** ** The hook *)

(** Evidence that the store has already counts for nothing. *)
Lemma ingest_retry `{Unicode} (cfg : LivenessConfig) (fails fails' : stage → bool) (f f' : faults) (now now' : Z) (ev : Evidence) (s : db * table) :
  (Insert fails ev s.1).2 = None → (ingest cfg fails' f' now' ev (ingest cfg fails f now ev s)).2 = (ingest cfg fails f now ev s).2.
Proof.
  intros Hi. unfold ingest at 1. destruct (Insert fails' ev (ingest cfg fails f now ev s).1) as [d [e|]] eqn:E; [done|]. exfalso.
  destruct (Insert_stored _ _ _ Hi) as (r & Hr & Hk).
  destruct (Insert_inv fails' ev (ingest cfg fails f now ev s).1) as [(Hn & _)|(_ & _ & Hf & _)]; [by rewrite E in Hn|].
  apply (Hf r); [|done]. unfold ingest. destruct (Insert fails ev s.1) as [d0 [e0|]] eqn:E0; [done|]. exact Hr.
Qed.

(** ** On concrete inputs *)

Definition stalls : list event :=
  [EvEvidence no_faults 0 (qb_state sample_id "stalledDL" 0); EvScrapeZero [sample_id] 5 5;
   EvEvidence no_faults (5 * Hour) (qb_state sample_id "metaDL" (5 * Hour)); EvPromote false (5 * Hour) sample_id].

(** A single observation turns an alive torrent suspect. *)
Example single_observation_downgrades :
  status <$> (@run ascii_unicode on_config
    [EvEvidence no_faults 0 (qb_state sample_id "uploading" 0); EvEvidence no_faults 9 (qb_state sample_id "stalledDL" 9)] (∅, ∅)).1 !! sample_id
  = Some StatusSuspect.
Proof. by vm_compute. Qed.

Lemma dead_justified_witness :
  ∃ r, (@run ascii_unicode on_config stalls (∅, ∅)).1 !! sample_id = Some r ∧ blacklisted_at r = Some (timestamptz (5 * Hour)).
Proof.
  destruct ((@run ascii_unicode on_config stalls (∅, ∅)).1 !! sample_id) as [r|] eqn:Er; [|by vm_compute in Er]. exists r. split; [done|].
  assert (Hd : status r = StatusDead ∧ blacklisted_at r = Some (timestamptz (5 * Hour))) by (vm_compute in Er; by injection Er as <-).
  destruct (@dead_justified ascii_unicode on_config stalls sample_id r Er (proj1 Hd)) as (? & ? & ? & ? & since & ? & ? & ? & _ & _ & _ & _ & _ & Hb). by rewrite (proj2 Hd).
Defined.

Lemma stalled_is_blacklisted_witness : status <$> (@run ascii_unicode on_config stalls (∅, ∅)).1 !! sample_id = Some StatusDead.
Proof.
  apply (@stalled_is_blacklisted ascii_unicode on_config (take 2 stalls) no_faults (5 * Hour) (5 * Hour) (qb_state sample_id "metaDL" (5 * Hour)) 0 [(5 * Hour)%Z]);
    by vm_compute.
Defined.

Definition permanent : Row := mkRow StatusDead None None 0 0 (Some 1%Z) None None 1.
Lemma scrapes_harmless_witness :
  status <$> markAliveBatch [sample_id] 7 AliveSourceTrackerScrape 7 {[ sample_id := permanent ]} !! sample_id = Some StatusDead.
Proof.
  destruct (markAliveBatch [sample_id] 7 AliveSourceTrackerScrape 7 {[ sample_id := permanent ]} !! sample_id) as [r|] eqn:Er; [|by vm_compute in Er].
  destruct (scrapes_harmless [sample_id] 7 7 {[ sample_id := permanent ]} sample_id r true Er) as [_ Hp].
  destruct (Hp permanent) as [Hs _]; [by vm_compute|done|done|]. cbn. by rewrite Hs.
Defined.

Lemma lookup_exact_witness :
  (revalidateOne on_config no_faults false (λ _, false) [Some [runes_of "1.2.3.4:5"]; None; Some [runes_of "1.2.3.4:6"]] 9 sample_id {[ sample_id := permanent ]}).2
  = RevAliveAgain.
Proof.
  pose proof (lookup_exact on_config [Some [runes_of "1.2.3.4:5"]; None; Some [runes_of "1.2.3.4:6"]] 9 sample_id {[ sample_id := permanent ]}) as Hl.
  destruct (revalidateOne _ _ _ _ _ _ _ _) as [t' v]. cbn. rewrite decide_True in Hl by by vm_compute. by apply Hl.
Defined.

Lemma private_exclusion_inert_witness :
  let ev := mkEvidence SourceSonarr KindPollHistory (runes_of "s") (runes_of "downloadFolderImported:7") sample_hash sample_id (runes_of "Up") "tv" (runes_of "sonarr:3") [] 2 80 [] [] in
  @HandleEvidence ascii_unicode (set_exclude true on_config) no_faults 3 ev ∅ = @HandleEvidence ascii_unicode (set_exclude false on_config) no_faults 3 ev ∅.
Proof.
  apply (@private_exclusion_inert ascii_unicode on_config no_faults 3). left.
  exists SourceSonarr, (runes_of "s"), "downloadFolderImported", (mkEntry 7 2 sample_hash (runes_of "Up") 0 3 0 0 []). by vm_compute.
Defined.
End Liveness.
