(* ===== verification/Seeds.v ===== *)
(** * Seeds: scraping trackers

    [internal/seeds]: the numbers of seeders and leechers of torrents, asked of
    public trackers in packets of info hashes, and stored.  The file models the
    scraper ([scraper.go]): a goroutine per tracker, retries, the abandonment of
    silent trackers, the admission of every packet and the merging of the
    answers under a lock; the admission of hashes ([admission.go]); the tables
    ([store.go]) and a cycle of the runner ([runner.go]) with the observations
    it adds to the liveness table.

    The goroutines interleave at their critical sections and calls: a run is a
    list of inputs, each for one of them.  The tracker client belongs to
    anacrolix/torrent and only its answers appear.  An info hash is the list of
    its bytes. *)
From S2P Require Import Prelude Protocol Lexer Metainfo Regex Fts Dates Anime Keywords Workflow NamePolicy Classifier Titles Tmdb Languages ReleaseInfo Evidence Liveness.
From stdpp Require Import gmap list strings sets sorting.
From Stdlib Require Import ZArith Lia.

#[local] Open Scope string_scope.
#[local] Open Scope list_scope.

Module Seeds.
Import Lexer Evidence.

(** ** Outcomes *)

Record ScrapeOutcome := mkOutcome { TrackerKnown : bool; Seeders : Z; Leechers : Z; Completed : Z; BestTracker : string }.
Definition no_outcome : ScrapeOutcome := mkOutcome false 0 0 0 "".

Definition Positive (o : ScrapeOutcome) : bool := ((0 <? Seeders o) || (0 <? Leechers o))%Z.

Inductive class := ClassPositive | ClassKnownZero | ClassUnknown.
Definition Class (o : ScrapeOutcome) : class :=
  if Positive o then ClassPositive else if TrackerKnown o then ClassKnownZero else ClassUnknown.

Record scrapeItem := mkItem { i_Seeders : Z; i_Leechers : Z; i_Completed : Z }.

Definition mergeResult (o : ScrapeOutcome) (trackerURL : string) (i : scrapeItem) : ScrapeOutcome :=
  if ((i_Seeders i <=? 0) && (i_Leechers i <=? 0) && (i_Completed i <=? 0))%Z then o
  else mkOutcome true
    (if Seeders o <? i_Seeders i then i_Seeders i else Seeders o)%Z
    (if Leechers o <? i_Leechers i then i_Leechers i else Leechers o)%Z
    (if Completed o <? i_Completed i then i_Completed i else Completed o)%Z
    (if (Seeders o <? i_Seeders i)%Z then trackerURL else BestTracker o).

(** ** The scraper *)

Record Config := mkConfig { Concurrency : Z; MaxHashesPerPacket : Z; TrackerUrls : list string }.
Definition chunkScrapeRetries : nat := 1.
Definition maxConsecutiveChunkFails : nat := 4.
Definition packet_limit (c : Config) : nat := Z.to_nat (if MaxHashesPerPacket c <=? 0 then 70 else MaxHashesPerPacket c)%Z.

(** A goroutine: between packets, or waiting for the answer to one (no packet
    is sent when no hash is admitted, and the answer is then immediate), or done. *)
Inductive phase := Ready | Waiting (admitted : list bytes) | Finished.
Record thread := mkThread { th_url : string; th_rest : list bytes; th_attempt : nat; th_any : bool; th_fails : nat; th_phase : phase }.

(** What goroutines share, and a record of what was sent. *)
Record shared := mkShared {
  out : gmap bytes ScrapeOutcome; withheld : gset bytes; admissionErr : bool;
  sent : list (string * list bytes) }.

(** What a goroutine meets: the context is done; its admission fails, or lets
    some hashes pass; the packet is answered, or lost; or the admission fails
    after the answer. *)
Inductive input := Cancelled | AdmitFails | Admit (allowed : list bytes) | Reply (items : list scrapeItem) | NetworkFails | CommitFails.

Section scraper.
Context (cfg : Config).

Definition next_chunk (t : thread) (any : bool) (fails : nat) : thread :=
  mkThread (th_url t) (drop (packet_limit cfg) (th_rest t)) 0 any fails Ready.
Definition finish (t : thread) : thread := mkThread (th_url t) (th_rest t) (th_attempt t) (th_any t) (th_fails t) Finished.
Definition fail_admission (s : shared) : shared := mkShared (out s) (withheld s) true (sent s).

(** The critical section before a packet: hashes that are not allowed are
    withheld from now on, and the packet holds the others. *)
Definition withhold (chunk allowed : list bytes) (s : shared) : shared :=
  let denied := filter (λ h, h ∉ allowed) chunk in
  mkShared (foldr delete (out s) denied) (withheld s ∪ list_to_set denied) (admissionErr s) (sent s).
Definition admitted_of (allowed : list bytes) (s : shared) : list bytes := filter (λ h, h ∉ withheld s) allowed.

(** The critical section after an answer, which may be shorter than the packet. *)
Definition merge_one (url : string) (s : shared) (p : bytes * scrapeItem) : shared :=
  if bool_decide (p.1 ∈ withheld s) then s
  else mkShared (<[p.1 := mergeResult (default no_outcome (out s !! p.1)) url p.2]> (out s)) (withheld s) (admissionErr s) (sent s).
Definition merge_all (url : string) (admitted : list bytes) (items : list scrapeItem) (s : shared) : shared :=
  foldl (merge_one url) s (zip admitted items).

(** A chunk whose packets are all lost. *)
Definition chunk_failed (t : thread) : thread :=
  if negb (th_any t) then finish t
  else if bool_decide (maxConsecutiveChunkFails ≤ S (th_fails t))%nat then finish t
  else next_chunk t (th_any t) (S (th_fails t)).

Definition thread_step (s : shared) (t : thread) (i : input) : shared * thread :=
  match th_phase t, i with
  | Ready, _ =>
      if bool_decide (th_rest t = []) then (s, finish t)
      else
        let chunk := take (packet_limit cfg) (th_rest t) in
        match i with
        | Cancelled => (s, finish t)
        | AdmitFails => (fail_admission s, finish t)
        | Admit allowed =>
            let s := withhold chunk allowed s in
            let admitted := admitted_of allowed s in
            (mkShared (out s) (withheld s) (admissionErr s) (if bool_decide (admitted = []) then sent s else sent s ++ [(th_url t, admitted)]),
             mkThread (th_url t) (th_rest t) (th_attempt t) (th_any t) (th_fails t) (Waiting admitted))
        | _ => (s, t)
        end
  | Waiting [], Reply _ => (s, next_chunk t (th_any t) (th_fails t))
  | Waiting [], NetworkFails => (s, t)
  | Waiting admitted, Reply items => (merge_all (th_url t) admitted items s, next_chunk t true 0)
  | Waiting _, NetworkFails =>
      if bool_decide (th_attempt t < chunkScrapeRetries)%nat
      then (s, mkThread (th_url t) (th_rest t) (S (th_attempt t)) (th_any t) (th_fails t) Ready)
      else (s, chunk_failed t)
  | Waiting _, CommitFails => (fail_admission s, finish t)
  | _, _ => (s, t)
  end.

(** ** A batch *)

(** Trackers not started yet, the goroutines, and what they share. *)
Record batch := mkBatch { b_waiting : list string; b_threads : list thread; b_shared : shared }.

Definition start (hashes : list bytes) : batch :=
  mkBatch (TrackerUrls cfg) [] (mkShared (list_to_map ((.,no_outcome) <$> hashes)) ∅ false []).

Definition running (t : thread) : bool := match th_phase t with Finished => false | _ => true end.
Definition capacity : nat := Z.to_nat (1 `max` Concurrency cfg)%Z.

(** A tracker is started while the semaphore has room; or a goroutine steps. *)
Inductive move := Spawn | Step (k : nat) (i : input).
Definition batch_step (hashes : list bytes) (b : batch) (m : move) : batch :=
  match m with
  | Spawn =>
      match b_waiting b with
      | url :: rest =>
          if bool_decide (length (filter (λ t, running t = true) (b_threads b)) < capacity)%nat
          then mkBatch rest (b_threads b ++ [mkThread url hashes 0 false 0 Ready]) (b_shared b)
          else b
      | [] => b
      end
  | Step k i =>
      match b_threads b !! k with
      | Some t => let '(s, t') := thread_step (b_shared b) t i in mkBatch (b_waiting b) (<[k := t']> (b_threads b)) s
      | None => b
      end
  end.
Definition run (hashes : list bytes) (ms : list move) : batch := foldl (batch_step hashes) (start hashes) ms.
End scraper.


(** ** Admission ([admission.go]) *)

Section admission.
Context `{Unicode} `{ScriptTables} `{UnicodeTables} (names : option NamePolicy.Policy) (d : db).

(** What the query says of a hash: its torrent exists, the name policy lets it
    pass and nothing says that it is private. *)
Definition allowed_hash (h : bytes) : bool :=
  match torrents d !! h with
  | Some t =>
      NamePolicy.Eligible (NamePolicy.EvaluateClassified names h (t_name t) (if bool_decide ("xxx" ∈ t_types t) then "xxx" else ""))
      && PublicSQL d h t
  | None => false
  end.

Inductive admission_result := NotCalled | AdmissionError | Allowed (allowed : list bytes).

(** [withAdmission] up to the call of its argument: nothing is asked for an
    empty list, and a hash that is not 20 bytes long is an error. *)
Definition withAdmission (fails : bool) (hashes : list bytes) : admission_result :=
  if bool_decide (hashes = []) then NotCalled
  else if negb (forallb (λ h, bool_decide (length h = 20%nat)) hashes) then AdmissionError
  else if fails then AdmissionError
  else Allowed (filter (λ h, allowed_hash h = true) hashes).
End admission.

(** ** The tables ([store.go]) *)

Record LedgerRow := mkLedger {
  g_known : bool; g_seeders : option Z; g_leechers : option Z; g_completed : option Z; g_best : option string; g_checked_at : Z;
  g_prev_seeders : option Z; g_peak_seeders : option Z; g_last_positive_at : option Z }.

(** The rows of [torrents_torrent_sources]: the tracker's, and the others. *)
Record SourceRow := mkSource { src_name : string; src_seeders : option Z; src_leechers : option Z }.
Definition SourceKeyTracker : string := "tracker".

Record seeds_db := mkSeeds {
  ledger : gmap bytes LedgerRow;
  sources : gmap bytes (list SourceRow);
  contents : gmap bytes (list (option Z * option Z)) }.

Definition positive_reading (seeders leechers : option Z) : bool := ((0 <? default 0 seeders) || (0 <? default 0 leechers))%Z.

Definition ledger_upsert (known : bool) (seeders leechers completed : option Z) (best : option string) (now : Z) (old : option LedgerRow) : LedgerRow :=
  match old with
  | None => mkLedger known seeders leechers completed best now None seeders (if positive_reading seeders leechers then Some now else None)
  | Some r =>
      mkLedger known seeders leechers completed best now (g_seeders r)
        (match seeders with None => g_peak_seeders r | Some n => Some (default 0 (g_peak_seeders r) `max` n)%Z end)
        (if positive_reading seeders leechers then Some now else g_last_positive_at r)
  end.

Definition put_tracker (seeders leechers : Z) (rows : list SourceRow) : list SourceRow :=
  filter (λ r, src_name r ≠ SourceKeyTracker) rows ++ [mkSource SourceKeyTracker (Some seeders) (Some leechers)].
Definition drop_tracker (rows : list SourceRow) : list SourceRow := filter (λ r, src_name r ≠ SourceKeyTracker) rows.

(** One hash of a batch: its ledger row, and its tracker source row written or
    removed; nothing is written for a hash without a torrent. *)
Definition persist_one (exists_ : bool) (o : option ScrapeOutcome) (now : Z) (h : bytes) (s : seeds_db) : seeds_db :=
  let rows := default [] (sources s !! h) in
  match o with
  | Some o =>
      if TrackerKnown o
      then if exists_
           then mkSeeds (<[h := ledger_upsert true (Some (Seeders o)) (Some (Leechers o)) (Some (Completed o))
                                  (if bool_decide (BestTracker o = "") then None else Some (BestTracker o)) now (ledger s !! h)]> (ledger s))
                  (<[h := put_tracker (Seeders o) (Leechers o) rows]> (sources s)) (contents s)
           else s
      else mkSeeds (if exists_ then <[h := ledger_upsert false None None None None now (ledger s !! h)]> (ledger s) else ledger s)
             (<[h := drop_tracker rows]> (sources s)) (contents s)
  | None => mkSeeds (if exists_ then <[h := ledger_upsert false None None None None now (ledger s !! h)]> (ledger s) else ledger s)
              (<[h := drop_tracker rows]> (sources s)) (contents s)
  end.
Definition persist (d : db) (outcomes : gmap bytes ScrapeOutcome) (now : Z) (hashes : list bytes) (s : seeds_db) : seeds_db :=
  foldl (λ s h, persist_one (bool_decide (is_Some (torrents d !! h))) (outcomes !! h) now h s) s hashes.

(** [max(x)] of SQL: nulls are left out, and there is none of no value. *)
Definition sql_max (l : list (option Z)) : option Z :=
  foldr (λ x acc, match x, acc with None, _ => acc | Some n, None => Some n | Some n, Some m => Some (n `max` m)%Z end) None l.
Definition sql_count (f : SourceRow → option Z) (rows : list SourceRow) : option Z :=
  match sql_max (f <$> filter (λ r, src_name r = SourceKeyTracker) rows) with
  | Some n => Some n
  | None => sql_max (f <$> filter (λ r, src_name r ≠ SourceKeyTracker) rows)
  end.
(** [denormSyncSQL] over the hashes of a batch. *)
Definition denorm_one (s : seeds_db) (h : bytes) : seeds_db :=
  let rows := default [] (sources s !! h) in
  mkSeeds (ledger s) (sources s) (alter (λ cs, (λ _, (sql_count src_seeders rows, sql_count src_leechers rows)) <$> cs) h (contents s)).
Definition denorm_sync (hashes : list bytes) (s : seeds_db) : seeds_db := foldl denorm_one s hashes.

(** ** The choice of a batch ([Store.SelectStale])

    [pg] is the regular-expression match of PostgreSQL. *)

Section select.
Context `{Unicode} `{ScriptTables} (pg : runes → runes → bool) (names : option NamePolicy.Policy) (d : db).

(** [selectionAdmission]: the same facts as at the admission, in SQL. *)
Definition selection_admits (h : bytes) : bool :=
  match torrents d !! h with
  | Some t =>
      PublicSQL d h t
      && match names with
         | Some p =>
             if NamePolicy.Policy_Enabled names
             then NamePolicy.value pg (Some (Metainfo.range_runes (t_name t))) h
                    (NamePolicy.allow_expr NamePolicy.specification (NamePolicy.excludedHashes p) (runes_of "t.name") (runes_of "t.info_hash"))
                  && negb (bool_decide ("xxx" ∈ t_types t))
             else true
         | None => true
         end
  | None => false
  end.

(** [order by checked_at asc nulls first, info_hash asc]; a bytea is compared byte by byte. *)
Fixpoint bytea_le (a b : bytes) : bool :=
  match a, b with
  | [], _ => true
  | _ :: _, [] => false
  | x :: a, y :: b => (x <? y)%Z || (x =? y)%Z && bytea_le a b
  end.
Definition nulls_first (a b : option Z * bytes) : Prop :=
  match a.1, b.1 with
  | None, Some _ => True
  | Some _, None => False
  | Some x, Some y => (x < y)%Z ∨ (x = y ∧ bytea_le a.2 b.2 = true)
  | None, None => bytea_le a.2 b.2 = true
  end.
#[export] Instance nulls_first_dec a b : Decision (nulls_first a b).
Proof. unfold nulls_first. destruct a.1, b.1; apply _. Defined.

Definition checked (s : seeds_db) (h : bytes) : option Z := g_checked_at <$> ledger s !! h.
Definition stale (minAge now : Z) (s : seeds_db) (h : bytes) : bool :=
  match checked s h with Some at_ => (at_ <? now - minAge)%Z | None => false end.
Definition selectable (minAge now : Z) (s : seeds_db) : list bytes :=
  filter (λ h, ((bool_decide (checked s h = None) || stale minAge now s h) && selection_admits h) = true) (map_to_list (torrents d)).*1.

(** At most half of the batch, the oldest of the hashes checked before. *)
Definition rechecks (minAge now : Z) (limit : nat) (s : seeds_db) : list (option Z * bytes) :=
  take (limit / 2) (merge_sort nulls_first ((λ h, (checked s h, h)) <$> filter (λ h, stale minAge now s h = true) (selectable minAge now s))).
Definition rest_of (minAge now : Z) (limit : nat) (s : seeds_db) : list (option Z * bytes) :=
  let r := rechecks minAge now limit s in
  take (limit - length r) (merge_sort nulls_first ((λ h, (checked s h, h)) <$> filter (λ h, h ∉ r.*2) (selectable minAge now s))).

(** A negative limit is an error of the statement. *)
Definition SelectStale (fails : bool) (minAge now limit : Z) (s : seeds_db) : option (list bytes) :=
  if fails || (limit <? 0)%Z then None
  else let n := Z.to_nat limit in
       Some (take n (merge_sort nulls_first (rechecks minAge now n s ++ rest_of minAge now n s))).*2.

Definition CoverageCounts (s : seeds_db) : nat * nat * nat :=
  let rows := (map_to_list (ledger s)).*2 in
  (length rows, length (filter (λ r, g_known r = true) rows), length (filter (λ r, positive_reading (g_seeders r) (g_leechers r) = true) rows)).
End select.

(** [Torrent.bestCount] of [model/torrents.go], which the statement mirrors. *)
Fixpoint tracker_count (f : SourceRow → option Z) (rows : list SourceRow) : option Z :=
  match rows with
  | [] => None
  | r :: rows => if bool_decide (src_name r = SourceKeyTracker) then match f r with Some n => Some n | None => tracker_count f rows end
                 else tracker_count f rows
  end.
Definition bestCount (f : SourceRow → option Z) (rows : list SourceRow) : option Z :=
  match tracker_count f rows with
  | Some n => Some n
  | None => foldl (λ best r, match f r with
                             | Some n => Some (if default 0 best <? n then n else default 0 best)%Z
                             | None => best
                             end) None rows
  end.

(** ** A cycle ([runner.go]) *)

Record Stats := mkStats { st_Selected : nat; st_Denied : nat; st_Positive : nat; st_KnownZero : nat; st_Unknown : nat }.

Definition count_class (outcomes : gmap bytes ScrapeOutcome) (hashes : list bytes) (f : class → bool) : nat :=
  length (filter (λ h, match outcomes !! h with Some o => f (Class o) | None => false end = true) hashes).
Definition classify (outcomes : gmap bytes ScrapeOutcome) (hashes : list bytes) : Stats :=
  mkStats (length hashes) (length (filter (λ h, outcomes !! h = None) hashes))
    (count_class outcomes hashes (λ c, match c with ClassPositive => true | _ => false end))
    (count_class outcomes hashes (λ c, match c with ClassKnownZero => true | _ => false end))
    (count_class outcomes hashes (λ c, match c with ClassUnknown => true | _ => false end)).

Definition partition_evidence (hashes : list bytes) (outcomes : gmap bytes ScrapeOutcome) : list bytes * list bytes :=
  let known p h := match outcomes !! h with Some o => TrackerKnown o && eqb p (Positive o) | None => false end in
  (filter (λ h, known true h = true) hashes, filter (λ h, known false h = true) hashes).

Section runner.
Context `{Unicode} `{ScriptTables} `{UnicodeTables} (names : option NamePolicy.Policy).

(** The transaction that stores a cycle: admitted again, with the tables of the
    moment; any failure leaves every table as it was.  Gives the number of
    hashes that are now denied, and whether all went well. *)
Definition persist_cycle (fails_admit fails_write recorder : bool) (outcomes : gmap bytes ScrapeOutcome) (admitted : list bytes) (now : Z)
    (d : db) (s : seeds_db * Liveness.table) : (seeds_db * Liveness.table) * nat * bool :=
  match withAdmission names d fails_admit admitted with
  | NotCalled => (s, 0, true)
  | AdmissionError => (s, 0, false)
  | Allowed allowed =>
      let late := (length admitted - length allowed)%nat in
      if fails_write then (s, late, false)
      else
        let '(positives, zeros) := partition_evidence allowed outcomes in
        ((denorm_sync allowed (persist d outcomes now allowed s.1),
          if recorder then Liveness.recordSuspectBatch zeros now now (Liveness.markAliveBatch positives now Liveness.AliveSourceTrackerScrape now s.2)
          else s.2), late, true)
  end.

(** A cycle over the selected hashes, given how the goroutines of the scraper
    ran; it ends in an error when an admission failed or the context is done. *)
Definition RunBatch (cfg : Config) (write cancelled fails_admit fails_write recorder : bool) (hashes : list bytes) (ms : list move) (now : Z)
    (d : db) (s : seeds_db * Liveness.table) : (seeds_db * Liveness.table) * Stats * bool :=
  let b := run cfg hashes ms in
  if admissionErr (b_shared b) || cancelled then (s, mkStats (length hashes) 0 0 0 0, false)
  else
    let outcomes := out (b_shared b) in
    let st := classify outcomes hashes in
    if negb write then (s, st, true)
    else
      let admitted := filter (λ h, is_Some (outcomes !! h)) hashes in
      let '(s', late, ok) := persist_cycle fails_admit fails_write recorder outcomes admitted now d s in
      (s', mkStats (st_Selected st) (st_Denied st + late) (st_Positive st) (st_KnownZero st) (st_Unknown st), ok).
End runner.

(** ** Merging *)

Definition known (i : scrapeItem) : bool := ((0 <? i_Seeders i) || (0 <? i_Leechers i) || (0 <? i_Completed i))%Z.





(** ** The invariant of a batch *)

(** [log] holds the answers that trackers gave so far. *)
Abbreviation log_entry := (string * bytes * scrapeItem)%type.




Lemma merge_one_withheld url s p : withheld (merge_one url s p) = withheld s ∧ sent (merge_one url s p) = sent s.
Proof. unfold merge_one. by destruct (bool_decide _). Qed.


Lemma merge_all_withheld url admitted items s :
  withheld (merge_all url admitted items s) = withheld s ∧ sent (merge_all url admitted items s) = sent s.
Proof.
  unfold merge_all. revert s. induction (zip admitted items) as [|p l IH]; intros s; [done|]. simpl.
  destruct (IH (merge_one url s p)) as [-> ->]. apply merge_one_withheld.
Qed.

(** ** Runs *)












(** ** Denials *)

Lemma batch_step_denials cfg hashes b m :
  withheld (b_shared b) ⊆ withheld (b_shared (batch_step cfg hashes b m))
  ∧ ∃ l, sent (b_shared (batch_step cfg hashes b m)) = sent (b_shared b) ++ l
      ∧ Forall (λ p, Forall (λ h, h ∉ withheld (b_shared (batch_step cfg hashes b m))) p.2) l.
Proof.
  destruct m as [|k i]; cbn [batch_step].
  { destruct (b_waiting b); [|destruct (bool_decide _)]; (split; [done|exists []; by rewrite app_nil_r]). }
  destruct (b_threads b !! k) as [t|]; [|split; [done|exists []; by rewrite app_nil_r]].
  rewrite (surjective_pairing (thread_step cfg (b_shared b) t i)). cbn [b_shared]. generalize (b_shared b) as s. intros s.
  assert (Hsame : ∀ s', withheld s' = withheld s → sent s' = sent s → withheld s ⊆ withheld s' ∧
    ∃ l, sent s' = sent s ++ l ∧ Forall (λ p, Forall (λ h, h ∉ withheld s') p.2) l).
  { intros s' -> ->. split; [done|]. exists []. by rewrite app_nil_r. }
  unfold thread_step. destruct (th_phase t) as [|a|]; [| |by apply Hsame].
  - destruct (bool_decide _); [by apply Hsame|]. destruct i as [| |allowed|items| |]; try by apply Hsame. cbn [fst withheld sent].
    split; [cbn; apply union_subseteq_l|]. destruct (bool_decide _); [exists []; by rewrite app_nil_r|].
    exists [(th_url t, admitted_of allowed (withhold (take (packet_limit cfg) (th_rest t)) allowed s))]. split; [done|]. constructor; [|done].
    cbn [snd]. unfold admitted_of. apply Forall_forall. intros h Hh. by apply list_elem_of_filter in Hh as [Hh _].
  - destruct a as [|h0 a], i as [| |allowed|items| |]; try by apply Hsame.
    + destruct (merge_all_withheld (th_url t) (h0 :: a) items s) as [H1 H2]. by apply Hsame.
    + destruct (bool_decide _); by apply Hsame.
Qed.

(** a denial is final within a batch: a hash that is withheld stays
    withheld, has no outcome, and is in no packet that any tracker is sent
    afterwards. *)
Theorem denial_final cfg hashes ms1 ms2 h :
  h ∈ withheld (b_shared (run cfg hashes ms1)) →
  h ∈ withheld (b_shared (run cfg hashes (ms1 ++ ms2)))
  ∧ ∃ l, sent (b_shared (run cfg hashes (ms1 ++ ms2))) = sent (b_shared (run cfg hashes ms1)) ++ l ∧ Forall (λ p, h ∉ p.2) l.
Proof.
  unfold run. rewrite foldl_app. generalize (foldl (batch_step cfg hashes) (start cfg hashes) ms1) as b.
  induction ms2 as [|m ms IH]; intros b Hw; [split; [done|exists []; by rewrite app_nil_r]|]. simpl.
  destruct (batch_step_denials cfg hashes b m) as (Hsub & l1 & Hl1 & Hf1). apply Hsub in Hw as Hw'.
  destruct (IH _ Hw') as (Hend & l2 & Hl2 & Hf2). split; [done|]. exists (l1 ++ l2). rewrite Hl2, Hl1, <- app_assoc. split; [done|].
  apply Forall_app. split; [|done]. eapply Forall_impl; [exact Hf1|]. intros p Hp Hin. rewrite Forall_forall in Hp. by apply (Hp h Hin).
Qed.

(** ** Termination *)

Section termination.
Context (cfg : Config) (hashes : list bytes).

Lemma packet_limit_pos : (0 < packet_limit cfg)%nat.
Proof. unfold packet_limit. destruct (Z.leb_spec (MaxHashesPerPacket cfg) 0); lia. Qed.

(** The chunks of a list. *)
Definition chunks (l : list bytes) : nat := ((length l + (packet_limit cfg - 1)) / packet_limit cfg)%nat.

Lemma chunks_drop l : l ≠ [] → chunks l = S (chunks (drop (packet_limit cfg) l)).
Proof.
  intros Hl. unfold chunks. pose proof packet_limit_pos as Hp. rewrite length_drop. set (n := packet_limit cfg) in *.
  assert (0 < length l)%nat by (destruct l; simpl; [done|lia]). destruct (Nat.le_gt_cases n (length l)) as [Hle|Hgt].
  - replace (length l + (n - 1))%nat with (length l - n + (n - 1) + 1 * n)%nat by lia. rewrite Nat.div_add by lia. lia.
  - replace (length l - n)%nat with 0%nat by lia. rewrite (Nat.div_small (0 + (n - 1))) by lia.
    symmetry. apply Nat.div_unique with (length l - 1)%nat; lia.
Qed.

(** What is left to do: each chunk takes at most two packets. *)
Definition thread_weight (t : thread) : nat :=
  match th_phase t with
  | Finished => 0
  | Ready => 2 * (2 * chunks (th_rest t) - th_attempt t) + 1
  | Waiting _ => 2 * (2 * chunks (th_rest t) - th_attempt t)
  end.
Definition weight_ok (t : thread) : Prop :=
  (th_attempt t ≤ chunkScrapeRetries)%nat ∧ match th_phase t with Waiting _ => th_rest t ≠ [] | _ => True end.
Definition batch_weight (b : batch) : nat := (length (b_waiting b) * (4 * chunks hashes + 2) + sum_list_with thread_weight (b_threads b))%nat.

Lemma next_chunk_weight t any fails :
  th_rest t ≠ [] → weight_ok (next_chunk cfg t any fails) ∧ (thread_weight (next_chunk cfg t any fails) + 3 = 4 * chunks (th_rest t))%nat.
Proof.
  intros Hr. split; [split; [cbn; lia|done]|]. unfold thread_weight, next_chunk. cbn [th_phase th_rest th_attempt]. rewrite (chunks_drop (th_rest t)) by done. lia.
Qed.

Lemma thread_step_weight s t i :
  weight_ok t →
  weight_ok (thread_step cfg s t i).2
  ∧ (thread_step cfg s t i = (s, t) ∨ (thread_weight (thread_step cfg s t i).2 < thread_weight t)%nat).
Proof.
  intros Hok. pose proof Hok as [Ha Hp]. unfold chunkScrapeRetries in Ha. assert (Hfin : weight_ok (finish t)) by by split.
  unfold thread_step. destruct (th_phase t) as [|a|] eqn:Eph; [| |by auto].
  - destruct (bool_decide_reflect (th_rest t = [])) as [He|Hne].
    { cbn [snd]. split; [done|]. right. unfold thread_weight. rewrite Eph. cbn. lia. }
    pose proof (chunks_drop (th_rest t) Hne) as Hc. assert (Hw : thread_weight (finish t) < thread_weight t) by (unfold thread_weight; rewrite Eph; cbn; lia).
    destruct i as [| |allowed|items| |]; cbn [snd]; auto. split; [by split|]. right. unfold thread_weight. rewrite Eph. cbn [th_phase th_rest th_attempt]. lia.
  - pose proof (chunks_drop (th_rest t) Hp) as Hc. assert (Hw : thread_weight (finish t) < thread_weight t) by (unfold thread_weight; rewrite Eph; cbn; lia).
    assert (Hnext : ∀ any fails, weight_ok (next_chunk cfg t any fails) ∧ (thread_weight (next_chunk cfg t any fails) < thread_weight t)%nat).
    { intros any fails. destruct (next_chunk_weight t any fails Hp) as [H1 H2]. split; [done|]. unfold thread_weight at 2. rewrite Eph. lia. }
    destruct a as [|h0 a], i as [| |allowed|items| |]; cbn [snd]; auto; try (destruct (Hnext (th_any t) (th_fails t)); by auto).
    destruct (bool_decide_reflect (th_attempt t < chunkScrapeRetries)%nat) as [Hlt|Hge]; unfold chunkScrapeRetries in *; cbn [snd].
    + split; [split; [cbn; unfold chunkScrapeRetries; lia|done]|]. right. unfold thread_weight. rewrite Eph. cbn [th_phase th_rest th_attempt]. lia.
    + unfold chunk_failed. destruct (negb _); [by auto|]. destruct (bool_decide _); [by auto|]. destruct (Hnext (th_any t) (S (th_fails t))); by auto.
Qed.

Lemma sum_list_with_insert {A} (f : A → nat) (l : list A) k x y :
  l !! k = Some x → (sum_list_with f (<[k := y]> l) + f x = sum_list_with f l + f y)%nat.
Proof.
  revert k. induction l as [|z l IH]; intros [|k]; simpl; try done; [intros [= ->]; lia|]. intros Hx. specialize (IH _ Hx). lia.
Qed.

Lemma batch_step_weight b m :
  Forall weight_ok (b_threads b) →
  Forall weight_ok (b_threads (batch_step cfg hashes b m))
  ∧ (batch_step cfg hashes b m = b ∨ (batch_weight (batch_step cfg hashes b m) < batch_weight b)%nat).
Proof.
  intros Hok. destruct m as [|k i]; cbn [batch_step].
  - destruct (b_waiting b) as [|url rest] eqn:Ew; [auto|]. destruct (bool_decide _); [|auto]. cbn [b_threads]. split.
    + apply Forall_app. split; [done|]. constructor; [|done]. split; [cbn; lia|done].
    + right. unfold batch_weight. cbn [b_waiting b_threads]. rewrite Ew, sum_list_with_app. cbn. lia.
  - destruct (b_threads b !! k) as [t|] eqn:Et; [|auto]. pose proof (Forall_lookup_1 _ _ _ _ Hok Et) as Ht.
    destruct (thread_step_weight (b_shared b) t i Ht) as [Hok' Hw]. destruct (thread_step cfg (b_shared b) t i) as [s' t'] eqn:E. cbn [snd] in *.
    cbn [b_threads]. split; [by apply Forall_insert|]. destruct Hw as [Heq|Hlt].
    + left. injection Heq as -> ->. rewrite list_insert_id by done. by destruct b.
    + right. unfold batch_weight. cbn [b_waiting b_threads]. pose proof (sum_list_with_insert thread_weight (b_threads b) k t t' Et). lia.
Qed.

(** Every move of a run does something. *)
Fixpoint productive (b : batch) (ms : list move) : Prop :=
  match ms with [] => True | m :: ms => batch_step cfg hashes b m ≠ b ∧ productive (batch_step cfg hashes b m) ms end.

Lemma productive_bounded b ms : Forall weight_ok (b_threads b) → productive b ms → (length ms ≤ batch_weight b)%nat.
Proof.
  revert b. induction ms as [|m ms IH]; intros b Hok; [intros _; simpl; lia|]. intros [Hm Hms].
  destruct (batch_step_weight b m Hok) as [Hok' [Heq|Hlt]]; [done|]. specialize (IH _ Hok' Hms). simpl. lia.
Qed.
End termination.

(** C39: a batch ends: the goroutines of all trackers together make at most
    two moves per tracker and four more for every chunk of its hashes, whatever
    is lost or denied: a packet is tried twice, and a chunk is not returned to. *)
Theorem scrape_terminates cfg hashes ms :
  productive cfg hashes (start cfg hashes) ms → (length ms ≤ length (TrackerUrls cfg) * (4 * chunks cfg hashes + 2))%nat.
Proof. intros Hp. pose proof (productive_bounded cfg hashes (start cfg hashes) ms ltac:(constructor) Hp) as Hb. unfold batch_weight in Hb. cbn in Hb. lia. Qed.

(** ** What trackers are asked *)

Section asked.
Context `{Unicode} `{ScriptTables} `{UnicodeTables} (names : option NamePolicy.Policy).

(** Every admission of a run is that of [withAdmission] on tables of which [P]
    holds. *)
Fixpoint admitted_run (cfg : Config) (hashes : list bytes) (P : db → Prop) (b : batch) (ms : list move) : Prop :=
  match ms with
  | [] => True
  | m :: ms =>
      match m with
      | Step k (Admit allowed) => ∃ d, P d ∧ ∀ t, b_threads b !! k = Some t → withAdmission names d false (take (packet_limit cfg) (th_rest t)) = Allowed allowed
      | _ => True
      end ∧ admitted_run cfg hashes P (batch_step cfg hashes b m) ms
  end.

Definition known_private (h : bytes) (d : db) : Prop :=
  ∀ t, torrents d !! h = Some t →
    t_private t = true ∨ is_private h d = true ∨ existsb PrivacyTag (t_tags t) = true
    ∨ ∃ c cat, canonical_labels d !! h = Some c ∧ c_category c = Some cat ∧ lower_trim cat ∈ private_categories.

Lemma private_not_public h d t : known_private h d → torrents d !! h = Some t → PublicSQL d h t = false.
Proof.
  intros Hp Et. unfold PublicSQL. destruct (Hp t Et) as [Hx|[Hx|[Hx|(c & cat & Hc & Hcat & Hin)]]].
  - by rewrite Hx.
  - unfold is_private in Hx. rewrite Hx. cbn. by rewrite andb_false_r.
  - replace (existsb PrivacyTagSQL (t_tags t)) with true; [cbn; by rewrite andb_false_r|].
    symmetry. rewrite <- Hx. clear. induction (t_tags t) as [|tag l IH]; [done|]. cbn. rewrite IH. f_equal.
    unfold PrivacyTagSQL, PrivacyTag. by rewrite sql_normal_trim, qualified_sql.
  - rewrite Hc, Hcat, sql_normal_trim, bool_decide_eq_true_2 by done. cbn. by rewrite andb_false_r.
Qed.
Lemma known_private_denied h d : known_private h d → allowed_hash names d h = false.
Proof.
  intros Hp. unfold allowed_hash. destruct (torrents d !! h) as [t|] eqn:Et; [|done]. rewrite (private_not_public h d t Hp Et). apply andb_false_r.
Qed.

Lemma batch_step_sent cfg hashes b m :
  ∃ l, sent (b_shared (batch_step cfg hashes b m)) = sent (b_shared b) ++ l
    ∧ Forall (λ p, match m with Step _ (Admit allowed) => p.2 ⊆ allowed ∧ (∃ k t, m = Step k (Admit allowed) ∧ b_threads b !! k = Some t) | _ => False end) l.
Proof.
  assert (Hsame : ∀ s s' : shared, sent s' = sent s → ∃ l, sent s' = sent s ++ l
    ∧ Forall (λ p, match m with Step _ (Admit allowed) => p.2 ⊆ allowed ∧ (∃ k t, m = Step k (Admit allowed) ∧ b_threads b !! k = Some t) | _ => False end) l).
  { intros s s' ->. exists []. by rewrite app_nil_r. }
  destruct m as [|k i]; cbn [batch_step].
  { destruct (b_waiting b); [|destruct (bool_decide _)]; by apply Hsame. }
  destruct (b_threads b !! k) as [t|] eqn:Et; [|by apply Hsame].
  rewrite (surjective_pairing (thread_step cfg (b_shared b) t i)). cbn [b_shared]. unfold thread_step. destruct (th_phase t) as [|a|]; [| |by apply Hsame].
  - destruct (bool_decide _); [by apply Hsame|]. destruct i as [| |allowed|items| |]; try by apply Hsame. cbn [fst sent].
    destruct (bool_decide _); [by apply Hsame|]. eexists. split; [reflexivity|]. constructor; [|done]. split; [|by exists k, t].
    unfold admitted_of. intros h Hh. by apply list_elem_of_filter in Hh as [_ Hh].
  - destruct a as [|h0 a], i as [| |allowed|items| |]; try by apply Hsame.
    + apply Hsame. apply merge_all_withheld.
    + destruct (bool_decide _); by apply Hsame.
Qed.

Lemma private_never_sent_from cfg hashes h b ms :
  admitted_run cfg hashes (known_private h) b ms → Forall (λ p, h ∉ p.2) (sent (b_shared b)) →
  Forall (λ p, h ∉ p.2) (sent (b_shared (foldl (batch_step cfg hashes) b ms))).
Proof.
  revert b. induction ms as [|m ms IH]; intros b; [done|]. intros [Hm Hms] Hb. simpl. apply IH; [done|].
  destruct (batch_step_sent cfg hashes b m) as (l & -> & Hl). apply Forall_app. split; [done|].
  eapply Forall_impl; [exact Hl|]. intros p Hp. destruct m as [|k [| |allowed|items| |]]; try done. destruct Hp as [Hsub (k' & t & [= <-] & Ht)].
  destruct Hm as (d & Hd & Ha). specialize (Ha t Ht). intros Hin. apply Hsub in Hin. revert Ha. unfold withAdmission.
  destruct (bool_decide _); [done|]. destruct (negb _); [done|]. intros [= <-]. apply list_elem_of_filter in Hin as [Hin _].
  by rewrite (known_private_denied h d Hd) in Hin.
Qed.
End asked.

(** C18: no tracker is ever asked about a torrent that is known to be private:
    if at every admission of a batch the torrent is marked private, or the
    evidence, a tag or its label says so, its hash is in no packet. *)
Theorem private_never_sent `{Unicode} `{ScriptTables} `{UnicodeTables} names cfg hashes h ms :
  admitted_run names cfg hashes (known_private h) (start cfg hashes) ms → Forall (λ p, h ∉ p.2) (sent (b_shared (run cfg hashes ms))).
Proof. intros Hr. apply (private_never_sent_from names); [exact Hr|constructor]. Qed.


(** ** The choice of a batch *)

Lemma bytea_le_total x y : bytea_le x y = true ∨ bytea_le y x = true.
Proof.
  revert y. induction x as [|u x IH]; intros [|v y]; cbn; try (by left); try (by right). rewrite !orb_true_iff, !andb_true_iff, !Z.ltb_lt, !Z.eqb_eq.
  destruct (Z.lt_total u v) as [Hl|[->|Hl]]; [by left; left| |by right; left]. destruct (IH y); [left|right]; by right.
Qed.
Lemma bytea_le_trans x y z : bytea_le x y = true → bytea_le y z = true → bytea_le x z = true.
Proof.
  revert y z. induction x as [|u x IH]; intros [|v y] [|w z]; cbn; try done. rewrite !orb_true_iff, !andb_true_iff, !Z.ltb_lt, !Z.eqb_eq.
  intros [Hu|[-> Hu]] [Hv|[-> Hv]]; try (left; lia). right. split; [done|by eapply IH].
Qed.
#[local] Instance nulls_first_total : Total nulls_first.
Proof.
  intros [[x|] a] [[y|] b]; unfold nulls_first; cbn [fst snd]; [|by right|by left|apply bytea_le_total].
  destruct (Z.lt_total x y) as [Hl|[->|Hl]]; [by left; left| |by right; left]. destruct (bytea_le_total a b); [left|right]; by right.
Qed.
#[local] Instance nulls_first_trans : Transitive nulls_first.
Proof.
  intros [[x|] a] [[y|] b] [[z|] c]; unfold nulls_first; cbn [fst snd]; try done; intros Hab Hbc; [|by eapply bytea_le_trans].
  pose proof (bytea_le_trans a b c). destruct Hab as [Hab|[-> Hab]], Hbc as [Hbc|[-> Hbc]]; try (left; lia). right. tauto.
Qed.

(** The first elements of a sorted list: the ones left out come after them. *)
Lemma take_sort_rest {A} (R : relation A) `{!∀ x y, Decision (R x y), !Total R, !Transitive R} n (l : list A) x :
  x ∈ l → (x ∉ take n (merge_sort R l)) → length (take n (merge_sort R l)) = n ∧ Forall (λ y, R y x) (take n (merge_sort R l)).
Proof.
  intros Hx Hn. pose proof (merge_sort_Permutation R l) as Hp. pose proof (StronglySorted_merge_sort R l) as Hs. set (m := merge_sort R l) in *.
  rewrite <- Hp in Hx. rewrite <- (take_drop n m) in Hx. apply elem_of_app in Hx as [Hx|Hx]; [done|]. split.
  - rewrite length_take. assert (drop n m ≠ []) as Hd by (intros He; rewrite He in Hx; by apply not_elem_of_nil in Hx).
    assert (length (drop n m) ≠ 0%nat) as Hl by (intros He; apply Hd; by apply nil_length_inv). rewrite length_drop in Hl. lia.
  - rewrite <- (take_drop n m) in Hs. apply Forall_forall. intros y Hy. by eapply StronglySorted_app_1_elem_of.
Qed.

Section selected.
Context `{Unicode} `{ScriptTables} (pg : runes → runes → bool) (names : option NamePolicy.Policy) (d : db).
Context (minAge now : Z) (s : seeds_db).
#[local] Abbreviation keyed := (λ h, (checked s h, h)).

(** A hash that may be asked about, and was never or not lately. *)
Definition wanted (h : bytes) : Prop := selection_admits pg names d h = true ∧ (checked s h = None ∨ stale minAge now s h = true).

Lemma selectable_spec h : h ∈ selectable pg names d minAge now s ↔ wanted h.
Proof.
  unfold selectable, wanted. rewrite list_elem_of_filter, andb_true_iff, orb_true_iff, bool_decide_eq_true. split; [tauto|]. intros [Ha Hc].
  split; [tauto|]. unfold selection_admits in Ha. destruct (torrents d !! h) as [t|] eqn:Et; [|done].
  apply list_elem_of_fmap. exists (h, t). split; [done|]. by apply elem_of_map_to_list.
Qed.
Lemma selectable_NoDup : NoDup (selectable pg names d minAge now s).
Proof. apply NoDup_filter, NoDup_fst_map_to_list. Qed.

Lemma take_sort_keyed n l : NoDup l → ∃ l', (take n (merge_sort nulls_first (keyed <$> l))).*2 = l' ∧ NoDup l' ∧ l' ⊆ l ∧ take n (merge_sort nulls_first (keyed <$> l)) = keyed <$> l'.
Proof.
  intros Hl. eexists. split; [reflexivity|]. set (m := take n _).
  assert (Hm : Forall (λ p, p = keyed p.2) m).
  { apply Forall_take. rewrite merge_sort_Permutation. apply Forall_fmap, Forall_forall. by intros h _. }
  split; [|split].
  - assert (NoDup (merge_sort nulls_first (keyed <$> l)).*2) as Hn.
    { rewrite merge_sort_Permutation, <- list_fmap_compose. cbn. by rewrite list_fmap_id. }
    unfold m. rewrite fmap_take. eapply sublist_NoDup; [exact Hn|apply sublist_take].
  - intros h Hh. apply list_elem_of_fmap in Hh as (p & -> & Hp). apply elem_of_take in Hp as (i & Hi & _). apply list_elem_of_lookup_2 in Hi.
    rewrite merge_sort_Permutation in Hi. by apply list_elem_of_fmap in Hi as (h & -> & Hh).
  - clearbody m. induction m as [|p m IH]; [done|]. apply Forall_cons in Hm as [Hp Hm]. cbn. rewrite <- IH by done. by f_equal.
Qed.

Lemma select_stale_split n :
  ∃ r q, rechecks pg names d minAge now n s = keyed <$> r ∧ rest_of pg names d minAge now n s = keyed <$> q
    ∧ (length r ≤ n / 2)%nat ∧ (length q ≤ n - length r)%nat ∧ NoDup (r ++ q) ∧ (∀ h, h ∈ r ++ q → wanted h) ∧ (∀ h, h ∈ r → stale minAge now s h = true)
    ∧ (∀ h, wanted h → stale minAge now s h = true → h ∉ r → length r = (n / 2)%nat ∧ Forall (λ h', nulls_first (keyed h') (keyed h)) r)
    ∧ (∀ h, wanted h → h ∉ r ++ q → length q = (n - length r)%nat).
Proof.
  pose proof selectable_NoDup as Hnd. destruct (take_sort_keyed (n / 2) (filter (λ h, stale minAge now s h = true) (selectable pg names d minAge now s)))
    as (r & _ & Hr & Hrsub & Er); [by apply NoDup_filter|]. fold (rechecks pg names d minAge now n s) in Er.
  assert (Hr2 : (rechecks pg names d minAge now n s).*2 = r) by (rewrite Er, <- list_fmap_compose; apply list_fmap_id).
  assert (Hrl : length (rechecks pg names d minAge now n s) = length r) by (by rewrite Er, length_fmap).
  destruct (take_sort_keyed (n - length r) (filter (λ h, h ∉ r) (selectable pg names d minAge now s))) as (q & _ & Hq & Hqsub & Eq); [by apply NoDup_filter|].
  exists r, q. split; [done|]. split; [unfold rest_of; by rewrite Hr2, Hrl|]. split_and!.
  - rewrite <- Hrl. unfold rechecks. rewrite length_take. lia.
  - rewrite <- (length_fmap keyed q), <- Eq, length_take. lia.
  - apply NoDup_app. split; [done|]. split; [|done]. intros h Hh Hhq. apply Hqsub, list_elem_of_filter in Hhq as [Hhq _]. by apply Hhq.
  - intros h Hh. apply selectable_spec. apply elem_of_app in Hh as [Hh|Hh]; [apply Hrsub in Hh|apply Hqsub in Hh]; by apply list_elem_of_filter in Hh as [_ Hh].
  - intros h Hh. by apply Hrsub, list_elem_of_filter in Hh as [Hh _].
  - intros h Hw Hs Hh. destruct (take_sort_rest nulls_first (n / 2) (keyed <$> filter (λ h, stale minAge now s h = true) (selectable pg names d minAge now s)) (keyed h))
      as [Hl Hall]; [apply (list_elem_of_fmap_2 keyed), list_elem_of_filter; split; [done|by apply selectable_spec]| |].
    + intros Hx. apply Hh. rewrite <- Hr2. unfold rechecks. by apply (list_elem_of_fmap_2 snd) in Hx.
    + fold (rechecks pg names d minAge now n s) in Hl, Hall. rewrite Er in Hl, Hall. rewrite length_fmap in Hl. by rewrite Forall_fmap in Hall.
  - intros h Hw Hh. apply not_elem_of_app in Hh as [Hhr Hhq].
    destruct (take_sort_rest nulls_first (n - length r) (keyed <$> filter (λ h, h ∉ r) (selectable pg names d minAge now s)) (keyed h)) as [Hl _];
      [apply (list_elem_of_fmap_2 keyed), list_elem_of_filter; split; [done|by apply selectable_spec]| |].
    + rewrite Eq. intros Hx. apply Hhq. apply (list_elem_of_fmap_2 snd) in Hx. rewrite <- list_fmap_compose in Hx. cbn in Hx. by rewrite list_fmap_id in Hx.
    + by rewrite Eq, length_fmap in Hl.
Qed.

Lemma SelectStale_perm n r q :
  rechecks pg names d minAge now n s = keyed <$> r → rest_of pg names d minAge now n s = keyed <$> q → (length r + length q ≤ n)%nat →
  (take n (merge_sort nulls_first (rechecks pg names d minAge now n s ++ rest_of pg names d minAge now n s))).*2 ≡ₚ r ++ q.
Proof.
  intros -> -> Hl. rewrite <- fmap_app, take_ge; [|rewrite merge_sort_Permutation, length_fmap, length_app; lia].
  rewrite merge_sort_Permutation, <- list_fmap_compose. cbn. by rewrite list_fmap_id.
Qed.

Lemma private_not_admitted h : known_private h d → selection_admits pg names d h = false.
Proof.
  intros Hp. unfold selection_admits. destruct (torrents d !! h) as [t|] eqn:Et; [|done]. by rewrite (private_not_public h d t Hp Et).
Qed.
End selected.

(** C37: A batch neither starves rechecks nor wastes room.  It holds at most the
    limit, no hash twice, and only hashes that may be asked about and were never
    checked or not lately; it is full unless every such hash is in it; and a
    hash that is due for a recheck is left out only when half of the batch are
    due hashes that were checked no later than it, whatever the number of hashes
    that were never checked.  No torrent that is known to be private is chosen. *)
Theorem select_stale_fair `{Unicode} `{ScriptTables} pg names d minAge now limit s out :
  SelectStale pg names d false minAge now limit s = Some out →
  let n := Z.to_nat limit in
  (length out ≤ n)%nat ∧ NoDup out ∧ (∀ h, h ∈ out → wanted pg names d minAge now s h ∧ ¬ known_private h d)
  ∧ (∀ h, wanted pg names d minAge now s h → h ∉ out → length out = n)
  ∧ ∀ h, wanted pg names d minAge now s h → stale minAge now s h = true → h ∉ out →
      ∃ r, r ⊆ out ∧ NoDup r ∧ length r = (n / 2)%nat
        ∧ Forall (λ h', stale minAge now s h' = true ∧ nulls_first (checked s h', h') (checked s h, h)) r.
Proof.
  unfold SelectStale. destruct (Z.ltb_spec limit 0) as [|Hlim]; [by rewrite orb_true_r|]. change (false || false) with false. cbv iota zeta. intros [= <-]. set (n := Z.to_nat limit).
  destruct (select_stale_split pg names d minAge now s n) as (r & q & Er & Eq & Hr & Hq & Hnd & Hw & Hs & Hstale & Hfull).
  assert (Hle : (length r + length q ≤ n)%nat) by (pose proof (Nat.Div0.div_le_upper_bound n 2 n ltac:(lia)); lia).
  pose proof (SelectStale_perm pg names d minAge now s n r q Er Eq Hle) as Hp. fold n. set (out := (take n _).*2) in *. clearbody out.
  split; [by rewrite Hp, length_app|]. split; [by rewrite Hp|]. split_and!.
  - intros h Hh. rewrite Hp in Hh. specialize (Hw h Hh). split; [done|]. intros Hpr. destruct Hw as [Hw _]. by rewrite private_not_admitted in Hw.
  - intros h Hwh Hh. rewrite Hp in Hh |- *. rewrite length_app, (Hfull h Hwh Hh). lia.
  - intros h Hwh Hsh Hh. rewrite Hp in Hh. apply not_elem_of_app in Hh as [Hhr _]. destruct (Hstale h Hwh Hsh Hhr) as [Hl Hall].
    exists r. apply NoDup_app in Hnd as (Hnr & _ & _). split; [intros x Hx; rewrite Hp; apply elem_of_app; by left|]. split; [done|]. split; [done|].
    rewrite Forall_forall in Hall |- *. intros x Hx. split; [by apply Hs|by apply Hall].
Qed.

(** ** The stored counts *)

Lemma tracker_count_sql (f : SourceRow → option Z) (rows : list SourceRow) :
  NoDup (src_name <$> rows) → tracker_count f rows = sql_max (f <$> filter (λ r, src_name r = SourceKeyTracker) rows).
Proof.
  induction rows as [|r rows IH]; [done|]. rewrite fmap_cons, NoDup_cons. intros [Hr Hn]. cbn [tracker_count]. rewrite filter_cons.
  destruct (bool_decide_reflect (src_name r = SourceKeyTracker)) as [Ht|Ht]; [rewrite decide_True by done|rewrite decide_False by done; by apply IH].
  assert (Hnone : filter (λ r, src_name r = SourceKeyTracker) rows = []).
  { apply list_filter_none. intros x Hx Hxt. apply Hr. rewrite Ht, <- Hxt. by apply list_elem_of_fmap_2. }
  rewrite Hnone. cbn. rewrite IH, Hnone by done. by destruct (f r).
Qed.

Lemma best_fold (f : SourceRow → option Z) (rows : list SourceRow) (best : option Z) :
  Forall (λ r, ∀ n, f r = Some n → (0 ≤ n)%Z) rows → (∀ n, best = Some n → (0 ≤ n)%Z) →
  foldl (λ best r, match f r with Some n => Some (if default 0 best <? n then n else default 0 best)%Z | None => best end) best rows
  = match best, sql_max (f <$> rows) with None, x => x | x, None => x | Some n, Some m => Some (n `max` m)%Z end.
Proof.
  revert best. induction rows as [|r rows IH]; intros best Hnn Hb; [by destruct best|]. apply Forall_cons in Hnn as [Hr Hnn]. cbn [foldl fmap list_fmap sql_max foldr].
  fold (sql_max (f <$> rows)). destruct (f r) as [n|]; [|by apply IH]. specialize (Hr n eq_refl).
  rewrite IH; [|done|]; destruct best as [m|]; unfold from_option, id.
  - destruct (Z.ltb_spec m n), (sql_max (f <$> rows)); f_equal; lia.
  - destruct (Z.ltb_spec 0 n), (sql_max (f <$> rows)); f_equal; lia.
  - specialize (Hb m eq_refl). destruct (Z.ltb_spec m n); intros ? [= <-]; lia.
  - destruct (Z.ltb_spec 0 n); intros ? [= <-]; lia.
Qed.

(** the counts that the statement writes next to a torrent are those that
    the program reads from its sources: for sources of distinct names with
    counts that are not negative, both take the tracker's count when it has
    one, and otherwise the greatest of the others. *)
Theorem denorm_mirrors_model (f : SourceRow → option Z) (rows : list SourceRow) :
  NoDup (src_name <$> rows) → Forall (λ r, ∀ n, f r = Some n → (0 ≤ n)%Z) rows → sql_count f rows = bestCount f rows.
Proof.
  intros Hn Hnn. unfold sql_count, bestCount. rewrite tracker_count_sql by done.
  destruct (sql_max (f <$> filter (λ r, src_name r = SourceKeyTracker) rows)) as [n|] eqn:Et; [done|].
  rewrite best_fold by done. clear Hn Hnn. revert Et. induction rows as [|r rows IH]; [done|]. rewrite !filter_cons.
  destruct (decide (src_name r = SourceKeyTracker)) as [Ht|Ht].
  - rewrite (decide_False (P := src_name r ≠ SourceKeyTracker)) by (intros Hx; by apply Hx). cbn [fmap list_fmap sql_max foldr].
    fold (sql_max (f <$> filter (λ r, src_name r = SourceKeyTracker) rows)) (sql_max (f <$> rows)).
    destruct (f r) as [n|]; [by destruct (sql_max _)|]. exact IH.
  - rewrite (decide_True (P := src_name r ≠ SourceKeyTracker)) by done. intros Et. cbn [fmap list_fmap sql_max foldr].
    fold (sql_max (f <$> filter (λ r, src_name r ≠ SourceKeyTracker) rows)) (sql_max (f <$> rows)). by rewrite (IH Et).
Qed.

(** ** A cycle *)

(** The rows of a hash. *)
Definition rows_of (h : bytes) (s : seeds_db * Liveness.table) : option LedgerRow * option (list SourceRow) * option (list (option Z * option Z)) * option Liveness.Row :=
  (ledger s.1 !! h, sources s.1 !! h, contents s.1 !! h, s.2 !! h).

Lemma persist_one_other e o now h h' s : h' ≠ h → ledger (persist_one e o now h s) !! h' = ledger s !! h'
  ∧ sources (persist_one e o now h s) !! h' = sources s !! h' ∧ contents (persist_one e o now h s) = contents s.
Proof.
  intros Hn. unfold persist_one. destruct o as [o|]; [destruct (TrackerKnown o)|]; destruct e; cbn; by rewrite ?lookup_insert_ne.
Qed.

Lemma persist_other d outcomes now hs h s : h ∉ hs →
  ledger (persist d outcomes now hs s) !! h = ledger s !! h ∧ sources (persist d outcomes now hs s) !! h = sources s !! h
  ∧ contents (persist d outcomes now hs s) = contents s.
Proof.
  unfold persist. revert s. induction hs as [|x hs IH]; intros s Hh; [done|]. simpl. apply not_elem_of_cons in Hh as [Hx Hh].
  destruct (IH (persist_one (bool_decide (is_Some (torrents d !! x))) (outcomes !! x) now x s) Hh) as (-> & -> & ->). by apply persist_one_other.
Qed.

Lemma denorm_other hs h s : h ∉ hs → contents (denorm_sync hs s) !! h = contents s !! h.
Proof.
  unfold denorm_sync. revert s. induction hs as [|x hs IH]; intros s Hh; [done|]. simpl. apply not_elem_of_cons in Hh as [Hx Hh].
  rewrite IH by done. cbn. by rewrite lookup_alter_ne.
Qed.

Lemma denorm_keeps hs s : ledger (denorm_sync hs s) = ledger s ∧ sources (denorm_sync hs s) = sources s.
Proof. unfold denorm_sync. revert s. induction hs as [|x hs IH]; intros s; [done|]. simpl. by destruct (IH (denorm_one s x)) as [-> ->]. Qed.

(** a cycle leaves no trace of a torrent that it may not write about: of a
    hash that was withheld while the trackers were asked, or that is denied when
    the results are stored, no table changes; and nothing changes at all in a
    dry run or after an error. *)
Theorem cycle_denied_untouched `{Unicode} `{ScriptTables} `{UnicodeTables} names cfg write cancelled fa fw rec hashes ms now d s h :
  let '(s', _, ok) := RunBatch names cfg write cancelled fa fw rec hashes ms now d s in
  (write = false ∨ ok = false → s' = s)
  ∧ (out (b_shared (run cfg hashes ms)) !! h = None ∨ allowed_hash names d h = false → rows_of h s' = rows_of h s).
Proof.
  unfold RunBatch. destruct (admissionErr _ || cancelled); [done|]. destruct write; cbn [negb]; [|done].
  set (outcomes := out (b_shared (run cfg hashes ms))). set (admitted := filter _ hashes). unfold persist_cycle.
  destruct (withAdmission names d fa admitted) as [| |allowed] eqn:Ea; [done|done|]. destruct fw; [done|].
  unfold partition_evidence. cbn beta iota zeta. split; [by intros [?|?]|]. intros Hden.
  assert (Hh : h ∉ allowed).
  { revert Ea. unfold withAdmission. destruct (bool_decide _); [done|]. destruct (negb _); [done|]. destruct fa; [done|]. intros [= <-].
    rewrite list_elem_of_filter. unfold admitted. rewrite list_elem_of_filter. intros (Hal & [o Ho] & _).
    destruct Hden as [Hd|Hd]; [fold outcomes in Hd; by rewrite Hd in Ho|by rewrite Hd in Hal]. }
  assert (Hp : ∀ P `{∀ x, Decision (P x)}, h ∉ filter P allowed) by (intros P ?; rewrite list_elem_of_filter; naive_solver).
  unfold rows_of. cbn [fst snd]. destruct (denorm_keeps allowed (persist d outcomes now allowed s.1)) as [-> ->].
  rewrite denorm_other by done. destruct (persist_other d outcomes now allowed h s.1 Hh) as (-> & -> & ->). f_equal.
  destruct rec; [|done]. unfold Liveness.recordSuspectBatch, Liveness.markAliveBatch. rewrite !Liveness.update_rows_lookup, !bool_decide_eq_false_2; [done|apply Hp..].
Qed.

(** ** On concrete inputs *)

Definition one_tracker : Config := mkConfig 4 70 ["udp://a"; "udp://b"].


(** A tracker that never answers is sent one packet, twice. *)
Definition one_hash_packets : Config := mkConfig 1 1 ["udp://a"].
Definition lost (n : nat) (h : bytes) : list move := concat (replicate n [Step 0 (Admit [h]); Step 0 NetworkFails]).
Example silent_tracker :
  sent (b_shared (run one_hash_packets [[1]; [2]; [3]]%Z (Spawn :: lost 4 [1%Z]))) = [("udp://a", [[1%Z]]); ("udp://a", [[1%Z]])].
Proof. by vm_compute. Qed.


Definition denied_then_asked : list move := [Spawn; Spawn; Step 0 (Admit [])] ++ [Step 1 (Admit [sample_id]); Step 1 (Reply [])].
Lemma denial_final_witness :
  sent (b_shared (run one_tracker [sample_id] denied_then_asked)) = [] ∧ sample_id ∈ withheld (b_shared (run one_tracker [sample_id] denied_then_asked)).
Proof.
  split; [by vm_compute|]. apply (denial_final one_tracker [sample_id] [Spawn; Spawn; Step 0 (Admit [])] [Step 1 (Admit [sample_id]); Step 1 (Reply [])] sample_id).
  apply (bool_decide_unpack _). by vm_compute.
Defined.

Lemma scrape_terminates_witness :
  let ms := [Spawn; Step 0 (Admit [[1%Z]]); Step 0 NetworkFails; Step 0 Cancelled] in
  (length ms ≤ length (TrackerUrls one_hash_packets) * (4 * chunks one_hash_packets [[1%Z]] + 2))%nat.
Proof. apply (scrape_terminates one_hash_packets [[1%Z]]). repeat (split; [vm_compute; discriminate|]). done. Defined.

Lemma private_never_sent_witness :
  let private := no_evidence {[ sample_id := mkTorrentRow [85; 112]%Z true [] [] ]} ∅ in
  Forall (λ p, sample_id ∉ p.2) (sent (b_shared (run one_tracker [sample_id] [Spawn; Step 0 (Admit [])]))).
Proof.
  intros private.
  apply (@private_never_sent ascii_unicode (Build_ScriptTables (mkRangeTable [] []) (mkRangeTable [] [])) ReleaseInfo.name_tables None).
  split; [done|]. split; [|done]. exists private. split.
  - intros t Ht. left. vm_compute in Ht. by injection Ht as <-.
  - intros t Ht. vm_compute in Ht. injection Ht as <-. by vm_compute.
Defined.

Lemma denorm_mirrors_model_witness :
  let rows := [mkSource "dht" (Some 40%Z) None; mkSource "tracker" (Some 0%Z) (Some 3%Z)] in
  sql_count src_seeders rows = bestCount src_seeders rows ∧ sql_count src_seeders rows = Some 0%Z.
Proof.
  intros rows. split; [|by vm_compute]. apply (denorm_mirrors_model src_seeders rows).
  - apply (bool_decide_unpack _). by vm_compute.
  - repeat constructor; cbn; intros n [= <-]; lia.
Defined.

(** Two hashes that were checked long ago, three that never were, and a batch of two. *)
Definition five : db :=
  no_evidence (list_to_map ((λ h, ([h], mkTorrentRow [85; 112]%Z false [] [])) <$> [1; 2; 3; 4; 5]%Z)) ∅.
Definition checked_at (t : Z) : LedgerRow := mkLedger false None None None None t None None None.
Definition old_ledger : seeds_db := mkSeeds {[ [4%Z] := checked_at 20; [5%Z] := checked_at 10 ]} ∅ ∅.
#[local] Existing Instances ascii_unicode.
#[local] Instance no_scripts : ScriptTables := Build_ScriptTables (mkRangeTable [] []) (mkRangeTable [] []).
Definition pick (limit : Z) : option (list bytes) :=
  SelectStale (λ _ _, false) None five false 5 100 limit old_ledger.
Example small_batches : pick 2 = Some [[1%Z]; [5%Z]] ∧ pick 4 = Some [[1%Z]; [2%Z]; [5%Z]; [4%Z]] ∧ pick 0 = Some [] ∧ pick (-1) = None.
Proof. split_and!; vm_compute; reflexivity. Qed.
Lemma select_stale_fair_witness : pick 2 = Some [[1%Z]; [5%Z]] ∧ ∃ r, r ⊆ [[1%Z]; [5%Z]] ∧ length r = 1%nat.
Proof.
  assert (Hp : pick 2 = Some [[1%Z]; [5%Z]]) by (vm_compute; reflexivity). split; [exact Hp|].
  destruct (select_stale_fair _ _ _ _ _ _ _ _ Hp) as (_ & _ & _ & _ & Hr).
  destruct (Hr [4%Z]) as (r & Hsub & _ & Hl & _).
  - split; [vm_compute; reflexivity|right; vm_compute; reflexivity].
  - vm_compute; reflexivity.
  - apply (bool_decide_unpack ([4%Z] ∉ [[1%Z]; [5%Z]])). vm_compute; exact I.
  - exists r. split; [exact Hsub|exact Hl].
Defined.
 End Seeds.
