(* ===== verification/CrawlerStages.v ===== *)
(** * The stages of the crawler

    [internal/dhtcrawler]: goroutines connected by channels.  Nodes are pinged,
    asked for other nodes and for samples of info hashes; sampled hashes are
    triaged against the policies and the catalogue, peers are asked for, the
    metadata is fetched from a peer and judged, and torrents and their sources
    are stored in batches.

    Here each handler is a function of the item it receives, the answers of the
    network, the clock and the database, and the state of the components it
    calls: the name policy ([NamePolicy]), the child-safety list ([Csam]), the
    blocking manager ([Blocking]), the content filter ([ContentFilter]) and the
    routing table ([KTable]).  It returns what it sends.  A context that ends
    cuts a sequence of sends short: the number of sends that go through is an
    argument.  [Crawler.v] composes the stages. *)
From S2P Require Import Prelude Net Protocol KTable Lexer Metainfo Requester Regex Anime Csam NamePolicy Blocking ContentFilter.
From stdpp Require Import gmap list strings sets.
From Stdlib Require Import ZArith Lia.

Module CrawlerStages.
Import Net Protocol Metainfo KTable.
Local Open Scope list_scope.

(** ** What travels between the stages (crawler.go) *)

Record nodeHasPeersForHash := mkReq { infoHash : ID; req_node : AddrPort }.
Record infoHashWithPeers := mkWithPeers { wp_req : nodeHasPeersForHash; peers : list AddrPort }.
Record infoHashWithMetaInfo := mkWithMetaInfo { wm_req : nodeHasPeersForHash; metaInfo : Info }.
Record infoHashWithScrape := mkWithScrape { ws_req : nodeHasPeersForHash; bfsd : bytes; bfpe : bytes }.

Record NodeInfo := mkNodeInfo { ni_ID : ID; ni_Addr : AddrPort }.

(** What a handler sends: commands to the routing table and items to the
    channels of the other stages. *)
Inductive send :=
| ToTable (c : Command)
| ToDiscovered (n : NodeInfo)
| ToTriage (r : nodeHasPeersForHash)
| ToGetPeers (r : nodeHasPeersForHash)
| ToScrape (r : nodeHasPeersForHash)
| ToRequestMetaInfo (r : infoHashWithPeers)
| ToPersistSources (r : infoHashWithScrape).

(** ** Replies and the routing table *)

Definition errPeerIsReadOnly : KTable.error := "BEP-43: peer reply set ro=1".

(** [admitNodeFromReply] *)
Definition admitNodeFromReply (id : ID) (addr : AddrPort) (readOnly : bool) (extraOptions : list NodeOption) : Command :=
  if readOnly then CmdDropNode id (Some errPeerIsReadOnly)
  else CmdPutNode id addr (NodeResponded :: extraOptions).

(** [protocol.ID{}] *)
Definition zeroID : ID := replicate 20 0%Z.

(** [runPing]: [now] is the clock, [res] the answer of the client. *)
Definition ping (now oldPeerThreshold : Time) (n : node) (res : outcome string (ID * bool)) : list Command :=
  if node_Dropped n || (now - oldPeerThreshold <? node_Time n)%Z then []
  else
    match res with
    | Ok (id, readOnly) =>
        if negb (bool_decide (node_ID n = zeroID)) && negb (bool_decide (node_ID n = id))
        then [CmdDropNode (node_ID n) (Some "failed to respond to ping: node responded with a mismatching ID"%string)]
        else [admitNodeFromReply id (node_Addr n) readOnly []]
    | Err e => [CmdDropNode zeroID (Some ("failed to respond to ping: " +:+ e)%string)]
    | Panic => []
    end.

(** [runFindNode]: the nodes are sent until the context ends. *)
Definition findNode (n : node) (res : outcome string (list NodeInfo * bool)) (sent : nat) : list send :=
  match res with
  | Ok (nodes, readOnly) =>
      ToTable (admitNodeFromReply (node_ID n) (node_Addr n) readOnly []) :: (ToDiscovered <$> take sent nodes)
  | Err e => [ToTable (CmdDropNode (node_ID n) (Some ("find_node failed: " +:+ e)%string))]
  | Panic => []
  end.

(** A loop whose [break] only leaves the [select]: after the timeout each node
    is sent or not. *)
Definition sendAny (mask : list bool) (nodes : list NodeInfo) : list send :=
  ToDiscovered <$> ((λ x, x.2) <$> filter (λ x, x.1 = true) (zip mask nodes)).

(** [runGetPeers] and [requestPeersForHash] *)
Definition getPeers (r : nodeHasPeersForHash) (res : outcome string (ID * list AddrPort * list NodeInfo * bool))
    (mask : list bool) (ctxDone : bool) : list send :=
  match res with
  | Ok (id, values, nodes, readOnly) =>
      ToTable (admitNodeFromReply id (req_node r) readOnly []) :: sendAny mask nodes
      ++ (if decide (values = []) then []
          else ToTable (CmdPutHash (infoHash r) values [])
               :: if ctxDone then [] else [ToRequestMetaInfo (mkWithPeers r values)])
  | Err e => [ToTable (CmdDropAddr (ap_addr (req_node r)) (Some ("failed to get peers: " +:+ e)%string))]
  | Panic => []
  end.

(** [runScrape] and [requestScrape] *)
Definition scrape (r : nodeHasPeersForHash) (res : outcome string (ID * bytes * bytes * list NodeInfo * bool))
    (mask : list bool) (ctxDone : bool) : list send :=
  match res with
  | Ok (id, bfPeers, bfSeeders, nodes, readOnly) =>
      ToTable (admitNodeFromReply id (req_node r) readOnly []) :: sendAny mask nodes
      ++ (if ctxDone then [] else [ToPersistSources (mkWithScrape r bfSeeders bfPeers)])
  | Err e => [ToTable (CmdDropAddr (ap_addr (req_node r)) (Some ("failed to get peers from p: " +:+ e)%string))]
  | Panic => []
  end.

(** [nextSampleInterval] *)
Definition nextSampleInterval (fromPeer discoveredNew : Z) : Z := fromPeer.

(** [getNodesForSampleInfoHashes], one turn of its loop; nothing is asked while
    the identifier is a random fallback. *)
Definition nodesForSampleInfoHashes (randomFallback : bool) (candidates : list node) : list node :=
  if randomFallback then [] else candidates.

(** The stable bloom filter of hashes already seen ([ignoreHashes]); its
    [TestAndAdd] evicts at random. *)
Class SeenFilter (S : Type) := { testAndAdd : Z → S → ID → bool * S }.

(** The loop over the samples: the hashes not seen before. *)
Fixpoint discover {S} `{!SeenFilter S} (seed : nat → Z) (k : nat) (seen : S) (samples : list ID) : list ID * S :=
  match samples with
  | [] => ([], seen)
  | s :: samples =>
      let '(known, seen) := testAndAdd (seed k) seen s in
      let '(hs, seen) := discover seed (Datatypes.S k) seen samples in
      ((if known : bool then hs else s :: hs), seen)
  end.

(** [runSampleInfoHashes]; [sentTriage] of the discovered hashes are sent; when
    the context ends before the last of them the handler returns. *)
Definition sampleInfoHashes {S} `{!SeenFilter S} (seed : nat → Z) (now later : Time) (n : node)
    (res : outcome string (list ID * list NodeInfo * Z * Z * bool)) (sentTriage sentNodes : nat) (seen : S)
    : list send * S :=
  if negb (IsSampleInfoHashesCandidate now n) then ([], seen)
  else
    match res with
    | Ok (samples, nodes, num, interval, readOnly) =>
        let '(hashes, seen) := discover seed 0 seen samples in
        let discoveredHashes := (λ h, mkReq h (node_Addr n)) <$> hashes in
        let triaged := ToTriage <$> take sentTriage discoveredHashes in
        if sentTriage <? length discoveredHashes then (triaged, seen)
        else
          let found := Z.of_nat (length discoveredHashes) in
          (triaged
           ++ ToTable (admitNodeFromReply (node_ID n) (node_Addr n) readOnly
                [NodeBep51Support true;
                 NodeSampleInfoHashesRes found num (later + int64 (nextSampleInterval interval found * Second))%Z])
           :: (ToDiscovered <$> take sentNodes nodes), seen)
    | Err e => ([ToTable (CmdDropNode (node_ID n) (Some ("sample_infohashes failed: " +:+ e)%string))], seen)
    | Panic => ([], seen)
    end.

(** [runDiscoveredNodes]: one node for each address, without the addresses of
    the routing table; each goes to one of three channels.  [m] maps an address
    to the first node with it. *)
Definition discoveredNodes (t : table) (ps : list NodeInfo) : list NodeInfo :=
  let '(addrs, m) := foldl (λ '(addrs, m) p,
      let a := ap_addr (ni_Addr p) in
      if decide (is_Some (m !! a)) then (addrs, m) else (addrs ++ [a], <[a := p]> m)) ([], ∅ : gmap Addr NodeInfo) ps in
  omap (λ a, m !! a) (FilterKnownAddrs t addrs).

(** ** Verdicts (verdict_record.go) *)

Record verdict := mkVerdict { v_hash : ID; v_mechanism : string; v_reason : string; v_site : option string }.

Definition removedHashes (all kept : list ID) : list ID :=
  if decide (length all = length kept) then [] else filter (λ h, h ∉ kept) all.

Definition csamVerdict (site : string) (h : ID) : verdict :=
  mkVerdict h "csam" ("community-feed CSAM reject (" +:+ site +:+ ")") (Some site).
(** [hasVerdicts] says whether the store is there; its errors are ignored. *)
Definition recordCsamRejects (hasVerdicts : bool) (all kept : list ID) (site : string) : list verdict :=
  if negb hasVerdicts then [] else csamVerdict site <$> removedHashes all kept.
Definition recordCsamReject (hasVerdicts : bool) (h : ID) (site : string) : list verdict :=
  if negb hasVerdicts then [] else [csamVerdict site h].
Definition recordBlockingVerdict (hasVerdicts : bool) (h : ID) : list verdict :=
  if negb hasVerdicts then [] else [mkVerdict h "blocking" "banning check failed; blocked" None].

(** ** Triage (infohash_triage.go) *)

Inductive FilesStatus := FilesStatusNoInfo | FilesStatusSingle | FilesStatusMulti | FilesStatusOverThreshold.
#[export] Instance FilesStatus_eq_dec : EqDecision FilesStatus.
Proof. solve_decision. Defined.

(** A null integer is [None]. *)
Record triageResult := mkTriageResult {
  t_Name : bytes;
  t_InfoHash : ID;
  t_FilesStatus : FilesStatus;
  t_FilesCount : option Z;
  t_Seeders : option Z;
  t_Leechers : option Z;
  t_UpdatedAt : Time
}.

(** The first request of each hash that the policy does not exclude. *)
Definition collect (p : option NamePolicy.Policy) (reqs : list nodeHasPeersForHash)
    : list ID * gmap ID nodeHasPeersForHash :=
  foldl (λ '(hs, m) r,
      if NamePolicy.ExcludesHash p (infoHash r) then (hs, m)
      else if decide (is_Some (m !! infoHash r)) then (hs, m)
      else (hs ++ [infoHash r], <[infoHash r := r]> m)) ([], ∅) reqs.

(** Whether the metadata is to be fetched, and whether to scrape. *)
Definition wantsMetaInfo (saveFilesThreshold : Z) (t : option triageResult) : bool :=
  match t with
  | None => true
  | Some t =>
      bool_decide (t_FilesStatus t = FilesStatusNoInfo)
      || negb (bool_decide (t_FilesStatus t = FilesStatusSingle)) && bool_decide (t_FilesCount t = None)
      || bool_decide (t_FilesStatus t = FilesStatusOverThreshold) && (default 0 (t_FilesCount t) <=? saveFilesThreshold)%Z
  end.
Definition wantsScrape (now rescrapeThreshold : Time) (t : triageResult) : bool :=
  bool_decide (t_Seeders t = None) || bool_decide (t_Leechers t = None)
  || Before (t_UpdatedAt t) (now - rescrapeThreshold)%Z.

Section triage.
Context `{ScriptTables} `{UnicodeTables}.

(** One turn of the last loop. *)
Definition route (p : option NamePolicy.Policy) (saveFilesThreshold : Z) (now rescrapeThreshold : Time)
    (found : option triageResult) (r : nodeHasPeersForHash) : list send :=
  let refused :=
    match found with
    | Some t => bool_decide (t_Name t ≠ []) && negb (NamePolicy.Eligible (NamePolicy.Evaluate p (infoHash r) (t_Name t)))
    | None => false
    end in
  if refused then []
  else if wantsMetaInfo saveFilesThreshold found then [ToGetPeers r]
  else match found with
       | Some t => if wantsScrape now rescrapeThreshold t then [ToScrape r] else []
       | None => []
       end.

(** What the database answers: the verdict store, when there is one, and the
    torrents of the catalogue; [None] is an error.  [te_order] is the order of a
    range over a map. *)
Record triage_env := mkTriageEnv {
  te_blocked : option (list ID);
  te_torrents : option (list triageResult);
  te_order : gset ID → list ID;
  te_now : ID → Time;
  te_sent : nat
}.

(** The verdict ledger: shadow unless live; an error keeps every hash. *)
Definition consultVerdicts (hasVerdicts verdictsLive : bool) (blocked : option (list ID)) (hashes : list ID) : list ID :=
  match hasVerdicts, blocked with
  | true, Some b => if verdictsLive then filter (λ h, h ∉ b) hashes else hashes
  | _, _ => hashes
  end.

Definition foundTorrents (result : list triageResult) : gmap ID triageResult :=
  foldl (λ m t, <[t_InfoHash t := t]> m) ∅ result.

(** The part of [runInfoHashTriage] after the blocking manager: [filtered] are
    the hashes it kept. *)
Definition triageFiltered (p : option NamePolicy.Policy) (hasVerdicts verdictsLive : bool) (saveFilesThreshold : Z)
    (rescrapeThreshold : Time) (reqMap : gmap ID nodeHasPeersForHash) (w : triage_env) (filtered : list ID) : list send :=
  if decide (filtered = []) then []
  else
    let kept := consultVerdicts hasVerdicts verdictsLive (te_blocked w) filtered in
    if decide (kept = []) then []
    else match te_torrents w with
         | None => []
         | Some result =>
             let found := foundTorrents result in
             take (te_sent w)
               (te_order w (list_to_set kept) ≫= λ h, match reqMap !! h with
                                   | Some r => route p saveFilesThreshold (te_now w h) rescrapeThreshold (found !! h) r
                                   | None => []
                                   end)
         end.

(** [runInfoHashTriage] on a batch.  [Csam.Manager_Filter] overwrites the array
    of [allHashes]; the copy made before it is what the verdicts compare with. *)
Definition triage {B BB R} `{!Csam.Bloom B} `{!Blocking.StableBloom BB} `{!Blocking.Recovery R}
    (p : option NamePolicy.Policy) (hasVerdicts verdictsLive : bool) (saveFilesThreshold : Z) (rescrapeThreshold : Time)
    (csam : Csam.Manager B) (now : Time) (bio : Blocking.io) (border : list ID) (bseed : nat → Z) (w : triage_env)
    (blk : @Blocking.manager BB R) (bdb : @Blocking.db BB) (reqs : list nodeHasPeersForHash)
    : list verdict * @Blocking.manager BB R * @Blocking.db BB * go (list send) :=
  let '(allHashes, reqMap) := collect p reqs in
  let preFilter := allHashes in
  let '(_, csamKept) := Csam.Manager_Filter csam allHashes in
  let verdicts := recordCsamRejects hasVerdicts preFilter csamKept "triage" in
  let '(blk, bdb, res) := Blocking.Filter now bio border bseed csamKept blk bdb in
  (verdicts, blk, bdb,
   match res with
   | Ok filtered =>
       Ok (triageFiltered p hasVerdicts verdictsLive saveFilesThreshold rescrapeThreshold reqMap w filtered)
   | Err _ => Ok []
   | Panic => Panic
   end).

End triage.

(** ** Judging metadata (request_meta_info.go) *)

(** [filepath.Clean] on a path with slashes, over its components. *)
Fixpoint split_slash (cur : bytes) (s : bytes) : list bytes :=
  match s with
  | [] => [cur]
  | c :: s => if (c =? 47)%Z then cur :: split_slash [] s else split_slash (cur ++ [c]) s
  end.
Definition dotdot : bytes := [46; 46]%Z.
Definition clean_step (rooted : bool) (acc : list bytes) (c : bytes) : list bytes :=
  if decide (c = [] ∨ c = [46]%Z) then acc
  else if decide (c = dotdot) then
    match last acc with
    | Some top => if decide (top = dotdot) then acc ++ [dotdot] else removelast acc
    | None => if rooted then acc else acc ++ [dotdot]
    end
  else acc ++ [c].
Fixpoint join_slash (l : list bytes) : bytes :=
  match l with [] => [] | [x] => x | x :: l => x ++ [47%Z] ++ join_slash l end.
Definition Clean (s : bytes) : bytes :=
  let rooted := bool_decide (head s = Some 47%Z) in
  let comps := foldl (clean_step rooted) [] (split_slash [] s) in
  let path := (if rooted then [47%Z] else []) ++ join_slash comps in
  if decide (path = []) then [46]%Z else path.
(** [filepath.Join]: leading empty elements are left out. *)
Fixpoint Join (elems : list bytes) : bytes :=
  match elems with
  | [] => []
  | [] :: elems => Join elems
  | elems => Clean (join_slash elems)
  end.

Fixpoint drop_slashes (s : bytes) : bytes :=
  match s with c :: s' => if (c =? 47)%Z then drop_slashes s' else s | [] => [] end.
Fixpoint before_slash (s : bytes) : bytes :=
  match s with c :: s => if (c =? 47)%Z then [] else c :: before_slash s | [] => [] end.
(** [filepath.Base] *)
Definition Base (s : bytes) : bytes :=
  if decide (s = []) then [46]%Z
  else
    let b := rev (before_slash (drop_slashes (rev s))) in
    if decide (b = []) then [47]%Z else b.
(** [filepath.Ext]: from the last dot of the last element. *)
Fixpoint ext_loop (acc s : bytes) : bytes :=
  match s with
  | [] => []
  | c :: s => if (c =? 47)%Z then [] else if (c =? 46)%Z then c :: acc else ext_loop (c :: acc) s
  end.
Definition Ext (s : bytes) : bytes := ext_loop [] (rev s).

Section judge.
Context `{Torrent} `{Unicode} `{ScriptTables} `{UnicodeTables} `{CaseFolding}.

(** [addExt] *)
Definition ext_of (path : bytes) : runes :=
  let base := Base ((λ c, if (c =? 92)%Z then 47%Z else c) <$> path) in
  match ToLower <$> range_runes (Ext base) with 46%Z :: e => e | e => e end.

(** The extensions of all files, in order, and the primary one. *)
Fixpoint file_exts (primaryExt : runes) (primarySize : Z) (files : list FileInfo) : list runes * runes :=
  match files with
  | [] => ([], primaryExt)
  | f :: files =>
      let ext := ext_of (Join (Path f)) in
      if decide (ext = []) then file_exts primaryExt primarySize files
      else
        let '(exts, primary) :=
          if (primarySize <? fi_Length f)%Z then file_exts ext (fi_Length f) files
          else file_exts primaryExt primarySize files in
        (ext :: exts, primary)
  end.
Definition extensions (name : bytes) (files : list FileInfo) : list runes * runes :=
  match files with
  | [] => let e := ext_of name in ((if decide (e = []) then [] else [e]), e)
  | _ => file_exts [] 0 files
  end.

(** [allExts] are the distinct extensions, in the order of a range over a map. *)
Definition metaInfoToFilterInput (name : bytes) (files : list FileInfo) (allExts : list runes) : ContentFilter.Input :=
  ContentFilter.mkInput false (range_runes name) (extensions name files).2 allExts [] [].

(** The gate of [runRequestMetaInfo] before a torrent is queued. *)
Definition contentGate (cf : option ContentFilter.Config) (info : Info) (allExts : list runes) : bool :=
  match cf with
  | Some c =>
      if ContentFilter.Enabled c
      then ContentFilter.Allow (ContentFilter.DecideDeterministic c (metaInfoToFilterInput (Name info) (Files info) allExts))
      else true
  | None => true
  end.

(** [doRequestMetaInfo] before the first peer is asked. *)
Inductive admission := Refused (vs : list verdict) | Proceed.
Definition admitRequest {B} `{!Csam.Bloom B} (p : option NamePolicy.Policy) (csam : Csam.Manager B) (hasVerdicts : bool)
    (h : ID) : admission :=
  if NamePolicy.ExcludesHash p h then Refused []
  else if Csam.Manager_IsBlocked csam h then Refused (recordCsamReject hasVerdicts h "egress")
  else Proceed.

(** One turn of its loop, on the answer of a peer. *)
Inductive judgement := NextPeer | Excluded | Banned | Accepted (res : Requester.Response).
Definition judge (p : option NamePolicy.Policy) (banning : Info → option (list banError)) (h : ID)
    (answer : outcome Requester.error Requester.Response) : judgement :=
  match answer with
  | Ok res =>
      let info := Requester.resp_Info res in
      if negb (NamePolicy.Eligible (NamePolicy.Evaluate p h (BestName info))) then Excluded
      else match banning info with Some _ => Banned | None => Accepted res end
  | _ => NextPeer
  end.

(** ** Storing torrents (persist.go) *)

(** The fields of the models that the crawler sets; the source of every row of
    [TorrentsTorrentSource] is [dht]. *)
Record TorrentFile := mkTorrentFile { tf_InfoHash : ID; tf_Index : Z; tf_Path : bytes; tf_Size : Z }.
Record TorrentPieces := mkTorrentPieces { tp_InfoHash : ID; tp_PieceLength : Z; tp_Pieces : bytes }.
Record TorrentsTorrentSource := mkSource { s_InfoHash : ID; s_Seeders : option Z; s_Leechers : option Z }.
Record torrent_model := mkTorrentModel {
  m_InfoHash : ID;
  m_Name : bytes;
  m_Size : Z;
  m_Private : bool;
  m_FilesStatus : FilesStatus;
  m_FilesCount : option Z;
  m_Files : list TorrentFile;
  m_Pieces : option TorrentPieces
}.

(** [uint] of an [int64]. *)
Definition uint64 (z : Z) : Z := wrap 64 z.

(** The loop over the files, from index [i] on; [limit] is
    [int(saveFilesThreshold)]. *)
Fixpoint model_files (hash : ID) (info : Info) (limit : Z) (i : nat) (files : list FileInfo) : list TorrentFile * bool :=
  match files with
  | [] => ([], false)
  | f :: files =>
      if (limit <=? Z.of_nat i)%Z then ([], true)
      else
        let '(fs, over) := model_files hash info limit (S i) files in
        (mkTorrentFile hash (Z.of_nat i) (DisplayPath f info) (uint64 (fi_Length f)) :: fs, over)
  end.

(** [createTorrentModel]; the slice of files is made with the smaller of the
    threshold and the number of files as its capacity, which panics when the
    threshold is negative as an [int]. *)
Definition createTorrentModel (hash : ID) (info : Info) (savePieces : bool) (saveFilesThreshold : Z) : go torrent_model :=
  let limit := int64 saveFilesThreshold in
  if (limit <? 0)%Z then Panic
  else
    let '(files, over) := model_files hash info limit 0 (Files info) in
    Ok (mkTorrentModel hash (BestName info) (uint64 (TotalLength info)) (default false (info_Private info))
          (if over : bool then FilesStatusOverThreshold
           else if decide (Files info = []) then FilesStatusSingle else FilesStatusMulti)
          (if decide (Files info = []) then None else Some (len (Files info)))
          files
          (if savePieces then Some (mkTorrentPieces hash (PieceLength info) (info_Pieces info)) else None)).

Definition classifyBatchSize : nat := 100.

(** The lists that the loop over a batch fills.  The files, the source and the
    pieces of a torrent are stored with it. *)
Record batch := mkBatch {
  torrents : list torrent_model;
  hashMap : gmap ID infoHashWithMetaInfo;
  hashesToClassify : list ID;
  jobs : list (list ID)
}.

(** [flushHashesToClassify]: a queue job for the hashes collected so far. *)
Definition flushHashesToClassify (b : batch) : batch :=
  mkBatch (torrents b) (hashMap b) []
    (if decide (hashesToClassify b = []) then jobs b else jobs b ++ [hashesToClassify b]).

Definition persist_step (p : option NamePolicy.Policy) (savePieces : bool) (saveFilesThreshold : Z) (b : batch)
    (i : infoHashWithMetaInfo) : go batch :=
  let h := infoHash (wm_req i) in
  if negb (NamePolicy.Eligible (NamePolicy.Evaluate p h (BestName (metaInfo i)))) then Ok b
  else if decide (is_Some (hashMap b !! h)) then Ok b
  else
    t ← createTorrentModel h (metaInfo i) savePieces saveFilesThreshold;
    let b := mkBatch (torrents b ++ [t]) (<[h := i]> (hashMap b)) (hashesToClassify b ++ [h]) (jobs b) in
    Ok (if classifyBatchSize <=? length (hashesToClassify b) then flushHashesToClassify b else b).

Fixpoint persist_loop (p : option NamePolicy.Policy) (savePieces : bool) (saveFilesThreshold : Z) (b : batch)
    (is_ : list infoHashWithMetaInfo) : go batch :=
  match is_ with
  | [] => Ok b
  | i :: is_ => b ← persist_step p savePieces saveFilesThreshold b i; persist_loop p savePieces saveFilesThreshold b is_
  end.

(** [runPersistTorrents] up to the transaction. *)
Definition persistTorrents (p : option NamePolicy.Policy) (savePieces : bool) (saveFilesThreshold : Z)
    (is_ : list infoHashWithMetaInfo) : go batch :=
  b ← persist_loop p savePieces saveFilesThreshold (flushHashesToClassify (mkBatch [] ∅ [] [])) is_;
  Ok (flushHashesToClassify b).

(** [runPersistSources]: one row for each hash; [approximatedSize] is the
    estimate of a bloom filter. *)
Definition createTorrentSourceModel (approximatedSize : bytes → Z) (s : infoHashWithScrape) : TorrentsTorrentSource :=
  mkSource (infoHash (ws_req s)) (Some (approximatedSize (bfsd s))) (Some (approximatedSize (bfpe s))).
Definition persistSources (approximatedSize : bytes → Z) (scrapes : list infoHashWithScrape) : list TorrentsTorrentSource :=
  (foldl (λ '(srcs, seen) s,
      if decide (infoHash (ws_req s) ∈ seen) then (srcs, seen)
      else (srcs ++ [createTorrentSourceModel approximatedSize s], {[infoHash (ws_req s)]} ∪ seen))
     ([], ∅ : gset ID) scrapes).1.

End judge.

(** ** Triage *)

(** [r] is the first request for its hash, which the policy does not exclude. *)
Definition first_request (p : option NamePolicy.Policy) (reqs : list nodeHasPeersForHash) (r : nodeHasPeersForHash) : Prop :=
  NamePolicy.ExcludesHash p (infoHash r) = false
  ∧ ∃ l1 l2, reqs = l1 ++ r :: l2 ∧ Forall (λ x, infoHash x ≠ infoHash r) l1.

Lemma first_request_snoc p reqs r x :
  first_request p (reqs ++ [x]) r
  ↔ first_request p reqs r ∨ NamePolicy.ExcludesHash p (infoHash x) = false ∧ r = x ∧ Forall (λ y, infoHash y ≠ infoHash x) reqs.
Proof.
  unfold first_request. split.
  - intros (He & l1 & l2 & Hl & Hf). destruct l2 as [|y l2] using rev_ind.
    + apply app_inj_tail in Hl as [-> ->]. auto.
    + clear IHl2. rewrite app_comm_cons, app_assoc in Hl. apply app_inj_tail in Hl as [-> ->].
      left. split; [done|]. by exists l1, l2.
  - intros [(He & l1 & l2 & -> & Hf) | (He & -> & Hf)].
    + split; [done|]. exists l1, (l2 ++ [x]). by rewrite <-app_assoc.
    + split; [done|]. by exists reqs, [].
Qed.

Lemma first_request_in p reqs r : first_request p reqs r → r ∈ reqs.
Proof. intros (_ & l1 & l2 & -> & _). set_solver. Qed.

Lemma collect_spec p reqs :
  let '(hs, m) := collect p reqs in
  NoDup hs ∧ (∀ h, h ∈ hs ↔ is_Some (m !! h)) ∧ (∀ h r, m !! h = Some r ↔ infoHash r = h ∧ first_request p reqs r).
Proof.
  unfold collect. induction reqs as [|x reqs IH] using rev_ind.
  - simpl. split_and!; [constructor| |]; intros h; rewrite lookup_empty.
    + split; [by intros ?%not_elem_of_nil|by intros [? ?]].
    + intros r. split; [done|]. intros (_ & _ & [|] & l2 & Hl & _); done.
  - rewrite foldl_snoc. destruct (foldl _ _ reqs) as [hs m]. destruct IH as (Hn & Hd & Hm).
    assert (is_Some (m !! infoHash x) ↔ NamePolicy.ExcludesHash p (infoHash x) = false ∧ ¬ Forall (λ y, infoHash y ≠ infoHash x) reqs) as Hx.
    { split.
      - intros [r Hr]. apply Hm in Hr as (Hr & He & l1 & l2 & -> & _). rewrite <-Hr. split; [done|].
        rewrite Forall_app, Forall_cons. by intros (_ & ? & _).
      - intros [He Hf]. apply not_Forall_Exists in Hf; [|apply _].
        apply Exists_exists in Hf as (y & Hy & Hyx). cbv beta in Hyx. apply dec_stable in Hyx.
        assert (∃ r, infoHash r = infoHash x ∧ first_request p reqs r) as (r & Hr); [|exists r; by apply Hm].
        destruct (list_find (λ z, infoHash z = infoHash x) reqs) as [[k r]|] eqn:Hk.
        + apply list_find_Some in Hk as (Hk & Hr & Hlt). exists r. split; [done|]. split; [by rewrite Hr|].
          exists (take k reqs), (drop (S k) reqs). split; [by rewrite take_drop_middle|].
          apply Forall_lookup. intros j z Hz. apply lookup_take_Some in Hz as [Hz Hj]. rewrite Hr. by eapply Hlt.
        + apply list_find_None in Hk. rewrite Forall_forall in Hk. by destruct (Hk y Hy). }
    destruct (NamePolicy.ExcludesHash p (infoHash x)) eqn:He; [|case_decide as Hs].
    + split_and!; [done..|]. intros h r. rewrite Hm, first_request_snoc, He.
      split; [tauto|]. by intros (? & [? | (? & _)]).
    + split_and!; [done..|]. intros h r. rewrite Hm, first_request_snoc. apply Hx in Hs as [_ Hs]. tauto.
    + assert (Forall (λ y, infoHash y ≠ infoHash x) reqs) as Hf by (apply dec_stable; intros Hf; by apply Hs, Hx).
      split_and!.
      * apply NoDup_app. split_and!; [done| |by apply NoDup_singleton].
        intros h Hh ->%list_elem_of_singleton. by apply Hs, Hd.
      * intros h. rewrite elem_of_app, list_elem_of_singleton, Hd. destruct (decide (h = infoHash x)) as [-> | Hne].
        -- rewrite lookup_insert_eq. split; [by eexists|auto].
        -- rewrite lookup_insert_ne by done. tauto.
      * intros h r. rewrite first_request_snoc. destruct (decide (h = infoHash x)) as [-> | Hne].
        -- rewrite lookup_insert_eq. split; [intros [= ->]; auto|].
           intros (Hr & [Hfr | (_ & -> & _)]); [|done]. destruct Hs. rewrite <-Hr. exists r. by apply Hm.
        -- rewrite lookup_insert_ne by done. rewrite Hm. split; [tauto|]. by intros (Hr & [? | (_ & -> & _)]).
Qed.

(** The hash that a routed item is about. *)
Definition routed (s : send) : option nodeHasPeersForHash :=
  match s with ToGetPeers r | ToScrape r => Some r | _ => None end.

Section triage_facts.
Context `{ScriptTables} `{UnicodeTables}.

Lemma route_routed p thr now rescrape found r s :
  s ∈ route p thr now rescrape found r → route p thr now rescrape found r = [s] ∧ routed s = Some r
  ∧ ∀ t, found = Some t → t_Name t ≠ [] → NamePolicy.Eligible (NamePolicy.Evaluate p (infoHash r) (t_Name t)) = true.
Proof.
  unfold route. destruct found as [t|]; [|by intros ->%list_elem_of_singleton].
  destruct (bool_decide (t_Name t ≠ []) && _) eqn:Hr; [by intros ?%not_elem_of_nil|].
  apply andb_false_iff in Hr. rewrite bool_decide_eq_false, negb_false_iff in Hr.
  case_goal; [|case_goal]; [intros ->%list_elem_of_singleton..|by intros ?%not_elem_of_nil];
    (split_and!; [done..|]); intros ? [= <-] Hn; by destruct Hr.
Qed.

(** The items that are routed, without the cut of a context that ends. *)
Definition routes (p : option NamePolicy.Policy) (thr : Z) (rescrape : Time) (reqMap : gmap ID nodeHasPeersForHash)
    (w : triage_env) (result : list triageResult) (kept : list ID) : list send :=
  te_order w (list_to_set kept) ≫= λ h,
    match reqMap !! h with
    | Some r => route p thr (te_now w h) rescrape (foundTorrents result !! h) r
    | None => []
    end.

Lemma triageFiltered_routes p hv live thr rescrape reqMap w filtered s :
  s ∈ triageFiltered p hv live thr rescrape reqMap w filtered →
  ∃ result, te_torrents w = Some result
    ∧ triageFiltered p hv live thr rescrape reqMap w filtered
      = take (te_sent w) (routes p thr rescrape reqMap w result (consultVerdicts hv live (te_blocked w) filtered)).
Proof.
  unfold triageFiltered. case_decide; [by intros ?%not_elem_of_nil|].
  case_decide; [by intros ?%not_elem_of_nil|].
  destruct (te_torrents w) as [result|]; [|by intros ?%not_elem_of_nil]. by exists result.
Qed.

Lemma routes_spec p thr rescrape reqMap w result kept :
  (∀ X, te_order w X ≡ₚ elements X) → (∀ h r, reqMap !! h = Some r → infoHash r = h) →
  NoDup (infoHash <$> omap routed (routes p thr rescrape reqMap w result kept))
  ∧ ∀ s, s ∈ routes p thr rescrape reqMap w result kept ↔
      ∃ r, infoHash r ∈ kept ∧ reqMap !! infoHash r = Some r
        ∧ s ∈ route p thr (te_now w (infoHash r)) rescrape (foundTorrents result !! infoHash r) r.
Proof.
  intros Ho Hm. unfold routes.
  set (body h := match reqMap !! h with
                 | Some r => route p thr (te_now w h) rescrape (foundTorrents result !! h) r
                 | None => []
                 end).
  assert (∀ h s, s ∈ body h → body h = [s] ∧ ∃ r, reqMap !! h = Some r ∧ routed s = Some r) as Hbody.
  { intros h s. unfold body. destruct (reqMap !! h) as [r|]; [|by intros ?%not_elem_of_nil].
    intros Hs. destruct (route_routed _ _ _ _ _ _ _ Hs) as (? & ? & _). eauto. }
  split.
  - assert (NoDup (te_order w (list_to_set kept))) as Hn by (rewrite Ho; apply NoDup_elements).
    induction Hn as [|h l Hh Hn IH]; [constructor|]. rewrite bind_cons, omap_app, fmap_app.
    destruct (body h) as [|s l'] eqn:Hb; [done|].
    destruct (Hbody h s) as (Hs & r & Hr & Hrs); [rewrite Hb; set_solver|].
    rewrite Hb in Hs. simplify_eq. simpl. rewrite Hrs. simpl. constructor; [|done].
    intros (r' & Hr' & (s' & (h' & Hs' & Hh')%list_elem_of_bind & Hrs')%list_elem_of_omap)%list_elem_of_fmap.
    apply Hbody in Hs' as (_ & r'' & Hr'' & Hrs''). simplify_eq.
    apply Hm in Hr, Hr''. by assert (h = h') as -> by congruence.
  - intros s. rewrite list_elem_of_bind. setoid_rewrite Ho. setoid_rewrite elem_of_elements.
    setoid_rewrite elem_of_list_to_set. unfold body. split.
    + intros (h & Hs & Hh). destruct (reqMap !! h) as [r|] eqn:Hr; [|by apply not_elem_of_nil in Hs].
      pose proof (Hm _ _ Hr) as <-. eauto.
    + intros (r & Hk & Hr & Hs). exists (infoHash r). by rewrite Hr.
Qed.

Lemma route_length p thr now rescrape found r : length (route p thr now rescrape found r) ≤ 1.
Proof. unfold route. repeat case_goal; simpl; lia. Qed.

Lemma routes_length p thr rescrape reqMap w result kept :
  (∀ X, te_order w X ≡ₚ elements X) → length (routes p thr rescrape reqMap w result kept) ≤ length kept.
Proof.
  intros Ho. unfold routes. transitivity (length (te_order w (list_to_set kept))).
  - induction (te_order w (list_to_set kept)) as [|h l IH]; [done|]. rewrite bind_cons, length_app. simpl.
    assert (∀ x : list send, length x ≤ 1 → length x + length (l ≫= λ h, match reqMap !! h with
      | Some r => route p thr (te_now w h) rescrape (foundTorrents result !! h) r
      | None => []
      end) ≤ S (length l)) as Hx by (intros; lia).
    apply Hx. destruct (reqMap !! h); [apply route_length|simpl; lia].
  - rewrite Ho. change (size (list_to_set kept : gset ID) ≤ length kept).
    induction kept as [|h l IH]; [done|]. simpl. rewrite size_union_alt, size_singleton.
    pose proof (subseteq_size ((list_to_set l : gset ID) ∖ {[h]}) (list_to_set l) ltac:(set_solver)). lia.
Qed.

Lemma consultVerdicts_length hv live blocked hs : length (consultVerdicts hv live blocked hs) ≤ length hs.
Proof. unfold consultVerdicts. repeat case_goal; [apply length_filter|lia..]. Qed.

(** The blocking manager keeps some of what it is given. *)
Lemma blocking_Filter_sub {BB R} `{!Blocking.StableBloom BB} `{!Blocking.Recovery R} now bio border bseed hs
    (m : @Blocking.manager BB R) (d : @Blocking.db BB) m' d' kept :
  Blocking.Filter now bio border bseed hs m d = (m', d', Ok kept) → kept ⊆ hs.
Proof.
  unfold Blocking.Filter, Blocking.recovery_Filter. intros Hf.
  repeat (case_match; simplify_eq); intros h Hh; by apply list_elem_of_filter in Hh as [_ ?].
Qed.

Lemma Manager_Filter_spec {B} `{!Csam.Bloom B} (c : Csam.Manager B) hs :
  (Csam.Manager_Filter c hs).2 = filter (λ h, Csam.Manager_IsBlocked c h = false) hs.
Proof.
  destruct c as [|s]; simpl; [by rewrite list_filter_all|]. by rewrite Csam.Filter_spec.
Qed.

Lemma consultVerdicts_sub hv live blocked hs h :
  h ∈ consultVerdicts hv live blocked hs ↔
  h ∈ hs ∧ ∀ b, hv = true → live = true → blocked = Some b → h ∉ b.
Proof.
  unfold consultVerdicts. destruct hv, blocked as [b|], live; try (naive_solver; fail).
  rewrite list_elem_of_filter. naive_solver.
Qed.

Lemma removedHashes_filter (P : ID → Prop) `{!∀ x, Decision (P x)} hs h :
  h ∈ removedHashes hs (filter P hs) ↔ h ∈ hs ∧ ¬ P h.
Proof.
  unfold removedHashes. case_decide as Hl.
  - split; [by intros ?%not_elem_of_nil|]. intros [Hh Hp]. pose proof (length_filter_lt P hs h Hh Hp). lia.
  - rewrite list_elem_of_filter, list_elem_of_filter. destruct (decide (P h)); tauto.
Qed.

(** What triage forwards is neither excluded nor blocked. *)
Lemma triage_out {B BB R} `{!Csam.Bloom B} `{!Blocking.StableBloom BB} `{!Blocking.Recovery R}
    p hv live thr rescrape (csam : Csam.Manager B) now bio border bseed w
    (blk blk' : @Blocking.manager BB R) (bdb bdb' : @Blocking.db BB) reqs vs out s :
  (∀ X, te_order w X ≡ₚ elements X) →
  triage p hv live thr rescrape csam now bio border bseed w blk bdb reqs = (vs, blk', bdb', Ok out) →
  s ∈ out → ∃ r, routed s = Some r ∧ first_request p reqs r ∧ Csam.Manager_IsBlocked csam (infoHash r) = false.
Proof.
  intros Ho Ht. unfold triage in Ht. pose proof (collect_spec p reqs) as Hc.
  destruct (collect p reqs) as [hs m]. destruct Hc as (_ & _ & Hm).
  pose proof (Manager_Filter_spec csam hs) as Hf. destruct (Csam.Manager_Filter csam hs) as [arr ck]. simpl in Hf. subst ck.
  destruct (Blocking.Filter _ _ _ _ _ _ _) as [[blk1 bdb1] res] eqn:Hk. destruct res as [kept|e|]; simplify_eq; [|by intros ?%not_elem_of_nil].
  intros Hs. destruct (triageFiltered_routes _ _ _ _ _ _ _ _ _ Hs) as (result & Hres & Htake).
  rewrite Htake in Hs. apply (subseteq_take (te_sent w)) in Hs.
  apply routes_spec in Hs as (r & Hin & Hmr & Hs); [|done|by intros ? ? [<- _]%Hm].
  apply route_routed in Hs as (_ & Hr & _). exists r. split_and!; [done|by apply (Hm (infoHash r))|].
  apply consultVerdicts_sub in Hin as [Hin _]. apply (blocking_Filter_sub _ _ _ _ _ _ _ _ _ _ Hk) in Hin.
  by apply list_elem_of_filter in Hin as [? _].
Qed.

(** C11: Triage forwards only the first request of each hash, at most one of them, and only hashes that the name policy does not exclude, the child-safety list does not block, the blocking manager kept, a live verdict ledger does not hold and whose stored name the policy accepts; each goes to the fetch of its metadata or to a scrape as the catalogue entry says. When nothing fails and the context lasts, every such hash that needs either is forwarded. The hashes recorded as rejected are exactly those of the batch that the list blocks. *)
Theorem crawler_triage {B BB R} `{!Csam.Bloom B} `{!Blocking.StableBloom BB} `{!Blocking.Recovery R}
    p hv live thr rescrape (csam : Csam.Manager B) now bio border bseed w
    (blk blk' : @Blocking.manager BB R) (bdb bdb' : @Blocking.db BB) reqs vs out kept :
  (∀ X, te_order w X ≡ₚ elements X) →
  triage p hv live thr rescrape csam now bio border bseed w blk bdb reqs = (vs, blk', bdb', Ok out) →
  Blocking.Filter now bio border bseed (Csam.Manager_Filter csam (collect p reqs).1).2 blk bdb = (blk', bdb', Ok kept) →
  let passes r := first_request p reqs r ∧ Csam.Manager_IsBlocked csam (infoHash r) = false ∧ infoHash r ∈ kept
    ∧ (∀ b, hv = true → live = true → te_blocked w = Some b → infoHash r ∉ b) in
  let wants result r := route p thr (te_now w (infoHash r)) rescrape (foundTorrents result !! infoHash r) r in
  NoDup (infoHash <$> omap routed out)
  ∧ (∀ s, s ∈ out → ∃ r result, te_torrents w = Some result ∧ routed s = Some r ∧ passes r ∧ wants result r = [s])
  ∧ (∀ r result s, te_torrents w = Some result → length kept ≤ te_sent w → passes r → s ∈ wants result r → s ∈ out)
  ∧ (∀ h, hv = true → (h ∈ v_hash <$> vs ↔ Csam.Manager_IsBlocked csam h = true ∧ ∃ r, infoHash r = h ∧ first_request p reqs r)).
Proof.
  intros Ho Ht Hk passes wants. unfold triage in Ht. pose proof (collect_spec p reqs) as Hc.
  destruct (collect p reqs) as [hs m]. destruct Hc as (Hnd & Hdom & Hm). simpl in Hk.
  pose proof (Manager_Filter_spec csam hs) as Hf.
  destruct (Csam.Manager_Filter csam hs) as [arr ck]. simpl in Hf, Hk. subst ck. rewrite Hk in Ht. simplify_eq.
  pose proof (blocking_Filter_sub _ _ _ _ _ _ _ _ _ _ Hk) as Hsub.
  destruct (routes_spec p thr rescrape m w) with (result := default [] (te_torrents w))
    (kept := consultVerdicts hv live (te_blocked w) kept) as [Hn Hr]; [done|by intros ? ? [<- _]%Hm|].
  assert (∀ r, infoHash r ∈ consultVerdicts hv live (te_blocked w) kept ∧ m !! infoHash r = Some r ↔ passes r) as Hp.
  { intros r. rewrite consultVerdicts_sub, Hm. unfold passes. split; [|tauto].
    intros ((Hin & Hv) & _ & Hfr). split_and!; try done. by apply Hsub, list_elem_of_filter in Hin as [? _]. }
  split; [|split; [|split]].
  - destruct (triageFiltered p hv live thr rescrape m w kept) as [|s0 l0] eqn:Eo; [constructor|].
    destruct (triageFiltered_routes p hv live thr rescrape m w kept s0) as (result & Hres & Htake); [rewrite Eo; set_solver|].
    rewrite <-Eo, Htake. rewrite Hres in Hn. simpl in Hn.
    revert Hn. generalize (routes p thr rescrape m w result (consultVerdicts hv live (te_blocked w) kept)) as l. intros l Hn.
    rewrite <-(take_drop (te_sent w) l), omap_app, fmap_app in Hn. by apply NoDup_app in Hn as (? & _).
  - intros s Hs. destruct (triageFiltered_routes _ _ _ _ _ _ _ _ _ Hs) as (result & Hres & Htake).
    rewrite Htake in Hs. apply (subseteq_take (te_sent w)) in Hs.
    rewrite Hres in Hr. simpl in Hr. apply Hr in Hs as (r & Hin & Hmr & Hs).
    apply route_routed in Hs as (Hw & Hrt & _). exists r, result. split_and!; [done..| |done]. by apply Hp.
  - intros r result s Hres Hl Hpass Hs. apply Hp in Hpass as [Hin Hmr]. rewrite Hres in Hr. simpl in Hr.
    assert (s ∈ routes p thr rescrape m w result (consultVerdicts hv live (te_blocked w) kept)) as Hs' by (apply Hr; eauto).
    unfold triageFiltered. rewrite !decide_False, Hres.
    + fold (routes p thr rescrape m w result (consultVerdicts hv live (te_blocked w) kept)).
      rewrite take_ge; [done|]. etransitivity; [by apply routes_length|].
      etransitivity; [apply consultVerdicts_length|done].
    + intros Hnil. rewrite Hnil in Hin. by apply not_elem_of_nil in Hin.
    + intros ->. apply consultVerdicts_sub in Hin as [Hin _]. by apply not_elem_of_nil in Hin.
  - intros h ->. unfold recordCsamRejects. simpl. rewrite <-list_fmap_compose.
    change (v_hash ∘ csamVerdict "triage") with (@id ID). rewrite list_fmap_id, removedHashes_filter, Hdom, not_false_iff_true.
    split; [intros [[r Hr'] Hb]|intros [Hb (r & <- & Hfr)]].
    + split; [done|]. exists r. by apply Hm.
    + split; [|done]. exists r. by apply Hm.
Qed.

End triage_facts.

(** ** Storing torrents *)

Section persist_facts.
Context `{Torrent} `{ScriptTables} `{UnicodeTables}.

Definition eligible (p : option NamePolicy.Policy) (i : infoHashWithMetaInfo) : Prop :=
  NamePolicy.Eligible (NamePolicy.Evaluate p (infoHash (wm_req i)) (BestName (metaInfo i))) = true.

Lemma createTorrentModel_hash h info sp thr t : createTorrentModel h info sp thr = Ok t → m_InfoHash t = h.
Proof. unfold createTorrentModel. case_goal; [done|]. destruct (model_files _ _ _ _ _). by intros [= <-]. Qed.

Lemma createTorrentModel_total h info sp thr : (0 ≤ thr < 2 ^ 63)%Z → ∃ t, createTorrentModel h info sp thr = Ok t.
Proof.
  intros Ht. unfold createTorrentModel.
  assert (int64 thr = thr) as -> by (unfold int64, wrap; rewrite Z.mod_small by lia; lia).
  rewrite (proj2 (Z.ltb_ge thr 0)) by lia. destruct (model_files _ _ _ _ _). eauto.
Qed.

(** What the loop keeps: every item it has seen is stored when it is eligible,
    once for each hash, and each stored hash waits for a job or has one. *)
Record batch_inv (p : option NamePolicy.Policy) (sp : bool) (thr : Z) (seen : list infoHashWithMetaInfo) (b : batch) : Prop := {
  bi_jobs : mjoin (jobs b) ++ hashesToClassify b = m_InfoHash <$> torrents b;
  bi_size : Forall (λ j, 1 ≤ length j ≤ classifyBatchSize) (jobs b);
  bi_wait : length (hashesToClassify b) < classifyBatchSize;
  bi_nodup : NoDup (m_InfoHash <$> torrents b);
  bi_dom h : is_Some (hashMap b !! h) ↔ h ∈ m_InfoHash <$> torrents b;
  bi_map h i : hashMap b !! h = Some i → i ∈ seen ∧ infoHash (wm_req i) = h;
  bi_from t : t ∈ torrents b → ∃ i, i ∈ seen ∧ eligible p i ∧ createTorrentModel (infoHash (wm_req i)) (metaInfo i) sp thr = Ok t;
  bi_all i : i ∈ seen → eligible p i → infoHash (wm_req i) ∈ m_InfoHash <$> torrents b
}.

Lemma flush_inv b :
  mjoin (jobs b) ++ hashesToClassify b = m_InfoHash <$> torrents b →
  Forall (λ j, 1 ≤ length j ≤ classifyBatchSize) (jobs b) → length (hashesToClassify b) ≤ classifyBatchSize →
  let b' := flushHashesToClassify b in
  mjoin (jobs b') = m_InfoHash <$> torrents b ∧ Forall (λ j, 1 ≤ length j ≤ classifyBatchSize) (jobs b').
Proof.
  intros Hj Hs Hw. unfold flushHashesToClassify. simpl. case_decide as Hn.
  - rewrite <-Hj, Hn, app_nil_r. done.
  - rewrite join_app. simpl. rewrite app_nil_r, Hj. split; [done|]. apply Forall_app. split; [done|].
    constructor; [|done]. destruct (hashesToClassify b); [done|simpl in *; lia].
Qed.

Lemma batch_inv_seen p sp thr seen b i :
  batch_inv p sp thr seen b → (eligible p i → infoHash (wm_req i) ∈ m_InfoHash <$> torrents b) →
  batch_inv p sp thr (seen ++ [i]) b.
Proof.
  intros [Hj Hs Hw Hn Hd Hm Hf Ha] Hi. split; try done.
  - intros h x Hx. destruct (Hm h x Hx). split; [set_solver|done].
  - intros t Ht. destruct (Hf t Ht) as (x & ? & ? & ?). exists x. split; [set_solver|done].
  - intros x [Hx | ->%list_elem_of_singleton]%elem_of_app; auto.
Qed.

Lemma batch_inv_add p sp thr seen b i t :
  batch_inv p sp thr seen b → eligible p i → hashMap b !! infoHash (wm_req i) = None →
  createTorrentModel (infoHash (wm_req i)) (metaInfo i) sp thr = Ok t →
  let b' := mkBatch (torrents b ++ [t]) (<[infoHash (wm_req i) := i]> (hashMap b))
              (hashesToClassify b ++ [infoHash (wm_req i)]) (jobs b) in
  batch_inv p sp thr (seen ++ [i]) (if classifyBatchSize <=? length (hashesToClassify b') then flushHashesToClassify b' else b').
Proof.
  intros [Hj Hs Hw Hn Hd Hm Hf Ha] He Hnew Ht b'. set (h := infoHash (wm_req i)) in *.
  pose proof (createTorrentModel_hash _ _ _ _ _ Ht) as Hth.
  assert (mjoin (jobs b') ++ hashesToClassify b' = m_InfoHash <$> torrents b') as Hj'.
  { simpl. rewrite app_assoc, Hj, fmap_app. simpl. by rewrite Hth. }
  assert (length (hashesToClassify b') ≤ classifyBatchSize) as Hw' by (simpl; rewrite length_app; simpl; lia).
  assert (m_InfoHash <$> torrents b' = (m_InfoHash <$> torrents b) ++ [h]) as Hts by (simpl; rewrite fmap_app; simpl; by rewrite Hth).
  destruct (flush_inv b' Hj' Hs Hw') as [Hjf Hsf].
  assert (h ∉ m_InfoHash <$> torrents b) as Hnot by (rewrite <-Hd, Hnew; by intros [? ?]).
  assert (∀ x, is_Some (hashMap b' !! x) ↔ x ∈ m_InfoHash <$> torrents b') as Hd'.
  { intros x. rewrite Hts, elem_of_app, list_elem_of_singleton, <-Hd. simpl.
    destruct (decide (x = h)) as [-> | ?]; [rewrite lookup_insert_eq|rewrite lookup_insert_ne by done; tauto].
    split; [auto|by eexists]. }
  assert (NoDup (m_InfoHash <$> torrents b')) as Hn'.
  { rewrite Hts. apply NoDup_app. split_and!; [done| |apply NoDup_singleton]. by intros x Hx ->%list_elem_of_singleton. }
  assert (∀ x y, hashMap b' !! x = Some y → y ∈ seen ++ [i] ∧ infoHash (wm_req y) = x) as Hm'.
  { intros x y. simpl. destruct (decide (x = h)) as [-> | ?].
    - rewrite lookup_insert_eq. intros [= <-]. split; [set_solver|done].
    - rewrite lookup_insert_ne by done. intros Hy. destruct (Hm x y Hy). split; [set_solver|done]. }
  assert (∀ t, t ∈ torrents b' → ∃ i0, i0 ∈ seen ++ [i] ∧ eligible p i0 ∧ createTorrentModel (infoHash (wm_req i0)) (metaInfo i0) sp thr = Ok t) as Hf'.
  { intros t0 [Ht0 | ->%list_elem_of_singleton]%elem_of_app; [|exists i; split; [set_solver|done]].
    destruct (Hf t0 Ht0) as (x & ? & ? & ?). exists x. split; [set_solver|done]. }
  assert (∀ i0, i0 ∈ seen ++ [i] → eligible p i0 → infoHash (wm_req i0) ∈ m_InfoHash <$> torrents b') as Ha'.
  { intros x [Hx | ->%list_elem_of_singleton]%elem_of_app Hex; rewrite Hts, elem_of_app, list_elem_of_singleton; auto. }
  destruct (Nat.leb_spec classifyBatchSize (length (hashesToClassify b'))) as [Hle | Hlt]; [|by split].
  split; try done; unfold flushHashesToClassify in *; simpl in *; [by rewrite app_nil_r|unfold classifyBatchSize; lia].
Qed.

Lemma persist_step_inv p sp thr seen b i b' :
  batch_inv p sp thr seen b → persist_step p sp thr b i = Ok b' → batch_inv p sp thr (seen ++ [i]) b'.
Proof.
  intros Hb. unfold persist_step. destruct (NamePolicy.Eligible _) eqn:He; simpl.
  2: { intros [= <-]. apply batch_inv_seen; [done|]. unfold eligible. congruence. }
  case_decide as Hh.
  - intros [= <-]. apply batch_inv_seen; [done|]. intros _. by apply (bi_dom _ _ _ _ _ Hb).
  - intros (t & Ht & Hb')%outcome_bind_Ok. injection Hb' as <-.
    apply batch_inv_add; [done..| |done]. by apply eq_None_not_Some.
Qed.

Lemma persist_loop_inv p sp thr is_ : ∀ seen b b',
  batch_inv p sp thr seen b → persist_loop p sp thr b is_ = Ok b' → batch_inv p sp thr (seen ++ is_) b'.
Proof.
  induction is_ as [|i is_ IH]; simpl; intros seen b b' Hb.
  - intros [= <-]. by rewrite app_nil_r.
  - intros (b1 & Hs & Hl)%outcome_bind_Ok. rewrite cons_middle, app_assoc. eapply IH; [|done]. by eapply persist_step_inv.
Qed.

Lemma persist_loop_total p sp thr is_ : ∀ b, (0 ≤ thr < 2 ^ 63)%Z → ∃ b', persist_loop p sp thr b is_ = Ok b'.
Proof.
  induction is_ as [|i is_ IH]; simpl; intros b Ht; [by eexists|].
  assert (∃ b1, persist_step p sp thr b i = Ok b1) as [b1 Hb1]; [|rewrite Hb1; simpl; by apply IH].
  unfold persist_step. case_goal; [by eexists|]. case_decide; [by eexists|].
  destruct (createTorrentModel_total (infoHash (wm_req i)) (metaInfo i) sp thr Ht) as [t ->]. simpl. by eexists.
Qed.

Lemma empty_batch_inv p sp thr : batch_inv p sp thr [] (flushHashesToClassify (mkBatch [] ∅ [] [])).
Proof.
  split; simpl; try done.
  - unfold classifyBatchSize. lia.
  - constructor.
  - intros h. rewrite lookup_empty. split; [by intros [? ?]|by intros ?%not_elem_of_nil].
  - by intros ? ?%not_elem_of_nil.
  - by intros ? ?%not_elem_of_nil.
Qed.

Lemma persistTorrents_from p sp thr is_ b :
  persistTorrents p sp thr is_ = Ok b →
  (∀ t, t ∈ torrents b → ∃ i, i ∈ is_ ∧ eligible p i ∧ createTorrentModel (infoHash (wm_req i)) (metaInfo i) sp thr = Ok t)
  ∧ (∀ h i, hashMap b !! h = Some i → i ∈ is_ ∧ infoHash (wm_req i) = h).
Proof.
  unfold persistTorrents. intros (b1 & Hb & Hf)%outcome_bind_Ok. injection Hf as <-.
  by destruct (persist_loop_inv p sp thr is_ [] _ _ (empty_batch_inv p sp thr) Hb).
Qed.

(** A batch of torrents is stored without loss or repetition: with a threshold that fits an int it never panics, it holds exactly one torrent for each hash that has an item the name policy accepts, built from one of those items, and the queue jobs for the classifier hold the hashes of the batch in order, each once, between one and a hundred in each job. *)
Theorem crawler_persist_batch p sp thr is_ :
  (0 ≤ thr < 2 ^ 63)%Z →
  ∃ b, persistTorrents p sp thr is_ = Ok b
  ∧ NoDup (m_InfoHash <$> torrents b)
  ∧ (∀ h, h ∈ m_InfoHash <$> torrents b ↔ ∃ i, i ∈ is_ ∧ eligible p i ∧ infoHash (wm_req i) = h)
  ∧ (∀ t, t ∈ torrents b → ∃ i, i ∈ is_ ∧ eligible p i ∧ createTorrentModel (infoHash (wm_req i)) (metaInfo i) sp thr = Ok t)
  ∧ mjoin (jobs b) = m_InfoHash <$> torrents b
  ∧ Forall (λ j, 1 ≤ length j ≤ 100) (jobs b)
  ∧ (∀ h, is_Some (hashMap b !! h) ↔ h ∈ m_InfoHash <$> torrents b).
Proof.
  intros Ht. unfold persistTorrents.
  destruct (persist_loop_total p sp thr is_ (flushHashesToClassify (mkBatch [] ∅ [] [])) Ht) as [b Hb].
  pose proof (persist_loop_inv p sp thr is_ [] _ _ (empty_batch_inv p sp thr) Hb) as [Hj Hs Hw Hn Hd Hm Hf Ha].
  destruct (flush_inv b Hj Hs ltac:(lia)) as [Hjf Hsf].
  rewrite Hb. eexists. split; [done|]. split_and!; try done.
  intros h. simpl. split.
  - intros (t & -> & Hin)%list_elem_of_fmap. destruct (Hf t Hin) as (i & ? & ? & Hi).
    exists i. split_and!; [done..|]. symmetry. by apply createTorrentModel_hash in Hi.
  - intros (i & Hi & He & <-). by apply Ha.
Qed.

Lemma model_files_spec h info limit files : ∀ i,
  (0 ≤ limit)%Z →
  let '(fs, over) := model_files h info limit i files in
  fs = imap (λ k f, mkTorrentFile h (Z.of_nat (i + k)) (DisplayPath f info) (uint64 (fi_Length f)))
         (take (Z.to_nat limit - i) files)
  ∧ (over = true ↔ (limit < Z.of_nat (i + length files))%Z ∧ files ≠ []).
Proof.
  induction files as [|f files IH]; intros i Hl; simpl; [rewrite take_nil; simpl; split; [done|naive_solver]|].
  destruct (Z.leb_spec limit (Z.of_nat i)) as [Hle | Hgt].
  - replace (Z.to_nat limit - i) with 0 by lia. split; [done|]. split; [split; [lia|done]|done].
  - specialize (IH (S i) Hl). destruct (model_files h info limit (S i) files) as [fs over]. destruct IH as [-> Ho].
    replace (Z.to_nat limit - i) with (S (Z.to_nat limit - S i)) by lia. simpl. split.
    + f_equal; [by rewrite Nat.add_0_r|]. apply imap_ext. intros k x _. simpl. do 2 f_equal. lia.
    + rewrite Ho. split; [intros [? ?]; split; [lia|done]|]. intros [? _]. destruct files; simpl in *; [lia|split; [lia|done]].
Qed.

(** The stored record of a torrent says truly what was stored of its files: the first ones up to the threshold, with their indices, the status over-threshold exactly when some were left out and the number of all of them. So triage asks for the metadata of a stored torrent again exactly when files were left out and the threshold has been raised to cover them all: with an unchanged threshold never. *)
Theorem crawler_no_refetch h info sp thr thr' seeders leechers updated :
  (0 ≤ thr < 2 ^ 63)%Z →
  ∃ t, createTorrentModel h info sp thr = Ok t
  ∧ m_Files t = imap (λ k f, mkTorrentFile h (Z.of_nat k) (DisplayPath f info) (uint64 (fi_Length f)))
                  (take (Z.to_nat thr) (Files info))
  ∧ (m_FilesStatus t = FilesStatusOverThreshold ↔ (thr < len (Files info))%Z)
  ∧ (m_FilesStatus t = FilesStatusSingle ↔ Files info = [])
  ∧ (wantsMetaInfo thr' (Some (mkTriageResult (m_Name t) h (m_FilesStatus t) (m_FilesCount t) seeders leechers updated)) = true
     ↔ (thr < len (Files info) ≤ thr')%Z).
Proof.
  intros Ht. unfold createTorrentModel.
  assert (int64 thr = thr) as -> by (unfold int64, wrap; rewrite Z.mod_small by lia; lia).
  rewrite (proj2 (Z.ltb_ge thr 0)) by lia.
  pose proof (model_files_spec h info thr (Files info) 0 ltac:(lia)) as Hs.
  destruct (model_files h info thr 0 (Files info)) as [fs over]. destruct Hs as [-> Ho]. rewrite Nat.sub_0_r.
  eexists. split; [done|]. cbn [m_Files m_FilesStatus m_FilesCount].
  assert (over = true ↔ (thr < len (Files info))%Z) as Ho'.
  { rewrite Ho. unfold len. simpl. split; [tauto|]. intros Hlt. split; [done|]. intros Hn. rewrite Hn in Hlt. simpl in Hlt. lia. }
  clear Ho. split; [done|]. unfold wantsMetaInfo. cbn [t_FilesStatus t_FilesCount].
  destruct over.
  - assert (Files info ≠ []) as Hne by (intros Hn; rewrite Hn in Ho'; unfold len in Ho'; simpl in Ho'; lia).
    rewrite (decide_False (P := Files info = [])) by done. simpl. rewrite Z.leb_le. naive_solver.
  - assert (¬ (thr < len (Files info))%Z) as Hle by naive_solver.
    case_decide; simpl; split_and!; split; try done; try lia.
Qed.

End persist_facts.

Lemma persistSources_hashes (P : ID → Prop) approx scrapes :
  Forall (λ s, P (infoHash (ws_req s))) scrapes → Forall (λ t, P (s_InfoHash t)) (persistSources approx scrapes).
Proof.
  intros Hs. unfold persistSources.
  set (f := λ '(srcs, seen) s, _). set (acc := ([], ∅)).
  assert (Forall (λ t, P (s_InfoHash t)) acc.1) as Ha by constructor. clearbody acc.
  revert acc Ha. induction Hs as [|s scrapes Hp Hs IH]; intros [srcs seen] Ha; [done|]. simpl. apply IH.
  unfold f. case_decide; [done|]. apply Forall_app. by split; [|constructor].
Qed.

(** ** Pings and the routing table *)

Lemma zeroID_ok : id20 zeroID.
Proof. split; [done|]. repeat constructor; unfold byte_ok; lia. Qed.

Lemma drop_one t now id reason :
  table_inv t → id20 id →
  ∃ t' rs, BatchCommand t [(now, CmdDropNode id reason)] = Ok (t', rs) ∧ table_inv t'
    ∧ abs t' = Directory (delete id (dir_nodes (abs t))) (dir_hashes (abs t)).
Proof.
  intros Hinv Hid. destruct (DropNode_spec t id reason Hinv Hid) as (t' & Hd & Hi & _ & Ha).
  cbn [BatchCommand exec]. rewrite Hd. simpl. eauto 10.
Qed.

(** What a ping does to the routing table. A node that answers with another identifier than the one it is known by, or that declares itself read-only, leaves the table. But a node that does not answer stays: the drop is issued for the zero identifier, which the table does not hold, so the round that pings the oldest nodes to prune them removes none of the dead ones. *)
Theorem crawler_ping t n now threshold :
  table_inv t → id20 (node_ID n) → node_ID n ≠ zeroID → dir_nodes (abs t) !! zeroID = None →
  node_Dropped n = false → (node_Time n ≤ now - threshold)%Z →
  let after res := BatchCommand t (pair now <$> ping now threshold n res) in
  (∀ e, ∃ t' rs, after (Err e) = Ok (t', rs) ∧ abs t' = abs t)
  ∧ (∀ id ro, id ≠ node_ID n → ∃ t' rs, after (Ok (id, ro)) = Ok (t', rs) ∧ dir_nodes (abs t') !! node_ID n = None)
  ∧ (∃ t' rs, after (Ok (node_ID n, true)) = Ok (t', rs) ∧ dir_nodes (abs t') !! node_ID n = None).
Proof.
  intros Hinv Hid Hnz Hz Hnd Ht after. unfold after, ping.
  rewrite Hnd, (proj2 (Z.ltb_ge (now - threshold) (node_Time n))) by done. cbn [orb].
  rewrite (bool_decide_eq_false_2 (node_ID n = zeroID)) by done. cbn [negb andb].
  split_and!.
  - intros e. destruct (drop_one t now zeroID (Some ("failed to respond to ping: " +:+ e)%string) Hinv zeroID_ok) as (t' & rs & Hb & _ & Ha).
    exists t', rs. split; [done|]. rewrite Ha, delete_id by done. by destruct (abs t).
  - intros id ro Hne. rewrite bool_decide_eq_false_2 by done. cbn [negb].
    destruct (drop_one t now (node_ID n) (Some "failed to respond to ping: node responded with a mismatching ID"%string) Hinv Hid) as (t' & rs & Hb & _ & Ha).
    exists t', rs. split; [done|]. rewrite Ha. apply lookup_delete_eq.
  - rewrite bool_decide_eq_true_2 by done. cbn [negb].
    destruct (drop_one t now (node_ID n) (Some errPeerIsReadOnly) Hinv Hid) as (t' & rs & Hb & _ & Ha).
    exists t', rs. split; [done|]. rewrite Ha. apply lookup_delete_eq.
Qed.

(** ** Examples *)

#[local] Existing Instances ascii_unicode ContentFilter.ascii_fold Regex.ascii_tables NamePolicy.ex_scripts
  Csam.bit_bloom Blocking.two_cells Blocking.rows_store Requester.ex_torrent.

(** [filepath] *)
Example filepath_tests :
  let s x := string_bytes x in
  Clean (s "a/./b//../c/") = s "a/c" ∧ Clean (s "/../a") = s "/a" ∧ Clean (s "../x/../..") = s "../.." ∧ Clean [] = s "."
  ∧ Join [s ""; s "a"; s ""; s "b"] = s "a/b" ∧ Base (s "/a/b.txt/") = s "b.txt" ∧ Base (s "//") = s "/"
  ∧ Ext (s "x.tar.gz") = s ".gz" ∧ Ext (s "a.b/c") = [] ∧ ext_of (s "Dir\Movie.MKV") = runes_of "mkv".
Proof. by vm_compute. Qed.

Definition ex_hash (n : Z) : ID := n :: replicate 19 0%Z.
Definition ex_node (n : Z) : AddrPort := AddrPortFrom (AddrV4 [10; 0; 0; n]%Z) 6881.
Definition ex_req (n k : Z) : nodeHasPeersForHash := mkReq (ex_hash n) (ex_node k).

(** Hash 1 is blocked, 2 is stored with known seeders, 3 without, 4 has a
    verdict and 5 is new. *)
Definition ex_env : triage_env :=
  mkTriageEnv (Some [ex_hash 4])
    (Some [mkTriageResult [97]%Z (ex_hash 2) FilesStatusSingle None (Some 1) (Some 1) 1000;
           mkTriageResult [97]%Z (ex_hash 3) FilesStatusSingle None None None 1000]%Z)
    elements (λ _, 1000%Z) 10.
Definition ex_batch : list nodeHasPeersForHash :=
  [ex_req 1 1; ex_req 5 2; ex_req 2 1; ex_req 3 1; ex_req 4 1; ex_req 5 1].
Definition ex_kept : list ID := [ex_hash 5; ex_hash 2; ex_hash 3; ex_hash 4].

Abbreviation ex_triage := (triage None true true 100 500 (Csam.NoOp (B := gset Z)) 0 Blocking.ex_io [] (λ _, 0%Z) ex_env
  (Blocking.New (R := list (ID * Blocking.recovery_state))) Blocking.ex_db ex_batch).

Lemma crawler_triage_witness :
  ∃ out, ex_triage.2 = Ok out ∧ ToGetPeers (ex_req 5 2) ∈ out ∧ ToScrape (ex_req 3 1) ∈ out
    ∧ NoDup (infoHash <$> omap routed out).
Proof.
  exists [ToScrape (ex_req 3 1); ToGetPeers (ex_req 5 2)]. split; [by vm_compute|].
  split; [right; left|split; [left|]].
  apply (crawler_triage None true true 100 500 (Csam.NoOp (B := gset Z)) 0 Blocking.ex_io [] (λ _, 0%Z) ex_env
    (Blocking.New (R := list (ID * Blocking.recovery_state))) ex_triage.1.1.2 Blocking.ex_db ex_triage.1.2 ex_batch [] _ ex_kept);
    [done|by vm_compute|by vm_compute].
Defined.

Definition ex_info : Info := mkInfo (string_bytes "Some Movie 2024.mkv") 16384 [] None [] [].
Definition ex_item (n : Z) : infoHashWithMetaInfo := mkWithMetaInfo (ex_req n 1) ex_info.

Lemma crawler_persist_batch_witness :
  ∃ b, persistTorrents None true 100 [ex_item 1; ex_item 2; ex_item 1] = Ok b
  ∧ m_InfoHash <$> torrents b = [ex_hash 1; ex_hash 2] ∧ NoDup (m_InfoHash <$> torrents b).
Proof.
  destruct (crawler_persist_batch None true 100 [ex_item 1; ex_item 2; ex_item 1]) as (b & Hb & Hn & _); [lia|].
  exists b. split; [exact Hb|]. split; [|exact Hn]. vm_compute in Hb. by injection Hb as <-.
Defined.

Definition ex_files : Info :=
  mkInfo (string_bytes "Pack") 16384 ((λ k, mkFileInfo [[97; k]]%Z k []) <$> [1; 2; 3]%Z) None [] [].

(** Three files, a threshold of two: fetched again once the threshold is three. *)
Lemma crawler_no_refetch_witness :
  ∃ t, createTorrentModel (ex_hash 1) ex_files false 2 = Ok t ∧ length (m_Files t) = 2
  ∧ (wantsMetaInfo 3 (Some (mkTriageResult (m_Name t) (ex_hash 1) (m_FilesStatus t) (m_FilesCount t) None None 0)) = true
     ↔ (2 < len (Files ex_files) ≤ 3)%Z).
Proof.
  destruct (crawler_no_refetch (ex_hash 1) ex_files false 2 3 None None 0) as (t & Ht & Hf & _ & _ & Hw); [lia|].
  exists t. split; [exact Ht|]. split; [by rewrite Hf|exact Hw].
Defined.

Definition ex_known : node := Node (NodeBase (KTable.ex_id 3) (KTable.ex_addr 4)) 1 2 None protocolSupportUnknown 0 0 0 0.

Lemma crawler_ping_witness :
  dir_nodes (abs ex_table) !! node_ID ex_known = Some (KTable.ex_addr 4)
  ∧ ∃ t' rs, BatchCommand ex_table (pair 2000%Z <$> ping 2000 1000 ex_known (Err "timeout"%string)) = Ok (t', rs)
    ∧ abs t' = abs ex_table.
Proof.
  split; [by vm_compute|].
  destruct (crawler_ping ex_table ex_known 2000 1000) as [He _];
    [exact (proj1 (table_reachable_inv _ _ ex_reachable))|apply ex_tid_ok; lia|by vm_compute|by vm_compute|done|simpl; lia|]. exact (He "timeout"%string).
Defined.

End CrawlerStages.
