(* ===== verification/Crawler.v ===== *)
(** * The crawler as a pipeline

    The stages of [CrawlerStages] connected by their channels
    ([internal/dhtcrawler/crawler.go]), with the policies they consult.  A state
    holds the queues, the components and the trace of what left the machine; a
    step is one handler at work on an item or a batch, or a refresh of the
    child-safety list, which may come between any two of them.  Batching channels
    deliver their items in order ([Concurrency.batching_channel]), channels with
    several workers in any order ([Concurrency.buffered_concurrent_channel]).  A
    metadata request asks one peer at each step, so that a refresh may fall
    between two peers.

    The theorems: a hash that is blocked or excluded all along is never asked
    for, fetched or stored; once it is, no new fetch begins; and whatever is
    stored was fetched from a peer and accepted by every judge. *)
From S2P Require Import Prelude Net Protocol KTable Lexer Metainfo Requester Regex Csam NamePolicy Blocking ContentFilter CrawlerStages.
From stdpp Require Import gmap list strings sets.
From Stdlib Require Import ZArith Lia.

Module Crawler.
Import Net Protocol Metainfo KTable CrawlerStages.
Local Open Scope list_scope.

(** ** State *)

(** What the crawler sends to the network and to the database. *)
Inductive event :=
| EvGetPeers (h : ID) (node : AddrPort)
| EvScrape (h : ID) (node : AddrPort)
| EvFetch (h : ID) (peer : AddrPort)
| EvTable (c : Command)
| EvVerdict (v : verdict).

(** A request for metadata in progress: the peers that are left. *)
Record fetch := mkFetch { f_req : nodeHasPeersForHash; f_left : list AddrPort }.

Section crawler.
Context {B BB R SF : Type} `{!Csam.Bloom B} `{!Blocking.StableBloom BB} `{!Blocking.Recovery R} `{!SeenFilter SF}.
Context `{Torrent} `{Unicode} `{ScriptTables} `{UnicodeTables} `{CaseFolding}.

(** The fields of [crawler] that do not change. *)
Record config := mkConfig {
  namePolicy : option NamePolicy.Policy;
  hasVerdicts : bool;
  verdictsLive : bool;
  contentFilter : option ContentFilter.Config;
  banningChecker : Info → option (list banError);
  saveFilesThreshold : Z;
  savePieces : bool;
  rescrapeThreshold : Time
}.

Record state := mkState {
  csam : Csam.Manager B;
  blk : @Blocking.manager BB R;
  bdb : @Blocking.db BB;
  ignoreHashes : SF;
  infoHashTriage : list nodeHasPeersForHash;
  getPeersQ : list nodeHasPeersForHash;
  scrapeQ : list nodeHasPeersForHash;
  requestQ : list infoHashWithPeers;
  fetching : list fetch;
  persistQ : list infoHashWithMetaInfo;
  sourcesQ : list infoHashWithScrape;
  stored : list torrent_model;
  sourceRows : list TorrentsTorrentSource;
  trace : list event
}.

Definition init (c : Csam.Manager B) (m : @Blocking.manager BB R) (d : @Blocking.db BB) (seen : SF) : state :=
  mkState c m d seen [] [] [] [] [] [] [] [] [] [].

Definition set_csam c s := mkState c (blk s) (bdb s) (ignoreHashes s) (infoHashTriage s) (getPeersQ s) (scrapeQ s)
  (requestQ s) (fetching s) (persistQ s) (sourcesQ s) (stored s) (sourceRows s) (trace s).
Definition set_blk m d s := mkState (csam s) m d (ignoreHashes s) (infoHashTriage s) (getPeersQ s) (scrapeQ s)
  (requestQ s) (fetching s) (persistQ s) (sourcesQ s) (stored s) (sourceRows s) (trace s).
Definition set_seen x s := mkState (csam s) (blk s) (bdb s) x (infoHashTriage s) (getPeersQ s) (scrapeQ s)
  (requestQ s) (fetching s) (persistQ s) (sourcesQ s) (stored s) (sourceRows s) (trace s).
Definition set_triage q s := mkState (csam s) (blk s) (bdb s) (ignoreHashes s) q (getPeersQ s) (scrapeQ s)
  (requestQ s) (fetching s) (persistQ s) (sourcesQ s) (stored s) (sourceRows s) (trace s).
Definition set_getPeers q s := mkState (csam s) (blk s) (bdb s) (ignoreHashes s) (infoHashTriage s) q (scrapeQ s)
  (requestQ s) (fetching s) (persistQ s) (sourcesQ s) (stored s) (sourceRows s) (trace s).
Definition set_scrape q s := mkState (csam s) (blk s) (bdb s) (ignoreHashes s) (infoHashTriage s) (getPeersQ s) q
  (requestQ s) (fetching s) (persistQ s) (sourcesQ s) (stored s) (sourceRows s) (trace s).
Definition set_request q s := mkState (csam s) (blk s) (bdb s) (ignoreHashes s) (infoHashTriage s) (getPeersQ s) (scrapeQ s)
  q (fetching s) (persistQ s) (sourcesQ s) (stored s) (sourceRows s) (trace s).
Definition set_fetching q s := mkState (csam s) (blk s) (bdb s) (ignoreHashes s) (infoHashTriage s) (getPeersQ s) (scrapeQ s)
  (requestQ s) q (persistQ s) (sourcesQ s) (stored s) (sourceRows s) (trace s).
Definition set_persist q s := mkState (csam s) (blk s) (bdb s) (ignoreHashes s) (infoHashTriage s) (getPeersQ s) (scrapeQ s)
  (requestQ s) (fetching s) q (sourcesQ s) (stored s) (sourceRows s) (trace s).
Definition set_sources q s := mkState (csam s) (blk s) (bdb s) (ignoreHashes s) (infoHashTriage s) (getPeersQ s) (scrapeQ s)
  (requestQ s) (fetching s) (persistQ s) q (stored s) (sourceRows s) (trace s).
Definition set_stored q s := mkState (csam s) (blk s) (bdb s) (ignoreHashes s) (infoHashTriage s) (getPeersQ s) (scrapeQ s)
  (requestQ s) (fetching s) (persistQ s) (sourcesQ s) q (sourceRows s) (trace s).
Definition set_rows q s := mkState (csam s) (blk s) (bdb s) (ignoreHashes s) (infoHashTriage s) (getPeersQ s) (scrapeQ s)
  (requestQ s) (fetching s) (persistQ s) (sourcesQ s) (stored s) q (trace s).
Definition emit es s := mkState (csam s) (blk s) (bdb s) (ignoreHashes s) (infoHashTriage s) (getPeersQ s) (scrapeQ s)
  (requestQ s) (fetching s) (persistQ s) (sourcesQ s) (stored s) (sourceRows s) (trace s ++ es).

(** What a handler sends goes to the end of the queue it is meant for.  Nodes
    that are discovered feed stages that only talk to the routing table. *)
Definition deliver1 (s : state) (x : send) : state :=
  match x with
  | ToTable c => emit [EvTable c] s
  | ToDiscovered _ => s
  | ToTriage r => set_triage (infoHashTriage s ++ [r]) s
  | ToGetPeers r => set_getPeers (getPeersQ s ++ [r]) s
  | ToScrape r => set_scrape (scrapeQ s ++ [r]) s
  | ToRequestMetaInfo r => set_request (requestQ s ++ [r]) s
  | ToPersistSources r => set_sources (sourcesQ s ++ [r]) s
  end.
Definition deliver (xs : list send) (s : state) : state := foldl deliver1 s xs.

(** ** Steps *)

Context (c : config).

(** The extensions of the files, each once, in the order of a range over a map. *)
Definition distinct_exts (info : Info) (exts : list runes) : Prop :=
  exts ≡ₚ remove_dups (extensions (Name info) (Files info)).1.

Inductive step : state → state → Prop :=
| step_refresh s now http order :
    step s (set_csam (Csam.Manager_Refresh now http order (csam s)).1 s)
| step_sample s seed now later n res k k' out seen :
    sampleInfoHashes seed now later n res k k' (ignoreHashes s) = (out, seen) →
    step s (deliver out (set_seen seen s))
| step_triage s batch rest now bio border bseed w vs m d out :
    infoHashTriage s = batch ++ rest → (∀ X, te_order w X ≡ₚ elements X) →
    triage (namePolicy c) (hasVerdicts c) (verdictsLive c) (saveFilesThreshold c) (rescrapeThreshold c)
      (csam s) now bio border bseed w (blk s) (bdb s) batch = (vs, m, d, Ok out) →
    step s (deliver out (emit (EvVerdict <$> vs) (set_blk m d (set_triage rest s))))
| step_getPeers s l1 r l2 res mask ctxDone :
    getPeersQ s = l1 ++ r :: l2 →
    step s (deliver (getPeers r res mask ctxDone) (emit [EvGetPeers (infoHash r) (req_node r)] (set_getPeers (l1 ++ l2) s)))
| step_scrape s l1 r l2 res mask ctxDone :
    scrapeQ s = l1 ++ r :: l2 →
    step s (deliver (scrape r res mask ctxDone) (emit [EvScrape (infoHash r) (req_node r)] (set_scrape (l1 ++ l2) s)))
| step_admit s l1 r l2 :
    requestQ s = l1 ++ r :: l2 →
    step s (match admitRequest (namePolicy c) (csam s) (hasVerdicts c) (infoHash (wp_req r)) with
            | Refused vs => emit (EvVerdict <$> vs) (set_request (l1 ++ l2) s)
            | Proceed => set_fetching (fetching s ++ [mkFetch (wp_req r) (peers r)]) (set_request (l1 ++ l2) s)
            end)
| step_fetch s l1 f p ps l2 answer now bio border bseed allExts ctxDone :
    fetching s = l1 ++ mkFetch f (p :: ps) :: l2 →
    (∀ res, answer = Ok res → distinct_exts (Requester.resp_Info res) allExts) →
    let s1 := emit [EvFetch (infoHash f) p] (set_fetching (l1 ++ l2) s) in
    step s (match judge (namePolicy c) (banningChecker c) (infoHash f) answer with
            | NextPeer => set_fetching (l1 ++ mkFetch f ps :: l2) s1
            | Excluded => s1
            | Banned =>
                let '(m, d, _) := Blocking.Block now bio border bseed [infoHash f] "csam" "csam_crawler" false (blk s) (bdb s) in
                emit (EvVerdict <$> recordBlockingVerdict (hasVerdicts c) (infoHash f)) (set_blk m d s1)
            | Accepted res =>
                if contentGate (contentFilter c) (Requester.resp_Info res) allExts && negb ctxDone
                then set_persist (persistQ s ++ [mkWithMetaInfo f (Requester.resp_Info res)]) s1 else s1
            end)
| step_fetch_end s l1 f l2 :
    fetching s = l1 ++ mkFetch f [] :: l2 → step s (set_fetching (l1 ++ l2) s)
| step_persist s batch rest b sent order (committed : bool) :
    persistQ s = batch ++ rest → order ≡ₚ (map_to_list (hashMap b)).*2 →
    persistTorrents (namePolicy c) (savePieces c) (saveFilesThreshold c) batch = Ok b →
    step s (if committed
            then deliver (ToScrape ∘ wm_req <$> take sent order) (set_stored (stored s ++ torrents b) (set_persist rest s))
            else set_persist rest s)
| step_sources s batch rest approximatedSize (committed : bool) :
    sourcesQ s = batch ++ rest →
    step s (if committed
            then set_rows (sourceRows s ++ persistSources approximatedSize batch) (set_sources rest s)
            else set_sources rest s).

(** Runs whose states, before each step, have a list with the property [I]. *)
Inductive run (I : Csam.Manager B → Prop) (s : state) : state → Prop :=
| run_refl : run I s s
| run_step s1 s2 : run I s s1 → I (csam s1) → step s1 s2 → run I s s2.

(** ** Hashes that are barred *)

(** The policy excludes the hash or the list blocks it. *)
Definition barred (h : ID) (m : Csam.Manager B) : Prop :=
  NamePolicy.ExcludesHash (namePolicy c) h = true ∨ Csam.Manager_IsBlocked m h = true.

Definition touches (h : ID) (e : event) : Prop :=
  match e with EvGetPeers h' _ | EvScrape h' _ | EvFetch h' _ => h' = h | _ => False end.

(** The hash that an item is about, once it is past triage. *)
Definition about (x : send) : option ID :=
  match x with
  | ToGetPeers r | ToScrape r => Some (infoHash r)
  | ToRequestMetaInfo r => Some (infoHash (wp_req r))
  | ToPersistSources r => Some (infoHash (ws_req r))
  | _ => None
  end.

(** Nothing past triage is about [h] and nothing was done for it. *)
Record untouched (h : ID) (s : state) : Prop := {
  u_getPeers : Forall (λ r, infoHash r ≠ h) (getPeersQ s);
  u_scrape : Forall (λ r, infoHash r ≠ h) (scrapeQ s);
  u_request : Forall (λ r, infoHash (wp_req r) ≠ h) (requestQ s);
  u_fetching : Forall (λ f, infoHash (f_req f) ≠ h) (fetching s);
  u_persist : Forall (λ i, infoHash (wm_req i) ≠ h) (persistQ s);
  u_sources : Forall (λ i, infoHash (ws_req i) ≠ h) (sourcesQ s);
  u_stored : Forall (λ t, m_InfoHash t ≠ h) (stored s);
  u_rows : Forall (λ t, s_InfoHash t ≠ h) (sourceRows s);
  u_trace : Forall (λ e, ¬ touches h e) (trace s)
}.

Lemma untouched_deliver h xs : ∀ s,
  untouched h s → Forall (λ x, about x ≠ Some h) xs → untouched h (deliver xs s).
Proof.
  induction xs as [|x xs IH]; intros s Hs Hx; [done|]. apply Forall_cons in Hx as [Hx Hxs].
  apply IH; [|done]. destruct Hs.
  destruct x; split; simpl in *; try done; apply Forall_app; (split; [done|]); constructor; try done; simpl; tauto || congruence.
Qed.

Lemma untouched_emit h es s : untouched h s → Forall (λ e, ¬ touches h e) es → untouched h (emit es s).
Proof. intros [] He. split; simpl; try done. by apply Forall_app. Qed.

Lemma verdicts_untouched h vs : Forall (λ e, ¬ touches h e) (EvVerdict <$> vs).
Proof. apply Forall_fmap, Forall_forall. intros v _ []. Qed.

Lemma about_none h xs : Forall (λ x, about x = None) xs → Forall (λ x, about x ≠ Some h) xs.
Proof. intros Hx. eapply Forall_impl; [exact Hx|]. by intros x ->. Qed.

Lemma sample_about seed now later n res k k' seen :
  Forall (λ x, about x = None) (sampleInfoHashes (S := SF) seed now later n res k k' seen).1.
Proof.
  unfold sampleInfoHashes. case_goal; [constructor|]. destruct res as [[[[[? ?] ?] ?] ?]|?|]; [|simpl; by repeat constructor..].
  destruct (discover _ _ _ _) as [hs seen'].
  assert (∀ {A} (f : A → send) l, (∀ a, about (f a) = None) → Forall (λ x, about x = None) (f <$> l)) as Hf
    by (intros A f l' Ha; apply Forall_fmap, Forall_forall; intros; apply Ha).
  case_goal; simpl; [by apply Hf|]. apply Forall_app. split; [by apply Hf|]. constructor; [done|by apply Hf].
Qed.

Lemma sendAny_about mask nodes : Forall (λ x, about x = None) (sendAny mask nodes).
Proof. apply Forall_fmap, Forall_forall. by intros x _. Qed.

Lemma getPeers_about h r res mask ctxDone :
  infoHash r ≠ h → Forall (λ x, about x ≠ Some h) (getPeers r res mask ctxDone).
Proof.
  intros Hr. unfold getPeers. destruct res as [[[[? values] nodes] ?]|?|]; [|by repeat constructor..].
  constructor; [done|]. apply Forall_app. split; [apply about_none, sendAny_about|].
  repeat case_goal; repeat constructor; try done; simpl; congruence.
Qed.

Lemma scrape_about h r res mask ctxDone :
  infoHash r ≠ h → Forall (λ x, about x ≠ Some h) (scrape r res mask ctxDone).
Proof.
  intros Hr. unfold scrape. destruct res as [[[[[? ?] ?] nodes] ?]|?|]; [|by repeat constructor..].
  constructor; [done|]. apply Forall_app. split; [apply about_none, sendAny_about|].
  repeat case_goal; repeat constructor; try done; simpl; congruence.
Qed.

Lemma triage_about h s batch now bio border bseed w vs m d out :
  (∀ X, te_order w X ≡ₚ elements X) → barred h (csam s) →
  triage (namePolicy c) (hasVerdicts c) (verdictsLive c) (saveFilesThreshold c) (rescrapeThreshold c)
    (csam s) now bio border bseed w (blk s) (bdb s) batch = (vs, m, d, Ok out) →
  Forall (λ x, about x ≠ Some h) out.
Proof.
  intros Ho Hb Ht. apply Forall_forall. intros x Hx Ha.
  destruct (triage_out _ _ _ _ _ _ _ _ _ _ _ _ _ _ _ _ _ _ _ Ho Ht Hx) as (r & Hr & [He _] & Hbl).
  assert (infoHash r = h) as <- by (destruct x; simpl in *; congruence).
  destruct Hb; congruence.
Qed.

Lemma untouched_persist h batch rest b s :
  persistQ s = batch ++ rest → untouched h s →
  persistTorrents (namePolicy c) (savePieces c) (saveFilesThreshold c) batch = Ok b →
  Forall (λ t, m_InfoHash t ≠ h) (torrents b) ∧ (∀ h' i, hashMap b !! h' = Some i → infoHash (wm_req i) ≠ h).
Proof.
  intros Hq Hu Hb. apply persistTorrents_from in Hb as [Ht Hm].
  pose proof (u_persist _ _ Hu) as Hp. rewrite Hq, Forall_app in Hp. destruct Hp as [Hp _]. rewrite Forall_forall in Hp. split.
  - apply Forall_forall. intros t (i & Hi & _ & Hc)%Ht. rewrite (createTorrentModel_hash _ _ _ _ _ Hc). by apply Hp.
  - intros h' i Hi. apply Hp. by apply (Hm h').
Qed.

(** Queues without an item. *)
Lemma Forall_remove {A} (P : A → Prop) l1 x l2 : Forall P (l1 ++ x :: l2) → P x ∧ Forall P (l1 ++ l2).
Proof. rewrite !Forall_app, Forall_cons. tauto. Qed.

Lemma untouched_step h s s' : barred h (csam s) → step s s' → untouched h s → untouched h s'.
Proof.
  intros Hb Hs Hu. destruct Hs as
    [s now http order|s seed now later n res k k' out seen Hout|s batch rest now bio border bseed w vs m d out Hq Ho Ht
    |s l1 r l2 res mask ctxDone Hq|s l1 r l2 res mask ctxDone Hq|s l1 r l2 Hq
    |s l1 f p ps l2 answer now bio border bseed allExts ctxDone Hq Hx s1|s l1 f l2 Hq
    |s batch rest b sent order committed Hq Ho Hp|s batch rest approx committed Hq].
  - by destruct Hu; split.
  - apply untouched_deliver; [by destruct Hu; split|]. apply about_none.
    pose proof (sample_about seed now later n res k k' (ignoreHashes s)) as Ha. by rewrite Hout in Ha.
  - apply untouched_deliver; [|by eapply triage_about]. apply untouched_emit; [|apply verdicts_untouched].
    by destruct Hu; split.
  - assert (infoHash r ≠ h ∧ untouched h (set_getPeers (l1 ++ l2) s)) as [Hr Hu'].
    { destruct Hu as [Hg]. rewrite Hq in Hg. apply Forall_remove in Hg as [? ?]. by split; [|split]. }
    apply untouched_deliver; [|by apply getPeers_about]. apply untouched_emit; [done|by repeat constructor].
  - assert (infoHash r ≠ h ∧ untouched h (set_scrape (l1 ++ l2) s)) as [Hr Hu'].
    { destruct Hu as [? Hg]. rewrite Hq in Hg. apply Forall_remove in Hg as [? ?]. by split; [|split]. }
    apply untouched_deliver; [|by apply scrape_about]. apply untouched_emit; [done|by repeat constructor].
  - assert (infoHash (wp_req r) ≠ h ∧ untouched h (set_request (l1 ++ l2) s)) as [Hr Hu'].
    { destruct Hu as [? ? Hg]. rewrite Hq in Hg. apply Forall_remove in Hg as [? ?]. by split; [|split]. }
    destruct (admitRequest _ _ _ _) as [vs|]; [apply untouched_emit; [done|apply verdicts_untouched]|].
    destruct Hu'. split; try done. simpl. apply Forall_app. by split; [|constructor].
  - assert (infoHash f ≠ h ∧ untouched h s1) as [Hr Hu'].
    { destruct Hu as [? ? ? Hg]. rewrite Hq in Hg. apply Forall_remove in Hg as [? ?]. split; [done|].
      apply untouched_emit; [by split|by repeat constructor]. }
    clearbody s1. destruct (judge _ _ _ _) as [| | |res].
    + destruct Hu' as [? ? ? Hf]. destruct Hu as [? ? ? Hg]. rewrite Hq in Hg. split; try done.
      simpl. rewrite Forall_app, Forall_cons in *. naive_solver.
    + done.
    + destruct (Blocking.Block _ _ _ _ _ _ _ _ _ _) as [[m d] ?].
      apply untouched_emit; [by destruct Hu'; split|apply verdicts_untouched].
    + case_goal; [|done]. destruct Hu'. split; try done. simpl. apply Forall_app. split; [apply Hu|by constructor].
  - destruct Hu as [? ? ? Hg]. rewrite Hq in Hg. apply Forall_remove in Hg as [? ?]. by split.
  - destruct (untouched_persist h batch rest b s Hq Hu Hp) as [Hts Hhm].
    assert (untouched h (set_persist rest s)) as Hu'.
    { destruct Hu as [? ? ? ? Hg]. rewrite Hq in Hg. apply Forall_app in Hg as [_ ?]. by split. }
    destruct committed; [|done]. apply untouched_deliver.
    + destruct Hu'. split; try done. simpl. apply Forall_app. split; [apply Hu|done].
    + apply Forall_fmap, Forall_forall. intros i Hi [= Hi']. apply (subseteq_take sent) in Hi. rewrite Ho in Hi.
      apply list_elem_of_fmap in Hi as ([h' i'] & -> & Hi). apply elem_of_map_to_list in Hi. by eapply Hhm.
  - assert (untouched h (set_sources rest s) ∧ Forall (λ i, infoHash (ws_req i) ≠ h) batch) as [Hu' Hba].
    { destruct Hu as [? ? ? ? ? Hg]. rewrite Hq in Hg. apply Forall_app in Hg as [? ?]. by split; [split|]. }
    destruct committed; [|done]. destruct Hu'. split; try done. simpl. apply Forall_app. split; [apply Hu|].
    by apply (persistSources_hashes (λ x, x ≠ h)).
Qed.

(** ** What was stored *)

(** An item that every judge accepted, after a peer was asked for it. *)
Definition judged (es : list event) (i : infoHashWithMetaInfo) : Prop :=
  (∃ peer, EvFetch (infoHash (wm_req i)) peer ∈ es)
  ∧ eligible (namePolicy c) i
  ∧ banningChecker c (metaInfo i) = None
  ∧ ∃ exts, distinct_exts (metaInfo i) exts ∧ contentGate (contentFilter c) (metaInfo i) exts = true.

Definition judged_model (es : list event) (t : torrent_model) : Prop :=
  ∃ i, judged es i ∧ createTorrentModel (infoHash (wm_req i)) (metaInfo i) (savePieces c) (saveFilesThreshold c) = Ok t.

Lemma judged_mono es es' i : judged es i → judged (es ++ es') i.
Proof. intros ((peer & Hp) & Hr). split; [exists peer; set_solver|done]. Qed.

Definition all_judged (s : state) : Prop :=
  Forall (judged (trace s)) (persistQ s) ∧ Forall (judged_model (trace s)) (stored s).

Lemma all_judged_mono s s' es :
  all_judged s → persistQ s' = persistQ s → stored s' = stored s → trace s' = trace s ++ es → all_judged s'.
Proof.
  intros [Hp Hs] E1 E2 E3. unfold all_judged. rewrite E1, E2, E3. split; eapply Forall_impl; eauto using judged_mono.
  intros t (i & Hi & Ht). exists i. eauto using judged_mono.
Qed.

Lemma deliver_kept xs : ∀ s, persistQ (deliver xs s) = persistQ s ∧ stored (deliver xs s) = stored s
  ∧ fetching (deliver xs s) = fetching s
  ∧ ∃ es, trace (deliver xs s) = trace s ++ es ∧ Forall (λ e, ∃ c, e = EvTable c) es.
Proof.
  induction xs as [|x xs IH]; intros s.
  - split_and!; [done..|]. exists []. by rewrite app_nil_r.
  - change (deliver (x :: xs) s) with (deliver xs (deliver1 s x)). destruct (IH (deliver1 s x)) as (-> & -> & -> & es & -> & Hes).
    destruct x; simpl; split_and!; try done; try (by exists es).
    exists (EvTable c0 :: es). rewrite <-app_assoc. split; [done|]. constructor; eauto.
Qed.

Lemma judged_accepted s l1 f p ps l2 answer res allExts :
  fetching s = l1 ++ mkFetch f (p :: ps) :: l2 →
  (∀ res, answer = Ok res → distinct_exts (Requester.resp_Info res) allExts) →
  judge (namePolicy c) (banningChecker c) (infoHash f) answer = Accepted res →
  contentGate (contentFilter c) (Requester.resp_Info res) allExts = true →
  judged (trace s ++ [EvFetch (infoHash f) p]) (mkWithMetaInfo f (Requester.resp_Info res)).
Proof.
  intros Hq Hx Hj Hg. unfold judge in Hj. destruct answer as [r|?|]; try done.
  destruct (NamePolicy.Eligible _) eqn:He; [|done]. simpl in Hj.
  destruct (banningChecker c (Requester.resp_Info r)) eqn:Hban; [done|]. simplify_eq. split_and!.
  - exists p. simpl. set_solver.
  - done.
  - done.
  - exists allExts. split; [by apply Hx|done].
Qed.

Lemma judged_step s s' : step s s' → all_judged s → all_judged s'.
Proof.
  intros Hs Hj. destruct Hs as
    [s now http order|s seed now later n res k k' out seen Hout|s batch rest now bio border bseed w vs m d out Hq Ho Ht
    |s l1 r l2 res mask ctxDone Hq|s l1 r l2 res mask ctxDone Hq|s l1 r l2 Hq
    |s l1 f p ps l2 answer now bio border bseed allExts ctxDone Hq Hx s1|s l1 f l2 Hq
    |s batch rest b sent order committed Hq Ho Hp|s batch rest approx committed Hq].
  1: done.
  1-4: match goal with |- all_judged (deliver ?xs ?s0) =>
         destruct (deliver_kept xs s0) as (E1 & E2 & _ & es & E3 & _);
         eapply all_judged_mono; [exact Hj|by rewrite E1|by rewrite E2|rewrite E3; simpl; rewrite <-?app_assoc; done] end.
  - destruct (admitRequest _ _ _ _); [|done]. by eapply all_judged_mono.
  - destruct (judge _ _ _ _) as [| | |res] eqn:Hjd.
    + by eapply all_judged_mono.
    + by eapply all_judged_mono.
    + destruct (Blocking.Block _ _ _ _ _ _ _ _ _ _) as [[m d] ?]. eapply all_judged_mono; [exact Hj|done..|].
      simpl. by rewrite <-app_assoc.
    + assert (all_judged s1) as [Hj1 Hj2] by by eapply all_judged_mono.
      destruct (contentGate _ _ _ && _) eqn:Hg; [|done]. apply andb_true_iff in Hg as [Hg _].
      split; [|done]. simpl. apply Forall_app. split; [done|]. constructor; [|done]. by eapply judged_accepted.
  - done.
  - destruct Hj as [Hj1 Hj2]. rewrite Hq in Hj1. apply Forall_app in Hj1 as [Hb Hr].
    destruct committed; [|by split].
    apply persistTorrents_from in Hp as [Hp _].
    destruct (deliver_kept (ToScrape ∘ wm_req <$> take sent order) (set_stored (stored s ++ torrents b) (set_persist rest s)))
      as (E1 & E2 & _ & es & E3 & _).
    eapply (all_judged_mono (set_stored (stored s ++ torrents b) (set_persist rest s))); [|done..].
    split; [done|]. simpl. apply Forall_app. split; [done|]. apply Forall_forall. intros t (i & Hi & _ & Hc)%Hp.
    exists i. split; [|done]. by eapply Forall_forall in Hb.
  - by destruct committed.
Qed.

(** ** Fetches in progress *)

(** No request for [h] is in progress and none was made beyond those of [es]. *)
Definition no_fetch (h : ID) (es : list event) (s : state) : Prop :=
  Forall (λ f, infoHash (f_req f) ≠ h) (fetching s) ∧ ∀ peer, EvFetch h peer ∈ trace s → EvFetch h peer ∈ es.

Lemma no_fetch_mono h es s s' es' :
  no_fetch h es s → fetching s' = fetching s → trace s' = trace s ++ es' →
  Forall (λ e, ∀ peer, e ≠ EvFetch h peer) es' → no_fetch h es s'.
Proof.
  intros [Hf Ht] E1 E2 He. unfold no_fetch. rewrite E1, E2. split; [done|].
  intros peer [Hp | Hp]%elem_of_app; [by apply Ht|]. eapply Forall_forall in He; [|done]. by destruct (He peer).
Qed.

Lemma tables_no_fetch h es : Forall (λ e, ∃ c, e = EvTable c) es → Forall (λ e, ∀ peer, e ≠ EvFetch h peer) es.
Proof. intros He. eapply Forall_impl; [exact He|]. by intros e [x ->]. Qed.
Lemma verdicts_no_fetch h vs : Forall (λ e, ∀ peer, e ≠ EvFetch h peer) (EvVerdict <$> vs).
Proof. apply Forall_fmap, Forall_forall. by intros v _ peer. Qed.

Lemma barred_refused h s : barred h (csam s) → admitRequest (namePolicy c) (csam s) (hasVerdicts c) h = Proceed → False.
Proof. unfold barred, admitRequest. destruct (NamePolicy.ExcludesHash _ _); [done|]. intros [? | ->]; done. Qed.

Lemma no_fetch_step h es s s' : barred h (csam s) → step s s' → no_fetch h es s → no_fetch h es s'.
Proof.
  intros Hb Hs Hn. destruct Hs as
    [s now http order|s seed now later n res k k' out seen Hout|s batch rest now bio border bseed w vs m d out Hq Ho Ht
    |s l1 r l2 res mask ctxDone Hq|s l1 r l2 res mask ctxDone Hq|s l1 r l2 Hq
    |s l1 f p ps l2 answer now bio border bseed allExts ctxDone Hq Hx s1|s l1 f l2 Hq
    |s batch rest b sent order committed Hq Ho Hp|s batch rest approx committed Hq].
  1: done.
  1-4: match goal with |- no_fetch _ _ (deliver ?xs ?s0) =>
         destruct (deliver_kept xs s0) as (_ & _ & E1 & es' & E3 & Hes);
         eapply no_fetch_mono; [exact Hn|by rewrite E1|rewrite E3; simpl; rewrite <-?app_assoc; done|];
         rewrite ?Forall_app; split_and?; auto using tables_no_fetch, verdicts_no_fetch; try by repeat constructor end.
  - destruct (admitRequest _ _ _ _) as [vs|] eqn:Ha; [by eapply no_fetch_mono, verdicts_no_fetch|].
    destruct Hn as [Hf Ht]. split; [|done]. simpl. apply Forall_app. split; [done|]. constructor; [|done].
    simpl. intros Hh. rewrite Hh in Ha. by eapply barred_refused.
  - assert (infoHash f ≠ h ∧ no_fetch h es s1) as [Hne Hn1].
    { destruct Hn as [Hf Ht]. rewrite Hq in Hf. apply Forall_remove in Hf as [Hf1 Hf2]. simpl in Hf1.
      split; [done|]. split; [done|]. simpl. intros peer [Hp | [= -> ->]%list_elem_of_singleton]%elem_of_app; [by apply Ht|done]. }
    destruct (judge _ _ _ _) as [| | |res].
    + destruct Hn1 as [Hf Ht]. split; [|done]. simpl in *. rewrite Forall_app, Forall_cons in *. naive_solver.
    + done.
    + destruct (Blocking.Block _ _ _ _ _ _ _ _ _ _) as [[m d] ?]. by eapply no_fetch_mono, verdicts_no_fetch.
    + by case_goal.
  - destruct Hn as [Hf Ht]. rewrite Hq in Hf. apply Forall_remove in Hf as [_ Hf]. by split.
  - destruct committed; [|done].
    destruct (deliver_kept (ToScrape ∘ wm_req <$> take sent order) (set_stored (stored s ++ torrents b) (set_persist rest s)))
      as (_ & _ & E1 & es' & E3 & Hes).
    eapply no_fetch_mono; [exact Hn|by rewrite E1|by rewrite E3|by apply tables_no_fetch].
  - by destruct committed.
Qed.

Lemma run_invariant (P : state → Prop) I s s' :
  (∀ s1 s2, I (csam s1) → step s1 s2 → P s1 → P s2) → P s → run I s s' → P s'.
Proof. intros Hstep Hs. induction 1 as [|s1 s2 Hr IH Hi Hst]; [done|]. by eapply Hstep. Qed.

(** ** Properties *)

(** C10: A hash that the name policy excludes, or that the child-safety list blocks at every moment, is never touched, whatever the network, the database and the order of events: no node is asked for its peers, it is not scraped, its metadata is not requested, and neither a torrent nor a source row is stored for it. *)
Theorem crawler_barred_untouched h m b d seen s :
  run (barred h) (init m b d seen) s →
  Forall (λ e, ¬ touches h e) (trace s) ∧ Forall (λ t, m_InfoHash t ≠ h) (stored s)
  ∧ Forall (λ t, s_InfoHash t ≠ h) (sourceRows s).
Proof.
  intros Hr. apply (run_invariant (untouched h)) in Hr; [by destruct Hr|by eauto using untouched_step|].
  split; simpl; constructor.
Qed.

(** From the moment a hash is blocked or excluded no request for its metadata begins, whatever is still queued for it from before: as long as it stays so, the only requests for it are those made before that moment, given that none was in progress then. *)
Theorem crawler_egress_gate h s s' :
  Forall (λ f, infoHash (f_req f) ≠ h) (fetching s) → run (barred h) s s' →
  ∀ peer, EvFetch h peer ∈ trace s' → EvFetch h peer ∈ trace s.
Proof.
  intros Hf Hr. apply (run_invariant (no_fetch h (trace s))) in Hr; [by destruct Hr|by eauto using no_fetch_step|done].
Qed.

(** C12: Every torrent that the crawler stores was requested from a peer for its hash and its metadata was accepted by the name policy, by the banning checks and by the content filter as configured, and the record stored is the one built from that metadata. *)
Theorem crawler_stored_judged m b d seen s t :
  run (λ _, True) (init m b d seen) s → t ∈ stored s → judged_model (trace s) t.
Proof.
  intros Hr Ht. apply (run_invariant all_judged) in Hr; [|by eauto using judged_step|by split; constructor].
  destruct Hr as [_ Hs]. by eapply Forall_forall in Hs.
Qed.

End crawler.

(** ** Witnesses *)

#[local] Existing Instances ascii_unicode ContentFilter.ascii_fold Regex.ascii_tables NamePolicy.ex_scripts
  Csam.bit_bloom Blocking.two_cells Blocking.rows_store Requester.ex_torrent.

(** A filter that remembers everything. *)
#[local] Instance seen_list : SeenFilter (list ID) := {| testAndAdd _ seen h := (bool_decide (h ∈ seen), h :: seen) |}.

Abbreviation ex_state := (@state (gset Z) (list bytes) (list (ID * Blocking.recovery_state)) (list ID)).

(** The policy excludes hash 1; a torrent is kept as the content filter says. *)
Definition ex_policy : NamePolicy.Policy :=
  NamePolicy.mkPolicy true {[ex_hash 1]} [ex_hash 1] [] [] [] [] [].
Definition ex_c : config :=
  mkConfig (Some ex_policy) false false (Some ContentFilter.enforcing) (λ _, None) 100 false 500.

Definition ex_sampled : node := Node (NodeBase (ex_hash 9) (ex_node 9)) 0 0 None protocolSupportUnknown 0 0 0 0.
Definition ex_samples : outcome string (list ID * list NodeInfo * Z * Z * bool) :=
  Ok ([ex_hash 1; ex_hash 2], [], 2%Z, 10%Z, false).
Definition ex_now : Time := (100 * Second)%Z.
Definition ex_tenv : triage_env := mkTriageEnv None (Some []) elements (λ _, ex_now) 10.
Definition ex_response : Requester.Response :=
  Requester.mkResponse (Requester.mkHandshakeInfo [] []) ex_info.

Definition ex_s0 : ex_state := init Csam.NoOp Blocking.New Blocking.ex_db [].
Definition ex_sample := sampleInfoHashes (λ _, 0%Z) ex_now ex_now ex_sampled ex_samples 5 5 ([] : list ID).
Definition ex_s1 : ex_state := deliver ex_sample.1 (set_seen ex_sample.2 ex_s0).
Definition ex_tri := triage (Some ex_policy) false false 100 500 (Csam.NoOp (B := gset Z)) ex_now Blocking.ex_io [] (λ _, 0%Z) ex_tenv
  (blk ex_s1) (bdb ex_s1) [ex_req 1 9; ex_req 2 9].
Definition ex_s2 : ex_state :=
  deliver [ToGetPeers (ex_req 2 9)] (emit (EvVerdict <$> []) (set_blk ex_tri.1.1.2 ex_tri.1.2 (set_triage [] ex_s1))).
Definition ex_values : outcome string (ID * list AddrPort * list NodeInfo * bool) := Ok (ex_hash 9, [ex_node 5], [], false).
Definition ex_s3 : ex_state :=
  deliver (getPeers (ex_req 2 9) ex_values [] false) (emit [EvGetPeers (ex_hash 2) (ex_node 9)] (set_getPeers [] ex_s2)).
Definition ex_s4 : ex_state := set_fetching [mkFetch (ex_req 2 9) [ex_node 5]] (set_request [] ex_s3).
Definition ex_s5 : ex_state :=
  set_persist [mkWithMetaInfo (ex_req 2 9) ex_info] (emit [EvFetch (ex_hash 2) (ex_node 5)] (set_fetching [] ex_s4)).

Lemma ex_sample_step : step ex_c ex_s0 ex_s1.
Proof. eapply step_sample. apply surjective_pairing. Qed.
Lemma ex_triage_step : step ex_c ex_s1 ex_s2.
Proof.
  apply (step_triage ex_c ex_s1 [ex_req 1 9; ex_req 2 9] [] ex_now Blocking.ex_io [] (λ _, 0%Z) ex_tenv [] ex_tri.1.1.2 ex_tri.1.2);
    [by vm_compute|by intros X|by vm_compute].
Qed.
Lemma ex_getPeers_step : step ex_c ex_s2 ex_s3.
Proof. by eapply (step_getPeers ex_c ex_s2 [] (ex_req 2 9) []); vm_compute. Qed.
Lemma ex_admit_step : step ex_c ex_s3 ex_s4.
Proof. by apply (step_admit ex_c ex_s3 [] (mkWithPeers (ex_req 2 9) [ex_node 5]) []); vm_compute. Qed.

Lemma ex_fetch_step : step ex_c ex_s4 ex_s5.
Proof.
  assert (judge (namePolicy ex_c) (banningChecker ex_c) (ex_hash 2) (Ok ex_response) = Accepted ex_response) as Hj by by vm_compute.
  assert (contentGate (contentFilter ex_c) ex_info [runes_of "mkv"] = true) as Hg by by vm_compute.
  pose proof (step_fetch ex_c ex_s4 [] (ex_req 2 9) (ex_node 5) [] [] (Ok ex_response) 0 Blocking.ex_io [] (λ _, 0%Z)
           [runes_of "mkv"] false) as Hs.
  simpl infoHash in Hs. rewrite Hj in Hs. cbv beta iota zeta in Hs. change (Requester.resp_Info ex_response) with ex_info in Hs.
  rewrite Hg in Hs. apply Hs; [done|]. intros res [= <-]. by vm_compute.
Qed.

Lemma ex_run5 (I : Csam.Manager (gset Z) → Prop) : I Csam.NoOp → run ex_c I ex_s0 ex_s5.
Proof.
  intros HI. apply run_step with ex_s4; [|exact HI|exact ex_fetch_step]. apply run_step with ex_s3; [|exact HI|exact ex_admit_step].
  apply run_step with ex_s2; [|exact HI|exact ex_getPeers_step]. apply run_step with ex_s1; [|exact HI|exact ex_triage_step].
  apply run_step with ex_s0; [constructor|exact HI|exact ex_sample_step].
Qed.

Lemma ex_barred m : barred ex_c (ex_hash 1) m.
Proof. left. by vm_compute. Qed.

Lemma crawler_barred_untouched_witness :
  EvFetch (ex_hash 2) (ex_node 5) ∈ trace ex_s5 ∧ Forall (λ e, ¬ touches (ex_hash 1) e) (trace ex_s5).
Proof.
  split; [apply elem_of_app; right; left|].
  apply (crawler_barred_untouched ex_c (ex_hash 1) Csam.NoOp Blocking.New Blocking.ex_db [] ex_s5).
  apply ex_run5, ex_barred.
Defined.

(** A request for hash 1 is queued; it is refused. *)
Definition ex_q : ex_state := set_request [mkWithPeers (ex_req 1 9) [ex_node 5]] ex_s0.
Lemma ex_refuse_step : step ex_c ex_q (emit [] ex_s0).
Proof. by apply (step_admit ex_c ex_q [] (mkWithPeers (ex_req 1 9) [ex_node 5]) []). Qed.

Lemma crawler_egress_gate_witness :
  length (requestQ ex_q) = 1 ∧ EvFetch (ex_hash 1) (ex_node 5) ∉ trace (emit [] ex_s0).
Proof.
  split; [reflexivity|]. intros Hin.
  apply (crawler_egress_gate ex_c (ex_hash 1) ex_q (emit [] ex_s0)) in Hin; [by inversion Hin|constructor|].
  eapply run_step; [constructor|apply ex_barred|exact ex_refuse_step].
Defined.

Definition ex_batch5 := persistTorrents (Some ex_policy) false 100 [mkWithMetaInfo (ex_req 2 9) ex_info].
Definition ex_model : torrent_model := mkTorrentModel (ex_hash 2) (Name ex_info) 0 false FilesStatusSingle None [] None.

Lemma crawler_stored_judged_witness :
  ∃ s, run ex_c (λ _, True) ex_s0 s ∧ ex_model ∈ stored s ∧ judged_model ex_c (trace s) ex_model.
Proof.
  assert (∃ s, run ex_c (λ _, True) ex_s0 s ∧ ex_model ∈ stored s) as (s & Hr & Ht).
  { eexists. split.
    - eapply run_step; [apply ex_run5; done|done|].
      eapply (step_persist ex_c ex_s5 [mkWithMetaInfo (ex_req 2 9) ex_info] [] _ 0 _ true); [done|reflexivity|by vm_compute].
    - left. }
  exists s. split; [exact Hr|]. split; [exact Ht|].
  exact (crawler_stored_judged ex_c Csam.NoOp Blocking.New Blocking.ex_db [] s ex_model Hr Ht).
Defined.

End Crawler.
